(* ===== verification/_CoqProject ===== *)
-Q . S2P
Prelude.v
State.v
GoStrings.v
Strconv.v
Payload.v
Envelope.v
EnvelopeCodec.v
Topics.v
TopicIndex.v
Router.v
Codec.v
Packets.v
PacketsV3.v
PropertiesV5.v
PacketsV5.v
PacketsV5Zero.v
Inflight.v
SendWindow.v
ConsumerGroup.v
QueueConfig.v
MemLog.v
MemStores.v
SessionEncode.v
Session.v
SessionCache.v
AmqpTypes.v
AmqpMethods.v
AmqpFrame.v
Routing.v
Base64.v
QueueErrors.v
GroupStore.v
ConsumerState.v
ConsumerStateFacts.v
LogGroups.v
LogAdapter.v
LogAdapterFacts.v
ConsumerFilter.v
ConsumerManager.v
ConsumerManagerFacts.v
ConsumerSafety.v
ConsumerClaims.v
ConsumerExamples.v
AmqpArgs.v
AmqpChannel.v
AmqpLogic.v
AmqpContent.v
AmqpSecurity.v
AmqpDelivery.v
AmqpConsumers.v
AmqpExamples.v
