(* ===== verification/Prelude.v ===== *)
(** * FluxMQ: a verification library

    FluxMQ is a message broker in Go that speaks MQTT 3.1, 3.1.1 and 5.0 and
    AMQP 0.9.1 and 1.0, with durable queues and consumer groups behind the
    protocols.  This library models parts of it as Rocq functions and proves
    what they promise.  File names below are relative to [src/].

    ** The program and its parts

    A connection is sniffed for its protocol version and then read packet by
    packet ([mqtt/connection.go], [mqtt/packets], [mqtt/codec]), or frame by
    frame when it speaks AMQP ([amqp/codec], [amqp/broker]).  A publication
    becomes an envelope over a shared payload ([message], [payload]) and is
    matched against the subscriptions of the node ([broker/router], [topics])
    and against the topic patterns of the queues ([queue/storage]).  A session
    ([mqtt/session]) tracks what is in flight in both directions
    ([storage/messages]), holds messages for a client that is away, and limits
    what it sends to the Receive Maximum of the client.  A queue is an
    append-only log ([queue/storage/memory/log], [logstorage]) read by consumer
    groups that keep a cursor and a list of pending entries ([queue/types]).
    The consumer manager ([queue/consumer]) claims, settles and steals records
    for them, over stores that keep the groups in memory or on disk
    ([logstorage]).

    ** Files: foundations

    - [Prelude] (this file): outcomes of Go functions, machine integers, bytes,
      field update of records, the tactics and hints of the library, lemmas on
      lists.
    - [State]: the state monad of the handlers and two ways to reason about it,
      relations every step keeps ([keeps]) and triples ([triple]).
    - [GoStrings], [Strconv], [Base64]: what the sources use of packages
      [strings], [strconv], [encoding/base64] and of UTF-8.

    ** Files: messages and topics

    - [Topics] ([topics/*.go]): matching, validation, shared-subscription
      groups and the translation between AMQP and MQTT topics.  [TopicMatch] is
      proved to decide the wildcard relation on level lists.
    - [TopicIndex] ([queue/storage/patterntrie.go], [topic.go]): the pattern
      trie and the index from topics to queues, refined to a scan of all
      patterns.
    - [Router] ([broker/router]): the subscription trie, refined to a map from
      filter and client to subscription.
    - [Routing] ([broker/routing.go], [pubsub.go], [queue/consumer/groupid.go]):
      which topics are messages, settlements and commits of queues.
    - [Payload] ([payload]): reference-counted buffers over a pool; every holder
      reads the bytes the buffer was made with.
    - [Envelope], [EnvelopeCodec] ([message]): the envelope, its metadata and
      projections, and its persisted form; decoding inverts encoding and is safe
      on arbitrary bytes.

    ** Files: MQTT

    - [Codec] ([mqtt/codec]): the wire primitives, over an [io.Reader] and over
      a byte slice.
    - [Packets], [PacketsV3] ([mqtt/packets], [v3]): fixed header, version
      detection and the fourteen packet types of MQTT 3.1 and 3.1.1; reading
      inverts encoding, arbitrary bytes are safe to read, and the zero-copy
      reader agrees with the stream reader but for SUBACK and UNSUBSCRIBE, the
      flags it does not check and a length cut off at the end of a SUBSCRIBE.
    - [PropertiesV5], [PacketsV5], [PacketsV5Zero] ([mqtt/packets/v5]): the
      properties and the fifteen packet types of MQTT 5.0, with the same
      theorems.
    - [Inflight] ([storage/messages]): the in-flight tracker and the offline
      queue; ownership of envelopes, bounds, exactly-once admission, FIFO order.
    - [SendWindow] ([mqtt/session/sendwindow.go]): the send window as a step
      relation over concurrent senders; no lost wakeups in any interleaving.
    - [SessionEncode], [Session], [SessionCache] ([mqtt/session]): the PUBLISH
      of a delivery, the session with its lifecycle, Will and identifiers, and
      the sharded cache of sessions.  A cycle of retransmissions is its locked
      admission and the unlocked rest, between which a client may attach.
    - [MemStores] ([storage/memory]): the subscription store, refined to a map,
      and the retained, message, will and session stores.

    ** Files: AMQP 0.9.1

    - [AmqpTypes], [AmqpMethods], [AmqpFrame] ([amqp/codec]): field encodings,
      the sixty methods, frames and content headers; round trips, and decoding of
      arbitrary bytes gives well-typed values or an error.
    - [AmqpArgs], [AmqpChannel] ([amqp/broker]): the connection with its
      channels as a state machine whose calls to the outside are a trace.
    - [AmqpLogic]: the program logic for those handlers.  [AmqpContent],
      [AmqpSecurity], [AmqpDelivery], [AmqpConsumers]: publications and confirms;
      what publishers cannot do; acknowledgements and the prefetch window; queue
      registrations.  A handler runs without interruption, except that for the
      window the deliveries are cut into their critical sections, which
      interleave.  [AmqpExamples]: a connection to run.

    ** Files: queues and consumer groups

    - [ConsumerGroup] ([queue/types/log.go]): cursor, pending entries and
      membership of a group, and the routing-key functions.
    - [QueueConfig] ([queue/types/config.go]): defaults, translation of the
      configuration file, validation.
    - [QueueErrors] ([queue/errors.go]): classes of failures and their replies.
    - [MemLog] ([queue/storage/memory/log/store.go]): the in-memory queue store;
      the invariant under interleavings of its map operations, into which
      creation, deletion, restore and the other handlers are cut; deduplicated
      appends, snapshot and restore.
    - [GroupStore] ([queue/storage/log.go]): what the queue code needs of its
      stores, as a class of operations and a class of laws.
    - [ConsumerState], [ConsumerStateFacts] ([logstorage/consumer_state.go]): the
      durable progress of a group, sharded, with an operation log and snapshots;
      recovery after any history of log writes that succeed, fail or are cut
      short, and after a crash inside a compaction, the acknowledgement floor,
      independence of the number of shards.
    - [LogGroups] ([logstorage/consumer_group.go]): group files; what a restart
      loads, older files of a group included, and that no two groups share a
      path.
    - [LogAdapter], [LogAdapterFacts] ([logstorage/adapter.go], [store.go],
      [consumer_manager.go]): the group operations of the disk store over the two
      previous parts, and the proof that they satisfy the laws of [GroupStore]
      under any failures of the file system.
    - [ConsumerFilter] ([queue/consumer/filter.go]): routing-key filters.
    - [ConsumerManager] ([queue/consumer/manager.go]): claims, batches, stealing,
      settlement, dead-letter transfers, streams, commits, members, written over
      the operations of [GroupStore].  [ConsumerManagerFacts] proves each
      operation against the laws, [ConsumerSafety] composes them into runs: the
      positions of a group never move back and the committed position of a queue
      group never passes a pending record; that of a stream does not either,
      under a condition on [AdvanceCommitted].  Writes that other parts make to
      the stores past the manager are not in these runs.  [ConsumerClaims]:
      claims take and find the next deliverable record, and the retention point
      loses no pending one.
    - [ConsumerExamples]: the manager over the disk adapter on a concrete broker,
      where the theorems of both apply.

    ** Conventions

    A Go function keeps its name; a method of a type with a common name is
    prefixed with it ([Publish_Encode]).  A function that returns an error or
    can panic maps into [outcome]; a nil pointer is [None]; [r <| f := v |>]
    assigns a field.  Methods that hold a mutex for their whole body are atomic
    functions from state to state; where the code drops a lock or blocks, the
    parts are separate steps of an inductive relation and theorems quantify over
    all interleavings.  The order in which Go walks a map is an argument,
    constrained to be a permutation of the entries; so is what a pool hands out.
    [time.Now] is an argument, or a function of a counter of its readings, and
    so are the answers of the file system; the answers of other services are
    functions of the trace of calls.  A write to a store that returns an error
    may have happened.  A package outside the repository is a class of
    operations with the laws its documentation gives ([Protowire]).  Envelopes
    handed back or released are outputs, so that ownership can be counted.
    Integers are [Z] with the wrap-around of their width written out ([u16],
    [u32], [u64], [i64]); [int] is 64 bits.

    ** Fuel and bounds

    Loops that cut one level off a string per round run on fuel [S (length s)];
    variable byte integers end within four (decoding) or five (appending)
    rounds; loops over the rest of a packet, a table or an encoded message run
    on fuel one more than its length.  The search for a packet identifier takes
    at most 65,536 rounds, a cursor scan at most the 1024 records of the code's
    own bound, and the advance of the acknowledgement floor the distance to the
    cursor.  Each is proved sufficient: the theorems state the result, not that a
    result would be right.  The theorems on logs assume offsets below [2^63],
    the range in which the code's conversions to [int] are exact.

    ** Not modelled

    The orchestration of queues ([queue/manager.go], [record_core.go],
    [state_machine.go], [queue/delivery]) over the manager and the stores, and
    its replication ([queue/raft]), which is a client of the raft library; the
    segment files, indexes and recovery of the disk log, the queue half of the
    disk adapter; the MQTT protocol handlers ([mqtt/broker]); handshake,
    heartbeats, statistics and administration of AMQP 0.9.1; AMQP 1.0
    ([amqp1]).  Network listeners, TLS, HTTP and gRPC services, cluster
    membership over etcd, persistent stores over Badger, generated code and the
    client libraries are I/O or third-party behaviour and stay outside. *)

From Stdlib Require Import ZArith Lia Bool Strings.Byte.
From stdpp Require Import prelude gmap strings.

Set Default Goal Selector "!".

(** ** Scope of the development's own notations *)

Declare Scope flux_scope.
Delimit Scope flux_scope with flux.
Open Scope flux_scope.
#[global] Open Scope Z_scope.

(** ** Outcomes of Go functions

    A Go function that can return an [error] or panic is a function into
    [outcome E A]: [Ret] is the normal return, [Fail] a non-nil error value,
    [Panic] a run-time panic (index out of range, nil dereference). *)

Inductive outcome (E A : Type) : Type :=
| Ret (a : A)
| Fail (e : E)
| Panic.
Arguments Ret {E A} a.
Arguments Fail {E A} e.
Arguments Panic {E A}.

#[export] Instance outcome_ret {E} : MRet (outcome E) := fun A a => Ret a.
#[export] Instance outcome_bind {E} : MBind (outcome E) := fun A B f m =>
  match m with Ret a => f a | Fail e => Fail e | Panic => Panic end.
#[export] Instance outcome_fmap {E} : FMap (outcome E) := fun A B f m =>
  match m with Ret a => Ret (f a) | Fail e => Fail e | Panic => Panic end.

Lemma Ret_inj {E A} (a b : A) : Ret (E := E) a = Ret b → a = b.
Proof. by intros [=]. Qed.

#[export] Instance outcome_eq_dec {E A} `{EqDecision E, EqDecision A} :
  EqDecision (outcome E A).
Proof. solve_decision. Defined.

(** ** Fixed-width integers

    A Go integer of width [w] is a [Z]; the wrap-around of its operations is
    written where the source can reach it. *)

Definition u8 (z : Z) : Z := z mod 2 ^ 8.
Definition u16 (z : Z) : Z := z mod 2 ^ 16.
Definition u32 (z : Z) : Z := z mod 2 ^ 32.
Definition u64 (z : Z) : Z := z mod 2 ^ 64.
(** [int] and [int64] are the two's complement reading of 64 bits. *)
Definition i64 (z : Z) : Z := (z + 2 ^ 63) mod 2 ^ 64 - 2 ^ 63.
Definition i32 (z : Z) : Z := (z + 2 ^ 31) mod 2 ^ 32 - 2 ^ 31.

Lemma u8_range z : 0 <= u8 z < 256.
Proof. apply Z.mod_pos_bound. lia. Qed.
Lemma u16_range z : 0 <= u16 z < 65536.
Proof. apply Z.mod_pos_bound. lia. Qed.
Lemma u64_range z : 0 <= u64 z < 2 ^ 64.
Proof. apply Z.mod_pos_bound. lia. Qed.
Lemma u8_small z : 0 <= z < 256 → u8 z = z.
Proof. apply Z.mod_small. Qed.
Lemma u16_small z : 0 <= z < 65536 → u16 z = z.
Proof. apply Z.mod_small. Qed.
Lemma u32_small z : 0 <= z < 2 ^ 32 → u32 z = z.
Proof. apply Z.mod_small. Qed.
Lemma u64_small z : 0 <= z < 2 ^ 64 → u64 z = z.
Proof. apply Z.mod_small. Qed.
Lemma i64_small z : - 2 ^ 63 <= z < 2 ^ 63 → i64 z = z.
Proof. intros H. unfold i64. rewrite Z.mod_small; lia. Qed.
Lemma i32_small z : - 2 ^ 31 <= z < 2 ^ 31 → i32 z = z.
Proof. intros H. unfold i32. rewrite Z.mod_small; lia. Qed.

(** ** Bytes *)

Definition b2z (b : byte) : Z := Z.of_N (Byte.to_N b).
(** The Go conversion [byte(z)]: truncation to the low eight bits. *)
Definition z2b (z : Z) : byte :=
  match Byte.of_N (Z.to_N (u8 z)) with Some b => b | None => x00 end.

Lemma b2z_range b : 0 <= b2z b < 256.
Proof.
  unfold b2z. pose proof (Byte.to_N_bounded b). lia.
Qed.

Lemma z2b_b2z b : z2b (b2z b) = b.
Proof. by destruct b. Qed.

Lemma b2z_z2b z : b2z (z2b z) = u8 z.
Proof.
  unfold z2b. pose proof (u8_range z).
  destruct (Byte.of_N (Z.to_N (u8 z))) as [b|] eqn:E.
  - apply Byte.to_of_N in E. unfold b2z. rewrite E. lia.
  - apply Byte.of_N_None_iff in E. lia.
Qed.

Lemma b2z_inj b1 b2 : b2z b1 = b2z b2 → b1 = b2.
Proof. intros H. by rewrite <-(z2b_b2z b1), <-(z2b_b2z b2), H. Qed.

#[export] Instance byte_eq_dec : EqDecision byte := Byte.byte_eq_dec.

Create HintDb flux.
Create Rewrite HintDb flux.
#[export] Hint Resolve u8_range u16_range u64_range b2z_range : flux.
#[export] Hint Rewrite b2z_z2b z2b_b2z : flux.

(** ** Tactics of the development *)

(** Simplify the monadic structure of a hypothesis or the goal. *)
Ltac go_simpl :=
  repeat (simpl in *; simplify_eq;
          unfold mbind, mret, fmap, outcome_bind, outcome_ret, outcome_fmap in *).

(** Case analysis on the scrutinee of the next [match] or [if] of the goal. *)
Ltac go_case :=
  match goal with
  | |- context [ match ?x with _ => _ end ] => destruct x eqn:?
  end.

(** Turn Boolean comparisons of the context into propositions. *)
Ltac bool_prop :=
  repeat match goal with
  | H : (_ && _) = true |- _ => apply andb_true_iff in H as [? ?]
  | H : (_ || _) = false |- _ => apply orb_false_iff in H as [? ?]
  | H : negb _ = true |- _ => apply negb_true_iff in H
  | H : negb _ = false |- _ => apply negb_false_iff in H
  | H : (_ <? _) = true |- _ => apply Z.ltb_lt in H
  | H : (_ <? _) = false |- _ => apply Z.ltb_ge in H
  | H : (_ <=? _) = true |- _ => apply Z.leb_le in H
  | H : (_ <=? _) = false |- _ => apply Z.leb_gt in H
  | H : (_ =? _) = true |- _ => apply Z.eqb_eq in H
  | H : (_ =? _) = false |- _ => apply Z.eqb_neq in H
  | H : bool_decide _ = true |- _ => apply bool_decide_eq_true in H
  | H : bool_decide _ = false |- _ => apply bool_decide_eq_false in H
  end.

(** ** Field assignment

    [r <| f := v |>] is the record [r] with field [f] set to [v], Go's [r.f = v].
    A record type declares its eta expansion once, as an instance of [Eta]; the
    update of a field is found by abstracting the projection in it. *)

Class Eta (R : Type) := eta : R → R.
Class Update {R T : Type} (field : R → T) := update : (T → T) → R → R.
Arguments update {R T} field {_} g r : rename.

Ltac build_update field :=
  let e := lazymatch type of field with ?R → _ => eval unfold eta in (eta : R → R) end in
  let e := eval red in e in
  lazymatch eval pattern field in e with
  | ?h _ => exact (λ g, h (λ r, g (field r)))
  end.
#[export] Hint Extern 1 (Update ?field) => build_update field : typeclass_instances.

Notation "r <| f := v |>" := (update f (λ _, v) r)
  (at level 12, f at next level, left associativity, format "r  <| f  :=  v |>") : flux_scope.

(** ** Lists *)

Section lists.
Context {A : Type}.
  Implicit Types (l : list A) (x y : A).

Lemma insert_swap_perm l i x y :
    l !! i = Some x → x :: <[i := y]> l ≡ₚ y :: l.
  Proof.
    intros Hi. rewrite insert_take_drop by (by eapply lookup_lt_Some).
    rewrite <-(take_drop_middle l i x Hi) at 3.
    rewrite <-!Permutation_middle. apply perm_swap.
  Qed.

  (** Removal by overwriting with the last element and cutting the slice. *)
Lemma swap_remove_perm l i x z :
    l !! i = Some x → l !! (length l - 1)%nat = Some z →
    x :: take (length l - 1) (<[i := z]> l) ≡ₚ l.
  Proof.
    destruct l as [|z' l' _] using rev_ind; [done|].
    rewrite length_app. simpl.
    replace (length l' + 1 - 1)%nat with (length l') by lia.
    intros Hi Hz. rewrite lookup_app_r, Nat.sub_diag in Hz by lia. simplify_eq/=.
    destruct (decide (i < length l')%nat) as [Hlt|].
    - rewrite lookup_app_l in Hi by done. rewrite insert_app_l by done.
      rewrite take_app_length' by (by rewrite length_insert).
      rewrite (insert_swap_perm _ _ _ _ Hi). by rewrite Permutation_cons_append.
    - assert (i = length l') as ->.
      { apply lookup_lt_Some in Hi. rewrite length_app in Hi. simpl in Hi. lia. }
      rewrite lookup_app_r, Nat.sub_diag in Hi by lia. simplify_eq/=.
      rewrite insert_app_r_alt, Nat.sub_diag by lia. simpl.
      rewrite take_app_length. by rewrite Permutation_cons_append.
  Qed.
End lists.

#[export] Instance concat_proper {A} : Proper ((≡ₚ) ==> (≡ₚ)) (@concat A).
Proof.
  induction 1; simpl; [done|by f_equiv| |by etrans].
  rewrite !app_assoc. f_equiv. apply Permutation_app_comm.
Qed.

Lemma elem_of_concat {A} (x : A) ls : x ∈ concat ls ↔ ∃ l, l ∈ ls ∧ x ∈ l.
Proof.
  induction ls as [|l ls IH]; simpl; [set_solver|]. rewrite elem_of_app, IH. set_solver.
Qed.

(** ** Maps *)

(** Updating through the pointer a map holds. *)
Lemma alter_as_insert {K A} `{Countable K} (f : A → A) (m : gmap K A) i x :
  m !! i = Some x → alter f i m = <[i := f x]> m.
Proof.
  intros Hx. apply map_eq. intros j. destruct (decide (j = i)) as [->|].
  - by rewrite lookup_alter_eq, lookup_insert_eq, Hx.
  - by rewrite lookup_alter_ne, lookup_insert_ne.
Qed.
