(* ===== verification/State.v ===== *)
(** * Stateful code and how to reason about it

    Handlers are functions of a state: [state S A] is the state monad, with [gets],
    [modify] and loops over slices.  [keeps R m] says that [m] moves the state along
    the preorder [R]; [keeps (same f) m] that an observation [f] of it does not change.
    [state_step] takes such a goal apart along the structure of the code. *)

From Stdlib Require Import ZArith Lia.
From stdpp Require Import prelude.
From S2P Require Import Prelude.

Definition state (S A : Type) : Type := S → A * S.
#[export] Instance M_ret {S} : MRet (state S) := λ A a s, (a, s).
#[export] Instance M_bind {S} : MBind (state S) := λ A B f m s, let '(a, s) := m s in f a s.

Section operations.
Context {S : Type}.

Definition gets {A} (f : S → A) : state S A := λ s, (f s, s).
Definition modify (f : S → S) : state S unit := λ s, (tt, f s).
Definition when (b : bool) (m : state S unit) : state S unit := if b then m else mret tt.
Fixpoint for_each {A} (l : list A) (f : A → state S unit) : state S unit :=
  match l with
  | [] => mret tt
  | a :: l => f a;; for_each l f
  end.
(** A call whose error is dropped or only logged. *)
Definition ignore {A} (m : state S A) : state S unit := m;; mret tt.

Lemma M_bind_eq {A B} (m : state S A) (f : A → state S B) s : (m ≫= f) s = f (m s).1 (m s).2.
Proof. unfold mbind, M_bind. by destruct (m s). Qed.
Lemma M_ret_eq {A} (a : A) s : (mret a : state S A) s = (a, s).
Proof. done. Qed.

(** ** The logic *)

Definition keeps (R : S → S → Prop) {A} (m : state S A) : Prop := ∀ s, R s (m s).2.

Lemma keeps_weaken (R R' : S → S → Prop) {A} (m : state S A) :
  (∀ s s', R s s' → R' s s') → keeps R m → keeps R' m.
Proof. intros HR Hm s. apply HR, Hm. Qed.

(** [m] leaves an observation of the state as it was. *)
Definition same {X} (f : S → X) (s s' : S) : Prop := f s' = f s.
#[export] Instance same_preorder {X} (f : S → X) : PreOrder (same f).
Proof. split; [done|]. intros s1 s2 s3 H1 H2. by transitivity (f s2). Qed.

Section keeps.
Context (R : S → S → Prop) `{!PreOrder R}.

Lemma keeps_ret {A} (a : A) : keeps R (mret a : state S A).
Proof. intros s. simpl. reflexivity. Qed.
Lemma keeps_bind {A B} (m : state S A) (f : A → state S B) :
  keeps R m → (∀ a, keeps R (f a)) → keeps R (m ≫= f).
Proof. intros Hm Hf s. rewrite M_bind_eq. etrans; [apply Hm|apply Hf]. Qed.
Lemma keeps_gets {A} (f : S → A) : keeps R (gets f).
Proof. intros s. simpl. reflexivity. Qed.
Lemma keeps_ignore {A} (m : state S A) : keeps R m → keeps R (ignore m).
Proof. intros Hm. apply keeps_bind; [done|]. intros. apply keeps_ret. Qed.
Lemma keeps_when b m : keeps R m → keeps R (when b m).
Proof. intros Hm. destruct b; [done|apply keeps_ret]. Qed.
Lemma keeps_for_each {A} (l : list A) f : (∀ a, a ∈ l → keeps R (f a)) → keeps R (for_each l f).
Proof.
  induction l as [|a l IH]; intros Hf; simpl; [apply keeps_ret|].
  apply keeps_bind; [apply Hf; set_solver|]. intros _. apply IH. set_solver.
Qed.
End keeps.

(** ** Triples: what holds of the result and the state after a run *)

Definition triple (P : S → Prop) {A} (m : state S A) (Q : A → S → Prop) : Prop :=
  ∀ s, P s → Q (m s).1 (m s).2.

Lemma triple_ret {A} (a : A) (P : S → Prop) Q : (∀ s, P s → Q a s) → triple P (mret a) Q.
Proof. intros H s. apply H. Qed.
Lemma triple_bind {A B} P (m : state S A) (f : A → state S B) R Q :
  triple P m R → (∀ a, triple (R a) (f a) Q) → triple P (m ≫= f) Q.
Proof. intros Hm Hf s HP. rewrite M_bind_eq. by apply Hf, Hm. Qed.
Lemma triple_conseq {A} (P P' : S → Prop) (m : state S A) (Q Q' : A → S → Prop) :
  triple P m Q → (∀ s, P' s → P s) → (∀ a s, Q a s → Q' a s) → triple P' m Q'.
Proof. intros H HP HQ s Hs. by apply HQ, H, HP. Qed.
Lemma triple_gets {A} P (f : S → A) : triple P (gets f) (λ a s, P s ∧ a = f s).
Proof. by intros s HP. Qed.
Lemma triple_for_each {A} P (l : list A) f :
  (∀ a, a ∈ l → triple P (f a) (λ _, P)) → triple P (for_each l f) (λ _, P).
Proof.
  induction l as [|a l IH]; intros Hf; simpl; [by apply triple_ret|].
  eapply triple_bind; [apply Hf; set_solver|]. intros ?. apply IH. set_solver.
Qed.
End operations.

(** Take [keeps R m] apart along the structure of [m]. *)
Ltac state_step :=
  lazymatch goal with
  | |- keeps ?R (mret _) => apply (keeps_ret R)
  | |- keeps ?R (_ ≫= _) => apply (keeps_bind R); [|intros ?]
  | |- keeps ?R (gets _) => apply (keeps_gets R)
  | |- keeps ?R (ignore _) => apply (keeps_ignore R)
  | |- keeps ?R (when _ _) => apply (keeps_when R)
  | |- keeps ?R (for_each _ _) => apply (keeps_for_each R); intros ? ?
  | |- keeps ?R (match ?x with _ => _ end) => destruct x
  | |- keeps ?R (let _ := _ in _) => cbv zeta
  end.
