(* ===== verification/GoStrings.v ===== *)
(** * The part of Go's [strings] and [unicode/utf8] packages FluxMQ uses

    Go strings are byte strings; they are [String.string] here.  Every
    separator and searched character in the modelled code is one ASCII byte,
    so the functions take an [ascii].  [Cut] and [Split] are tied together by
    [Split_Cut], which is what lets the allocation-free loops of the source be
    compared with level lists. *)

From Stdlib Require Import ZArith Lia Bool Ascii String Strings.Byte Wf_nat.
From stdpp Require Import prelude gmap strings.
From S2P Require Import Prelude.

#[local] Arguments String.append !s1 s2 / : simpl nomatch.


(** [strings.Cut(s, sep)]: the text before and after the first [sep], and
    whether [sep] occurs.  Without an occurrence the second part is empty. *)
Fixpoint Cut (sep : ascii) (s : string) : string * string * bool :=
  match s with
  | EmptyString => (EmptyString, EmptyString, false)
  | String c s' =>
      if Ascii.eqb c sep then (EmptyString, s', true)
      else let '(a, b, more) := Cut sep s' in (String c a, b, more)
  end.

(** [strings.Split(s, sep)]. *)
Fixpoint Split (sep : ascii) (s : string) : list string :=
  match s with
  | EmptyString => [EmptyString]
  | String c s' =>
      if Ascii.eqb c sep then EmptyString :: Split sep s'
      else match Split sep s' with
           | h :: t => String c h :: t
           | [] => [String c EmptyString]
           end
  end.

(** [strings.SplitN(s, sep, 2)]. *)
Definition SplitN2 (sep : ascii) (s : string) : list string :=
  let '(a, b, more) := Cut sep s in if more then [a; b] else [a].

(** [strings.Join(l, sep)]. *)
Fixpoint Join (sep : ascii) (l : list string) : string :=
  match l with
  | [] => EmptyString
  | [x] => x
  | x :: l' => x +:+ String sep (Join sep l')
  end.

(** [strings.Contains(s, c)] for a one-byte [c], [strings.ContainsAny]. *)
Fixpoint Contains (s : string) (c : ascii) : bool :=
  match s with
  | EmptyString => false
  | String d s' => Ascii.eqb d c || Contains s' c
  end.

Definition ContainsAny (s : string) (cs : list ascii) : bool :=
  existsb (Contains s) cs.

(** [strings.HasPrefix] and [strings.TrimPrefix]. *)
Definition HasPrefix (s p : string) : bool := String.prefix p s.

Fixpoint drop_str (n : nat) (s : string) : string :=
  match n, s with
  | O, _ => s
  | S n', String _ s' => drop_str n' s'
  | S _, EmptyString => EmptyString
  end.

Definition TrimPrefix (s p : string) : string :=
  if HasPrefix s p then drop_str (String.length p) s else s.

(** [strings.ReplaceAll(s, from, to)] for one-byte [from] and [to], and the
    byte-wise rewriting loops built with a [strings.Builder]. *)
Fixpoint map_str (f : ascii → ascii) (s : string) : string :=
  match s with
  | EmptyString => EmptyString
  | String c s' => String (f c) (map_str f s')
  end.

Definition ReplaceAll (s : string) (from to : ascii) : string :=
  map_str (λ c, if Ascii.eqb c from then to else c) s.

(** [s[0]]; [None] is the index-out-of-range panic on the empty string. *)
Definition first_byte (s : string) : option ascii :=
  match s with EmptyString => None | String c _ => Some c end.

Definition str_eqb (a b : string) : bool := bool_decide (a = b).

(** ** [utf8.ValidString]

    The accept ranges of the Go implementation, by leading byte. *)
Definition is_cont (z : Z) : bool := (0x80 <=? z) && (z <=? 0xBF).

Definition in_range (lo hi z : Z) : bool := (lo <=? z) && (z <=? hi).

Fixpoint valid_utf8 (l : list Z) : bool :=
  match l with
  | [] => true
  | b0 :: l1 =>
      if b0 <? 0x80 then valid_utf8 l1
      else if in_range 0xC2 0xDF b0 then
        match l1 with
        | b1 :: l2 => is_cont b1 && valid_utf8 l2
        | _ => false
        end
      else if in_range 0xE0 0xEF b0 then
        match l1 with
        | b1 :: b2 :: l3 =>
            in_range (if b0 =? 0xE0 then 0xA0 else 0x80)
                     (if b0 =? 0xED then 0x9F else 0xBF) b1
            && is_cont b2 && valid_utf8 l3
        | _ => false
        end
      else if in_range 0xF0 0xF4 b0 then
        match l1 with
        | b1 :: b2 :: b3 :: l4 =>
            in_range (if b0 =? 0xF0 then 0x90 else 0x80)
                     (if b0 =? 0xF4 then 0x8F else 0xBF) b1
            && is_cont b2 && is_cont b3 && valid_utf8 l4
        | _ => false
        end
      else false
  end.

Definition bytes_of (s : string) : list byte := list_byte_of_string s.
Definition string_of (l : list byte) : string := string_of_list_byte l.

Definition ValidString (s : string) : bool := valid_utf8 (b2z <$> bytes_of s).

Lemma string_of_bytes_of s : string_of (bytes_of s) = s.
Proof. apply string_of_list_byte_of_string. Qed.
Lemma bytes_of_string_of l : bytes_of (string_of l) = l.
Proof. apply list_byte_of_string_of_list_byte. Qed.
Lemma length_bytes_of s : length (bytes_of s) = String.length s.
Proof. unfold bytes_of. induction s as [|c s IH]; simpl; [done|]. by rewrite <-IH. Qed.

#[export] Hint Rewrite string_of_bytes_of bytes_of_string_of length_bytes_of : flux.

(** ** Laws *)

Lemma str_eqb_true a b : str_eqb a b = true ↔ a = b.
Proof. apply bool_decide_eq_true. Qed.
Lemma str_eqb_false a b : str_eqb a b = false ↔ a ≠ b.
Proof. apply bool_decide_eq_false. Qed.
Lemma str_eqb_refl a : str_eqb a a = true.
Proof. by apply str_eqb_true. Qed.

Lemma app_str_nil_r s : s +:+ EmptyString = s.
Proof. induction s as [|c s IH]; simpl; [done|]. by rewrite IH. Qed.

Lemma app_str_assoc (a b c : string) : (a +:+ b) +:+ c = a +:+ (b +:+ c).
Proof. induction a as [|x a IH]; simpl; [done|]. by rewrite IH. Qed.

Lemma Split_nonempty sep s : ∃ h t, Split sep s = h :: t.
Proof.
  induction s as [|c s IH]; simpl; [eauto|].
  destruct (Ascii.eqb c sep); [eauto|]. destruct IH as (h & t & ->). eauto.
Qed.

Lemma Split_app sep a b : Split sep (a +:+ String sep b) = Split sep a ++ Split sep b.
Proof.
  induction a as [|c a IH].
  - change (Split sep (String sep b) = EmptyString :: Split sep b). cbn. by rewrite Ascii.eqb_refl.
  - change (String c a +:+ String sep b) with (String c (a +:+ String sep b)). cbn [Split]. rewrite IH.
    destruct (Ascii.eqb c sep); [done|]. by destruct (Split_nonempty sep a) as (h & t & ->).
Qed.

Lemma Split_none sep a : Contains a sep = false → Split sep a = [a].
Proof.
  induction a as [|c a IH]; simpl; [done|]. intros [Hc Ha]%orb_false_iff. by rewrite Hc, IH.
Qed.

(** The law the level-walking loops rest on: cutting at the separator peels
    the first element of the split. *)
Lemma Split_Cut sep s :
  Split sep s = let '(a, b, more) := Cut sep s in
                if more then a :: Split sep b else [a].
Proof.
  induction s as [|c s IH]; simpl; [done|].
  destruct (Ascii.eqb c sep) eqn:E; [done|].
  rewrite IH. destruct (Cut sep s) as [[a b] [|]]; done.
Qed.

Lemma Cut_length sep s a b :
  Cut sep s = (a, b, true) → (String.length b < String.length s)%nat.
Proof.
  revert a b. induction s as [|c s IH]; simpl; intros a b H; [done|].
  destruct (Ascii.eqb c sep); [simplify_eq; lia|].
  destruct (Cut sep s) as [[a' b'] m] eqn:E; simplify_eq.
  specialize (IH _ _ eq_refl). lia.
Qed.

Lemma Cut_more_false sep s a b : Cut sep s = (a, b, false) → a = s ∧ b = EmptyString.
Proof.
  revert a b. induction s as [|c s IH]; simpl; intros a b H; [by simplify_eq|].
  destruct (Ascii.eqb c sep); [done|].
  destruct (Cut sep s) as [[a' b'] m]; simplify_eq.
  destruct (IH _ _ eq_refl) as [-> ->]. done.
Qed.

Lemma Cut_more_true sep s a b :
  Cut sep s = (a, b, true) → s = a +:+ String sep b.
Proof.
  revert a b. induction s as [|c s IH]; simpl; intros a b H; [done|].
  destruct (Ascii.eqb_spec c sep) as [->|]; [by simplify_eq|].
  destruct (Cut sep s) as [[a' b'] m]; simplify_eq.
  by rewrite (IH _ _ eq_refl).
Qed.

Lemma Cut_no_sep sep s a b more : Cut sep s = (a, b, more) → Contains a sep = false.
Proof.
  revert a b. induction s as [|c s IH]; simpl; intros a b H; [by simplify_eq|].
  destruct (Ascii.eqb c sep) eqn:E; [by simplify_eq|].
  destruct (Cut sep s) as [[a' b'] m]; simplify_eq/=. rewrite E. eauto.
Qed.

Lemma Cut_app sep a b :
  Contains a sep = false → Cut sep (a +:+ String sep b) = (a, b, true).
Proof.
  induction a as [|c a IH]; simpl; intros H.
  - by rewrite Ascii.eqb_refl.
  - apply orb_false_iff in H as [-> H]. by rewrite IH.
Qed.

Lemma Cut_none sep a : Contains a sep = false → Cut sep a = (a, EmptyString, false).
Proof.
  induction a as [|c a IH]; simpl; intros H; [done|].
  apply orb_false_iff in H as [-> H]. by rewrite IH.
Qed.

Lemma Join_Split sep s : Join sep (Split sep s) = s.
Proof.
  induction s as [|c s IH]; simpl; [done|].
  destruct (Split_nonempty sep s) as (h & t & E). rewrite E in *.
  destruct (Ascii.eqb_spec c sep) as [->|]; simpl in *; [by rewrite IH|].
  destruct t; simpl in *; by rewrite <-IH.
Qed.

Lemma Split_inj sep s1 s2 : Split sep s1 = Split sep s2 → s1 = s2.
Proof. intros H. by rewrite <-(Join_Split sep s1), <-(Join_Split sep s2), H. Qed.

(** Induction along [Split]: the scheme of the loops that cut one level at a
    time. *)
Lemma cut_ind (sep : ascii) (P : string → Prop) :
  (∀ s a, Cut sep s = (a, EmptyString, false) → Split sep s = [a] → P s) →
  (∀ s a b, Cut sep s = (a, b, true) → Split sep s = a :: Split sep b → P b → P s) →
  ∀ s, P s.
Proof.
  intros Hlast Hmore s.
  induction s as [s IH] using (induction_ltof1 _ String.length).
  pose proof (Split_Cut sep s) as Hs.
  destruct (Cut sep s) as [[a b] [|]] eqn:E.
  - apply (Hmore s a b); [done..|]. apply IH. red. by eapply Cut_length.
  - destruct (Cut_more_false _ _ _ _ E) as [_ ->]. by apply (Hlast s a).
Qed.

(** [Contains] through the structure of levels. *)
Lemma Contains_app s t c : Contains (s +:+ t) c = Contains s c || Contains t c.
Proof. induction s as [|d s IH]; simpl; [done|]. by rewrite IH, orb_assoc. Qed.

Lemma Contains_level sep c s l :
  l ∈ Split sep s → Contains s c = false → Contains l c = false.
Proof.
  revert l. induction s as [s a _ Hs|s a b Hc Hs IH] using (cut_ind sep);
    intros l Hl Hn; rewrite Hs in Hl.
  - apply list_elem_of_singleton in Hl as ->.
    by rewrite <-(Join_Split sep s), Hs in Hn.
  - apply Cut_more_true in Hc as ->. rewrite Contains_app in Hn.
    apply orb_false_iff in Hn as [Ha Hb]. simpl in Hb.
    apply orb_false_iff in Hb as [_ Hb].
    apply elem_of_cons in Hl as [->|Hl]; eauto.
Qed.

Lemma Contains_sep_level sep s l : l ∈ Split sep s → Contains l sep = false.
Proof.
  revert l. induction s as [s a Hc Hs|s a b Hc Hs IH] using (cut_ind sep);
    intros l Hl; rewrite Hs in Hl.
  - apply list_elem_of_singleton in Hl as ->. by eapply Cut_no_sep.
  - apply elem_of_cons in Hl as [->|Hl]; [by eapply Cut_no_sep|eauto].
Qed.

Lemma map_str_length f s : String.length (map_str f s) = String.length s.
Proof. induction s as [|c s IH]; simpl; [done|]. by rewrite IH. Qed.

Lemma map_str_compose f g s : map_str f (map_str g s) = map_str (f ∘ g) s.
Proof. induction s as [|c s IH]; simpl; [done|]. by rewrite IH. Qed.

Lemma map_str_id f s :
  (∀ c, Contains s c = true → f c = c) → map_str f s = s.
Proof.
  induction s as [|c s IH]; simpl; intros H; [done|].
  rewrite (H c) by (by rewrite Ascii.eqb_refl). f_equal. apply IH.
  intros d Hd. apply H. by rewrite Hd, orb_true_r.
Qed.
