(* ===== verification/Strconv.v ===== *)
(** * Package strconv

    What the sources use of Go's [strconv]: decimal rendering and parsing of
    64-bit integers, and booleans.  A parser returns its error instead of the
    value; no caller reads the value next to an error.

    The lemmas show that parsing inverts rendering, for every integer that fits
    64 bits and for booleans. *)

From Stdlib Require Import ZArith Lia Bool Ascii String.
From stdpp Require Import prelude gmap strings.
From S2P Require Import Prelude GoStrings.

Inductive NumErr := ErrSyntax | ErrRange.

(** ** Rendering *)

Definition digit (d : Z) : ascii := ascii_of_nat (Z.to_nat (48 + d)).

Fixpoint FormatUint_loop (fuel : nat) (n : Z) (acc : string) : string :=
  match fuel with
  | O => acc
  | S fuel =>
      let acc := String (digit (n mod 10)) acc in
      if n <? 10 then acc else FormatUint_loop fuel (n / 10) acc
  end.

(** [2^64] has twenty digits. *)
Definition FormatUint (n : Z) : string := FormatUint_loop 20 n EmptyString.
Definition FormatInt (n : Z) : string :=
  if n <? 0 then String "-" (FormatUint (- n)) else FormatUint n.
Definition FormatBool (b : bool) : string := if b then "true"%string else "false"%string.

(** ** Parsing *)

Definition digit_value (c : ascii) : option Z :=
  let z := Z.of_nat (nat_of_ascii c) in
  if (48 <=? z) && (z <=? 57) then Some (z - 48) else None.

Definition maxUint64 : Z := 2 ^ 64 - 1.

Fixpoint ParseUint_loop (s : string) (n : Z) : outcome NumErr Z :=
  match s with
  | EmptyString => Ret n
  | String c s =>
      match digit_value c with
      | None => Fail ErrSyntax
      | Some d =>
          if maxUint64 / 10 + 1 <=? n then Fail ErrRange
          else
            let n := u64 (n * 10) in
            let n1 := u64 (n + d) in
            if (n1 <? n) || (maxUint64 <? n1) then Fail ErrRange else ParseUint_loop s n1
      end
  end.

Definition ParseUint (s : string) : outcome NumErr Z :=
  match s with EmptyString => Fail ErrSyntax | _ => ParseUint_loop s 0 end.

Definition ParseInt (s : string) : outcome NumErr Z :=
  let signed (neg : bool) (s : string) :=
    un ← ParseUint s;
    if negb neg && (2 ^ 63 <=? un) then Fail ErrRange
    else if neg && (2 ^ 63 <? un) then Fail ErrRange
    else Ret (if neg then i64 (- i64 un) else i64 un) in
  match s with
  | EmptyString => Fail ErrSyntax
  | String c rest =>
      if bool_decide (c = "+"%char) then signed false rest
      else if bool_decide (c = "-"%char) then signed true rest
      else signed false s
  end.

Definition ParseBool (s : string) : outcome NumErr bool :=
  if bool_decide (s ∈ ["1"; "t"; "T"; "true"; "TRUE"; "True"]%string) then Ret true
  else if bool_decide (s ∈ ["0"; "f"; "F"; "false"; "FALSE"; "False"]%string) then Ret false
  else Fail ErrSyntax.

(** * Properties *)

Lemma digit_value_digit d : 0 <= d < 10 → digit_value (digit d) = Some d.
Proof.
  intros Hd. unfold digit_value, digit. rewrite nat_ascii_embedding by lia.
  rewrite Z2Nat.id by lia. rewrite (proj2 (Z.leb_le 48 _)), (proj2 (Z.leb_le _ 57)) by lia.
  simpl. f_equal. lia.
Qed.

Lemma FormatUint_loop_acc fuel : ∀ n acc,
  FormatUint_loop fuel n acc = FormatUint_loop fuel n EmptyString +:+ acc.
Proof.
  induction fuel as [|fuel IH]; intros n acc; [done|]. simpl.
  destruct (n <? 10); [done|]. rewrite IH, (IH _ (String _ EmptyString)), app_str_assoc. done.
Qed.

Lemma ParseUint_loop_app a b : ∀ n,
  ParseUint_loop (a +:+ b) n = (m ← ParseUint_loop a n; ParseUint_loop b m).
Proof.
  induction a as [|c a IH]; intros n; [done|]. simpl. destruct (digit_value c); [|done].
  repeat (case_match; [done|]). apply IH.
Qed.

Lemma ParseUint_loop_digit d n s : 0 <= d < 10 → 0 <= n → n * 10 + d <= maxUint64 →
  ParseUint_loop (String (digit d) s) n = ParseUint_loop s (n * 10 + d).
Proof.
  intros Hd Hn Hm. cbn [ParseUint_loop]. rewrite digit_value_digit by done.
  change (maxUint64 / 10 + 1) with 1844674407370955162.
  change maxUint64 with 18446744073709551615 in Hm.
  rewrite (proj2 (Z.leb_gt _ n)) by lia. rewrite (u64_small (n * 10)), u64_small by lia.
  rewrite (proj2 (Z.ltb_ge (n * 10 + d) _)), (proj2 (Z.ltb_ge maxUint64 _)) by (unfold maxUint64; lia).
  done.
Qed.

Lemma ParseUint_FormatUint_loop fuel : ∀ n, 0 <= n < 10 ^ Z.of_nat fuel → n <= maxUint64 →
  ParseUint_loop (FormatUint_loop fuel n EmptyString) 0 = Ret n.
Proof.
  induction fuel as [|fuel IH]; intros n Hn Hm; [simpl in *; f_equal; lia|].
  cbn [FormatUint_loop]. pose proof (Z.mod_pos_bound n 10 eq_refl).
  destruct (n <? 10) eqn:E; bool_prop.
  - rewrite ParseUint_loop_digit by (unfold maxUint64; lia). simpl. f_equal.
    rewrite Z.mod_small; lia.
  - pose proof (Z.div_mod n 10 ltac:(lia)). rewrite Nat2Z.inj_succ, Z.pow_succ_r in Hn by lia.
    rewrite FormatUint_loop_acc, ParseUint_loop_app, IH; [|split; [|apply Z.div_lt_upper_bound]; lia|].
    + unfold mbind, outcome_bind. rewrite ParseUint_loop_digit by lia. simpl. f_equal. lia.
    + unfold maxUint64 in *. lia.
Qed.

Lemma FormatUint_nonempty n : FormatUint n ≠ EmptyString.
Proof.
  change (FormatUint n) with (if n <? 10 then String (digit (n mod 10)) EmptyString
    else FormatUint_loop 19 (n / 10) (String (digit (n mod 10)) EmptyString)).
  destruct (n <? 10); [done|]. rewrite FormatUint_loop_acc. by destruct (FormatUint_loop 19 _ _).
Qed.

Lemma ParseUint_FormatUint n : 0 <= n < 2 ^ 64 → ParseUint (FormatUint n) = Ret n.
Proof.
  intros Hn. pose proof (FormatUint_nonempty n) as Hne. unfold ParseUint.
  destruct (FormatUint n) eqn:E; [done|]. rewrite <-E. apply ParseUint_FormatUint_loop;
    [simpl; lia|unfold maxUint64; lia].
Qed.

(** The first character of a rendered integer is a digit. *)
Lemma FormatUint_loop_head fuel : ∀ n c s acc, 0 <= n →
  (acc = EmptyString ∨ ∃ d s', acc = String (digit d) s' ∧ 0 <= d < 10) →
  FormatUint_loop fuel n acc = String c s → ∃ d, c = digit d ∧ 0 <= d < 10.
Proof.
  induction fuel as [|fuel IH]; intros n c s acc Hn Hacc; simpl.
  - intros ->. destruct Hacc as [?|(d & s' & [= -> ->] & Hd)]; [done|eauto].
  - pose proof (Z.mod_pos_bound n 10 eq_refl). destruct (n <? 10); [intros [= <- <-]; eauto|].
    apply IH; [apply Z.div_pos; lia|]. right. eauto.
Qed.

Lemma digit_not_sign d : 0 <= d < 10 → digit d ≠ "+"%char ∧ digit d ≠ "-"%char.
Proof.
  intros Hd. assert (H : ∀ c, digit_value c = None → digit d ≠ c).
  { intros c Hc E. rewrite <-E, digit_value_digit in Hc by done. done. }
  split; by apply H.
Qed.

Lemma ParseInt_FormatInt n : - 2 ^ 63 <= n < 2 ^ 63 → ParseInt (FormatInt n) = Ret n.
Proof.
  intros Hn. unfold FormatInt. destruct (n <? 0) eqn:E; bool_prop.
  - cbn -[ParseUint FormatUint]. rewrite ParseUint_FormatUint by lia.
    unfold mbind, outcome_bind. rewrite (proj2 (Z.ltb_ge _ _)) by lia.
    f_equal. unfold i64.
    destruct (decide (n = - 2 ^ 63)) as [->|]; [done|].
    rewrite (Z.mod_small (- n + 2 ^ 63)) by lia. rewrite Z.mod_small by lia. lia.
  - unfold ParseInt. pose proof (FormatUint_nonempty n). destruct (FormatUint n) as [|c s] eqn:Ef; [done|].
    destruct (FormatUint_loop_head 20 n c s EmptyString) as (d & -> & Hd); [lia|by left|done|].
    destruct (digit_not_sign d Hd). rewrite !bool_decide_false by done. rewrite <-Ef.
    rewrite ParseUint_FormatUint by lia. unfold mbind, outcome_bind.
    rewrite (proj2 (Z.leb_gt _ _)) by lia. simpl. by rewrite i64_small by lia.
Qed.

Lemma ParseBool_FormatBool b : ParseBool (FormatBool b) = Ret b.
Proof. by destruct b. Qed.
