(* ===== verification/Payload.v ===== *)
(** * Reference-counted payload buffers (src/payload/buffer.go)

    The buffers live in a heap, by address; nil is [None].  A buffer's slice is
    a length over a backing array, so that reslicing a recycled buffer shows the
    bytes of its previous owner.  What a [sync.Pool] returns is an argument:
    the position of a kept buffer, or none, when its [New] runs; the runtime may
    also drop kept buffers at any time.  A method is one atomic step: between
    the counter reaching zero and the return to the pool no other goroutine owns
    a reference.

    Theorem: as long as each holder of a reference releases it at most once,
    the counters are the numbers of holders, no release is a double release, and
    every holder reads the bytes the buffer was created with, however buffers
    are recycled. *)

From Stdlib Require Import ZArith Lia Bool Strings.Byte.
From stdpp Require Import gmultiset prelude gmap.
From S2P Require Import Prelude.

Module Payload.

(** ** Size classes *)

Inductive size_class := Small | Medium | Large.

#[export] Instance size_class_eq_dec : EqDecision size_class.
Proof. solve_decision. Defined.

Definition class_size (c : size_class) : Z :=
  match c with Small => 1024 | Medium => 65536 | Large => 1048576 end.

(** One value per class. *)
Record classes (A : Type) := mkClasses { small : A; medium : A; large : A }.
Arguments mkClasses {A}.
Arguments small {A}.
Arguments medium {A}.
Arguments large {A}.

Definition at_class {A} (c : size_class) (m : classes A) : A :=
  match c with Small => small m | Medium => medium m | Large => large m end.
Definition set_class {A} (c : size_class) (a : A) (m : classes A) : classes A :=
  match c with
  | Small => mkClasses a (medium m) (large m)
  | Medium => mkClasses (small m) a (large m)
  | Large => mkClasses (small m) (medium m) a
  end.

(** ** Buffers *)

(** [data] is the first [blen] bytes of [barray]; [pooled] tells a non-nil [pool]. *)
Record Buffer := mkBuffer { barray : list byte; blen : Z; refs : Z; pooled : bool }.

Definition data (b : Buffer) : list byte := take (Z.to_nat (blen b)) (barray b).
Definition newBuffer (arr : list byte) (len : Z) (pool : bool) : Buffer := mkBuffer arr len 1 pool.
Definition make_array (n : Z) : list byte := replicate (Z.to_nat n) x00.

(** The buffers, the three pools with their counters, and [doubleReleaseCount]. *)
Record heap := mkHeap {
  buffers : gmap nat Buffer;
  next : nat;
  free : classes (list nat);
  gets : classes Z;
  misses : classes Z;
  doubleReleaseCount : Z
}.
#[export] Instance eta_heap : Eta heap := λ h,
  mkHeap (buffers h) (next h) (free h) (gets h) (misses h) (doubleReleaseCount h).

Definition empty_heap : heap :=
  mkHeap ∅ 0 (mkClasses [] [] []) (mkClasses 0 0 0) (mkClasses 0 0 0) 0.

Definition bump (c : size_class) (m : classes Z) : classes Z :=
  set_class c (u64 (at_class c m + 1)) m.

Definition alloc (b : Buffer) (h : heap) : nat * heap :=
  (next h, h <| buffers := <[next h := b]> (buffers h) |> <| next := S (next h) |>).
Definition store (a : nat) (f : Buffer → Buffer) (h : heap) : heap :=
  h <| buffers := alter f a (buffers h) |>.

(** [sync.Pool.Get] of one class. *)
Definition pool_Get (c : size_class) (pick : option nat) (h : heap) : nat * heap :=
  match pick ≫= λ i, (i,.) <$> at_class c (free h) !! i with
  | Some (i, a) => (a, h <| free := set_class c (delete i (at_class c (free h))) (free h) |>)
  | None => alloc (newBuffer (make_array (class_size c)) 0 true)
                  (h <| misses := bump c (misses h) |>)
  end.

(** The class of a size; [None] is larger than the largest. *)
Definition class_of (size : Z) : option size_class :=
  if size <=? class_size Small then Some Small
  else if size <=? class_size Medium then Some Medium
  else if size <=? class_size Large then Some Large
  else None.

Definition get (pick : option nat) (size : Z) (h : heap) : nat * heap :=
  match class_of size with
  | None =>
      alloc (newBuffer (make_array size) size false)
        (h <| gets := bump Large (gets h) |> <| misses := bump Large (misses h) |>)
  | Some c =>
      let '(a, h) := pool_Get c pick (h <| gets := bump c (gets h) |>) in
      (a, store a (λ b, mkBuffer (barray b) size 1 (pooled b)) h)
  end.

(** [copy(buf.data, bytes)] of at most as many bytes. *)
Definition copy_into (bs : list byte) (b : Buffer) : Buffer :=
  mkBuffer (bs ++ drop (length bs) (barray b)) (blen b) (refs b) (pooled b).

Definition FromBytes (pick : option nat) (bs : list byte) (h : heap) : option nat * heap :=
  match bs with
  | [] => (None, h)
  | _ => let '(a, h) := get pick (Z.of_nat (length bs)) h in
         (Some a, store a (copy_into bs) h)
  end.

Definition Bytes (a : option nat) (h : heap) : list byte :=
  match a ≫= λ a, buffers h !! a with Some b => data b | None => [] end.
Definition Len (a : option nat) (h : heap) : Z := Z.of_nat (length (Bytes a h)).

Definition set_refs (n : Z) (b : Buffer) : Buffer := mkBuffer (barray b) (blen b) n (pooled b).

Definition Retain (a : option nat) (h : heap) : heap :=
  match a with
  | None => h
  | Some a => store a (λ b, set_refs (i32 (refs b + 1)) b) h
  end.

(** [put]: by the capacity of the slice. *)
Definition class_of_cap (n : Z) : option size_class :=
  if n =? class_size Small then Some Small
  else if n =? class_size Medium then Some Medium
  else if n =? class_size Large then Some Large
  else None.

Definition put (a : nat) (b : Buffer) (h : heap) : heap :=
  match class_of_cap (Z.of_nat (length (barray b))) with
  | Some c => h <| free := set_class c (a :: at_class c (free h)) (free h) |>
  | None => h
  end.

Definition Release (a : option nat) (h : heap) : heap :=
  match a with
  | None => h
  | Some a =>
      match buffers h !! a with
      | None => h
      | Some b =>
          let n := i32 (refs b - 1) in
          let b := set_refs n b in
          let h := store a (set_refs n) h in
          if n =? 0 then if pooled b then put a b h else h
          else if n <? 0 then
            store a (set_refs 0) (h <| doubleReleaseCount := u64 (doubleReleaseCount h + 1) |>)
          else h
      end
  end.

Definition RefCount (a : option nat) (h : heap) : Z :=
  match a ≫= λ a, buffers h !! a with Some b => refs b | None => 0 end.

Definition hits (gets misses : Z) : Z := if gets <? misses then 0 else u64 (gets - misses).
Definition Stats (h : heap) : classes Z * classes Z :=
  (mkClasses (hits (small (gets h)) (small (misses h))) (hits (medium (gets h)) (medium (misses h)))
     (hits (large (gets h)) (large (misses h))), misses h).

End Payload.

(** * Properties *)

Module PayloadFacts.
Import Payload.

(** ** Holders

    The references held, by address, and for each address the bytes its present
    owner stored. *)
Record world := mkWorld { mem : heap; held : gmultiset nat; contents : gmap nat (list byte) }.

(** Counters are 32 bits wide: fewer references than that exist. *)
Definition room (hs : gmultiset nat) : Prop := Z.of_nat (size hs) < 2 ^ 31 - 1.

(** The runtime dropped some of the kept buffers. *)
Definition drained (f f' : classes (list nat)) : Prop := ∀ c, sublist (at_class c f') (at_class c f).

Inductive step : world → world → Prop :=
| step_from pick bs h hs cs a h' :
    FromBytes pick bs h = (Some a, h') → room hs →
    step (mkWorld h hs cs) (mkWorld h' ({[+ a +]} ⊎ hs) (<[a := bs]> cs))
| step_retain h hs cs a :
    a ∈ hs → room hs →
    step (mkWorld h hs cs) (mkWorld (Retain (Some a) h) ({[+ a +]} ⊎ hs) cs)
| step_release h hs cs a :
    a ∈ hs → step (mkWorld h hs cs) (mkWorld (Release (Some a) h) (hs ∖ {[+ a +]}) cs)
| step_drain h hs cs f :
    drained (free h) f → step (mkWorld h hs cs) (mkWorld (h <| free := f |>) hs cs).

Definition init : world := mkWorld empty_heap ∅ ∅.

(** ** The invariant *)

Definition kept (a : nat) (h : heap) : Prop := ∃ c, a ∈ at_class c (free h).

Record inv (w : world) : Prop := {
  inv_refs a b : buffers (mem w) !! a = Some b → refs b = Z.of_nat (multiplicity a (held w));
  inv_held a : a ∈ held w → ∃ b, buffers (mem w) !! a = Some b ∧ contents w !! a = Some (data b);
  inv_next a : is_Some (buffers (mem w) !! a) → (a < next (mem w))%nat;
  inv_free a c : a ∈ at_class c (free (mem w)) →
    a ∉ held w ∧ ∃ b, buffers (mem w) !! a = Some b ∧ pooled b = true ∧
      Z.of_nat (length (barray b)) = class_size c;
  inv_pooled a b : buffers (mem w) !! a = Some b → pooled b = true →
    ∃ c, Z.of_nat (length (barray b)) = class_size c;
  inv_nodup c : NoDup (at_class c (free (mem w)));
  inv_double : doubleReleaseCount (mem w) = 0;
  inv_size : Z.of_nat (size (held w)) < 2 ^ 31
}.

Lemma class_of_cap_size c : class_of_cap (class_size c) = Some c.
Proof. by destruct c. Qed.
Lemma class_size_inj c c' : class_size c = class_size c' → c = c'.
Proof. by destruct c, c'. Qed.

Lemma at_set_class {A} c c' (a : A) m :
  at_class c (set_class c' a m) = if decide (c = c') then a else at_class c m.
Proof. by destruct c, c'. Qed.

Lemma class_of_bound size c : class_of size = Some c → size <= class_size c.
Proof.
  unfold class_of. repeat (destruct (_ <=? _) eqn:?; bool_prop; [intros [= <-]; lia|]). done.
Qed.

Lemma multiplicity_le_size a (hs : gmultiset nat) : (multiplicity a hs ≤ size hs)%nat.
Proof.
  destruct (decide (multiplicity a hs = 0%nat)) as [->|Hn]; [lia|].
  assert (H : (multiplicity a hs *: {[+ a +]}) ⊆ hs).
  { intros x. rewrite multiplicity_scalar_mul, multiplicity_singleton. case_decide; subst; lia. }
  apply gmultiset_subseteq_size in H. rewrite gmultiset_size_scalar_mul in H.
  rewrite gmultiset_size_singleton in H. lia.
Qed.

(** ** Allocation *)

(** What [get] gives: a buffer nobody holds and no pool keeps, of one reference. *)
Lemma get_ok w pick size a h' : inv w → 0 <= size → get pick size (mem w) = (a, h') →
  a ∉ held w ∧
  (∃ b, buffers h' = <[a := b]> (buffers (mem w)) ∧ blen b = size ∧ refs b = 1 ∧
        size <= Z.of_nat (length (barray b)) ∧
        (pooled b = true → ∃ c, Z.of_nat (length (barray b)) = class_size c)) ∧
  (a < next h')%nat ∧ (next (mem w) ≤ next h')%nat ∧
  (∀ c, sublist (at_class c (free h')) (at_class c (free (mem w))) ∧ a ∉ at_class c (free h')) ∧
  doubleReleaseCount h' = doubleReleaseCount (mem w).
Proof.
  intros Hinv Hs. assert (Hnew : next (mem w) ∉ held w ∧ ∀ c, next (mem w) ∉ at_class c (free (mem w))).
  { split; [intros (b & Hb & _)%(inv_held _ Hinv)|intros c (_ & b & Hb & _)%(inv_free _ Hinv)];
      apply mk_is_Some, (inv_next _ Hinv) in Hb; lia. }
  assert (Harr : ∀ n, 0 <= n → Z.of_nat (length (make_array n)) = n).
  { intros n Hn. unfold make_array. rewrite length_replicate. lia. }
  destruct Hnew as [Hn1 Hn2]. unfold get. destruct (class_of size) as [c|] eqn:Hc.
  - unfold pool_Get. cbn -[class_size make_array].
    destruct (pick ≫= _) as [[i a']|] eqn:Hp; cbn -[class_size make_array];
      intros [= <- <-]; cbn -[class_size make_array].
    + apply bind_Some in Hp as (j & -> & Hj). apply fmap_Some in Hj as (a'' & Hj & [= -> ->]).
      assert (Hin : a'' ∈ at_class c (free (mem w))) by by eapply list_elem_of_lookup_2.
      destruct (inv_free _ Hinv _ _ Hin) as (Hh & b & Hb & Hp & Hl).
      split_and!; [done| | |done| |done].
      * eexists. split; [by apply alter_as_insert|]. cbn -[class_size]. rewrite Hl.
        split_and!; [done..|by apply class_of_bound|by exists c].
      * by eapply (inv_next _ Hinv).
      * intros c'. rewrite at_set_class. pose proof (inv_nodup _ Hinv c) as Hnd.
        case_decide as E; [subst c'; split; [apply sublist_delete|]|split; [done|]].
        -- rewrite (delete_Permutation _ _ _ Hj) in Hnd. by apply NoDup_cons in Hnd as [? _].
        -- intros Hin'. destruct (inv_free _ Hinv _ _ Hin') as (_ & b' & Hb' & _ & Hl').
           simplify_eq. apply E, class_size_inj. lia.
    + split_and!; [done| |lia|lia|done|done].
      eexists. split; [by rewrite alter_insert_eq|]. cbn -[class_size make_array].
      rewrite Harr by (by destruct c). split_and!; [done..|by apply class_of_bound|by exists c].
  - cbn -[make_array]. intros [= <- <-]. cbn -[make_array].
    split_and!; [done| |lia|lia|done|done].
    eexists. split; [done|]. cbn -[make_array]. rewrite Harr by done. by split_and!.
Qed.

Lemma data_copy_into bs b : blen b = Z.of_nat (length bs) → data (copy_into bs b) = bs.
Proof. intros Hl. unfold data, copy_into. simpl. by rewrite Hl, Nat2Z.id, take_app_length. Qed.
Lemma cap_copy_into bs b : blen b = Z.of_nat (length bs) → blen b <= Z.of_nat (length (barray b)) →
  length (barray (copy_into bs b)) = length (barray b).
Proof. intros Hl Hb. unfold copy_into. simpl. rewrite length_app, length_drop. lia. Qed.

Lemma inv_from w pick bs a h' : inv w → room (held w) → FromBytes pick bs (mem w) = (Some a, h') →
  inv (mkWorld h' ({[+ a +]} ⊎ held w) (<[a := bs]> (contents w))).
Proof.
  intros Hinv Hroom. unfold FromBytes. destruct bs as [|x bs]; [done|]. set (l := x :: bs).
  destruct (get pick (Z.of_nat (length l)) (mem w)) as [a' h1] eqn:Hg. intros [= -> <-].
  apply get_ok in Hg as (Hh & (b & Hb & Hl & Hr & Hc & Hp) & Hlt & Hle & Hf & Hd); [|done|lia].
  set (b' := copy_into l b).
  assert (Hb' : buffers (store a (copy_into l) h1) = <[a := b']> (buffers (mem w))).
  { simpl. rewrite Hb, alter_insert_eq. done. }
  assert (Hcap : length (barray b') = length (barray b)) by (apply cap_copy_into; lia).
  assert (Hm : multiplicity a (held w) = 0%nat) by by apply not_elem_of_multiplicity.
  split; cbn [mem held contents]; rewrite ?Hb'; simpl.
  - intros a2 b2. rewrite multiplicity_disj_union, multiplicity_singleton.
    rewrite lookup_insert_Some. intros [[<- <-]|[Hne Hb2]].
    + rewrite decide_True by done. change (refs b') with (refs b). lia.
    + rewrite decide_False by done. by apply (inv_refs _ Hinv) in Hb2.
  - intros a2. rewrite gmultiset_elem_of_disj_union, gmultiset_elem_of_singleton.
    destruct (decide (a2 = a)) as [->|Hne]; rewrite ?lookup_insert_eq, ?lookup_insert_ne by done.
    + intros _. exists b'. split; [done|]. f_equal. symmetry. apply data_copy_into. lia.
    + intros [?|Ha]; [done|]. by apply (inv_held _ Hinv).
  - intros a2. rewrite lookup_insert_is_Some. intros [<-|[_ H]]; [done|].
    apply (inv_next _ Hinv) in H. lia.
  - intros a2 c Hin. destruct (Hf c) as [Hsub Hni]. assert (a2 ≠ a) by (by intros ->).
    rewrite lookup_insert_ne by done. rewrite gmultiset_elem_of_disj_union, gmultiset_elem_of_singleton.
    destruct (inv_free _ Hinv a2 c) as [? ?]; [by eapply elem_of_sublist|]. naive_solver.
  - intros a2 b2. rewrite lookup_insert_Some. intros [[<- <-]|[_ Hb2]] Hpo.
    + rewrite Hcap. by apply Hp.
    + by eapply (inv_pooled _ Hinv).
  - intros c. eapply sublist_NoDup; [apply (inv_nodup _ Hinv)|apply Hf].
  - rewrite Hd. apply (inv_double _ Hinv).
  - rewrite gmultiset_size_disj_union, gmultiset_size_singleton. unfold room in Hroom. lia.
Qed.

(** Changing one counter along with the number of holders. *)
Lemma inv_set_refs w a b n hs : inv w → buffers (mem w) !! a = Some b →
  n = Z.of_nat (multiplicity a hs) →
  (∀ a', a' ≠ a → multiplicity a' hs = multiplicity a' (held w)) →
  (a ∈ hs → a ∈ held w) → (∀ c, a ∉ at_class c (free (mem w))) →
  Z.of_nat (size hs) < 2 ^ 31 →
  inv (mkWorld (store a (set_refs n) (mem w)) hs (contents w)).
Proof.
  intros Hinv Hb Hn Hne Hin Hfree Hsize.
  assert (Hb' : buffers (store a (set_refs n) (mem w)) = <[a := set_refs n b]> (buffers (mem w)))
    by (by apply alter_as_insert).
  assert (Hheld : ∀ a', a' ∈ hs → a' ∈ held w).
  { intros a' H. destruct (decide (a' = a)) as [->|]; [by apply Hin|].
    apply elem_of_multiplicity. rewrite <-Hne by done. by apply elem_of_multiplicity. }
  split; cbn [mem held contents]; rewrite ?Hb'; simpl.
  - intros a' b'. rewrite lookup_insert_Some. intros [[<- <-]|[Hn' H]]; [done|].
    rewrite Hne by done. by apply (inv_refs _ Hinv).
  - intros a' (b' & Hb1 & Hc1)%Hheld%(inv_held _ Hinv).
    destruct (decide (a' = a)) as [->|]; rewrite ?lookup_insert_eq, ?lookup_insert_ne by done.
    + exists (set_refs n b). split; [done|]. simplify_eq. by rewrite Hc1.
    + by exists b'.
  - intros a'. rewrite lookup_insert_is_Some. intros [<-|[_ H]]; by eapply (inv_next _ Hinv).
  - intros a' c H. assert (a' ≠ a) by (intros ->; by eapply Hfree).
    rewrite lookup_insert_ne by done. destruct (inv_free _ Hinv _ _ H) as [? ?]. naive_solver.
  - intros a' b'. rewrite lookup_insert_Some. intros [[<- <-]|[_ H]];
      [by apply (inv_pooled _ Hinv a b)|by eapply (inv_pooled _ Hinv)].
  - apply (inv_nodup _ Hinv).
  - apply (inv_double _ Hinv).
  - done.
Qed.

Lemma held_not_free w a c : inv w → a ∈ held w → a ∉ at_class c (free (mem w)).
Proof. intros Hinv Ha Hf. by destruct (inv_free _ Hinv _ _ Hf) as [? _]. Qed.

Lemma inv_retain w a : inv w → room (held w) → a ∈ held w →
  inv (mkWorld (Retain (Some a) (mem w)) ({[+ a +]} ⊎ held w) (contents w)).
Proof.
  intros Hinv Hroom Ha. destruct (inv_held _ Hinv _ Ha) as (b & Hb & _).
  pose proof (inv_refs _ Hinv _ _ Hb) as Hr. pose proof (multiplicity_le_size a (held w)).
  unfold room in Hroom. unfold Retain.
  assert (E : store a (λ b, set_refs (i32 (refs b + 1)) b) (mem w) =
              store a (set_refs (refs b + 1)) (mem w)).
  { unfold store. rewrite !(alter_as_insert _ _ _ _ Hb). by rewrite i32_small by lia. }
  rewrite E. apply (inv_set_refs w a b); [done..| | | | |].
  - rewrite multiplicity_disj_union, multiplicity_singleton, decide_True by done. lia.
  - intros a' Hne. rewrite multiplicity_disj_union, multiplicity_singleton, decide_False by done. lia.
  - done.
  - intros c. by apply held_not_free.
  - rewrite gmultiset_size_disj_union, gmultiset_size_singleton. lia.
Qed.

(** Returning a buffer nobody holds to its pool. *)
Lemma inv_put w a b : inv w → buffers (mem w) !! a = Some b → pooled b = true → a ∉ held w →
  (∀ c, a ∉ at_class c (free (mem w))) →
  inv (mkWorld (put a b (mem w)) (held w) (contents w)).
Proof.
  intros Hinv Hb Hp Hh Hf. destruct (inv_pooled _ Hinv _ _ Hb Hp) as [c Hc].
  unfold put. rewrite Hc, class_of_cap_size. split; simpl; try apply Hinv.
  - intros a' c'. rewrite at_set_class. case_decide as E; [subst c'|by apply (inv_free _ Hinv)].
    rewrite elem_of_cons. intros [->|H]; [eauto 6|by apply (inv_free _ Hinv)].
  - intros c'. rewrite at_set_class. case_decide as E; [|apply (inv_nodup _ Hinv)].
    apply NoDup_cons. split; [apply Hf|apply (inv_nodup _ Hinv)].
Qed.

Lemma inv_release w a : inv w → a ∈ held w →
  inv (mkWorld (Release (Some a) (mem w)) (held w ∖ {[+ a +]}) (contents w)) ∧
  (multiplicity a (held w) = 1%nat → ∀ b, buffers (mem w) !! a = Some b → pooled b = true →
     kept a (Release (Some a) (mem w))).
Proof.
  intros Hinv Ha. destruct (inv_held _ Hinv _ Ha) as (b & Hb & _).
  pose proof (inv_refs _ Hinv _ _ Hb) as Hr. pose proof (multiplicity_le_size a (held w)).
  pose proof (inv_size _ Hinv). pose proof (proj1 (elem_of_multiplicity _ _) Ha) as Hm.
  unfold Release. rewrite Hb, i32_small by lia.
  assert (∃ n, n = refs b - 1) as [n Hn'] by eauto. rewrite <-Hn'.
  assert (Hsub : {[+ a +]} ⊆ held w) by (by apply gmultiset_singleton_subseteq_l).
  assert (Hw : inv (mkWorld (store a (set_refs n) (mem w)) (held w ∖ {[+ a +]}) (contents w))).
  { apply (inv_set_refs w a b); [done..| | |done| |].
    - rewrite multiplicity_difference, multiplicity_singleton, decide_True by done. lia.
    - intros a' Hne. rewrite multiplicity_difference, multiplicity_singleton, decide_False by done. lia.
    - intros c. by apply held_not_free.
    - rewrite gmultiset_size_difference by done. lia. }
  destruct (n =? 0) eqn:En; bool_prop; [|destruct (n <? 0) eqn:Hn; bool_prop; [lia|]].
  - change (pooled (set_refs n b)) with (pooled b). destruct (pooled b) eqn:Hp.
    + split.
      * pose proof (inv_put _ a (set_refs n b) Hw) as Hput. cbn [mem held contents] in Hput.
        apply Hput; [|done| |intros c; by apply held_not_free].
        -- simpl. by rewrite lookup_alter_eq, Hb.
        -- apply not_elem_of_multiplicity. simpl.
           rewrite multiplicity_difference, multiplicity_singleton, decide_True by done. lia.
      * intros _ b' Hb' _. destruct (inv_pooled _ Hinv _ _ Hb Hp) as [c Hc].
        exists c. unfold put. change (barray (set_refs n b)) with (barray b).
        rewrite Hc, class_of_cap_size. simpl. rewrite at_set_class, decide_True by done. left.
    + split; [done|]. intros _ b' Hb' Hp'. simplify_eq. congruence.
  - split; [done|]. lia.
Qed.

Lemma inv_drain w f : inv w → drained (free (mem w)) f →
  inv (mkWorld (mem w <| free := f |>) (held w) (contents w)).
Proof.
  intros Hinv Hd. split; simpl; try apply Hinv.
  - intros a c H. apply (inv_free _ Hinv). by eapply elem_of_sublist.
  - intros c. exact (sublist_NoDup _ _ (inv_nodup _ Hinv c) (Hd c)).
Qed.

Lemma payload_inv_step w w' : step w w' → inv w → inv w'.
Proof.
  intros Hs Hinv. destruct Hs as [pick bs h hs cs a h' E R|h hs cs a E R|h hs cs a E|h hs cs f E].
  - by apply (inv_from _ pick bs a h' Hinv).
  - by apply (inv_retain _ a Hinv).
  - by apply (inv_release _ a Hinv).
  - by apply (inv_drain _ f Hinv).
Qed.

Lemma inv_init : inv init.
Proof.
  split; simpl; try done.
  - intros a Ha. by apply gmultiset_not_elem_of_empty in Ha.
  - by intros a [].
  - intros a []; simpl; by intros ?%not_elem_of_nil.
  - intros []; simpl; constructor.
Qed.

Lemma payload_inv_reachable w : rtc step init w → inv w.
Proof.
  intros H. pose proof inv_init as Hi. revert Hi. induction H; [done|].
  intros Hi. by apply IHrtc, (payload_inv_step x).
Qed.

(** Payload lifetime: whatever the order in which buffers are created, shared,
    released, recycled and collected, as long as a reference is released only
    by a holder, every buffer's counter is its number of holders, no release
    counts as a double release, no held buffer is in a pool, and a holder reads
    the bytes the buffer was created with; the last release of a pooled buffer
    returns it to its pool. *)
Theorem payload_lifetime w a : rtc step init w → a ∈ held w →
  RefCount (Some a) (mem w) = Z.of_nat (multiplicity a (held w)) ∧
  contents w !! a = Some (Bytes (Some a) (mem w)) ∧ ¬ kept a (mem w) ∧
  doubleReleaseCount (mem w) = 0 ∧
  (multiplicity a (held w) = 1%nat → ∀ b, buffers (mem w) !! a = Some b → pooled b = true →
     kept a (Release (Some a) (mem w))).
Proof.
  intros Hinv%payload_inv_reachable Ha. destruct (inv_held _ Hinv _ Ha) as (b & Hb & Hc). split_and!.
  - unfold RefCount. simpl. rewrite Hb. by apply (inv_refs _ Hinv).
  - unfold Bytes. simpl. by rewrite Hb.
  - intros [c H]. by apply (held_not_free _ _ _ Hinv Ha) in H.
  - apply Hinv.
  - exact (proj2 (inv_release _ a Hinv Ha)).
Qed.

(** A buffer recycled from [abc] to [xy]: its new holder sees [xy]. *)
Lemma payload_lifetime_witness :
  ∃ w, rtc step init w ∧ contents w !! 0%nat = Some (Bytes (Some 0%nat) (mem w)) ∧
       contents w !! 0%nat = Some [x78; x79].
Proof.
  set (h1 := (FromBytes None [x61; x62; x63] empty_heap).2).
  set (h2 := Release (Some 0%nat) h1).
  set (h3 := (FromBytes (Some 0%nat) [x78; x79] h2).2).
  exists (mkWorld h3 ({[+ 0%nat +]} ⊎ (({[+ 0%nat +]} ⊎ ∅) ∖ {[+ 0%nat +]}))
            (<[0%nat := [x78; x79]]> (<[0%nat := [x61; x62; x63]]> ∅))).
  assert (Hr : rtc step init (mkWorld h3 ({[+ 0%nat +]} ⊎ (({[+ 0%nat +]} ⊎ ∅) ∖ {[+ 0%nat +]}))
            (<[0%nat := [x78; x79]]> (<[0%nat := [x61; x62; x63]]> ∅)))).
  { eapply rtc_l; [apply (step_from None [x61; x62; x63] _ _ _ 0 h1); [reflexivity|vm_compute; reflexivity]|].
    eapply rtc_l; [apply (step_release h1 _ _ 0); multiset_solver|].
    apply rtc_once. apply (step_from (Some 0%nat) [x78; x79]);
      [vm_compute; reflexivity|vm_compute; reflexivity]. }
  split; [exact Hr|]. split; [|reflexivity].
  apply (payload_lifetime _ 0%nat Hr). multiset_solver.
Defined.
End PayloadFacts.
