(* ===== verification/Envelope.v ===== *)
(** * The message envelope (src/message: envelope.go, metadata.go, properties.go, pool.go)

    The broker's one internal message: publisher metadata, broker metadata and a
    reference to a payload buffer of [Payload].  The immutable collections of
    metadata.go are their values: a [Binary] is its bytes, a [HeaderMap] and a
    [PropertyMap] are finite maps, a [Uint32List] is a list, an [Optional] an
    option.  A time is its Unix nanoseconds, [None] the zero time.

    Theorems: envelopes drawn from the pool are blank; envelopes and packets that
    share payload buffers never see another message's bytes; the properties of a
    delivery that the broker owns cannot be forged by a publisher; and a trusted
    peer reads back the metadata another broker projected. *)

From Stdlib Require Import ZArith Lia Bool Ascii String Strings.Byte.
From stdpp Require Import gmultiset prelude gmap strings.
From S2P Require Import Prelude GoStrings Strconv Payload.

Module Message.

(** ** envelope.go: data *)

Definition Version1 : Z := 1.

Definition ProtocolMQTT : string := "mqtt".
Definition ProtocolAMQP091 : string := "amqp".
Definition ProtocolAMQP1 : string := "amqp1".
Definition ProtocolHTTP : string := "http".
Definition ProtocolCoAP : string := "coap".

Definition QueueStateQueued : string := "queued".
Definition QueueStateDelivered : string := "delivered".
Definition QueueStateAcked : string := "acked".
Definition QueueStateRetry : string := "retry".
Definition QueueStateDLQ : string := "dlq".

Notation gotime := (option Z).

Record PublisherMetadata := mkPublisher {
  PM_Key : list byte;
  PM_Headers : gmap string (list byte);
  PM_Properties : gmap string string;
  PM_ContentType : string;
  PM_ContentEncoding : string;
  PM_ResponseTopic : string;
  PM_CorrelationData : list byte;
  PM_PayloadFormat : option Z;
  PM_MessageExpiry : option Z;
  PM_MessageID : string
}.
#[export] Instance eta_Publisher : Eta PublisherMetadata := λ p,
  mkPublisher (PM_Key p) (PM_Headers p) (PM_Properties p) (PM_ContentType p) (PM_ContentEncoding p)
    (PM_ResponseTopic p) (PM_CorrelationData p) (PM_PayloadFormat p) (PM_MessageExpiry p)
    (PM_MessageID p).
Definition Publisher_zero : PublisherMetadata := mkPublisher [] ∅ ∅ "" "" "" [] None None "".

Record SourceMetadata := mkSource {
  SRC_ClientID : string; SRC_ExternalID : string; SRC_Protocol : string; SRC_Topic : string
}.
#[export] Instance eta_Source : Eta SourceMetadata := λ s,
  mkSource (SRC_ClientID s) (SRC_ExternalID s) (SRC_Protocol s) (SRC_Topic s).
Definition Source_zero : SourceMetadata := mkSource "" "" "" "".

Record DeliveryMetadata := mkDelivery {
  DM_PublishedAt : gotime;
  DM_ExpiresAt : gotime;
  DM_SubscriptionIDs : list Z;
  DM_PacketID : Z;
  DM_QoS : Z;
  DM_InflightDirection : Z;
  DM_InflightState : Z;
  DM_Retain : bool;
  DM_Duplicate : bool
}.
#[export] Instance eta_Delivery : Eta DeliveryMetadata := λ d,
  mkDelivery (DM_PublishedAt d) (DM_ExpiresAt d) (DM_SubscriptionIDs d) (DM_PacketID d) (DM_QoS d)
    (DM_InflightDirection d) (DM_InflightState d) (DM_Retain d) (DM_Duplicate d).
Definition Delivery_zero : DeliveryMetadata := mkDelivery None None [] 0 0 0 0 false false.

Record StreamMetadata := mkStream {
  SM_Offset : Z;
  SM_Timestamp : Z;
  SM_CommittedOffset : Z;
  SM_HasCommittedOffset : bool;
  SM_WorkAcknowledged : bool;
  SM_WorkGroup : string
}.
#[export] Instance eta_Stream : Eta StreamMetadata := λ s,
  mkStream (SM_Offset s) (SM_Timestamp s) (SM_CommittedOffset s) (SM_HasCommittedOffset s)
    (SM_WorkAcknowledged s) (SM_WorkGroup s).
Definition Stream_zero : StreamMetadata := mkStream 0 0 0 false false "".
#[export] Instance Stream_eq_dec : EqDecision StreamMetadata.
Proof. solve_decision. Defined.

Record QueueMetadata := mkQueueMeta {
  QM_Name : string;
  QM_GroupID : string;
  QM_Offset : Z;
  QM_State : string;
  QM_CreatedAt : gotime;
  QM_DeliveredAt : gotime;
  QM_NextRetryAt : gotime;
  QM_RetryCount : Z;
  QM_ExpiresAt : gotime;
  QM_Stream : option StreamMetadata
}.
#[export] Instance eta_QueueMeta : Eta QueueMetadata := λ q,
  mkQueueMeta (QM_Name q) (QM_GroupID q) (QM_Offset q) (QM_State q) (QM_CreatedAt q)
    (QM_DeliveredAt q) (QM_NextRetryAt q) (QM_RetryCount q) (QM_ExpiresAt q) (QM_Stream q).
Definition QueueMeta_zero : QueueMetadata := mkQueueMeta "" "" 0 "" None None None 0 None None.

Record TransferMetadata := mkTransfer {
  TM_ID : string;
  TM_FailureReason : string;
  TM_FirstAttempt : gotime;
  TM_LastAttempt : gotime;
  TM_CompletedAt : gotime;
  TM_SourceQueue : string;
  TM_SourceGroup : string;
  TM_SourceOffset : Z;
  TM_DeliveryCount : Z
}.
#[export] Instance eta_Transfer : Eta TransferMetadata := λ t,
  mkTransfer (TM_ID t) (TM_FailureReason t) (TM_FirstAttempt t) (TM_LastAttempt t)
    (TM_CompletedAt t) (TM_SourceQueue t) (TM_SourceGroup t) (TM_SourceOffset t)
    (TM_DeliveryCount t).
Definition Transfer_zero : TransferMetadata := mkTransfer "" "" None None None "" "" 0 0.

Record TraceMetadata := mkTrace { TR_Parent : string; TR_State : string; TR_ID : string }.
#[export] Instance eta_Trace : Eta TraceMetadata := λ t, mkTrace (TR_Parent t) (TR_State t) (TR_ID t).
Definition Trace_zero : TraceMetadata := mkTrace "" "" "".

Record BrokerMetadata := mkBroker {
  BM_Source : SourceMetadata;
  BM_Delivery : DeliveryMetadata;
  BM_Queue : QueueMetadata;
  BM_Transfer : TransferMetadata;
  BM_Trace : TraceMetadata
}.
#[export] Instance eta_Broker : Eta BrokerMetadata := λ b,
  mkBroker (BM_Source b) (BM_Delivery b) (BM_Queue b) (BM_Transfer b) (BM_Trace b).
Definition Broker_zero : BrokerMetadata :=
  mkBroker Source_zero Delivery_zero QueueMeta_zero Transfer_zero Trace_zero.

Record Envelope := mkEnvelope {
  EVersion : Z;
  ETopic : string;
  EPublisher : PublisherMetadata;
  EBroker : BrokerMetadata;
  EPayload : option nat
}.
#[export] Instance eta_Envelope : Eta Envelope := λ e,
  mkEnvelope (EVersion e) (ETopic e) (EPublisher e) (EBroker e) (EPayload e).

(** The blank [Envelope] of the pool's [New]. *)
Definition Envelope_blank : Envelope := mkEnvelope Version1 "" Publisher_zero Broker_zero None.

Inductive EnvErr :=
| ErrNilEnvelope
| ErrUnsupportedVersion (v : Z)
| ErrUnsupportedProtocol
| ErrUnsupportedQueueState
| ErrMetadataCarriesPayload
| ErrMetadataCarriesKey
| ErrWireType (number got want : Z)
| ErrOverflow (value : Z)
| ErrParse (n : Z).

(** ** envelope.go: validation *)

Definition protocolNumber (p : string) : outcome EnvErr Z :=
  if str_eqb p "" then Ret 0
  else if str_eqb p ProtocolMQTT then Ret 1
  else if str_eqb p ProtocolAMQP091 then Ret 2
  else if str_eqb p ProtocolAMQP1 then Ret 3
  else if str_eqb p ProtocolHTTP then Ret 4
  else if str_eqb p ProtocolCoAP then Ret 5
  else Fail ErrUnsupportedProtocol.

Definition protocolFromNumber (n : Z) : outcome EnvErr string :=
  match n with
  | 0 => Ret ""%string
  | 1 => Ret ProtocolMQTT
  | 2 => Ret ProtocolAMQP091
  | 3 => Ret ProtocolAMQP1
  | 4 => Ret ProtocolHTTP
  | 5 => Ret ProtocolCoAP
  | _ => Fail ErrUnsupportedProtocol
  end.

Definition queueStateNumber (s : string) : outcome EnvErr Z :=
  if str_eqb s "" then Ret 0
  else if str_eqb s QueueStateQueued then Ret 1
  else if str_eqb s QueueStateDelivered then Ret 2
  else if str_eqb s QueueStateAcked then Ret 3
  else if str_eqb s QueueStateRetry then Ret 4
  else if str_eqb s QueueStateDLQ then Ret 5
  else Fail ErrUnsupportedQueueState.

Definition queueStateFromNumber (n : Z) : outcome EnvErr string :=
  match n with
  | 0 => Ret ""%string
  | 1 => Ret QueueStateQueued
  | 2 => Ret QueueStateDelivered
  | 3 => Ret QueueStateAcked
  | 4 => Ret QueueStateRetry
  | 5 => Ret QueueStateDLQ
  | _ => Fail ErrUnsupportedQueueState
  end.

Definition requireVersion1 (version : Z) : outcome EnvErr unit :=
  if negb (version =? Version1) then Fail (ErrUnsupportedVersion version) else Ret tt.

(** [Validate]; [None] is a nil envelope. *)
Definition Validate (e : option Envelope) : outcome EnvErr unit :=
  match e with
  | None => Fail ErrNilEnvelope
  | Some e =>
      _ ← requireVersion1 (EVersion e);
      _ ← protocolNumber (SRC_Protocol (BM_Source (EBroker e)));
      _ ← queueStateNumber (QM_State (BM_Queue (EBroker e)));
      Ret tt
  end.

Definition DeliveryID (q : QueueMetadata) : string :=
  if str_eqb (QM_Name q) "" then "" else QM_Name q +:+ ":" +:+ FormatUint (QM_Offset q).

(** ** pool.go and the payload of an envelope *)

(** The payload heap and the envelopes the pool keeps. *)
Record pools := mkPools { mem : Payload.heap; envelopePool : list Envelope }.
#[export] Instance eta_pools : Eta pools := λ s, mkPools (mem s) (envelopePool s).

(** [pick]: which kept envelope [sync.Pool.Get] returns, if any. *)
Definition Acquire (pick : option nat) (s : pools) : Envelope * pools :=
  match pick ≫= λ i, (i,.) <$> envelopePool s !! i with
  | Some (i, e) =>
      (e <| EVersion := Version1 |>, s <| envelopePool := delete i (envelopePool s) |>)
  | None => (Envelope_blank <| EVersion := Version1 |>, s)
  end.

Definition New (pick ppick : option nat) (topic : string) (data : list byte) (s : pools) :
    Envelope * pools :=
  let '(e, s) := Acquire pick s in
  let '(a, h) := Payload.FromBytes ppick data (mem s) in
  (e <| ETopic := topic |> <| EPayload := a |>, s <| mem := h |>).

Definition NewDelivery (pick ppick : option nat) (topic : string) (data : list byte) (qos : Z)
    (retain : bool) (s : pools) : Envelope * pools :=
  let '(e, s) := New pick ppick topic data s in
  (e <| EBroker := EBroker e <| BM_Delivery :=
          BM_Delivery (EBroker e) <| DM_QoS := qos |> <| DM_Retain := retain |> |> |>, s).

Definition NewWithBuffer (pick : option nat) (topic : string) (buf : option nat) (s : pools) :
    Envelope * pools :=
  let '(e, s) := Acquire pick s in (e <| ETopic := topic |> <| EPayload := buf |>, s).

Definition PayloadBytes (e : Envelope) (s : pools) : list byte := Payload.Bytes (EPayload e) (mem s).

Definition SetPayload (ppick : option nat) (data : list byte) (e : Envelope) (s : pools) :
    Envelope * pools :=
  let h := Payload.Release (EPayload e) (mem s) in
  let '(a, h) := Payload.FromBytes ppick data h in
  (e <| EPayload := a |>, s <| mem := h |>).

Definition SetPayloadBuffer (buf : option nat) (e : Envelope) (s : pools) : Envelope * pools :=
  (e <| EPayload := buf |>, s <| mem := Payload.Release (EPayload e) (mem s) |>).

(** The reference handed out, and the pools. *)
Definition RetainPayload (e : Envelope) (s : pools) : option nat * pools :=
  (EPayload e, s <| mem := Payload.Retain (EPayload e) (mem s) |>).

Definition ReleasePayload (e : Envelope) (s : pools) : Envelope * pools :=
  (e <| EPayload := None |>, s <| mem := Payload.Release (EPayload e) (mem s) |>).

Definition Clone (pick : option nat) (e : Envelope) (s : pools) : Envelope * pools :=
  let '(cp, s) := Acquire pick s in
  let cp := cp <| EVersion := EVersion e |> <| ETopic := ETopic e |> <| EPayload := EPayload e |> in
  let s := s <| mem := Payload.Retain (EPayload cp) (mem s) |> in
  (cp <| EPublisher := EPublisher e |> <| EBroker := EBroker e |>, s).

Definition reset (e : Envelope) (s : pools) : Envelope * pools :=
  let '(e, s) := ReleasePayload e s in
  (e <| EVersion := Version1 |> <| ETopic := "" |> <| EPublisher := Publisher_zero |>
     <| EBroker := Broker_zero |>, s).

Definition Release (e : option Envelope) (s : pools) : pools :=
  match e with
  | None => s
  | Some e => let '(e, s) := reset e s in s <| envelopePool := e :: envelopePool s |>
  end.

(** [IsExpired] at time [now]. *)
Definition IsExpired (now : Z) (e : option Envelope) : bool :=
  match e with
  | None => false
  | Some e =>
      match (match QM_ExpiresAt (BM_Queue (EBroker e)) with
             | Some t => Some t
             | None => DM_ExpiresAt (BM_Delivery (EBroker e))
             end) with
      | Some t => t <? now
      | None => false
      end
  end.

(** ** properties.go *)

Definition PropertyClientID : string := "client_id".
Definition PropertyExternalID : string := "external_id".
Definition PropertyProtocol : string := "protocol".
Definition PropertyMessageID : string := "message-id".
Definition PropertyGroupID : string := "group-id".
Definition PropertyQueueName : string := "queue".
Definition PropertyOffset : string := "offset".
Definition PropertySourceTopic : string := "x-source-topic".
Definition PropertyStreamOffset : string := "x-stream-offset".
Definition PropertyStreamTimestamp : string := "x-stream-timestamp".
Definition PropertyWorkCommitted : string := "x-work-committed-offset".
Definition PropertyWorkAcked : string := "x-work-acked".
Definition PropertyWorkGroup : string := "x-work-group".
Definition PropertyTransferID : string := "x-dlq-transfer-id".
Definition PropertyDLQReason : string := "x-dlq-reason".
Definition PropertyForwardTargetQueues : string := "x-queue-forward-targets".
Definition PropertyTraceParent : string := "_flux.traceparent".
Definition PropertyTraceState : string := "_flux.tracestate".
Definition PropertyTraceID : string := "_flux.trace_id".
Definition ReservedPropertyPrefix : string := "_flux.".

Record Projection := mkProjection {
  PR_Queue : bool; PR_Transfer : bool; PR_Source : bool; PR_Trace : bool
}.
Definition PublicProjection : Projection := mkProjection true true false false.
Definition TrustedServiceProjection : Projection := mkProjection true true true true.

(** The keys of the [switch]. *)
Definition reserved_keys : list string :=
  [PropertyClientID; PropertyExternalID; PropertyProtocol; PropertyMessageID; PropertyGroupID;
   PropertyQueueName; PropertyOffset; PropertySourceTopic; PropertyStreamOffset;
   PropertyStreamTimestamp; PropertyWorkCommitted; PropertyWorkAcked; PropertyWorkGroup;
   PropertyTransferID; PropertyDLQReason; PropertyForwardTargetQueues].

Definition IsReservedProperty (key : string) : bool :=
  if HasPrefix key ReservedPropertyPrefix then true else bool_decide (key ∈ reserved_keys).

Notation propmap := (gmap string string).

(** The result is independent of the order in which the maps are walked. *)
Definition FilterUserProperties (properties : propmap) : propmap :=
  filter (λ kv, IsReservedProperty kv.1 = false) properties.
Definition WithoutReserved (p : propmap) : propmap :=
  filter (λ kv, IsReservedProperty kv.1 = false) p.

(** [m[key]] of a missing key is the empty string. *)
Definition prop (m : propmap) (key : string) : string := default ""%string (m !! key).

Definition SourceFromProperties (m : propmap) : SourceMetadata :=
  mkSource (prop m PropertyClientID) (prop m PropertyExternalID) (prop m PropertyProtocol) "".
Definition TraceFromProperties (m : propmap) : TraceMetadata :=
  mkTrace (prop m PropertyTraceParent) (prop m PropertyTraceState) (prop m PropertyTraceID).

(** The closure [parseUint]: the target's new value and the properties that
    did not parse so far. *)
Definition parseUint (name raw : string) (target : Z) (errs : list string) : Z * list string :=
  if str_eqb raw "" then (target, errs)
  else match ParseUint raw with
       | Ret value => (value, errs)
       | _ => (target, errs ++ [name])
       end.

(** The stream part of [ApplyTrustedProperties]. *)
Definition applyStream (m : propmap) (errs : list string) :
    option StreamMetadata * list string :=
  match m !! PropertyStreamOffset with
  | None => (None, errs)
  | Some rawOffset =>
      let '(offset, errs) := parseUint PropertyStreamOffset rawOffset 0 errs in
      let '(timestamp, errs) :=
        let raw := prop m PropertyStreamTimestamp in
        if str_eqb raw "" then (0, errs)
        else match ParseInt raw with
             | Ret t => (t, errs)
             | _ => (0, errs ++ [PropertyStreamTimestamp])
             end in
      let '(committed, has, errs) :=
        match m !! PropertyWorkCommitted with
        | Some raw => let '(c, errs) := parseUint PropertyWorkCommitted raw 0 errs in (c, true, errs)
        | None => (0, false, errs)
        end in
      let '(acked, errs) :=
        let raw := prop m PropertyWorkAcked in
        if str_eqb raw "" then (false, errs)
        else match ParseBool raw with
             | Ret b => (b, errs)
             | _ => (false, errs ++ [PropertyWorkAcked])
             end in
      (Some (mkStream offset timestamp committed has acked (prop m PropertyWorkGroup)), errs)
  end.

(** The envelope it fills in and the names of the properties it could not
    decode (the joined error). *)
Definition ApplyTrustedProperties (e : Envelope) (m : propmap) : Envelope * list string :=
  let publisher := EPublisher e <| PM_Properties := FilterUserProperties m |>
                                <| PM_MessageID := prop m PropertyMessageID |> in
  let source := SourceFromProperties m <| SRC_Topic := prop m PropertySourceTopic |> in
  let queue := BM_Queue (EBroker e) <| QM_Name := prop m PropertyQueueName |>
                                    <| QM_GroupID := prop m PropertyGroupID |> in
  let '(offset, errs) :=
    parseUint PropertyOffset (prop m PropertyOffset) (QM_Offset queue) [] in
  let '(stream, errs) := applyStream m errs in
  let queue := queue <| QM_Offset := offset |> in
  let queue := match stream with Some _ => queue <| QM_Stream := stream |> | None => queue end in
  let transfer := BM_Transfer (EBroker e) <| TM_ID := prop m PropertyTransferID |>
                                          <| TM_FailureReason := prop m PropertyDLQReason |> in
  (e <| EPublisher := publisher |>
     <| EBroker := mkBroker source (BM_Delivery (EBroker e)) queue transfer
                     (TraceFromProperties m) |>, errs).

(** [properties[key] = value] when [value] is not empty. *)
Definition set_nonempty (key value : string) (m : propmap) : propmap :=
  if str_eqb value "" then m else <[key := value]> m.

Definition hasQueueProjection (q : QueueMetadata) : bool :=
  negb (str_eqb (QM_Name q) "") || negb (str_eqb (QM_GroupID q) "") ||
  bool_decide (is_Some (QM_Stream q)).

Definition projectStreamProperties (s : StreamMetadata) (m : propmap) : propmap :=
  let m := <[PropertyStreamOffset := FormatUint (SM_Offset s)]> m in
  let m := if SM_Timestamp s =? 0 then m
           else <[PropertyStreamTimestamp := FormatInt (SM_Timestamp s)]> m in
  if SM_HasCommittedOffset s then
    let m := <[PropertyWorkCommitted := FormatUint (SM_CommittedOffset s)]> m in
    let m := <[PropertyWorkAcked := FormatBool (SM_WorkAcknowledged s)]> m in
    set_nonempty PropertyWorkGroup (SM_WorkGroup s) m
  else m.

Definition projectQueueProperties (source : SourceMetadata) (q : QueueMetadata) (m : propmap) :
    propmap :=
  let m := set_nonempty PropertyMessageID (DeliveryID q) m in
  let m := set_nonempty PropertyGroupID (QM_GroupID q) m in
  let m := set_nonempty PropertyQueueName (QM_Name q) m in
  let m := <[PropertyOffset := FormatUint (QM_Offset q)]> m in
  let m := set_nonempty PropertySourceTopic (SRC_Topic source) m in
  match QM_Stream q with
  | None => m
  | Some s => projectStreamProperties s m
  end.

(** The map it returns; an empty map stands for nil as well. *)
Definition ProjectProperties (e : Envelope) (pr : Projection) : propmap :=
  let m := WithoutReserved (PM_Properties (EPublisher e)) in
  let m := set_nonempty PropertyMessageID (PM_MessageID (EPublisher e)) m in
  let b := EBroker e in
  let m := if PR_Queue pr && hasQueueProjection (BM_Queue b)
           then projectQueueProperties (BM_Source b) (BM_Queue b) m else m in
  let m := if PR_Transfer pr then
             set_nonempty PropertyDLQReason (TM_FailureReason (BM_Transfer b))
               (set_nonempty PropertyTransferID (TM_ID (BM_Transfer b)) m)
           else m in
  let m := if PR_Source pr then
             set_nonempty PropertyProtocol (SRC_Protocol (BM_Source b))
               (set_nonempty PropertyExternalID (SRC_ExternalID (BM_Source b))
                  (set_nonempty PropertyClientID (SRC_ClientID (BM_Source b)) m))
           else m in
  if PR_Trace pr then
    set_nonempty PropertyTraceID (TR_ID (BM_Trace b))
      (set_nonempty PropertyTraceState (TR_State (BM_Trace b))
         (set_nonempty PropertyTraceParent (TR_Parent (BM_Trace b)) m))
  else m.

Definition QueueOffsetFromProperties (m : propmap) : option Z :=
  match m !! PropertyOffset with
  | None => None
  | Some raw => match ParseUint raw with Ret v => Some v | _ => None end
  end.

End Message.

(** * Properties *)

Module MessageFacts.
Import Message.

(** ** Projection *)

(** [f] changes reserved keys only, and sets each independently of the rest. *)
Definition stamps (f : propmap → propmap) : Prop := ∀ m m' k,
  (IsReservedProperty k = false → f m !! k = m !! k) ∧ (m !! k = m' !! k → f m !! k = f m' !! k).

Lemma stamps_id : stamps id.
Proof. by intros m m' k. Qed.
Lemma stamps_compose f g : stamps f → stamps g → stamps (λ m, f (g m)).
Proof.
  intros Hf Hg m m' k. destruct (Hg m m' k) as [Hg1 Hg2], (Hf (g m) (g m') k) as [Hf1 Hf2]. split.
  - intros H. by rewrite Hf1, Hg1.
  - intros H. by apply Hf2, Hg2.
Qed.
Lemma stamps_insert key v : IsReservedProperty key = true → stamps (λ m, <[key := v]> m).
Proof.
  intros Hk m m' k. split; intros H.
  - rewrite lookup_insert_ne by congruence. done.
  - destruct (decide (k = key)) as [->|]; [by rewrite !lookup_insert_eq|].
    by rewrite !lookup_insert_ne.
Qed.
Lemma stamps_set_nonempty key v : IsReservedProperty key = true → stamps (set_nonempty key v).
Proof.
  intros Hk. unfold set_nonempty. destruct (str_eqb v ""); [apply stamps_id|by apply stamps_insert].
Qed.

Ltac stamps := repeat first
  [ apply stamps_id | by apply stamps_insert | by apply stamps_set_nonempty
  | apply (stamps_compose (λ m, <[_ := _]> m)) | apply (stamps_compose (set_nonempty _ _)) ].

Lemma stamps_stream s : stamps (projectStreamProperties s).
Proof.
  unfold projectStreamProperties. destruct (SM_Timestamp s =? 0), (SM_HasCommittedOffset s); stamps.
Qed.

Lemma stamps_queue source q : stamps (projectQueueProperties source q).
Proof.
  unfold projectQueueProperties. destruct (QM_Stream q) as [s|]; [|stamps].
  apply (stamps_compose (projectStreamProperties s)); [apply stamps_stream|stamps].
Qed.

(** [ProjectProperties] on top of a map of publisher properties, in stages. *)
Definition stamp_queue (e : Envelope) (pr : Projection) (m : propmap) : propmap :=
  if PR_Queue pr && hasQueueProjection (BM_Queue (EBroker e))
  then projectQueueProperties (BM_Source (EBroker e)) (BM_Queue (EBroker e)) m else m.
Definition stamp_transfer (e : Envelope) (pr : Projection) (m : propmap) : propmap :=
  if PR_Transfer pr then
    set_nonempty PropertyDLQReason (TM_FailureReason (BM_Transfer (EBroker e)))
      (set_nonempty PropertyTransferID (TM_ID (BM_Transfer (EBroker e))) m) else m.
Definition stamp_source (e : Envelope) (pr : Projection) (m : propmap) : propmap :=
  let s := BM_Source (EBroker e) in
  if PR_Source pr then
    set_nonempty PropertyProtocol (SRC_Protocol s)
      (set_nonempty PropertyExternalID (SRC_ExternalID s)
         (set_nonempty PropertyClientID (SRC_ClientID s) m)) else m.
Definition stamp_trace (e : Envelope) (pr : Projection) (m : propmap) : propmap :=
  let t := BM_Trace (EBroker e) in
  if PR_Trace pr then
    set_nonempty PropertyTraceID (TR_ID t)
      (set_nonempty PropertyTraceState (TR_State t)
         (set_nonempty PropertyTraceParent (TR_Parent t) m)) else m.
Definition stamp (e : Envelope) (pr : Projection) (m : propmap) : propmap :=
  stamp_trace e pr (stamp_source e pr (stamp_transfer e pr (stamp_queue e pr
    (set_nonempty PropertyMessageID (PM_MessageID (EPublisher e)) m)))).

Lemma ProjectProperties_stamp e pr :
  ProjectProperties e pr = stamp e pr (WithoutReserved (PM_Properties (EPublisher e))).
Proof. done. Qed.

Lemma stamps_stamp e pr : stamps (stamp e pr).
Proof.
  apply (stamps_compose (stamp_trace e pr)); [unfold stamp_trace; destruct (PR_Trace pr); stamps|].
  apply (stamps_compose (stamp_source e pr)); [unfold stamp_source; destruct (PR_Source pr); stamps|].
  apply (stamps_compose (stamp_transfer e pr));
    [unfold stamp_transfer; destruct (PR_Transfer pr); stamps|].
  apply (stamps_compose (stamp_queue e pr)); [|stamps].
  unfold stamp_queue. destruct (_ && _); [apply stamps_queue|stamps].
Qed.

Lemma lookup_WithoutReserved m k :
  WithoutReserved m !! k = if IsReservedProperty k then None else m !! k.
Proof.
  unfold WithoutReserved. destruct (IsReservedProperty k) eqn:E.
  - apply map_lookup_filter_None. right. intros v _. simpl. congruence.
  - destruct (m !! k) as [v|] eqn:Hk; [by apply map_lookup_filter_Some|].
    apply map_lookup_filter_None. by left.
Qed.

(** ** Reading a property through the stamps *)

Lemma prop_set_nonempty_eq k v m : prop m k = "" → prop (set_nonempty k v m) k = v.
Proof.
  intros H. unfold set_nonempty. destruct (str_eqb v "") eqn:E.
  - apply str_eqb_true in E as ->. done.
  - unfold prop. by rewrite lookup_insert_eq.
Qed.
Lemma prop_set_nonempty_ne k v m j : j ≠ k → prop (set_nonempty k v m) j = prop m j.
Proof.
  intros H. unfold set_nonempty. destruct (str_eqb v ""); [done|].
  unfold prop. by rewrite lookup_insert_ne.
Qed.
Lemma lookup_set_nonempty_ne k v m j : j ≠ k → set_nonempty k v m !! j = m !! j.
Proof. intros H. unfold set_nonempty. destruct (str_eqb v ""); [done|]. by rewrite lookup_insert_ne. Qed.
Lemma prop_insert_ne k v (m : propmap) j : j ≠ k → prop (<[k := v]> m) j = prop m j.
Proof. intros H. unfold prop. by rewrite lookup_insert_ne. Qed.
Lemma prop_insert_eq k v (m : propmap) : prop (<[k := v]> m) k = v.
Proof. unfold prop. by rewrite lookup_insert_eq. Qed.
Lemma prop_WithoutReserved m k : IsReservedProperty k = true → prop (WithoutReserved m) k = "".
Proof. intros H. unfold prop. by rewrite lookup_WithoutReserved, H. Qed.

Ltac skip_stamps := repeat first
  [ rewrite lookup_set_nonempty_ne by done | rewrite lookup_insert_ne by done
  | rewrite prop_set_nonempty_ne by done | rewrite prop_insert_ne by done ].

(** The stages that do not touch a key of the queue projection. *)
Lemma lookup_stamp_queue_key e pr m k :
  k ∈ [PropertyMessageID; PropertyGroupID; PropertyQueueName; PropertyOffset; PropertySourceTopic;
       PropertyStreamOffset; PropertyStreamTimestamp; PropertyWorkCommitted; PropertyWorkAcked;
       PropertyWorkGroup] →
  stamp e pr m !! k =
  stamp_queue e pr (set_nonempty PropertyMessageID (PM_MessageID (EPublisher e)) m) !! k.
Proof.
  intros Hk. unfold stamp, stamp_trace, stamp_source, stamp_transfer.
  assert (Hne : Forall (λ j, k ≠ j) [PropertyTraceID; PropertyTraceState; PropertyTraceParent;
    PropertyProtocol; PropertyExternalID; PropertyClientID; PropertyDLQReason; PropertyTransferID]).
  { repeat (apply elem_of_cons in Hk as [->|Hk]; [repeat constructor; done|]).
    by apply not_elem_of_nil in Hk. }
  rewrite !Forall_cons in Hne. destruct Hne as (?&?&?&?&?&?&?&?&_).
  destruct (PR_Trace pr), (PR_Source pr), (PR_Transfer pr);
    rewrite ?lookup_set_nonempty_ne by done; done.
Qed.

Lemma lookup_stream_other s m k : k ∈ [PropertyMessageID; PropertyGroupID; PropertyQueueName;
    PropertyOffset; PropertySourceTopic] → projectStreamProperties s m !! k = m !! k.
Proof.
  intros Hk. unfold projectStreamProperties.
  repeat (apply elem_of_cons in Hk as [->|Hk];
    [destruct (SM_Timestamp s =? 0), (SM_HasCommittedOffset s); by skip_stamps|]).
  by apply not_elem_of_nil in Hk.
Qed.

Ltac elem_key := rewrite !elem_of_cons; tauto.

(** The offset and the handle of a queue delivery. *)
Lemma project_offset source q m : projectQueueProperties source q m !! PropertyOffset =
  Some (FormatUint (QM_Offset q)).
Proof.
  unfold projectQueueProperties. destruct (QM_Stream q);
    [rewrite lookup_stream_other by elem_key|]; skip_stamps; by rewrite lookup_insert_eq.
Qed.
Lemma project_message_id source q m : QM_Name q ≠ "" →
  projectQueueProperties source q m !! PropertyMessageID = Some (DeliveryID q).
Proof.
  intros Hn. unfold projectQueueProperties.
  assert (Hd : str_eqb (DeliveryID q) "" = false).
  { apply str_eqb_false. unfold DeliveryID. rewrite (proj2 (str_eqb_false _ _) Hn).
    by destruct (QM_Name q). }
  destruct (QM_Stream q); [rewrite lookup_stream_other by elem_key|]; skip_stamps;
    unfold set_nonempty; rewrite Hd; by rewrite lookup_insert_eq.
Qed.

(** On a delivery from a queue: the offset and the message identifier. *)
Lemma project_offset_and_id e pr : 0 <= QM_Offset (BM_Queue (EBroker e)) < 2 ^ 64 →
  PR_Queue pr = true → hasQueueProjection (BM_Queue (EBroker e)) = true →
  QueueOffsetFromProperties (ProjectProperties e pr) = Some (QM_Offset (BM_Queue (EBroker e))) ∧
  (QM_Name (BM_Queue (EBroker e)) ≠ "" →
     ProjectProperties e pr !! PropertyMessageID = Some (DeliveryID (BM_Queue (EBroker e)))).
Proof.
  intros Ho Hq Hp. rewrite ProjectProperties_stamp. unfold QueueOffsetFromProperties.
  rewrite !lookup_stamp_queue_key by elem_key. unfold stamp_queue. rewrite Hq, Hp. cbn [andb].
  rewrite project_offset, ParseUint_FormatUint by done. split; [done|apply project_message_id].
Qed.

(** Delivery properties cannot be forged: whatever a publisher puts into its
    properties, the ones it may set arrive unchanged, and every key the broker
    reserves has the value the broker's own metadata gives it.  On a delivery
    from a queue the offset a consumer will settle is the record's, and the
    message identifier is the broker's handle, even if the publisher chose one. *)
Theorem projection_unforgeable e pr : 0 <= QM_Offset (BM_Queue (EBroker e)) < 2 ^ 64 →
  let out := ProjectProperties e pr in
  (∀ k, IsReservedProperty k = false → out !! k = PM_Properties (EPublisher e) !! k) ∧
  (∀ k props, IsReservedProperty k = true →
     ProjectProperties (e <| EPublisher := EPublisher e <| PM_Properties := props |> |>) pr !! k =
     out !! k) ∧
  (PR_Queue pr = true → hasQueueProjection (BM_Queue (EBroker e)) = true →
     QueueOffsetFromProperties out = Some (QM_Offset (BM_Queue (EBroker e))) ∧
     (QM_Name (BM_Queue (EBroker e)) ≠ "" →
        out !! PropertyMessageID = Some (DeliveryID (BM_Queue (EBroker e))))).
Proof.
  intros Ho out. unfold out. rewrite ProjectProperties_stamp. split_and!.
  - intros k Hk. rewrite (proj1 (stamps_stamp e pr _ ∅ k)) by done.
    by rewrite lookup_WithoutReserved, Hk.
  - intros k props Hk. rewrite ProjectProperties_stamp. apply (stamps_stamp e pr).
    by rewrite !lookup_WithoutReserved, Hk.
  - intros Hq Hp. rewrite <-ProjectProperties_stamp. by apply project_offset_and_id.
Qed.

Lemma projection_unforgeable_witness :
  ProjectProperties (Envelope_blank
    <| EPublisher := Publisher_zero <| PM_Properties := {[PropertyOffset := "7"%string]} |>
                                    <| PM_MessageID := "mine" |> |>
    <| EBroker := Broker_zero <| BM_Queue := QueueMeta_zero <| QM_Name := "q" |> <| QM_Offset := 3 |> |> |>)
    PublicProjection !! PropertyMessageID = Some "q:3"%string.
Proof.
  refine (proj2 (proj2 (proj2 (projection_unforgeable _ PublicProjection _)) _ _) _); try reflexivity.
  - split; [discriminate|reflexivity].
  - discriminate.
Defined.

(** ** Reading a projection back *)

(** What the projection carries of a stream record: without a committed offset
    the work fields stay behind. *)
Definition stream_ok (s : StreamMetadata) : Prop :=
  0 <= SM_Offset s < 2 ^ 64 ∧ - 2 ^ 63 <= SM_Timestamp s < 2 ^ 63 ∧
  0 <= SM_CommittedOffset s < 2 ^ 64 ∧
  (SM_HasCommittedOffset s = false →
   SM_CommittedOffset s = 0 ∧ SM_WorkAcknowledged s = false ∧ SM_WorkGroup s = "").

Lemma parseUint_FormatUint name n errs : 0 <= n < 2 ^ 64 →
  ∀ target, parseUint name (FormatUint n) target errs = (n, errs).
Proof.
  intros Hn target. unfold parseUint.
  rewrite (proj2 (str_eqb_false _ _) (FormatUint_nonempty n)). by rewrite ParseUint_FormatUint.
Qed.

Definition stream_keys : list string :=
  [PropertyStreamTimestamp; PropertyWorkCommitted; PropertyWorkAcked; PropertyWorkGroup].

Lemma project_stream_keys s m : Forall (λ k, m !! k = None) stream_keys →
  let m' := projectStreamProperties s m in
  m' !! PropertyStreamOffset = Some (FormatUint (SM_Offset s)) ∧
  prop m' PropertyStreamTimestamp =
    (if (SM_Timestamp s =? 0)%Z then "" else FormatInt (SM_Timestamp s))%string ∧
  m' !! PropertyWorkCommitted =
    (if SM_HasCommittedOffset s then Some (FormatUint (SM_CommittedOffset s)) else None) ∧
  prop m' PropertyWorkAcked =
    (if SM_HasCommittedOffset s then FormatBool (SM_WorkAcknowledged s) else "")%string ∧
  prop m' PropertyWorkGroup = (if SM_HasCommittedOffset s then SM_WorkGroup s else "")%string.
Proof.
  intros Hm m'. unfold stream_keys in Hm. rewrite !Forall_cons in Hm.
  destruct Hm as (Hm1 & Hm2 & Hm3 & Hm4 & _).
  assert (Hp : ∀ k : string, m !! k = None → prop m k = "") by (by intros k Hk; unfold prop; rewrite Hk).
  unfold m', projectStreamProperties.
  destruct (SM_HasCommittedOffset s), (SM_Timestamp s =? 0); split_and!; skip_stamps;
    rewrite ?lookup_insert_eq, ?prop_insert_eq; auto;
    rewrite prop_set_nonempty_eq; auto; skip_stamps; auto.
Qed.

Lemma applyStream_project s m errs : stream_ok s → Forall (λ k, m !! k = None) stream_keys →
  applyStream (projectStreamProperties s m) errs = (Some s, errs).
Proof.
  intros (Ho & Ht & Hc & Hw) Hm. destruct (project_stream_keys s m Hm) as (E1 & E2 & E3 & E4 & E5).
  unfold applyStream. rewrite E1, E2, E3, E4, E5, parseUint_FormatUint by done.
  assert (Hts : (if str_eqb (if (SM_Timestamp s =? 0)%Z then "" else FormatInt (SM_Timestamp s))%string ""
    then (0, errs) else
      match ParseInt (if (SM_Timestamp s =? 0)%Z then "" else FormatInt (SM_Timestamp s))%string with
      | Ret t => (t, errs) | _ => (0, errs ++ [PropertyStreamTimestamp]) end) = (SM_Timestamp s, errs)).
  { destruct (SM_Timestamp s =? 0) eqn:Et; bool_prop; [by rewrite Et|].
    rewrite ParseInt_FormatInt by done. rewrite (proj2 (str_eqb_false _ _)); [done|].
    intros E. pose proof (ParseInt_FormatInt _ Ht) as H. by rewrite E in H. }
  rewrite Hts. clear Hts E1 E2 E3 E4 E5. destruct s as [off ts com [] ack grp];
    cbn [SM_Offset SM_Timestamp SM_CommittedOffset SM_HasCommittedOffset SM_WorkAcknowledged
         SM_WorkGroup] in *.
  - rewrite parseUint_FormatUint by done. destruct ack; done.
  - destruct (Hw eq_refl) as (-> & -> & ->). done.
Qed.

Lemma prop_lookup (m m' : propmap) k : m !! k = m' !! k → prop m k = prop m' k.
Proof. unfold prop. by intros ->. Qed.

(** The projected queue metadata, from a map without reserved keys. *)
Lemma project_queue_keys source q m : (∀ k, IsReservedProperty k = true → k ≠ PropertyMessageID →
    m !! k = None) →
  let m' := projectQueueProperties source q m in
  prop m' PropertyGroupID = QM_GroupID q ∧ prop m' PropertyQueueName = QM_Name q ∧
  prop m' PropertyOffset = FormatUint (QM_Offset q) ∧
  prop m' PropertySourceTopic = SRC_Topic source ∧
  ((∀ s, QM_Stream q = Some s → stream_ok s) → ∀ errs, applyStream m' errs = (QM_Stream q, errs)).
Proof.
  intros Hm m'. assert (Em : m' = projectQueueProperties source q m) by done. clearbody m'.
  assert (Hp : ∀ k, IsReservedProperty k = true → k ≠ PropertyMessageID → prop m k = "").
  { intros k H1 H2. unfold prop. by rewrite Hm. }
  assert (Hbase : ∀ k, k ∈ [PropertyGroupID; PropertyQueueName; PropertyOffset; PropertySourceTopic] →
    m' !! k = projectQueueProperties source (q <| QM_Stream := None |>) m !! k).
  { intros k Hk. rewrite Em. unfold projectQueueProperties. cbn [QM_Stream]. destruct (QM_Stream q); [|done].
    rewrite lookup_stream_other; [done|]. rewrite !elem_of_cons in *. tauto. }
  split_and!.
  1-4: match goal with |- prop _ ?k = _ => rewrite (prop_lookup _ _ k (Hbase k ltac:(elem_key))) end;
    unfold projectQueueProperties;
    change (QM_Stream (q <| QM_Stream := None |>)) with (@None StreamMetadata); cbv iota;
    skip_stamps; rewrite ?prop_insert_eq; try done;
    apply prop_set_nonempty_eq; skip_stamps; by apply Hp.
  intros Hs errs. rewrite Em. unfold projectQueueProperties. destruct (QM_Stream q) as [s|] eqn:Es.
  - apply applyStream_project; [by apply Hs|]. unfold stream_keys.
    repeat constructor; skip_stamps; by apply Hm.
  - unfold applyStream. skip_stamps. by rewrite Hm by done.
Qed.

(** The keys of the trace, source and transfer projections. *)
Definition other_keys : list string :=
  [PropertyTraceParent; PropertyTraceState; PropertyTraceID; PropertyClientID; PropertyExternalID;
   PropertyProtocol; PropertyTransferID; PropertyDLQReason].

Lemma lookup_queue_other source q m k : k ∈ other_keys →
  projectQueueProperties source q m !! k = m !! k.
Proof.
  intros Hk. unfold projectQueueProperties, projectStreamProperties, other_keys in *.
  repeat (apply elem_of_cons in Hk as [->|Hk];
    [destruct (QM_Stream q) as [s|];
       [destruct (SM_Timestamp s =? 0), (SM_HasCommittedOffset s)|]; by skip_stamps|]).
  by apply not_elem_of_nil in Hk.
Qed.

Lemma stamp_other_keys e m : (∀ k, IsReservedProperty k = true → m !! k = None) →
  let m' := stamp e TrustedServiceProjection m in
  TraceFromProperties m' = BM_Trace (EBroker e) ∧
  prop m' PropertyClientID = SRC_ClientID (BM_Source (EBroker e)) ∧
  prop m' PropertyExternalID = SRC_ExternalID (BM_Source (EBroker e)) ∧
  prop m' PropertyProtocol = SRC_Protocol (BM_Source (EBroker e)) ∧
  prop m' PropertyTransferID = TM_ID (BM_Transfer (EBroker e)) ∧
  prop m' PropertyDLQReason = TM_FailureReason (BM_Transfer (EBroker e)).
Proof.
  intros Hm m'. set (base := stamp_queue e TrustedServiceProjection
    (set_nonempty PropertyMessageID (PM_MessageID (EPublisher e)) m)).
  assert (Hb : ∀ k, k ∈ other_keys → IsReservedProperty k = true → k ≠ PropertyMessageID →
    prop base k = "").
  { intros k Hk Hr Hn. unfold prop, base, stamp_queue.
    destruct (_ && _); rewrite ?lookup_queue_other by done;
      rewrite lookup_set_nonempty_ne by done; by rewrite Hm. }
  unfold m', stamp. fold base. clearbody base. clear m'.
  unfold stamp_trace, stamp_source, stamp_transfer, TraceFromProperties. cbn [PR_Trace PR_Source PR_Transfer TrustedServiceProjection].
  destruct (BM_Trace (EBroker e)) as [tp ts ti]. cbn [TR_Parent TR_State TR_ID].
  split_and!; [f_equal|..]; skip_stamps; apply prop_set_nonempty_eq; skip_stamps;
    apply Hb; try done; unfold other_keys; elem_key.
Qed.

Lemma FilterUserProperties_stamp e pr m : (∀ k, IsReservedProperty k = true → m !! k = None) →
  FilterUserProperties (stamp e pr m) = m.
Proof.
  intros Hm. apply map_eq. intros k. change (FilterUserProperties (stamp e pr m))
    with (WithoutReserved (stamp e pr m)). rewrite lookup_WithoutReserved.
  destruct (IsReservedProperty k) eqn:E; [by rewrite Hm|]. by apply (stamps_stamp e pr m ∅ k).
Qed.

(** Trusted projection round trip: a broker that receives a queue delivery as
    properties from a trusted peer decodes every property, and recovers the
    peer's source, trace, transfer and queue metadata and the publisher's own
    properties; the message identifier becomes the peer's delivery handle. *)
Theorem trusted_roundtrip e e0 :
  let q := BM_Queue (EBroker e) in
  hasQueueProjection q = true → 0 <= QM_Offset q < 2 ^ 64 →
  (∀ s, QM_Stream q = Some s → stream_ok s) →
  let '(e', errs) := ApplyTrustedProperties e0 (ProjectProperties e TrustedServiceProjection) in
  let q' := BM_Queue (EBroker e') in
  errs = [] ∧ BM_Source (EBroker e') = BM_Source (EBroker e) ∧
  BM_Trace (EBroker e') = BM_Trace (EBroker e) ∧
  TM_ID (BM_Transfer (EBroker e')) = TM_ID (BM_Transfer (EBroker e)) ∧
  TM_FailureReason (BM_Transfer (EBroker e')) = TM_FailureReason (BM_Transfer (EBroker e)) ∧
  QM_Name q' = QM_Name q ∧ QM_GroupID q' = QM_GroupID q ∧ QM_Offset q' = QM_Offset q ∧
  (QM_Stream q ≠ None → QM_Stream q' = QM_Stream q) ∧
  PM_Properties (EPublisher e') = WithoutReserved (PM_Properties (EPublisher e)) ∧
  (QM_Name q ≠ "" → PM_MessageID (EPublisher e') = DeliveryID q).
Proof.
  intros q Hq Ho Hs. rewrite ProjectProperties_stamp.
  set (m0 := WithoutReserved (PM_Properties (EPublisher e))).
  assert (Hm0 : ∀ k, IsReservedProperty k = true → m0 !! k = None).
  { intros k Hk. unfold m0. by rewrite lookup_WithoutReserved, Hk. }
  destruct (stamp_other_keys e m0 Hm0) as (Et & E1 & E2 & E3 & E4 & E5).
  pose proof (FilterUserProperties_stamp e TrustedServiceProjection m0 Hm0) as Ef.
  pose proof (lookup_stamp_queue_key e TrustedServiceProjection m0) as Hk.
  set (m := stamp e TrustedServiceProjection m0) in *. clearbody m.
  unfold stamp_queue in Hk. cbn [PR_Queue TrustedServiceProjection andb] in Hk.
  fold q in Hk. rewrite Hq in Hk. set (m1 := set_nonempty _ _ m0) in Hk.
  destruct (project_queue_keys (BM_Source (EBroker e)) q m1) as (G1 & G2 & G3 & G4 & G5).
  { intros k Hr Hn. unfold m1. rewrite lookup_set_nonempty_ne by done. by apply Hm0. }
  assert (Hmid : QM_Name q ≠ "" → prop m PropertyMessageID = DeliveryID q).
  { intros Hn. unfold prop. rewrite Hk by elem_key. by rewrite project_message_id. }
  set (m2 := projectQueueProperties (BM_Source (EBroker e)) q m1) in *. clearbody m2.
  assert (Hst : ∀ errs, applyStream m errs = applyStream m2 errs).
  { intros errs. unfold applyStream, prop. by rewrite !Hk by elem_key. }
  unfold ApplyTrustedProperties. rewrite Ef, Et, E4, E5.
  rewrite (prop_lookup _ _ _ (Hk PropertyQueueName ltac:(elem_key))), G2,
    (prop_lookup _ _ _ (Hk PropertyGroupID ltac:(elem_key))), G1,
    (prop_lookup _ _ _ (Hk PropertyOffset ltac:(elem_key))), G3,
    (prop_lookup _ _ _ (Hk PropertySourceTopic ltac:(elem_key))), G4.
  unfold SourceFromProperties. rewrite E1, E2, E3, parseUint_FormatUint by done.
  rewrite Hst, (G5 Hs). destruct (BM_Source (EBroker e)) as [c x p t]. cbn.
  split_and!; try done; by destruct (QM_Stream q).
Qed.

(** A record of queue [q] at offset 3, projected for a stream consumer. *)
Definition example_delivery : Envelope := Envelope_blank
  <| EPublisher := Publisher_zero <| PM_Properties := {["colour" := "red"; PropertyOffset := "9"]}%string |> |>
  <| EBroker := Broker_zero <| BM_Queue := QueueMeta_zero <| QM_Name := "q" |> <| QM_Offset := 3 |>
       <| QM_Stream := Some (mkStream 3 17 2 true true "workers") |> |> |>.

Lemma trusted_roundtrip_witness :
  QM_Stream (BM_Queue (EBroker (ApplyTrustedProperties Envelope_blank
    (ProjectProperties example_delivery TrustedServiceProjection)).1)) =
  Some (mkStream 3 17 2 true true "workers").
Proof.
  pose proof (trusted_roundtrip example_delivery Envelope_blank) as H. cbv zeta in H.
  destruct (ApplyTrustedProperties _ _) as [e' errs].
  refine (proj1 (proj2 (proj2 (proj2 (proj2 (proj2 (proj2 (proj2 (proj2 (H _ _ _))))))))) _);
    [reflexivity|split; [discriminate|reflexivity]| |discriminate].
  intros s [= <-]. repeat split; discriminate || reflexivity.
Defined.

(** ** Lifetime of envelopes

    Who holds a payload reference: a live envelope, or a packet that was given
    one by [RetainPayload].  [given]: the bytes each was made from. *)
Inductive holder := HEnvelope (e : Envelope) | HPacket (ref : option nat).

Definition payload_of (x : holder) : option nat :=
  match x with HEnvelope e => EPayload e | HPacket ref => ref end.

Record world := mkWorld { ps : pools; holders : gmap nat holder; given : gmap nat (list byte) }.

Definition ref_of (x : holder) : gmultiset nat :=
  match payload_of x with Some a => {[+ a +]} | None => ∅ end.
Definition refs_of (m : gmap nat holder) : gmultiset nat :=
  map_fold (λ _ x acc, ref_of x ⊎ acc) ∅ m.

(** Fewer than [2^31 - 1] references exist. *)
Definition room (w : world) : Prop := PayloadFacts.room (refs_of (holders w)).

Inductive estep : world → world → Prop :=
| estep_new pick ppick topic data i s hs g e s' :
    room (mkWorld s hs g) → hs !! i = None → New pick ppick topic data s = (e, s') →
    estep (mkWorld s hs g) (mkWorld s' (<[i := HEnvelope e]> hs) (<[i := data]> g))
| estep_clone pick i j s hs g e e' s' d :
    room (mkWorld s hs g) → hs !! i = Some (HEnvelope e) → hs !! j = None → g !! i = Some d →
    Clone pick e s = (e', s') →
    estep (mkWorld s hs g) (mkWorld s' (<[j := HEnvelope e']> hs) (<[j := d]> g))
| estep_retain i j s hs g e a s' d :
    room (mkWorld s hs g) → hs !! i = Some (HEnvelope e) → hs !! j = None → g !! i = Some d →
    RetainPayload e s = (a, s') →
    estep (mkWorld s hs g) (mkWorld s' (<[j := HPacket a]> hs) (<[j := d]> g))
| estep_set ppick data i s hs g e e' s' :
    room (mkWorld s hs g) → hs !! i = Some (HEnvelope e) → SetPayload ppick data e s = (e', s') →
    estep (mkWorld s hs g) (mkWorld s' (<[i := HEnvelope e']> hs) (<[i := data]> g))
| estep_release i s hs g e :
    hs !! i = Some (HEnvelope e) →
    estep (mkWorld s hs g) (mkWorld (Release (Some e) s) (delete i hs) g)
| estep_release_packet i s hs g a :
    hs !! i = Some (HPacket a) →
    estep (mkWorld s hs g)
          (mkWorld (s <| mem := Payload.Release a (mem s) |>) (delete i hs) g)
| estep_update i s hs g e e' :
    hs !! i = Some (HEnvelope e) → EPayload e' = EPayload e →
    estep (mkWorld s hs g) (mkWorld s (<[i := HEnvelope e']> hs) g).

Definition einit : world := mkWorld (mkPools Payload.empty_heap []) ∅ ∅.

Lemma refs_of_insert i x m : m !! i = None → refs_of (<[i := x]> m) = ref_of x ⊎ refs_of m.
Proof. intros H. apply (map_fold_insert_L (λ _ x acc, ref_of x ⊎ acc)); [|done].
  intros. multiset_solver. Qed.
Lemma refs_of_delete i x m : m !! i = Some x → refs_of m = ref_of x ⊎ refs_of (delete i m).
Proof.
  intros H. rewrite <-(insert_delete_id m i x H) at 1.
  apply refs_of_insert. apply lookup_delete_eq.
Qed.
Lemma refs_of_elem i x a m : m !! i = Some x → payload_of x = Some a → a ∈ refs_of m.
Proof.
  intros H Ha. rewrite (refs_of_delete i x m H). unfold ref_of. rewrite Ha. multiset_solver.
Qed.

(** Releasing the reference of one holder, whatever it is. *)
Lemma refs_of_released i x m : m !! i = Some x →
  refs_of (delete i m) = match payload_of x with
                         | Some a => refs_of m ∖ {[+ a +]} | None => refs_of m end.
Proof.
  intros H. rewrite (refs_of_delete i x m H). unfold ref_of. destruct (payload_of x); multiset_solver.
Qed.

(** ** The invariant *)

(** [cs]: what each buffer holds; every holder's buffer holds what it was given. *)
Record einv (w : world) (cs : gmap nat (list byte)) : Prop := {
  einv_mem : PayloadFacts.inv (PayloadFacts.mkWorld (mem (ps w)) (refs_of (holders w)) cs);
  einv_given i x : holders w !! i = Some x →
    given w !! i = match payload_of x with Some a => cs !! a | None => Some [] end;
  einv_pool : Forall (λ e, e = Envelope_blank) (envelopePool (ps w))
}.

Lemma Acquire_blank pick s : Forall (λ e, e = Envelope_blank) (envelopePool s) →
  (Acquire pick s).1 = Envelope_blank ∧ mem (Acquire pick s).2 = mem s ∧
  Forall (λ e, e = Envelope_blank) (envelopePool (Acquire pick s).2).
Proof.
  intros Hp. unfold Acquire. destruct (pick ≫= _) as [[i e]|] eqn:E; [|done].
  apply bind_Some in E as (j & -> & (e' & Hj & [= -> ->])%fmap_Some).
  split_and!; [|done|by apply Forall_delete].
  assert (e' = Envelope_blank) as -> by by eapply Forall_lookup_1 in Hp. done.
Qed.

(** Storing bytes for a new holder. *)
Lemma einv_store ppick data a h' s hs g cs i x : einv (mkWorld s hs g) cs → room (mkWorld s hs g) →
  hs !! i = None → Payload.FromBytes ppick data (mem s) = (a, h') → payload_of x = a →
  ∃ cs', einv (mkWorld (s <| mem := h' |>) (<[i := x]> hs) (<[i := data]> g)) cs'.
Proof.
  intros [Hm Hg Hp] Hr Hi Hf Hx. cbn [ps holders given] in *. destruct a as [a|].
  - exists (<[a := data]> cs). pose proof (PayloadFacts.inv_from _ ppick data a h' Hm Hr Hf) as Hm'.
    assert (Ha : a ∉ refs_of hs).
    { unfold Payload.FromBytes in Hf. destruct data as [|b l]; [done|].
      destruct (Payload.get _ _ _) as [a' h1] eqn:Hget. injection Hf as -> _.
      apply (PayloadFacts.get_ok _ _ _ _ _ Hm) in Hget as [? _]; [done|lia]. }
    split; [| |done].
    + simpl. rewrite refs_of_insert by done. unfold ref_of. by rewrite Hx.
    + simpl. intros j y [[<- <-]|[Hne Hy]]%lookup_insert_Some.
      * by rewrite lookup_insert_eq, Hx, lookup_insert_eq.
      * rewrite lookup_insert_ne by done. rewrite (Hg j y Hy). destruct (payload_of y) as [a'|] eqn:Ey; [|done].
        rewrite lookup_insert_ne; [done|]. intros <-. apply Ha. by eapply refs_of_elem.
  - exists cs. assert (data = [] ∧ h' = mem s) as [-> ->].
    { unfold Payload.FromBytes in Hf. destruct data; [by injection Hf|].
      by destruct (Payload.get _ _ _). }
    split; [| |done].
    + simpl. rewrite refs_of_insert by done. unfold ref_of. rewrite Hx.
      by rewrite (left_id_L ∅ (⊎)).
    + simpl. intros j y [[<- <-]|[Hne Hy]]%lookup_insert_Some.
      * by rewrite lookup_insert_eq, Hx.
      * rewrite lookup_insert_ne by done. by apply Hg.
Qed.

(** A further holder of an existing reference. *)
Lemma einv_share s hs g cs i j x y d : einv (mkWorld s hs g) cs → room (mkWorld s hs g) →
  hs !! i = Some x → hs !! j = None → g !! i = Some d → payload_of y = payload_of x →
  einv (mkWorld (s <| mem := Payload.Retain (payload_of x) (mem s) |>) (<[j := y]> hs)
          (<[j := d]> g)) cs.
Proof.
  intros [Hm Hg Hp] Hr Hi Hj Hd Hy. cbn [ps holders given] in *. pose proof (Hg i x Hi) as Hgi. simpl in Hgi. rewrite Hd in Hgi.
  split; [| |done]; simpl.
  - rewrite refs_of_insert by done. unfold ref_of. rewrite Hy. destruct (payload_of x) as [a|] eqn:Ea.
    + apply (PayloadFacts.inv_retain _ a Hm Hr). by eapply refs_of_elem.
    + simpl. by rewrite (left_id_L ∅ (⊎)).
  - intros k z [[<- <-]|[Hne Hz]]%lookup_insert_Some.
    + by rewrite lookup_insert_eq, Hy.
    + rewrite lookup_insert_ne by done. by apply Hg.
Qed.

(** A holder gives its reference back. *)
Lemma einv_drop s hs g cs i x : einv (mkWorld s hs g) cs → hs !! i = Some x →
  einv (mkWorld (s <| mem := Payload.Release (payload_of x) (mem s) |>) (delete i hs) g) cs.
Proof.
  intros [Hm Hg Hp] Hi. split; [| |done]; simpl.
  - rewrite (refs_of_released i x) by done. destruct (payload_of x) as [a|] eqn:Ea; [|done].
    apply (PayloadFacts.inv_release _ a Hm). by eapply refs_of_elem.
  - intros k z [_ Hz]%lookup_delete_Some. by apply Hg.
Qed.

Lemma einv_pool_change s hs g cs p : einv (mkWorld s hs g) cs →
  Forall (λ e, e = Envelope_blank) p → einv (mkWorld (mkPools (mem s) p) hs g) cs.
Proof. by intros [Hm Hg _] Hp. Qed.

Lemma room_delete s hs g i : room (mkWorld s hs g) → ∀ s' g', room (mkWorld s' (delete i hs) g').
Proof.
  unfold room, PayloadFacts.room. simpl. intros H _ _. destruct (hs !! i) as [x|] eqn:E.
  - rewrite (refs_of_delete i x hs E), gmultiset_size_disj_union in H. lia.
  - by rewrite delete_id.
Qed.

Lemma einv_step w w' cs : estep w w' → einv w cs → ∃ cs', einv w' cs'.
Proof.
  assert (Hacq : ∀ pick s hs g, einv (mkWorld s hs g) cs →
    ∃ p, Acquire pick s = (Envelope_blank, mkPools (mem s) p) ∧
         einv (mkWorld (mkPools (mem s) p) hs g) cs).
  { intros pick s hs g H. destruct (Acquire_blank pick s (einv_pool _ _ H)) as (E1 & E2 & E3).
    destruct (Acquire pick s) as [e [m p]]. simpl in *. subst. exists p. split; [done|].
    by apply einv_pool_change. }
  intros Hs Hinv. destruct Hs as [pick ppick topic data i s hs g e s' Hr Hi Hn
    |pick i j s hs g e e' s' d Hr Hi Hj Hd Hc|i j s hs g e a s' d Hr Hi Hj Hd Hc
    |ppick data i s hs g e e' s' Hr Hi Hn|i s hs g e Hi|i s hs g a Hi|i s hs g e e' Hi He].
  - destruct (Hacq pick s hs g Hinv) as (p & Ea & Hinv'). unfold New in Hn. rewrite Ea in Hn.
    cbn [mem] in Hn. destruct (Payload.FromBytes ppick data (mem s)) as [a h] eqn:Ef.
    injection Hn as <- <-. by apply (einv_store ppick data a h (mkPools (mem s) p) hs g cs i).
  - exists cs. destruct (Hacq pick s hs g Hinv) as (p & Ea & Hinv'). unfold Clone in Hc.
    rewrite Ea in Hc. injection Hc as <- <-.
    by apply (einv_share (mkPools (mem s) p) hs g cs i j (HEnvelope e)).
  - exists cs. injection Hc as <- <-. by apply (einv_share s hs g cs i j (HEnvelope e)).
  - pose proof (einv_drop _ _ _ _ _ _ Hinv Hi) as Hdrop. unfold SetPayload in Hn.
    destruct (Payload.FromBytes ppick data _) as [a h] eqn:Ef. injection Hn as <- <-.
    rewrite <-(insert_delete_eq hs i).
    eapply (einv_store ppick data a h _ _ g cs i) in Hdrop;
      [exact Hdrop|by eapply room_delete|apply lookup_delete_eq|exact Ef|done].
  - exists cs. pose proof (einv_drop _ _ _ _ _ _ Hinv Hi) as Hdrop.
    unfold Release, reset, ReleasePayload.
    apply (einv_pool_change _ _ _ _ (Envelope_blank :: envelopePool s)) in Hdrop; [done|].
    constructor; [done|]. apply (einv_pool _ _ Hinv).
  - exists cs. by apply (einv_drop s hs g cs i (HPacket a)).
  - exists cs. destruct Hinv as [Hm Hg Hp]. cbn [ps holders given] in *. split; [| |done]; simpl.
    + rewrite <-insert_delete_eq, refs_of_insert by apply lookup_delete_eq.
      rewrite (refs_of_delete i _ hs Hi) in Hm. unfold ref_of in *. simpl in *. by rewrite He.
    + intros k z [[<- <-]|[_ Hz]]%lookup_insert_Some; [|by apply Hg].
      simpl. rewrite He. by rewrite (Hg i _ Hi).
Qed.

Lemma einv_init : einv einit ∅.
Proof. split; [apply PayloadFacts.inv_init|done|constructor]. Qed.

Lemma einv_reachable w : rtc estep einit w → ∃ cs, einv w cs.
Proof.
  intros H. assert (Hi : ∃ cs, einv einit cs) by (eexists; apply einv_init). revert Hi.
  induction H; [done|]. intros [cs Hi]. apply IHrtc. by eapply einv_step.
Qed.

(** A holder reads what it was given. *)
Lemma einv_bytes w cs i x : einv w cs → holders w !! i = Some x →
  given w !! i = Some (Payload.Bytes (payload_of x) (mem (ps w))).
Proof.
  intros [Hm Hg Hp] Hi. rewrite (Hg i x Hi). destruct (payload_of x) as [a|] eqn:Ea; [|done].
  destruct (PayloadFacts.inv_held _ Hm a) as (b & Hb & Hc); [by eapply refs_of_elem|].
  unfold Payload.Bytes. simpl in *. by rewrite Hb.
Qed.

(** Storing bytes in a reachable heap gives a buffer of those bytes. *)
Lemma FromBytes_bytes w cs ppick data a h' : einv w cs → room w →
  Payload.FromBytes ppick data (mem (ps w)) = (a, h') → Payload.Bytes a h' = data.
Proof.
  destruct w as [s hs g]. intros Hinv Hr Hf. set (i := fresh (dom hs)).
  assert (Hi : hs !! i = None) by (apply not_elem_of_dom, is_fresh).
  destruct (einv_store ppick data a h' s hs g cs i (HPacket a) Hinv Hr Hi Hf eq_refl) as [cs' Hinv'].
  pose proof (einv_bytes _ _ i (HPacket a) Hinv' (lookup_insert_eq _ _ _)) as H.
  simpl in H. rewrite lookup_insert_eq in H. by injection H as ->.
Qed.

(** C39 Envelope lifetime: in every history of envelopes being made, cloned,
    given new payloads, encoded into packets that keep a payload reference, and
    released, each live envelope and each packet reads the payload it was
    given, although clones share buffers and the pools recycle both; no
    reference is released twice; and an envelope taken from the pool is blank. *)
Theorem envelope_lifetime w : rtc estep einit w →
  (∀ i x, holders w !! i = Some x →
     given w !! i = Some (Payload.Bytes (payload_of x) (mem (ps w)))) ∧
  Payload.doubleReleaseCount (mem (ps w)) = 0 ∧
  ∀ pick, (Acquire pick (ps w)).1 = Envelope_blank.
Proof.
  intros [cs Hinv]%einv_reachable. pose proof Hinv as [Hm Hg Hp]. split_and!.
  - intros i x Hi. by eapply einv_bytes.
  - apply Hm.
  - intros pick. by apply Acquire_blank.
Qed.

(** A clone outlives its original, whose buffer is not recycled under it. *)
Lemma envelope_lifetime_witness :
  ∃ w, rtc estep einit w ∧ holders w !! 2%nat ≠ None ∧ holders w !! 1%nat = None ∧
       given w !! 2%nat = Some [x68; x69] ∧
       ∀ x, holders w !! 2%nat = Some x → Payload.Bytes (payload_of x) (mem (ps w)) = [x68; x69].
Proof.
  destruct (New None None "t" [x68; x69] (ps einit)) as [e1 s1] eqn:E1.
  destruct (Clone None e1 s1) as [e2 s2] eqn:E2.
  set (w := mkWorld (Release (Some e1) s2) (delete 1%nat (<[2%nat := HEnvelope e2]> (<[1%nat := HEnvelope e1]> ∅)))
              (<[2%nat := [x68; x69]]> (<[1%nat := [x68; x69]]> ∅))).
  assert (Hr : rtc estep einit w).
  { eapply rtc_l; [apply (estep_new None None "t" [x68; x69] 1 _ _ _ e1 s1); [|done|exact E1]|].
    { vm_compute. reflexivity. }
    eapply rtc_l; [apply (estep_clone None 1 2 _ _ _ e1 e2 s2 [x68; x69]); [|done|done|done|exact E2]|].
    { unfold room. simpl. rewrite refs_of_insert by done. injection E1 as <- <-. vm_compute. reflexivity. }
    apply rtc_once. by apply estep_release. }
  exists w. split; [exact Hr|]. split_and!; [done..|]. intros x Hx.
  pose proof (proj1 (envelope_lifetime w Hr) 2%nat x Hx) as H.
  apply (inj Some). rewrite <-H. done.
Defined.
End MessageFacts.
