(* ===== verification/EnvelopeCodec.v ===== *)
(** * The persisted form of an envelope (src/message/codec.go)

    The binary envelope codec: protobuf wire format, written and read by hand.
    The package [protowire] is third-party code: its functions are the operations
    of the class [Protowire], and what its documentation promises of them are the
    laws of [ProtowireLaws]; [wire_instance] is one implementation that satisfies
    them.  The order in which Go walks the header and property maps is an
    argument.  [estimateSize] only sizes a buffer and is not modelled.

    Theorems: decoding inverts encoding, in full and in metadata mode; decoding
    arbitrary bytes never panics and leaves the pools blank; nesting in place is
    the same as encoding into a buffer of its own. *)

From Stdlib Require Import ZArith Lia Bool Ascii String Strings.Byte.
From stdpp Require Import gmultiset prelude gmap strings.
From S2P Require Import Prelude GoStrings Payload Envelope.

Import Message.

(** ** protowire *)

Definition VarintType : Z := 0.
Definition BytesType : Z := 2.

Class Protowire := {
  AppendVarint : list byte → Z → list byte;
  AppendTag : list byte → Z → Z → list byte;
  AppendBytes : list byte → list byte → list byte;
  AppendString : list byte → string → list byte;
  (** The number, the type and the length, negative for an error. *)
  ConsumeTag : list byte → Z * Z * Z;
  ConsumeVarint : list byte → Z * Z;
  ConsumeBytes : list byte → list byte * Z;
  ConsumeFieldValue : Z → Z → list byte → Z;
  EncodeZigZag : Z → Z;
  DecodeZigZag : Z → Z
}.

(** [binary.PutUvarint]: seven bits at a time, least significant first. *)
Fixpoint PutUvarint_loop (fuel : nat) (x : Z) : list byte :=
  match fuel with
  | O => []
  | S fuel =>
      if x <? 0x80 then [z2b x] else z2b (Z.lor x 0x80) :: PutUvarint_loop fuel (Z.shiftr x 7)
  end.
Definition PutUvarint (x : Z) : list byte := PutUvarint_loop 10 x.

(** The largest field number of the wire format. *)
Definition MaxValidNumber : Z := 2 ^ 29 - 1.

Class ProtowireLaws (PW : Protowire) : Prop := {
  AppendVarint_law b v : AppendVarint b v = b ++ PutUvarint (u64 v);
  AppendTag_law b n t : 1 <= n <= MaxValidNumber → 0 <= t <= 5 →
    AppendTag b n t = AppendVarint b (Z.lor (Z.shiftl n 3) t);
  AppendBytes_law b v : AppendBytes b v = AppendVarint b (Z.of_nat (length v)) ++ v;
  AppendString_law b s : AppendString b s = AppendBytes b (bytes_of s);
  ConsumeTag_law n t rest : 1 <= n <= MaxValidNumber → 0 <= t <= 5 →
    ConsumeTag (AppendTag [] n t ++ rest) = (n, t, Z.of_nat (length (AppendTag [] n t)));
  ConsumeVarint_law v rest : 0 <= v < 2 ^ 64 →
    ConsumeVarint (AppendVarint [] v ++ rest) = (v, Z.of_nat (length (AppendVarint [] v)));
  ConsumeBytes_law v rest : Z.of_nat (length v) < 2 ^ 63 →
    ConsumeBytes (AppendBytes [] v ++ rest) = (v, Z.of_nat (length (AppendBytes [] v)));
  ConsumeTag_bounds b : let n := (ConsumeTag b).2 in n < 0 ∨ 0 < n <= Z.of_nat (length b);
  ConsumeVarint_bounds b : let '(v, n) := ConsumeVarint b in
    n < 0 ∨ 0 < n <= Z.of_nat (length b) ∧ 0 <= v < 2 ^ 64;
  ConsumeBytes_bounds b : let n := (ConsumeBytes b).2 in n < 0 ∨ 0 < n <= Z.of_nat (length b);
  ConsumeFieldValue_bounds number t b :
    let n := ConsumeFieldValue number t b in n < 0 ∨ 0 < n <= Z.of_nat (length b);
  EncodeZigZag_range x : - 2 ^ 63 <= x < 2 ^ 63 → 0 <= EncodeZigZag x < 2 ^ 64;
  DecodeZigZag_law x : - 2 ^ 63 <= x < 2 ^ 63 → DecodeZigZag (EncodeZigZag x) = x
}.

Inductive codecMode := encodeFull | encodeMetadata.
#[export] Instance codecMode_eq_dec : EqDecision codecMode.
Proof. solve_decision. Defined.

Section codec.
Context {PW : Protowire}.

(** ** Writing *)

Definition appendString (encoded : list byte) (number : Z) (value : string) : list byte :=
  if str_eqb value "" then encoded
  else AppendString (AppendTag encoded number BytesType) value.

Definition appendBytes (encoded : list byte) (number : Z) (value : list byte) : list byte :=
  match value with
  | [] => encoded
  | _ => AppendBytes (AppendTag encoded number BytesType) value
  end.

Definition appendVarint (encoded : list byte) (number value : Z) : list byte :=
  AppendVarint (AppendTag encoded number VarintType) value.

Definition appendNonZeroVarint (encoded : list byte) (number value : Z) : list byte :=
  if value =? 0 then encoded else appendVarint encoded number value.

Definition appendBool (encoded : list byte) (number : Z) (value : bool) : list byte :=
  if negb value then encoded else appendVarint encoded number 1.

Definition appendTime (encoded : list byte) (number : Z) (value : gotime) : list byte :=
  match value with
  | None => encoded
  | Some ns => appendVarint encoded number (EncodeZigZag ns)
  end.

(** [nested]: [tagAt] and [bodyAt]. *)
Record nested := mkNested { tagAt : nat; bodyAt : nat }.

Definition beginNested (encoded : list byte) (number : Z) : list byte * nested :=
  let tagAt := length encoded in
  let encoded := AppendTag encoded number BytesType ++ [x00] in
  (encoded, mkNested tagAt (length encoded)).

(** [copy(l[pos:], src)]. *)
Definition copy_at (pos : nat) (src l : list byte) : list byte :=
  take pos l ++ take (length l - pos) src ++ drop (pos + length src) l.

Definition endNested (encoded : list byte) (at_ : nested) : list byte :=
  let size := (length encoded - bodyAt at_)%nat in
  if (size =? 0)%nat then take (tagAt at_) encoded
  else
    let prefix := PutUvarint (Z.of_nat size) in
    let width := length prefix in
    let encoded :=
      if (1 <? width)%nat then
        let encoded := encoded ++ take (width - 1) prefix in
        copy_at (bodyAt at_ + width - 1) (take size (drop (bodyAt at_) encoded)) encoded
      else encoded in
    copy_at (bodyAt at_ - 1) prefix encoded.

Definition appendPackedVarints (encoded : list byte) (number : Z) (values : list Z) : list byte :=
  match values with
  | [] => encoded
  | _ =>
      let '(encoded, at_) := beginNested encoded number in
      endNested (foldl AppendVarint encoded values) at_
  end.

Definition appendSource (encoded : list byte) (source : SourceMetadata) : list byte :=
  let encoded := appendString encoded 1 (SRC_ClientID source) in
  let encoded := appendString encoded 2 (SRC_ExternalID source) in
  let protocol := match protocolNumber (SRC_Protocol source) with Ret n => n | _ => 0 end in
  let encoded := appendNonZeroVarint encoded 3 protocol in
  appendString encoded 4 (SRC_Topic source).

Definition appendDelivery (encoded : list byte) (d : DeliveryMetadata) : list byte :=
  let encoded := appendTime encoded 1 (DM_PublishedAt d) in
  let encoded := appendTime encoded 2 (DM_ExpiresAt d) in
  let encoded := appendPackedVarints encoded 3 (DM_SubscriptionIDs d) in
  let encoded := appendNonZeroVarint encoded 4 (DM_PacketID d) in
  let encoded := appendNonZeroVarint encoded 5 (DM_QoS d) in
  let encoded := appendNonZeroVarint encoded 6 (DM_InflightDirection d) in
  let encoded := appendNonZeroVarint encoded 7 (DM_InflightState d) in
  let encoded := appendBool encoded 8 (DM_Retain d) in
  appendBool encoded 9 (DM_Duplicate d).

Definition appendStream (encoded : list byte) (s : StreamMetadata) : list byte :=
  let encoded := appendNonZeroVarint encoded 1 (SM_Offset s) in
  let encoded := if SM_Timestamp s =? 0 then encoded
                 else appendVarint encoded 2 (EncodeZigZag (SM_Timestamp s)) in
  let encoded := appendNonZeroVarint encoded 3 (SM_CommittedOffset s) in
  let encoded := appendBool encoded 4 (SM_HasCommittedOffset s) in
  let encoded := appendBool encoded 5 (SM_WorkAcknowledged s) in
  appendString encoded 6 (SM_WorkGroup s).

Definition appendQueue (encoded : list byte) (q : QueueMetadata) : list byte :=
  let encoded := appendString encoded 2 (QM_Name q) in
  let encoded := appendString encoded 3 (QM_GroupID q) in
  let encoded := appendNonZeroVarint encoded 4 (QM_Offset q) in
  let state := match queueStateNumber (QM_State q) with Ret n => n | _ => 0 end in
  let encoded := appendNonZeroVarint encoded 5 state in
  let encoded := appendTime encoded 6 (QM_CreatedAt q) in
  let encoded := appendTime encoded 7 (QM_DeliveredAt q) in
  let encoded := appendTime encoded 8 (QM_NextRetryAt q) in
  let encoded := appendNonZeroVarint encoded 9 (u64 (QM_RetryCount q)) in
  let encoded := appendTime encoded 10 (QM_ExpiresAt q) in
  match QM_Stream q with
  | Some s => let '(encoded, stream) := beginNested encoded 11 in
              endNested (appendStream encoded s) stream
  | None => encoded
  end.

Definition appendTransfer (encoded : list byte) (t : TransferMetadata) : list byte :=
  let encoded := appendString encoded 1 (TM_ID t) in
  let encoded := appendString encoded 2 (TM_FailureReason t) in
  let encoded := appendTime encoded 3 (TM_FirstAttempt t) in
  let encoded := appendTime encoded 4 (TM_LastAttempt t) in
  let encoded := appendTime encoded 5 (TM_CompletedAt t) in
  let encoded := appendString encoded 6 (TM_SourceQueue t) in
  let encoded := appendString encoded 7 (TM_SourceGroup t) in
  let encoded := appendNonZeroVarint encoded 8 (TM_SourceOffset t) in
  appendNonZeroVarint encoded 9 (u64 (TM_DeliveryCount t)).

Definition appendTrace (encoded : list byte) (t : TraceMetadata) : list byte :=
  let encoded := appendString encoded 1 (TR_Parent t) in
  let encoded := appendString encoded 2 (TR_State t) in
  appendString encoded 3 (TR_ID t).

(** [begin], [append], [end] of one namespace. *)
Definition appendNested {A} (append : list byte → A → list byte) (number : Z) (a : A)
    (encoded : list byte) : list byte :=
  let '(encoded, at_) := beginNested encoded number in endNested (append encoded a) at_.

Definition appendBroker (encoded : list byte) (b : BrokerMetadata) : list byte :=
  let encoded := appendNested appendSource 1 (BM_Source b) encoded in
  let encoded := appendNested appendDelivery 2 (BM_Delivery b) encoded in
  let encoded := appendNested appendQueue 3 (BM_Queue b) encoded in
  let encoded := appendNested appendTransfer 4 (BM_Transfer b) encoded in
  appendNested appendTrace 5 (BM_Trace b) encoded.

(** One entry of the header map, and of the property map. *)
Definition appendHeader (encoded : list byte) (kv : string * list byte) : list byte :=
  appendBytes (appendString encoded 1 kv.1) 2 kv.2.
Definition appendProperty (encoded : list byte) (kv : string * string) : list byte :=
  appendString (appendString encoded 1 kv.1) 2 kv.2.

(** [hs] and [ps]: the entries of the two maps in the order they are walked. *)
Definition appendPublisher (mode : codecMode) (hs : list (string * list byte))
    (ps : list (string * string)) (encoded : list byte) (user : PublisherMetadata) : list byte :=
  let encoded := if decide (mode = encodeFull) then appendBytes encoded 1 (PM_Key user)
                 else encoded in
  let encoded := foldl (λ encoded kv, appendNested appendHeader 2 kv encoded) encoded hs in
  let encoded := foldl (λ encoded kv, appendNested appendProperty 3 kv encoded) encoded ps in
  let encoded := appendString encoded 4 (PM_ContentType user) in
  let encoded := appendString encoded 5 (PM_ContentEncoding user) in
  let encoded := appendString encoded 6 (PM_ResponseTopic user) in
  let encoded := appendBytes encoded 7 (PM_CorrelationData user) in
  let encoded := match PM_PayloadFormat user with
                 | Some v => appendVarint encoded 8 v | None => encoded end in
  let encoded := match PM_MessageExpiry user with
                 | Some v => appendVarint encoded 9 v | None => encoded end in
  appendString encoded 10 (PM_MessageID user).

Definition marshalBinary (mode : codecMode) (hs : list (string * list byte))
    (ps : list (string * string)) (e : option Envelope) (s : pools) :
    outcome EnvErr (list byte) :=
  _ ← Validate e;
  match e with
  | None => Panic
  | Some e =>
      let encoded := appendVarint [] 1 (EVersion e) in
      let encoded := appendString encoded 2 (ETopic e) in
      let encoded := if decide (mode = encodeFull) then appendBytes encoded 3 (PayloadBytes e s)
                     else encoded in
      let encoded := appendNested (appendPublisher mode hs ps) 4 (EPublisher e) encoded in
      Ret (appendNested appendBroker 5 (EBroker e) encoded)
  end.

(** ** Reading *)

Definition requireWireType (number got want : Z) : outcome EnvErr unit :=
  if negb (got =? want) then Fail (ErrWireType number got want) else Ret tt.

(** [l[n:]]: out of range is a panic. *)
Definition slice_from (n : Z) (l : list byte) : outcome EnvErr (list byte) :=
  if (0 <=? n) && (n <=? Z.of_nat (length l)) then Ret (drop (Z.to_nat n) l) else Panic.

(** One round of [walkFields]: the closure [visit] updates the state [s]. *)
Definition walkFields_step {A} (visit : Z → Z → list byte → Z → A → outcome EnvErr A)
    (encoded : list byte) (s : A) : outcome EnvErr (A * list byte) :=
  let '(number, wireType, tagLen) := ConsumeTag encoded in
  if tagLen <? 0 then Fail (ErrParse tagLen)
  else
    encoded ← slice_from tagLen encoded;
    if wireType =? VarintType then
      let '(value, valueLen) := ConsumeVarint encoded in
      if valueLen <? 0 then Fail (ErrParse valueLen)
      else
        s ← visit number wireType [] value s;
        encoded ← slice_from valueLen encoded;
        Ret (s, encoded)
    else if wireType =? BytesType then
      let '(value, valueLen) := ConsumeBytes encoded in
      if valueLen <? 0 then Fail (ErrParse valueLen)
      else
        s ← visit number wireType value 0 s;
        encoded ← slice_from valueLen encoded;
        Ret (s, encoded)
    else
      let valueLen := ConsumeFieldValue number wireType encoded in
      if valueLen <? 0 then Fail (ErrParse valueLen)
      else
        encoded ← slice_from valueLen encoded;
        Ret (s, encoded).

Fixpoint walkFields_loop {A} (visit : Z → Z → list byte → Z → A → outcome EnvErr A) (fuel : nat)
    (encoded : list byte) (s : A) : outcome EnvErr A :=
  match encoded with
  | [] => Ret s
  | _ =>
      match fuel with
      | O => Panic
      | S fuel =>
          '(s, encoded) ← walkFields_step visit encoded s;
          walkFields_loop visit fuel encoded s
      end
  end.

Definition walkFields {A} (encoded : list byte)
    (visit : Z → Z → list byte → Z → A → outcome EnvErr A) (s : A) : outcome EnvErr A :=
  walkFields_loop visit (length encoded) encoded s.

Definition decodeTime (value : Z) : gotime := Some (DecodeZigZag value).

(** [if scalar > max { return overflow }]. *)
Definition fits (max scalar : Z) : outcome EnvErr Z :=
  if max <? scalar then Fail (ErrOverflow scalar) else Ret scalar.

Definition maxUint32 : Z := 2 ^ 32 - 1.
Definition maxUint16 : Z := 2 ^ 16 - 1.

Definition Source_visit (number wireType : Z) (raw : list byte) (scalar : Z) (s : SourceMetadata) :
    outcome EnvErr SourceMetadata :=
  match number with
  | 1 => _ ← requireWireType number wireType BytesType; Ret (s <| SRC_ClientID := string_of raw |>)
  | 2 => _ ← requireWireType number wireType BytesType; Ret (s <| SRC_ExternalID := string_of raw |>)
  | 3 => _ ← requireWireType number wireType VarintType;
         protocol ← protocolFromNumber scalar; Ret (s <| SRC_Protocol := protocol |>)
  | 4 => _ ← requireWireType number wireType BytesType; Ret (s <| SRC_Topic := string_of raw |>)
  | _ => Ret s
  end.
Definition decodeSource (encoded : list byte) (s : SourceMetadata) : outcome EnvErr SourceMetadata :=
  walkFields encoded Source_visit s.

(** [decodePackedSubscriptionIDs]: the list it appends to. *)
Fixpoint decodePacked_loop (fuel : nat) (raw : list byte) (ids : list Z) : outcome EnvErr (list Z) :=
  match raw with
  | [] => Ret ids
  | _ =>
      match fuel with
      | O => Panic
      | S fuel =>
          let '(value, n) := ConsumeVarint raw in
          if n <? 0 then Fail (ErrParse n)
          else
            v ← fits maxUint32 value;
            raw ← slice_from n raw;
            decodePacked_loop fuel raw (ids ++ [v])
      end
  end.
Definition decodePackedSubscriptionIDs (raw : list byte) (d : DeliveryMetadata) :
    outcome EnvErr DeliveryMetadata :=
  ids ← decodePacked_loop (length raw) raw (DM_SubscriptionIDs d);
  Ret (d <| DM_SubscriptionIDs := ids |>).

Definition Delivery_visit (number wireType : Z) (raw : list byte) (scalar : Z)
    (d : DeliveryMetadata) : outcome EnvErr DeliveryMetadata :=
  if (number <? 1) || (9 <? number) then Ret d
  else if (number =? 3) && (wireType =? BytesType) then decodePackedSubscriptionIDs raw d
  else
    _ ← requireWireType number wireType VarintType;
    match number with
    | 1 => Ret (d <| DM_PublishedAt := decodeTime scalar |>)
    | 2 => Ret (d <| DM_ExpiresAt := decodeTime scalar |>)
    | 3 => v ← fits maxUint32 scalar;
           Ret (d <| DM_SubscriptionIDs := DM_SubscriptionIDs d ++ [v] |>)
    | 4 => v ← fits maxUint16 scalar; Ret (d <| DM_PacketID := v |>)
    | 5 => v ← fits 255 scalar; Ret (d <| DM_QoS := v |>)
    | 6 => v ← fits 255 scalar; Ret (d <| DM_InflightDirection := v |>)
    | 7 => v ← fits 255 scalar; Ret (d <| DM_InflightState := v |>)
    | 8 => Ret (d <| DM_Retain := negb (scalar =? 0) |>)
    | 9 => Ret (d <| DM_Duplicate := negb (scalar =? 0) |>)
    | _ => Ret d
    end.
Definition decodeDelivery (encoded : list byte) (d : DeliveryMetadata) :
    outcome EnvErr DeliveryMetadata := walkFields encoded Delivery_visit d.

Definition Stream_visit (number wireType : Z) (raw : list byte) (scalar : Z) (s : StreamMetadata) :
    outcome EnvErr StreamMetadata :=
  if number =? 6 then
    _ ← requireWireType number wireType BytesType; Ret (s <| SM_WorkGroup := string_of raw |>)
  else if (number <? 1) || (5 <? number) then Ret s
  else
    _ ← requireWireType number wireType VarintType;
    match number with
    | 1 => Ret (s <| SM_Offset := scalar |>)
    | 2 => Ret (s <| SM_Timestamp := DecodeZigZag scalar |>)
    | 3 => Ret (s <| SM_CommittedOffset := scalar |>)
    | 4 => Ret (s <| SM_HasCommittedOffset := negb (scalar =? 0) |>)
    | 5 => Ret (s <| SM_WorkAcknowledged := negb (scalar =? 0) |>)
    | _ => Ret s
    end.
Definition decodeStream (encoded : list byte) (s : StreamMetadata) : outcome EnvErr StreamMetadata :=
  walkFields encoded Stream_visit s.

Definition Queue_visit (number wireType : Z) (raw : list byte) (scalar : Z) (q : QueueMetadata) :
    outcome EnvErr QueueMetadata :=
  match number with
  | 2 => _ ← requireWireType number wireType BytesType; Ret (q <| QM_Name := string_of raw |>)
  | 3 => _ ← requireWireType number wireType BytesType; Ret (q <| QM_GroupID := string_of raw |>)
  | 4 => _ ← requireWireType number wireType VarintType; Ret (q <| QM_Offset := scalar |>)
  | 5 => _ ← requireWireType number wireType VarintType;
         state ← queueStateFromNumber scalar; Ret (q <| QM_State := state |>)
  | 6 => _ ← requireWireType number wireType VarintType;
         Ret (q <| QM_CreatedAt := decodeTime scalar |>)
  | 7 => _ ← requireWireType number wireType VarintType;
         Ret (q <| QM_DeliveredAt := decodeTime scalar |>)
  | 8 => _ ← requireWireType number wireType VarintType;
         Ret (q <| QM_NextRetryAt := decodeTime scalar |>)
  | 9 => _ ← requireWireType number wireType VarintType; Ret (q <| QM_RetryCount := i64 scalar |>)
  | 10 => _ ← requireWireType number wireType VarintType;
          Ret (q <| QM_ExpiresAt := decodeTime scalar |>)
  | 11 => _ ← requireWireType number wireType BytesType;
          stream ← decodeStream raw Stream_zero; Ret (q <| QM_Stream := Some stream |>)
  | _ => Ret q
  end.
Definition decodeQueue (encoded : list byte) (q : QueueMetadata) : outcome EnvErr QueueMetadata :=
  walkFields encoded Queue_visit q.

Definition Transfer_visit (number wireType : Z) (raw : list byte) (scalar : Z)
    (t : TransferMetadata) : outcome EnvErr TransferMetadata :=
  match number with
  | 1 => _ ← requireWireType number wireType BytesType; Ret (t <| TM_ID := string_of raw |>)
  | 2 => _ ← requireWireType number wireType BytesType; Ret (t <| TM_FailureReason := string_of raw |>)
  | 3 => _ ← requireWireType number wireType VarintType;
         Ret (t <| TM_FirstAttempt := decodeTime scalar |>)
  | 4 => _ ← requireWireType number wireType VarintType;
         Ret (t <| TM_LastAttempt := decodeTime scalar |>)
  | 5 => _ ← requireWireType number wireType VarintType;
         Ret (t <| TM_CompletedAt := decodeTime scalar |>)
  | 6 => _ ← requireWireType number wireType BytesType; Ret (t <| TM_SourceQueue := string_of raw |>)
  | 7 => _ ← requireWireType number wireType BytesType; Ret (t <| TM_SourceGroup := string_of raw |>)
  | 8 => _ ← requireWireType number wireType VarintType; Ret (t <| TM_SourceOffset := scalar |>)
  | 9 => _ ← requireWireType number wireType VarintType;
         Ret (t <| TM_DeliveryCount := i64 scalar |>)
  | _ => Ret t
  end.
Definition decodeTransfer (encoded : list byte) (t : TransferMetadata) :
    outcome EnvErr TransferMetadata := walkFields encoded Transfer_visit t.

Definition Trace_visit (number wireType : Z) (raw : list byte) (scalar : Z) (t : TraceMetadata) :
    outcome EnvErr TraceMetadata :=
  match number with
  | 1 => _ ← requireWireType number wireType BytesType; Ret (t <| TR_Parent := string_of raw |>)
  | 2 => _ ← requireWireType number wireType BytesType; Ret (t <| TR_State := string_of raw |>)
  | 3 => _ ← requireWireType number wireType BytesType; Ret (t <| TR_ID := string_of raw |>)
  | _ => Ret t
  end.
Definition decodeTrace (encoded : list byte) (t : TraceMetadata) : outcome EnvErr TraceMetadata :=
  walkFields encoded Trace_visit t.

Definition Broker_visit (number wireType : Z) (raw : list byte) (scalar : Z) (b : BrokerMetadata) :
    outcome EnvErr BrokerMetadata :=
  match number with
  | 1 => _ ← requireWireType number wireType BytesType;
         x ← decodeSource raw (BM_Source b); Ret (b <| BM_Source := x |>)
  | 2 => _ ← requireWireType number wireType BytesType;
         x ← decodeDelivery raw (BM_Delivery b); Ret (b <| BM_Delivery := x |>)
  | 3 => _ ← requireWireType number wireType BytesType;
         x ← decodeQueue raw (BM_Queue b); Ret (b <| BM_Queue := x |>)
  | 4 => _ ← requireWireType number wireType BytesType;
         x ← decodeTransfer raw (BM_Transfer b); Ret (b <| BM_Transfer := x |>)
  | 5 => _ ← requireWireType number wireType BytesType;
         x ← decodeTrace raw (BM_Trace b); Ret (b <| BM_Trace := x |>)
  | _ => Ret b
  end.
Definition decodeBroker (encoded : list byte) (b : BrokerMetadata) : outcome EnvErr BrokerMetadata :=
  walkFields encoded Broker_visit b.

(** [decodeBytesMapEntry] and [decodeStringMapEntry]: key and value. *)
Definition MapEntry_visit (number wireType : Z) (raw : list byte) (scalar : Z)
    (kv : string * list byte) : outcome EnvErr (string * list byte) :=
  match number with
  | 1 => _ ← requireWireType number wireType BytesType; Ret (string_of raw, kv.2)
  | 2 => _ ← requireWireType number wireType BytesType; Ret (kv.1, raw)
  | _ => Ret kv
  end.
Definition decodeBytesMapEntry (encoded : list byte) : outcome EnvErr (string * list byte) :=
  walkFields encoded MapEntry_visit (""%string, []).
Definition decodeStringMapEntry (encoded : list byte) : outcome EnvErr (string * string) :=
  kv ← walkFields encoded MapEntry_visit (""%string, []);
  Ret (kv.1, string_of kv.2).

Definition Publisher_visit (number wireType : Z) (raw : list byte) (scalar : Z)
    (u : PublisherMetadata) : outcome EnvErr PublisherMetadata :=
  match number with
  | 1 => _ ← requireWireType number wireType BytesType; Ret (u <| PM_Key := raw |>)
  | 2 => _ ← requireWireType number wireType BytesType;
         kv ← decodeBytesMapEntry raw;
         Ret (u <| PM_Headers := <[kv.1 := kv.2]> (PM_Headers u) |>)
  | 3 => _ ← requireWireType number wireType BytesType;
         kv ← decodeStringMapEntry raw;
         Ret (u <| PM_Properties := <[kv.1 := kv.2]> (PM_Properties u) |>)
  | 4 => _ ← requireWireType number wireType BytesType; Ret (u <| PM_ContentType := string_of raw |>)
  | 5 => _ ← requireWireType number wireType BytesType;
         Ret (u <| PM_ContentEncoding := string_of raw |>)
  | 6 => _ ← requireWireType number wireType BytesType; Ret (u <| PM_ResponseTopic := string_of raw |>)
  | 7 => _ ← requireWireType number wireType BytesType; Ret (u <| PM_CorrelationData := raw |>)
  | 8 => _ ← requireWireType number wireType VarintType;
         v ← fits 255 scalar; Ret (u <| PM_PayloadFormat := Some v |>)
  | 9 => _ ← requireWireType number wireType VarintType;
         v ← fits maxUint32 scalar; Ret (u <| PM_MessageExpiry := Some v |>)
  | 10 => _ ← requireWireType number wireType BytesType; Ret (u <| PM_MessageID := string_of raw |>)
  | _ => Ret u
  end.
Definition decodeUser (encoded : list byte) (u : PublisherMetadata) :
    outcome EnvErr PublisherMetadata := walkFields encoded Publisher_visit u.

Definition rejectEmbeddedKey (user : list byte) : outcome EnvErr unit :=
  walkFields user (λ number _ _ _ s, if number =? 1 then Fail ErrMetadataCarriesKey else Ret s) tt.

(** The closure of [unmarshalBinary]: the envelope and [decodedPayload]. *)
Definition Envelope_visit (mode : codecMode) (number wireType : Z) (raw : list byte) (scalar : Z)
    (st : Envelope * list byte) : outcome EnvErr (Envelope * list byte) :=
  let '(e, decoded) := st in
  match number with
  | 1 => _ ← requireWireType number wireType VarintType; Ret (e <| EVersion := u16 scalar |>, decoded)
  | 2 => _ ← requireWireType number wireType BytesType; Ret (e <| ETopic := string_of raw |>, decoded)
  | 3 => _ ← requireWireType number wireType BytesType;
         if decide (mode = encodeMetadata) then Fail ErrMetadataCarriesPayload else Ret (e, raw)
  | 4 => _ ← requireWireType number wireType BytesType;
         _ ← (if decide (mode = encodeMetadata) then rejectEmbeddedKey raw else Ret tt);
         x ← decodeUser raw (EPublisher e); Ret (e <| EPublisher := x |>, decoded)
  | 5 => _ ← requireWireType number wireType BytesType;
         x ← decodeBroker raw (EBroker e); Ret (e <| EBroker := x |>, decoded)
  | _ => Ret st
  end.

(** On an error the half-filled envelope is released; [Release] forgets what was
    filled in, so the one that was acquired stands for it. *)
Definition unmarshalBinary (pick ppick : option nat) (mode : codecMode)
    (encoded externalPayload externalKey : list byte) (s : pools) :
    outcome EnvErr Envelope * pools :=
  let '(e0, s) := Acquire pick s in
  let e := e0 <| EVersion := 0 |> in
  match ('(e, decoded) ← walkFields encoded (Envelope_visit mode) (e, []);
         _ ← requireVersion1 (EVersion e);
         Ret (e, decoded)) with
  | Fail err => (Fail err, Release (Some e0) s)
  | Panic => (Panic, s)
  | Ret (e, decoded) =>
      let '(e, decoded) :=
        if decide (mode = encodeMetadata)
        then (e <| EPublisher := EPublisher e <| PM_Key := externalKey |> |>, externalPayload)
        else (e, decoded) in
      let '(a, h) := Payload.FromBytes ppick decoded (mem s) in
      (Ret (e <| EPayload := a |>), s <| mem := h |>)
  end.

Definition MarshalBinary := marshalBinary encodeFull.
Definition MarshalMetadata := marshalBinary encodeMetadata.
Definition UnmarshalBinary (pick ppick : option nat) (encoded : list byte) (s : pools) :=
  unmarshalBinary pick ppick encodeFull encoded [] [] s.
Definition UnmarshalMetadata (pick ppick : option nat) (encoded value key : list byte) (s : pools) :=
  unmarshalBinary pick ppick encodeMetadata encoded value key s.

End codec.

(** * Properties *)

(** ** Varints *)

Lemma PutUvarint_loop_nonempty f x : PutUvarint_loop (S f) x ≠ [].
Proof. cbn [PutUvarint_loop]. by destruct (x <? 128). Qed.
Lemma PutUvarint_nonempty x : PutUvarint x ≠ [].
Proof. apply PutUvarint_loop_nonempty. Qed.

Section laws.
Context {PW : Protowire} `{!ProtowireLaws PW}.

Definition number_ok (n : Z) : Prop := 1 <= n <= MaxValidNumber.
Lemma number_small n : 1 <= n <= 15 → number_ok n.
Proof. unfold number_ok, MaxValidNumber. lia. Qed.

Lemma AppendTag_app b n t : number_ok n → 0 <= t <= 5 → AppendTag b n t = b ++ AppendTag [] n t.
Proof. intros Hn Ht. by rewrite !AppendTag_law, !AppendVarint_law by done. Qed.
Lemma AppendTag_nonempty n t : number_ok n → 0 <= t <= 5 → AppendTag [] n t ≠ [].
Proof.
  intros Hn Ht. rewrite AppendTag_law, AppendVarint_law by done. apply PutUvarint_nonempty.
Qed.
Lemma AppendBytes_app b v : AppendBytes b v = b ++ AppendBytes [] v.
Proof. by rewrite !AppendBytes_law, !AppendVarint_law, app_assoc. Qed.

(** ** Walking the fields *)

Lemma slice_from_ok n l : 0 <= n <= Z.of_nat (length l) → slice_from n l = Ret (drop (Z.to_nat n) l).
Proof. intros H. unfold slice_from. by rewrite !(proj2 (Z.leb_le _ _)) by lia. Qed.

(** The value consumers leave less than they got. *)
Lemma slice_from_lt n l : 0 < n <= Z.of_nat (length l) →
  ∃ l', slice_from n l = Ret l' ∧ (length l' < length l)%nat.
Proof.
  intros H. rewrite slice_from_ok by lia. eexists. split; [done|]. rewrite length_drop. lia.
Qed.

Section walk.
Context {A : Type} (visit : Z → Z → list byte → Z → A → outcome EnvErr A).

(** A round consumes at least one byte, and panics only where the visitor does. *)
Lemma walk_step_ok encoded s :
  match walkFields_step visit encoded s with
  | Ret (_, rest) => (length rest < length encoded)%nat
  | Fail _ => True
  | Panic => ∃ n t raw v, visit n t raw v s = Panic
  end.
Proof.
  unfold walkFields_step. pose proof (ConsumeTag_bounds encoded) as Ht.
  destruct (ConsumeTag encoded) as [[number wt] tagLen]. cbn [snd] in Ht. cbv zeta in Ht.
  destruct (tagLen <? 0) eqn:E; [done|]. apply Z.ltb_ge in E.
  destruct (slice_from_lt tagLen encoded) as (enc & -> & Hl); [lia|]. unfold mbind, outcome_bind.
  destruct (wt =? VarintType); [|destruct (wt =? BytesType)].
  - pose proof (ConsumeVarint_bounds enc) as Hv. destruct (ConsumeVarint enc) as [v n].
    destruct (n <? 0) eqn:E2; [done|]. apply Z.ltb_ge in E2.
    destruct (visit number wt [] v s) eqn:Ev; [|done|eauto].
    destruct (slice_from_lt n enc) as (enc' & -> & Hl'); lia.
  - pose proof (ConsumeBytes_bounds enc) as Hv. destruct (ConsumeBytes enc) as [v n].
    cbn [snd] in Hv. cbv zeta in Hv. destruct (n <? 0) eqn:E2; [done|]. apply Z.ltb_ge in E2.
    destruct (visit number wt v 0 s) eqn:Ev; [|done|eauto].
    destruct (slice_from_lt n enc) as (enc' & -> & Hl'); lia.
  - pose proof (ConsumeFieldValue_bounds number wt enc) as Hv. cbv zeta in *.
    destruct (_ <? 0) eqn:E2; [done|]. apply Z.ltb_ge in E2.
    destruct (slice_from_lt (ConsumeFieldValue number wt enc) enc) as (enc' & -> & Hl'); lia.
Qed.

Lemma walk_fuel f1 : ∀ f2 encoded s, (length encoded ≤ f1)%nat → (length encoded ≤ f2)%nat →
  walkFields_loop visit f1 encoded s = walkFields_loop visit f2 encoded s.
Proof.
  induction f1 as [|f1 IH]; intros [|f2] [|b l] s H1 H2; try done; simpl in H1, H2; try lia.
  cbn [walkFields_loop]. pose proof (walk_step_ok (b :: l) s) as Hs.
  destruct (walkFields_step visit (b :: l) s) as [[s' rest]| |]; [|done..].
  unfold mbind, outcome_bind. simpl in Hs. apply IH; lia.
Qed.

Lemma walk_cons encoded s : encoded ≠ [] →
  walkFields encoded visit s =
  ('(s', rest) ← walkFields_step visit encoded s; walkFields rest visit s').
Proof.
  intros Hne. unfold walkFields. destruct encoded as [|b l]; [done|]. cbn [length walkFields_loop].
  pose proof (walk_step_ok (b :: l) s) as Hs.
  destruct (walkFields_step visit (b :: l) s) as [[s' rest]| |]; [|done..].
  unfold mbind, outcome_bind. apply walk_fuel; [simpl in Hs; lia|done].
Qed.

Lemma walk_nopanic encoded s : (∀ n t raw v s, visit n t raw v s ≠ Panic) →
  walkFields encoded visit s ≠ Panic.
Proof.
  intros Hv. unfold walkFields. remember (length encoded) as f eqn:Hf.
  assert (Hle : (length encoded ≤ f)%nat) by lia. clear Hf. revert encoded s Hle.
  induction f as [|f IH]; intros [|b l] s Hle; try done; simpl in Hle; [lia|].
  cbn [walkFields_loop]. pose proof (walk_step_ok (b :: l) s) as Hs.
  destruct (walkFields_step visit (b :: l) s) as [[s' rest]| |]; [|done|].
  - unfold mbind, outcome_bind. apply IH. simpl in Hs. lia.
  - destruct Hs as (n & t & raw & v & Hs). by destruct (Hv n t raw v s).
Qed.
(** [bs] takes the visitor's state from [s] to [s'], whatever follows. *)
Definition walks (s : A) (bs : list byte) (s' : A) : Prop :=
  Z.of_nat (length bs) < 2 ^ 63 →
  ∀ rest, walkFields (bs ++ rest) visit s = walkFields rest visit s'.

Lemma walks_nil s : walks s [] s.
Proof. done. Qed.
Lemma walks_app s bs1 s1 bs2 s2 : walks s bs1 s1 → walks s1 bs2 s2 → walks s (bs1 ++ bs2) s2.
Proof.
  intros H1 H2 Hl rest. rewrite length_app in Hl. rewrite <-app_assoc, H1, H2 by lia. done.
Qed.
Lemma walks_run s bs s' : walks s bs s' → Z.of_nat (length bs) < 2 ^ 63 →
  walkFields bs visit s = Ret s'.
Proof. intros H Hl. specialize (H Hl []). by rewrite app_nil_r in H. Qed.

Lemma walks_varint n v s s' : number_ok n → 0 <= v < 2 ^ 64 →
  visit n VarintType [] v s = Ret s' → walks s (appendVarint [] n v) s'.
Proof.
  intros Hn Hv Hs _ rest. unfold appendVarint.
  rewrite AppendVarint_law. rewrite <-(app_nil_l (PutUvarint _)), <-AppendVarint_law.
  set (tag := AppendTag [] n VarintType). rewrite <-app_assoc.
  rewrite walk_cons by (unfold tag; intros [? _]%app_nil; by apply (AppendTag_nonempty n VarintType)).
  unfold walkFields_step, tag. rewrite ConsumeTag_law by done.
  rewrite (proj2 (Z.ltb_ge _ 0)), slice_from_ok by (rewrite ?length_app; lia).
  unfold mbind, outcome_bind. cbn [Z.eqb VarintType]. rewrite Nat2Z.id, drop_app_length.
  rewrite ConsumeVarint_law by done.
  rewrite (proj2 (Z.ltb_ge _ 0)) by lia. change 0 with VarintType. rewrite Hs.
  rewrite slice_from_ok by (rewrite length_app; lia). by rewrite Nat2Z.id, drop_app_length.
Qed.

Lemma walks_bytes n b s s' : number_ok n →
  (Z.of_nat (length b) < 2 ^ 63 → visit n BytesType b 0 s = Ret s') →
  walks s (AppendBytes (AppendTag [] n BytesType) b) s'.
Proof.
  intros Hn Hs Hl rest. rewrite AppendBytes_app in *. rewrite length_app, AppendBytes_law, length_app in Hl.
  set (tag := AppendTag [] n BytesType) in *. rewrite <-app_assoc.
  rewrite walk_cons by (unfold tag; intros [? _]%app_nil; by apply (AppendTag_nonempty n BytesType)).
  unfold walkFields_step, tag. rewrite ConsumeTag_law by done.
  rewrite (proj2 (Z.ltb_ge _ 0)), slice_from_ok by (rewrite ?length_app; lia).
  unfold mbind, outcome_bind. cbn [Z.eqb VarintType BytesType]. rewrite Nat2Z.id, drop_app_length.
  rewrite ConsumeBytes_law by lia.
  rewrite (proj2 (Z.ltb_ge _ 0)) by lia. change 2 with BytesType. rewrite Hs by lia.
  rewrite slice_from_ok by (rewrite length_app; lia). by rewrite Nat2Z.id, drop_app_length.
Qed.

(** Optional fields: [g] sets the field, [g] of the zero value changes nothing. *)
Lemma walks_nonzero n v s (g : Z → A) : number_ok n → 0 <= v < 2 ^ 64 →
  visit n VarintType [] v s = Ret (g v) → g 0 = s → walks s (appendNonZeroVarint [] n v) (g v).
Proof.
  intros Hn Hv Hs H0. unfold appendNonZeroVarint. destruct (v =? 0) eqn:E; bool_prop.
  - subst v. rewrite H0. apply walks_nil.
  - by apply walks_varint.
Qed.
Lemma walks_bool n b s (g : bool → A) : number_ok n →
  visit n VarintType [] 1 s = Ret (g true) → g false = s → walks s (appendBool [] n b) (g b).
Proof.
  intros Hn Hs H0. unfold appendBool. destruct b; simpl; [|rewrite H0; apply walks_nil].
  by apply walks_varint.
Qed.

Definition time_ok (t : gotime) : Prop := ∀ ns, t = Some ns → - 2 ^ 63 <= ns < 2 ^ 63.

Lemma walks_time n t s (g : gotime → A) : number_ok n → time_ok t →
  (∀ v, visit n VarintType [] v s = Ret (g (decodeTime v))) → g None = s →
  walks s (appendTime [] n t) (g t).
Proof.
  intros Hn Ht Hs H0. unfold appendTime. destruct t as [ns|]; [|rewrite H0; apply walks_nil].
  specialize (Ht ns eq_refl). apply walks_varint; [done|by apply EncodeZigZag_range|].
  rewrite Hs. unfold decodeTime. by rewrite DecodeZigZag_law.
Qed.
Lemma walks_str n v s (g : string → A) : number_ok n →
  (∀ raw, visit n BytesType raw 0 s = Ret (g (string_of raw))) → g ""%string = s →
  walks s (appendString [] n v) (g v).
Proof.
  intros Hn Hs H0. unfold appendString. destruct (str_eqb v "") eqn:E.
  - apply str_eqb_true in E as ->. rewrite H0. apply walks_nil.
  - rewrite AppendString_law. apply walks_bytes; [done|]. intros _. by rewrite Hs, string_of_bytes_of.
Qed.
Lemma walks_bin n b s (g : list byte → A) : number_ok n →
  (∀ raw, visit n BytesType raw 0 s = Ret (g raw)) → g [] = s →
  walks s (appendBytes [] n b) (g b).
Proof.
  intros Hn Hs H0. unfold appendBytes. destruct b; [rewrite H0; apply walks_nil|].
  by apply walks_bytes.
Qed.
End walk.

(** ** Appending *)

Definition appends (f : list byte → list byte) : Prop := ∀ enc, f enc = enc ++ f [].

Lemma appends_compose f g : appends f → appends g → appends (λ enc, g (f enc)).
Proof. intros Hf Hg enc. by rewrite Hg, (Hg (f [])), Hf, app_assoc. Qed.
Lemma appends_id : appends (λ enc, enc).
Proof. intros enc. by rewrite app_nil_r. Qed.

Lemma appends_varint n v : number_ok n → appends (λ enc, appendVarint enc n v).
Proof.
  intros Hn enc. unfold appendVarint. rewrite !AppendVarint_law, (AppendTag_app enc) by done.
  by rewrite app_assoc.
Qed.
Lemma appends_nonzero n v : number_ok n → appends (λ enc, appendNonZeroVarint enc n v).
Proof.
  intros Hn. unfold appendNonZeroVarint. destruct (v =? 0); [apply appends_id|by apply appends_varint].
Qed.
Lemma appends_bool n b : number_ok n → appends (λ enc, appendBool enc n b).
Proof. intros Hn. destruct b; [by apply appends_varint|apply appends_id]. Qed.
Lemma appends_time n t : number_ok n → appends (λ enc, appendTime enc n t).
Proof. intros Hn. destruct t; [by apply appends_varint|apply appends_id]. Qed.
Lemma appends_bytes n b : number_ok n → appends (λ enc, appendBytes enc n b).
Proof.
  intros Hn. destruct b as [|x b]; [apply appends_id|]. intros enc. unfold appendBytes.
  rewrite (AppendBytes_app (AppendTag enc _ _)), (AppendTag_app enc) by done.
  by rewrite (AppendBytes_app (AppendTag [] _ _)), app_assoc.
Qed.
Lemma appends_str n v : number_ok n → appends (λ enc, appendString enc n v).
Proof.
  intros Hn. unfold appendString. destruct (str_eqb v ""); [apply appends_id|]. intros enc.
  rewrite !AppendString_law, (AppendBytes_app (AppendTag enc _ _)), (AppendTag_app enc) by done.
  by rewrite (AppendBytes_app (AppendTag [] _ _)), app_assoc.
Qed.

(** ** Nesting in place *)

Lemma copy_at_mid a src b c : length src = length b → copy_at (length a) src (a ++ b ++ c) = a ++ src ++ c.
Proof.
  intros Hl. unfold copy_at. rewrite take_app_length, !length_app.
  rewrite take_ge by lia. do 2 f_equal.
  rewrite app_assoc, drop_app_length' by (rewrite length_app; lia). done.
Qed.

(** A nested field written from a buffer of its own; nothing if it is empty. *)
Definition nested_field (n : Z) (body : list byte) : list byte :=
  match body with
  | [] => []
  | _ => AppendTag [] n BytesType ++ PutUvarint (Z.of_nat (length body)) ++ body
  end.

Lemma endNested_spec enc n body : number_ok n →
  let '(enc', at_) := beginNested enc n in
  endNested (enc' ++ body) at_ = enc ++ nested_field n body.
Proof.
  intros Hn. unfold beginNested. rewrite AppendTag_app by done.
  set (tag := AppendTag [] n BytesType). set (pre := enc ++ tag).
  unfold endNested. cbn [bodyAt tagAt]. rewrite !length_app. cbn [length].
  replace (length pre + 1 + length body - (length pre + 1))%nat with (length body) by lia.
  destruct body as [|x b]; [|set (body := x :: b) in *].
  { simpl. unfold pre. by rewrite <-!app_assoc, take_app_length, app_nil_r. }
  destruct (length body =? 0)%nat eqn:E; [apply Nat.eqb_eq in E; done|].
  change (nested_field n body) with (tag ++ PutUvarint (Z.of_nat (length body)) ++ body).
  set (prefix := PutUvarint (Z.of_nat (length body))).
  replace (length pre + 1 - 1)%nat with (length pre) by lia.
  assert (Hw : (1 ≤ length prefix)%nat).
  { pose proof (PutUvarint_nonempty (Z.of_nat (length body))) as H. fold prefix in H.
    destruct prefix; [done|simpl; lia]. }
  rewrite (app_assoc enc tag). fold pre. destruct (1 <? length prefix)%nat eqn:Ew.
  - apply Nat.ltb_lt in Ew. set (mid := take (length prefix - 1) prefix).
    assert (Hm : length mid = (length prefix - 1)%nat) by (unfold mid; rewrite length_take; lia).
    replace (take (length body) (drop (length pre + 1) (((pre ++ [x00]) ++ body) ++ mid))) with body.
    2: { rewrite <-app_assoc, drop_app_length' by (rewrite length_app; simpl; lia).
         by rewrite take_app_length. }
    set (all := ((pre ++ [x00]) ++ body) ++ mid).
    assert (Hall : all = (take (length pre + length prefix) all) ++ drop (length pre + length prefix) all ++ [])
      by (by rewrite app_nil_r, take_drop).
    assert (Hlen : length all = (length pre + length prefix + length body)%nat).
    { unfold all. rewrite !length_app. simpl. lia. }
    rewrite Hall at 1. set (a := take (length pre + length prefix) all).
    assert (Ha : length a = (length pre + length prefix)%nat) by (unfold a; rewrite length_take; lia).
    replace (length pre + 1 + length prefix - 1)%nat with (length a) by lia.
    rewrite copy_at_mid by (rewrite length_drop; lia). rewrite app_nil_r.
    assert (Hsplit : a = pre ++ drop (length pre) a).
    { unfold a, all. rewrite <-!app_assoc, take_app_ge by lia. by rewrite drop_app_length. }
    rewrite Hsplit, <-app_assoc. apply copy_at_mid. rewrite length_drop. lia.
  - apply Nat.ltb_ge in Ew. rewrite <-app_assoc. apply copy_at_mid. simpl. lia.
Qed.

Lemma appendNested_spec {B} (append : list byte → B → list byte) n b enc :
  number_ok n → appends (λ enc, append enc b) →
  appendNested append n b enc = enc ++ nested_field n (append [] b).
Proof.
  intros Hn Ha. unfold appendNested. pose proof (endNested_spec enc n (append [] b) Hn) as H.
  destruct (beginNested enc n) as [enc' at_]. rewrite Ha. exact H.
Qed.
Lemma appends_nested {B} (append : list byte → B → list byte) n b :
  number_ok n → appends (λ enc, append enc b) → appends (appendNested append n b).
Proof. intros Hn Ha enc. by rewrite !appendNested_spec by done. Qed.

Lemma nested_field_bytes n body : body ≠ [] → Z.of_nat (length body) < 2 ^ 63 →
  nested_field n body = AppendBytes (AppendTag [] n BytesType) body.
Proof.
  intros Hne Hl. rewrite AppendBytes_app, AppendBytes_law, AppendVarint_law. unfold nested_field.
  destruct body; [done|]. by rewrite u64_small by lia.
Qed.

Lemma walks_nested {A} (visit : Z → Z → list byte → Z → A → outcome EnvErr A) n body s s' :
  number_ok n → (body = [] → s' = s) →
  (body ≠ [] → Z.of_nat (length body) < 2 ^ 63 → visit n BytesType body 0 s = Ret s') →
  walks visit s (nested_field n body) s'.
Proof.
  intros Hn H0 Hs. destruct (decide (body = [])) as [->|Hne]; [rewrite H0 by done; apply walks_nil|].
  intros Hl. assert (Hb : Z.of_nat (length body) < 2 ^ 63).
  { destruct body; [done|]. cbn [nested_field] in Hl. rewrite !length_app in Hl. lia. }
  revert Hl. rewrite nested_field_bytes by done. apply walks_bytes; auto.
Qed.

(** ** One more field

    [bs] leads to [g] of the zero value; the next field sets the value. *)
Section then_.
Context {A : Type} (visit : Z → Z → list byte → Z → A → outcome EnvErr A).
  Implicit Types (s : A) (bs : list byte).

Lemma walks_appends s bs s1 (f : list byte → list byte) s2 :
    appends f → walks visit s bs s1 → walks visit s1 (f []) s2 → walks visit s (f bs) s2.
  Proof. intros Hf H1 H2. rewrite Hf. by eapply walks_app. Qed.

Lemma then_nonzero n v (g : Z → A) s bs : 1 <= n <= 15 → 0 <= v < 2 ^ 64 →
    visit n VarintType [] v (g 0) = Ret (g v) →
    walks visit s bs (g 0) → walks visit s (appendNonZeroVarint bs n v) (g v).
  Proof.
    intros Hn%number_small Hv Hs Hb. apply (walks_appends s bs (g 0) (λ enc, appendNonZeroVarint enc n v));
      [by apply appends_nonzero|done|by apply walks_nonzero].
  Qed.
Lemma then_bool n b (g : bool → A) s bs : 1 <= n <= 15 →
    visit n VarintType [] 1 (g false) = Ret (g true) →
    walks visit s bs (g false) → walks visit s (appendBool bs n b) (g b).
  Proof.
    intros Hn%number_small Hs Hb. apply (walks_appends s bs (g false) (λ enc, appendBool enc n b));
      [by apply appends_bool|done|by apply walks_bool].
  Qed.
Lemma then_time n t (g : gotime → A) s bs : 1 <= n <= 15 → time_ok t →
    (∀ v, visit n VarintType [] v (g None) = Ret (g (decodeTime v))) →
    walks visit s bs (g None) → walks visit s (appendTime bs n t) (g t).
  Proof.
    intros Hn%number_small Ht Hs Hb. apply (walks_appends s bs (g None) (λ enc, appendTime enc n t));
      [by apply appends_time|done|by apply walks_time].
  Qed.
Lemma then_str n v (g : string → A) s bs : 1 <= n <= 15 →
    (∀ raw, visit n BytesType raw 0 (g ""%string) = Ret (g (string_of raw))) →
    walks visit s bs (g ""%string) → walks visit s (appendString bs n v) (g v).
  Proof.
    intros Hn%number_small Hs Hb. apply (walks_appends s bs (g ""%string) (λ enc, appendString enc n v));
      [by apply appends_str|done|by apply walks_str].
  Qed.
Lemma then_bin n b (g : list byte → A) s bs : 1 <= n <= 15 →
    (∀ raw, visit n BytesType raw 0 (g []) = Ret (g raw)) →
    walks visit s bs (g []) → walks visit s (appendBytes bs n b) (g b).
  Proof.
    intros Hn%number_small Hs Hb. apply (walks_appends s bs (g []) (λ enc, appendBytes enc n b));
      [by apply appends_bytes|done|by apply walks_bin].
  Qed.
  (** An optional varint. *)
Lemma then_opt n (o : option Z) (g : option Z → A) s bs : 1 <= n <= 15 →
    (∀ v, o = Some v → 0 <= v < 2 ^ 64 ∧ visit n VarintType [] v (g None) = Ret (g (Some v))) →
    walks visit s bs (g None) →
    walks visit s (match o with Some v => appendVarint bs n v | None => bs end) (g o).
  Proof.
    intros Hn%number_small Ho Hb. destruct o as [v|]; [|done]. destruct (Ho v eq_refl) as [Hv Hs].
    apply (walks_appends s bs (g None) (λ enc, appendVarint enc n v));
      [by apply appends_varint|done|by apply walks_varint].
  Qed.
  (** A namespace with a visitor of its own. *)
Lemma then_sub {B} (append : list byte → B → list byte) vsub zero x x' n (g : B → A) s bs :
    1 <= n <= 15 → appends (λ enc, append enc x) → walks vsub zero (append [] x) x' →
    (Z.of_nat (length (append [] x)) < 2 ^ 63 → visit n BytesType (append [] x) 0 (g zero) =
     (y ← walkFields (append [] x) vsub zero; Ret (g y))) →
    walks visit s bs (g zero) → walks visit s (appendNested append n x bs) (g x').
  Proof.
    intros Hn%number_small Ha Hw Hs Hb. rewrite appendNested_spec by done.
    eapply walks_app; [done|]. apply walks_nested; [done| |].
    - intros E. rewrite E in Hw. specialize (Hw ltac:(simpl; lia) []). by injection Hw as ->.
    - intros _ Hl. rewrite Hs by done. by rewrite (walks_run vsub zero _ x').
  Qed.
End then_.

(** ** The namespaces *)

Ltac appends_tac :=
  cbv zeta;
  lazymatch goal with
  | |- appends (λ enc, enc) => apply appends_id
  | |- appends (λ enc, appendString (@?f enc) ?n ?v) =>
      apply (appends_compose f (λ enc, appendString enc n v));
      [appends_tac|apply appends_str, number_small; lia]
  | |- appends (λ enc, appendBytes (@?f enc) ?n ?v) =>
      apply (appends_compose f (λ enc, appendBytes enc n v));
      [appends_tac|apply appends_bytes, number_small; lia]
  | |- appends (λ enc, appendNonZeroVarint (@?f enc) ?n ?v) =>
      apply (appends_compose f (λ enc, appendNonZeroVarint enc n v));
      [appends_tac|apply appends_nonzero, number_small; lia]
  | |- appends (λ enc, appendBool (@?f enc) ?n ?v) =>
      apply (appends_compose f (λ enc, appendBool enc n v));
      [appends_tac|apply appends_bool, number_small; lia]
  | |- appends (λ enc, appendTime (@?f enc) ?n ?v) =>
      apply (appends_compose f (λ enc, appendTime enc n v));
      [appends_tac|apply appends_time, number_small; lia]
  | |- appends (λ enc, appendVarint (@?f enc) ?n ?v) =>
      apply (appends_compose f (λ enc, appendVarint enc n v));
      [appends_tac|apply appends_varint, number_small; lia]
  end.

Lemma appends_trace t : appends (λ enc, appendTrace enc t).
Proof. unfold appendTrace. appends_tac. Qed.
Lemma trace_walks t : walks Trace_visit Trace_zero (appendTrace [] t) t.
Proof.
  destruct t as [p st i]. unfold appendTrace. cbn [TR_Parent TR_State TR_ID].
  apply (then_str _ 3 i (λ v, mkTrace p st v)); [lia|done|].
  apply (then_str _ 2 st (λ v, mkTrace p v "")); [lia|done|].
  apply (then_str _ 1 p (λ v, mkTrace v "" "")); [lia|done|apply walks_nil].
Qed.

Definition protocol_name (n : Z) : string :=
  match protocolFromNumber n with Ret p => p | _ => "" end.
Definition state_name (n : Z) : string :=
  match queueStateFromNumber n with Ret p => p | _ => "" end.

Lemma protocolNumber_inv p n : protocolNumber p = Ret n →
  0 <= n <= 5 ∧ protocolFromNumber n = Ret p ∧ protocol_name n = p.
Proof.
  unfold protocolNumber, protocol_name.
  repeat (destruct (str_eqb p _) eqn:E; [apply str_eqb_true in E as ->; intros [= <-]; done|clear E]).
  done.
Qed.
Lemma queueStateNumber_inv p n : queueStateNumber p = Ret n →
  0 <= n <= 5 ∧ queueStateFromNumber n = Ret p ∧ state_name n = p.
Proof.
  unfold queueStateNumber, state_name.
  repeat (destruct (str_eqb p _) eqn:E; [apply str_eqb_true in E as ->; intros [= <-]; done|clear E]).
  done.
Qed.

Lemma appends_source s : appends (λ enc, appendSource enc s).
Proof. unfold appendSource. appends_tac. Qed.
Lemma source_walks s n : protocolNumber (SRC_Protocol s) = Ret n →
  walks Source_visit Source_zero (appendSource [] s) s.
Proof.
  destruct s as [c x p t]. unfold appendSource. cbn [SRC_ClientID SRC_ExternalID SRC_Protocol SRC_Topic].
  intros Hn. rewrite Hn. apply protocolNumber_inv in Hn as (Hr & Hf & Hp).
  apply (then_str _ 4 t (λ v, mkSource c x p v)); [lia|done|]. rewrite <-Hp.
  apply (then_nonzero _ 3 n (λ v, mkSource c x (protocol_name v) "")); [lia|lia| |].
  { unfold Source_visit, mbind, outcome_bind. cbn [requireWireType]. rewrite Hf. by rewrite Hp. }
  apply (then_str _ 2 x (λ v, mkSource c v "" "")); [lia|done|].
  apply (then_str _ 1 c (λ v, mkSource v "" "" "")); [lia|done|apply walks_nil].
Qed.

Definition u64_ok (v : Z) : Prop := 0 <= v < 2 ^ 64.
Definition int_ok (v : Z) : Prop := - 2 ^ 63 <= v < 2 ^ 63.

Lemma i64_u64 v : int_ok v → i64 (u64 v) = v.
Proof.
  unfold int_ok, i64, u64. intros Hv. destruct (decide (0 <= v)).
  - rewrite (Z.mod_small v) by lia. rewrite Z.mod_small; lia.
  - replace (v mod 2 ^ 64) with (v + 2 ^ 64)
      by (rewrite <-(Z.mod_add v 1), Z.mod_small by lia; lia).
    replace (v + 2 ^ 64 + 2 ^ 63) with (v + 2 ^ 63 + 1 * 2 ^ 64) by lia.
    rewrite Z.mod_add, Z.mod_small; lia.
Qed.

(** A signed counter stored as 64 bits. *)
Lemma then_int {A} (visit : Z → Z → list byte → Z → A → outcome EnvErr A) n v (g : Z → A) s bs :
  1 <= n <= 15 → int_ok v → (∀ x, visit n VarintType [] x (g 0) = Ret (g (i64 x))) →
  walks visit s bs (g 0) → walks visit s (appendNonZeroVarint bs n (u64 v)) (g v).
Proof.
  intros Hn Hv Hs Hb. rewrite <-(i64_u64 v) at 2 by done.
  apply (then_nonzero visit n (u64 v) (λ x, g (i64 x))); [done|apply u64_range|by rewrite Hs|done].
Qed.

Definition transfer_ok (t : TransferMetadata) : Prop :=
  time_ok (TM_FirstAttempt t) ∧ time_ok (TM_LastAttempt t) ∧ time_ok (TM_CompletedAt t) ∧
  u64_ok (TM_SourceOffset t) ∧ int_ok (TM_DeliveryCount t).

Lemma appends_transfer t : appends (λ enc, appendTransfer enc t).
Proof. unfold appendTransfer. appends_tac. Qed.
Lemma transfer_walks t : transfer_ok t → walks Transfer_visit Transfer_zero (appendTransfer [] t) t.
Proof.
  destruct t as [i r f l c q gr o n]. intros (H1 & H2 & H3 & H4 & H5). unfold appendTransfer.
  cbn [TM_ID TM_FailureReason TM_FirstAttempt TM_LastAttempt TM_CompletedAt TM_SourceQueue
       TM_SourceGroup TM_SourceOffset TM_DeliveryCount] in *.
  apply (then_int _ 9 n (λ v, mkTransfer i r f l c q gr o v)); [lia|done|done|].
  apply (then_nonzero _ 8 o (λ v, mkTransfer i r f l c q gr v 0)); [lia|done|done|].
  apply (then_str _ 7 gr (λ v, mkTransfer i r f l c q v 0 0)); [lia|done|].
  apply (then_str _ 6 q (λ v, mkTransfer i r f l c v "" 0 0)); [lia|done|].
  apply (then_time _ 5 c (λ v, mkTransfer i r f l v "" "" 0 0)); [lia|done|done|].
  apply (then_time _ 4 l (λ v, mkTransfer i r f v None "" "" 0 0)); [lia|done|done|].
  apply (then_time _ 3 f (λ v, mkTransfer i r v None None "" "" 0 0)); [lia|done|done|].
  apply (then_str _ 2 r (λ v, mkTransfer i v None None None "" "" 0 0)); [lia|done|].
  apply (then_str _ 1 i (λ v, mkTransfer v "" None None None "" "" 0 0)); [lia|done|apply walks_nil].
Qed.

Definition stream_fields_ok (s : StreamMetadata) : Prop :=
  u64_ok (SM_Offset s) ∧ int_ok (SM_Timestamp s) ∧ u64_ok (SM_CommittedOffset s).

Lemma appends_stream s : appends (λ enc, appendStream enc s).
Proof. unfold appendStream. destruct (SM_Timestamp s =? 0); appends_tac. Qed.
Lemma stream_walks s : stream_fields_ok s → walks Stream_visit Stream_zero (appendStream [] s) s.
Proof.
  destruct s as [o t c h a g]. intros (H1 & H2 & H3). unfold appendStream.
  cbn [SM_Offset SM_Timestamp SM_CommittedOffset SM_HasCommittedOffset SM_WorkAcknowledged
       SM_WorkGroup] in *.
  apply (then_str _ 6 g (λ v, mkStream o t c h a v)); [lia|done|].
  apply (then_bool _ 5 a (λ v, mkStream o t c h v "")); [lia|done|].
  apply (then_bool _ 4 h (λ v, mkStream o t c v false "")); [lia|done|].
  apply (then_nonzero _ 3 c (λ v, mkStream o t v false false "")); [lia|done|done|].
  assert (H0 : walks Stream_visit Stream_zero (appendNonZeroVarint [] 1 o)
    (mkStream o 0 0 false false "")).
  { apply (then_nonzero _ 1 o (λ v, mkStream v 0 0 false false "")); [lia|done|done|apply walks_nil]. }
  destruct (t =? 0) eqn:E; bool_prop; [by subst t|].
  apply (walks_appends _ _ _ _ (λ enc, appendVarint enc 2 (EncodeZigZag t)) _
    (appends_varint _ _ (number_small 2 ltac:(lia))) H0).
  apply walks_varint; [by apply number_small|by apply EncodeZigZag_range|].
  unfold Stream_visit. simpl. by rewrite DecodeZigZag_law.
Qed.

(** A stream record with nothing in it is written as no record. *)
Definition norm_stream (o : option StreamMetadata) : option StreamMetadata :=
  if decide (o = Some Stream_zero) then None else o.

Definition queue_ok (q : QueueMetadata) : Prop :=
  u64_ok (QM_Offset q) ∧ (∃ n, queueStateNumber (QM_State q) = Ret n) ∧
  time_ok (QM_CreatedAt q) ∧ time_ok (QM_DeliveredAt q) ∧ time_ok (QM_NextRetryAt q) ∧
  int_ok (QM_RetryCount q) ∧ time_ok (QM_ExpiresAt q) ∧
  (∀ s, QM_Stream q = Some s → stream_fields_ok s).

Lemma appendQueue_stream enc q : appendQueue enc q =
  match QM_Stream q with
  | Some s => appendNested appendStream 11 s (appendQueue enc (q <| QM_Stream := None |>))
  | None => appendQueue enc (q <| QM_Stream := None |>)
  end.
Proof. unfold appendQueue. destruct q as [? ? ? ? ? ? ? ? ? [s|]]; done. Qed.

Lemma appends_queue q : appends (λ enc, appendQueue enc q).
Proof.
  assert (Hbase : appends (λ enc, appendQueue enc (q <| QM_Stream := None |>))).
  { unfold appendQueue. cbn. appends_tac. }
  intros enc. rewrite (appendQueue_stream enc q), (appendQueue_stream [] q). destruct (QM_Stream q) as [s|]; [|apply Hbase].
  apply (appends_compose _ (appendNested appendStream 11 s) Hbase).
  apply appends_nested; [by apply number_small|apply appends_stream].
Qed.

Lemma queue_walks q : queue_ok q →
  walks Queue_visit QueueMeta_zero (appendQueue [] q) (q <| QM_Stream := norm_stream (QM_Stream q) |>).
Proof.
  destruct q as [nm g o st c d r n x s]. intros (H1 & [m Hm] & H3 & H4 & H5 & H6 & H7 & H8).
  cbn [QM_Name QM_GroupID QM_Offset QM_State QM_CreatedAt QM_DeliveredAt QM_NextRetryAt QM_RetryCount
       QM_ExpiresAt QM_Stream] in *.
  assert (Hbase : walks Queue_visit QueueMeta_zero (appendQueue [] (mkQueueMeta nm g o st c d r n x None))
    (mkQueueMeta nm g o st c d r n x None)).
  { unfold appendQueue. cbn [QM_Name QM_GroupID QM_Offset QM_State QM_CreatedAt QM_DeliveredAt
      QM_NextRetryAt QM_RetryCount QM_ExpiresAt QM_Stream].
    rewrite Hm. apply queueStateNumber_inv in Hm as (Hr & Hf & Hp).
    apply (then_time _ 10 x (λ v, mkQueueMeta nm g o st c d r n v None)); [lia|done|done|].
    apply (then_int _ 9 n (λ v, mkQueueMeta nm g o st c d r v None None)); [lia|done|done|].
    apply (then_time _ 8 r (λ v, mkQueueMeta nm g o st c d v 0 None None)); [lia|done|done|].
    apply (then_time _ 7 d (λ v, mkQueueMeta nm g o st c v None 0 None None)); [lia|done|done|].
    apply (then_time _ 6 c (λ v, mkQueueMeta nm g o st v None None 0 None None)); [lia|done|done|].
    rewrite <-Hp.
    apply (then_nonzero _ 5 m (λ v, mkQueueMeta nm g o (state_name v) None None None 0 None None));
      [lia|lia| |].
    { unfold Queue_visit, mbind, outcome_bind. cbn [requireWireType]. rewrite Hf. by rewrite Hp. }
    apply (then_nonzero _ 4 o (λ v, mkQueueMeta nm g v "" None None None 0 None None)); [lia|done|done|].
    apply (then_str _ 3 g (λ v, mkQueueMeta nm v 0 "" None None None 0 None None)); [lia|done|].
    apply (then_str _ 2 nm (λ v, mkQueueMeta v "" 0 "" None None None 0 None None));
      [lia|done|apply walks_nil]. }
  rewrite appendQueue_stream. cbn [QM_Stream]. destruct s as [s|]; [|exact Hbase].
  rewrite appendNested_spec by (apply appends_stream || by apply number_small).
  eapply walks_app; [exact Hbase|]. pose proof (stream_walks s (H8 s eq_refl)) as Hw.
  apply walks_nested; [by apply number_small| |].
  - intros E. rewrite E in Hw. specialize (Hw ltac:(simpl; lia) []). injection Hw as <-. done.
  - intros Hne Hl. unfold norm_stream. rewrite decide_False by (by intros [= ->]).
    unfold Queue_visit, mbind, outcome_bind. cbn [requireWireType].
    change (requireWireType 11 BytesType BytesType) with (@Ret EnvErr unit tt). cbv iota beta.
    unfold decodeStream. by rewrite (walks_run _ _ _ _ Hw Hl).
Qed.

(** ** Delivery: the packed subscription identifiers *)

Definition packed (ids : list Z) : list byte := concat (AppendVarint [] <$> ids).

Lemma foldl_AppendVarint ids : ∀ enc, foldl AppendVarint enc ids = enc ++ packed ids.
Proof.
  induction ids as [|v ids IH]; intros enc; [by rewrite app_nil_r|]. cbn [foldl].
  rewrite IH. unfold packed. cbn [fmap list_fmap concat].
  by rewrite (AppendVarint_law enc), (AppendVarint_law []), app_nil_l, app_assoc.
Qed.

Lemma appendPacked_spec enc n ids : number_ok n →
  appendPackedVarints enc n ids = enc ++ nested_field n (packed ids).
Proof.
  intros Hn. destruct ids as [|v ids]; [by rewrite app_nil_r|]. unfold appendPackedVarints.
  pose proof (endNested_spec enc n (packed (v :: ids)) Hn) as H.
  destruct (beginNested enc n) as [enc' at_]. by rewrite foldl_AppendVarint.
Qed.

Lemma decodePacked_packed ids : ∀ fuel acc, Forall (λ v, 0 <= v <= maxUint32) ids →
  (length (packed ids) ≤ fuel)%nat → decodePacked_loop fuel (packed ids) acc = Ret (acc ++ ids).
Proof.
  induction ids as [|v ids IH]; intros fuel acc Hf Hl.
  { destruct fuel; simpl; by rewrite app_nil_r. }
  apply Forall_cons in Hf as [Hv Hf].
  change (packed (v :: ids)) with (AppendVarint [] v ++ packed ids) in *.
  assert (Hne : AppendVarint [] v ≠ []) by (rewrite AppendVarint_law; apply PutUvarint_nonempty).
  rewrite length_app in Hl. destruct (AppendVarint [] v) as [|b l] eqn:E; [done|].
  destruct fuel as [|fuel]; [simpl in Hl; lia|]. rewrite <-E in *.
  assert (Hun : decodePacked_loop (S fuel) (AppendVarint [] v ++ packed ids) acc =
    (let '(value, n) := ConsumeVarint (AppendVarint [] v ++ packed ids) in
     if n <? 0 then Fail (ErrParse n) else
     w ← fits maxUint32 value; raw ← slice_from n (AppendVarint [] v ++ packed ids);
     decodePacked_loop fuel raw (acc ++ [w]))) by (rewrite E; done).
  unfold maxUint32 in Hv. rewrite Hun, ConsumeVarint_law by lia.
  rewrite (proj2 (Z.ltb_ge _ 0)) by lia. unfold fits, maxUint32.
  rewrite (proj2 (Z.ltb_ge _ v)) by lia. unfold mbind, outcome_bind.
  rewrite slice_from_ok by (rewrite length_app; lia). rewrite Nat2Z.id, drop_app_length.
  rewrite IH, <-app_assoc; [done|done|]. rewrite E in Hl. simpl in Hl. lia.
Qed.

Definition delivery_ok (d : DeliveryMetadata) : Prop :=
  time_ok (DM_PublishedAt d) ∧ time_ok (DM_ExpiresAt d) ∧
  Forall (λ v, 0 <= v <= maxUint32) (DM_SubscriptionIDs d) ∧ 0 <= DM_PacketID d <= maxUint16 ∧
  0 <= DM_QoS d <= 255 ∧ 0 <= DM_InflightDirection d <= 255 ∧ 0 <= DM_InflightState d <= 255.

Lemma fits_ok max v : v <= max → fits max v = Ret v.
Proof. intros H. unfold fits. by rewrite (proj2 (Z.ltb_ge _ _)). Qed.

Lemma appends_delivery d : appends (λ enc, appendDelivery enc d).
Proof.
  unfold appendDelivery. cbv zeta.
  apply (appends_compose (λ enc, appendPackedVarints (appendTime (appendTime enc 1 (DM_PublishedAt d))
    2 (DM_ExpiresAt d)) 3 (DM_SubscriptionIDs d)) (λ enc, appendBool (appendBool (appendNonZeroVarint
    (appendNonZeroVarint (appendNonZeroVarint (appendNonZeroVarint enc 4 (DM_PacketID d))
    5 (DM_QoS d)) 6 (DM_InflightDirection d)) 7 (DM_InflightState d)) 8 (DM_Retain d)) 9
    (DM_Duplicate d))); [|appends_tac].
  apply (appends_compose (λ enc, appendTime (appendTime enc 1 (DM_PublishedAt d)) 2 (DM_ExpiresAt d))
    (λ enc, appendPackedVarints enc 3 (DM_SubscriptionIDs d))); [appends_tac|].
  intros enc. by rewrite !appendPacked_spec by by apply number_small.
Qed.

Lemma delivery_walks d : delivery_ok d → walks Delivery_visit Delivery_zero (appendDelivery [] d) d.
Proof.
  destruct d as [pa ea ids pid qos dir st rt dup]. intros (H1 & H2 & H3 & H4 & H5 & H6 & H7).
  unfold appendDelivery, maxUint16 in *.
  cbn [DM_PublishedAt DM_ExpiresAt DM_SubscriptionIDs DM_PacketID DM_QoS DM_InflightDirection
       DM_InflightState DM_Retain DM_Duplicate] in *.
  apply (then_bool _ 9 dup (λ v, mkDelivery pa ea ids pid qos dir st rt v)); [lia|done|].
  apply (then_bool _ 8 rt (λ v, mkDelivery pa ea ids pid qos dir st v false)); [lia|done|].
  apply (then_nonzero _ 7 st (λ v, mkDelivery pa ea ids pid qos dir v false false)); [lia|lia| |].
  { unfold Delivery_visit, mbind, outcome_bind. simpl. by rewrite fits_ok by lia. }
  apply (then_nonzero _ 6 dir (λ v, mkDelivery pa ea ids pid qos v 0 false false)); [lia|lia| |].
  { unfold Delivery_visit, mbind, outcome_bind. simpl. by rewrite fits_ok by lia. }
  apply (then_nonzero _ 5 qos (λ v, mkDelivery pa ea ids pid v 0 0 false false)); [lia|lia| |].
  { unfold Delivery_visit, mbind, outcome_bind. simpl. by rewrite fits_ok by lia. }
  apply (then_nonzero _ 4 pid (λ v, mkDelivery pa ea ids v 0 0 0 false false)); [lia|lia| |].
  { unfold Delivery_visit, mbind, outcome_bind. simpl. by rewrite fits_ok by (unfold maxUint16; lia). }
  rewrite appendPacked_spec by by apply number_small.
  apply (walks_app _ _ _ (mkDelivery pa ea [] 0 0 0 0 false false)).
  - apply (then_time _ 2 ea (λ v, mkDelivery pa v [] 0 0 0 0 false false)); [lia|done|done|].
    apply (then_time _ 1 pa (λ v, mkDelivery v None [] 0 0 0 0 false false));
      [lia|done|done|apply walks_nil].
  - apply walks_nested; [by apply number_small| |].
    + intros E. destruct ids as [|v ids]; [done|]. unfold packed in E. cbn [fmap list_fmap concat] in E.
      apply app_nil in E as [E _]. rewrite AppendVarint_law in E. by apply PutUvarint_nonempty in E.
    + intros _ _. unfold Delivery_visit. cbn [Z.ltb Z.compare orb andb Z.eqb BytesType].
      unfold decodePackedSubscriptionIDs, mbind, outcome_bind. cbn [DM_SubscriptionIDs].
      by rewrite decodePacked_packed.
Qed.

(** ** The broker namespace *)

Definition broker_ok (b : BrokerMetadata) : Prop :=
  (∃ n, protocolNumber (SRC_Protocol (BM_Source b)) = Ret n) ∧ delivery_ok (BM_Delivery b) ∧
  queue_ok (BM_Queue b) ∧ transfer_ok (BM_Transfer b).

Definition norm_broker (b : BrokerMetadata) : BrokerMetadata :=
  b <| BM_Queue := BM_Queue b <| QM_Stream := norm_stream (QM_Stream (BM_Queue b)) |> |>.

Lemma appends_broker b : appends (λ enc, appendBroker enc b).
Proof.
  unfold appendBroker. cbv zeta.
  apply (appends_compose _ (appendNested appendTrace 5 (BM_Trace b)));
    [|apply appends_nested; [by apply number_small|apply appends_trace]].
  apply (appends_compose _ (appendNested appendTransfer 4 (BM_Transfer b)));
    [|apply appends_nested; [by apply number_small|apply appends_transfer]].
  apply (appends_compose _ (appendNested appendQueue 3 (BM_Queue b)));
    [|apply appends_nested; [by apply number_small|apply appends_queue]].
  apply (appends_compose _ (appendNested appendDelivery 2 (BM_Delivery b)));
    [|apply appends_nested; [by apply number_small|apply appends_delivery]].
  apply appends_nested; [by apply number_small|apply appends_source].
Qed.

Lemma broker_walks b : broker_ok b → walks Broker_visit Broker_zero (appendBroker [] b) (norm_broker b).
Proof.
  destruct b as [s d q t c]. intros ([n Hn] & Hd & Hq & Ht). unfold appendBroker, norm_broker.
  cbn [BM_Source BM_Delivery BM_Queue BM_Transfer BM_Trace] in *. cbv zeta.
  set (q' := q <| QM_Stream := norm_stream (QM_Stream q) |>).
  apply (then_sub _ appendTrace Trace_visit Trace_zero c c 5 (λ v, mkBroker s d q' t v));
    [lia|apply appends_trace|apply trace_walks|done|].
  apply (then_sub _ appendTransfer Transfer_visit Transfer_zero t t 4
           (λ v, mkBroker s d q' v Trace_zero));
    [lia|apply appends_transfer|by apply transfer_walks|done|].
  apply (then_sub _ appendQueue Queue_visit QueueMeta_zero q q' 3
           (λ v, mkBroker s d v Transfer_zero Trace_zero));
    [lia|apply appends_queue|by apply queue_walks|done|].
  apply (then_sub _ appendDelivery Delivery_visit Delivery_zero d d 2
           (λ v, mkBroker s v QueueMeta_zero Transfer_zero Trace_zero));
    [lia|apply appends_delivery|by apply delivery_walks|done|].
  apply (then_sub _ appendSource Source_visit Source_zero s s 1
           (λ v, mkBroker v Delivery_zero QueueMeta_zero Transfer_zero Trace_zero));
    [lia|apply appends_source|by eapply source_walks|done|apply walks_nil].
Qed.

(** ** The publisher namespace: map entries *)

Lemma appendString_bytes enc n v : appendString enc n v = appendBytes enc n (bytes_of v).
Proof.
  unfold appendString, appendBytes. destruct v as [|c v]; [done|]. rewrite AppendString_law.
  by destruct (bytes_of (String c v)) eqn:E; [apply (f_equal length) in E; rewrite length_bytes_of in E|].
Qed.

Lemma appends_header kv : appends (λ enc, appendHeader enc kv).
Proof. unfold appendHeader. appends_tac. Qed.
Lemma appendProperty_header enc kv : appendProperty enc kv = appendHeader enc (kv.1, bytes_of kv.2).
Proof. unfold appendProperty, appendHeader. by rewrite (appendString_bytes _ 2). Qed.
Lemma appends_property kv : appends (λ enc, appendProperty enc kv).
Proof. intros enc. rewrite !appendProperty_header. apply appends_header. Qed.

Lemma entry_walks kv : walks MapEntry_visit (""%string, []) (appendHeader [] kv) kv.
Proof.
  destruct kv as [k v]. unfold appendHeader. cbn [fst snd].
  apply (then_bin _ 2 v (λ x, (k, x))); [lia|done|].
  apply (then_str _ 1 k (λ x, (x, []))); [lia|done|apply walks_nil].
Qed.
Lemma entry_empty kv : appendHeader [] kv = [] ↔ kv = (""%string, []).
Proof.
  split; [|by intros ->]. intros E. pose proof (entry_walks kv) as H. rewrite E in H.
  specialize (H ltac:(simpl; lia) []). by injection H as <-.
Qed.

(** What a list of entries leaves in a map: an entry of an empty key with an
    empty value is written as nothing. *)
Definition add_entries {V} (empty : V) `{EqDecision V} (l : list (string * V)) (m : gmap string V) :
    gmap string V :=
  foldl (λ m kv, if decide (kv = (""%string, empty)) then m else <[kv.1 := kv.2]> m) m l.

Lemma add_entries_lookup {V} (empty : V) `{EqDecision V} l : ∀ (m : gmap string V) k v,
  NoDup l.*1 → (∀ k, k ∈ l.*1 → m !! k = None) →
  add_entries empty l m !! k = Some v ↔
  m !! k = Some v ∨ (k, v) ∈ l ∧ (k, v) ≠ (""%string, empty).
Proof.
  induction l as [|[k0 v0] l IH]; intros m k v Hnd Hm.
  { simpl. rewrite elem_of_nil. tauto. }
  change (add_entries empty ((k0, v0) :: l) m) with (add_entries empty l
    (if decide ((k0, v0) = (""%string, empty)) then m else <[k0 := v0]> m)).
  rewrite fmap_cons in Hnd. apply NoDup_cons in Hnd as [Hk0 Hnd]. cbn [fst] in *.
  rewrite fmap_cons in Hm. case_decide as E.
  - rewrite IH; [|done|intros k' Hk'; apply Hm; by right]. rewrite elem_of_cons.
    injection E as -> ->. naive_solver.
  - rewrite IH; [|done|].
    + rewrite lookup_insert_Some, elem_of_cons. pose proof (Hm k0 ltac:(by left)) as Hn.
      split; [naive_solver|]. intros [H|[[H|H] Hne]]; [| |naive_solver].
      * left. right. split; [|done]. intros ->. congruence.
      * injection H as -> ->. left. by left.
    + intros k' Hk'. rewrite lookup_insert_ne by (intros ->; done). apply Hm. by right.
Qed.

Definition norm_map {V} (empty : V) `{EqDecision V} (m : gmap string V) : gmap string V :=
  filter (λ kv, kv ≠ (""%string, empty)) m.

Lemma add_entries_norm {V} (empty : V) `{EqDecision V} l (m : gmap string V) :
  l ≡ₚ map_to_list m → add_entries empty l ∅ = norm_map empty m.
Proof.
  intros Hl. assert (Hnd : NoDup l.*1) by (rewrite Hl; apply NoDup_fst_map_to_list).
  apply map_eq. intros k. apply option_eq. intros v.
  rewrite add_entries_lookup by done. unfold norm_map. rewrite map_lookup_filter_Some.
  rewrite Hl, elem_of_map_to_list, lookup_empty. naive_solver.
Qed.

Lemma foldl_nested {B} (append : list byte → B → list byte) n l : number_ok n →
  (∀ kv, appends (λ enc, append enc kv)) → ∀ enc,
  foldl (λ enc kv, appendNested append n kv enc) enc l =
  enc ++ concat ((λ kv, nested_field n (append [] kv)) <$> l).
Proof.
  intros Hn Ha. induction l as [|kv l IH]; intros enc; [by rewrite app_nil_r|]. cbn [foldl].
  rewrite IH, appendNested_spec by done. by rewrite <-app_assoc.
Qed.

(** A fold of entries walks to a fold of states. *)
Lemma entries_walk {A B} (visit : Z → Z → list byte → Z → A → outcome EnvErr A) n
    (body : B → list byte) (next : A → B → A) l : number_ok n →
  (∀ s kv, body kv = [] → next s kv = s) →
  (∀ s kv, body kv ≠ [] → Z.of_nat (length (body kv)) < 2 ^ 63 →
     visit n BytesType (body kv) 0 s = Ret (next s kv)) →
  ∀ s, walks visit s (concat ((λ kv, nested_field n (body kv)) <$> l)) (foldl next s l).
Proof.
  intros Hn H0 Hs. induction l as [|kv l IH]; intros s; [apply walks_nil|].
  change (concat ((λ kv, nested_field n (body kv)) <$> kv :: l)) with
    (nested_field n (body kv) ++ concat ((λ kv, nested_field n (body kv)) <$> l)).
  eapply walks_app; [|apply IH]. apply walks_nested; auto.
Qed.

Definition publisher_ok (u : PublisherMetadata) : Prop :=
  (∀ v, PM_PayloadFormat u = Some v → 0 <= v <= 255) ∧
  (∀ v, PM_MessageExpiry u = Some v → 0 <= v <= maxUint32).

Definition norm_publisher (u : PublisherMetadata) : PublisherMetadata :=
  u <| PM_Headers := norm_map [] (PM_Headers u) |>
    <| PM_Properties := norm_map ""%string (PM_Properties u) |>.

(** The bytes of the two maps, and the fields after them. *)
Definition publisher_entries (hs : list (string * list byte)) (ps : list (string * string))
    (enc : list byte) : list byte :=
  foldl (λ encoded kv, appendNested appendProperty 3 kv encoded)
    (foldl (λ encoded kv, appendNested appendHeader 2 kv encoded) enc hs) ps.
Definition publisher_tail (u : PublisherMetadata) (enc : list byte) : list byte :=
  let encoded := appendString enc 4 (PM_ContentType u) in
  let encoded := appendString encoded 5 (PM_ContentEncoding u) in
  let encoded := appendString encoded 6 (PM_ResponseTopic u) in
  let encoded := appendBytes encoded 7 (PM_CorrelationData u) in
  let encoded := match PM_PayloadFormat u with
                 | Some v => appendVarint encoded 8 v | None => encoded end in
  let encoded := match PM_MessageExpiry u with
                 | Some v => appendVarint encoded 9 v | None => encoded end in
  appendString encoded 10 (PM_MessageID u).

Lemma appendPublisher_split mode hs ps enc u : appendPublisher mode hs ps enc u =
  publisher_tail u (publisher_entries hs ps
    (if decide (mode = encodeFull) then appendBytes enc 1 (PM_Key u) else enc)).
Proof. done. Qed.

Lemma publisher_entries_spec hs ps enc : publisher_entries hs ps enc =
  enc ++ concat ((λ kv, nested_field 2 (appendHeader [] kv)) <$> hs) ++
         concat ((λ kv, nested_field 3 (appendProperty [] kv)) <$> ps).
Proof.
  unfold publisher_entries. rewrite !foldl_nested;
    [by rewrite <-app_assoc|by apply number_small|apply appends_header|by apply number_small
    |apply appends_property].
Qed.

Lemma appends_publisher_tail u : appends (publisher_tail u).
Proof.
  change (appends (λ enc, publisher_tail u enc)). unfold publisher_tail.
  destruct (PM_PayloadFormat u), (PM_MessageExpiry u); appends_tac.
Qed.

Lemma appends_publisher mode hs ps u : appends (λ enc, appendPublisher mode hs ps enc u).
Proof.
  apply (appends_compose (λ enc, publisher_entries hs ps
    (if decide (mode = encodeFull) then appendBytes enc 1 (PM_Key u) else enc)) (publisher_tail u));
    [|apply appends_publisher_tail].
  apply (appends_compose (λ enc, if decide (mode = encodeFull) then appendBytes enc 1 (PM_Key u) else enc)
    (publisher_entries hs ps)).
  - case_decide; [apply appends_bytes, number_small; lia|apply appends_id].
  - intros enc. by rewrite !publisher_entries_spec.
Qed.

(** The state after the entries: key, headers and properties are set. *)
Definition with_entries (key : list byte) (h : gmap string (list byte)) (p : gmap string string) :
    PublisherMetadata := mkPublisher key h p "" "" "" [] None None "".

Lemma entries_publisher key hs ps : ∀ h p, walks Publisher_visit (with_entries key h p)
  (concat ((λ kv, nested_field 2 (appendHeader [] kv)) <$> hs) ++
   concat ((λ kv, nested_field 3 (appendProperty [] kv)) <$> ps))
  (with_entries key (add_entries [] hs h) (add_entries ""%string ps p)).
Proof.
  intros h p. apply (walks_app _ _ _ (with_entries key (add_entries [] hs h) p)).
  - set (next := λ (u : PublisherMetadata) (kv : string * list byte),
      u <| PM_Headers := if decide (kv = (""%string, [])) then PM_Headers u
                         else <[kv.1 := kv.2]> (PM_Headers u) |>).
    assert (E : ∀ l m, foldl next (with_entries key m p) l = with_entries key (add_entries [] l m) p).
    { induction l as [|kv l IH]; intros m; [done|].
      exact (IH (if decide (kv = (""%string, [])) then m else <[kv.1 := kv.2]> m)). }
    rewrite <-E. apply (entries_walk _ 2 (appendHeader [])); [by apply number_small| |].
    + intros u kv ->%entry_empty. unfold next. rewrite decide_True by done. by destruct u.
    + intros u kv Hne Hl. unfold Publisher_visit, mbind, outcome_bind. cbn [requireWireType].
      change (requireWireType 2 BytesType BytesType) with (@Ret EnvErr unit tt). cbv iota beta.
      unfold decodeBytesMapEntry. rewrite (walks_run _ _ _ _ (entry_walks kv) Hl).
      unfold next. rewrite decide_False; [done|]. intros ->. by apply Hne, entry_empty.
  - set (next := λ (u : PublisherMetadata) (kv : string * string),
      u <| PM_Properties := if decide (kv = (""%string, ""%string)) then PM_Properties u
                            else <[kv.1 := kv.2]> (PM_Properties u) |>).
    set (h' := add_entries [] hs h).
    assert (E : ∀ l m, foldl next (with_entries key h' m) l = with_entries key h' (add_entries ""%string l m)).
    { induction l as [|kv l IH]; intros m; [done|].
      exact (IH (if decide (kv = (""%string, ""%string)) then m else <[kv.1 := kv.2]> m)). }
    rewrite <-E. apply (entries_walk _ 3 (appendProperty [])); [by apply number_small| |].
    + intros u [k v]. rewrite appendProperty_header. intros [= -> Hv]%entry_empty. cbn [snd] in Hv.
      apply (f_equal string_of) in Hv. rewrite string_of_bytes_of in Hv. subst v.
      unfold next. rewrite decide_True by done. by destruct u.
    + intros u [k v] Hne Hl. rewrite appendProperty_header in *.
      unfold Publisher_visit, mbind, outcome_bind. cbn [requireWireType].
      change (requireWireType 3 BytesType BytesType) with (@Ret EnvErr unit tt). cbv iota beta.
      unfold decodeStringMapEntry, mbind, outcome_bind.
      rewrite (walks_run _ _ _ _ (entry_walks _) Hl). cbn [fst snd]. rewrite string_of_bytes_of.
      unfold next. rewrite decide_False; [done|]. intros [= -> ->]. by apply Hne, entry_empty.
Qed.

Lemma publisher_tail_walks key h p u s bs : publisher_ok u →
  walks Publisher_visit s bs (with_entries key h p) →
  walks Publisher_visit s (publisher_tail u bs)
    (u <| PM_Key := key |> <| PM_Headers := h |> <| PM_Properties := p |>).
Proof.
  destruct u as [k' h' p' ct ce rt cd pf me mid]. intros [Hpf Hme] Hb. unfold publisher_tail.
  cbn [PM_ContentType PM_ContentEncoding PM_ResponseTopic PM_CorrelationData PM_PayloadFormat
       PM_MessageExpiry PM_MessageID] in *. cbv zeta. unfold maxUint32 in *.
  apply (then_str _ 10 mid (λ v, mkPublisher key h p ct ce rt cd pf me v)); [lia|done|].
  apply (then_opt _ 9 me (λ v, mkPublisher key h p ct ce rt cd pf v "")); [lia| |].
  { intros v Hv. specialize (Hme v Hv). split; [lia|]. unfold Publisher_visit, mbind, outcome_bind.
    simpl. by rewrite fits_ok by (unfold maxUint32; lia). }
  apply (then_opt _ 8 pf (λ v, mkPublisher key h p ct ce rt cd v None "")); [lia| |].
  { intros v Hv. specialize (Hpf v Hv). split; [lia|]. unfold Publisher_visit, mbind, outcome_bind.
    simpl. by rewrite fits_ok by lia. }
  apply (then_bin _ 7 cd (λ v, mkPublisher key h p ct ce rt v None None "")); [lia|done|].
  apply (then_str _ 6 rt (λ v, mkPublisher key h p ct ce v [] None None "")); [lia|done|].
  apply (then_str _ 5 ce (λ v, mkPublisher key h p ct v "" [] None None "")); [lia|done|].
  by apply (then_str _ 4 ct (λ v, mkPublisher key h p v "" "" [] None None "")); [lia|done|].
Qed.

(** The key that an encoding carries. *)
Definition carried_key (mode : codecMode) (u : PublisherMetadata) : list byte :=
  if decide (mode = encodeFull) then PM_Key u else [].

Lemma publisher_walks mode hs ps u : publisher_ok u →
  hs ≡ₚ map_to_list (PM_Headers u) → ps ≡ₚ map_to_list (PM_Properties u) →
  walks Publisher_visit Publisher_zero (appendPublisher mode hs ps [] u)
    (norm_publisher u <| PM_Key := carried_key mode u |>).
Proof.
  intros Hu Hhs Hps. rewrite appendPublisher_split, publisher_entries_spec.
  assert (Hk : walks Publisher_visit Publisher_zero
    (if decide (mode = encodeFull) then appendBytes [] 1 (PM_Key u) else [])
    (with_entries (carried_key mode u) ∅ ∅)).
  { unfold carried_key. case_decide; [|apply walks_nil].
    apply (then_bin _ 1 (PM_Key u) (λ v, with_entries v ∅ ∅)); [lia|done|apply walks_nil]. }
  pose proof (publisher_tail_walks (carried_key mode u) (norm_map [] (PM_Headers u))
    (norm_map ""%string (PM_Properties u)) u) as Ht.
  replace (norm_publisher u <| PM_Key := carried_key mode u |>) with
    (u <| PM_Key := carried_key mode u |> <| PM_Headers := norm_map [] (PM_Headers u) |>
       <| PM_Properties := norm_map ""%string (PM_Properties u) |>) by done.
  apply Ht; [done|]. eapply walks_app; [exact Hk|].
  rewrite <-(add_entries_norm [] hs), <-(add_entries_norm ""%string ps) by done.
  apply entries_publisher.
Qed.

(** ** The whole envelope *)

(** A metadata encoding carries no key. *)
Lemma reject_walks hs ps u :
  publisher_ok u → walks (λ number _ _ _ s, if number =? 1 then Fail ErrMetadataCarriesKey else Ret s)
    tt (appendPublisher encodeMetadata hs ps [] u) tt.
Proof.
  intros [Hpf Hme]. set (reject := λ (number wt : Z) (raw : list byte) (v : Z) (s : unit),
    if number =? 1 then Fail ErrMetadataCarriesKey else Ret s).
  change (walks reject tt (appendPublisher encodeMetadata hs ps [] u) tt).
  rewrite appendPublisher_split, publisher_entries_spec, decide_False, app_nil_l by done.
  unfold publisher_tail. cbv zeta.
  unfold maxUint32 in *.
  apply (then_str reject 10 (PM_MessageID u) (λ _, tt)); [lia|done|].
  apply (then_opt reject 9 (PM_MessageExpiry u) (λ _, tt)); [lia| |].
  { intros v Hv. specialize (Hme v Hv). split; [lia|done]. }
  apply (then_opt reject 8 (PM_PayloadFormat u) (λ _, tt)); [lia| |].
  { intros v Hv. specialize (Hpf v Hv). split; [lia|done]. }
  apply (then_bin reject 7 (PM_CorrelationData u) (λ _, tt)); [lia|done|].
  apply (then_str reject 6 (PM_ResponseTopic u) (λ _, tt)); [lia|done|].
  apply (then_str reject 5 (PM_ContentEncoding u) (λ _, tt)); [lia|done|].
  apply (then_str reject 4 (PM_ContentType u) (λ _, tt)); [lia|done|].
  assert (Hfold : ∀ {B} (l : list B) s, foldl (λ (s : unit) _, s) s l = s)
    by (intros B l; induction l; auto).
  apply (walks_app _ _ _ tt).
  - pose proof (entries_walk reject 2 (appendHeader []) (λ s _, s) hs
      (number_small 2 ltac:(lia)) ltac:(done) ltac:(done) tt) as H. rewrite Hfold in H. exact H.
  - pose proof (entries_walk reject 3 (appendProperty []) (λ s _, s) ps
      (number_small 3 ltac:(lia)) ltac:(done) ltac:(done) tt) as H. rewrite Hfold in H. exact H.
Qed.

Definition envelope_ok (e : Envelope) : Prop :=
  EVersion e = Version1 ∧ publisher_ok (EPublisher e) ∧ broker_ok (EBroker e).

Lemma Validate_ok e : envelope_ok e → Validate (Some e) = Ret tt.
Proof.
  intros (Hv & _ & ([n Hn] & _ & (_ & [m Hm] & _) & _)). unfold Validate, mbind, outcome_bind.
  by rewrite Hv, Hn, Hm.
Qed.

(** What is read back of an envelope, without its payload: a header or property
    with an empty key and an empty value and a stream record with nothing in it
    are not written. *)
Definition norm_envelope (key : list byte) (e : Envelope) : Envelope :=
  mkEnvelope Version1 (ETopic e) (norm_publisher (EPublisher e) <| PM_Key := key |>)
    (norm_broker (EBroker e)) None.

(** The envelopes that have neither. *)
Definition lossless (e : Envelope) : Prop :=
  PM_Headers (EPublisher e) !! ""%string ≠ Some [] ∧
  PM_Properties (EPublisher e) !! ""%string ≠ Some ""%string ∧
  QM_Stream (BM_Queue (EBroker e)) ≠ Some Stream_zero.

Lemma norm_map_id {V} (empty : V) `{EqDecision V} (m : gmap string V) :
  m !! ""%string ≠ Some empty → norm_map empty m = m.
Proof. intros H. apply map_filter_id. intros k v Hk [= -> ->]. by apply H. Qed.

Lemma norm_envelope_id key e : EVersion e = Version1 → lossless e →
  norm_envelope key e = e <| EPublisher := EPublisher e <| PM_Key := key |> |> <| EPayload := None |>.
Proof.
  intros Hv (Hh & Hp & Hs). unfold norm_envelope, norm_publisher, norm_broker, norm_stream.
  rewrite !norm_map_id, decide_False by done. destruct e as [v t [] [? ? [] ? ?] p]. cbn in Hv. by subst v.
Qed.

Lemma envelope_walks mode hs ps e s bs : envelope_ok e →
  hs ≡ₚ map_to_list (PM_Headers (EPublisher e)) → ps ≡ₚ map_to_list (PM_Properties (EPublisher e)) →
  marshalBinary mode hs ps (Some e) s = Ret bs →
  walks (Envelope_visit mode) (Envelope_blank <| EVersion := 0 |>, []) bs
    (norm_envelope (carried_key mode (EPublisher e)) e,
     if decide (mode = encodeFull) then PayloadBytes e s else []).
Proof.
  intros Hok Hhs Hps. unfold marshalBinary. rewrite Validate_ok by done. destruct Hok as (Hv & Hu & Hb).
  unfold mbind, outcome_bind. intros Hbs%Ret_inj. rewrite <-Hbs. clear Hbs. rewrite Hv.
  set (pl := if decide (mode = encodeFull) then PayloadBytes e s else []).
  set (u' := norm_publisher (EPublisher e) <| PM_Key := carried_key mode (EPublisher e) |>).
  apply (then_sub _ appendBroker Broker_visit Broker_zero (EBroker e) (norm_broker (EBroker e)) 5
    (λ v, (mkEnvelope Version1 (ETopic e) u' v None, pl)));
    [lia|apply appends_broker|by apply broker_walks|done|].
  apply (then_sub _ (appendPublisher mode hs ps) Publisher_visit Publisher_zero (EPublisher e) u' 4
    (λ v, (mkEnvelope Version1 (ETopic e) v Broker_zero None, pl)));
    [lia|apply appends_publisher|by apply publisher_walks| |].
  { intros Hl. unfold Envelope_visit, mbind, outcome_bind. cbn [requireWireType].
    change (requireWireType 4 BytesType BytesType) with (@Ret EnvErr unit tt). cbv iota beta.
    case_decide as Em; [|done]. subst mode. unfold rejectEmbeddedKey.
    by rewrite (walks_run _ _ _ _ (reject_walks hs ps _ Hu) Hl). }
  assert (Hh : walks (Envelope_visit mode) (Envelope_blank <| EVersion := 0 |>, [])
    (appendString (appendVarint [] 1 Version1) 2 (ETopic e))
    (mkEnvelope Version1 (ETopic e) Publisher_zero Broker_zero None, [])).
  { apply (then_str _ 2 (ETopic e) (λ v, (mkEnvelope Version1 v Publisher_zero Broker_zero None, [])));
      [lia|done|]. apply walks_varint; [by apply number_small|unfold Version1; lia|done]. }
  unfold pl. case_decide as Em; [|exact Hh]. subst mode.
  by apply (then_bin _ 3 (PayloadBytes e s)
    (λ v, (mkEnvelope Version1 (ETopic e) Publisher_zero Broker_zero None, v))); [lia|done|].
Qed.

(** C16 Round trip of the persisted envelope: every valid envelope encodes, and
    what the decoder makes of the bytes, in any reachable state of the pools, is
    an envelope with the same payload and the same contents, except that a
    header or property whose key and value are both empty and a stream record
    whose fields are all zero are lost; an envelope that has neither comes back
    field for field.  In metadata mode the payload and the key are the ones of
    the log record. *)
Theorem envelope_roundtrip mode hs ps e w pick ppick value key :
  envelope_ok e → rtc MessageFacts.estep MessageFacts.einit w → MessageFacts.room w →
  hs ≡ₚ map_to_list (PM_Headers (EPublisher e)) → ps ≡ₚ map_to_list (PM_Properties (EPublisher e)) →
  let s := MessageFacts.ps w in
  ∃ bs, marshalBinary mode hs ps (Some e) s = Ret bs ∧
    (Z.of_nat (length bs) < 2 ^ 63 →
     ∃ e' s', unmarshalBinary pick ppick mode bs value key s = (Ret e', s') ∧
       e' <| EPayload := None |> =
         norm_envelope (if decide (mode = encodeFull) then PM_Key (EPublisher e) else key) e ∧
       (lossless e → e' <| EPayload := None |> =
          e <| EPublisher := EPublisher e
                 <| PM_Key := if decide (mode = encodeFull) then PM_Key (EPublisher e) else key |> |>
            <| EPayload := None |>) ∧
       PayloadBytes e' s' = if decide (mode = encodeFull) then PayloadBytes e s else value).
Proof.
  intros Hok Hreach Hroom Hhs Hps s. destruct (MessageFacts.einv_reachable w Hreach) as [cs Hinv].
  assert (Hm : ∃ bs, marshalBinary mode hs ps (Some e) s = Ret bs).
  { unfold marshalBinary. rewrite Validate_ok by done. by eexists. }
  destruct Hm as [bs Hbs]. exists bs. split; [done|]. intros Hl.
  pose proof (envelope_walks mode hs ps e s bs Hok Hhs Hps Hbs) as Hw.
  apply walks_run in Hw; [|done]. unfold unmarshalBinary.
  destruct (MessageFacts.Acquire_blank pick s (MessageFacts.einv_pool _ _ Hinv)) as (Ea & Em & _).
  destruct (Acquire pick s) as [e0 s1]. cbn [fst snd] in *. subst e0. rewrite Hw.
  unfold mbind, outcome_bind. cbn [norm_envelope EVersion requireVersion1].
  change (requireVersion1 Version1) with (@Ret EnvErr unit tt). cbv iota beta.
  rewrite Em. unfold carried_key. destruct mode.
  - rewrite decide_False, !decide_True by done. cbv iota beta.
    destruct (Payload.FromBytes ppick (PayloadBytes e s) (mem s)) as [a h] eqn:Ef.
    eexists _, _. split_and!; [done|done|by intros ?; rewrite <-norm_envelope_id by (done || apply Hok)|].
    apply (MessageFacts.FromBytes_bytes w cs ppick _ a h Hinv Hroom Ef).
  - rewrite (decide_True (P := encodeMetadata = encodeMetadata)), !decide_False by done. cbv iota beta.
    destruct (Payload.FromBytes ppick value (mem s)) as [a h] eqn:Ef.
    eexists _, _. split_and!; [done|done|by intros ?; rewrite <-norm_envelope_id by (done || apply Hok)|].
    apply (MessageFacts.FromBytes_bytes w cs ppick _ a h Hinv Hroom Ef).
Qed.

(** ** Arbitrary bytes *)

Definition safe {A} (o : outcome EnvErr A) : Prop := o ≠ Panic.
Lemma safe_bind {A B} (m : outcome EnvErr A) (k : A → outcome EnvErr B) :
  safe m → (∀ a, safe (k a)) → safe (m ≫= k).
Proof. unfold safe. destruct m; [intros _ H; apply H|done..]. Qed.
Lemma safe_wire n g w : safe (requireWireType n g w).
Proof. unfold requireWireType. by destruct (negb _). Qed.
Lemma safe_fits m v : safe (fits m v).
Proof. unfold fits. by destruct (_ <? _). Qed.
Lemma safe_protocol n : safe (protocolFromNumber n).
Proof. unfold protocolFromNumber. by repeat case_match. Qed.
Lemma safe_state n : safe (queueStateFromNumber n).
Proof. unfold queueStateFromNumber. by repeat case_match. Qed.
Lemma safe_walk {A} (visit : Z → Z → list byte → Z → A → outcome EnvErr A) encoded s :
  (∀ n t raw v s, safe (visit n t raw v s)) → safe (walkFields encoded visit s).
Proof. apply walk_nopanic. Qed.

Lemma safe_packed fuel : ∀ raw ids, (length raw ≤ fuel)%nat → safe (decodePacked_loop fuel raw ids).
Proof.
  induction fuel as [|fuel IH]; intros [|b raw] ids Hl; try done; simpl in Hl; [lia|].
  cbn [decodePacked_loop]. pose proof (ConsumeVarint_bounds (b :: raw)) as Hb.
  destruct (ConsumeVarint (b :: raw)) as [v n]. destruct (n <? 0) eqn:E; [done|]. apply Z.ltb_ge in E.
  apply safe_bind; [apply safe_fits|]. intros w.
  destruct (slice_from_lt n (b :: raw)) as (raw' & -> & Hr); [lia|]. apply IH. simpl in Hr. lia.
Qed.

Ltac safe_tac := repeat match goal with
  | |- safe (_ ≫= _) => apply safe_bind
  | |- ∀ _, _ => intros ?
  | |- safe (requireWireType _ _ _) => apply safe_wire
  | |- safe (fits _ _) => apply safe_fits
  | |- safe (Ret _) => done
  | |- safe (Fail _) => done
  | |- safe (match _ with _ => _ end) => case_match
  end.

Lemma safe_source_visit n t raw v s : safe (Source_visit n t raw v s).
Proof. unfold Source_visit. safe_tac; apply safe_protocol. Qed.
Lemma safe_delivery_visit n t raw v s : safe (Delivery_visit n t raw v s).
Proof. unfold Delivery_visit, decodePackedSubscriptionIDs. safe_tac. by apply safe_packed. Qed.
Lemma safe_stream_visit n t raw v s : safe (Stream_visit n t raw v s).
Proof. unfold Stream_visit. safe_tac. Qed.
Lemma safe_queue_visit n t raw v s : safe (Queue_visit n t raw v s).
Proof.
  unfold Queue_visit. safe_tac; first [apply safe_state | apply safe_walk, safe_stream_visit].
Qed.
Lemma safe_transfer_visit n t raw v s : safe (Transfer_visit n t raw v s).
Proof. unfold Transfer_visit. safe_tac. Qed.
Lemma safe_trace_visit n t raw v s : safe (Trace_visit n t raw v s).
Proof. unfold Trace_visit. safe_tac. Qed.
Lemma safe_broker_visit n t raw v s : safe (Broker_visit n t raw v s).
Proof.
  unfold Broker_visit. safe_tac; apply safe_walk;
    first [apply safe_source_visit | apply safe_delivery_visit | apply safe_queue_visit
          | apply safe_transfer_visit | apply safe_trace_visit].
Qed.
Lemma safe_entry_visit n t raw v s : safe (MapEntry_visit n t raw v s).
Proof. unfold MapEntry_visit. safe_tac. Qed.
Lemma safe_publisher_visit n t raw v s : safe (Publisher_visit n t raw v s).
Proof.
  unfold Publisher_visit, decodeBytesMapEntry, decodeStringMapEntry. safe_tac;
    apply safe_walk, safe_entry_visit.
Qed.
Lemma safe_envelope_visit mode n t raw v s : safe (Envelope_visit mode n t raw v s).
Proof.
  unfold Envelope_visit, rejectEmbeddedKey. safe_tac; apply safe_walk;
    first [apply safe_publisher_visit | apply safe_broker_visit | intros; safe_tac].
Qed.

(** The decoder on arbitrary bytes returns an envelope of the current schema
    version or an error, and never panics.  On an error nothing is leaked: the
    payload heap is untouched and the envelope it had taken is back in the
    pool, blank. *)
Theorem unmarshal_safe mode encoded value key w pick ppick :
  rtc MessageFacts.estep MessageFacts.einit w →
  let s := MessageFacts.ps w in
  match unmarshalBinary pick ppick mode encoded value key s with
  | (Ret e, s') => EVersion e = Version1
  | (Fail _, s') => mem s' = mem s ∧ Forall (λ e, e = Envelope_blank) (envelopePool s')
  | (Panic, _) => False
  end.
Proof.
  intros Hreach s. destruct (MessageFacts.einv_reachable w Hreach) as [cs Hinv].
  destruct (MessageFacts.Acquire_blank pick s (MessageFacts.einv_pool _ _ Hinv)) as (Ea & Em & Ep).
  unfold unmarshalBinary. destruct (Acquire pick s) as [e0 s1]. cbn [fst snd] in *. subst e0.
  pose proof (safe_walk (Envelope_visit mode) encoded (Envelope_blank <| EVersion := 0 |>, [])
    (safe_envelope_visit mode)) as Hsafe. unfold mbind, outcome_bind.
  destruct (walkFields encoded _ _) as [[e decoded]|err|]; [| |done].
  - unfold requireVersion1. destruct (EVersion e =? Version1) eqn:Ev; bool_prop; cbn [negb].
    + case_decide; by destruct (Payload.FromBytes _ _ _) as [a h].
    + split; [done|]. by constructor.
  - split; [done|]. by constructor.
Qed.
End laws.

(** * An implementation of the wire format

    The varint of at most ten bytes, the tag, the length-prefixed bytes and the
    zig-zag of the format; groups, which the format has deprecated, are refused.
    It shows that the laws of [ProtowireLaws] can hold. *)

Fixpoint uvarint_loop (fuel : nat) (bs : list byte) : option (Z * nat) :=
  match fuel, bs with
  | O, _ | _, [] => None
  | S fuel, b :: bs =>
      if b2z b <? 0x80 then
        match fuel with
        | O => if 1 <? b2z b then None else Some (b2z b, 1%nat)
        | _ => Some (b2z b, 1%nat)
        end
      else '(v, n) ← uvarint_loop fuel bs; Some (Z.land (b2z b) 0x7f + 128 * v, S n)
  end.

Definition wire_varint (bs : list byte) : Z * Z :=
  match uvarint_loop 10 bs with Some (v, n) => (v, Z.of_nat n) | None => (0, -1) end.
Definition wire_tag (bs : list byte) : Z * Z * Z :=
  let '(v, n) := wire_varint bs in
  let number := Z.shiftr v 3 in
  if n <? 0 then (0, 0, n)
  else if (number <? 1) || (2 ^ 31 - 1 <? number) then (0, 0, -2)
  else (number, Z.land v 7, n).
Definition wire_bytes (bs : list byte) : list byte * Z :=
  let '(m, n) := wire_varint bs in
  if n <? 0 then ([], n)
  else if Z.of_nat (length bs) - n <? m then ([], -1)
  else (take (Z.to_nat m) (drop (Z.to_nat n) bs), n + m).
Definition wire_field (number t : Z) (bs : list byte) : Z :=
  if t =? VarintType then (wire_varint bs).2
  else if t =? BytesType then (wire_bytes bs).2
  else if t =? 5 then if Z.of_nat (length bs) <? 4 then -1 else 4
  else if t =? 1 then if Z.of_nat (length bs) <? 8 then -1 else 8
  else -3.

#[export] Instance wire_instance : Protowire := {
  AppendVarint b v := b ++ PutUvarint (u64 v);
  AppendTag b n t := b ++ PutUvarint (u64 (Z.lor (Z.shiftl n 3) t));
  AppendBytes b v := b ++ PutUvarint (u64 (Z.of_nat (length v))) ++ v;
  AppendString b s := b ++ PutUvarint (u64 (Z.of_nat (length (bytes_of s)))) ++ bytes_of s;
  ConsumeTag := wire_tag;
  ConsumeVarint := wire_varint;
  ConsumeBytes := wire_bytes;
  ConsumeFieldValue := wire_field;
  EncodeZigZag x := if 0 <=? x then 2 * x else - 2 * x - 1;
  DecodeZigZag x := if Z.even x then x / 2 else - ((x + 1) / 2)
}.

Lemma continuation_byte x :
  let b := b2z (z2b (Z.lor x 0x80)) in 128 <= b ∧ Z.land b 0x7f = x mod 128.
Proof.
  intros b. assert (Hb : b = Z.land (Z.lor x 0x80) (Z.ones 8)).
  { unfold b. rewrite b2z_z2b. unfold u8. by rewrite Z.land_ones. }
  split.
  - assert (Ht : Z.testbit b 7 = true).
    { rewrite Hb, Z.land_spec, Z.lor_spec, orb_true_r. done. }
    apply Z.testbit_true in Ht; [|lia]. pose proof (b2z_range (z2b (Z.lor x 0x80))).
    fold b in H. change (2 ^ 7) with 128 in Ht. destruct (Z.le_gt_cases 128 b) as [|Hlt]; [done|].
    by rewrite Z.div_small in Ht by lia.
  - rewrite Hb, <-Z.land_assoc. change (Z.land (Z.ones 8) 0x7f) with (Z.ones 7).
    rewrite Z.land_lor_distr_l. change (Z.land 0x80 (Z.ones 7)) with 0.
    by rewrite Z.lor_0_r, Z.land_ones.
Qed.

Lemma PutUvarint_loop_S fuel x : PutUvarint_loop (S fuel) x =
  if x <? 0x80 then [z2b x] else z2b (Z.lor x 0x80) :: PutUvarint_loop fuel (Z.shiftr x 7).
Proof. done. Qed.

Lemma uvarint_put k : ∀ x rest, 0 <= x < 2 ^ (7 * Z.of_nat k + 1) →
  uvarint_loop (S k) (PutUvarint_loop (S k) x ++ rest) = Some (x, length (PutUvarint_loop (S k) x)).
Proof.
  induction k as [|k IH]; intros x rest Hx; rewrite PutUvarint_loop_S;
    (destruct (x <? 0x80) eqn:E; bool_prop).
  - change (7 * Z.of_nat 0 + 1) with 1 in Hx. change (2 ^ 1) with 2 in Hx.
    cbn [uvarint_loop app]. rewrite b2z_z2b. unfold u8. rewrite Z.mod_small by lia.
    rewrite (proj2 (Z.ltb_lt _ _)) by lia. by rewrite (proj2 (Z.ltb_ge _ _)) by lia.
  - change (7 * Z.of_nat 0 + 1) with 1 in Hx. change (2 ^ 1) with 2 in Hx. lia.
  - cbn [uvarint_loop app]. rewrite b2z_z2b. unfold u8. rewrite Z.mod_small by lia.
    by rewrite (proj2 (Z.ltb_lt _ _)) by lia.
  - destruct (continuation_byte x) as [Hge Hlow].
    assert (Hs : Z.shiftr x 7 = x / 128) by by rewrite Z.shiftr_div_pow2.
    rewrite <-app_comm_cons. remember (S k) as j eqn:Ej. cbn [uvarint_loop length].
    rewrite (proj2 (Z.ltb_ge _ _)) by lia. rewrite IH; [|rewrite Hs].
    + cbn [mbind option_bind]. rewrite Hlow, Hs. do 2 f_equal.
      pose proof (Z.div_mod x 128). lia.
    + split; [apply Z.div_pos; lia|]. apply Z.div_lt_upper_bound; [lia|].
      rewrite Ej in Hx. replace (7 * Z.of_nat (S k) + 1) with (7 + (7 * Z.of_nat k + 1)) in Hx by lia.
      rewrite Z.pow_add_r in Hx by lia. change (2 ^ 7) with 128 in Hx. lia.
Qed.

Lemma uvarint_bounds k : ∀ bs v n, uvarint_loop (S k) bs = Some (v, n) →
  (0 < n ≤ length bs)%nat ∧ 0 <= v < 2 ^ (7 * Z.of_nat k + 1).
Proof.
  induction k as [|k IH]; intros [|b bs] v n; try done; unfold uvarint_loop; cbn [length];
    pose proof (b2z_range b); (destruct (b2z b <? 0x80) eqn:E; bool_prop).
  - case_match eqn:E1; [done|]. bool_prop. intros [= <- <-]. change (2 ^ _) with 2. lia.
  - done.
  - intros [= <- <-]. split; [lia|]. split; [lia|].
    assert (2 ^ 7 <= 2 ^ (7 * Z.of_nat (S k) + 1)) by (apply Z.pow_le_mono_r; lia).
    change (2 ^ 7) with 128 in H0. lia.
  - fold (uvarint_loop (S k) bs). destruct (uvarint_loop (S k) bs) as [[v' n']|] eqn:El; [|done].
    destruct (IH _ _ _ El) as [? ?]. change 127 with (Z.ones 7). rewrite Z.land_ones by lia.
    intros [= <- <-]. pose proof (Z.mod_pos_bound (b2z b) (2 ^ 7)).
    replace (7 * Z.of_nat (S k) + 1) with (7 + (7 * Z.of_nat k + 1)) by lia.
    rewrite Z.pow_add_r by lia. change (2 ^ 7) with 128 in *. split; lia.
Qed.

Lemma wire_varint_put v rest : 0 <= v < 2 ^ 64 →
  wire_varint (PutUvarint v ++ rest) = (v, Z.of_nat (length (PutUvarint v))).
Proof. intros Hv. unfold wire_varint, PutUvarint. by rewrite (uvarint_put 9). Qed.

Lemma wire_varint_bounds bs : let '(v, n) := wire_varint bs in
  n < 0 ∨ 0 < n <= Z.of_nat (length bs) ∧ 0 <= v < 2 ^ 64.
Proof.
  unfold wire_varint. destruct (uvarint_loop 10 bs) as [[v n]|] eqn:E; [|lia].
  apply (uvarint_bounds 9) in E. change (7 * Z.of_nat 9 + 1) with 64 in E. lia.
Qed.

Lemma wire_bytes_bounds bs : let n := (wire_bytes bs).2 in n < 0 ∨ 0 < n <= Z.of_nat (length bs).
Proof.
  unfold wire_bytes. pose proof (wire_varint_bounds bs). destruct (wire_varint bs) as [m n].
  destruct (n <? 0) eqn:E; bool_prop; [by left|]. case_match; bool_prop; simpl; lia.
Qed.

Lemma wire_tag_put n t rest : 1 <= n <= MaxValidNumber → 0 <= t <= 5 →
  let tag := PutUvarint (u64 (Z.lor (Z.shiftl n 3) t)) in
  wire_tag (tag ++ rest) = (n, t, Z.of_nat (length tag)).
Proof.
  intros Hn Ht tag. unfold MaxValidNumber in Hn.
  assert (Hl : Z.land (Z.shiftl n 3) t = 0).
  { apply Z.bits_inj'. intros i Hi. rewrite Z.land_spec, Z.bits_0.
    destruct (Z.lt_ge_cases i 3); [by rewrite Z.shiftl_spec_low|].
    rewrite (Z.bits_above_log2 t), andb_false_r; [done|lia|].
    destruct (decide (t = 0)) as [->|]; [simpl; lia|]. apply Z.log2_lt_pow2; [lia|].
    assert (2 ^ 3 <= 2 ^ i) by (apply Z.pow_le_mono_r; lia). lia. }
  assert (Hv : Z.lor (Z.shiftl n 3) t = 8 * n + t).
  { rewrite <-Z.lxor_lor, <-Z.add_nocarry_lxor by done. rewrite Z.shiftl_mul_pow2 by lia. lia. }
  unfold wire_tag, tag. rewrite Hv, u64_small, wire_varint_put by lia. simpl.
  rewrite (proj2 (Z.ltb_ge _ _)) by lia. rewrite Z.shiftr_div_pow2 by lia. change (2 ^ 3) with 8.
  replace ((8 * n + t) / 8) with n by (apply (Z.div_unique _ _ _ t); lia).
  rewrite (proj2 (Z.ltb_ge n 1)), (proj2 (Z.ltb_ge _ n)) by lia. cbn [orb].
  change 7 with (Z.ones 3). rewrite Z.land_ones by lia. change (2 ^ 3) with 8.
  by replace ((8 * n + t) mod 8) with t by (apply (Z.mod_unique _ _ n); lia).
Qed.

#[export] Instance wire_laws : ProtowireLaws wire_instance.
Proof.
  split; cbn [AppendVarint AppendTag AppendBytes AppendString ConsumeTag ConsumeVarint ConsumeBytes
              ConsumeFieldValue EncodeZigZag DecodeZigZag wire_instance]; try done.
  - intros b v. by rewrite <-app_assoc.
  - intros n t rest Hn Ht. rewrite app_nil_l. by apply wire_tag_put.
  - intros v rest Hv. rewrite app_nil_l, u64_small by done. by apply wire_varint_put.
  - intros v rest Hv. rewrite app_nil_l, u64_small, <-app_assoc by lia. unfold wire_bytes.
    rewrite wire_varint_put by lia. rewrite (proj2 (Z.ltb_ge _ 0)) by lia.
    rewrite !length_app, (proj2 (Z.ltb_ge _ _)) by lia.
    rewrite !Nat2Z.id, drop_app_length, take_app_length. f_equal. lia.
  - intros b. unfold wire_tag. pose proof (wire_varint_bounds b). destruct (wire_varint b) as [v n].
    destruct (n <? 0) eqn:E; bool_prop; [by left|]. case_match; simpl; lia.
  - apply wire_varint_bounds.
  - apply wire_bytes_bounds.
  - intros number t b. unfold wire_field. pose proof (wire_varint_bounds b).
    pose proof (wire_bytes_bounds b). destruct (wire_varint b) as [v n].
    repeat case_match; bool_prop; simpl in *; lia.
  - intros x Hx. case_match; bool_prop; lia.
  - intros x Hx. destruct (0 <=? x) eqn:E; bool_prop.
    + rewrite Z.even_mul. simpl. rewrite Z.mul_comm. apply Z.div_mul. lia.
    + replace (-2 * x - 1) with (1 + 2 * (- x - 1)) by lia. rewrite Z.even_add_mul_2. simpl.
      replace (1 + 2 * (- x - 1) + 1) with ((- x) * 2) by lia. rewrite Z.div_mul by lia. lia.
Qed.

(** ** Witnesses *)

Definition example_stored (e : Envelope) : Envelope :=
  e <| EPublisher := EPublisher e <| PM_Headers := {["h" := [x01]]} |> <| PM_Key := [x6b] |> |>
    <| EBroker := EBroker e <| BM_Queue := BM_Queue (EBroker e) <| QM_Name := "jobs" |> |> |>.

Lemma envelope_roundtrip_witness : ∃ e s bs,
  marshalBinary encodeFull [("h", [x01])] [] (Some e) s = Ret bs ∧ PayloadBytes e s = [x68; x69] ∧
  ∃ e' s', unmarshalBinary None None encodeFull bs [] [] s = (Ret e', s') ∧
    QM_Name (BM_Queue (EBroker e')) = "jobs" ∧ PM_Key (EPublisher e') = [x6b] ∧
    PayloadBytes e' s' = [x68; x69].
Proof.
  destruct (New None None "t" [x68; x69] (MessageFacts.ps MessageFacts.einit)) as [e1 s1] eqn:E1.
  set (w := MessageFacts.mkWorld s1 (<[1%nat := MessageFacts.HEnvelope e1]> ∅)
              (<[1%nat := [x68; x69]]> ∅)).
  assert (Hr : rtc MessageFacts.estep MessageFacts.einit w).
  { apply rtc_once. apply (MessageFacts.estep_new None None "t" [x68; x69] 1 _ _ _ e1 s1);
      [vm_compute; reflexivity|done|exact E1]. }
  injection E1 as He Hs.
  destruct (envelope_roundtrip encodeFull [("h", [x01])] [] (example_stored e1) w None None [] [])
    as (bs & Hm & Hu); [|exact Hr| | | |].
  - rewrite <-He. unfold envelope_ok, publisher_ok, broker_ok, delivery_ok, queue_ok, transfer_ok.
    split_and!; try done; eexists; reflexivity.
  - unfold MessageFacts.room, w. cbn [MessageFacts.holders MessageFacts.ps].
    rewrite MessageFacts.refs_of_insert by done. rewrite <-He. vm_compute. reflexivity.
  - rewrite <-He. vm_compute. reflexivity.
  - rewrite <-He. vm_compute. reflexivity.
  - exists (example_stored e1), s1, bs.
    assert (Hp : PayloadBytes (example_stored e1) s1 = [x68; x69])
      by (rewrite <-He, <-Hs; vm_compute; reflexivity).
    split; [exact Hm|]. split; [exact Hp|].
    destruct Hu as (e' & s' & Hu & Hn & _ & Hpay).
    { assert (Hlen : (length <$> (match marshalBinary encodeFull [("h", [x01])] []
        (Some (example_stored e1)) s1 with Ret b => Some b | _ => None end)) = Some 32%nat)
        by (rewrite <-He, <-Hs; vm_compute; reflexivity).
      unfold w in Hm. cbn [MessageFacts.ps] in Hm. rewrite Hm in Hlen. injection Hlen as ->. done. }
    exists e', s'. split; [exact Hu|]. split_and!.
    + refine (eq_trans (f_equal (λ x, QM_Name (BM_Queue (EBroker x))) Hn) _). by rewrite <-He.
    + exact (f_equal (λ x, PM_Key (EPublisher x)) Hn).
    + rewrite Hpay. exact Hp.
Defined.

Lemma unmarshal_safe_witness :
  (unmarshalBinary None None encodeFull [x08; x02] [] [] (MessageFacts.ps MessageFacts.einit)).1 ≠ Panic ∧
  mem (unmarshalBinary None None encodeFull [x08; x02] [] [] (MessageFacts.ps MessageFacts.einit)).2 =
  mem (MessageFacts.ps MessageFacts.einit).
Proof.
  pose proof (unmarshal_safe encodeFull [x08; x02] [] [] MessageFacts.einit None None (rtc_refl _ _)) as H.
  cbv zeta in H.
  assert (Hf : ∃ err, (unmarshalBinary None None encodeFull [x08; x02] [] []
    (MessageFacts.ps MessageFacts.einit)).1 = Fail err) by (eexists; vm_compute; reflexivity).
  destruct Hf as [err Hf]. destruct (unmarshalBinary _ _ _ _ _ _ _) as [o s'].
  cbn [fst snd] in *. rewrite Hf in H. split; [by rewrite Hf|]. exact (proj1 H).
Defined.

(** A version that only agrees with [Version1] in its low sixteen bits is
    accepted: 65537 is stored as [x08 x81 x80 x04]. *)
Lemma version_truncated : ∃ e,
  (unmarshalBinary None None encodeFull [x08; x81; x80; x04] [] []
    (MessageFacts.ps MessageFacts.einit)).1 = Ret e ∧ EVersion e = Version1.
Proof. eexists. split; vm_compute; reflexivity. Qed.
