(* ===== verification/Topics.v ===== *)
(** * Topic names, filters, shared subscriptions (src/topics)

    Models every function of [topics/match.go], [topics/validate.go],
    [topics/shared.go] and [topics/translate.go].  The reference semantics of
    MQTT wildcards is the inductive relation [mqtt_match] on level lists;
    [TopicMatch], which walks both strings with [strings.Cut] and never splits
    them, is proved equal to it.  A [ShareGroup] is a record with the source's
    fields; its invariant is [share_wf]. *)

From Stdlib Require Import ZArith Lia Bool Ascii String.
From stdpp Require Import prelude gmap strings.
From S2P Require Import Prelude GoStrings.

Definition slash : ascii := "/"%char.
Definition dot : ascii := "."%char.
Definition star_c : ascii := "*"%char.
Definition plus_c : ascii := "+"%char.
Definition hash_c : ascii := "#"%char.
Definition dollar : ascii := "$"%char.
Definition nul : ascii := "000"%char.
Definition plus_lvl : string := "+"%string.
Definition hash_lvl : string := "#"%string.

(** The level list of a topic or filter. *)
Definition levels (s : string) : list string := Split slash s.

Lemma levels_cons s : ∃ h t, levels s = h :: t.
Proof. apply Split_nonempty. Qed.

(** ** match.go *)

(** The [for] loop of [TopicMatch].  Each iteration cuts one level off the
    filter, so [S (length filter)] iterations always suffice. *)
Fixpoint topic_match_loop (fuel : nat) (filter remainingTopic : string)
    (topicExhausted : bool) : bool :=
  match fuel with
  | O => false
  | S fuel =>
      let '(filterLevel, filterRest, filterHasMore) := Cut slash filter in
      if str_eqb filterLevel hash_lvl then true
      else if topicExhausted then false
      else
        let '(topicLevel, topicRest, topicHasMore) := Cut slash remainingTopic in
        if negb (str_eqb filterLevel plus_lvl) && negb (str_eqb filterLevel topicLevel)
        then false
        else if negb filterHasMore then negb topicHasMore
        else if topicHasMore
             then topic_match_loop fuel filterRest topicRest topicExhausted
             else topic_match_loop fuel filterRest remainingTopic true
  end.

Definition starts_with_dollar (s : string) : bool :=
  match first_byte s with Some c => Ascii.eqb c dollar | None => false end.

Definition TopicMatch (filter topic : string) : bool :=
  if str_eqb filter EmptyString || str_eqb topic EmptyString then false
  else if str_eqb filter topic then true
  else
    let dollar_reject :=
      starts_with_dollar topic &&
      (negb (starts_with_dollar filter) ||
       (let '(firstLevel, _, _) := Cut slash filter in
        str_eqb firstLevel plus_lvl || str_eqb firstLevel hash_lvl)) in
    if dollar_reject then false
    else topic_match_loop (S (String.length filter)) filter topic false.

(** ** shared.go *)

Definition share_prefix : string := "$share/"%string.

(** [ParseShared]: (shareName, topicFilter, isShared). *)
Definition ParseShared (filter : string) : string * string * bool :=
  if negb (HasPrefix filter share_prefix) then (EmptyString, filter, false)
  else
    let rest := drop_str 7 filter in
    match SplitN2 slash rest with
    | [a; b] => (a, b, true)
    | _ => (EmptyString, filter, false)
    end.

Definition IsShared (filter : string) : bool := HasPrefix filter share_prefix.

Module Shared.

Record ShareSubscriber := mkShareSubscriber { ClientID : string; SubQoS : Z }.

Record ShareGroup := mkShareGroup {
  Name : string;
  TopicFilter : string;
  Subscribers : list ShareSubscriber;
  lastIndex : nat
}.

#[export] Instance ShareSubscriber_eq_dec : EqDecision ShareSubscriber.
Proof. solve_decision. Defined.

Definition set_Subscribers (g : ShareGroup) (s : list ShareSubscriber) : ShareGroup :=
  mkShareGroup (Name g) (TopicFilter g) s (lastIndex g).
Definition set_lastIndex (g : ShareGroup) (i : nat) : ShareGroup :=
  mkShareGroup (Name g) (TopicFilter g) (Subscribers g) i.

(** Indexing outside the slice panics. *)
Definition NextSubscriber (g : ShareGroup) : outcome unit (string * ShareGroup) :=
  match Subscribers g with
  | [] => Ret (EmptyString, g)
  | _ :: _ =>
      match Subscribers g !! lastIndex g with
      | None => Panic
      | Some subscriber =>
          Ret (ClientID subscriber,
               set_lastIndex g ((lastIndex g + 1) mod length (Subscribers g))%nat)
      end
  end.

(** [SubscriberAt]; [%] is Go's remainder, so a negative sum would index
    outside the slice. *)
Definition SubscriberAt (g : ShareGroup) (rotation offset : Z) :
    outcome unit (option ShareSubscriber) :=
  let size := Z.of_nat (length (Subscribers g)) in
  if (size =? 0) || (offset <? 0) || (size <=? offset) then Ret None
  else
    let i := Z.rem (i64 (rotation + offset)) size in
    if i <? 0 then Panic
    else match Subscribers g !! Z.to_nat i with
         | None => Panic
         | Some s => Ret (Some s)
         end.

(** The index of the first member with the given client id, by the scan both
    mutators perform. *)
Fixpoint find_client (l : list ShareSubscriber) (clientID : string) : option nat :=
  match l with
  | [] => None
  | s :: l' => if str_eqb (ClientID s) clientID then Some 0%nat
               else S <$> find_client l' clientID
  end.

Definition AddSubscriber (g : ShareGroup) (clientID : string) (qos : Z) :
    bool * ShareGroup :=
  match find_client (Subscribers g) clientID with
  | Some i =>
      (false, set_Subscribers g
                (alter (λ s, mkShareSubscriber (ClientID s) qos) i (Subscribers g)))
  | None =>
      (true, set_Subscribers g (Subscribers g ++ [mkShareSubscriber clientID qos]))
  end.

(** [RemoveSubscriber]: the last member overwrites the removed one, the slice
    is cut by one, and [lastIndex] is clamped unless the group became empty. *)
Definition RemoveSubscriber (g : ShareGroup) (clientID : string) : bool * ShareGroup :=
  match find_client (Subscribers g) clientID with
  | None => (false, g)
  | Some i =>
      let n := length (Subscribers g) in
      let overwritten :=
        match Subscribers g !! (n - 1)%nat with
        | Some l => <[i := l]> (Subscribers g)
        | None => Subscribers g
        end in
      let subs := take (n - 1)%nat overwritten in
      let g' := set_Subscribers g subs in
      (true,
       if (length subs <=? lastIndex g)%nat && (0 <? length subs)%nat
       then set_lastIndex g' 0 else g')
  end.

Definition IsEmpty (g : ShareGroup) : bool :=
  match Subscribers g with [] => true | _ => false end.

End Shared.

(** ** validate.go *)

Inductive TopicErr := ErrInvalidTopicName | ErrInvalidTopicFilter.

#[export] Instance TopicErr_eq_dec : EqDecision TopicErr.
Proof. solve_decision. Defined.

Definition ValidateTopicName (topic : string) : outcome TopicErr unit :=
  if str_eqb topic EmptyString then Fail ErrInvalidTopicName
  else if Contains topic plus_c || Contains topic hash_c then Fail ErrInvalidTopicName
  else if negb (ValidString topic) then Fail ErrInvalidTopicName
  else if Contains topic nul then Fail ErrInvalidTopicName
  else Ret tt.

(** The loop over [range levels]; [n] is [len(levels)]. *)
Fixpoint check_levels (i n : nat) (ls : list string) : outcome TopicErr unit :=
  match ls with
  | [] => Ret tt
  | level :: ls' =>
      if Contains level hash_c &&
         (negb (str_eqb level hash_lvl) || negb (i =? n - 1)%nat)
      then Fail ErrInvalidTopicFilter
      else if Contains level plus_c && negb (str_eqb level plus_lvl)
      then Fail ErrInvalidTopicFilter
      else check_levels (S i) n ls'
  end.

Definition ValidateTopicFilter (filter : string) : outcome TopicErr unit :=
  if str_eqb filter EmptyString then Fail ErrInvalidTopicFilter
  else if negb (ValidString filter) || Contains filter nul
  then Fail ErrInvalidTopicFilter
  else
    let '(shareName, topicFilter, isShared) := ParseShared filter in
    if IsShared filter && negb isShared then Fail ErrInvalidTopicFilter
    else if isShared && (str_eqb shareName EmptyString
                         || ContainsAny shareName [plus_c; hash_c])
    then Fail ErrInvalidTopicFilter
    else if isShared && str_eqb topicFilter EmptyString
    then Fail ErrInvalidTopicFilter
    else
      let filter' := if isShared then topicFilter else filter in
      let ls := levels filter' in
      check_levels 0 (length ls) ls.

(** ** translate.go *)

Definition AMQPFilterToMQTT (filter : string) : string :=
  if str_eqb filter EmptyString then EmptyString
  else if negb (ContainsAny filter [dot; star_c]) then filter
  else map_str (λ c, if Ascii.eqb c dot then slash
                     else if Ascii.eqb c star_c then plus_c else c) filter.

Definition AMQPTopicToMQTT (topic : string) : string :=
  if str_eqb topic EmptyString then EmptyString
  else if negb (Contains topic dot) then topic
  else ReplaceAll topic dot slash.

Definition MQTTTopicToAMQP (topic : string) : string :=
  if str_eqb topic EmptyString then EmptyString
  else if negb (Contains topic slash) then topic
  else ReplaceAll topic slash dot.

(** * Properties *)

(** ** Wildcard matching

    [walk_match] is the relation the loop decides on arbitrary level lists (a
    [#] stops the walk wherever it stands); [mqtt_match] is the MQTT rule, in
    which [#] is the last level.  They agree on filters whose [#] is last,
    which is what [ValidateTopicFilter] accepts. *)

Inductive walk_match : list string → list string → Prop :=
| walk_nil : walk_match [] []
| walk_hash fs ts : walk_match (hash_lvl :: fs) ts
| walk_plus fs t ts : walk_match fs ts → walk_match (plus_lvl :: fs) (t :: ts)
| walk_eq l fs ts : walk_match fs ts → walk_match (l :: fs) (l :: ts).

Inductive mqtt_match : list string → list string → Prop :=
| mqtt_nil : mqtt_match [] []
| mqtt_hash ts : mqtt_match [hash_lvl] ts
| mqtt_plus fs t ts : mqtt_match fs ts → mqtt_match (plus_lvl :: fs) (t :: ts)
| mqtt_eq l fs ts : mqtt_match fs ts → mqtt_match (l :: fs) (l :: ts).

#[export] Hint Constructors walk_match mqtt_match : flux.

(** [#] occurs only as the last level. *)
Fixpoint hash_last (fs : list string) : Prop :=
  match fs with
  | [] => True
  | f :: fs' => (f = hash_lvl → fs' = []) ∧ hash_last fs'
  end.

Lemma walk_mqtt fs ts : hash_last fs → walk_match fs ts ↔ mqtt_match fs ts.
Proof.
  intros Hl; split.
  - intros H; induction H; simpl in Hl; destruct Hl as [Hh Hl] || idtac;
      eauto with flux. rewrite (Hh eq_refl). auto with flux.
  - intros H; induction H; simpl in Hl; eauto with flux;
      destruct Hl as [_ Hl]; eauto with flux.
Qed.

Lemma mqtt_match_refl ls : mqtt_match ls ls.
Proof. induction ls; auto with flux. Qed.

Lemma walk_match_refl ls : walk_match ls ls.
Proof. induction ls; auto with flux. Qed.

Lemma walk_match_cons_inv f fs ts :
  f ≠ hash_lvl →
  walk_match (f :: fs) ts ↔
  ∃ t ts', ts = t :: ts' ∧ (f = plus_lvl ∨ f = t) ∧ walk_match fs ts'.
Proof.
  intros Hf. split.
  - intros H; inversion H; subst; naive_solver.
  - intros (t & ts' & -> & [-> | ->] & H); auto with flux.
Qed.

Lemma topic_match_loop_exhausted fuel filter rem :
  (0 < fuel)%nat →
  topic_match_loop fuel filter rem true = true ↔ walk_match (levels filter) [].
Proof.
  destruct fuel as [|fuel]; [lia|]. intros _. simpl. unfold levels.
  rewrite (Split_Cut slash filter).
  destruct (Cut slash filter) as [[fl fr] fm].
  destruct (str_eqb fl hash_lvl) eqn:E.
  - apply str_eqb_true in E as ->. destruct fm; split; auto with flux.
  - apply str_eqb_false in E. split; [done|].
    intros H. destruct fm; inversion H; congruence.
Qed.

Lemma level_test fl tl :
  negb (str_eqb fl plus_lvl) && negb (str_eqb fl tl) = false ↔
  fl = plus_lvl ∨ fl = tl.
Proof.
  unfold str_eqb. repeat case_bool_decide; simpl; naive_solver.
Qed.

Lemma walk_match_levels_cons f fs rem :
  f ≠ hash_lvl →
  walk_match (f :: fs) (levels rem) ↔
  let '(tl, tr, tm) := Cut slash rem in
  (f = plus_lvl ∨ f = tl) ∧ walk_match fs (if tm then levels tr else []).
Proof.
  intros Hf. rewrite walk_match_cons_inv by done. unfold levels.
  rewrite (Split_Cut slash rem). destruct (Cut slash rem) as [[tl tr] [|]]; naive_solver.
Qed.

Lemma topic_match_loop_spec filter : ∀ fuel rem,
  (String.length filter < fuel)%nat →
  topic_match_loop fuel filter rem false = true ↔
  walk_match (levels filter) (levels rem).
Proof.
  induction filter as [filter fl Hc Hs|filter fl fr Hc Hs IH] using (cut_ind slash);
    intros [|fuel] rem Hf; try lia; simpl; rewrite Hc;
    fold (levels filter) in Hs; rewrite Hs;
    (destruct (str_eqb fl hash_lvl) eqn:E;
      [apply str_eqb_true in E as ->; split; auto with flux|apply str_eqb_false in E]);
    rewrite walk_match_levels_cons by done;
    destruct (Cut slash rem) as [[tl tr] tm];
    (destruct (negb (str_eqb fl plus_lvl) && negb (str_eqb fl tl)) eqn:Ht;
      [split; [done|]; intros [?%level_test _]; congruence|apply level_test in Ht]).
  - destruct tm; simpl; split; try done.
    + intros [_ Hw]. destruct (levels_cons tr) as (h & t & Htr). rewrite Htr in Hw.
      inversion Hw.
    + auto with flux.
  - pose proof (Cut_length _ _ _ _ Hc). destruct tm; simpl.
    + rewrite IH by lia. tauto.
    + rewrite topic_match_loop_exhausted by lia. tauto.
Qed.

(** The [$] rule: a topic that starts with [$] is matched only by a filter
    that does. *)
Definition dollar_compatible (filter topic : string) : Prop :=
  starts_with_dollar topic = true → starts_with_dollar filter = true.

Lemma starts_with_dollar_cut s a b more :
  starts_with_dollar s = true → Cut slash s = (a, b, more) →
  str_eqb a plus_lvl || str_eqb a hash_lvl = false.
Proof.
  destruct s as [|c s]; [done|]. unfold starts_with_dollar. simpl.
  intros Hc%Ascii.eqb_eq. subst c. simpl.
  destruct (Cut slash s) as [[a' b'] m]. intros; simplify_eq. done.
Qed.

(** [TopicMatch] decides the level-wise wildcard relation together with the
    [$] rule; the loop needs no more iterations than the filter has bytes. *)
Lemma TopicMatch_iff filter topic :
  TopicMatch filter topic = true ↔
  filter ≠ EmptyString ∧ topic ≠ EmptyString ∧
  dollar_compatible filter topic ∧ walk_match (levels filter) (levels topic).
Proof.
  unfold TopicMatch, dollar_compatible.
  destruct (str_eqb filter EmptyString) eqn:Ef; cbn [andb orb negb].
  { apply str_eqb_true in Ef. naive_solver. }
  destruct (str_eqb topic EmptyString) eqn:Et; cbn [andb orb negb].
  { apply str_eqb_true in Et. naive_solver. }
  apply str_eqb_false in Ef. apply str_eqb_false in Et.
  destruct (str_eqb filter topic) eqn:E.
  { apply str_eqb_true in E as ->. split; [|done]. intros _.
    repeat split; auto. apply walk_match_refl. }
  destruct (starts_with_dollar topic) eqn:Hd; cbn [andb orb negb].
  - destruct (starts_with_dollar filter) eqn:Hf; cbn [andb orb negb]; [|naive_solver].
    destruct (Cut slash filter) as [[a b] m] eqn:Hc.
    rewrite (starts_with_dollar_cut _ _ _ _ Hf Hc).
    rewrite topic_match_loop_spec by lia. naive_solver.
  - rewrite topic_match_loop_spec by lia. naive_solver.
Qed.

(** ** Validation *)

(** The MQTT grammar of a (non-shared) filter: [#] only as the whole last
    level, [+] only as a whole level. *)
Definition wf_filter_levels (ls : list string) : Prop :=
  ∀ i l, ls !! i = Some l →
    (Contains l hash_c = true → l = hash_lvl ∧ S i = length ls) ∧
    (Contains l plus_c = true → l = plus_lvl).

Lemma check_levels_spec ls : ∀ i n,
  n = (i + length ls)%nat →
  check_levels i n ls = Ret tt ↔
  ∀ j l, ls !! j = Some l →
    (Contains l hash_c = true → l = hash_lvl ∧ S (i + j) = n) ∧
    (Contains l plus_c = true → l = plus_lvl).
Proof.
  induction ls as [|l ls IH]; intros i n Hn; simpl in *.
  { split; [|done]. intros _ j l Hj. by rewrite lookup_nil in Hj. }
  assert (Hhd : check_levels (S i) n ls = Ret tt ↔ ∀ j l', ls !! j = Some l' →
    (Contains l' hash_c = true → l' = hash_lvl ∧ S (S i + j) = n) ∧
    (Contains l' plus_c = true → l' = plus_lvl)) by (apply IH; lia).
  destruct (Contains l hash_c &&
            (negb (str_eqb l hash_lvl) || negb (i =? n - 1)%nat)) eqn:Eh.
  { split; [done|]. intros H. destruct (H 0%nat l eq_refl) as [H1 _].
    bool_prop. destruct H1 as [-> Hi]; [done|].
    rewrite str_eqb_refl in *. simpl in *.
    destruct (Nat.eqb_spec i (n - 1)); simpl in *; [done|lia]. }
  destruct (Contains l plus_c && negb (str_eqb l plus_lvl)) eqn:Ep.
  { split; [done|]. intros H. destruct (H 0%nat l eq_refl) as [_ H1].
    bool_prop. rewrite H1, str_eqb_refl in *; done. }
  rewrite Hhd. split.
  - intros H [|j] l' Hl; simpl in Hl; [|specialize (H j l' Hl); naive_solver lia].
    simplify_eq. split; intros Hc; rewrite Hc in *; simpl in *.
    + apply orb_false_iff in Eh as [E1%negb_false_iff E2%negb_false_iff].
      apply str_eqb_true in E1. apply Nat.eqb_eq in E2. split; [done|lia].
    + by apply negb_false_iff, str_eqb_true in Ep.
  - intros H j l' Hl. specialize (H (S j) l' Hl). naive_solver lia.
Qed.

Lemma HasPrefix_drop p s :
  HasPrefix s p = true → s = p +:+ drop_str (String.length p) s.
Proof.
  unfold HasPrefix. revert s. induction p as [|c p IH]; intros [|d s]; simpl; try done.
  destruct (ascii_dec c d) as [->|]; [|done]. intros H.
  change (String d s = String d (p +:+ drop_str (String.length p) s)).
  by rewrite <-(IH s H).
Qed.

Lemma HasPrefix_app p s : HasPrefix (p +:+ s) p = true.
Proof.
  unfold HasPrefix. induction p as [|c p IH]; [by destruct s|].
  change (String c p +:+ s) with (String c (p +:+ s)). simpl.
  destruct (ascii_dec c c); [done|congruence].
Qed.

(** What [ParseShared] accepts, and only that. *)
Lemma ParseShared_spec f a b :
  ParseShared f = (a, b, true) ↔
  f = share_prefix +:+ a +:+ String slash b ∧ Contains a slash = false.
Proof.
  unfold ParseShared, SplitN2. split.
  - destruct (HasPrefix f share_prefix) eqn:Hp; cbn [negb]; [|done].
    destruct (Cut slash (drop_str 7 f)) as [[a' b'] m] eqn:Hc.
    destruct m; intros; simplify_eq. split; [|exact (Cut_no_sep _ _ _ _ _ Hc)].
    rewrite (HasPrefix_drop _ _ Hp) at 1. by rewrite (Cut_more_true _ _ _ _ Hc) at 1.
  - intros [-> Ha]. rewrite HasPrefix_app.
    change (drop_str 7 (share_prefix +:+ ?x)) with x. by rewrite Cut_app.
Qed.

Lemma ParseShared_false f a b : ParseShared f = (a, b, false) → a = EmptyString ∧ b = f.
Proof.
  unfold ParseShared, SplitN2. destruct (HasPrefix f share_prefix); cbn [negb];
    [|naive_solver].
  destruct (Cut slash (drop_str 7 f)) as [[a' b'] [|]]; naive_solver.
Qed.

Lemma ParseShared_IsShared f a b : ParseShared f = (a, b, true) → IsShared f = true.
Proof. intros [-> _]%ParseShared_spec. apply HasPrefix_app. Qed.

Lemma check_levels_wf ls :
  check_levels 0 (length ls) ls = Ret tt ↔ wf_filter_levels ls.
Proof. apply check_levels_spec. lia. Qed.

(** The filters MQTT allows: valid UTF-8 without NUL, and either an ordinary
    filter or [$share/{name}/{filter}] with a wildcard-free, non-empty name. *)
Definition wf_filter (f : string) : Prop :=
  f ≠ EmptyString ∧ ValidString f = true ∧ Contains f nul = false ∧
  ((IsShared f = false ∧ wf_filter_levels (levels f)) ∨
   ∃ name tf, f = share_prefix +:+ name +:+ String slash tf ∧
     Contains name slash = false ∧ name ≠ EmptyString ∧
     Contains name plus_c = false ∧ Contains name hash_c = false ∧
     tf ≠ EmptyString ∧ wf_filter_levels (levels tf)).

Section validate.
Variable f : string.
Hypothesis f_nonempty : f ≠ EmptyString.
Hypothesis f_utf8 : ValidString f = true.
Hypothesis f_no_nul : Contains f nul = false.

  (** The checks of a filter that parsed as a shared subscription. *)
Lemma ValidateTopicFilter_shared name tf :
    ParseShared f = (name, tf, true) →
    ValidateTopicFilter f = Ret tt ↔
    name ≠ EmptyString ∧ Contains name plus_c = false ∧
    Contains name hash_c = false ∧ tf ≠ EmptyString ∧ wf_filter_levels (levels tf).
  Proof.
    intros Hp. unfold ValidateTopicFilter.
    rewrite (proj2 (str_eqb_false _ _) f_nonempty), f_utf8, f_no_nul, Hp,
      (ParseShared_IsShared _ _ _ Hp), <-check_levels_wf.
    unfold ContainsAny. cbn [negb andb orb existsb].
    destruct (str_eqb name EmptyString) eqn:E4; cbn [negb andb orb].
    { apply str_eqb_true in E4. split; [done|intros [? _]; done]. }
    apply str_eqb_false in E4.
    destruct (Contains name plus_c), (Contains name hash_c); cbn [negb andb orb];
      try (split; [done|intros (_ & ? & ? & _); done]).
    destruct (str_eqb tf EmptyString) eqn:E7; cbn [negb andb orb].
    { apply str_eqb_true in E7. split; [done|intros (_ & _ & _ & ? & _); done]. }
    apply str_eqb_false in E7. tauto.
  Qed.

  (** The checks of a filter that did not. *)
Lemma ValidateTopicFilter_plain a b :
    ParseShared f = (a, b, false) →
    ValidateTopicFilter f = Ret tt ↔
    IsShared f = false ∧ wf_filter_levels (levels f).
  Proof.
    intros Hp. unfold ValidateTopicFilter.
    rewrite (proj2 (str_eqb_false _ _) f_nonempty), f_utf8, f_no_nul, Hp, <-check_levels_wf.
    cbn [negb andb orb]. rewrite andb_true_r.
    destruct (IsShared f); [split; [done|intros [? _]; done]|tauto].
  Qed.
End validate.

Lemma ValidateTopicFilter_iff f :
  ValidateTopicFilter f = Ret tt ↔ wf_filter f.
Proof.
  unfold wf_filter.
  destruct (decide (f = EmptyString)) as [->|E1].
  { split; [done|intros [? _]; done]. }
  destruct (ValidString f) eqn:E2; [destruct (Contains f nul) eqn:E3|].
  1, 3: unfold ValidateTopicFilter; rewrite (proj2 (str_eqb_false _ _) E1), E2, ?E3;
    split; [done|intros (_ & ? & ? & _); done].
  destruct (ParseShared f) as [[name tf] [|]] eqn:Hp.
  - rewrite (ValidateTopicFilter_shared f E1 E2 E3 _ _ Hp).
    pose proof (ParseShared_IsShared _ _ _ Hp) as Hs.
    apply ParseShared_spec in Hp as Hf. split.
    + intros (? & ? & ? & ? & ?). split_and!; [done..|]. right.
      exists name, tf. destruct Hf. by split_and!.
    + intros (_ & _ & _ & [[? _]|(n' & t' & Hf' & Hs' & ? & ? & ? & ? & ?)]);
        [congruence|].
      assert (Hq : ParseShared f = (n', t', true)) by by apply ParseShared_spec.
      rewrite Hp in Hq. simplify_eq. by split_and!.
  - rewrite (ValidateTopicFilter_plain f E1 E2 E3 _ _ Hp). split.
    + intros [? ?]. split_and!; [done..|]. by left.
    + intros (_ & _ & _ & [?|(n' & t' & Hf' & Hs' & _)]); [done|].
      rewrite (proj2 (ParseShared_spec f n' t')) in Hp by done. done.
Qed.

Lemma check_levels_total ls : ∀ i n,
  check_levels i n ls = Ret tt ∨ check_levels i n ls = Fail ErrInvalidTopicFilter.
Proof. induction ls as [|l ls IH]; intros i n; simpl; [by left|]. repeat case_match; auto. Qed.

Lemma ValidateTopicFilter_total f :
  ValidateTopicFilter f = Ret tt ∨ ValidateTopicFilter f = Fail ErrInvalidTopicFilter.
Proof.
  unfold ValidateTopicFilter. destruct (ParseShared f) as [[name tf] shared].
  repeat case_match; auto using check_levels_total.
Qed.

(** A validated filter has its [#] last, so the walk of [TopicMatch] is the
    MQTT rule on it. *)
Lemma wf_levels_hash_last ls : wf_filter_levels ls → hash_last ls.
Proof.
  induction ls as [|l ls IH]; intros Hw; simpl; [done|]. split.
  - intros ->. destruct (Hw 0%nat hash_lvl eq_refl) as [Hh _].
    destruct Hh as [_ Hlen]; [done|]. simpl in Hlen. destruct ls; [done|simpl in *; lia].
  - apply IH. intros i l' Hl. destruct (Hw (S i) l' Hl) as [H1 H2]. split; [|done].
    intros Hc. destruct (H1 Hc) as [-> ?]. split; [done|]. simpl in *. lia.
Qed.

Lemma levels_shared name tf :
  Contains name slash = false →
  levels (share_prefix +:+ name +:+ String slash tf) =
  "$share"%string :: name :: levels tf.
Proof.
  intros Hn. unfold levels, share_prefix.
  rewrite Split_Cut.
  change ("$share/" +:+ name +:+ String slash tf)%string
    with ("$share" +:+ String slash (name +:+ String slash tf))%string.
  rewrite Cut_app by done. f_equal. rewrite Split_Cut, Cut_app by done. done.
Qed.

Lemma valid_filter_hash_last f :
  ValidateTopicFilter f = Ret tt → hash_last (levels f).
Proof.
  intros (_ & _ & _ & [[_ Hw]|(name & tf & -> & Hs & Hne & Hp & Hh & Htf & Hw)])
    %ValidateTopicFilter_iff; [by apply wf_levels_hash_last|].
  rewrite levels_shared by done. simpl. split_and!; [done| |by apply wf_levels_hash_last].
  intros ->. done.
Qed.

(** On a filter that passed validation, [TopicMatch] is the MQTT wildcard rule
    with [#] as last level. *)
Lemma TopicMatch_valid filter topic :
  ValidateTopicFilter filter = Ret tt →
  TopicMatch filter topic = true ↔
  topic ≠ EmptyString ∧ dollar_compatible filter topic ∧
  mqtt_match (levels filter) (levels topic).
Proof.
  intros Hv. rewrite TopicMatch_iff, walk_mqtt by by apply valid_filter_hash_last.
  apply ValidateTopicFilter_iff in Hv as [? _]. naive_solver.
Qed.

(** C19 [TopicMatch], which cuts both strings level by level, decides the
    level-wise wildcard relation together with the [$] rule for every pair of
    strings; on a filter that [ValidateTopicFilter] accepts, that relation is
    the MQTT one, in which [#] is the last level. *)
Theorem TopicMatch_walk filter topic :
  (TopicMatch filter topic = true ↔
   filter ≠ EmptyString ∧ topic ≠ EmptyString ∧
   dollar_compatible filter topic ∧ walk_match (levels filter) (levels topic)) ∧
  (ValidateTopicFilter filter = Ret tt →
   TopicMatch filter topic = true ↔
   topic ≠ EmptyString ∧ dollar_compatible filter topic ∧
   mqtt_match (levels filter) (levels topic)).
Proof. split; [apply TopicMatch_iff|apply TopicMatch_valid]. Qed.

(** [ValidateTopicFilter] accepts exactly the filters of the MQTT grammar,
    shared subscriptions included, and answers [ErrInvalidTopicFilter] for
    every other string. *)
Theorem ValidateTopicFilter_spec f :
  (ValidateTopicFilter f = Ret tt ∧ wf_filter f) ∨
  (ValidateTopicFilter f = Fail ErrInvalidTopicFilter ∧ ¬ wf_filter f).
Proof.
  rewrite <-ValidateTopicFilter_iff.
  destruct (ValidateTopicFilter_total f) as [->| ->]; naive_solver.
Qed.

(** A filter that starts with [$] matches no topic that does not. *)
Lemma mqtt_match_dollar filter topic :
  starts_with_dollar filter = true → starts_with_dollar topic = false →
  topic ≠ EmptyString → ¬ mqtt_match (levels filter) (levels topic).
Proof.
  intros Hf Ht Hne Hm.
  destruct filter as [|c f]; [done|]. destruct topic as [|d t]; [done|].
  unfold starts_with_dollar in *. simpl in *.
  apply Ascii.eqb_eq in Hf as ->. unfold levels in *. simpl in *.
  destruct (Split_nonempty slash f) as (h & fs & Ef). rewrite Ef in Hm.
  destruct (Ascii.eqb d slash) eqn:Ed.
  - inversion Hm.
  - destruct (Split_nonempty slash t) as (h' & ts & Et). rewrite Et in Hm.
    inversion Hm; subst. by rewrite Ascii.eqb_refl in Ht.
Qed.

(** A topic that may be published has no wildcard level. *)
Lemma valid_topic_no_wildcard topic l :
  ValidateTopicName topic = Ret tt → l ∈ levels topic → l ≠ plus_lvl ∧ l ≠ hash_lvl.
Proof.
  unfold ValidateTopicName. destruct (str_eqb topic EmptyString); [done|].
  destruct (Contains topic plus_c) eqn:Hp, (Contains topic hash_c) eqn:Hh; try done.
  intros _ Hl. split; intros ->.
  - by pose proof (Contains_level slash plus_c topic plus_lvl Hl Hp).
  - by pose proof (Contains_level slash hash_c topic hash_lvl Hl Hh).
Qed.

(** ** Translation between AMQP and MQTT *)

Lemma ContainsAny2 s a b : ContainsAny s [a; b] = Contains s a || Contains s b.
Proof. unfold ContainsAny. simpl. by rewrite orb_false_r. Qed.

Lemma ReplaceAll_absent s a b : Contains s a = false → ReplaceAll s a b = s.
Proof.
  intros H. apply map_str_id. intros c Hc.
  destruct (Ascii.eqb_spec c a) as [->|]; congruence.
Qed.

Lemma AMQPTopicToMQTT_map t : AMQPTopicToMQTT t = ReplaceAll t dot slash.
Proof.
  unfold AMQPTopicToMQTT. destruct (str_eqb t EmptyString) eqn:E.
  { by apply str_eqb_true in E as ->. }
  destruct (Contains t dot) eqn:Hd; simpl; [done|]. by rewrite ReplaceAll_absent.
Qed.

Lemma MQTTTopicToAMQP_map t : MQTTTopicToAMQP t = ReplaceAll t slash dot.
Proof.
  unfold MQTTTopicToAMQP. destruct (str_eqb t EmptyString) eqn:E.
  { by apply str_eqb_true in E as ->. }
  destruct (Contains t slash) eqn:Hd; simpl; [done|]. by rewrite ReplaceAll_absent.
Qed.

Lemma ReplaceAll_inverse s a b :
  Contains s b = false → ReplaceAll (ReplaceAll s a b) b a = s.
Proof.
  intros H. unfold ReplaceAll. rewrite map_str_compose. apply map_str_id.
  intros c Hc. simpl.
  destruct (Ascii.eqb_spec c a) as [->|]; [by rewrite Ascii.eqb_refl|].
  destruct (Ascii.eqb_spec c b) as [->|]; [congruence|done].
Qed.

Lemma Split_ReplaceAll s a b :
  Contains s b = false → Split b (ReplaceAll s a b) = Split a s.
Proof.
  induction s as [|c s IH]; simpl; intros H; [done|].
  apply orb_false_iff in H as [H1 H2]. unfold ReplaceAll in *. simpl.
  destruct (Ascii.eqb_spec c a) as [->|].
  - rewrite Ascii.eqb_refl. by rewrite IH.
  - rewrite H1. by rewrite IH.
Qed.

Definition star_to_plus (c : ascii) : ascii := if Ascii.eqb c star_c then plus_c else c.

Lemma AMQPFilterToMQTT_map f :
  AMQPFilterToMQTT f = map_str star_to_plus (ReplaceAll f dot slash).
Proof.
  unfold AMQPFilterToMQTT, ReplaceAll. rewrite map_str_compose.
  destruct (str_eqb f EmptyString) eqn:E.
  { by apply str_eqb_true in E as ->. }
  rewrite ContainsAny2.
  destruct (Contains f dot) eqn:Hd, (Contains f star_c) eqn:Hs; simpl;
    try (clear; induction f as [|c f IH]; simpl; [done|]; rewrite IH; f_equal;
         unfold star_to_plus; destruct (Ascii.eqb_spec c dot) as [->|]; done).
  symmetry. apply map_str_id. intros c Hc. unfold star_to_plus. simpl.
  destruct (Ascii.eqb_spec c dot) as [->|]; [congruence|].
  destruct (Ascii.eqb_spec c star_c) as [->|]; [congruence|done].
Qed.

Lemma Split_map_str g sep s :
  (∀ c, Ascii.eqb (g c) sep = Ascii.eqb c sep) →
  Split sep (map_str g s) = map_str g <$> Split sep s.
Proof.
  intros Hg. induction s as [|c s IH]; simpl; [done|].
  rewrite Hg, IH. destruct (Ascii.eqb c sep); [done|].
  by destruct (Split_nonempty sep s) as (h & t & ->).
Qed.

(** The AMQP/MQTT topic translations are inverse to each other where the
    target separator is absent and keep the level structure; the filter
    translation turns each AMQP level into the MQTT level with [*] as [+]. *)
Theorem translate_roundtrip t :
  (Contains t slash = false →
     MQTTTopicToAMQP (AMQPTopicToMQTT t) = t ∧
     levels (AMQPTopicToMQTT t) = Split dot t ∧
     levels (AMQPFilterToMQTT t) = map_str star_to_plus <$> Split dot t) ∧
  (Contains t dot = false →
     AMQPTopicToMQTT (MQTTTopicToAMQP t) = t ∧
     Split dot (MQTTTopicToAMQP t) = levels t).
Proof.
  rewrite !AMQPTopicToMQTT_map, !MQTTTopicToAMQP_map, AMQPFilterToMQTT_map. unfold levels.
  split; intros H; split_and!; auto using ReplaceAll_inverse, Split_ReplaceAll.
  rewrite Split_map_str, Split_ReplaceAll by done || (intros c; unfold star_to_plus;
    destruct (Ascii.eqb_spec c star_c) as [->|]; done). done.
Qed.

(** ** Share groups *)

Module SharedFacts.
Import Shared.

Definition ids (g : ShareGroup) : list string := ClientID <$> Subscribers g.

(** The invariant of a share group: member ids are distinct and the rotation
    points into the group (or is 0 when the group is empty). *)
Definition share_wf (g : ShareGroup) : Prop :=
  NoDup (ids g) ∧ (lastIndex g < Nat.max 1 (length (Subscribers g)))%nat.

Lemma find_client_Some l c i :
  find_client l c = Some i → ∃ s, l !! i = Some s ∧ ClientID s = c.
Proof.
  revert i. induction l as [|s l IH]; simpl; intros i H; [done|].
  destruct (str_eqb (ClientID s) c) eqn:E.
  - simplify_eq. apply str_eqb_true in E. eauto.
  - destruct (find_client l c) as [j|]; simplify_eq/=. by apply IH.
Qed.

Lemma find_client_None l c : find_client l c = None ↔ c ∉ (ClientID <$> l).
Proof.
  induction l as [|s l IH]; simpl; [by split; [intros _; apply not_elem_of_nil|]|].
  rewrite not_elem_of_cons. destruct (str_eqb (ClientID s) c) eqn:E.
  - apply str_eqb_true in E. naive_solver.
  - apply str_eqb_false in E. rewrite fmap_None. naive_solver.
Qed.

Lemma fmap_alter_ids (l : list ShareSubscriber) (i : nat) q :
  ClientID <$> alter (λ s, mkShareSubscriber (ClientID s) q) i l = ClientID <$> l.
Proof.
  revert i. induction l as [|s l IH]; intros [|i]; [done..|].
  cbn. f_equal. apply IH.
Qed.

(** Adding a client keeps its single membership; removing it removes exactly
    it. *)
Lemma AddSubscriber_ids g c q :
  ids (AddSubscriber g c q).2 = if decide (c ∈ ids g) then ids g else ids g ++ [c].
Proof.
  unfold AddSubscriber, ids. destruct (find_client (Subscribers g) c) as [i|] eqn:E; simpl.
  - rewrite fmap_alter_ids. rewrite decide_True; [done|].
    apply find_client_Some in E as (s & Hs & <-).
    apply list_elem_of_fmap. eauto using list_elem_of_lookup_2.
  - apply find_client_None in E. rewrite decide_False by done.
    by rewrite fmap_app.
Qed.

Lemma RemoveSubscriber_perm g c :
  match RemoveSubscriber g c with
  | (true, g') => ∃ s, ClientID s = c ∧ s :: Subscribers g' ≡ₚ Subscribers g
  | (false, g') => g' = g ∧ c ∉ ids g
  end.
Proof.
  unfold RemoveSubscriber. destruct (find_client (Subscribers g) c) as [i|] eqn:E.
  - apply find_client_Some in E as (s & Hs & Hc). exists s. split; [done|].
    pose proof (lookup_lt_Some _ _ _ Hs) as Hlt.
    destruct (lookup_lt_is_Some_2 (Subscribers g) (length (Subscribers g) - 1))
      as [z Hz]; [lia|].
    rewrite Hz. etrans; [|exact (swap_remove_perm _ _ _ _ Hs Hz)].
    by destruct (_ && _).
  - by apply find_client_None in E.
Qed.

(** The three mutators of a share group, as transitions. *)
Inductive share_step : ShareGroup → ShareGroup → Prop :=
| share_add g c q : share_step g (AddSubscriber g c q).2
| share_remove g c : share_step g (RemoveSubscriber g c).2
| share_next g r g' : NextSubscriber g = Ret (r, g') → share_step g g'.

Definition empty_group (name filter : string) : ShareGroup := mkShareGroup name filter [] 0.

Lemma share_step_wf g g' : share_step g g' → share_wf g → share_wf g'.
Proof.
  intros Hs [Hnd Hi]. destruct Hs as [g c q|g c|g r g' Hn].
  - split; [rewrite AddSubscriber_ids|].
    + case_decide; [done|]. apply NoDup_app. split_and!; [done| |apply NoDup_singleton].
      intros x Hx ->%list_elem_of_singleton. done.
    + unfold AddSubscriber. destruct (find_client _ c); simpl;
        rewrite ?length_alter, ?length_app; simpl; lia.
  - pose proof (RemoveSubscriber_perm g c) as Hp.
    destruct (RemoveSubscriber g c) as [[|] g'] eqn:E; simpl in *.
    + destruct Hp as (s & _ & Hp). pose proof (Permutation_length Hp) as Hl. simpl in Hl.
      split.
      { unfold ids in *. rewrite <-Hp in Hnd. by apply NoDup_cons in Hnd as [_ ?]. }
      unfold RemoveSubscriber in E. destruct (find_client _ c); [|done].
      destruct ((_ <=? _)%nat && _) eqn:Eb in E; simplify_eq; simpl in *; [lia|].
      apply andb_false_iff in Eb as [Eb%Nat.leb_gt|Eb%Nat.ltb_ge]; simpl in *; lia.
    + by destruct Hp as [-> _].
  - unfold NextSubscriber in Hn. destruct (Subscribers g) as [|s0 l] eqn:El.
    { simplify_eq. split; [done|]. by rewrite El. }
    rewrite <-El in Hn. destruct (Subscribers g !! lastIndex g); simplify_eq.
    split; [done|]. simpl. rewrite El. simpl.
    pose proof (Nat.mod_upper_bound (lastIndex g + 1) (S (length l))). lia.
Qed.

(** In every state a share group can reach from the empty group, member
    ids are distinct, the rotation index is in range, and so the next
    rotation step does not panic. *)
Theorem share_group_safe name filter g :
  rtc share_step (empty_group name filter) g →
  share_wf g ∧ ∃ r g', NextSubscriber g = Ret (r, g').
Proof.
  intros Hr. assert (Hwf : share_wf g).
  { remember (empty_group name filter) as g0 eqn:E0.
    assert (share_wf g0) by (subst; split; [constructor|simpl; lia]).
    clear E0. induction Hr; eauto using share_step_wf. }
  split; [done|]. destruct Hwf as [_ Hi]. unfold NextSubscriber.
  destruct (Subscribers g) as [|s l] eqn:E; [eauto|]. rewrite <-E in *.
  destruct (lookup_lt_is_Some_2 (Subscribers g) (lastIndex g)) as [x ->]; [|eauto].
  rewrite E in *. simpl in *. lia.
Qed.

(** [k] consecutive deliveries to the group. *)
Fixpoint next_n (k : nat) (g : ShareGroup) : outcome unit (list string * ShareGroup) :=
  match k with
  | O => Ret ([], g)
  | S k' => '(r, g1) ← NextSubscriber g; '(rs, g2) ← next_n k' g1; Ret (r :: rs, g2)
  end.

Lemma NextSubscriber_at g s :
  Subscribers g !! lastIndex g = Some s →
  NextSubscriber g =
  Ret (ClientID s, set_lastIndex g ((lastIndex g + 1) mod length (Subscribers g))%nat).
Proof.
  intros Hs. unfold NextSubscriber. rewrite Hs. by destruct (Subscribers g).
Qed.

Lemma next_n_add a b g :
  next_n (a + b) g =
  '(r1, g1) ← next_n a g; '(r2, g2) ← next_n b g1; Ret (r1 ++ r2, g2).
Proof.
  revert g. induction a as [|a IH]; intros g; simpl.
  - unfold mbind, outcome_bind. destruct (next_n b g) as [[]| |]; done.
  - unfold mbind, outcome_bind in *. destruct (NextSubscriber g) as [[r g1]| |]; [|done..].
    rewrite IH. destruct (next_n a g1) as [[r1 g2]| |]; [|done..].
    destruct (next_n b g2) as [[r2 g3]| |]; done.
Qed.

(** A run of deliveries that does not go past the end of the member slice. *)
Lemma next_n_run k : ∀ g,
  (lastIndex g + k ≤ length (Subscribers g))%nat →
  (lastIndex g < length (Subscribers g))%nat →
  next_n k g = Ret (take k (drop (lastIndex g) (ids g)),
                    set_lastIndex g ((lastIndex g + k) mod length (Subscribers g))%nat).
Proof.
  induction k as [|k IH]; intros g Hk Hi; simpl.
  { rewrite Nat.add_0_r, Nat.mod_small by done. by destruct g. }
  destruct (lookup_lt_is_Some_2 (Subscribers g) (lastIndex g) Hi) as [s Hs].
  rewrite (NextSubscriber_at g s Hs). unfold mbind, outcome_bind.
  assert (Hd : drop (lastIndex g) (ids g) = ClientID s :: drop (S (lastIndex g)) (ids g)).
  { apply drop_S. unfold ids. by rewrite list_lookup_fmap, Hs. }
  rewrite Hd. destruct (decide (S (lastIndex g) = length (Subscribers g))) as [He|].
  - assert (k = 0)%nat as -> by lia. simpl. done.
  - rewrite IH; simpl; rewrite !(Nat.mod_small (lastIndex g + 1)) by lia; try lia.
    rewrite Nat.add_1_r. do 2 f_equal. f_equal. f_equal. lia.
Qed.

(** Round robin is fair: as many deliveries as the group has members serve
    every member exactly once, in the order of the slice from the rotation
    point on, and leave the group as it was. *)
Theorem next_n_fair g :
  share_wf g → Subscribers g ≠ [] →
  next_n (length (Subscribers g)) g =
    Ret (drop (lastIndex g) (ids g) ++ take (lastIndex g) (ids g), g) ∧
  NoDup (drop (lastIndex g) (ids g) ++ take (lastIndex g) (ids g)) ∧
  drop (lastIndex g) (ids g) ++ take (lastIndex g) (ids g) ≡ₚ ids g.
Proof.
  intros [Hnd Hi] Hne.
  assert (Hlt : (lastIndex g < length (Subscribers g))%nat).
  { destruct (Subscribers g); simpl in *; [done|lia]. }
  assert (Hp : drop (lastIndex g) (ids g) ++ take (lastIndex g) (ids g) ≡ₚ ids g).
  { rewrite Permutation_app_comm. by rewrite take_drop. }
  split_and!; [|by rewrite Hp|done].
  set (n := length (Subscribers g)) in *.
  assert (Hlen : length (ids g) = n) by apply length_fmap.
  replace n with ((n - lastIndex g) + lastIndex g)%nat at 1 by lia.
  rewrite next_n_add, next_n_run by lia. unfold mbind, outcome_bind. fold n.
  replace (lastIndex g + (n - lastIndex g))%nat with n by lia.
  rewrite Nat.Div0.mod_same, next_n_run by (simpl; lia). simpl. fold n.
  rewrite take_ge by (rewrite length_drop; lia).
  rewrite Nat.mod_small by lia. by destruct g.
Qed.

Lemma next_n_fair_witness :
  share_wf (mkShareGroup "g" "t" [mkShareSubscriber "a" 0; mkShareSubscriber "b" 1;
                                  mkShareSubscriber "c" 2] 1) ∧
  next_n 3 (mkShareGroup "g" "t" [mkShareSubscriber "a" 0; mkShareSubscriber "b" 1;
                                  mkShareSubscriber "c" 2] 1) =
  Ret (["b"; "c"; "a"]%string,
       mkShareGroup "g" "t" [mkShareSubscriber "a" 0; mkShareSubscriber "b" 1;
                             mkShareSubscriber "c" 2] 1).
Proof.
  assert (Hw : share_wf (mkShareGroup "g" "t"
     [mkShareSubscriber "a" 0; mkShareSubscriber "b" 1; mkShareSubscriber "c" 2] 1)).
  { split; [|simpl; lia]. apply (bool_decide_unpack _). by vm_compute. }
  split; [exact Hw|]. exact (proj1 (next_n_fair _ Hw ltac:(discriminate))).
Defined.

Lemma share_group_safe_witness :
  ∃ r g', NextSubscriber (AddSubscriber (empty_group "g" "t") "a" 1).2 = Ret (r, g').
Proof.
  exact (proj2 (share_group_safe "g" "t" _
           (rtc_once _ _ (share_add (empty_group "g" "t") "a" 1)))).
Defined.
End SharedFacts.
