(* ===== verification/TopicIndex.v ===== *)
(** * The topic-to-queue index (src/queue/storage/patterntrie.go, topic.go)

    A [patternTrie] is a tree of [patternNode]s keyed on topic levels; the
    tree is the record the code mutates in place, rebuilt functionally along
    the walked path.  [TopicIndex] holds two of them, split on the leading
    [$], and the map from queue names to their patterns.

    The abstract view of a trie is [bound ls n]: the queues bound at the path
    [ls].  [add], [remove] and [match] are characterised through it, and the
    index is proved to answer exactly what a linear scan with [TopicMatch]
    over all registered patterns would ([FindMatching_spec]). *)

From Stdlib Require Import ZArith Lia Bool Ascii String.
From stdpp Require Import prelude gmap strings.
From S2P Require Import Prelude GoStrings Topics.

(** ** patterntrie.go *)

Inductive patternNode : Type :=
| PNode (children : gmap string patternNode) (queues : list string).

Definition pchildren (n : patternNode) : gmap string patternNode :=
  let 'PNode cs _ := n in cs.
Definition pqueues (n : patternNode) : list string := let 'PNode _ qs := n in qs.

Definition newPatternNode : patternNode := PNode ∅ [].

(** [node.queues = append(node.queues, queueName)] unless already present. *)
Definition bind_queue (n : patternNode) (queueName : string) : patternNode :=
  if existsb (str_eqb queueName) (pqueues n) then n
  else PNode (pchildren n) (pqueues n ++ [queueName]).

(** The walk of [patternTrie.add]: a missing child is created, the queue is
    bound at the last level.  One level is cut per iteration, so
    [S (length pattern)] iterations suffice. *)
Fixpoint trie_add (fuel : nat) (node : patternNode) (remaining queueName : string) :
    patternNode :=
  match fuel with
  | O => node
  | S fuel =>
      let '(level, rest, more) := Cut slash remaining in
      let child := default newPatternNode (pchildren node !! level) in
      let child' := if (more : bool) then trie_add fuel child rest queueName
                    else bind_queue child queueName in
      PNode (<[level := child']> (pchildren node)) (pqueues node)
  end.

(** Delete the first occurrence of [q]. *)
Fixpoint remove_first (q : string) (l : list string) : list string :=
  match l with
  | [] => []
  | x :: l' => if str_eqb x q then l' else x :: remove_first q l'
  end.

(** [removeQueueFromPattern], with the pruning of the child on the way out. *)
Fixpoint removeQueueFromPattern (fuel : nat) (node : patternNode)
    (remaining queueName : string) : patternNode :=
  match fuel with
  | O => node
  | S fuel =>
      let '(level, rest, more) := Cut slash remaining in
      match pchildren node !! level with
      | None => node
      | Some child =>
          let child' :=
            if (more : bool) then removeQueueFromPattern fuel child rest queueName
            else PNode (pchildren child) (remove_first queueName (pqueues child)) in
          if bool_decide (pqueues child' = []) && bool_decide (size (pchildren child') = 0%nat)
          then PNode (delete level (pchildren node)) (pqueues node)
          else PNode (<[level := child']> (pchildren node)) (pqueues node)
      end
  end.

(** ** topic.go: the result accumulator *)

Definition matchedQueuesMapThreshold : nat := 16.

(** [seen = nil] is [None]. *)
Record matchedQueues := mkMatched { names : list string; seen : option (gset string) }.

Definition matched_zero : matchedQueues := mkMatched [] None.

Definition matched_add (m : matchedQueues) (queueName : string) : matchedQueues :=
  match seen m with
  | Some s =>
      if bool_decide (queueName ∈ s) then m
      else mkMatched (names m ++ [queueName]) (Some ({[queueName]} ∪ s))
  | None =>
      if existsb (str_eqb queueName) (names m) then m
      else
        let names' := names m ++ [queueName] in
        if (length names' =? matchedQueuesMapThreshold)%nat
        then mkMatched names' (Some (list_to_set names'))
        else mkMatched names' None
  end.

Definition collectQueues (node : patternNode) (matched : matchedQueues) : matchedQueues :=
  fold_left matched_add (pqueues node) matched.

(** [matchPatternNode]; a call consumes one level, then the [consumed] call
    returns, so [S (S (length topic))] nested calls suffice. *)
Fixpoint matchPatternNode (fuel : nat) (node : patternNode) (remaining : string)
    (consumed : bool) (matched : matchedQueues) : matchedQueues :=
  match fuel with
  | O => matched
  | S fuel =>
      if consumed then
        let matched := collectQueues node matched in
        match pchildren node !! hash_lvl with
        | Some child => collectQueues child matched
        | None => matched
        end
      else
        let '(level, rest, more) := Cut slash remaining in
        let matched :=
          match pchildren node !! level with
          | Some child => matchPatternNode fuel child rest (negb more) matched
          | None => matched
          end in
        let matched :=
          match pchildren node !! plus_lvl with
          | Some child => matchPatternNode fuel child rest (negb more) matched
          | None => matched
          end in
        match pchildren node !! hash_lvl with
        | Some child => collectQueues child matched
        | None => matched
        end
  end.

(** The three methods of [patternTrie]. *)
Definition patternTrie_add (root : patternNode) (pattern queueName : string) : patternNode :=
  trie_add (S (String.length pattern)) root pattern queueName.
Definition patternTrie_remove (root : patternNode) (pattern queueName : string) : patternNode :=
  removeQueueFromPattern (S (String.length pattern)) root pattern queueName.
Definition patternTrie_match (root : patternNode) (topic : string)
    (matched : matchedQueues) : matchedQueues :=
  matchPatternNode (S (S (String.length topic))) root topic false matched.

(** ** topic.go: the index *)

Record TopicIndex := mkTopicIndex {
  idx_queues : gmap string (list string);
  dollarPatterns : patternNode;
  plainPatterns : patternNode
}.

Definition NewTopicIndex : TopicIndex := mkTopicIndex ∅ newPatternNode newPatternNode.

Definition patternsFor (idx : TopicIndex) (patternOrTopic : string) : patternNode :=
  if starts_with_dollar patternOrTopic then dollarPatterns idx else plainPatterns idx.

(** Mutating the trie [patternsFor] returned. *)
Definition set_patternsFor (idx : TopicIndex) (p : string) (t : patternNode) : TopicIndex :=
  if starts_with_dollar p
  then mkTopicIndex (idx_queues idx) t (plainPatterns idx)
  else mkTopicIndex (idx_queues idx) (dollarPatterns idx) t.

(** The loops over a queue's patterns. *)
Definition add_patterns (q : string) (pats : list string) (idx : TopicIndex) : TopicIndex :=
  fold_left (λ i pattern,
    set_patternsFor i pattern (patternTrie_add (patternsFor i pattern) pattern q))
    pats idx.
Definition remove_patterns (q : string) (pats : list string) (idx : TopicIndex) : TopicIndex :=
  fold_left (λ i pattern,
    set_patternsFor i pattern (patternTrie_remove (patternsFor i pattern) pattern q))
    pats idx.

Definition removeQueueLocked (idx : TopicIndex) (queueName : string) : TopicIndex :=
  match idx_queues idx !! queueName with
  | None => idx
  | Some topicPatterns =>
      let idx' := remove_patterns queueName topicPatterns idx in
      mkTopicIndex (delete queueName (idx_queues idx'))
        (dollarPatterns idx') (plainPatterns idx')
  end.

Definition AddQueue (idx : TopicIndex) (queueName : string) (topicPatterns : list string) :
    TopicIndex :=
  let idx := removeQueueLocked idx queueName in
  let idx := mkTopicIndex (<[queueName := topicPatterns]> (idx_queues idx))
               (dollarPatterns idx) (plainPatterns idx) in
  add_patterns queueName topicPatterns idx.

Definition RemoveQueue (idx : TopicIndex) (queueName : string) : TopicIndex :=
  removeQueueLocked idx queueName.

Definition FindMatching (idx : TopicIndex) (topic : string) : list string :=
  if str_eqb topic EmptyString then []
  else names (patternTrie_match (patternsFor idx topic) topic matched_zero).

Definition GetQueues (idx : TopicIndex) : gmap string (list string) := idx_queues idx.
Definition QueueCount (idx : TopicIndex) : nat := size (idx_queues idx).
Definition GetQueueTopics (idx : TopicIndex) (queueName : string) : option (list string) :=
  idx_queues idx !! queueName.

(** * Properties *)

(** ** The walks as recursions on level lists *)

Fixpoint ladd (ls : list string) (q : string) (n : patternNode) : patternNode :=
  match ls with
  | [] => bind_queue n q
  | l :: ls' =>
      PNode (<[l := ladd ls' q (default newPatternNode (pchildren n !! l))]> (pchildren n))
        (pqueues n)
  end.

Definition dead (n : patternNode) : bool :=
  bool_decide (pqueues n = []) && bool_decide (size (pchildren n) = 0%nat).

Fixpoint lremove (ls : list string) (q : string) (n : patternNode) : patternNode :=
  match ls with
  | [] => PNode (pchildren n) (remove_first q (pqueues n))
  | l :: ls' =>
      match pchildren n !! l with
      | None => n
      | Some c =>
          let c' := lremove ls' q c in
          if dead c' then PNode (delete l (pchildren n)) (pqueues n)
          else PNode (<[l := c']> (pchildren n)) (pqueues n)
      end
  end.

Fixpoint lmatch (ts : list string) (n : patternNode) (m : matchedQueues) : matchedQueues :=
  match ts with
  | [] =>
      let m := collectQueues n m in
      match pchildren n !! hash_lvl with Some c => collectQueues c m | None => m end
  | t :: ts' =>
      let m := match pchildren n !! t with Some c => lmatch ts' c m | None => m end in
      let m := match pchildren n !! plus_lvl with Some c => lmatch ts' c m | None => m end in
      match pchildren n !! hash_lvl with Some c => collectQueues c m | None => m end
  end.

Lemma trie_add_levels rem q : ∀ fuel n,
  (String.length rem < fuel)%nat → trie_add fuel n rem q = ladd (levels rem) q n.
Proof.
  unfold levels. induction rem as [s a Hc Hs|s a b Hc Hs IH] using (cut_ind slash);
    intros [|fuel] n Hf; try lia; simpl; rewrite Hc, Hs; simpl; [done|].
  apply Cut_length in Hc. by rewrite IH by lia.
Qed.

Lemma removeQueueFromPattern_levels rem q : ∀ fuel n,
  (String.length rem < fuel)%nat →
  removeQueueFromPattern fuel n rem q = lremove (levels rem) q n.
Proof.
  unfold levels. induction rem as [s a Hc Hs|s a b Hc Hs IH] using (cut_ind slash);
    intros [|fuel] n Hf; try lia; simpl; rewrite Hc, Hs; simpl; [done|].
  apply Cut_length in Hc. destruct (pchildren n !! a); [|done]. by rewrite IH by lia.
Qed.

Lemma matchPatternNode_levels rem : ∀ fuel n m,
  (S (String.length rem) < fuel)%nat →
  matchPatternNode fuel n rem false m = lmatch (levels rem) n m.
Proof.
  assert (Hend : ∀ fuel n s m, (0 < fuel)%nat →
            matchPatternNode fuel n s true m = lmatch [] n m).
  { intros [|fuel] n s m Hf; [lia|done]. }
  unfold levels. induction rem as [s a Hc Hs|s a b Hc Hs IH] using (cut_ind slash);
    intros [|fuel] n m Hf; try lia; cbn [matchPatternNode]; rewrite Hc, Hs; cbn [lmatch negb].
  - destruct (pchildren n !! a), (pchildren n !! plus_lvl);
      rewrite ?Hend by lia; done.
  - apply Cut_length in Hc. destruct (pchildren n !! a), (pchildren n !! plus_lvl);
      rewrite ?IH by lia; done.
Qed.

(** ** The abstract view: queues bound at a path *)

Fixpoint bound (ls : list string) (n : patternNode) : list string :=
  match ls with
  | [] => pqueues n
  | l :: ls' => match pchildren n !! l with Some c => bound ls' c | None => [] end
  end.

Lemma bound_new ls : bound ls newPatternNode = [].
Proof. destruct ls; simpl; by rewrite ?lookup_empty. Qed.

Lemma bound_default ls o :
  bound ls (default newPatternNode o) =
  match o with Some c => bound ls c | None => [] end.
Proof. destruct o; simpl; [done|apply bound_new]. Qed.

Lemma existsb_str_eqb q l : existsb (str_eqb q) l = bool_decide (q ∈ l).
Proof.
  induction l as [|x l IH]; simpl; [done|]. rewrite IH.
  unfold str_eqb. repeat case_bool_decide; set_solver.
Qed.

Lemma pqueues_bind n q :
  pqueues (bind_queue n q) = if decide (q ∈ pqueues n) then pqueues n else pqueues n ++ [q].
Proof.
  unfold bind_queue. rewrite existsb_str_eqb.
  case_bool_decide; case_decide; done.
Qed.

Lemma pchildren_bind n q : pchildren (bind_queue n q) = pchildren n.
Proof. unfold bind_queue. by destruct (existsb _ _). Qed.

Lemma bound_ladd ls q : ∀ n p,
  bound p (ladd ls q n) =
  if decide (p = ls)
  then (if decide (q ∈ bound ls n) then bound ls n else bound ls n ++ [q])
  else bound p n.
Proof.
  induction ls as [|l ls IH]; intros n [|l' p]; cbn [bound ladd lremove pchildren pqueues].
  - apply pqueues_bind.
  - rewrite decide_False by done. by rewrite pchildren_bind.
  - by rewrite decide_False by done.
  - destruct (decide (l' = l)) as [->|].
    + rewrite lookup_insert_eq, IH, !bound_default.
      destruct (decide (p = ls)) as [->|].
      * rewrite (decide_True (P := l :: ls = l :: ls)) by done. done.
      * rewrite decide_False by congruence. by destruct (pchildren n !! l).
    + rewrite lookup_insert_ne, decide_False by congruence. done.
Qed.

Lemma dead_bound n p : dead n = true → bound p n = [].
Proof.
  unfold dead. intros [H1%bool_decide_eq_true H2%bool_decide_eq_true]%andb_true_iff.
  destruct p as [|l p]; simpl; [done|]. apply map_size_empty_iff in H2.
  by rewrite H2, lookup_empty.
Qed.

Lemma bound_lremove ls q : ∀ n p,
  bound p (lremove ls q n) =
  if decide (p = ls) then remove_first q (bound ls n) else bound p n.
Proof.
  induction ls as [|l ls IH]; intros n [|l' p]; cbn [bound ladd lremove pchildren pqueues].
  - done.
  - by rewrite decide_False by done.
  - rewrite decide_False by done. destruct (pchildren n !! l); [|done]. by destruct (dead _).
  - destruct (pchildren n !! l) as [c|] eqn:Hl; [|
      case_decide; [|done]; simplify_eq; by rewrite Hl].
    specialize (IH c p). destruct (dead (lremove ls q c)) eqn:Hd; cbn [pchildren pqueues].
    + apply dead_bound with (p := p) in Hd. rewrite Hd in IH.
      destruct (decide (l' = l)) as [->|].
      * rewrite lookup_delete_eq, Hl. rewrite IH. repeat case_decide; congruence.
      * rewrite lookup_delete_ne by congruence. by rewrite decide_False by congruence.
    + destruct (decide (l' = l)) as [->|].
      * rewrite lookup_insert_eq, Hl, IH. repeat case_decide; congruence.
      * rewrite lookup_insert_ne by congruence. by rewrite decide_False by congruence.
Qed.

(** ** The accumulator keeps distinct names, in first-match order *)

Definition matched_ok (m : matchedQueues) : Prop :=
  NoDup (names m) ∧ match seen m with Some s => ∀ x, x ∈ s ↔ x ∈ names m | None => True end.

Lemma matched_add_spec m q :
  matched_ok m →
  matched_ok (matched_add m q) ∧
  names (matched_add m q) = if decide (q ∈ names m) then names m else names m ++ [q].
Proof.
  intros [Hnd Hs]. unfold matched_add, matched_ok.
  assert (Hnd' : q ∉ names m → NoDup (names m ++ [q])).
  { intros Hq. apply NoDup_app. split_and!; [done| |apply NoDup_singleton]. set_solver. }
  destruct (seen m) as [s|] eqn:E.
  - case_bool_decide as Hq; rewrite Hs in Hq.
    + rewrite E, decide_True by done. done.
    + rewrite decide_False by done. simpl. split_and!; [auto| |done]. set_solver.
  - rewrite existsb_str_eqb. case_bool_decide as Hq.
    + rewrite E, decide_True by done. done.
    + rewrite decide_False by done. case_match; simpl; split_and!; auto. set_solver.
Qed.

Lemma collectQueues_spec n m :
  matched_ok m →
  matched_ok (collectQueues n m) ∧
  ∀ x, x ∈ names (collectQueues n m) ↔ x ∈ names m ∨ x ∈ pqueues n.
Proof.
  unfold collectQueues. generalize (pqueues n) as l. intros l.
  revert m. induction l as [|q l IH]; simpl; intros m Hm; [set_solver|].
  destruct (matched_add_spec m q Hm) as [Hok Hn].
  destruct (IH _ Hok) as [Hok' Hx]. split; [done|]. intros x. rewrite Hx, Hn.
  case_decide; set_solver.
Qed.

(** What a trie walk collects: the queues bound at the paths that match. *)
Lemma lmatch_spec ts : ∀ n m,
  matched_ok m →
  matched_ok (lmatch ts n m) ∧
  ∀ x, x ∈ names (lmatch ts n m) ↔
       x ∈ names m ∨ ∃ p, x ∈ bound p n ∧ mqtt_match p ts.
Proof.
  induction ts as [|t ts IH]; intros n m Hm; cbn [lmatch].
  - destruct (collectQueues_spec n m Hm) as [Hok Hx].
    destruct (pchildren n !! hash_lvl) as [c|] eqn:Hc.
    + destruct (collectQueues_spec c _ Hok) as [Hok' Hx']. split; [done|].
      intros x. rewrite Hx', Hx. split.
      * intros [[?|?]|?]; [by left| |]; right.
        -- exists []. split; [done|constructor].
        -- exists [hash_lvl]. simpl. rewrite Hc. split; [done|constructor].
      * intros [?|(p & Hp & Hmm)]; [auto|]. inversion Hmm; subst; simpl in *; [auto|].
        rewrite Hc in Hp. auto.
    + split; [done|]. intros x. rewrite Hx. split.
      * intros [?|?]; [by left|]. right. exists []. split; [done|constructor].
      * intros [?|(p & Hp & Hmm)]; [auto|]. inversion Hmm; subst; simpl in *; [auto|].
        rewrite Hc in Hp. by apply elem_of_nil in Hp.
  - set (sub l m := match pchildren n !! l with Some c => lmatch ts c m | None => m end).
    assert (Hsub : ∀ l m, matched_ok m → matched_ok (sub l m) ∧
      ∀ x, x ∈ names (sub l m) ↔
           x ∈ names m ∨ ∃ p, x ∈ bound (l :: p) n ∧ mqtt_match p ts).
    { intros l m' Hm'. unfold sub. simpl. destruct (pchildren n !! l) as [c|]; [by apply IH|].
      split; [done|]. intros x. set_solver. }
    change (match pchildren n !! t with Some c => lmatch ts c m | None => m end)
      with (sub t m).
    change (match pchildren n !! plus_lvl with
            | Some c => lmatch ts c (sub t m) | None => sub t m end)
      with (sub plus_lvl (sub t m)).
    destruct (Hsub t m Hm) as [Hok1 Hx1].
    destruct (Hsub plus_lvl _ Hok1) as [Hok2 Hx2].
    set (m2 := sub plus_lvl (sub t m)) in *.
    assert (Hlast : matched_ok (match pchildren n !! hash_lvl with
        | Some c => collectQueues c m2 | None => m2 end) ∧
      ∀ x, x ∈ names (match pchildren n !! hash_lvl with
        | Some c => collectQueues c m2 | None => m2 end) ↔
        x ∈ names m2 ∨ x ∈ bound [hash_lvl] n).
    { simpl. destruct (pchildren n !! hash_lvl) as [c|];
        [by apply collectQueues_spec|set_solver]. }
    destruct Hlast as [Hok3 Hx3]. split; [done|]. intros x. rewrite Hx3, Hx2, Hx1. split.
    + intros [[[?|(p & ? & ?)]|(p & ? & ?)]|?]; [by left|right..]; eauto with flux.
    + intros [?|(p & Hp & Hmm)]; [auto|]. inversion Hmm; subst; eauto 10.
Qed.

(** ** Pruning: no node without queues below it survives *)

Inductive pruned : patternNode → Prop :=
| pruned_node cs qs :
    (∀ l c, cs !! l = Some c → pruned c) →
    (∀ l c, cs !! l = Some c → dead c = false) →
    pruned (PNode cs qs).

Lemma pruned_child n l c : pruned n → pchildren n !! l = Some c → pruned c.
Proof. intros [cs qs H1 H2] Hl. eauto. Qed.

Lemma pruned_alive n l c : pruned n → pchildren n !! l = Some c → dead c = false.
Proof. intros [cs qs H1 H2] Hl. eauto. Qed.

#[local] Hint Resolve pruned_child pruned_alive : flux.

Lemma pruned_new : pruned newPatternNode.
Proof. constructor; intros l c; by rewrite lookup_empty. Qed.

Lemma dead_false_queues cs qs : qs ≠ [] → dead (PNode cs qs) = false.
Proof. intros H. unfold dead. simpl. by rewrite bool_decide_false. Qed.

Lemma dead_false_child cs qs l c : cs !! l = Some c → dead (PNode cs qs) = false.
Proof.
  intros H. unfold dead. simpl. rewrite (bool_decide_false (size cs = 0%nat)).
  - by rewrite andb_false_r.
  - intros Hs%map_size_empty_iff. subst. by rewrite lookup_empty in H.
Qed.

Lemma ladd_not_dead ls q n : dead (ladd ls q n) = false.
Proof.
  destruct ls as [|l ls]; cbn [ladd].
  - destruct (bind_queue n q) as [cs qs] eqn:E. apply dead_false_queues.
    pose proof (pqueues_bind n q) as Hb. rewrite E in Hb. simpl in Hb.
    case_decide as Hd; subst; [|by destruct (pqueues n)].
    intros He. rewrite He in Hd. by apply elem_of_nil in Hd.
  - by eapply dead_false_child, lookup_insert_eq.
Qed.

Lemma pruned_insert n l c :
  pruned n → pruned c → dead c = false →
  pruned (PNode (<[l := c]> (pchildren n)) (pqueues n)).
Proof.
  intros Hn Hc Hd.
  constructor; intros l' c' [[<- <-]|[? ?]]%lookup_insert_Some; eauto with flux.
Qed.

Lemma pruned_ladd ls q : ∀ n, pruned n → pruned (ladd ls q n).
Proof.
  induction ls as [|l ls IH]; intros n Hn; cbn [ladd].
  - pose proof (pchildren_bind n q) as Hb. destruct (bind_queue n q) as [cs qs].
    simpl in Hb. subst. constructor; intros; eauto with flux.
  - apply pruned_insert; [done| |apply ladd_not_dead]. apply IH.
    destruct (pchildren n !! l) as [c|] eqn:E; simpl; [|apply pruned_new].
    eauto with flux.
Qed.

Lemma pruned_lremove ls q : ∀ n, pruned n → pruned (lremove ls q n).
Proof.
  induction ls as [|l ls IH]; intros n Hn; cbn [lremove].
  - constructor; intros; eauto with flux.
  - destruct (pchildren n !! l) as [c|] eqn:E; [|done].
    destruct (dead (lremove ls q c)) eqn:Hd.
    + constructor; intros l' c' [? ?]%lookup_delete_Some; eauto with flux.
    + apply pruned_insert; [done| |done]. apply IH. eauto with flux.
Qed.

(** A pruned trie that binds nothing is the empty trie. *)
Lemma pruned_nothing_bound n : pruned n → (∀ p, bound p n = []) → n = newPatternNode.
Proof.
  intros Hp. induction Hp as [cs qs Hc IH Hd]. intros Hb. unfold newPatternNode. f_equal.
  - apply map_empty. intros l. apply eq_None_not_Some. intros [c Hl].
    assert (c = newPatternNode) as ->.
    { apply (IH l c Hl). intros p. specialize (Hb (l :: p)). simpl in Hb. by rewrite Hl in Hb. }
    by specialize (Hd _ _ Hl).
  - exact (Hb []).
Qed.

(** ** Folding over the patterns of a queue *)

Definition half (b : bool) (idx : TopicIndex) : patternNode :=
  if b then dollarPatterns idx else plainPatterns idx.

Lemma half_set idx p t b :
  half b (set_patternsFor idx p t) =
  if bool_decide (starts_with_dollar p = b) then t else half b idx.
Proof. unfold half, set_patternsFor. by destruct (starts_with_dollar p), b. Qed.

Lemma patternsFor_half idx p : patternsFor idx p = half (starts_with_dollar p) idx.
Proof. unfold patternsFor, half. by destruct (starts_with_dollar p). Qed.

Lemma idx_queues_set idx p t : idx_queues (set_patternsFor idx p t) = idx_queues idx.
Proof. unfold set_patternsFor. by destruct (starts_with_dollar p). Qed.

Lemma elem_of_remove_first x q l :
  NoDup l → x ∈ remove_first q l ↔ x ∈ l ∧ x ≠ q.
Proof.
  induction l as [|y l IH]; simpl; intros Hnd; [set_solver|].
  apply NoDup_cons in Hnd as [Hy Hnd]. unfold str_eqb. case_bool_decide; set_solver.
Qed.

Lemma NoDup_remove_first q l : NoDup l → NoDup (remove_first q l).
Proof.
  induction l as [|y l IH]; simpl; intros Hnd; [done|].
  apply NoDup_cons in Hnd as [Hy Hnd']. unfold str_eqb. case_bool_decide; [done|].
  constructor; [|auto]. rewrite elem_of_remove_first by done. naive_solver.
Qed.

(** The trie-level invariant: distinct queues per path, and no dead nodes. *)
Definition trie_ok (n : patternNode) : Prop := pruned n ∧ ∀ p, NoDup (bound p n).

Definition halves_ok (idx : TopicIndex) : Prop := ∀ b, trie_ok (half b idx).

(** [p] is one of [pats] whose path in half [b] is [ls]. *)
Definition at_path (pats : list string) (b : bool) (ls : list string) : Prop :=
  ∃ p, p ∈ pats ∧ levels p = ls ∧ starts_with_dollar p = b.

Lemma trie_ok_add t p q : trie_ok t → trie_ok (patternTrie_add t p q).
Proof.
  intros [Hp Hnd]. unfold patternTrie_add. rewrite trie_add_levels by lia.
  split; [by apply pruned_ladd|]. intros ls. rewrite bound_ladd.
  case_decide; [|done]. case_decide as Hq; [done|]. apply NoDup_app.
  split_and!; [done|set_solver|apply NoDup_singleton].
Qed.

Lemma trie_ok_remove t p q : trie_ok t → trie_ok (patternTrie_remove t p q).
Proof.
  intros [Hp Hnd]. unfold patternTrie_remove. rewrite removeQueueFromPattern_levels by lia.
  split; [by apply pruned_lremove|]. intros ls. rewrite bound_lremove.
  case_decide; [|done]. by apply NoDup_remove_first.
Qed.

Lemma elem_of_bound_add t p q ls x :
  x ∈ bound ls (patternTrie_add t p q) ↔ x ∈ bound ls t ∨ (x = q ∧ levels p = ls).
Proof.
  unfold patternTrie_add. rewrite trie_add_levels, bound_ladd by lia.
  case_decide; [subst; case_decide; set_solver|]. naive_solver.
Qed.

Lemma elem_of_bound_remove t p q ls x :
  trie_ok t →
  x ∈ bound ls (patternTrie_remove t p q) ↔ x ∈ bound ls t ∧ ¬ (x = q ∧ levels p = ls).
Proof.
  intros [_ Hnd]. unfold patternTrie_remove.
  rewrite removeQueueFromPattern_levels, bound_lremove by lia.
  case_decide; [subst|naive_solver]. rewrite elem_of_remove_first by done. naive_solver.
Qed.

Lemma fold_add_spec q pats : ∀ idx,
  halves_ok idx →
  halves_ok (add_patterns q pats idx) ∧ idx_queues (add_patterns q pats idx) = idx_queues idx ∧
  ∀ b ls x, x ∈ bound ls (half b (add_patterns q pats idx)) ↔
            x ∈ bound ls (half b idx) ∨ (x = q ∧ at_path pats b ls).
Proof.
  unfold at_path, add_patterns, remove_patterns.
  induction pats as [|p pats IH]; intros idx Hok; simpl in *.
  { split_and!; [done..|]. set_solver. }
  set (idx1 := set_patternsFor idx p _) in *.
  assert (Hok1 : halves_ok idx1).
  { intros b. unfold idx1. rewrite half_set, patternsFor_half.
    case_bool_decide; [subst; by apply trie_ok_add|done]. }
  destruct (IH idx1 Hok1) as (Hok' & Hq & Hb). split_and!; [done| |].
  { rewrite Hq. apply idx_queues_set. }
  intros b ls x. rewrite Hb. unfold idx1. rewrite half_set, patternsFor_half.
  case_bool_decide as Hd; [subst; rewrite elem_of_bound_add|]; set_solver.
Qed.

Lemma fold_remove_spec q pats : ∀ idx,
  halves_ok idx →
  halves_ok (remove_patterns q pats idx) ∧ idx_queues (remove_patterns q pats idx) = idx_queues idx ∧
  ∀ b ls x, x ∈ bound ls (half b (remove_patterns q pats idx)) ↔
            x ∈ bound ls (half b idx) ∧ ¬ (x = q ∧ at_path pats b ls).
Proof.
  unfold at_path, add_patterns, remove_patterns.
  induction pats as [|p pats IH]; intros idx Hok; simpl in *.
  { split_and!; [done..|]. set_solver. }
  set (idx1 := set_patternsFor idx p _) in *.
  assert (Hok1 : halves_ok idx1).
  { intros b. unfold idx1. rewrite half_set, patternsFor_half.
    case_bool_decide; [subst; by apply trie_ok_remove|done]. }
  destruct (IH idx1 Hok1) as (Hok' & Hq & Hb). split_and!; [done| |].
  { rewrite Hq. apply idx_queues_set. }
  intros b ls x. rewrite Hb. unfold idx1. rewrite half_set, patternsFor_half.
  case_bool_decide as Hd; [subst; rewrite elem_of_bound_remove by apply Hok|]; set_solver.
Qed.

(** ** The index invariant *)

(** The tries hold exactly the registered (pattern, queue) pairs. *)
Definition idx_ok (idx : TopicIndex) : Prop :=
  halves_ok idx ∧
  ∀ b ls x, x ∈ bound ls (half b idx) ↔
            ∃ pats, idx_queues idx !! x = Some pats ∧ at_path pats b ls.

Lemma idx_ok_new : idx_ok NewTopicIndex.
Proof.
  split.
  - intros []; (split; [apply pruned_new|intros p; unfold half; simpl;
      rewrite bound_new; constructor]).
  - intros b ls x. assert (half b NewTopicIndex = newPatternNode) as -> by by destruct b.
    rewrite bound_new. simpl. setoid_rewrite lookup_empty. set_solver.
Qed.

Lemma idx_ok_remove idx q : idx_ok idx → idx_ok (RemoveQueue idx q).
Proof.
  intros [Hok Hb]. unfold RemoveQueue, removeQueueLocked.
  destruct (idx_queues idx !! q) as [pats|] eqn:Hq; [|done].
  destruct (fold_remove_spec q pats idx Hok) as (Hok' & Hqs & Hb').
  set (idx' := remove_patterns q pats idx) in *. split; [done|]. intros b ls x.
  change (half b (mkTopicIndex _ _ _)) with (half b idx'). simpl.
  rewrite Hb', Hb, Hqs. setoid_rewrite lookup_delete_Some. split.
  - intros [(ps & Hx & Hp) Hn]. exists ps. split; [|done]. split; [|done].
    intros ->. simplify_eq. naive_solver.
  - intros (ps & [? ?] & Hp). split; [eauto|naive_solver].
Qed.

Lemma idx_ok_add idx q pats : idx_ok idx → idx_ok (AddQueue idx q pats).
Proof.
  intros Hi. apply (idx_ok_remove _ q) in Hi as [Hok Hb].
  unfold AddQueue. change (removeQueueLocked idx q) with (RemoveQueue idx q) in *.
  assert (Hq : idx_queues (RemoveQueue idx q) !! q = None).
  { unfold RemoveQueue, removeQueueLocked. destruct (idx_queues idx !! q) eqn:E; [|done].
    simpl. apply lookup_delete_eq. }
  set (idx0 := RemoveQueue idx q) in *.
  set (idx1 := mkTopicIndex _ (dollarPatterns idx0) _).
  destruct (fold_add_spec q pats idx1) as (Hok' & Hqs & Hb').
  { intros b. apply (Hok b). }
  split; [done|]. intros b ls x. rewrite Hb', Hqs.
  change (half b idx1) with (half b idx0). rewrite Hb. simpl. split.
  - intros [(ps & Hx & Hp)|[-> Hp]].
    + exists ps. rewrite lookup_insert_ne by naive_solver. done.
    + exists pats. by rewrite lookup_insert_eq.
  - intros (ps & [[-> ->]|[? ?]]%lookup_insert_Some & Hp); [by right|left; eauto].
Qed.

(** ** Reachable indexes *)

Inductive index_step : TopicIndex → TopicIndex → Prop :=
| step_AddQueue idx q pats : index_step idx (AddQueue idx q pats)
| step_RemoveQueue idx q : index_step idx (RemoveQueue idx q).

Lemma index_reachable_ok idx : rtc index_step NewTopicIndex idx → idx_ok idx.
Proof.
  intros Hr. remember NewTopicIndex as i0 eqn:E.
  assert (idx_ok i0) as Hi by (subst; apply idx_ok_new). clear E.
  induction Hr as [|? ? ? []]; eauto using idx_ok_add, idx_ok_remove.
Qed.

(** The linear scan the trie replaces: a queue matches when one of its
    patterns does. *)
Definition scan_matches (idx : TopicIndex) (topic q : string) : Prop :=
  ∃ pats p, idx_queues idx !! q = Some pats ∧ p ∈ pats ∧ TopicMatch p topic = true.

(** After any history of registrations and removals of queues with valid
    filters, the two-trie index answers a topic with exactly the queues a
    linear scan with [TopicMatch] over all registered patterns finds, each
    once. *)
Theorem FindMatching_spec idx topic :
  rtc index_step NewTopicIndex idx →
  (∀ q pats p, idx_queues idx !! q = Some pats → p ∈ pats → ValidateTopicFilter p = Ret tt) →
  NoDup (FindMatching idx topic) ∧
  ∀ q, q ∈ FindMatching idx topic ↔ scan_matches idx topic q.
Proof.
  intros [Hok Hb]%index_reachable_ok Hval. unfold FindMatching, scan_matches.
  destruct (str_eqb topic EmptyString) eqn:Et.
  { apply str_eqb_true in Et as ->. split; [constructor|]. intros q.
    split; [by intros ?%elem_of_nil|]. intros (? & p & _ & _ & Hm).
    by apply TopicMatch_iff in Hm as (_ & ? & _). }
  apply str_eqb_false in Et. unfold patternTrie_match.
  rewrite matchPatternNode_levels by lia.
  destruct (lmatch_spec (levels topic) (patternsFor idx topic) matched_zero)
    as [[Hnd _] Hx]; [split; [constructor|done]|].
  split; [done|]. intros q. rewrite Hx, patternsFor_half. simpl.
  setoid_rewrite Hb. unfold at_path. split.
  - intros [?%elem_of_nil|(ls & (pats & Hq & p & Hp & <- & Hd) & Hm)]; [done|].
    exists pats, p. split_and!; [done..|]. apply TopicMatch_valid; [eauto|].
    split_and!; [done| |done]. unfold dollar_compatible. congruence.
  - intros (pats & p & Hq & Hp & Hm). right. exists (levels p).
    apply TopicMatch_valid in Hm as (_ & Hd & Hm); [|eauto]. split; [|done].
    exists pats. split; [done|]. exists p. split_and!; [done..|].
    destruct (starts_with_dollar topic) eqn:E1; [by apply Hd|].
    destruct (starts_with_dollar p) eqn:E2; [|done]. exfalso.
    by eapply mqtt_match_dollar.
Qed.

Lemma FindMatching_spec_witness :
  "q"%string ∈ FindMatching (AddQueue NewTopicIndex "q" ["a/#"]%string) "a/b" ↔
  scan_matches (AddQueue NewTopicIndex "q" ["a/#"]%string) "a/b" "q".
Proof.
  refine (proj2 (FindMatching_spec _ "a/b" _ _) "q"%string).
  - apply rtc_once. constructor.
  - intros q pats p Hq Hp.
    assert (Hs : idx_queues (AddQueue NewTopicIndex "q" ["a/#"]%string) =
                 {["q"%string := ["a/#"%string]]}) by (by vm_compute).
    rewrite Hs in Hq. apply lookup_singleton_Some in Hq as [_ <-].
    apply list_elem_of_singleton in Hp as ->. by vm_compute.
Defined.

(** Registration churn leaves nothing behind: once every queue has been
    removed, both tries are the empty trie again. *)
Theorem index_empty_after_removal idx :
  rtc index_step NewTopicIndex idx → idx_queues idx = ∅ → idx = NewTopicIndex.
Proof.
  intros [Hok Hb]%index_reachable_ok He.
  assert (Hn : ∀ b, half b idx = newPatternNode).
  { intros b. apply pruned_nothing_bound; [apply Hok|]. intros p.
    apply elem_of_nil_inv. intros x. rewrite Hb, He. setoid_rewrite lookup_empty. naive_solver. }
  destruct idx as [qs d p]. simpl in He. subst. unfold NewTopicIndex.
  f_equal; [exact (Hn true)|exact (Hn false)].
Qed.

Lemma index_empty_after_removal_witness :
  RemoveQueue (AddQueue NewTopicIndex "q" ["a/#"; "$x/+"]%string) "q" = NewTopicIndex.
Proof.
  apply index_empty_after_removal; [|by vm_compute].
  eapply rtc_l; [apply step_AddQueue|]. apply rtc_once. constructor.
Defined.
