(* ===== verification/Router.v ===== *)
(** * The subscription router (src/broker/router)

    [TrieRouter] keeps subscriptions in a tree keyed on topic levels; it is
    what every publish of the MQTT and AMQP brokers consults.  The slice
    pools of [pool.go] only recycle memory and are not modelled; [splitTopic]
    is.  The abstract specification is a map from (filter, client) to the
    client's latest subscription; [router_refines] proves that the tree
    implements it under every sequence of operations. *)

From Stdlib Require Import ZArith Lia Bool Ascii String.
From stdpp Require Import prelude gmap strings.
From S2P Require Import Prelude GoStrings Topics.

(** ** storage.Subscription and its options *)

Record SubscribeOptions := mkSubscribeOptions {
  NoLocal : bool;
  RetainAsPublished : bool;
  RetainHandling : Z;
  ConsumerGroupOpt : string;
  ShareName : string
}.

Record Subscription := mkSubscription {
  SubClientID : string;
  SubFilter : string;
  SubscriptionID : option Z;
  SubOptions : SubscribeOptions;
  SubscriptionQoS : Z
}.

(** ** router.go *)

Inductive node : Type :=
| RNode (children : gmap string node) (subs : list Subscription).

Definition rchildren (n : node) : gmap string node := let 'RNode cs _ := n in cs.
Definition rsubs (n : node) : list Subscription := let 'RNode _ ss := n in ss.

Definition newNode : node := RNode ∅ [].

(** A [TrieRouter] is its root. *)
Definition NewRouter : node := newNode.

(** The scan over [n.subs] at the end of [Subscribe]: replace the client's
    subscription or append. *)
Fixpoint replace_or_append (clientID : string) (sub : Subscription)
    (l : list Subscription) : list Subscription :=
  match l with
  | [] => [sub]
  | existing :: l' =>
      if str_eqb (SubClientID existing) clientID then sub :: l'
      else existing :: replace_or_append clientID sub l'
  end.

Fixpoint subscribe_at (levels : list string) (clientID : string) (sub : Subscription)
    (n : node) : node :=
  match levels with
  | [] => RNode (rchildren n) (replace_or_append clientID sub (rsubs n))
  | level :: levels' =>
      let child := default newNode (rchildren n !! level) in
      RNode (<[level := subscribe_at levels' clientID sub child]> (rchildren n)) (rsubs n)
  end.

Definition Subscribe (r : node) (clientID filter : string) (qos : Z)
    (opts : SubscribeOptions) : node :=
  let sub := mkSubscription clientID filter None opts qos in
  subscribe_at (Split slash filter) clientID sub r.

Fixpoint unsubscribe_at (levels : list string) (clientID : string) (n : node) : node :=
  match levels with
  | [] => RNode (rchildren n)
            (filter (λ sub, SubClientID sub ≠ clientID) (rsubs n))
  | level :: levels' =>
      match rchildren n !! level with
      | None => n
      | Some child =>
          RNode (<[level := unsubscribe_at levels' clientID child]> (rchildren n)) (rsubs n)
      end
  end.

Definition Unsubscribe (r : node) (clientID filter : string) : node :=
  unsubscribe_at (Split slash filter) clientID r.

(** [matchLevel]; the argument [levels] is [levels[index:]]. *)
Fixpoint matchLevel (n : node) (levels : list string) (matched : list Subscription) :
    list Subscription :=
  match levels with
  | [] =>
      let matched := matched ++ rsubs n in
      match rchildren n !! hash_lvl with
      | Some wild => matched ++ rsubs wild
      | None => matched
      end
  | level :: levels' =>
      let matched :=
        match rchildren n !! level with
        | Some child => matchLevel child levels' matched
        | None => matched
        end in
      let matched :=
        match rchildren n !! plus_lvl with
        | Some child => matchLevel child levels' matched
        | None => matched
        end in
      match rchildren n !! hash_lvl with
      | Some child => matched ++ rsubs child
      | None => matched
      end
  end.

(** [splitTopic]: [cur] is [topic[start:i]]. *)
Fixpoint splitTopic_loop (topic cur : string) (acc : list string) : list string :=
  match topic with
  | EmptyString => acc ++ [cur]
  | String c rest =>
      if Ascii.eqb c slash then splitTopic_loop rest EmptyString (acc ++ [cur])
      else splitTopic_loop rest (cur +:+ String c EmptyString) acc
  end.

Definition splitTopic (topic : string) : list string := splitTopic_loop topic EmptyString [].

Definition MatchInto (r : node) (topic : string) (matched : list Subscription) :
    list Subscription :=
  matchLevel r (splitTopic topic) matched.

Definition Match (r : node) (topic : string) : list Subscription := MatchInto r topic [].

(** * Properties *)

Lemma splitTopic_loop_spec topic : ∀ cur acc,
  splitTopic_loop topic cur acc =
  acc ++ match Split slash topic with h :: t => (cur +:+ h) :: t | [] => [cur] end.
Proof.
  induction topic as [|c topic IH]; intros cur acc; simpl.
  - by rewrite app_str_nil_r.
  - destruct (Split_nonempty slash topic) as (h & t & E).
    destruct (Ascii.eqb c slash); rewrite IH, E.
    + rewrite <-app_assoc. simpl. by rewrite app_str_nil_r.
    + by rewrite app_str_assoc.
Qed.

(** The allocation-free splitter is [strings.Split]. *)
Lemma splitTopic_Split topic : splitTopic topic = levels topic.
Proof.
  unfold splitTopic, levels. rewrite splitTopic_loop_spec.
  by destruct (Split_nonempty slash topic) as (h & t & ->).
Qed.

(** ** The abstract view: subscriptions at a path *)

Fixpoint rbound (ls : list string) (n : node) : list Subscription :=
  match ls with
  | [] => rsubs n
  | l :: ls' => match rchildren n !! l with Some c => rbound ls' c | None => [] end
  end.

Lemma rbound_new ls : rbound ls newNode = [].
Proof. destruct ls; simpl; by rewrite ?lookup_empty. Qed.

Lemma rbound_default ls o :
  rbound ls (default newNode o) = match o with Some c => rbound ls c | None => [] end.
Proof. destruct o; simpl; [done|apply rbound_new]. Qed.

Lemma rbound_subscribe ls c sub : ∀ n p,
  rbound p (subscribe_at ls c sub n) =
  if decide (p = ls) then replace_or_append c sub (rbound ls n) else rbound p n.
Proof.
  induction ls as [|l ls IH]; intros n [|l' p]; cbn [rbound subscribe_at rchildren rsubs];
    [done|by rewrite decide_False by done..|].
  destruct (decide (l' = l)) as [->|].
  - rewrite lookup_insert_eq, IH, !rbound_default.
    destruct (decide (p = ls)) as [->|].
    + rewrite (decide_True (P := l :: ls = l :: ls)) by done. done.
    + rewrite decide_False by congruence. by destruct (rchildren n !! l).
  - by rewrite lookup_insert_ne, decide_False by congruence.
Qed.

Lemma rbound_unsubscribe ls c : ∀ n p,
  rbound p (unsubscribe_at ls c n) =
  if decide (p = ls) then filter (λ s, SubClientID s ≠ c) (rbound ls n) else rbound p n.
Proof.
  induction ls as [|l ls IH]; intros n [|l' p]; cbn [rbound unsubscribe_at rchildren rsubs].
  - done.
  - by rewrite decide_False by done.
  - rewrite decide_False by done. by destruct (rchildren n !! l).
  - destruct (rchildren n !! l) as [ch|] eqn:Hl; cbn [rchildren].
    + destruct (decide (l' = l)) as [->|].
      * rewrite lookup_insert_eq, IH, Hl. repeat case_decide; congruence.
      * by rewrite lookup_insert_ne, decide_False by congruence.
    + case_decide; [|done]. simplify_eq. by rewrite Hl.
Qed.

(** What a walk appends. *)
Lemma matchLevel_spec ts : ∀ n m,
  ∃ out, matchLevel n ts m = m ++ out ∧
    ∀ s, s ∈ out ↔ ∃ p, s ∈ rbound p n ∧ mqtt_match p ts.
Proof.
  assert (Hhash : ∀ n m, ∃ out,
    match rchildren n !! hash_lvl with Some c => m ++ rsubs c | None => m end = m ++ out ∧
    out = rbound [hash_lvl] n).
  { intros n m. exists (rbound [hash_lvl] n). split; [|done]. simpl.
    destruct (rchildren n !! hash_lvl); [done|]. by rewrite app_nil_r. }
  induction ts as [|t ts IH]; intros n m; cbn [matchLevel].
  - destruct (Hhash n (m ++ rsubs n)) as (o1 & -> & ->).
    exists (rsubs n ++ rbound [hash_lvl] n). split; [by rewrite app_assoc|].
    intros s. rewrite elem_of_app. split.
    + intros [?|?]; [exists []|exists [hash_lvl]]; split; auto with flux.
    + intros (p & Hp & Hm). inversion Hm; subst; auto.
  - assert (Hsub : ∀ l m, ∃ out,
      match rchildren n !! l with Some c => matchLevel c ts m | None => m end = m ++ out ∧
      ∀ s, s ∈ out ↔ ∃ p, s ∈ rbound (l :: p) n ∧ mqtt_match p ts).
    { intros l m'. simpl. destruct (rchildren n !! l) as [c|]; [apply IH|].
      exists []. rewrite app_nil_r. split; [done|]. set_solver. }
    destruct (Hsub t m) as (o1 & -> & H1).
    destruct (Hsub plus_lvl (m ++ o1)) as (o2 & -> & H2).
    destruct (Hhash n ((m ++ o1) ++ o2)) as (o3 & -> & ->).
    exists (o1 ++ o2 ++ rbound [hash_lvl] n). split; [by rewrite <-!app_assoc|].
    intros s. rewrite !elem_of_app, H1, H2. split.
    + intros [(p & ? & ?)|[(p & ? & ?)|?]]; eauto with flux.
    + intros (p & Hp & Hm). inversion Hm; subst; eauto 10.
Qed.

Lemma matchLevel_app ts : ∀ n m, matchLevel n ts m = m ++ matchLevel n ts [].
Proof.
  induction ts as [|t ts IH]; intros n m; cbn [matchLevel].
  - destruct (rchildren n !! hash_lvl); by rewrite ?app_nil_l, <-?app_assoc.
  - assert (Hc : ∀ l m', match rchildren n !! l with
                        | Some c => matchLevel c ts m' | None => m' end =
                        m' ++ match rchildren n !! l with
                              | Some c => matchLevel c ts [] | None => [] end).
    { intros l m'. destruct (rchildren n !! l); [apply IH|by rewrite app_nil_r]. }
    rewrite (Hc plus_lvl), (Hc t m). symmetry. rewrite (Hc plus_lvl).
    destruct (rchildren n !! hash_lvl); by rewrite <-?app_assoc.
Qed.

Lemma elem_of_Match r topic s :
  s ∈ Match r topic ↔ ∃ p, s ∈ rbound p r ∧ mqtt_match p (levels topic).
Proof.
  unfold Match, MatchInto. rewrite splitTopic_Split.
  destruct (matchLevel_spec (levels topic) r []) as (out & -> & H). apply H.
Qed.

(** ** The specification: a map from (filter, client) to a subscription *)

Inductive router_op :=
| OpSubscribe (clientID filter : string) (qos : Z) (opts : SubscribeOptions)
| OpUnsubscribe (clientID filter : string).

Definition run_op (r : node) (o : router_op) : node :=
  match o with
  | OpSubscribe c f q opts => Subscribe r c f q opts
  | OpUnsubscribe c f => Unsubscribe r c f
  end.

Definition spec_op (m : gmap (string * string) Subscription) (o : router_op) :
    gmap (string * string) Subscription :=
  match o with
  | OpSubscribe c f q opts => <[(f, c) := mkSubscription c f None opts q]> m
  | OpUnsubscribe c f => delete (f, c) m
  end.

Definition run_router (ops : list router_op) : node := fold_left run_op ops NewRouter.
Definition run_spec (ops : list router_op) : gmap (string * string) Subscription :=
  fold_left spec_op ops ∅.

(** The simulation relation. *)
Definition simulates (r : node) (m : gmap (string * string) Subscription) : Prop :=
  (∀ ls, NoDup (SubClientID <$> rbound ls r)) ∧
  (∀ ls s, s ∈ rbound ls r ↔ ∃ f c, m !! (f, c) = Some s ∧ levels f = ls) ∧
  (∀ f c s, m !! (f, c) = Some s → SubFilter s = f ∧ SubClientID s = c).

Lemma replace_or_append_ids c sub l :
  SubClientID sub = c →
  SubClientID <$> replace_or_append c sub l =
  if decide (c ∈ SubClientID <$> l) then SubClientID <$> l else (SubClientID <$> l) ++ [c].
Proof.
  intros Hc. induction l as [|x l IH]; cbn [replace_or_append].
  - by rewrite decide_False by (by intros ?%elem_of_nil); subst.
  - unfold str_eqb. case_bool_decide as Hx; rewrite !fmap_cons.
    + rewrite decide_True by set_solver. congruence.
    + rewrite IH. repeat case_decide; set_solver.
Qed.

Lemma NoDup_replace_or_append c sub l :
  SubClientID sub = c → NoDup (SubClientID <$> l) →
  NoDup (SubClientID <$> replace_or_append c sub l).
Proof.
  intros Hc Hnd. rewrite replace_or_append_ids by done. case_decide; [done|].
  apply NoDup_app. split_and!; [done|set_solver|apply NoDup_singleton].
Qed.

Lemma elem_of_replace_or_append c sub l s :
  NoDup (SubClientID <$> l) →
  s ∈ replace_or_append c sub l ↔ s = sub ∨ (s ∈ l ∧ SubClientID s ≠ c).
Proof.
  induction l as [|x l IH]; cbn [replace_or_append]; intros Hnd; [set_solver|].
  rewrite fmap_cons in Hnd. apply NoDup_cons in Hnd as [Hx Hnd].
  unfold str_eqb. case_bool_decide as He; rewrite !elem_of_cons; [|set_solver].
  split; [|set_solver]. intros [?|Hs]; [by left|]. right. split; [by right|].
  intros Hc. apply Hx. rewrite He, <-Hc. apply list_elem_of_fmap. eauto.
Qed.

Lemma NoDup_fmap_filter {A B} (f : A → B) (P : A → Prop) `{∀ x, Decision (P x)} l :
  NoDup (f <$> l) → NoDup (f <$> filter P l).
Proof.
  intros Hn. eapply sublist_NoDup; [exact Hn|]. apply fmap_sublist, sublist_filter.
Qed.

Lemma simulates_subscribe r m c f q opts :
  simulates r m →
  simulates (Subscribe r c f q opts) (<[(f, c) := mkSubscription c f None opts q]> m).
Proof.
  intros (Hnd & Hb & Hk). unfold Subscribe. set (sub := mkSubscription c f None opts q).
  fold (levels f). split_and!.
  - intros ls. rewrite rbound_subscribe. case_decide; [|done].
    by apply NoDup_replace_or_append.
  - intros ls s. rewrite rbound_subscribe. case_decide as Hls; [subst ls|].
    + rewrite elem_of_replace_or_append, Hb by done. split.
      * intros [->|((f' & c' & Hm & Hl) & Hc)].
        { exists f, c. by rewrite lookup_insert_eq. }
        exists f', c'. destruct (Hk _ _ _ Hm). rewrite lookup_insert_ne by congruence. done.
      * intros (f' & c' & [[[= <- <-] <-]|[Hne Hm]]%lookup_insert_Some & Hl); [by left|].
        right. split; [eauto|]. apply Split_inj in Hl as ->.
        destruct (Hk _ _ _ Hm) as [_ ->]. congruence.
    + rewrite Hb. split.
      * intros (f' & c' & Hm & Hl). exists f', c'. split; [|done].
        rewrite lookup_insert_ne by congruence. done.
      * intros (f' & c' & [[[= <- <-] <-]|[Hne Hm]]%lookup_insert_Some & Hl); [done|eauto].
  - intros f' c' s [[[= <- <-] <-]|[Hne Hm]]%lookup_insert_Some; [done|eauto].
Qed.

Lemma simulates_unsubscribe r m c f :
  simulates r m → simulates (Unsubscribe r c f) (delete (f, c) m).
Proof.
  intros (Hnd & Hb & Hk). unfold Unsubscribe. fold (levels f). split_and!.
  - intros ls. rewrite rbound_unsubscribe. case_decide; [|done].
    by apply NoDup_fmap_filter.
  - intros ls s. rewrite rbound_unsubscribe. case_decide as Hls; [subst ls|].
    + rewrite list_elem_of_filter, Hb. split.
      * intros (Hc & f' & c' & Hm & Hl). exists f', c'. split; [|done].
        rewrite lookup_delete_ne; [done|]. destruct (Hk _ _ _ Hm). congruence.
      * intros (f' & c' & [Hne Hm]%lookup_delete_Some & Hl). split; [|eauto].
        apply Split_inj in Hl as ->. destruct (Hk _ _ _ Hm) as [_ ->]. congruence.
    + rewrite Hb. split.
      * intros (f' & c' & Hm & Hl). exists f', c'.
        rewrite lookup_delete_ne by congruence. done.
      * intros (f' & c' & [Hne Hm]%lookup_delete_Some & Hl). eauto.
  - intros f' c' s [Hne Hm]%lookup_delete_Some. eauto.
Qed.

Lemma simulates_new : simulates NewRouter ∅.
Proof.
  unfold NewRouter. split_and!.
  - intros ls. rewrite rbound_new. constructor.
  - intros ls s. rewrite rbound_new. setoid_rewrite lookup_empty. set_solver.
  - intros f c s. by rewrite lookup_empty.
Qed.

Lemma simulates_run ops : ∀ r m,
  simulates r m → simulates (fold_left run_op ops r) (fold_left spec_op ops m).
Proof.
  induction ops as [|[] ops IH]; intros r m H; simpl;
    [done|apply IH, simulates_subscribe, H|apply IH, simulates_unsubscribe, H].
Qed.

(** ** No duplicates on a wildcard-free topic *)

(** Every subscription found below a node at path [pre] names its own path. *)
Definition paths_ok (pre : list string) (n : node) : Prop :=
  ∀ p s, s ∈ rbound p n → levels (SubFilter s) = pre ++ p.

Lemma paths_ok_child pre n l c :
  paths_ok pre n → rchildren n !! l = Some c → paths_ok (pre ++ [l]) c.
Proof.
  intros H Hl p s Hs. rewrite <-app_assoc. apply (H (l :: p)). simpl. by rewrite Hl.
Qed.

Lemma NoDup_matchLevel ts : ∀ n pre,
  (∀ t, t ∈ ts → t ≠ plus_lvl ∧ t ≠ hash_lvl) →
  (∀ p, NoDup (rbound p n)) → paths_ok pre n → NoDup (matchLevel n ts []).
Proof.
  induction ts as [|t ts IH]; intros n pre Hw Hnd Hp.
  - cbn [matchLevel]. pose proof (Hnd []) as H0. pose proof (Hnd [hash_lvl]) as H1.
    simpl in H0, H1. destruct (rchildren n !! hash_lvl) as [c|] eqn:Hc; [|by rewrite app_nil_l].
    rewrite app_nil_l. apply NoDup_app. split_and!; [done| |done].
    intros s Hs Hs'. pose proof (Hp [] s Hs) as E1.
    assert (E2 : levels (SubFilter s) = pre ++ [hash_lvl]) by (apply Hp; simpl; by rewrite Hc).
    rewrite E1 in E2. by apply app_inv_head in E2.
  - set (sub l := match rchildren n !! l with Some c => matchLevel c ts [] | None => [] end).
    assert (Happ : ∀ l m, match rchildren n !! l with
                          | Some c => matchLevel c ts m | None => m end = m ++ sub l).
    { intros l m. unfold sub. destruct (rchildren n !! l) as [c|]; [|by rewrite app_nil_r].
      apply matchLevel_app. }
    assert (Hsub : ∀ l, NoDup (sub l)).
    { intros l. unfold sub. destruct (rchildren n !! l) as [c|] eqn:Hl; [|constructor].
      apply (IH c (pre ++ [l])); [set_solver| |by eapply paths_ok_child].
      intros p. specialize (Hnd (l :: p)). simpl in Hnd. by rewrite Hl in Hnd. }
    assert (Hin : ∀ l s, s ∈ sub l → ∃ p, levels (SubFilter s) = pre ++ l :: p).
    { intros l s Hs. unfold sub in Hs. destruct (rchildren n !! l) as [c|] eqn:Hl;
        [|by apply elem_of_nil in Hs].
      destruct (matchLevel_spec ts c []) as (o & Ho & Hspec). rewrite Ho in Hs.
      apply Hspec in Hs as (p & Hs & _). exists p. apply Hp. simpl. by rewrite Hl. }
    cbn [matchLevel]. rewrite !Happ, app_nil_l.
    assert (Hh : match rchildren n !! hash_lvl with
                 | Some c => (sub t ++ sub plus_lvl) ++ rsubs c
                 | None => sub t ++ sub plus_lvl end =
                 sub t ++ sub plus_lvl ++ rbound [hash_lvl] n).
    { simpl. destruct (rchildren n !! hash_lvl); [by rewrite <-app_assoc|].
      by rewrite app_nil_r. }
    rewrite Hh. destruct (Hw t) as [Ht1 Ht2]; [set_solver|].
    assert (Hd : ∀ s, s ∈ rbound [hash_lvl] n → levels (SubFilter s) = pre ++ [hash_lvl]).
    { intros s Hs. by apply Hp. }
    apply NoDup_app. split_and!; [apply Hsub| |apply NoDup_app; split_and!;
      [apply Hsub| |apply Hnd]].
    + intros s [p1 E1]%Hin. rewrite elem_of_app. intros [[p2 E2]%Hin|E2%Hd];
        rewrite E1 in E2; apply app_inv_head in E2; congruence.
    + intros s [p1 E1]%Hin E2%Hd. rewrite E1 in E2. by apply app_inv_head in E2.
Qed.

(** C24 Under every sequence of subscribe and unsubscribe calls, the router
    returns for a topic exactly the current subscriptions whose filter
    matches it level by level (the latest one per client and filter), and for
    a publishable topic each of them once. *)
Theorem router_refines ops topic :
  (∀ s, s ∈ Match (run_router ops) topic ↔
        ∃ f c, run_spec ops !! (f, c) = Some s ∧ mqtt_match (levels f) (levels topic)) ∧
  (ValidateTopicName topic = Ret tt → NoDup (Match (run_router ops) topic)).
Proof.
  destruct (simulates_run ops _ _ simulates_new) as (Hnd & Hb & Hk).
  fold (run_router ops) in *. fold (run_spec ops) in *. split.
  - intros s. rewrite elem_of_Match. setoid_rewrite Hb. naive_solver.
  - intros Hv. unfold Match, MatchInto. rewrite splitTopic_Split.
    apply (NoDup_matchLevel _ _ []).
    + intros t Ht. by eapply valid_topic_no_wildcard.
    + intros p. eapply NoDup_fmap_1, Hnd.
    + intros p s Hs. simpl. apply Hb in Hs as (f & c & Hm & <-).
      by destruct (Hk _ _ _ Hm) as [-> _].
Qed.

(** The router, unlike [TopicMatch] and the retained-message store, has no
    [$] rule: a subscription to [#] receives every [$] topic, although
    [TopicMatch] rejects the pair. *)
Theorem router_ignores_dollar_rule c q opts topic :
  starts_with_dollar topic = true →
  mkSubscription c hash_lvl None opts q ∈
    Match (run_router [OpSubscribe c hash_lvl q opts]) topic ∧
  TopicMatch hash_lvl topic = false.
Proof.
  intros Hd. split.
  - apply elem_of_Match. exists [hash_lvl]. split; [|constructor].
    change (run_router [OpSubscribe c hash_lvl q opts]) with
      (subscribe_at [hash_lvl] c (mkSubscription c hash_lvl None opts q) NewRouter).
    rewrite rbound_subscribe, decide_True by done. apply list_elem_of_here.
  - apply not_true_is_false. rewrite TopicMatch_iff.
    intros (_ & _ & Hc & _). by specialize (Hc Hd).
Qed.

Lemma router_ignores_dollar_rule_witness :
  TopicMatch hash_lvl "$SYS/uptime" = false.
Proof.
  exact (proj2 (router_ignores_dollar_rule "c" 0 (mkSubscribeOptions false false 0
    EmptyString EmptyString) "$SYS/uptime" eq_refl)).
Defined.

Lemma router_refines_witness :
  NoDup (Match (run_router [OpSubscribe "c" "a/+" 1 (mkSubscribeOptions false false 0
    EmptyString EmptyString)]) "a/b").
Proof. apply (proj2 (router_refines _ "a/b")). vm_compute. reflexivity. Defined.
