(* ===== verification/Codec.v ===== *)
(** * The MQTT wire codec (src/mqtt/codec)

    Readers, the primitive encoders and decoders ([encode.go], [decode.go]) and
    the zero-copy reader ([zerocopy.go]).  An [io.Reader] is the bytes it will
    still deliver and the error it gives once they are used up; the chunks in
    which it delivers them are invisible to [io.ReadFull] and [io.ReadAll],
    the only ways the codec reads.  The file proves that every decoder inverts
    its encoder on any continuation of the stream, the bounds of the variable
    byte integer, and that the zero-copy reader agrees with the stream
    decoders. *)

From Stdlib Require Import ZArith Lia Bool Ascii String Strings.Byte.
From stdpp Require Import prelude gmap strings.
From S2P Require Import Prelude GoStrings.

(** ** Errors of the MQTT packages *)

Inductive GoErr :=
| EOF | ErrUnexpectedEOF
| ErrMaxLengthExceeded
| ErrBufferTooShort | ErrMalformedVBI | ErrStringTooLong
| ErrFailRemaining | ErrInvalidFixedHeader | ErrPacketTooLarge
| ErrInvalidClientID | ErrInvalidQoS | ErrInvalidProtocol
| ErrInvalidConnectFlags | ErrInvalidProtocolName
| ErrUnsupportedPacketType (packetType : Z)
| ErrUnsupportedProtocolVersion
| ErrInvalidProperty (prop : Z)
| ErrInvalidSubscribeOption (flags : Z)
| ErrTransport (code : nat).

#[export] Instance GoErr_eq_dec : EqDecision GoErr.
Proof. solve_decision. Defined.

(** ** Reading as a state and error monad

    A failed read ends the decoding in every caller, so the reader left behind
    by a failure is not kept. *)

Definition ST (S A : Type) : Type := S → outcome GoErr (A * S).

#[export] Instance ST_ret {S} : MRet (ST S) := λ A a s, Ret (a, s).
#[export] Instance ST_bind {S} : MBind (ST S) := λ A B f m s,
  match m s with Ret (a, s') => f a s' | Fail e => Fail e | Panic => Panic end.

Definition st_fail {S A} (e : GoErr) : ST S A := λ _, Fail e.
Definition st_panic {S A} : ST S A := λ _, Panic.
Definition st_lift {S A} (o : outcome GoErr A) : ST S A := λ s,
  match o with Ret a => Ret (a, s) | Fail e => Fail e | Panic => Panic end.

(** ** io.Reader *)

Record reader := mkReader { rbuf : list byte; rend : GoErr }.

Notation dec := (ST reader).

(** [bytes.NewReader]. *)
Definition NewReader (data : list byte) : reader := mkReader data EOF.

(** [io.ReadFull] into a buffer of [n] bytes: the bytes read, the error if
    any, and the reader afterwards. *)
Definition ReadFull_n (n : nat) (r : reader) : list byte * option GoErr * reader :=
  if decide (n ≤ length (rbuf r))%nat
  then (take n (rbuf r), None, mkReader (drop n (rbuf r)) (rend r))
  else match rbuf r with
       | [] => ([], Some (rend r), r)
       | _ => (rbuf r, Some (if decide (rend r = EOF) then ErrUnexpectedEOF else rend r),
               mkReader [] (rend r))
       end.

Definition ReadFull (n : nat) : dec (list byte) := λ r,
  match ReadFull_n n r with
  | (bs, None, r') => Ret (bs, r')
  | (_, Some e, _) => Fail e
  end.

(** [io.ReadAll]. *)
Definition ReadAll : dec (list byte) := λ r,
  if decide (rend r = EOF) then Ret (rbuf r, mkReader [] (rend r)) else Fail (rend r).

(** One call [r.Read(buf)] with a buffer of [n > 0] zeroed bytes, as [bytes.Reader]
    and [ZeroCopyReader] answer it: as much as there is, and no error while
    there is something.  The result is the buffer. *)
Definition Read (n : nat) : dec (list byte) := λ r,
  match rbuf r with
  | [] => Fail (rend r)
  | _ => let bs := take n (rbuf r) in
         Ret (bs ++ replicate (n - length bs) x00, mkReader (drop n (rbuf r)) (rend r))
  end.

(** [io.MultiReader(bytes.NewReader(data), r)]. *)
Definition MultiReader (data : list byte) (r : reader) : reader :=
  mkReader (data ++ rbuf r) (rend r).

(** [if errors.Is(err, io.EOF) { return nil }] after [m]: the caller keeps [b]. *)
Definition or_eof {A B} (m : dec A) (b : B) (k : A → dec B) : dec B := λ r,
  match m r with
  | Ret (a, r') => k a r'
  | Fail EOF => Ret (b, mkReader [] (rend r))
  | Fail e => Fail e
  | Panic => Panic
  end.

(** ** encode.go *)

Definition EncodeUint16 (num : Z) : list byte := [z2b (Z.shiftr num 8); z2b num].

Definition EncodeUint32 (num : Z) : list byte :=
  [z2b (Z.shiftr num 24); z2b (Z.shiftr num 16); z2b (Z.shiftr num 8); z2b num].

Definition EncodeBytes (field : list byte) : list byte :=
  let v := Z.of_nat (length field) in [z2b (Z.shiftr v 8); z2b v] ++ field.

Definition EncodeString (field : string) : list byte := EncodeBytes (bytes_of field).

(** The loop of [EncodeVBI]; [ret] is [ret[:x]], an array of four bytes.  A
    32-bit value leaves the loop within five rounds. *)
Fixpoint EncodeVBI_loop (fuel : nat) (v : Z) (ret : list byte) : outcome GoErr (list byte) :=
  match fuel with
  | O => Panic
  | S fuel =>
      let b := Z.land v 0x7F in
      let v := Z.shiftr v 7 in
      let b := if 0 <? v then Z.lor b 0x80 else b in
      if decide (4 ≤ length ret)%nat then Panic
      else let ret := ret ++ [z2b b] in
           if v =? 0 then Ret ret else EncodeVBI_loop fuel v ret
  end.

Definition EncodeVBI (num : Z) : outcome GoErr (list byte) := EncodeVBI_loop 5 (u32 num) [].

Definition EncodeBool (b : bool) : byte := if b then z2b 1 else z2b 0.

(** ** decode.go *)

Definition maxMultiplier : Z := 128 * 128 * 128.

Definition DecodeByte : dec byte :=
  b ← ReadFull 1;
  match b with b0 :: _ => mret b0 | _ => st_panic end.

Definition DecodeUint16 : dec Z :=
  num ← ReadFull 2;
  match num with
  | [n0; n1] => mret (Z.lor (b2z n1) (u16 (Z.shiftl (b2z n0) 8)))
  | _ => st_panic
  end.

Definition DecodeUint32 : dec Z :=
  num ← ReadFull 4;
  match num with
  | [n0; n1; n2; n3] =>
      mret (Z.lor (Z.lor (Z.lor (b2z n3) (u32 (Z.shiftl (b2z n2) 8)))
                  (u32 (Z.shiftl (b2z n1) 16)))
                  (u32 (Z.shiftl (b2z n0) 24)))
  | _ => st_panic
  end.

Definition DecodeBytes : dec (list byte) :=
  fieldLength ← DecodeUint16;
  ReadFull (Z.to_nat fieldLength).

Definition DecodeString : dec string :=
  buf ← DecodeBytes;
  mret (string_of buf).

(** The loop of [DecodeVBI]; the test [i >= 3] ends it in round 3. *)
Fixpoint DecodeVBI_loop (fuel : nat) (i vbi multiplier : Z) : dec Z :=
  match fuel with
  | O => st_panic
  | S fuel =>
      digit ← DecodeByte;
      let vbi := Z.lor vbi (u32 (Z.shiftl (Z.land (b2z digit) 0x7F) multiplier)) in
      if Z.land (b2z digit) 0x80 =? 0 then mret vbi
      else if 3 <=? i then st_fail ErrMaxLengthExceeded
      else
        let multiplier := u32 (multiplier + 7) in
        if maxMultiplier <? multiplier then st_fail ErrMaxLengthExceeded
        else DecodeVBI_loop fuel (i + 1) vbi multiplier
  end.

Definition DecodeVBI : dec Z := DecodeVBI_loop 4 0 0 0.

(** ** zerocopy.go *)

Record ZeroCopyReader := mkZeroCopyReader { zdata : list byte; zoffset : Z }.

Notation zdec := (ST ZeroCopyReader).

Definition NewZeroCopyReader (data : list byte) : ZeroCopyReader := mkZeroCopyReader data 0.

(** [Reset] gives the reader a new slice. *)
Definition ZeroCopyReader_Reset (data : list byte) (_ : ZeroCopyReader) : ZeroCopyReader :=
  mkZeroCopyReader data 0.

Definition zlen (r : ZeroCopyReader) : Z := Z.of_nat (length (zdata r)).

Definition Remaining (r : ZeroCopyReader) : Z := zlen r - zoffset r.
Definition Offset (r : ZeroCopyReader) : Z := zoffset r.

Definition set_zoffset (off : Z) (r : ZeroCopyReader) : ZeroCopyReader :=
  mkZeroCopyReader (zdata r) off.

(** [data[i]] and [data[lo:hi]] with Go's bounds checks. *)
Definition index_at (data : list byte) (i : Z) : option byte :=
  if i <? 0 then None else data !! Z.to_nat i.
Definition slice (data : list byte) (lo hi : Z) : option (list byte) :=
  if (0 <=? lo) && (lo <=? hi) && (hi <=? Z.of_nat (length data))
  then Some (take (Z.to_nat (hi - lo)) (drop (Z.to_nat lo) data)) else None.

Definition ReadByte : zdec byte := λ r,
  if zlen r <=? zoffset r then Fail ErrBufferTooShort
  else match index_at (zdata r) (zoffset r) with
       | Some b => Ret (b, set_zoffset (zoffset r + 1) r)
       | None => Panic
       end.

Definition ReadUint16 : zdec Z := λ r,
  if zlen r <? zoffset r + 2 then Fail ErrBufferTooShort
  else match slice (zdata r) (zoffset r) (zoffset r + 2) with
       | Some [b0; b1] =>
           Ret (Z.lor (b2z b1) (u16 (Z.shiftl (b2z b0) 8)), set_zoffset (zoffset r + 2) r)
       | _ => Panic
       end.

Definition ReadUint32 : zdec Z := λ r,
  if zlen r <? zoffset r + 4 then Fail ErrBufferTooShort
  else match slice (zdata r) (zoffset r) (zoffset r + 4) with
       | Some [b0; b1; b2; b3] =>
           Ret (Z.lor (Z.lor (Z.lor (b2z b3) (u32 (Z.shiftl (b2z b2) 8)))
                             (u32 (Z.shiftl (b2z b1) 16)))
                      (u32 (Z.shiftl (b2z b0) 24)), set_zoffset (zoffset r + 4) r)
       | _ => Panic
       end.

(** The loop [for i := 0; i < 4; i++]; [n] rounds are left. *)
Fixpoint ReadVBI_loop (n : nat) (vbi multiplier : Z) : zdec Z :=
  match n with
  | O => st_fail ErrMalformedVBI
  | S n =>
      b ← ReadByte;
      let vbi := Z.lor vbi (u32 (Z.shiftl (Z.land (b2z b) 0x7F) multiplier)) in
      if Z.land (b2z b) 0x80 =? 0 then mret vbi
      else ReadVBI_loop n vbi (u32 (multiplier + 7))
  end.

Definition ReadVBI : zdec Z := ReadVBI_loop 4 0 0.

(** The body of [ReadBytes] after its length prefix. *)
Definition ReadBytes_body (length : Z) : zdec (list byte) := λ r,
  if zlen r <? zoffset r + length then Fail ErrStringTooLong
  else match slice (zdata r) (zoffset r) (zoffset r + length) with
       | Some b => Ret (b, set_zoffset (zoffset r + length) r)
       | None => Panic
       end.

Definition ReadBytes : zdec (list byte) :=
  length ← ReadUint16;
  ReadBytes_body length.

Definition ReadBytesNoCopy : zdec (list byte) := ReadBytes.

Definition ReadString : zdec string :=
  b ← ReadBytes;
  mret (string_of b).

Definition ReadStringNoCopy : zdec (list byte) := ReadBytes.

Definition ReadN (n : Z) : zdec (list byte) := λ r,
  if zlen r <? i64 (zoffset r + n) then Fail ErrBufferTooShort
  else match slice (zdata r) (zoffset r) (i64 (zoffset r + n)) with
       | Some b => Ret (b, set_zoffset (i64 (zoffset r + n)) r)
       | None => Panic
       end.

Definition ReadRemaining : zdec (list byte) := λ r,
  match slice (zdata r) (zoffset r) (zlen r) with
  | Some b => Ret (b, set_zoffset (zlen r) r)
  | None => Panic
  end.

Definition Skip (n : Z) : zdec unit := λ r,
  if zlen r <? i64 (zoffset r + n) then Fail ErrBufferTooShort
  else Ret (tt, set_zoffset (i64 (zoffset r + n)) r).

Definition Peek (n : Z) : zdec (list byte) := λ r,
  if zlen r <? i64 (zoffset r + n) then Fail ErrBufferTooShort
  else match slice (zdata r) (zoffset r) (i64 (zoffset r + n)) with
       | Some b => Ret (b, r)
       | None => Panic
       end.

Definition PeekByte : zdec byte := λ r,
  if zlen r <=? zoffset r then Fail ErrBufferTooShort
  else match index_at (zdata r) (zoffset r) with
       | Some b => Ret (b, r)
       | None => Panic
       end.

(** [Read], the [io.Reader] view: into a buffer of [n] bytes. *)
Definition ZeroCopyReader_Read (n : nat) : zdec (list byte) := λ r,
  if zlen r <=? zoffset r then Fail ErrBufferTooShort
  else match slice (zdata r) (zoffset r) (zlen r) with
       | Some rest => Ret (take n rest, set_zoffset (zoffset r + Z.of_nat (length (take n rest))) r)
       | None => Panic
       end.

(** [io.ReadFull] over [ZeroCopyReader.Read]: the loop of [io.ReadAtLeast].
    [Read] delivers all it can, so the second round finds the reader empty. *)
Fixpoint ReadAtLeast_z (fuel min : nat) (acc : list byte) : zdec (list byte) :=
  if decide (min ≤ length acc)%nat then mret acc
  else match fuel with
       | O => st_panic
       | S fuel => bs ← ZeroCopyReader_Read (min - length acc);
                   ReadAtLeast_z fuel min (acc ++ bs)
       end.
Definition ReadFull_z (n : nat) : zdec (list byte) := ReadAtLeast_z 2 n [].

(** The [io.Reader] other packages see in a [ZeroCopyReader]: its remaining
    bytes, and [ErrBufferTooShort], not [io.EOF], at their end. *)
Definition zrest (r : ZeroCopyReader) : list byte := drop (Z.to_nat (zoffset r)) (zdata r).
Definition as_reader (r : ZeroCopyReader) : reader := mkReader (zrest r) ErrBufferTooShort.

(** * Properties *)

(** ** Bits *)

Lemma lor_shiftl_add a b k : 0 <= k → 0 <= a < 2 ^ k → 0 <= b →
  Z.lor a (Z.shiftl b k) = a + b * 2 ^ k.
Proof.
  intros Hk Ha Hb. rewrite <-Z.shiftl_mul_pow2 by done.
  assert (Hd : Z.land a (Z.shiftl b k) = 0).
  { apply Z.bits_inj'. intros n Hn. rewrite Z.land_spec, Z.bits_0.
    destruct (decide (n < k)).
    - rewrite Z.shiftl_spec_low by done. apply andb_false_r.
    - rewrite <-(Z.mod_small a (2 ^ k)), Z.mod_pow2_bits_high by lia. done. }
  rewrite Z.add_nocarry_lxor, Z.lxor_lor; done.
Qed.

Lemma land_127 v : Z.land v 0x7F = v mod 128.
Proof. apply (Z.land_ones v 7). lia. Qed.

Lemma shiftr_7 v : Z.shiftr v 7 = v / 128.
Proof. apply (Z.shiftr_div_pow2 v 7). lia. Qed.

Lemma lor_128 v : 0 <= v < 128 → Z.lor v 0x80 = v + 128.
Proof. intros H. apply (lor_shiftl_add v 1 7); lia. Qed.

Lemma land_128_byte b : (Z.land (b2z b) 0x80 =? 0) = (b2z b <? 128).
Proof. by destruct b. Qed.

Lemma b2z_z2b_small z : 0 <= z < 256 → b2z (z2b z) = z.
Proof. intros H. by rewrite b2z_z2b, u8_small. Qed.

(** ** Fixed-width fields *)

Lemma ReadFull_app n bs rest e : n = length bs →
  ReadFull n (mkReader (bs ++ rest) e) = Ret (bs, mkReader rest e).
Proof.
  intros ->. unfold ReadFull, ReadFull_n. simpl. rewrite decide_True by (rewrite length_app; lia).
  by rewrite take_app_length, drop_app_length.
Qed.

Lemma DecodeByte_cons b rest e : DecodeByte (mkReader (b :: rest) e) = Ret (b, mkReader rest e).
Proof. unfold DecodeByte, mbind, ST_bind. change (b :: rest) with ([b] ++ rest).
  by rewrite ReadFull_app. Qed.

Lemma DecodeByte_nil e : DecodeByte (mkReader [] e) = Fail e.
Proof. done. Qed.

Lemma be16 n : 0 <= n < 2 ^ 16 →
  Z.lor (b2z (z2b n)) (u16 (Z.shiftl (b2z (z2b (Z.shiftr n 8))) 8)) = n.
Proof.
  intros Hn. rewrite !b2z_z2b, Z.shiftr_div_pow2 by lia. unfold u8.
  assert (0 <= n / 2 ^ 8 < 2 ^ 8) by (split; [apply Z.div_pos; lia|apply Z.div_lt_upper_bound; lia]).
  rewrite (Z.mod_small (n / 2 ^ 8)) by done.
  assert (0 <= n mod 2 ^ 8 < 2 ^ 8) by (apply Z.mod_pos_bound; lia).
  rewrite u16_small by (rewrite Z.shiftl_mul_pow2; lia).
  rewrite lor_shiftl_add by lia. pose proof (Z.div_mod n (2 ^ 8)). lia.
Qed.

Lemma be32 n : 0 <= n < 2 ^ 32 →
  Z.lor (Z.lor (Z.lor (b2z (z2b n)) (u32 (Z.shiftl (b2z (z2b (Z.shiftr n 8))) 8)))
               (u32 (Z.shiftl (b2z (z2b (Z.shiftr n 16))) 16)))
        (u32 (Z.shiftl (b2z (z2b (Z.shiftr n 24))) 24)) = n.
Proof.
  intros Hn. rewrite !b2z_z2b, !Z.shiftr_div_pow2 by lia. unfold u8.
  set (q1 := n / 2 ^ 8). set (q2 := n / 2 ^ 16). set (q3 := n / 2 ^ 24).
  assert (E1 : q2 = q1 / 2 ^ 8) by (unfold q1, q2; rewrite Z.div_div by lia; done).
  assert (E2 : q3 = q2 / 2 ^ 8) by (unfold q2, q3; rewrite Z.div_div by lia; done).
  pose proof (Z.div_mod n (2 ^ 8)). pose proof (Z.div_mod q1 (2 ^ 8)).
  pose proof (Z.div_mod q2 (2 ^ 8)).
  pose proof (Z.mod_pos_bound n (2 ^ 8)). pose proof (Z.mod_pos_bound q1 (2 ^ 8)).
  pose proof (Z.mod_pos_bound q2 (2 ^ 8)). pose proof (Z.mod_pos_bound q3 (2 ^ 8)).
  fold q1 in H. rewrite <-E1 in H0. rewrite <-E2 in H1.
  assert (0 <= q3 < 2 ^ 8).
  { unfold q3. split; [apply Z.div_pos; lia|apply Z.div_lt_upper_bound; lia]. }
  rewrite (Z.mod_small q3) by lia.
  rewrite !u32_small by (rewrite Z.shiftl_mul_pow2; lia).
  rewrite (lor_shiftl_add (n mod 2 ^ 8)) by lia.
  rewrite (lor_shiftl_add (n mod 2 ^ 8 + q1 mod 2 ^ 8 * 2 ^ 8)) by lia.
  rewrite lor_shiftl_add by lia. lia.
Qed.

Lemma DecodeUint16_Encode n rest e : 0 <= n < 2 ^ 16 →
  DecodeUint16 (mkReader (EncodeUint16 n ++ rest) e) = Ret (n, mkReader rest e).
Proof.
  intros Hn. unfold DecodeUint16, mbind, ST_bind.
  rewrite ReadFull_app by done. unfold EncodeUint16. by rewrite be16.
Qed.

Lemma DecodeUint32_Encode n rest e : 0 <= n < 2 ^ 32 →
  DecodeUint32 (mkReader (EncodeUint32 n ++ rest) e) = Ret (n, mkReader rest e).
Proof.
  intros Hn. unfold DecodeUint32, mbind, ST_bind.
  rewrite ReadFull_app by done. unfold EncodeUint32. by rewrite be32.
Qed.

Lemma DecodeBytes_Encode f rest e : Z.of_nat (length f) < 2 ^ 16 →
  DecodeBytes (mkReader (EncodeBytes f ++ rest) e) = Ret (f, mkReader rest e).
Proof.
  intros Hf. unfold DecodeBytes, EncodeBytes.
  change ([z2b (Z.shiftr (Z.of_nat (length f)) 8); z2b (Z.of_nat (length f))] ++ f)
    with (EncodeUint16 (Z.of_nat (length f)) ++ f).
  rewrite <-app_assoc. unfold mbind, ST_bind. rewrite DecodeUint16_Encode by lia.
  rewrite Nat2Z.id. by apply ReadFull_app.
Qed.

Lemma DecodeString_Encode s rest e : Z.of_nat (String.length s) < 2 ^ 16 →
  DecodeString (mkReader (EncodeString s ++ rest) e) = Ret (s, mkReader rest e).
Proof.
  intros Hs. unfold DecodeString, EncodeString, mbind, ST_bind.
  rewrite DecodeBytes_Encode by (by rewrite length_bytes_of).
  by rewrite string_of_bytes_of.
Qed.

(** ** The variable byte integer *)

(** The digits of a value, least significant first, at most [k] of them. *)
Fixpoint vbi_digits (k : nat) (v : Z) : list byte :=
  match k with
  | O => []
  | S k => if v <? 128 then [z2b v] else z2b (v mod 128 + 128) :: vbi_digits k (v / 128)
  end.

Lemma div_128_range v k : 0 <= v < 2 ^ (7 * Z.of_nat (S k)) → 0 <= v / 128 < 2 ^ (7 * Z.of_nat k).
Proof.
  intros H. split; [apply Z.div_pos; lia|]. apply Z.div_lt_upper_bound; [lia|].
  replace (7 * Z.of_nat (S k)) with (7 + 7 * Z.of_nat k) in H by lia.
  rewrite Z.pow_add_r in H by lia. lia.
Qed.

Lemma EncodeVBI_loop_spec k : ∀ v ret,
  0 <= v < 2 ^ (7 * Z.of_nat k) → (0 < k)%nat →
  EncodeVBI_loop k v ret =
  if decide (length ret + length (vbi_digits k v) ≤ 4)%nat
  then Ret (ret ++ vbi_digits k v) else Panic.
Proof.
  induction k as [|k IH]; intros v ret Hv Hk; [lia|].
  cbn [EncodeVBI_loop vbi_digits]. rewrite land_127, shiftr_7.
  destruct (v <? 128) eqn:E; bool_prop.
  - rewrite (Z.div_small v 128), (Z.mod_small v 128) by lia. simpl.
    repeat case_decide; (done || lia).
  - pose proof (Z.div_le_lower_bound v 128 1). pose proof (Z.mod_pos_bound v 128).
    destruct (0 <? v / 128) eqn:E0; bool_prop; [|lia].
    destruct (v / 128 =? 0) eqn:E1; bool_prop; [lia|].
    rewrite lor_128 by lia. pose proof (div_128_range v k Hv) as Hd.
    assert (0 < k)%nat by (destruct k; simpl in Hd; lia).
    rewrite IH by (done || lia). rewrite length_app. simpl.
    assert (1 ≤ length (vbi_digits k (v / 128)))%nat.
    { destruct k; [lia|]. simpl. destruct (_ <? _); simpl; lia. }
    repeat case_decide; try lia; try done. by rewrite <-app_assoc.
Qed.

Lemma vbi_digits_length k v : 0 <= v < 2 ^ (7 * Z.of_nat k) → (0 < k)%nat →
  (1 ≤ length (vbi_digits k v) ≤ k)%nat.
Proof.
  revert v. induction k as [|k IH]; intros v Hv Hk; [lia|]. simpl.
  destruct (v <? 128) eqn:E; bool_prop; simpl; [lia|].
  pose proof (div_128_range v k Hv). pose proof (Z.div_le_lower_bound v 128 1).
  assert (0 < k)%nat by (destruct k; simpl in *; lia).
  specialize (IH (v / 128)). lia.
Qed.

(** More digits of fuel do not change the digits. *)
Lemma vbi_digits_more k j v : 0 <= v < 2 ^ (7 * Z.of_nat k) → (k ≤ j)%nat → (0 < k)%nat →
  vbi_digits j v = vbi_digits k v.
Proof.
  revert j v. induction k as [|k IH]; intros [|j] v Hv Hj Hk; try lia. simpl.
  destruct (v <? 128) eqn:E; [done|]. bool_prop. f_equal.
  pose proof (div_128_range v k Hv). pose proof (Z.div_le_lower_bound v 128 1).
  assert (0 < k)%nat by (destruct k; simpl in *; lia).
  apply IH; lia.
Qed.

Lemma DecodeVBI_loop_digits k : ∀ i vbi v rest e,
  (k + i = 4)%nat → (0 < k)%nat → 0 <= v < 2 ^ (7 * Z.of_nat k) →
  0 <= vbi < 2 ^ (7 * Z.of_nat i) →
  DecodeVBI_loop k (Z.of_nat i) vbi (7 * Z.of_nat i) (mkReader (vbi_digits k v ++ rest) e) =
  Ret (vbi + v * 2 ^ (7 * Z.of_nat i), mkReader rest e).
Proof.
  induction k as [|k IH]; intros i vbi v rest e Hki Hk Hv Hvbi; [lia|].
  assert (Hpow : 2 ^ (7 * Z.of_nat i) <= 2 ^ 21) by (apply Z.pow_le_mono_r; lia).
  assert (Hp0 : 0 < 2 ^ (7 * Z.of_nat i)) by (apply Z.pow_pos_nonneg; lia).
  cbn [DecodeVBI_loop vbi_digits]. unfold mbind, ST_bind.
  destruct (v <? 128) eqn:E; bool_prop; rewrite <-?app_comm_cons; simpl app;
    rewrite DecodeByte_cons, land_127, land_128_byte.
  - rewrite b2z_z2b_small, Z.mod_small by lia.
    rewrite u32_small by (rewrite Z.shiftl_mul_pow2; nia).
    rewrite lor_shiftl_add by lia. by rewrite (proj2 (Z.ltb_lt v 128)).
  - pose proof (Z.mod_pos_bound v 128). pose proof (Z.div_le_lower_bound v 128 1).
    pose proof (div_128_range v k Hv) as Hd.
    assert (0 < k)%nat by (destruct k; simpl in Hd; lia).
    rewrite b2z_z2b_small by lia.
    destruct (v mod 128 + 128 <? 128) eqn:E1; bool_prop; [lia|].
    destruct (3 <=? Z.of_nat i) eqn:E2; bool_prop; [lia|].
    rewrite (u32_small (_ + 7)) by lia. unfold maxMultiplier.
    destruct (_ <? 7 * Z.of_nat i + 7) eqn:E3; bool_prop; [lia|].
    change (v mod 128 + 128) with (v mod 128 + 1 * 128).
    rewrite Z.mod_add, Z.mod_mod by lia.
    rewrite u32_small by (rewrite Z.shiftl_mul_pow2; nia).
    rewrite lor_shiftl_add by lia.
    replace (Z.of_nat i + 1) with (Z.of_nat (S i)) by lia.
    replace (7 * Z.of_nat i + 7) with (7 * Z.of_nat (S i)) by lia.
    assert (HS : 2 ^ (7 * Z.of_nat (S i)) = 128 * 2 ^ (7 * Z.of_nat i)).
    { replace (7 * Z.of_nat (S i)) with (7 + 7 * Z.of_nat i) by lia.
      by rewrite Z.pow_add_r by lia. }
    rewrite IH by (rewrite ?HS; nia || lia). f_equal. f_equal. rewrite HS.
    pose proof (Z.div_mod v 128). nia.
Qed.

(** A value too large for [k] digits has more. *)
Lemma vbi_digits_ge k j v : 2 ^ (7 * Z.of_nat k) <= v → (k < j)%nat →
  (k < length (vbi_digits j v))%nat.
Proof.
  revert j v. induction k as [|k IH]; intros [|j] v Hv Hj; try lia; simpl.
  { destruct (_ <? _); simpl; lia. }
  replace (7 * Z.of_nat (S k)) with (7 + 7 * Z.of_nat k) in Hv by lia.
  rewrite Z.pow_add_r in Hv by lia. change (2 ^ 7) with 128 in Hv.
  assert (0 < 2 ^ (7 * Z.of_nat k)) by (apply Z.pow_pos_nonneg; lia).
  destruct (v <? 128) eqn:E'; bool_prop; [lia|]. simpl.
  specialize (IH j (v / 128)). pose proof (Z.div_le_lower_bound v 128 (2 ^ (7 * Z.of_nat k))). lia.
Qed.

Lemma EncodeVBI_spec num :
  EncodeVBI num = if u32 num <? 2 ^ 28 then Ret (vbi_digits 4 (u32 num)) else Panic.
Proof.
  unfold EncodeVBI. assert (H : 0 <= u32 num < 2 ^ 32) by (apply Z.mod_pos_bound; lia).
  rewrite EncodeVBI_loop_spec by (simpl; lia). rewrite Nat.add_0_l, app_nil_l.
  destruct (_ <? _) eqn:E; bool_prop.
  - rewrite (vbi_digits_more 4) by (simpl; lia).
    pose proof (vbi_digits_length 4 (u32 num)). by rewrite decide_True by (simpl in *; lia).
  - apply decide_False. pose proof (vbi_digits_ge 4 5 (u32 num)). simpl in *. lia.
Qed.

Lemma vbi_digits_min k j v : 0 <= v < 2 ^ (7 * Z.of_nat j) → (0 < j ≤ k)%nat →
  (length (vbi_digits k v) ≤ j)%nat.
Proof.
  intros Hv Hj. rewrite (vbi_digits_more j) by lia.
  apply (vbi_digits_length j v); lia.
Qed.

(** What a successful run of the decoding loop read. *)
Lemma DecodeVBI_loop_inv k : ∀ i vbi r n r',
  (k + i = 4)%nat → 0 <= vbi < 2 ^ (7 * Z.of_nat i) →
  DecodeVBI_loop k (Z.of_nat i) vbi (7 * Z.of_nat i) r = Ret (n, r') →
  ∃ ds, rbuf r = ds ++ rbuf r' ∧ rend r' = rend r ∧ (1 ≤ length ds ≤ k)%nat ∧
        0 <= n < 2 ^ (7 * Z.of_nat (i + length ds)).
Proof.
  induction k as [|k IH]; intros i vbi [buf e] n r' Hki Hvbi; [done|].
  assert (Hpow : 2 ^ (7 * Z.of_nat i) <= 2 ^ 21) by (apply Z.pow_le_mono_r; lia).
  assert (HS : 2 ^ (7 * Z.of_nat (S i)) = 128 * 2 ^ (7 * Z.of_nat i)).
  { replace (7 * Z.of_nat (S i)) with (7 + 7 * Z.of_nat i) by lia.
    by rewrite Z.pow_add_r by lia. }
  cbn [DecodeVBI_loop]. unfold mbind, ST_bind. destruct buf as [|b buf]; [done|].
  rewrite DecodeByte_cons, land_127, land_128_byte.
  pose proof (Z.mod_pos_bound (b2z b) 128).
  rewrite u32_small by (rewrite Z.shiftl_mul_pow2; nia).
  rewrite lor_shiftl_add by lia. destruct (b2z b <? 128).
  - intros [= <- <-]. exists [b]. simpl. rewrite Nat.add_1_r, HS. split_and!; (done || nia).
  - destruct (3 <=? Z.of_nat i) eqn:E2; bool_prop; [done|].
    rewrite (u32_small (_ + 7)) by lia. unfold maxMultiplier.
    destruct (_ <? 7 * Z.of_nat i + 7) eqn:E3; bool_prop; [lia|].
    replace (Z.of_nat i + 1) with (Z.of_nat (S i)) by lia.
    replace (7 * Z.of_nat i + 7) with (7 * Z.of_nat (S i)) by lia.
    intros Hd. apply IH in Hd as (ds & Hb & He & Hl & Hn); [|lia|rewrite HS; nia].
    exists (b :: ds). cbn [length rbuf rend] in *. rewrite Hb. rewrite Nat.add_succ_r.
    destruct Hn. split_and!; (done || lia).
Qed.

Lemma DecodeVBI_loop_total k : ∀ i vbi r,
  (k + i = 4)%nat → (0 < k)%nat →
  DecodeVBI_loop k (Z.of_nat i) vbi (7 * Z.of_nat i) r ≠ Panic.
Proof.
  induction k as [|k IH]; intros i vbi [buf e] Hki Hk; [lia|].
  cbn [DecodeVBI_loop]. unfold mbind, ST_bind. destruct buf as [|b buf]; [done|].
  rewrite DecodeByte_cons. destruct (_ =? _); [done|].
  destruct (3 <=? Z.of_nat i) eqn:E2; bool_prop; [done|].
  rewrite (u32_small (_ + 7)) by lia.
  destruct (_ <? 7 * Z.of_nat i + 7); [done|].
  replace (Z.of_nat i + 1) with (Z.of_nat (S i)) by lia.
  replace (7 * Z.of_nat i + 7) with (7 * Z.of_nat (S i)) by lia. apply IH; lia.
Qed.

Lemma DecodeVBI_inv r n r' : DecodeVBI r = Ret (n, r') →
  ∃ ds, rbuf r = ds ++ rbuf r' ∧ rend r' = rend r ∧ (1 ≤ length ds ≤ 4)%nat ∧
        0 <= n < 2 ^ (7 * Z.of_nat (length ds)).
Proof. apply (DecodeVBI_loop_inv 4 0); simpl; lia. Qed.

Lemma DecodeVBI_digits n rest e : 0 <= n < 2 ^ 28 →
  DecodeVBI (mkReader (vbi_digits 4 n ++ rest) e) = Ret (n, mkReader rest e).
Proof.
  intros Hn. unfold DecodeVBI.
  rewrite (DecodeVBI_loop_digits 4 0) by (simpl; lia). f_equal. f_equal. lia.
Qed.

(** The variable byte integer of every remaining length the protocol allows
    ([0, 2^28)) is one to four bytes, decodes to the same value in front of any
    further data, and no byte sequence that decodes to that value is shorter. *)
Theorem vbi_roundtrip n : 0 <= n < 2 ^ 28 →
  ∃ bs, EncodeVBI n = Ret bs ∧ (1 ≤ length bs ≤ 4)%nat ∧
    (∀ rest e, DecodeVBI (mkReader (bs ++ rest) e) = Ret (n, mkReader rest e)) ∧
    (∀ ds rest e, DecodeVBI (mkReader (ds ++ rest) e) = Ret (n, mkReader rest e) →
                  (length bs ≤ length ds)%nat).
Proof.
  intros Hn. exists (vbi_digits 4 n).
  rewrite EncodeVBI_spec, u32_small, (proj2 (Z.ltb_lt n _)) by lia.
  split_and!; [done|apply vbi_digits_length; simpl; lia..|by auto using DecodeVBI_digits|].
  intros ds rest e (ds' & Hds & _ & Hl & Hb)%DecodeVBI_inv. simpl in Hds.
  apply app_inv_tail in Hds as ->. by apply vbi_digits_min.
Qed.

Lemma vbi_roundtrip_witness :
  0 <= 268435455 < 2 ^ 28 ∧
  ∃ bs, EncodeVBI 268435455 = Ret bs ∧ (1 ≤ length bs ≤ 4)%nat.
Proof.
  split; [lia|]. destruct (vbi_roundtrip 268435455) as (bs & H1 & H2 & _); [lia|]. eauto.
Defined.

(** Bounds of the variable byte integer: the encoder's four-byte array is
    overrun (an index panic) exactly for values whose low 32 bits reach
    [2^28]; the decoder never panics, whatever the input, and what it returns
    is in [0, 2^28), read from at most four bytes. *)
Theorem vbi_bounds num r :
  (EncodeVBI num = Panic ↔ 2 ^ 28 <= u32 num) ∧
  DecodeVBI r ≠ Panic ∧
  ∀ n r', DecodeVBI r = Ret (n, r') → 0 <= n < 2 ^ 28 ∧
    (length (rbuf r) ≤ length (rbuf r') + 4)%nat.
Proof.
  split_and!.
  - rewrite EncodeVBI_spec. destruct (_ <? _) eqn:E; bool_prop; split; (done || lia).
  - apply (DecodeVBI_loop_total 4 0); lia.
  - intros n r' (ds & Hb & _ & Hl & Hn)%DecodeVBI_inv. rewrite Hb, length_app.
    assert (2 ^ (7 * Z.of_nat (length ds)) <= 2 ^ 28) by (apply Z.pow_le_mono_r; lia). lia.
Qed.

(** ** The zero-copy reader against the stream decoders *)

Definition zok (z : ZeroCopyReader) : Prop := 0 <= zoffset z <= zlen z.

(** Two runs agree: the same value and the same remaining bytes, or two errors. *)
Definition agree {A} (data : list byte) (e : GoErr) (m : outcome GoErr (A * ZeroCopyReader))
    (d : outcome GoErr (A * reader)) : Prop :=
  match m, d with
  | Ret (a, z), Ret (a', r) => a = a' ∧ zok z ∧ zdata z = data ∧ r = mkReader (zrest z) e
  | Fail _, Fail _ => True
  | _, _ => False
  end.

Definition simc {A} (m : zdec A) (d : dec A) : Prop :=
  ∀ z e, zok z → agree (zdata z) e (m z) (d (mkReader (zrest z) e)).

Lemma simc_ret {A} (a : A) : simc (mret a) (mret a).
Proof. intros z e Hz. unfold mret, ST_ret, agree. done. Qed.

Lemma simc_fail {A} e1 e2 : simc (A := A) (st_fail e1) (st_fail e2).
Proof. by intros z e Hz. Qed.

Lemma simc_bind {A B} (m : zdec A) (d : dec A) (k1 : A → zdec B) (k2 : A → dec B) :
  simc m d → (∀ a, simc (k1 a) (k2 a)) → simc (m ≫= k1) (d ≫= k2).
Proof.
  intros Hm Hk z e Hz. specialize (Hm z e Hz). unfold mbind, ST_bind, agree in *.
  destruct (m z) as [[a z']| |], (d (mkReader (zrest z) e)) as [[a' r']| |]; try done.
  destruct Hm as (<- & Hz' & Hd & ->). specialize (Hk a z' e Hz'). unfold agree in Hk.
  by rewrite Hd in Hk.
Qed.

Lemma zrest_length z : zok z → Z.of_nat (length (zrest z)) = zlen z - zoffset z.
Proof. unfold zok, zlen, zrest. rewrite length_drop. lia. Qed.

Lemma slice_zrest z n : zok z → 0 <= n → zoffset z + n <= zlen z →
  slice (zdata z) (zoffset z) (zoffset z + n) = Some (take (Z.to_nat n) (zrest z)).
Proof.
  unfold zok, zlen, slice, zrest. intros Hz Hn Hle.
  rewrite !(proj2 (Z.leb_le _ _)) by lia. simpl. do 3 f_equal. lia.
Qed.

Lemma zrest_advance z n : zok z → 0 <= n →
  zrest (set_zoffset (zoffset z + n) z) = drop (Z.to_nat n) (zrest z).
Proof.
  unfold zok, zrest. simpl. intros Hz Hn. rewrite drop_drop. f_equal. lia.
Qed.

(** One span of [n] bytes: the common step of all fixed-size reads. *)
Lemma agree_span {A} z e n (f : list byte → A) err : zok z → 0 <= n →
  agree (zdata z) e
    (if zlen z <? zoffset z + n then Fail err
     else match slice (zdata z) (zoffset z) (zoffset z + n) with
          | Some b => Ret (f b, set_zoffset (zoffset z + n) z)
          | None => Panic
          end)
    (match ReadFull (Z.to_nat n) (mkReader (zrest z) e) with
     | Ret (b, r) => Ret (f b, r) | Fail x => Fail x | Panic => Panic end).
Proof.
  intros Hz Hn. pose proof (zrest_length z Hz) as Hl. unfold ReadFull, ReadFull_n. simpl.
  destruct (_ <? _) eqn:E; bool_prop.
  - rewrite decide_False by lia. by destruct (zrest z).
  - rewrite slice_zrest by done. rewrite decide_True by lia. simpl.
    split_and!; [done|unfold zok in *; simpl; unfold zlen in *; simpl; lia..|done|].
    by rewrite zrest_advance.
Qed.

Lemma ReadByte_slice z : zok z →
  ReadByte z = if zlen z <? zoffset z + 1 then Fail ErrBufferTooShort
     else match slice (zdata z) (zoffset z) (zoffset z + 1) with
          | Some b => match b with b0 :: _ => Ret (b0, set_zoffset (zoffset z + 1) z)
                                 | [] => Panic end
          | None => Panic
          end.
Proof.
  intros Hz. unfold ReadByte. destruct (zlen z <=? zoffset z) eqn:E, (zlen z <? _) eqn:E';
    bool_prop; try done; try lia.
  rewrite slice_zrest by (done || lia). unfold index_at.
  destruct (_ <? 0) eqn:E0; bool_prop; [unfold zok in Hz; lia|].
  pose proof (zrest_length z Hz). rewrite <-(Nat.add_0_r (Z.to_nat (zoffset z))).
  rewrite <-lookup_drop. fold (zrest z). change (Z.to_nat 1) with 1%nat.
  destruct (zrest z); [simpl in *; lia|done].
Qed.

Lemma simc_ReadByte : simc ReadByte DecodeByte.
Proof.
  intros z e Hz. pose proof (zrest_length z Hz) as Hl. rewrite ReadByte_slice by done.
  destruct (_ <? _) eqn:E; bool_prop.
  - unfold zok in Hz. destruct (zrest z); [done|simpl in Hl; lia].
  - rewrite slice_zrest by (done || lia). change (Z.to_nat 1) with 1%nat.
    destruct (zrest z) as [|b rest] eqn:Hr; [simpl in Hl; lia|].
    rewrite DecodeByte_cons. simpl. split_and!;
      [done|unfold zok in *; simpl; unfold zlen in *; simpl; lia..|done|].
    rewrite zrest_advance, Hr by (done || lia). done.
Qed.

Lemma simc_ReadUint16 : simc ReadUint16 DecodeUint16.
Proof.
  intros z e Hz. pose proof (agree_span z e 2 id ErrBufferTooShort Hz ltac:(lia)) as H.
  unfold ReadUint16, DecodeUint16, mbind, ST_bind. change (Z.to_nat 2) with 2%nat in H.
  destruct (_ <? _) eqn:E; bool_prop.
  - by destruct (ReadFull 2 _) as [[]| |].
  - rewrite slice_zrest in * by (done || lia). pose proof (zrest_length z Hz) as Hl.
    destruct (zrest z) as [|b0 [|b1 rest]]; simpl in Hl; [lia..|].
    change (b0 :: b1 :: rest) with ([b0; b1] ++ rest) in *.
    rewrite ReadFull_app in * by done. unfold agree in *. simpl in *. naive_solver.
Qed.

Lemma simc_ReadUint32 : simc ReadUint32 DecodeUint32.
Proof.
  intros z e Hz. pose proof (agree_span z e 4 id ErrBufferTooShort Hz ltac:(lia)) as H.
  unfold ReadUint32, DecodeUint32, mbind, ST_bind. change (Z.to_nat 4) with 4%nat in H.
  destruct (_ <? _) eqn:E; bool_prop.
  - by destruct (ReadFull 4 _) as [[]| |].
  - rewrite slice_zrest in * by (done || lia). pose proof (zrest_length z Hz) as Hl.
    destruct (zrest z) as [|b0 [|b1 [|b2 [|b3 rest]]]]; simpl in Hl; [lia..|].
    change (b0 :: b1 :: b2 :: b3 :: rest) with ([b0; b1; b2; b3] ++ rest) in *.
    rewrite ReadFull_app in * by done. unfold agree in *. simpl in *. naive_solver.
Qed.

Lemma simc_ReadBytes_body n : 0 <= n → simc (ReadBytes_body n) (ReadFull (Z.to_nat n)).
Proof.
  intros Hn z e Hz. pose proof (agree_span z e n id ErrStringTooLong Hz Hn) as H.
  unfold ReadBytes_body. by destruct (ReadFull _ _) as [[]| |].
Qed.

Lemma ReadUint16_nonneg z n z' : ReadUint16 z = Ret (n, z') → 0 <= n.
Proof.
  unfold ReadUint16. destruct (_ <? _); [done|].
  destruct (slice _ _ _) as [[|b0 [|b1 []]]|]; try done. intros [= <- _].
  apply Z.lor_nonneg. pose proof (b2z_range b1). pose proof (u16_range (Z.shiftl (b2z b0) 8)). lia.
Qed.

Lemma simc_ReadBytes : simc ReadBytes DecodeBytes.
Proof.
  intros z e Hz. pose proof (simc_ReadUint16 z e Hz) as H.
  unfold ReadBytes, DecodeBytes, mbind, ST_bind, agree in *.
  destruct (ReadUint16 z) as [[n z']| |] eqn:E, (DecodeUint16 (mkReader (zrest z) e))
    as [[n' r']| |]; try done.
  destruct H as (<- & Hz' & Hd & ->). apply ReadUint16_nonneg in E.
  pose proof (simc_ReadBytes_body n E z' e Hz') as H. unfold agree in H. by rewrite Hd in H.
Qed.

Lemma simc_ReadString : simc ReadString DecodeString.
Proof. apply simc_bind; [apply simc_ReadBytes|intros; apply simc_ret]. Qed.

Lemma simc_ReadVBI_loop k : ∀ i vbi, (k + i = 4)%nat →
  simc (ReadVBI_loop k vbi (7 * Z.of_nat i))
       (DecodeVBI_loop k (Z.of_nat i) vbi (7 * Z.of_nat i)) ∨ k = 0%nat.
Proof.
  induction k as [|k IH]; intros i vbi Hki; [by right|left].
  cbn [ReadVBI_loop DecodeVBI_loop]. apply simc_bind; [apply simc_ReadByte|]. intros b.
  destruct (_ =? 0); [apply simc_ret|].
  destruct (3 <=? Z.of_nat i) eqn:E; bool_prop.
  - assert (k = 0)%nat as -> by lia. apply simc_fail.
  - rewrite !(u32_small (_ + 7)) by lia. unfold maxMultiplier.
    destruct (_ <? 7 * Z.of_nat i + 7) eqn:E3; bool_prop; [lia|].
    replace (Z.of_nat i + 1) with (Z.of_nat (S i)) by lia.
    replace (7 * Z.of_nat i + 7) with (7 * Z.of_nat (S i)) by lia.
    edestruct (IH (S i)) as [H|]; [lia|exact H|lia].
Qed.

Lemma simc_ReadVBI : simc ReadVBI DecodeVBI.
Proof. destruct (simc_ReadVBI_loop 4 0 0) as [H|]; [done|exact H|done]. Qed.

#[export] Hint Resolve simc_ret simc_fail simc_bind simc_ReadByte simc_ReadUint16
  simc_ReadUint32 simc_ReadBytes simc_ReadString simc_ReadVBI : flux.

(** [as_reader] is what [io.ReadFull] sees of a zero-copy reader. *)
Lemma ReadFull_z_agree n z : zok z →
  agree (zdata z) ErrBufferTooShort (ReadFull_z n z) (ReadFull n (as_reader z)).
Proof.
  intros Hz. pose proof (zrest_length z Hz) as Hl. unfold ReadFull_z, as_reader.
  unfold ReadFull, ReadFull_n. cbn [ReadAtLeast_z rbuf rend length].
  destruct n as [|n].
  { rewrite decide_True by lia. rewrite decide_True by lia. by rewrite take_0. }
  rewrite decide_False by lia. unfold mbind, ST_bind, ZeroCopyReader_Read.
  destruct (zlen z <=? zoffset z) eqn:E; bool_prop.
  { unfold zok in Hz. destruct (zrest z); [done|simpl in Hl; lia]. }
  replace (zlen z) with (zoffset z + (zlen z - zoffset z)) at 1 by lia.
  rewrite slice_zrest by (done || lia). rewrite (take_ge (zrest z)) by lia. rewrite Nat.sub_0_r, app_nil_l.
  destruct (decide (S n ≤ length (zrest z))%nat).
  - rewrite decide_True by (rewrite length_take; lia). unfold mret, ST_ret, agree.
    rewrite length_take, Nat.min_l by lia. split_and!; [done| |done|].
    + unfold zok in *. simpl. unfold zlen in *. simpl. lia.
    + rewrite zrest_advance by (done || lia). by rewrite Nat2Z.id.
  - rewrite take_ge by lia. rewrite decide_False by lia. cbn [zoffset set_zoffset].
    unfold zlen. cbn [zdata set_zoffset]. fold (zlen z). rewrite Hl.
    rewrite (proj2 (Z.leb_le _ _)) by lia. by destruct (zrest z).
Qed.

(** The zero-copy reader agrees with the stream decoders: from any position
    in the data every read returns the same value and leaves the same bytes,
    or both fail; and seen as an [io.Reader] it delivers its remaining bytes
    and then [ErrBufferTooShort]. *)
Theorem zerocopy_agrees z e n : zok z →
  let r := mkReader (zrest z) e in
  agree (zdata z) e (ReadByte z) (DecodeByte r) ∧
  agree (zdata z) e (ReadUint16 z) (DecodeUint16 r) ∧
  agree (zdata z) e (ReadUint32 z) (DecodeUint32 r) ∧
  agree (zdata z) e (ReadVBI z) (DecodeVBI r) ∧
  agree (zdata z) e (ReadBytes z) (DecodeBytes r) ∧
  agree (zdata z) e (ReadString z) (DecodeString r) ∧
  agree (zdata z) ErrBufferTooShort (ReadFull_z n z) (ReadFull n (as_reader z)).
Proof.
  intros Hz r. split_and!; [apply simc_ReadByte|apply simc_ReadUint16|apply simc_ReadUint32
    |apply simc_ReadVBI|apply simc_ReadBytes|apply simc_ReadString|apply ReadFull_z_agree]; done.
Qed.

Lemma zerocopy_agrees_witness :
  agree [x00; x02; x41; x42] EOF (ReadString (NewZeroCopyReader [x00; x02; x41; x42]))
    (DecodeString (NewReader [x00; x02; x41; x42])) ∧
  DecodeString (NewReader [x00; x02; x41; x42]) = Ret ("AB"%string, NewReader []).
Proof.
  split; [|reflexivity].
  assert (Hz : zok (NewZeroCopyReader [x00; x02; x41; x42])) by (unfold zok, zlen; simpl; lia).
  exact (proj1 (proj2 (proj2 (proj2 (proj2 (proj2 (zerocopy_agrees _ EOF 0 Hz))))))).
Defined.

(** Every primitive decoder inverts its encoder in front of any further
    data and whatever error ends the stream: 16- and 32-bit integers, and byte
    strings and strings of fewer than [2^16] bytes. *)
Theorem codec_roundtrip n m f s rest e :
  0 <= n < 2 ^ 16 → 0 <= m < 2 ^ 32 →
  Z.of_nat (length f) < 2 ^ 16 → Z.of_nat (String.length s) < 2 ^ 16 →
  DecodeUint16 (mkReader (EncodeUint16 n ++ rest) e) = Ret (n, mkReader rest e) ∧
  DecodeUint32 (mkReader (EncodeUint32 m ++ rest) e) = Ret (m, mkReader rest e) ∧
  DecodeBytes (mkReader (EncodeBytes f ++ rest) e) = Ret (f, mkReader rest e) ∧
  DecodeString (mkReader (EncodeString s ++ rest) e) = Ret (s, mkReader rest e).
Proof.
  auto using DecodeUint16_Encode, DecodeUint32_Encode, DecodeBytes_Encode, DecodeString_Encode.
Qed.

Lemma codec_roundtrip_witness :
  DecodeUint32 (mkReader (EncodeUint32 4294967295 ++ [x01]) EOF) =
  Ret (4294967295, mkReader [x01] EOF).
Proof.
  refine (proj1 (proj2 (codec_roundtrip 0 4294967295 [] EmptyString [x01] EOF _ _ _ _)));
    simpl; lia.
Defined.

(** ** Simulation against a stream that ends in [io.EOF] *)

Definition sime {A} (m : zdec A) (d : dec A) : Prop :=
  ∀ z, zok z → agree (zdata z) EOF (m z) (d (mkReader (zrest z) EOF)).

Lemma sime_simc {A} (m : zdec A) (d : dec A) : simc m d → sime m d.
Proof. intros H z Hz. by apply H. Qed.

Lemma sime_bind {A B} (m : zdec A) (d : dec A) (k1 : A → zdec B) (k2 : A → dec B) :
  sime m d → (∀ a, sime (k1 a) (k2 a)) → sime (m ≫= k1) (d ≫= k2).
Proof.
  intros Hm Hk z Hz. specialize (Hm z Hz). unfold mbind, ST_bind, agree in *.
  destruct (m z) as [[a z']| |], (d (mkReader (zrest z) EOF)) as [[a' r']| |]; try done.
  destruct Hm as (<- & Hz' & Hd & ->). specialize (Hk a z' Hz'). unfold agree in Hk.
  by rewrite Hd in Hk.
Qed.

Lemma sime_ReadRemaining : sime ReadRemaining ReadAll.
Proof.
  intros z Hz. pose proof (zrest_length z Hz) as Hl. unfold ReadRemaining.
  assert (Hs : slice (zdata z) (zoffset z) (zlen z) = Some (zrest z)).
  { replace (zlen z) with (zoffset z + (zlen z - zoffset z)) by lia. unfold zok in Hz.
    rewrite slice_zrest by (done || lia). by rewrite take_ge by lia. }
  rewrite Hs. unfold ReadAll, agree. cbn [rbuf rend]. rewrite decide_True by done.
  split_and!; [done| |done|].
  - unfold zok, zlen. simpl. lia.
  - f_equal. unfold zrest, zlen. simpl. by rewrite Nat2Z.id, drop_all.
Qed.

#[export] Hint Resolve sime_simc sime_bind sime_ReadRemaining : flux.

(** [ReadBytes] with the conversion to a string moved into the continuation. *)
Lemma sime_ReadBytes_string {B} (k1 : list byte → zdec B) (k2 : string → dec B) :
  (∀ b, sime (k1 b) (k2 (string_of b))) → sime (ReadBytes ≫= k1) (DecodeString ≫= k2).
Proof.
  intros H z Hz. pose proof (simc_ReadBytes z EOF Hz) as Hb.
  unfold DecodeString, mbind, ST_bind, agree in *.
  destruct (ReadBytes z) as [[b z']| |], (DecodeBytes (mkReader (zrest z) EOF)) as [[b' r']| |];
    try done.
  destruct Hb as (<- & Hz' & Hd & ->). specialize (H b z' Hz'). unfold agree in H.
  by rewrite Hd in H.
Qed.

(** A decoder run on a whole slice. *)
Lemma sime_fst {A} (m : zdec A) (d : dec A) data : sime m d →
  match fst <$> m (NewZeroCopyReader data), fst <$> d (NewReader data) with
  | Ret a, Ret a' => a = a'
  | Fail _, Fail _ => True
  | _, _ => False
  end.
Proof.
  intros H. specialize (H (NewZeroCopyReader data)). unfold agree in H.
  change (mkReader (zrest (NewZeroCopyReader data)) EOF) with (NewReader data) in H.
  destruct (m _) as [[a z']| |], (d (NewReader data)) as [[a' r']| |]; simpl;
    try (apply H; unfold zok, zlen; simpl; lia).
Qed.

(** ** Fields in the range of their Go types *)

Definition u16_ok (n : Z) : Prop := 0 <= n < 2 ^ 16.
Definition u8_ok (n : Z) : Prop := 0 <= n < 2 ^ 8.
Definition u32_ok (n : Z) : Prop := 0 <= n < 2 ^ 32.
Definition vbi_ok (n : Z) : Prop := 0 <= n < 2 ^ 28.
Definition str_ok (s : string) : Prop := Z.of_nat (String.length s) < 2 ^ 16.
Definition bin_ok (b : list byte) : Prop := Z.of_nat (length b) < 2 ^ 16.

(** Run the next read of a decoder on an encoded field. *)
Ltac dec_step :=
  unfold mbind, ST_bind, mret, ST_ret; cbn beta iota zeta;
  first [ rewrite DecodeString_Encode by done
        | rewrite DecodeBytes_Encode by done
        | rewrite DecodeUint16_Encode by done
        | rewrite DecodeByte_cons ]; cbn beta iota zeta.

Lemma DecodeString_nil : DecodeString (mkReader [] EOF) = Fail EOF.
Proof. done. Qed.

Lemma DecodeUint16_Encode' n e : u16_ok n →
  DecodeUint16 (mkReader (EncodeUint16 n) e) = Ret (n, mkReader [] e).
Proof. intros H. pose proof (DecodeUint16_Encode n [] e H) as E. by rewrite app_nil_r in E. Qed.

Lemma concat_length_ge {A} (f : A → list byte) l : (∀ x, (1 ≤ length (f x))%nat) →
  (length l ≤ length (concat (f <$> l)))%nat.
Proof.
  intros Hf. induction l as [|x l IH]; [simpl; lia|]. rewrite fmap_cons. cbn [concat length].
  rewrite length_app. specialize (Hf x). lia.
Qed.

(** ** No input makes a read panic *)

Definition nopanic {S A} (m : ST S A) : Prop := ∀ s, m s ≠ Panic.

Lemma nopanic_bind {S A B} (m : ST S A) (k : A → ST S B) :
  nopanic m → (∀ a, nopanic (k a)) → nopanic (m ≫= k).
Proof.
  intros Hm Hk s. unfold mbind, ST_bind. specialize (Hm s).
  destruct (m s) as [[a s']| |]; [apply Hk|done..].
Qed.
Lemma nopanic_ret {S A} (a : A) : nopanic (S := S) (mret a).
Proof. by intros s. Qed.
Lemma nopanic_fail {S A} e : nopanic (S := S) (A := A) (st_fail e).
Proof. by intros s. Qed.
Lemma nopanic_lift {S A} (o : outcome GoErr A) : o ≠ Panic → nopanic (S := S) (st_lift o).
Proof. intros Ho s. by destruct o. Qed.

(** What a successful read consumed. *)
Lemma ReadFull_inv n r bs r' : ReadFull n r = Ret (bs, r') →
  length bs = n ∧ rbuf r = bs ++ rbuf r' ∧ rend r' = rend r.
Proof.
  unfold ReadFull, ReadFull_n. case_decide; [|by destruct (rbuf r)].
  intros [= <- <-]. simpl. rewrite length_take, take_drop. split_and!; (done || lia).
Qed.

Lemma nopanic_ReadFull n : nopanic (ReadFull n).
Proof. intros r. unfold ReadFull, ReadFull_n. case_decide; [done|]. by destruct (rbuf r). Qed.

Lemma nopanic_DecodeByte : nopanic DecodeByte.
Proof. intros [[|b l] e]; by rewrite ?DecodeByte_cons. Qed.

Lemma DecodeUint16_cons b0 b1 l e : DecodeUint16 (mkReader (b0 :: b1 :: l) e) =
  Ret (Z.lor (b2z b1) (u16 (Z.shiftl (b2z b0) 8)), mkReader l e).
Proof.
  unfold DecodeUint16, mbind, ST_bind. change (b0 :: b1 :: l) with ([b0; b1] ++ l).
  by rewrite ReadFull_app.
Qed.

Lemma nopanic_DecodeUint16 : nopanic DecodeUint16.
Proof. intros [[|b0 [|b1 l]] e]; by rewrite ?DecodeUint16_cons. Qed.

Lemma nopanic_DecodeUint32 : nopanic DecodeUint32.
Proof.
  intros r. unfold DecodeUint32, mbind, ST_bind. pose proof (nopanic_ReadFull 4 r).
  destruct (ReadFull 4 r) as [[bs r']| |] eqn:E; [|done..].
  apply ReadFull_inv in E as (Hl & _). by destruct bs as [|? [|? [|? [|? [|]]]]].
Qed.

Lemma nopanic_DecodeBytes : nopanic DecodeBytes.
Proof. apply nopanic_bind; [apply nopanic_DecodeUint16|intros; apply nopanic_ReadFull]. Qed.

Lemma nopanic_DecodeString : nopanic DecodeString.
Proof. apply nopanic_bind; [apply nopanic_DecodeBytes|intros; apply nopanic_ret]. Qed.

Lemma nopanic_ReadAll : nopanic ReadAll.
Proof. intros r. unfold ReadAll. by case_decide. Qed.

Lemma nopanic_DecodeVBI : nopanic DecodeVBI.
Proof. intros r. apply (DecodeVBI_loop_total 4 0); lia. Qed.

Create HintDb nopanic.
#[export] Hint Resolve nopanic_bind nopanic_ret nopanic_fail nopanic_ReadFull nopanic_DecodeByte
  nopanic_DecodeUint16 nopanic_DecodeUint32 nopanic_DecodeBytes nopanic_DecodeString nopanic_ReadAll
  nopanic_DecodeVBI : nopanic.

Lemma DecodeString_inv r s r' : DecodeString r = Ret (s, r') →
  ∃ used, rbuf r = used ++ rbuf r' ∧ rend r' = rend r ∧ (2 ≤ length used)%nat.
Proof.
  unfold DecodeString, DecodeBytes, mbind, ST_bind.
  destruct r as [[|b0 [|b1 l]] e]; [done..|]. rewrite DecodeUint16_cons.
  destruct (ReadFull _ _) as [[bs r1]| |] eqn:E; [|done..]. intros [= <- <-].
  apply ReadFull_inv in E as (_ & Hb & He). simpl in *. exists (b0 :: b1 :: bs).
  rewrite Hb. split_and!; [done|done|simpl; lia].
Qed.

(** ** Reads only consume *)

(** A successful run leaves no more bytes than it found, and the same end. *)
Definition consumes {A} (m : dec A) : Prop := ∀ r a r', m r = Ret (a, r') →
  (length (rbuf r') ≤ length (rbuf r))%nat ∧ rend r' = rend r.

Lemma consumes_bind {A B} (m : dec A) (k : A → dec B) :
  consumes m → (∀ a, consumes (k a)) → consumes (m ≫= k).
Proof.
  intros Hm Hk r b r'. unfold mbind, ST_bind. destruct (m r) as [[a r1]| |] eqn:E; [|done..].
  intros H. apply Hm in E as [? <-]. apply Hk in H as [? <-]. split; [lia|done].
Qed.
Lemma consumes_ret {A} (a : A) : consumes (mret a).
Proof. intros r a' r' [= _ <-]. done. Qed.
Lemma consumes_fail {A} e : consumes (A := A) (st_fail e).
Proof. by intros r a' r'. Qed.
Lemma consumes_panic {A} : consumes (A := A) st_panic.
Proof. by intros r a' r'. Qed.
Lemma consumes_ReadFull n : consumes (ReadFull n).
Proof.
  intros r a r' (_ & -> & ->)%ReadFull_inv. rewrite length_app. split; [lia|done].
Qed.

Create HintDb consumes.
#[export] Hint Resolve consumes_bind consumes_ret consumes_fail consumes_panic
  consumes_ReadFull : consumes.

Lemma consumes_DecodeByte : consumes DecodeByte.
Proof. apply consumes_bind; auto with consumes. intros []; auto with consumes. Qed.
Lemma consumes_DecodeUint16 : consumes DecodeUint16.
Proof.
  apply consumes_bind; auto with consumes. intros [|? [|? []]]; auto with consumes.
Qed.
Lemma consumes_DecodeUint32 : consumes DecodeUint32.
Proof.
  apply consumes_bind; auto with consumes.
  intros [|? [|? [|? [|? []]]]]; auto with consumes.
Qed.
Lemma consumes_DecodeBytes : consumes DecodeBytes.
Proof. apply consumes_bind; auto using consumes_DecodeUint16 with consumes. Qed.
Lemma consumes_DecodeString : consumes DecodeString.
Proof. apply consumes_bind; auto using consumes_DecodeBytes with consumes. Qed.
Lemma consumes_DecodeVBI : consumes DecodeVBI.
Proof.
  intros r n r' (ds & -> & -> & _)%DecodeVBI_inv. rewrite length_app. split; [lia|done].
Qed.
#[export] Hint Resolve consumes_DecodeByte consumes_DecodeUint16 consumes_DecodeUint32
  consumes_DecodeBytes consumes_DecodeString consumes_DecodeVBI : consumes.

(** ** Successful and failed runs *)

Lemma ReadFull_fail n l e e' : e ≠ EOF → ReadFull n (mkReader l e) = Fail e' → e' = e.
Proof.
  intros He. unfold ReadFull, ReadFull_n. simpl. case_decide; [done|].
  destruct l; [by intros [= <-]|]. rewrite decide_False by done. by intros [= <-].
Qed.

Lemma DecodeString_fail l e e' : e ≠ EOF → DecodeString (mkReader l e) = Fail e' → e' = e.
Proof.
  intros He. unfold DecodeString, DecodeBytes, mbind, ST_bind.
  destruct l as [|b0 [|b1 l]].
  - by intros [= <-].
  - unfold DecodeUint16, mbind, ST_bind.
    destruct (ReadFull 2 _) as [[bs r]| |] eqn:E.
    + apply ReadFull_inv in E as (Hl & Hb & _). simpl in Hb.
      apply (f_equal length) in Hb. rewrite length_app in Hb. simpl in Hb. lia.
    + intros [= <-]. by apply ReadFull_fail in E.
    + done.
  - rewrite DecodeUint16_cons. destruct (ReadFull _ _) as [[bs r]| |] eqn:E; [done| |done].
    intros [= <-]. by apply ReadFull_fail in E.
Qed.

Lemma DecodeString_dangling n : 0 < n < 2 ^ 16 →
  DecodeString (mkReader (EncodeUint16 n) EOF) = Fail EOF.
Proof.
  intros Hn. unfold DecodeString, DecodeBytes, mbind, ST_bind.
  rewrite DecodeUint16_Encode' by (unfold u16_ok; lia).
  unfold ReadFull, ReadFull_n. simpl. by rewrite decide_False by lia.
Qed.

Lemma bind_inv {S A B} (m : ST S A) (k : A → ST S B) s b s' : (m ≫= k) s = Ret (b, s') →
  ∃ a s1, m s = Ret (a, s1) ∧ k a s1 = Ret (b, s').
Proof. unfold mbind, ST_bind. destruct (m s) as [[a s1]| |]; [eauto|done..]. Qed.

(** Peel the reads off a successful run. *)
Ltac bind_inv_all :=
  repeat match goal with
  | H : (_ ≫= _) _ = Ret (_, _) |- _ => apply bind_inv in H as (? & ? & ? & H); cbn beta zeta in H
  | H : mret _ _ = Ret _ |- _ => unfold mret, ST_ret in H; simplify_eq
  | p : (_ * _)%type |- _ => destruct p
  end.

Lemma ReadFull_take n r : (n ≤ length (rbuf r))%nat →
  ReadFull n r = Ret (take n (rbuf r), mkReader (drop n (rbuf r)) (rend r)).
Proof. intros H. unfold ReadFull, ReadFull_n. by rewrite decide_True. Qed.

(** ** Whole packets over both readers *)

Ltac sim :=
  repeat first [solve [eauto with flux] | apply sime_bind; [|intros ?]
               | case_match | progress cbn zeta].

Definition agree_out {A} (m d : outcome GoErr A) : Prop :=
  match m, d with Ret a, Ret a' => a = a' | Fail _, Fail _ => True | _, _ => False end.

Lemma zok_new data : zok (NewZeroCopyReader data).
Proof. unfold zok, zlen. simpl. lia. Qed.

(** Where a packet of [n] body bytes after a header [b0 :: ds] ends. *)
Lemma packet_end (b0 : byte) ds buf n : 0 <= n →
  drop (Z.to_nat n) buf =
  drop (Z.to_nat (1 + Z.of_nat (length (ds ++ buf)) - Z.of_nat (length buf) + n))
    (b0 :: ds ++ buf).
Proof.
  intros Hn. rewrite length_app.
  replace (1 + Z.of_nat (length ds + length buf) - Z.of_nat (length buf) + n)
    with (Z.of_nat (S (length ds + Z.to_nat n))) by lia.
  by rewrite Nat2Z.id, skipn_cons, drop_app_add.
Qed.
