(* ===== verification/Packets.v ===== *)
(** * MQTT packets, common part (src/mqtt/packets)

    The fixed header with its flag rules ([packets.go]), client identifier
    validation ([validate.go]) and the detection of the protocol version on a
    fresh connection ([sniffer.go]).  [String] methods only format. *)

From Stdlib Require Import ZArith Lia Bool Ascii String Strings.Byte.
From stdpp Require Import prelude gmap strings.
From S2P Require Import Prelude GoStrings Codec.

(** ** packets.go: constants *)

Definition V31 : Z := 3.
Definition V311 : Z := 4.
Definition V5 : Z := 5.

Definition ConnectType : Z := 1.
Definition ConnAckType : Z := 2.
Definition PublishType : Z := 3.
Definition PubAckType : Z := 4.
Definition PubRecType : Z := 5.
Definition PubRelType : Z := 6.
Definition PubCompType : Z := 7.
Definition SubscribeType : Z := 8.
Definition SubAckType : Z := 9.
Definition UnsubscribeType : Z := 10.
Definition UnsubAckType : Z := 11.
Definition PingReqType : Z := 12.
Definition PingRespType : Z := 13.
Definition DisconnectType : Z := 14.
Definition AuthType : Z := 15.

(** ** packets.go: the fixed header *)

Record FixedHeader := mkFixedHeader {
  PacketType : Z;
  Dup : bool;
  QoS : Z;
  Retain : bool;
  RemainingLength : Z
}.

(** [packets.User], a user property. *)
Record User := mkUser { Key : string; Value : string }.

Record Details := mkDetails { DetType : Z; DetID : Z; DetQoS : Z }.

Definition set_RemainingLength (n : Z) (fh : FixedHeader) : FixedHeader :=
  mkFixedHeader (PacketType fh) (Dup fh) (QoS fh) (Retain fh) n.

Definition flags_byte (fh : FixedHeader) : byte :=
  let dup := if Dup fh then 1 else 0 in
  let retain := if Retain fh then 1 else 0 in
  z2b (Z.lor (Z.lor (Z.lor (u8 (Z.shiftl (PacketType fh) 4)) (u8 (Z.shiftl dup 3)))
                    (u8 (Z.shiftl (QoS fh) 1))) retain).

Definition FixedHeader_Encode (fh : FixedHeader) : outcome GoErr (list byte) :=
  vbi ← EncodeVBI (RemainingLength fh);
  mret (flags_byte fh :: vbi).

Definition validateFlags (fh : FixedHeader) : outcome GoErr unit :=
  if (PacketType fh <? ConnectType) || (AuthType <? PacketType fh)
  then Fail ErrInvalidFixedHeader
  else if PacketType fh =? PublishType then
    if 2 <? QoS fh then Fail ErrInvalidQoS else Ret tt
  else if (PacketType fh =? PubRelType) || (PacketType fh =? SubscribeType)
          || (PacketType fh =? UnsubscribeType) then
    if negb (QoS fh =? 1) || Dup fh || Retain fh then Fail ErrInvalidFixedHeader else Ret tt
  else
    if Dup fh || negb (QoS fh =? 0) || Retain fh then Fail ErrInvalidFixedHeader else Ret tt.

(** The four fields taken from the first byte; [RemainingLength] is still 0. *)
Definition header_of_byte (b : byte) : FixedHeader :=
  mkFixedHeader (Z.shiftr (b2z b) 4) (0 <? Z.land (Z.shiftr (b2z b) 3) 0x01)
    (Z.land (Z.shiftr (b2z b) 1) 0x03) (0 <? Z.land (b2z b) 0x01) 0.

Definition FixedHeader_Decode (typeAndFlags : byte) : dec FixedHeader :=
  let fh := header_of_byte typeAndFlags in
  st_lift (validateFlags fh) ≫= λ _,
  DecodeVBI ≫= λ n, mret (set_RemainingLength n fh).

(** The length loop of [DecodeFromBytes]: [for i := 0; i < 4; i++]. *)
Fixpoint DecodeFromBytes_loop (n : nat) (data : list byte) (vbi multiplier : Z) (offset : nat) :
    outcome GoErr (Z * Z) :=
  match n with
  | O => Fail ErrMalformedVBI
  | S n =>
      match data !! offset with
      | None => Fail ErrBufferTooShort
      | Some b =>
          let offset := S offset in
          let vbi := Z.lor vbi (u32 (Z.shiftl (Z.land (b2z b) 0x7F) multiplier)) in
          if Z.land (b2z b) 0x80 =? 0 then Ret (vbi, Z.of_nat offset)
          else DecodeFromBytes_loop n data vbi (u32 (multiplier + 7)) offset
      end
  end.

Definition DecodeFromBytes (data : list byte) : outcome GoErr (FixedHeader * Z) :=
  match data with
  | b :: _ :: _ =>
      let fh := header_of_byte b in
      _ ← validateFlags fh;
      '(vbi, offset) ← DecodeFromBytes_loop 4 data 0 0 1;
      mret (set_RemainingLength vbi fh, offset)
  | _ => Fail ErrBufferTooShort
  end.

(** ** validate.go *)

Definition ValidateClientID (clientID : string) : outcome GoErr unit :=
  if str_eqb clientID EmptyString then Ret tt
  else if negb (ValidString clientID) then Fail ErrInvalidClientID
  else Ret tt.

(** ** sniffer.go *)

Definition mqtt_name : string := "MQTT"%string.
Definition mqisdp_name : string := "MQIsdp"%string.

(** The loop that skips the remaining length; [None] is the early return when
    the peeked bytes end.  The value it accumulates is never used. *)
Fixpoint skip_remaining_length (k : nat) (peekBuf : list byte) (idx : nat) : option nat :=
  match k with
  | O => Some idx
  | S k =>
      match peekBuf !! idx with
      | None => None
      | Some digit =>
          if Z.land (b2z digit) 0x80 =? 0 then Some (S idx)
          else skip_remaining_length k peekBuf (S idx)
      end
  end.

(** What [DetectProtocolVersion] does once it has [n >= 8] bytes in [peekBuf]:
    the version, the reader to continue with ([None] is nil), the error. *)
Definition detect_in (peekBuf : list byte) (restoredReader : reader) :
    outcome GoErr (Z * option reader * option GoErr) :=
  let n := length peekBuf in
  let undetected := Ret (0, Some restoredReader, None) in
  match peekBuf with
  | [] => Panic
  | b0 :: _ =>
      if negb (Z.land (b2z b0) 0xF0 =? 0x10) then undetected
      else match skip_remaining_length 4 peekBuf 1 with
      | None => undetected
      | Some idx =>
          if decide (n < idx + 6)%nat then undetected
          else match peekBuf !! idx, peekBuf !! S idx with
          | Some p0, Some p1 =>
              let protoLen := Z.to_nat (Z.lor (Z.shiftl (b2z p0) 8) (b2z p1)) in
              let idx := (idx + 2)%nat in
              if decide (n < idx + protoLen + 1)%nat then undetected
              else
                let protoName := string_of (take protoLen (drop idx peekBuf)) in
                match peekBuf !! (idx + protoLen)%nat with
                | None => Panic
                | Some v =>
                    let version := b2z v in
                    let invalid := Ret (0, Some restoredReader, Some ErrInvalidProtocol) in
                    if str_eqb protoName mqtt_name then
                      if (version =? 4) || (version =? 5)
                      then Ret (version, Some restoredReader, None) else invalid
                    else if str_eqb protoName mqisdp_name && (version =? 3)
                         then Ret (version, Some restoredReader, None) else invalid
                end
          | _, _ => Panic
          end
      end
  end.

Definition DetectProtocolVersion (r : reader) :
    outcome GoErr (Z * option reader * option GoErr) :=
  let '(peekBuf, err, r') := ReadFull_n 12 r in
  let checked :=
    if decide (length peekBuf < 8)%nat then Ret (0, Some (NewReader peekBuf), None)
    else detect_in peekBuf (MultiReader peekBuf r') in
  match err with
  | Some e =>
      if negb (bool_decide (e = EOF)) && negb (bool_decide (e = ErrUnexpectedEOF))
      then Ret (0, None, Some e) else checked
  | None => checked
  end.

(** [DetectPacketType]. *)
Definition DetectPacketType (r : reader) : Z * option reader * option GoErr :=
  let '(peekBuf, err, r') := ReadFull_n 1 r in
  let checked :=
    match peekBuf with
    | [] => (0, Some r', None)
    | b0 :: _ => (Z.shiftr (b2z b0) 4, Some (MultiReader peekBuf r'), None)
    end in
  match err with
  | Some e => if negb (bool_decide (e = EOF)) then (0, None, Some e) else checked
  | None => checked
  end.

(** ** Shared by the [Encode] methods of both protocol versions: store the length,
    prepend the header *)

Definition with_header (fh : FixedHeader) (body : list byte) :
    outcome GoErr (list byte * FixedHeader) :=
  let fh := set_RemainingLength (Z.of_nat (length body)) fh in
  hdr ← FixedHeader_Encode fh;
  mret (hdr ++ body, fh).

(** [FixedHeader{PacketType: packetType, QoS: qos}]. *)
Definition header_for (packetType qos : Z) : FixedHeader :=
  mkFixedHeader packetType false qos false 0.

(** * Properties *)

(** ** The fixed header *)

(** A header the encoder may be given: legal flags, a byte-sized QoS and a
    remaining length of the protocol's range. *)
Definition header_wf (fh : FixedHeader) : Prop :=
  validateFlags fh = Ret tt ∧ 0 <= QoS fh ∧ 0 <= RemainingLength fh < 2 ^ 28.

Lemma validateFlags_inv fh : validateFlags fh = Ret tt →
  1 <= PacketType fh <= 15 ∧ QoS fh <= 2 ∧
  (PacketType fh ≠ PublishType → Dup fh = false ∧ Retain fh = false ∧
     QoS fh = if (PacketType fh =? PubRelType) || (PacketType fh =? SubscribeType)
                 || (PacketType fh =? UnsubscribeType) then 1 else 0).
Proof.
  unfold validateFlags, ConnectType, AuthType.
  destruct (_ || _) eqn:E1; [done|]. bool_prop.
  destruct (PacketType fh =? PublishType) eqn:E2; bool_prop.
  - destruct (2 <? QoS fh) eqn:E3; bool_prop; [done|]. intros _. split_and!; [lia..|done].
  - destruct (_ || _ || _); [|]; destruct (Dup fh), (Retain fh); simpl;
      rewrite ?orb_true_r; try done; destruct (QoS fh =? _) eqn:E3; bool_prop;
      try done; intros _; split_and!; (done || lia).
Qed.

Lemma header_of_flags fh : 1 <= PacketType fh <= 15 → 0 <= QoS fh <= 3 →
  header_of_byte (flags_byte fh) = set_RemainingLength 0 fh.
Proof.
  destruct fh as [pt d q rt n]; simpl. intros Hp Hq.
  assert (Hq' : q = 0 ∨ q = 1 ∨ q = 2 ∨ q = 3) by lia.
  assert (Hp' : pt = 1 ∨ pt = 2 ∨ pt = 3 ∨ pt = 4 ∨ pt = 5 ∨ pt = 6 ∨ pt = 7 ∨ pt = 8 ∨
                pt = 9 ∨ pt = 10 ∨ pt = 11 ∨ pt = 12 ∨ pt = 13 ∨ pt = 14 ∨ pt = 15) by lia.
  clear Hp Hq. destruct_or! Hq'; subst; destruct_or! Hp'; subst; by destruct d, rt.
Qed.

Lemma flags_of_header b : flags_byte (header_of_byte b) = b.
Proof. by destruct b. Qed.

Lemma header_of_byte_qos b : 0 <= QoS (header_of_byte b) <= 3.
Proof. by destruct b. Qed.

Lemma flags_byte_set n fh : flags_byte (set_RemainingLength n fh) = flags_byte fh.
Proof. done. Qed.

Lemma validateFlags_set n fh : validateFlags (set_RemainingLength n fh) = validateFlags fh.
Proof. done. Qed.

Lemma set_RemainingLength_id fh : set_RemainingLength (RemainingLength fh) fh = fh.
Proof. by destruct fh. Qed.

Lemma FixedHeader_Encode_wf fh : header_wf fh →
  FixedHeader_Encode fh = Ret (flags_byte fh :: vbi_digits 4 (RemainingLength fh)).
Proof.
  intros (_ & _ & Hn). unfold FixedHeader_Encode. rewrite EncodeVBI_spec, u32_small by lia.
  by rewrite (proj2 (Z.ltb_lt _ _)) by lia.
Qed.

Lemma with_header_body fh b : header_wf (set_RemainingLength (Z.of_nat (length b)) fh) →
  with_header fh b = Ret (flags_byte fh :: vbi_digits 4 (Z.of_nat (length b)) ++ b,
                          set_RemainingLength (Z.of_nat (length b)) fh).
Proof. intros H. unfold with_header. by rewrite FixedHeader_Encode_wf. Qed.

Lemma validateFlags_nopanic fh : validateFlags fh ≠ Panic.
Proof. unfold validateFlags. by repeat case_match. Qed.

Lemma FixedHeader_Decode_wf fh rest e : header_wf fh →
  FixedHeader_Decode (flags_byte fh) (mkReader (vbi_digits 4 (RemainingLength fh) ++ rest) e) =
  Ret (fh, mkReader rest e).
Proof.
  intros (Hf & Hq & Hn). destruct (validateFlags_inv _ Hf) as (Hp & Hq' & _).
  unfold FixedHeader_Decode, mbind, ST_bind, st_lift.
  rewrite header_of_flags by lia. rewrite validateFlags_set, Hf, DecodeVBI_digits by done.
  unfold mret, ST_ret. by destruct fh.
Qed.

Lemma FixedHeader_Decode_inv b r fh r' : FixedHeader_Decode b r = Ret (fh, r') →
  header_wf fh ∧ flags_byte fh = b ∧ DecodeVBI r = Ret (RemainingLength fh, r').
Proof.
  unfold FixedHeader_Decode, mbind, ST_bind, st_lift.
  destruct (validateFlags (header_of_byte b)) as [[]| |] eqn:Hv; [|done..].
  destruct (DecodeVBI r) as [[n r1]| |] eqn:Hd; [|done..].
  intros [= <- <-]. unfold header_wf. rewrite flags_byte_set, flags_of_header, validateFlags_set.
  pose proof (header_of_byte_qos b). apply DecodeVBI_inv in Hd as (ds & _ & _ & Hl & Hn).
  assert (2 ^ (7 * Z.of_nat (length ds)) <= 2 ^ 28) by (apply Z.pow_le_mono_r; lia).
  simpl RemainingLength. simpl QoS in *. split_and!; (done || lia).
Qed.

Lemma DecodeFromBytes_loop_ReadVBI k data : ∀ vbi m off,
  DecodeFromBytes_loop k data vbi m off =
  match ReadVBI_loop k vbi m (mkZeroCopyReader data (Z.of_nat off)) with
  | Ret (v, z) => Ret (v, zoffset z) | Fail e => Fail e | Panic => Panic
  end.
Proof.
  induction k as [|k IH]; intros vbi m off; [done|].
  cbn [DecodeFromBytes_loop ReadVBI_loop]. unfold mbind, ST_bind, ReadByte, zlen, index_at.
  cbn [zdata zoffset]. destruct (data !! off) as [b|] eqn:Hb.
  - pose proof (lookup_lt_Some _ _ _ Hb).
    destruct (_ <=? _) eqn:E1; bool_prop; [lia|]. destruct (_ <? 0) eqn:E2; bool_prop; [lia|].
    rewrite Nat2Z.id, Hb. unfold set_zoffset. cbn [zdata zoffset].
    replace (Z.of_nat off + 1) with (Z.of_nat (S off)) by lia.
    destruct (_ =? 0); [done|apply IH].
  - apply lookup_ge_None in Hb. by rewrite (proj2 (Z.leb_le _ _)) by lia.
Qed.

(** [DecodeFromBytes] is [Decode] on the rest of the slice. *)
Lemma DecodeFromBytes_spec b rest :
  match DecodeFromBytes (b :: rest), FixedHeader_Decode b (NewReader rest) with
  | Ret (fh, n), Ret (fh', r) =>
      fh = fh' ∧ r = NewReader (drop (Z.to_nat n) (b :: rest)) ∧
      0 <= n <= Z.of_nat (length (b :: rest))
  | Fail _, Fail _ => True
  | _, _ => False
  end.
Proof.
  unfold DecodeFromBytes, FixedHeader_Decode. destruct rest as [|b1 rest].
  { unfold mbind, ST_bind, st_lift. by destruct (validateFlags _) as [[]| |] eqn:Hv;
      [|done|revert Hv; unfold validateFlags; repeat case_match]. }
  set (data := b :: b1 :: rest). unfold mbind, ST_bind, outcome_bind, st_lift.
  destruct (validateFlags (header_of_byte b)) as [[]| |] eqn:Hv;
    [|done|revert Hv; unfold validateFlags; by repeat case_match].
  rewrite DecodeFromBytes_loop_ReadVBI. fold ReadVBI.
  set (z := mkZeroCopyReader data (Z.of_nat 1)).
  assert (Hz : zok z) by (unfold zok, zlen; simpl; lia).
  pose proof (simc_ReadVBI z EOF Hz) as H. unfold agree in H.
  change (mkReader (zrest z) EOF) with (NewReader (b1 :: rest)) in H.
  destruct (ReadVBI z) as [[v z']| |], (DecodeVBI (NewReader (b1 :: rest))) as [[v' r']| |];
    try done.
  destruct H as (<- & Hz' & Hd & ->). unfold zok, zlen, zrest in *. by rewrite Hd in *.
Qed.

(** Fixed headers: every legal header encodes, and both decoders give it back
    in front of any data; every header either decoder accepts is legal (flags
    as the packet type demands, remaining length below [2^28]) and has the
    flags byte it was read from. *)
Theorem fixed_header_roundtrip fh rest e :
  (header_wf fh →
   ∃ b bs, FixedHeader_Encode fh = Ret (b :: bs) ∧
     FixedHeader_Decode b (mkReader (bs ++ rest) e) = Ret (fh, mkReader rest e) ∧
     DecodeFromBytes (b :: bs ++ rest) = Ret (fh, 1 + Z.of_nat (length bs))) ∧
  (∀ b r r', FixedHeader_Decode b r = Ret (fh, r') → header_wf fh ∧ flags_byte fh = b) ∧
  (∀ b data n, DecodeFromBytes (b :: data) = Ret (fh, n) → header_wf fh ∧ flags_byte fh = b).
Proof.
  split_and!.
  - intros Hwf. exists (flags_byte fh), (vbi_digits 4 (RemainingLength fh)).
    split_and!; [by apply FixedHeader_Encode_wf|by apply FixedHeader_Decode_wf|].
    pose proof (DecodeFromBytes_spec (flags_byte fh)
                  (vbi_digits 4 (RemainingLength fh) ++ rest)) as H.
    unfold NewReader in H. rewrite FixedHeader_Decode_wf in H by done.
    destruct (DecodeFromBytes _) as [[fh' n]| |] eqn:E; [|done..].
    destruct H as (-> & [= H] & Hn). f_equal. f_equal. apply (f_equal length) in H.
    rewrite length_drop in H. simpl length in *. rewrite length_app in *. lia.
  - intros b r r' (H1 & H2 & _)%FixedHeader_Decode_inv. done.
  - intros b data n H. pose proof (DecodeFromBytes_spec b data) as H'. rewrite H in H'.
    destruct (FixedHeader_Decode _ _) as [[fh' r']| |] eqn:E; [|done..].
    destruct H' as [<- _]. by apply FixedHeader_Decode_inv in E as (? & ? & _).
Qed.

Lemma fixed_header_roundtrip_witness :
  ∃ b bs, FixedHeader_Encode (mkFixedHeader PublishType true 2 false 321) = Ret (b :: bs) ∧
    FixedHeader_Decode b (mkReader (bs ++ []) EOF) =
    Ret (mkFixedHeader PublishType true 2 false 321, mkReader [] EOF).
Proof.
  destruct (proj1 (fixed_header_roundtrip (mkFixedHeader PublishType true 2 false 321) [] EOF))
    as (b & bs & H1 & H2 & _); [|by exists b, bs].
  split; [reflexivity|simpl; lia].
Defined.

(** ** Protocol detection *)

Lemma ReadFull_n_restore n r : ∀ bs err r', ReadFull_n n r = (bs, err, r') →
  MultiReader bs r' = r ∧ bs = take n (rbuf r) ∧
  match err with
  | None => (n ≤ length (rbuf r))%nat
  | Some e => (length (rbuf r) < n)%nat ∧
      (e = rend r ∨ (rend r = EOF ∧ e = ErrUnexpectedEOF))
  end.
Proof.
  destruct r as [buf e]. unfold ReadFull_n, MultiReader. simpl. intros bs err r'.
  case_decide as Hn; [intros [= <- <- <-]; simpl; by rewrite take_drop|].
  destruct buf as [|b buf]; intros [= <- <- <-]; simpl in *.
  - split_and!; [done|by rewrite take_nil|lia|by left].
  - rewrite app_nil_r. split_and!; [done|by rewrite firstn_all2 by (simpl; lia)|lia|].
    case_decide; auto.
Qed.

Lemma skip_remaining_length_bound k p : ∀ idx j,
  skip_remaining_length k p idx = Some j → (idx ≤ j ≤ idx + k)%nat.
Proof.
  induction k as [|k IH]; simpl; intros idx j; [intros [= ->]; lia|].
  destruct (p !! idx); [|done]. destruct (_ =? 0); [intros [= <-]; lia|].
  intros H%IH. lia.
Qed.

Lemma detect_in_total p r : p ≠ [] →
  ∃ v eo, detect_in p r = Ret (v, Some r, eo) ∧ (v = 0 ∨ v = 3 ∨ v = 4 ∨ v = 5).
Proof.
  unfold detect_in. intros Hp. destruct p as [|b0 p']; [done|]. set (p := b0 :: p').
  destruct (negb _); [eauto 6|].
  destruct (skip_remaining_length 4 p 1) as [idx|]; [|eauto 6].
  case_decide as H1; [eauto 6|].
  destruct (lookup_lt_is_Some_2 p idx) as [q0 ->]; [lia|].
  destruct (lookup_lt_is_Some_2 p (S idx)) as [q1 ->]; [lia|].
  set (pl := Z.to_nat _). case_decide as H2; [eauto 6|].
  destruct (lookup_lt_is_Some_2 p (idx + 2 + pl)) as [v ->]; [lia|].
  destruct (str_eqb _ mqtt_name).
  - destruct (_ || _) eqn:E; [|eauto 6]. apply orb_true_iff in E.
    rewrite !Z.eqb_eq in E. eexists _, _. split; [done|]. lia.
  - destruct (_ && _) eqn:E; [|eauto 6]. bool_prop. eexists _, _. split; [done|]. lia.
Qed.

(** Detecting the protocol version never panics and never loses a byte: the
    reader it hands back delivers exactly the bytes of the connection, the
    peeked ones first, and the version is 3, 4, 5 or 0 for "unknown".  Only a
    transport error within the first 12 bytes gives no reader. *)
Theorem detect_preserves_stream r :
  ∃ v ro eo, DetectProtocolVersion r = Ret (v, ro, eo) ∧
    (v = 0 ∨ v = 3 ∨ v = 4 ∨ v = 5) ∧
    match ro with
    | Some r' => rbuf r' = rbuf r ∧ (rend r' = rend r ∨ rend r' = EOF)
    | None => eo = Some (rend r) ∧ rend r ≠ EOF ∧ (length (rbuf r) < 12)%nat
    end.
Proof.
  unfold DetectProtocolVersion. destruct (ReadFull_n 12 r) as [[peek err] r'] eqn:E.
  apply ReadFull_n_restore in E as (Hr & Hp & He). rewrite Hr.
  assert (Hc : (length peek < 12 → rbuf r = peek)%nat →
    ∃ v ro eo, (if decide (length peek < 8)%nat then Ret (0, Some (NewReader peek), None)
                else detect_in peek r) = Ret (E := GoErr) (v, ro, eo) ∧
    (v = 0 ∨ v = 3 ∨ v = 4 ∨ v = 5) ∧
    match ro with
    | Some r' => rbuf r' = rbuf r ∧ (rend r' = rend r ∨ rend r' = EOF)
    | None => eo = Some (rend r) ∧ rend r ≠ EOF ∧ (length (rbuf r) < 12)%nat
    end).
  { intros Hpk. case_decide.
    - do 3 eexists. split; [done|]. split; [by left|]. simpl. rewrite Hpk by lia. auto.
    - destruct (detect_in_total peek r) as (v & eo & -> & Hv); [by intros ->; simpl in *; lia|].
      eauto 10. }
  destruct err as [e|].
  - destruct He as [Hl He]. rewrite firstn_all2 in Hp by lia. destruct (negb _ && negb _) eqn:En.
    + bool_prop. do 3 eexists. split; [done|]. split; [by left|]. simpl.
      destruct He as [->|[_ ->]]; done.
    + apply Hc. done.
  - apply Hc. rewrite Hp, length_take. lia.
Qed.

Lemma skip_remaining_length_digits k : ∀ pre v rest,
  0 <= v < 2 ^ (7 * Z.of_nat k) → (0 < k)%nat →
  skip_remaining_length k (pre ++ vbi_digits k v ++ rest) (length pre) =
  Some (length pre + length (vbi_digits k v))%nat.
Proof.
  induction k as [|k IH]; intros pre v rest Hv Hk; [lia|].
  cbn [skip_remaining_length vbi_digits]. rewrite lookup_app_r, Nat.sub_diag by lia.
  pose proof (Z.mod_pos_bound v 128). destruct (v <? 128) eqn:E; bool_prop; simpl.
  - rewrite land_128_byte, b2z_z2b_small, (proj2 (Z.ltb_lt _ _)) by lia. f_equal. lia.
  - rewrite land_128_byte, b2z_z2b_small, (proj2 (Z.ltb_ge _ _)) by lia.
    pose proof (div_128_range v k Hv) as Hd. pose proof (Z.div_le_lower_bound v 128 1).
    assert (0 < k)%nat by (destruct k; simpl in Hd; lia).
    set (b := z2b _). specialize (IH (pre ++ [b]) (v / 128) rest).
    rewrite length_app, <-app_assoc in IH. simpl in IH.
    rewrite <-(Nat.add_1_r (length pre)), IH by lia. f_equal. lia.
Qed.

Lemma lookup_skip (hd q : list byte) i j : (j = length hd + i)%nat → (hd ++ q) !! j = q !! i.
Proof. intros ->. rewrite lookup_app_r by lia. f_equal. lia. Qed.

(** [detect_in] when the peeked bytes are a CONNECT header of [length hd] bytes
    followed by [q], the beginning of the variable header. *)
Lemma detect_in_header n q r : 0 <= n < 2 ^ 28 →
  let hd := z2b 0x10 :: vbi_digits 4 n in
  (∀ p0 p1 q', q = p0 :: p1 :: q' → (4 ≤ length q')%nat →
   detect_in (hd ++ q) r =
   let pl := Z.to_nat (Z.lor (Z.shiftl (b2z p0) 8) (b2z p1)) in
   if decide (length q' < pl + 1)%nat then Ret (0, Some r, None)
   else match q' !! pl with
        | None => Panic
        | Some v =>
            if str_eqb (string_of (take pl q')) mqtt_name then
              if (b2z v =? 4) || (b2z v =? 5) then Ret (b2z v, Some r, None)
              else Ret (0, Some r, Some ErrInvalidProtocol)
            else if str_eqb (string_of (take pl q')) mqisdp_name && (b2z v =? 3)
                 then Ret (b2z v, Some r, None)
                 else Ret (0, Some r, Some ErrInvalidProtocol)
        end).
Proof.
  intros Hn hd p0 p1 q' -> Hq. unfold detect_in. simpl app at 1. cbn [hd].
  change (z2b 16 :: vbi_digits 4 n ++ p0 :: p1 :: q') with (hd ++ p0 :: p1 :: q').
  change (negb (Z.land (b2z (z2b 16)) 240 =? 16)) with false. cbn iota.
  pose proof (skip_remaining_length_digits 4 [z2b 16] n (p0 :: p1 :: q')) as Hs.
  change ([z2b 16] ++ vbi_digits 4 n ++ p0 :: p1 :: q') with (hd ++ p0 :: p1 :: q') in Hs.
  change (length [z2b 16] + length (vbi_digits 4 n))%nat with (length hd) in Hs.
  change (length [z2b 16]) with 1%nat in Hs. rewrite Hs by (simpl; lia).
  rewrite length_app. cbn [length]. rewrite decide_False by lia.
  rewrite (lookup_skip _ _ 0), (lookup_skip _ _ 1) by lia. cbn [lookup list_lookup]. simpl.
  set (pl := Z.to_nat _).
  destruct (decide (length q' < pl + 1)%nat).
  - by rewrite decide_True by lia.
  - rewrite decide_False by lia. rewrite (lookup_skip _ _ (S (S pl))) by lia. simpl.
    replace (S (length (vbi_digits 4 n) + 2)) with (length hd + 2)%nat by (simpl; lia).
    change (z2b 16 :: vbi_digits 4 n ++ p0 :: p1 :: q') with (hd ++ p0 :: p1 :: q').
    rewrite drop_app_add. done.
Qed.

Lemma Detect_peek r : (12 ≤ length (rbuf r))%nat ∨ rend r = EOF →
  (8 ≤ length (rbuf r))%nat → DetectProtocolVersion r = detect_in (take 12 (rbuf r)) r.
Proof.
  intros Hr Hl. unfold DetectProtocolVersion.
  destruct (ReadFull_n 12 r) as [[peek err] r'] eqn:E.
  apply ReadFull_n_restore in E as (Hm & -> & He). rewrite Hm.
  rewrite decide_False by (rewrite length_take; lia).
  destruct err as [e|]; [|done]. destruct He as [Hl' He]. destruct Hr as [|Hr]; [lia|].
  destruct He as [->|[_ ->]]; [by rewrite Hr|done].
Qed.

Lemma take_header n body : 0 <= n < 2 ^ 28 →
  let hd := z2b 0x10 :: vbi_digits 4 n in
  take 12 (hd ++ body) = hd ++ take (12 - length hd) body ∧ (2 ≤ length hd ≤ 5)%nat.
Proof.
  intros Hn hd. assert (1 ≤ length (vbi_digits 4 n) ≤ 4)%nat
    by (apply vbi_digits_length; simpl; lia).
  unfold hd. cbn [length]. split; [|lia]. by rewrite take_app_ge by (cbn [length]; lia).
Qed.

(** Protocol detection on a CONNECT packet: the MQTT 3.1.1 and 5.0 headers
    are recognised whatever the packet's length.  The MQTT 3.1 header is
    recognised only while its remaining length takes one or two bytes: from
    [2^14] on, the version byte lies beyond the 12 peeked bytes and the result
    is 0, "unknown protocol". *)
Theorem detect_connect n name version tail e hdr r :
  0 <= n < 2 ^ 28 →
  FixedHeader_Encode (mkFixedHeader ConnectType false 0 false n) = Ret hdr →
  r = mkReader (hdr ++ EncodeString name ++ z2b version :: tail) e →
  (12 ≤ length (rbuf r))%nat ∨ e = EOF →
  (name = mqtt_name ∧ (version = 4 ∨ version = 5) →
     DetectProtocolVersion r = Ret (version, Some r, None)) ∧
  (name = mqisdp_name ∧ version = 3 →
     DetectProtocolVersion r = Ret ((if n <? 2 ^ 14 then 3 else 0), Some r, None)).
Proof.
  intros Hn Hh Hr He.
  rewrite FixedHeader_Encode_wf in Hh by (split_and!; simpl; (done || lia)).
  injection Hh as <-. cbn [RemainingLength] in *.
  change (flags_byte _) with (z2b 0x10) in Hr. set (hd := z2b 0x10 :: vbi_digits 4 n) in *.
  assert (Hbuf : ∀ body, r = mkReader (hd ++ body) e → (6 ≤ length body)%nat →
    DetectProtocolVersion r = detect_in (hd ++ take (12 - length hd) body) r).
  { intros body Hr' Hb. destruct (take_header n body Hn) as [Ht Hl]. fold hd in Ht, Hl.
    rewrite Detect_peek; [f_equal; by rewrite Hr'|by subst r|].
    rewrite Hr'. change (rbuf (mkReader (hd ++ body) e)) with (hd ++ body).
    rewrite length_app. lia. }
  destruct (take_header n [] Hn) as [_ Hl]. fold hd in Hl.
  split; intros [-> Hv]; erewrite Hbuf by (done || (cbn; lia)); clear Hbuf.
  - change (EncodeString mqtt_name ++ z2b version :: tail) with
      ([x00; x04; x4d; x51; x54; x54; z2b version] ++ tail).
    rewrite take_app_ge by (cbn [length]; lia). cbn [app].
    etransitivity; [apply (detect_in_header n _ r Hn _ _ _ eq_refl); cbn [length]; lia|].
    cbn zeta.
    change (Z.to_nat _) with 4%nat. rewrite decide_False by (cbn [length]; lia).
    by destruct Hv as [->| ->].
  - subst version. change (EncodeString mqisdp_name ++ z2b 3 :: tail) with
      ([x00; x06; x4d; x51; x49; x73; x64; x70; x03] ++ tail).
    destruct (n <? 2 ^ 14) eqn:E; bool_prop.
    + assert (length hd ≤ 3)%nat.
      { pose proof (vbi_digits_min 4 2 n ltac:(simpl; lia) ltac:(lia)).
        unfold hd. cbn [length]. lia. }
      rewrite take_app_ge by (cbn [length]; lia). cbn [app].
      etransitivity; [apply (detect_in_header n _ r Hn _ _ _ eq_refl); cbn [length]; lia|].
    cbn zeta.
      change (Z.to_nat _) with 6%nat. by rewrite decide_False by (cbn [length]; lia).
    + assert (4 ≤ length hd)%nat.
      { pose proof (vbi_digits_ge 2 4 n ltac:(simpl; lia) ltac:(lia)).
        unfold hd. cbn [length]. lia. }
      assert (Ht : take (12 - length hd) ([x00; x06; x4d; x51; x49; x73; x64; x70; x03] ++ tail) =
        x00 :: x06 :: take (10 - length hd) [x4d; x51; x49; x73; x64; x70]).
      { assert (length hd = 4 ∨ length hd = 5)%nat as [->| ->] by lia; done. }
      rewrite Ht. etransitivity; [apply (detect_in_header n _ r Hn _ _ _ eq_refl);
        rewrite length_take; cbn [length]; lia|]. cbn zeta.
      change (Z.to_nat _) with 6%nat.
      by rewrite decide_True by (rewrite length_take; cbn [length]; lia).
Qed.

Lemma detect_connect_witness :
  DetectProtocolVersion (mkReader ([x10; x80; x80; x01] ++ EncodeString mqisdp_name ++ [x03]) EOF)
  = Ret (0, Some (mkReader ([x10; x80; x80; x01] ++ EncodeString mqisdp_name ++ [x03]) EOF), None).
Proof.
  apply (proj2 (detect_connect 16384 mqisdp_name 3 [] EOF [x10; x80; x80; x01] _
    ltac:(lia) eq_refl eq_refl (or_intror eq_refl)) (conj eq_refl eq_refl)).
Defined.
