(* ===== verification/PacketsV3.v ===== *)
(** * MQTT 3.1.1 packets (src/mqtt/packets/v3)

    The fourteen packet types with [Encode], [Unpack], [Details] and [Reset],
    the packet factory, the stream reader [ReadPacketLimit] and the zero-copy
    reader [ReadPacketBytes].  A nil slice and an empty one are the same list.
    [Encode] also stores the remaining length in the packet, so it returns the
    packet it leaves behind with the bytes.  [Pack] writes those bytes and
    [String] formats; neither is modelled.

    Theorems: reading what any well-formed packet encodes to gives that packet
    back; no input makes a reader panic; oversized packets are refused from
    the header alone; the zero-copy reader accepts only what the stream reader
    accepts, with the cases where it accepts less. *)

From Stdlib Require Import ZArith Lia Bool Ascii String Strings.Byte.
From stdpp Require Import prelude gmap strings.
From S2P Require Import Prelude GoStrings Codec Packets.

Module V3.

(** ** connect.go *)

Definition protocolNameV3 : string := "MQIsdp"%string.
Definition protocolNameV4 : string := "MQTT"%string.

Record Connect := mkConnect {
  ConnectHeader : FixedHeader;
  ProtocolName : string;
  ProtocolVersion : Z;
  UsernameFlag : bool;
  PasswordFlag : bool;
  WillRetain : bool;
  WillQoS : Z;
  WillFlag : bool;
  CleanSession : bool;
  ReservedBit : Z;
  KeepAlive : Z;
  ClientID : string;
  WillTopic : string;
  WillMessage : list byte;
  Username : string;
  Password : list byte
}.

(** [&Connect{FixedHeader: fh}]. *)
Definition Connect_zero (fh : FixedHeader) : Connect :=
  mkConnect fh EmptyString 0 false false false 0 false false 0 0
    EmptyString EmptyString [] EmptyString [].

Definition flag (b : bool) (bit : Z) : Z := if b then Z.shiftl 1 bit else 0.

Definition Connect_flags (c : Connect) : Z :=
  Z.lor (Z.lor (Z.lor (Z.lor (Z.lor (flag (UsernameFlag c) 7) (flag (PasswordFlag c) 6))
                             (flag (WillRetain c) 5))
                      (u8 (Z.shiftl (Z.land (WillQoS c) 0x03) 3)))
               (flag (WillFlag c) 2))
        (flag (CleanSession c) 1).

Definition Connect_Encode (c : Connect) : outcome GoErr (list byte * Connect) :=
  let body :=
    EncodeString (ProtocolName c) ++ [z2b (ProtocolVersion c)] ++
    [z2b (Connect_flags c)] ++ EncodeUint16 (KeepAlive c) ++
    EncodeString (ClientID c) ++
    (if WillFlag c then EncodeString (WillTopic c) ++ EncodeBytes (WillMessage c) else []) ++
    (if UsernameFlag c then EncodeString (Username c) else []) ++
    (if PasswordFlag c then EncodeBytes (Password c) else []) in
  '(bs, fh) ← with_header (ConnectHeader c) body;
  mret (bs, mkConnect fh (ProtocolName c) (ProtocolVersion c) (UsernameFlag c)
         (PasswordFlag c) (WillRetain c) (WillQoS c) (WillFlag c) (CleanSession c)
         (ReservedBit c) (KeepAlive c) (ClientID c) (WillTopic c) (WillMessage c)
         (Username c) (Password c)).

Definition Connect_Unpack (c : Connect) : dec Connect :=
  protocolName ← DecodeString;
  protocolVersion ← DecodeByte;
  flags_b ← DecodeByte;
  let flags := b2z flags_b in
  let usernameFlag := 0 <? Z.land flags (Z.shiftl 1 7) in
  let passwordFlag := 0 <? Z.land flags (Z.shiftl 1 6) in
  let willRetain := 0 <? Z.land flags (Z.shiftl 1 5) in
  let willQoS := Z.land (Z.shiftr flags 3) 0x03 in
  let willFlag := 0 <? Z.land flags (Z.shiftl 1 2) in
  let cleanSession := 0 <? Z.land flags (Z.shiftl 1 1) in
  let reservedBit := Z.land flags 1 in
  keepAlive ← DecodeUint16;
  clientID ← DecodeString;
  '(willTopic, willMessage) ←
    (if willFlag
     then t ← DecodeString; m ← DecodeBytes; mret (t, m)
     else mret (WillTopic c, WillMessage c));
  username ← (if usernameFlag then DecodeString else mret (Username c));
  password ← (if passwordFlag then DecodeBytes else mret (Password c));
  mret (mkConnect (ConnectHeader c) protocolName (b2z protocolVersion) usernameFlag
          passwordFlag willRetain willQoS willFlag cleanSession reservedBit keepAlive
          clientID willTopic willMessage username password).

Definition Connect_Details (c : Connect) : Details := mkDetails ConnectType 0 0.

Definition Connect_Validate (c : Connect) : outcome GoErr unit :=
  if PasswordFlag c && negb (UsernameFlag c) then Fail ErrInvalidConnectFlags
  else if negb (ReservedBit c =? 0) then Fail ErrInvalidConnectFlags
  else if 2 <? WillQoS c then Fail ErrInvalidConnectFlags
  else if negb (WillFlag c) && (negb (WillQoS c =? 0) || WillRetain c)
       then Fail ErrInvalidConnectFlags
  else if ProtocolVersion c =? 3 then
    if str_eqb (ProtocolName c) protocolNameV3 then Ret tt else Fail ErrInvalidProtocolName
  else if ProtocolVersion c =? 4 then
    if str_eqb (ProtocolName c) protocolNameV4 then Ret tt else Fail ErrInvalidProtocolName
  else Fail ErrInvalidProtocolName.

(** ** connack.go *)

Record ConnAck := mkConnAck {
  ConnAckHeader : FixedHeader;
  SessionPresent : bool;
  ReturnCode : Z
}.

Definition ConnAck_Encode (c : ConnAck) : outcome GoErr (list byte * ConnAck) :=
  let flags := if SessionPresent c then 0x01 else 0 in
  '(bs, fh) ← with_header (ConnAckHeader c) [z2b flags; z2b (ReturnCode c)];
  mret (bs, mkConnAck fh (SessionPresent c) (ReturnCode c)).

Definition ConnAck_Unpack (c : ConnAck) : dec ConnAck :=
  flags ← DecodeByte;
  returnCode ← DecodeByte;
  mret (mkConnAck (ConnAckHeader c) (0 <? Z.land (b2z flags) 0x01) (b2z returnCode)).

(** ** publish.go *)

(** [PayloadRef] is the identity of the buffer the payload points into. *)
Record Publish := mkPublish {
  PublishHeader : FixedHeader;
  TopicName : string;
  PayloadRef : option nat;
  PublishID : Z;
  Payload : list byte
}.

(** A 32-bit value leaves the loop within five rounds. *)
Fixpoint appendVBI_loop (fuel : nat) (dst : list byte) (v : Z) : list byte :=
  match fuel with
  | O => dst
  | S fuel =>
      let b := Z.land v 0x7F in
      let v := Z.shiftr v 7 in
      let b := if 0 <? v then Z.lor b 0x80 else b in
      let dst := dst ++ [z2b b] in
      if v =? 0 then dst else appendVBI_loop fuel dst v
  end.

Definition appendVBI (dst : list byte) (num : Z) : list byte := appendVBI_loop 5 dst (u32 num).

Definition Publish_EncodeTo (dst : list byte) (p : Publish) : list byte * Publish :=
  let remainingLen :=
    2 + Z.of_nat (String.length (TopicName p)) + Z.of_nat (length (Payload p)) in
  let remainingLen := if 0 <? QoS (PublishHeader p) then remainingLen + 2 else remainingLen in
  let fh := set_RemainingLength remainingLen (PublishHeader p) in
  let dst := dst ++ [flags_byte fh] in
  let dst := appendVBI dst remainingLen in
  let topicLen := Z.of_nat (String.length (TopicName p)) in
  let dst := dst ++ [z2b (Z.shiftr topicLen 8); z2b topicLen] in
  let dst := dst ++ bytes_of (TopicName p) in
  let dst := if 0 <? QoS fh
             then dst ++ [z2b (Z.shiftr (PublishID p) 8); z2b (PublishID p)] else dst in
  (dst ++ Payload p, mkPublish fh (TopicName p) (PayloadRef p) (PublishID p) (Payload p)).

Definition Publish_Encode (p : Publish) : list byte * Publish := Publish_EncodeTo [] p.

Definition Publish_Unpack (p : Publish) : dec Publish :=
  topicName ← DecodeString;
  id ← (if 0 <? QoS (PublishHeader p) then DecodeUint16 else mret (PublishID p));
  payload ← ReadAll;
  mret (mkPublish (PublishHeader p) topicName (PayloadRef p) id payload).

Definition Publish_Details (p : Publish) : Details :=
  mkDetails PublishType (PublishID p) (QoS (PublishHeader p)).

(** ** puback.go, pubrec.go, pubrel.go, pubcomp.go, unsuback.go

    The five structs have the same two fields. *)

Record IDPacket := mkIDPacket { IDHeader : FixedHeader; PacketID : Z }.

Definition PubAck_Encode (p : IDPacket) : outcome GoErr (list byte * IDPacket) :=
  '(bs, fh) ← with_header (IDHeader p) (EncodeUint16 (PacketID p));
  mret (bs, mkIDPacket fh (PacketID p)).
Definition PubAck_Unpack (p : IDPacket) : dec IDPacket :=
  id ← DecodeUint16; mret (mkIDPacket (IDHeader p) id).

Definition PubRec_Encode (p : IDPacket) : outcome GoErr (list byte * IDPacket) :=
  '(bs, fh) ← with_header (IDHeader p) (EncodeUint16 (PacketID p));
  mret (bs, mkIDPacket fh (PacketID p)).
Definition PubRec_Unpack (p : IDPacket) : dec IDPacket :=
  id ← DecodeUint16; mret (mkIDPacket (IDHeader p) id).

Definition PubRel_Encode (p : IDPacket) : outcome GoErr (list byte * IDPacket) :=
  '(bs, fh) ← with_header (IDHeader p) (EncodeUint16 (PacketID p));
  mret (bs, mkIDPacket fh (PacketID p)).
Definition PubRel_Unpack (p : IDPacket) : dec IDPacket :=
  id ← DecodeUint16; mret (mkIDPacket (IDHeader p) id).

Definition PubComp_Encode (p : IDPacket) : outcome GoErr (list byte * IDPacket) :=
  '(bs, fh) ← with_header (IDHeader p) (EncodeUint16 (PacketID p));
  mret (bs, mkIDPacket fh (PacketID p)).
Definition PubComp_Unpack (p : IDPacket) : dec IDPacket :=
  id ← DecodeUint16; mret (mkIDPacket (IDHeader p) id).

Definition UnSubAck_Encode (p : IDPacket) : outcome GoErr (list byte * IDPacket) :=
  '(bs, fh) ← with_header (IDHeader p) (EncodeUint16 (PacketID p));
  mret (bs, mkIDPacket fh (PacketID p)).
Definition UnSubAck_Unpack (p : IDPacket) : dec IDPacket :=
  id ← DecodeUint16; mret (mkIDPacket (IDHeader p) id).

(** ** subscribe.go *)

Record Topic := mkTopic { TopicFilterName : string; TopicQoS : Z }.

Record Subscribe := mkSubscribe {
  SubscribeHeader : FixedHeader;
  SubscribeID : Z;
  SubscribeTopics : list Topic
}.

Definition encode_topic (t : Topic) : list byte :=
  EncodeString (TopicFilterName t) ++ [z2b (TopicQoS t)].

Definition Subscribe_Encode (s : Subscribe) : outcome GoErr (list byte * Subscribe) :=
  let body := EncodeUint16 (SubscribeID s) ++ concat (encode_topic <$> SubscribeTopics s) in
  '(bs, fh) ← with_header (SubscribeHeader s) body;
  mret (bs, mkSubscribe fh (SubscribeID s) (SubscribeTopics s)).

(** The topic loop of [Unpack].  [io.EOF] from the name ends it; the reader is
    then empty.  Every round consumes at least three bytes. *)
Fixpoint Subscribe_topics (fuel : nat) (topics : list Topic) : dec (list Topic) := λ r,
  match fuel with
  | O => Panic
  | S fuel =>
      match DecodeString r with
      | Fail EOF => Ret (topics, mkReader [] (rend r))
      | Fail e => Fail e
      | Panic => Panic
      | Ret (tName, r1) =>
          match DecodeByte r1 with
          | Fail e => Fail e
          | Panic => Panic
          | Ret (qos, r2) => Subscribe_topics fuel (topics ++ [mkTopic tName (b2z qos)]) r2
          end
      end
  end.

Definition Subscribe_Unpack (s : Subscribe) : dec Subscribe :=
  id ← DecodeUint16;
  topics ← (λ r, Subscribe_topics (S (length (rbuf r))) (SubscribeTopics s) r) : dec (list Topic);
  mret (mkSubscribe (SubscribeHeader s) id topics).

(** ** suback.go *)

Record SubAck := mkSubAck {
  SubAckHeader : FixedHeader;
  SubAckID : Z;
  ReturnCodes : list byte
}.

Definition SubAck_Encode (s : SubAck) : outcome GoErr (list byte * SubAck) :=
  '(bs, fh) ← with_header (SubAckHeader s) (EncodeUint16 (SubAckID s) ++ ReturnCodes s);
  mret (bs, mkSubAck fh (SubAckID s) (ReturnCodes s)).

Definition SubAck_Unpack (s : SubAck) : dec SubAck :=
  id ← DecodeUint16;
  returnCodes ← ReadAll;
  mret (mkSubAck (SubAckHeader s) id returnCodes).

(** ** unsubscribe.go *)

Record Unsubscribe := mkUnsubscribe {
  UnsubscribeHeader : FixedHeader;
  UnsubscribeID : Z;
  UnsubscribeTopics : list string
}.

Definition Unsubscribe_Encode (u : Unsubscribe) : outcome GoErr (list byte * Unsubscribe) :=
  let body := EncodeUint16 (UnsubscribeID u) ++ concat (EncodeString <$> UnsubscribeTopics u) in
  '(bs, fh) ← with_header (UnsubscribeHeader u) body;
  mret (bs, mkUnsubscribe fh (UnsubscribeID u) (UnsubscribeTopics u)).

Fixpoint Unsubscribe_topics (fuel : nat) (topics : list string) : dec (list string) := λ r,
  match fuel with
  | O => Panic
  | S fuel =>
      match DecodeString r with
      | Fail EOF => Ret (topics, mkReader [] (rend r))
      | Fail e => Fail e
      | Panic => Panic
      | Ret (t, r1) => Unsubscribe_topics fuel (topics ++ [t]) r1
      end
  end.

Definition Unsubscribe_Unpack (u : Unsubscribe) : dec Unsubscribe :=
  id ← DecodeUint16;
  topics ← (λ r, Unsubscribe_topics (S (length (rbuf r))) (UnsubscribeTopics u) r)
             : dec (list string);
  mret (mkUnsubscribe (UnsubscribeHeader u) id topics).

(** ** pingreq.go, pingresp.go, disconnect.go: a header and nothing else *)

Definition PingReq_Encode (fh : FixedHeader) : outcome GoErr (list byte * FixedHeader) :=
  let fh := set_RemainingLength 0 fh in bs ← FixedHeader_Encode fh; mret (bs, fh).
Definition PingResp_Encode (fh : FixedHeader) : outcome GoErr (list byte * FixedHeader) :=
  let fh := set_RemainingLength 0 fh in bs ← FixedHeader_Encode fh; mret (bs, fh).
Definition Disconnect_Encode (fh : FixedHeader) : outcome GoErr (list byte * FixedHeader) :=
  let fh := set_RemainingLength 0 fh in bs ← FixedHeader_Encode fh; mret (bs, fh).

(** ** The packets.ControlPacket interface: one constructor per implementation *)

Inductive ControlPacket :=
| PConnect (c : Connect)
| PConnAck (c : ConnAck)
| PPublish (p : Publish)
| PPubAck (p : IDPacket)
| PPubRec (p : IDPacket)
| PPubRel (p : IDPacket)
| PPubComp (p : IDPacket)
| PSubscribe (s : Subscribe)
| PSubAck (s : SubAck)
| PUnsubscribe (u : Unsubscribe)
| PUnSubAck (u : IDPacket)
| PPingReq (fh : FixedHeader)
| PPingResp (fh : FixedHeader)
| PDisconnect (fh : FixedHeader).

Definition Header (cp : ControlPacket) : FixedHeader :=
  match cp with
  | PConnect c => ConnectHeader c
  | PConnAck c => ConnAckHeader c
  | PPublish p => PublishHeader p
  | PPubAck p | PPubRec p | PPubRel p | PPubComp p | PUnSubAck p => IDHeader p
  | PSubscribe s => SubscribeHeader s
  | PSubAck s => SubAckHeader s
  | PUnsubscribe u => UnsubscribeHeader u
  | PPingReq fh | PPingResp fh | PDisconnect fh => fh
  end.

(** [cp.Type()]. *)
Definition Type_ (cp : ControlPacket) : Z :=
  match cp with
  | PConnect _ => ConnectType | PConnAck _ => ConnAckType | PPublish _ => PublishType
  | PPubAck _ => PubAckType | PPubRec _ => PubRecType | PPubRel _ => PubRelType
  | PPubComp _ => PubCompType | PSubscribe _ => SubscribeType | PSubAck _ => SubAckType
  | PUnsubscribe _ => UnsubscribeType | PUnSubAck _ => UnsubAckType
  | PPingReq _ => PingReqType | PPingResp _ => PingRespType | PDisconnect _ => DisconnectType
  end.

(** [cp.Details()]. *)
Definition Details_ (cp : ControlPacket) : Details :=
  match cp with
  | PConnect c => Connect_Details c
  | PPublish p => Publish_Details p
  | PPubAck p => mkDetails PubAckType (PacketID p) 0
  | PPubRec p => mkDetails PubRecType (PacketID p) 0
  | PPubRel p => mkDetails PubRelType (PacketID p) 1
  | PPubComp p => mkDetails PubCompType (PacketID p) 0
  | PSubscribe s => mkDetails SubscribeType (SubscribeID s) 1
  | PSubAck s => mkDetails SubAckType (SubAckID s) 0
  | PUnsubscribe u => mkDetails UnsubscribeType (UnsubscribeID u) 1
  | PUnSubAck u => mkDetails UnsubAckType (PacketID u) 0
  | PConnAck _ | PPingReq _ | PPingResp _ | PDisconnect _ => mkDetails (Type_ cp) 0 0
  end.

(** [cp.Encode()]: dynamic dispatch over the packet types. *)
Definition Encode (cp : ControlPacket) : outcome GoErr (list byte * ControlPacket) :=
  match cp with
  | PConnect c => '(bs, c) ← Connect_Encode c; mret (bs, PConnect c)
  | PConnAck c => '(bs, c) ← ConnAck_Encode c; mret (bs, PConnAck c)
  | PPublish p => let '(bs, p) := Publish_Encode p in mret (bs, PPublish p)
  | PPubAck p => '(bs, p) ← PubAck_Encode p; mret (bs, PPubAck p)
  | PPubRec p => '(bs, p) ← PubRec_Encode p; mret (bs, PPubRec p)
  | PPubRel p => '(bs, p) ← PubRel_Encode p; mret (bs, PPubRel p)
  | PPubComp p => '(bs, p) ← PubComp_Encode p; mret (bs, PPubComp p)
  | PSubscribe s => '(bs, s) ← Subscribe_Encode s; mret (bs, PSubscribe s)
  | PSubAck s => '(bs, s) ← SubAck_Encode s; mret (bs, PSubAck s)
  | PUnsubscribe u => '(bs, u) ← Unsubscribe_Encode u; mret (bs, PUnsubscribe u)
  | PUnSubAck u => '(bs, u) ← UnSubAck_Encode u; mret (bs, PUnSubAck u)
  | PPingReq fh => '(bs, fh) ← PingReq_Encode fh; mret (bs, PPingReq fh)
  | PPingResp fh => '(bs, fh) ← PingResp_Encode fh; mret (bs, PPingResp fh)
  | PDisconnect fh => '(bs, fh) ← Disconnect_Encode fh; mret (bs, PDisconnect fh)
  end.

(** [cp.Unpack(r)]. *)
Definition Unpack (cp : ControlPacket) : dec ControlPacket :=
  match cp with
  | PConnect c => c ← Connect_Unpack c; mret (PConnect c)
  | PConnAck c => c ← ConnAck_Unpack c; mret (PConnAck c)
  | PPublish p => p ← Publish_Unpack p; mret (PPublish p)
  | PPubAck p => p ← PubAck_Unpack p; mret (PPubAck p)
  | PPubRec p => p ← PubRec_Unpack p; mret (PPubRec p)
  | PPubRel p => p ← PubRel_Unpack p; mret (PPubRel p)
  | PPubComp p => p ← PubComp_Unpack p; mret (PPubComp p)
  | PSubscribe s => s ← Subscribe_Unpack s; mret (PSubscribe s)
  | PSubAck s => s ← SubAck_Unpack s; mret (PSubAck s)
  | PUnsubscribe u => u ← Unsubscribe_Unpack u; mret (PUnsubscribe u)
  | PUnSubAck u => u ← UnSubAck_Unpack u; mret (PUnSubAck u)
  | PPingReq fh => mret (PPingReq fh)
  | PPingResp fh => mret (PPingResp fh)
  | PDisconnect fh => mret (PDisconnect fh)
  end.

(** ** types.go *)

(** [None] is the nil interface. *)
Definition NewControlPacket (packetType : Z) : option ControlPacket :=
  if packetType =? ConnectType then Some (PConnect (Connect_zero (header_for ConnectType 0)))
  else if packetType =? ConnAckType
  then Some (PConnAck (mkConnAck (header_for ConnAckType 0) false 0))
  else if packetType =? PublishType
  then Some (PPublish (mkPublish (header_for PublishType 0) EmptyString None 0 []))
  else if packetType =? PubAckType then Some (PPubAck (mkIDPacket (header_for PubAckType 0) 0))
  else if packetType =? PubRecType then Some (PPubRec (mkIDPacket (header_for PubRecType 0) 0))
  else if packetType =? PubRelType then Some (PPubRel (mkIDPacket (header_for PubRelType 1) 0))
  else if packetType =? PubCompType
  then Some (PPubComp (mkIDPacket (header_for PubCompType 0) 0))
  else if packetType =? SubscribeType
  then Some (PSubscribe (mkSubscribe (header_for SubscribeType 1) 0 []))
  else if packetType =? SubAckType then Some (PSubAck (mkSubAck (header_for SubAckType 0) 0 []))
  else if packetType =? UnsubscribeType
  then Some (PUnsubscribe (mkUnsubscribe (header_for UnsubscribeType 1) 0 []))
  else if packetType =? UnsubAckType
  then Some (PUnSubAck (mkIDPacket (header_for UnsubAckType 0) 0))
  else if packetType =? PingReqType then Some (PPingReq (header_for PingReqType 0))
  else if packetType =? PingRespType then Some (PPingResp (header_for PingRespType 0))
  else if packetType =? DisconnectType then Some (PDisconnect (header_for DisconnectType 0))
  else None.

Definition NewControlPacketWithHeader (fh : FixedHeader) : outcome GoErr ControlPacket :=
  let t := PacketType fh in
  if t =? ConnectType then Ret (PConnect (Connect_zero fh))
  else if t =? ConnAckType then Ret (PConnAck (mkConnAck fh false 0))
  else if t =? PublishType then Ret (PPublish (mkPublish fh EmptyString None 0 []))
  else if t =? PubAckType then Ret (PPubAck (mkIDPacket fh 0))
  else if t =? PubRecType then Ret (PPubRec (mkIDPacket fh 0))
  else if t =? PubRelType then Ret (PPubRel (mkIDPacket fh 0))
  else if t =? PubCompType then Ret (PPubComp (mkIDPacket fh 0))
  else if t =? SubscribeType then Ret (PSubscribe (mkSubscribe fh 0 []))
  else if t =? SubAckType then Ret (PSubAck (mkSubAck fh 0 []))
  else if t =? UnsubscribeType then Ret (PUnsubscribe (mkUnsubscribe fh 0 []))
  else if t =? UnsubAckType then Ret (PUnSubAck (mkIDPacket fh 0))
  else if t =? PingReqType then Ret (PPingReq fh)
  else if t =? PingRespType then Ret (PPingResp fh)
  else if t =? DisconnectType then Ret (PDisconnect fh)
  else Fail (ErrUnsupportedPacketType t).

(** [ReadPacketLimit].  On an [Unpack] error the source also returns the
    half-filled packet next to the error; callers look at the error first. *)
Definition ReadPacketLimit (maxSize : Z) : dec ControlPacket :=
  b ← DecodeByte;
  fh ← FixedHeader_Decode b;
  if (0 <? maxSize) && (maxSize <? RemainingLength fh) then st_fail ErrPacketTooLarge
  else
    cp ← st_lift (NewControlPacketWithHeader fh);
    packetBytes ← ReadFull (Z.to_nat (RemainingLength fh));
    if negb (Z.of_nat (length packetBytes) =? RemainingLength fh)
    then st_fail ErrFailRemaining
    else st_lift (fst <$> Unpack cp (NewReader packetBytes)).

Definition ReadPacket : dec ControlPacket := ReadPacketLimit 0.

(** ** reset.go and pool.go *)

Definition Reset (cp : ControlPacket) : ControlPacket :=
  match cp with
  | PConnect _ => PConnect (mkConnect (header_for ConnectType 0) EmptyString 0 false false
                              false 0 false false 0 0 EmptyString EmptyString [] EmptyString [])
  | PConnAck _ => PConnAck (mkConnAck (header_for ConnAckType 0) false 0)
  | PPublish _ => PPublish (mkPublish (header_for PublishType 0) EmptyString None 0 [])
  | PPubAck _ => PPubAck (mkIDPacket (header_for PubAckType 0) 0)
  | PPubRec _ => PPubRec (mkIDPacket (header_for PubRecType 0) 0)
  | PPubRel _ => PPubRel (mkIDPacket (header_for PubRelType 1) 0)
  | PPubComp _ => PPubComp (mkIDPacket (header_for PubCompType 0) 0)
  | PSubscribe s => PSubscribe (mkSubscribe (header_for SubscribeType 1) 0
                                  (take 0 (SubscribeTopics s)))
  | PSubAck _ => PSubAck (mkSubAck (header_for SubAckType 0) 0 [])
  | PUnsubscribe u => PUnsubscribe (mkUnsubscribe (header_for UnsubscribeType 1) 0
                                      (take 0 (UnsubscribeTopics u)))
  | PUnSubAck _ => PUnSubAck (mkIDPacket (header_for UnsubAckType 0) 0)
  | PPingReq _ => PPingReq (header_for PingReqType 0)
  | PPingResp _ => PPingResp (header_for PingRespType 0)
  | PDisconnect _ => PDisconnect (header_for DisconnectType 0)
  end.

(** ** zerocopy.go *)

Definition Publish_UnpackBytes (p : Publish) (data : list byte) : outcome GoErr Publish :=
  fst <$> (
    (topicBytes ← ReadBytesNoCopy;
     id ← (if 0 <? QoS (PublishHeader p) then ReadUint16 else mret (PublishID p));
     payload ← ReadRemaining;
     mret (mkPublish (PublishHeader p) (string_of topicBytes) (PayloadRef p) id payload))
    : zdec Publish) (NewZeroCopyReader data).

Definition Connect_UnpackBytes (c : Connect) (data : list byte) : outcome GoErr Connect :=
  fst <$> (
    (protocolName ← ReadString;
     protocolVersion ← ReadByte;
     opts_b ← ReadByte;
     let opts := b2z opts_b in
     let usernameFlag := 0 <? Z.land opts (Z.shiftl 1 7) in
     let passwordFlag := 0 <? Z.land opts (Z.shiftl 1 6) in
     let willRetain := 0 <? Z.land opts (Z.shiftl 1 5) in
     let willQoS := Z.land (Z.shiftr opts 3) 0x03 in
     let willFlag := 0 <? Z.land opts (Z.shiftl 1 2) in
     let cleanSession := 0 <? Z.land opts (Z.shiftl 1 1) in
     let reservedBit := Z.land opts 1 in
     keepAlive ← ReadUint16;
     clientID ← ReadString;
     '(willTopic, willMessage) ←
       (if willFlag
        then t ← ReadString; m ← ReadBytesNoCopy; mret (t, m)
        else mret (WillTopic c, WillMessage c));
     username ← (if usernameFlag then ReadString else mret (Username c));
     password ← (if passwordFlag then ReadBytesNoCopy else mret (Password c));
     mret (mkConnect (ConnectHeader c) protocolName (b2z protocolVersion) usernameFlag
             passwordFlag willRetain willQoS willFlag cleanSession reservedBit keepAlive
             clientID willTopic willMessage username password))
    : zdec Connect) (NewZeroCopyReader data).

(** The loop [for r.Remaining() > 0]. *)
Fixpoint Subscribe_topics_z (fuel : nat) (topics : list Topic) : zdec (list Topic) := λ r,
  match fuel with
  | O => Panic
  | S fuel =>
      if Remaining r <=? 0 then Ret (topics, r)
      else (topic ← ReadString;
            qos ← ReadByte;
            Subscribe_topics_z fuel (topics ++ [mkTopic topic (b2z qos)])) r
  end.

Definition Subscribe_UnpackBytes (s : Subscribe) (data : list byte) : outcome GoErr Subscribe :=
  fst <$> (
    (id ← ReadUint16;
     topics ← Subscribe_topics_z (S (length data)) (SubscribeTopics s);
     mret (mkSubscribe (SubscribeHeader s) id topics))
    : zdec Subscribe) (NewZeroCopyReader data).

(** The type switch of [ReadPacketBytes]: [UnpackBytes] where there is one,
    else [Unpack] on a zero-copy reader. *)
Definition UnpackData (cp : ControlPacket) (packetData : list byte) :
    outcome GoErr ControlPacket :=
  match cp with
  | PPublish p => PPublish <$> Publish_UnpackBytes p packetData
  | PConnect c => PConnect <$> Connect_UnpackBytes c packetData
  | PSubscribe s => PSubscribe <$> Subscribe_UnpackBytes s packetData
  | _ => fst <$> Unpack cp (as_reader (NewZeroCopyReader packetData))
  end.

(** [ReadPacketBytes]: the packet and the number of bytes it took. *)
Definition ReadPacketBytes (data : list byte) : outcome GoErr (ControlPacket * Z) :=
  match data with
  | b0 :: rest =>
      if Z.of_nat (length data) <? 2 then Fail ErrBufferTooShort
      else
        '(remainingLen, r) ← ReadVBI (NewZeroCopyReader rest);
        let fh := set_RemainingLength remainingLen (header_of_byte b0) in
        let headerLen := 1 + Offset r in
        let totalLen := headerLen + remainingLen in
        if Z.of_nat (length data) <? totalLen then Fail ErrBufferTooShort
        else
          cp ← NewControlPacketWithHeader fh;
          match slice data headerLen totalLen with
          | None => Panic
          | Some packetData =>
              cp ← UnpackData cp packetData;
              mret (cp, totalLen)
          end
  | [] => Fail ErrBufferTooShort
  end.

End V3.

(** * Properties *)

Import V3.

(** ** Well-formed packets *)

(** Fields are in the range of their Go types, strings fit their length
    prefix, and a field that is not on the wire has its zero value. *)
Definition body_ok (cp : ControlPacket) : Prop :=
  match cp with
  | PConnect c =>
      str_ok (ProtocolName c) ∧ u8_ok (ProtocolVersion c) ∧ 0 <= WillQoS c <= 3 ∧
      ReservedBit c = 0 ∧ u16_ok (KeepAlive c) ∧ str_ok (ClientID c) ∧
      (if WillFlag c then str_ok (WillTopic c) ∧ bin_ok (WillMessage c)
       else WillTopic c = EmptyString ∧ WillMessage c = []) ∧
      (if UsernameFlag c then str_ok (Username c) else Username c = EmptyString) ∧
      (if PasswordFlag c then bin_ok (Password c) else Password c = [])
  | PConnAck c => u8_ok (ReturnCode c)
  | PPublish p =>
      str_ok (TopicName p) ∧ PayloadRef p = None ∧
      (if 0 <? QoS (PublishHeader p) then u16_ok (PublishID p) else PublishID p = 0)
  | PPubAck p | PPubRec p | PPubRel p | PPubComp p | PUnSubAck p => u16_ok (PacketID p)
  | PSubscribe s =>
      u16_ok (SubscribeID s) ∧
      Forall (λ t, str_ok (TopicFilterName t) ∧ u8_ok (TopicQoS t)) (SubscribeTopics s)
  | PSubAck s => u16_ok (SubAckID s)
  | PUnsubscribe u => u16_ok (UnsubscribeID u) ∧ Forall str_ok (UnsubscribeTopics u)
  | PPingReq _ | PPingResp _ | PDisconnect _ => True
  end.

(** The bytes after the fixed header. *)
Definition body (cp : ControlPacket) : list byte :=
  match cp with
  | PConnect c =>
      EncodeString (ProtocolName c) ++ [z2b (ProtocolVersion c)] ++
      [z2b (Connect_flags c)] ++ EncodeUint16 (KeepAlive c) ++
      EncodeString (ClientID c) ++
      (if WillFlag c then EncodeString (WillTopic c) ++ EncodeBytes (WillMessage c) else []) ++
      (if UsernameFlag c then EncodeString (Username c) else []) ++
      (if PasswordFlag c then EncodeBytes (Password c) else [])
  | PConnAck c => [z2b (if SessionPresent c then 1 else 0); z2b (ReturnCode c)]
  | PPublish p =>
      EncodeString (TopicName p) ++
      (if 0 <? QoS (PublishHeader p) then EncodeUint16 (PublishID p) else []) ++ Payload p
  | PPubAck p | PPubRec p | PPubRel p | PPubComp p | PUnSubAck p => EncodeUint16 (PacketID p)
  | PSubscribe s => EncodeUint16 (SubscribeID s) ++ concat (encode_topic <$> SubscribeTopics s)
  | PSubAck s => EncodeUint16 (SubAckID s) ++ ReturnCodes s
  | PUnsubscribe u =>
      EncodeUint16 (UnsubscribeID u) ++ concat (EncodeString <$> UnsubscribeTopics u)
  | PPingReq _ | PPingResp _ | PDisconnect _ => []
  end.

Definition packet_wf (cp : ControlPacket) : Prop :=
  body_ok cp ∧ PacketType (Header cp) = Type_ cp ∧
  header_wf (set_RemainingLength (Z.of_nat (length (body cp))) (Header cp)).

Definition setHeader (fh : FixedHeader) (cp : ControlPacket) : ControlPacket :=
  match cp with
  | PConnect c => PConnect (mkConnect fh (ProtocolName c) (ProtocolVersion c) (UsernameFlag c)
         (PasswordFlag c) (WillRetain c) (WillQoS c) (WillFlag c) (CleanSession c)
         (ReservedBit c) (KeepAlive c) (ClientID c) (WillTopic c) (WillMessage c)
         (Username c) (Password c))
  | PConnAck c => PConnAck (mkConnAck fh (SessionPresent c) (ReturnCode c))
  | PPublish p => PPublish (mkPublish fh (TopicName p) (PayloadRef p) (PublishID p) (Payload p))
  | PPubAck p => PPubAck (mkIDPacket fh (PacketID p))
  | PPubRec p => PPubRec (mkIDPacket fh (PacketID p))
  | PPubRel p => PPubRel (mkIDPacket fh (PacketID p))
  | PPubComp p => PPubComp (mkIDPacket fh (PacketID p))
  | PSubscribe s => PSubscribe (mkSubscribe fh (SubscribeID s) (SubscribeTopics s))
  | PSubAck s => PSubAck (mkSubAck fh (SubAckID s) (ReturnCodes s))
  | PUnsubscribe u => PUnsubscribe (mkUnsubscribe fh (UnsubscribeID u) (UnsubscribeTopics u))
  | PUnSubAck u => PUnSubAck (mkIDPacket fh (PacketID u))
  | PPingReq _ => PPingReq fh
  | PPingResp _ => PPingResp fh
  | PDisconnect _ => PDisconnect fh
  end.

(** The packet with its remaining length stored. *)
Definition stamped (cp : ControlPacket) : ControlPacket :=
  setHeader (set_RemainingLength (Z.of_nat (length (body cp))) (Header cp)) cp.

(** ** Encoding *)

Lemma appendVBI_digits dst n : 0 <= n < 2 ^ 28 → appendVBI dst n = dst ++ vbi_digits 4 n.
Proof.
  intros Hn. unfold appendVBI. rewrite u32_small by lia.
  assert (H : ∀ k v dst, 0 <= v < 2 ^ (7 * Z.of_nat k) → (0 < k)%nat →
    appendVBI_loop k dst v = dst ++ vbi_digits k v).
  { clear. induction k as [|k IH]; intros v dst Hv Hk; [lia|].
    cbn [appendVBI_loop vbi_digits]. rewrite land_127, shiftr_7.
    destruct (v <? 128) eqn:E; bool_prop.
    - by rewrite (Z.div_small v 128), (Z.mod_small v 128) by lia.
    - pose proof (Z.div_le_lower_bound v 128 1). pose proof (Z.mod_pos_bound v 128).
      destruct (0 <? v / 128) eqn:E0; bool_prop; [|lia].
      destruct (v / 128 =? 0) eqn:E1; bool_prop; [lia|].
      rewrite lor_128 by lia. pose proof (div_128_range v k Hv) as Hd.
      assert (0 < k)%nat by (destruct k; simpl in Hd; lia).
      rewrite IH by lia. by rewrite <-app_assoc. }
  rewrite H by (simpl; lia). by rewrite (vbi_digits_more 4) by (simpl; lia).
Qed.

Lemma Publish_Encode_body p :
  header_wf (set_RemainingLength (Z.of_nat (length (body (PPublish p)))) (PublishHeader p)) →
  Publish_Encode p =
  (flags_byte (PublishHeader p) :: vbi_digits 4 (Z.of_nat (length (body (PPublish p))))
     ++ body (PPublish p),
   mkPublish (set_RemainingLength (Z.of_nat (length (body (PPublish p)))) (PublishHeader p))
     (TopicName p) (PayloadRef p) (PublishID p) (Payload p)).
Proof.
  intros (_ & _ & Hn). unfold Publish_Encode, Publish_EncodeTo.
  set (rl := if 0 <? QoS (PublishHeader p) then _ + 2 else _).
  assert (Hrl : rl = Z.of_nat (length (body (PPublish p)))).
  { unfold rl. cbn [body]. unfold EncodeString, EncodeBytes.
    rewrite !length_app, length_bytes_of. destruct (0 <? _); cbn [length EncodeUint16]; lia. }
  cbn [RemainingLength set_RemainingLength] in Hn. rewrite Hrl, appendVBI_digits by done.
  f_equal. cbn [QoS set_RemainingLength body]. unfold EncodeString, EncodeBytes.
  rewrite length_bytes_of. destruct (0 <? _); rewrite <-!app_assoc; done.
Qed.

Lemma Encode_body cp : packet_wf cp →
  Encode cp = Ret (flags_byte (Header cp) :: vbi_digits 4 (Z.of_nat (length (body cp))) ++ body cp,
                   stamped cp).
Proof.
  intros (_ & _ & Hh). destruct cp; cbn [Encode];
    try (unfold Connect_Encode, ConnAck_Encode, PubAck_Encode, PubRec_Encode, PubRel_Encode,
           PubComp_Encode, UnSubAck_Encode, Subscribe_Encode, SubAck_Encode, Unsubscribe_Encode;
         cbn [Header body] in Hh; unfold mbind, outcome_bind; cbn zeta;
         rewrite with_header_body by exact Hh; done).
  - by rewrite Publish_Encode_body.
  - unfold PingReq_Encode. rewrite FixedHeader_Encode_wf by done. done.
  - unfold PingResp_Encode. rewrite FixedHeader_Encode_wf by done. done.
  - unfold Disconnect_Encode. rewrite FixedHeader_Encode_wf by done. done.
Qed.

(** ** Decoding *)

Lemma Connect_flags_bits c : 0 <= WillQoS c <= 3 →
  let flags := b2z (z2b (Connect_flags c)) in
  (0 <? Z.land flags (Z.shiftl 1 7)) = UsernameFlag c ∧
  (0 <? Z.land flags (Z.shiftl 1 6)) = PasswordFlag c ∧
  (0 <? Z.land flags (Z.shiftl 1 5)) = WillRetain c ∧
  Z.land (Z.shiftr flags 3) 0x03 = WillQoS c ∧
  (0 <? Z.land flags (Z.shiftl 1 2)) = WillFlag c ∧
  (0 <? Z.land flags (Z.shiftl 1 1)) = CleanSession c ∧
  Z.land flags 1 = 0.
Proof.
  intros Hq. unfold Connect_flags.
  destruct (UsernameFlag c), (PasswordFlag c), (WillRetain c), (WillFlag c), (CleanSession c);
    assert (WillQoS c = 0 ∨ WillQoS c = 1 ∨ WillQoS c = 2 ∨ WillQoS c = 3) as [->|[->|[->| ->]]]
      by lia; vm_compute; auto 10.
Qed.

Lemma Connect_Unpack_body c fh rest e : body_ok (PConnect c) →
  Connect_Unpack (Connect_zero fh) (mkReader (body (PConnect c) ++ rest) e) =
  Ret (mkConnect fh (ProtocolName c) (ProtocolVersion c) (UsernameFlag c)
         (PasswordFlag c) (WillRetain c) (WillQoS c) (WillFlag c) (CleanSession c)
         (ReservedBit c) (KeepAlive c) (ClientID c) (WillTopic c) (WillMessage c)
         (Username c) (Password c), mkReader rest e).
Proof.
  intros (Hn & Hv & Hq & Hr & Hk & Hc & Hw & Hu & Hp). cbn [body].
  pose proof (Connect_flags_bits c Hq) as (F1 & F2 & F3 & F4 & F5 & F6 & F7).
  unfold Connect_Unpack. rewrite <-!app_assoc. dec_step.
  rewrite <-!app_comm_cons, !app_nil_l. do 4 dec_step.
  rewrite F1, F2, F3, F4, F5, F6, F7, b2z_z2b_small by done.
  clear F1 F2 F3 F4 F5 F6 F7. revert Hw Hu Hp.
  destruct (WillFlag c), (UsernameFlag c), (PasswordFlag c); intros Hw Hu Hp;
    destruct_and? Hw; rewrite ?app_nil_l, <-?app_assoc, ?app_nil_l;
    repeat dec_step; unfold mret, ST_ret; simpl; congruence.
Qed.

Lemma Publish_Unpack_body p fh : body_ok (PPublish p) → QoS fh = QoS (PublishHeader p) →
  Publish_Unpack (mkPublish fh EmptyString None 0 []) (NewReader (body (PPublish p))) =
  Ret (mkPublish fh (TopicName p) (PayloadRef p) (PublishID p) (Payload p), NewReader []).
Proof.
  intros (Ht & Hr & Hi) Hq. cbn [body]. unfold Publish_Unpack, NewReader.
  cbn [PublishHeader PublishID PayloadRef]. rewrite Hq. dec_step.
  destruct (0 <? _).
  - dec_step. unfold ReadAll, mret, ST_ret. simpl. by rewrite Hr.
  - unfold ReadAll, mret, ST_ret. simpl. by rewrite Hr, Hi.
Qed.

Lemma encode_topic_length t : (3 ≤ length (encode_topic t))%nat.
Proof. unfold encode_topic, EncodeString, EncodeBytes. rewrite !length_app. simpl. lia. Qed.

(** [tail] is anything in which the next name ends in [io.EOF]. *)
Lemma Subscribe_topics_body ts tail : ∀ fuel acc,
  Forall (λ t, str_ok (TopicFilterName t) ∧ u8_ok (TopicQoS t)) ts → (length ts < fuel)%nat →
  DecodeString (mkReader tail EOF) = Fail EOF →
  Subscribe_topics fuel acc (mkReader (concat (encode_topic <$> ts) ++ tail) EOF) =
  Ret (acc ++ ts, mkReader [] EOF).
Proof.
  induction ts as [|t ts IH]; intros [|fuel] acc Hf Hl Ht; simpl in Hl; try lia.
  - cbn [Subscribe_topics fmap list_fmap concat app]. rewrite Ht. by rewrite app_nil_r.
  - apply Forall_cons in Hf as [[Hs Hq] Hf]. cbn [Subscribe_topics fmap list_fmap concat].
    unfold encode_topic at 1. rewrite <-!app_assoc. rewrite DecodeString_Encode by done.
    cbn [app]. rewrite DecodeByte_cons, b2z_z2b_small by done.
    rewrite IH by (done || lia). rewrite <-app_assoc. by destruct t.
Qed.

Lemma Unsubscribe_topics_body ts : ∀ fuel acc,
  Forall str_ok ts → (length ts < fuel)%nat →
  Unsubscribe_topics fuel acc (mkReader (concat (EncodeString <$> ts)) EOF) =
  Ret (acc ++ ts, mkReader [] EOF).
Proof.
  induction ts as [|t ts IH]; intros [|fuel] acc Hf Hl; simpl in Hl; try lia.
  - cbn. by rewrite app_nil_r.
  - apply Forall_cons in Hf as [Hs Hf]. cbn [Unsubscribe_topics fmap list_fmap concat].
    rewrite DecodeString_Encode by done. rewrite IH by (done || lia). by rewrite <-app_assoc.
Qed.

Lemma Subscribe_Unpack_body s fh : body_ok (PSubscribe s) →
  Subscribe_Unpack (mkSubscribe fh 0 []) (NewReader (body (PSubscribe s))) =
  Ret (mkSubscribe fh (SubscribeID s) (SubscribeTopics s), NewReader []).
Proof.
  intros [Hi Ht]. unfold Subscribe_Unpack, NewReader. cbn [body]. dec_step.
  cbn [SubscribeTopics rbuf]. rewrite <-(app_nil_r (concat _)) at 2.
  rewrite Subscribe_topics_body; [done|done| |done]. apply Nat.lt_succ_r, concat_length_ge. intros x. pose proof (encode_topic_length x). lia.
Qed.

Lemma Unsubscribe_Unpack_body u fh : body_ok (PUnsubscribe u) →
  Unsubscribe_Unpack (mkUnsubscribe fh 0 []) (NewReader (body (PUnsubscribe u))) =
  Ret (mkUnsubscribe fh (UnsubscribeID u) (UnsubscribeTopics u), NewReader []).
Proof.
  intros [Hi Ht]. unfold Unsubscribe_Unpack, NewReader. cbn [body]. dec_step.
  cbn [UnsubscribeTopics rbuf]. rewrite Unsubscribe_topics_body; [done|done|].
  apply Nat.lt_succ_r, concat_length_ge. intros x. unfold EncodeString, EncodeBytes. rewrite length_app. simpl. lia.
Qed.

(** The factory's blank packet, unpacked from the body, is the packet. *)
Lemma Unpack_body cp fh : body_ok cp → PacketType fh = Type_ cp → QoS fh = QoS (Header cp) →
  ∃ cp0, NewControlPacketWithHeader fh = Ret cp0 ∧
    Unpack cp0 (NewReader (body cp)) = Ret (setHeader fh cp, NewReader []).
Proof.
  intros Hb Ht Hq. unfold NewControlPacketWithHeader. rewrite Ht.
  destruct cp; cbn [Type_]; eexists; (split; [reflexivity|]); cbn [Unpack];
    unfold mbind, ST_bind, PubAck_Unpack, PubRec_Unpack, PubRel_Unpack, PubComp_Unpack,
      UnSubAck_Unpack, SubAck_Unpack, ConnAck_Unpack, NewReader; unfold mbind, ST_bind;
    cbn [body]; rewrite ?DecodeUint16_Encode' by exact Hb; try done.
  - pose proof (Connect_Unpack_body c fh [] EOF Hb) as H. rewrite app_nil_r in H.
    cbn [body] in H. by rewrite H.
  - rewrite !DecodeByte_cons. rewrite (b2z_z2b_small (ReturnCode c)) by exact Hb.
    cbn [setHeader]. by destruct (SessionPresent c).
  - pose proof (Publish_Unpack_body p fh Hb Hq) as H. cbn [body] in H. unfold NewReader in H. by rewrite H.
  - pose proof (Subscribe_Unpack_body s fh Hb) as H. cbn [body] in H. unfold NewReader in H. by rewrite H.
  - by rewrite DecodeUint16_Encode by exact Hb.
  - pose proof (Unsubscribe_Unpack_body u fh Hb) as H. cbn [body] in H. unfold NewReader in H. by rewrite H.
Qed.

Lemma ReadPacketLimit_encoded cp rest e maxSize : packet_wf cp →
  maxSize <= 0 ∨ Z.of_nat (length (body cp)) <= maxSize →
  ReadPacketLimit maxSize (mkReader ((flags_byte (Header cp) ::
    vbi_digits 4 (Z.of_nat (length (body cp))) ++ body cp) ++ rest) e) =
  Ret (stamped cp, mkReader rest e).
Proof.
  intros (Hb & Ht & Hh) Hm.
  set (fh := set_RemainingLength (Z.of_nat (length (body cp))) (Header cp)) in *.
  unfold ReadPacketLimit, mbind, ST_bind. rewrite <-app_comm_cons, DecodeByte_cons.
  pose proof (FixedHeader_Decode_wf fh (body cp ++ rest) e Hh) as Hd.
  rewrite app_assoc in Hd. change (RemainingLength fh) with (Z.of_nat (length (body cp))) in Hd.
  change (flags_byte fh) with (flags_byte (Header cp)) in Hd. rewrite Hd.
  change (RemainingLength fh) with (Z.of_nat (length (body cp))).
  destruct (_ && _) eqn:E; bool_prop; [lia|]. clear E.
  destruct (Unpack_body cp fh Hb Ht eq_refl) as (cp0 & Hn & Hu).
  unfold st_lift at 1. rewrite Hn, Nat2Z.id. rewrite ReadFull_app by done.
  rewrite Z.eqb_refl. cbn [negb]. unfold st_lift. by rewrite Hu.
Qed.

(** C7 Reading inverts encoding for all fourteen MQTT 3.1.1 packet types: every
    well-formed packet encodes without a panic, and reading those bytes, with
    any data behind them, any error at the end of the stream and any limit
    that admits the packet, returns the packet [Encode] left behind and
    leaves exactly the data behind it. *)
Theorem v3_roundtrip cp : packet_wf cp →
  ∃ bs, Encode cp = Ret (bs, stamped cp) ∧
    ∀ rest e maxSize, maxSize <= 0 ∨ Z.of_nat (length (body cp)) <= maxSize →
      ReadPacketLimit maxSize (mkReader (bs ++ rest) e) = Ret (stamped cp, mkReader rest e).
Proof.
  intros Hwf. eexists. split; [by apply Encode_body|].
  intros rest e maxSize Hm. by apply ReadPacketLimit_encoded.
Qed.

(** A concrete SUBSCRIBE. *)
Definition example_subscribe : ControlPacket :=
  PSubscribe (mkSubscribe (header_for SubscribeType 1) 7 [mkTopic "a/#" 1; mkTopic "b/+" 2]).

Lemma v3_roundtrip_witness :
  ReadPacketLimit 100 (mkReader ([x82; x0e; x00; x07; x00; x03; x61; x2f; x23; x01;
    x00; x03; x62; x2f; x2b; x02] ++ [xc0]) EOF) =
  Ret (stamped example_subscribe, mkReader [xc0] EOF).
Proof.
  destruct (v3_roundtrip example_subscribe) as (bs & He & Hr).
  - split_and!; [|reflexivity|split_and!; [reflexivity|simpl; lia|simpl; lia..]].
    split; [unfold u16_ok; simpl; lia|].
    repeat constructor; unfold str_ok, u8_ok; simpl; lia.
  - vm_compute in He. injection He as <-. apply Hr. right. simpl. lia.
Defined.

(** ** No input makes a reader panic *)

Lemma nopanic_Subscribe_topics fuel : ∀ acc r,
  (length (rbuf r) < fuel)%nat → Subscribe_topics fuel acc r ≠ Panic.
Proof.
  induction fuel as [|fuel IH]; intros acc r Hl; [lia|]. cbn [Subscribe_topics].
  pose proof (nopanic_DecodeString r). destruct (DecodeString r) as [[s r1]|[]|] eqn:E; try done.
  apply DecodeString_inv in E as (used & Hu & _ & Hl').
  destruct r1 as [[|b l] e]; [done|]. rewrite DecodeByte_cons. apply IH.
  rewrite Hu, length_app in Hl. simpl in *. lia.
Qed.

Lemma nopanic_Unsubscribe_topics fuel : ∀ acc r,
  (length (rbuf r) < fuel)%nat → Unsubscribe_topics fuel acc r ≠ Panic.
Proof.
  induction fuel as [|fuel IH]; intros acc r Hl; [lia|]. cbn [Unsubscribe_topics].
  pose proof (nopanic_DecodeString r). destruct (DecodeString r) as [[s r1]|[]|] eqn:E; try done.
  apply DecodeString_inv in E as (used & Hu & _ & Hl'). apply IH.
  rewrite Hu, length_app in Hl. lia.
Qed.

Lemma nopanic_Unpack cp : nopanic (Unpack cp).
Proof.
  destruct cp; cbn [Unpack];
    unfold Connect_Unpack, ConnAck_Unpack, Publish_Unpack, PubAck_Unpack, PubRec_Unpack,
      PubRel_Unpack, PubComp_Unpack, UnSubAck_Unpack, SubAck_Unpack, Subscribe_Unpack,
      Unsubscribe_Unpack;
    repeat first [solve [eauto with nopanic] | apply nopanic_bind; [|intros ?]
                 | case_match | progress cbn zeta].
  - intros r. apply nopanic_Subscribe_topics. lia.
  - intros r. apply nopanic_Unsubscribe_topics. lia.
Qed.

Lemma NewControlPacketWithHeader_nopanic fh : NewControlPacketWithHeader fh ≠ Panic.
Proof. unfold NewControlPacketWithHeader. by repeat case_match. Qed.

Lemma ReadPacketLimit_nopanic m r : ReadPacketLimit m r ≠ Panic.
Proof.
  revert r. change (nopanic (ReadPacketLimit m)). unfold ReadPacketLimit, FixedHeader_Decode.
  apply nopanic_bind; [eauto with nopanic|intros b].
  apply nopanic_bind.
  { apply nopanic_bind; [apply nopanic_lift, validateFlags_nopanic|eauto with nopanic]. }
  intros fh. case_match; [eauto with nopanic|].
  apply nopanic_bind; [apply nopanic_lift, NewControlPacketWithHeader_nopanic|intros cp].
  apply nopanic_bind; [eauto with nopanic|intros bs]. case_match; [eauto with nopanic|].
  apply nopanic_lift. pose proof (nopanic_Unpack cp (NewReader bs)).
  by destruct (Unpack cp (NewReader bs)).
Qed.

(** ** The zero-copy reader *)

Lemma Publish_UnpackBytes_agree p data :
  agree_out (Publish_UnpackBytes p data) (fst <$> Publish_Unpack p (NewReader data)).
Proof.
  apply sime_fst. unfold Publish_Unpack, ReadBytesNoCopy.
  apply sime_ReadBytes_string. intros b. sim.
Qed.

Lemma Connect_UnpackBytes_agree c data :
  agree_out (Connect_UnpackBytes c data) (fst <$> Connect_Unpack c (NewReader data)).
Proof. apply sime_fst. unfold Connect_Unpack, ReadBytesNoCopy. sim. Qed.

(** The topic loops: the zero-copy loop accepts only what the stream loop does. *)
Lemma Subscribe_topics_z_sound fuel : ∀ acc z ts z',
  zok z → Subscribe_topics_z fuel acc z = Ret (ts, z') →
  ∀ fuel', (length (zrest z) < fuel')%nat →
  Subscribe_topics fuel' acc (mkReader (zrest z) EOF) = Ret (ts, mkReader [] EOF).
Proof.
  induction fuel as [|fuel IH]; intros acc z ts z' Hz; [done|].
  cbn [Subscribe_topics_z]. pose proof (zrest_length z Hz) as Hl. unfold Remaining.
  destruct (_ <=? 0) eqn:E; bool_prop.
  - intros [= <- <-] [|fuel'] Hf; [lia|]. unfold zok in Hz.
    destruct (zrest z); [done|simpl in Hl; lia].
  - intros Hz' [|fuel'] Hf; [lia|]. cbn [Subscribe_topics].
    pose proof (simc_ReadString z EOF Hz) as Hs. unfold mbind, ST_bind in Hz'. unfold agree in Hs.
    destruct (ReadString z) as [[s z1]| |]; [|done..].
    destruct (DecodeString (mkReader (zrest z) EOF)) as [[s' r1]| |] eqn:Ed; [|done..].
    destruct Hs as (<- & Hz1 & Hd1 & ->).
    pose proof (simc_ReadByte z1 EOF Hz1) as Hq. unfold agree in Hq.
    destruct (ReadByte z1) as [[q z2]| |]; [|done..].
    apply DecodeString_inv in Ed as (used & Hu & _ & Hu'). simpl in Hu.
    destruct (zrest z1) as [|b l]; [done|]. rewrite DecodeByte_cons in *.
    destruct Hq as (<- & Hz2 & Hd2 & [= Hl2]). rewrite Hl2.
    eapply IH; [done|done|]. rewrite Hu, length_app in Hf. rewrite <-Hl2. simpl in Hf. lia.
Qed.

Lemma Subscribe_topics_z_nopanic fuel : ∀ acc z,
  zok z → (length (zrest z) < fuel)%nat → Subscribe_topics_z fuel acc z ≠ Panic.
Proof.
  induction fuel as [|fuel IH]; intros acc z Hz Hf; [lia|]. cbn [Subscribe_topics_z].
  destruct (_ <=? 0); [done|]. unfold mbind, ST_bind.
  pose proof (simc_ReadString z EOF Hz) as Hs. pose proof (nopanic_DecodeString
    (mkReader (zrest z) EOF)). unfold agree in Hs.
  destruct (ReadString z) as [[s z1]| |]; [|done|by destruct (DecodeString _) as [[]| |]].
  destruct (DecodeString (mkReader (zrest z) EOF)) as [[s' r1]| |] eqn:Ed; [|done..].
  destruct Hs as (<- & Hz1 & Hd1 & ->).
  pose proof (simc_ReadByte z1 EOF Hz1) as Hq. unfold agree in Hq.
  apply DecodeString_inv in Ed as (used & Hu & _ & Hu'). simpl in Hu.
  destruct (zrest z1) as [|b l]; [by destruct (ReadByte z1) as [[]| |]|].
  rewrite DecodeByte_cons in Hq. destruct (ReadByte z1) as [[q z2]| |]; [|done..].
  destruct Hq as (<- & Hz2 & Hd2 & [= Hl2]).
  apply IH; [done|]. rewrite Hu, length_app in Hf. rewrite <-Hl2. simpl in Hf. lia.
Qed.

(** The bytes end in a length of which nothing follows. *)
Definition dangling (l : list byte) : Prop :=
  ∃ pre b0 b1, l = pre ++ [b0; b1] ∧ ¬ (b0 = x00 ∧ b1 = x00).

Lemma dangling_app l1 l2 : dangling l2 → dangling (l1 ++ l2).
Proof. intros (pre & b0 & b1 & -> & H). exists (l1 ++ pre), b0, b1. by rewrite app_assoc. Qed.

Lemma DecodeString_EOF l : DecodeString (mkReader l EOF) = Fail EOF → l = [] ∨ dangling l.
Proof.
  unfold DecodeString, DecodeBytes, mbind, ST_bind. destruct l as [|b0 [|b1 l]]; [by left|done|].
  rewrite DecodeUint16_cons. unfold ReadFull, ReadFull_n. cbn [rbuf rend].
  case_decide as Hl; [done|]. destruct l as [|b l]; [|done]. intros _. right. exists [], b0, b1.
  split; [done|]. intros [-> ->]. by apply Hl.
Qed.

(** The stream loop accepts only what the zero-copy loop does, and what ends in a
    dangling length. *)
Lemma Subscribe_topics_complete fuel : ∀ acc z ts r,
  zok z → Subscribe_topics fuel acc (mkReader (zrest z) EOF) = Ret (ts, r) →
  (∀ fuel', (length (zrest z) < fuel')%nat → ∃ z', Subscribe_topics_z fuel' acc z = Ret (ts, z')) ∨
  dangling (zrest z).
Proof.
  induction fuel as [|fuel IH]; intros acc z ts r Hz; [done|]. cbn [Subscribe_topics].
  pose proof (zrest_length z Hz) as Hl. pose proof (simc_ReadString z EOF Hz) as Hs. unfold agree in Hs.
  destruct (DecodeString (mkReader (zrest z) EOF)) as [[s r1]|e|] eqn:Ed; [| |done].
  - destruct (ReadString z) as [[s' z1]| |] eqn:Er; [|done..]. destruct Hs as (-> & Hz1 & _ & ->).
    apply DecodeString_inv in Ed as (used & Hu & _ & Hu'). cbn [rbuf] in Hu.
    pose proof (simc_ReadByte z1 EOF Hz1) as Hq. unfold agree in Hq.
    destruct (zrest z1) as [|b l] eqn:Ez1; [done|]. rewrite DecodeByte_cons in *.
    destruct (ReadByte z1) as [[q z2]| |] eqn:Eb; [|done..]. destruct Hq as (<- & Hz2 & _ & [= ->]).
    intros Ht. destruct (IH _ _ _ _ Hz2 Ht) as [H|H]; [left|right].
    + intros [|fuel'] Hf; [lia|]. rewrite Hu, length_app in Hf, Hl. cbn [length] in Hf, Hl.
      destruct (H fuel') as [z' Hz']; [lia|]. exists z'. cbn [Subscribe_topics_z]. unfold Remaining.
      rewrite (proj2 (Z.leb_gt _ _)) by lia. unfold mbind, ST_bind. by rewrite Er, Eb.
    + rewrite Hu. by apply dangling_app, (dangling_app [_]).
  - destruct (decide (e = EOF)) as [->|He]; [|by destruct e]. intros [= <- <-].
    destruct (DecodeString_EOF _ Ed) as [E|]; [left|by right]. intros [|fuel'] Hf; [lia|].
    exists z. cbn [Subscribe_topics_z]. rewrite E in Hl. cbn [length] in Hl. unfold Remaining.
    by rewrite (proj2 (Z.leb_le _ _)) by lia.
Qed.

Lemma Subscribe_UnpackBytes_spec s data :
  Subscribe_UnpackBytes s data ≠ Panic ∧
  (∀ s', Subscribe_UnpackBytes s data = Ret s' →
         fst <$> Subscribe_Unpack s (NewReader data) = Ret s') ∧
  (∀ s', fst <$> Subscribe_Unpack s (NewReader data) = Ret s' →
         Subscribe_UnpackBytes s data = Ret s' ∨ dangling data).
Proof.
  unfold Subscribe_UnpackBytes, Subscribe_Unpack, mbind, ST_bind.
  pose proof (simc_ReadUint16 _ EOF (zok_new data)) as Hi. unfold agree in Hi.
  change (mkReader (zrest (NewZeroCopyReader data)) EOF) with (NewReader data) in Hi.
  pose proof (nopanic_DecodeUint16 (NewReader data)).
  destruct (ReadUint16 _) as [[id z1]| |], (DecodeUint16 (NewReader data)) as [[id' r1]| |] eqn:Ed;
    try done.
  destruct Hi as (<- & Hz1 & Hd1 & ->). cbn [rbuf].
  assert (Hl : (length (zrest z1) < S (length data))%nat).
  { unfold zrest. rewrite length_drop, Hd1. simpl. lia. }
  pose proof (Subscribe_topics_z_nopanic _ (SubscribeTopics s) z1 Hz1 Hl) as Hp.
  split_and!; [by destruct (Subscribe_topics_z _ _ z1) as [[]| |]| |].
  - intros s'. destruct (Subscribe_topics_z _ _ z1) as [[ts z2]| |] eqn:Et; [|done..]. intros [= <-].
    by rewrite (Subscribe_topics_z_sound _ _ _ _ _ Hz1 Et) by lia.
  - intros s'. destruct (Subscribe_topics _ _ _) as [[ts r]| |] eqn:Et; [|done..]. intros [= <-].
    destruct (Subscribe_topics_complete _ _ _ _ _ Hz1 Et) as [H'|H']; [left|right].
    + by destruct (H' _ Hl) as [z' ->].
    + rewrite <-(take_drop (Z.to_nat (zoffset z1)) data). apply dangling_app.
      unfold zrest in H'. by rewrite Hd1 in H'.
Qed.

(** Decoders that never look for the end of the stream do not notice which
    error ends it. *)
Lemma Unpack_rend cp data e :
  Type_ cp ≠ ConnectType → Type_ cp ≠ PublishType → Type_ cp ≠ SubscribeType →
  match cp with
  | PSubAck _ | PUnsubscribe _ => True
  | _ => agree_out (fst <$> Unpack cp (mkReader data e)) (fst <$> Unpack cp (NewReader data))
  end.
Proof.
  intros H1 H2 H3. destruct cp; cbn [Type_] in *; try done; cbn [Unpack];
    unfold ConnAck_Unpack, PubAck_Unpack, PubRec_Unpack, PubRel_Unpack, PubComp_Unpack,
      UnSubAck_Unpack, mbind, ST_bind, NewReader;
    destruct data as [|b0 [|b1 data]]; rewrite ?DecodeUint16_cons, ?DecodeByte_cons;
    cbn beta iota; rewrite ?DecodeByte_cons; done.
Qed.

(** [ReadPacketBytes] cannot read a SUBACK or an UNSUBSCRIBE: their [Unpack]
    waits for [io.EOF], which a zero-copy reader never gives. *)
Lemma UnpackData_SubAck s data : ∃ e, UnpackData (PSubAck s) data = Fail e.
Proof.
  cbn [UnpackData Unpack]. unfold SubAck_Unpack, mbind, ST_bind.
  pose proof (nopanic_DecodeUint16 (as_reader (NewZeroCopyReader data))).
  destruct (DecodeUint16 _) as [[id r]| |] eqn:E; [|by eexists|done].
  assert (Hr : rend r ≠ EOF).
  { unfold as_reader, zrest in E. simpl in E. destruct data as [|b0 [|b1 l]]; [done..|].
    rewrite drop_0, DecodeUint16_cons in E. by injection E as <- <-. }
  unfold ReadAll. rewrite decide_False by done. by eexists.
Qed.

Lemma Unsubscribe_topics_noeof fuel : ∀ acc l e res, e ≠ EOF →
  Unsubscribe_topics fuel acc (mkReader l e) ≠ Ret res.
Proof.
  induction fuel as [|fuel IH]; intros acc l e res He; [done|]. cbn [Unsubscribe_topics].
  destruct (DecodeString (mkReader l e)) as [[s r]|e'|] eqn:E; [| |done].
  - apply DecodeString_inv in E as (used & _ & Hr & _). destruct r as [l' e'].
    simpl in Hr. subst e'. by apply IH.
  - apply DecodeString_fail in E as ->; [|done]. by destruct e.
Qed.

Lemma UnpackData_Unsubscribe u data : ∃ e, UnpackData (PUnsubscribe u) data = Fail e.
Proof.
  pose proof (nopanic_Unpack (PUnsubscribe u) (as_reader (NewZeroCopyReader data))) as Hp.
  cbn [UnpackData]. destruct (Unpack _ _) as [[cp r]| |] eqn:E; [|by eexists|done].
  exfalso. revert E. cbn [Unpack]. unfold Unsubscribe_Unpack, mbind, ST_bind.
  change (as_reader (NewZeroCopyReader data)) with (mkReader data ErrBufferTooShort).
  destruct data as [|b0 [|b1 l]]; [done..|]. rewrite DecodeUint16_cons. cbn beta iota.
  destruct (Unsubscribe_topics _ _ _) eqn:Et; [|done..].
  by apply Unsubscribe_topics_noeof in Et.
Qed.

Lemma UnpackData_spec cp data :
  UnpackData cp data ≠ Panic ∧
  (∀ cp', UnpackData cp data = Ret cp' → fst <$> Unpack cp (NewReader data) = Ret cp') ∧
  (Type_ cp ≠ SubAckType → Type_ cp ≠ UnsubscribeType →
   ∀ cp', fst <$> Unpack cp (NewReader data) = Ret cp' →
     UnpackData cp data = Ret cp' ∨ Type_ cp = SubscribeType ∧ dangling data).
Proof.
  assert (Hf : agree_out (UnpackData cp data) (fst <$> Unpack cp (NewReader data)) →
    UnpackData cp data ≠ Panic ∧
    (∀ cp', UnpackData cp data = Ret cp' → fst <$> Unpack cp (NewReader data) = Ret cp') ∧
    (Type_ cp ≠ SubAckType → Type_ cp ≠ UnsubscribeType →
     ∀ cp', fst <$> Unpack cp (NewReader data) = Ret cp' →
       UnpackData cp data = Ret cp' ∨ Type_ cp = SubscribeType ∧ dangling data)).
  { unfold agree_out. destruct (UnpackData cp data), (fst <$> _); naive_solver. }
  pose proof (Unpack_rend cp data ErrBufferTooShort) as Hr.
  destruct cp; try (apply Hf; exact (Hr ltac:(done) ltac:(done) ltac:(done))); clear Hr.
  - apply Hf. cbn [UnpackData Unpack]. pose proof (Connect_UnpackBytes_agree c data) as H.
    unfold mbind, ST_bind, agree_out in *.
    destruct (Connect_UnpackBytes c data), (Connect_Unpack c (NewReader data)) as [[]| |];
      simpl in *; by subst.
  - apply Hf. cbn [UnpackData Unpack]. pose proof (Publish_UnpackBytes_agree p data) as H.
    unfold mbind, ST_bind, agree_out in *.
    destruct (Publish_UnpackBytes p data), (Publish_Unpack p (NewReader data)) as [[]| |];
      simpl in *; by subst.
  - destruct (Subscribe_UnpackBytes_spec s data) as (Hp & Hs & Hc). cbn [UnpackData Unpack Type_].
    unfold mbind, ST_bind. split_and!; [by destruct (Subscribe_UnpackBytes s data)|..].
    + intros cp'. destruct (Subscribe_UnpackBytes s data) as [s'| |] eqn:E; [|done..].
      intros [= <-]. specialize (Hs s' eq_refl).
      by destruct (Subscribe_Unpack s (NewReader data)) as [[]| |]; simplify_eq/=.
    + intros _ _ cp'. destruct (Subscribe_Unpack s (NewReader data)) as [[s' r']| |]; [|done..].
      intros [= <-]. by destruct (Hc s' eq_refl) as [->|]; [left|right].
  - destruct (UnpackData_SubAck s data) as [e He]. rewrite He. by split_and!.
  - destruct (UnpackData_Unsubscribe u data) as [e He]. rewrite He. by split_and!.
Qed.

(** [ReadPacketBytes] in terms of the stream's length decoder. *)
Lemma ReadPacketBytes_eq b0 rest :
  match DecodeVBI (NewReader rest) with
  | Ret (n, r) =>
      ReadPacketBytes (b0 :: rest) =
      (if Z.of_nat (length (rbuf r)) <? n then Fail ErrBufferTooShort
       else cp ← NewControlPacketWithHeader (set_RemainingLength n (header_of_byte b0));
            cp ← UnpackData cp (take (Z.to_nat n) (rbuf r));
            mret (cp, 1 + Z.of_nat (length rest) - Z.of_nat (length (rbuf r)) + n))
  | _ => ∃ e, ReadPacketBytes (b0 :: rest) = Fail e
  end.
Proof.
  unfold ReadPacketBytes. pose proof (nopanic_DecodeVBI (NewReader rest)) as Hp.
  pose proof (simc_ReadVBI _ EOF (zok_new rest)) as Hv. unfold agree in Hv.
  change (mkReader (zrest (NewZeroCopyReader rest)) EOF) with (NewReader rest) in Hv.
  destruct rest as [|b1 rest]; [by eexists|]. set (data := b1 :: rest) in *.
  destruct (Z.of_nat (length (b0 :: data)) <? 2) eqn:E; bool_prop; [unfold data in E; simpl in E; lia|].
  unfold mbind at 1 4 7 10, outcome_bind at 1.
  destruct (ReadVBI _) as [[n z]| |], (DecodeVBI (NewReader data)) as [[n' r]| |] eqn:Ed;
    try done; [|by eexists].
  destruct Hv as (<- & Hz & Hd & ->). cbn [rbuf].
  pose proof (zrest_length z Hz) as Hl. unfold zlen in Hl. change (zdata (NewZeroCopyReader data))
    with data in Hd. rewrite Hd in Hl.
  assert (Hn : 0 <= n) by (apply DecodeVBI_inv in Ed as (? & _ & _ & _ & ?); lia).
  assert (Hzo : 0 <= zoffset z) by apply Hz.
  change (length (b0 :: data)) with (S (length data)). unfold Offset.
  replace (Z.of_nat (S (length data)) <? 1 + zoffset z + n) with
    (Z.of_nat (length (zrest z)) <? n)
    by (rewrite Hl; destruct (_ <? n) eqn:E1, (_ <? _ + n) eqn:E2; bool_prop; (done || lia)).
  destruct (_ <? n) eqn:E3; [done|]. bool_prop.
  assert (Hs : slice (b0 :: data) (1 + zoffset z) (1 + zoffset z + n) =
               Some (take (Z.to_nat n) (zrest z))).
  { unfold slice. rewrite (proj2 (Z.leb_le 0 _)), (proj2 (Z.leb_le (1 + zoffset z) _)),
      (proj2 (Z.leb_le (1 + zoffset z + n) _)) by (cbn [length]; lia). cbn [andb].
    unfold zrest. rewrite Hd. replace (Z.to_nat (1 + zoffset z)) with (S (Z.to_nat (zoffset z)))
      by lia. rewrite skipn_cons. by replace (1 + zoffset z + n - (1 + zoffset z)) with n by lia. }
  rewrite Hs, Hl. destruct (NewControlPacketWithHeader _) as [cp| |]; [|done..].
  unfold mbind, outcome_bind. destruct (UnpackData cp _); [|done..].
  unfold mret, outcome_ret. do 2 f_equal. lia.
Qed.

Lemma ReadPacket_eq b0 rest : validateFlags (header_of_byte b0) = Ret tt →
  match DecodeVBI (NewReader rest) with
  | Ret (n, r) =>
      ReadPacket (NewReader (b0 :: rest)) =
      match NewControlPacketWithHeader (set_RemainingLength n (header_of_byte b0)) with
      | Ret cp =>
          match ReadFull (Z.to_nat n) r with
          | Ret (bs, r') =>
              match fst <$> Unpack cp (NewReader bs) with
              | Ret cp' => Ret (cp', r') | Fail e => Fail e | Panic => Panic
              end
          | Fail e => Fail e
          | Panic => Panic
          end
      | Fail e => Fail e
      | Panic => Panic
      end
  | _ => ∃ e, ReadPacket (NewReader (b0 :: rest)) = Fail e
  end.
Proof.
  intros Hf. pose proof (nopanic_DecodeVBI (NewReader rest)) as Hp.
  unfold ReadPacket, ReadPacketLimit, FixedHeader_Decode, mbind, ST_bind.
  unfold NewReader at 2 5 8. rewrite DecodeByte_cons. unfold st_lift at 1 4 7. rewrite Hf.
  fold (NewReader rest).
  destruct (DecodeVBI (NewReader rest)) as [[n r]| |] eqn:Ed; [|by eexists|done].
  unfold mret, ST_ret. cbn [andb Z.ltb Z.compare]. unfold st_lift at 1.
  destruct (NewControlPacketWithHeader _) as [cp| |]; [|done..].
  cbn [RemainingLength set_RemainingLength].
  destruct (ReadFull _ r) as [[bs r']| |] eqn:Er; [|done..].
  apply ReadFull_inv in Er as (Hl & _ & _).
  assert (0 <= n) by (apply DecodeVBI_inv in Ed as (? & _ & _ & _ & ?); lia).
  rewrite Hl, Z2Nat.id, Z.eqb_refl by done. done.
Qed.

Lemma New_header fh cp : NewControlPacketWithHeader fh = Ret cp →
  Header cp = fh ∧ Type_ cp = PacketType fh.
Proof.
  unfold NewControlPacketWithHeader. intros H.
  repeat (case_match; [bool_prop; simplify_eq/=; done|]). done.
Qed.

Lemma Unpack_header cp r cp' r' : Unpack cp r = Ret (cp', r') →
  Header cp' = Header cp ∧ Type_ cp' = Type_ cp.
Proof.
  destruct cp; cbn [Unpack]; intros H; bind_inv_all; try done;
  unfold Connect_Unpack, ConnAck_Unpack, Publish_Unpack, PubAck_Unpack, PubRec_Unpack,
    PubRel_Unpack, PubComp_Unpack, UnSubAck_Unpack, SubAck_Unpack, Subscribe_Unpack,
    Unsubscribe_Unpack in *; bind_inv_all; done.
Qed.

Lemma ReadPacket_flags b0 rest res : ReadPacket (NewReader (b0 :: rest)) = Ret res →
  validateFlags (header_of_byte b0) = Ret tt.
Proof.
  unfold ReadPacket, ReadPacketLimit, FixedHeader_Decode, mbind, ST_bind, NewReader.
  rewrite DecodeByte_cons. unfold st_lift at 1.
  by destruct (validateFlags _) as [[]| |].
Qed.

(** Both readers in one form: the header's length decodes to [n] and leaves
    [buf], or both fail. *)
Lemma readers_eq b0 rest :
  (∃ n buf pos, 0 <= n ∧
     (drop (Z.to_nat n) buf = drop (Z.to_nat pos) (b0 :: rest) ∧ buf `suffix_of` b0 :: rest) ∧
     let new := NewControlPacketWithHeader (set_RemainingLength n (header_of_byte b0)) in
     let short := Z.of_nat (length buf) <? n in
     ReadPacketBytes (b0 :: rest) =
       (if short then Fail ErrBufferTooShort
        else cp ← new; cp ← UnpackData cp (take (Z.to_nat n) buf); mret (cp, pos)) ∧
     (validateFlags (header_of_byte b0) = Ret tt →
      if short then ∃ e, ReadPacket (NewReader (b0 :: rest)) = Fail e
      else ReadPacket (NewReader (b0 :: rest)) =
           (cp ← new; cp ← fst <$> Unpack cp (NewReader (take (Z.to_nat n) buf));
            mret (cp, NewReader (drop (Z.to_nat pos) (b0 :: rest)))))) ∨
  (∃ e, ReadPacketBytes (b0 :: rest) = Fail e) ∧
  (validateFlags (header_of_byte b0) = Ret tt →
   ∃ e, ReadPacket (NewReader (b0 :: rest)) = Fail e).
Proof.
  pose proof (ReadPacketBytes_eq b0 rest) as Hz. pose proof (ReadPacket_eq b0 rest) as Hs.
  destruct (DecodeVBI (NewReader rest)) as [[n [buf e]]| |] eqn:Ed; [left|by right..].
  apply DecodeVBI_inv in Ed as (ds & Hb & He & _ & Hn). simpl in Hb, He. subst rest e.
  exists n, buf. eexists. split; [lia|].
  split; [split; [apply packet_end; lia|by exists (b0 :: ds)]|].
  cbn zeta. split; [exact Hz|]. intros Hf. specialize (Hs Hf).
  rewrite <-(packet_end _ _ _ _ (proj1 Hn)).
  destruct (Z.of_nat (length buf) <? n) eqn:E; bool_prop.
  - destruct (NewControlPacketWithHeader _) as [cp| |] eqn:Ecp; [|by eauto|].
    + destruct (ReadFull _ _) as [[bs r]| |] eqn:Er; [|by eauto|].
      * apply ReadFull_inv in Er as (Hl & Hbb & _). apply (f_equal length) in Hbb. rewrite length_app in Hbb. simpl in Hbb. lia.
      * by apply nopanic_ReadFull in Er.
    + by apply NewControlPacketWithHeader_nopanic in Ecp.
  - rewrite Hs. unfold mbind, outcome_bind. destruct (NewControlPacketWithHeader _); [|done..].
    rewrite ReadFull_take by (simpl; lia). done.
Qed.

Lemma ReadPacketBytes_type b0 rest cp n : ReadPacketBytes (b0 :: rest) = Ret (cp, n) →
  PacketType (header_of_byte b0) ≠ SubAckType ∧ PacketType (header_of_byte b0) ≠ UnsubscribeType.
Proof.
  intros H. destruct (readers_eq b0 rest) as [(m & buf & pos & _ & _ & Hz & _)|[[e He] _]];
    [|by rewrite He in H].
  cbn zeta in Hz. rewrite Hz in H. destruct (_ <? m); [done|]. unfold mbind, outcome_bind in H.
  destruct (NewControlPacketWithHeader _) as [cp0| |] eqn:Ecp; [|done..].
  apply New_header in Ecp as [_ Ht]. cbn [PacketType set_RemainingLength] in Ht. rewrite <-Ht.
  split; intros Hc; destruct cp0; try done.
  - by destruct (UnpackData_SubAck s (take (Z.to_nat m) buf)) as [e He]; rewrite He in H.
  - by destruct (UnpackData_Unsubscribe u (take (Z.to_nat m) buf)) as [e He]; rewrite He in H.
Qed.



(** C34 Arbitrary input is safe: whatever bytes a peer sends and whatever error
    ends the stream, reading a packet never panics; and a packet whose header
    advertises more than the limit is refused from the header alone, before
    anything of its body has been read. *)
Theorem v3_read_safe maxSize r fh hdr rest e :
  ReadPacketLimit maxSize r ≠ Panic ∧
  (header_wf fh → FixedHeader_Encode fh = Ret hdr → 0 < maxSize < RemainingLength fh →
   ReadPacketLimit maxSize (mkReader (hdr ++ rest) e) = Fail ErrPacketTooLarge).
Proof.
  split; [apply ReadPacketLimit_nopanic|]. intros Hwf He Hm.
  rewrite FixedHeader_Encode_wf in He by done. injection He as <-.
  unfold ReadPacketLimit, mbind, ST_bind. rewrite <-app_comm_cons, DecodeByte_cons.
  rewrite FixedHeader_Decode_wf by done.
  rewrite (proj2 (Z.ltb_lt 0 _)), (proj2 (Z.ltb_lt maxSize _)) by lia. done.
Qed.

Lemma v3_read_safe_witness :
  ReadPacketLimit 10 (mkReader ([x30; x64] ++ []) EOF) = Fail ErrPacketTooLarge.
Proof.
  apply (proj2 (v3_read_safe 10 (NewReader []) (mkFixedHeader PublishType false 0 false 100)
    [x30; x64] [] EOF)); [|reflexivity|simpl; lia].
  split_and!; [reflexivity|simpl; lia..].
Defined.

(** The zero-copy reader cannot read SUBACK and UNSUBSCRIBE packets: the
    bytes of every well-formed one, which the stream reader accepts, it does
    not accept. *)
Theorem zerocopy_rejects_suback_unsubscribe cp bs cp' :
  packet_wf cp → Type_ cp = SubAckType ∨ Type_ cp = UnsubscribeType →
  Encode cp = Ret (bs, cp') →
  ReadPacket (NewReader bs) = Ret (cp', NewReader []) ∧
  ∀ res, ReadPacketBytes bs ≠ Ret res.
Proof.
  intros Hwf Ht He. rewrite Encode_body in He by done. injection He as <- <-. split.
  - unfold ReadPacket, NewReader. rewrite <-(app_nil_r (_ :: _)).
    apply ReadPacketLimit_encoded; [done|lia].
  - intros [cp2 n] Hz. apply ReadPacketBytes_type in Hz as [H1 H2].
    destruct Hwf as (_ & Hp & Hf & Hq & _). apply validateFlags_inv in Hf as (Hpt & Hq' & _).
    cbn [PacketType QoS set_RemainingLength] in *.
    rewrite header_of_flags in H1, H2 by lia. cbn [PacketType set_RemainingLength] in H1, H2.
    rewrite Hp in H1, H2. destruct Ht; congruence.
Qed.

Definition example_suback : ControlPacket :=
  PSubAck (mkSubAck (header_for SubAckType 0) 7 [x00; x80]).

Lemma zerocopy_rejects_suback_unsubscribe_witness :
  ReadPacket (NewReader [x90; x04; x00; x07; x00; x80]) = Ret (stamped example_suback, NewReader []).
Proof.
  refine (proj1 (zerocopy_rejects_suback_unsubscribe example_suback _ _ _ (or_introl eq_refl) _));
    [|vm_compute; reflexivity].
  split_and!; [unfold body_ok, u16_ok; simpl; lia|reflexivity|].
  split_and!; [reflexivity|simpl; lia..].
Defined.

Lemma Subscribe_topics_z_dangling n fuel : 0 < n < 2 ^ 16 → ∀ ts acc z res,
  Forall (λ t, str_ok (TopicFilterName t) ∧ u8_ok (TopicQoS t)) ts → zok z →
  zrest z = concat (encode_topic <$> ts) ++ EncodeUint16 n →
  Subscribe_topics_z fuel acc z ≠ Ret res.
Proof.
  intros Hn. induction fuel as [|fuel IH]; intros ts acc z res Hf Hz Hr; [done|].
  cbn [Subscribe_topics_z]. pose proof (zrest_length z Hz) as Hl. unfold Remaining.
  destruct (_ <=? 0) eqn:E; bool_prop.
  { rewrite Hr, length_app in Hl. cbn [length EncodeUint16] in Hl. lia. }
  unfold mbind, ST_bind. pose proof (simc_ReadString z EOF Hz) as Hs. unfold agree in Hs.
  rewrite Hr in Hs. destruct ts as [|t ts].
  - cbn [fmap list_fmap concat app] in Hs. rewrite DecodeString_dangling in Hs by done.
    by destruct (ReadString z) as [[]| |].
  - apply Forall_cons in Hf as [[Hs1 Hq] Hf]. rewrite fmap_cons in Hs. cbn [concat] in Hs.
    unfold encode_topic at 1 in Hs. rewrite <-!app_assoc, DecodeString_Encode in Hs by done.
    destruct (ReadString z) as [[s z1]| |]; [|done..]. destruct Hs as (-> & Hz1 & _ & [= Hr1]).
    pose proof (simc_ReadByte z1 EOF Hz1) as Hb. unfold agree in Hb. rewrite <-Hr1 in Hb.
    rewrite DecodeByte_cons in Hb. destruct (ReadByte z1) as [[q z2]| |]; [|done..].
    destruct Hb as (_ & Hz2 & _ & [= Hr2]). by eapply IH.
Qed.

(** A truncated SUBSCRIBE is accepted: after the last topic filter a length
    prefix of a further one, with none of the bytes it announces, is taken
    for the end of the packet by the stream reader, while the zero-copy
    reader refuses it. *)
Theorem subscribe_dangling_length s n :
  body_ok (PSubscribe s) → 0 < n < 2 ^ 16 →
  Subscribe_Unpack (mkSubscribe (SubscribeHeader s) 0 [])
    (NewReader (body (PSubscribe s) ++ EncodeUint16 n)) = Ret (s, NewReader []) ∧
  ∀ s', Subscribe_UnpackBytes (mkSubscribe (SubscribeHeader s) 0 [])
    (body (PSubscribe s) ++ EncodeUint16 n) ≠ Ret s'.
Proof.
  intros [Hi Ht] Hn. cbn [body]. rewrite <-app_assoc. split.
  - unfold Subscribe_Unpack, NewReader. dec_step. cbn [SubscribeTopics rbuf].
    rewrite Subscribe_topics_body; [by destruct s|done| |by apply DecodeString_dangling].
    apply Nat.lt_succ_r. rewrite length_app.
    pose proof (concat_length_ge encode_topic (SubscribeTopics s)) as Hc.
    etransitivity; [apply Hc|lia]. intros x. pose proof (encode_topic_length x). lia.
  - intros s'. unfold Subscribe_UnpackBytes, mbind, ST_bind. set (data := _ ++ _ ++ _).
    pose proof (simc_ReadUint16 _ EOF (zok_new data)) as Hd. unfold agree in Hd.
    change (zrest (NewZeroCopyReader data)) with data in Hd. unfold data at 4 in Hd.
    rewrite DecodeUint16_Encode in Hd by done.
    destruct (ReadUint16 _) as [[id z1]| |]; [|done..]. destruct Hd as (_ & Hz1 & _ & [= Hr]).
    destruct (Subscribe_topics_z _ _ z1) eqn:Et; [|done..].
    by eapply Subscribe_topics_z_dangling in Et.
Qed.

Lemma subscribe_dangling_length_witness :
  Subscribe_Unpack (mkSubscribe (header_for SubscribeType 1) 0 [])
    (NewReader [x00; x01; x00; x01; x61; x02; x00; x05]) =
  Ret (mkSubscribe (header_for SubscribeType 1) 1 [mkTopic "a" 2], NewReader []).
Proof.
  refine (proj1 (subscribe_dangling_length
    (mkSubscribe (header_for SubscribeType 1) 1 [mkTopic "a" 2]) 5 _ _)); [|lia].
  split; [unfold u16_ok; simpl; lia|].
  repeat constructor; unfold str_ok, u8_ok; simpl; lia.
Defined.

(** Resetting any packet gives the packet the factory creates for its type,
    so a pooled packet is indistinguishable from a fresh one. *)
Theorem reset_is_fresh cp : NewControlPacket (Type_ cp) = Some (Reset cp).
Proof. by destruct cp. Qed.

(** CONNECT validation accepts exactly the packets with a legal protocol name
    and version, reserved bit zero, no password without a user name, a will
    QoS of at most 2, and no will fields without a will. *)
Theorem Connect_Validate_spec c :
  Connect_Validate c = Ret tt ↔
  (PasswordFlag c = true → UsernameFlag c = true) ∧ ReservedBit c = 0 ∧ WillQoS c <= 2 ∧
  (WillFlag c = false → WillQoS c = 0 ∧ WillRetain c = false) ∧
  (ProtocolVersion c = 3 ∧ ProtocolName c = protocolNameV3 ∨
   ProtocolVersion c = 4 ∧ ProtocolName c = protocolNameV4).
Proof.
  unfold Connect_Validate.
  destruct (PasswordFlag c && negb (UsernameFlag c)) eqn:E1.
  { destruct (PasswordFlag c), (UsernameFlag c); naive_solver. }
  destruct (negb (ReservedBit c =? 0)) eqn:E2; bool_prop; [naive_solver|].
  destruct (2 <? WillQoS c) eqn:E3; bool_prop; [split; [done|intros ?; destruct_and!; lia]|].
  destruct (negb (WillFlag c) && _) eqn:E4.
  { destruct (WillFlag c); [done|]. split; [done|]. intros (_ & _ & _ & H & _).
    destruct H as [H1 H2]; [done|]. by rewrite H1, H2 in E4. }
  assert (H4 : WillFlag c = false → WillQoS c = 0 ∧ WillRetain c = false).
  { intros H. rewrite H in E4. simpl in E4. bool_prop. done. }
  assert (H1 : PasswordFlag c = true → UsernameFlag c = true)
    by (destruct (PasswordFlag c), (UsernameFlag c); done).
  unfold str_eqb. destruct (ProtocolVersion c =? 3) eqn:E5; bool_prop;
    [|destruct (ProtocolVersion c =? 4) eqn:E6; bool_prop]; try case_bool_decide as Hn.
  - split; [intros _|done]. split_and!; auto.
  - split; [done|]. intros (_ & _ & _ & _ & [[_ ?]|[? _]]); [done|lia].
  - split; [intros _|done]. split_and!; auto.
  - split; [done|]. intros (_ & _ & _ & _ & [[? _]|[_ ?]]); [lia|done].
  - split; [done|]. intros (_ & _ & _ & _ & [[? _]|[? _]]); lia.
Qed.
