(* ===== verification/PropertiesV5.v ===== *)
(** * MQTT 5.0 properties (src/mqtt/packets/v5)

    The property lists of the MQTT 5.0 packets: [properties.go] and the property
    structs of the packet files, with [Unpack] (from a reader), [unpackBytes]
    (from a slice, [zerocopy.go]) and [Encode].  A nil pointer is [None]; a nil
    slice and an empty one are the same list, an absent string is the empty one.

    Theorems: every property list is read back from its encoding by both
    readers; reading ends on every input, without a panic; the length the
    PUBLISH encoder computes in advance is the length it writes. *)

From Stdlib Require Import ZArith Lia Bool Ascii String Strings.Byte.
From stdpp Require Import prelude gmap strings.
From S2P Require Import Prelude GoStrings Codec Packets.

(** ** properties.go: property identifiers *)

Definition PayloadFormatProp : Z := 1.
Definition MessageExpiryProp : Z := 2.
Definition ContentTypeProp : Z := 3.
Definition ResponseTopicProp : Z := 8.
Definition CorrelationDataProp : Z := 9.
Definition SubscriptionIdentifierProp : Z := 11.
Definition SessionExpiryIntervalProp : Z := 17.
Definition AssignedClientIDProp : Z := 18.
Definition ServerKeepAliveProp : Z := 19.
Definition AuthMethodProp : Z := 21.
Definition AuthDataProp : Z := 22.
Definition RequestProblemInfoProp : Z := 23.
Definition WillDelayIntervalProp : Z := 24.
Definition RequestResponseInfoProp : Z := 25.
Definition ResponseInfoProp : Z := 26.
Definition ServerReferenceProp : Z := 28.
Definition ReasonStringProp : Z := 31.
Definition ReceiveMaximumProp : Z := 33.
Definition TopicAliasMaximumProp : Z := 34.
Definition TopicAliasProp : Z := 35.
Definition MaximumQOSProp : Z := 36.
Definition RetainAvailableProp : Z := 37.
Definition UserProp : Z := 38.
Definition MaximumPacketSizeProp : Z := 39.
Definition WildcardSubAvailableProp : Z := 40.
Definition SubIDAvailableProp : Z := 41.
Definition SharedSubAvailableProp : Z := 42.

(** ** The loop of every [Unpack]

    [for { prop, err := codec.DecodeByte(r); ... switch prop {...} }]: [io.EOF]
    from the identifier ends it, then the reader is empty.  [step] is the
    switch; it gets the identifier and the properties read so far. *)

Section loops.
Context {P : Type}.

Fixpoint Unpack_loop (step : Z → P → dec P) (fuel : nat) (p : P) : dec P := λ r,
  match fuel with
  | O => Panic
  | S fuel =>
      match DecodeByte r with
      | Fail EOF => Ret (p, r)
      | Fail e => Fail e
      | Panic => Panic
      | Ret (prop, r1) =>
          match step (b2z prop) p r1 with
          | Ret (p', r2) => Unpack_loop step fuel p' r2
          | Fail e => Fail e
          | Panic => Panic
          end
      end
  end.

(** Every round consumes its identifier, so the fuel is the bytes left. *)
Definition Unpack_props (step : Z → P → dec P) (p : P) : dec P := λ r,
  Unpack_loop step (S (length (rbuf r))) p r.

(** The loop of every [unpackBytes]: [for r.Remaining() > 0]. *)
Fixpoint unpackBytes_loop (step : Z → P → zdec P) (fuel : nat) (p : P) : zdec P := λ r,
  match fuel with
  | O => Panic
  | S fuel =>
      if Remaining r <=? 0 then Ret (p, r)
      else (prop ← ReadByte; p' ← step (b2z prop) p; unpackBytes_loop step fuel p') r
  end.

Definition unpackBytes_props (step : Z → P → zdec P) (p : P) (data : list byte) :
    outcome GoErr P :=
  fst <$> unpackBytes_loop step (S (length data)) p (NewZeroCopyReader data).
End loops.

(** ** Fields of an encoding *)

(** [if p.F != nil { ret = append(ret, tag); ret = append(ret, enc( *p.F)...) }]. *)
Definition opt_field (tag : Z) (enc : Z → list byte) (o : option Z) : list byte :=
  match o with Some v => z2b tag :: enc v | None => [] end.
Definition EncodeByte (v : Z) : list byte := [z2b v].

(** [if p.F != EmptyString { ... EncodeBytes([]byte(p.F)) }]. *)
Definition str_field (tag : Z) (s : string) : list byte :=
  if str_eqb s EmptyString then [] else z2b tag :: EncodeString s.

(** [if len(p.F) > 0 { ... EncodeBytes(p.F) }]. *)
Definition bin_field (tag : Z) (b : list byte) : list byte :=
  match b with [] => [] | _ => z2b tag :: EncodeBytes b end.

(** [for _, u := range p.User]. *)
Definition user_field (u : User) : list byte :=
  z2b UserProp :: EncodeString (Key u) ++ EncodeString (Value u).
Definition user_fields (us : list User) : list byte := concat (user_field <$> us).

(** The key and value of a user property, in both readers. *)
Definition DecodeUser : dec User :=
  k ← DecodeString; v ← DecodeString; mret (mkUser k v).
Definition ReadUser : zdec User :=
  k ← ReadString; v ← ReadString; mret (mkUser k v).

(** ** properties.go: BasicProperties *)

Record BasicProperties := mkBasicProperties {
  BP_ReasonString : string;
  BP_User : list User
}.
#[export] Instance eta_BasicProperties : Eta BasicProperties := λ p,
  mkBasicProperties (BP_ReasonString p) (BP_User p).
Definition BasicProperties_zero : BasicProperties := mkBasicProperties EmptyString [].

Definition BasicProperties_step (prop : Z) (p : BasicProperties) : dec BasicProperties :=
  if prop =? ReasonStringProp then
    s ← DecodeString; mret (p <| BP_ReasonString := s |>)
  else if prop =? UserProp then
    u ← DecodeUser; mret (p <| BP_User := BP_User p ++ [u] |>)
  else st_fail (ErrInvalidProperty prop).
Definition BasicProperties_Unpack (p : BasicProperties) : dec BasicProperties :=
  Unpack_props BasicProperties_step p.

Definition BasicProperties_Encode (p : BasicProperties) : list byte :=
  str_field ReasonStringProp (BP_ReasonString p) ++ user_fields (BP_User p).

(** ** connect.go: ConnectProperties *)

Record ConnectProperties := mkConnectProperties {
  CP_SessionExpiryInterval : option Z;
  CP_ReceiveMaximum : option Z;
  CP_MaximumPacketSize : option Z;
  CP_TopicAliasMaximum : option Z;
  CP_RequestResponseInfo : option Z;
  CP_RequestProblemInfo : option Z;
  CP_User : list User;
  CP_AuthMethod : string;
  CP_AuthData : list byte
}.
#[export] Instance eta_ConnectProperties : Eta ConnectProperties := λ p,
  mkConnectProperties (CP_SessionExpiryInterval p) (CP_ReceiveMaximum p)
    (CP_MaximumPacketSize p) (CP_TopicAliasMaximum p) (CP_RequestResponseInfo p)
    (CP_RequestProblemInfo p) (CP_User p) (CP_AuthMethod p) (CP_AuthData p).
Definition ConnectProperties_zero : ConnectProperties :=
  mkConnectProperties None None None None None None [] EmptyString [].

Definition ConnectProperties_step (prop : Z) (p : ConnectProperties) : dec ConnectProperties :=
  if prop =? SessionExpiryIntervalProp then
    sei ← DecodeUint32; mret (p <| CP_SessionExpiryInterval := Some sei |>)
  else if prop =? ReceiveMaximumProp then
    rm ← DecodeUint16; mret (p <| CP_ReceiveMaximum := Some rm |>)
  else if prop =? MaximumPacketSizeProp then
    mps ← DecodeUint32; mret (p <| CP_MaximumPacketSize := Some mps |>)
  else if prop =? TopicAliasMaximumProp then
    tam ← DecodeUint16; mret (p <| CP_TopicAliasMaximum := Some tam |>)
  else if prop =? RequestResponseInfoProp then
    rri ← DecodeByte; mret (p <| CP_RequestResponseInfo := Some (b2z rri) |>)
  else if prop =? RequestProblemInfoProp then
    rpi ← DecodeByte; mret (p <| CP_RequestProblemInfo := Some (b2z rpi) |>)
  else if prop =? UserProp then
    u ← DecodeUser; mret (p <| CP_User := CP_User p ++ [u] |>)
  else if prop =? AuthMethodProp then
    s ← DecodeString; mret (p <| CP_AuthMethod := s |>)
  else if prop =? AuthDataProp then
    b ← DecodeBytes; mret (p <| CP_AuthData := b |>)
  else st_fail (ErrInvalidProperty prop).
Definition ConnectProperties_Unpack (p : ConnectProperties) : dec ConnectProperties :=
  Unpack_props ConnectProperties_step p.

Definition ConnectProperties_Encode (p : ConnectProperties) : list byte :=
  opt_field SessionExpiryIntervalProp EncodeUint32 (CP_SessionExpiryInterval p) ++
  opt_field ReceiveMaximumProp EncodeUint16 (CP_ReceiveMaximum p) ++
  opt_field MaximumPacketSizeProp EncodeUint32 (CP_MaximumPacketSize p) ++
  opt_field TopicAliasMaximumProp EncodeUint16 (CP_TopicAliasMaximum p) ++
  opt_field RequestResponseInfoProp EncodeByte (CP_RequestResponseInfo p) ++
  opt_field RequestProblemInfoProp EncodeByte (CP_RequestProblemInfo p) ++
  user_fields (CP_User p) ++
  str_field AuthMethodProp (CP_AuthMethod p) ++
  bin_field AuthDataProp (CP_AuthData p).

(** The switch of [unpackBytes] has no default: an unknown identifier is skipped
    and the byte after it taken for the next one. *)
Definition ConnectProperties_stepBytes (prop : Z) (p : ConnectProperties) :
    zdec ConnectProperties :=
  if prop =? SessionExpiryIntervalProp then
    sei ← ReadUint32; mret (p <| CP_SessionExpiryInterval := Some sei |>)
  else if prop =? ReceiveMaximumProp then
    rm ← ReadUint16; mret (p <| CP_ReceiveMaximum := Some rm |>)
  else if prop =? MaximumPacketSizeProp then
    mps ← ReadUint32; mret (p <| CP_MaximumPacketSize := Some mps |>)
  else if prop =? TopicAliasMaximumProp then
    tam ← ReadUint16; mret (p <| CP_TopicAliasMaximum := Some tam |>)
  else if prop =? RequestResponseInfoProp then
    rri ← ReadByte; mret (p <| CP_RequestResponseInfo := Some (b2z rri) |>)
  else if prop =? RequestProblemInfoProp then
    rpi ← ReadByte; mret (p <| CP_RequestProblemInfo := Some (b2z rpi) |>)
  else if prop =? UserProp then
    u ← ReadUser; mret (p <| CP_User := CP_User p ++ [u] |>)
  else if prop =? AuthMethodProp then
    s ← ReadString; mret (p <| CP_AuthMethod := s |>)
  else if prop =? AuthDataProp then
    b ← ReadBytesNoCopy; mret (p <| CP_AuthData := b |>)
  else mret p.
Definition ConnectProperties_unpackBytes (p : ConnectProperties) (data : list byte) :
    outcome GoErr ConnectProperties :=
  unpackBytes_props ConnectProperties_stepBytes p data.

(** ** connect.go: WillProperties *)

Record WillProperties := mkWillProperties {
  WP_WillDelayInterval : option Z;
  WP_PayloadFormat : option Z;
  WP_MessageExpiry : option Z;
  WP_ContentType : string;
  WP_ResponseTopic : string;
  WP_CorrelationData : list byte;
  WP_User : list User
}.
#[export] Instance eta_WillProperties : Eta WillProperties := λ p,
  mkWillProperties (WP_WillDelayInterval p) (WP_PayloadFormat p) (WP_MessageExpiry p)
    (WP_ContentType p) (WP_ResponseTopic p) (WP_CorrelationData p) (WP_User p).
Definition WillProperties_zero : WillProperties :=
  mkWillProperties None None None EmptyString EmptyString [] [].

Definition WillProperties_step (prop : Z) (p : WillProperties) : dec WillProperties :=
  if prop =? WillDelayIntervalProp then
    wdi ← DecodeUint32; mret (p <| WP_WillDelayInterval := Some wdi |>)
  else if prop =? PayloadFormatProp then
    pf ← DecodeByte; mret (p <| WP_PayloadFormat := Some (b2z pf) |>)
  else if prop =? MessageExpiryProp then
    me ← DecodeUint32; mret (p <| WP_MessageExpiry := Some me |>)
  else if prop =? ContentTypeProp then
    s ← DecodeString; mret (p <| WP_ContentType := s |>)
  else if prop =? ResponseTopicProp then
    s ← DecodeString; mret (p <| WP_ResponseTopic := s |>)
  else if prop =? CorrelationDataProp then
    b ← DecodeBytes; mret (p <| WP_CorrelationData := b |>)
  else if prop =? UserProp then
    u ← DecodeUser; mret (p <| WP_User := WP_User p ++ [u] |>)
  else st_fail (ErrInvalidProperty prop).
Definition WillProperties_Unpack (p : WillProperties) : dec WillProperties :=
  Unpack_props WillProperties_step p.

Definition WillProperties_Encode (p : WillProperties) : list byte :=
  opt_field WillDelayIntervalProp EncodeUint32 (WP_WillDelayInterval p) ++
  opt_field PayloadFormatProp EncodeByte (WP_PayloadFormat p) ++
  opt_field MessageExpiryProp EncodeUint32 (WP_MessageExpiry p) ++
  str_field ContentTypeProp (WP_ContentType p) ++
  str_field ResponseTopicProp (WP_ResponseTopic p) ++
  bin_field CorrelationDataProp (WP_CorrelationData p) ++
  user_fields (WP_User p).

Definition WillProperties_stepBytes (prop : Z) (p : WillProperties) : zdec WillProperties :=
  if prop =? WillDelayIntervalProp then
    wdi ← ReadUint32; mret (p <| WP_WillDelayInterval := Some wdi |>)
  else if prop =? PayloadFormatProp then
    pf ← ReadByte; mret (p <| WP_PayloadFormat := Some (b2z pf) |>)
  else if prop =? MessageExpiryProp then
    me ← ReadUint32; mret (p <| WP_MessageExpiry := Some me |>)
  else if prop =? ContentTypeProp then
    s ← ReadString; mret (p <| WP_ContentType := s |>)
  else if prop =? ResponseTopicProp then
    s ← ReadString; mret (p <| WP_ResponseTopic := s |>)
  else if prop =? CorrelationDataProp then
    b ← ReadBytesNoCopy; mret (p <| WP_CorrelationData := b |>)
  else if prop =? UserProp then
    u ← ReadUser; mret (p <| WP_User := WP_User p ++ [u] |>)
  else mret p.
Definition WillProperties_unpackBytes (p : WillProperties) (data : list byte) :
    outcome GoErr WillProperties :=
  unpackBytes_props WillProperties_stepBytes p data.

(** ** connack.go: ConnAckProperties *)

Record ConnAckProperties := mkConnAckProperties {
  CA_SessionExpiryInterval : option Z;
  CA_ReceiveMax : option Z;
  CA_MaxQoS : option Z;
  CA_RetainAvailable : option Z;
  CA_MaximumPacketSize : option Z;
  CA_AssignedClientID : string;
  CA_TopicAliasMax : option Z;
  CA_ReasonString : string;
  CA_User : list User;
  CA_WildcardSubAvailable : option Z;
  CA_SubIDAvailable : option Z;
  CA_ServerKeepAlive : option Z;
  CA_ResponseInfo : string;
  CA_ServerReference : string;
  CA_AuthMethod : string;
  CA_AuthData : list byte
}.
#[export] Instance eta_ConnAckProperties : Eta ConnAckProperties := λ p,
  mkConnAckProperties (CA_SessionExpiryInterval p) (CA_ReceiveMax p) (CA_MaxQoS p)
    (CA_RetainAvailable p) (CA_MaximumPacketSize p) (CA_AssignedClientID p)
    (CA_TopicAliasMax p) (CA_ReasonString p) (CA_User p) (CA_WildcardSubAvailable p)
    (CA_SubIDAvailable p) (CA_ServerKeepAlive p) (CA_ResponseInfo p) (CA_ServerReference p)
    (CA_AuthMethod p) (CA_AuthData p).
Definition ConnAckProperties_zero : ConnAckProperties :=
  mkConnAckProperties None None None None None EmptyString None EmptyString [] None None None
    EmptyString EmptyString EmptyString [].

Definition ConnAckProperties_step (prop : Z) (p : ConnAckProperties) : dec ConnAckProperties :=
  if prop =? SessionExpiryIntervalProp then
    sei ← DecodeUint32; mret (p <| CA_SessionExpiryInterval := Some sei |>)
  else if prop =? ReceiveMaximumProp then
    rm ← DecodeUint16; mret (p <| CA_ReceiveMax := Some rm |>)
  else if prop =? MaximumQOSProp then
    mq ← DecodeByte; mret (p <| CA_MaxQoS := Some (b2z mq) |>)
  else if prop =? RetainAvailableProp then
    ra ← DecodeByte; mret (p <| CA_RetainAvailable := Some (b2z ra) |>)
  else if prop =? MaximumPacketSizeProp then
    mps ← DecodeUint32; mret (p <| CA_MaximumPacketSize := Some mps |>)
  else if prop =? AssignedClientIDProp then
    s ← DecodeString; mret (p <| CA_AssignedClientID := s |>)
  else if prop =? TopicAliasMaximumProp then
    tam ← DecodeUint16; mret (p <| CA_TopicAliasMax := Some tam |>)
  else if prop =? ReasonStringProp then
    s ← DecodeString; mret (p <| CA_ReasonString := s |>)
  else if prop =? UserProp then
    u ← DecodeUser; mret (p <| CA_User := CA_User p ++ [u] |>)
  else if prop =? WildcardSubAvailableProp then
    wsa ← DecodeByte; mret (p <| CA_WildcardSubAvailable := Some (b2z wsa) |>)
  else if prop =? SubIDAvailableProp then
    sia ← DecodeByte; mret (p <| CA_SubIDAvailable := Some (b2z sia) |>)
  else if prop =? ServerKeepAliveProp then
    ska ← DecodeUint16; mret (p <| CA_ServerKeepAlive := Some ska |>)
  else if prop =? ResponseInfoProp then
    s ← DecodeString; mret (p <| CA_ResponseInfo := s |>)
  else if prop =? ServerReferenceProp then
    s ← DecodeString; mret (p <| CA_ServerReference := s |>)
  else if prop =? AuthMethodProp then
    s ← DecodeString; mret (p <| CA_AuthMethod := s |>)
  else if prop =? AuthDataProp then
    b ← DecodeBytes; mret (p <| CA_AuthData := b |>)
  else st_fail (ErrInvalidProperty prop).
Definition ConnAckProperties_Unpack (p : ConnAckProperties) : dec ConnAckProperties :=
  Unpack_props ConnAckProperties_step p.

Definition ConnAckProperties_Encode (p : ConnAckProperties) : list byte :=
  opt_field SessionExpiryIntervalProp EncodeUint32 (CA_SessionExpiryInterval p) ++
  opt_field ReceiveMaximumProp EncodeUint16 (CA_ReceiveMax p) ++
  opt_field MaximumQOSProp EncodeByte (CA_MaxQoS p) ++
  opt_field RetainAvailableProp EncodeByte (CA_RetainAvailable p) ++
  opt_field MaximumPacketSizeProp EncodeUint32 (CA_MaximumPacketSize p) ++
  str_field AssignedClientIDProp (CA_AssignedClientID p) ++
  opt_field TopicAliasMaximumProp EncodeUint16 (CA_TopicAliasMax p) ++
  str_field ReasonStringProp (CA_ReasonString p) ++
  user_fields (CA_User p) ++
  opt_field WildcardSubAvailableProp EncodeByte (CA_WildcardSubAvailable p) ++
  opt_field SubIDAvailableProp EncodeByte (CA_SubIDAvailable p) ++
  opt_field ServerKeepAliveProp EncodeUint16 (CA_ServerKeepAlive p) ++
  str_field ResponseInfoProp (CA_ResponseInfo p) ++
  str_field ServerReferenceProp (CA_ServerReference p) ++
  str_field AuthMethodProp (CA_AuthMethod p) ++
  bin_field AuthDataProp (CA_AuthData p).

(** ** auth.go: AuthProperties *)

Record AuthProperties := mkAuthProperties {
  AP_AuthMethod : string;
  AP_AuthData : list byte;
  AP_ReasonString : string;
  AP_User : list User
}.
#[export] Instance eta_AuthProperties : Eta AuthProperties := λ p,
  mkAuthProperties (AP_AuthMethod p) (AP_AuthData p) (AP_ReasonString p) (AP_User p).
Definition AuthProperties_zero : AuthProperties :=
  mkAuthProperties EmptyString [] EmptyString [].

Definition AuthProperties_Encode (p : AuthProperties) : list byte :=
  str_field AuthMethodProp (AP_AuthMethod p) ++
  bin_field AuthDataProp (AP_AuthData p) ++
  str_field ReasonStringProp (AP_ReasonString p) ++
  user_fields (AP_User p).

Definition AuthProperties_step (prop : Z) (p : AuthProperties) : dec AuthProperties :=
  if prop =? AuthMethodProp then
    s ← DecodeString; mret (p <| AP_AuthMethod := s |>)
  else if prop =? AuthDataProp then
    b ← DecodeBytes; mret (p <| AP_AuthData := b |>)
  else if prop =? ReasonStringProp then
    s ← DecodeString; mret (p <| AP_ReasonString := s |>)
  else if prop =? UserProp then
    u ← DecodeUser; mret (p <| AP_User := AP_User p ++ [u] |>)
  else st_fail (ErrInvalidProperty prop).
Definition AuthProperties_Unpack (p : AuthProperties) : dec AuthProperties :=
  Unpack_props AuthProperties_step p.

(** ** disconnect.go: DisconnectProperties *)

Record DisconnectProperties := mkDisconnectProperties {
  DP_SessionExpiryInterval : option Z;
  DP_ReasonString : string;
  DP_User : list User;
  DP_ServerReference : string
}.
#[export] Instance eta_DisconnectProperties : Eta DisconnectProperties := λ p,
  mkDisconnectProperties (DP_SessionExpiryInterval p) (DP_ReasonString p) (DP_User p)
    (DP_ServerReference p).
Definition DisconnectProperties_zero : DisconnectProperties :=
  mkDisconnectProperties None EmptyString [] EmptyString.

Definition DisconnectProperties_step (prop : Z) (p : DisconnectProperties) :
    dec DisconnectProperties :=
  if prop =? SessionExpiryIntervalProp then
    sei ← DecodeUint32; mret (p <| DP_SessionExpiryInterval := Some sei |>)
  else if prop =? ReasonStringProp then
    s ← DecodeString; mret (p <| DP_ReasonString := s |>)
  else if prop =? UserProp then
    u ← DecodeUser; mret (p <| DP_User := DP_User p ++ [u] |>)
  else if prop =? ServerReferenceProp then
    s ← DecodeString; mret (p <| DP_ServerReference := s |>)
  else st_fail (ErrInvalidProperty prop).
Definition DisconnectProperties_Unpack (p : DisconnectProperties) : dec DisconnectProperties :=
  Unpack_props DisconnectProperties_step p.

Definition DisconnectProperties_Encode (p : DisconnectProperties) : list byte :=
  opt_field SessionExpiryIntervalProp EncodeUint32 (DP_SessionExpiryInterval p) ++
  str_field ReasonStringProp (DP_ReasonString p) ++
  user_fields (DP_User p) ++
  str_field ServerReferenceProp (DP_ServerReference p).

(** ** subscribe.go: SubscribeProperties *)

Record SubscribeProperties := mkSubscribeProperties {
  SP_SubscriptionIdentifier : option Z;
  SP_User : list User
}.
#[export] Instance eta_SubscribeProperties : Eta SubscribeProperties := λ p,
  mkSubscribeProperties (SP_SubscriptionIdentifier p) (SP_User p).
Definition SubscribeProperties_zero : SubscribeProperties := mkSubscribeProperties None [].

Definition SubscribeProperties_step (prop : Z) (p : SubscribeProperties) :
    dec SubscribeProperties :=
  if prop =? SubscriptionIdentifierProp then
    si ← DecodeVBI; mret (p <| SP_SubscriptionIdentifier := Some si |>)
  else if prop =? UserProp then
    u ← DecodeUser; mret (p <| SP_User := SP_User p ++ [u] |>)
  else st_fail (ErrInvalidProperty prop).
Definition SubscribeProperties_Unpack (p : SubscribeProperties) : dec SubscribeProperties :=
  Unpack_props SubscribeProperties_step p.

(** [EncodeVBI] panics on an identifier of [2^28] or more. *)
Definition SubscribeProperties_Encode (p : SubscribeProperties) : outcome GoErr (list byte) :=
  si ← match SP_SubscriptionIdentifier p with
       | Some v => vbi ← EncodeVBI v; mret (z2b SubscriptionIdentifierProp :: vbi)
       | None => mret []
       end;
  mret (si ++ user_fields (SP_User p)).

Definition SubscribeProperties_stepBytes (prop : Z) (p : SubscribeProperties) :
    zdec SubscribeProperties :=
  if prop =? SubscriptionIdentifierProp then
    si ← ReadVBI; mret (p <| SP_SubscriptionIdentifier := Some si |>)
  else if prop =? UserProp then
    u ← ReadUser; mret (p <| SP_User := SP_User p ++ [u] |>)
  else mret p.
Definition SubscribeProperties_unpackBytes (p : SubscribeProperties) (data : list byte) :
    outcome GoErr SubscribeProperties :=
  unpackBytes_props SubscribeProperties_stepBytes p data.

(** ** unsubscribe.go: UnsubscribeProperties *)

Record UnsubscribeProperties := mkUnsubscribeProperties { UP_User : list User }.
#[export] Instance eta_UnsubscribeProperties : Eta UnsubscribeProperties := λ p,
  mkUnsubscribeProperties (UP_User p).
Definition UnsubscribeProperties_zero : UnsubscribeProperties := mkUnsubscribeProperties [].

Definition UnsubscribeProperties_step (prop : Z) (p : UnsubscribeProperties) :
    dec UnsubscribeProperties :=
  if prop =? UserProp then
    u ← DecodeUser; mret (p <| UP_User := UP_User p ++ [u] |>)
  else st_fail (ErrInvalidProperty prop).
Definition UnsubscribeProperties_Unpack (p : UnsubscribeProperties) : dec UnsubscribeProperties :=
  Unpack_props UnsubscribeProperties_step p.

(** The source appends keys and values without their property identifier. *)
Definition UnsubscribeProperties_Encode (p : UnsubscribeProperties) : list byte :=
  concat ((λ u, EncodeString (Key u) ++ EncodeString (Value u)) <$> UP_User p).

(** ** publish.go: PublishProperties *)

Record PublishProperties := mkPublishProperties {
  PP_PayloadFormat : option Z;
  PP_MessageExpiry : option Z;
  PP_TopicAlias : option Z;
  PP_ResponseTopic : string;
  PP_CorrelationData : list byte;
  PP_User : list User;
  PP_SubscriptionID : option Z;
  PP_ContentType : string
}.
#[export] Instance eta_PublishProperties : Eta PublishProperties := λ p,
  mkPublishProperties (PP_PayloadFormat p) (PP_MessageExpiry p) (PP_TopicAlias p)
    (PP_ResponseTopic p) (PP_CorrelationData p) (PP_User p) (PP_SubscriptionID p)
    (PP_ContentType p).
Definition PublishProperties_zero : PublishProperties :=
  mkPublishProperties None None None EmptyString [] [] None EmptyString.

Definition PublishProperties_step (prop : Z) (p : PublishProperties) : dec PublishProperties :=
  if prop =? PayloadFormatProp then
    pf ← DecodeByte; mret (p <| PP_PayloadFormat := Some (b2z pf) |>)
  else if prop =? MessageExpiryProp then
    me ← DecodeUint32; mret (p <| PP_MessageExpiry := Some me |>)
  else if prop =? ContentTypeProp then
    s ← DecodeString; mret (p <| PP_ContentType := s |>)
  else if prop =? TopicAliasProp then
    ta ← DecodeUint16; mret (p <| PP_TopicAlias := Some ta |>)
  else if prop =? ResponseTopicProp then
    s ← DecodeString; mret (p <| PP_ResponseTopic := s |>)
  else if prop =? CorrelationDataProp then
    b ← DecodeBytes; mret (p <| PP_CorrelationData := b |>)
  else if prop =? UserProp then
    u ← DecodeUser; mret (p <| PP_User := PP_User p ++ [u] |>)
  else if prop =? SubscriptionIdentifierProp then
    si ← DecodeVBI; mret (p <| PP_SubscriptionID := Some si |>)
  else st_fail (ErrInvalidProperty prop).
Definition PublishProperties_Unpack (p : PublishProperties) : dec PublishProperties :=
  Unpack_props PublishProperties_step p.

Definition PublishProperties_stepBytes (prop : Z) (p : PublishProperties) :
    zdec PublishProperties :=
  if prop =? PayloadFormatProp then
    pf ← ReadByte; mret (p <| PP_PayloadFormat := Some (b2z pf) |>)
  else if prop =? MessageExpiryProp then
    me ← ReadUint32; mret (p <| PP_MessageExpiry := Some me |>)
  else if prop =? ContentTypeProp then
    s ← ReadString; mret (p <| PP_ContentType := s |>)
  else if prop =? TopicAliasProp then
    ta ← ReadUint16; mret (p <| PP_TopicAlias := Some ta |>)
  else if prop =? ResponseTopicProp then
    s ← ReadString; mret (p <| PP_ResponseTopic := s |>)
  else if prop =? CorrelationDataProp then
    b ← ReadBytesNoCopy; mret (p <| PP_CorrelationData := b |>)
  else if prop =? UserProp then
    u ← ReadUser; mret (p <| PP_User := PP_User p ++ [u] |>)
  else if prop =? SubscriptionIdentifierProp then
    si ← ReadVBI; mret (p <| PP_SubscriptionID := Some si |>)
  else mret p.
Definition PublishProperties_unpackBytes (p : PublishProperties) (data : list byte) :
    outcome GoErr PublishProperties :=
  unpackBytes_props PublishProperties_stepBytes p data.

(** *** Appending to a buffer *)

Definition appendString (dst : list byte) (s : string) : list byte :=
  let n := Z.of_nat (String.length s) in
  (dst ++ [z2b (Z.shiftr n 8); z2b n]) ++ bytes_of s.
Definition appendBytes (dst b : list byte) : list byte :=
  let n := Z.of_nat (length b) in
  (dst ++ [z2b (Z.shiftr n 8); z2b n]) ++ b.
Definition appendUint16 (dst : list byte) (v : Z) : list byte :=
  dst ++ [z2b (Z.shiftr v 8); z2b v].
Definition appendUint32 (dst : list byte) (v : Z) : list byte :=
  dst ++ [z2b (Z.shiftr v 24); z2b (Z.shiftr v 16); z2b (Z.shiftr v 8); z2b v].

(** A 32-bit value leaves the loop within five rounds. *)
Fixpoint appendVBI_rounds (fuel : nat) (dst : list byte) (v : Z) : list byte :=
  match fuel with
  | O => dst
  | S fuel =>
      let b := Z.land v 0x7F in
      let v := Z.shiftr v 7 in
      let b := if 0 <? v then Z.lor b 0x80 else b in
      let dst := dst ++ [z2b b] in
      if v =? 0 then dst else appendVBI_rounds fuel dst v
  end.
Definition appendVBI5 (dst : list byte) (num : Z) : list byte := appendVBI_rounds 5 dst (u32 num).

(** [for num >= 128 { num /= 128; n++ }]: an [int] leaves within nine rounds. *)
Fixpoint vbiLen_loop (fuel : nat) (num n : Z) : Z :=
  match fuel with
  | O => n
  | S fuel => if 128 <=? num then vbiLen_loop fuel (num / 128) (n + 1) else n
  end.
Definition vbiLen (num : Z) : Z := vbiLen_loop 9 num 1.

Definition PublishProperties_EncodeTo (dst : list byte) (p : PublishProperties) : list byte :=
  let dst := match PP_PayloadFormat p with
             | Some v => dst ++ [z2b PayloadFormatProp; z2b v] | None => dst end in
  let dst := match PP_MessageExpiry p with
             | Some v => appendUint32 (dst ++ [z2b MessageExpiryProp]) v | None => dst end in
  let dst := match PP_TopicAlias p with
             | Some v => appendUint16 (dst ++ [z2b TopicAliasProp]) v | None => dst end in
  let dst := if str_eqb (PP_ResponseTopic p) EmptyString then dst
             else appendString (dst ++ [z2b ResponseTopicProp]) (PP_ResponseTopic p) in
  let dst := match PP_CorrelationData p with
             | [] => dst | b => appendBytes (dst ++ [z2b CorrelationDataProp]) b end in
  let dst := foldl (λ dst u,
               appendString (appendString (dst ++ [z2b UserProp]) (Key u)) (Value u))
               dst (PP_User p) in
  let dst := match PP_SubscriptionID p with
             | Some v => appendVBI5 (dst ++ [z2b SubscriptionIdentifierProp]) v
             | None => dst end in
  if str_eqb (PP_ContentType p) EmptyString then dst
  else appendString (dst ++ [z2b ContentTypeProp]) (PP_ContentType p).

Definition PublishProperties_Encode (p : PublishProperties) : list byte :=
  PublishProperties_EncodeTo [] p.

(** [encodedLen]; [None] is the nil receiver. *)
Definition PublishProperties_encodedLen (po : option PublishProperties) : Z :=
  match po with
  | None => 0
  | Some p =>
      let slen s := Z.of_nat (String.length s) in
      let n := match PP_PayloadFormat p with Some _ => 2 | None => 0 end in
      let n := n + match PP_MessageExpiry p with Some _ => 5 | None => 0 end in
      let n := n + match PP_TopicAlias p with Some _ => 3 | None => 0 end in
      let n := n + (if str_eqb (PP_ResponseTopic p) EmptyString then 0
                    else 1 + 2 + slen (PP_ResponseTopic p)) in
      let n := n + match PP_CorrelationData p with
                   | [] => 0 | b => 1 + 2 + Z.of_nat (length b) end in
      let n := foldl (λ n u, n + (1 + 2 + slen (Key u) + 2 + slen (Value u))) n (PP_User p) in
      let n := n + match PP_SubscriptionID p with Some v => 1 + vbiLen v | None => 0 end in
      n + (if str_eqb (PP_ContentType p) EmptyString then 0 else 1 + 2 + slen (PP_ContentType p))
  end.

(** pool.go: [ResetPublishProperties]. *)
Definition ResetPublishProperties (p : PublishProperties) : PublishProperties :=
  p <| PP_PayloadFormat := None |> <| PP_MessageExpiry := None |> <| PP_TopicAlias := None |>
    <| PP_ResponseTopic := EmptyString |> <| PP_CorrelationData := [] |> <| PP_User := [] |>
    <| PP_SubscriptionID := None |> <| PP_ContentType := EmptyString |>.

(** * Properties of the property lists *)

(** ** What the loops need of a switch *)

(** The contract between a property switch and the loop around it. *)
Class PropSwitch {P : Type} (step : Z → P → dec P) : Prop := {
  switch_nopanic prop p : nopanic (step prop p);
  switch_consumes prop p : consumes (step prop p)
}.

Lemma nopanic_DecodeUser : nopanic DecodeUser.
Proof. unfold DecodeUser. eauto 6 with nopanic. Qed.
Lemma consumes_DecodeUser : consumes DecodeUser.
Proof. unfold DecodeUser. eauto 6 with consumes. Qed.
#[export] Hint Resolve nopanic_DecodeUser : nopanic.
#[export] Hint Resolve consumes_DecodeUser : consumes.

Ltac prop_switch :=
  split; intros prop p; repeat case_match; eauto with nopanic consumes.

#[export] Instance BasicProperties_switch : PropSwitch BasicProperties_step.
Proof. unfold BasicProperties_step. prop_switch. Qed.
#[export] Instance ConnectProperties_switch : PropSwitch ConnectProperties_step.
Proof. unfold ConnectProperties_step. prop_switch. Qed.
#[export] Instance WillProperties_switch : PropSwitch WillProperties_step.
Proof. unfold WillProperties_step. prop_switch. Qed.
#[export] Instance ConnAckProperties_switch : PropSwitch ConnAckProperties_step.
Proof. unfold ConnAckProperties_step. prop_switch. Qed.
#[export] Instance AuthProperties_switch : PropSwitch AuthProperties_step.
Proof. unfold AuthProperties_step. prop_switch. Qed.
#[export] Instance DisconnectProperties_switch : PropSwitch DisconnectProperties_step.
Proof. unfold DisconnectProperties_step. prop_switch. Qed.
#[export] Instance SubscribeProperties_switch : PropSwitch SubscribeProperties_step.
Proof. unfold SubscribeProperties_step. prop_switch. Qed.
#[export] Instance UnsubscribeProperties_switch : PropSwitch UnsubscribeProperties_step.
Proof. unfold UnsubscribeProperties_step. prop_switch. Qed.
#[export] Instance PublishProperties_switch : PropSwitch PublishProperties_step.
Proof. unfold PublishProperties_step. prop_switch. Qed.

Section unpack.
Context {P : Type} (step : Z → P → dec P) `{!PropSwitch step}.

Lemma Unpack_loop_cons fuel p b l e :
  Unpack_loop step (S fuel) p (mkReader (b :: l) e) =
  (step (b2z b) p ≫= Unpack_loop step fuel) (mkReader l e).
Proof. cbn [Unpack_loop]. by rewrite DecodeByte_cons. Qed.

Lemma Unpack_loop_fuel f1 : ∀ f2 p r,
  (length (rbuf r) < f1)%nat → (length (rbuf r) < f2)%nat →
  Unpack_loop step f1 p r = Unpack_loop step f2 p r.
Proof.
  induction f1 as [|f1 IH]; intros [|f2] p [[|b l] e] H1 H2; simpl in H1, H2; try lia.
  - done.
  - rewrite !Unpack_loop_cons. unfold mbind, ST_bind.
    destruct (step _ p _) as [[p' r']| |] eqn:E; [|done..].
    apply switch_consumes in E as [Hl _]. simpl in Hl. apply IH; lia.
Qed.

Lemma Unpack_props_nil p e :
  Unpack_props step p (mkReader [] e) = if decide (e = EOF) then Ret (p, mkReader [] e) else Fail e.
Proof. unfold Unpack_props. simpl. by destruct e. Qed.

Lemma Unpack_props_cons b l e p :
  Unpack_props step p (mkReader (b :: l) e) =
  (step (b2z b) p ≫= Unpack_props step) (mkReader l e).
Proof.
  unfold Unpack_props. cbn [rbuf length]. rewrite Unpack_loop_cons. unfold mbind, ST_bind.
  destruct (step _ p _) as [[p' r']| |] eqn:E; [|done..].
  apply switch_consumes in E as [Hl _]. simpl in Hl. apply Unpack_loop_fuel; lia.
Qed.

Lemma nopanic_Unpack_loop fuel : ∀ p r, (length (rbuf r) < fuel)%nat →
  Unpack_loop step fuel p r ≠ Panic.
Proof.
  induction fuel as [|fuel IH]; intros p [[|b l] e] Hf; simpl in Hf; try lia.
  - cbn. by destruct e.
  - rewrite Unpack_loop_cons. unfold mbind, ST_bind. pose proof (switch_nopanic (b2z b) p (mkReader l e)).
    destruct (step _ p _) as [[p' r']| |] eqn:E; [|done..].
    apply switch_consumes in E as [Hl _]. simpl in Hl. apply IH. lia.
Qed.
Lemma nopanic_Unpack_props p : nopanic (Unpack_props step p).
Proof. intros r. apply nopanic_Unpack_loop. lia. Qed.

(** The property list [p], continued with what [bs] encodes, is [p']. *)
Definition unpacks (p : P) (bs : list byte) (p' : P) : Prop := ∀ rest,
  Unpack_props step p (mkReader (bs ++ rest) EOF) = Unpack_props step p' (mkReader rest EOF).

Lemma unpacks_app p1 p2 p3 a b : unpacks p1 a p2 → unpacks p2 b p3 → unpacks p1 (a ++ b) p3.
Proof. intros H1 H2 rest. by rewrite <-app_assoc, H1, H2. Qed.
Lemma unpacks_nil p : unpacks p [] p.
Proof. done. Qed.

(** One field: its identifier selects a case that decodes and stores it. *)
Lemma unpacks_field {A} tag (d : dec A) (store : A → P) (enc : list byte) p a :
  0 <= tag < 256 →
  (∀ r, step tag p r = (x ← d; mret (store x)) r) →
  (∀ rest, d (mkReader (enc ++ rest) EOF) = Ret (a, mkReader rest EOF)) →
  unpacks p (z2b tag :: enc) (store a).
Proof.
  intros Ht Hs Hd rest. rewrite <-app_comm_cons, Unpack_props_cons, b2z_z2b_small by done.
  unfold mbind at 1, ST_bind at 1. rewrite Hs. unfold mbind, ST_bind. by rewrite Hd.
Qed.

Lemma unpacks_u32 tag (set : option Z → P → P) o p : 0 <= tag < 256 →
  (∀ r, step tag p r = (v ← DecodeUint32; mret (set (Some v) p)) r) → set None p = p →
  (∀ v, o = Some v → u32_ok v) → unpacks p (opt_field tag EncodeUint32 o) (set o p).
Proof.
  intros Ht Hs Hn Hv. destruct o as [v|]; simpl; [|rewrite Hn; apply unpacks_nil].
  eapply (unpacks_field tag _ (λ v, set (Some v) p)); [done..|].
  intros rest. by apply DecodeUint32_Encode, Hv.
Qed.

Lemma unpacks_u16 tag (set : option Z → P → P) o p : 0 <= tag < 256 →
  (∀ r, step tag p r = (v ← DecodeUint16; mret (set (Some v) p)) r) → set None p = p →
  (∀ v, o = Some v → u16_ok v) → unpacks p (opt_field tag EncodeUint16 o) (set o p).
Proof.
  intros Ht Hs Hn Hv. destruct o as [v|]; simpl; [|rewrite Hn; apply unpacks_nil].
  eapply (unpacks_field tag _ (λ v, set (Some v) p)); [done..|].
  intros rest. by apply DecodeUint16_Encode, Hv.
Qed.

Lemma unpacks_byte tag (set : option Z → P → P) o p : 0 <= tag < 256 →
  (∀ r, step tag p r = (v ← DecodeByte; mret (set (Some (b2z v)) p)) r) → set None p = p →
  (∀ v, o = Some v → u8_ok v) → unpacks p (opt_field tag EncodeByte o) (set o p).
Proof.
  intros Ht Hs Hn Hv. destruct o as [v|]; simpl; [|rewrite Hn; apply unpacks_nil].
  rewrite <-(b2z_z2b_small v) at 2 by (by apply Hv).
  eapply (unpacks_field tag _ (λ v, set (Some (b2z v)) p)); [done..|].
  intros rest. apply DecodeByte_cons.
Qed.

Lemma unpacks_str tag (set : string → P → P) s p : 0 <= tag < 256 →
  (∀ r, step tag p r = (v ← DecodeString; mret (set v p)) r) → set EmptyString p = p →
  str_ok s → unpacks p (str_field tag s) (set s p).
Proof.
  intros Ht Hs Hn Hv. unfold str_field, str_eqb. case_bool_decide as E.
  { rewrite E, Hn. apply unpacks_nil. }
  eapply (unpacks_field tag _ (λ v, set v p)); [done..|].
  intros rest. by apply DecodeString_Encode.
Qed.

Lemma unpacks_bin tag (set : list byte → P → P) b p : 0 <= tag < 256 →
  (∀ r, step tag p r = (v ← DecodeBytes; mret (set v p)) r) → set [] p = p →
  bin_ok b → unpacks p (bin_field tag b) (set b p).
Proof.
  intros Ht Hs Hn Hv. unfold bin_field. destruct b as [|x b].
  { rewrite Hn. apply unpacks_nil. }
  eapply (unpacks_field tag _ (λ v, set v p)); [done..|].
  intros rest. by apply DecodeBytes_Encode.
Qed.

Lemma unpacks_vbi tag (set : option Z → P → P) o p : 0 <= tag < 256 →
  (∀ r, step tag p r = (v ← DecodeVBI; mret (set (Some v) p)) r) → set None p = p →
  (∀ v, o = Some v → vbi_ok v) → unpacks p (opt_field tag (vbi_digits 4) o) (set o p).
Proof.
  intros Ht Hs Hn Hv. destruct o as [v|]; simpl; [|rewrite Hn; apply unpacks_nil].
  eapply (unpacks_field tag _ (λ v, set (Some v) p)); [done..|].
  intros rest. by apply DecodeVBI_digits, Hv.
Qed.

Definition user_ok (u : User) : Prop := str_ok (Key u) ∧ str_ok (Value u).

(** User properties accumulate. *)
Lemma unpacks_users (users : P → list User) (set : list User → P → P) us p :
  (∀ p r, step UserProp p r = (u ← DecodeUser; mret (set (users p ++ [u]) p)) r) →
  (∀ a p, users (set a p) = a) → (∀ a b p, set a (set b p) = set a p) → set (users p) p = p →
  Forall user_ok us → unpacks p (user_fields us) (set (users p ++ us) p).
Proof.
  intros Hs Hg Hset Hid Hok. revert p Hid.
  induction Hok as [|u us [Hk Hv] Hok IH]; intros p Hid; unfold user_fields.
  { rewrite app_nil_r, Hid. apply unpacks_nil. }
  rewrite fmap_cons. cbn [concat]. eapply unpacks_app.
  - eapply (unpacks_field UserProp _ (λ u, set (users p ++ [u]) p));
      [unfold UserProp; lia|apply Hs|].
    intros rest. unfold DecodeUser. rewrite <-app_assoc. do 2 dec_step. by destruct u.
  - specialize (IH (set (users p ++ [u]) p)). rewrite !Hset, Hg, <-app_assoc in IH. by apply IH.
Qed.
End unpack.

(** ** Well-formed property lists

    Integers in the range of their Go types, identifiers in the range of a
    variable byte integer, strings that fit their length prefix. *)

Definition opt_ok (ok : Z → Prop) (o : option Z) : Prop := ∀ v, o = Some v → ok v.

Definition BasicProperties_ok (p : BasicProperties) : Prop :=
  str_ok (BP_ReasonString p) ∧ Forall user_ok (BP_User p).

Definition ConnectProperties_ok (p : ConnectProperties) : Prop :=
  opt_ok u32_ok (CP_SessionExpiryInterval p) ∧ opt_ok u16_ok (CP_ReceiveMaximum p) ∧
  opt_ok u32_ok (CP_MaximumPacketSize p) ∧ opt_ok u16_ok (CP_TopicAliasMaximum p) ∧
  opt_ok u8_ok (CP_RequestResponseInfo p) ∧ opt_ok u8_ok (CP_RequestProblemInfo p) ∧
  Forall user_ok (CP_User p) ∧ str_ok (CP_AuthMethod p) ∧ bin_ok (CP_AuthData p).

Definition WillProperties_ok (p : WillProperties) : Prop :=
  opt_ok u32_ok (WP_WillDelayInterval p) ∧ opt_ok u8_ok (WP_PayloadFormat p) ∧
  opt_ok u32_ok (WP_MessageExpiry p) ∧ str_ok (WP_ContentType p) ∧
  str_ok (WP_ResponseTopic p) ∧ bin_ok (WP_CorrelationData p) ∧ Forall user_ok (WP_User p).

Definition ConnAckProperties_ok (p : ConnAckProperties) : Prop :=
  opt_ok u32_ok (CA_SessionExpiryInterval p) ∧ opt_ok u16_ok (CA_ReceiveMax p) ∧
  opt_ok u8_ok (CA_MaxQoS p) ∧ opt_ok u8_ok (CA_RetainAvailable p) ∧
  opt_ok u32_ok (CA_MaximumPacketSize p) ∧ str_ok (CA_AssignedClientID p) ∧
  opt_ok u16_ok (CA_TopicAliasMax p) ∧ str_ok (CA_ReasonString p) ∧ Forall user_ok (CA_User p) ∧
  opt_ok u8_ok (CA_WildcardSubAvailable p) ∧ opt_ok u8_ok (CA_SubIDAvailable p) ∧
  opt_ok u16_ok (CA_ServerKeepAlive p) ∧ str_ok (CA_ResponseInfo p) ∧
  str_ok (CA_ServerReference p) ∧ str_ok (CA_AuthMethod p) ∧ bin_ok (CA_AuthData p).

Definition AuthProperties_ok (p : AuthProperties) : Prop :=
  str_ok (AP_AuthMethod p) ∧ bin_ok (AP_AuthData p) ∧ str_ok (AP_ReasonString p) ∧
  Forall user_ok (AP_User p).

Definition DisconnectProperties_ok (p : DisconnectProperties) : Prop :=
  opt_ok u32_ok (DP_SessionExpiryInterval p) ∧ str_ok (DP_ReasonString p) ∧
  Forall user_ok (DP_User p) ∧ str_ok (DP_ServerReference p).

Definition SubscribeProperties_ok (p : SubscribeProperties) : Prop :=
  opt_ok vbi_ok (SP_SubscriptionIdentifier p) ∧ Forall user_ok (SP_User p).

Definition PublishProperties_ok (p : PublishProperties) : Prop :=
  opt_ok u8_ok (PP_PayloadFormat p) ∧ opt_ok u32_ok (PP_MessageExpiry p) ∧
  opt_ok u16_ok (PP_TopicAlias p) ∧ str_ok (PP_ResponseTopic p) ∧
  bin_ok (PP_CorrelationData p) ∧ Forall user_ok (PP_User p) ∧
  opt_ok vbi_ok (PP_SubscriptionID p) ∧ str_ok (PP_ContentType p).

(** ** Reading back what was encoded *)

Lemma unpacks_eq {P} (step : Z → P → dec P) p bs p' p'' :
  unpacks step p bs p' → p' = p'' → unpacks step p bs p''.
Proof. by intros H <-. Qed.

(** Compute the properties read so far to a record. *)
Ltac unpack_norm :=
  lazymatch goal with
  | |- unpacks ?s ?p ?b ?q => let p' := eval lazy in p in change (unpacks s p' b q)
  end.

(** The next field of the encoding is field [f]; [L] is the lemma of its type. *)
Ltac unpack_field L f :=
  let go := eapply (L _ _ _ _ (λ v p, p <| f := v |>));
            [done | done || (intros; reflexivity) | reflexivity | assumption] in
  first [eapply unpacks_app; [go|unpack_norm] | go].
Ltac unpack_users f :=
  let go := eapply (unpacks_users _ f (λ v p, p <| f := v |>));
            [intros; reflexivity | intros ? []; reflexivity | intros ? ? []; reflexivity
            | reflexivity | assumption] in
  first [eapply unpacks_app; [go|unpack_norm] | go].

Lemma BasicProperties_unpacks p : BasicProperties_ok p →
  unpacks BasicProperties_step BasicProperties_zero (BasicProperties_Encode p) p.
Proof.
  destruct p. intros (? & ?). eapply unpacks_eq.
  - unfold BasicProperties_Encode. simpl in *. unpack_field @unpacks_str BP_ReasonString.
    unpack_users BP_User.
  - reflexivity.
Qed.

Lemma ConnectProperties_unpacks p : ConnectProperties_ok p →
  unpacks ConnectProperties_step ConnectProperties_zero (ConnectProperties_Encode p) p.
Proof.
  destruct p. intros (? & ? & ? & ? & ? & ? & ? & ? & ?). eapply unpacks_eq.
  - unfold ConnectProperties_Encode. simpl in *.
    unpack_field @unpacks_u32 CP_SessionExpiryInterval.
    unpack_field @unpacks_u16 CP_ReceiveMaximum. unpack_field @unpacks_u32 CP_MaximumPacketSize.
    unpack_field @unpacks_u16 CP_TopicAliasMaximum.
    unpack_field @unpacks_byte CP_RequestResponseInfo.
    unpack_field @unpacks_byte CP_RequestProblemInfo. unpack_users CP_User.
    unpack_field @unpacks_str CP_AuthMethod. unpack_field @unpacks_bin CP_AuthData.
  - reflexivity.
Qed.

Lemma WillProperties_unpacks p : WillProperties_ok p →
  unpacks WillProperties_step WillProperties_zero (WillProperties_Encode p) p.
Proof.
  destruct p. intros (? & ? & ? & ? & ? & ? & ?). eapply unpacks_eq.
  - unfold WillProperties_Encode. simpl in *.
    unpack_field @unpacks_u32 WP_WillDelayInterval. unpack_field @unpacks_byte WP_PayloadFormat.
    unpack_field @unpacks_u32 WP_MessageExpiry. unpack_field @unpacks_str WP_ContentType.
    unpack_field @unpacks_str WP_ResponseTopic. unpack_field @unpacks_bin WP_CorrelationData.
    unpack_users WP_User.
  - reflexivity.
Qed.

Lemma ConnAckProperties_unpacks p : ConnAckProperties_ok p →
  unpacks ConnAckProperties_step ConnAckProperties_zero (ConnAckProperties_Encode p) p.
Proof.
  destruct p. intros (? & ? & ? & ? & ? & ? & ? & ? & ? & ? & ? & ? & ? & ? & ? & ?).
  eapply unpacks_eq.
  - unfold ConnAckProperties_Encode. simpl in *.
    unpack_field @unpacks_u32 CA_SessionExpiryInterval. unpack_field @unpacks_u16 CA_ReceiveMax.
    unpack_field @unpacks_byte CA_MaxQoS. unpack_field @unpacks_byte CA_RetainAvailable.
    unpack_field @unpacks_u32 CA_MaximumPacketSize.
    unpack_field @unpacks_str CA_AssignedClientID. unpack_field @unpacks_u16 CA_TopicAliasMax.
    unpack_field @unpacks_str CA_ReasonString. unpack_users CA_User.
    unpack_field @unpacks_byte CA_WildcardSubAvailable.
    unpack_field @unpacks_byte CA_SubIDAvailable. unpack_field @unpacks_u16 CA_ServerKeepAlive.
    unpack_field @unpacks_str CA_ResponseInfo. unpack_field @unpacks_str CA_ServerReference.
    unpack_field @unpacks_str CA_AuthMethod. unpack_field @unpacks_bin CA_AuthData.
  - reflexivity.
Qed.

Lemma AuthProperties_unpacks p : AuthProperties_ok p →
  unpacks AuthProperties_step AuthProperties_zero (AuthProperties_Encode p) p.
Proof.
  destruct p. intros (? & ? & ? & ?). eapply unpacks_eq.
  - unfold AuthProperties_Encode. simpl in *. unpack_field @unpacks_str AP_AuthMethod.
    unpack_field @unpacks_bin AP_AuthData. unpack_field @unpacks_str AP_ReasonString.
    unpack_users AP_User.
  - reflexivity.
Qed.

Lemma DisconnectProperties_unpacks p : DisconnectProperties_ok p →
  unpacks DisconnectProperties_step DisconnectProperties_zero (DisconnectProperties_Encode p) p.
Proof.
  destruct p. intros (? & ? & ? & ?). eapply unpacks_eq.
  - unfold DisconnectProperties_Encode. simpl in *.
    unpack_field @unpacks_u32 DP_SessionExpiryInterval. unpack_field @unpacks_str DP_ReasonString.
    unpack_users DP_User. unpack_field @unpacks_str DP_ServerReference.
  - reflexivity.
Qed.

Lemma EncodeVBI_ok v : vbi_ok v → EncodeVBI v = Ret (vbi_digits 4 v).
Proof.
  unfold vbi_ok. intros Hv. rewrite EncodeVBI_spec, u32_small by lia.
  by rewrite (proj2 (Z.ltb_lt v _)) by lia.
Qed.

Lemma SubscribeProperties_Encode_ok p : SubscribeProperties_ok p →
  SubscribeProperties_Encode p =
  Ret (opt_field SubscriptionIdentifierProp (vbi_digits 4) (SP_SubscriptionIdentifier p) ++
       user_fields (SP_User p)).
Proof.
  intros [Hv _]. unfold SubscribeProperties_Encode.
  destruct (SP_SubscriptionIdentifier p) as [v|]; [|done]. by rewrite EncodeVBI_ok by auto.
Qed.

Lemma SubscribeProperties_unpacks p bs : SubscribeProperties_ok p →
  SubscribeProperties_Encode p = Ret bs →
  unpacks SubscribeProperties_step SubscribeProperties_zero bs p.
Proof.
  intros Hp. rewrite SubscribeProperties_Encode_ok by done. intros [= <-].
  destruct p, Hp. eapply unpacks_eq.
  - simpl in *. unpack_field @unpacks_vbi SP_SubscriptionIdentifier. unpack_users SP_User.
  - reflexivity.
Qed.

(** ** The PUBLISH encoder *)

Lemma appendVBI_rounds_digits k v dst : 0 <= v < 2 ^ (7 * Z.of_nat k) → (0 < k)%nat →
  appendVBI_rounds k dst v = dst ++ vbi_digits k v.
Proof.
  revert v dst. induction k as [|k IH]; intros v dst Hv Hk; [lia|].
  cbn [appendVBI_rounds vbi_digits]. rewrite land_127, shiftr_7.
  destruct (v <? 128) eqn:E; bool_prop.
  - by rewrite (Z.div_small v 128), (Z.mod_small v 128) by lia.
  - pose proof (Z.div_le_lower_bound v 128 1). pose proof (Z.mod_pos_bound v 128).
    destruct (0 <? v / 128) eqn:E0; bool_prop; [|lia].
    destruct (v / 128 =? 0) eqn:E1; bool_prop; [lia|].
    rewrite lor_128 by lia. pose proof (div_128_range v k Hv) as Hd.
    assert (0 < k)%nat by (destruct k; simpl in Hd; lia).
    rewrite IH by lia. by rewrite <-app_assoc.
Qed.

Lemma appendVBI5_digits dst n : 0 <= n < 2 ^ 32 → appendVBI5 dst n = dst ++ vbi_digits 5 n.
Proof.
  intros Hn. unfold appendVBI5. rewrite u32_small by lia.
  apply appendVBI_rounds_digits; simpl; lia.
Qed.

Lemma vbiLen_loop_digits k v n : 0 <= v < 2 ^ (7 * Z.of_nat k) → (0 < k)%nat →
  vbiLen_loop k v n = n - 1 + Z.of_nat (length (vbi_digits k v)).
Proof.
  revert v n. induction k as [|k IH]; intros v n Hv Hk; [lia|]. cbn [vbiLen_loop vbi_digits].
  destruct (128 <=? v) eqn:E1, (v <? 128) eqn:E2; bool_prop; try lia; cbn [length]; [|lia].
  pose proof (div_128_range v k Hv) as Hd. pose proof (Z.div_le_lower_bound v 128 1).
  assert (0 < k)%nat by (destruct k; simpl in Hd; lia). rewrite IH by lia. lia.
Qed.

Lemma vbiLen_digits n : 0 <= n < 2 ^ 32 → vbiLen n = Z.of_nat (length (vbi_digits 5 n)).
Proof.
  intros Hn. unfold vbiLen. rewrite vbiLen_loop_digits by (simpl; lia).
  rewrite (vbi_digits_more 5) by (simpl; lia). lia.
Qed.

Lemma foldl_append {A} (f : A → list byte) (us : list A) dst :
  foldl (λ dst u, dst ++ f u) dst us = dst ++ concat (f <$> us).
Proof.
  revert dst. induction us as [|u us IH]; intros dst; [by rewrite app_nil_r|].
  cbn [foldl]. rewrite IH, fmap_cons. cbn [concat]. by rewrite <-app_assoc.
Qed.

Lemma appendString_eq dst s : appendString dst s = dst ++ EncodeString s.
Proof.
  unfold appendString, EncodeString, EncodeBytes. by rewrite length_bytes_of, <-app_assoc.
Qed.
Lemma appendBytes_eq dst b : appendBytes dst b = dst ++ EncodeBytes b.
Proof. unfold appendBytes, EncodeBytes. by rewrite <-app_assoc. Qed.

(** The fields of an encoded PUBLISH property list. *)
Definition publish_fields (vbi : Z → list byte) (p : PublishProperties) : list byte :=
  opt_field PayloadFormatProp EncodeByte (PP_PayloadFormat p) ++
  opt_field MessageExpiryProp EncodeUint32 (PP_MessageExpiry p) ++
  opt_field TopicAliasProp EncodeUint16 (PP_TopicAlias p) ++
  str_field ResponseTopicProp (PP_ResponseTopic p) ++
  bin_field CorrelationDataProp (PP_CorrelationData p) ++
  user_fields (PP_User p) ++
  opt_field SubscriptionIdentifierProp vbi (PP_SubscriptionID p) ++
  str_field ContentTypeProp (PP_ContentType p).

Lemma appendVBI5_app dst v : appendVBI5 dst v = dst ++ appendVBI5 [] v.
Proof.
  assert (H : 0 <= u32 v < 2 ^ 32) by (apply Z.mod_pos_bound; lia).
  unfold appendVBI5. by rewrite !appendVBI_rounds_digits by (simpl; lia).
Qed.

Lemma append_users dst us :
  foldl (λ dst u, appendString (appendString (dst ++ [z2b UserProp]) (Key u)) (Value u)) dst us =
  dst ++ user_fields us.
Proof.
  revert dst. induction us as [|u us IH]; intros dst; [by rewrite app_nil_r|].
  cbn [foldl]. rewrite IH, !appendString_eq. unfold user_fields. rewrite fmap_cons. cbn [concat].
  unfold user_field at 2. cbn [app]. by rewrite <-!app_assoc.
Qed.

Lemma PublishProperties_EncodeTo_fields dst p :
  PublishProperties_EncodeTo dst p = dst ++ publish_fields (appendVBI5 []) p.
Proof.
  unfold PublishProperties_EncodeTo, publish_fields, opt_field, str_field, bin_field.
  rewrite append_users, !appendString_eq.
  destruct (PP_PayloadFormat p), (PP_MessageExpiry p), (PP_TopicAlias p),
    (PP_CorrelationData p), (PP_SubscriptionID p); unfold appendUint32, appendUint16;
    rewrite ?(appendVBI5_app (_ ++ _)), ?appendBytes_eq;
    destruct (str_eqb _ _), (str_eqb _ _); rewrite <-?app_assoc, ?app_nil_r; reflexivity.
Qed.

Lemma publish_fields_ext p : PublishProperties_ok p →
  publish_fields (appendVBI5 []) p = publish_fields (vbi_digits 4) p.
Proof.
  intros (_ & _ & _ & _ & _ & _ & Hv & _). unfold publish_fields, opt_field.
  destruct (PP_SubscriptionID p) as [v|]; [|done]. specialize (Hv v eq_refl). unfold vbi_ok in Hv.
  by rewrite appendVBI5_digits, (vbi_digits_more 4) by (simpl; lia).
Qed.

Lemma PublishProperties_unpacks p : PublishProperties_ok p →
  unpacks PublishProperties_step PublishProperties_zero (PublishProperties_Encode p) p.
Proof.
  intros Hp. unfold PublishProperties_Encode.
  rewrite PublishProperties_EncodeTo_fields, publish_fields_ext by done.
  destruct p, Hp as (? & ? & ? & ? & ? & ? & ? & ?). eapply unpacks_eq.
  - unfold publish_fields. simpl in *. unpack_field @unpacks_byte PP_PayloadFormat.
    unpack_field @unpacks_u32 PP_MessageExpiry. unpack_field @unpacks_u16 PP_TopicAlias.
    unpack_field @unpacks_str PP_ResponseTopic. unpack_field @unpacks_bin PP_CorrelationData.
    unpack_users PP_User. unpack_field @unpacks_vbi PP_SubscriptionID.
    unpack_field @unpacks_str PP_ContentType.
  - reflexivity.
Qed.

Lemma EncodeString_length s : length (EncodeString s) = (2 + String.length s)%nat.
Proof.
  unfold EncodeString, EncodeBytes. rewrite length_app, length_bytes_of. simpl. lia.
Qed.
Lemma EncodeBytes_length b : length (EncodeBytes b) = (2 + length b)%nat.
Proof. unfold EncodeBytes. rewrite length_app. simpl. lia. Qed.

Lemma user_lengths us n :
  foldl (λ n u, n + (1 + 2 + Z.of_nat (String.length (Key u)) + 2
                     + Z.of_nat (String.length (Value u)))) n us =
  n + Z.of_nat (length (user_fields us)).
Proof.
  revert n. induction us as [|u us IH]; intros n; [simpl; lia|].
  cbn [foldl]. rewrite IH. unfold user_fields. rewrite fmap_cons. cbn [concat].
  rewrite length_app. unfold user_field at 2. cbn [length].
  rewrite length_app, !EncodeString_length. lia.
Qed.

Lemma encodedLen_lengths p dst :
  (opt_ok u32_ok (PP_SubscriptionID p) →
   Z.of_nat (length (PublishProperties_EncodeTo dst p)) =
   Z.of_nat (length dst) + PublishProperties_encodedLen (Some p)) ∧
  (∀ v, PP_SubscriptionID p = Some v → - 2 ^ 28 <= v < 0 →
   Z.of_nat (length (PublishProperties_EncodeTo dst p)) =
   Z.of_nat (length dst) + PublishProperties_encodedLen (Some p) + 4).
Proof.
  assert (H : ∀ d, (∀ v, PP_SubscriptionID p = Some v →
      Z.of_nat (length (appendVBI5 [] v)) = vbiLen v + d) → (PP_SubscriptionID p = None → d = 0) →
    Z.of_nat (length (PublishProperties_EncodeTo dst p)) =
    Z.of_nat (length dst) + PublishProperties_encodedLen (Some p) + d).
  { intros d Hd Hn. rewrite PublishProperties_EncodeTo_fields. unfold publish_fields,
      PublishProperties_encodedLen, opt_field, str_field, bin_field.
    rewrite user_lengths, !length_app.
    destruct (str_eqb (PP_ResponseTopic p) _), (str_eqb (PP_ContentType p) _),
      (PP_PayloadFormat p), (PP_MessageExpiry p), (PP_TopicAlias p), (PP_CorrelationData p);
    destruct (PP_SubscriptionID p) as [v|];
    try specialize (Hd v eq_refl); try specialize (Hn eq_refl);
    cbn [length EncodeByte EncodeUint16 EncodeUint32];
    rewrite ?EncodeString_length, ?EncodeBytes_length; cbn [length]; lia. }
  split.
  - intros Hv. rewrite (H 0); [lia| |done]. intros v Ev. specialize (Hv v Ev). unfold u32_ok in Hv.
    rewrite appendVBI5_digits, vbiLen_digits by done. rewrite app_nil_l. lia.
  - intros v Ev Hv. rewrite (H 4); [done| |by rewrite Ev]. intros v' Ev'. assert (v' = v) as -> by congruence.
    unfold appendVBI5. assert (u32 v = v + 2 ^ 32) as ->.
    { unfold u32. rewrite <-(Z.mod_add v 1) by lia. rewrite Z.mod_small; lia. }
    rewrite appendVBI_rounds_digits by (simpl; lia).
    assert (4 < length (vbi_digits 5 (v + 2 ^ 32)))%nat by (apply vbi_digits_ge; simpl; lia).
    assert (length (vbi_digits 5 (v + 2 ^ 32)) ≤ 5)%nat by (apply vbi_digits_length; simpl; lia).
    unfold vbiLen. cbn [vbiLen_loop]. rewrite (proj2 (Z.leb_gt 128 v)) by lia. rewrite app_nil_l. lia.
Qed.

(** The length the PUBLISH encoder reserves is the length it writes, for every
    property list whose subscription identifier is a 32-bit value: the
    remaining length in the header never disagrees with the body.  For a
    negative identifier it does: one byte is counted where five are written. *)
Theorem encodedLen_exact p dst :
  (opt_ok u32_ok (PP_SubscriptionID p) →
   Z.of_nat (length (PublishProperties_EncodeTo dst p)) =
   Z.of_nat (length dst) + PublishProperties_encodedLen (Some p)) ∧
  (∀ v, PP_SubscriptionID p = Some v → - 2 ^ 28 <= v < 0 →
   Z.of_nat (length (PublishProperties_EncodeTo dst p)) =
   Z.of_nat (length dst) + PublishProperties_encodedLen (Some p) + 4).
Proof. apply encodedLen_lengths. Qed.

Lemma encodedLen_exact_witness :
  let p := PublishProperties_zero <| PP_SubscriptionID := Some 300 |>
                                  <| PP_ContentType := "json"%string |> in
  Z.of_nat (length (PublishProperties_EncodeTo [] p)) = 10 ∧
  PublishProperties_encodedLen (Some p) = 10.
Proof.
  intros p. split; [|reflexivity].
  rewrite (proj1 (encodedLen_exact p [])); [reflexivity|].
  intros v [= <-]. unfold u32_ok. lia.
Defined.

(** ** The slice reader of property lists *)

Lemma simc_ReadUser : simc ReadUser DecodeUser.
Proof. unfold ReadUser, DecodeUser. eauto 6 with flux. Qed.
#[export] Hint Resolve simc_ReadUser : flux.

(** The switches over the two readers agree, except that the one over a slice
    skips an unknown identifier. *)
Definition switches_agree {P} (stepB : Z → P → zdec P) (step : Z → P → dec P) : Prop :=
  ∀ prop p, simc (stepB prop p) (step prop p) ∨
            step prop p = st_fail (ErrInvalidProperty prop) ∧ stepB prop p = mret p.

Ltac switches :=
  intros prop p; repeat case_match; first [by right | left; unfold ReadBytesNoCopy; eauto with flux].

Lemma ConnectProperties_switches :
  switches_agree ConnectProperties_stepBytes ConnectProperties_step.
Proof. unfold ConnectProperties_stepBytes, ConnectProperties_step. switches. Qed.
Lemma WillProperties_switches : switches_agree WillProperties_stepBytes WillProperties_step.
Proof. unfold WillProperties_stepBytes, WillProperties_step. switches. Qed.
Lemma SubscribeProperties_switches :
  switches_agree SubscribeProperties_stepBytes SubscribeProperties_step.
Proof. unfold SubscribeProperties_stepBytes, SubscribeProperties_step. switches. Qed.
Lemma PublishProperties_switches :
  switches_agree PublishProperties_stepBytes PublishProperties_step.
Proof. unfold PublishProperties_stepBytes, PublishProperties_step. switches. Qed.

Section slices.
Context {P : Type} (stepB : Z → P → zdec P) (step : Z → P → dec P) `{!PropSwitch step}.
Hypothesis Hagree : switches_agree stepB step.

(** What the stream loop accepts the slice loop accepts, with the same result. *)
Lemma unpackBytes_loop_complete fuel : ∀ p z p' r',
  zok z → (length (zrest z) < fuel)%nat →
  Unpack_loop step fuel p (mkReader (zrest z) EOF) = Ret (p', r') →
  ∃ z', unpackBytes_loop stepB fuel p z = Ret (p', z').
Proof.
  induction fuel as [|fuel IH]; intros p z p' r' Hz Hf; [lia|].
  pose proof (zrest_length z Hz) as Hl. cbn [unpackBytes_loop]. unfold Remaining.
  destruct (_ <=? 0) eqn:E; bool_prop.
  { destruct (zrest z) as [|b l]; [|simpl in Hl; lia]. intros [= <- <-]. eauto. }
  unfold mbind at 1, ST_bind at 1. pose proof (simc_ReadByte z EOF Hz) as Hb. unfold agree in Hb.
  destruct (zrest z) as [|b l] eqn:Er; [simpl in Hl; lia|].
  rewrite Unpack_loop_cons, DecodeByte_cons in *. destruct (ReadByte z) as [[b' z1]| |]; [|done..].
  destruct Hb as (-> & Hz1 & _ & [= Hr1]). unfold mbind, ST_bind.
  destruct (Hagree (b2z b) p) as [Hs|[Hs _]]; [|by rewrite Hs].
  specialize (Hs z1 EOF Hz1). unfold agree in Hs. rewrite Hr1.
  destruct (step _ p _) as [[q r2]| |] eqn:Es; [|done..].
  destruct (stepB _ p z1) as [[q' z2]| |]; [|done..]. destruct Hs as (-> & Hz2 & _ & ->).
  intros H. eapply IH; [done| |done].
  apply switch_consumes in Es as [Hc _]. rewrite Hr1 in Hf. simpl in Hc, Hf. lia.
Qed.

Lemma unpackBytes_loop_nopanic fuel : ∀ p z,
  zok z → (length (zrest z) < fuel)%nat → unpackBytes_loop stepB fuel p z ≠ Panic.
Proof.
  induction fuel as [|fuel IH]; intros p z Hz Hf; [lia|].
  pose proof (zrest_length z Hz) as Hl. cbn [unpackBytes_loop]. unfold Remaining.
  destruct (_ <=? 0) eqn:E; bool_prop; [done|].
  unfold mbind at 1, ST_bind at 1. pose proof (simc_ReadByte z EOF Hz) as Hb. unfold agree in Hb.
  destruct (zrest z) as [|b l] eqn:Er; [simpl in Hl; lia|]. simpl in Hf.
  rewrite DecodeByte_cons in Hb. destruct (ReadByte z) as [[b' z1]| |]; [|done..].
  destruct Hb as (-> & Hz1 & _ & [= Hr1]). unfold mbind, ST_bind.
  destruct (Hagree (b2z b) p) as [Hs|[_ Hs]].
  - specialize (Hs z1 EOF Hz1). unfold agree in Hs.
    pose proof (switch_nopanic (b2z b) p (mkReader (zrest z1) EOF)).
    destruct (step _ p _) as [[q r2]| |] eqn:Es, (stepB _ p z1) as [[q' z2]| |]; try done.
    destruct Hs as (-> & Hz2 & _ & ->). apply IH; [done|].
    apply switch_consumes in Es as [Hc _]. simpl in Hc. rewrite <-Hr1 in Hc. lia.
  - rewrite Hs. apply IH; [done|]. rewrite <-Hr1. lia.
Qed.

Lemma unpackBytes_nopanic p data : unpackBytes_props stepB p data ≠ Panic.
Proof.
  unfold unpackBytes_props.
  pose proof (unpackBytes_loop_nopanic (S (length data)) p (NewZeroCopyReader data)) as H.
  destruct (unpackBytes_loop _ _ _ _) as [[]| |]; [done..|]. exfalso. apply H; [apply zok_new| |done].
  unfold zrest. rewrite length_drop. simpl. lia.
Qed.

Lemma unpackBytes_complete p data p' r' :
  Unpack_props step p (NewReader data) = Ret (p', r') → unpackBytes_props stepB p data = Ret p'.
Proof.
  intros H. unfold unpackBytes_props.
  destruct (unpackBytes_loop_complete (S (length data)) p (NewZeroCopyReader data) p' r')
    as [z' ->]; [apply zok_new| |exact H|done].
  unfold zrest. rewrite length_drop. simpl. lia.
Qed.
End slices.
