(* ===== verification/PacketsV5.v ===== *)
(** * MQTT 5.0 packets (src/mqtt/packets/v5)

    The fifteen packet types with [Encode], [Unpack], [Details] and [Reset], the
    packet factory, the stream reader [ReadPacketLimit], the zero-copy reader
    [ReadPacketBytes] and the pool of PUBLISH packets.  [Encode] also stores the
    remaining length in the packet, so it returns the packet it leaves behind.
    [Pack] writes those bytes and [String] formats; neither is modelled.

    Theorems: reading what a well-formed packet encodes to gives the packet in
    the form the reader builds (an absent reason code written as zero comes
    back as zero, an empty property list as none); no input makes a reader
    panic; the places where the encoder and the readers disagree. *)

From Stdlib Require Import ZArith Lia Bool Ascii String Strings.Byte.
From stdpp Require Import prelude gmap strings.
From S2P Require Import Prelude GoStrings Codec Packets PropertiesV5.

Module V5.

(** ** The property block every [Encode] and [Unpack] repeats *)

(** [None] is a nil [Properties]: a zero length is written. *)
Definition EncodeProperties (props : option (list byte)) : outcome GoErr (list byte) :=
  match props with
  | Some props =>
      let l := Z.of_nat (length props) in
      proplen ← EncodeVBI l;
      mret (proplen ++ if 0 <? l then props else [])
  | None => mret [x00]
  end.

(** [make([]byte, length)], [r.Read(buf)], then [p.Unpack] on those bytes. *)
Definition ReadProperties {P} (unpack : dec P) (old : option P) : dec (option P) :=
  length ← DecodeVBI;
  if length =? 0 then mret old
  else
    buf ← Read (Z.to_nat length);
    p ← st_lift (fst <$> unpack (NewReader buf));
    mret (Some p).

(** ** connect.go *)

Record Connect := mkConnect {
  ConnectHeader : FixedHeader;
  ProtocolName : string;
  ProtocolVersion : Z;
  UsernameFlag : bool;
  PasswordFlag : bool;
  WillRetain : bool;
  WillQoS : Z;
  WillFlag : bool;
  CleanStart : bool;
  ReservedBit : Z;
  KeepAlive : Z;
  ConnectProps : option ConnectProperties;
  ClientID : string;
  WillProps : option WillProperties;
  WillTopic : string;
  WillPayload : list byte;
  Username : string;
  Password : list byte
}.
#[export] Instance eta_Connect : Eta Connect := λ c,
  mkConnect (ConnectHeader c) (ProtocolName c) (ProtocolVersion c) (UsernameFlag c)
    (PasswordFlag c) (WillRetain c) (WillQoS c) (WillFlag c) (CleanStart c) (ReservedBit c)
    (KeepAlive c) (ConnectProps c) (ClientID c) (WillProps c) (WillTopic c) (WillPayload c)
    (Username c) (Password c).

(** [&Connect{FixedHeader: fh}]. *)
Definition Connect_zero (fh : FixedHeader) : Connect :=
  mkConnect fh EmptyString 0 false false false 0 false false 0 0 None EmptyString None
    EmptyString [] EmptyString [].

Definition flag (b : bool) (bit : Z) : Z := if b then Z.shiftl 1 bit else 0.

Definition PackFlags (c : Connect) : Z :=
  Z.lor (Z.lor (Z.lor (Z.lor (Z.lor (flag (UsernameFlag c) 7) (flag (PasswordFlag c) 6))
                             (flag (WillRetain c) 5))
                      (u8 (Z.shiftl (Z.land (WillQoS c) 0x03) 3)))
               (flag (WillFlag c) 2))
        (flag (CleanStart c) 1).

Definition Connect_body (c : Connect) : outcome GoErr (list byte) :=
  props ← EncodeProperties (ConnectProperties_Encode <$> ConnectProps c);
  will ← (if WillFlag c then
            wprops ← EncodeProperties (WillProperties_Encode <$> WillProps c);
            mret (wprops ++ EncodeString (WillTopic c) ++ EncodeBytes (WillPayload c))
          else mret []);
  mret (EncodeString (ProtocolName c) ++ [z2b (ProtocolVersion c)] ++ [z2b (PackFlags c)] ++
        EncodeUint16 (KeepAlive c) ++ props ++ EncodeString (ClientID c) ++ will ++
        (if UsernameFlag c then EncodeString (Username c) else []) ++
        (if PasswordFlag c then EncodeBytes (Password c) else [])).

Definition Connect_Encode (c : Connect) : outcome GoErr (list byte * Connect) :=
  body ← Connect_body c;
  '(bs, fh) ← with_header (ConnectHeader c) body;
  mret (bs, c <| ConnectHeader := fh |>).

Definition Connect_Unpack (c : Connect) : dec Connect :=
  protocolName ← DecodeString;
  protocolVersion ← DecodeByte;
  opts_b ← DecodeByte;
  let opts := b2z opts_b in
  let reservedBit := Z.land 1 opts in
  let cleanStart := 0 <? Z.land 1 (Z.shiftr opts 1) in
  let willFlag := 0 <? Z.land 1 (Z.shiftr opts 2) in
  let willQoS := Z.land 3 (Z.shiftr opts 3) in
  let willRetain := 0 <? Z.land 1 (Z.shiftr opts 5) in
  let passwordFlag := 0 <? Z.land 1 (Z.shiftr opts 6) in
  let usernameFlag := 0 <? Z.land 1 (Z.shiftr opts 7) in
  keepAlive ← DecodeUint16;
  properties ← ReadProperties (ConnectProperties_Unpack ConnectProperties_zero) (ConnectProps c);
  clientID ← DecodeString;
  '(willProps, willTopic, willPayload) ←
    (if willFlag then
       p ← ReadProperties (WillProperties_Unpack WillProperties_zero) (WillProps c);
       t ← DecodeString; m ← DecodeBytes; mret (p, t, m)
     else mret (WillProps c, WillTopic c, WillPayload c));
  username ← (if usernameFlag then DecodeString else mret (Username c));
  password ← (if passwordFlag then DecodeBytes else mret (Password c));
  mret (mkConnect (ConnectHeader c) protocolName (b2z protocolVersion) usernameFlag
          passwordFlag willRetain willQoS willFlag cleanStart reservedBit keepAlive
          properties clientID willProps willTopic willPayload username password).

Definition Accepted : Z := 0x00.
Definition ErrRefusedBadProtocolVersion : Z := 0x01.
Definition ErrRefusedIDRejected : Z := 0x02.
Definition ErrRefusedBadUsernameOrPassword : Z := 0x04.
Definition ErrProtocolViolation : Z := 0xFF.

Definition mqtt_string : string := "MQTT"%string.

Definition Connect_Validate (c : Connect) : Z :=
  if PasswordFlag c && negb (UsernameFlag c) then ErrRefusedBadUsernameOrPassword
  else if negb (ReservedBit c =? 0) then ErrProtocolViolation
  else if str_eqb (ProtocolName c) mqtt_string && negb (ProtocolVersion c =? 5)
       then ErrRefusedBadProtocolVersion
  else if negb (str_eqb (ProtocolName c) mqtt_string) then ErrProtocolViolation
  else if (65535 <? Z.of_nat (String.length (ClientID c)))
          || (65535 <? Z.of_nat (String.length (Username c)))
          || (65535 <? Z.of_nat (length (Password c))) then ErrProtocolViolation
  else if (Z.of_nat (String.length (ClientID c)) =? 0) && negb (CleanStart c)
       then ErrRefusedIDRejected
  else Accepted.

(** ** connack.go *)

Record ConnAck := mkConnAck {
  ConnAckHeader : FixedHeader;
  SessionPresent : bool;
  ConnAckReasonCode : Z;
  ConnAckProps : option ConnAckProperties
}.
#[export] Instance eta_ConnAck : Eta ConnAck := λ c,
  mkConnAck (ConnAckHeader c) (SessionPresent c) (ConnAckReasonCode c) (ConnAckProps c).

Definition ConnAck_body (c : ConnAck) : outcome GoErr (list byte) :=
  props ← EncodeProperties (ConnAckProperties_Encode <$> ConnAckProps c);
  mret ([EncodeBool (SessionPresent c); z2b (ConnAckReasonCode c)] ++ props).
Definition ConnAck_Encode (c : ConnAck) : outcome GoErr (list byte * ConnAck) :=
  body ← ConnAck_body c;
  '(bs, fh) ← with_header (ConnAckHeader c) body;
  mret (bs, c <| ConnAckHeader := fh |>).

Definition ConnAck_Unpack (c : ConnAck) : dec ConnAck :=
  flags ← DecodeByte;
  reasonCode ← DecodeByte;
  props ← ReadProperties (ConnAckProperties_Unpack ConnAckProperties_zero) (ConnAckProps c);
  mret (mkConnAck (ConnAckHeader c) (0 <? Z.land 1 (b2z flags)) (b2z reasonCode) props).

(** ** puback.go, pubrec.go, pubrel.go, pubcomp.go

    The four structs have the same fields. *)

Record AckPacket := mkAckPacket {
  AckHeader : FixedHeader;
  AckID : Z;
  AckReasonCode : option Z;
  AckProps : option BasicProperties
}.
#[export] Instance eta_AckPacket : Eta AckPacket := λ p,
  mkAckPacket (AckHeader p) (AckID p) (AckReasonCode p) (AckProps p).

Definition PubAck_body (p : AckPacket) : outcome GoErr (list byte) :=
  props ← EncodeProperties (BasicProperties_Encode <$> AckProps p);
  mret (EncodeUint16 (AckID p) ++
        match AckReasonCode p with Some rc => [z2b rc] | None => [x00] end ++ props).
Definition PubAck_Encode (p : AckPacket) : outcome GoErr (list byte * AckPacket) :=
  body ← PubAck_body p;
  '(bs, fh) ← with_header (AckHeader p) body;
  mret (bs, p <| AckHeader := fh |>).

(** The minimal formats of PUBREC, PUBREL and PUBCOMP. *)
Definition minimal_body (p : AckPacket) : outcome GoErr (list byte) :=
  let ret := EncodeUint16 (AckID p) in
  match AckProps p with
  | Some bp =>
      let props := BasicProperties_Encode bp in
      if (0 <? Z.of_nat (length props)) || bool_decide (is_Some (AckReasonCode p)) then
        let ret := ret ++ match AckReasonCode p with Some rc => [z2b rc] | None => [x00] end in
        proplen ← EncodeVBI (Z.of_nat (length props));
        mret (ret ++ proplen ++ props)
      else mret ret
  | None =>
      match AckReasonCode p with
      | Some rc => if negb (rc =? 0) then mret (ret ++ [z2b rc]) else mret ret
      | None => mret ret
      end
  end.
Definition PubRec_Encode (p : AckPacket) : outcome GoErr (list byte * AckPacket) :=
  body ← minimal_body p;
  '(bs, fh) ← with_header (AckHeader p) body;
  mret (bs, p <| AckHeader := fh |>).
Definition PubRel_Encode (p : AckPacket) : outcome GoErr (list byte * AckPacket) :=
  body ← minimal_body p;
  '(bs, fh) ← with_header (AckHeader p) body;
  mret (bs, p <| AckHeader := fh |>).
Definition PubComp_Encode (p : AckPacket) : outcome GoErr (list byte * AckPacket) :=
  body ← minimal_body p;
  '(bs, fh) ← with_header (AckHeader p) body;
  mret (bs, p <| AckHeader := fh |>).

(** After the identifier, [io.EOF] before the reason code or before the property
    length ends the packet.  The four [Unpack] bodies are the same text. *)
Definition PubAck_Unpack (p : AckPacket) : dec AckPacket :=
  id ← DecodeUint16;
  let p := p <| AckID := id |> in
  or_eof DecodeByte p (λ rc,
  let p := p <| AckReasonCode := Some (b2z rc) |> in
  or_eof DecodeVBI p (λ length,
  if length =? 0 then mret p
  else
    buf ← Read (Z.to_nat length);
    bp ← st_lift (fst <$> BasicProperties_Unpack BasicProperties_zero (NewReader buf));
    mret (p <| AckProps := Some bp |>))).
Definition PubRec_Unpack (p : AckPacket) : dec AckPacket := PubAck_Unpack p.
Definition PubRel_Unpack (p : AckPacket) : dec AckPacket := PubAck_Unpack p.
Definition PubComp_Unpack (p : AckPacket) : dec AckPacket := PubAck_Unpack p.

(** ** publish.go *)

(** [PayloadRef] is the identity of the buffer the payload points into. *)
Record Publish := mkPublish {
  PublishHeader : FixedHeader;
  PublishID : Z;
  TopicName : string;
  PublishProps : option PublishProperties;
  PayloadRef : option nat;
  Payload : list byte
}.
#[export] Instance eta_Publish : Eta Publish := λ p,
  mkPublish (PublishHeader p) (PublishID p) (TopicName p) (PublishProps p) (PayloadRef p)
    (Payload p).
Definition Publish_zero (fh : FixedHeader) : Publish := mkPublish fh 0 EmptyString None None [].

(** [propsLen > 0] implies a non-nil [Properties]; the nil branch of the last
    [match] is the nil dereference it rules out. *)
Definition Publish_EncodeTo (dst : list byte) (p : Publish) : outcome GoErr (list byte * Publish) :=
  let propsLen := match PublishProps p with
                  | Some pp => PublishProperties_encodedLen (Some pp) | None => 0 end in
  let remainingLen :=
    2 + Z.of_nat (String.length (TopicName p)) + Z.of_nat (length (Payload p)) in
  let remainingLen := if 0 <? QoS (PublishHeader p) then remainingLen + 2 else remainingLen in
  let remainingLen := remainingLen + (vbiLen propsLen + propsLen) in
  let fh := set_RemainingLength remainingLen (PublishHeader p) in
  let dst := dst ++ [flags_byte fh] in
  let dst := appendVBI5 dst remainingLen in
  let dst := appendString dst (TopicName p) in
  let dst := if 0 <? QoS fh then appendUint16 dst (PublishID p) else dst in
  let dst := appendVBI5 dst propsLen in
  dst ← (if 0 <? propsLen then
           match PublishProps p with
           | Some pp => mret (PublishProperties_EncodeTo dst pp)
           | None => Panic
           end
         else mret dst);
  mret (dst ++ Payload p, p <| PublishHeader := fh |>).

Definition Publish_Encode (p : Publish) : outcome GoErr (list byte * Publish) :=
  Publish_EncodeTo [] p.

Definition Publish_Unpack (p : Publish) : dec Publish :=
  topicName ← DecodeString;
  id ← (if 0 <? QoS (PublishHeader p) then DecodeUint16 else mret (PublishID p));
  props ← ReadProperties (PublishProperties_Unpack PublishProperties_zero) (PublishProps p);
  payload ← ReadAll;
  mret (mkPublish (PublishHeader p) id topicName props (PayloadRef p) payload).

(** ** subscribe.go *)

Record SubOption := mkSubOption {
  Topic : string;
  RetainHandling : option Z;
  NoLocal : option bool;
  RetainAsPublished : option bool;
  MaxQoS : Z
}.

Definition SubOption_flags (s : SubOption) : Z :=
  let flag := Z.land (MaxQoS s) 0x03 in
  let flag := match NoLocal s with Some true => Z.lor flag (Z.shiftl 1 2) | _ => flag end in
  let flag := match RetainAsPublished s with
              | Some true => Z.lor flag (Z.shiftl 1 3) | _ => flag end in
  match RetainHandling s with
  | Some rh => Z.lor flag (u8 (Z.shiftl (Z.land rh 0x03) 4))
  | None => flag
  end.
Definition SubOption_Encode (s : SubOption) : list byte :=
  EncodeString (Topic s) ++ [z2b (SubOption_flags s)].

Definition SubOption_Unpack : dec SubOption :=
  topic ← DecodeString;
  b ← ReadFull 1;
  match b with
  | [b0] =>
      let flags := b2z b0 in
      let maxQoS := Z.land flags 0x03 in
      if 2 <? maxQoS then st_fail (ErrInvalidSubscribeOption flags)
      else
        let noLocal := negb (Z.land flags (Z.shiftl 1 2) =? 0) in
        let retainAsPublished := negb (Z.land flags (Z.shiftl 1 3) =? 0) in
        let rh := Z.land (Z.shiftr flags 4) 0x03 in
        if 2 <? rh then st_fail (ErrInvalidSubscribeOption flags)
        else if negb (Z.land flags (Z.shiftl 1 6) =? 0) || negb (Z.land flags (Z.shiftl 1 7) =? 0)
        then st_fail (ErrInvalidSubscribeOption flags)
        else mret (mkSubOption topic (Some rh) (Some noLocal) (Some retainAsPublished) maxQoS)
  | _ => st_panic
  end.

Record Subscribe := mkSubscribe {
  SubscribeHeader : FixedHeader;
  SubscribeID : Z;
  SubscribeProps : option SubscribeProperties;
  Opts : list SubOption
}.
#[export] Instance eta_Subscribe : Eta Subscribe := λ s,
  mkSubscribe (SubscribeHeader s) (SubscribeID s) (SubscribeProps s) (Opts s).

Definition Subscribe_body (s : Subscribe) : outcome GoErr (list byte) :=
  encoded ← match SubscribeProps s with
            | Some sp => props ← SubscribeProperties_Encode sp; mret (Some props)
            | None => mret None
            end;
  props ← EncodeProperties encoded;
  mret (EncodeUint16 (SubscribeID s) ++ props ++ concat (SubOption_Encode <$> Opts s)).
Definition Subscribe_Encode (s : Subscribe) : outcome GoErr (list byte * Subscribe) :=
  body ← Subscribe_body s;
  '(bs, fh) ← with_header (SubscribeHeader s) body;
  mret (bs, s <| SubscribeHeader := fh |>).

(** The option loop: [io.EOF] from [opt.Unpack] ends it.  Every round consumes at
    least three bytes. *)
Fixpoint Subscribe_opts (fuel : nat) (opts : list SubOption) : dec (list SubOption) :=
  match fuel with
  | O => st_panic
  | S fuel => or_eof SubOption_Unpack opts (λ opt, Subscribe_opts fuel (opts ++ [opt]))
  end.

Definition Subscribe_Unpack (s : Subscribe) : dec Subscribe :=
  id ← DecodeUint16;
  props ← ReadProperties (SubscribeProperties_Unpack SubscribeProperties_zero) (SubscribeProps s);
  opts ← (λ r, Subscribe_opts (S (length (rbuf r))) (Opts s) r) : dec (list SubOption);
  mret (mkSubscribe (SubscribeHeader s) id props opts).

(** ** suback.go, unsuback.go: the same fields and the same text *)

Record SubAck := mkSubAck {
  SubAckHeader : FixedHeader;
  SubAckID : Z;
  SubAckProps : option BasicProperties;
  ReasonCodes : option (list byte)
}.
#[export] Instance eta_SubAck : Eta SubAck := λ s,
  mkSubAck (SubAckHeader s) (SubAckID s) (SubAckProps s) (ReasonCodes s).

Definition SubAck_body (s : SubAck) : outcome GoErr (list byte) :=
  props ← EncodeProperties (BasicProperties_Encode <$> SubAckProps s);
  mret (EncodeUint16 (SubAckID s) ++ props ++
        match ReasonCodes s with Some rcs => rcs | None => [] end).
Definition SubAck_Encode (s : SubAck) : outcome GoErr (list byte * SubAck) :=
  body ← SubAck_body s;
  '(bs, fh) ← with_header (SubAckHeader s) body;
  mret (bs, s <| SubAckHeader := fh |>).
Definition UnsubAck_Encode (s : SubAck) : outcome GoErr (list byte * SubAck) :=
  body ← SubAck_body s;
  '(bs, fh) ← with_header (SubAckHeader s) body;
  mret (bs, s <| SubAckHeader := fh |>).

Definition SubAck_Unpack (s : SubAck) : dec SubAck :=
  id ← DecodeUint16;
  props ← ReadProperties (BasicProperties_Unpack BasicProperties_zero) (SubAckProps s);
  rcs ← ReadAll;
  mret (mkSubAck (SubAckHeader s) id props (Some rcs)).
Definition UnsubAck_Unpack (s : SubAck) : dec SubAck := SubAck_Unpack s.

(** ** unsubscribe.go *)

Record Unsubscribe := mkUnsubscribe {
  UnsubscribeHeader : FixedHeader;
  UnsubscribeID : Z;
  UnsubscribeProps : option UnsubscribeProperties;
  Topics : list string
}.
#[export] Instance eta_Unsubscribe : Eta Unsubscribe := λ u,
  mkUnsubscribe (UnsubscribeHeader u) (UnsubscribeID u) (UnsubscribeProps u) (Topics u).

Definition Unsubscribe_body (u : Unsubscribe) : outcome GoErr (list byte) :=
  props ← EncodeProperties (UnsubscribeProperties_Encode <$> UnsubscribeProps u);
  mret (EncodeUint16 (UnsubscribeID u) ++ props ++ concat (EncodeString <$> Topics u)).
Definition Unsubscribe_Encode (u : Unsubscribe) : outcome GoErr (list byte * Unsubscribe) :=
  body ← Unsubscribe_body u;
  '(bs, fh) ← with_header (UnsubscribeHeader u) body;
  mret (bs, u <| UnsubscribeHeader := fh |>).

Fixpoint Unsubscribe_topics (fuel : nat) (topics : list string) : dec (list string) :=
  match fuel with
  | O => st_panic
  | S fuel => or_eof DecodeBytes topics (λ t, Unsubscribe_topics fuel (topics ++ [string_of t]))
  end.

Definition Unsubscribe_Unpack (u : Unsubscribe) : dec Unsubscribe :=
  id ← DecodeUint16;
  props ← ReadProperties (UnsubscribeProperties_Unpack UnsubscribeProperties_zero)
                         (UnsubscribeProps u);
  topics ← (λ r, Unsubscribe_topics (S (length (rbuf r))) (Topics u) r) : dec (list string);
  mret (mkUnsubscribe (UnsubscribeHeader u) id props topics).

(** ** pingreq.go, pingresp.go: the header as it is, its length not recomputed *)

Definition PingReq_Encode (fh : FixedHeader) : outcome GoErr (list byte * FixedHeader) :=
  bs ← FixedHeader_Encode fh; mret (bs, fh).
Definition PingResp_Encode (fh : FixedHeader) : outcome GoErr (list byte * FixedHeader) :=
  bs ← FixedHeader_Encode fh; mret (bs, fh).

(** ** disconnect.go *)

Record Disconnect := mkDisconnect {
  DisconnectHeader : FixedHeader;
  DisconnectReasonCode : Z;
  DisconnectProps : option DisconnectProperties
}.
#[export] Instance eta_Disconnect : Eta Disconnect := λ d,
  mkDisconnect (DisconnectHeader d) (DisconnectReasonCode d) (DisconnectProps d).

Definition Disconnect_body (d : Disconnect) : outcome GoErr (list byte) :=
  props ← EncodeProperties (DisconnectProperties_Encode <$> DisconnectProps d);
  mret ([z2b (DisconnectReasonCode d)] ++ props).
Definition Disconnect_Encode (d : Disconnect) : outcome GoErr (list byte * Disconnect) :=
  body ← Disconnect_body d;
  '(bs, fh) ← with_header (DisconnectHeader d) body;
  mret (bs, d <| DisconnectHeader := fh |>).

(** An empty DISCONNECT is valid. *)
Definition Disconnect_Unpack (d : Disconnect) : dec Disconnect :=
  or_eof DecodeByte d (λ rc,
  props ← ReadProperties (DisconnectProperties_Unpack DisconnectProperties_zero)
                         (DisconnectProps d);
  mret (mkDisconnect (DisconnectHeader d) (b2z rc) props)).

(** ** auth.go *)

Record Auth := mkAuth {
  AuthHeader : FixedHeader;
  AuthReasonCode : Z;
  AuthProps : option AuthProperties
}.
#[export] Instance eta_Auth : Eta Auth := λ a,
  mkAuth (AuthHeader a) (AuthReasonCode a) (AuthProps a).

Definition Auth_body (a : Auth) : outcome GoErr (list byte) :=
  props ← EncodeProperties (AuthProperties_Encode <$> AuthProps a);
  mret ([z2b (AuthReasonCode a)] ++ props).
Definition Auth_Encode (a : Auth) : outcome GoErr (list byte * Auth) :=
  body ← Auth_body a;
  '(bs, fh) ← with_header (AuthHeader a) body;
  mret (bs, a <| AuthHeader := fh |>).
Definition Auth_Unpack (a : Auth) : dec Auth :=
  rc ← DecodeByte;
  props ← ReadProperties (AuthProperties_Unpack AuthProperties_zero) (AuthProps a);
  mret (mkAuth (AuthHeader a) (b2z rc) props).

(** ** The packets.ControlPacket interface: one constructor per implementation *)

Inductive ControlPacket :=
| PConnect (c : Connect)
| PConnAck (c : ConnAck)
| PPublish (p : Publish)
| PPubAck (p : AckPacket)
| PPubRec (p : AckPacket)
| PPubRel (p : AckPacket)
| PPubComp (p : AckPacket)
| PSubscribe (s : Subscribe)
| PSubAck (s : SubAck)
| PUnsubscribe (u : Unsubscribe)
| PUnsubAck (u : SubAck)
| PPingReq (fh : FixedHeader)
| PPingResp (fh : FixedHeader)
| PDisconnect (d : Disconnect)
| PAuth (a : Auth).

Definition Header (cp : ControlPacket) : FixedHeader :=
  match cp with
  | PConnect c => ConnectHeader c
  | PConnAck c => ConnAckHeader c
  | PPublish p => PublishHeader p
  | PPubAck p | PPubRec p | PPubRel p | PPubComp p => AckHeader p
  | PSubscribe s => SubscribeHeader s
  | PSubAck s | PUnsubAck s => SubAckHeader s
  | PUnsubscribe u => UnsubscribeHeader u
  | PPingReq fh | PPingResp fh => fh
  | PDisconnect d => DisconnectHeader d
  | PAuth a => AuthHeader a
  end.

(** [cp.Type()]. *)
Definition Type_ (cp : ControlPacket) : Z :=
  match cp with
  | PConnect _ => ConnectType | PConnAck _ => ConnAckType | PPublish _ => PublishType
  | PPubAck _ => PubAckType | PPubRec _ => PubRecType | PPubRel _ => PubRelType
  | PPubComp _ => PubCompType | PSubscribe _ => SubscribeType | PSubAck _ => SubAckType
  | PUnsubscribe _ => UnsubscribeType | PUnsubAck _ => UnsubAckType
  | PPingReq _ => PingReqType | PPingResp _ => PingRespType | PDisconnect _ => DisconnectType
  | PAuth _ => AuthType
  end.

(** [cp.Details()]: PUBREC and PUBREL name the type of PUBACK, and only PUBCOMP of
    the four acknowledgements fills in the identifier. *)
Definition Details_ (cp : ControlPacket) : Details :=
  match cp with
  | PConnect _ => mkDetails ConnectType 0 0
  | PConnAck _ => mkDetails ConnAckType 0 0
  | PPublish p => mkDetails PublishType (PublishID p) (QoS (PublishHeader p))
  | PPubAck p => mkDetails PubAckType 0 (QoS (AckHeader p))
  | PPubRec p => mkDetails PubAckType 0 (QoS (AckHeader p))
  | PPubRel p => mkDetails PubAckType 0 (QoS (AckHeader p))
  | PPubComp p => mkDetails PubCompType (AckID p) (QoS (AckHeader p))
  | PSubscribe s => mkDetails SubscribeType (SubscribeID s) 1
  | PSubAck s => mkDetails SubAckType (SubAckID s) 0
  | PUnsubscribe u => mkDetails UnsubscribeType (UnsubscribeID u) 1
  | PUnsubAck u => mkDetails UnsubAckType (SubAckID u) 0
  | PPingReq _ => mkDetails PingReqType 0 0
  | PPingResp _ => mkDetails PingRespType 0 0
  | PDisconnect _ => mkDetails DisconnectType 0 0
  | PAuth _ => mkDetails AuthType 0 0
  end.

(** [cp.Encode()]: dynamic dispatch over the packet types. *)
Definition Encode (cp : ControlPacket) : outcome GoErr (list byte * ControlPacket) :=
  match cp with
  | PConnect c => '(bs, c) ← Connect_Encode c; mret (bs, PConnect c)
  | PConnAck c => '(bs, c) ← ConnAck_Encode c; mret (bs, PConnAck c)
  | PPublish p => '(bs, p) ← Publish_Encode p; mret (bs, PPublish p)
  | PPubAck p => '(bs, p) ← PubAck_Encode p; mret (bs, PPubAck p)
  | PPubRec p => '(bs, p) ← PubRec_Encode p; mret (bs, PPubRec p)
  | PPubRel p => '(bs, p) ← PubRel_Encode p; mret (bs, PPubRel p)
  | PPubComp p => '(bs, p) ← PubComp_Encode p; mret (bs, PPubComp p)
  | PSubscribe s => '(bs, s) ← Subscribe_Encode s; mret (bs, PSubscribe s)
  | PSubAck s => '(bs, s) ← SubAck_Encode s; mret (bs, PSubAck s)
  | PUnsubscribe u => '(bs, u) ← Unsubscribe_Encode u; mret (bs, PUnsubscribe u)
  | PUnsubAck u => '(bs, u) ← UnsubAck_Encode u; mret (bs, PUnsubAck u)
  | PPingReq fh => '(bs, fh) ← PingReq_Encode fh; mret (bs, PPingReq fh)
  | PPingResp fh => '(bs, fh) ← PingResp_Encode fh; mret (bs, PPingResp fh)
  | PDisconnect d => '(bs, d) ← Disconnect_Encode d; mret (bs, PDisconnect d)
  | PAuth a => '(bs, a) ← Auth_Encode a; mret (bs, PAuth a)
  end.

(** [cp.Unpack(r)]. *)
Definition Unpack (cp : ControlPacket) : dec ControlPacket :=
  match cp with
  | PConnect c => c ← Connect_Unpack c; mret (PConnect c)
  | PConnAck c => c ← ConnAck_Unpack c; mret (PConnAck c)
  | PPublish p => p ← Publish_Unpack p; mret (PPublish p)
  | PPubAck p => p ← PubAck_Unpack p; mret (PPubAck p)
  | PPubRec p => p ← PubRec_Unpack p; mret (PPubRec p)
  | PPubRel p => p ← PubRel_Unpack p; mret (PPubRel p)
  | PPubComp p => p ← PubComp_Unpack p; mret (PPubComp p)
  | PSubscribe s => s ← Subscribe_Unpack s; mret (PSubscribe s)
  | PSubAck s => s ← SubAck_Unpack s; mret (PSubAck s)
  | PUnsubscribe u => u ← Unsubscribe_Unpack u; mret (PUnsubscribe u)
  | PUnsubAck u => u ← UnsubAck_Unpack u; mret (PUnsubAck u)
  | PPingReq fh => mret (PPingReq fh)
  | PPingResp fh => mret (PPingResp fh)
  | PDisconnect d => d ← Disconnect_Unpack d; mret (PDisconnect d)
  | PAuth a => a ← Auth_Unpack a; mret (PAuth a)
  end.

(** ** types.go *)

(** The packet of type [t] with header [fh] and zero fields. *)
Definition blank (t : Z) (fh : FixedHeader) : option ControlPacket :=
  if t =? ConnectType then Some (PConnect (Connect_zero fh))
  else if t =? ConnAckType then Some (PConnAck (mkConnAck fh false 0 None))
  else if t =? PublishType then Some (PPublish (Publish_zero fh))
  else if t =? PubAckType then Some (PPubAck (mkAckPacket fh 0 None None))
  else if t =? PubRecType then Some (PPubRec (mkAckPacket fh 0 None None))
  else if t =? PubRelType then Some (PPubRel (mkAckPacket fh 0 None None))
  else if t =? PubCompType then Some (PPubComp (mkAckPacket fh 0 None None))
  else if t =? SubscribeType then Some (PSubscribe (mkSubscribe fh 0 None []))
  else if t =? SubAckType then Some (PSubAck (mkSubAck fh 0 None None))
  else if t =? UnsubscribeType then Some (PUnsubscribe (mkUnsubscribe fh 0 None []))
  else if t =? UnsubAckType then Some (PUnsubAck (mkSubAck fh 0 None None))
  else if t =? PingReqType then Some (PPingReq fh)
  else if t =? PingRespType then Some (PPingResp fh)
  else if t =? DisconnectType then Some (PDisconnect (mkDisconnect fh 0 None))
  else if t =? AuthType then Some (PAuth (mkAuth fh 0 None))
  else None.

(** [None] is the nil interface. *)
Definition NewControlPacket (packetType : Z) : option ControlPacket :=
  let qos := if (packetType =? PubRelType) || (packetType =? SubscribeType)
                || (packetType =? UnsubscribeType) then 1 else 0 in
  blank packetType (header_for packetType qos).

Definition NewControlPacketWithHeader (fh : FixedHeader) : outcome GoErr ControlPacket :=
  match blank (PacketType fh) fh with
  | Some cp => Ret cp
  | None => Fail (ErrUnsupportedPacketType (PacketType fh))
  end.

(** [ReadPacketLimit].  On an [Unpack] error the source also returns the
    half-filled packet next to the error; callers look at the error first. *)
Definition ReadPacketLimit (maxSize : Z) : dec ControlPacket :=
  b ← DecodeByte;
  fh ← FixedHeader_Decode b;
  if (0 <? maxSize) && (maxSize <? RemainingLength fh) then st_fail ErrPacketTooLarge
  else
    cp ← st_lift (NewControlPacketWithHeader fh);
    packetBytes ← ReadFull (Z.to_nat (RemainingLength fh));
    if negb (Z.of_nat (length packetBytes) =? RemainingLength fh)
    then st_fail ErrFailRemaining
    else st_lift (fst <$> Unpack cp (NewReader packetBytes)).

Definition ReadPacket : dec ControlPacket := ReadPacketLimit 0.

(** publish.go: [Copy]. *)
Definition Publish_Copy (p : Publish) : Publish :=
  Publish_zero (header_for PublishType 0) <| TopicName := TopicName p |> <| Payload := Payload p |>.

(** ** reset.go *)

Definition Publish_Reset (p : Publish) : Publish :=
  p <| PublishHeader := header_for PublishType 0 |> <| PublishID := 0 |>
    <| TopicName := EmptyString |> <| PublishProps := None |> <| Payload := [] |>
    <| PayloadRef := None |>.

Definition Reset (cp : ControlPacket) : ControlPacket :=
  match cp with
  | PConnect _ =>
      PConnect (mkConnect (header_for ConnectType 0) EmptyString 0 false false false 0 false
                  false 0 0 None EmptyString None EmptyString [] EmptyString [])
  | PConnAck _ => PConnAck (mkConnAck (header_for ConnAckType 0) false 0 None)
  | PPublish p => PPublish (Publish_Reset p)
  | PPubAck _ => PPubAck (mkAckPacket (header_for PubAckType 0) 0 None None)
  | PPubRec _ => PPubRec (mkAckPacket (header_for PubRecType 0) 0 None None)
  | PPubRel _ => PPubRel (mkAckPacket (header_for PubRelType 1) 0 None None)
  | PPubComp _ => PPubComp (mkAckPacket (header_for PubCompType 0) 0 None None)
  | PSubscribe s => PSubscribe (mkSubscribe (header_for SubscribeType 1) 0 None (take 0 (Opts s)))
  | PSubAck _ => PSubAck (mkSubAck (header_for SubAckType 0) 0 None None)
  | PUnsubscribe u =>
      PUnsubscribe (mkUnsubscribe (header_for UnsubscribeType 1) 0 None (take 0 (Topics u)))
  | PUnsubAck _ => PUnsubAck (mkSubAck (header_for UnsubAckType 0) 0 None None)
  | PPingReq _ => PPingReq (header_for PingReqType 0)
  | PPingResp _ => PPingResp (header_for PingRespType 0)
  | PDisconnect _ => PDisconnect (mkDisconnect (header_for DisconnectType 0) 0 None)
  | PAuth _ => PAuth (mkAuth (header_for AuthType 0) 0 None)
  end.

(** ** pool.go

    [sync.Pool] hands out any packet that was put in, or a new one. *)

Definition publishPool_New : Publish :=
  Publish_zero (mkFixedHeader 0 false 0 false 0) <| PublishProps := Some PublishProperties_zero |>.

(** [AcquirePublish] on the packet the pool hands out. *)
Definition AcquirePublish (got : Publish) : Publish :=
  match PublishProps got with
  | None => got <| PublishProps := Some PublishProperties_zero |>
  | Some _ => got
  end.

(** [ReleasePublish]: the payload reference it drops and the packet it puts into
    the pool; [None] is the nil packet. *)
Definition ReleasePublish (po : option Publish) : option (option nat * Publish) :=
  match po with
  | None => None
  | Some p =>
      let released := PayloadRef p in
      let props := PublishProps p in
      let p := Publish_Reset p in
      Some (released,
            match props with
            | Some pp => p <| PublishProps := Some (ResetPublishProperties pp) |>
            | None => p <| PublishProps := Some PublishProperties_zero |>
            end)
  end.

(** ** zerocopy.go *)

(** [if propLen > 0 { propData := r.ReadN(propLen); p.unpackBytes(propData) }]. *)
Definition ReadPropertiesBytes {P} (unpackBytes : list byte → outcome GoErr P) (old : option P) :
    zdec (option P) :=
  propLen ← ReadVBI;
  if 0 <? propLen then
    propData ← ReadN propLen;
    p ← st_lift (unpackBytes propData);
    mret (Some p)
  else mret old.

Definition Publish_UnpackBytes (p : Publish) (data : list byte) : outcome GoErr Publish :=
  fst <$> (
    (topicBytes ← ReadBytesNoCopy;
     id ← (if 0 <? QoS (PublishHeader p) then ReadUint16 else mret (PublishID p));
     props ← ReadPropertiesBytes (PublishProperties_unpackBytes PublishProperties_zero)
                                 (PublishProps p);
     payload ← ReadRemaining;
     mret (mkPublish (PublishHeader p) id (string_of topicBytes) props (PayloadRef p) payload))
    : zdec Publish) (NewZeroCopyReader data).

Definition Connect_UnpackBytes (c : Connect) (data : list byte) : outcome GoErr Connect :=
  fst <$> (
    (protocolName ← ReadString;
     protocolVersion ← ReadByte;
     opts_b ← ReadByte;
     let opts := b2z opts_b in
     let reservedBit := Z.land 1 opts in
     let cleanStart := 0 <? Z.land 1 (Z.shiftr opts 1) in
     let willFlag := 0 <? Z.land 1 (Z.shiftr opts 2) in
     let willQoS := Z.land 3 (Z.shiftr opts 3) in
     let willRetain := 0 <? Z.land 1 (Z.shiftr opts 5) in
     let passwordFlag := 0 <? Z.land 1 (Z.shiftr opts 6) in
     let usernameFlag := 0 <? Z.land 1 (Z.shiftr opts 7) in
     keepAlive ← ReadUint16;
     properties ← ReadPropertiesBytes (ConnectProperties_unpackBytes ConnectProperties_zero)
                                      (ConnectProps c);
     clientID ← ReadString;
     '(willProps, willTopic, willPayload) ←
       (if willFlag then
          p ← ReadPropertiesBytes (WillProperties_unpackBytes WillProperties_zero) (WillProps c);
          t ← ReadString; m ← ReadBytesNoCopy; mret (p, t, m)
        else mret (WillProps c, WillTopic c, WillPayload c));
     username ← (if usernameFlag then ReadString else mret (Username c));
     password ← (if passwordFlag then ReadBytesNoCopy else mret (Password c));
     mret (mkConnect (ConnectHeader c) protocolName (b2z protocolVersion) usernameFlag
             passwordFlag willRetain willQoS willFlag cleanStart reservedBit keepAlive
             properties clientID willProps willTopic willPayload username password))
    : zdec Connect) (NewZeroCopyReader data).

(** The options are not validated here. *)
Definition SubOption_of_flags (topic : string) (flags : Z) : SubOption :=
  mkSubOption topic (Some (Z.land (Z.shiftr flags 4) 0x03))
    (Some (negb (Z.land flags (Z.shiftl 1 2) =? 0)))
    (Some (negb (Z.land flags (Z.shiftl 1 3) =? 0))) (Z.land flags 0x03).

Fixpoint Subscribe_opts_z (fuel : nat) (opts : list SubOption) : zdec (list SubOption) := λ r,
  match fuel with
  | O => Panic
  | S fuel =>
      if Remaining r <=? 0 then Ret (opts, r)
      else (topic ← ReadString;
            flags ← ReadByte;
            Subscribe_opts_z fuel (opts ++ [SubOption_of_flags topic (b2z flags)])) r
  end.

Definition Subscribe_UnpackBytes (s : Subscribe) (data : list byte) : outcome GoErr Subscribe :=
  fst <$> (
    (id ← ReadUint16;
     props ← ReadPropertiesBytes (SubscribeProperties_unpackBytes SubscribeProperties_zero)
                                 (SubscribeProps s);
     opts ← Subscribe_opts_z (S (length data)) (Opts s);
     mret (mkSubscribe (SubscribeHeader s) id props opts))
    : zdec Subscribe) (NewZeroCopyReader data).

(** The type switch of [ReadPacketBytes]. *)
Definition UnpackData (cp : ControlPacket) (packetData : list byte) :
    outcome GoErr ControlPacket :=
  match cp with
  | PPublish p => PPublish <$> Publish_UnpackBytes p packetData
  | PConnect c => PConnect <$> Connect_UnpackBytes c packetData
  | PSubscribe s => PSubscribe <$> Subscribe_UnpackBytes s packetData
  | _ => fst <$> Unpack cp (as_reader (NewZeroCopyReader packetData))
  end.

(** [ReadPacketBytes]: the packet and the number of bytes it took. *)
Definition ReadPacketBytes (data : list byte) : outcome GoErr (ControlPacket * Z) :=
  match data with
  | b0 :: rest =>
      if Z.of_nat (length data) <? 2 then Fail ErrBufferTooShort
      else
        '(remainingLen, r) ← ReadVBI (NewZeroCopyReader rest);
        let fh := set_RemainingLength remainingLen (header_of_byte b0) in
        let headerLen := 1 + Offset r in
        let totalLen := headerLen + remainingLen in
        if Z.of_nat (length data) <? totalLen then Fail ErrBufferTooShort
        else
          cp ← NewControlPacketWithHeader fh;
          match slice data headerLen totalLen with
          | None => Panic
          | Some packetData =>
              cp ← UnpackData cp packetData;
              mret (cp, totalLen)
          end
  | [] => Fail ErrBufferTooShort
  end.

End V5.

(** * Properties *)

Import V5.

(** ** Property blocks *)

(** The bytes of a block: the length of the list, then the list. *)
Definition block (props : option (list byte)) : list byte :=
  let bs := default [] props in vbi_digits 4 (Z.of_nat (length bs)) ++ bs.

Lemma EncodeProperties_block props pb :
  EncodeProperties props = Ret pb → Z.of_nat (length pb) < 2 ^ 28 →
  pb = block props ∧ vbi_ok (Z.of_nat (length (default [] props))).
Proof.
  destruct props as [bs|]; cbn [EncodeProperties default from_option].
  2: { intros [= <-] _. split; [done|]. unfold vbi_ok. simpl. lia. }
  destruct (EncodeVBI _) as [ds| |] eqn:E; [|done..]. unfold mbind, outcome_bind, mret, outcome_ret.
  assert (Hl : (if 0 <? Z.of_nat (length bs) then bs else []) = bs) by (by destruct bs).
  rewrite Hl. intros [= <-] Hlt. rewrite length_app in Hlt.
  assert (Hok : vbi_ok (Z.of_nat (length bs))) by (unfold vbi_ok; lia).
  rewrite EncodeVBI_ok in E by done. injection E as <-. done.
Qed.

(** What the reader makes of a block: a list without entries is none. *)
Definition norm_props {P} (enc : P → list byte) (o : option P) : option P :=
  p ← o; if decide (enc p = []) then None else Some p.

Lemma ReadProperties_block {P} (step : Z → P → dec P) zero (enc : P → list byte) o rest e :
  (∀ p, o = Some p → unpacks step zero (enc p) p) →
  vbi_ok (Z.of_nat (length (default [] (enc <$> o)))) →
  ReadProperties (Unpack_props step zero) None (mkReader (block (enc <$> o) ++ rest) e) =
  Ret (norm_props enc o, mkReader rest e).
Proof.
  intros Hu Hok. unfold ReadProperties, block. unfold mbind at 1, ST_bind at 1.
  rewrite <-app_assoc, DecodeVBI_digits by done.
  destruct o as [p|]; [|done]. cbn [fmap option_fmap option_map default from_option id] in *.
  change (norm_props enc (Some p)) with (if decide (enc p = []) then None else Some p).
  destruct (decide (enc p = [])) as [->|Hne].
  - done.
  - rewrite (proj2 (Z.eqb_neq _ 0)) by (destruct (enc p); simpl; [done|lia]).
    rewrite Nat2Z.id. unfold mbind at 1, ST_bind at 1.
    assert (Hr : Read (length (enc p)) (mkReader (enc p ++ rest) e) = Ret (enc p, mkReader rest e)).
    { unfold Read. cbn [rbuf rend]. destruct (enc p ++ rest) eqn:E.
      { by apply app_eq_nil in E as [? _]. }
      rewrite <-E, take_app_length, drop_app_length, Nat.sub_diag. by rewrite app_nil_r. }
    rewrite Hr. unfold mbind, ST_bind, st_lift.
    specialize (Hu p eq_refl []). rewrite app_nil_r in Hu. unfold NewReader. rewrite Hu.
    by rewrite Unpack_props_nil.
Qed.

(** ** Well-formed packets *)

Definition props_ok {P} (ok : P → Prop) (o : option P) : Prop := ∀ p, o = Some p → ok p.

Definition opt_wf (s : SubOption) : Prop :=
  str_ok (Topic s) ∧ 0 <= MaxQoS s <= 2 ∧ opt_ok (λ rh, 0 <= rh <= 2) (RetainHandling s).

Definition ack_ok (p : AckPacket) : Prop :=
  u16_ok (AckID p) ∧ opt_ok u8_ok (AckReasonCode p) ∧ props_ok BasicProperties_ok (AckProps p).

(** Fields are in the range of their Go types, strings fit their length
    prefix, and a field that is not on the wire has its zero value.  An
    UNSUBSCRIBE has no user properties: its encoder does not write them in the
    format of the protocol. *)
Definition fields_ok (cp : ControlPacket) : Prop :=
  match cp with
  | PConnect c =>
      str_ok (ProtocolName c) ∧ u8_ok (ProtocolVersion c) ∧ 0 <= WillQoS c <= 3 ∧
      ReservedBit c = 0 ∧ u16_ok (KeepAlive c) ∧
      props_ok ConnectProperties_ok (ConnectProps c) ∧ str_ok (ClientID c) ∧
      (if WillFlag c
       then props_ok WillProperties_ok (WillProps c) ∧ str_ok (WillTopic c) ∧ bin_ok (WillPayload c)
       else WillProps c = None ∧ WillTopic c = EmptyString ∧ WillPayload c = []) ∧
      (if UsernameFlag c then str_ok (Username c) else Username c = EmptyString) ∧
      (if PasswordFlag c then bin_ok (Password c) else Password c = [])
  | PConnAck c => u8_ok (ConnAckReasonCode c) ∧ props_ok ConnAckProperties_ok (ConnAckProps c)
  | PPublish p =>
      str_ok (TopicName p) ∧ PayloadRef p = None ∧
      (if 0 <? QoS (PublishHeader p) then u16_ok (PublishID p) else PublishID p = 0) ∧
      props_ok PublishProperties_ok (PublishProps p)
  | PPubAck p | PPubRec p | PPubRel p | PPubComp p => ack_ok p
  | PSubscribe s =>
      u16_ok (SubscribeID s) ∧ props_ok SubscribeProperties_ok (SubscribeProps s) ∧
      Forall opt_wf (Opts s)
  | PSubAck s | PUnsubAck s =>
      u16_ok (SubAckID s) ∧ props_ok BasicProperties_ok (SubAckProps s)
  | PUnsubscribe u =>
      u16_ok (UnsubscribeID u) ∧ props_ok (λ p, UP_User p = []) (UnsubscribeProps u) ∧
      Forall str_ok (Topics u)
  | PPingReq fh | PPingResp fh => RemainingLength fh = 0
  | PDisconnect d =>
      u8_ok (DisconnectReasonCode d) ∧ props_ok DisconnectProperties_ok (DisconnectProps d)
  | PAuth a => u8_ok (AuthReasonCode a) ∧ props_ok AuthProperties_ok (AuthProps a)
  end.

(** The bytes after the fixed header. *)
Definition body (cp : ControlPacket) : outcome GoErr (list byte) :=
  match cp with
  | PConnect c => Connect_body c
  | PConnAck c => ConnAck_body c
  | PPublish p =>
      mret (EncodeString (TopicName p) ++
            (if 0 <? QoS (PublishHeader p) then EncodeUint16 (PublishID p) else []) ++
            block (PublishProperties_Encode <$> PublishProps p) ++ Payload p)
  | PPubAck p => PubAck_body p
  | PPubRec p | PPubRel p | PPubComp p => minimal_body p
  | PSubscribe s => Subscribe_body s
  | PSubAck s | PUnsubAck s => SubAck_body s
  | PUnsubscribe u => Unsubscribe_body u
  | PPingReq _ | PPingResp _ => mret []
  | PDisconnect d => Disconnect_body d
  | PAuth a => Auth_body a
  end.

Definition setHeader (fh : FixedHeader) (cp : ControlPacket) : ControlPacket :=
  match cp with
  | PConnect c => PConnect (c <| ConnectHeader := fh |>)
  | PConnAck c => PConnAck (c <| ConnAckHeader := fh |>)
  | PPublish p => PPublish (p <| PublishHeader := fh |>)
  | PPubAck p => PPubAck (p <| AckHeader := fh |>)
  | PPubRec p => PPubRec (p <| AckHeader := fh |>)
  | PPubRel p => PPubRel (p <| AckHeader := fh |>)
  | PPubComp p => PPubComp (p <| AckHeader := fh |>)
  | PSubscribe s => PSubscribe (s <| SubscribeHeader := fh |>)
  | PSubAck s => PSubAck (s <| SubAckHeader := fh |>)
  | PUnsubscribe u => PUnsubscribe (u <| UnsubscribeHeader := fh |>)
  | PUnsubAck u => PUnsubAck (u <| SubAckHeader := fh |>)
  | PPingReq _ => PPingReq fh
  | PPingResp _ => PPingResp fh
  | PDisconnect d => PDisconnect (d <| DisconnectHeader := fh |>)
  | PAuth a => PAuth (a <| AuthHeader := fh |>)
  end.

(** The form in which the reader returns a packet: properties without entries are
    absent, and what the encoder fills in is present. *)
Definition norm_ack (p : AckPacket) : AckPacket :=
  p <| AckReasonCode := Some (default 0 (AckReasonCode p)) |>
    <| AckProps := norm_props BasicProperties_Encode (AckProps p) |>.

Definition norm_minimal (p : AckPacket) : AckPacket :=
  match AckProps p, AckReasonCode p with
  | Some bp, None => if decide (BasicProperties_Encode bp = [])
                     then p <| AckProps := None |> else norm_ack p
  | Some _, Some _ => norm_ack p
  | None, Some rc => if rc =? 0 then p <| AckReasonCode := None |> else p
  | None, None => p
  end.

Definition norm_opt (s : SubOption) : SubOption :=
  mkSubOption (Topic s) (Some (default 0 (RetainHandling s))) (Some (default false (NoLocal s)))
    (Some (default false (RetainAsPublished s))) (MaxQoS s).

Definition subscribe_props_bytes (sp : SubscribeProperties) : list byte :=
  opt_field SubscriptionIdentifierProp (vbi_digits 4) (SP_SubscriptionIdentifier sp) ++
  user_fields (SP_User sp).

Definition norm (cp : ControlPacket) : ControlPacket :=
  match cp with
  | PConnect c =>
      PConnect (c <| ConnectProps := norm_props ConnectProperties_Encode (ConnectProps c) |>
                  <| WillProps := norm_props WillProperties_Encode (WillProps c) |>)
  | PConnAck c =>
      PConnAck (c <| ConnAckProps := norm_props ConnAckProperties_Encode (ConnAckProps c) |>)
  | PPublish p =>
      PPublish (p <| PublishProps := norm_props PublishProperties_Encode (PublishProps p) |>)
  | PPubAck p => PPubAck (norm_ack p)
  | PPubRec p => PPubRec (norm_minimal p)
  | PPubRel p => PPubRel (norm_minimal p)
  | PPubComp p => PPubComp (norm_minimal p)
  | PSubscribe s =>
      PSubscribe (s <| SubscribeProps := norm_props subscribe_props_bytes (SubscribeProps s) |>
                    <| Opts := norm_opt <$> Opts s |>)
  | PSubAck s =>
      PSubAck (s <| SubAckProps := norm_props BasicProperties_Encode (SubAckProps s) |>
                 <| ReasonCodes := Some (default [] (ReasonCodes s)) |>)
  | PUnsubscribe u => PUnsubscribe (u <| UnsubscribeProps := None |>)
  | PUnsubAck s =>
      PUnsubAck (s <| SubAckProps := norm_props BasicProperties_Encode (SubAckProps s) |>
                   <| ReasonCodes := Some (default [] (ReasonCodes s)) |>)
  | PPingReq _ | PPingResp _ => cp
  | PDisconnect d =>
      PDisconnect (d <| DisconnectProps :=
                          norm_props DisconnectProperties_Encode (DisconnectProps d) |>)
  | PAuth a => PAuth (a <| AuthProps := norm_props AuthProperties_Encode (AuthProps a) |>)
  end.

(** The packets that already have this form. *)
Definition props_full {P} (enc : P → list byte) (o : option P) : Prop := ∀ p, o = Some p → enc p ≠ [].

Definition minimal_form (p : AckPacket) : Prop :=
  props_full BasicProperties_Encode (AckProps p) ∧
  match AckProps p with Some _ => is_Some (AckReasonCode p) | None => AckReasonCode p ≠ Some 0 end.

Definition reader_form (cp : ControlPacket) : Prop :=
  match cp with
  | PConnect c => props_full ConnectProperties_Encode (ConnectProps c) ∧
                  props_full WillProperties_Encode (WillProps c)
  | PConnAck c => props_full ConnAckProperties_Encode (ConnAckProps c)
  | PPublish p => props_full PublishProperties_Encode (PublishProps p)
  | PPubAck p => props_full BasicProperties_Encode (AckProps p) ∧ is_Some (AckReasonCode p)
  | PPubRec p | PPubRel p | PPubComp p => minimal_form p
  | PSubscribe s => props_full subscribe_props_bytes (SubscribeProps s) ∧
      Forall (λ o, is_Some (RetainHandling o) ∧ is_Some (NoLocal o) ∧ is_Some (RetainAsPublished o)) (Opts s)
  | PSubAck s | PUnsubAck s => props_full BasicProperties_Encode (SubAckProps s) ∧ is_Some (ReasonCodes s)
  | PUnsubscribe u => UnsubscribeProps u = None
  | PPingReq _ | PPingResp _ => True
  | PDisconnect d => props_full DisconnectProperties_Encode (DisconnectProps d)
  | PAuth a => props_full AuthProperties_Encode (AuthProps a)
  end.

Lemma norm_props_full {P} (enc : P → list byte) o : props_full enc o → norm_props enc o = o.
Proof. destruct o as [p|]; [|done]. intros H. cbn. rewrite decide_False; [done|by apply H]. Qed.

Lemma norm_minimal_form p : minimal_form p → norm_minimal p = p.
Proof.
  destruct p as [fh id rc [bp|]]; intros [Hp Hr]; cbn in Hr.
  - destruct Hr as [v ->]. unfold norm_minimal, norm_ack. cbn. by rewrite decide_False by (by apply Hp).
  - unfold norm_minimal. cbn. destruct rc as [v|]; [|done].
    rewrite (proj2 (Z.eqb_neq v 0)); [done|]. intros ->. by apply Hr.
Qed.

Lemma norm_opts os :
  Forall (λ o, is_Some (RetainHandling o) ∧ is_Some (NoLocal o) ∧ is_Some (RetainAsPublished o)) os →
  norm_opt <$> os = os.
Proof.
  induction 1 as [|o os ([? E1] & [? E2] & [? E3]) _ IH]; [done|]. cbn. rewrite IH.
  unfold norm_opt. rewrite E1, E2, E3. destruct o; cbn in *. by subst.
Qed.

Lemma norm_reader_form cp : reader_form cp → norm cp = cp.
Proof.
  destruct cp as [c|c|p|p|p|p|p|s|s|u|u|fh|fh|d|a]; cbn [reader_form norm]; intros H; try done;
    f_equal; try (by apply norm_minimal_form).
  - destruct H. rewrite !norm_props_full by done. by destruct c.
  - rewrite norm_props_full by done. by destruct c.
  - rewrite norm_props_full by done. by destruct p.
  - destruct H as [H [v E]]. unfold norm_ack. rewrite norm_props_full, E by done. destruct p. cbn in E. by subst.
  - destruct H. rewrite norm_props_full, norm_opts by done. by destruct s.
  - destruct H as [H [v E]]. rewrite norm_props_full, E by done. destruct s. cbn in E. by subst.
  - destruct u. cbn in H. by subst.
  - destruct H as [H [v E]]. rewrite norm_props_full, E by done. destruct u. cbn in E. by subst.
  - rewrite norm_props_full by done. by destruct d.
  - rewrite norm_props_full by done. by destruct a.
Qed.

(** [cp] is well formed and [b] is its body. *)
Definition packet_wf5 (cp : ControlPacket) (b : list byte) : Prop :=
  fields_ok cp ∧ PacketType (Header cp) = Type_ cp ∧ body cp = Ret b ∧
  header_wf (set_RemainingLength (Z.of_nat (length b)) (Header cp)).

(** The packet with the length of its body stored. *)
Definition stamp (b : list byte) (cp : ControlPacket) : ControlPacket :=
  setHeader (set_RemainingLength (Z.of_nat (length b)) (Header cp)) cp.

(** ** Encoding *)

Lemma encodedLen_Encode po : props_ok PublishProperties_ok po →
  match po with Some pp => PublishProperties_encodedLen (Some pp) | None => 0 end =
  Z.of_nat (length (default [] (PublishProperties_Encode <$> po))).
Proof.
  intros Hp. destruct po as [pp|]; [|done]. cbn [fmap option_fmap option_map default from_option id].
  unfold PublishProperties_Encode. destruct (encodedLen_lengths pp []) as [H _].
  rewrite H; [simpl length; lia|]. intros v Hv. destruct (Hp pp eq_refl) as (_ & _ & _ & _ & _ & _ & Hs & _).
  specialize (Hs v Hv). unfold vbi_ok, u32_ok in *. lia.
Qed.

Lemma vbi_digits_5 n : 0 <= n < 2 ^ 28 → vbi_digits 5 n = vbi_digits 4 n.
Proof. intros Hn. apply vbi_digits_more; simpl; lia. Qed.

Lemma Publish_props_appended dst po :
  (if 0 <? Z.of_nat (length (default [] (PublishProperties_Encode <$> po))) then
     match po with Some pp => mret (PublishProperties_EncodeTo dst pp) | None => Panic end
   else mret dst) = Ret (E := GoErr) (dst ++ default [] (PublishProperties_Encode <$> po)).
Proof.
  destruct po as [pp|]; [|by rewrite app_nil_r].
  cbn [fmap option_fmap option_map default from_option id]. unfold PublishProperties_Encode.
  rewrite !PublishProperties_EncodeTo_fields, app_nil_l.
  destruct (publish_fields _ _); [by rewrite app_nil_r|done].
Qed.

Lemma Publish_Encode_eq p b :
  props_ok PublishProperties_ok (PublishProps p) → body (PPublish p) = Ret b →
  Z.of_nat (length b) < 2 ^ 28 →
  Publish_Encode p =
  Ret (flags_byte (PublishHeader p) :: vbi_digits 4 (Z.of_nat (length b)) ++ b,
       p <| PublishHeader := set_RemainingLength (Z.of_nat (length b)) (PublishHeader p) |>).
Proof.
  intros Hp Hb Hl. cbn [body] in Hb. apply Ret_inj in Hb. unfold Publish_Encode, Publish_EncodeTo.
  rewrite encodedLen_Encode by done. unfold block in Hb.
  set (props := default [] (PublishProperties_Encode <$> PublishProps p)) in *.
  pose proof (f_equal length Hb) as Hlen. rewrite !length_app, EncodeString_length in Hlen.
  assert (Hn : 0 <= Z.of_nat (length props) < 2 ^ 28) by lia.
  set (rl := (if 0 <? QoS (PublishHeader p) then _ else _) + _).
  assert (Hrl : rl = Z.of_nat (length b)).
  { unfold rl. rewrite vbiLen_digits, vbi_digits_5 by lia.
    destruct (0 <? _); cbn [length EncodeUint16] in Hlen; lia. }
  rewrite Hrl. clear rl Hrl. cbn [QoS set_RemainingLength]. unfold props.
  rewrite Publish_props_appended. fold props. unfold mbind, outcome_bind, mret, outcome_ret.
  rewrite !appendVBI5_digits, !vbi_digits_5, appendString_eq by lia.
  do 2 f_equal. rewrite <-Hb. unfold appendUint16.
  destruct (0 <? _); rewrite <-!app_assoc; done.
Qed.

Lemma Encode_body5 cp b : packet_wf5 cp b →
  Encode cp = Ret (flags_byte (Header cp) :: vbi_digits 4 (Z.of_nat (length b)) ++ b, stamp b cp).
Proof.
  intros (Hok & _ & Hb & Hh). destruct cp; cbn [Encode];
    try (unfold Connect_Encode, ConnAck_Encode, PubAck_Encode, PubRec_Encode, PubRel_Encode,
           PubComp_Encode, UnsubAck_Encode, Subscribe_Encode, SubAck_Encode, Unsubscribe_Encode,
           Disconnect_Encode, Auth_Encode;
         cbn [Header body] in Hh, Hb; rewrite Hb; unfold mbind, outcome_bind; cbn zeta;
         rewrite with_header_body by exact Hh; done).
  - destruct Hok as (_ & _ & _ & Hp). destruct Hh as (_ & _ & Hl).
    by rewrite (Publish_Encode_eq p b Hp Hb) by apply Hl.
  - injection Hb as <-. destruct fh as [pt d q rt n]. simpl in Hok. subst n.
    unfold PingReq_Encode. by rewrite FixedHeader_Encode_wf by exact Hh.
  - injection Hb as <-. destruct fh as [pt d q rt n]. simpl in Hok. subst n.
    unfold PingResp_Encode. by rewrite FixedHeader_Encode_wf by exact Hh.
Qed.

(** ** Decoding *)

Lemma ReadProperties_block_end {P} (step : Z → P → dec P) zero (enc : P → list byte) o e :
  (∀ p, o = Some p → unpacks step zero (enc p) p) →
  vbi_ok (Z.of_nat (length (default [] (enc <$> o)))) →
  ReadProperties (Unpack_props step zero) None (mkReader (block (enc <$> o)) e) =
  Ret (norm_props enc o, mkReader [] e).
Proof.
  intros Hu Hok. rewrite <-(app_nil_r (block _)). by apply ReadProperties_block.
Qed.

(** Take the property block out of a body [Hb], with what [Hl] says of its length. *)
Ltac body_block Hb Hl :=
  match type of Hb with
  | context [EncodeProperties ?o] =>
      let pb := fresh "pb" in let E := fresh "E" in let Hok := fresh "Hblock" in
      destruct (EncodeProperties o) as [pb| |] eqn:E; [|done..];
      unfold mbind at 1, outcome_bind at 1 in Hb;
      assert (Hok : Z.of_nat (length pb) < 2 ^ 28);
      [ apply Ret_inj in Hb; rewrite <-Hb in Hl; rewrite !length_app in Hl; lia
      | apply (EncodeProperties_block _ _ E) in Hok as [-> Hok]; clear E ]
  end.

(** Read the property block; [L] reads the list back, [Hp] says it is well formed. *)
Ltac props_step L Hp :=
  unfold ConnectProperties_Unpack, WillProperties_Unpack, ConnAckProperties_Unpack,
    AuthProperties_Unpack, DisconnectProperties_Unpack, SubscribeProperties_Unpack,
    PublishProperties_Unpack, BasicProperties_Unpack; unfold mbind, ST_bind, mret, ST_ret;
  cbn [ConnectProps WillProps ConnAckProps AuthProps DisconnectProps SubscribeProps PublishProps
       SubAckProps Publish_zero Connect_zero];
  first [rewrite ReadProperties_block by (done || (intros; by apply L, Hp))
        |rewrite ReadProperties_block_end by (done || (intros; by apply L, Hp))].

Lemma ConnAck_Unpack_body5 c fh b e : fields_ok (PConnAck c) → ConnAck_body c = Ret b →
  Z.of_nat (length b) < 2 ^ 28 →
  ConnAck_Unpack (mkConnAck fh false 0 None) (mkReader b e) =
  Ret (mkConnAck fh (SessionPresent c) (ConnAckReasonCode c)
         (norm_props ConnAckProperties_Encode (ConnAckProps c)), mkReader [] e).
Proof.
  intros [Hr Hp] Hb Hl. unfold ConnAck_body in Hb. body_block Hb Hl. apply Ret_inj in Hb as <-.
  unfold ConnAck_Unpack. cbn [app]. do 2 dec_step.
  props_step ConnAckProperties_unpacks Hp.
  unfold mret, ST_ret. rewrite (b2z_z2b_small (ConnAckReasonCode c)) by done.
  by destruct (SessionPresent c).
Qed.

Lemma Auth_Unpack_body5 a fh b e : fields_ok (PAuth a) → Auth_body a = Ret b →
  Z.of_nat (length b) < 2 ^ 28 →
  Auth_Unpack (mkAuth fh 0 None) (mkReader b e) =
  Ret (mkAuth fh (AuthReasonCode a) (norm_props AuthProperties_Encode (AuthProps a)), mkReader [] e).
Proof.
  intros [Hr Hp] Hb Hl. unfold Auth_body in Hb. body_block Hb Hl. apply Ret_inj in Hb as <-.
  unfold Auth_Unpack. cbn [app]. dec_step.
  props_step AuthProperties_unpacks Hp.
  unfold mret, ST_ret. by rewrite (b2z_z2b_small (AuthReasonCode a)) by done.
Qed.

Lemma or_eof_ret {A B} (m : dec A) (b : B) k r a r' : m r = Ret (a, r') → or_eof m b k r = k a r'.
Proof. intros H. unfold or_eof. by rewrite H. Qed.
Lemma or_eof_eof {A B} (m : dec A) (b : B) k r : m r = Fail EOF →
  or_eof m b k r = Ret (b, mkReader [] (rend r)).
Proof. intros H. unfold or_eof. by rewrite H. Qed.

Lemma Disconnect_Unpack_body5 d fh b e : fields_ok (PDisconnect d) → Disconnect_body d = Ret b →
  Z.of_nat (length b) < 2 ^ 28 →
  Disconnect_Unpack (mkDisconnect fh 0 None) (mkReader b e) =
  Ret (mkDisconnect fh (DisconnectReasonCode d)
         (norm_props DisconnectProperties_Encode (DisconnectProps d)), mkReader [] e).
Proof.
  intros [Hr Hp] Hb Hl. unfold Disconnect_body in Hb. body_block Hb Hl. apply Ret_inj in Hb as <-.
  unfold Disconnect_Unpack. cbn [app].
  rewrite (or_eof_ret _ _ _ _ _ _ (DecodeByte_cons _ _ _)). unfold mbind, ST_bind.
  props_step DisconnectProperties_unpacks Hp.
  unfold mret, ST_ret. by rewrite (b2z_z2b_small (DisconnectReasonCode d)) by done.
Qed.

Lemma SubAck_Unpack_body5 s fh b : fields_ok (PSubAck s) → SubAck_body s = Ret b →
  Z.of_nat (length b) < 2 ^ 28 →
  SubAck_Unpack (mkSubAck fh 0 None None) (NewReader b) =
  Ret (mkSubAck fh (SubAckID s) (norm_props BasicProperties_Encode (SubAckProps s))
         (Some (default [] (ReasonCodes s))), NewReader []).
Proof.
  intros [Hi Hp] Hb Hl. unfold SubAck_body in Hb. body_block Hb Hl. apply Ret_inj in Hb as <-.
  unfold SubAck_Unpack, NewReader. dec_step.
  props_step BasicProperties_unpacks Hp.
  unfold ReadAll, mret, ST_ret. simpl. by destruct (ReasonCodes s).
Qed.

(** The acknowledgements: the property block at the end of the packet. *)
Lemma PubAck_Unpack_block p fh rc e :
  ack_ok p → u8_ok rc → vbi_ok (Z.of_nat (length (default [] (BasicProperties_Encode <$> AckProps p)))) →
  PubAck_Unpack (mkAckPacket fh 0 None None)
    (mkReader (EncodeUint16 (AckID p) ++ z2b rc :: block (BasicProperties_Encode <$> AckProps p)) e) =
  Ret (mkAckPacket fh (AckID p) (Some rc) (norm_props BasicProperties_Encode (AckProps p)),
       mkReader [] e).
Proof.
  intros (Hi & _ & Hp) Hrc Hok. unfold PubAck_Unpack. dec_step.
  rewrite (or_eof_ret _ _ _ _ _ _ (DecodeByte_cons _ _ _)).
  rewrite b2z_z2b_small by done.
  pose proof (ReadProperties_block_end BasicProperties_step BasicProperties_zero
    BasicProperties_Encode (AckProps p) e) as H. unfold ReadProperties, mbind, ST_bind in H.
  unfold block in *. rewrite DecodeVBI_digits in H by done.
  erewrite or_eof_ret by (by apply DecodeVBI_digits).
  specialize (H (λ bp Hbp, BasicProperties_unpacks bp (Hp bp Hbp)) Hok).
  destruct (_ =? 0).
  - apply Ret_inj, pair_equal_spec in H as [<- ->]. done.
  - unfold mbind, ST_bind. destruct (Read _ _) as [[buf r1]| |]; [|done..].
    unfold BasicProperties_Unpack. destruct (st_lift _ r1) as [[bp r2]| |]; [|done..].
    apply Ret_inj, pair_equal_spec in H as [<- ->]. done.
Qed.

Lemma default_ok o : opt_ok u8_ok o → u8_ok (default 0 o).
Proof. intros H. destruct o as [v|]; [by apply H|unfold u8_ok; simpl; lia]. Qed.

Lemma reason_byte o : match o with Some rc => [z2b rc] | None => [x00] end = [z2b (default 0 o)].
Proof. by destruct o. Qed.

Lemma PubAck_Unpack_body5 p fh b e : ack_ok p → PubAck_body p = Ret b →
  Z.of_nat (length b) < 2 ^ 28 →
  PubAck_Unpack (mkAckPacket fh 0 None None) (mkReader b e) =
  Ret (norm_ack p <| AckHeader := fh |>, mkReader [] e).
Proof.
  intros Hok Hb Hl. unfold PubAck_body in Hb. rewrite reason_byte in Hb. body_block Hb Hl.
  apply Ret_inj in Hb as <-. cbn [app].
  rewrite PubAck_Unpack_block by (done || by apply default_ok, Hok). done.
Qed.

Lemma DecodeByte_eof : DecodeByte (mkReader [] EOF) = Fail EOF.
Proof. done. Qed.
Lemma DecodeVBI_eof : DecodeVBI (mkReader [] EOF) = Fail EOF.
Proof. done. Qed.

(** The three formats, by remaining length. *)
Lemma minimal_body_cases p b : ack_ok p → minimal_body p = Ret b → Z.of_nat (length b) < 2 ^ 28 →
  let id := EncodeUint16 (AckID p) in
  let props := BasicProperties_Encode <$> AckProps p in
  b = id ∧ norm_minimal p = mkAckPacket (AckHeader p) (AckID p) None None ∨
  ∃ rc, u8_ok rc ∧
    (b = id ++ [z2b rc] ∧ norm_minimal p = mkAckPacket (AckHeader p) (AckID p) (Some rc) None ∨
     b = id ++ z2b rc :: block props ∧ vbi_ok (Z.of_nat (length (default [] props))) ∧
     norm_minimal p = mkAckPacket (AckHeader p) (AckID p) (Some rc)
                        (norm_props BasicProperties_Encode (AckProps p))).
Proof.
  intros (Hi & Hrc & Hp) Hb Hl id props. unfold minimal_body in Hb. fold id in Hb.
  assert (Hfull : ∀ rc bp, AckProps p = Some bp →
    (vbi ← EncodeVBI (Z.of_nat (length (BasicProperties_Encode bp)));
     mret ((id ++ [z2b rc]) ++ vbi ++ BasicProperties_Encode bp)) = Ret b →
    b = id ++ z2b rc :: block props ∧ vbi_ok (Z.of_nat (length (default [] props)))).
  { intros rc bp Hbp Hb'. destruct (EncodeVBI _) as [ds| |] eqn:E; [|done..].
    apply Ret_inj in Hb' as <-. rewrite !length_app in Hl.
    assert (Hok : vbi_ok (Z.of_nat (length (BasicProperties_Encode bp)))) by (unfold vbi_ok; lia).
    rewrite EncodeVBI_ok in E by done. injection E as <-. unfold props, block. rewrite Hbp.
    by rewrite <-app_assoc. }
  unfold norm_minimal, norm_ack. destruct (AckProps p) as [bp|] eqn:Ep.
  - rewrite reason_byte in Hb. destruct (AckReasonCode p) as [rc|] eqn:Er.
    + right. rewrite (bool_decide_true (is_Some (Some rc))), orb_true_r in Hb by done.
      exists rc. split; [by apply Hrc|]. right. destruct (Hfull rc bp eq_refl Hb). done.
    + rewrite (bool_decide_false (is_Some None)), orb_false_r in Hb by (by intros []).
      case_decide as Hd.
      * rewrite Hd in Hb. apply Ret_inj in Hb as <-. left. destruct p; simpl in *. by subst.
      * right. exists 0. split; [unfold u8_ok; lia|]. right.
        rewrite (proj2 (Z.ltb_lt 0 _)) in Hb
          by (destruct (BasicProperties_Encode bp); [done|simpl; lia]).
        destruct (Hfull 0 bp eq_refl Hb). done.
  - destruct (AckReasonCode p) as [rc|] eqn:Er.
    + destruct (rc =? 0); cbn [negb] in Hb; apply Ret_inj in Hb as <-.
      * left. destruct p; simpl in *. by subst.
      * right. exists rc. split; [by apply Hrc|]. left. destruct p; simpl in *. by subst.
    + apply Ret_inj in Hb as <-. left. destruct p; simpl in *. by subst.
Qed.

Lemma minimal_Unpack_body5 p fh b : ack_ok p → minimal_body p = Ret b →
  Z.of_nat (length b) < 2 ^ 28 →
  PubAck_Unpack (mkAckPacket fh 0 None None) (NewReader b) =
  Ret (norm_minimal p <| AckHeader := fh |>, NewReader []).
Proof.
  intros Hok Hb Hl. pose proof Hok as (Hi & _).
  destruct (minimal_body_cases p b Hok Hb Hl) as [[-> ->]|(rc & Hrc & [[-> ->]|(-> & Hv & ->)])].
  - unfold PubAck_Unpack, NewReader, mbind, ST_bind. rewrite DecodeUint16_Encode' by done.
    by rewrite or_eof_eof.
  - unfold PubAck_Unpack, NewReader. dec_step.
    rewrite (or_eof_ret _ _ _ _ _ _ (DecodeByte_cons _ _ _)), or_eof_eof by done.
    by rewrite b2z_z2b_small.
  - by apply PubAck_Unpack_block.
Qed.

Lemma Publish_Unpack_body5 p fh b : fields_ok (PPublish p) → body (PPublish p) = Ret b →
  Z.of_nat (length b) < 2 ^ 28 → QoS fh = QoS (PublishHeader p) →
  Publish_Unpack (Publish_zero fh) (NewReader b) =
  Ret (mkPublish fh (PublishID p) (TopicName p)
         (norm_props PublishProperties_Encode (PublishProps p)) (PayloadRef p) (Payload p),
       NewReader []).
Proof.
  intros (Ht & Hr & Hi & Hp) Hb Hl Hq. cbn [body] in Hb. apply Ret_inj in Hb as <-.
  assert (Hok : vbi_ok (Z.of_nat (length (default [] (PublishProperties_Encode <$> PublishProps p))))).
  { unfold block in Hl. rewrite !length_app in Hl. unfold vbi_ok. lia. }
  unfold Publish_Unpack, NewReader. cbn [PublishHeader PublishID PayloadRef Publish_zero].
  rewrite Hq. dec_step. destruct (0 <? _).
  - dec_step. props_step PublishProperties_unpacks Hp. unfold ReadAll. simpl. by rewrite Hr.
  - rewrite app_nil_l. props_step PublishProperties_unpacks Hp. unfold ReadAll. simpl.
    by rewrite Hr, Hi.
Qed.

Lemma SubOption_flags_bits s : opt_wf s →
  let flags := b2z (z2b (SubOption_flags s)) in
  Z.land flags 0x03 = MaxQoS s ∧
  negb (Z.land flags (Z.shiftl 1 2) =? 0) = default false (NoLocal s) ∧
  negb (Z.land flags (Z.shiftl 1 3) =? 0) = default false (RetainAsPublished s) ∧
  Z.land (Z.shiftr flags 4) 0x03 = default 0 (RetainHandling s) ∧
  Z.land flags (Z.shiftl 1 6) = 0 ∧ Z.land flags (Z.shiftl 1 7) = 0.
Proof.
  intros (_ & Hq & Hrh). unfold SubOption_flags.
  assert (Hr : RetainHandling s = None ∨ RetainHandling s = Some 0 ∨ RetainHandling s = Some 1 ∨
               RetainHandling s = Some 2).
  { destruct (RetainHandling s) as [rh|]; [|by left]. specialize (Hrh rh eq_refl). cbn beta in Hrh.
    assert (rh = 0 ∨ rh = 1 ∨ rh = 2) as [->|[->| ->]] by lia; auto. }
  assert (MaxQoS s = 0 ∨ MaxQoS s = 1 ∨ MaxQoS s = 2) as [->|[->| ->]] by lia;
    destruct Hr as [->|[->|[->| ->]]]; destruct (NoLocal s) as [[]|], (RetainAsPublished s) as [[]|];
    vm_compute; auto 10.
Qed.

Lemma SubOption_Unpack_Encode s rest : opt_wf s →
  SubOption_Unpack (mkReader (SubOption_Encode s ++ rest) EOF) =
  Ret (norm_opt s, mkReader rest EOF).
Proof.
  intros Hs. pose proof (SubOption_flags_bits s Hs) as (F1 & F2 & F3 & F4 & F5 & F6).
  destruct Hs as (Ht & Hq & Hrh). unfold SubOption_Unpack, SubOption_Encode.
  rewrite <-app_assoc. dec_step. rewrite ReadFull_app by done. cbn beta iota zeta.
  rewrite F1, F2, F3, F4, F5, F6. rewrite (proj2 (Z.ltb_ge 2 _)) by lia.
  assert (default 0 (RetainHandling s) <= 2).
  { destruct (RetainHandling s) as [rh|]; simpl; [specialize (Hrh rh eq_refl); cbn beta in Hrh|]; lia. }
  by rewrite (proj2 (Z.ltb_ge 2 _)) by lia.
Qed.

Lemma Subscribe_opts_body os : ∀ fuel acc, Forall opt_wf os → (length os < fuel)%nat →
  Subscribe_opts fuel acc (mkReader (concat (SubOption_Encode <$> os)) EOF) =
  Ret (acc ++ (norm_opt <$> os), mkReader [] EOF).
Proof.
  induction os as [|o os IH]; intros [|fuel] acc Hf Hl; simpl in Hl; try lia.
  - cbn. by rewrite app_nil_r.
  - apply Forall_cons in Hf as [Ho Hf]. rewrite fmap_cons. cbn [Subscribe_opts concat].
    rewrite (or_eof_ret _ _ _ _ _ _ (SubOption_Unpack_Encode o _ Ho)).
    rewrite IH by (done || lia). by rewrite <-app_assoc.
Qed.

Lemma subscribe_encoded so : props_ok SubscribeProperties_ok so →
  match so with
  | Some sp => props ← SubscribeProperties_Encode sp; mret (Some props)
  | None => mret None
  end = Ret (E := GoErr) (subscribe_props_bytes <$> so).
Proof.
  intros Hp. destruct so as [sp|]; [|done].
  by rewrite SubscribeProperties_Encode_ok by (by apply Hp).
Qed.

Lemma subscribe_unpacks sp : SubscribeProperties_ok sp →
  unpacks SubscribeProperties_step SubscribeProperties_zero (subscribe_props_bytes sp) sp.
Proof.
  intros Hp. apply SubscribeProperties_unpacks; [done|by apply SubscribeProperties_Encode_ok].
Qed.

Lemma SubOption_Encode_length s : (1 ≤ length (SubOption_Encode s))%nat.
Proof. unfold SubOption_Encode. rewrite length_app, EncodeString_length. simpl. lia. Qed.

Lemma Subscribe_Unpack_body5 s fh b : fields_ok (PSubscribe s) → Subscribe_body s = Ret b →
  Z.of_nat (length b) < 2 ^ 28 →
  Subscribe_Unpack (mkSubscribe fh 0 None []) (NewReader b) =
  Ret (mkSubscribe fh (SubscribeID s) (norm_props subscribe_props_bytes (SubscribeProps s))
         (norm_opt <$> Opts s), NewReader []).
Proof.
  intros (Hi & Hp & Ho) Hb Hl. unfold Subscribe_body in Hb. rewrite subscribe_encoded in Hb by done.
  unfold mbind at 1, outcome_bind at 1 in Hb. body_block Hb Hl. apply Ret_inj in Hb as <-.
  unfold Subscribe_Unpack, NewReader. dec_step. props_step subscribe_unpacks Hp.
  cbn [rbuf Opts]. rewrite Subscribe_opts_body; [done|done|].
  apply Nat.lt_succ_r, concat_length_ge, SubOption_Encode_length.
Qed.

Lemma Unsubscribe_topics_body5 ts : ∀ fuel acc, Forall str_ok ts → (length ts < fuel)%nat →
  Unsubscribe_topics fuel acc (mkReader (concat (EncodeString <$> ts)) EOF) =
  Ret (acc ++ ts, mkReader [] EOF).
Proof.
  induction ts as [|t ts IH]; intros [|fuel] acc Hf Hl; simpl in Hl; try lia.
  - cbn. by rewrite app_nil_r.
  - apply Forall_cons in Hf as [Ht Hf]. rewrite fmap_cons. cbn [Unsubscribe_topics concat].
    unfold EncodeString at 1. erewrite or_eof_ret
      by (apply DecodeBytes_Encode; by rewrite length_bytes_of).
    rewrite IH, string_of_bytes_of by (done || lia). by rewrite <-app_assoc.
Qed.

Lemma Unsubscribe_Unpack_body5 u fh b : fields_ok (PUnsubscribe u) → Unsubscribe_body u = Ret b →
  Z.of_nat (length b) < 2 ^ 28 →
  Unsubscribe_Unpack (mkUnsubscribe fh 0 None []) (NewReader b) =
  Ret (mkUnsubscribe fh (UnsubscribeID u) None (Topics u), NewReader []).
Proof.
  intros (Hi & Hp & Ht) Hb Hl. unfold Unsubscribe_body in Hb. body_block Hb Hl.
  apply Ret_inj in Hb as <-.
  assert (He : block (UnsubscribeProperties_Encode <$> UnsubscribeProps u) = [x00]).
  { destruct (UnsubscribeProps u) as [up|]; [|done]. unfold block. simpl.
    unfold UnsubscribeProperties_Encode. by rewrite (Hp up eq_refl). }
  rewrite He. unfold Unsubscribe_Unpack, NewReader. dec_step.
  pose proof (ReadProperties_block UnsubscribeProperties_step UnsubscribeProperties_zero
    UnsubscribeProperties_Encode None (concat (EncodeString <$> Topics u)) EOF) as H.
  unfold UnsubscribeProperties_Unpack. cbn [UnsubscribeProps].
  change (block (UnsubscribeProperties_Encode <$> None)) with [x00] in H.
  rewrite H by (done || unfold vbi_ok; simpl; lia).
  cbn [rbuf Topics]. rewrite Unsubscribe_topics_body5; [done|done|].
  apply Nat.lt_succ_r, concat_length_ge. intros x. rewrite EncodeString_length. lia.
Qed.

Lemma PackFlags_bits c : 0 <= WillQoS c <= 3 →
  let opts := b2z (z2b (PackFlags c)) in
  Z.land 1 opts = 0 ∧
  (0 <? Z.land 1 (Z.shiftr opts 1)) = CleanStart c ∧
  (0 <? Z.land 1 (Z.shiftr opts 2)) = WillFlag c ∧
  Z.land 3 (Z.shiftr opts 3) = WillQoS c ∧
  (0 <? Z.land 1 (Z.shiftr opts 5)) = WillRetain c ∧
  (0 <? Z.land 1 (Z.shiftr opts 6)) = PasswordFlag c ∧
  (0 <? Z.land 1 (Z.shiftr opts 7)) = UsernameFlag c.
Proof.
  intros Hq. unfold PackFlags.
  destruct (UsernameFlag c), (PasswordFlag c), (WillRetain c), (WillFlag c), (CleanStart c);
    assert (WillQoS c = 0 ∨ WillQoS c = 1 ∨ WillQoS c = 2 ∨ WillQoS c = 3) as [->|[->|[->| ->]]]
      by lia; vm_compute; auto 10.
Qed.

Lemma Connect_body_cases c b : Connect_body c = Ret b → Z.of_nat (length b) < 2 ^ 28 →
  let props := ConnectProperties_Encode <$> ConnectProps c in
  let wprops := WillProperties_Encode <$> WillProps c in
  ∃ will,
    b = EncodeString (ProtocolName c) ++ [z2b (ProtocolVersion c)] ++ [z2b (PackFlags c)] ++
        EncodeUint16 (KeepAlive c) ++ block props ++ EncodeString (ClientID c) ++ will ++
        (if UsernameFlag c then EncodeString (Username c) else []) ++
        (if PasswordFlag c then EncodeBytes (Password c) else []) ∧
    vbi_ok (Z.of_nat (length (default [] props))) ∧
    if WillFlag c
    then will = block wprops ++ EncodeString (WillTopic c) ++ EncodeBytes (WillPayload c) ∧
         vbi_ok (Z.of_nat (length (default [] wprops)))
    else will = [].
Proof.
  intros Hb Hl props wprops. unfold Connect_body in Hb. fold props wprops in Hb.
  destruct (EncodeProperties props) as [pb| |] eqn:E1; [|done..].
  unfold mbind at 1, outcome_bind at 1 in Hb. destruct (WillFlag c).
  - destruct (EncodeProperties wprops) as [wb| |] eqn:E2; [|done..].
    apply Ret_inj in Hb as <-. rewrite !length_app in Hl.
    apply EncodeProperties_block in E1 as [-> ?]; [|lia].
    apply EncodeProperties_block in E2 as [-> ?]; [|lia]. by eexists.
  - apply Ret_inj in Hb as <-. rewrite !length_app in Hl.
    apply EncodeProperties_block in E1 as [-> ?]; [|lia]. by exists [].
Qed.

Lemma Connect_Unpack_body5 c fh b : fields_ok (PConnect c) → Connect_body c = Ret b →
  Z.of_nat (length b) < 2 ^ 28 →
  Connect_Unpack (Connect_zero fh) (NewReader b) =
  Ret (c <| ConnectHeader := fh |>
         <| ConnectProps := norm_props ConnectProperties_Encode (ConnectProps c) |>
         <| WillProps := norm_props WillProperties_Encode (WillProps c) |>, NewReader []).
Proof.
  intros (Hn & Hv & Hq & Hr & Hk & Hp & Hc & Hw & Hu & Hpw) Hb Hl.
  pose proof (PackFlags_bits c Hq) as (F1 & F2 & F3 & F4 & F5 & F6 & F7).
  destruct (Connect_body_cases c b Hb Hl) as (will & -> & Hok & Hwill). clear Hb Hl.
  unfold Connect_Unpack, NewReader. cbn [app]. do 4 dec_step.
  rewrite F1, F2, F3, F4, F5, F6, F7, b2z_z2b_small by done.
  props_step ConnectProperties_unpacks Hp. dec_step. clear F1 F2 F3 F4 F5 F6 F7.
  assert (Hw' : ∀ tail, (if WillFlag c then
       p ← ReadProperties (WillProperties_Unpack WillProperties_zero) None;
       t ← DecodeString; m ← DecodeBytes; mret (p, t, m)
     else mret (None, EmptyString, [])) (mkReader (will ++ tail) EOF) =
     Ret (norm_props WillProperties_Encode (WillProps c), WillTopic c, WillPayload c,
          mkReader tail EOF)).
  { intros tail. destruct (WillFlag c).
    - destruct Hwill as [-> Hok2], Hw as (Hwp & Hwt & Hwm).
      rewrite <-!app_assoc. props_step WillProperties_unpacks Hwp. by do 2 dec_step.
    - destruct Hw as (-> & -> & ->). by subst will. }
  unfold WillProperties_Unpack, mbind, ST_bind, mret, ST_ret in Hw'.
  cbn [WillTopic WillPayload Username Password ConnectHeader]. rewrite Hw'. clear Hw' Hw Hwill.
  destruct c; simpl in *. subst. rewrite <-(app_nil_r (if PasswordFlag0 then _ else _)).
  destruct UsernameFlag0, PasswordFlag0; subst; rewrite ?app_nil_l; repeat dec_step; done.
Qed.

(** The factory's blank packet, unpacked from the body, is the packet. *)
Lemma Unpack_body5 cp b fh : fields_ok cp → body cp = Ret b → Z.of_nat (length b) < 2 ^ 28 →
  PacketType fh = Type_ cp → QoS fh = QoS (Header cp) →
  ∃ cp0, NewControlPacketWithHeader fh = Ret cp0 ∧
    Unpack cp0 (NewReader b) = Ret (setHeader fh (norm cp), NewReader []).
Proof.
  intros Hok Hb Hl Ht Hq. unfold NewControlPacketWithHeader. rewrite Ht.
  destruct cp; cbn [Type_]; eexists; (split; [reflexivity|]); cbn [Unpack body] in *;
    unfold mbind, ST_bind, PubRec_Unpack, PubRel_Unpack, PubComp_Unpack, UnsubAck_Unpack.
  - by rewrite (Connect_Unpack_body5 c fh b).
  - unfold NewReader. by rewrite (ConnAck_Unpack_body5 c fh b).
  - by rewrite (Publish_Unpack_body5 p fh b).
  - unfold NewReader. by rewrite (PubAck_Unpack_body5 p fh b).
  - by rewrite (minimal_Unpack_body5 p fh b).
  - by rewrite (minimal_Unpack_body5 p fh b).
  - by rewrite (minimal_Unpack_body5 p fh b).
  - by rewrite (Subscribe_Unpack_body5 s fh b).
  - by rewrite (SubAck_Unpack_body5 s fh b).
  - by rewrite (Unsubscribe_Unpack_body5 u fh b).
  - by rewrite (SubAck_Unpack_body5 u fh b).
  - by apply Ret_inj in Hb as <-.
  - by apply Ret_inj in Hb as <-.
  - unfold NewReader. by rewrite (Disconnect_Unpack_body5 d fh b).
  - unfold NewReader. by rewrite (Auth_Unpack_body5 a fh b).
Qed.

Lemma norm_header cp : Header (norm cp) = Header cp.
Proof.
  destruct cp; try done; cbn [norm Header]; unfold norm_minimal; repeat case_match; done.
Qed.

Lemma ReadPacketLimit_encoded5 cp b rest e maxSize : packet_wf5 cp b →
  maxSize <= 0 ∨ Z.of_nat (length b) <= maxSize →
  ReadPacketLimit maxSize (mkReader ((flags_byte (Header cp) ::
    vbi_digits 4 (Z.of_nat (length b)) ++ b) ++ rest) e) =
  Ret (stamp b (norm cp), mkReader rest e).
Proof.
  intros (Hok & Ht & Hb & Hh) Hm.
  set (fh := set_RemainingLength (Z.of_nat (length b)) (Header cp)) in *.
  unfold ReadPacketLimit, mbind, ST_bind. rewrite <-app_comm_cons, DecodeByte_cons.
  pose proof (FixedHeader_Decode_wf fh (b ++ rest) e Hh) as Hd.
  rewrite app_assoc in Hd. change (RemainingLength fh) with (Z.of_nat (length b)) in Hd.
  change (flags_byte fh) with (flags_byte (Header cp)) in Hd. rewrite Hd.
  change (RemainingLength fh) with (Z.of_nat (length b)).
  destruct (_ && _) eqn:E; bool_prop; [lia|]. clear E.
  destruct (Unpack_body5 cp b fh Hok Hb) as (cp0 & Hn & Hu); [apply Hh|done|done|].
  unfold st_lift at 1. rewrite Hn, Nat2Z.id. rewrite ReadFull_app by done.
  rewrite Z.eqb_refl. cbn [negb]. unfold st_lift. rewrite Hu. cbn. unfold stamp.
  by rewrite norm_header.
Qed.

(** C13 Reading inverts encoding for all fifteen MQTT 5.0 packet types with all their
    properties, the user properties of UNSUBSCRIBE apart, which its encoder does
    not write in a form the reader accepts: every well-formed packet encodes
    without a panic, and reading those bytes, with any data behind them, any
    error at the end of the stream and any limit that admits the packet, leaves
    exactly the data behind it and returns the packet in the reader's form
    ([norm]): a property list without entries is absent; the reason codes of
    PUBACK, SUBACK and UNSUBACK and the options of a subscription are present;
    PUBREC, PUBREL and PUBCOMP have a reason code when they have properties, and
    else only one that is not zero.  A packet that has this form is returned as
    it was. *)
Theorem v5_roundtrip cp b : packet_wf5 cp b →
  ∃ bs, Encode cp = Ret (bs, stamp b cp) ∧
    ∀ rest e maxSize, maxSize <= 0 ∨ Z.of_nat (length b) <= maxSize →
      ReadPacketLimit maxSize (mkReader (bs ++ rest) e) = Ret (stamp b (norm cp), mkReader rest e) ∧
      (reader_form cp →
       ReadPacketLimit maxSize (mkReader (bs ++ rest) e) = Ret (stamp b cp, mkReader rest e)).
Proof.
  intros Hwf. eexists. split; [by apply Encode_body5|].
  intros rest e maxSize Hm. rewrite ReadPacketLimit_encoded5 by done. split; [done|].
  intros Hf. by rewrite norm_reader_form.
Qed.

(** A PUBLISH with properties. *)
Definition example_publish5 : ControlPacket :=
  PPublish (mkPublish (header_for PublishType 1) 7 "a" (Some (PublishProperties_zero
    <| PP_MessageExpiry := Some 60 |> <| PP_User := [mkUser "k" "v"] |>)) None [x68; x69]).

Lemma v5_roundtrip_witness :
  ReadPacketLimit 100 (mkReader ([x32; x14; x00; x01; x61; x00; x07; x0c; x02; x00; x00; x00; x3c;
    x26; x00; x01; x6b; x00; x01; x76; x68; x69] ++ [xc0]) EOF) =
  Ret (setHeader (mkFixedHeader PublishType false 1 false 20) example_publish5, mkReader [xc0] EOF).
Proof.
  destruct (v5_roundtrip example_publish5
    [x00; x01; x61; x00; x07; x0c; x02; x00; x00; x00; x3c;
     x26; x00; x01; x6b; x00; x01; x76; x68; x69]) as (bs & He & Hr).
  - split_and!; [|reflexivity|vm_compute; reflexivity|].
    + split_and!; [unfold str_ok; simpl; lia|reflexivity|simpl; unfold u16_ok; lia|].
      intros p [= <-]. split_and!; try done;
        try (intros v [= <-]; unfold u32_ok; lia); try (unfold str_ok, bin_ok; simpl; lia).
      repeat constructor; unfold str_ok; simpl; lia.
    + split_and!; [reflexivity|simpl; lia..].
  - vm_compute in He. injection He as <-. refine (proj1 (Hr [xc0] EOF 100 _)). right. simpl. lia.
Defined.

(** ** No input makes a reader panic *)

Lemma nopanic_Read n : nopanic (Read n).
Proof. intros r. unfold Read. by destruct (rbuf r). Qed.

Lemma nopanic_or_eof {A B} (m : dec A) (b : B) k :
  nopanic m → (∀ a, nopanic (k a)) → nopanic (or_eof m b k).
Proof.
  intros Hm Hk r. unfold or_eof. specialize (Hm r).
  destruct (m r) as [[a r']|[]|]; try done. apply Hk.
Qed.

Lemma nopanic_ReadProperties {P} (unpack : dec P) old :
  nopanic unpack → nopanic (ReadProperties unpack old).
Proof.
  intros Hu. apply nopanic_bind; [eauto with nopanic|intros n].
  case_match; [eauto with nopanic|]. apply nopanic_bind; [apply nopanic_Read|intros buf].
  apply nopanic_bind; [|eauto with nopanic]. apply nopanic_lift.
  specialize (Hu (NewReader buf)). by destruct (unpack _).
Qed.
#[export] Hint Resolve nopanic_Read nopanic_or_eof nopanic_ReadProperties : nopanic.

Lemma consumes_SubOption_Unpack r o r' : SubOption_Unpack r = Ret (o, r') →
  (length (rbuf r') < length (rbuf r))%nat.
Proof.
  intros H. unfold SubOption_Unpack in H. apply bind_inv in H as (s & r1 & Hs & H).
  apply bind_inv in H as (b & r2 & Hb & H). apply DecodeString_inv in Hs as (used & -> & _ & Hu).
  apply ReadFull_inv in Hb as (_ & -> & _).
  assert (r' = r2) as ->.
  { revert H. destruct b as [|b0 []]; try done. cbn zeta. repeat case_match; by intros [= _ <-]. }
  rewrite !length_app. lia.
Qed.

Lemma nopanic_SubOption_Unpack : nopanic SubOption_Unpack.
Proof.
  apply nopanic_bind; [eauto with nopanic|intros topic]. intros r. unfold mbind, ST_bind.
  pose proof (nopanic_ReadFull 1 r). destruct (ReadFull 1 r) as [[b r1]| |] eqn:E; [|done..].
  apply ReadFull_inv in E as (Hl & _). destruct b as [|b0 []]; [done| |done].
  cbn zeta. by repeat case_match.
Qed.

(** A loop that reads an item per round until the end of the packet. *)
Lemma nopanic_Subscribe_opts fuel : ∀ acc r, (length (rbuf r) < fuel)%nat →
  Subscribe_opts fuel acc r ≠ Panic.
Proof.
  induction fuel as [|fuel IH]; intros acc r Hf; [lia|]. cbn [Subscribe_opts]. unfold or_eof.
  pose proof (nopanic_SubOption_Unpack r).
  destruct (SubOption_Unpack r) as [[o r']|[]|] eqn:E; try done.
  apply consumes_SubOption_Unpack in E. apply IH. lia.
Qed.

Lemma DecodeBytes_shorter r b r' : DecodeBytes r = Ret (b, r') →
  (length (rbuf r') < length (rbuf r))%nat.
Proof.
  intros H. assert (Hs : DecodeString r = Ret (string_of b, r')).
  { unfold DecodeString, mbind, ST_bind. by rewrite H. }
  apply DecodeString_inv in Hs as (used & -> & _ & Hu). rewrite length_app. lia.
Qed.

Lemma nopanic_Unsubscribe_topics5 fuel : ∀ acc r, (length (rbuf r) < fuel)%nat →
  Unsubscribe_topics fuel acc r ≠ Panic.
Proof.
  induction fuel as [|fuel IH]; intros acc r Hf; [lia|]. cbn [Unsubscribe_topics]. unfold or_eof.
  pose proof (nopanic_DecodeBytes r).
  destruct (DecodeBytes r) as [[o r']|[]|] eqn:E; try done.
  apply DecodeBytes_shorter in E. apply IH. lia.
Qed.

Lemma nopanic_Unpack5 cp : nopanic (Unpack cp).
Proof.
  destruct cp; cbn [Unpack];
    unfold Connect_Unpack, ConnAck_Unpack, Publish_Unpack, PubRec_Unpack, PubRel_Unpack,
      PubComp_Unpack, PubAck_Unpack, UnsubAck_Unpack, SubAck_Unpack, Subscribe_Unpack,
      Unsubscribe_Unpack, Disconnect_Unpack, Auth_Unpack;
    repeat first [solve [eauto with nopanic]
                 | apply nopanic_ReadProperties, nopanic_Unpack_props; apply _
                 | apply nopanic_or_eof; [|intros ?]
                 | apply nopanic_bind; [|intros ?]
                 | case_match | progress cbn zeta].
  all: try (intros r; first [apply nopanic_Subscribe_opts | apply nopanic_Unsubscribe_topics5]; lia).
  all: apply nopanic_lift; match goal with |- fst <$> ?u ?r ≠ Panic =>
    pose proof (nopanic_Unpack_props BasicProperties_step BasicProperties_zero r) as Hnp end;
    unfold BasicProperties_Unpack; by destruct (Unpack_props _ _ _).
Qed.

Lemma NewControlPacketWithHeader_nopanic5 fh : NewControlPacketWithHeader fh ≠ Panic.
Proof. unfold NewControlPacketWithHeader. by case_match. Qed.

Lemma ReadPacketLimit_nopanic5 m : nopanic (ReadPacketLimit m).
Proof.
  unfold ReadPacketLimit, FixedHeader_Decode.
  apply nopanic_bind; [eauto with nopanic|intros b].
  apply nopanic_bind.
  { apply nopanic_bind; [apply nopanic_lift, validateFlags_nopanic|eauto with nopanic]. }
  intros fh. case_match; [eauto with nopanic|].
  apply nopanic_bind; [apply nopanic_lift, NewControlPacketWithHeader_nopanic5|intros cp].
  apply nopanic_bind; [eauto with nopanic|intros bs]. case_match; [eauto with nopanic|].
  apply nopanic_lift. pose proof (nopanic_Unpack5 cp (NewReader bs)).
  by destruct (Unpack cp (NewReader bs)).
Qed.

(** C35 Arbitrary MQTT 5.0 input is safe: whatever bytes a peer sends and whatever
    error ends the stream, reading a packet returns (no panic, and no loop over
    properties, topics or options runs on); and a packet whose header
    advertises more than the limit is refused from the header alone, before
    anything of its body has been read. *)
Theorem v5_read_safe maxSize r fh hdr rest e :
  ReadPacketLimit maxSize r ≠ Panic ∧
  (header_wf fh → FixedHeader_Encode fh = Ret hdr → 0 < maxSize < RemainingLength fh →
   ReadPacketLimit maxSize (mkReader (hdr ++ rest) e) = Fail ErrPacketTooLarge).
Proof.
  split; [apply ReadPacketLimit_nopanic5|]. intros Hwf He Hm.
  rewrite FixedHeader_Encode_wf in He by done. injection He as <-.
  unfold ReadPacketLimit, mbind, ST_bind. rewrite <-app_comm_cons, DecodeByte_cons.
  rewrite FixedHeader_Decode_wf by done.
  rewrite (proj2 (Z.ltb_lt 0 _)), (proj2 (Z.ltb_lt maxSize _)) by lia. done.
Qed.

Lemma v5_read_safe_witness :
  ReadPacketLimit 10 (mkReader ([x30; x64] ++ []) EOF) = Fail ErrPacketTooLarge.
Proof.
  apply (proj2 (v5_read_safe 10 (NewReader []) (mkFixedHeader PublishType false 0 false 100)
    [x30; x64] [] EOF)); [|reflexivity|simpl; lia].
  split_and!; [reflexivity|simpl; lia..].
Defined.

(** ** Where encoder and readers disagree *)

(** User properties of an UNSUBSCRIBE do not survive: the encoder leaves out
    their property identifier, so the reader takes the first length byte for
    one and refuses the packet (for a first key of fewer than 256 bytes, whose
    length prefix starts with zero). *)
Theorem unsubscribe_user_properties_refused u up k v us b fh :
  UnsubscribeProps u = Some up → UP_User up = mkUser k v :: us →
  Z.of_nat (String.length k) < 256 → u16_ok (UnsubscribeID u) →
  Unsubscribe_body u = Ret b → Z.of_nat (length b) < 2 ^ 28 →
  Unsubscribe_Unpack (mkUnsubscribe fh 0 None []) (NewReader b) = Fail (ErrInvalidProperty 0).
Proof.
  intros Hu Hup Hk Hi Hb Hl. unfold Unsubscribe_body in Hb. body_block Hb Hl.
  apply Ret_inj in Hb as <-. rewrite Hu in *.
  cbn [fmap option_fmap option_map default from_option id] in Hblock.
  unfold Unsubscribe_Unpack, NewReader. dec_step. unfold ReadProperties, mbind, ST_bind, block.
  cbn [fmap option_fmap option_map default from_option id].
  rewrite <-app_assoc, DecodeVBI_digits by done.
  set (props := UnsubscribeProperties_Encode up) in *.
  assert (Hp : ∃ props', props = x00 :: props').
  { unfold props, UnsubscribeProperties_Encode. rewrite Hup, fmap_cons. cbn [concat Key].
    unfold EncodeString, EncodeBytes. rewrite length_bytes_of, Z.shiftr_div_pow2 by lia.
    rewrite Z.div_small by (simpl; lia). cbn [app]. by eexists. }
  destruct Hp as [props' Hp]. rewrite (proj2 (Z.eqb_neq _ 0)) by (rewrite Hp; simpl; lia).
  rewrite Nat2Z.id. unfold Read. rewrite Hp. cbn [rbuf app length]. unfold st_lift.
  unfold UnsubscribeProperties_Unpack, NewReader. cbn [take app].
  by rewrite (Unpack_props_cons UnsubscribeProperties_step).
Qed.

Definition example_unsubscribe5 : Unsubscribe :=
  mkUnsubscribe (header_for UnsubscribeType 1) 3
    (Some (mkUnsubscribeProperties [mkUser "k" "v"])) ["a"%string].

Lemma unsubscribe_user_properties_refused_witness :
  Unsubscribe_Unpack (mkUnsubscribe (header_for UnsubscribeType 1) 0 None [])
    (NewReader [x00; x03; x06; x00; x01; x6b; x00; x01; x76; x00; x01; x61]) =
  Fail (ErrInvalidProperty 0).
Proof.
  apply (unsubscribe_user_properties_refused example_unsubscribe5
    (mkUnsubscribeProperties [mkUser "k" "v"]) "k" "v" []); try reflexivity;
    unfold u16_ok; simpl; lia.
Defined.

(** Truncated properties are accepted: when the property length of a packet
    announces [n] bytes and the packet ends after fewer ([bs], at least one),
    the list is read from [bs] filled up with zero bytes, where the slice reader
    refuses the packet. *)
Theorem truncated_properties_padded {P} (unpack : dec P) (unpackBytes : list byte → outcome GoErr P)
    old n bs e z :
  (0 < length bs)%nat → Z.of_nat (length bs) < n < 2 ^ 28 → zok z →
  zrest z = vbi_digits 4 n ++ bs → zlen z < 2 ^ 62 →
  fst <$> ReadProperties unpack old (mkReader (vbi_digits 4 n ++ bs) e) =
    Some ∘ fst <$> unpack (NewReader (bs ++ replicate (Z.to_nat n - length bs) x00)) ∧
  ReadPropertiesBytes unpackBytes old z = Fail ErrBufferTooShort.
Proof.
  intros Hb Hn Hz Hr Hzl. split.
  - unfold ReadProperties, mbind, ST_bind. rewrite DecodeVBI_digits by lia.
    rewrite (proj2 (Z.eqb_neq n 0)) by lia. unfold Read. cbn [rbuf rend].
    destruct bs as [|b0 bs']; [simpl in Hb; lia|]. set (bs := b0 :: bs') in *.
    rewrite take_ge by lia. unfold st_lift. by destruct (unpack _) as [[]| |].
  - unfold ReadPropertiesBytes, mbind, ST_bind. pose proof (simc_ReadVBI z EOF Hz) as H.
    unfold agree in H. rewrite Hr, DecodeVBI_digits in H by lia.
    destruct (ReadVBI z) as [[m z1]| |]; [|done..]. destruct H as (-> & Hz1 & Hd & [= Hr1]).
    rewrite (proj2 (Z.ltb_lt 0 n)) by lia. unfold ReadN.
    pose proof (zrest_length z1 Hz1) as Hl. rewrite <-Hr1 in Hl.
    assert (zlen z1 = zlen z) by (unfold zlen; by rewrite Hd). unfold zok in Hz1.
    rewrite i64_small by lia. by rewrite (proj2 (Z.ltb_lt _ _)) by lia.
Qed.

(** An AUTH whose reason string is cut off after one of two bytes. *)
Lemma truncated_properties_padded_witness :
  ReadPacket (NewReader [xf0; x06; x00; x05; x1f; x00; x02; x41]) =
    Ret (PAuth (mkAuth (mkFixedHeader AuthType false 0 false 6) 0
      (Some (AuthProperties_zero <| AP_ReasonString :=
               String "A" (String Ascii.zero EmptyString) |>))), NewReader []) ∧
  fst <$> ReadProperties (AuthProperties_Unpack AuthProperties_zero) None
    (mkReader ([x05] ++ [x1f; x00; x02; x41]) EOF) =
  Some ∘ fst <$> AuthProperties_Unpack AuthProperties_zero
    (NewReader ([x1f; x00; x02; x41] ++ [x00])).
Proof.
  split; [vm_compute; reflexivity|].
  refine (proj1 (truncated_properties_padded (AuthProperties_Unpack AuthProperties_zero)
    (λ _, Fail EOF) None 5 [x1f; x00; x02; x41] EOF
    (NewZeroCopyReader [x05; x1f; x00; x02; x41]) _ _ _ _ _)); try reflexivity;
    unfold zok, zlen; simpl; lia.
Defined.

(** A SUBSCRIBE that ends after a topic filter, before its options byte, is
    accepted without that filter. *)
Theorem subscribe5_dangling_topic s t b fh :
  fields_ok (PSubscribe s) → str_ok t → Subscribe_body s = Ret b →
  Z.of_nat (length b) < 2 ^ 28 →
  Subscribe_Unpack (mkSubscribe fh 0 None []) (NewReader (b ++ EncodeString t)) =
  Subscribe_Unpack (mkSubscribe fh 0 None []) (NewReader b).
Proof.
  intros (Hi & Hp & Ho) Ht Hb Hl. rewrite (Subscribe_Unpack_body5 s fh b) by first [assumption | exact (conj Hi (conj Hp Ho))].
  unfold Subscribe_body in Hb. rewrite subscribe_encoded in Hb by done.
  unfold mbind at 1, outcome_bind at 1 in Hb. body_block Hb Hl. apply Ret_inj in Hb as <-.
  rewrite <-!app_assoc. unfold Subscribe_Unpack, NewReader. dec_step.
  props_step subscribe_unpacks Hp. cbn [rbuf Opts].
  assert (H : ∀ os fuel acc, Forall opt_wf os → (length os < fuel)%nat →
    Subscribe_opts fuel acc (mkReader (concat (SubOption_Encode <$> os) ++ EncodeString t) EOF) =
    Ret (acc ++ (norm_opt <$> os), mkReader [] EOF)).
  { induction os as [|o os IH]; intros [|fuel] acc Hf Hlen; simpl in Hlen; try lia.
    - cbn [Subscribe_opts]. rewrite or_eof_eof; [by rewrite app_nil_r|].
      rewrite app_nil_l, <-(app_nil_r (EncodeString t)). unfold SubOption_Unpack. by dec_step.
    - apply Forall_cons in Hf as [Ho' Hf]. rewrite fmap_cons. cbn [Subscribe_opts concat].
      rewrite <-app_assoc, (or_eof_ret _ _ _ _ _ _ (SubOption_Unpack_Encode o _ Ho')).
      rewrite IH by (done || lia). by rewrite <-app_assoc. }
  rewrite H; [done|done|]. rewrite length_app. apply Nat.lt_succ_r.
  pose proof (concat_length_ge SubOption_Encode (Opts s) SubOption_Encode_length). lia.
Qed.

(** Resetting any packet gives the packet the factory creates for its type. *)
Theorem reset_is_fresh5 cp : NewControlPacket (Type_ cp) = Some (Reset cp).
Proof. by destruct cp. Qed.

(** A pooled PUBLISH carries nothing over: whatever packet is released, what the
    pool hands out later has no payload, no properties and no payload reference
    of its former life, and the reference is dropped exactly once. *)
Theorem publish_pool_clean p :
  ∃ q, ReleasePublish (Some p) = Some (PayloadRef p, q) ∧
    AcquirePublish q = Publish_zero (header_for PublishType 0)
                         <| PublishProps := Some PublishProperties_zero |>.
Proof. destruct p as [? ? ? [[]|] ? ?]; eexists; done. Qed.
