(* ===== verification/PacketsV5Zero.v ===== *)
(** * The zero-copy reader of MQTT 5.0 packets (src/mqtt/packets/v5/zerocopy.go)

    Theorems on [ReadPacketBytes] of [PacketsV5]: on the bytes the encoder
    writes it returns the packet the stream reader returns, for the packet types
    and formats it can read; it never panics. *)

From Stdlib Require Import ZArith Lia Bool Ascii String Strings.Byte.
From stdpp Require Import prelude gmap strings.
From S2P Require Import Prelude GoStrings Codec Packets PropertiesV5 PacketsV5.

Import V5.

(** ** Reading a known prefix of a slice *)

(** [m] reads [enc] as [a], whatever follows. *)
Definition zreads {A} (m : zdec A) (enc : list byte) (a : A) : Prop := ∀ z rest,
  zok z → zlen z < 2 ^ 62 → zrest z = enc ++ rest →
  ∃ z', m z = Ret (a, z') ∧ zok z' ∧ zdata z' = zdata z ∧ zrest z' = rest.
(** [m] reads [enc] as [a] at the end of the slice. *)
Definition zends {A} (m : zdec A) (enc : list byte) (a : A) : Prop := ∀ z,
  zok z → zlen z < 2 ^ 62 → zrest z = enc → ∃ z', m z = Ret (a, z').

Lemma zlen_eq z z' : zdata z' = zdata z → zlen z' = zlen z.
Proof. unfold zlen. by intros ->. Qed.

Lemma zreads_ret {A} (a : A) : zreads (mret a) [] a.
Proof. intros z rest Hz _ Hr. by exists z. Qed.

Lemma zreads_bind {A B} (m : zdec A) (k : A → zdec B) e1 e2 a b :
  zreads m e1 a → zreads (k a) e2 b → zreads (m ≫= k) (e1 ++ e2) b.
Proof.
  intros Hm Hk z rest Hz Hl Hr. rewrite <-app_assoc in Hr.
  destruct (Hm z _ Hz Hl Hr) as (z1 & E & Hz1 & Hd & Hr1).
  destruct (Hk z1 rest Hz1) as (z2 & E2 & Hz2 & Hd2 & Hr2); [by rewrite (zlen_eq _ _ Hd)|done|].
  exists z2. unfold mbind, ST_bind. rewrite E. by rewrite Hd2, Hd.
Qed.

Lemma zends_bind {A B} (m : zdec A) (k : A → zdec B) e1 e2 a b :
  zreads m e1 a → zends (k a) e2 b → zends (m ≫= k) (e1 ++ e2) b.
Proof.
  intros Hm Hk z Hz Hl Hr. destruct (Hm z _ Hz Hl Hr) as (z1 & E & Hz1 & Hd & Hr1).
  destruct (Hk z1 Hz1) as (z2 & E2); [by rewrite (zlen_eq _ _ Hd)|done|].
  exists z2. unfold mbind, ST_bind. by rewrite E.
Qed.

Lemma zends_reads {A} (m : zdec A) enc a : zreads m enc a → zends m enc a.
Proof.
  intros H z Hz Hl Hr. destruct (H z [] Hz Hl) as (z' & ? & _); [by rewrite app_nil_r|eauto].
Qed.

Lemma zreads_simc {A} (m : zdec A) (d : dec A) enc a : simc m d →
  (∀ rest, d (mkReader (enc ++ rest) EOF) = Ret (a, mkReader rest EOF)) → zreads m enc a.
Proof.
  intros Hs Hd z rest Hz _ Hr. specialize (Hs z EOF Hz). rewrite Hr, Hd in Hs. unfold agree in Hs.
  destruct (m z) as [[a' z']| |]; [|done..]. destruct Hs as (-> & ? & ? & [= ->]). eauto.
Qed.

Lemma zreads_byte b : zreads ReadByte [b] b.
Proof. eapply zreads_simc; [apply simc_ReadByte|]. intros rest. apply DecodeByte_cons. Qed.
Lemma zreads_u16 n : u16_ok n → zreads ReadUint16 (EncodeUint16 n) n.
Proof.
  intros Hn. eapply zreads_simc; [apply simc_ReadUint16|]. intros rest. by apply DecodeUint16_Encode.
Qed.
Lemma zreads_str s : str_ok s → zreads ReadString (EncodeString s) s.
Proof.
  intros Hs. eapply zreads_simc; [apply simc_ReadString|]. intros rest. by apply DecodeString_Encode.
Qed.
Lemma zreads_bin b : bin_ok b → zreads ReadBytesNoCopy (EncodeBytes b) b.
Proof.
  intros Hs. eapply zreads_simc; [apply simc_ReadBytes|]. intros rest. by apply DecodeBytes_Encode.
Qed.
Lemma zreads_vbi n : vbi_ok n → zreads ReadVBI (vbi_digits 4 n) n.
Proof.
  intros Hn. eapply zreads_simc; [apply simc_ReadVBI|]. intros rest. by apply DecodeVBI_digits.
Qed.

Lemma zreads_N bs : zreads (ReadN (Z.of_nat (length bs))) bs bs.
Proof.
  intros z rest Hz Hl Hr. pose proof (zrest_length z Hz) as Hlen. rewrite Hr, length_app in Hlen.
  unfold zok in Hz. unfold ReadN. rewrite !i64_small by lia.
  rewrite (proj2 (Z.ltb_ge _ _)) by lia. rewrite slice_zrest by (done || lia).
  rewrite Hr, Nat2Z.id, take_app_length. eexists. split_and!; [done|..|done|].
  - unfold zok. change (zlen (set_zoffset _ z)) with (zlen z). cbn [zoffset set_zoffset]. lia.
  - rewrite zrest_advance by (done || lia). by rewrite Hr, Nat2Z.id, drop_app_length.
Qed.

(** A property block. *)
Lemma zreads_props {P} (stepB : Z → P → zdec P) step `{!PropSwitch step} zero
    (enc : P → list byte) o :
  switches_agree stepB step → (∀ p, o = Some p → unpacks step zero (enc p) p) →
  vbi_ok (Z.of_nat (length (default [] (enc <$> o)))) →
  zreads (ReadPropertiesBytes (unpackBytes_props stepB zero) None) (block (enc <$> o))
    (norm_props enc o).
Proof.
  intros Hs Hu Hok. unfold ReadPropertiesBytes, block.
  eapply zreads_bind; [by apply zreads_vbi|]. destruct o as [p|]; [|apply zreads_ret].
  cbn [fmap option_fmap option_map default from_option id] in *.
  change (norm_props enc (Some p)) with (if decide (enc p = []) then None else Some p).
  destruct (decide (enc p = [])) as [->|Hne]; [apply zreads_ret|].
  rewrite (proj2 (Z.ltb_lt 0 _)) by (destruct (enc p); simpl; [done|lia]).
  rewrite <-(app_nil_r (enc p)) at 2. eapply zreads_bind; [apply zreads_N|].
  assert (H : unpackBytes_props stepB zero (enc p) = Ret p).
  { eapply (unpackBytes_complete stepB step Hs). specialize (Hu p eq_refl []).
    rewrite app_nil_r in Hu. unfold NewReader. rewrite Hu. by rewrite Unpack_props_nil. }
  rewrite H. apply zreads_ret.
Qed.

(** ** Packet bodies *)

Lemma zends_ReadRemaining bs : zends ReadRemaining bs bs.
Proof.
  intros z Hz _ Hr. pose proof (sime_ReadRemaining z Hz) as H. rewrite Hr in H.
  unfold agree, ReadAll in H. cbn [rbuf rend] in H. rewrite decide_True in H by done.
  destruct (ReadRemaining z) as [[a z']| |]; [|done..]. destruct H as (-> & _). eauto.
Qed.

Lemma zends_run {A} (m : zdec A) data a : zends m data a → Z.of_nat (length data) < 2 ^ 62 →
  fst <$> m (NewZeroCopyReader data) = Ret a.
Proof.
  intros H Hl. destruct (H (NewZeroCopyReader data)) as [z' ->]; [apply zok_new|done|done|done].
Qed.

Lemma zends_map {A B} (m : zdec A) (f : A → B) enc a :
  zends m enc a → zends (x ← m; mret (f x)) enc (f a).
Proof.
  intros H z Hz Hl Hr. destruct (H z Hz Hl Hr) as [z' E]. exists z'.
  unfold mbind, ST_bind. by rewrite E.
Qed.

Lemma Publish_UnpackBytes_body p fh b : fields_ok (PPublish p) → body (PPublish p) = Ret b →
  Z.of_nat (length b) < 2 ^ 28 → QoS fh = QoS (PublishHeader p) →
  Publish_UnpackBytes (Publish_zero fh) b =
  Ret (mkPublish fh (PublishID p) (TopicName p)
         (norm_props PublishProperties_Encode (PublishProps p)) (PayloadRef p) (Payload p)).
Proof.
  intros (Ht & Hr & Hi & Hp) Hb Hl Hq. apply zends_run; [|lia].
  cbn [body] in Hb. apply Ret_inj in Hb as <-.
  cbn [PublishHeader PublishID PublishProps PayloadRef Publish_zero]. rewrite Hq.
  eapply zends_bind; [apply (zreads_bin (bytes_of (TopicName p))); unfold bin_ok;
    by rewrite length_bytes_of|].
  eapply (zends_bind _ _ _ _ (PublishID p)).
  { destruct (0 <? _); [by apply zreads_u16|]. rewrite Hi. apply zreads_ret. }
  eapply zends_bind.
  { apply (zreads_props _ PublishProperties_step); [apply PublishProperties_switches| |].
    - intros pp Hpp. by apply PublishProperties_unpacks, Hp.
    - unfold block in Hl. rewrite !length_app in Hl. unfold vbi_ok. lia. }
  rewrite string_of_bytes_of, Hr. apply (zends_map _ _ _ (Payload p)), zends_ReadRemaining.
Qed.

Lemma SubOption_of_flags_norm s : opt_wf s →
  SubOption_of_flags (Topic s) (b2z (z2b (SubOption_flags s))) = norm_opt s.
Proof.
  intros Hs. destruct (SubOption_flags_bits s Hs) as (F1 & F2 & F3 & F4 & _).
  unfold SubOption_of_flags. by rewrite F1, F2, F3, F4.
Qed.

Lemma zends_opts os : ∀ fuel acc, Forall opt_wf os → (length os < fuel)%nat →
  zends (Subscribe_opts_z fuel acc) (concat (SubOption_Encode <$> os)) (acc ++ (norm_opt <$> os)).
Proof.
  induction os as [|o os IH]; intros [|fuel] acc Hf Hlen z Hz Hl Hr; simpl in Hlen; try lia;
    cbn [Subscribe_opts_z]; pose proof (zrest_length z Hz) as Hzl; rewrite Hr in Hzl; unfold Remaining.
  - simpl in Hzl. rewrite (proj2 (Z.leb_le _ 0)) by lia. rewrite app_nil_r. eauto.
  - apply Forall_cons in Hf as [Ho Hf]. 
    change (concat (SubOption_Encode <$> o :: os))
      with (SubOption_Encode o ++ concat (SubOption_Encode <$> os)) in Hr, Hzl.
    pose proof (SubOption_Encode_length o). rewrite length_app in Hzl.
    rewrite (proj2 (Z.leb_gt _ 0)) by lia. revert z Hz Hl Hr Hzl.
    cut (zends (topic ← ReadString; flags ← ReadByte;
          Subscribe_opts_z fuel (acc ++ [SubOption_of_flags topic (b2z flags)]))
          (SubOption_Encode o ++ concat (SubOption_Encode <$> os)) (acc ++ norm_opt o :: (norm_opt <$> os))).
    { intros H0 z Hz Hl Hr _. by apply H0. }
    unfold SubOption_Encode at 1. rewrite <-app_assoc. eapply zends_bind; [apply zreads_str, Ho|].
    eapply zends_bind; [apply zreads_byte|]. rewrite SubOption_of_flags_norm by done.
    specialize (IH fuel (acc ++ [norm_opt o]) Hf ltac:(lia)). by rewrite <-app_assoc in IH.
Qed.

Lemma Subscribe_UnpackBytes_body s fh b : fields_ok (PSubscribe s) → Subscribe_body s = Ret b →
  Z.of_nat (length b) < 2 ^ 28 →
  Subscribe_UnpackBytes (mkSubscribe fh 0 None []) b =
  Ret (mkSubscribe fh (SubscribeID s) (norm_props subscribe_props_bytes (SubscribeProps s))
         (norm_opt <$> Opts s)).
Proof.
  intros (Hi & Hp & Ho) Hb Hl. apply zends_run; [|lia]. set (fuel := S (length b)).
  assert (Hfuel : (length (Opts s) < fuel)%nat ∧ ∃ blk, b = EncodeUint16 (SubscribeID s) ++
    block (subscribe_props_bytes <$> SubscribeProps s) ++ concat (SubOption_Encode <$> Opts s) ∧
    blk = vbi_ok (Z.of_nat (length (default [] (subscribe_props_bytes <$> SubscribeProps s)))) ∧ blk).
  { unfold Subscribe_body in Hb. rewrite subscribe_encoded in Hb by done.
    unfold mbind at 1, outcome_bind at 1 in Hb. body_block Hb Hl. apply Ret_inj in Hb as <-.
    split; [|eauto]. unfold fuel. rewrite !length_app. apply Nat.lt_succ_r.
    pose proof (concat_length_ge SubOption_Encode (Opts s) SubOption_Encode_length). lia. }
  destruct Hfuel as (Hfuel & _ & Eb & -> & Hok). clearbody fuel. subst b.
  cbn [SubscribeHeader SubscribeProps Opts].
  eapply zends_bind; [by apply zreads_u16|]. eapply zends_bind.
  { apply (zreads_props _ SubscribeProperties_step); [apply SubscribeProperties_switches| |done].
    intros sp Hsp. by apply subscribe_unpacks, Hp. }
  apply (zends_map _ _ _ (norm_opt <$> Opts s)). by apply (zends_opts _ fuel []).
Qed.

Lemma Connect_UnpackBytes_body c fh b : fields_ok (PConnect c) → Connect_body c = Ret b →
  Z.of_nat (length b) < 2 ^ 28 →
  Connect_UnpackBytes (Connect_zero fh) b =
  Ret (c <| ConnectHeader := fh |>
         <| ConnectProps := norm_props ConnectProperties_Encode (ConnectProps c) |>
         <| WillProps := norm_props WillProperties_Encode (WillProps c) |>).
Proof.
  intros (Hn & Hv & Hq & Hr & Hk & Hp & Hc & Hw & Hu & Hpw) Hb Hl. apply zends_run; [|lia].
  destruct (Connect_body_cases c b Hb Hl) as (will & -> & Hok & Hwill).
  pose proof (PackFlags_bits c Hq) as (F1 & F2 & F3 & F4 & F5 & F6 & F7).
  eapply zends_bind; [by apply zreads_str|]. eapply zends_bind; [apply zreads_byte|].
  eapply zends_bind; [apply zreads_byte|]. cbv zeta.
  rewrite F1, F2, F3, F4, F5, F6, F7, b2z_z2b_small by done.
  eapply zends_bind; [by apply zreads_u16|]. eapply zends_bind.
  { apply (zreads_props _ ConnectProperties_step); [apply ConnectProperties_switches| |done].
    intros p Hcp. by apply ConnectProperties_unpacks, Hp. }
  eapply zends_bind; [by apply zreads_str|].
  eapply (zends_bind _ _ _ _
    (norm_props WillProperties_Encode (WillProps c), WillTopic c, WillPayload c)).
  { destruct (WillFlag c).
    - destruct Hwill as [-> Hok2], Hw as (Hwp & Hwt & Hwm). eapply zreads_bind.
      { apply (zreads_props _ WillProperties_step); [apply WillProperties_switches| |done].
        intros p Hcp. by apply WillProperties_unpacks, Hwp. }
      eapply zreads_bind; [by apply zreads_str|]. rewrite <-(app_nil_r (EncodeBytes _)).
      eapply zreads_bind; [by apply zreads_bin|apply zreads_ret].
    - destruct Hw as (Hw1 & Hw2 & Hw3). rewrite Hwill, Hw1, Hw2, Hw3. apply zreads_ret. }
  eapply (zends_bind _ _ _ _ (Username c)).
  { destruct (UsernameFlag c); [by apply zreads_str|]. rewrite Hu. apply zreads_ret. }
  apply zends_reads. rewrite <-(app_nil_r (if PasswordFlag c then _ else _)).
  eapply (zreads_bind _ _ _ _ (Password c)).
  { destruct (PasswordFlag c); [by apply zreads_bin|]. rewrite Hpw. apply zreads_ret. }
  rewrite <-Hr. destruct c. apply zreads_ret.
Qed.

(** ** Whole packets *)

(** The packets whose encoding the zero-copy reader accepts: not those whose
    [Unpack] reads up to [io.EOF], which a zero-copy reader never gives. *)
Definition zero_ok (cp : ControlPacket) (b : list byte) : Prop :=
  match cp with
  | PSubAck _ | PUnsubAck _ | PUnsubscribe _ => False
  | PPubRec _ | PPubRel _ | PPubComp _ => (3 < length b)%nat
  | _ => True
  end.

Lemma UnpackData_body5 cp b fh cp0 : fields_ok cp → body cp = Ret b → Z.of_nat (length b) < 2 ^ 28 →
  PacketType fh = Type_ cp → QoS fh = QoS (Header cp) →
  NewControlPacketWithHeader fh = Ret cp0 → zero_ok cp b →
  UnpackData cp0 b = Ret (setHeader fh (norm cp)).
Proof.
  intros Hok Hb Hl Ht Hq. unfold NewControlPacketWithHeader. rewrite Ht.
  assert (Hmin : ∀ p, ack_ok p → minimal_body p = Ret b → (3 < length b)%nat →
    PubAck_Unpack (mkAckPacket fh 0 None None) (mkReader b ErrBufferTooShort) =
    Ret (norm_minimal p <| AckHeader := fh |>, mkReader [] ErrBufferTooShort)).
  { intros p Hp Hb' Hlen.
    destruct (minimal_body_cases p b Hp Hb' Hl) as [[-> _]|(rc & Hrc & [[-> _]|(-> & Hv & ->)])].
    1-2: simpl in Hlen; lia. by apply PubAck_Unpack_block. }
  destruct cp; cbn [Type_]; intros [= <-] Hz; try done; cbn [UnpackData Unpack body zero_ok] in *;
    change (as_reader (NewZeroCopyReader b)) with (mkReader b ErrBufferTooShort);
    unfold mbind, ST_bind, PubRec_Unpack, PubRel_Unpack, PubComp_Unpack.
  - by rewrite (Connect_UnpackBytes_body c fh b).
  - by rewrite (ConnAck_Unpack_body5 c fh b).
  - by rewrite (Publish_UnpackBytes_body p fh b).
  - by rewrite (PubAck_Unpack_body5 p fh b).
  - by rewrite (Hmin p).
  - by rewrite (Hmin p).
  - by rewrite (Hmin p).
  - by rewrite (Subscribe_UnpackBytes_body s fh b).
  - by rewrite (Disconnect_Unpack_body5 d fh b).
  - by rewrite (Auth_Unpack_body5 a fh b).
Qed.

(** [ReadPacketBytes] on a header and the body it announces. *)
Lemma ReadPacketBytes_framed fh b rest :
  header_wf fh → RemainingLength fh = Z.of_nat (length b) →
  let hdr := flags_byte fh :: vbi_digits 4 (RemainingLength fh) in
  Z.of_nat (length (hdr ++ b ++ rest)) < 2 ^ 62 →
  ReadPacketBytes (hdr ++ b ++ rest) =
  (cp ← NewControlPacketWithHeader fh; cp ← UnpackData cp b;
   mret (cp, Z.of_nat (length (hdr ++ b)))).
Proof.
  intros Hwf Hrl hdr Hl. pose proof Hwf as (Hf & Hq & Hn).
  destruct (validateFlags_inv _ Hf) as (Hpt & Hq' & _). unfold hdr in *. clear hdr.
  rewrite <-!app_comm_cons in *. set (ds := vbi_digits 4 (RemainingLength fh)) in *.
  assert (Hds : (1 ≤ length ds ≤ 4)%nat) by (apply vbi_digits_length; simpl; lia).
  unfold ReadPacketBytes. cbn [length] in Hl |- *. rewrite !length_app in *.
  rewrite (proj2 (Z.ltb_ge _ 2)) by lia.
  destruct (zreads_vbi (RemainingLength fh) Hn (NewZeroCopyReader (ds ++ b ++ rest)) (b ++ rest))
    as (z & -> & Hz & Hd & Hr); [apply zok_new| |done|].
  { unfold zlen. cbn [zdata NewZeroCopyReader]. rewrite !length_app. cbn [length] in Hl. lia. }
  unfold mbind at 1, outcome_bind at 1. pose proof (zrest_length z Hz) as Hzl.
  rewrite Hr in Hzl. unfold zlen in Hzl. rewrite Hd in Hzl. cbn [zdata NewZeroCopyReader] in Hzl.
  rewrite !length_app in Hzl. unfold Offset. rewrite Hrl.
  assert (Hoff : zoffset z = Z.of_nat (length ds)) by lia. rewrite Hoff.
  rewrite (proj2 (Z.ltb_ge _ _)) by lia.
  rewrite header_of_flags by lia.
  change (set_RemainingLength _ (set_RemainingLength 0 fh))
    with (set_RemainingLength (Z.of_nat (length b)) fh).
  rewrite <-Hrl, set_RemainingLength_id, Hrl.
  assert (Hs : slice (flags_byte fh :: ds ++ b ++ rest) (1 + Z.of_nat (length ds))
    (1 + Z.of_nat (length ds) + Z.of_nat (length b)) = Some b).
  { unfold slice. rewrite (proj2 (Z.leb_le 0 _)), (proj2 (Z.leb_le (1 + _) _)),
      (proj2 (Z.leb_le (1 + _ + _) _)) by (cbn [length]; rewrite ?length_app; lia). cbn [andb].
    replace (Z.to_nat (1 + Z.of_nat (length ds))) with (S (length ds)) by lia.
    rewrite skipn_cons, drop_app_length. f_equal.
    replace (Z.to_nat _) with (length b) by lia. apply take_app_length. }
  rewrite Hs. destruct (NewControlPacketWithHeader fh) as [cp| |]; [|done..].
  unfold mbind, outcome_bind. destruct (UnpackData cp b); [|done..].
  unfold mret, outcome_ret. do 2 f_equal. lia.
Qed.

(** ** The packets it refuses *)

Lemma consumes_Read n : consumes (Read n).
Proof.
  intros r bs r'. unfold Read. destruct (rbuf r) as [|b l] eqn:E; [done|]. rewrite <-E.
  intros [= _ <-]. cbn [rbuf rend]. rewrite length_drop. split; [lia|done].
Qed.
Lemma consumes_lift {A} (o : outcome GoErr A) : consumes (st_lift o).
Proof. intros r a r'. destruct o; [|done..]. by intros [= _ <-]. Qed.
Lemma consumes_ReadProperties {P} (unpack : dec P) old : consumes (ReadProperties unpack old).
Proof.
  apply consumes_bind; [auto with consumes|]. intros n. case_match; [auto with consumes|].
  apply consumes_bind; [apply consumes_Read|]. intros buf.
  apply consumes_bind; [apply consumes_lift|auto with consumes].
Qed.

Lemma SubAck_Unpack_noeof s l e res : e ≠ EOF → SubAck_Unpack s (mkReader l e) ≠ Ret res.
Proof.
  intros He H. destruct res as [s' r']. unfold SubAck_Unpack in H.
  apply bind_inv in H as (id & r1 & H1 & H). apply bind_inv in H as (ps & r2 & H2 & H).
  apply bind_inv in H as (rcs & r3 & H3 & _).
  apply consumes_DecodeUint16 in H1 as [_ H1]. apply consumes_ReadProperties in H2 as [_ H2].
  unfold ReadAll in H3. rewrite decide_False in H3 by (rewrite H2, H1; done). done.
Qed.

Lemma DecodeBytes_fail l e e' : e ≠ EOF → DecodeBytes (mkReader l e) = Fail e' → e' = e.
Proof.
  intros He H. apply (DecodeString_fail l); [done|].
  unfold DecodeString, mbind, ST_bind. by rewrite H.
Qed.

Lemma Unsubscribe_topics_noeof5 fuel : ∀ acc r res, rend r ≠ EOF →
  Unsubscribe_topics fuel acc r ≠ Ret res.
Proof.
  induction fuel as [|fuel IH]; intros acc [l e] res He; [done|]. cbn [Unsubscribe_topics rend] in *.
  unfold or_eof. destruct (DecodeBytes (mkReader l e)) as [[t r]|e'|] eqn:E; [| |done].
  - apply consumes_DecodeBytes in E as [_ E]. apply IH. by rewrite E.
  - apply DecodeBytes_fail in E as ->; [|done]. by destruct e.
Qed.

Lemma Unsubscribe_Unpack_noeof u l e res : e ≠ EOF → Unsubscribe_Unpack u (mkReader l e) ≠ Ret res.
Proof.
  intros He H. destruct res as [u' r']. unfold Unsubscribe_Unpack in H.
  apply bind_inv in H as (id & r1 & H1 & H). apply bind_inv in H as (ps & r2 & H2 & H).
  apply bind_inv in H as (ts & r3 & H3 & _).
  apply consumes_DecodeUint16 in H1 as [_ H1]. apply consumes_ReadProperties in H2 as [_ H2].
  apply Unsubscribe_topics_noeof5 in H3; [done|by rewrite H2, H1].
Qed.

Lemma PubAck_Unpack_short p id rest e : u16_ok id → e ≠ EOF → (length rest ≤ 1)%nat →
  ∃ e', PubAck_Unpack p (mkReader (EncodeUint16 id ++ rest) e) = Fail e'.
Proof.
  intros Hi He Hr. unfold PubAck_Unpack. dec_step. destruct rest as [|b [|]]; [| |simpl in Hr; lia].
  - unfold or_eof. rewrite DecodeByte_nil. destruct e; eauto. done.
  - rewrite (or_eof_ret _ _ _ _ _ _ (DecodeByte_cons _ _ _)). unfold or_eof.
    change (DecodeVBI (mkReader [] e)) with (Fail (E := GoErr) (A := Z * reader) e).
    destruct e; eauto. done.
Qed.

Lemma UnpackData_refused cp b fh cp0 : fields_ok cp → body cp = Ret b →
  Z.of_nat (length b) < 2 ^ 28 → PacketType fh = Type_ cp →
  NewControlPacketWithHeader fh = Ret cp0 → ¬ zero_ok cp b →
  ∃ e, UnpackData cp0 b = Fail e.
Proof.
  intros Hok Hb Hl Ht. unfold NewControlPacketWithHeader. rewrite Ht.
  pose proof (λ cp, nopanic_Unpack5 cp (mkReader b ErrBufferTooShort)) as Hnp.
  assert (Hmin : ∀ p q, ack_ok p → minimal_body p = Ret b → ¬ (3 < length b)%nat →
    ∃ e, PubAck_Unpack q (mkReader b ErrBufferTooShort) = Fail e).
  { intros p q Hp Hb' Hlen. pose proof Hp as (Hi & _).
    destruct (minimal_body_cases p b Hp Hb' Hl) as [[-> _]|(rc & Hrc & [[-> _]|(-> & Hv & _)])].
    - rewrite <-(app_nil_r (EncodeUint16 _)). by apply PubAck_Unpack_short; [| |simpl; lia].
    - by apply PubAck_Unpack_short; [| |simpl; lia].
    - exfalso. apply Hlen. unfold block.
      assert (1 ≤ length (vbi_digits 4 (Z.of_nat (length (default []
        (BasicProperties_Encode <$> AckProps p))))))%nat 
        by (apply vbi_digits_length; [exact Hv|lia]).
      rewrite length_app. cbn [length EncodeUint16]. rewrite length_app. lia. }
  destruct cp; cbn [Type_]; intros [= <-] Hz; try (exfalso; by apply Hz);
    cbn [UnpackData Unpack body zero_ok] in *;
    change (as_reader (NewZeroCopyReader b)) with (mkReader b ErrBufferTooShort);
    unfold mbind, ST_bind, PubRec_Unpack, PubRel_Unpack, PubComp_Unpack, UnsubAck_Unpack.
  1-3: destruct (Hmin p (mkAckPacket fh 0 None None) Hok Hb Hz) as [e ->]; by exists e.
  - specialize (Hnp (PSubAck (mkSubAck fh 0 None None))). cbn [Unpack] in Hnp.
    destruct (SubAck_Unpack _ _) as [res| |] eqn:E; [|by eexists|].
    + by apply SubAck_Unpack_noeof in E.
    + unfold mbind, ST_bind in Hnp. by rewrite E in Hnp.
  - specialize (Hnp (PUnsubscribe (mkUnsubscribe fh 0 None []))). cbn [Unpack] in Hnp.
    destruct (Unsubscribe_Unpack _ _) as [res| |] eqn:E; [|by eexists|].
    + by apply Unsubscribe_Unpack_noeof in E.
    + unfold mbind, ST_bind in Hnp. by rewrite E in Hnp.
  - specialize (Hnp (PSubAck (mkSubAck fh 0 None None))). cbn [Unpack] in Hnp.
    destruct (SubAck_Unpack _ _) as [res| |] eqn:E; [|by eexists|].
    + by apply SubAck_Unpack_noeof in E.
    + unfold mbind, ST_bind in Hnp. by rewrite E in Hnp.
Qed.

(** ** No panic, whatever the slice holds *)

Lemma DecodeVBI_range r n r' : DecodeVBI r = Ret (n, r') → 0 <= n < 2 ^ 28.
Proof.
  intros (ds & _ & _ & Hl & Hn)%DecodeVBI_inv. split; [lia|].
  eapply Z.lt_le_trans; [apply Hn|]. apply Z.pow_le_mono_r; lia.
Qed.

(** [m] moves forward inside the slice, or fails. *)
Definition zsafe {A} (m : zdec A) : Prop := ∀ z, zok z → zlen z < 2 ^ 62 →
  match m z with
  | Ret (_, z') => zok z' ∧ zdata z' = zdata z ∧ (length (zrest z') ≤ length (zrest z))%nat
  | Fail _ => True
  | Panic => False
  end.
Create HintDb zsafe.

Lemma zsafe_ret {A} (a : A) : zsafe (mret a).
Proof. by intros z Hz Hl. Qed.

Lemma zsafe_bind {A B} (m : zdec A) (k : A → zdec B) :
  zsafe m → (∀ a, zsafe (k a)) → zsafe (m ≫= k).
Proof.
  intros Hm Hk z Hz Hl. specialize (Hm z Hz Hl). unfold mbind, ST_bind.
  destruct (m z) as [[a z1]| |]; [|done..]. destruct Hm as (Hz1 & Hd & Hr).
  specialize (Hk a z1 Hz1). rewrite (zlen_eq _ _ Hd) in Hk. specialize (Hk Hl).
  destruct (k a z1) as [[b z2]| |]; [|done..]. rewrite <-Hd. destruct Hk as (? & ? & ?).
  split_and!; [done..|lia].
Qed.

Lemma zsafe_simc {A} (m : zdec A) (d : dec A) : simc m d → nopanic d → consumes d → zsafe m.
Proof.
  intros Hs Hn Hc z Hz _. specialize (Hs z EOF Hz). unfold agree in Hs.
  specialize (Hn (mkReader (zrest z) EOF)).
  destruct (d _) as [[a r]| |] eqn:E, (m z) as [[a' z']| |]; try done.
  destruct Hs as (_ & Hz' & Hd & ->). by apply Hc in E as [E _].
Qed.

Lemma zsafe_byte : zsafe ReadByte.
Proof. eapply zsafe_simc; eauto using simc_ReadByte with nopanic consumes. Qed.
Lemma zsafe_u16 : zsafe ReadUint16.
Proof. eapply zsafe_simc; eauto using simc_ReadUint16 with nopanic consumes. Qed.
Lemma zsafe_str : zsafe ReadString.
Proof. eapply zsafe_simc; eauto using simc_ReadString with nopanic consumes. Qed.
Lemma zsafe_bin : zsafe ReadBytesNoCopy.
Proof. eapply zsafe_simc; [apply simc_ReadBytes|auto with nopanic consumes..]. Qed.
#[export] Hint Resolve zsafe_ret zsafe_byte zsafe_u16 zsafe_str zsafe_bin : zsafe.

Lemma zsafe_N n : 0 <= n < 2 ^ 28 → zsafe (ReadN n).
Proof.
  intros Hn z Hz Hl. pose proof Hz as Hz'. unfold zok in Hz'. unfold ReadN.
  rewrite !i64_small by lia. destruct (_ <? _) eqn:E; bool_prop; [done|].
  pose proof (zrest_length z Hz) as Hr. rewrite slice_zrest by (done || lia).
  split_and!; [|done|].
  - unfold zok. change (zlen (set_zoffset _ z)) with (zlen z). cbn [zoffset set_zoffset]. lia.
  - rewrite zrest_advance by (done || lia). rewrite length_drop. lia.
Qed.

Lemma zsafe_props {P} (stepB : Z → P → zdec P) step `{!PropSwitch step} zero old :
  switches_agree stepB step → zsafe (ReadPropertiesBytes (unpackBytes_props stepB zero) old).
Proof.
  intros Ha z Hz Hl. unfold ReadPropertiesBytes. unfold mbind at 1, ST_bind at 1.
  pose proof (simc_ReadVBI z EOF Hz) as Hv. unfold agree in Hv.
  pose proof (nopanic_DecodeVBI (mkReader (zrest z) EOF)).
  destruct (DecodeVBI _) as [[n r]| |] eqn:E, (ReadVBI z) as [[n' z1]| |]; try done.
  destruct Hv as (-> & Hz1 & Hd & ->). pose proof (consumes_DecodeVBI _ _ _ E) as [Hc _].
  apply DecodeVBI_range in E as Hb.
  destruct (0 <? n) eqn:En; bool_prop; [|done]. rewrite <-(zlen_eq _ _ Hd) in Hl.
  unfold mbind, ST_bind. pose proof (zsafe_N n ltac:(lia) z1 Hz1 Hl) as HN.
  destruct (ReadN n z1) as [[pd z2]| |]; [|done..]. unfold st_lift.
  pose proof (unpackBytes_nopanic stepB step Ha zero pd).
  destruct (unpackBytes_props _ _ _); [|done..]. destruct HN as (? & Hd2 & ?).
  cbn [rbuf] in Hc. split_and!; [done|by rewrite <-Hd, <-Hd2|lia].
Qed.

Lemma zsafe_opts fuel : ∀ acc z, zok z → zlen z < 2 ^ 62 → (length (zrest z) < fuel)%nat →
  Subscribe_opts_z fuel acc z ≠ Panic.
Proof.
  induction fuel as [|fuel IH]; intros acc z Hz Hl Hf; [lia|]. cbn [Subscribe_opts_z].
  destruct (_ <=? 0); [done|]. unfold mbind, ST_bind.
  pose proof (zsafe_str z Hz Hl) as H1. destruct (ReadString z) as [[t z1]| |]; [|done..].
  destruct H1 as (Hz1 & Hd1 & Hr1). rewrite <-(zlen_eq _ _ Hd1) in Hl.
  pose proof (simc_ReadByte z1 EOF Hz1) as H2. unfold agree in H2.
  destruct (zrest z1) as [|b l] eqn:Er; [by destruct (ReadByte z1) as [[]| |]|].
  rewrite DecodeByte_cons in H2. destruct (ReadByte z1) as [[b' z2]| |]; [|done..].
  destruct H2 as (-> & Hz2 & Hd2 & [= Hr2]). simpl in Hr1.
  apply IH; [done|by rewrite (zlen_eq _ _ Hd2)|rewrite <-Hr2; lia].
Qed.

Lemma zsafe_remaining : zsafe ReadRemaining.
Proof.
  intros z Hz Hl. unfold ReadRemaining. pose proof Hz as Hz'. unfold zok in Hz'.
  replace (zlen z) with (zoffset z + (zlen z - zoffset z)) by lia.
  rewrite slice_zrest by (done || lia). split_and!; [|done|].
  - unfold zok. change (zlen (set_zoffset _ z)) with (zlen z). cbn [zoffset set_zoffset]. lia.
  - rewrite zrest_advance by (done || lia). rewrite length_drop. lia.
Qed.
#[export] Hint Resolve zsafe_remaining : zsafe.

(** A reader run from the start of a slice. *)
Lemma zsafe_run {A} (m : zdec A) data : zsafe m → Z.of_nat (length data) < 2 ^ 62 →
  fst <$> m (NewZeroCopyReader data) ≠ Panic.
Proof.
  intros Hm Hl. specialize (Hm _ (zok_new data) Hl). by destruct (m _) as [[]| |].
Qed.

Lemma zsafe_publish_props old :
  zsafe (ReadPropertiesBytes (PublishProperties_unpackBytes PublishProperties_zero) old).
Proof. apply (zsafe_props _ PublishProperties_step), PublishProperties_switches. Qed.
Lemma zsafe_connect_props old :
  zsafe (ReadPropertiesBytes (ConnectProperties_unpackBytes ConnectProperties_zero) old).
Proof. apply (zsafe_props _ ConnectProperties_step), ConnectProperties_switches. Qed.
Lemma zsafe_will_props old :
  zsafe (ReadPropertiesBytes (WillProperties_unpackBytes WillProperties_zero) old).
Proof. apply (zsafe_props _ WillProperties_step), WillProperties_switches. Qed.
#[export] Hint Resolve zsafe_publish_props zsafe_connect_props zsafe_will_props : zsafe.

Ltac zsafe := repeat
  match goal with
  | |- zsafe _ => first [ solve [auto with zsafe] | apply zsafe_bind | case_match ]
  | |- ∀ _, _ => intros ?
  end.

Lemma Publish_UnpackBytes_nopanic p data : Z.of_nat (length data) < 2 ^ 62 →
  Publish_UnpackBytes p data ≠ Panic.
Proof. intros Hl. apply zsafe_run; [|done]. zsafe. Qed.

Lemma Connect_UnpackBytes_nopanic c data : Z.of_nat (length data) < 2 ^ 62 →
  Connect_UnpackBytes c data ≠ Panic.
Proof. intros Hl. apply zsafe_run; [|done]. zsafe. Qed.

Lemma Subscribe_UnpackBytes_nopanic s data : Z.of_nat (length data) < 2 ^ 62 →
  Subscribe_UnpackBytes s data ≠ Panic.
Proof.
  intros Hl. unfold Subscribe_UnpackBytes, mbind, ST_bind. pose proof (zok_new data) as Hz.
  assert (Hr : length (zrest (NewZeroCopyReader data)) = length data) by done.
  pose proof (zsafe_u16 _ Hz Hl) as H1. destruct (ReadUint16 _) as [[id z1]| |]; [|done..].
  destruct H1 as (Hz1 & Hd1 & Hr1). change (zlen (NewZeroCopyReader data) < 2 ^ 62) in Hl.
  rewrite <-(zlen_eq _ _ Hd1) in Hl.
  pose proof (zsafe_props _ SubscribeProperties_step SubscribeProperties_zero (SubscribeProps s)
    SubscribeProperties_switches z1 Hz1 Hl) as H2. unfold SubscribeProperties_unpackBytes.
  destruct (ReadPropertiesBytes _ _ z1) as [[ps z2]| |]; [|done..]. destruct H2 as (Hz2 & Hd2 & Hr2).
  pose proof (zsafe_opts (S (length data)) (Opts s) z2 Hz2) as H3.
  destruct (Subscribe_opts_z _ _ z2) as [[]| |]; [done..|]. exfalso.
  apply H3; [by rewrite (zlen_eq _ _ Hd2)|lia|done].
Qed.

Lemma UnpackData_nopanic cp data : Z.of_nat (length data) < 2 ^ 62 → UnpackData cp data ≠ Panic.
Proof.
  intros Hl. pose proof (nopanic_Unpack5 cp (as_reader (NewZeroCopyReader data))) as Hu.
  pose proof (λ p, Publish_UnpackBytes_nopanic p data Hl) as HP.
  pose proof (λ c, Connect_UnpackBytes_nopanic c data Hl) as HC.
  pose proof (λ s, Subscribe_UnpackBytes_nopanic s data Hl) as HS.
  destruct cp as [c| |p| | | | |s| | | | | | |]; cbn [UnpackData] in *;
    try (by destruct (Unpack _ _) as [[]| |]).
  - specialize (HC c). by destruct (Connect_UnpackBytes _ _).
  - specialize (HP p). by destruct (Publish_UnpackBytes _ _).
  - specialize (HS s). by destruct (Subscribe_UnpackBytes _ _).
Qed.

(** The zero-copy reader returns on every slice. *)
Theorem v5_zerocopy_safe data : Z.of_nat (length data) < 2 ^ 62 → ReadPacketBytes data ≠ Panic.
Proof.
  intros Hl. destruct data as [|b0 rest]; [done|]. unfold ReadPacketBytes.
  case_match; [done|]. pose proof (simc_ReadVBI _ EOF (zok_new rest)) as Hv. unfold agree in Hv.
  pose proof (nopanic_DecodeVBI (mkReader (zrest (NewZeroCopyReader rest)) EOF)).
  destruct (DecodeVBI _) as [[n r]| |] eqn:E, (ReadVBI _) as [[n' z]| |]; try done.
  destruct Hv as (-> & Hz & Hd & _). apply DecodeVBI_range in E as Hn.
  unfold mbind, outcome_bind. destruct (_ <? 1 + Offset z + n) eqn:El; bool_prop; [done|].
  destruct (NewControlPacketWithHeader _) as [cp| |] eqn:En; [|done|].
  2: { unfold NewControlPacketWithHeader in En. by repeat case_match. }
  unfold Offset in *. unfold zok in Hz. unfold slice.
  rewrite (proj2 (Z.leb_le 0 _)), (proj2 (Z.leb_le (1 + zoffset z) _)),
    (proj2 (Z.leb_le (1 + zoffset z + n) _)) by lia. cbn [andb].
  match goal with |- context [UnpackData cp ?d] => pose proof (UnpackData_nopanic cp d) as Hu end.
  destruct (UnpackData _ _); [done..|]. intros _. apply Hu; [|done].
  rewrite length_take, length_drop. cbn [length] in *. lia.
Qed.

(** The zero-copy reader on what the MQTT 5.0 encoder writes: for every
    well-formed packet, with any data behind it, it returns the packet the
    stream reader returns and the number of bytes the packet takes; except that
    SUBACK, UNSUBACK and UNSUBSCRIBE packets, and PUBREC, PUBREL and PUBCOMP
    packets in a minimal format, are refused. *)
Theorem v5_zerocopy cp b rest bs cp' :
  packet_wf5 cp b → Encode cp = Ret (bs, cp') → Z.of_nat (length (bs ++ rest)) < 2 ^ 62 →
  ReadPacket (NewReader (bs ++ rest)) = Ret (stamp b (norm cp), NewReader rest) ∧
  (zero_ok cp b →
   ReadPacketBytes (bs ++ rest) = Ret (stamp b (norm cp), Z.of_nat (length bs))) ∧
  (¬ zero_ok cp b → ∃ e, ReadPacketBytes (bs ++ rest) = Fail e).
Proof.
  intros Hwf He Hl. rewrite (Encode_body5 cp b) in He by done.
  apply Ret_inj, (f_equal fst) in He. cbn [fst] in He. subst bs.
  split; [apply ReadPacketLimit_encoded5; [done|lia]|].
  destruct Hwf as (Hok & Ht & Hb & Hh).
  set (fh := set_RemainingLength (Z.of_nat (length b)) (Header cp)) in *.
  change (flags_byte (Header cp) :: vbi_digits 4 (Z.of_nat (length b)) ++ b)
    with ((flags_byte fh :: vbi_digits 4 (RemainingLength fh)) ++ b) in Hl |- *.
  rewrite <-app_assoc in Hl |- *. rewrite (ReadPacketBytes_framed fh b rest Hh eq_refl Hl).
  destruct (Unpack_body5 cp b fh Hok Hb) as (cp0 & Hn & _); [apply Hh|done|done|]. rewrite Hn.
  unfold mbind, outcome_bind. split; intros Hz.
  - rewrite (UnpackData_body5 cp b fh cp0) by (done || apply Hh). unfold stamp.
    by rewrite norm_header.
  - destruct (UnpackData_refused cp b fh cp0) as [e ->]; [done|done|apply Hh|done|done|done|].
    by exists e.
Qed.

Lemma v5_zerocopy_witness :
  ReadPacketBytes [x32; x14; x00; x01; x61; x00; x07; x0c; x02; x00; x00; x00; x3c;
    x26; x00; x01; x6b; x00; x01; x76; x68; x69; xff] =
  Ret (setHeader (mkFixedHeader PublishType false 1 false 20) example_publish5, 22).
Proof.
  refine (proj1 (proj2 (v5_zerocopy example_publish5 [x00; x01; x61; x00; x07; x0c; x02; x00; x00;
    x00; x3c; x26; x00; x01; x6b; x00; x01; x76; x68; x69] [xff] [x32; x14; x00; x01; x61; x00; x07;
    x0c; x02; x00; x00; x00; x3c; x26; x00; x01; x6b; x00; x01; x76; x68; x69] _ _ _ _)) I).
  - split_and!; [|reflexivity|vm_compute; reflexivity|].
    + split_and!; [unfold str_ok; simpl; lia|reflexivity|simpl; unfold u16_ok; lia|].
      intros p [= <-]. split_and!; try done;
        try (intros v [= <-]; unfold u32_ok; lia); try (unfold str_ok, bin_ok; simpl; lia).
      repeat constructor; unfold str_ok; simpl; lia.
    + split_and!; [reflexivity|simpl; lia..].
  - vm_compute. reflexivity.
  - simpl. lia.
Defined.
