(* ===== verification/Inflight.v ===== *)
(** * In-flight tracking and the offline queue (src/storage/messages)

    [inflight.go] keeps the QoS 1 and QoS 2 messages that wait for an
    acknowledgement, keyed by direction and packet identifier; [queue.go] is
    the bounded FIFO for offline clients.  An envelope pointer is its identity
    ([None] is nil).  [message.Release] is an effect: an operation returns the
    envelopes it released.  The mutexes make each method atomic, and
    [time.Now] is an argument.

    Theorems: the capacity bound and the counters, conservation of envelope
    ownership, exactly-once admission of inbound QoS 2 messages, the retry
    rule of [GetExpired], and that the queue is a bounded FIFO. *)

From Stdlib Require Import ZArith Lia Bool.
From stdpp Require Import prelude gmap strings.
From S2P Require Import Prelude.

(** ** errors.go *)

Inductive MsgErr :=
| ErrInflightFull | ErrQueueFull | ErrPacketNotFound | ErrInvalidDirection.

#[export] Instance MsgErr_eq_dec : EqDecision MsgErr.
Proof. solve_decision. Defined.

(** ** inflight.go *)

Module Inflight.

(** [InflightState] and [Direction] are Go ints. *)
Definition StatePublishSent : Z := 0.
Definition StatePubRecReceived : Z := 1.
Definition Outbound : Z := 0.
Definition Inbound : Z := 1.

(** A [*message.Envelope]. *)
Notation envelope := (option nat).

(** A [time.Time] in nanoseconds; [None] is the zero time. *)
Notation gotime := (option Z).

Record InflightMessage := mkInflightMessage {
  DeliveryAttemptedAt : gotime;
  SentAt : gotime;
  Message : envelope;
  State : Z;
  Retries : Z;
  MsgDirection : Z;
  MsgPacketID : Z
}.

(** [map[inflightKey]*InflightMessage], [counts [2]int] and [maxSize]. *)
Record inflight := mkInflight {
  messages : gmap (Z * Z) InflightMessage;
  counts : Z * Z;
  maxSize : Z
}.

Definition NewInflightTracker (max : Z) : inflight :=
  mkInflight ∅ (0, 0) (if max <=? 0 then 65535 else max).

(** [counts[direction]] for the two directions the callers check. *)
Definition count (d : Z) (c : Z * Z) : Z := if d =? Outbound then c.1 else c.2.
Definition count_add (d n : Z) (c : Z * Z) : Z * Z :=
  if d =? Outbound then (c.1 + n, c.2) else (c.1, c.2 + n).

(** [message.Release]: what it gives back; releasing nil does nothing. *)
Definition release (e : envelope) : list nat := option_list e.

Definition new_message (packetID : Z) (msg : envelope) (direction : Z) : InflightMessage :=
  mkInflightMessage None None msg StatePublishSent 0 direction packetID.

(** [Add]: the tracker and the envelopes released. *)
Definition Add (packetID : Z) (msg : envelope) (direction : Z) (t : inflight) :
    outcome MsgErr (inflight * list nat) :=
  if negb (direction =? Outbound) && negb (direction =? Inbound) then Fail ErrInvalidDirection
  else
    let key := (direction, packetID) in
    match messages t !! key with
    | None =>
        if maxSize t <=? count direction (counts t) then Fail ErrInflightFull
        else Ret (mkInflight (<[key := new_message packetID msg direction]> (messages t))
                    (count_add direction 1 (counts t)) (maxSize t), [])
    | Some existing =>
        let released := if decide (Message existing = msg) then [] else release (Message existing) in
        Ret (mkInflight (<[key := new_message packetID msg direction]> (messages t))
               (counts t) (maxSize t), released)
    end.

Definition addInbound (packetID : Z) (msg : envelope) (direction : Z) (t : inflight) :
    outcome MsgErr (bool * inflight) :=
  if negb (direction =? Inbound) then Fail ErrInvalidDirection
  else
    let key := (direction, packetID) in
    match messages t !! key with
    | Some _ => Ret (false, t)
    | None =>
        if maxSize t <=? count direction (counts t) then Fail ErrInflightFull
        else Ret (true, mkInflight (<[key := new_message packetID msg direction]> (messages t))
                    (count_add direction 1 (counts t)) (maxSize t))
    end.

Definition AddInbound (packetID : Z) (msg : envelope) (t : inflight) :
    outcome MsgErr (bool * inflight) := addInbound packetID msg Inbound t.

Definition Get (packetID : Z) (t : inflight) : option InflightMessage :=
  messages t !! (Outbound, packetID).
Definition GetInbound (packetID : Z) (t : inflight) : option InflightMessage :=
  messages t !! (Inbound, packetID).
Definition Has (packetID : Z) (t : inflight) : bool :=
  bool_decide (is_Some (messages t !! (Outbound, packetID))).

(** An update through the pointer the map holds. *)
Definition modify (key : Z * Z) (f : InflightMessage → InflightMessage) (t : inflight) : inflight :=
  mkInflight (alter f key (messages t)) (counts t) (maxSize t).

Definition set_State (s : Z) (m : InflightMessage) : InflightMessage :=
  mkInflightMessage (DeliveryAttemptedAt m) (SentAt m) (Message m) s (Retries m)
    (MsgDirection m) (MsgPacketID m).
Definition set_SentAt (now : gotime) (m : InflightMessage) : InflightMessage :=
  mkInflightMessage (DeliveryAttemptedAt m) now (Message m) (State m) (Retries m)
    (MsgDirection m) (MsgPacketID m).
Definition set_DeliveryAttemptedAt (now : gotime) (m : InflightMessage) : InflightMessage :=
  mkInflightMessage now (SentAt m) (Message m) (State m) (Retries m)
    (MsgDirection m) (MsgPacketID m).
Definition set_Retries (n : Z) (m : InflightMessage) : InflightMessage :=
  mkInflightMessage (DeliveryAttemptedAt m) (SentAt m) (Message m) (State m) n
    (MsgDirection m) (MsgPacketID m).

Definition UpdateState (packetID state : Z) (t : inflight) : outcome MsgErr inflight :=
  match messages t !! (Outbound, packetID) with
  | None => Fail ErrPacketNotFound
  | Some _ => Ret (modify (Outbound, packetID) (set_State state) t)
  end.

Definition ackDirection (packetID direction : Z) (t : inflight) :
    outcome MsgErr (envelope * inflight) :=
  let key := (direction, packetID) in
  match messages t !! key with
  | None => Fail ErrPacketNotFound
  | Some msg => Ret (Message msg, mkInflight (delete key (messages t))
                                    (count_add direction (-1) (counts t)) (maxSize t))
  end.

Definition Ack (packetID : Z) (t : inflight) : outcome MsgErr (envelope * inflight) :=
  ackDirection packetID Outbound t.
Definition AckInbound (packetID : Z) (t : inflight) : outcome MsgErr (envelope * inflight) :=
  ackDirection packetID Inbound t.

Definition Remove (packetID : Z) (t : inflight) : inflight * list nat :=
  let key := (Outbound, packetID) in
  match messages t !! key with
  | None => (t, [])
  | Some existing => (mkInflight (delete key (messages t))
                        (count_add Outbound (-1) (counts t)) (maxSize t),
                      release (Message existing))
  end.

Definition neverSentRetryDelay : Z := 500 * 1000000.

(** [Time.Sub] saturates at the ends of [time.Duration]. *)
Definition time_sub (a b : Z) : Z := Z.max (- 2 ^ 63) (Z.min (2 ^ 63 - 1) (a - b)).

Definition retry_due (now timeout : Z) (m : InflightMessage) : bool :=
  match SentAt m with
  | None =>
      match DeliveryAttemptedAt m with
      | None => false
      | Some t => neverSentRetryDelay <=? time_sub now t
      end
  | Some t => timeout <=? time_sub now t
  end.

(** [GetExpired] over the entries in the order the map gives them. *)
Definition GetExpired (now timeout : Z) (entries : list (Z * Z * InflightMessage)) :
    list InflightMessage :=
  omap (λ e, if negb (e.1.1 =? Outbound) then None
             else if retry_due now timeout e.2 then Some e.2 else None) entries.

Definition MarkSent (packetID now : Z) (t : inflight) : inflight :=
  modify (Outbound, packetID) (set_SentAt (Some now)) t.
Definition MarkDeliveryAttempted (packetID now : Z) (t : inflight) : inflight :=
  modify (Outbound, packetID) (set_DeliveryAttemptedAt (Some now)) t.

Definition MarkRetry (packetID now : Z) (t : inflight) : outcome MsgErr inflight :=
  match messages t !! (Outbound, packetID) with
  | None => Fail ErrPacketNotFound
  | Some _ => Ret (modify (Outbound, packetID)
                     (λ m, set_Retries (Retries m + 1) (set_SentAt (Some now) m)) t)
  end.

Definition Count (t : inflight) : Z := Z.of_nat (size (messages t)).
Definition IsFull (t : inflight) : bool := maxSize t <=? count Outbound (counts t).

(** [GetAll] and the loop of [Clear] over the entries in map order. *)
Definition GetAll (entries : list (Z * Z * InflightMessage)) : list InflightMessage := entries.*2.
Definition Clear (entries : list (Z * Z * InflightMessage)) (t : inflight) :
    inflight * list nat :=
  (mkInflight ∅ (0, 0) (maxSize t), concat ((λ e, release (Message e.2)) <$> entries)).

End Inflight.

(** ** queue.go *)

Module OfflineQueue.
Section queue.
(** The contents of an envelope; [Clone] copies them. *)
Context {Env : Type}.

Record queue := mkQueue { messages : list Env; maxSize : Z; evictOnFull : bool }.

Definition NewMessageQueue (max : Z) (evict : bool) : queue :=
  mkQueue [] (if max <=? 0 then 1000 else max) evict.

(** [Enqueue]: the queue and the evicted envelope, if any. *)
Definition Enqueue (msg : Env) (q : queue) : outcome MsgErr (queue * list Env) :=
  if maxSize q <=? Z.of_nat (length (messages q)) then
    if negb (evictOnFull q) then Fail ErrQueueFull
    else match messages q with
         | [] => Panic
         | evicted :: rest =>
             Ret (mkQueue (rest ++ [msg]) (maxSize q) (evictOnFull q), [evicted])
         end
  else Ret (mkQueue (messages q ++ [msg]) (maxSize q) (evictOnFull q), []).

Definition Dequeue (q : queue) : option Env * queue :=
  match messages q with
  | [] => (None, q)
  | msg :: rest => (Some msg, mkQueue rest (maxSize q) (evictOnFull q))
  end.

Definition Peek (q : queue) : option Env := head (messages q).
Definition Len (q : queue) : Z := Z.of_nat (length (messages q)).
Definition Queue_IsEmpty (q : queue) : bool := Len q =? 0.
Definition Queue_IsFull (q : queue) : bool := maxSize q <=? Len q.
Definition Drain (q : queue) : list Env * queue :=
  (messages q, mkQueue [] (maxSize q) (evictOnFull q)).
End queue.
Arguments queue Env : clear implicits.
End OfflineQueue.

(** * Properties *)

Module InflightFacts.
Import Inflight.

(** ** Histories *)

Inductive op :=
| OpAdd (packetID : Z) (msg : envelope) (direction : Z)
| OpAddInbound (packetID : Z) (msg : envelope)
| OpAck (packetID : Z)
| OpAckInbound (packetID : Z)
| OpUpdateState (packetID state : Z)
| OpMarkSent (packetID now : Z)
| OpMarkDeliveryAttempted (packetID now : Z)
| OpMarkRetry (packetID now : Z)
| OpRemove (packetID : Z)
| OpClear.

(** One call.  Besides the tracker: the envelopes whose ownership the tracker
    took, and those it gave up, by returning or by releasing them.  An error
    leaves the tracker as it was. *)
Definition step (o : op) (t : inflight) : inflight * list nat * list nat :=
  match o with
  | OpAdd p m d =>
      match Add p m d t with
      | Ret (t', released) =>
          (t', match messages t !! (d, p) with
               | Some old => if decide (Message old = m) then [] else release m
               | None => release m
               end, released)
      | _ => (t, [], [])
      end
  | OpAddInbound p m =>
      match AddInbound p m t with
      | Ret (true, t') => (t', release m, [])
      | _ => (t, [], [])
      end
  | OpAck p => match Ack p t with Ret (e, t') => (t', [], release e) | _ => (t, [], []) end
  | OpAckInbound p =>
      match AckInbound p t with Ret (e, t') => (t', [], release e) | _ => (t, [], []) end
  | OpUpdateState p s => (match UpdateState p s t with Ret t' => t' | _ => t end, [], [])
  | OpMarkSent p now => (MarkSent p now t, [], [])
  | OpMarkDeliveryAttempted p now => (MarkDeliveryAttempted p now t, [], [])
  | OpMarkRetry p now => (match MarkRetry p now t with Ret t' => t' | _ => t end, [], [])
  | OpRemove p => let '(t', released) := Remove p t in (t', [], released)
  | OpClear => let '(t', released) := Clear (map_to_list (messages t)) t in (t', [], released)
  end.

(** A history: the tracker, all envelopes taken, all given up. *)
Fixpoint run (ops : list op) (t : inflight) : inflight * list nat * list nat :=
  match ops with
  | [] => (t, [], [])
  | o :: ops =>
      let '(t1, taken1, out1) := step o t in
      let '(t2, taken2, out2) := run ops t1 in
      (t2, taken1 ++ taken2, out1 ++ out2)
  end.

(** ** The entries of one direction *)

Definition dir (d : Z) (m : gmap (Z * Z) InflightMessage) : gmap (Z * Z) InflightMessage :=
  filter (λ kv, kv.1.1 = d) m.

Lemma size_dir_insert d d' p x m : m !! (d', p) = None →
  size (dir d (<[(d', p) := x]> m)) = (size (dir d m) + if decide (d' = d) then 1 else 0)%nat.
Proof.
  intros Hm. unfold dir. case_decide as Hd.
  - rewrite map_filter_insert_True by done. rewrite map_size_insert_None; [lia|].
    apply map_lookup_filter_None. by left.
  - rewrite map_filter_insert_False by done. rewrite delete_id by done. lia.
Qed.

Lemma size_dir_delete d d' p x m : m !! (d', p) = Some x →
  size (dir d m) = (size (dir d (delete (d', p) m)) + if decide (d' = d) then 1 else 0)%nat.
Proof.
  intros Hm. rewrite <-(insert_delete_id m (d', p) x Hm) at 1.
  apply size_dir_insert, lookup_delete_eq.
Qed.

Lemma size_dir_alter d f k m : size (dir d (alter f k m)) = size (dir d m).
Proof.
  destruct (m !! k) as [x|] eqn:Hm; [|by rewrite alter_id by (by intros ? ?; simplify_eq)].
  assert (alter f k m = <[k := f x]> (delete k m)) as ->.
  { apply map_eq. intros k'. destruct (decide (k' = k)) as [->|].
    - by rewrite lookup_alter_eq, lookup_insert_eq, Hm.
    - by rewrite lookup_alter_ne, lookup_insert_ne, lookup_delete_ne. }
  destruct k as [d' p]. rewrite size_dir_insert by apply lookup_delete_eq.
  by rewrite (size_dir_delete d d' p x m Hm).
Qed.

(** ** The invariant *)

Record wf (t : inflight) : Prop := {
  wf_max : 0 < maxSize t;
  wf_count d : d = Outbound ∨ d = Inbound →
    count d (counts t) = Z.of_nat (size (dir d (messages t))) ∧
    count d (counts t) <= maxSize t;
  wf_entry d p x : messages t !! (d, p) = Some x →
    (d = Outbound ∨ d = Inbound) ∧ MsgDirection x = d ∧ MsgPacketID x = p
}.

Lemma count_count_add d d' n c : d = Outbound ∨ d = Inbound → d' = Outbound ∨ d' = Inbound →
  count d (count_add d' n c) = count d c + if decide (d' = d) then n else 0.
Proof.
  unfold count, count_add, Outbound, Inbound.
  intros [-> | ->] [-> | ->]; simpl; lia.
Qed.

Lemma wf_put d p m t : wf t → d = Outbound ∨ d = Inbound → messages t !! (d, p) = None →
  count d (counts t) < maxSize t →
  wf (mkInflight (<[(d, p) := new_message p m d]> (messages t))
        (count_add d 1 (counts t)) (maxSize t)).
Proof.
  intros [Hmax Hc He] Hd Hm Hlt. split; simpl; [done| |].
  - intros d' Hd'. destruct (Hc d' Hd') as [H1 H2]. rewrite count_count_add by done.
    rewrite size_dir_insert by done. case_decide; subst; lia.
  - intros d' p' x [[[= <- <-] <-]|[_ Hx]]%lookup_insert_Some; [done|by apply He].
Qed.

Lemma wf_drop d p x t : wf t → messages t !! (d, p) = Some x →
  wf (mkInflight (delete (d, p) (messages t)) (count_add d (-1) (counts t)) (maxSize t)).
Proof.
  intros [Hmax Hc He] Hx. destruct (He _ _ _ Hx) as [Hd _]. split; simpl; [done| |].
  - intros d' Hd'. destruct (Hc d' Hd') as [H1 H2]. rewrite count_count_add by done.
    pose proof (size_dir_delete d' d p x _ Hx) as Hs. case_decide; subst; lia.
  - intros d' p' y [_ Hy]%lookup_delete_Some. by apply He.
Qed.

Lemma wf_modify d p f t : wf t →
  (∀ x, MsgDirection (f x) = MsgDirection x ∧ MsgPacketID (f x) = MsgPacketID x) →
  wf (modify (d, p) f t).
Proof.
  intros [Hmax Hc He] Hf. split; simpl; [done| |].
  - intros d' Hd'. rewrite size_dir_alter. by apply Hc.
  - intros d' p' y. rewrite lookup_alter_Some.
    intros [([= <- <-] & x & Hx & ->)|[_ Hy]]; [|by apply He].
    destruct (Hf x) as [-> ->]. by apply He.
Qed.

Lemma wf_replace d p m x t : wf t → messages t !! (d, p) = Some x →
  wf (mkInflight (<[(d, p) := new_message p m d]> (messages t)) (counts t) (maxSize t)).
Proof.
  intros Hwf Hx. pose proof (wf_entry _ Hwf _ _ _ Hx) as (_ & Hd & Hp).
  pose proof (wf_modify d p (λ y, mkInflightMessage None None m StatePublishSent 0
                               (MsgDirection y) (MsgPacketID y)) t Hwf) as H.
  unfold modify in H.
  assert (Heq : alter (λ y, mkInflightMessage None None m StatePublishSent 0
                   (MsgDirection y) (MsgPacketID y)) (d, p) (messages t) =
                <[(d, p) := new_message p m d]> (messages t)).
  { apply map_eq. intros k. destruct (decide (k = (d, p))) as [->|].
    - rewrite lookup_alter_eq, lookup_insert_eq, Hx. simpl. by rewrite Hd, Hp.
    - by rewrite lookup_alter_ne, lookup_insert_ne. }
  rewrite Heq in H. by apply H.
Qed.

Lemma wf_step o t : wf t → wf (step o t).1.1.
Proof.
  intros Hwf. destruct o; simpl.
  - unfold Add. destruct (negb _ && negb _) eqn:E; [done|].
    assert (Hd : direction = Outbound ∨ direction = Inbound).
    { destruct (direction =? Outbound) eqn:E1; bool_prop; [by left|].
      destruct (direction =? Inbound) eqn:E2; bool_prop; [by right|done]. }
    destruct (messages t !! (direction, packetID)) as [x|] eqn:Hx; simpl;
      [by eapply wf_replace|].
    destruct (_ <=? _) eqn:El; [done|]. bool_prop. by apply wf_put.
  - unfold AddInbound, addInbound. simpl.
    destruct (messages t !! (Inbound, packetID)) as [x|] eqn:Hx; [done|].
    destruct (_ <=? _) eqn:El; [done|]. bool_prop. simpl. apply wf_put; auto.
  - unfold Ack, ackDirection. destruct (messages t !! _) eqn:Hx; [by eapply wf_drop|done].
  - unfold AckInbound, ackDirection. destruct (messages t !! _) eqn:Hx; [by eapply wf_drop|done].
  - unfold UpdateState. destruct (messages t !! _); [by apply wf_modify|done].
  - by apply wf_modify.
  - by apply wf_modify.
  - unfold MarkRetry. destruct (messages t !! _); [by apply wf_modify|done].
  - unfold Remove. destruct (messages t !! _) eqn:Hx; [by eapply wf_drop|done].
  - split; simpl; [apply Hwf| |done]. intros d Hd. pose proof (wf_max _ Hwf).
    unfold dir. rewrite map_filter_empty, map_size_empty.
    unfold count. simpl. destruct (d =? Outbound); simpl; lia.
Qed.

Lemma wf_new n : wf (NewInflightTracker n).
Proof.
  unfold NewInflightTracker. split; simpl; [destruct (n <=? 0) eqn:E; bool_prop; lia| |done].
  intros d Hd. unfold dir. rewrite map_filter_empty, map_size_empty.
  unfold count. simpl. destruct (d =? Outbound), (n <=? 0) eqn:E; bool_prop; simpl; lia.
Qed.

Lemma wf_run ops : ∀ t, wf t → wf (run ops t).1.1.
Proof.
  induction ops as [|o ops IH]; intros t Ht; [done|]. simpl.
  pose proof (wf_step o t Ht) as H1. destruct (step o t) as [[t1 a1] o1]. simpl in *.
  specialize (IH t1 H1). by destruct (run ops t1) as [[t2 a2] o2].
Qed.

(** In every history of the in-flight tracker each direction's counter is the
    number of its entries and never exceeds the capacity, so one direction
    cannot use up the other's; every entry carries the direction and packet
    identifier it is filed under. *)
Theorem inflight_bounded n ops : let t := (run ops (NewInflightTracker n)).1.1 in
  wf t ∧ Count t <= 2 * maxSize t.
Proof.
  intros t. assert (Hwf : wf t) by apply wf_run, wf_new. split; [done|].
  destruct (wf_count _ Hwf Outbound) as [H1 H2]; [by left|].
  destruct (wf_count _ Hwf Inbound) as [H3 H4]; [by right|].
  assert (Hs : size (messages t) = (size (dir Outbound (messages t)) +
                                    size (dir Inbound (messages t)))%nat); [|unfold Count; lia].
  assert (Hu : messages t = dir Outbound (messages t) ∪ dir Inbound (messages t)).
  { unfold dir. rewrite <-map_filter_or. symmetry. apply map_filter_id.
    intros [d p] x Hx. by apply (wf_entry _ Hwf) in Hx as [? _]. }
  rewrite Hu at 1. rewrite map_size_disj_union; [done|].
  apply map_disjoint_spec. intros k x y [_ Hx]%map_lookup_filter_Some [_ Hy]%map_lookup_filter_Some.
  simpl in *. by rewrite Hx in Hy.
Qed.

(** ** Ownership *)

(** The envelopes the tracker owns. *)
Definition held (m : gmap (Z * Z) InflightMessage) : list nat :=
  concat ((λ e, release (Message e.2)) <$> map_to_list m).

Lemma held_insert k x m : m !! k = None → held (<[k := x]> m) ≡ₚ release (Message x) ++ held m.
Proof. intros Hm. unfold held. by rewrite map_to_list_insert. Qed.

Lemma held_delete k x m : m !! k = Some x →
  held m ≡ₚ release (Message x) ++ held (delete k m).
Proof. intros Hm. unfold held. by rewrite <-(map_to_list_delete m k x Hm). Qed.

Lemma held_replace k x y m : m !! k = Some x →
  held (<[k := y]> m) ++ release (Message x) ≡ₚ held m ++ release (Message y).
Proof.
  intros Hm. rewrite <-insert_delete_eq, held_insert by apply lookup_delete_eq.
  rewrite (held_delete k x m Hm). solve_Permutation.
Qed.

Lemma held_alter f k m : (∀ x, Message (f x) = Message x) → held (alter f k m) ≡ₚ held m.
Proof.
  intros Hf. destruct (m !! k) as [x|] eqn:Hx; [|by rewrite alter_id by (by intros ? ?; simplify_eq)].
  assert (alter f k m = <[k := f x]> m) as ->.
  { apply map_eq. intros k'. destruct (decide (k' = k)) as [->|].
    - by rewrite lookup_alter_eq, lookup_insert_eq, Hx.
    - by rewrite lookup_alter_ne, lookup_insert_ne. }
  pose proof (held_replace k x (f x) m Hx) as H. rewrite Hf in H.
  by apply Permutation_app_inv_r in H.
Qed.

Lemma held_step o t : let '(t', taken, out) := step o t in
  held (messages t) ++ taken ≡ₚ held (messages t') ++ out.
Proof.
  destruct o; simpl.
  - unfold Add. destruct (negb _ && negb _); simpl; [done|].
    destruct (messages t !! (direction, packetID)) as [x|] eqn:Hx; simpl.
    + pose proof (held_replace _ x (new_message packetID msg direction) _ Hx) as H.
      simpl in H. case_decide as Hm; [|by rewrite H].
      rewrite Hm in H. rewrite !app_nil_r. by apply Permutation_app_inv_r in H.
    + destruct (_ <=? _); simpl; [done|]. rewrite held_insert by done. simpl.
      by rewrite app_nil_r, Permutation_app_comm.
  - unfold AddInbound, addInbound. simpl.
    destruct (messages t !! (Inbound, packetID)) eqn:Hx; [done|].
    destruct (_ <=? _); simpl; [done|]. rewrite held_insert by done. simpl.
    by rewrite app_nil_r, Permutation_app_comm.
  - unfold Ack, ackDirection. destruct (messages t !! _) as [x|] eqn:Hx; [|done]. simpl.
    rewrite (held_delete _ _ _ Hx) at 1. by rewrite app_nil_r, Permutation_app_comm.
  - unfold AckInbound, ackDirection. destruct (messages t !! _) as [x|] eqn:Hx; [|done]. simpl.
    rewrite (held_delete _ _ _ Hx) at 1. by rewrite app_nil_r, Permutation_app_comm.
  - unfold UpdateState. destruct (messages t !! _); [|done]. simpl. by rewrite held_alter.
  - by rewrite held_alter.
  - by rewrite held_alter.
  - unfold MarkRetry. destruct (messages t !! _); [|done]. simpl. by rewrite held_alter.
  - unfold Remove. destruct (messages t !! _) as [x|] eqn:Hx; [|done]. simpl.
    rewrite (held_delete _ _ _ Hx) at 1. by rewrite app_nil_r, Permutation_app_comm.
  - by rewrite app_nil_r.
Qed.

Lemma held_run ops : ∀ t, let '(t', taken, out) := run ops t in
  held (messages t) ++ taken ≡ₚ held (messages t') ++ out.
Proof.
  induction ops as [|o ops IH]; intros t; simpl; [done|].
  pose proof (held_step o t) as H1. destruct (step o t) as [[t1 a1] o1].
  specialize (IH t1). destruct (run ops t1) as [[t2 a2] o2].
  rewrite (app_assoc (held (messages t))), H1, <-app_assoc, (Permutation_app_comm o1), app_assoc, IH.
  by rewrite <-!app_assoc, (Permutation_app_comm o2).
Qed.

Lemma run_snoc ops o : ∀ t,
  run (ops ++ [o]) t =
  let '(t1, taken1, out1) := run ops t in
  let '(t2, taken2, out2) := step o t1 in
  (t2, taken1 ++ taken2, out1 ++ out2).
Proof.
  induction ops as [|o' ops IH]; intros t; simpl.
  - destruct (step o t) as [[t1 a1] o1]. by rewrite !app_nil_r.
  - destruct (step o' t) as [[t1 a1] o1]. rewrite IH.
    destruct (run ops t1) as [[t2 a2] o2]. destruct (step o t2) as [[t3 a3] o3].
    by rewrite <-!app_assoc.
Qed.

(** Envelope ownership is conserved: over any history the envelopes the
    tracker took are, counted with multiplicity, exactly those it still holds
    plus those it handed back or released.  None leaks and none is released
    twice; and after a final [Clear] everything taken has been given up. *)
Theorem inflight_ownership n ops :
  (let '(t, taken, out) := run ops (NewInflightTracker n) in
   taken ≡ₚ held (messages t) ++ out) ∧
  (let '(t, taken, out) := run (ops ++ [OpClear]) (NewInflightTracker n) in
   messages t = ∅ ∧ taken ≡ₚ out).
Proof.
  pose proof (held_run ops (NewInflightTracker n)) as H.
  pose proof (held_run (ops ++ [OpClear]) (NewInflightTracker n)) as H'.
  rewrite run_snoc in H' |- *.
  destruct (run ops (NewInflightTracker n)) as [[t taken] out] eqn:Hr.
  change (held (messages (NewInflightTracker n))) with (@nil nat) in H, H'. simpl in *.
  done.
Qed.

(** ** Exactly-once admission *)

(** The calls that settle or replace the inbound transaction [p]. *)
Definition settles (p : Z) (o : op) : Prop :=
  match o with
  | OpAdd p' _ d => p' = p ∧ d = Inbound
  | OpAckInbound p' => p' = p
  | OpClear => True
  | _ => False
  end.

Lemma step_keeps_inbound p o t x : ¬ settles p o →
  GetInbound p t = Some x → GetInbound p (step o t).1.1 = Some x.
Proof.
  unfold GetInbound. intros Hs Hx.
  assert (Hmod : ∀ q f, alter f (Outbound, q) (messages t) !! (Inbound, p) = Some x).
  { intros q f. by rewrite lookup_alter_ne. }
  assert (Hdel : ∀ q, delete (Outbound, q) (messages t) !! (Inbound, p) = Some x).
  { intros q. by rewrite lookup_delete_ne. }
  destruct o; simpl in *; try done.
  - unfold Add. destruct (negb _ && negb _); [done|].
    assert ((direction, packetID) ≠ (Inbound, p)) by naive_solver.
    destruct (messages t !! (direction, packetID)); simpl; [by rewrite lookup_insert_ne|].
    destruct (_ <=? _); simpl; [done|]. by rewrite lookup_insert_ne.
  - unfold AddInbound, addInbound. simpl.
    destruct (messages t !! (Inbound, packetID)) eqn:Hy; [done|].
    destruct (_ <=? _); simpl; [done|]. rewrite lookup_insert_ne; [done|]. congruence.
  - unfold Ack, ackDirection. destruct (messages t !! (Outbound, _)); simpl; auto.
  - unfold AckInbound, ackDirection. destruct (messages t !! (Inbound, packetID)); simpl; [|done].
    rewrite lookup_delete_ne; [done|]. congruence.
  - unfold UpdateState. destruct (messages t !! (Outbound, _)); simpl; auto.
  - unfold MarkRetry. destruct (messages t !! (Outbound, _)); simpl; auto.
  - unfold Remove. destruct (messages t !! (Outbound, _)); simpl; auto.
Qed.

Lemma run_keeps_inbound p ops : ∀ t x, Forall (λ o, ¬ settles p o) ops →
  GetInbound p t = Some x → GetInbound p (run ops t).1.1 = Some x.
Proof.
  induction ops as [|o ops IH]; intros t x Hf Hx; [done|]. simpl.
  apply Forall_cons in Hf as [Ho Hf]. pose proof (step_keeps_inbound p o t x Ho Hx) as H1.
  destruct (step o t) as [[t1 a1] o1]. simpl in H1. specialize (IH t1 x Hf H1).
  by destruct (run ops t1) as [[t2 a2] o2].
Qed.

(** C40 Exactly-once admission of inbound QoS 2 messages: once a PUBLISH has been
    admitted under a packet identifier, every retransmission of it, after any
    traffic that does not settle the transaction, is reported as a duplicate
    without an error, takes no ownership and changes nothing; and the PUBREL
    returns the envelope admitted first. *)
Theorem inbound_exactly_once p m t t1 ops m' :
  AddInbound p m t = Ret (true, t1) → Forall (λ o, ¬ settles p o) ops →
  let t2 := (run ops t1).1.1 in
  AddInbound p m' t2 = Ret (false, t2) ∧
  ∃ t3, AckInbound p t2 = Ret (m, t3) ∧ GetInbound p t3 = None.
Proof.
  intros Ha Hf t2. unfold AddInbound, addInbound in Ha. simpl in Ha.
  destruct (messages t !! (Inbound, p)) eqn:Hp; [done|].
  destruct (_ <=? _); [done|]. injection Ha as <-.
  assert (H2 : GetInbound p t2 = Some (new_message p m Inbound)).
  { apply run_keeps_inbound; [done|]. unfold GetInbound. simpl. by rewrite lookup_insert_eq. }
  unfold GetInbound in *. unfold AddInbound, addInbound, AckInbound, ackDirection. simpl.
  rewrite H2. split; [done|]. eexists. split; [done|]. simpl. by rewrite lookup_delete_eq.
Qed.

Lemma inbound_exactly_once_witness :
  ∃ t1, AddInbound 7 (Some 1%nat) (NewInflightTracker 1) = Ret (true, t1) ∧
        AddInbound 7 (Some 2%nat) (run [OpAdd 7 (Some 3%nat) Outbound; OpAck 7] t1).1.1 =
        Ret (false, (run [OpAdd 7 (Some 3%nat) Outbound; OpAck 7] t1).1.1).
Proof.
  eexists. split; [reflexivity|].
  refine (proj1 (inbound_exactly_once 7 (Some 1%nat) (NewInflightTracker 1) _
    [OpAdd 7 (Some 3%nat) Outbound; OpAck 7] (Some 2%nat) eq_refl _)).
  repeat constructor; simpl; naive_solver.
Defined.

(** ** Retries *)

Lemma elem_of_GetExpired now timeout entries x :
  x ∈ GetExpired now timeout entries ↔
  ∃ p, ((Outbound, p), x) ∈ entries ∧ retry_due now timeout x = true.
Proof.
  unfold GetExpired. rewrite list_elem_of_omap. split.
  - intros ([[d p] y] & He & Hx). simpl in Hx. destruct (d =? Outbound) eqn:Ed; [|done].
    destruct (retry_due now timeout y) eqn:Er; [|done]. simplify_eq/=. bool_prop. subst. eauto.
  - intros (p & He & Hr). exists ((Outbound, p), x). split; [done|]. simpl. by rewrite Hr.
Qed.

Lemma retry_due_spec now timeout x : retry_due now timeout x = true ↔
  match SentAt x with
  | Some s => timeout <= time_sub now s
  | None => ∃ a, DeliveryAttemptedAt x = Some a ∧ neverSentRetryDelay <= time_sub now a
  end.
Proof.
  unfold retry_due. destruct (SentAt x); [apply Z.leb_le|].
  destruct (DeliveryAttemptedAt x); [rewrite Z.leb_le|]; naive_solver.
Qed.

Lemma NoDup_GetExpired now timeout entries :
  NoDup entries.*1 → (∀ k x, (k, x) ∈ entries → MsgPacketID x = k.2) →
  NoDup (MsgPacketID <$> GetExpired now timeout entries).
Proof.
  induction entries as [|[[d p] y] entries IH]; intros Hnd Hid; [constructor|].
  rewrite fmap_cons in Hnd. apply NoDup_cons in Hnd as [Hk Hnd].
  assert (IH' : NoDup (MsgPacketID <$> GetExpired now timeout entries)).
  { apply IH; [done|]. intros k x Hx. apply Hid. by right. }
  unfold GetExpired in *. simpl. destruct (d =? Outbound) eqn:Ed; [|done].
  destruct (retry_due now timeout y); [|done]. simpl. apply NoDup_cons. split; [|done].
  bool_prop. subst d. intros (x & Heq & Hx)%list_elem_of_fmap.
  apply elem_of_GetExpired in Hx as (q & Hx & _).
  assert (q = p) as ->.
  { rewrite (Hid (Outbound, p) y) in Heq by left. rewrite (Hid (Outbound, q) x) in Heq by (by right).
    done. }
  apply Hk, list_elem_of_fmap. by exists ((Outbound, p), x).
Qed.

(** Whatever order the map is walked in, [GetExpired] returns, once each, the
    outbound messages due for a retry: those sent at least the timeout ago,
    and those never written to the wire whose last delivery attempt is at
    least the retry delay ago; inbound messages never. *)
Theorem GetExpired_spec now timeout t entries :
  wf t → entries ≡ₚ map_to_list (messages t) →
  NoDup (MsgPacketID <$> GetExpired now timeout entries) ∧
  ∀ x, x ∈ GetExpired now timeout entries ↔
    ∃ p, Get p t = Some x ∧
      match SentAt x with
      | Some s => timeout <= time_sub now s
      | None => ∃ a, DeliveryAttemptedAt x = Some a ∧ neverSentRetryDelay <= time_sub now a
      end.
Proof.
  intros Hwf Hp. split.
  - apply NoDup_GetExpired; [rewrite Hp; apply NoDup_fst_map_to_list|].
    intros [d p] x. rewrite Hp, elem_of_map_to_list. intros Hx.
    by apply (wf_entry _ Hwf) in Hx as (_ & _ & ?).
  - intros x. rewrite elem_of_GetExpired. unfold Get.
    setoid_rewrite Hp. setoid_rewrite elem_of_map_to_list. by setoid_rewrite retry_due_spec.
Qed.

Lemma GetExpired_spec_witness :
  NoDup (MsgPacketID <$> GetExpired 600000000 1000 (map_to_list (messages
    (run [OpAdd 1 (Some 1%nat) Outbound; OpMarkDeliveryAttempted 1 0]
       (NewInflightTracker 10)).1.1))).
Proof.
  refine (proj1 (GetExpired_spec 600000000 1000 _ _ (wf_run _ _ (wf_new 10)) (Permutation_refl _))).
Defined.

End InflightFacts.

(** ** The offline queue is a bounded FIFO *)

Module OfflineQueueFacts.
Import OfflineQueue.
Section fifo.
Context {Env : Type}.
Implicit Types (q : queue Env) (m : Env).

Inductive qop := QEnqueue (m : Env) | QDequeue | QDrain.

(** One call: the queue, what was accepted, and what left it, in order. *)
Definition qstep (o : qop) q : queue Env * list Env * list Env :=
  match o with
  | QEnqueue m =>
      match Enqueue m q with
      | Ret (q', evicted) => (q', [m], evicted)
      | _ => (q, [], [])
      end
  | QDequeue => let '(r, q') := Dequeue q in (q', [], option_list r)
  | QDrain => let '(r, q') := Drain q in (q', [], r)
  end.

Fixpoint qrun (ops : list qop) q : queue Env * list Env * list Env :=
  match ops with
  | [] => (q, [], [])
  | o :: ops =>
      let '(q1, in1, out1) := qstep o q in
      let '(q2, in2, out2) := qrun ops q1 in
      (q2, in1 ++ in2, out1 ++ out2)
  end.

Definition qwf q : Prop := 0 < maxSize q ∧ Len q <= maxSize q.

Lemma qstep_ok o q : qwf q → let '(q', acc, out) := qstep o q in
  qwf q' ∧ messages q ++ acc = out ++ messages q' ∧ maxSize q' = maxSize q ∧
  evictOnFull q' = evictOnFull q.
Proof.
  unfold qwf, Len. intros [Hm Hl]. destruct q as [ms mx ev]; simpl in *. destruct o; simpl.
  - unfold Enqueue. simpl. destruct (mx <=? _) eqn:E; bool_prop.
    + destruct ev; simpl; [|by rewrite app_nil_r].
      destruct ms as [|e ms]; simpl in *; [lia|]. rewrite length_app. simpl.
      split_and!; [lia|lia|done..].
    + simpl. rewrite length_app. simpl. split_and!; [lia|lia|done..].
  - unfold Dequeue. simpl. destruct ms as [|e ms]; simpl in *; [done|].
    rewrite app_nil_r. split_and!; (done || lia).
  - rewrite app_nil_r. split_and!; (done || lia).
Qed.

Lemma qrun_ok ops : ∀ q, qwf q → let '(q', acc, out) := qrun ops q in
  qwf q' ∧ messages q ++ acc = out ++ messages q'.
Proof.
  induction ops as [|o ops IH]; intros q Hq; simpl; [by rewrite app_nil_r|].
  pose proof (qstep_ok o q Hq) as H. destruct (qstep o q) as [[q1 a1] o1].
  destruct H as (Hq1 & He & _). specialize (IH q1 Hq1). destruct (qrun ops q1) as [[q2 a2] o2].
  destruct IH as [Hq2 He2]. split; [done|]. by rewrite app_assoc, He, <-!app_assoc, He2.
Qed.

(** The offline queue is a bounded first-in first-out queue: in every history
    the messages accepted so far are, in order, those that left (dequeued,
    drained or evicted) followed by the contents, which never exceed the
    capacity; and a full queue without eviction refuses and stays as it is. *)
Theorem offline_queue_fifo max evict ops :
  let '(q, accepted, gone) := qrun ops (NewMessageQueue max evict) in
  accepted = gone ++ messages q ∧ Len q <= maxSize q ∧
  ∀ m, Enqueue m q ≠ Panic ∧
       (Queue_IsFull q = true → evictOnFull q = false → Enqueue m q = Fail ErrQueueFull).
Proof.
  assert (Hwf : qwf (NewMessageQueue max evict)).
  { unfold qwf, Len, NewMessageQueue. simpl. destruct (max <=? 0) eqn:E; bool_prop; lia. }
  pose proof (qrun_ok ops _ Hwf) as H. destruct (qrun ops _) as [[q acc] out].
  destruct H as [[Hm Hl] He]. simpl in He. split_and!; [done|done|].
  intros m. unfold Enqueue, Queue_IsFull, Len in *. split.
  - destruct (_ <=? _) eqn:E; [|done]. bool_prop. destruct (negb _); [done|].
    destruct (messages q); [simpl in *; lia|done].
  - intros -> ->. done.
Qed.
End fifo.
End OfflineQueueFacts.
