(* ===== verification/SendWindow.v ===== *)
(** * The outbound send quota (src/mqtt/session/sendwindow.go)

    [sendWindow] limits the unacknowledged outbound PUBLISH packets of one
    connection generation.  Every method holds the mutex for its critical
    section, so a step of the model is one critical section of one goroutine.
    The channel [ready] is a number: [broadcastLocked] closes the current
    channel and makes a new one, so the channels below the current number are
    the closed ones.

    Theorems: the quota is never exceeded, calls of a superseded generation
    change nothing, and no wakeup is lost: a sender blocked in [acquire] waits
    for a token of the current generation while none is free. *)

From Stdlib Require Import ZArith Lia Bool.
From stdpp Require Import prelude gmap strings.
From S2P Require Import Prelude.

Module SendWindow.

Record sendWindow := mkSendWindow {
  capacity : Z;
  gen : Z;
  held : gset Z;
  waiters : Z;
  ready : nat;
  blocking : bool
}.

Definition clamp (c : Z) : Z := if c <? 1 then 1 else c.

Definition newSendWindow (c g : Z) (b : bool) : sendWindow := mkSendWindow (clamp c) g ∅ 0 0 b.

Definition broadcastLocked (w : sendWindow) : sendWindow :=
  mkSendWindow (capacity w) (gen w) (held w) (waiters w) (S (ready w)) (blocking w).

(** [if w.waiters > 0 { w.broadcastLocked() }]. *)
Definition wake (w : sendWindow) : sendWindow :=
  if 0 <? waiters w then broadcastLocked w else w.

Definition reset (c g : Z) (w : sendWindow) : sendWindow :=
  wake (mkSendWindow (clamp c) g ∅ (waiters w) (ready w) (blocking w)).

Definition set_held (h : gset Z) (w : sendWindow) : sendWindow :=
  mkSendWindow (capacity w) (gen w) h (waiters w) (ready w) (blocking w).
Definition add_waiters (n : Z) (w : sendWindow) : sendWindow :=
  mkSendWindow (capacity w) (gen w) (held w) (waiters w + n) (ready w) (blocking w).

Definition tryAcquireLocked (packetID g : Z) (w : sendWindow) : bool * sendWindow :=
  if negb (g =? gen w) then (false, w)
  else if decide (packetID ∈ held w) then (true, w)
  else if capacity w <=? Z.of_nat (size (held w)) then (false, w)
  else (true, set_held ({[packetID]} ∪ held w) w).

Definition tryAcquire (packetID g : Z) (w : sendWindow) : bool * sendWindow :=
  tryAcquireLocked packetID g w.

Definition release (packetID g : Z) (w : sendWindow) : sendWindow :=
  if g =? gen w then
    if decide (packetID ∈ held w) then wake (set_held (held w ∖ {[packetID]}) w)
    else w
  else w.

(** ** Goroutines inside [acquire]

    [Trying]: about to take the lock at the top of the loop.  [Waiting r]: in
    the [select] on channel [r].  [Leaving again]: past the select, about to
    take the lock to leave the waiters; [again] tells a wakeup from a stop. *)
Inductive pc :=
| Trying (packetID g : Z)
| Waiting (packetID g : Z) (r : nat)
| Leaving (packetID g : Z) (again : bool)
| Returned (packetID g : Z) (result : bool).

Definition system : Type := sendWindow * gmap nat pc.

(** The first critical section of a round of [acquire]. *)
Definition acquire_enter (packetID g : Z) (w : sendWindow) : pc * sendWindow :=
  if negb (g =? gen w) then (Returned packetID g false, w)
  else match tryAcquireLocked packetID g w with
       | (true, w') => (Returned packetID g true, w')
       | (false, w') => (Waiting packetID g (ready w'), add_waiters 1 w')
       end.

(** The second: after the select. *)
Definition acquire_leave (packetID g : Z) (again : bool) (w : sendWindow) : pc * sendWindow :=
  (if again then Trying packetID g else Returned packetID g false, add_waiters (-1) w).

Inductive step : system → system → Prop :=
| step_call w ts i p g : ts !! i = None → step (w, ts) (w, <[i := Trying p g]> ts)
| step_enter w ts i p g :
    ts !! i = Some (Trying p g) →
    step (w, ts) ((acquire_enter p g w).2, <[i := (acquire_enter p g w).1]> ts)
| step_woken w ts i p g r :
    ts !! i = Some (Waiting p g r) → (r < ready w)%nat →
    step (w, ts) (w, <[i := Leaving p g true]> ts)
| step_stopped w ts i p g r :
    ts !! i = Some (Waiting p g r) →
    step (w, ts) (w, <[i := Leaving p g false]> ts)
| step_leave w ts i p g again :
    ts !! i = Some (Leaving p g again) →
    step (w, ts) ((acquire_leave p g again w).2, <[i := (acquire_leave p g again w).1]> ts)
| step_tryAcquire w ts p g : step (w, ts) ((tryAcquire p g w).2, ts)
| step_release w ts p g : step (w, ts) (release p g w, ts)
| step_reset w ts c g : step (w, ts) (reset c g w, ts).

End SendWindow.

(** * Properties *)

Module SendWindowFacts.
Import SendWindow.

(** The goroutines counted in [waiters]. *)
Definition counted (x : pc) : bool :=
  match x with Waiting _ _ _ | Leaving _ _ _ => true | _ => false end.

Definition n_counted (ts : gmap nat pc) : nat :=
  size (filter (λ kv, counted kv.2 = true) ts).

Lemma n_counted_fresh i x ts : ts !! i = None →
  n_counted (<[i := x]> ts) = (n_counted ts + if counted x then 1 else 0)%nat.
Proof.
  intros Hi. unfold n_counted. destruct (counted x) eqn:Hx.
  - rewrite map_filter_insert_True by done. rewrite map_size_insert_None; [lia|].
    apply map_lookup_filter_None. by left.
  - rewrite map_filter_insert_False by (simpl; congruence). rewrite delete_id by done. lia.
Qed.

Lemma n_counted_insert i x y ts : ts !! i = Some y →
  (n_counted (<[i := x]> ts) + (if counted y then 1 else 0) =
   n_counted ts + (if counted x then 1 else 0))%nat.
Proof.
  intros Hi. rewrite <-(insert_delete_id ts i y Hi) at 2.
  rewrite <-(insert_delete_eq ts i x).
  rewrite !n_counted_fresh by apply lookup_delete_eq. lia.
Qed.

Record inv (s : system) : Prop := {
  inv_cap : 1 <= capacity s.1;
  inv_held : Z.of_nat (size (held s.1)) <= capacity s.1;
  inv_waiters : waiters s.1 = Z.of_nat (n_counted s.2);
  inv_wait i p g r : s.2 !! i = Some (Waiting p g r) →
    (r < ready s.1)%nat ∨
    r = ready s.1 ∧ g = gen s.1 ∧ p ∉ held s.1 ∧ capacity s.1 <= Z.of_nat (size (held s.1))
}.

Lemma clamp_pos c : 1 <= clamp c.
Proof. unfold clamp. destruct (c <? 1) eqn:E; bool_prop; lia. Qed.

(** A goroutine in the select is counted, so a wakeup is broadcast. *)
Lemma waiting_counted ts i p g r : ts !! i = Some (Waiting p g r) → (0 < n_counted ts)%nat.
Proof.
  intros Hi. pose proof (n_counted_insert i (Returned p g true) _ _ Hi) as H. simpl in H. lia.
Qed.

Lemma wake_ready w ts i p g r : waiters w = Z.of_nat (n_counted ts) →
  ts !! i = Some (Waiting p g r) → (r ≤ ready w)%nat → (r < ready (wake w))%nat.
Proof.
  intros Hw Hi Hr. apply waiting_counted in Hi. unfold wake.
  destruct (0 <? _) eqn:E; bool_prop; [simpl; lia|lia].
Qed.

Lemma wake_fields w :
  capacity (wake w) = capacity w ∧ gen (wake w) = gen w ∧ held (wake w) = held w ∧
  waiters (wake w) = waiters w.
Proof. unfold wake. by destruct (0 <? _). Qed.

Lemma inv_wait_le s i p g r : inv s → s.2 !! i = Some (Waiting p g r) → (r ≤ ready s.1)%nat.
Proof. intros Hinv Hi. apply (inv_wait _ Hinv) in Hi. lia. Qed.

(** Taking a token keeps the window's bound and every waiter's reason. *)
Lemma inv_tryAcquire p g w ts : inv (w, ts) → inv ((tryAcquire p g w).2, ts).
Proof.
  intros Hinv. destruct Hinv as [Hc Hh Hw Hwait]. unfold tryAcquire, tryAcquireLocked. simpl in *.
  destruct (negb (g =? gen w)); [by split|]. case_decide as Hp; [by split|].
  destruct (_ <=? _) eqn:E; [by split|]. bool_prop. split; simpl; [done| |done|].
  - rewrite size_union by set_solver. rewrite size_singleton. lia.
  - intros i p' g' r Hi. destruct (Hwait i p' g' r Hi) as [|(? & ? & ? & ?)]; [by left|lia].
Qed.

Lemma inv_enter w ts i p g : inv (w, ts) → ts !! i = Some (Trying p g) →
  inv ((acquire_enter p g w).2, <[i := (acquire_enter p g w).1]> ts).
Proof.
  intros Hinv Hi.
  assert (Hret : ∀ b w', inv (w', ts) → inv (w', <[i := Returned p g b]> ts)).
  { intros b w' [Hc Hh Hw Hwait]. split; simpl in *; [done|done| |].
    - pose proof (n_counted_insert i (Returned p g b) _ _ Hi) as H. simpl in H. lia.
    - intros j p' g' r [[<- ?]|[_ Hj]]%lookup_insert_Some; [done|eauto]. }
  unfold acquire_enter. destruct (g =? gen w) eqn:Eg; simpl; [|by apply Hret].
  pose proof (inv_tryAcquire p g w ts Hinv) as H. unfold tryAcquire in H.
  unfold tryAcquireLocked in *. rewrite Eg in *. simpl in *.
  case_decide as Hp; [by apply Hret|].
  destruct (capacity w <=? _) eqn:E; simpl in *; [|by apply Hret]. clear H Hret. bool_prop.
  destruct Hinv as [Hc Hh Hw Hwait]. split; simpl in *; [done|done| |].
  - pose proof (n_counted_insert i (Waiting p g (ready w)) _ _ Hi) as H. simpl in H. lia.
  - intros j p' g' r [[<- ?]|[_ Hj]]%lookup_insert_Some; [simplify_eq; by right|eauto].
Qed.

Lemma inv_step s s' : step s s' → inv s → inv s'.
Proof.
  intros Hstep Hinv. pose proof (inv_wait_le s) as Hle. destruct Hstep.
  - destruct Hinv as [Hc Hh Hw Hwait]. split; simpl in *; [done|done| |].
    + rewrite n_counted_fresh by done. simpl. lia.
    + intros j p' g' r [[<- ?]|[_ Hj]]%lookup_insert_Some; [done|eauto].
  - by apply inv_enter.
  - destruct Hinv as [Hc Hh Hw Hwait]. split; simpl in *; [done|done| |].
    + pose proof (n_counted_insert i (Leaving p g true) _ _ H) as Hn. simpl in Hn. lia.
    + intros j p' g' r' [[<- ?]|[_ Hj]]%lookup_insert_Some; [done|eauto].
  - destruct Hinv as [Hc Hh Hw Hwait]. split; simpl in *; [done|done| |].
    + pose proof (n_counted_insert i (Leaving p g false) _ _ H) as Hn. simpl in Hn. lia.
    + intros j p' g' r' [[<- ?]|[_ Hj]]%lookup_insert_Some; [done|eauto].
  - destruct Hinv as [Hc Hh Hw Hwait]. split; simpl in *; [done|done| |].
    + pose proof (n_counted_insert i (acquire_leave p g again w).1 _ _ H) as Hn.
      destruct again; simpl in *; lia.
    + intros j p' g' r' [[<- ?]|[_ Hj]]%lookup_insert_Some; [by destruct again|eauto].
  - by apply inv_tryAcquire.
  - unfold release. destruct (g =? gen w); [|done]. case_decide as Hp; [|done].
    set (w' := set_held _ w). destruct (wake_fields w') as (E1 & E2 & E3 & E4).
    destruct Hinv as [Hc Hh Hw Hwait]. simpl in *.
    split; simpl; rewrite ?E1, ?E3, ?E4; simpl; [done| |done|].
    + assert (size (held w ∖ {[p]}) ≤ size (held w))%nat by (apply subseteq_size; set_solver). lia.
    + intros i p' g' r Hi. left. eapply wake_ready; [exact Hw|exact Hi|]. by eapply Hle.
  - unfold reset. set (w' := mkSendWindow _ _ _ _ _ _).
    destruct (wake_fields w') as (E1 & E2 & E3 & E4).
    destruct Hinv as [Hc Hh Hw Hwait]. simpl in *. pose proof (clamp_pos c).
    split; simpl; rewrite ?E1, ?E3, ?E4; simpl; [done|change (0 <= clamp c); lia|done|].
    intros i p' g' r Hi. left. eapply wake_ready; [exact Hw|exact Hi|]. by eapply Hle.
Qed.

Definition initial (c g : Z) (b : bool) : system := (newSendWindow c g b, ∅).

Lemma inv_initial c g b : inv (initial c g b).
Proof.
  split; simpl; [apply clamp_pos| |done|done]. pose proof (clamp_pos c). change (0 <= clamp c). lia.
Qed.

Lemma inv_reachable c g b s : rtc step (initial c g b) s → inv s.
Proof.
  intros H. pose proof (inv_initial c g b) as Hi. revert Hi.
  induction H; [done|]. intros Hi. by apply IHrtc, (inv_step x).
Qed.

(** In every interleaving of senders, acknowledgements and reconnects the
    send window holds at most [capacity] packets, the negotiated Receive
    Maximum, and [waiters] counts the blocked senders; and a call that carries
    a superseded generation neither takes nor frees a token. *)
Theorem sendwindow_quota c g b s : rtc step (initial c g b) s →
  1 <= capacity s.1 ∧ Z.of_nat (size (held s.1)) <= capacity s.1 ∧
  waiters s.1 = Z.of_nat (n_counted s.2) ∧
  ∀ p g', g' ≠ gen s.1 → tryAcquire p g' s.1 = (false, s.1) ∧ release p g' s.1 = s.1.
Proof.
  intros [Hc Hh Hw _]%inv_reachable. split_and!; [done..|]. intros p g' Hg.
  unfold tryAcquire, tryAcquireLocked, release.
  by rewrite (proj2 (Z.eqb_neq _ _) Hg).
Qed.

Lemma sendwindow_quota_witness :
  Z.of_nat (size (held (tryAcquire 5 1 (newSendWindow 2 1 true)).2)) <= 2.
Proof.
  exact (proj1 (proj2 (sendwindow_quota 2 1 true _
    (rtc_once _ _ (step_tryAcquire (newSendWindow 2 1 true) ∅ 5 1))))).
Defined.

(** C38 No wakeup is lost: in every reachable state a sender blocked in [acquire]
    on a channel that is still open waits with the current generation, holds
    no token, and all tokens are taken.  So whenever a token is free or the
    connection was superseded, every blocked sender can proceed. *)
Theorem sendwindow_no_lost_wakeup c g b s i p g' r :
  rtc step (initial c g b) s → s.2 !! i = Some (Waiting p g' r) →
  (r < ready s.1)%nat ∨
  (g' = gen s.1 ∧ p ∉ held s.1 ∧ Z.of_nat (size (held s.1)) = capacity s.1).
Proof.
  intros Hinv%inv_reachable Hi. destruct (inv_wait _ Hinv _ _ _ _ Hi) as [|(_ & ? & ? & ?)];
    [by left|]. right. pose proof (inv_held _ Hinv). split_and!; (done || lia).
Qed.

Lemma sendwindow_no_lost_wakeup_witness :
  (0 < 0)%nat ∨ (1 = 1 ∧ 6 ∉ ({[5]} ∪ ∅ : gset Z) ∧ Z.of_nat (size ({[5]} ∪ ∅ : gset Z)) = 1).
Proof.
  refine (sendwindow_no_lost_wakeup 1 1 true
    (add_waiters 1 (set_held ({[5]} ∪ ∅) (newSendWindow 1 1 true)), {[0%nat := Waiting 6 1 0]})
    0 6 1 0 _ (lookup_singleton_eq _ _)).
  eapply rtc_l; [exact (step_tryAcquire (newSendWindow 1 1 true) ∅ 5 1)|].
  eapply rtc_l; [exact (step_call _ ∅ 0 6 1 (lookup_empty _))|].
  apply rtc_once. exact (step_enter _ {[0%nat := Trying 6 1]} 0 6 1 (lookup_singleton_eq _ _)).
Defined.
End SendWindowFacts.
