(* ===== verification/ConsumerGroup.v ===== *)
(** * Consumer groups (src/queue/types/log.go)

    The state of a consumer group: the queue cursor, the pending entry list
    (PEL) of delivered but unacknowledged records per consumer, and the
    membership.  The group's mutex makes every method atomic, [time.Now] is
    the argument [now], and a loop over a Go map takes the entries in any
    order, as an argument that is a permutation of them.  A [*PendingEntry]
    is an option, [None] being nil: some methods skip nil entries, others
    dereference them and panic.  The maps themselves are never nil: the
    constructor and the callers of [ReplacePEL] and [ReplaceConsumers] make
    them.  [MarshalJSON] is the JSON library's and is not modelled.

    Theorems: a group reached by its methods never panics, keeps every entry
    under its owner and every offset once; transfers and acknowledgements
    account for each entry; the minimum pending offset, the search and the
    stealable set do not depend on the map's order; routing keys. *)

From Stdlib Require Import ZArith Lia Bool Ascii String.
From stdpp Require Import prelude gmap strings.
From S2P Require Import Prelude GoStrings Topics.

Module Group.

Record PendingEntry := mkPendingEntry {
  Offset : Z;
  ConsumerID : string;
  ClaimedAt : Z;
  DeliveryCount : Z
}.

Record QueueCursor := mkQueueCursor { Cursor : Z; Committed : Z }.

Record ConsumerInfo := mkConsumerInfo {
  InfoID : string;
  InfoClientID : string;
  ProxyNodeID : string;
  RegisteredAt : Z;
  LastHeartbeat : Z
}.

Inductive ConsumerGroupMode := GroupModeQueue | GroupModeStream | GroupModeOther (mode : string).

#[export] Instance mode_eq_dec : EqDecision ConsumerGroupMode.
Proof. solve_decision. Defined.

Notation pel := (gmap string (list (option PendingEntry))).

Record ConsumerGroup := mkConsumerGroup {
  ID : string;
  QueueName : string;
  Pattern : string;
  Mode : ConsumerGroupMode;
  AutoCommit : bool;
  GCursor : option QueueCursor;
  PEL : pel;
  Consumers : gmap string (option ConsumerInfo);
  CreatedAt : Z;
  UpdatedAt : Z
}.

Definition NewConsumerGroupState (queueName groupID pattern : string) (now : Z) : ConsumerGroup :=
  mkConsumerGroup groupID queueName pattern GroupModeQueue true
    (Some (mkQueueCursor 0 0)) ∅ ∅ now now.

(** ** Field updates; each also stores [UpdatedAt] *)

Definition with_cursor (c : QueueCursor) (now : Z) (g : ConsumerGroup) : ConsumerGroup :=
  mkConsumerGroup (ID g) (QueueName g) (Pattern g) (Mode g) (AutoCommit g) (Some c)
    (PEL g) (Consumers g) (CreatedAt g) now.
Definition with_PEL (p : pel) (now : Z) (g : ConsumerGroup) : ConsumerGroup :=
  mkConsumerGroup (ID g) (QueueName g) (Pattern g) (Mode g) (AutoCommit g) (GCursor g)
    p (Consumers g) (CreatedAt g) now.
Definition with_Consumers (c : gmap string (option ConsumerInfo)) (now : Z)
    (g : ConsumerGroup) : ConsumerGroup :=
  mkConsumerGroup (ID g) (QueueName g) (Pattern g) (Mode g) (AutoCommit g) (GCursor g)
    (PEL g) c (CreatedAt g) now.

(** ** Cursor *)

Definition CursorView (g : ConsumerGroup) : QueueCursor :=
  match GCursor g with None => mkQueueCursor 0 0 | Some c => c end.

Definition SetCursor (cursor committed now : Z) (g : ConsumerGroup) : ConsumerGroup :=
  with_cursor (mkQueueCursor cursor committed) now g.
Definition SetCursorPosition (cursor now : Z) (g : ConsumerGroup) : ConsumerGroup :=
  with_cursor (mkQueueCursor cursor (Committed (CursorView g))) now g.
Definition SetCommitted (committed now : Z) (g : ConsumerGroup) : ConsumerGroup :=
  with_cursor (mkQueueCursor (Cursor (CursorView g)) committed) now g.

Definition SetAutoCommit (autoCommit : bool) (now : Z) (g : ConsumerGroup) : ConsumerGroup :=
  mkConsumerGroup (ID g) (QueueName g) (Pattern g) (Mode g) autoCommit (GCursor g)
    (PEL g) (Consumers g) (CreatedAt g) now.
Definition AutoCommitEnabled (g : ConsumerGroup) : bool := AutoCommit g.

Definition AdvanceCommitted (committed now : Z) (g : ConsumerGroup) : ConsumerGroup :=
  let c := CursorView g in
  let cursor := if Cursor c <? committed then committed else Cursor c in
  with_cursor (mkQueueCursor cursor committed) now g.

(** ** The pending entry list *)

(** [g.PEL[consumerID]]: nil for an absent key. *)
Definition pel_get (consumerID : string) (p : pel) : list (option PendingEntry) :=
  default [] (p !! consumerID).

(** [len] summed over the lists. *)
Definition PendingCount (g : ConsumerGroup) : Z :=
  map_fold (λ _ l n, n + Z.of_nat (length l)) 0 (PEL g).

Definition ClearPending (now : Z) (g : ConsumerGroup) : Z * ConsumerGroup :=
  let cleared := PendingCount g in
  if cleared =? 0 then (0, g) else (cleared, with_PEL ∅ now g).

Definition PendingCountFor (consumerID : string) (g : ConsumerGroup) : Z :=
  Z.of_nat (length (pel_get consumerID (PEL g))).

Definition ReplacePEL (p : pel) (now : Z) (g : ConsumerGroup) : ConsumerGroup := with_PEL p now g.
Definition ReplaceConsumers (c : gmap string (option ConsumerInfo)) (now : Z)
    (g : ConsumerGroup) : ConsumerGroup := with_Consumers c now g.

(** [Snapshot]: nil entries and nil registrations are dropped. *)
Record ConsumerGroupSnapshot := mkSnapshot {
  SnapID : string;
  SnapQueueName : string;
  SnapPattern : string;
  SnapMode : ConsumerGroupMode;
  SnapAutoCommit : bool;
  SnapCursor : QueueCursor;
  SnapPEL : pel;
  SnapConsumers : gmap string (option ConsumerInfo);
  SnapCreatedAt : Z;
  SnapUpdatedAt : Z
}.

Definition Snapshot (g : ConsumerGroup) : ConsumerGroupSnapshot :=
  mkSnapshot (ID g) (QueueName g) (Pattern g) (Mode g) (AutoCommit g) (CursorView g)
    (filter is_Some <$> PEL g) (filter (λ kv, is_Some kv.2) (Consumers g))
    (CreatedAt g) (UpdatedAt g).

Definition AddPending (consumerID : string) (entry : option PendingEntry) (now : Z)
    (g : ConsumerGroup) : ConsumerGroup :=
  with_PEL (<[consumerID := pel_get consumerID (PEL g) ++ [entry]]> (PEL g)) now g.

(** The search for an offset in one consumer's list: the index, and a panic
    when a nil entry is dereferenced on the way. *)
Fixpoint find_offset (offset : Z) (entries : list (option PendingEntry)) (i : nat) :
    outcome unit (option (nat * PendingEntry)) :=
  match entries with
  | [] => Ret None
  | None :: _ => Panic
  | Some e :: rest => if Offset e =? offset then Ret (Some (i, e)) else find_offset offset rest (S i)
  end.

(** [append(entries[:i], entries[i+1:]...)]. *)
Definition cut {A} (i : nat) (l : list A) : list A := take i l ++ drop (S i) l.

Definition RemovePending (consumerID : string) (offset now : Z) (g : ConsumerGroup) :
    outcome unit (bool * ConsumerGroup) :=
  match PEL g !! consumerID with
  | None => Ret (false, g)
  | Some entries =>
      found ← find_offset offset entries 0;
      match found with
      | None => Ret (false, g)
      | Some (i, _) => Ret (true, with_PEL (<[consumerID := cut i entries]> (PEL g)) now g)
      end
  end.

Definition DeleteConsumerPEL (consumerID : string) (now : Z) (g : ConsumerGroup) : ConsumerGroup :=
  with_PEL (delete consumerID (PEL g)) now g.

(** [FindPending] over the lists in map order; [None] is the zero result. *)
Fixpoint find_entry (offset : Z) (entries : list (option PendingEntry)) : option PendingEntry :=
  match entries with
  | [] => None
  | Some e :: rest => if Offset e =? offset then Some e else find_entry offset rest
  | None :: rest => find_entry offset rest
  end.

Fixpoint FindPending (offset : Z) (order : list (string * list (option PendingEntry))) :
    option (PendingEntry * string) :=
  match order with
  | [] => None
  | (consumerID, entries) :: order =>
      match find_entry offset entries with
      | Some e => Some (e, consumerID)
      | None => FindPending offset order
      end
  end.

Definition set_ClaimedAt (t : Z) (e : PendingEntry) : PendingEntry :=
  mkPendingEntry (Offset e) (ConsumerID e) t (DeliveryCount e).

(** The first entry with the offset, changed in place. *)
Fixpoint update_first (offset : Z) (f : PendingEntry → PendingEntry)
    (entries : list (option PendingEntry)) : option (list (option PendingEntry)) :=
  match entries with
  | [] => None
  | e :: rest =>
      match e with
      | Some x => if Offset x =? offset then Some (Some (f x) :: rest)
                  else cons e <$> update_first offset f rest
      | None => cons e <$> update_first offset f rest
      end
  end.

Definition RequeuePending (offset : Z) (consumerID : string) (attemptedAt now : Z)
    (g : ConsumerGroup) : bool * ConsumerGroup :=
  match update_first offset (set_ClaimedAt attemptedAt) (pel_get consumerID (PEL g)) with
  | None => (false, g)
  | Some entries => (true, with_PEL (<[consumerID := entries]> (PEL g)) now g)
  end.

Definition TransferPending (offset : Z) (fromConsumer toConsumer : string) (now : Z)
    (g : ConsumerGroup) : outcome unit (bool * ConsumerGroup) :=
  match PEL g !! fromConsumer with
  | None => Ret (false, g)
  | Some entries =>
      found ← find_offset offset entries 0;
      match found with
      | None => Ret (false, g)
      | Some (i, e) =>
          let p := <[fromConsumer := cut i entries]> (PEL g) in
          let e := mkPendingEntry (Offset e) toConsumer now (DeliveryCount e + 1) in
          Ret (true, with_PEL (<[toConsumer := pel_get toConsumer p ++ [Some e]]> p) now g)
      end
  end.

(** The running minimum over one list. *)
Fixpoint min_scan (entries : list (option PendingEntry)) (acc : option Z) :
    outcome unit (option Z) :=
  match entries with
  | [] => Ret acc
  | None :: rest => Panic
  | Some e :: rest =>
      let better := match acc with None => true | Some m => Offset e <? m end in
      min_scan rest (if better then Some (Offset e) else acc)
  end.

(** [MinPendingOffset]; the scan runs over the lists one after the other. *)
Definition MinPendingOffset (order : list (string * list (option PendingEntry))) :
    outcome unit (option Z) :=
  min_scan (concat order.*2) None.

Definition PendingOffsets (g : ConsumerGroup) : gset Z :=
  list_to_set (omap (fmap Offset) (concat (map_to_list (PEL g)).*2)).

(** [StealableEntries]; [cutoff] is [time.Now().Add(-visibilityTimeout)]. *)
Fixpoint StealableEntries (cutoff : Z) (excludeConsumer : string) (g : ConsumerGroup)
    (order : list (string * list (option PendingEntry))) : list PendingEntry :=
  match order with
  | [] => []
  | (consumerID, entries) :: order =>
      (if str_eqb consumerID excludeConsumer then []
       else
         let registered := bool_decide (is_Some (Consumers g !! consumerID)) in
         omap (λ e, match e with
                    | Some x => if negb registered || (ClaimedAt x <? cutoff) then Some x else None
                    | None => None
                    end) entries)
      ++ StealableEntries cutoff excludeConsumer g order
  end.

(** ** Membership *)

Definition GetConsumer (consumerID : string) (g : ConsumerGroup) : option ConsumerInfo :=
  mjoin (Consumers g !! consumerID).

Definition TouchConsumer (consumerID : string) (at_ now : Z) (g : ConsumerGroup) :
    option ConsumerInfo * ConsumerGroup :=
  match GetConsumer consumerID g with
  | None => (None, g)
  | Some c =>
      let c := mkConsumerInfo (InfoID c) (InfoClientID c) (ProxyNodeID c) (RegisteredAt c) at_ in
      (Some c, with_Consumers (<[consumerID := Some c]> (Consumers g)) now g)
  end.

Definition SetConsumer (consumerID : string) (info : option ConsumerInfo) (now : Z)
    (g : ConsumerGroup) : ConsumerGroup :=
  with_Consumers (<[consumerID := info]> (Consumers g)) now g.
Definition DeleteConsumer (consumerID : string) (now : Z) (g : ConsumerGroup) : ConsumerGroup :=
  with_Consumers (delete consumerID (Consumers g)) now g.
Definition ConsumerCount (g : ConsumerGroup) : Z := Z.of_nat (size (Consumers g)).
Definition ConsumerIDs (g : ConsumerGroup) : list string := (map_to_list (Consumers g)).*1.

(** ** Routing keys *)

Definition queue_prefix : string := "$queue/"%string.

(** The loop over [rootLevels]; [t] is the rest [topicLevels[t:]]. *)
Fixpoint routing_loop (rootLevels t : list string) : string :=
  match rootLevels with
  | [] => Join slash t
  | r :: rs =>
      if str_eqb r hash_lvl then Join slash t
      else match t with
           | [] => EmptyString
           | l :: t' =>
               if str_eqb r plus_lvl then routing_loop rs t'
               else if negb (str_eqb r l) then EmptyString
               else routing_loop rs t'
           end
  end.

Definition ExtractRoutingKey (topic queueRoot : string) : string :=
  if str_eqb topic EmptyString || str_eqb queueRoot EmptyString then EmptyString
  else routing_loop (Split slash queueRoot) (Split slash topic).

Definition ExtractQueueRoot (topic : string) : string :=
  if negb (HasPrefix topic queue_prefix) then EmptyString
  else
    let rest := TrimPrefix topic queue_prefix in
    match SplitN2 slash rest with
    | [] => EmptyString
    | p :: _ => queue_prefix +:+ p
    end.

Definition IsQueueWildcard (pattern : string) : bool :=
  Contains pattern plus_c || Contains pattern hash_c.

End Group.

(** * Properties *)

Module GroupFacts.
Import Group.

(** ** All entries of a pending list *)

Definition all (p : pel) : list (option PendingEntry) := concat (map_to_list p).*2.
Definition offsets (l : list (option PendingEntry)) : list Z := omap (fmap Offset) l.

#[export] Instance offsets_proper : Proper ((≡ₚ) ==> (≡ₚ)) offsets.
Proof. intros l1 l2 H. unfold offsets. by rewrite H. Qed.

Lemma offsets_app l1 l2 : offsets (l1 ++ l2) = offsets l1 ++ offsets l2.
Proof. apply omap_app. Qed.

Lemma elem_of_offsets o l : o ∈ offsets l ↔ ∃ e, Some e ∈ l ∧ Offset e = o.
Proof.
  unfold offsets. rewrite list_elem_of_omap. split.
  - intros ([e|] & Hl & He); simplify_eq/=. eauto.
  - intros (e & Hl & <-). by exists (Some e).
Qed.

Lemma all_insert c l p : all (<[c := l]> p) ≡ₚ l ++ all (delete c p).
Proof.
  unfold all. rewrite <-insert_delete_eq.
  rewrite (map_to_list_insert (delete c p) c l) by apply lookup_delete_eq. done.
Qed.

Lemma all_delete c p : all p ≡ₚ pel_get c p ++ all (delete c p).
Proof.
  unfold pel_get. destruct (p !! c) as [l|] eqn:Hc; simpl.
  - rewrite <-(insert_delete_id p c l Hc) at 1. by rewrite all_insert, delete_delete_eq.
  - by rewrite delete_id.
Qed.

Lemma elem_of_all e p : e ∈ all p ↔ ∃ c, e ∈ pel_get c p.
Proof.
  unfold all, pel_get. rewrite elem_of_concat. split.
  - intros (l & ([c l'] & -> & Hl)%list_elem_of_fmap & He). apply elem_of_map_to_list in Hl.
    exists c. simpl in He. by rewrite Hl.
  - intros (c & He). destruct (p !! c) as [l|] eqn:Hc; [|by apply elem_of_nil in He].
    exists l. split; [|done]. apply list_elem_of_fmap. exists (c, l).
    split; [done|]. by apply elem_of_map_to_list.
Qed.

(** ** The invariant *)

(** Every entry is non-nil and filed under its consumer; no offset twice. *)
Definition wf (p : pel) : Prop :=
  (∀ c e, e ∈ pel_get c p → ∃ x, e = Some x ∧ ConsumerID x = c) ∧ NoDup (offsets (all p)).

Lemma pel_get_insert c c' l p :
  pel_get c (<[c' := l]> p) = if decide (c = c') then l else pel_get c p.
Proof.
  unfold pel_get. case_decide; subst; [by rewrite lookup_insert_eq|by rewrite lookup_insert_ne].
Qed.

Lemma pel_get_delete c c' p :
  pel_get c (delete c' p) = if decide (c = c') then [] else pel_get c p.
Proof.
  unfold pel_get. case_decide; subst; [by rewrite lookup_delete_eq|by rewrite lookup_delete_ne].
Qed.

Lemma find_offset_spec o l : ∀ k, (∀ e, e ∈ l → is_Some e) →
  match find_offset o l k with
  | Ret (Some (i, e)) => ∃ j, i = (k + j)%nat ∧ l !! j = Some (Some e) ∧ Offset e = o
  | Ret None => o ∉ offsets l
  | _ => False
  end.
Proof.
  induction l as [|[e|] l IH]; intros k Hs; simpl.
  - apply not_elem_of_nil.
  - destruct (Offset e =? o) eqn:E; bool_prop.
    + exists 0%nat. split_and!; [lia|done|done].
    + specialize (IH (S k)). destruct (find_offset o l (S k)) as [[[i x]|]| |].
      * destruct IH as (j & -> & Hj & Hx); [set_solver|]. exists (S j). split_and!; [lia|done|done].
      * change (offsets (Some e :: l)) with (Offset e :: offsets l).
        rewrite not_elem_of_cons. split; [done|]. apply IH. set_solver.
      * apply IH. set_solver.
      * apply IH. set_solver.
  - destruct (Hs None) as [? ?]; [left|done].
Qed.

Lemma cut_perm {A} i (l : list A) x : l !! i = Some x → l ≡ₚ x :: cut i l.
Proof.
  intros Hi. unfold cut. rewrite <-(take_drop_middle l i x Hi) at 1.
  by rewrite <-Permutation_middle.
Qed.

Lemma elem_of_cut {A} i (l : list A) x : x ∈ cut i l → x ∈ l.
Proof.
  unfold cut. rewrite elem_of_app. intros [H|H]; [by apply subseteq_take in H|].
  by apply subseteq_drop in H.
Qed.

Lemma wf_is_Some p c e : wf p → e ∈ pel_get c p → is_Some e.
Proof. intros [H _] He. destruct (H c e He) as (x & -> & _). done. Qed.

(** Add an entry of a new offset under its consumer. *)
Lemma wf_add p c x : wf p → ConsumerID x = c → Offset x ∉ offsets (all p) →
  wf (<[c := pel_get c p ++ [Some x]]> p) ∧
  all (<[c := pel_get c p ++ [Some x]]> p) ≡ₚ Some x :: all p.
Proof.
  intros [Ho Hn] Hx Hf.
  assert (Hall : all (<[c := pel_get c p ++ [Some x]]> p) ≡ₚ Some x :: all p).
  { rewrite all_insert, (all_delete c p). solve_Permutation. }
  split; [|done]. split.
  - intros c' e. rewrite pel_get_insert. case_decide as Hc; [subst c'|by apply Ho].
    rewrite elem_of_app, list_elem_of_singleton. intros [He| ->]; [by apply Ho|eauto].
  - rewrite Hall. change (offsets (Some x :: all p)) with (Offset x :: offsets (all p)).
    by apply NoDup_cons.
Qed.

(** Remove the entry at a position of one consumer's list. *)
Lemma wf_cut p c i x : wf p → pel_get c p !! i = Some (Some x) →
  wf (<[c := cut i (pel_get c p)]> p) ∧
  all p ≡ₚ Some x :: all (<[c := cut i (pel_get c p)]> p).
Proof.
  intros [Ho Hn] Hi.
  assert (Hall : all p ≡ₚ Some x :: all (<[c := cut i (pel_get c p)]> p)).
  { rewrite all_insert, (all_delete c p) at 1. by rewrite (cut_perm _ _ _ Hi) at 1. }
  split; [|done]. split.
  - intros c' e. rewrite pel_get_insert. case_decide as Hc; [subst c'|by apply Ho].
    intros He%elem_of_cut. by apply Ho.
  - rewrite Hall in Hn. by apply NoDup_cons in Hn as [_ Hn].
Qed.

Lemma RemovePending_spec c o now g : wf (PEL g) →
  ∃ b g', RemovePending c o now g = Ret (b, g') ∧ wf (PEL g') ∧
    (b = true ↔ o ∈ offsets (pel_get c (PEL g))) ∧
    (b = false → g' = g) ∧
    (b = true → ∃ x, Offset x = o ∧ Some x ∈ pel_get c (PEL g) ∧
                     all (PEL g) ≡ₚ Some x :: all (PEL g')).
Proof.
  intros Hwf. unfold RemovePending. destruct (PEL g !! c) as [l|] eqn:Hc.
  2: { exists false, g. unfold pel_get. rewrite Hc. split_and!; try done.
       split; [done|]. by intros ?%not_elem_of_nil. }
  assert (Hl : pel_get c (PEL g) = l) by (unfold pel_get; by rewrite Hc).
  pose proof (find_offset_spec o l 0) as Hf.
  destruct (find_offset o l 0) as [[[i x]|]| |].
  2-4: specialize (Hf (λ e He, wf_is_Some _ c e Hwf ltac:(by rewrite Hl))); try done.
  - destruct Hf as (j & -> & Hj & Hx); [intros e He; eapply (wf_is_Some _ c); [done|by rewrite Hl]|].
    rewrite <-Hl in Hj. destruct (wf_cut _ _ _ _ Hwf Hj) as [Hw Ha]. rewrite Hl in Hw, Ha.
    eexists true, _. split; [done|]. simpl. split_and!; [done| |done|].
    + split; [intros _|done]. apply elem_of_offsets. exists x. split; [|done].
      rewrite Hl in *. by eapply list_elem_of_lookup_2.
    + intros _. exists x. split_and!; [done| |done]. by eapply list_elem_of_lookup_2.
  - exists false, g. split_and!; try done. by rewrite Hl.
Qed.

Lemma TransferPending_spec o a b now g : wf (PEL g) →
  ∃ ok g', TransferPending o a b now g = Ret (ok, g') ∧ wf (PEL g') ∧
    (ok = true ↔ o ∈ offsets (pel_get a (PEL g))) ∧
    (ok = false → g' = g) ∧
    (ok = true → ∃ x R, Offset x = o ∧ Some x ∈ pel_get a (PEL g) ∧
       all (PEL g) ≡ₚ Some x :: R ∧
       all (PEL g') ≡ₚ Some (mkPendingEntry o b now (DeliveryCount x + 1)) :: R ∧
       Some (mkPendingEntry o b now (DeliveryCount x + 1)) ∈ pel_get b (PEL g')).
Proof.
  intros Hwf. unfold TransferPending. destruct (PEL g !! a) as [l|] eqn:Hc.
  2: { exists false, g. unfold pel_get. rewrite Hc. split_and!; try done.
       split; [done|]. by intros ?%not_elem_of_nil. }
  assert (Hl : pel_get a (PEL g) = l) by (unfold pel_get; by rewrite Hc).
  pose proof (find_offset_spec o l 0) as Hf.
  destruct (find_offset o l 0) as [[[i x]|]| |].
  2-4: specialize (Hf (λ e He, wf_is_Some _ a e Hwf ltac:(by rewrite Hl))); try done.
  - destruct Hf as (j & -> & Hj & Hx); [intros e He; eapply (wf_is_Some _ a); [done|by rewrite Hl]|].
    rewrite <-Hl in Hj. destruct (wf_cut _ _ _ _ Hwf Hj) as [Hw Ha]. rewrite Hl in Hw, Ha.
    set (p1 := <[a := cut j l]> (PEL g)) in *. set (y := mkPendingEntry o b now (DeliveryCount x + 1)).
    assert (Hfresh : Offset y ∉ offsets (all p1)).
    { destruct Hwf as [_ Hn]. rewrite Ha in Hn.
      change (offsets (Some x :: all p1)) with (Offset x :: offsets (all p1)) in Hn.
      apply NoDup_cons in Hn as [Hn _]. simpl. by rewrite <-Hx. }
    destruct (wf_add p1 b y Hw eq_refl Hfresh) as [Hw2 Ha2].
    eexists true, _. split; [simpl; by rewrite Hx|]. simpl. split_and!; [done| |done|].
    + split; [intros _|done]. apply elem_of_offsets. exists x. split; [|done].
      rewrite Hl in *. by eapply list_elem_of_lookup_2.
    + intros _. exists x, (all p1). split_and!; [done| |done|done|].
      * by eapply list_elem_of_lookup_2.
      * rewrite pel_get_insert, decide_True by done. apply elem_of_app. right. by left.
  - exists false, g. split_and!; try done. by rewrite Hl.
Qed.

Lemma update_first_spec o f l l' : (∀ x, Offset (f x) = Offset x ∧ ConsumerID (f x) = ConsumerID x) →
  update_first o f l = Some l' →
  offsets l' = offsets l ∧ length l' = length l ∧
  ∀ e, e ∈ l' → e ∈ l ∨ ∃ x, e = Some (f x) ∧ Some x ∈ l.
Proof.
  intros Hf. revert l'. induction l as [|[x|] l IH]; intros l'; simpl; [done| |].
  - destruct (Offset x =? o).
    + intros [= <-]. destruct (Hf x) as [Ho _].
      change (offsets (Some (f x) :: l)) with (Offset (f x) :: offsets l). rewrite Ho.
      split_and!; [done..|]. intros e. rewrite !elem_of_cons. intros [->|?]; [right|by auto].
      exists x. set_solver.
    + intros (l1 & H & ->)%fmap_Some. destruct (IH l1 H) as (H1 & H2 & H3).
      change (offsets (Some x :: l1)) with (Offset x :: offsets l1). rewrite H1.
      split_and!; [done|simpl; lia|]. intros e. rewrite elem_of_cons.
      intros [->|He]; [by left; left|]. destruct (H3 e He) as [?|(y & -> & ?)]; [left; by right|].
      right. exists y. split; [done|by right].
  - intros (l1 & H & ->)%fmap_Some. destruct (IH l1 H) as (H1 & H2 & H3).
    split_and!; [done|simpl; lia|]. intros e. rewrite elem_of_cons.
    intros [->|He]; [by left; left|]. destruct (H3 e He) as [?|(y & -> & ?)]; [left; by right|].
    right. exists y. split; [done|by right].
Qed.

Lemma wf_requeue o c at_ now g : wf (PEL g) → wf (PEL (RequeuePending o c at_ now g).2).
Proof.
  intros [Ho Hn]. unfold RequeuePending.
  destruct (update_first _ _ _) as [l'|] eqn:Hu; [|done]. simpl.
  apply update_first_spec in Hu as (H1 & _ & H3); [|done]. split.
  - intros c' e. rewrite pel_get_insert. case_decide as Hc; [subst c'|by apply Ho].
    intros [He|(x & -> & He)]%H3; [by apply Ho|].
    destruct (Ho c (Some x) He) as (y & [= <-] & Hy). eauto.
  - rewrite all_insert, offsets_app, H1, <-offsets_app. by rewrite <-all_delete.
Qed.

Lemma wf_empty : wf ∅.
Proof.
  split; [|apply NoDup_nil_2]. intros c e. unfold pel_get. rewrite lookup_empty.
  by intros ?%elem_of_nil.
Qed.

(** ** Histories of a group

    An entry is added under its own consumer for an offset that is not
    pending, as the delivery path does. *)
Inductive gstep : ConsumerGroup → ConsumerGroup → Prop :=
| gstep_add g x now : Offset x ∉ PendingOffsets g →
    gstep g (AddPending (ConsumerID x) (Some x) now g)
| gstep_remove g g' c o now b : RemovePending c o now g = Ret (b, g') → gstep g g'
| gstep_delete g c now : gstep g (DeleteConsumerPEL c now g)
| gstep_requeue g o c at_ now : gstep g (RequeuePending o c at_ now g).2
| gstep_transfer g g' o a b now ok : TransferPending o a b now g = Ret (ok, g') → gstep g g'
| gstep_clear g now : gstep g (ClearPending now g).2
| gstep_setConsumer g c info now : gstep g (SetConsumer c info now g)
| gstep_touch g c at_ now : gstep g (TouchConsumer c at_ now g).2
| gstep_deleteConsumer g c now : gstep g (DeleteConsumer c now g)
| gstep_setCursor g c k now : gstep g (SetCursor c k now g)
| gstep_advance g k now : gstep g (AdvanceCommitted k now g)
| gstep_setAutoCommit g b now : gstep g (SetAutoCommit b now g).

Lemma elem_of_PendingOffsets o g : o ∈ PendingOffsets g ↔ o ∈ offsets (all (PEL g)).
Proof. unfold PendingOffsets. by rewrite elem_of_list_to_set. Qed.

Lemma gstep_wf g g' : gstep g g' → wf (PEL g) → wf (PEL g').
Proof.
  intros Hs Hwf. destruct Hs; try done.
  - rewrite elem_of_PendingOffsets in H. by apply wf_add.
  - destruct (RemovePending_spec c o now g Hwf) as (? & ? & Hr & Hw & _). rewrite Hr in H. by simplify_eq.
  - destruct Hwf as [Ho Hn]. split; simpl.
    + intros c' e. rewrite pel_get_delete. case_decide; [by intros ?%elem_of_nil|apply Ho].
    + rewrite (all_delete c), offsets_app in Hn. by apply NoDup_app in Hn as (_ & _ & ?).
  - by apply wf_requeue.
  - destruct (TransferPending_spec o a b now g Hwf) as (? & ? & Hr & Hw & _). rewrite Hr in H. by simplify_eq.
  - unfold ClearPending. destruct (_ =? 0); [done|]. apply wf_empty.
  - unfold TouchConsumer. by destruct (GetConsumer c g).
Qed.

Lemma wf_reachable q i p now g : rtc gstep (NewConsumerGroupState q i p now) g → wf (PEL g).
Proof.
  intros H. assert (Hw : wf (PEL (NewConsumerGroupState q i p now))) by apply wf_empty.
  revert Hw. induction H; [done|]. intros Hw. eauto using gstep_wf.
Qed.

(** ** Queries do not depend on the order of the map *)

Lemma all_order p order : order ≡ₚ map_to_list p → concat order.*2 ≡ₚ all p.
Proof. intros H. unfold all. by rewrite H. Qed.

Lemma min_scan_spec l : ∀ acc, (∀ e, e ∈ l → is_Some e) →
  ∃ m, min_scan l acc = Ret m ∧
    match m with
    | None => acc = None ∧ offsets l = []
    | Some z => (Some z = acc ∨ z ∈ offsets l) ∧ (∀ o, o ∈ offsets l → z <= o) ∧
                match acc with Some a => z <= a | None => True end
    end.
Proof.
  induction l as [|[x|] l IH]; intros acc Hs.
  - exists acc. split; [done|]. destruct acc; simpl; [|done].
    split_and!; [by left|by intros ? ?%elem_of_nil|lia].
  - cbn [min_scan]. cbn zeta.
    set (acc' := if match acc with None => true | Some m => Offset x <? m end
                 then Some (Offset x) else acc).
    destruct (IH acc') as (m & -> & Hm); [set_solver|]. exists m. split; [done|].
    change (offsets (Some x :: l)) with (Offset x :: offsets l).
    assert (Hacc : ∃ a', acc' = Some a' ∧ a' <= Offset x ∧
      (a' = Offset x ∨ acc = Some a') ∧ match acc with Some a => a' <= a | None => True end).
    { unfold acc'. destruct acc as [a|]; [destruct (Offset x <? a) eqn:E; bool_prop|];
        eexists; (split; [done|]); split_and!; auto; lia. }
    destruct Hacc as (a' & Ha & Hle & Hor & Hacc). rewrite Ha in Hm. destruct m as [z|].
    + destruct Hm as (Hin & Hmin & Hza). split_and!.
      * destruct Hin as [[= ->]|Hin]; [|right; by right].
        destruct Hor as [->|Hor]; [right; left|by left].
      * intros o. rewrite elem_of_cons. intros [->|Ho]; [lia|by apply Hmin].
      * destruct acc; [lia|done].
    + by destruct Hm.
  - destruct (Hs None) as [? ?]; [left|done].
Qed.

Lemma find_entry_None o l : find_entry o l = None → o ∉ offsets l.
Proof.
  induction l as [|[x|] l IH]; simpl; [by intros _ ?%elem_of_nil| |done].
  destruct (Offset x =? o) eqn:E; bool_prop; [done|]. intros H.
  change (offsets (Some x :: l)) with (Offset x :: offsets l).
  apply not_elem_of_cons. auto.
Qed.

Lemma find_entry_Some o l e : find_entry o l = Some e → Some e ∈ l ∧ Offset e = o.
Proof.
  induction l as [|[x|] l IH]; simpl; [done| |intros [? ?]%IH; split; [by right|done]].
  destruct (Offset x =? o) eqn:E; bool_prop; [intros [= <-]; split; [left|done]|].
  intros [? ?]%IH. split; [by right|done].
Qed.

Lemma FindPending_Some o order e c : FindPending o order = Some (e, c) →
  ∃ l, (c, l) ∈ order ∧ Some e ∈ l ∧ Offset e = o.
Proof.
  induction order as [|[c' l] order IH]; simpl; [done|].
  destruct (find_entry o l) as [x|] eqn:Hf.
  - intros [= -> ->]. apply find_entry_Some in Hf. exists l. split; [left|done].
  - intros (l' & ? & ?)%IH. exists l'. split; [by right|done].
Qed.

Lemma FindPending_None o order : FindPending o order = None → o ∉ offsets (concat order.*2).
Proof.
  induction order as [|[c' l] order IH]; simpl; [by intros _ ?%elem_of_nil|].
  destruct (find_entry o l) as [x|] eqn:Hf; [done|]. intros H.
  rewrite offsets_app, elem_of_app. apply find_entry_None in Hf. intros [?|?]; [done|by apply IH].
Qed.

Lemma offsets_inj p c c' x y : wf p → Some x ∈ pel_get c p → Some y ∈ pel_get c' p →
  Offset x = Offset y → x = y ∧ c = c'.
Proof.
  intros [Ho Hn] Hx Hy He.
  destruct (Ho c _ Hx) as (? & [= <-] & Hcx). destruct (Ho c' _ Hy) as (? & [= <-] & Hcy).
  enough (x = y) as ->; [by rewrite <-Hcx, <-Hcy|].
  assert (Hxa : Some x ∈ all p) by (apply elem_of_all; eauto).
  assert (Hya : Some y ∈ all p) by (apply elem_of_all; eauto).
  revert Hn Hxa Hya. generalize (all p). clear -He. induction l as [|e l IH]; intros Hn Hx Hy.
  { by apply elem_of_nil in Hx. }
  assert (Hl : NoDup (offsets l)).
  { destruct e; simpl in Hn; [by apply NoDup_cons in Hn as [_ ?]|done]. }
  apply elem_of_cons in Hx as [<-|Hx]; apply elem_of_cons in Hy as [Hy|Hy]; [congruence| | |auto].
  - change (offsets (Some x :: l)) with (Offset x :: offsets l) in Hn.
    apply NoDup_cons in Hn as [Hn _]. destruct Hn. apply elem_of_offsets. eauto.
  - subst e. change (offsets (Some y :: l)) with (Offset y :: offsets l) in Hn.
    apply NoDup_cons in Hn as [Hn _]. destruct Hn. apply elem_of_offsets. eauto.
Qed.

Lemma elem_of_order (p : pel) order c l : order ≡ₚ map_to_list p → (c, l) ∈ order ↔ p !! c = Some l.
Proof. intros H. by rewrite H, elem_of_map_to_list. Qed.

Lemma FindPending_spec p o order : wf p → order ≡ₚ map_to_list p →
  match FindPending o order with
  | Some (e, c) => Some e ∈ pel_get c p ∧ Offset e = o
  | None => o ∉ offsets (all p)
  end.
Proof.
  intros Hwf Ho. destruct (FindPending o order) as [[e c]|] eqn:Hf.
  - apply FindPending_Some in Hf as (l & Hl & He). rewrite (elem_of_order p) in Hl by done.
    unfold pel_get. by rewrite Hl.
  - apply FindPending_None in Hf. by rewrite (all_order p) in Hf.
Qed.

Lemma PendingCount_all g : PendingCount g = Z.of_nat (length (all (PEL g))).
Proof.
  unfold PendingCount, all. rewrite map_fold_foldr. induction (map_to_list (PEL g)) as [|[c l] ls IH];
    [done|]. rewrite fmap_cons. cbn [foldr concat uncurry fst snd]. rewrite IH, length_app. lia.
Qed.

Lemma StealableEntries_spec cutoff ex g order x :
  x ∈ StealableEntries cutoff ex g order ↔
  ∃ c l, (c, l) ∈ order ∧ Some x ∈ l ∧ c ≠ ex ∧
         (Consumers g !! c = None ∨ ClaimedAt x < cutoff).
Proof.
  induction order as [|[c l] order IH]; simpl; [set_solver|]. rewrite elem_of_app, IH.
  assert (Hh : x ∈ (if str_eqb c ex then [] else omap (λ e, match e with
      | Some x => if negb (bool_decide (is_Some (Consumers g !! c))) || (ClaimedAt x <? cutoff)
                  then Some x else None | None => None end) l) ↔
    Some x ∈ l ∧ c ≠ ex ∧ (Consumers g !! c = None ∨ ClaimedAt x < cutoff)).
  { unfold str_eqb. case_bool_decide; [set_solver|]. rewrite list_elem_of_omap. split.
    - intros ([y|] & Hy & Hx); [|done]. destruct (_ || _) eqn:E; simplify_eq.
      apply orb_true_iff in E as [E|E]; bool_prop; [|by auto].
      split_and!; [done|done|left]. by apply eq_None_not_Some.
    - intros (Hx & _ & Hor). exists (Some x). split; [done|].
      destruct Hor as [->|Hlt]; [done|]. by rewrite (proj2 (Z.ltb_lt _ _) Hlt), orb_true_r. }
  rewrite Hh. set_solver.
Qed.

(** A consumer group in any reachable state never panics on a nil entry, has
    every pending entry filed under the consumer that owns it, and has every
    offset pending at most once. *)
Theorem group_safe q i p t0 g c a b o now order :
  rtc gstep (NewConsumerGroupState q i p t0) g → order ≡ₚ map_to_list (PEL g) →
  wf (PEL g) ∧ RemovePending c o now g ≠ Panic ∧ TransferPending o a b now g ≠ Panic ∧
  MinPendingOffset order ≠ Panic.
Proof.
  intros Hwf%wf_reachable Ho. split_and!; [done| | |].
  - by destruct (RemovePending_spec c o now g Hwf) as (? & ? & -> & _).
  - by destruct (TransferPending_spec o a b now g Hwf) as (? & ? & -> & _).
  - unfold MinPendingOffset. destruct (min_scan_spec (concat order.*2) None) as (m & -> & _); [|done].
    intros e. rewrite (all_order _ _ Ho), elem_of_all. intros (c' & He). by eapply wf_is_Some.
Qed.

(** A group with one pending entry. *)
Definition example_group : ConsumerGroup :=
  AddPending "c" (Some (mkPendingEntry 4 "c" 10 1)) 10 (NewConsumerGroupState "q" "g" "#" 0).

Lemma example_reachable : rtc gstep (NewConsumerGroupState "q" "g" "#" 0) example_group.
Proof.
  apply rtc_once. apply (gstep_add _ (mkPendingEntry 4 "c" 10 1)).
  rewrite elem_of_PendingOffsets. by intros ?%elem_of_nil.
Qed.

Lemma group_safe_witness :
  TransferPending 4 "c" "d" 20 example_group ≠ Panic.
Proof.
  exact (proj1 (proj2 (proj2 (group_safe "q" "g" "#" 0 example_group "c" "c" "d" 4 20 _
    example_reachable (Permutation_refl _))))).
Defined.

(** Settling and transferring account for every pending entry: acknowledging
    an offset removes exactly that offset, and transferring one moves exactly
    its entry, under the new owner with one more delivery and the new claim
    time, changing neither the set of pending offsets nor their number; when
    the consumer does not hold the offset both report false and change
    nothing. *)
Theorem pending_accounting q i p t0 g c d o now :
  rtc gstep (NewConsumerGroupState q i p t0) g →
  ∃ b1 g1 b2 g2,
    RemovePending c o now g = Ret (b1, g1) ∧ TransferPending o c d now g = Ret (b2, g2) ∧
    (if decide (o ∈ offsets (pel_get c (PEL g)))
     then b1 = true ∧ PendingOffsets g1 = PendingOffsets g ∖ {[o]} ∧
          PendingCount g1 = PendingCount g - 1 ∧
          b2 = true ∧ PendingOffsets g2 = PendingOffsets g ∧ PendingCount g2 = PendingCount g ∧
          ∃ x, Offset x = o ∧ Some x ∈ pel_get c (PEL g) ∧
               ∀ order, order ≡ₚ map_to_list (PEL g2) →
                 FindPending o order = Some (mkPendingEntry o d now (DeliveryCount x + 1), d)
     else b1 = false ∧ g1 = g ∧ b2 = false ∧ g2 = g).
Proof.
  intros Hwf%wf_reachable.
  destruct (RemovePending_spec c o now g Hwf) as (b1 & g1 & Hr & Hw1 & Hb1 & Hf1 & Ht1).
  destruct (TransferPending_spec o c d now g Hwf) as (b2 & g2 & Hx & Hw2 & Hb2 & Hf2 & Ht2).
  exists b1, g1, b2, g2. split; [done|]. split; [done|]. case_decide as Ho.
  2: { destruct b1, b2; naive_solver. }
  apply Hb1 in Ho as Hb1'. apply Hb2 in Ho as Hb2'. subst b1 b2.
  destruct (Ht1 eq_refl) as (x1 & Hx1 & Hin1 & Ha1).
  destruct (Ht2 eq_refl) as (x2 & R & Hx2 & Hin2 & Ha2 & Ha2' & Hin2').
  assert (Hl1 : length (all (PEL g)) = S (length (all (PEL g1)))) by (by rewrite Ha1).
  assert (Hl2 : length (all (PEL g2)) = length (all (PEL g))) by (by rewrite Ha2, Ha2').
  rewrite !PendingCount_all. split_and!; [done| |lia|done| |lia|].
  - apply set_eq. intros o'. rewrite elem_of_difference, !elem_of_PendingOffsets, Ha1.
    change (offsets (Some x1 :: all (PEL g1))) with (Offset x1 :: offsets (all (PEL g1))).
    assert (Offset x1 ∉ offsets (all (PEL g1))).
    { destruct Hwf as [_ Hn]. rewrite Ha1 in Hn. by apply NoDup_cons in Hn as [? _]. }
    set_solver.
  - apply set_eq. intros o'. rewrite !elem_of_PendingOffsets, Ha2, Ha2'.
    change (offsets (Some x2 :: R)) with (Offset x2 :: offsets R).
    change (offsets (Some (mkPendingEntry o d now (DeliveryCount x2 + 1)) :: R))
      with (o :: offsets R). by rewrite Hx2.
  - exists x2. split_and!; [done|done|]. intros order Hord.
    pose proof (FindPending_spec _ o order Hw2 Hord) as Hf.
    destruct (FindPending o order) as [[e c']|].
    + destruct Hf as [He Hoe]. f_equal.
      destruct (offsets_inj _ _ _ _ _ Hw2 He Hin2' Hoe) as [-> ->]. done.
    + destruct Hf. apply elem_of_offsets. eexists. split; [apply elem_of_all; eauto|done].
Qed.

Lemma pending_accounting_witness :
  ∃ b1 g1 b2 g2,
    RemovePending "c" 4 20 example_group = Ret (b1, g1) ∧
    TransferPending 4 "c" "d" 20 example_group = Ret (b2, g2) ∧ b1 = true ∧ b2 = true.
Proof.
  destruct (pending_accounting "q" "g" "#" 0 example_group "c" "d" 4 20 example_reachable)
    as (b1 & g1 & b2 & g2 & H1 & H2 & H3).
  exists b1, g1, b2, g2. split; [exact H1|]. split; [exact H2|].
  vm_compute in H1, H2. injection H1 as <- <-. injection H2 as <- <-. split; reflexivity.
Defined.

(** Queries over the pending list do not depend on the order in which Go walks
    the map: the minimum is the least pending offset (the safe truncation
    point), the search finds the unique entry and its owner, and the stealable
    entries are those of other consumers that are gone or whose claim is
    older than the cutoff. *)
Theorem pending_queries q i p t0 g o cutoff ex order :
  rtc gstep (NewConsumerGroupState q i p t0) g → order ≡ₚ map_to_list (PEL g) →
  (∃ m, MinPendingOffset order = Ret m ∧
     match m with
     | None => PendingOffsets g = ∅
     | Some z => z ∈ PendingOffsets g ∧ ∀ o', o' ∈ PendingOffsets g → z <= o'
     end) ∧
  (∀ e c, FindPending o order = Some (e, c) ↔ Some e ∈ pel_get c (PEL g) ∧ Offset e = o) ∧
  (∀ x, x ∈ StealableEntries cutoff ex g order ↔
     ∃ c, Some x ∈ pel_get c (PEL g) ∧ c ≠ ex ∧
          (Consumers g !! c = None ∨ ClaimedAt x < cutoff)).
Proof.
  intros Hwf%wf_reachable Ho. split_and!.
  - unfold MinPendingOffset. destruct (min_scan_spec (concat order.*2) None) as (m & -> & Hm).
    { intros e. rewrite (all_order _ _ Ho), elem_of_all. intros (c' & He). by eapply wf_is_Some. }
    exists m. split; [done|]. destruct m as [z|].
    + destruct Hm as ([?|Hz] & Hmin & _); [done|]. rewrite elem_of_PendingOffsets.
      rewrite (all_order _ _ Ho) in Hz. split; [done|].
      intros o'. rewrite elem_of_PendingOffsets, <-(all_order _ _ Ho). apply Hmin.
    + destruct Hm as [_ Hm]. apply set_eq. intros o'. rewrite elem_of_PendingOffsets.
      rewrite <-(all_order _ _ Ho), Hm. set_solver.
  - intros e c. pose proof (FindPending_spec _ o order Hwf Ho) as Hf. split.
    + intros He. by rewrite He in Hf.
    + intros [He Hoe]. destruct (FindPending o order) as [[e' c']|].
      * destruct Hf as [He' Hoe']. rewrite <-Hoe in Hoe'.
        by destruct (offsets_inj _ _ _ _ _ Hwf He' He Hoe') as [-> ->].
      * destruct Hf. apply elem_of_offsets. exists e. split; [|done]. apply elem_of_all. eauto.
  - intros x. rewrite StealableEntries_spec. setoid_rewrite (elem_of_order _ _ _ _ Ho).
    unfold pel_get. split.
    + intros (c & l & Hl & Hx & Hr). exists c. by rewrite Hl.
    + intros (c & Hx & Hr). destruct (PEL g !! c) as [l|] eqn:Hl; [|by apply elem_of_nil in Hx].
      exists c, l. done.
Qed.

Lemma pending_queries_witness :
  FindPending 4 (map_to_list (PEL example_group)) = Some (mkPendingEntry 4 "c" 10 1, "c"%string).
Proof.
  apply (proj1 (proj2 (pending_queries "q" "g" "#" 0 example_group 4 0 EmptyString _
    example_reachable (Permutation_refl _)))). vm_compute. split; [left|reflexivity].
Defined.

End GroupFacts.

(** ** Routing keys *)

Module RoutingFacts.
Import Group.

Lemma levels_under_queue rest : Split slash (queue_prefix +:+ rest) = "$queue"%string :: Split slash rest.
Proof.
  change (queue_prefix +:+ rest) with ("$queue"%string +:+ String slash rest).
  rewrite Split_Cut, Cut_app; done.
Qed.

(** Queue root and routing key split a queue topic: for a queue name that is
    one level and not the multi-level wildcard, the root of
    [$queue/name/key] is [$queue/name] and the routing key under that root is
    [key]; a topic that ends at the queue name has the empty key. *)
Theorem routing_key_split name key :
  Contains name slash = false → name ≠ hash_lvl →
  let root := queue_prefix +:+ name in
  ExtractQueueRoot (root +:+ String slash key) = root ∧
  ExtractRoutingKey (root +:+ String slash key) root = key ∧
  ExtractQueueRoot root = root ∧ ExtractRoutingKey root root = EmptyString.
Proof.
  intros Hn Hh root. unfold root. rewrite app_str_assoc.
  set (rest := name +:+ String slash key).
  assert (Hr : ∀ s, ExtractQueueRoot (queue_prefix +:+ s) =
    match SplitN2 slash s with [] => EmptyString | p :: _ => queue_prefix +:+ p end).
  { intros s. unfold ExtractQueueRoot, TrimPrefix. by rewrite HasPrefix_app. }
  assert (Hk : ∀ s, ExtractRoutingKey (queue_prefix +:+ s) (queue_prefix +:+ name) =
    routing_loop [name] (Split slash s)).
  { intros s. unfold ExtractRoutingKey. rewrite !levels_under_queue.
    rewrite (Split_Cut slash name), Cut_none by done. done. }
  rewrite !Hr, !Hk. unfold SplitN2, rest. rewrite Cut_app, !Cut_none by done.
  rewrite (Split_Cut slash (name +:+ _)), (Split_Cut slash name), Cut_app, Cut_none by done.
  cbn [routing_loop]. rewrite (proj2 (str_eqb_false _ _) Hh), str_eqb_refl.
  split_and!; [done| |done|]; destruct (str_eqb name plus_lvl); simpl; try done;
    apply Join_Split.
Qed.

Lemma routing_key_split_witness :
  ExtractRoutingKey "$queue/tasks/images/png" "$queue/tasks" = "images/png"%string.
Proof.
  exact (proj1 (proj2 (routing_key_split "tasks" "images/png" eq_refl ltac:(discriminate)))).
Defined.
End RoutingFacts.
