(* ===== verification/QueueConfig.v ===== *)
(** * Queue configuration (src/queue/types/config.go)

    The configuration record with the sub-records the validation reads, the
    default configurations, the translation of a configuration-file entry
    ([FromInput]) and [Validate].  Durations are nanoseconds.  The backoff
    multiplier is an IEEE double, as the Standard Library's [spec_float], so
    that NaN and the infinities compare as they do in Go.

    Theorem: a file entry is refused exactly for the reasons listed in
    [input_ok]; every other field of the entry is harmless. *)

From Stdlib Require Import ZArith Lia Bool Ascii String SpecFloat.
From stdpp Require Import prelude gmap strings.
From S2P Require Import Prelude GoStrings Topics.

Module Config.

Inductive ConfigErr := ErrInvalidConfig | ErrInvalidConfigFilter (filter : string) (err : TopicErr).

(** [time] units in nanoseconds. *)
Definition Second : Z := 1000000000.
Definition Minute : Z := 60 * Second.
Definition Hour : Z := 60 * Minute.

Definition MQTTQueueName : string := "mqtt".
Definition MQTTQueueTopic : string := "$queue/#".
Definition ReplicationSync : string := "sync".
Definition ReplicationAsync : string := "async".
Definition QueueTypeClassic : string := "classic".
Definition QueueTypeStream : string := "stream".

Definition one64 : spec_float := S754_finite false 4503599627370496 (-52).
Definition two64 : spec_float := S754_finite false 4503599627370496 (-51).
Definition zero64 : spec_float := S754_zero false.

Record RetryPolicy := mkRetryPolicy {
  MaxRetries : Z;
  InitialBackoff : Z;
  MaxBackoff : Z;
  BackoffMultiplier : spec_float;
  TotalTimeout : Z
}.

Record DLQConfig := mkDLQConfig { DLQEnabled : bool; DLQTopic : string; AlertWebhook : string }.

Record ReplicationConfig := mkReplicationConfig {
  ReplEnabled : bool;
  ReplGroup : string;
  ReplicationFactor : Z;
  ReplMode : string;
  MinInSyncReplicas : Z;
  AckTimeout : Z;
  ReplHeartbeatTimeout : Z;
  ElectionTimeout : Z;
  SnapshotInterval : Z;
  SnapshotThreshold : Z
}.

Record RetentionPolicy := mkRetentionPolicy {
  RetentionTime : Z;
  TimeCheckInterval : Z;
  RetentionBytes : Z;
  RetentionMessages : Z;
  SizeCheckEvery : Z;
  CompactionEnabled : bool;
  CompactionKey : string;
  CompactionLag : Z;
  CompactionInterval : Z
}.

Record QueueConfig := mkQueueConfig {
  Name : string;
  Topics : list string;
  Reserved : bool;
  QType : string;
  PrimaryGroup : string;
  Durable : bool;
  AckDurability : string;
  ExpiresAfter : Z;
  LastConsumerDisconnect : option Z;
  Retry : RetryPolicy;
  DLQ : DLQConfig;
  Replication : ReplicationConfig;
  Retention : RetentionPolicy;
  MaxMessageSize : Z;
  MaxDepth : Z;
  MessageTTL : Z;
  DeliveryTimeout : Z;
  BatchSize : Z;
  HeartbeatTimeout : Z
}.

Definition zeroRetention : RetentionPolicy :=
  mkRetentionPolicy 0 0 0 0 0 false EmptyString 0 0.

Definition DefaultQueueConfig (name : string) (topics : list string) : QueueConfig :=
  let topics := if (length topics =? 0)%nat then [hash_lvl] else topics in
  mkQueueConfig name topics false QueueTypeClassic EmptyString true EmptyString 0 None
    (mkRetryPolicy 10 (5 * Second) (5 * Minute) two64 (24 * Hour))
    (mkDLQConfig true EmptyString EmptyString)
    (mkReplicationConfig false EmptyString 3 ReplicationSync 2 (5 * Second) 0 0 0 0)
    zeroRetention
    (10 * 1024 * 1024) 100000 (7 * 24 * Hour) (30 * Second) 100 (2 * Minute).

Definition DefaultEphemeralQueueConfig (name : string) (topics : list string) : QueueConfig :=
  let c := DefaultQueueConfig name topics in
  mkQueueConfig (Name c) (Topics c) (Reserved c) (QType c) (PrimaryGroup c) false
    (AckDurability c) (5 * Minute) (LastConsumerDisconnect c) (Retry c) (DLQ c)
    (Replication c) (Retention c) (MaxMessageSize c) (MaxDepth c) (MessageTTL c)
    (DeliveryTimeout c) (BatchSize c) (HeartbeatTimeout c).

Definition MQTTQueueConfig : QueueConfig :=
  let c := DefaultQueueConfig MQTTQueueName [MQTTQueueTopic] in
  mkQueueConfig (Name c) (Topics c) true (QType c) (PrimaryGroup c) true
    (AckDurability c) (ExpiresAfter c) (LastConsumerDisconnect c) (Retry c) (DLQ c)
    (Replication c) (Retention c) (MaxMessageSize c) (MaxDepth c) (MessageTTL c)
    (DeliveryTimeout c) (BatchSize c) (HeartbeatTimeout c).

Record QueueConfigInput := mkInput {
  InName : string;
  InTopics : list string;
  InReserved : bool;
  InType : string;
  InPrimaryGroup : string;
  InAckDurability : string;
  InMaxMessageSize : Z;
  InMaxDepth : Z;
  InMessageTTL : Z;
  InMaxRetries : Z;
  InInitialBackoff : Z;
  InMaxBackoff : Z;
  InMultiplier : spec_float;
  InDLQEnabled : bool;
  InDLQTopic : string;
  InRetention : RetentionPolicy;
  InReplication : ReplicationConfig
}.

(** [if input.X > 0 { cfg.X = input.X }]. *)
Definition override (input cur : Z) : Z := if 0 <? input then input else cur.

Definition FromInput (i : QueueConfigInput) : QueueConfig :=
  let c := DefaultQueueConfig (InName i) (InTopics i) in
  let r := Retry c in
  mkQueueConfig (Name c) (Topics c) (InReserved i)
    (if str_eqb (InType i) EmptyString then QType c else InType i)
    (InPrimaryGroup i) true (InAckDurability i) (ExpiresAfter c) (LastConsumerDisconnect c)
    (mkRetryPolicy (override (InMaxRetries i) (MaxRetries r))
       (override (InInitialBackoff i) (InitialBackoff r))
       (override (InMaxBackoff i) (MaxBackoff r))
       (if SFltb zero64 (InMultiplier i) then InMultiplier i else BackoffMultiplier r)
       (TotalTimeout r))
    (mkDLQConfig (InDLQEnabled i)
       (if str_eqb (InDLQTopic i) EmptyString then DLQTopic (DLQ c) else InDLQTopic i)
       (AlertWebhook (DLQ c)))
    (if ReplEnabled (InReplication i) then InReplication i else Replication c)
    (InRetention i)
    (override (InMaxMessageSize i) (MaxMessageSize c))
    (override (InMaxDepth i) (MaxDepth c))
    (override (InMessageTTL i) (MessageTTL c))
    (DeliveryTimeout c) (BatchSize c) (HeartbeatTimeout c).

Fixpoint ValidateTopicFilters (filters : list string) : outcome ConfigErr unit :=
  match filters with
  | [] => Ret tt
  | filter :: rest =>
      match ValidateTopicFilter filter with
      | Ret _ => ValidateTopicFilters rest
      | Fail err => Fail (ErrInvalidConfigFilter filter err)
      | Panic => Panic
      end
  end.

(** [strings.TrimSpace(s) == ""]: every rune of [s] is white space, in UTF-8. *)
Fixpoint all_space (l : list Z) : bool :=
  match l with
  | [] => true
  | b0 :: l1 =>
      if in_range 0x09 0x0D b0 || (b0 =? 0x20) then all_space l1
      else match l1 with
      | [] => false
      | b1 :: l2 =>
          if (b0 =? 0xC2) && ((b1 =? 0x85) || (b1 =? 0xA0)) then all_space l2
          else match l2 with
          | [] => false
          | b2 :: l3 =>
              if ((b0 =? 0xE1) && (b1 =? 0x9A) && (b2 =? 0x80))
                 || ((b0 =? 0xE2) && (b1 =? 0x80)
                     && (in_range 0x80 0x8A b2 || (b2 =? 0xA8) || (b2 =? 0xA9) || (b2 =? 0xAF)))
                 || ((b0 =? 0xE2) && (b1 =? 0x81) && (b2 =? 0x9F))
                 || ((b0 =? 0xE3) && (b1 =? 0x80) && (b2 =? 0x80))
              then all_space l3 else false
          end
      end
  end.
Definition blank (s : string) : bool := all_space (b2z <$> bytes_of s).

Definition validate_replication (r : ReplicationConfig) : outcome ConfigErr unit :=
  if (ReplicationFactor r <? 1) || (10 <? ReplicationFactor r) then Fail ErrInvalidConfig
  else if (MinInSyncReplicas r <? 1) || (ReplicationFactor r <? MinInSyncReplicas r)
  then Fail ErrInvalidConfig
  else if negb (str_eqb (ReplMode r) ReplicationSync) && negb (str_eqb (ReplMode r) ReplicationAsync)
  then Fail ErrInvalidConfig
  else if str_eqb (ReplMode r) ReplicationAsync && (1 <? MinInSyncReplicas r)
  then Fail ErrInvalidConfig
  else if AckTimeout r <=? 0 then Fail ErrInvalidConfig
  else if negb (str_eqb (ReplGroup r) EmptyString) && blank (ReplGroup r)
  then Fail ErrInvalidConfig
  else Ret tt.

Definition Validate (c : QueueConfig) : outcome ConfigErr unit :=
  match ValidateTopicFilters (Topics c) with
  | Fail err => Fail err
  | Panic => Panic
  | Ret _ =>
  if str_eqb (Name c) EmptyString then Fail ErrInvalidConfig
  else if (length (Topics c) =? 0)%nat then Fail ErrInvalidConfig
  else if MaxMessageSize c <=? 0 then Fail ErrInvalidConfig
  else if MaxDepth c <=? 0 then Fail ErrInvalidConfig
  else if DeliveryTimeout c <=? 0 then Fail ErrInvalidConfig
  else if BatchSize c <=? 0 then Fail ErrInvalidConfig
  else if HeartbeatTimeout c <=? 0 then Fail ErrInvalidConfig
  else if MaxRetries (Retry c) <? 0 then Fail ErrInvalidConfig
  else if (InitialBackoff (Retry c) <? 0) || (MaxBackoff (Retry c) <? InitialBackoff (Retry c))
  then Fail ErrInvalidConfig
  else if SFltb (BackoffMultiplier (Retry c)) one64 then Fail ErrInvalidConfig
  else if TotalTimeout (Retry c) <? 0 then Fail ErrInvalidConfig
  else if negb (Durable c) && (ExpiresAfter c <=? 0) then Fail ErrInvalidConfig
  else if Reserved c && negb (Durable c) then Fail ErrInvalidConfig
  else if negb (str_eqb (QType c) EmptyString) && negb (str_eqb (QType c) QueueTypeClassic)
          && negb (str_eqb (QType c) QueueTypeStream) then Fail ErrInvalidConfig
  else if ReplEnabled (Replication c) then validate_replication (Replication c)
  else Ret tt
  end.

End Config.

(** * Properties *)

Module ConfigFacts.
Import Config.

Lemma ValidateTopicFilters_iff fs :
  ValidateTopicFilters fs = Ret tt ↔ Forall wf_filter fs.
Proof.
  induction fs as [|f fs IH]; simpl; [by split|]. rewrite Forall_cons, <-IH, <-ValidateTopicFilter_iff.
  destruct (ValidateTopicFilter_total f) as [->| ->]; [tauto|]. naive_solver.
Qed.

(** An enabled replication section: between one and ten replicas, a quorum
    among them, asynchronous mode only with a quorum of one. *)
Definition replication_ok (r : ReplicationConfig) : Prop :=
  1 <= ReplicationFactor r <= 10 ∧
  1 <= MinInSyncReplicas r <= ReplicationFactor r ∧
  (ReplMode r = ReplicationSync ∨ (ReplMode r = ReplicationAsync ∧ MinInSyncReplicas r = 1)) ∧
  0 < AckTimeout r ∧
  (ReplGroup r = EmptyString ∨ blank (ReplGroup r) = false).

Lemma validate_replication_iff r : validate_replication r = Ret tt ↔ replication_ok r.
Proof.
  unfold validate_replication, replication_ok. split.
  - repeat (case_match; [done|]). intros _. bool_prop.
    repeat match goal with H : (_ && _) = false |- _ => apply andb_false_iff in H end.
    rewrite ?negb_false_iff, ?str_eqb_true, ?str_eqb_false in *.
    split_and!; try lia; [|naive_solver]. destruct H1 as [?|E]; [by left|].
    right. split; [done|]. destruct H2 as [E'|?%Z.ltb_ge]; [|lia].
    rewrite E in E'. done.
  - intros (HF & HM & Hmode & Hack & Hgrp).
    rewrite (proj2 (Z.ltb_ge (ReplicationFactor r) 1)) by lia.
    rewrite (proj2 (Z.ltb_ge 10 (ReplicationFactor r))) by lia.
    rewrite (proj2 (Z.ltb_ge (MinInSyncReplicas r) 1)) by lia.
    rewrite (proj2 (Z.ltb_ge (ReplicationFactor r) (MinInSyncReplicas r))) by lia.
    rewrite (proj2 (Z.leb_gt (AckTimeout r) 0)) by lia. cbn [orb].
    destruct Hgrp as [-> | ->]; rewrite ?andb_false_r; cbn;
      destruct Hmode as [-> |[-> ->]]; done.
Qed.

(** What a configuration-file entry must satisfy. *)
Definition input_ok (i : QueueConfigInput) : Prop :=
  InName i ≠ EmptyString ∧ Forall wf_filter (InTopics i) ∧
  InType i ∈ [EmptyString; QueueTypeClassic; QueueTypeStream] ∧
  override (InInitialBackoff i) (5 * Second) <= override (InMaxBackoff i) (5 * Minute) ∧
  (SFltb zero64 (InMultiplier i) = true → SFltb (InMultiplier i) one64 = false) ∧
  (ReplEnabled (InReplication i) = true → replication_ok (InReplication i)).

Lemma override_pos i d : 0 < d → 0 < override i d.
Proof. unfold override. case_match; bool_prop; lia. Qed.

(** The topics of a default configuration are valid when the given ones are. *)
Lemma default_topics_wf name ts :
  Forall wf_filter (Topics (DefaultQueueConfig name ts)) ↔ Forall wf_filter ts.
Proof.
  destruct ts as [|t ts]; [|done]. split; [constructor|]. intros _.
  apply ValidateTopicFilters_iff. by vm_compute.
Qed.

Lemma default_topics_nonempty name ts :
  (length (Topics (DefaultQueueConfig name ts)) =? 0)%nat = false.
Proof. by destruct ts. Qed.

(** The multiplier, type and replication checks, after the defaults. *)
Lemma from_input_tail (P Q R : Prop) m ty rep def :
  P → Q → R → ReplEnabled def = false →
  (if SFltb (if SFltb zero64 m then m else two64) one64 then Fail ErrInvalidConfig
   else if negb (str_eqb (if str_eqb ty EmptyString then QueueTypeClassic else ty) EmptyString)
           && negb (str_eqb (if str_eqb ty EmptyString then QueueTypeClassic else ty) QueueTypeClassic)
           && negb (str_eqb (if str_eqb ty EmptyString then QueueTypeClassic else ty) QueueTypeStream)
        then Fail ErrInvalidConfig
   else if ReplEnabled (if ReplEnabled rep then rep else def)
        then validate_replication (if ReplEnabled rep then rep else def) else Ret tt) = Ret tt ↔
  P ∧ Q ∧ ty ∈ [EmptyString; QueueTypeClassic; QueueTypeStream] ∧ R ∧
  (SFltb zero64 m = true → SFltb m one64 = false) ∧
  (ReplEnabled rep = true → replication_ok rep).
Proof.
  intros HP HQ HR Hdef. rewrite <-validate_replication_iff.
  assert (Hrep : (if ReplEnabled (if ReplEnabled rep then rep else def)
    then validate_replication (if ReplEnabled rep then rep else def) else Ret tt) = Ret tt ↔
    (ReplEnabled rep = true → validate_replication rep = Ret tt)).
  { destruct (ReplEnabled rep) eqn:E; rewrite ?E, ?Hdef; naive_solver. }
  rewrite !elem_of_cons, elem_of_nil.
  destruct (SFltb zero64 m) eqn:E0; [destruct (SFltb m one64) eqn:E1; [naive_solver|]|];
    cbn [SFltb SFcompare two64 one64];
    destruct (str_eqb ty EmptyString) eqn:E2;
    try (apply str_eqb_true in E2; subst ty; cbn; rewrite Hrep; naive_solver);
    rewrite ?E2; cbn [negb andb];
    destruct (str_eqb ty QueueTypeClassic) eqn:E3;
    try (apply str_eqb_true in E3; subst ty; cbn; rewrite Hrep; naive_solver);
    destruct (str_eqb ty QueueTypeStream) eqn:E4;
    try (apply str_eqb_true in E4; subst ty; cbn; rewrite Hrep; naive_solver);
    cbn; rewrite str_eqb_false in E2, E3, E4; naive_solver.
Qed.

(** A queue described in the configuration file is refused by [Validate]
    exactly when its name is empty, one of its topic filters is malformed, its
    type is unknown, its effective first backoff exceeds its effective maximum,
    its multiplier lies between zero and one, or its enabled replication
    section is inconsistent.  Sizes, depth, expiry and retry counts never
    refuse it: a non-positive value takes the default. *)
Theorem FromInput_Validate i :
  Validate (FromInput i) = Ret tt ↔ input_ok i.
Proof.
  unfold input_ok. rewrite <-(default_topics_wf (InName i)), <-ValidateTopicFilters_iff.
  unfold Validate. set (c := FromInput i).
  change (Topics c) with (Topics (DefaultQueueConfig (InName i) (InTopics i))).
  rewrite default_topics_nonempty.
  destruct (ValidateTopicFilters _) as [[]|e|]; [|naive_solver..].
  change (Name c) with (InName i). rewrite <-str_eqb_false.
  destruct (str_eqb (InName i) EmptyString); [naive_solver|].
  rewrite (proj2 (Z.leb_gt (MaxMessageSize c) 0)) by by apply override_pos.
  rewrite (proj2 (Z.leb_gt (MaxDepth c) 0)) by by apply override_pos.
  rewrite (proj2 (Z.ltb_ge (MaxRetries (Retry c)) 0))
    by (apply Z.lt_le_incl; by apply override_pos).
  rewrite (proj2 (Z.ltb_ge (InitialBackoff (Retry c)) 0))
    by (apply Z.lt_le_incl; by apply override_pos).
  change (negb (Durable c)) with false. rewrite andb_false_r.
  change (MaxBackoff (Retry c)) with (override (InMaxBackoff i) (5 * Minute)).
  change (InitialBackoff (Retry c)) with (override (InInitialBackoff i) (5 * Second)).
  cbn [orb andb]. change (DeliveryTimeout c <=? 0) with false.
  change (BatchSize c <=? 0) with false. change (HeartbeatTimeout c <=? 0) with false.
  change (TotalTimeout (Retry c) <? 0) with false. cbn iota.
  destruct (Z.ltb_spec (override (InMaxBackoff i) (5 * Minute))
    (override (InInitialBackoff i) (5 * Second))) as [Hlt|Hge];
    [split; [done|intros (_ & _ & _ & ? & _); lia]|].
  change (BackoffMultiplier (Retry c)) with
    (if SFltb zero64 (InMultiplier i) then InMultiplier i else two64).
  change (QType c) with
    (if str_eqb (InType i) EmptyString then QueueTypeClassic else InType i).
  change (Replication c) with
    (if ReplEnabled (InReplication i) then InReplication i
     else Replication (DefaultQueueConfig (InName i) (InTopics i))).
  apply from_input_tail; done.
Qed.

End ConfigFacts.
