(* ===== verification/MemLog.v ===== *)
(** * The in-memory queue store (src/queue/storage/memory/log/store.go)

    A [Store] maps queue names to logs.  A caller first loads the pointer of a
    log from the map and then locks the log, so a log that was deleted in
    between is still reachable: logs live in a heap of their own ([heap], the
    map holding indices into it), and every operation is a body that runs on a
    locked log ([locked]) composed with the load ([on_queue]).  A deletion
    marks the log, and every body checks the mark.

    Envelopes given up through [message.Release] are an output of the
    operation.  An envelope is a value: the store takes the caller's reference
    over and hands out clones.  The type [M] holds the fields the store neither
    reads nor writes.  The mutex makes each body atomic, [time.Now] is the
    argument [now], and a loop over a Go map follows an order given as an
    argument.  Offsets are [uint64] and wrap; [int] is 64 bits.

    Theorems: the invariant of every log under any interleaving of the
    operations, deletions included, with each accepted envelope stored or
    released exactly once; appends and reads; truncation; deduplicated
    appends; the retention searches; snapshot and restore. *)

From Stdlib Require Import ZArith Lia Bool Ascii String Strings.Byte.
From stdpp Require Import prelude gmap strings.
From S2P Require Import Prelude GoStrings Topics TopicIndex ConsumerGroup QueueConfig.

Module MemLog.

Inductive StoreErr :=
| ErrQueueNotFound | ErrQueueAlreadyExists | ErrOffsetOutOfRange
| ErrDeduplicationKeyRequired | ErrConsumerGroupExists | ErrConsumerNotFound
| ErrPendingEntryNotFound | ErrConfig (err : Config.ConfigErr).

Record Consumer := mkConsumer {
  CID : string;
  CClientID : string;
  CGroupID : string;
  CQueueName : string;
  CRegisteredAt : Z;
  CLastHeartbeat : Z;
  CProxyNodeID : string
}.

Section store.
Context {M : Type}.

(** [message.Envelope]: the zero [CreatedAt] is [None]. *)
Record Envelope := mkEnvelope {
  ETopic : string;
  EPayload : list byte;
  EMessageID : string;
  EProperties : gmap string string;
  ETransferID : string;
  EOffset : Z;
  ECreatedAt : option Z;
  EMeta : M
}.

Definition set_EOffset (o : Z) (m : Envelope) : Envelope :=
  mkEnvelope (ETopic m) (EPayload m) (EMessageID m) (EProperties m) (ETransferID m) o
    (ECreatedAt m) (EMeta m).
Definition set_ETransferID (k : string) (m : Envelope) : Envelope :=
  mkEnvelope (ETopic m) (EPayload m) (EMessageID m) (EProperties m) k (EOffset m)
    (ECreatedAt m) (EMeta m).

Record log := mkLog {
  config : Config.QueueConfig;
  messages : list Envelope;
  head : Z;
  tail : Z;
  deleted : bool;
  dedupe : gmap string Z
}.

Record Store := mkStore {
  logs : gmap string nat;
  heap : list log;
  groups : gmap string (gmap string Group.ConsumerGroup);
  consumers : gmap string (gmap string (gmap string Consumer));
  topicIndex : TopicIndex
}.

Definition New : Store := mkStore ∅ [] ∅ ∅ NewTopicIndex.

(** ** Bodies that run on a locked log

    The result, the log afterwards and the envelopes released. *)

Definition locked (A : Type) : Type := log → outcome StoreErr A * log * list Envelope.

Definition newLog (c : Config.QueueConfig) (h : Z) : log := mkLog c [] h h false ∅.

(** [sl.deleted = true] with the records released. *)
Definition kill (sl : log) : log * list Envelope :=
  (mkLog (config sl) [] (head sl) (tail sl) true ∅, messages sl).

(** The guard every body starts with. *)
Definition unless_deleted {A} (body : locked A) : locked A := λ sl,
  if deleted sl then (Fail ErrQueueNotFound, sl, []) else body sl.

Definition UpdateQueue_locked (c : Config.QueueConfig) : locked unit :=
  unless_deleted (λ sl,
    (Ret tt, mkLog c (messages sl) (head sl) (tail sl) (deleted sl) (dedupe sl), [])).

Definition GetQueue_locked : locked Config.QueueConfig :=
  unless_deleted (λ sl, (Ret (config sl), sl, [])).

(** One record at the tail: [offset := sl.tail; sl.tail++], the offset stored
    in the record, the record appended. *)
Definition push (msg : Envelope) (sl : log) : log :=
  mkLog (config sl) (messages sl ++ [set_EOffset (tail sl) msg]) (head sl)
    (u64 (tail sl + 1)) (deleted sl) (dedupe sl).

Definition Append_locked (msg : Envelope) : locked Z :=
  unless_deleted (λ sl, (Ret (tail sl), push msg sl, [])).

Definition AppendBatch_locked (msgs : list Envelope) : locked Z :=
  unless_deleted (λ sl, (Ret (tail sl), fold_left (λ sl msg, push msg sl) msgs sl, [])).

Definition Read_locked (offset : Z) : locked Envelope :=
  unless_deleted (λ sl,
    if (offset <? head sl) || (tail sl <=? offset) then (Fail ErrOffsetOutOfRange, sl, [])
    else
      let idx := i64 (u64 (offset - head sl)) in
      if (idx <? 0) || (Z.of_nat (length (messages sl)) <=? idx)
      then (Fail ErrOffsetOutOfRange, sl, [])
      else match messages sl !! Z.to_nat idx with
           | Some m => (Ret m, sl, [])
           | None => (Panic, sl, [])
           end).

(** [make] with a negative capacity and a slice outside the record list panic. *)
Definition ReadBatch_locked (startOffset limit : Z) : locked (list Envelope) :=
  unless_deleted (λ sl,
    let startOffset := if startOffset <? head sl then head sl else startOffset in
    if tail sl <=? startOffset then (Ret [], sl, [])
    else
      let startIdx := i64 (u64 (startOffset - head sl)) in
      let endIdx := i64 (startIdx + limit) in
      let len := Z.of_nat (length (messages sl)) in
      let endIdx := if len <? endIdx then len else endIdx in
      if (i64 (endIdx - startIdx) <? 0) || (startIdx <? 0) || (endIdx <? startIdx)
      then (Panic, sl, [])
      else (Ret (take (Z.to_nat (endIdx - startIdx)) (drop (Z.to_nat startIdx) (messages sl))),
            sl, [])).

Definition Head_locked : locked Z := unless_deleted (λ sl, (Ret (head sl), sl, [])).
Definition Tail_locked : locked Z := unless_deleted (λ sl, (Ret (tail sl), sl, [])).
Definition Count_locked : locked Z := unless_deleted (λ sl, (Ret (u64 (tail sl - head sl)), sl, [])).

(** The scan of [OffsetByTime] from index [i]. *)
Fixpoint time_scan (ts : Z) (i : Z) (ms : list Envelope) : option Z :=
  match ms with
  | [] => None
  | m :: ms =>
      match ECreatedAt m with
      | Some t => if negb (t <? ts) then Some i else time_scan ts (i + 1) ms
      | None => time_scan ts (i + 1) ms
      end
  end.

Definition OffsetByTime_locked (ts : Z) : locked Z :=
  unless_deleted (λ sl,
    if (length (messages sl) =? 0)%nat then (Ret (head sl), sl, [])
    else match time_scan ts 0 (messages sl) with
         | Some i => (Ret (u64 (head sl + i)), sl, [])
         | None => (Ret (tail sl), sl, [])
         end).

Definition str_len (s : string) : Z := Z.of_nat (String.length s).

Definition messageSize (m : Envelope) : Z :=
  i64 (Z.of_nat (length (EPayload m)) + str_len (ETopic m) + str_len (EMessageID m)
       + map_fold (λ k v n, n + (str_len k + str_len v)) 0 (EProperties m) + 200).

(** The scan of [OffsetBySize]: [rms] are the records from index [i] down. *)
Fixpoint size_scan (retentionBytes : Z) (i total : Z) (rms : list Envelope) : option Z :=
  match rms with
  | [] => None
  | m :: rms =>
      let total := i64 (total + messageSize m) in
      if retentionBytes <? total then Some (i + 1)
      else size_scan retentionBytes (i - 1) total rms
  end.

Definition OffsetBySize_locked (retentionBytes : Z) : locked Z :=
  unless_deleted (λ sl,
    let n := length (messages sl) in
    if (retentionBytes <=? 0) || (n =? 0)%nat then (Ret (head sl), sl, [])
    else match size_scan retentionBytes (Z.of_nat n - 1) 0 (reverse (messages sl)) with
         | Some i => (Ret (u64 (head sl + i)), sl, [])
         | None => (Ret (head sl), sl, [])
         end).

Definition Truncate_locked (minOffset : Z) : locked unit :=
  unless_deleted (λ sl,
    if minOffset <=? head sl then (Ret tt, sl, [])
    else
      let minOffset := if tail sl <? minOffset then tail sl else minOffset in
      let removeCount := i64 (u64 (minOffset - head sl)) in
      let len := Z.of_nat (length (messages sl)) in
      let removeCount := if len <? removeCount then len else removeCount in
      if removeCount <? 0 then (Panic, sl, [])
      else
        let k := Z.to_nat removeCount in
        (Ret tt,
         mkLog (config sl) (drop k (messages sl)) minOffset (tail sl) (deleted sl)
           (filter (λ kv, minOffset <= kv.2) (dedupe sl)),
         take k (messages sl))).

Definition AppendOnce_locked (dedupeKey : string) (msg : Envelope) : locked (Z * bool) :=
  unless_deleted (λ sl,
    match dedupe sl !! dedupeKey with
    | Some offset => (Ret (offset, true), sl, [msg])
    | None =>
        let sl' := push (set_ETransferID dedupeKey msg) sl in
        (Ret (tail sl, false),
         mkLog (config sl') (messages sl') (head sl') (tail sl') (deleted sl')
           (<[dedupeKey := tail sl]> (dedupe sl')), [])
    end).

(** ** Snapshots *)

(** Records handed out by [Next] leave [nil] behind. *)
Record memoryQueueSnapshot := mkQueueSnapshot {
  snap_head : Z;
  snap_tail : Z;
  snap_records : list (option Envelope);
  snap_next : nat
}.

Definition OpenQueueSnapshot_locked : locked memoryQueueSnapshot :=
  unless_deleted (λ sl,
    (Ret (mkQueueSnapshot (head sl) (u64 (head sl + Z.of_nat (length (messages sl))))
            (Some <$> messages sl) 0), sl, [])).

Definition Next (r : memoryQueueSnapshot) : option (Z * option Envelope) * memoryQueueSnapshot :=
  match snap_records r !! snap_next r with
  | None => (None, r)
  | Some envelope =>
      (Some (u64 (snap_head r + Z.of_nat (snap_next r)), envelope),
       mkQueueSnapshot (snap_head r) (snap_tail r)
         (<[snap_next r := None]> (snap_records r)) (S (snap_next r)))
  end.

(** The envelopes released; slicing past the end panics. *)
Definition Close (r : memoryQueueSnapshot) :
    outcome StoreErr (list (option Envelope) * memoryQueueSnapshot) :=
  if (length (snap_records r) <? snap_next r)%nat then Panic
  else Ret (drop (snap_next r) (snap_records r),
            mkQueueSnapshot (snap_head r) (snap_tail r) [] (snap_next r)).

(** A record whose offset does not continue the log is refused and released. *)
Definition RestoreRecord_locked (offset : Z) (msg : Envelope) : locked unit := λ sl,
  if deleted sl then (Fail ErrQueueNotFound, sl, [msg])
  else if negb (offset =? tail sl) then (Fail ErrOffsetOutOfRange, sl, [msg])
  else
    let d := if str_eqb (ETransferID msg) EmptyString then dedupe sl
             else <[ETransferID msg := offset]> (dedupe sl) in
    (Ret tt,
     mkLog (config sl) (messages sl ++ [set_EOffset offset msg]) (head sl)
       (u64 (tail sl + 1)) (deleted sl) d, []).

(** ** The store's methods *)

Definition with_heap (h : list log) (s : Store) : Store :=
  mkStore (logs s) h (groups s) (consumers s) (topicIndex s).

(** A body run on the log a pointer names. *)
Definition on_log {A} (p : nat) (body : locked A) (s : Store) :
    outcome StoreErr A * Store * list Envelope :=
  match heap s !! p with
  | None => (Panic, s, [])
  | Some sl => let '(r, sl', rel) := body sl in (r, with_heap (<[p := sl']> (heap s)) s, rel)
  end.

(** [getQueueLog] and the body under the lock. *)
Definition getQueueLog (queueName : string) (s : Store) : outcome StoreErr nat :=
  match logs s !! queueName with None => Fail ErrQueueNotFound | Some p => Ret p end.

Definition on_queue {A} (queueName : string) (body : locked A) (s : Store) :
    outcome StoreErr A * Store * list Envelope :=
  match getQueueLog queueName s with
  | Ret p => on_log p body s
  | Fail e => (Fail e, s, [])
  | Panic => (Panic, s, [])
  end.

(** The operations on the concurrent maps and on the index, each atomic on its
    own: the handlers that create and remove queues run several of them without
    a lock around them. *)
Definition logs_Store (c : Config.QueueConfig) (h : Z) (s : Store) : Store :=
  mkStore (<[Config.Name c := length (heap s)]> (logs s)) (heap s ++ [newLog c h])
    (groups s) (consumers s) (topicIndex s).
Definition logs_Delete (n : string) (s : Store) : Store :=
  mkStore (delete n (logs s)) (heap s) (groups s) (consumers s) (topicIndex s).
Definition index_AddQueue (n : string) (topics : list string) (s : Store) : Store :=
  mkStore (logs s) (heap s) (groups s) (consumers s) (AddQueue (topicIndex s) n topics).
Definition index_RemoveQueue (n : string) (s : Store) : Store :=
  mkStore (logs s) (heap s) (groups s) (consumers s) (RemoveQueue (topicIndex s) n).
Definition groups_Store (n : string) (s : Store) : Store :=
  mkStore (logs s) (heap s) (<[n := ∅]> (groups s)) (consumers s) (topicIndex s).
Definition groups_Delete (n : string) (s : Store) : Store :=
  mkStore (logs s) (heap s) (delete n (groups s)) (consumers s) (topicIndex s).
Definition consumers_Store (n : string) (s : Store) : Store :=
  mkStore (logs s) (heap s) (groups s) (<[n := ∅]> (consumers s)) (topicIndex s).
Definition consumers_Delete (n : string) (s : Store) : Store :=
  mkStore (logs s) (heap s) (groups s) (delete n (consumers s)) (topicIndex s).

(** A fresh log under the name, indexed, with empty group and consumer maps. *)
Definition install (c : Config.QueueConfig) (h : Z) (s : Store) : Store :=
  let s := logs_Store c h s in
  let s := index_AddQueue (Config.Name c) (Config.Topics c) s in
  let s := groups_Store (Config.Name c) s in
  consumers_Store (Config.Name c) s.

Definition CreateQueue (c : Config.QueueConfig) (s : Store) : outcome StoreErr unit * Store :=
  match Config.Validate c with
  | Fail e => (Fail (ErrConfig e), s)
  | Panic => (Panic, s)
  | Ret _ =>
      match logs s !! Config.Name c with
      | Some _ => (Fail ErrQueueAlreadyExists, s)
      | None => (Ret tt, install c 0 s)
      end
  end.

Definition UpdateQueue (c : Config.QueueConfig) (s : Store) : outcome StoreErr unit * Store :=
  match Config.ValidateTopicFilters (Config.Topics c) with
  | Fail e => (Fail (ErrConfig e), s)
  | Panic => (Panic, s)
  | Ret _ => (on_queue (Config.Name c) (UpdateQueue_locked c) s).1
  end.

(** The part of [DeleteQueue] under the lock of the log [p]: the name must
    still be bound to that log. *)
Definition DeleteQueue_locked (queueName : string) (p : nat) (s : Store) :
    outcome StoreErr unit * Store * list Envelope :=
  match heap s !! p with
  | None => (Panic, s, [])
  | Some sl =>
      if deleted sl then (Fail ErrQueueNotFound, s, [])
      else if Config.Reserved (config sl) then (Fail ErrQueueNotFound, s, [])
      else if negb (bool_decide (logs s !! queueName = Some p)) then (Fail ErrQueueNotFound, s, [])
      else
        let '(sl', rel) := kill sl in
        (Ret tt, mkStore (delete queueName (logs s)) (<[p := sl']> (heap s)) (groups s)
                   (consumers s) (topicIndex s), rel)
  end.

(** The part after the lock is released. *)
Definition DeleteQueue_cleanup (queueName : string) (s : Store) : Store :=
  index_RemoveQueue queueName (consumers_Delete queueName (groups_Delete queueName s)).

Definition DeleteQueue (queueName : string) (s : Store) :
    outcome StoreErr unit * Store * list Envelope :=
  match logs s !! queueName with
  | None => (Ret tt, DeleteQueue_cleanup queueName s, [])
  | Some p =>
      match DeleteQueue_locked queueName p s with
      | (Ret _, s', rel) => (Ret tt, DeleteQueue_cleanup queueName s', rel)
      | r => r
      end
  end.

(** The log [p] marked deleted and its records released, under its lock. *)
Definition kill_log (p : nat) (s : Store) : Store * list Envelope :=
  match heap s !! p with
  | None => (s, [])
  | Some sl => let '(sl', rel) := kill sl in (with_heap (<[p := sl']> (heap s)) s, rel)
  end.

(** The log of a name, unbound and then killed, if there is one. *)
Definition unbind (queueName : string) (s : Store) : Store * list Envelope :=
  match logs s !! queueName with
  | None => (s, [])
  | Some p => kill_log p (logs_Delete queueName s)
  end.

Definition RestoreQueue (c : Config.QueueConfig) (h : Z) (s : Store) :
    outcome StoreErr unit * Store * list Envelope :=
  match Config.Validate c with
  | Fail e => (Fail (ErrConfig e), s, [])
  | Panic => (Panic, s, [])
  | Ret _ => let '(s', rel) := unbind (Config.Name c) s in (Ret tt, install c h s', rel)
  end.

Fixpoint ResetForRestore (queueNames : list string) (s : Store) : Store * list Envelope :=
  match queueNames with
  | [] => (s, [])
  | name :: rest =>
      match logs s !! name with
      | None => ResetForRestore rest s
      | Some _ =>
          let '(s1, rel1) := unbind name s in
          let s1 := consumers_Delete name (groups_Delete name (index_RemoveQueue name s1)) in
          let '(s2, rel2) := ResetForRestore rest s1 in
          (s2, rel1 ++ rel2)
      end
  end.

Definition GetQueue (queueName : string) := on_queue queueName GetQueue_locked.
Definition Append (queueName : string) (msg : Envelope) := on_queue queueName (Append_locked msg).
Definition AppendAndSync (queueName : string) (msg : Envelope) := Append queueName msg.
Definition SupportsDurableSync : bool := false.
Definition AppendBatch (queueName : string) (msgs : list Envelope) (s : Store) :
    outcome StoreErr Z * Store * list Envelope :=
  if (length msgs =? 0)%nat then (Ret 0, s, [])
  else on_queue queueName (AppendBatch_locked msgs) s.
Definition Read (queueName : string) (offset : Z) := on_queue queueName (Read_locked offset).
Definition ReadBatch (queueName : string) (startOffset limit : Z) :=
  on_queue queueName (ReadBatch_locked startOffset limit).
Definition Head (queueName : string) := on_queue queueName Head_locked.
Definition Tail (queueName : string) := on_queue queueName Tail_locked.
Definition Count (queueName : string) := on_queue queueName Count_locked.
Definition OffsetByTime (queueName : string) (ts : Z) := on_queue queueName (OffsetByTime_locked ts).
Definition OffsetBySize (queueName : string) (retentionBytes : Z) :=
  on_queue queueName (OffsetBySize_locked retentionBytes).
Definition Truncate (queueName : string) (minOffset : Z) :=
  on_queue queueName (Truncate_locked minOffset).
Definition AppendOnce (queueName dedupeKey : string) (msg : Envelope) (s : Store) :
    outcome StoreErr (Z * bool) * Store * list Envelope :=
  if str_eqb dedupeKey EmptyString then (Fail ErrDeduplicationKeyRequired, s, [])
  else on_queue queueName (AppendOnce_locked dedupeKey msg) s.
Definition AppendOnceAndSync (queueName dedupeKey : string) (msg : Envelope) :=
  AppendOnce queueName dedupeKey msg.
Definition DeduplicationWindow : Z := 0.
Definition OpenQueueSnapshot (queueName : string) := on_queue queueName OpenQueueSnapshot_locked.

Definition RestoreRecord (queueName : string) (offset : Z) (msg : Envelope) (s : Store) :
    outcome StoreErr unit * Store * list Envelope :=
  match getQueueLog queueName s with
  | Fail e => (Fail e, s, [msg])
  | Panic => (Panic, s, [])
  | Ret p => on_log p (RestoreRecord_locked offset msg) s
  end.

(** The configurations of the live logs, [order] being the map's order. *)
Definition ListQueues (order : list (string * nat)) (s : Store) : list Config.QueueConfig :=
  omap (λ np, match heap s !! np.2 with
              | Some sl => if deleted sl then None else Some (config sl)
              | None => None
              end) order.

Definition FindMatchingQueues (topic : string) (s : Store) : list string :=
  FindMatching (topicIndex s) topic.

(** ** Consumer groups *)

Definition with_groups (g : gmap string (gmap string Group.ConsumerGroup)) (s : Store) : Store :=
  mkStore (logs s) (heap s) g (consumers s) (topicIndex s).
Definition with_consumers (c : gmap string (gmap string (gmap string Consumer))) (s : Store) :
    Store := mkStore (logs s) (heap s) (groups s) c (topicIndex s).

Definition CreateConsumerGroup (group : Group.ConsumerGroup) (s : Store) :
    outcome StoreErr unit * Store :=
  match groups s !! Group.QueueName group with
  | None => (Fail ErrQueueNotFound, s)
  | Some gs =>
      match gs !! Group.ID group with
      | Some _ => (Fail ErrConsumerGroupExists, s)
      | None => (Ret tt, with_groups (<[Group.QueueName group := <[Group.ID group := group]> gs]>
                                        (groups s)) s)
      end
  end.

Definition GetConsumerGroup (queueName groupID : string) (s : Store) :
    outcome StoreErr Group.ConsumerGroup :=
  match groups s !! queueName with
  | None => Fail ErrQueueNotFound
  | Some gs => match gs !! groupID with None => Fail ErrConsumerNotFound | Some g => Ret g end
  end.

Definition UpdateConsumerGroup (group : Group.ConsumerGroup) (s : Store) :
    outcome StoreErr unit * Store :=
  match groups s !! Group.QueueName group with
  | None => (Fail ErrQueueNotFound, s)
  | Some gs => (Ret tt, with_groups (<[Group.QueueName group := <[Group.ID group := group]> gs]>
                                       (groups s)) s)
  end.

Definition DeleteConsumerGroup (queueName groupID : string) (s : Store) :
    outcome StoreErr unit * Store :=
  match groups s !! queueName with
  | None => (Fail ErrQueueNotFound, s)
  | Some gs => (Ret tt, with_groups (<[queueName := delete groupID gs]> (groups s)) s)
  end.

Definition ListConsumerGroups (queueName : string) (s : Store) :
    outcome StoreErr (list Group.ConsumerGroup) :=
  match groups s !! queueName with
  | None => Fail ErrQueueNotFound
  | Some gs => Ret (map_to_list gs).*2
  end.

(** A method of the stored group, run in place. *)
Definition on_group {A} (queueName groupID : string)
    (f : Group.ConsumerGroup → outcome StoreErr A * Group.ConsumerGroup) (s : Store) :
    outcome StoreErr A * Store :=
  match GetConsumerGroup queueName groupID s with
  | Fail e => (Fail e, s)
  | Panic => (Panic, s)
  | Ret g =>
      let '(r, g') := f g in
      (r, with_groups (alter (λ gs, <[groupID := g']> gs) queueName (groups s)) s)
  end.

(** [if !ok { return ErrPendingEntryNotFound }]. *)
Definition found_or_err (r : outcome unit (bool * Group.ConsumerGroup)) (g : Group.ConsumerGroup) :
    outcome StoreErr unit * Group.ConsumerGroup :=
  match r with
  | Ret (true, g') => (Ret tt, g')
  | Ret (false, g') => (Fail ErrPendingEntryNotFound, g')
  | _ => (Panic, g)
  end.

Definition AddPendingEntry (queueName groupID : string) (entry : Group.PendingEntry) (now : Z) :=
  on_group queueName groupID (λ g,
    (Ret tt, Group.AddPending (Group.ConsumerID entry) (Some entry) now g)).

Definition RemovePendingEntry (queueName groupID consumerID : string) (offset now : Z) :=
  on_group queueName groupID (λ g,
    found_or_err (Group.RemovePending consumerID offset now g) g).

Definition TransferPendingEntry (queueName groupID : string) (offset : Z)
    (fromConsumer toConsumer : string) (now : Z) :=
  on_group queueName groupID (λ g,
    found_or_err (Group.TransferPending offset fromConsumer toConsumer now g) g).

Definition UpdateCursor (queueName groupID : string) (cursor now : Z) :=
  on_group queueName groupID (λ g, (Ret tt, Group.SetCursorPosition cursor now g)).
Definition UpdateCommitted (queueName groupID : string) (committed now : Z) :=
  on_group queueName groupID (λ g, (Ret tt, Group.SetCommitted committed now g)).

Definition GetPendingEntries (queueName groupID consumerID : string) (s : Store) :
    outcome StoreErr (list (option Group.PendingEntry)) :=
  g ← GetConsumerGroup queueName groupID s; Ret (Group.pel_get consumerID (Group.PEL g)).

Definition GetAllPendingEntries (queueName groupID : string)
    (order : Group.ConsumerGroup → list (string * list (option Group.PendingEntry))) (s : Store) :
    outcome StoreErr (list (option Group.PendingEntry)) :=
  g ← GetConsumerGroup queueName groupID s; Ret (concat (order g).*2).

(** ** Consumers *)

Definition RegisterConsumer (consumer : Consumer) (s : Store) : outcome StoreErr unit * Store :=
  match consumers s !! CQueueName consumer with
  | None => (Fail ErrQueueNotFound, s)
  | Some qc =>
      let gc := default ∅ (qc !! CGroupID consumer) in
      (Ret tt, with_consumers
         (<[CQueueName consumer := <[CGroupID consumer := <[CID consumer := consumer]> gc]> qc]>
            (consumers s)) s)
  end.

Definition UnregisterConsumer (queueName groupID consumerID : string) (s : Store) :
    outcome StoreErr unit * Store :=
  match consumers s !! queueName with
  | None => (Fail ErrQueueNotFound, s)
  | Some qc =>
      match qc !! groupID with
      | None => (Fail ErrConsumerNotFound, s)
      | Some gc => (Ret tt, with_consumers
                      (<[queueName := <[groupID := delete consumerID gc]> qc]> (consumers s)) s)
      end
  end.

Definition GetConsumer (queueName groupID consumerID : string) (s : Store) :
    outcome StoreErr Consumer :=
  match consumers s !! queueName with
  | None => Fail ErrQueueNotFound
  | Some qc =>
      match qc !! groupID with
      | None => Fail ErrConsumerNotFound
      | Some gc =>
          match gc !! consumerID with None => Fail ErrConsumerNotFound | Some c => Ret c end
      end
  end.

Definition ListConsumers (queueName groupID : string) (s : Store) :
    outcome StoreErr (list Consumer) :=
  match consumers s !! queueName with
  | None => Fail ErrQueueNotFound
  | Some qc => match qc !! groupID with None => Ret [] | Some gc => Ret (map_to_list gc).*2 end
  end.

Definition ListGroups (queueName : string) (s : Store) : outcome StoreErr (list string) :=
  match consumers s !! queueName with
  | None => Fail ErrQueueNotFound
  | Some qc => Ret (map_to_list qc).*1
  end.

Definition UpdateHeartbeat (queueName groupID consumerID : string) (timestamp : Z) (s : Store) :
    outcome StoreErr unit * Store :=
  match GetConsumer queueName groupID consumerID s with
  | Fail e => (Fail e, s)
  | Panic => (Panic, s)
  | Ret c =>
      let c' := mkConsumer (CID c) (CClientID c) (CGroupID c) (CQueueName c) (CRegisteredAt c)
                  timestamp (CProxyNodeID c) in
      (Ret tt, with_consumers
         (alter (alter (<[consumerID := c']>) groupID) queueName (consumers s)) s)
  end.

End store.

Arguments Envelope : clear implicits.
Arguments log : clear implicits.
Arguments Store : clear implicits.
Arguments memoryQueueSnapshot : clear implicits.

End MemLog.

(** * Properties *)

Module MemLogFacts.
Import MemLog.

Section facts.
Context {M : Type}.
Implicit Types (m : Envelope M) (sl : log M) (s : Store M).

(** ** The invariant of one log *)

(** The records are the offsets from [head] to [tail] in order, a deleted log
    holds nothing, and a deduplication key names a retained record that carries
    it. *)
Record log_wf (sl : log M) : Prop := {
  wf_head : 0 <= head sl;
  wf_tail : tail sl < 2 ^ 63;
  wf_len : deleted sl = false → tail sl = head sl + Z.of_nat (length (messages sl));
  wf_off i m : messages sl !! i = Some m → EOffset m = head sl + Z.of_nat i;
  wf_dead : deleted sl = true → messages sl = [] ∧ dedupe sl = ∅;
  wf_dedupe k o : dedupe sl !! k = Some o →
    k ≠ EmptyString ∧
    ∃ i m, messages sl !! i = Some m ∧ o = head sl + Z.of_nat i ∧ ETransferID m = k
}.

Lemma wf_offset_range sl i m :
  log_wf sl → messages sl !! i = Some m → 0 <= EOffset m < 2 ^ 63.
Proof.
  intros W Hi. destruct (deleted sl) eqn:Ed.
  - apply (wf_dead _ W) in Ed as [E _]. by rewrite E in Hi.
  - rewrite (wf_off _ W _ _ Hi). pose proof (wf_head _ W). pose proof (wf_tail _ W).
    pose proof (wf_len _ W Ed). apply lookup_lt_Some in Hi. lia.
Qed.

Lemma newLog_wf c h : 0 <= h < 2 ^ 63 → log_wf (newLog c h : log M).
Proof. intros Hh. split; simpl; intros; try lia; done. Qed.

Lemma kill_wf sl : log_wf sl → log_wf (kill sl).1.
Proof.
  intros W. split; simpl; intros; try done; [by apply wf_head|by apply wf_tail].
Qed.

(** The body of an append, before the deduplication index is touched. *)
Lemma push_wf msg sl :
  log_wf sl → deleted sl = false → tail sl + 1 < 2 ^ 63 → log_wf (push msg sl).
Proof.
  intros W Hd Ht. pose proof (wf_head _ W) as Hh. pose proof (wf_len _ W Hd) as Hl.
  split; simpl.
  - done.
  - rewrite u64_small; lia.
  - intros _. rewrite length_app, u64_small by lia. simpl. lia.
  - intros i m [Hi|[Hi Hm]]%lookup_app_Some; [by apply (wf_off _ W)|].
    destruct (i - length (messages sl))%nat eqn:E; simplify_eq/=. lia.
  - congruence.
  - intros k o Hk. destruct (wf_dedupe _ W _ _ Hk) as (? & i & m & Hi & ? & ?).
    split; [done|]. exists i, m. split_and!; [|done..]. by apply lookup_app_l_Some.
Qed.

(** ** Steps of one log *)

(** A writing body on a locked log: [given] are the envelopes whose ownership
    passes to the store, [rel] the ones it releases.  An append that fails
    leaves its envelope with the caller; a restore always consumes it.  No
    counter is driven past [2^63]. *)
Inductive log_step sl : log M → list (Envelope M) → list (Envelope M) → Prop :=
| st_update c r sl' rel : UpdateQueue_locked c sl = (r, sl', rel) → log_step sl sl' [] rel
| st_append msg o sl' rel : tail sl + 1 < 2 ^ 63 →
    Append_locked msg sl = (Ret o, sl', rel) → log_step sl sl' [msg] rel
| st_append_err msg e sl' rel :
    Append_locked msg sl = (Fail e, sl', rel) → log_step sl sl' [] rel
| st_batch msgs o sl' rel : tail sl + Z.of_nat (length msgs) < 2 ^ 63 →
    AppendBatch_locked msgs sl = (Ret o, sl', rel) → log_step sl sl' msgs rel
| st_batch_err msgs e sl' rel :
    AppendBatch_locked msgs sl = (Fail e, sl', rel) → log_step sl sl' [] rel
| st_truncate o r sl' rel : Truncate_locked o sl = (r, sl', rel) → log_step sl sl' [] rel
| st_once k msg o sl' rel : k ≠ EmptyString → tail sl + 1 < 2 ^ 63 →
    AppendOnce_locked k msg sl = (Ret o, sl', rel) → log_step sl sl' [msg] rel
| st_once_err k msg e sl' rel :
    AppendOnce_locked k msg sl = (Fail e, sl', rel) → log_step sl sl' [] rel
| st_restore o msg r sl' rel : tail sl + 1 < 2 ^ 63 →
    RestoreRecord_locked o msg sl = (r, sl', rel) → log_step sl sl' [msg] rel.

(** What every step keeps. *)
Definition step_ok sl sl' given rel : Prop :=
  log_wf sl' ∧ deleted sl' = deleted sl ∧
  EMeta <$> messages sl ++ given ≡ₚ EMeta <$> messages sl' ++ rel.

Lemma step_ok_same sl given rel :
  log_wf sl → EMeta <$> given ≡ₚ EMeta <$> rel → step_ok sl sl given rel.
Proof. intros W E. split_and!; [done..|]. by rewrite !fmap_app, E. Qed.

Lemma push_meta msg sl : EMeta <$> messages (push msg sl) = EMeta <$> messages sl ++ [msg].
Proof. simpl. by rewrite !fmap_app. Qed.

Lemma pushes_ok msgs : ∀ sl, log_wf sl → deleted sl = false →
  tail sl + Z.of_nat (length msgs) < 2 ^ 63 →
  step_ok sl (fold_left (λ sl msg, push msg sl) msgs sl) msgs [].
Proof.
  induction msgs as [|msg msgs IH]; intros sl W Hd Ht; simpl in *; [by apply step_ok_same|].
  pose proof (wf_head _ W). pose proof (wf_len _ W Hd).
  destruct (IH (push msg sl)) as (W' & Hd' & Hp);
    [apply push_wf; [done..|lia]|done|simpl; rewrite u64_small; lia|].
  split_and!; [done|by rewrite Hd'|]. rewrite <-Hp, (fmap_app _ (messages (push _ _))), push_meta.
  by rewrite <-fmap_app, <-app_assoc.
Qed.

(** [Truncate] in the range of the log. *)
Definition cut_log (k : nat) sl : log M :=
  mkLog (config sl) (drop k (messages sl)) (head sl + Z.of_nat k) (tail sl) (deleted sl)
    (filter (λ kv, head sl + Z.of_nat k <= kv.2) (dedupe sl)).

Lemma Truncate_cut o sl : log_wf sl → deleted sl = false →
  let k := Z.to_nat (Z.min o (tail sl) - head sl) in
  (k <= length (messages sl))%nat ∧
  Truncate_locked o sl =
    if o <=? head sl then (Ret tt, sl, []) else (Ret tt, cut_log k sl, take k (messages sl)).
Proof.
  intros W Hd k. pose proof (wf_head _ W). pose proof (wf_tail _ W). pose proof (wf_len _ W Hd).
  assert (Hk : (k <= length (messages sl))%nat) by lia. split; [done|].
  unfold Truncate_locked, unless_deleted. rewrite Hd. case_match eqn:E; [done|]. bool_prop.
  set (o' := if tail sl <? o then tail sl else o).
  assert (Ho : o' = head sl + Z.of_nat k) by (unfold o'; case_match; bool_prop; lia).
  rewrite Ho. replace (head sl + Z.of_nat k - head sl) with (Z.of_nat k) by lia.
  rewrite u64_small, i64_small by lia.
  rewrite (proj2 (Z.ltb_ge (Z.of_nat (length (messages sl))) (Z.of_nat k))) by lia.
  rewrite (proj2 (Z.ltb_ge (Z.of_nat k) 0)) by lia. rewrite Nat2Z.id. unfold cut_log. by rewrite Hd.
Qed.

Lemma cut_log_0 sl : log_wf sl → cut_log 0 sl = sl.
Proof.
  intros W. destruct sl as [c ms h t d dd]. unfold cut_log. simpl. f_equal; [lia|].
  apply map_filter_id. intros k o Hk. destruct (wf_dedupe _ W _ _ Hk) as (_ & i & m & _ & Ho & _).
  simpl in *. lia.
Qed.

Lemma cut_log_wf k sl :
  log_wf sl → deleted sl = false → (k <= length (messages sl))%nat → log_wf (cut_log k sl).
Proof.
  intros W Hd Hk. pose proof (wf_head _ W). pose proof (wf_tail _ W). pose proof (wf_len _ W Hd).
  split; simpl.
  - lia.
  - done.
  - intros _. rewrite length_drop. lia.
  - intros i m Hi. rewrite lookup_drop in Hi. rewrite (wf_off _ W _ _ Hi). lia.
  - congruence.
  - intros key o [Hk' Ho]%map_lookup_filter_Some. simpl in Ho.
    destruct (wf_dedupe _ W _ _ Hk') as (? & i & m & Hi & ? & ?). split; [done|].
    exists (i - k)%nat, m. rewrite lookup_drop. split_and!; [|lia|done].
    by replace (k + (i - k))%nat with i by lia.
Qed.

(** A record appended under a key. *)
Definition push_keyed (k : string) msg sl : log M :=
  let sl' := push msg sl in
  mkLog (config sl') (messages sl') (head sl') (tail sl') (deleted sl')
    (<[k := tail sl]> (dedupe sl')).

Lemma push_keyed_wf k msg sl : log_wf sl → deleted sl = false → tail sl + 1 < 2 ^ 63 →
  k ≠ EmptyString → ETransferID msg = k → log_wf (push_keyed k msg sl).
Proof.
  intros W Hd Ht Hk Hid. pose proof (push_wf msg _ W Hd Ht) as W'.
  split; try apply W'; simpl; [congruence|].
  intros k' o [[<- <-]|[Hne Hl]]%lookup_insert_Some.
  - split; [done|]. exists (length (messages sl)), (set_EOffset (tail sl) msg).
    rewrite lookup_app_r, Nat.sub_diag by lia. split_and!; [done| |done]. by apply wf_len.
  - apply (wf_dedupe _ W' _ _ Hl).
Qed.

Lemma AppendOnce_cases k msg sl : deleted sl = false →
  AppendOnce_locked k msg sl =
    match dedupe sl !! k with
    | Some o => (Ret (o, true), sl, [msg])
    | None => (Ret (tail sl, false), push_keyed k (set_ETransferID k msg) sl, [])
    end.
Proof. intros Hd. unfold AppendOnce_locked, unless_deleted. rewrite Hd. by case_match. Qed.

Lemma RestoreRecord_cases o msg sl : deleted sl = false → 
  RestoreRecord_locked o msg sl =
    if bool_decide (o = tail sl) then
      (Ret tt, if bool_decide (ETransferID msg = EmptyString) then push msg sl
               else push_keyed (ETransferID msg) msg sl, [])
    else (Fail ErrOffsetOutOfRange, sl, [msg]).
Proof.
  intros Hd. unfold RestoreRecord_locked, push_keyed, push. rewrite Hd. unfold str_eqb.
  destruct (Z.eqb_spec o (tail sl)) as [->|Hne]; simpl.
  - rewrite (bool_decide_true (tail sl = tail sl)) by done. by case_bool_decide.
  - by rewrite (bool_decide_false (o = tail sl)) by done.
Qed.

Lemma step_ok_push msg msg' sl sl' : EMeta msg' = EMeta msg →
  log_wf sl' → deleted sl' = deleted sl → messages sl' = messages (push msg' sl) →
  step_ok sl sl' [msg] [].
Proof.
  intros Hm W Hd Hms. split_and!; [done..|]. rewrite app_nil_r, Hms, push_meta.
  rewrite !fmap_app. simpl. by rewrite Hm.
Qed.

Lemma log_step_ok sl sl' given rel :
  log_wf sl → log_step sl sl' given rel → step_ok sl sl' given rel.
Proof.
  intros W Hs. destruct (deleted sl) eqn:Hd.
  { assert (E : sl' = sl ∧ EMeta <$> given ≡ₚ EMeta <$> rel).
    { destruct Hs as [? ? ? ? H|? ? ? ? ? H|? ? ? ? H|? ? ? ? ? H|? ? ? ? H|? ? ? ? H
        |? ? ? ? ? ? ? H|? ? ? ? ? H|? ? ? ? ? ? H];
        unfold UpdateQueue_locked, Append_locked, AppendBatch_locked, Truncate_locked,
          AppendOnce_locked, RestoreRecord_locked, unless_deleted in H;
        rewrite Hd in H; by simplify_eq. }
    destruct E as [-> E]. by apply step_ok_same. }
  destruct Hs as [c r ? ? H|msg o ? ? Ht H|? ? ? ? H|msgs o ? ? Ht H|? ? ? ? H|o r ? ? H
    |k msg o ? ? Hk Ht H|? ? ? ? ? H|o msg r ? ? Ht H].
  - unfold UpdateQueue_locked, unless_deleted in H. rewrite Hd in H. simplify_eq.
    split_and!; [|by simpl|done]. destruct W. split; simpl; auto; congruence.
  - unfold Append_locked, unless_deleted in H. rewrite Hd in H. simplify_eq.
    by apply (step_ok_push msg msg); [|apply push_wf|..].
  - unfold Append_locked, unless_deleted in H. by rewrite Hd in H.
  - unfold AppendBatch_locked, unless_deleted in H. rewrite Hd in H. simplify_eq.
    by apply pushes_ok.
  - unfold AppendBatch_locked, unless_deleted in H. by rewrite Hd in H.
  - destruct (Truncate_cut o sl W Hd) as [Hk E]. rewrite E in H.
    case_match; simplify_eq; [by apply step_ok_same|].
    split_and!; [by apply cut_log_wf|done|]. simpl.
    rewrite app_nil_r, Permutation_app_comm. by rewrite take_drop.
  - rewrite AppendOnce_cases in H by done. case_match; simplify_eq; [by apply step_ok_same|].
    by apply (step_ok_push msg (set_ETransferID k msg)); [|apply push_keyed_wf|..].
  - rewrite AppendOnce_cases in H by done. by case_match.
  - rewrite RestoreRecord_cases in H by done.
    repeat case_bool_decide; simplify_eq; [| |by apply step_ok_same].
    + by apply (step_ok_push msg msg); [|apply push_wf|..].
    + by apply (step_ok_push msg msg); [|apply push_keyed_wf|..].
Qed.

(** ** Steps of the store *)

(** A thread runs a body on a log whose pointer it loaded at any earlier time
    ([ss_log]).  The handlers that create, delete, restore and reset queues are
    cut into the operations on the maps of the store, between which anything
    else may run: in particular a name is bound ([ss_bind]) after it was looked
    up, whatever it is bound to by then, and a log is killed ([ss_kill]) after it
    was unbound.  The condition of [ss_kill] is no check of the code: the pointer
    came out of the map, and a log that is not bound is never bound again
    ([unbound_stays]).  [DeleteQueue] unbinds and kills under the lock of the log. *)
Inductive store_step s : Store M → list (Envelope M) → list (Envelope M) → Prop :=
| ss_log p sl sl' given rel : heap s !! p = Some sl → log_step sl sl' given rel →
    store_step s (with_heap (<[p := sl']> (heap s)) s) given rel
| ss_bind c h : 0 <= h < 2 ^ 63 → store_step s (logs_Store c h s) [] []
| ss_unbind n : store_step s (logs_Delete n s) [] []
| ss_kill p s' rel : (∀ n, logs s !! n ≠ Some p) → kill_log p s = (s', rel) → store_step s s' [] rel
| ss_delete_locked n p r s' rel :
    DeleteQueue_locked n p s = (r, s', rel) → store_step s s' [] rel
| ss_index n topics : store_step s (index_AddQueue n topics s) [] []
| ss_unindex n : store_step s (index_RemoveQueue n s) [] []
| ss_groups n : store_step s (groups_Store n s) [] []
| ss_no_groups n : store_step s (groups_Delete n s) [] []
| ss_consumers n : store_step s (consumers_Store n s) [] []
| ss_no_consumers n : store_step s (consumers_Delete n s) [] [].

Inductive store_run : Store M → list (Envelope M) → list (Envelope M) → Prop :=
| run_new : store_run New [] []
| run_step s s' g r given rel :
    store_run s g r → store_step s s' given rel → store_run s' (g ++ given) (r ++ rel).

Definition held s : list (Envelope M) := concat (messages <$> heap s).

(** Every log satisfies its invariant, a bound name leads to a live log and no
    two names share one. *)
Record store_wf s : Prop := {
  sw_log p sl : heap s !! p = Some sl → log_wf sl;
  sw_bound n p : logs s !! n = Some p → ∃ sl, heap s !! p = Some sl ∧ deleted sl = false;
  sw_inj n1 n2 p : logs s !! n1 = Some p → logs s !! n2 = Some p → n1 = n2
}.

Definition keeps s s' (given rel : list (Envelope M)) : Prop :=
  store_wf s' ∧ EMeta <$> held s ++ given ≡ₚ EMeta <$> held s' ++ rel.

Lemma held_update p sl sl' s h : heap s !! p = Some sl → heap h = <[p := sl']> (heap s) →
  held s ++ messages sl' ≡ₚ held h ++ messages sl.
Proof.
  intros Hp Hh. unfold held. rewrite Hh, list_fmap_insert.
  assert (Hp' : (messages <$> heap s) !! p = Some (messages sl)) by by rewrite list_lookup_fmap, Hp.
  pose proof (insert_swap_perm _ _ _ (messages sl') Hp') as HP.
  rewrite Permutation_app_comm, (Permutation_app_comm (concat (<[p := _]> _))).
  change (concat (messages sl' :: (messages <$> heap s)) ≡ₚ
    concat (messages sl :: <[p := messages sl']> (messages <$> heap s))).
  by rewrite HP.
Qed.

Lemma keeps_insert s p sl sl' given rel ls gs cs idx :
  store_wf s → heap s !! p = Some sl → step_ok sl sl' given rel → ls = logs s →
  keeps s (mkStore ls (<[p := sl']> (heap s)) gs cs idx) given rel.
Proof.
  intros W Hp (Wl & Hd & Hm) ->. split.
  - split; simpl.
    + intros q slq [(<- & <- & _)|[_ Hq]]%list_lookup_insert_Some; [done|by eapply sw_log].
    + intros n q Hn. destruct (sw_bound _ W n q Hn) as (slq & Hq & Hdq).
      destruct (decide (q = p)) as [->|]; [|exists slq; by rewrite list_lookup_insert_ne].
      simplify_eq. exists sl'. rewrite list_lookup_insert_eq by by eapply lookup_lt_Some.
      by rewrite Hd.
    + apply (sw_inj _ W).
  - pose proof (held_update p sl sl' s (mkStore (logs s) (<[p := sl']> (heap s)) gs cs idx) Hp
      eq_refl) as HP. apply (fmap_Permutation EMeta) in HP. rewrite !fmap_app in *.
    apply (Permutation_app_inv_r (EMeta <$> messages sl')).
    rewrite <-app_assoc, (Permutation_app_comm (EMeta <$> given)), app_assoc, HP.
    rewrite <-!app_assoc, Hm. f_equiv. apply Permutation_app_comm.
Qed.

(** Killing the log of a name and unbinding the name. *)
Lemma keeps_unbind s n p sl gs cs idx :
  store_wf s → logs s !! n = Some p → heap s !! p = Some sl →
  keeps s (mkStore (delete n (logs s)) (<[p := (kill sl).1]> (heap s)) gs cs idx)
    [] (messages sl).
Proof.
  intros W Hn Hp. split.
  - split; simpl.
    + intros q slq [(<- & <- & _)|[_ Hq]]%list_lookup_insert_Some; [|by eapply sw_log].
      apply kill_wf. by eapply sw_log.
    + intros n' q [Hne Hn']%lookup_delete_Some. destruct (sw_bound _ W n' q Hn') as (slq & Hq & Hdq).
      exists slq. split; [|done]. rewrite list_lookup_insert_ne; [done|].
      intros ->. by destruct Hne; eapply sw_inj.
    + intros n1 n2 q [_ H1]%lookup_delete_Some [_ H2]%lookup_delete_Some. by eapply sw_inj.
  - pose proof (held_update p sl (kill sl).1 s
      (mkStore (delete n (logs s)) (<[p := (kill sl).1]> (heap s)) gs cs idx) Hp eq_refl) as HP.
    simpl in HP. by rewrite HP.
Qed.

Lemma keeps_refl s s' : store_wf s → logs s' = logs s → heap s' = heap s → keeps s s' [] [].
Proof.
  intros W Hl Hh. split; [|unfold held; by rewrite Hh].
  destruct W. split; intros *; rewrite ?Hl, ?Hh; eauto.
Qed.

Lemma keeps_trans s1 s2 s3 r1 r2 :
  keeps s1 s2 [] r1 → keeps s2 s3 [] r2 → keeps s1 s3 [] (r1 ++ r2).
Proof.
  intros [_ H1] [W H2]. split; [done|]. rewrite !fmap_app, !app_nil_r in *.
  by rewrite H1, H2, <-app_assoc, (Permutation_app_comm (_ <$> r2)).
Qed.

Lemma keeps_put_log s c h : store_wf s → 0 <= h < 2 ^ 63 → keeps s (logs_Store c h s) [] [].
Proof.
  intros W Hh. split.
  - split; simpl.
    + intros p sl [Hp|[_ Hp]]%lookup_app_Some; [by eapply sw_log|].
      apply list_lookup_singleton_Some in Hp as [_ <-]. by apply newLog_wf.
    + intros n p [[_ <-]|[_ Hp]]%lookup_insert_Some.
      * exists (newLog c h). by rewrite lookup_app_r, Nat.sub_diag.
      * destruct (sw_bound _ W _ _ Hp) as (sl & Hsl & ?). exists sl. split; [|done].
        by apply lookup_app_l_Some.
    + intros n1 n2 p [[<- <-]|[_ H1]]%lookup_insert_Some [[<- E]|[_ H2]]%lookup_insert_Some;
        [done| | |by eapply sw_inj].
      * destruct (sw_bound _ W _ _ H2) as (sl & Hsl%lookup_lt_Some & _). lia.
      * subst p. destruct (sw_bound _ W _ _ H1) as (sl & Hsl%lookup_lt_Some & _). lia.
  - unfold held. simpl. by rewrite (fmap_app messages), concat_app, !app_nil_r.
Qed.

Lemma keeps_install s c h : store_wf s → 0 <= h < 2 ^ 63 → keeps s (install c h s) [] [].
Proof.
  intros W Hh. apply (keeps_trans _ (logs_Store c h s) _ [] []); [by apply keeps_put_log|].
  apply keeps_refl; [by apply keeps_put_log|done..].
Qed.

Lemma keeps_logs_Delete s n : store_wf s → keeps s (logs_Delete n s) [] [].
Proof.
  intros W. split; [|done]. split; simpl; [apply (sw_log _ W)| |].
  - intros n' p [_ Hp]%lookup_delete_Some. by eapply sw_bound.
  - intros n1 n2 q [_ H1]%lookup_delete_Some [_ H2]%lookup_delete_Some. by eapply sw_inj.
Qed.

Lemma kill_log_keeps s p : store_wf s → (∀ n, logs s !! n ≠ Some p) →
  keeps s (kill_log p s).1 [] (kill_log p s).2.
Proof.
  intros W Hn. unfold kill_log. destruct (heap s !! p) as [sl|] eqn:Hp; [|by apply keeps_refl]. simpl. split.
  - split; simpl.
    + intros q slq [(<- & <- & _)|[_ Hq]]%list_lookup_insert_Some; [|by eapply sw_log].
      apply kill_wf. by eapply sw_log.
    + intros n q Hq. destruct (sw_bound _ W n q Hq) as (slq & Hsl & Hdq). exists slq.
      split; [|done]. rewrite list_lookup_insert_ne; [done|]. intros ->. by apply (Hn n).
    + apply (sw_inj _ W).
  - pose proof (held_update p sl (kill sl).1 s (with_heap (<[p := (kill sl).1]> (heap s)) s) Hp eq_refl) as HP.
    simpl in HP. by rewrite HP.
Qed.

Lemma unbind_fresh s n p : store_wf s → logs s !! n = Some p →
  ∀ n', logs (logs_Delete n s) !! n' ≠ Some p.
Proof.
  intros W Hn n'. simpl. intros [Hne Hn']%lookup_delete_Some. by destruct Hne; eapply sw_inj.
Qed.

Lemma unbind_keeps n s : store_wf s →
  keeps s (unbind n s).1 [] (unbind n s).2 ∧ logs (unbind n s).1 !! n = None.
Proof.
  intros W. unfold unbind. destruct (logs s !! n) as [p|] eqn:Hn; simpl; [|by split; [apply keeps_refl|]].
  pose proof (keeps_logs_Delete s n W) as K.
  pose proof (kill_log_keeps _ p (proj1 K) (unbind_fresh s n p W Hn)) as K2.
  split; [by apply (keeps_trans _ (logs_Delete n s) _ [])|].
  unfold kill_log. destruct (heap _ !! p); simpl; apply lookup_delete_eq.
Qed.

Lemma DeleteQueue_locked_keeps n p s r s' rel : store_wf s →
  DeleteQueue_locked n p s = (r, s', rel) → keeps s s' [] rel.
Proof.
  intros W. unfold DeleteQueue_locked. destruct (heap s !! p) as [sl|] eqn:Hp;
    [|intros; simplify_eq; by apply keeps_refl].
  repeat case_match; intros; simplify_eq; try by apply keeps_refl. bool_prop.
  unfold kill in *. simplify_eq. by apply (keeps_unbind s n p sl).
Qed.

Lemma store_step_keeps s s' given rel :
  store_wf s → store_step s s' given rel → keeps s s' given rel.
Proof.
  intros W [p sl sl' g r Hp Hs|c h Hh|n|p s1 rel1 Hn H|n p r s1 rel1 H|n ts|n|n|n|n|n];
    try by apply keeps_refl.
  - apply (keeps_insert s p sl); [done..| |done]. eapply log_step_ok; [by eapply sw_log|done].
  - by apply keeps_put_log.
  - by apply keeps_logs_Delete.
  - pose proof (kill_log_keeps s p W Hn) as K. by rewrite H in K.
  - by eapply DeleteQueue_locked_keeps.
Qed.

Lemma unbound_stays s s' given rel p : store_step s s' given rel → (p < length (heap s))%nat →
  (∀ n, logs s !! n ≠ Some p) → (p < length (heap s'))%nat ∧ ∀ n, logs s' !! n ≠ Some p.
Proof.
  intros [q sl sl' g r Hq Hs|c h Hh|n|q s1 rel1 Hn H|n q r s1 rel1 H|n ts|n|n|n|n|n] Hp Hu; try done; simpl.
  - by rewrite length_insert.
  - rewrite length_app. split; [lia|]. intros n [[_ E]|[_ E]]%lookup_insert_Some; [lia|by apply (Hu n)].
  - split; [done|]. intros n' [_ E]%lookup_delete_Some. by apply (Hu n').
  - unfold kill_log in H. destruct (heap s !! q); simplify_eq/=; [by rewrite length_insert|done].
  - unfold DeleteQueue_locked in H. repeat case_match; simplify_eq/=; try done. rewrite length_insert.
    split; [done|]. intros n' [_ E]%lookup_delete_Some. by apply (Hu n').
Qed.

(** ** The handlers as sequences of steps *)

Lemma run_quiet s s' given rel : store_run s given rel → store_step s s' [] [] → store_run s' given rel.
Proof. intros H Hs. rewrite <-(app_nil_r given), <-(app_nil_r rel). by eapply run_step. Qed.

Lemma run_release s s' given rel rel' :
  store_run s given rel → store_step s s' [] rel' → store_run s' given (rel ++ rel').
Proof. intros H Hs. rewrite <-(app_nil_r given). by eapply run_step. Qed.

Lemma install_run s c h given rel : store_run s given rel → 0 <= h < 2 ^ 63 →
  store_run (install c h s) given rel.
Proof.
  intros H Hh. unfold install. eapply run_quiet; [|apply ss_consumers]. eapply run_quiet; [|apply ss_groups].
  eapply run_quiet; [|apply ss_index]. eapply run_quiet; [done|by apply ss_bind].
Qed.

Lemma CreateQueue_run s c given rel : store_run s given rel → store_run (CreateQueue c s).2 given rel.
Proof. intros H. unfold CreateQueue. repeat case_match; try done. by apply install_run. Qed.

Lemma cleanup_run s n given rel : store_run s given rel → store_run (DeleteQueue_cleanup n s) given rel.
Proof.
  intros H. eapply run_quiet; [|apply ss_unindex]. eapply run_quiet; [|apply ss_no_consumers].
  by eapply run_quiet; [|apply ss_no_groups].
Qed.

Lemma DeleteQueue_run s n r s' rel' given rel : store_run s given rel →
  DeleteQueue n s = (r, s', rel') → store_run s' given (rel ++ rel').
Proof.
  intros H. unfold DeleteQueue. destruct (logs s !! n) as [p|].
  2: { intros [= <- <- <-]. rewrite app_nil_r. by apply cleanup_run. }
  destruct (DeleteQueue_locked n p s) as [[r1 s1] rel1] eqn:E.
  assert (store_run s1 given (rel ++ rel1)) by (eapply run_release; [done|by eapply ss_delete_locked]).
  destruct r1; intros [= <- <- <-]; try done. by apply cleanup_run.
Qed.

Lemma unbind_run s n given rel : store_wf s → store_run s given rel →
  store_run (unbind n s).1 given (rel ++ (unbind n s).2).
Proof.
  intros W H. unfold unbind. destruct (logs s !! n) as [p|] eqn:Hn; [|by rewrite app_nil_r].
  eapply run_release; [eapply run_quiet; [done|apply ss_unbind]|].
  eapply ss_kill; [by apply unbind_fresh|by destruct (kill_log _ _)].
Qed.

Lemma RestoreQueue_run s c h r s' rel' given rel : store_wf s → store_run s given rel → 0 <= h < 2 ^ 63 →
  RestoreQueue c h s = (r, s', rel') → store_run s' given (rel ++ rel').
Proof.
  intros W H Hh. unfold RestoreQueue. pose proof (unbind_run s (Config.Name c) given rel W H) as Hu.
  destruct (Config.Validate c); [|intros [= <- <- <-]; by rewrite app_nil_r..].
  destruct (unbind _ s) as [s1 rel1]. intros [= <- <- <-]. by apply install_run.
Qed.

Lemma ResetForRestore_run ns : ∀ s given rel, store_wf s → store_run s given rel →
  store_run (ResetForRestore ns s).1 given (rel ++ (ResetForRestore ns s).2).
Proof.
  induction ns as [|n ns IH]; intros s given rel W H; simpl; [by rewrite app_nil_r|].
  destruct (logs s !! n); [|by apply IH].
  destruct (unbind_keeps n s W) as [[W1 _] _]. pose proof (unbind_run s n given rel W H) as Hu.
  destruct (unbind n s) as [s1 rel1]. simpl in *.
  set (s2 := consumers_Delete _ _).
  assert (H2 : store_run s2 given (rel ++ rel1)).
  { eapply run_quiet; [|apply ss_no_consumers]. eapply run_quiet; [|apply ss_no_groups].
    by eapply run_quiet; [|apply ss_unindex]. }
  assert (W2 : store_wf s2) by (by eapply (keeps_refl s1)).
  specialize (IH s2 given (rel ++ rel1) W2 H2). destruct (ResetForRestore ns s2) as [s3 rel3]. simpl in *.
  by rewrite <-app_assoc in IH.
Qed.

Lemma store_wf_new : store_wf (New : Store M).
Proof. split; simpl; intros *; rewrite ?lookup_nil, ?lookup_empty; done. Qed.

(** C26 Under every interleaving of the store's operations, cut where a handler holds
    no lock, in which a thread may still run its body on a log that was deleted
    after the thread loaded it and two creations of one name may both find it
    free: the records of each log carry the consecutive offsets from its head to its
    tail, every deduplication key names a retained record that carries it, a
    deleted log is empty and stays so, bound names lead to distinct live logs,
    and each envelope handed to the store is stored or released exactly
    once. *)
Theorem store_invariant s given rel :
  store_run s given rel →
  store_wf s ∧ EMeta <$> given ≡ₚ EMeta <$> held s ++ rel.
Proof.
  induction 1 as [|s s' g r given rel _ [W Hm] Hs]; [split; [apply store_wf_new|done]|].
  destruct (store_step_keeps _ _ _ _ W Hs) as [W' Hk]. split; [done|].
  rewrite !fmap_app in *. rewrite Hm, <-app_assoc, (Permutation_app_comm (_ <$> r)), app_assoc, Hk.
  rewrite <-!app_assoc. f_equiv. apply Permutation_app_comm.
Qed.

(** ** Reads *)

(** The record stored at an offset. *)
Definition stored (o : Z) sl : option (Envelope M) :=
  if o <? head sl then None else messages sl !! Z.to_nat (o - head sl).

Definition or_range {A} (x : option A) : outcome StoreErr A :=
  match x with Some a => Ret a | None => Fail ErrOffsetOutOfRange end.

Lemma Read_stored o sl : log_wf sl → deleted sl = false → 0 <= o < 2 ^ 64 →
  Read_locked o sl = (or_range (stored o sl), sl, []).
Proof.
  intros W Hd Ho. pose proof (wf_head _ W). pose proof (wf_tail _ W). pose proof (wf_len _ W Hd).
  unfold Read_locked, unless_deleted, stored. rewrite Hd.
  destruct (Z.ltb_spec o (head sl)); [done|]. simpl.
  destruct (Z.leb_spec (tail sl) o); simpl.
  { by rewrite lookup_ge_None_2 by lia. }
  rewrite u64_small, i64_small by lia.
  rewrite (proj2 (Z.ltb_ge (o - head sl) 0)) by lia.
  rewrite (proj2 (Z.leb_gt (Z.of_nat (length (messages sl))) (o - head sl))) by lia. simpl.
  destruct (lookup_lt_is_Some_2 (messages sl) (Z.to_nat (o - head sl))) as [m ->]; [lia|done].
Qed.

(** Reading through the store, after an operation on a log. *)
Definition read (q : string) (o : Z) s : outcome StoreErr (Envelope M) := (Read q o s).1.1.

Lemma read_stored q o s p sl : store_wf s → logs s !! q = Some p → heap s !! p = Some sl →
  0 <= o < 2 ^ 64 → read q o s = or_range (stored o sl).
Proof.
  intros W Hq Hp Ho. destruct (sw_bound _ W _ _ Hq) as (sl' & Hp' & Hd). simplify_eq.
  unfold read, Read, on_queue, getQueueLog, on_log. rewrite Hq, Hp.
  by rewrite Read_stored by eauto using sw_log.
Qed.

(** A body on the log of [q] leaves what the other names read. *)
Lemma read_frame q q' o s p sl' : store_wf s → logs s !! q = Some p → q' ≠ q →
  read q' o (with_heap (<[p := sl']> (heap s)) s) = read q' o s.
Proof.
  intros W Hq Hne. unfold read, Read, on_queue, getQueueLog, on_log. simpl.
  destruct (logs s !! q') as [p'|] eqn:Hq'; [|done].
  rewrite list_lookup_insert_ne; [|intros ->; by destruct Hne; eapply sw_inj].
  destruct (heap s !! p') as [sl|]; [|done]. by destruct (Read_locked o sl) as [[? ?] ?].
Qed.

Lemma on_queue_run {A} q (body : locked A) s p sl : logs s !! q = Some p → heap s !! p = Some sl →
  on_queue q body s =
    ((body sl).1.1, with_heap (<[p := (body sl).1.2]> (heap s)) s, (body sl).2).
Proof.
  intros Hq Hp. unfold on_queue, getQueueLog, on_log. rewrite Hq, Hp.
  by destruct (body sl) as [[? ?] ?].
Qed.

(** Hypotheses of an operation on the queue [q]: the log it runs on. *)
Definition queue_log s (q : string) (p : nat) sl : Prop :=
  store_wf s ∧ logs s !! q = Some p ∧ heap s !! p = Some sl.

Lemma queue_log_live s q p sl : queue_log s q p sl → log_wf sl ∧ deleted sl = false.
Proof.
  intros (W & Hq & Hp). destruct (sw_bound _ W _ _ Hq) as (? & ? & ?). simplify_eq.
  split; [by eapply sw_log|done].
Qed.

(** A writing body moves the queue from one log to the next. *)
Lemma queue_log_step s q p sl sl' given rel :
  queue_log s q p sl → log_step sl sl' given rel →
  queue_log (with_heap (<[p := sl']> (heap s)) s) q p sl'.
Proof.
  intros (W & Hq & Hp) Hs. split_and!; [|done|].
  - eapply store_step_keeps; [done|]. by eapply ss_log.
  - simpl. apply list_lookup_insert_eq. by eapply lookup_lt_Some.
Qed.

Lemma pushes_shape msgs : ∀ sl, log_wf sl → deleted sl = false →
  tail sl + Z.of_nat (length msgs) < 2 ^ 63 →
  let sl' := fold_left (λ sl msg, push msg sl) msgs sl in
  head sl' = head sl ∧ tail sl' = tail sl + Z.of_nat (length msgs) ∧
  messages sl' = messages sl ++ imap (λ i m, set_EOffset (tail sl + Z.of_nat i) m) msgs.
Proof.
  induction msgs as [|msg msgs IH]; intros sl W Hd Ht; simpl in *.
  { split_and!; [done|lia|by rewrite app_nil_r]. }
  pose proof (wf_head _ W). pose proof (wf_len _ W Hd).
  destruct (IH (push msg sl)) as (Hh & Ht' & Hm);
    [apply push_wf; [done..|lia]|done|simpl; rewrite u64_small; lia|].
  rewrite Hh, Ht', Hm. simpl. rewrite u64_small by lia. split_and!; [done|lia|].
  rewrite <-app_assoc. simpl. rewrite Z.add_0_r. do 2 f_equal.
  apply imap_ext. intros i m _. simpl. f_equal. lia.
Qed.

Lemma stored_app o sl sl' l : log_wf sl → deleted sl = false →
  head sl' = head sl → messages sl' = messages sl ++ l →
  stored o sl' = if o <? tail sl then stored o sl else l !! Z.to_nat (o - tail sl).
Proof.
  intros W Hd Hh Hm. pose proof (wf_head _ W). pose proof (wf_len _ W Hd).
  unfold stored. rewrite Hh, Hm.
  destruct (Z.ltb_spec o (head sl)), (Z.ltb_spec o (tail sl)); try done; [lia| |].
  - by rewrite lookup_app_l by lia.
  - rewrite lookup_app_r by lia. f_equal. lia.
Qed.

(** A batch append returns the offset of its first record and changes
    nothing else: afterwards the batch is read back record by record from that
    offset, each record carrying its offset, older records read as before,
    offsets past the batch are out of range, and the other queues of the store
    read as before. *)
Theorem append_read s q p sl msgs :
  queue_log s q p sl → msgs ≠ [] → tail sl + Z.of_nat (length msgs) < 2 ^ 63 →
  ∃ s', AppendBatch q msgs s = (Ret (tail sl), s', []) ∧
    (∀ o, 0 <= o < 2 ^ 64 → read q o s' =
       if o <? tail sl then read q o s
       else or_range (set_EOffset o <$> msgs !! Z.to_nat (o - tail sl))) ∧
    (∀ q' o, q' ≠ q → read q' o s' = read q' o s).
Proof.
  intros Q Hne Ht. destruct (queue_log_live _ _ _ _ Q) as [Wl Hd]. pose proof Q as (W & Hq & Hp).
  assert (E : AppendBatch_locked msgs sl =
    (Ret (tail sl), fold_left (λ sl msg, push msg sl) msgs sl, [])).
  { unfold AppendBatch_locked, unless_deleted. by rewrite Hd. }
  set (sl' := fold_left _ _ _) in E.
  destruct (pushes_shape msgs sl Wl Hd Ht) as (Hh & Ht' & Hm).
  assert (Q' : queue_log (with_heap (<[p := sl']> (heap s)) s) q p sl').
  { eapply queue_log_step; [done|]. by eapply st_batch. }
  eexists. split_and!.
  - unfold AppendBatch. destruct msgs; [done|]. simpl length. cbn [Nat.eqb].
    by rewrite (on_queue_run _ _ _ _ _ Hq Hp), E.
  - intros o Ho. destruct Q' as (W' & Hq' & Hp').
    rewrite (read_stored q o _ p sl'), (read_stored q o s p sl) by done.
    rewrite (stored_app o sl sl' _ Wl Hd Hh Hm). destruct (Z.ltb_spec o (tail sl)); [done|].
    rewrite list_lookup_imap. destruct (msgs !! _) as [m|] eqn:Em; [|done]. simpl.
    do 2 f_equal. lia.
  - intros q' o Hq'. by eapply read_frame.
Qed.

(** Truncation to [o] releases exactly the records below [o] (all records
    when [o] is past the tail): afterwards those offsets are out of range,
    every retained offset and every other queue read as before, and the next
    append still gets the old tail. *)
Theorem truncate_read s q p sl o :
  queue_log s q p sl → 0 <= o →
  let cutoff := Z.max (head sl) (Z.min o (tail sl)) in
  ∃ s', Truncate q o s =
      (Ret tt, s', take (Z.to_nat (cutoff - head sl)) (messages sl)) ∧
    (∀ i, 0 <= i < 2 ^ 64 → read q i s' =
       if i <? cutoff then Fail ErrOffsetOutOfRange else read q i s) ∧
    (∀ q' i, q' ≠ q → read q' i s' = read q' i s) ∧
    (Head q s').1.1 = Ret cutoff ∧ (Tail q s').1.1 = Ret (tail sl).
Proof.
  intros Q Ho cutoff. destruct (queue_log_live _ _ _ _ Q) as [Wl Hd]. pose proof Q as (W & Hq & Hp).
  pose proof (wf_head _ Wl). pose proof (wf_len _ Wl Hd). set (k := Z.to_nat (cutoff - head sl)).
  assert (E : Truncate_locked o sl = (Ret tt, cut_log k sl, take k (messages sl))).
  { destruct (Truncate_cut o sl Wl Hd) as [Hk ->]. destruct (Z.leb_spec o (head sl)).
    - assert (k = 0%nat) as -> by lia. rewrite take_0. do 2 f_equal. symmetry. by apply cut_log_0.
    - by replace k with (Z.to_nat (o `min` tail sl - head sl)) by lia. }
  assert (Q' : queue_log (with_heap (<[p := cut_log k sl]> (heap s)) s) q p (cut_log k sl)).
  { eapply queue_log_step; [done|]. by eapply st_truncate. }
  pose proof Q' as (W' & Hq' & Hp'). eexists. split_and!.
  - unfold Truncate. by rewrite (on_queue_run _ _ _ _ _ Hq Hp), E.
  - intros i Hi. rewrite (read_stored q i _ p (cut_log k sl)), (read_stored q i s p sl) by done.
    unfold stored. simpl.
    replace (head sl + Z.of_nat k) with cutoff by lia.
    destruct (Z.ltb_spec i cutoff); [done|].
    rewrite (proj2 (Z.ltb_ge i (head sl))), lookup_drop by lia. do 2 f_equal. lia.
  - intros q' i Hne. by eapply read_frame.
  - unfold Head. rewrite (on_queue_run _ _ _ _ _ Hq' Hp').
    unfold Head_locked, unless_deleted. simpl. rewrite Hd. simpl. f_equal. lia.
  - unfold Tail. rewrite (on_queue_run _ _ _ _ _ Hq' Hp').
    unfold Tail_locked, unless_deleted. simpl. by rewrite Hd.
Qed.

Lemma with_heap_id s p sl : heap s !! p = Some sl → with_heap (<[p := sl]> (heap s)) s = s.
Proof. intros Hp. rewrite list_insert_id by done. by destruct s. Qed.

Lemma ReadBatch_shape start limit sl : log_wf sl → deleted sl = false → 0 <= start < 2 ^ 64 →
  0 <= limit < 2 ^ 62 → tail sl < 2 ^ 62 →
  ReadBatch_locked start limit sl =
    (Ret (take (Z.to_nat limit) (drop (Z.to_nat (Z.max start (head sl) - head sl)) (messages sl))),
     sl, []).
Proof.
  intros W Hd Hs Hl Ht. pose proof (wf_head _ W). pose proof (wf_len _ W Hd).
  unfold ReadBatch_locked, unless_deleted. rewrite Hd.
  set (st := if start <? head sl then _ else _).
  assert (Hst : st = Z.max start (head sl)) by (unfold st; destruct (Z.ltb_spec start (head sl)); lia).
  rewrite Hst. destruct (Z.leb_spec (tail sl) (Z.max start (head sl))).
  { rewrite (drop_ge (messages sl)) by lia. by rewrite take_nil. }
  rewrite (u64_small (Z.max start (head sl) - head sl)) by lia.
  rewrite (i64_small (Z.max start (head sl) - head sl)) by lia.
  rewrite (i64_small (Z.max start (head sl) - head sl + limit)) by lia.
  set (len := Z.of_nat (length (messages sl))). set (a := Z.max start (head sl) - head sl) in *.
  set (e := if len <? a + limit then len else a + limit).
  assert (He : e = Z.min len (a + limit)) by (unfold e; destruct (Z.ltb_spec len (a + limit)); lia).
  rewrite He, i64_small by lia.
  rewrite (proj2 (Z.ltb_ge (Z.min len (a + limit) - a) 0)), (proj2 (Z.ltb_ge a 0)),
    (proj2 (Z.ltb_ge (Z.min len (a + limit)) a)) by lia. simpl. do 3 f_equal.
  destruct (decide (len <= a + limit)).
  - rewrite !take_ge; [done|rewrite length_drop; lia..].
  - f_equal. lia.
Qed.

(** A batch read from an offset returns the records of the consecutive
    single reads from that offset (from the head, if the offset was truncated
    away), as many as the limit and the tail allow, and leaves the store
    unchanged; a negative limit panics as soon as there is a record to read. *)
Theorem read_batch_reads s q p sl start limit :
  queue_log s q p sl → 0 <= start < 2 ^ 64 → tail sl < 2 ^ 62 →
  - 2 ^ 62 < limit < 2 ^ 62 →
  let first := Z.max start (head sl) in
  (0 <= limit → ∃ l,
    ReadBatch q start limit s = (Ret l, s, []) ∧
    Z.of_nat (length l) = Z.max 0 (Z.min limit (tail sl - first)) ∧
    ∀ i m, l !! i = Some m → read q (first + Z.of_nat i) s = Ret m) ∧
  (limit < 0 → first < tail sl → (ReadBatch q start limit s).1.1 = Panic).
Proof.
  intros Q Hs Ht Hl first. destruct (queue_log_live _ _ _ _ Q) as [Wl Hd].
  pose proof Q as (W & Hq & Hp). pose proof (wf_head _ Wl). pose proof (wf_len _ Wl Hd). split.
  - intros Hl0. eexists. split_and!.
    + unfold ReadBatch. rewrite (on_queue_run _ _ _ _ _ Hq Hp), ReadBatch_shape by (done || lia).
      simpl. by rewrite with_heap_id.
    + rewrite length_take, length_drop. lia.
    + intros i m [Hi Hlt]%lookup_take_Some. rewrite lookup_drop in Hi. 
      pose proof (lookup_lt_Some _ _ _ Hi). rewrite (read_stored q _ s p sl) by (done || lia).
      unfold stored. rewrite (proj2 (Z.ltb_ge (first + Z.of_nat i) (head sl))) by lia.
      replace (Z.to_nat (first + Z.of_nat i - head sl)) with
        (Z.to_nat (first - head sl) + i)%nat by lia. fold first in Hi. by rewrite Hi.
  - intros Hneg Hfirst. unfold ReadBatch. rewrite (on_queue_run _ _ _ _ _ Hq Hp). simpl.
    unfold ReadBatch_locked, unless_deleted. rewrite Hd.
    set (st := if start <? head sl then _ else _).
    assert (Hst : st = first) by (unfold st; destruct (Z.ltb_spec start (head sl)); lia).
    rewrite Hst. rewrite (proj2 (Z.leb_gt (tail sl) first)) by lia.
    rewrite (u64_small (first - head sl)), (i64_small (first - head sl)) by lia.
    rewrite (i64_small (first - head sl + limit)) by lia.
    rewrite (proj2 (Z.ltb_ge (Z.of_nat (length (messages sl))) (first - head sl + limit))) by lia.
    rewrite i64_small by lia.
    by rewrite (proj2 (Z.ltb_lt (first - head sl + limit - (first - head sl)) 0)) by lia.
Qed.

Lemma AppendOnce_locked_kept k msg sl : log_wf sl → deleted sl = false → k ≠ EmptyString →
  tail sl + 1 < 2 ^ 63 →
  ∃ o dup sl1 rel, AppendOnce_locked k msg sl = (Ret (o, dup), sl1, rel) ∧
    (dup = false ↔ dedupe sl !! k = None) ∧
    dedupe sl1 !! k = Some o ∧ deleted sl1 = false ∧ log_wf sl1 ∧
    tail sl1 = tail sl + (if (dup : bool) then 0 else 1).
Proof.
  intros W Hd Hk Ht. pose proof (wf_head _ W). pose proof (wf_len _ W Hd).
  rewrite AppendOnce_cases by done. destruct (dedupe sl !! k) as [o|] eqn:E.
  - exists o, true, sl, [msg]. split_and!; try done. lia.
  - eexists (tail sl), false, _, []. split_and!; [done..| | | |].
    + simpl. by rewrite lookup_insert_eq.
    + done.
    + by apply push_keyed_wf.
    + simpl. rewrite u64_small; lia.
Qed.

(** A key survives a truncation exactly when its record does. *)
Lemma Truncate_keys t k o sl : log_wf sl → deleted sl = false → dedupe sl !! k = Some o →
  ∃ sl2 rel, Truncate_locked t sl = (Ret tt, sl2, rel) ∧
    dedupe sl2 !! k = (if t <=? o then Some o else None) ∧ deleted sl2 = false ∧
    tail sl2 = tail sl.
Proof.
  intros W Hd Hk. destruct (Truncate_cut t sl W Hd) as [Hc ->].
  destruct (wf_dedupe _ W _ _ Hk) as (_ & i & m & Hi & Ho & _). apply lookup_lt_Some in Hi.
  pose proof (wf_len _ W Hd). destruct (Z.leb_spec t (head sl)).
  { exists sl, []. rewrite (proj2 (Z.leb_le t o)) by lia. done. }
  eexists _, _. split_and!; [done| |done|done]. simpl. set (c := Z.to_nat _) in *.
  destruct (Z.leb_spec t o).
  - apply map_lookup_filter_Some. split; [done|]. simpl. lia.
  - apply map_lookup_filter_None. right. intros x Hx. simplify_eq. simpl. lia.
Qed.

(** C27 A deduplicated append is idempotent for as long as its record is
    retained: the offset it returns reads back a record carrying the key, a
    repetition answers the same offset as a duplicate, stores nothing and
    releases the caller's envelope, and once truncation has dropped the record
    a repetition appends anew at the tail. *)
Theorem append_once_idempotent s q p sl k msg msg' t :
  queue_log s q p sl → k ≠ EmptyString → tail sl + 1 < 2 ^ 63 → 0 <= t →
  ∃ o dup s1 rel, AppendOnce q k msg s = (Ret (o, dup), s1, rel) ∧
    (dup = false ↔ dedupe sl !! k = None) ∧
    (∃ m, read q o s1 = Ret m ∧ ETransferID m = k) ∧
    ∃ s2 rel2, Truncate q t s1 = (Ret tt, s2, rel2) ∧
      if t <=? o then AppendOnce q k msg' s2 = (Ret (o, true), s2, [msg'])
      else ∃ s3, AppendOnce q k msg' s2 = 
             (Ret (tail sl + (if (dup : bool) then 0 else 1), false), s3, []).
Proof.
  intros Q Hk Ht Ht0. destruct (queue_log_live _ _ _ _ Q) as [Wl Hd]. pose proof Q as (W & Hq & Hp).
  destruct (AppendOnce_locked_kept k msg sl Wl Hd Hk Ht) as
    (o & dup & sl1 & rel & E & Hdup & Hk1 & Hd1 & Wl1 & Ht1).
  assert (Q1 : queue_log (with_heap (<[p := sl1]> (heap s)) s) q p sl1).
  { eapply queue_log_step; [done|]. by eapply st_once. }
  set (s1 := with_heap _ s) in Q1. pose proof Q1 as (W1 & Hq1 & Hp1).
  exists o, dup, s1, rel. split_and!; [|done| |].
  { unfold AppendOnce. rewrite (proj2 (str_eqb_false _ _) Hk).
    by rewrite (on_queue_run _ _ _ _ _ Hq Hp), E. }
  { destruct (wf_dedupe _ Wl1 _ _ Hk1) as (_ & i & m & Hi & -> & Hid). exists m. split; [|done].
    apply lookup_lt_Some in Hi as Hlt. pose proof (wf_head _ Wl1). pose proof (wf_tail _ Wl1).
    pose proof (wf_len _ Wl1 Hd1). rewrite (read_stored q _ s1 p sl1) by (done || lia).
    unfold stored. rewrite (proj2 (Z.ltb_ge (head sl1 + Z.of_nat i) (head sl1))) by lia.
    replace (Z.to_nat _) with i by lia. by rewrite Hi. }
  destruct (Truncate_keys t k o sl1 Wl1 Hd1 Hk1) as (sl2 & rel2 & E2 & Hk2 & Hd2 & Ht2).
  assert (Q2 : queue_log (with_heap (<[p := sl2]> (heap s1)) s1) q p sl2).
  { eapply queue_log_step; [done|]. by eapply st_truncate. }
  set (s2 := with_heap _ s1) in Q2. pose proof Q2 as (W2 & Hq2 & Hp2). exists s2, rel2. split.
  { unfold Truncate. by rewrite (on_queue_run _ _ _ _ _ Hq1 Hp1), E2. }
  unfold AppendOnce. rewrite (proj2 (str_eqb_false _ _) Hk).
  rewrite (on_queue_run _ _ _ _ _ Hq2 Hp2), AppendOnce_cases, Hk2 by done.
  destruct (t <=? o); cbn [fst snd]; [by rewrite with_heap_id|]. eexists. by rewrite Ht2, Ht1.
Qed.

(** ** Retention searches *)

Definition bytes_total (l : list (Envelope M)) : Z := foldr (λ m n, messageSize m + n) 0 l.

Lemma bytes_total_app l1 l2 : bytes_total (l1 ++ l2) = bytes_total l1 + bytes_total l2.
Proof. induction l1 as [|m l1 IH]; simpl; [done|]. rewrite IH. lia. Qed.

Lemma bytes_total_reverse l : bytes_total (reverse l) = bytes_total l.
Proof.
  induction l as [|m l IH]; [done|]. rewrite reverse_cons, bytes_total_app, IH. simpl. lia.
Qed.

(** The scan stops at the first record that exceeds the budget. *)
Lemma size_scan_spec R rms : ∀ i acc,
  0 <= acc <= R → Forall (λ m, 0 <= messageSize m) rms → acc + bytes_total rms < 2 ^ 63 →
  match size_scan R i acc rms with
  | Some j => ∃ n, (n < length rms)%nat ∧ j = i + 1 - Z.of_nat n ∧
      acc + bytes_total (take n rms) <= R < acc + bytes_total (take (S n) rms)
  | None => acc + bytes_total rms <= R
  end.
Proof.
  induction rms as [|m rms IH]; intros i acc Ha Hp Ht; simpl in *; [lia|].
  apply Forall_cons in Hp as [Hm Hp]. assert (0 <= bytes_total rms).
  { clear -Hp. induction Hp; simpl in *; lia. }
  rewrite i64_small by lia. destruct (Z.ltb_spec R (acc + messageSize m)).
  { exists 0%nat. rewrite take_0. simpl. lia. }
  specialize (IH (i - 1) (acc + messageSize m)). destruct (size_scan _ _ _ _) as [j|].
  - destruct IH as (n & ? & -> & ?); [lia|done|lia|]. exists (S n). simpl in *. split_and!; lia.
  - apply IH in Hp; lia.
Qed.

Lemma time_scan_spec ts l : ∀ i,
  match time_scan ts i l with
  | Some j => ∃ n m u, j = i + Z.of_nat n ∧ l !! n = Some m ∧ ECreatedAt m = Some u ∧ ts <= u ∧
      ∀ n' m' u', (n' < n)%nat → l !! n' = Some m' → ECreatedAt m' = Some u' → u' < ts
  | None => ∀ n' m' u', l !! n' = Some m' → ECreatedAt m' = Some u' → u' < ts
  end.
Proof.
  induction l as [|m l IH]; intros i; simpl; [done|].
  specialize (IH (i + 1)).
  assert (Hrest : (∀ u, ECreatedAt m = Some u → u < ts) →
    match time_scan ts (i + 1) l with
    | Some j => ∃ n m0 u, j = i + Z.of_nat n ∧ (m :: l) !! n = Some m0 ∧ ECreatedAt m0 = Some u ∧
        ts <= u ∧ ∀ n' m' u', (n' < n)%nat → (m :: l) !! n' = Some m' →
          ECreatedAt m' = Some u' → u' < ts
    | None => ∀ n' m' u', (m :: l) !! n' = Some m' → ECreatedAt m' = Some u' → u' < ts
    end).
  { intros Hm. destruct (time_scan ts (i + 1) l) as [j|].
    - destruct IH as (n & m0 & u & -> & Hn & Hu & Hle & Hb). exists (S n), m0, u.
      split_and!; [lia|done..|]. intros [|n'] m' u' Hlt Hl; simplify_eq/=; [apply Hm|].
      apply (Hb n'); [lia|done].
    - intros [|n'] m' u' Hl; simplify_eq/=; [apply Hm|]. by apply (IH n'). }
  destruct (ECreatedAt m) as [u|] eqn:E; [|by apply Hrest].
  destruct (Z.ltb_spec u ts); simpl; [apply Hrest; naive_solver|].
  exists 0%nat, m, u. split_and!; [lia|done..|]. intros; lia.
Qed.

Lemma OffsetBySize_shape R sl : log_wf sl → deleted sl = false → 0 < R →
  Forall (λ m, 0 <= messageSize m) (messages sl) → bytes_total (messages sl) < 2 ^ 63 →
  ∃ n, (n <= length (messages sl))%nat ∧
    OffsetBySize_locked R sl = (Ret (head sl + Z.of_nat n), sl, []) ∧
    bytes_total (drop n (messages sl)) <= R ∧
    (n ≠ 0%nat → R < bytes_total (drop (n - 1) (messages sl))).
Proof.
  intros W Hd HR Hpos Htot. pose proof (wf_head _ W). pose proof (wf_tail _ W).
  pose proof (wf_len _ W Hd). unfold OffsetBySize_locked, unless_deleted. rewrite Hd.
  rewrite (proj2 (Z.leb_gt R 0)) by lia. cbn [orb].
  destruct (Nat.eqb_spec (length (messages sl)) 0) as [El|El].
  { apply nil_length_inv in El as E. exists 0%nat. rewrite E. simpl. rewrite Z.add_0_r.
    split_and!; [lia|done|lia|done]. }
  pose proof (size_scan_spec R (reverse (messages sl)) (Z.of_nat (length (messages sl)) - 1) 0) as HS.
  rewrite bytes_total_reverse in HS. destruct (size_scan _ _ _ _) as [j|].
  - destruct HS as (n & Hn & -> & Hle & Hlt); [lia|by apply Forall_reverse|lia|].
    rewrite length_reverse in Hn. rewrite !take_reverse, !bytes_total_reverse in *.
    exists (length (messages sl) - n)%nat. rewrite u64_small by lia. split_and!; [lia| |lia|].
    + do 3 f_equal. lia.
    + intros _. replace (_ - n - 1)%nat with (length (messages sl) - S n)%nat by lia. lia.
  - exists 0%nat. rewrite Z.add_0_r. split_and!; [lia|done| |done].
    rewrite drop_0. apply HS; [lia|by apply Forall_reverse|lia].
Qed.

Lemma OffsetByTime_shape ts sl : log_wf sl → deleted sl = false →
  ∃ n, (n <= length (messages sl))%nat ∧
    OffsetByTime_locked ts sl = (Ret (head sl + Z.of_nat n), sl, []) ∧
    (∀ i m u, (i < n)%nat → messages sl !! i = Some m → ECreatedAt m = Some u → u < ts) ∧
    (∀ m, messages sl !! n = Some m → ∃ u, ECreatedAt m = Some u ∧ ts <= u).
Proof.
  intros W Hd. pose proof (wf_head _ W). pose proof (wf_tail _ W). pose proof (wf_len _ W Hd).
  unfold OffsetByTime_locked, unless_deleted. rewrite Hd.
  destruct (Nat.eqb_spec (length (messages sl)) 0) as [El|El].
  { apply nil_length_inv in El as E. exists 0%nat. rewrite E, Z.add_0_r. simpl.
    split_and!; [lia|done|intros; lia|done]. }
  pose proof (time_scan_spec ts (messages sl) 0) as HS. destruct (time_scan _ _ _) as [j|].
  - destruct HS as (n & m & u & -> & Hn & Hu & Hle & Hb). apply lookup_lt_Some in Hn as Hlt.
    exists n. rewrite u64_small by lia. split_and!; [lia|done|done|].
    intros m' Hm'. simplify_eq. eauto.
  - exists (length (messages sl)). split_and!; [lia|do 3 f_equal; lia|eauto|].
    intros m Hm%lookup_lt_Some. lia.
Qed.

(** Size retention keeps the longest suffix of the log that fits: the
    records from the returned offset on fit in the budget, and one more record
    would not, unless the whole log fits.  Time retention returns the first
    offset whose record is dated at or after the given time, the tail if there
    is none. *)
Theorem retention_offsets s q p sl R ts :
  queue_log s q p sl → 0 < R → Forall (λ m, 0 <= messageSize m) (messages sl) →
  bytes_total (messages sl) < 2 ^ 63 →
  (∃ n, (n <= length (messages sl))%nat ∧
     (OffsetBySize q R s).1 = (Ret (head sl + Z.of_nat n), s) ∧
     bytes_total (drop n (messages sl)) <= R ∧
     (n ≠ 0%nat → R < bytes_total (drop (n - 1) (messages sl)))) ∧
  (∃ n, (n <= length (messages sl))%nat ∧
     (OffsetByTime q ts s).1 = (Ret (head sl + Z.of_nat n), s) ∧
     (∀ i m u, (i < n)%nat → messages sl !! i = Some m → ECreatedAt m = Some u → u < ts) ∧
     (∀ m, messages sl !! n = Some m → ∃ u, ECreatedAt m = Some u ∧ ts <= u)).
Proof.
  intros Q HR Hpos Htot. destruct (queue_log_live _ _ _ _ Q) as [Wl Hd].
  pose proof Q as (W & Hq & Hp). pose proof (wf_head _ Wl). pose proof (wf_tail _ Wl).
  pose proof (wf_len _ Wl Hd). split.
  - destruct (OffsetBySize_shape R sl Wl Hd HR Hpos Htot) as (n & Hn & E & Hin & Hout).
    exists n. split_and!; [done| |done|done]. unfold OffsetBySize.
    rewrite (on_queue_run _ _ _ _ _ Hq Hp), E. cbn [fst snd]. by rewrite with_heap_id.
  - destruct (OffsetByTime_shape ts sl Wl Hd) as (n & Hn & E & Hin & Hout).
    exists n. split_and!; [done| |done|done]. unfold OffsetByTime.
    rewrite (on_queue_run _ _ _ _ _ Hq Hp), E. cbn [fst snd]. by rewrite with_heap_id.
Qed.

(** ** Snapshot and restore *)

(** The loop of the snapshot's consumer: [Next] until it reports the end. *)
Fixpoint drain (n : nat) (r : memoryQueueSnapshot M) : list (Z * option (Envelope M)) :=
  match n with
  | O => []
  | S n => match Next r with (Some x, r') => x :: drain n r' | (None, _) => [] end
  end.

(** The loop of the restore: each streamed record through [RestoreRecord]. *)
Fixpoint restore_all (q : string) (recs : list (Z * option (Envelope M))) s :
    outcome StoreErr (Store M) :=
  match recs with
  | [] => Ret s
  | (_, None) :: _ => Panic
  | (o, Some m) :: recs =>
      match RestoreRecord q o m s with
      | (Ret _, s', _) => restore_all q recs s'
      | (Fail e, _, _) => Fail e
      | (Panic, _, _) => Panic
      end
  end.

Lemma drain_spec h tl (l2 : list (Envelope M)) : ∀ (l1 : list (Envelope M)) n,
  0 <= h → h + Z.of_nat (length l1 + length l2) < 2 ^ 63 → (length l2 < n)%nat →
  drain n (mkQueueSnapshot h tl (replicate (length l1) None ++ (Some <$> l2)) (length l1)) =
  imap (λ i m, (h + Z.of_nat (length l1 + i), Some m)) l2.
Proof.
  induction l2 as [|m l2 IH]; intros l1 n Hh Hlt Hn; destruct n as [|n]; try (simpl in Hn; lia);
    simpl; unfold Next; simpl; rewrite lookup_app_r, length_replicate, Nat.sub_diag
      by (rewrite length_replicate; lia); simpl; [done|].
  simpl in Hlt, Hn. rewrite u64_small by lia. rewrite Nat.add_0_r. f_equal.
  rewrite insert_app_r_alt by (rewrite length_replicate; lia).
  rewrite length_replicate, Nat.sub_diag. simpl.
  pose proof (IH (l1 ++ [m]) n) as IH'. rewrite length_app in IH'. simpl in IH'.
  replace (length l1 + 1)%nat with (S (length l1)) in IH' by lia.
  rewrite replicate_S_end, <-app_assoc in IH'. simpl in IH'. etrans; [apply IH'; lia|].
  apply imap_ext. intros i x _. simpl. do 2 f_equal. lia.
Qed.

(** The index rebuilt from the records, from offset [h] on. *)
Fixpoint keys_of (h : Z) (l : list (Envelope M)) (d : gmap string Z) : gmap string Z :=
  match l with
  | [] => d
  | m :: l => keys_of (h + 1) l
      (if bool_decide (ETransferID m = EmptyString) then d else <[ETransferID m := h]> d)
  end.

Lemma restore_all_spec q p l : ∀ s sl, queue_log s q p sl →
  tail sl + Z.of_nat (length l) < 2 ^ 63 →
  ∃ s' , restore_all q (imap (λ i m, (tail sl + Z.of_nat i, Some m)) l) s = Ret s' ∧
    queue_log s' q p (mkLog (config sl)
      (messages sl ++ imap (λ i m, set_EOffset (tail sl + Z.of_nat i) m) l) (head sl)
      (tail sl + Z.of_nat (length l)) false (keys_of (tail sl) l (dedupe sl))).
Proof.
  induction l as [|m l IH]; intros s sl Q Ht; destruct (queue_log_live _ _ _ _ Q) as [Wl Hd].
  { exists s. split; [done|]. simpl. rewrite app_nil_r, Z.add_0_r, <-Hd. by destruct sl. }
  simpl in *. pose proof Q as (W & Hq & Hp). pose proof (wf_head _ Wl). pose proof (wf_len _ Wl Hd).
  change (Z.of_nat 0) with 0. rewrite !Z.add_0_r.
  unfold RestoreRecord, getQueueLog, on_log. rewrite Hq, Hp.
  destruct (RestoreRecord_locked (tail sl) m sl) as [[r sl1] rel] eqn:E.
  assert (Q1 : queue_log (with_heap (<[p := sl1]> (heap s)) s) q p sl1).
  { eapply queue_log_step; [done|]. eapply st_restore; [|done]. lia. }
  rewrite RestoreRecord_cases, bool_decide_true in E by done. simplify_eq.
  set (sl1 := if bool_decide _ then _ else _) in *.
  assert (config sl1 = config sl ∧ head sl1 = head sl ∧ tail sl1 = tail sl + 1 ∧
    messages sl1 = messages sl ++ [set_EOffset (tail sl) m] ∧
    dedupe sl1 = if bool_decide (ETransferID m = EmptyString) then dedupe sl
                 else <[ETransferID m := tail sl]> (dedupe sl)) as (Ec & Eh & Et & Em & Ed).
  { unfold sl1. case_bool_decide; simpl; rewrite u64_small by lia; done. }
  destruct (IH _ sl1 Q1) as (s' & Hs' & Q'); [lia|].
  rewrite Ec, Eh, Et, Em, Ed in *. exists s'. split.
  - rewrite <-Hs'. f_equal. apply imap_ext. intros i x _. simpl. f_equal. lia.
  - replace (tail sl + Z.of_nat (S (length l))) with (tail sl + 1 + Z.of_nat (length l)) by lia.
    rewrite <-app_assoc in Q'. simpl in Q'.
    erewrite (imap_ext _ (λ i m, set_EOffset (tail sl + 1 + Z.of_nat i) m)); [done|].
    intros i x _. simpl. f_equal. lia.
Qed.

Lemma keys_of_absent k l : ∀ h d,
  (∀ m, m ∈ l → ETransferID m = k → k = EmptyString) → keys_of h l d !! k = d !! k.
Proof.
  induction l as [|m l IH]; intros h d Hk; simpl; [done|]. rewrite IH by set_solver.
  case_bool_decide as Hm; [done|]. rewrite lookup_insert_ne; [done|].
  intros <-. apply Hm, (Hk m); [left|done].
Qed.

(** The last record that carries a transfer id. *)
Definition last_carrier (h : Z) (l : list (Envelope M)) (k : string) (o : Z) : Prop :=
  k ≠ EmptyString ∧ ∃ i m, l !! i = Some m ∧ o = h + Z.of_nat i ∧ ETransferID m = k ∧
    ∀ j m', (i < j)%nat → l !! j = Some m' → ETransferID m' ≠ k.

Lemma last_carrier_exists h k l : k ≠ EmptyString → (∃ m, m ∈ l ∧ ETransferID m = k) →
  ∃ o, last_carrier h l k o.
Proof.
  intros Hk. revert h. induction l as [|m0 l IH]; intros h (m & Hm & Hid); [by apply elem_of_nil in Hm|].
  destruct (decide (Exists (λ m, ETransferID m = k) l)) as [He|He].
  - apply Exists_exists in He. destruct (IH (h + 1) He) as (o & _ & i & m' & Hi & -> & Hid' & Hl).
    eexists. split; [done|]. exists (S i), m'. split_and!; [done|reflexivity|done|].
    intros [|j] m2 Hij; [lia|]. apply Hl. lia.
  - assert (m = m0) as ->.
    { apply elem_of_cons in Hm as [|Hm]; [done|]. destruct He. apply Exists_exists. by exists m. }
    eexists. split; [done|]. exists 0%nat, m0. split_and!; [done|reflexivity|done|].
    intros [|j] m2 Hij Hj; [lia|]. intros Hid2. apply He, Exists_exists. exists m2.
    split; [by eapply list_elem_of_lookup_2|done].
Qed.

Lemma keys_of_last k l : ∀ h d i m,
  l !! i = Some m → ETransferID m = k → k ≠ EmptyString →
  (∀ j m', (i < j)%nat → l !! j = Some m' → ETransferID m' ≠ k) →
  keys_of h l d !! k = Some (h + Z.of_nat i).
Proof.
  induction l as [|m0 l IH]; intros h d i m Hi Hm Hk Hu; simpl; [done|].
  destruct i as [|i]; simplify_eq/=.
  - rewrite keys_of_absent.
    + rewrite bool_decide_false by done. rewrite lookup_insert_eq. f_equal. lia.
    + intros m' [j Hj]%list_elem_of_lookup Hid. by destruct (Hu (S j) m' ltac:(lia) Hj Hid).
  - rewrite (IH _ _ i m); [f_equal; lia|done..|].
    intros j m' Hij Hj. apply (Hu (S j) m'); [lia|done].
Qed.

Lemma keys_of_spec h l k o : keys_of h l ∅ !! k = Some o ↔ last_carrier h l k o.
Proof.
  split.
  - intros H. destruct (decide (k ≠ EmptyString ∧ Exists (λ m, ETransferID m = k) l)) as [[Hk He]|Hn].
    + apply Exists_exists in He. destruct (last_carrier_exists h k l Hk He) as (o' & Hl).
      pose proof Hl as (_ & i & m & Hi & -> & Hm & Hu). by rewrite (keys_of_last k l h ∅ i m) in H by done; simplify_eq.
    + rewrite keys_of_absent in H; [by rewrite lookup_empty in H|].
      intros m Hm Hid. destruct (decide (k = EmptyString)); [done|]. destruct Hn. split; [done|].
      apply Exists_exists. by exists m.
  - intros (Hk & i & m & Hi & -> & Hm & Hu). by apply (keys_of_last k l h ∅ i m).
Qed.

(** Every record that carries a transfer id was appended under it. *)
Definition ids_indexed sl : Prop :=
  ∀ i m, messages sl !! i = Some m → ETransferID m ≠ EmptyString →
    dedupe sl !! ETransferID m = Some (head sl + Z.of_nat i).

Lemma keys_of_dedupe sl : log_wf sl →
  dom (dedupe sl) ⊆ dom (keys_of (head sl) (messages sl) ∅) ∧
  (ids_indexed sl → keys_of (head sl) (messages sl) ∅ = dedupe sl).
Proof.
  intros W.
  assert (Hd : dom (dedupe sl) ⊆ dom (keys_of (head sl) (messages sl) ∅)).
  { intros k [o E]%elem_of_dom. destruct (wf_dedupe _ W _ _ E) as (Hk & i & m & Hi & _ & Hm).
    destruct (last_carrier_exists (head sl) k (messages sl) Hk) as [o' Ho'].
    { exists m. split; [by eapply list_elem_of_lookup_2|done]. }
    apply elem_of_dom. exists o'. by apply keys_of_spec. }
  split; [done|]. intros Hids. apply map_eq. intros k.
  destruct (keys_of _ _ _ !! k) as [o|] eqn:E.
  - apply keys_of_spec in E as (Hk & i & m & Hi & -> & <- & _). by rewrite (Hids _ _ Hi Hk).
  - symmetry. apply not_elem_of_dom. intros Hk. apply Hd, elem_of_dom in Hk as [o' E']. congruence.
Qed.

Lemma stamped_id sl : log_wf sl →
  imap (λ i m, set_EOffset (head sl + Z.of_nat i) m) (messages sl) = messages sl.
Proof.
  intros W. apply list_eq. intros i. rewrite list_lookup_imap.
  destruct (messages sl !! i) as [m|] eqn:Hi; [|done]. simpl.
  rewrite <-(wf_off _ W _ _ Hi). by destruct m.
Qed.

Lemma RestoreQueue_log c h s : Config.Validate c = Ret tt → store_wf s → 0 <= h < 2 ^ 63 →
  ∃ s' rel p, RestoreQueue c h s = (Ret tt, s', rel) ∧
    queue_log s' (Config.Name c) p (newLog c h).
Proof.
  intros Hv W Hh. destruct (unbind_keeps (Config.Name c) s W) as [[W1 _] Hn].
  unfold RestoreQueue. rewrite Hv. destruct (unbind (Config.Name c) s) as [s1 rel]. simpl in *.
  eexists _, rel, (length (heap s1)). split; [done|]. split_and!.
  - by apply keeps_install.
  - simpl. by rewrite lookup_insert_eq.
  - simpl. by rewrite lookup_app_r, Nat.sub_diag.
Qed.

(** C28 A snapshot streamed record by record into another store rebuilds the
    queue: whatever that store held under the name, the restored log has the
    same records at the same offsets and the same head and tail.  The
    deduplication index, which the snapshot does not carry, is rebuilt from the
    records: it leads from each transfer id to the last record that carries it,
    so no id is forgotten, and it is the original index if every record that
    carries an id was appended under it (a plain append of such a record does
    not index it). *)
Theorem snapshot_restore s q p sl s2 c :
  queue_log s q p sl → Config.Validate c = Ret tt → store_wf s2 →
  ∃ r s3 rel s4 p' d,
    OpenQueueSnapshot q s = (Ret r, s, []) ∧
    RestoreQueue c (snap_head r) s2 = (Ret tt, s3, rel) ∧
    restore_all (Config.Name c) (drain (S (length (snap_records r))) r) s3 = Ret s4 ∧
    queue_log s4 (Config.Name c) p' (mkLog c (messages sl) (head sl) (tail sl) false d) ∧
    (∀ k o, d !! k = Some o ↔ last_carrier (head sl) (messages sl) k o) ∧
    dom (dedupe sl) ⊆ dom d ∧ (ids_indexed sl → d = dedupe sl).
Proof.
  intros Q Hv W2. destruct (queue_log_live _ _ _ _ Q) as [Wl Hd]. pose proof Q as (W & Hq & Hp).
  pose proof (wf_head _ Wl). pose proof (wf_tail _ Wl). pose proof (wf_len _ Wl Hd) as Hlen.
  destruct (RestoreQueue_log c (head sl) s2 Hv W2) as (s3 & rel & p' & E3 & Q3); [lia|].
  destruct (restore_all_spec _ p' (messages sl) s3 _ Q3) as (s4 & E4 & Q4); [simpl; lia|].
  simpl in E4, Q4. rewrite stamped_id, <-Hlen in Q4 by done.
  destruct (keys_of_dedupe sl Wl) as [Hdom Heq].
  exists (mkQueueSnapshot (head sl) (u64 (head sl + Z.of_nat (length (messages sl))))
            (Some <$> messages sl) 0), s3, rel, s4, p', (keys_of (head sl) (messages sl) ∅).
  split_and!; [|done| |done|intros k o; apply keys_of_spec|done|done].
  - unfold OpenQueueSnapshot. rewrite (on_queue_run _ _ _ _ _ Hq Hp).
    unfold OpenQueueSnapshot_locked, unless_deleted. rewrite Hd. cbn [fst snd].
    by rewrite with_heap_id.
  - simpl snap_records. rewrite length_fmap.
    rewrite <-E4. f_equal. apply (drain_spec (head sl) _ (messages sl) []); simpl; lia.
Qed.

(** ** Handlers that are not atomic as a whole *)

Lemma UpdateQueue_topicIndex c s : topicIndex (UpdateQueue c s).2 = topicIndex s.
Proof.
  unfold UpdateQueue, on_queue, on_log. repeat case_match; simplify_eq/=; try done.
  all: destruct (getQueueLog _ _); simplify_eq/=; try done.
  all: repeat case_match; by simplify_eq/=.
Qed.

(** [DeleteQueue] releases the lock of the log before it removes the group
    map, the consumer map and the index entry of the name: if a queue of that
    name is created in between, the clean-up strips the new queue, which then
    exists without being able to hold a consumer group or a consumer. *)
Theorem delete_create_race s q p sl c group consumer :
  queue_log s q p sl → Config.Reserved (config sl) = false →
  Config.Validate c = Ret tt → Config.Name c = q →
  Group.QueueName group = q → CQueueName consumer = q →
  ∃ s1 s2, DeleteQueue_locked q p s = (Ret tt, s1, messages sl) ∧
    CreateQueue c s1 = (Ret tt, s2) ∧
    let s3 := DeleteQueue_cleanup q s2 in
    (GetQueue q s3).1.1 = Ret c ∧
    (CreateConsumerGroup group s3).1 = Fail ErrQueueNotFound ∧
    (RegisterConsumer consumer s3).1 = Fail ErrQueueNotFound.
Proof.
  intros Q Hr Hv Hn Hg Hc. destruct (queue_log_live _ _ _ _ Q) as [_ Hd].
  destruct Q as (_ & Hq & Hp). eexists _, _. split; [|split].
  { unfold DeleteQueue_locked. by rewrite Hp, Hd, Hr, bool_decide_true by done. }
  { unfold CreateQueue. simpl. by rewrite Hv, Hn, lookup_delete_eq. }
  cbv zeta. split_and!.
  - unfold GetQueue, on_queue, getQueueLog, on_log. simpl. rewrite Hn, lookup_insert_eq.
    by rewrite lookup_app_r, Nat.sub_diag.
  - unfold CreateConsumerGroup. simpl. by rewrite Hg, lookup_delete_eq.
  - unfold RegisterConsumer. simpl. by rewrite Hc, lookup_delete_eq.
Qed.

End facts.

(** ** Examples *)

Definition ex_config (topic : string) : Config.QueueConfig :=
  Config.DefaultQueueConfig "orders" [topic].
Definition ex_msg (n : nat) : Envelope nat :=
  mkEnvelope "orders/1" [] EmptyString ∅ EmptyString 0 (Some (Z.of_nat n)) n.

Definition ex_created : Store nat := (CreateQueue (ex_config "orders/#") New).2.
Definition ex_store : Store nat :=
  (AppendBatch "orders" [ex_msg 1; ex_msg 2; ex_msg 3] ex_created).1.2.

Definition ex_log : log nat :=
  mkLog (ex_config "orders/#")
    [set_EOffset 0 (ex_msg 1); set_EOffset 1 (ex_msg 2); set_EOffset 2 (ex_msg 3)] 0 3 false ∅.

Lemma ex_run : store_run ex_created [] [].
Proof. apply CreateQueue_run, run_new. Qed.

Lemma ex_step2 : store_step ex_created ex_store [ex_msg 1; ex_msg 2; ex_msg 3] [].
Proof.
  apply (ss_log ex_created 0 (newLog (ex_config "orders/#") 0)); [done|].
  by eapply (st_batch _ [ex_msg 1; ex_msg 2; ex_msg 3]).
Qed.

Lemma ex_queue_log : queue_log ex_store "orders" 0 ex_log.
Proof.
  split_and!; [|done..].
  eapply store_step_keeps; [|apply ex_step2]. apply keeps_install; [apply store_wf_new|done].
Qed.

Lemma store_invariant_witness :
  [1; 2; 3]%nat ≡ₚ EMeta <$> held ex_store ++ [].
Proof.
  refine (proj2 (store_invariant ex_store ([] ++ [ex_msg 1; ex_msg 2; ex_msg 3]) ([] ++ []) _)).
  eapply run_step; [apply ex_run|apply ex_step2].
Defined.

(** Two creations of one name that both found it free: the second replaces the
    log of the first, and a record appended in between is neither readable nor
    released. *)
Lemma create_create_race :
  let s1 := logs_Store (ex_config "orders/#") 0 New in
  let s2 := (Append "orders" (ex_msg 1) s1).1.2 in
  let s3 := logs_Store (ex_config "orders/#") 0 s2 in
  (Append "orders" (ex_msg 1) s1).1.1 = Ret 0 ∧ (Read "orders" 0 s3).1.1 = Fail ErrOffsetOutOfRange ∧
  EMeta <$> held s3 = [1%nat].
Proof. by vm_compute. Qed.

Lemma append_read_witness :
  (AppendBatch "orders" [ex_msg 4; ex_msg 5] ex_store).1.1 = Ret 3.
Proof.
  destruct (append_read ex_store "orders" 0 ex_log [ex_msg 4; ex_msg 5] ex_queue_log)
    as (s' & E & _); [done|done|by rewrite E].
Defined.

Lemma truncate_read_witness :
  (Truncate "orders" 2 ex_store).2 = [set_EOffset 0 (ex_msg 1); set_EOffset 1 (ex_msg 2)].
Proof.
  destruct (truncate_read ex_store "orders" 0 ex_log 2 ex_queue_log) as (s' & E & _);
    [done|by rewrite E].
Defined.

Lemma read_batch_reads_witness :
  (ReadBatch "orders" 1 5 ex_store).1.1 = Ret [set_EOffset 1 (ex_msg 2); set_EOffset 2 (ex_msg 3)]
  ∧ (ReadBatch "orders" 1 (-1) ex_store).1.1 = Panic.
Proof.
  split.
  - destruct (read_batch_reads ex_store "orders" 0 ex_log 1 5 ex_queue_log) as [(l & E & _) _];
      [done..|]. vm_compute in E |- *. done.
  - by apply (read_batch_reads ex_store "orders" 0 ex_log 1 (-1) ex_queue_log).
Defined.

Lemma append_once_idempotent_witness :
  ∃ s1 rel, AppendOnce "orders" "k" (ex_msg 4) ex_store = (Ret (3, false), s1, rel).
Proof.
  destruct (append_once_idempotent ex_store "orders" 0 ex_log "k" (ex_msg 4) (ex_msg 5) 0
    ex_queue_log) as (o & dup & s1 & rel & E & _); [done..|].
  exists s1, rel. rewrite E. vm_compute in E. by inversion E.
Defined.

Lemma retention_offsets_witness :
  (OffsetBySize "orders" 450 ex_store).1.1 = Ret 1 ∧ (OffsetByTime "orders" 3 ex_store).1.1 = Ret 2.
Proof.
  destruct (retention_offsets ex_store "orders" 0 ex_log 450 3 ex_queue_log)
    as [(n & _ & E & _) (n' & _ & E' & _)]; [done|repeat constructor; by vm_compute|by vm_compute|].
  by vm_compute in E, E' |- *.
Defined.

Lemma snapshot_restore_witness :
  ∃ r s3 rel, OpenQueueSnapshot "orders" ex_store = (Ret r, ex_store, []) ∧
    RestoreQueue (ex_config "orders/#") (snap_head r) (New : Store nat) = (Ret tt, s3, rel).
Proof.
  destruct (snapshot_restore ex_store "orders" 0 ex_log New (ex_config "orders/#") ex_queue_log)
    as (r & s3 & rel & s4 & p' & d & E1 & E2 & _); [done|apply store_wf_new|by exists r, s3, rel].
Defined.

(** A record that carries a transfer id and was not appended under it: the
    restored index knows the id, the original does not. *)
Lemma restore_indexes_more :
  let s := (Append "orders" (set_ETransferID "k" (ex_msg 1)) ex_created).1.2 in
  let s' := (RestoreRecord "orders" 0 (set_ETransferID "k" (ex_msg 1)) ex_created).1.2 in
  (AppendOnce "orders" "k" (ex_msg 2) s).1.1 = Ret (1, false) ∧
  (AppendOnce "orders" "k" (ex_msg 2) s').1.1 = Ret (0, true).
Proof. by vm_compute. Qed.

Lemma delete_create_race_witness :
  ∃ s1, DeleteQueue_locked "orders" 0 ex_store = (Ret tt, s1, messages ex_log).
Proof.
  destruct (delete_create_race ex_store "orders" 0 ex_log (ex_config "orders/#")
    (Group.NewConsumerGroupState "orders" "g" EmptyString 0)
    (mkConsumer "c" "c" "g" "orders" 0 0 EmptyString) ex_queue_log) as (s1 & s2 & E & _);
    [done..|by exists s1].
Defined.

(** An update changes the configuration a queue reports but never the routes
    to it: for every configuration and topic the matching queues stay what they
    were, so a queue moved from [orders/#] to [bills/#] still receives the
    former topics and none of the latter. *)
Theorem update_keeps_routes :
  (∀ M c (s : Store M) topic,
     FindMatchingQueues topic (UpdateQueue c s).2 = FindMatchingQueues topic s) ∧
  let s := (UpdateQueue (ex_config "bills/#") ex_store).2 in
  (Config.Topics <$> (GetQueue "orders" s).1.1) = Ret ["bills/#"%string] ∧
  FindMatchingQueues "orders/1" s = ["orders"%string] ∧ FindMatchingQueues "bills/1" s = [].
Proof.
  split; [|by vm_compute]. intros M c s topic. unfold FindMatchingQueues.
  by rewrite UpdateQueue_topicIndex.
Qed.

End MemLogFacts.
