(* ===== verification/MemStores.v ===== *)
(** * The in-memory stores (src/storage/memory)

    The subscription store (a trie with a per-client index and a counter), the
    retained-message store, the will store, the session store and the message
    store of a node without persistence.  Each method runs under the mutex of
    its store and is atomic; [time.Now] is an argument.  A [range] over a Go
    map visits its entries in the order [order m], an arbitrary function of
    which only [order m ≡ₚ map_to_list m] is known.  Copies are values, so
    [CopySubscription], [copySession] and [copyWill] disappear; envelopes a
    store gives up through [message.Release] are outputs.

    Theorems: the subscription store implements a map from client and filter
    to subscription, matching included; the retained store answers what a scan
    with [TopicMatch] answers; the two will queries agree. *)

From Stdlib Require Import ZArith Lia Bool Ascii String Strings.Byte.
From stdpp Require Import prelude gmap strings.
From S2P Require Import Prelude GoStrings Topics Router MemLog.

Inductive StorageErr := ErrNotFound.

(** ** subscription.go *)

Module Subs.

Inductive trieNode : Type :=
| TNode (children : gmap string trieNode) (subs : gmap string Subscription).

Definition tchildren (n : trieNode) : gmap string trieNode := let 'TNode cs _ := n in cs.
Definition tsubs (n : trieNode) : gmap string Subscription := let 'TNode _ ss := n in ss.

Definition newTrieNode : trieNode := TNode ∅ ∅.

Record SubscriptionStore := mkSubscriptionStore {
  root : trieNode;
  count : Z;
  byClient : gmap string (gmap string Subscription)
}.

Definition NewSubscriptionStore : SubscriptionStore := mkSubscriptionStore newTrieNode 0 ∅.

Section subs.
Context (order : gmap string Subscription → list (string * Subscription)).

(** The values of a map, in the order of the walk. *)
Definition values (m : gmap string Subscription) : list Subscription := (order m).*2.

(** Navigate, creating missing nodes, and store under the client. *)
Fixpoint add_at (levels : list string) (sub : Subscription) (n : trieNode) : trieNode :=
  match levels with
  | [] => TNode (tchildren n) (<[SubClientID sub := sub]> (tsubs n))
  | level :: levels =>
      let child := default newTrieNode (tchildren n !! level) in
      TNode (<[level := add_at levels sub child]> (tchildren n)) (tsubs n)
  end.

Definition Add (sub : Subscription) (s : SubscriptionStore) : SubscriptionStore :=
  let clientSubs := default ∅ (byClient s !! SubClientID sub) in
  let isNew := negb (bool_decide (is_Some (clientSubs !! SubFilter sub))) in
  mkSubscriptionStore (add_at (Split slash (SubFilter sub)) sub (root s))
    (if isNew then count s + 1 else count s)
    (<[SubClientID sub := <[SubFilter sub := sub]> clientSubs]> (byClient s)).

(** The walk of [Remove]: it stops at the last node that exists, and deletes
    the client there. *)
Fixpoint remove_at (levels : list string) (clientID : string) (n : trieNode) : trieNode :=
  match levels with
  | [] => TNode (tchildren n) (delete clientID (tsubs n))
  | level :: levels =>
      match tchildren n !! level with
      | None => TNode (tchildren n) (delete clientID (tsubs n))
      | Some child =>
          TNode (<[level := remove_at levels clientID child]> (tchildren n)) (tsubs n)
      end
  end.

Definition Remove (clientID filter : string) (s : SubscriptionStore) : SubscriptionStore :=
  match byClient s !! clientID with
  | None => s
  | Some clientSubs =>
      match clientSubs !! filter with
      | None => s
      | Some _ =>
          let clientSubs := delete filter clientSubs in
          mkSubscriptionStore (remove_at (Split slash filter) clientID (root s)) (count s - 1)
            (if (size clientSubs =? 0)%nat then delete clientID (byClient s)
             else <[clientID := clientSubs]> (byClient s))
      end
  end.

(** The body of the loop of [RemoveAll]. *)
Definition remove_one (clientID : string) (rc : trieNode * Z) (filter : string) : trieNode * Z :=
  (remove_at (Split slash filter) clientID rc.1, rc.2 - 1).

Definition RemoveAll (clientID : string) (s : SubscriptionStore) : SubscriptionStore :=
  match byClient s !! clientID with
  | None => s
  | Some clientSubs =>
      let '(r, c) := fold_left (remove_one clientID) (order clientSubs).*1 (root s, count s) in
      mkSubscriptionStore r c (delete clientID (byClient s))
  end.

Definition GetForClient (clientID : string) (s : SubscriptionStore) : list Subscription :=
  match byClient s !! clientID with None => [] | Some clientSubs => values clientSubs end.

Fixpoint node_at (levels : list string) (n : trieNode) : option trieNode :=
  match levels with
  | [] => Some n
  | level :: levels => match tchildren n !! level with None => None | Some c => node_at levels c end
  end.

Definition GetByFilter (filter : string) (s : SubscriptionStore) : list Subscription :=
  match node_at (Split slash filter) (root s) with None => [] | Some n => values (tsubs n) end.

(** [matchLevel]; the argument [levels] is [levels[index:]]. *)
Fixpoint matchLevel (node : trieNode) (levels : list string) (matched : list Subscription) :
    list Subscription :=
  match levels with
  | [] =>
      let matched := matched ++ values (tsubs node) in
      match tchildren node !! hash_lvl with
      | Some wild => matched ++ values (tsubs wild)
      | None => matched
      end
  | level :: levels =>
      let matched :=
        match tchildren node !! level with
        | Some child => matchLevel child levels matched
        | None => matched
        end in
      let matched :=
        match tchildren node !! plus_lvl with
        | Some child => matchLevel child levels matched
        | None => matched
        end in
      match tchildren node !! hash_lvl with
      | Some child => matched ++ values (tsubs child)
      | None => matched
      end
  end.

(** One round of [deduplicate]: the higher QoS wins, the first one on a tie. *)
Definition dedupe_add (seen : gmap string Subscription) (sub : Subscription) :
    gmap string Subscription :=
  match seen !! SubClientID sub with
  | Some existing =>
      if SubscriptionQoS existing <? SubscriptionQoS sub then <[SubClientID sub := sub]> seen else seen
  | None => <[SubClientID sub := sub]> seen
  end.

Definition deduplicate (subs : list Subscription) : list Subscription :=
  values (fold_left dedupe_add subs ∅).

Definition Match (topic : string) (s : SubscriptionStore) : list Subscription :=
  deduplicate (matchLevel (root s) (Split slash topic) []).

Definition Count (s : SubscriptionStore) : Z := count s.

End subs.
End Subs.

(** * Properties of the subscription store *)

Module SubsFacts.
Import Subs.

(** ** The abstract view: the subscriptions at a path *)

Definition tbound (ls : list string) (n : trieNode) : gmap string Subscription :=
  match node_at ls n with Some c => tsubs c | None => ∅ end.

Lemma tbound_cons l ls n :
  tbound (l :: ls) n = match tchildren n !! l with Some c => tbound ls c | None => ∅ end.
Proof. unfold tbound. simpl. by destruct (tchildren n !! l). Qed.

Lemma tbound_new ls : tbound ls newTrieNode = ∅.
Proof. destruct ls; [done|]. rewrite tbound_cons. simpl. by rewrite lookup_empty. Qed.

Lemma tbound_default ls o :
  tbound ls (default newTrieNode o) = match o with Some c => tbound ls c | None => ∅ end.
Proof. destruct o; [done|apply tbound_new]. Qed.

Lemma tbound_add ls sub : ∀ n p,
  tbound p (add_at ls sub n) =
  if decide (p = ls) then <[SubClientID sub := sub]> (tbound ls n) else tbound p n.
Proof.
  induction ls as [|l ls IH]; intros n [|l' p]; cbn [add_at].
  - done.
  - by rewrite !tbound_cons, decide_False by done.
  - by rewrite decide_False by done.
  - rewrite !tbound_cons. cbn [tchildren]. destruct (decide (l' = l)) as [->|].
    + rewrite lookup_insert_eq, IH, !tbound_default. destruct (decide (p = ls)) as [->|].
      * rewrite (decide_True (P := l :: ls = l :: ls)) by done. done.
      * rewrite decide_False by congruence. done.
    + rewrite lookup_insert_ne, decide_False by congruence. done.
Qed.

(** On a path that exists, the walk of a removal reaches its end. *)
Lemma tbound_remove ls c : ∀ n p, tbound ls n ≠ ∅ →
  tbound p (remove_at ls c n) = if decide (p = ls) then delete c (tbound ls n) else tbound p n.
Proof.
  induction ls as [|l ls IH]; intros n p Hne; cbn [remove_at].
  - destruct p; [done|]. by rewrite !tbound_cons, decide_False by done.
  - rewrite tbound_cons in Hne. rewrite tbound_cons.
    destruct (tchildren n !! l) as [ch|] eqn:Hl; [|done].
    destruct p as [|l' p]; [by rewrite decide_False by done|].
    rewrite !tbound_cons. cbn [tchildren]. destruct (decide (l' = l)) as [->|].
    + rewrite lookup_insert_eq, IH by done. rewrite Hl. repeat case_decide; congruence.
    + by rewrite lookup_insert_ne, decide_False by congruence.
Qed.

Section facts.
Context (order : gmap string Subscription → list (string * Subscription)).
Context (order_perm : ∀ m, order m ≡ₚ map_to_list m).

Lemma elem_of_values sub m : sub ∈ values order m ↔ ∃ k, m !! k = Some sub.
Proof.
  unfold values. rewrite (order_perm m), list_elem_of_fmap. split.
  - intros ([k x] & -> & Hk). exists k. by apply elem_of_map_to_list.
  - intros (k & Hk). exists (k, sub). split; [done|]. by apply elem_of_map_to_list.
Qed.

(** ** Matching *)

Lemma matchLevel_elem ts sub : ∀ n m,
  sub ∈ matchLevel order n ts m ↔
  sub ∈ m ∨ ∃ p c, tbound p n !! c = Some sub ∧ mqtt_match p ts.
Proof.
  assert (Hhash : ∀ n m,
    sub ∈ match tchildren n !! hash_lvl with
          | Some c => m ++ values order (tsubs c) | None => m end ↔
    sub ∈ m ∨ ∃ c, tbound [hash_lvl] n !! c = Some sub).
  { intros n m. rewrite tbound_cons. destruct (tchildren n !! hash_lvl) as [ch|].
    - by rewrite elem_of_app, elem_of_values.
    - setoid_rewrite lookup_empty. naive_solver. }
  induction ts as [|t ts IH]; intros n m; cbn [matchLevel].
  - rewrite Hhash, elem_of_app, elem_of_values. split.
    + intros [[?|(c & ?)]|(c & ?)]; [by left|right; exists [], c; by split; [|constructor]|].
      right. exists [hash_lvl], c. split; [done|constructor].
    + intros [?|(p & c & Hp & Hm)]; [auto|]. inversion Hm; subst; eauto.
  - assert (Hsub : ∀ l m,
      sub ∈ match tchildren n !! l with Some c => matchLevel order c ts m | None => m end ↔
      sub ∈ m ∨ ∃ p c, tbound (l :: p) n !! c = Some sub ∧ mqtt_match p ts).
    { intros l m'. setoid_rewrite tbound_cons. destruct (tchildren n !! l) as [c|]; [apply IH|].
      setoid_rewrite lookup_empty. naive_solver. }
    rewrite Hhash, !Hsub. split.
    + intros [[[?|(p & c & ? & ?)]|(p & c & ? & ?)]|(c & ?)]; eauto 10 with flux.
    + intros [?|(p & c & Hp & Hm)]; [auto|]. inversion Hm; subst; eauto 10.
Qed.

(** The map [seen] of [deduplicate]: per client, a subscription of the list
    with the highest QoS. *)
Definition best_of (l : list Subscription) (seen : gmap string Subscription) : Prop :=
  ∀ c, match seen !! c with
       | None => ∀ sub, sub ∈ l → SubClientID sub ≠ c
       | Some x => x ∈ l ∧ SubClientID x = c ∧
           ∀ sub, sub ∈ l → SubClientID sub = c → SubscriptionQoS sub <= SubscriptionQoS x
       end.

Lemma dedupe_add_best l seen sub :
  best_of l seen → best_of (l ++ [sub]) (dedupe_add seen sub).
Proof.
  intros Hb c. unfold dedupe_add. pose proof (Hb c) as Hc.
  destruct (decide (SubClientID sub = c)) as [Heq|Hne].
  - rewrite Heq. destruct (seen !! c) as [x|] eqn:E.
    + destruct Hc as (Hx & Hxc & Hmax).
      destruct (Z.ltb_spec (SubscriptionQoS x) (SubscriptionQoS sub)).
      * rewrite lookup_insert_eq. split_and!; [set_solver|done|].
        intros y [Hy| ->%list_elem_of_singleton]%elem_of_app Hyc; [|lia].
        specialize (Hmax y Hy Hyc). lia.
      * rewrite E. split_and!; [set_solver|done|].
        intros y [Hy| ->%list_elem_of_singleton]%elem_of_app Hyc; [by apply Hmax|lia].
    + rewrite lookup_insert_eq. split_and!; [set_solver|done|].
      intros y [Hy| ->%list_elem_of_singleton]%elem_of_app Hyc; [by destruct (Hc y Hy)|lia].
  - assert (E : dedupe_add seen sub !! c = seen !! c).
    { unfold dedupe_add. repeat case_match; by rewrite ?lookup_insert_ne. }
    unfold dedupe_add in E. rewrite E. destruct (seen !! c) as [x|]; [|set_solver].
    destruct Hc as (Hx & Hxc & Hmax). split_and!; [set_solver|done|].
    intros y [Hy| ->%list_elem_of_singleton]%elem_of_app Hyc; [by apply Hmax|done].
Qed.

Lemma fold_dedupe l : ∀ pre seen, best_of pre seen →
  best_of (pre ++ l) (fold_left dedupe_add l seen).
Proof.
  induction l as [|sub l IH]; intros pre seen Hb; simpl; [by rewrite app_nil_r|].
  replace (pre ++ sub :: l) with ((pre ++ [sub]) ++ l) by by rewrite <-app_assoc.
  by apply IH, dedupe_add_best.
Qed.

(** ** The specification: a map from (client, filter) to subscription *)

Notation spec := (gmap (string * string) Subscription).

Inductive sub_op :=
| OpAdd (sub : Subscription)
| OpRemove (clientID filter : string)
| OpRemoveAll (clientID : string).

Definition run_sub (s : SubscriptionStore) (o : sub_op) : SubscriptionStore :=
  match o with
  | OpAdd sub => Add sub s
  | OpRemove c f => Remove c f s
  | OpRemoveAll c => RemoveAll order c s
  end.

Definition spec_sub (m : spec) (o : sub_op) : spec :=
  match o with
  | OpAdd sub => <[(SubClientID sub, SubFilter sub) := sub]> m
  | OpRemove c f => delete (c, f) m
  | OpRemoveAll c => filter (λ kv, kv.1.1 ≠ c) m
  end.

(** The trie and the counter against the specification. *)
Definition trie_sim (r : trieNode) (n : Z) (m : spec) : Prop :=
  (∀ ls c sub, tbound ls r !! c = Some sub ↔ ∃ f, levels f = ls ∧ m !! (c, f) = Some sub) ∧
  n = Z.of_nat (size m).

Definition keys_ok (m : spec) : Prop :=
  ∀ c f sub, m !! (c, f) = Some sub → SubClientID sub = c ∧ SubFilter sub = f.

Definition get (c f : string) (s : SubscriptionStore) : option Subscription :=
  byClient s !! c ≫= lookup f.

Definition sub_sim (s : SubscriptionStore) (m : spec) : Prop :=
  trie_sim (root s) (count s) m ∧ keys_ok m ∧ ∀ c f, get c f s = m !! (c, f).

Lemma trie_sim_bound r n m f c : trie_sim r n m → tbound (levels f) r !! c = m !! (c, f).
Proof.
  intros [Hb _]. apply option_eq. intros sub. rewrite Hb. split; [|eauto].
  by intros (f' & ->%Split_inj & ?).
Qed.

Lemma trie_sim_add r n m sub : trie_sim r n m →
  let k := (SubClientID sub, SubFilter sub) in
  trie_sim (add_at (levels (SubFilter sub)) sub r)
    (if decide (m !! k = None) then n + 1 else n) (<[k := sub]> m).
Proof.
  intros HT k. pose proof HT as [Hb Hn]. split.
  - intros ls c x. rewrite tbound_add. case_decide as Hls; [subst ls|].
    + split.
      * intros [[<- <-]|[Hne Hx]]%lookup_insert_Some; [exists (SubFilter sub); by rewrite lookup_insert_eq|].
        apply Hb in Hx as (f & Hf & Hx). exists f. rewrite lookup_insert_ne; [done|]. by intros [=].
      * intros (f & ->%Split_inj & [[[= <-] <-]|[Hne Hx]]%lookup_insert_Some);
          [by rewrite lookup_insert_eq|].
        rewrite lookup_insert_ne by (intros E; apply Hne; unfold k; by rewrite E). by rewrite (trie_sim_bound _ _ _ _ _ HT).
    + rewrite Hb. split; intros (f & Hf & Hx); exists f; (split; [done|]).
      * rewrite lookup_insert_ne; [done|]. intros [= <- <-]. done.
      * apply lookup_insert_Some in Hx as [[[= <- <-] _]|[_ ?]]; done.
  - rewrite map_size_insert. case_decide as Hk; destruct (m !! k); simplify_eq/=; lia.
Qed.

Lemma trie_sim_remove r n m c f : trie_sim r n m → is_Some (m !! (c, f)) →
  trie_sim (remove_at (levels f) c r) (n - 1) (delete (c, f) m).
Proof.
  intros HT [sub Hs]. pose proof HT as [Hb Hn].
  assert (Hc : tbound (levels f) r !! c = Some sub) by by rewrite (trie_sim_bound _ _ _ _ _ HT).
  assert (Hne : tbound (levels f) r ≠ ∅) by (intros E; by rewrite E, lookup_empty in Hc).
  split.
  - intros ls c' x. rewrite tbound_remove by done. case_decide as Hls; [subst ls|].
    + rewrite lookup_delete_Some. split.
      * intros [Hcc Hx]. apply Hb in Hx as (f' & Hf & Hx). exists f'.
        rewrite lookup_delete_ne by congruence. done.
      * intros (f' & ->%Split_inj & [Hk Hx]%lookup_delete_Some). split; [congruence|].
        by rewrite (trie_sim_bound _ _ _ _ _ HT).
    + rewrite Hb. split; intros (f' & Hf & Hx); exists f'; (split; [done|]).
      * rewrite lookup_delete_ne; [done|]. congruence.
      * by apply lookup_delete_Some in Hx as [_ ?].
  - rewrite map_size_delete, Hs. assert (size m ≠ 0%nat); [|lia].
    rewrite map_size_non_empty_iff. intros ->. by rewrite lookup_empty in Hs.
Qed.

Lemma trie_sim_remove_all c fs : ∀ r n m, trie_sim r n m → NoDup fs →
  (∀ f, f ∈ fs → is_Some (m !! (c, f))) →
  let '(r', n') := fold_left (remove_one c) fs (r, n) in
  trie_sim r' n' (foldr (λ f m, delete (c, f) m) m fs).
Proof.
  induction fs as [|f fs IH]; intros r n m HT Hnd Hin; simpl; [done|].
  apply NoDup_cons in Hnd as [Hf Hnd].
  specialize (IH _ _ (delete (c, f) m) (trie_sim_remove _ _ _ c f HT (Hin f ltac:(left))) Hnd).
  unfold remove_one at 2. simpl. fold (levels f).
  destruct (fold_left (remove_one c) fs _) as [r' n'].
  assert (E : foldr (λ f m, delete (c, f) m) (delete (c, f) m) fs =
    delete (c, f) (foldr (λ f m, delete (c, f) m) m fs)).
  { clear. induction fs as [|g fs IH]; simpl; [done|]. by rewrite IH, delete_delete. }
  rewrite <-E. apply IH. intros g Hg. rewrite lookup_delete_ne by (intros [=]; congruence).
  apply Hin. by right.
Qed.

Lemma get_Add sub c f s :
  get c f (Add sub s) =
  if decide ((c, f) = (SubClientID sub, SubFilter sub)) then Some sub else get c f s.
Proof.
  unfold get, Add. simpl. destruct (decide (c = SubClientID sub)) as [->|Hc].
  - rewrite lookup_insert_eq. simpl. destruct (decide (f = SubFilter sub)) as [->|Hf].
    + by rewrite lookup_insert_eq, decide_True by done.
    + rewrite lookup_insert_ne, decide_False by congruence.
      destruct (byClient s !! _); simpl; by rewrite ?lookup_empty.
  - by rewrite lookup_insert_ne, decide_False by congruence.
Qed.

Lemma get_Remove c f c' f' s :
  get c' f' (Remove c f s) = if decide ((c', f') = (c, f)) then None else get c' f' s.
Proof.
  unfold Remove. destruct (byClient s !! c) as [cs|] eqn:Hc;
    [destruct (cs !! f) as [x|] eqn:Hf|].
  2, 3: case_decide as E; [|done]; injection E as -> ->; unfold get; rewrite Hc; done.
  unfold get. simpl. destruct (Nat.eqb_spec (size (delete f cs)) 0) as [Hz|Hz].
  - apply map_size_empty_inv in Hz. destruct (decide (c' = c)) as [->|].
    + rewrite lookup_delete_eq, Hc. simpl. case_decide as E; [done|].
      assert (H : delete f cs !! f' = None) by by rewrite Hz.
      rewrite lookup_delete_ne in H by congruence. done.
    + by rewrite lookup_delete_ne, decide_False by congruence.
  - destruct (decide (c' = c)) as [->|].
    + rewrite lookup_insert_eq, Hc. simpl. destruct (decide (f' = f)) as [->|].
      * by rewrite lookup_delete_eq, decide_True by done.
      * by rewrite lookup_delete_ne, decide_False by congruence.
    + by rewrite lookup_insert_ne, decide_False by congruence.
Qed.

Lemma sub_sim_add s m sub : sub_sim s m →
  sub_sim (Add sub s) (<[(SubClientID sub, SubFilter sub) := sub]> m).
Proof.
  intros (HT & Hk & Hg). split_and!.
  - pose proof (trie_sim_add _ _ _ sub HT) as HT'. simpl in HT'.
    unfold Add. simpl. fold (levels (SubFilter sub)).
    replace (if negb _ then _ else _) with
      (if decide (m !! (SubClientID sub, SubFilter sub) = None) then count s + 1 else count s);
      [done|].
    rewrite <-Hg. unfold get. destruct (byClient s !! SubClientID sub) as [cs|]; simpl.
    + by destruct (cs !! SubFilter sub).
    + by rewrite lookup_empty.
  - intros c f x [[[= <- <-] <-]|[_ Hx]]%lookup_insert_Some; [done|by apply Hk].
  - intros c f. rewrite get_Add. case_decide as E; [injection E as -> ->; by rewrite lookup_insert_eq|].
    rewrite lookup_insert_ne; [apply Hg|congruence].
Qed.

Lemma sub_sim_remove s m c f : sub_sim s m → sub_sim (Remove c f s) (delete (c, f) m).
Proof.
  intros (HT & Hk & Hg). split_and!.
  - pose proof (Hg c f) as Hcf. unfold get in Hcf. unfold Remove.
    destruct (byClient s !! c) as [cs|] eqn:Hc; [destruct (cs !! f) as [x|] eqn:Hf|];
      simpl in Hcf; rewrite ?Hf in Hcf.
    + apply trie_sim_remove; [done|]. by rewrite <-Hcf.
    + by rewrite delete_id.
    + by rewrite delete_id.
  - intros c' f' x [_ Hx]%lookup_delete_Some. by apply Hk.
  - intros c' f'. rewrite get_Remove. case_decide as E; [injection E as -> ->; by rewrite lookup_delete_eq|].
    rewrite lookup_delete_ne; [apply Hg|congruence].
Qed.

Lemma foldr_delete_lookup (c : string) (fs : list string) (m : spec) k :
  foldr (λ f m, delete (c, f) m) m fs !! k =
  if decide (k.1 = c ∧ k.2 ∈ fs) then None else m !! k.
Proof.
  induction fs as [|f fs IH]; simpl; [by rewrite decide_False by set_solver|].
  destruct (decide (k = (c, f))) as [->|Hk].
  - rewrite lookup_delete_eq, decide_True; [done|]. split; [done|left].
  - rewrite lookup_delete_ne, IH by done.
    destruct k as [c' f']. simpl in *. repeat case_decide; set_solver.
Qed.

Lemma sub_sim_remove_all s m c : sub_sim s m →
  sub_sim (RemoveAll order c s) (filter (λ kv, kv.1.1 ≠ c) m).
Proof.
  intros (HT & Hk & Hg).
  assert (Hkeys : keys_ok (filter (λ kv, kv.1.1 ≠ c) m)).
  { intros c' f' x [Hx _]%map_lookup_filter_Some. by apply Hk. }
  unfold RemoveAll. destruct (byClient s !! c) as [cs|] eqn:Hc.
  - assert (Hfs : ∀ f, f ∈ (order cs).*1 ↔ is_Some (m !! (c, f))).
    { intros f. rewrite <-Hg. unfold get. rewrite Hc. simpl. rewrite (order_perm cs).
      rewrite list_elem_of_fmap. split.
      - intros ([f' x] & -> & Hx%elem_of_map_to_list). by exists x.
      - intros [x Hx]. exists (f, x). split; [done|by apply elem_of_map_to_list]. }
    pose proof (trie_sim_remove_all c (order cs).*1 _ _ _ HT) as HT'.
    destruct (fold_left (remove_one c) (order cs).*1 (root s, count s)) as [r' n'].
    assert (E : foldr (λ f m, delete (c, f) m) m (order cs).*1 = filter (λ kv, kv.1.1 ≠ c) m).
    { apply map_eq. intros [c' f']. rewrite foldr_delete_lookup, map_lookup_filter. simpl.
      destruct (m !! (c', f')) as [x|] eqn:Ex; simpl; [|by case_decide].
      destruct (decide (c' = c)) as [->|Hne].
      - rewrite decide_True by (split; [done|by apply Hfs]). by rewrite option_guard_False by tauto.
      - rewrite decide_False by tauto. by rewrite option_guard_True. }
    split_and!; [|done|].
    + rewrite <-E. apply HT'; [|intros f; apply Hfs]. rewrite (order_perm cs). apply NoDup_fst_map_to_list.
    + intros c' f'. unfold get. simpl. rewrite <-E, foldr_delete_lookup. simpl.
      destruct (decide (c' = c)) as [->|Hne].
      * rewrite lookup_delete_eq. simpl. case_decide as Hd; [done|].
        destruct (m !! (c, f')) eqn:Em; [|done]. destruct Hd. split; [done|]. by apply Hfs.
      * rewrite lookup_delete_ne, decide_False by naive_solver. apply Hg.
  - assert (E : filter (λ kv, kv.1.1 ≠ c) m = m).
    { apply map_filter_id. intros [c' f'] x Hx. simpl. intros ->.
      rewrite <-Hg in Hx. unfold get in Hx. by rewrite Hc in Hx. }
    by rewrite E.
Qed.

Lemma sub_sim_run ops : ∀ s m, sub_sim s m →
  sub_sim (fold_left run_sub ops s) (fold_left spec_sub ops m).
Proof.
  induction ops as [|[sub|c f|c] ops IH]; intros s m H; simpl; [done|..]; apply IH;
    [by apply sub_sim_add|by apply sub_sim_remove|by apply sub_sim_remove_all].
Qed.

Lemma sub_sim_new : sub_sim NewSubscriptionStore ∅.
Proof.
  split_and!; [split|..]; simpl.
  - intros ls c sub. rewrite tbound_new. setoid_rewrite lookup_empty. naive_solver.
  - done.
  - intros c f sub. by rewrite lookup_empty.
  - intros c f. unfold get. simpl. by rewrite !lookup_empty.
Qed.

(** The clients of the deduplicated list are the keys of the map. *)
Lemma values_clients l seen : best_of l seen →
  SubClientID <$> values order seen ≡ₚ (map_to_list seen).*1.
Proof.
  intros Hb. unfold values. rewrite (order_perm seen), <-list_fmap_compose.
  rewrite (list_fmap_ext (SubClientID ∘ snd) fst (map_to_list seen)); [done|].
  intros i [c x] Hi. simpl.
  apply list_elem_of_lookup_2, elem_of_map_to_list in Hi.
  specialize (Hb c). rewrite Hi in Hb. by destruct Hb as (_ & ? & _).
Qed.

Lemma Match_best topic s m : sub_sim s m →
  ∃ l seen, Match order topic s = values order seen ∧ best_of l seen ∧
    ∀ sub, sub ∈ l ↔ ∃ c f, m !! (c, f) = Some sub ∧ mqtt_match (levels f) (levels topic).
Proof.
  intros ([Hb _] & _ & _). exists (matchLevel order (root s) (levels topic) []). eexists.
  split_and!; [done|apply (fold_dedupe _ []); intros c; rewrite lookup_empty; set_solver|].
  intros sub. rewrite matchLevel_elem, elem_of_nil. split.
  - intros [[]|(p & c & (f & <- & Hf)%Hb & Hm)]. eauto.
  - intros (c & f & Hf & Hm). right. exists (levels f), c. split; [|done]. apply Hb. eauto.
Qed.

(** The subscription store implements a map from client and filter to
    subscription under every sequence of additions and removals: the counter is
    the size of that map, the queries by client and by filter return its
    entries, and matching a topic returns exactly one subscription for each
    client that has a matching filter, one with the highest QoS among them. *)
Theorem subscription_store_refines ops topic :
  let s := fold_left run_sub ops NewSubscriptionStore in
  let m := fold_left spec_sub ops ∅ in
  Count s = Z.of_nat (size m) ∧
  (∀ c sub, sub ∈ GetForClient order c s ↔ ∃ f, m !! (c, f) = Some sub) ∧
  (∀ f sub, sub ∈ GetByFilter order f s ↔ ∃ c, m !! (c, f) = Some sub) ∧
  NoDup (SubClientID <$> Match order topic s) ∧
  (∀ sub, sub ∈ Match order topic s → ∃ c f,
     m !! (c, f) = Some sub ∧ mqtt_match (levels f) (levels topic) ∧
     ∀ f' sub', m !! (c, f') = Some sub' → mqtt_match (levels f') (levels topic) →
       SubscriptionQoS sub' <= SubscriptionQoS sub) ∧
  (∀ c f sub, m !! (c, f) = Some sub → mqtt_match (levels f) (levels topic) →
     c ∈ SubClientID <$> Match order topic s).
Proof.
  intros s m. pose proof (sub_sim_run ops _ _ sub_sim_new) as HS. fold s m in HS.
  pose proof HS as (HT & Hk & Hg). destruct (Match_best topic s m HS) as (l & seen & -> & Hb & Hl).
  split_and!.
  - apply HT.
  - intros c sub. unfold GetForClient. setoid_rewrite <-Hg. unfold get.
    destruct (byClient s !! c); simpl; [by apply elem_of_values|]. set_solver.
  - intros f sub. setoid_rewrite <-(trie_sim_bound _ _ _ _ _ HT). unfold GetByFilter, tbound.
    fold (levels f). destruct (node_at (levels f) (root s)); [by apply elem_of_values|].
    setoid_rewrite lookup_empty. set_solver.
  - rewrite values_clients by done. apply NoDup_fst_map_to_list.
  - intros sub (c & Hc)%elem_of_values. pose proof (Hb c) as Hbc. rewrite Hc in Hbc.
    destruct Hbc as (Hin & Hcl & Hmax). apply Hl in Hin as (c' & f & Hf & Hm).
    destruct (Hk _ _ _ Hf) as [<- _]. exists (SubClientID sub), f. split_and!; [done..|].
    intros f' sub' Hf' Hm'. destruct (Hk _ _ _ Hf') as [Hc' _]. apply Hmax; [|congruence].
    apply Hl. eauto.
  - intros c f sub Hf Hm. rewrite values_clients by done. pose proof (Hb c) as Hbc.
    destruct (seen !! c) as [x|] eqn:Hc.
    + apply list_elem_of_fmap. exists (c, x). split; [done|]. by apply elem_of_map_to_list.
    + destruct (Hk _ _ _ Hf) as [Hcl _]. destruct (Hbc sub); [apply Hl; eauto|done].
Qed.

End facts.

Definition ex_sub (c f : string) (q : Z) : Subscription :=
  mkSubscription c f None (mkSubscribeOptions false false 0 EmptyString EmptyString) q.

Lemma subscription_store_refines_witness :
  let s := fold_left (run_sub map_to_list)
    [OpAdd (ex_sub "c" "a/+" 0); OpAdd (ex_sub "c" "a/#" 2); OpAdd (ex_sub "d" "b" 1);
     OpRemoveAll "d"] NewSubscriptionStore in
  Count s = 2 ∧ Match map_to_list "a/b" s = [ex_sub "c" "a/#" 2].
Proof.
  split; [|by vm_compute].
  refine (eq_trans (proj1 (subscription_store_refines map_to_list (λ m, reflexivity _) _ "a/b")) _).
  by vm_compute.
Defined.

End SubsFacts.

(** ** retained.go and message.go *)

Module Retained.
Section retained.
Context {M : Type}.
Notation envelope := (MemLog.Envelope M).
Notation data := (gmap string envelope).
Context (order : data → list (string * envelope)).

(** [message.Release] of a map entry; a nil envelope is ignored. *)
Definition released (topic : string) (d : data) : list envelope := option_list (d !! topic).

Definition Retained_Set (topic : string) (msg : option envelope) (d : data) : data * list envelope :=
  match msg with
  | None => (delete topic d, released topic d)
  | Some m =>
      if (length (MemLog.EPayload m) =? 0)%nat then (delete topic d, released topic d)
      else (<[topic := m]> d, released topic d)
  end.

Definition Retained_Get (topic : string) (d : data) : outcome StorageErr envelope :=
  match d !! topic with None => Fail ErrNotFound | Some m => Ret m end.

Definition Retained_Delete (topic : string) (d : data) : data * list envelope :=
  (delete topic d, released topic d).

Definition Retained_Match (filter : string) (d : data) : list envelope :=
  if str_eqb filter hash_lvl
  then omap (λ kv, if negb (HasPrefix kv.1 "$") then Some kv.2 else None) (order d)
  else omap (λ kv, if TopicMatch filter kv.1 then Some kv.2 else None) (order d).

(** The message store of [message.go]: the same map under message keys. *)
Definition Message_Store (key : string) (msg : envelope) (d : data) : data * list envelope :=
  (<[key := msg]> d, released key d).
Definition Message_Get (key : string) (d : data) : outcome StorageErr envelope :=
  match d !! key with None => Fail ErrNotFound | Some m => Ret m end.
Definition Message_Delete (key : string) (d : data) : data * list envelope :=
  (delete key d, released key d).
Definition Message_List (prefix : string) (d : data) : list envelope :=
  omap (λ kv, if HasPrefix kv.1 prefix then Some kv.2 else None) (order d).

(** One round of the loop of [DeleteByPrefix]. *)
Definition delete_one (prefix : string) (acc : data * list envelope) (key : string) :
    data * list envelope :=
  if HasPrefix key prefix then (delete key acc.1, acc.2 ++ released key acc.1) else acc.
Definition DeleteByPrefix (prefix : string) (d : data) : data * list envelope :=
  fold_left (delete_one prefix) (order d).*1 (d, []).

End retained.
End Retained.

(** ** will.go *)

Module Will.

Record WillMessage := mkWillMessage {
  WPayload : list byte;
  WClientID : string;
  WTopic : string;
  WProperties : gmap string string;
  Delay : Z;
  Expiry : Z;
  WQoS : Z;
  WRetain : bool
}.

(** The zero time is [None]. *)
Record willEntry := mkWillEntry { will : option WillMessage; disconnedAt : option Z }.

Notation data := (gmap string willEntry).

Section wills.
Context (order : data → list (string * willEntry)).

Definition Will_Set (clientID : string) (w : option WillMessage) (now : Z) (d : data) : data :=
  <[clientID := mkWillEntry w (Some now)]> d.

Definition Will_Get (clientID : string) (d : data) : outcome StorageErr (option WillMessage) :=
  match d !! clientID with None => Fail ErrNotFound | Some e => Ret (will e) end.

Definition Will_Delete (clientID : string) (d : data) : data := delete clientID d.

Definition MarkDisconnected (clientID : string) (now : Z) (d : data) :
    outcome StorageErr unit * data :=
  match d !! clientID with
  | None => (Fail ErrNotFound, d)
  | Some e => (Ret tt, <[clientID := mkWillEntry (will e) (Some now)]> d)
  end.

(** [disconnedAt.Add(time.Duration(Delay) * time.Second)] in nanoseconds; a
    [uint32] of seconds fits in a [Duration]. *)
Definition triggerTime (at_ : Z) (w : WillMessage) : Z := at_ + Delay w * 1000000000.

Fixpoint pending_loop (before : Z) (entries : list (string * willEntry)) :
    outcome StorageErr (list WillMessage) :=
  match entries with
  | [] => Ret []
  | (_, e) :: rest =>
      match disconnedAt e with
      | None => pending_loop before rest
      | Some at_ =>
          match will e with
          | None => Panic
          | Some w =>
              ws ← pending_loop before rest;
              if (triggerTime at_ w <? before) || (triggerTime at_ w =? before)
              then Ret (w :: ws) else Ret ws
          end
      end
  end.

Definition GetPending (before : Z) (d : data) : outcome StorageErr (list WillMessage) :=
  pending_loop before (order d).

Definition GetPendingForClient (clientID : string) (before : Z) (d : data) :
    outcome StorageErr WillMessage :=
  match d !! clientID with
  | None => Fail ErrNotFound
  | Some e =>
      match disconnedAt e with
      | None => Fail ErrNotFound
      | Some at_ =>
          match will e with
          | None => Panic
          | Some w => if before <? triggerTime at_ w then Fail ErrNotFound else Ret w
          end
      end
  end.

End wills.
End Will.

(** ** session.go *)

Module Sessions.

Record Session := mkSession {
  ConnectedAt : Z;
  DisconnectedAt : Z;
  SClientID : string;
  ExternalID : string;
  ExpiryInterval : Z;
  MaxPacketSize : Z;
  ReceiveMaximum : Z;
  TopicAliasMax : Z;
  Version : Z;
  CleanStart : bool;
  Connected : bool;
  RequestResponse : bool;
  RequestProblem : bool
}.

Notation data := (gmap string Session).

Section sessions.
Context (order : data → list (string * Session)).

Definition Session_Get (clientID : string) (d : data) : outcome StorageErr Session :=
  match d !! clientID with None => Fail ErrNotFound | Some s => Ret s end.
Definition Session_Save (session : Session) (d : data) : data := <[SClientID session := session]> d.
Definition Session_Delete (clientID : string) (d : data) : data := delete clientID d.
Definition Session_GetExpired (before : Z) (d : data) : list string :=
  omap (λ kv : string * Session,
    if negb (Connected kv.2) && (0 <? ExpiryInterval kv.2)
       && (DisconnectedAt kv.2 + ExpiryInterval kv.2 * 1000000000 <? before)
    then Some kv.1 else None) (order d).
Definition Session_List (d : data) : list Session := (order d).*2.

End sessions.
End Sessions.

(** * Properties of the map stores *)

Module StoreFacts.
Import Retained Will Sessions.

Lemma omap_perm {A B} (f : A → option B) l1 l2 : l1 ≡ₚ l2 → omap f l1 ≡ₚ omap f l2.
Proof. intros H. by rewrite H. Qed.

Lemma HasPrefix_dollar s : HasPrefix s "$" = starts_with_dollar s.
Proof.
  destruct s as [|c s]; [done|]. unfold HasPrefix, starts_with_dollar. cbn [String.prefix first_byte].
  destruct (Ascii.ascii_dec "$" c) as [<-|Hc]; [by destruct s|].
  symmetry. apply Ascii.eqb_neq. unfold dollar. congruence.
Qed.

Lemma TopicMatch_hash topic :
  TopicMatch hash_lvl topic =
  negb (str_eqb topic EmptyString) && negb (starts_with_dollar topic).
Proof.
  apply eq_bool_prop_intro. rewrite !Is_true_true, andb_true_iff, !negb_true_iff, str_eqb_false.
  rewrite TopicMatch_iff. unfold dollar_compatible. split.
  - intros (_ & ? & Hd & _). split; [done|]. destruct (starts_with_dollar topic); [|done].
    by specialize (Hd eq_refl).
  - intros [? Hd]. split_and!; [done..| |constructor]. rewrite Hd. done.
Qed.

Section retained.
Context {M : Type}.
Notation envelope := (MemLog.Envelope M).
Context (order : gmap string envelope → list (string * envelope)).
Context (order_perm : ∀ d, order d ≡ₚ map_to_list d).

Inductive retained_op := OpSet (topic : string) (msg : option envelope) | OpDelete (topic : string).

(** The clone a successful [Set] takes. *)
Definition clones (o : retained_op) : list envelope :=
  match o with
  | OpSet _ (Some m) => if (length (MemLog.EPayload m) =? 0)%nat then [] else [m]
  | _ => []
  end.

Definition retained_step (o : retained_op) (d : gmap string envelope) :
    gmap string envelope * list envelope :=
  match o with OpSet t m => Retained_Set t m d | OpDelete t => Retained_Delete t d end.

Fixpoint retained_run (ops : list retained_op) (d : gmap string envelope) :
    gmap string envelope * list envelope * list envelope :=
  match ops with
  | [] => (d, [], [])
  | o :: ops =>
      let '(d', rel) := retained_step o d in
      let '(d'', taken, rel') := retained_run ops d' in
      (d'', clones o ++ taken, rel ++ rel')
  end.

Definition stored_envelopes (d : gmap string envelope) : list envelope := (map_to_list d).*2.

Lemma stored_delete t d :
  stored_envelopes d ≡ₚ stored_envelopes (delete t d) ++ released t d.
Proof.
  unfold stored_envelopes, released. destruct (d !! t) as [m|] eqn:E; simpl.
  - rewrite <-(insert_delete_id d t m E) at 1.
    rewrite map_to_list_insert by apply lookup_delete_eq. simpl.
    by rewrite Permutation_app_comm.
  - by rewrite delete_id, app_nil_r.
Qed.

Lemma stored_insert t m d :
  stored_envelopes (<[t := m]> d) ++ released t d ≡ₚ m :: stored_envelopes d.
Proof.
  rewrite (stored_delete t d). unfold stored_envelopes at 1. rewrite <-insert_delete_eq.
  rewrite map_to_list_insert by apply lookup_delete_eq. done.
Qed.

Lemma retained_step_owned o d :
  clones o ++ stored_envelopes d ≡ₚ
  stored_envelopes (retained_step o d).1 ++ (retained_step o d).2.
Proof.
  destruct o as [t [m|]|t]; simpl; [|apply stored_delete..].
  destruct (_ =? 0)%nat; simpl; [apply stored_delete|]. by rewrite stored_insert.
Qed.

Lemma retained_run_owned ops : ∀ d,
  let '(d', taken, rel) := retained_run ops d in
  taken ++ stored_envelopes d ≡ₚ stored_envelopes d' ++ rel.
Proof.
  induction ops as [|o ops IH]; intros d; simpl; [by rewrite app_nil_r|].
  pose proof (retained_step_owned o d) as Ho. destruct (retained_step o d) as [d1 rel1].
  specialize (IH d1). destruct (retained_run ops d1) as [[d2 taken] rel2]. simpl in Ho.
  rewrite (Permutation_app_comm (clones o)), <-app_assoc, Ho, app_assoc, IH.
  rewrite <-app_assoc. f_equiv. apply Permutation_app_comm.
Qed.

(** The retained store answers a subscription with exactly the messages of
    the topics [TopicMatch] accepts, the special case of the filter [#]
    included, as long as no message is retained under the empty topic; and
    over any history each clone it took is stored or released exactly once. *)
Theorem retained_match_scan ops flt :
  let '(d, taken, rel) := retained_run ops ∅ in
  taken ≡ₚ stored_envelopes d ++ rel ∧
  (d !! EmptyString = None →
   Retained_Match order flt d ≡ₚ
   omap (λ kv, if TopicMatch flt kv.1 then Some kv.2 else None) (map_to_list d)).
Proof.
  pose proof (retained_run_owned ops ∅) as HO.
  destruct (retained_run ops ∅) as [[d taken] rel]. split.
  { unfold stored_envelopes at 1 in HO. by rewrite map_to_list_empty, app_nil_r in HO. }
  intros He. unfold Retained_Match. destruct (str_eqb flt hash_lvl) eqn:E;
    [|by apply omap_perm].
  apply str_eqb_true in E as ->. rewrite (omap_perm _ _ _ (order_perm d)).
  assert (Hext : ∀ l : list (string * envelope), (∀ kv, kv ∈ l → kv.1 ≠ EmptyString) →
    omap (λ kv, if negb (HasPrefix kv.1 "$") then Some kv.2 else None) l =
    omap (λ kv, if TopicMatch hash_lvl kv.1 then Some kv.2 else None) l).
  { induction l as [|[t m] l IH]; intros Hne; [done|]. csimpl.
    rewrite IH by set_solver. rewrite TopicMatch_hash, HasPrefix_dollar.
    by rewrite (proj2 (str_eqb_false t EmptyString)) by (apply (Hne (t, m)); left). }
  rewrite Hext; [done|]. intros [t m] Ht%elem_of_map_to_list E. simpl in E. subst t. congruence.
Qed.

(** Deleting by prefix deletes exactly the keys with the prefix, and releases
    what was stored under them. *)
Lemma delete_one_fold prefix ks : ∀ (d : gmap string envelope) rel,
  let '(d', rel') := fold_left (delete_one prefix) ks (d, rel) in
  (∀ k, d' !! k = if bool_decide (k ∈ ks) && HasPrefix k prefix then None else d !! k) ∧
  rel' ++ stored_envelopes d' ≡ₚ rel ++ stored_envelopes d.
Proof.
  induction ks as [|k ks IH]; intros d rel; simpl.
  { split; [|done]. intros k. done. }
  unfold delete_one at 2. simpl. destruct (HasPrefix k prefix) eqn:Hk.
  - specialize (IH (delete k d) (rel ++ released k d)).
    destruct (fold_left _ ks _) as [d' rel']. destruct IH as [Hl Hp]. split.
    + intros k'. rewrite Hl. destruct (decide (k' = k)) as [->|Hne].
      * rewrite lookup_delete_eq, Hk, (bool_decide_true (k ∈ k :: ks)) by left. by case_match.
      * rewrite lookup_delete_ne by done. by rewrite (bool_decide_ext (k' ∈ ks) (k' ∈ k :: ks)) by set_solver.
    + rewrite Hp, (stored_delete k d), <-app_assoc. f_equiv. apply Permutation_app_comm.
  - specialize (IH d rel). destruct (fold_left _ ks _) as [d' rel']. destruct IH as [Hl Hp].
    split; [|done]. intros k'. rewrite Hl. destruct (decide (k' = k)) as [->|Hne].
    + by rewrite Hk, !andb_false_r.
    + by rewrite (bool_decide_ext (k' ∈ ks) (k' ∈ k :: ks)) by set_solver.
Qed.

Lemma DeleteByPrefix_spec prefix (d : gmap string envelope) :
  let '(d', rel) := DeleteByPrefix order prefix d in
  (∀ k, d' !! k = if HasPrefix k prefix then None else d !! k) ∧
  rel ++ stored_envelopes d' ≡ₚ stored_envelopes d.
Proof.
  unfold DeleteByPrefix. pose proof (delete_one_fold prefix (order d).*1 d []) as H.
  destruct (fold_left _ _ _) as [d' rel]. destruct H as [Hl Hp]. split; [|done].
  intros k. rewrite Hl. destruct (HasPrefix k prefix); rewrite ?andb_false_r; [|done].
  rewrite andb_true_r. case_bool_decide as Hk; [done|]. apply eq_None_not_Some. intros [m Hm].
  apply Hk. rewrite (order_perm d). apply list_elem_of_fmap. exists (k, m).
  split; [done|]. by apply elem_of_map_to_list.
Qed.

End retained.

Definition ex_env (topic : string) : MemLog.Envelope unit :=
  MemLog.mkEnvelope topic [x01] EmptyString ∅ EmptyString 0 None tt.

Lemma retained_match_scan_witness :
  Retained_Match map_to_list "#"
    (retained_run [OpSet "a" (Some (ex_env "a")); OpSet "$s" (Some (ex_env "$s"))] ∅).1.1
  ≡ₚ [ex_env "a"].
Proof.
  etrans; [|by vm_compute].
  apply (retained_match_scan map_to_list (λ d, reflexivity _)
    [OpSet "a" (Some (ex_env "a")); OpSet "$s" (Some (ex_env "$s"))] "#").
  by vm_compute.
Defined.

(** ** Wills *)

Section wills.
Context (order : gmap string willEntry → list (string * willEntry)).
Context (order_perm : ∀ d, order d ≡ₚ map_to_list d).

(** No nil will is stored. *)
Definition wills_ok (d : gmap string willEntry) : Prop :=
  ∀ c e, d !! c = Some e → is_Some (will e).

Definition due (before : Z) (e : willEntry) (w : WillMessage) : Prop :=
  will e = Some w ∧ ∃ t, disconnedAt e = Some t ∧ triggerTime t w <= before.

Lemma pending_loop_spec before l : (∀ c e, (c, e) ∈ l → is_Some (will e)) →
  ∃ ws, pending_loop before l = Ret ws ∧ ∀ w, w ∈ ws ↔ ∃ c e, (c, e) ∈ l ∧ due before e w.
Proof.
  induction l as [|[c e] l IH]; intros Hok; simpl.
  { exists []. split; [done|]. set_solver. }
  destruct IH as (ws & -> & Hws); [set_solver|].
  destruct (Hok c e) as [w0 Hw0]; [left|]. rewrite Hw0.
  destruct (disconnedAt e) as [t|] eqn:Ht; simpl.
  - assert (E : (triggerTime t w0 <? before) || (triggerTime t w0 =? before) =
      (triggerTime t w0 <=? before)) by lia.
    rewrite E. destruct (Z.leb_spec (triggerTime t w0) before).
    + eexists. split; [done|]. intros w. rewrite elem_of_cons, Hws. split.
      * intros [->|(c' & e' & ? & ?)]; [exists c, e|exists c', e'].
        { split; [left|]. split; [done|]. eauto. }
        split; [by right|done].
      * intros (c' & e' & [[= -> ->]|Hin]%elem_of_cons & Hd); [|right; eauto].
        left. destruct Hd as (Hw & _). congruence.
    + exists ws. split; [done|]. intros w. rewrite Hws. split; [set_solver|].
      intros (c' & e' & [[= -> ->]|Hin]%elem_of_cons & Hd); [|eauto].
      destruct Hd as (Hw & t' & Ht' & Hle). simplify_eq. lia.
  - exists ws. split; [done|]. intros w. rewrite Hws. split; [set_solver|].
    intros (c' & e' & [[= -> ->]|Hin]%elem_of_cons & Hd); [|eauto].
    destruct Hd as (_ & t & Ht' & _). congruence.
Qed.

Lemma GetPendingForClient_due c before d w : wills_ok d →
  GetPendingForClient c before d = Ret w ↔ ∃ e, d !! c = Some e ∧ due before e w.
Proof.
  intros Hok. unfold GetPendingForClient, due. destruct (d !! c) as [e|] eqn:Hc; [|naive_solver].
  destruct (Hok _ _ Hc) as [w0 Hw0]. rewrite Hw0. destruct (disconnedAt e) as [t|] eqn:Ht.
  - destruct (Z.ltb_spec before (triggerTime t w0)); split.
    + done.
    + intros (e' & [= <-] & Hw & t' & Ht' & ?). simplify_eq. lia.
    + intros [= <-]. eauto 10.
    + intros (e' & [= <-] & Hw & t' & Ht' & ?). simplify_eq. done.
  - naive_solver.
Qed.

(** A will stored at disconnection is pending for its client exactly from the
    moment its delay has passed, and in every store without nil wills the scan
    of all wills returns exactly the wills the per-client query returns, so
    revalidating a scanned will by client loses none. *)
Theorem will_delay d c w now before :
  wills_ok d →
  let d' := Will_Set c (Some w) now d in
  (GetPendingForClient c before d' =
     if before <? now + Delay w * 1000000000 then Fail ErrNotFound else Ret w) ∧
  ∃ ws, GetPending order before d' = Ret ws ∧
    ∀ x, x ∈ ws ↔ ∃ c', GetPendingForClient c' before d' = Ret x.
Proof.
  intros Hok d'. assert (Hok' : wills_ok d').
  { unfold d', Will_Set. intros c' e [[_ <-]|[_ He]]%lookup_insert_Some; [by eexists|by eapply Hok]. }
  split.
  { unfold GetPendingForClient, d', Will_Set. by rewrite lookup_insert_eq. }
  destruct (pending_loop_spec before (order d')) as (ws & Hws & Hin).
  { intros c' e He. rewrite (order_perm d') in He. apply elem_of_map_to_list in He. by eapply Hok'. }
  exists ws. split; [done|]. intros x. rewrite Hin. setoid_rewrite GetPendingForClient_due; [|done].
  setoid_rewrite (order_perm d'). setoid_rewrite elem_of_map_to_list. done.
Qed.

End wills.

Lemma will_delay_witness :
  GetPendingForClient "c" 5 (Will_Set "c" (Some (mkWillMessage [] "c" "t" ∅ 0 0 0 false)) 4 ∅) =
  Ret (mkWillMessage [] "c" "t" ∅ 0 0 0 false).
Proof.
  exact (proj1 (will_delay map_to_list (λ d, reflexivity _) ∅ "c"
    (mkWillMessage [] "c" "t" ∅ 0 0 0 false) 4 5 ltac:(intros ? ? H; by rewrite lookup_empty in H))).
Defined.

(** ** Sessions *)

(** A session that is connected or has no expiry interval never expires. *)
Lemma Session_GetExpired_spec (order : gmap string Session → list (string * Session)) before d c :
  (∀ d, order d ≡ₚ map_to_list d) →
  c ∈ Session_GetExpired order before d ↔
  ∃ s, d !! c = Some s ∧ Connected s = false ∧ 0 < ExpiryInterval s ∧
    DisconnectedAt s + ExpiryInterval s * 1000000000 < before.
Proof.
  intros order_perm. unfold Session_GetExpired. rewrite list_elem_of_omap. split.
  - intros ([k s] & Hin & Hc). rewrite (order_perm d) in Hin. apply elem_of_map_to_list in Hin.
    simpl in Hc. case_match eqn:E; simplify_eq. bool_prop. eauto.
  - intros (s & Hs & Hconn & Hexp & Hlt). exists (c, s). rewrite (order_perm d). split.
    + by apply elem_of_map_to_list.
    + simpl. rewrite Hconn, (proj2 (Z.ltb_lt 0 (ExpiryInterval s))) by done. simpl.
      by rewrite (proj2 (Z.ltb_lt _ before)) by done.
Qed.

End StoreFacts.
