(* ===== verification/SessionEncode.v ===== *)
(** * PUBLISH packets of a delivery (src/mqtt/session/encode.go)

    [encodePublish] turns an envelope into the PUBLISH packet of the
    connection's protocol version.  It joins four modelled parts: the envelope
    and its payload heap, the projection of broker metadata, the packet pools
    and the two packet formats.  The packets the pools hand out, the order in
    which Go walks the projected map and [time.Now] are arguments.

    Theorem: a subscriber that reads the bytes of a delivery gets the topic, the
    payload, the flags and, in MQTT 5.0, exactly the public projection of the
    envelope as user properties. *)

From Stdlib Require Import ZArith Lia Bool Ascii String Strings.Byte.
From stdpp Require Import gmultiset prelude gmap strings.
From S2P Require Import Prelude GoStrings Strconv Payload Envelope Codec Packets PacketsV3.
From S2P Require Import PropertiesV5 PacketsV5 Inflight.

Module SessionEncode.
Import Message V5.

(** ** [Duration.Seconds]

    [float64(sec) + float64(nsec)/1e9], truncated by a conversion to an integer.
    [round53 n d] is the quotient of two positive integers rounded to 53
    significant bits, ties to even, as a fraction. *)
Definition round53 (n d : Z) : Z * Z :=
  let e0 := Z.log2 n - Z.log2 d in
  let below := if 0 <=? e0 then n <? d * 2 ^ e0 else n * 2 ^ (- e0) <? d in
  let shift := 52 - (if below then e0 - 1 else e0) in
  let num := n * 2 ^ Z.max 0 shift in
  let den := d * 2 ^ Z.max 0 (- shift) in
  let q := num / den in
  let twice := 2 * (num mod den) in
  let m := if (den <? twice) || ((den =? twice) && Z.odd q) then q + 1 else q in
  (m * 2 ^ Z.max 0 (- shift), 2 ^ Z.max 0 shift).

Definition Seconds (d : Z) : Z :=
  let sec := d / 1000000000 in
  let nsec := d mod 1000000000 in
  if nsec =? 0 then sec
  else
    let '(fn, fd) := round53 nsec 1000000000 in
    let '(sn, sd) := round53 (sec * fd + fn) fd in
    sn / sd.

(** ** encode.go *)

Inductive ControlPacket := V3Packet (cp : V3.ControlPacket) | V5Packet (cp : V5.ControlPacket).

Definition V5_version : Z := 5.

(** [projected] in the order the map is walked. *)
Definition applyPublishProperties (order : list (string * string))
    (props : option PublishProperties) (msg : option Envelope) : option PublishProperties :=
  match props, msg with
  | Some props, Some msg =>
      let pub := EPublisher msg in
      let props := props <| PP_ContentType := PM_ContentType pub |>
                         <| PP_ResponseTopic := PM_ResponseTopic pub |>
                         <| PP_CorrelationData := PM_CorrelationData pub |> in
      let props := match PM_PayloadFormat pub with
                   | Some v => props <| PP_PayloadFormat := Some v |>
                   | None => props
                   end in
      Some (match order with
            | [] => props
            | _ => props <| PP_User := (λ kv, mkUser kv.1 kv.2) <$> order |>
            end)
  | _, _ => props
  end.

(** [if MessageExpiry.IsSet() && !ExpiresAt.IsZero()]: the remaining interval. *)
Definition remainingExpiry (now : Z) (msg : Envelope) : option Z :=
  match PM_MessageExpiry (EPublisher msg), DM_ExpiresAt (BM_Delivery (EBroker msg)) with
  | Some _, Some t =>
      let remaining := Inflight.time_sub t now in
      if 0 <? remaining then Some (u32 (Seconds remaining)) else None
  | _, _ => None
  end.

(** [got5] is what the pool of the 5.0 packets hands out; of a 3.1.1 packet every
    field is assigned. *)
Definition encodePublish (now : Z) (order : list (string * string))
    (got5 : V5.Publish) (msg : Envelope) (packetID version : Z) (dup : bool) (qos : Z)
    (retain : bool) (s : pools) : ControlPacket * pools :=
  let fh := mkFixedHeader PublishType dup qos retain 0 in
  if version =? V5_version then
    let p := V5.AcquirePublish got5 in
    let '(ref, s') := RetainPayload msg s in
    let p := p <| V5.PublishHeader := fh |> <| V5.TopicName := ETopic msg |>
               <| V5.Payload := PayloadBytes msg s |> <| V5.PayloadRef := ref |>
               <| V5.PublishID := packetID |> in
    let p := match remainingExpiry now msg, V5.PublishProps p with
             | Some v, Some pp => p <| V5.PublishProps := Some (pp <| PP_MessageExpiry := Some v |>) |>
             | _, _ => p
             end in
    let p := p <| V5.PublishProps := applyPublishProperties order (V5.PublishProps p) (Some msg) |> in
    (V5Packet (V5.PPublish p), s')
  else
    let '(ref, s') := RetainPayload msg s in
    (V3Packet (V3.PPublish (V3.mkPublish fh (ETopic msg) ref packetID (PayloadBytes msg s))), s').

Definition EncodePublish (now : Z) (order : list (string * string))
    (got5 : V5.Publish) (msg : Envelope) (packetID version : Z) (dup : bool) (s : pools) :
    ControlPacket * pools :=
  let d := BM_Delivery (EBroker msg) in
  encodePublish now order got5 msg packetID version dup (DM_QoS d) (DM_Retain d) s.

Definition EncodePublishDelivery := encodePublish.

End SessionEncode.

(** * Properties *)

Module SessionEncodeFacts.
Import SessionEncode Message V5.

(** What the pool of PUBLISH packets holds: a new or a released packet
    ([publish_pool_clean]). *)
Definition pooled (got : V5.Publish) : Prop :=
  PublishProps (AcquirePublish got) = Some PublishProperties_zero.

Lemma pooled_new : pooled publishPool_New.
Proof. done. Qed.
Lemma pooled_released p q : ReleasePublish (Some p) = Some q → pooled q.2.
Proof. intros [= <-]. by destruct p as [? ? ? [[]|] ? ?]. Qed.

(** The fields of the envelope fit the packet. *)
Definition deliverable (msg : Envelope) (packetID qos : Z) : Prop :=
  str_ok (ETopic msg) ∧ 0 <= qos <= 2 ∧ (if 0 <? qos then u16_ok packetID else packetID = 0) ∧
  opt_ok u8_ok (PM_PayloadFormat (EPublisher msg)) ∧ str_ok (PM_ContentType (EPublisher msg)) ∧
  str_ok (PM_ResponseTopic (EPublisher msg)) ∧ bin_ok (PM_CorrelationData (EPublisher msg)) ∧
  map_Forall (λ k v, str_ok k ∧ str_ok v) (ProjectProperties msg PublicProjection).

(** The properties of the packet. *)
Definition delivered_props (now : Z) (order : list (string * string)) (msg : Envelope) :
    PublishProperties :=
  mkPublishProperties (PM_PayloadFormat (EPublisher msg)) (remainingExpiry now msg) None
    (PM_ResponseTopic (EPublisher msg)) (PM_CorrelationData (EPublisher msg))
    ((λ kv, mkUser kv.1 kv.2) <$> order) None (PM_ContentType (EPublisher msg)).

Lemma applyPublishProperties_blank now order msg :
  applyPublishProperties order
    (Some (match remainingExpiry now msg with
           | Some v => PublishProperties_zero <| PP_MessageExpiry := Some v |>
           | None => PublishProperties_zero
           end)) (Some msg) = Some (delivered_props now order msg).
Proof.
  unfold applyPublishProperties, delivered_props. destruct (remainingExpiry now msg), order,
    (PM_PayloadFormat (EPublisher msg)); reflexivity.
Qed.

Lemma delivered_props_ok now order msg packetID qos : deliverable msg packetID qos →
  order ≡ₚ map_to_list (ProjectProperties msg PublicProjection) →
  PublishProperties_ok (delivered_props now order msg).
Proof.
  intros (_ & _ & _ & Hf & Hc & Hr & Hb & Hp) Ho. split_and!; try done; cbn.
  - unfold remainingExpiry. intros v. repeat case_match; try done. intros [= <-].
    apply Z.mod_pos_bound. lia.
  - rewrite Forall_fmap, Ho. apply map_Forall_to_list in Hp. eapply Forall_impl; [exact Hp|].
    by intros [k v].
Qed.

Lemma delivered_props_nil pp : PublishProperties_ok pp → PublishProperties_Encode pp = [] →
  pp = PublishProperties_zero.
Proof.
  intros Hok He. pose proof (PublishProperties_unpacks pp Hok []) as H. rewrite He in H.
  rewrite !Unpack_props_nil in H. by injection H.
Qed.

Lemma norm_delivered pp : PublishProperties_ok pp →
  default PublishProperties_zero (norm_props PublishProperties_Encode (Some pp)) = pp.
Proof.
  intros Hok. unfold norm_props. cbn [mbind option_bind]. case_decide as E; [|done].
  by rewrite (delivered_props_nil pp).
Qed.

(** The payload reference of the sender is not on the wire. *)
Lemma Publish_Encode_ref p r : Publish_Encode (p <| PayloadRef := r |>) =
  (λ x, (x.1, x.2 <| PayloadRef := r |>)) <$> Publish_Encode p.
Proof.
  destruct p as [fh id topic pp ref pl].
  change (mkPublish fh id topic pp ref pl <| PayloadRef := r |>) with (mkPublish fh id topic pp r pl).
  unfold Publish_Encode, Publish_EncodeTo.
  cbn [PublishProps TopicName V5.Payload PublishHeader PublishID PayloadRef].
  cbv zeta. destruct pp as [pp|]; [|reflexivity].
  destruct (0 <? PublishProperties_encodedLen (Some pp)); reflexivity.
Qed.

Lemma Publish3_Encode_ref fh topic r id pl :
  (V3.Publish_Encode (V3.mkPublish fh topic r id pl)).1 =
  (V3.Publish_Encode (V3.mkPublish fh topic None id pl)).1.
Proof. done. Qed.

(** What a subscriber of version 5.0 and 3.1.1 has of a delivery. *)
Definition delivered5 (now : Z) (msg : Envelope) (packetID : Z) (dup : bool) (qos : Z)
    (retain : bool) (payload : list byte) (q : Publish) : Prop :=
  let pp := default PublishProperties_zero (PublishProps q) in
  TopicName q = ETopic msg ∧ V5.Payload q = payload ∧ PublishID q = packetID ∧
  QoS (PublishHeader q) = qos ∧ Packets.Retain (PublishHeader q) = retain ∧ Dup (PublishHeader q) = dup ∧
  PP_ContentType pp = PM_ContentType (EPublisher msg) ∧
  PP_ResponseTopic pp = PM_ResponseTopic (EPublisher msg) ∧
  PP_CorrelationData pp = PM_CorrelationData (EPublisher msg) ∧
  PP_PayloadFormat pp = PM_PayloadFormat (EPublisher msg) ∧
  PP_MessageExpiry pp = remainingExpiry now msg ∧
  NoDup (Key <$> PP_User pp) ∧
  list_to_map ((λ u, (Key u, Value u)) <$> PP_User pp) = ProjectProperties msg PublicProjection.

Definition delivered3 (msg : Envelope) (packetID : Z) (dup : bool) (qos : Z) (retain : bool)
    (payload : list byte) (q : V3.Publish) : Prop :=
  V3.TopicName q = ETopic msg ∧ V3.Payload q = payload ∧ V3.PublishID q = packetID ∧
  QoS (V3.PublishHeader q) = qos ∧ Packets.Retain (V3.PublishHeader q) = retain ∧
  Dup (V3.PublishHeader q) = dup.

Lemma users_of_order order (m : propmap) : order ≡ₚ map_to_list m →
  let us := (λ kv : string * string, mkUser kv.1 kv.2) <$> order in
  NoDup (Key <$> us) ∧ list_to_map ((λ u, (Key u, Value u)) <$> us) = m.
Proof.
  intros Ho us. assert (Hf : (λ u, (Key u, Value u)) <$> us = order).
  { unfold us. rewrite <-list_fmap_compose. rewrite <-(list_fmap_id order) at 2.
    apply list_fmap_ext. by intros ? []. }
  assert (Hk : Key <$> us = order.*1).
  { unfold us. rewrite <-list_fmap_compose. by apply list_fmap_ext. }
  assert (Hn : NoDup (order.*1)) by (rewrite Ho; apply NoDup_fst_map_to_list).
  split; [by rewrite Hk|]. rewrite Hf. rewrite <-(list_to_map_to_list m). by apply list_to_map_proper.
Qed.

Lemma publish_header_wf dup qos retain n : 0 <= qos <= 2 → 0 <= n < 2 ^ 28 →
  header_wf (set_RemainingLength n (mkFixedHeader PublishType dup qos retain 0)).
Proof.
  intros Hq Hn. split_and!; cbn; [|lia..]. unfold validateFlags. cbn.
  by rewrite (proj2 (Z.ltb_ge _ _)) by lia.
Qed.

Lemma encodePublish_v5 now order got5 msg packetID dup qos retain s : pooled got5 →
  encodePublish now order got5 msg packetID V5_version dup qos retain s =
  (V5Packet (PPublish (mkPublish (mkFixedHeader PublishType dup qos retain 0) packetID (ETopic msg)
     (Some (delivered_props now order msg)) (EPayload msg) (PayloadBytes msg s))),
   (RetainPayload msg s).2).
Proof.
  intros Hp. unfold encodePublish. rewrite Z.eqb_refl. cbn [RetainPayload snd].
  unfold pooled in Hp. destruct (AcquirePublish got5) as [h i t pp r pl].
  cbn [PublishProps] in Hp. subst pp. do 3 f_equal.
  destruct (remainingExpiry now msg) eqn:E; cbn; unfold delivered_props; rewrite E;
    destruct order, (PM_PayloadFormat (EPublisher msg)); reflexivity.
Qed.

(** The bytes of one packet and what a reader makes of them. *)
Lemma publish5_read p : fields_ok (PPublish (p <| PayloadRef := None |>)) →
  PacketType (PublishHeader p) = PublishType →
  (∀ b, PacketsV5.body (PPublish p) = Ret b →
     header_wf (set_RemainingLength (Z.of_nat (length b)) (PublishHeader p))) →
  ∃ bs p', Encode (PPublish p) = Ret (bs, p') ∧ ∀ rest err, ∃ n,
    ReadPacket (mkReader (bs ++ rest) err) =
    Ret (PPublish (p <| PublishHeader := set_RemainingLength n (PublishHeader p) |>
                     <| PublishProps := norm_props PublishProperties_Encode (PublishProps p) |>
                     <| PayloadRef := None |>), mkReader rest err).
Proof.
  intros Hok Ht Hh. set (p0 := p <| PayloadRef := None |>).
  destruct (PacketsV5.body (PPublish p)) as [b| |] eqn:Eb; [|done..]. specialize (Hh b eq_refl).
  assert (Hwf : packet_wf5 (PPublish p0) b) by done.
  pose proof (Encode_body5 _ _ Hwf) as He. cbn [Encode] in He.
  unfold p0 in He. rewrite Publish_Encode_ref in He. cbn [Encode].
  destruct (Publish_Encode p) as [[bs p']| |]; [|done..]. cbn in He.
  exists bs, (PPublish p'). split; [done|]. intros rest err. exists (Z.of_nat (length b)).
  apply Ret_inj in He. apply (f_equal fst) in He. cbn [fst] in He. rewrite He.
  unfold ReadPacket. by rewrite (ReadPacketLimit_encoded5 (PPublish p0) b) by (done || by left).
Qed.

Lemma publish3_read p : PacketsV3.body_ok (V3.PPublish (V3.mkPublish (V3.PublishHeader p) (V3.TopicName p)
    None (V3.PublishID p) (V3.Payload p))) →
  PacketType (V3.PublishHeader p) = PublishType →
  header_wf (set_RemainingLength (Z.of_nat (length (PacketsV3.body (V3.PPublish p)))) (V3.PublishHeader p)) →
  ∃ bs p', V3.Encode (V3.PPublish p) = Ret (bs, p') ∧ ∀ rest err, ∃ n,
    V3.ReadPacket (mkReader (bs ++ rest) err) =
    Ret (V3.PPublish (V3.mkPublish (set_RemainingLength n (V3.PublishHeader p)) (V3.TopicName p) None
           (V3.PublishID p) (V3.Payload p)), mkReader rest err).
Proof.
  intros Hok Ht Hh. set (p0 := V3.mkPublish (V3.PublishHeader p) (V3.TopicName p) None
    (V3.PublishID p) (V3.Payload p)).
  assert (Hwf : PacketsV3.packet_wf (V3.PPublish p0)) by done.
  pose proof (PacketsV3.Encode_body _ Hwf) as He. cbn [V3.Encode] in He |- *.
  destruct (V3.Publish_Encode p) as [bs p'] eqn:Ep.
  assert (Hbs : (V3.Publish_Encode p0).1 = bs).
  { unfold p0. rewrite <-(Publish3_Encode_ref _ _ (V3.PayloadRef p)).
    replace (V3.mkPublish _ _ _ _ _) with p by (by destruct p). by rewrite Ep. }
  destruct (V3.Publish_Encode p0) as [bs0 p0']. cbn in Hbs. subst bs0.
  exists bs, (V3.PPublish p'). split; [done|]. intros rest err.
  exists (Z.of_nat (length (PacketsV3.body (V3.PPublish p0)))).
  apply Ret_inj in He. apply (f_equal fst) in He. cbn [fst] in He. rewrite He.
  unfold V3.ReadPacket. by rewrite (PacketsV3.ReadPacketLimit_encoded (V3.PPublish p0)) by (done || by left).
Qed.

(** The packet fits the largest remaining length. *)
Definition fits_wire (cp : SessionEncode.ControlPacket) : Prop :=
  match cp with
  | V5Packet cp => ∀ b, PacketsV5.body cp = Ret b → Z.of_nat (length b) < 2 ^ 28
  | V3Packet cp => Z.of_nat (length (PacketsV3.body cp)) < 2 ^ 28
  end.

(** C37 From the broker to a subscriber: an envelope that is encoded for a
    connection takes one payload reference, and the bytes written are read back,
    by the reader of the connection's protocol version, as a PUBLISH with the
    topic, payload, identifier and flags of the delivery; in MQTT 5.0 its user
    properties are exactly the public projection of the envelope, each key once,
    so a consumer of a queue finds the offset of the record it settles and
    nothing the publisher forged. *)
Theorem delivery_wire now order got5 msg packetID version dup qos retain s :
  pooled got5 → deliverable msg packetID qos →
  order ≡ₚ map_to_list (ProjectProperties msg PublicProjection) →
  let r := encodePublish now order got5 msg packetID version dup qos retain s in
  fits_wire r.1 →
  r.2 = (RetainPayload msg s).2 ∧
  match r.1 with
  | V5Packet cp => version = V5_version ∧
      ∃ bs cp', V5.Encode cp = Ret (bs, cp') ∧ ∀ rest err, ∃ q,
        V5.ReadPacket (mkReader (bs ++ rest) err) = Ret (PPublish q, mkReader rest err) ∧
        delivered5 now msg packetID dup qos retain (PayloadBytes msg s) q ∧
        (hasQueueProjection (BM_Queue (EBroker msg)) = true →
         0 <= QM_Offset (BM_Queue (EBroker msg)) < 2 ^ 64 →
         QueueOffsetFromProperties (list_to_map ((λ u, (Key u, Value u)) <$>
           PP_User (default PublishProperties_zero (PublishProps q)))) =
         Some (QM_Offset (BM_Queue (EBroker msg))))
  | V3Packet cp => version ≠ V5_version ∧
      ∃ bs cp', V3.Encode cp = Ret (bs, cp') ∧ ∀ rest err, ∃ q,
        V3.ReadPacket (mkReader (bs ++ rest) err) = Ret (V3.PPublish q, mkReader rest err) ∧
        delivered3 msg packetID dup qos retain (PayloadBytes msg s) q
  end.
Proof.
  intros Hpool Hd Ho r Hfit. pose proof Hd as (Ht & Hq & Hid & _).
  destruct (decide (version = V5_version)) as [->|Hv].
  - unfold r in *. rewrite encodePublish_v5 in * by done. cbn [fst snd fits_wire] in *.
    split; [done|]. split; [done|].
    pose proof (delivered_props_ok now order msg packetID qos Hd Ho) as Hpp.
    destruct (publish5_read (mkPublish (mkFixedHeader PublishType dup qos retain 0) packetID (ETopic msg)
       (Some (delivered_props now order msg)) (EPayload msg) (PayloadBytes msg s)))
      as (bs & cp' & He & Hr); [|done| |].
    { split_and!; try done. by intros ? [= <-]. }
    { intros b Hb. apply publish_header_wf; [done|]. specialize (Hfit b Hb). lia. }
    exists bs, cp'. split; [done|]. intros rest err. destruct (Hr rest err) as [n Hn].
    eexists. split; [exact Hn|]. destruct (users_of_order order _ Ho) as [Hnd Hmap].
    pose proof (norm_delivered _ Hpp) as Hnorm.
    unfold delivered5. cbv zeta. cbn [PublishProps update]. 
    set (q := default PublishProperties_zero _). assert (q = delivered_props now order msg) as -> by done.
    split; [split_and!; done|]. intros Hproj Hoff. cbn [delivered_props PP_User]. rewrite Hmap.
    by apply MessageFacts.project_offset_and_id.
  - assert (Hr : r = (V3Packet (V3.PPublish (V3.mkPublish (mkFixedHeader PublishType dup qos retain 0)
      (ETopic msg) (EPayload msg) packetID (PayloadBytes msg s))), (RetainPayload msg s).2)).
    { unfold r, encodePublish. by rewrite (proj2 (Z.eqb_neq _ _) Hv). }
    rewrite Hr in *. cbn [fst snd fits_wire] in *. split; [done|]. split; [done|].
    destruct (publish3_read (V3.mkPublish (mkFixedHeader PublishType dup qos retain 0)
      (ETopic msg) (EPayload msg) packetID (PayloadBytes msg s))) as (bs & cp' & He & Hrd);
      [|done|apply publish_header_wf; [done|split; [apply Zle_0_nat|exact Hfit]]|].
    { by split_and!. }
    exists bs, cp'. split; [exact He|]. intros rest err. destruct (Hrd rest err) as [n Hn].
    eexists. split; [exact Hn|done].
Qed.

(** The first record of a queue, whose publisher set a property of its own and
    tried to set an offset. *)
Definition example_record : Envelope := Envelope_blank <| ETopic := "t" |>
  <| EPublisher := Publisher_zero
       <| PM_Properties := {[PropertyOffset := "7"%string; "k" := "v"%string]} |> |>
  <| EBroker := Broker_zero <| BM_Queue := QueueMeta_zero <| QM_Name := "q" |> |> |>.

Lemma delivery_wire_witness : ∃ bs cp',
  let cp := (encodePublish 0 (map_to_list (ProjectProperties example_record PublicProjection))
    publishPool_New example_record 7 V5_version false 1 false (mkPools Payload.empty_heap [])).1 in
  match cp with V5Packet cp => V5.Encode cp = Ret (bs, cp') | V3Packet _ => False end ∧
  ∃ q, V5.ReadPacket (mkReader bs EOF) = Ret (PPublish q, mkReader [] EOF) ∧ PublishID q = 7 ∧
    QueueOffsetFromProperties (list_to_map ((λ u, (Key u, Value u)) <$>
      PP_User (default PublishProperties_zero (PublishProps q)))) = Some 0.
Proof.
  destruct (delivery_wire 0 (map_to_list (ProjectProperties example_record PublicProjection))
    publishPool_New example_record 7 V5_version false 1 false (mkPools Payload.empty_heap []))
    as (_ & Hv & bs & cp' & He & Hr).
  - exact pooled_new.
  - split_and!; try (vm_compute; intuition discriminate || reflexivity).
    intros k v Hk. apply elem_of_map_to_list in Hk. vm_compute in Hk.
    repeat (apply elem_of_cons in Hk as [[= -> ->]|Hk]; [split; reflexivity|]). inversion Hk.
  - reflexivity.
  - intros b Hb. vm_compute in Hb. injection Hb as <-. reflexivity.
  - exists bs, cp'. split; [exact He|]. destruct (Hr [] EOF) as (q & Hq & Hd & Hoff).
    rewrite app_nil_r in Hq. exists q. split; [exact Hq|]. split; [apply Hd|].
    apply Hoff; [reflexivity|]. split; [discriminate|reflexivity].
Defined.
End SessionEncodeFacts.
