(* ===== verification/Session.v ===== *)
(** * MQTT sessions (src/mqtt/session)

    [session.go] is the state of one client: its connection and the generation
    ([epoch]) of it, the Will, the subscriptions, the outbound quota, the queue
    of messages that overflowed the quota, and, through [msgHandler]
    (messages.go), the in-flight tracker, the offline queue, the topic aliases
    and the packet identifiers.

    A method that holds the session mutex is one function of the state.
    Connections, Wills, callbacks and envelopes are pointers, known by their
    identity; [envs] gives the contents behind an envelope pointer.  What a
    method does to the outside (closing and writing connections, releasing
    envelopes, starting the disconnect callback) is the list of [effect]s it
    returns; the results of writes, [time.Now] and the order of map walks are
    arguments.

    Theorems: the lifecycle invariant; calls of a superseded connection change
    nothing; a Will is handed out at most once; a disconnect moves the pending
    messages to the offline queue; packet identifiers are free and the search
    for one ends; retransmissions stay within the Receive Maximum; the live and
    the stored expiry rule agree. *)

From Stdlib Require Import ZArith Lia Bool Ascii String Strings.Byte.
From stdpp Require Import gmultiset prelude gmap strings.
From S2P Require Import Prelude GoStrings Strconv Payload Envelope Topics Router Codec Packets.
From S2P Require Import PacketsV3 PropertiesV5 PacketsV5 Inflight SendWindow MemLog MemStores.
From S2P Require Import SessionEncode.

Module Session.
Import Message.

(** ** State *)

Inductive State := StateNew | StateConnecting | StateConnected | StateDisconnecting | StateDisconnected.
#[export] Instance State_eq_dec : EqDecision State.
Proof. solve_decision. Defined.

Definition State_String (s : State) : string :=
  match s with
  | StateNew => "new"
  | StateConnecting => "connecting"
  | StateConnected => "connected"
  | StateDisconnecting => "disconnecting"
  | StateDisconnected => "disconnected"
  end.

Record pendingItem := mkPending { pmsg : nat; ponSent : option nat }.

(** [make(chan pendingItem, cap)]: its contents, oldest first. *)
Record pendingChan := mkPendingChan { items : list pendingItem; pendingCap : Z }.

Record msgHandler := mkHandler {
  inflight : Inflight.inflight;
  offlineQueue : OfflineQueue.queue Envelope;
  outboundAliases : gmap string Z;
  inboundAliases : gmap Z string;
  nextPacketID : Z;
  handlerVersion : Z
}.
#[export] Instance eta_msgHandler : Eta msgHandler := λ h,
  mkHandler (inflight h) (offlineQueue h) (outboundAliases h) (inboundAliases h) (nextPacketID h)
    (handlerVersion h).

Definition newMessageHandler (t : Inflight.inflight) (q : OfflineQueue.queue Envelope) (version : Z) :
    msgHandler := mkHandler t q ∅ ∅ 0 version.

(** [deliverStop] is a channel and whether it is closed. *)
Record Session := mkSession {
  connectedAt : gotime;
  disconnectedAt : gotime;
  ID : string;
  ExternalID : string;
  authMethod : string;
  authState : option nat;
  conn : option nat;
  handler : msgHandler;
  Will : option nat;
  subscriptions : gmap string SubscribeOptions;
  subscriptionAliases : gmap string string;
  subscriptionIDs : gmap string (list Z);
  onDisconnect : option nat;
  KeepAlive : Z;
  state : State;
  epoch : Z;
  ExpiryInterval : Z;
  connectExpiryInterval : Z;
  MaxPacketSize : Z;
  ReceiveMaximum : Z;
  TopicAliasMax : Z;
  Version : Z;
  maxQoS : Z;
  CleanStart : bool;
  requestResponseInfo : bool;
  requestProblemInfo : bool;
  retainAvailable : bool;
  wildcardSubAvailable : bool;
  sharedSubAvailable : bool;
  sendWindow : SendWindow.sendWindow;
  serverMaxInflight : Z;
  pendingCh : option pendingChan;
  deliverStop : nat * bool;
  lastHeartbeatUpdate : Z
}.
#[export] Instance eta_Session : Eta Session := λ s,
  mkSession (connectedAt s) (disconnectedAt s) (ID s) (ExternalID s) (authMethod s) (authState s)
    (conn s) (handler s) (Will s) (subscriptions s) (subscriptionAliases s) (subscriptionIDs s)
    (onDisconnect s) (KeepAlive s) (state s) (epoch s) (ExpiryInterval s) (connectExpiryInterval s)
    (MaxPacketSize s) (ReceiveMaximum s) (TopicAliasMax s) (Version s) (maxQoS s) (CleanStart s)
    (requestResponseInfo s) (requestProblemInfo s) (retainAvailable s) (wildcardSubAvailable s)
    (sharedSubAvailable s) (sendWindow s) (serverMaxInflight s) (pendingCh s) (deliverStop s)
    (lastHeartbeatUpdate s).

(** What a method does besides changing the session. *)
Inductive DisconnectCause := DisconnectClean | DisconnectCleanWithWill | DisconnectAbnormal.
#[export] Instance DisconnectCause_eq_dec : EqDecision DisconnectCause.
Proof. solve_decision. Defined.

Inductive effect :=
| SetKeepAlive (c : nat) (keepAlive : Z)
| SetConnOnDisconnect (c : nat) (epoch : Z)
| WriteDisconnect (c : nat) (reasonCode : Z)
| CloseConn (c : nat)
| ReleaseMsg (msg : nat)
| Callback (fn : nat) (cause : DisconnectCause) (epoch : Z).

(** ** New *)

Record Options := mkOptions {
  OExternalID : string;
  OKeepAlive : Z;
  OWill : option nat;
  OExpiryInterval : Z;
  OMaxPacketSize : Z;
  OReceiveMaximum : Z;
  OTopicAliasMax : Z;
  OCleanStart : bool
}.

Definition DefaultOptions : Options := mkOptions "" 60 None 0 0 65535 0 true.

Record SessionConfig := mkSessionConfig {
  MaxInflightMessages : Z;
  InflightOverflow : Z;
  PendingQueueSize : Z
}.
Definition InflightOverflowBackpressure : Z := 0.
Definition InflightOverflowQueue : Z := 1.
Definition DefaultMaxInflightMessages : Z := 256.

Definition clampServerMaxInflight (maxInflight : Z) : Z :=
  let maxInflight := if maxInflight <=? 0 then DefaultMaxInflightMessages else maxInflight in
  if 65535 <? maxInflight then 65535 else maxInflight.

Definition New (clientID : string) (version : Z) (opts : Options) (t : Inflight.inflight)
    (q : OfflineQueue.queue Envelope) (cfg : SessionConfig) : Session :=
  let receiveMax := if OReceiveMaximum opts =? 0 then 65535 else OReceiveMaximum opts in
  let pending :=
    if InflightOverflow cfg =? InflightOverflowQueue then
      Some (mkPendingChan [] (if PendingQueueSize cfg <=? 0 then 1000 else PendingQueueSize cfg))
    else None in
  mkSession None None clientID (OExternalID opts) "" None None (newMessageHandler t q version)
    (OWill opts) ∅ ∅ ∅ None (OKeepAlive opts) StateNew 0 (OExpiryInterval opts) 0 (OMaxPacketSize opts)
    receiveMax (OTopicAliasMax opts) version 2 (OCleanStart opts) false true true true true
    (SendWindow.newSendWindow receiveMax 0 (InflightOverflow cfg =? InflightOverflowBackpressure))
    (clampServerMaxInflight (MaxInflightMessages cfg)) pending (O, false) 0.

(** ** Identity *)

Definition IdentityAllows (bound incoming : string) (requireBound : bool) : bool :=
  if requireBound then negb (str_eqb incoming "") && str_eqb bound incoming
  else str_eqb bound "" || str_eqb bound incoming.

Definition CanUseExternalIdentity (externalID : string) (requireBound : bool) (s : Session) : bool :=
  IdentityAllows (ExternalID s) externalID requireBound.

Definition BindExternalIdentity (externalID : string) (requireBound : bool) (s : Session) :
    bool * Session :=
  if negb (IdentityAllows (ExternalID s) externalID requireBound) then (false, s)
  else (true, s <| ExternalID := externalID |>).

Definition MarkOffline (now : Z) (s : Session) : Session :=
  match disconnectedAt s with None => s <| disconnectedAt := Some now |> | Some _ => s end.

Definition ExternalIdentity (s : Session) : string := ExternalID s.
Definition AuthorizationIdentity (s : Session) : string :=
  if negb (str_eqb (ExternalID s) "") then ExternalID s else ID s.

Definition Orderly (c : DisconnectCause) : bool := negb (bool_decide (c = DisconnectAbnormal)).
Definition DiscardsWill (c : DisconnectCause) : bool := bool_decide (c = DisconnectClean).
Definition causeFor (graceful : bool) : DisconnectCause :=
  if graceful then DisconnectClean else DisconnectAbnormal.

(** ** messages.go: aliases and packet identifiers *)

Definition SetTopicAlias (topic : string) (alias : Z) (s : Session) : Session :=
  s <| handler := handler s <| outboundAliases := <[topic := alias]> (outboundAliases (handler s)) |> |>.
Definition GetTopicAlias (topic : string) (s : Session) : option Z :=
  outboundAliases (handler s) !! topic.
Definition SetInboundAlias (alias : Z) (topic : string) (s : Session) : Session :=
  s <| handler := handler s <| inboundAliases := <[alias := topic]> (inboundAliases (handler s)) |> |>.
Definition ResolveInboundAlias (alias : Z) (s : Session) : option string :=
  inboundAliases (handler s) !! alias.
Definition ClearAliases (h : msgHandler) : msgHandler :=
  h <| outboundAliases := ∅ |> <| inboundAliases := ∅ |>.

(** The [for] loop of [NextPacketID]; [None] is still searching. *)
Fixpoint NextPacketID_loop (fuel : nat) (next : Z) (t : Inflight.inflight) : option (Z * Z) :=
  match fuel with
  | O => None
  | S fuel =>
      let id := u32 (next + 1) in
      let id16 := u16 (Z.land id 0xFFFF) in
      if id16 =? 0 then NextPacketID_loop fuel id t
      else if negb (Inflight.Has id16 t) then Some (id16, id)
      else NextPacketID_loop fuel id t
  end.

Definition NextPacketID (fuel : nat) (s : Session) : option (Z * Session) :=
  let h := handler s in
  '(id16, next) ← NextPacketID_loop fuel (nextPacketID h) (inflight h);
  Some (id16, s <| handler := h <| nextPacketID := next |> |>).

(** ** The pending queue *)

Section envelopes.
(** The contents behind an envelope pointer. *)
Context (envs : nat → Envelope).

Definition TryEnqueuePending (msg : nat) (onSent : option nat) (s : Session) : bool * Session :=
  match pendingCh s with
  | None => (false, s)
  | Some ch =>
      if Z.of_nat (length (items ch)) <? pendingCap ch then
        (true, s <| pendingCh := Some (mkPendingChan (items ch ++ [mkPending msg onSent]) (pendingCap ch)) |>)
      else (false, s)
  end.

(** [DrainOnePending]: the item handed to [deliver], whose error releases it. *)
Definition DrainOnePending (deliver : pendingItem → bool) (s : Session) :
    option pendingItem * Session * list effect :=
  match pendingCh s with
  | None => (None, s, [])
  | Some ch =>
      match items ch with
      | [] => (None, s, [])
      | item :: rest =>
          (Some item, s <| pendingCh := Some (mkPendingChan rest (pendingCap ch)) |>,
           if deliver item then [] else [ReleaseMsg (pmsg item)])
      end
  end.

(** [Enqueue] cannot panic: [NewMessageQueue] makes queues of a positive size. *)
Fixpoint drain_items (l : list pendingItem) (q : OfflineQueue.queue Envelope) :
    OfflineQueue.queue Envelope * list effect :=
  match l with
  | [] => (q, [])
  | item :: l =>
      let q :=
        if 0 <? DM_QoS (BM_Delivery (EBroker (envs (pmsg item)))) then
          match OfflineQueue.Enqueue (envs (pmsg item)) q with Ret (q', _) => q' | _ => q end
        else q in
      let '(q, es) := drain_items l q in (q, ReleaseMsg (pmsg item) :: es)
  end.

Definition drainPendingToOffline (s : Session) : Session * list effect :=
  match pendingCh s with
  | None => (s, [])
  | Some ch =>
      let '(q, es) := drain_items (items ch) (offlineQueue (handler s)) in
      (s <| pendingCh := Some (mkPendingChan [] (pendingCap ch)) |>
         <| handler := handler s <| offlineQueue := q |> |>, es)
  end.

(** The released pointers of the pending queue and of the tracker, and the
    envelopes the offline queue owned. *)
Definition ClearMessages (entries : list (Z * Z * Inflight.InflightMessage)) (s : Session) :
    Session * list effect * list Envelope :=
  let '(s, pending) :=
    match pendingCh s with
    | None => (s, [])
    | Some ch => (s <| pendingCh := Some (mkPendingChan [] (pendingCap ch)) |>,
                  (λ i, ReleaseMsg (pmsg i)) <$> items ch)
    end in
  let '(offline, q) := OfflineQueue.Drain (offlineQueue (handler s)) in
  let '(t, released) := Inflight.Clear entries (inflight (handler s)) in
  (s <| handler := handler s <| offlineQueue := q |> <| inflight := t |> |>,
   pending ++ (ReleaseMsg <$> released), offline).

(** ** Connecting *)

Record ConnectOptions := mkConnectOptions {
  CVersion : Z; CKeepAlive : Z; CWill : option nat; CReceiveMaximum : Z; CTopicAliasMax : Z; CMaxQoS : Z
}.
Definition ConnectOptions_zero : ConnectOptions := mkConnectOptions 0 0 None 0 0 0.

Record Superseded := mkSuperseded { SConn : option nat; SVersion : Z; SWill : option nat }.

(** [select { case <-s.deliverStop: default: close(s.deliverStop) }] *)
Definition close_stop (s : Session) : Session := s <| deliverStop := ((deliverStop s).1, true) |>.

Definition DetachForTakeover (now : Z) (s : Session) : Superseded * Session * list effect :=
  let version := Version s in
  let s := s <| epoch := u64 (epoch s + 1) |> in
  match state s with
  | StateNew | StateConnecting => (mkSuperseded None version None, s <| Will := None |>, [])
  | _ =>
      let will := Will s in
      let s := s <| Will := None |> in
      if negb (bool_decide (state s = StateConnected)) then (mkSuperseded None version will, s, [])
      else
        let s := close_stop (s <| state := StateDisconnecting |>) in
        let c := conn s in
        let s := s <| disconnectedAt := Some now |> <| conn := None |> <| state := StateDisconnected |> in
        let '(s, es) := drainPendingToOffline s in
        (mkSuperseded c version will, s <| handler := ClearAliases (handler s) |>, es)
  end.

Definition resetSendWindowLocked (clientReceiveMax : Z) (applyCapacity : bool) (s : Session) : Session :=
  let capacity := ReceiveMaximum s in
  let capacity :=
    if applyCapacity then
      if (clientReceiveMax <=? 0) || (serverMaxInflight s <? clientReceiveMax)
      then serverMaxInflight s else clientReceiveMax
    else capacity in
  let capacity := if capacity <? 1 then 1 else capacity in
  s <| ReceiveMaximum := u16 capacity |>
    <| sendWindow := SendWindow.reset capacity (epoch s) (sendWindow s) |>.

Definition attach (now : Z) (c : nat) (opts : ConnectOptions) (applyOpts : bool) (s : Session) :
    Z * option Superseded * Session * list effect :=
  let '(superseded, s) :=
    match conn s, state s, Will s with
    | Some old, _, _ =>
        (Some (mkSuperseded (Some old) (Version s) (Will s)),
         if applyOpts then s <| Will := None |> else s)
    | None, StateDisconnected, Some w =>
        (Some (mkSuperseded None (Version s) (Some w)), s <| Will := None |>)
    | None, _, _ => (None, s)
    end in
  let s :=
    if applyOpts then
      s <| Version := CVersion opts |> <| KeepAlive := CKeepAlive opts |> <| Will := CWill opts |>
        <| TopicAliasMax := CTopicAliasMax opts |> <| maxQoS := CMaxQoS opts |>
    else s in
  let s := s <| handler := ClearAliases (handler s) |> in
  let s := if (deliverStop s).2 then s <| deliverStop := (S (deliverStop s).1, false) |> else s in
  let s := s <| epoch := u64 (epoch s + 1) |> in
  let e := epoch s in
  let s := resetSendWindowLocked (CReceiveMaximum opts) applyOpts s in
  let keepAlive := KeepAlive s in
  let s := s <| conn := Some c |> <| state := StateConnected |> <| connectedAt := Some now |> in
  (e, superseded, s, [SetKeepAlive c keepAlive; SetConnOnDisconnect c e]).

Definition Connect (now : Z) (c : nat) (s : Session) : Z * Session * list effect :=
  let '(e, superseded, s, es) := attach now c ConnectOptions_zero false s in
  (e, s, es ++ match superseded with
               | Some sup => match SConn sup with Some old => [CloseConn old] | None => [] end
               | None => []
               end).

Definition ConnectWithOptions (now : Z) (c : nat) (opts : ConnectOptions) (s : Session) :
    Z * option Superseded * Session * list effect := attach now c opts true s.

(** ** Disconnecting *)

Definition sendDisconnect (reasonCode : Z) (s : Session) : list effect :=
  match conn s with
  | None => []
  | Some c => if negb (Version s =? 5) then [] else [WriteDisconnect c reasonCode]
  end.

Definition disconnectLocked (now : Z) (cause : DisconnectCause) (reasonCode : Z) (s : Session) :
    Session * list effect :=
  if negb (bool_decide (state s = StateConnected)) then (s, [])
  else
    let s := close_stop (s <| state := StateDisconnecting |>) in
    let '(s, closing) :=
      match conn s with
      | Some c =>
          let s := s <| disconnectedAt := Some now |> in
          (s <| conn := None |>, sendDisconnect reasonCode s ++ [CloseConn c])
      | None => (s, [])
      end in
    let s := s <| state := StateDisconnected |> in
    let s := if DiscardsWill cause then s <| Will := None |> else s in
    let '(s, es) := drainPendingToOffline s in
    let s := s <| handler := ClearAliases (handler s) |> in
    (s, closing ++ es ++ match onDisconnect s with
                         | Some fn => [Callback fn cause (epoch s)]
                         | None => []
                         end).

Definition DisconnectWithCause := disconnectLocked.
Definition Disconnect (now : Z) (graceful : bool) (reasonCode : Z) (s : Session) :
    Session * list effect := DisconnectWithCause now (causeFor graceful) reasonCode s.
Definition DisconnectWithCauseIf (now : Z) (cause : DisconnectCause) (e reasonCode : Z) (s : Session) :
    Session * list effect :=
  if negb (epoch s =? e) then (s, []) else disconnectLocked now cause reasonCode s.
Definition DisconnectIf (now : Z) (graceful : bool) (e reasonCode : Z) (s : Session) :
    Session * list effect := DisconnectWithCauseIf now (causeFor graceful) e reasonCode s.

(** ** Queries *)

Definition IsConnected (s : Session) : bool :=
  bool_decide (state s = StateConnected) && bool_decide (is_Some (conn s)).

Definition HasExpired (now : Z) (s : Session) : bool :=
  match disconnectedAt s with
  | None => false
  | Some t =>
      if IsConnected s || (ExpiryInterval s =? 0) then false
      else t + ExpiryInterval s * 1000000000 <? now
  end.

Definition DeliveryLease (s : Session) : option nat * Z * Z := (conn s, Version s, epoch s).
Definition SendBackpressure (s : Session) : bool := SendWindow.blocking (sendWindow s).

(** ** The send quota; the blocking [AcquireSendQuota] is [SendWindow.acquire_enter]
    and [acquire_leave] with [deliverStop] as its stop channel *)

Definition TryAcquireSendQuota (packetID g : Z) (s : Session) : bool * Session :=
  let '(ok, w) := SendWindow.tryAcquire packetID g (sendWindow s) in (ok, s <| sendWindow := w |>).
Definition ReleaseSendQuota (packetID g : Z) (s : Session) : Session :=
  s <| sendWindow := SendWindow.release packetID g (sendWindow s) |>.

(** ** The in-flight tracker *)

Definition set_inflight (t : Inflight.inflight) (s : Session) : Session :=
  s <| handler := handler s <| inflight := t |> |>.

Definition AddInbound (packetID : Z) (msg : option nat) (s : Session) : outcome MsgErr (bool * Session) :=
  '(ok, t) ← Inflight.AddInbound packetID msg (inflight (handler s));
  Ret (ok, set_inflight t s).
Definition GetInbound (packetID : Z) (s : Session) : option (option nat) :=
  Inflight.Message <$> Inflight.GetInbound packetID (inflight (handler s)).
Definition AckInbound (packetID : Z) (s : Session) : outcome MsgErr (option nat * Session) :=
  '(msg, t) ← Inflight.AckInbound packetID (inflight (handler s)); Ret (msg, set_inflight t s).

Definition MarkSentIfEpoch (now packetID g : Z) (s : Session) : Session :=
  if epoch s =? g then set_inflight (Inflight.MarkSent packetID now (inflight (handler s))) s else s.

Definition markRetryIfEpoch (now g packetID : Z) (s : Session) : Session :=
  if epoch s =? g then
    match Inflight.MarkRetry packetID now (inflight (handler s)) with
    | Ret t => set_inflight t s
    | _ => s
    end
  else s.

(** ** Retransmission *)

Definition RetryTimeout : Z := 20 * 1000000000.

(** A packet given to the writer, and what the writer answered.  The callback
    [onSent] that a written packet carries is [markRetryIfEpoch]. *)
Inductive retryPacket := RetryPubRel (packetID version : Z) | RetryPublish (msg : nat) (packetID version : Z).
Inductive writeResult := WriteOk | ErrSendQueueFull | WriteError.

Definition newPubRelPacket (packetID version : Z) : SessionEncode.ControlPacket :=
  if version =? SessionEncode.V5_version
  then SessionEncode.V5Packet (V5.PPubRel (V5.mkAckPacket (mkFixedHeader PubRelType false 1 false 0)
         packetID None None))
  else SessionEncode.V3Packet (V3.PPubRel (V3.mkIDPacket (mkFixedHeader PubRelType false 1 false 0) packetID)).

Definition resendMessage (now : Z) (write : retryPacket → writeResult) (m : Inflight.InflightMessage)
    (version : Z) (t : Inflight.inflight) : Inflight.inflight * list retryPacket :=
  match Inflight.Message m with
  | None => (t, [])
  | Some msg =>
      let id := Inflight.MsgPacketID m in
      if (DM_QoS (BM_Delivery (EBroker (envs msg))) =? 2)
         && (Inflight.State m =? Inflight.StatePubRecReceived)
      then (t, [RetryPubRel id version])
      else
        let p := RetryPublish msg id version in
        (match write p with
         | ErrSendQueueFull => Inflight.MarkDeliveryAttempted id now t
         | _ => t
         end, [p])
  end.

Fixpoint retry_loop (now : Z) (write : retryPacket → writeResult) (version g : Z)
    (expired : list Inflight.InflightMessage) (w : SendWindow.sendWindow) (t : Inflight.inflight) :
    SendWindow.sendWindow * Inflight.inflight * list retryPacket :=
  match expired with
  | [] => (w, t, [])
  | m :: expired =>
      if negb (Inflight.MsgDirection m =? Inflight.Outbound) then retry_loop now write version g expired w t
      else
        match SendWindow.tryAcquire (Inflight.MsgPacketID m) g w with
        | (false, w) => retry_loop now write version g expired w t
        | (true, w) =>
            let '(t, out) := resendMessage now write m version t in
            let '(w, t, outs) := retry_loop now write version g expired w t in
            (w, t, out ++ outs)
        end
  end.

(** [msgHandler.ProcessRetries] over the tracker's entries in map order, gated by
    generation [g]'s quota.  It runs without the session's lock: between two of its
    calls of [tryAcquire] and [resendMessage] any other call may run. *)
Definition ProcessRetries (now : Z) (write : retryPacket → writeResult) (version g : Z)
    (entries : list (Z * Z * Inflight.InflightMessage)) (s : Session) : Session * list retryPacket :=
  let version := if version =? 0 then handlerVersion (handler s) else version in
  let expired := Inflight.GetExpired now RetryTimeout entries in
  let '(w, t, out) := retry_loop now write version g expired (sendWindow s) (inflight (handler s)) in
  (set_inflight t (s <| sendWindow := w |>), out).

(** [ProcessRetriesTo] with a writer: the check of the generation, the only part
    that holds the lock, and the cycle. *)
Definition retries_admit (g : Z) (s : Session) : option Z :=
  if negb (epoch s =? g) then None else Some (Version s).
Definition ProcessRetriesTo (now : Z) (write : retryPacket → writeResult) (g : Z)
    (entries : list (Z * Z * Inflight.InflightMessage)) (s : Session) : Session * list retryPacket :=
  match retries_admit g s with
  | None => (s, [])
  | Some version => ProcessRetries now write version g entries s
  end.

End envelopes.

(** ** Subscriptions *)

Definition AddSubscription (filter : string) (opts : SubscribeOptions) (s : Session) : Session :=
  s <| subscriptions := <[filter := opts]> (subscriptions s) |>.
Definition AddSubscriptionAlias (original normalized : string) (s : Session) : Session :=
  if str_eqb original "" || str_eqb normalized "" || str_eqb original normalized then s
  else s <| subscriptionAliases := <[original := normalized]> (subscriptionAliases s) |>.
Definition ResolveSubscriptionAlias (filter : string) (s : Session) : string :=
  let normalized := default ""%string (subscriptionAliases s !! filter) in
  if negb (str_eqb normalized "") then normalized else filter.
Definition RemoveSubscription (f : string) (s : Session) : Session :=
  s <| subscriptions := delete f (subscriptions s) |>
    <| subscriptionAliases := filter (λ kv, ¬ (kv.2 = f ∨ kv.1 = f)) (subscriptionAliases s) |>.
Definition GetSubscriptions (s : Session) : gmap string SubscribeOptions := subscriptions s.
Definition HasSubscription (filter : string) (s : Session) : bool :=
  bool_decide (is_Some (subscriptions s !! filter)).

Definition AddSubscriptionID (filter : string) (id : Z) (s : Session) : Session :=
  let ids := default [] (subscriptionIDs s !! filter) in
  if decide (id ∈ ids) then s
  else s <| subscriptionIDs := <[filter := ids ++ [id]]> (subscriptionIDs s) |>.
Definition GetSubscriptionIDs (filter : string) (s : Session) : list Z :=
  default [] (subscriptionIDs s !! filter).
Definition RemoveSubscriptionID (filter : string) (s : Session) : Session :=
  s <| subscriptionIDs := delete filter (subscriptionIDs s) |>.

(** ** The remaining fields *)

Definition UpdateConnectionOptions (version keepAlive : Z) (will : option nat) (s : Session) :
    Session * list effect :=
  (s <| Version := version |> <| KeepAlive := keepAlive |> <| Will := will |>,
   match conn s with Some c => [SetKeepAlive c keepAlive] | None => [] end).

Definition GetWill (s : Session) : option nat := Will s.
Definition TakeWill (s : Session) : option nat * Session := (Will s, s <| Will := None |>).

Definition SetOnDisconnectWithCause (fn : option nat) (s : Session) : Session :=
  s <| onDisconnect := fn |>.
Definition SetExpiryInterval (interval : Z) (s : Session) : Session :=
  s <| ExpiryInterval := interval |>.
Definition SetConnectExpiryInterval (interval : Z) (s : Session) : Session :=
  s <| connectExpiryInterval := interval |>.
Definition SetAuthState (method : string) (st : option nat) (s : Session) : Session :=
  s <| authMethod := method |> <| authState := st |>.
Definition SetRequestResponseInfo (requested : bool) (s : Session) : Session :=
  s <| requestResponseInfo := requested |>.
Definition SetRequestProblemInfo (requested : bool) (s : Session) : Session :=
  s <| requestProblemInfo := requested |>.

(** [int64] subtraction of the nanosecond clocks; the compare-and-swap succeeds
    when no other goroutine is between the load and the swap. *)
Definition ShouldUpdateHeartbeat (now minInterval : Z) (s : Session) : bool * Session :=
  if minInterval <=? 0 then (true, s)
  else
    let last := lastHeartbeatUpdate s in
    if negb (last =? 0) && (i64 (now - last) <? minInterval) then (false, s)
    else (true, s <| lastHeartbeatUpdate := now |>).

(** ** Persistence: [storage.Session], where the zero time is the year 1 *)

Definition zeroTime : Z := - 62135596800 * 1000000000.

Definition Info (s : Session) : Sessions.Session :=
  Sessions.mkSession (default zeroTime (connectedAt s)) (default zeroTime (disconnectedAt s)) (ID s)
    (ExternalID s) (ExpiryInterval s) (MaxPacketSize s) (ReceiveMaximum s) (TopicAliasMax s)
    (Version s) (CleanStart s) (bool_decide (state s = StateConnected)) (requestResponseInfo s)
    (requestProblemInfo s).

Definition RestoreFrom (stored : Sessions.Session) (s : Session) : Session :=
  s <| ExternalID := Sessions.ExternalID stored |>
    <| ExpiryInterval := Sessions.ExpiryInterval stored |>
    <| ReceiveMaximum := Sessions.ReceiveMaximum stored |>
    <| MaxPacketSize := Sessions.MaxPacketSize stored |>
    <| TopicAliasMax := Sessions.TopicAliasMax stored |>
    <| requestResponseInfo := Sessions.RequestResponse stored |>
    <| requestProblemInfo := Sessions.RequestProblem stored |>.

End Session.

(** * Properties *)

Module SessionFacts.
Import Session Message.

(** ** Histories *)

Inductive op :=
| OpAttach (now : Z) (c : nat) (opts : ConnectOptions) (applyOpts : bool)
| OpDetach (now : Z)
| OpDisconnect (now : Z) (cause : DisconnectCause) (reasonCode : Z)
| OpDisconnectIf (now : Z) (cause : DisconnectCause) (e reasonCode : Z)
| OpTakeWill
| OpUpdateOptions (version keepAlive : Z) (will : option nat)
| OpTryAcquire (packetID g : Z)
| OpReleaseQuota (packetID g : Z)
| OpEnqueuePending (msg : nat) (onSent : option nat)
| OpDrainOne (deliver : pendingItem → bool)
| OpClearMessages
| OpInflight (f : Inflight.inflight → Inflight.inflight)
| OpMarkSent (now packetID g : Z)
| OpMarkRetry (now g packetID : Z)
| OpRetries (now : Z) (write : retryPacket → writeResult) (g : Z)
| OpNextPacketID (fuel : nat)
| OpBind (externalID : string) (requireBound : bool)
| OpMarkOffline (now : Z)
| OpRestore (stored : Sessions.Session)
| OpSetExpiry (interval : Z)
| OpSetOnDisconnect (fn : option nat)
| OpAddSubscription (f : string) (opts : SubscribeOptions)
| OpRemoveSubscription (f : string)
| OpTopicAlias (topic : string) (alias : Z)
| OpInboundAlias (alias : Z) (topic : string).

(** Where the Wills go in one call: [installed] into the session, [handed] out to
    a caller that owns them, [dropped] without publication. *)
Record out := mkOut { installed : list nat; handed : list nat; dropped : list nat; effects : list effect }.
Definition out_nil : out := mkOut [] [] [] [].
Definition out_app (a b : out) : out :=
  mkOut (installed a ++ installed b) (handed a ++ handed b) (dropped a ++ dropped b)
    (effects a ++ effects b).

Section history.
Context (envs : nat → Envelope).

Definition step (o : op) (s : Session) : Session * out :=
  match o with
  | OpAttach now c opts true =>
      let '(_, sup, s', es) := ConnectWithOptions now c opts s in
      (* a session that is not superseded loses the Will of its options *)
      (s', mkOut (option_list (CWill opts)) (option_list (sup ≫= SWill))
             (match sup ≫= SWill with Some _ => [] | None => option_list (Will s) end) es)
  | OpAttach now c opts false =>
      (* [Connect] closes the superseded connection and drops its record *)
      let '(_, s', es) := Connect now c s in
      (s', mkOut [] [] (if decide (Will s' = Will s) then [] else option_list (Will s)) es)
  | OpDetach now =>
      let '(sup, s', es) := DetachForTakeover envs now s in
      (s', mkOut [] (option_list (SWill sup))
             (match SWill sup with Some _ => [] | None => option_list (Will s) end) es)
  | OpDisconnect now cause rc =>
      let '(s', es) := disconnectLocked envs now cause rc s in
      (s', mkOut [] [] (if decide (Will s' = Will s) then [] else option_list (Will s)) es)
  | OpDisconnectIf now cause e rc =>
      let '(s', es) := DisconnectWithCauseIf envs now cause e rc s in
      (s', mkOut [] [] (if decide (Will s' = Will s) then [] else option_list (Will s)) es)
  | OpTakeWill => let '(w, s') := TakeWill s in (s', mkOut [] (option_list w) [] [])
  | OpUpdateOptions v ka w =>
      let '(s', es) := UpdateConnectionOptions v ka w s in
      (s', mkOut (option_list w) [] (option_list (Will s)) es)
  | OpTryAcquire p g => ((TryAcquireSendQuota p g s).2, out_nil)
  | OpReleaseQuota p g => (ReleaseSendQuota p g s, out_nil)
  | OpEnqueuePending m f => ((TryEnqueuePending m f s).2, out_nil)
  | OpDrainOne d => let '(_, s', es) := DrainOnePending d s in (s', mkOut [] [] [] es)
  | OpClearMessages =>
      let '(s', es, _) :=
        ClearMessages (map_to_list (Inflight.messages (inflight (handler s)))) s in
      (s', mkOut [] [] [] es)
  | OpInflight f => (set_inflight (f (inflight (handler s))) s, out_nil)
  | OpMarkSent now p g => (MarkSentIfEpoch now p g s, out_nil)
  | OpMarkRetry now g p => (markRetryIfEpoch now g p s, out_nil)
  | OpRetries now write g =>
      ((ProcessRetriesTo envs now write g (map_to_list (Inflight.messages (inflight (handler s)))) s).1,
       out_nil)
  | OpNextPacketID fuel =>
      (match NextPacketID fuel s with Some (_, s') => s' | None => s end, out_nil)
  | OpBind id req => ((BindExternalIdentity id req s).2, out_nil)
  | OpMarkOffline now => (MarkOffline now s, out_nil)
  | OpRestore st => (RestoreFrom st s, out_nil)
  | OpSetExpiry i => (SetExpiryInterval i s, out_nil)
  | OpSetOnDisconnect fn => (SetOnDisconnectWithCause fn s, out_nil)
  | OpAddSubscription f opts => (AddSubscription f opts s, out_nil)
  | OpRemoveSubscription f => (RemoveSubscription f s, out_nil)
  | OpTopicAlias t a => (SetTopicAlias t a s, out_nil)
  | OpInboundAlias a t => (SetInboundAlias a t s, out_nil)
  end.

Fixpoint run (ops : list op) (s : Session) : Session * out :=
  match ops with
  | [] => (s, out_nil)
  | o :: ops =>
      let '(s1, o1) := step o s in
      let '(s2, o2) := run ops s1 in (s2, out_app o1 o2)
  end.
End history.

(** ** The fields of the lifecycle *)

Record core := mkCore {
  k_state : State; k_conn : option nat; k_stop : nat * bool; k_epoch : Z;
  k_window : SendWindow.sendWindow; k_will : option nat; k_disc : gotime; k_max : Z
}.
Definition core_of (s : Session) : core :=
  mkCore (state s) (conn s) (deliverStop s) (epoch s) (sendWindow s) (Will s) (disconnectedAt s)
    (serverMaxInflight s).

Section lifecycle.
Context (envs : nat → Envelope).

Lemma core_drain s : core_of (drainPendingToOffline envs s).1 = core_of s.
Proof.
  unfold drainPendingToOffline. destruct (pendingCh s) as [ch|]; [|done].
  by destruct (drain_items envs (items ch) (offlineQueue (handler s))).
Qed.

(** [disconnectLocked] and the second half of [DetachForTakeover]. *)
Lemma core_disconnect now cause rc s : core_of (disconnectLocked envs now cause rc s).1 =
  if decide (state s = StateConnected) then
    mkCore StateDisconnected None ((deliverStop s).1, true) (epoch s) (sendWindow s)
      (if DiscardsWill cause then None else Will s)
      (match conn s with Some _ => Some now | None => disconnectedAt s end) (serverMaxInflight s)
  else core_of s.
Proof.
  unfold disconnectLocked. case_decide as E; [|by rewrite bool_decide_false].
  rewrite bool_decide_true by done. cbn [negb].
  change (conn (close_stop (s <| state := StateDisconnecting |>))) with (conn s).
  destruct (conn s) as [c|] eqn:Ec;
    (match goal with |- context [drainPendingToOffline envs ?x] => set (s1 := x) end);
    pose proof (core_drain s1) as Hd; destruct (drainPendingToOffline envs s1) as [s2 es];
    cbn [fst] in Hd |- *;
    change (core_of (s2 <| handler := ClearAliases (handler s2) |>)) with (core_of s2); rewrite Hd;
    unfold s1; destruct (DiscardsWill cause); unfold core_of; cbn; by rewrite ?Ec.
Qed.

Lemma core_detach now s : let r := DetachForTakeover envs now s in
  core_of r.1.2 =
    mkCore (match state s with StateConnected => StateDisconnected | st => st end)
      (match state s with StateConnected => None | _ => conn s end)
      (match state s with StateConnected => ((deliverStop s).1, true) | _ => deliverStop s end)
      (u64 (epoch s + 1)) (sendWindow s) None
      (match state s with StateConnected => Some now | _ => disconnectedAt s end) (serverMaxInflight s) ∧
  SWill r.1.1 = match state s with StateNew | StateConnecting => None | _ => Will s end.
Proof.
  unfold DetachForTakeover. change (state (s <| epoch := u64 (epoch s + 1) |>)) with (state s).
  destruct (state s) eqn:E; cbv zeta; try (by split; unfold core_of; cbn; rewrite ?E).
  - change (state (s <| epoch := u64 (epoch s + 1) |> <| Will := None |>)) with (state s). rewrite E.
    change (negb (bool_decide (StateConnected = StateConnected))) with false. cbv iota.
    (match goal with |- context [drainPendingToOffline envs ?x] => set (s1 := x) end).
    pose proof (core_drain s1) as Hd. destruct (drainPendingToOffline envs s1) as [s2 es]. cbn [fst] in Hd.
    split; [|done]. cbn [fst snd].
    change (core_of (s2 <| handler := ClearAliases (handler s2) |>)) with (core_of s2). by rewrite Hd.
  - change (state (s <| epoch := u64 (epoch s + 1) |> <| Will := None |>)) with (state s). rewrite E.
    change (negb (bool_decide (StateDisconnecting = StateConnected))) with true. cbv iota.
    cbn [fst snd]. split; [|done]. unfold core_of. f_equal. exact E.
  - change (state (s <| epoch := u64 (epoch s + 1) |> <| Will := None |>)) with (state s). rewrite E.
    change (negb (bool_decide (StateDisconnected = StateConnected))) with true. cbv iota.
    cbn [fst snd]. split; [|done]. unfold core_of. f_equal. exact E.
Qed.

(** The capacity [resetSendWindowLocked] chooses. *)
Definition new_capacity (opts : ConnectOptions) (applyOpts : bool) (s : Session) : Z :=
  let capacity :=
    if applyOpts then
      if (CReceiveMaximum opts <=? 0) || (serverMaxInflight s <? CReceiveMaximum opts)
      then serverMaxInflight s else CReceiveMaximum opts
    else ReceiveMaximum s in
  if capacity <? 1 then 1 else capacity.

Lemma resetSendWindow_eq opts applyOpts s : resetSendWindowLocked (CReceiveMaximum opts) applyOpts s =
  s <| ReceiveMaximum := u16 (new_capacity opts applyOpts s) |>
    <| sendWindow := SendWindow.reset (new_capacity opts applyOpts s) (epoch s) (sendWindow s) |>.
Proof. done. Qed.

Lemma new_capacity_bounds opts applyOpts s : 1 <= new_capacity opts applyOpts s ∧
  (applyOpts = true → 1 <= serverMaxInflight s → new_capacity opts applyOpts s <= serverMaxInflight s).
Proof.
  unfold new_capacity. split; [repeat case_match; bool_prop; lia|].
  intros -> Hm. destruct (_ || _) eqn:E; bool_prop; case_match; bool_prop; lia.
Qed.

Lemma core_attach now c opts applyOpts s : let r := attach now c opts applyOpts s in
  core_of r.1.2 =
    mkCore StateConnected (Some c)
      (if (deliverStop s).2 then (S (deliverStop s).1, false) else deliverStop s) (u64 (epoch s + 1))
      (SendWindow.reset (new_capacity opts applyOpts s) (u64 (epoch s + 1)) (sendWindow s))
      (if applyOpts then CWill opts
       else match conn s, state s with None, StateDisconnected => None | _, _ => Will s end)
      (disconnectedAt s) (serverMaxInflight s) ∧
  r.1.1.1 = u64 (epoch s + 1) ∧
  (r.1.1.2 ≫= SWill) =
    match conn s, state s with Some _, _ | None, StateDisconnected => Will s | _, _ => None end.
Proof.
  unfold attach.
  assert (Hs : ∀ sup s1, (match conn s, state s, Will s with
    | Some old, _, _ => (Some (mkSuperseded (Some old) (Version s) (Will s)),
         if applyOpts then s <| Will := None |> else s)
    | None, StateDisconnected, Some w =>
        (Some (mkSuperseded None (Version s) (Some w)), s <| Will := None |>)
    | None, _, _ => (None, s)
    end) = (sup, s1) → (sup ≫= SWill) =
      match conn s, state s with Some _, _ | None, StateDisconnected => Will s | _, _ => None end ∧
    s1 = s <| Will := Will s1 |> ∧ (applyOpts = false →
    Will s1 = match conn s, state s with None, StateDisconnected => None | _, _ => Will s end)).
  { assert (Heta : s = s <| Will := Will s |>) by by destruct s.
    intros sup s1. destruct (conn s), (state s), (Will s) eqn:Ew, applyOpts; intros [= <- <-];
      cbn [mbind option_bind SWill Will update]; rewrite ?Ew; split_and!;
      first [done | exact Heta | by rewrite <-Ew | intros _; done]. }
  destruct (match conn s, state s, Will s with Some _, _, _ => _ | _, _, _ => _ end) as [sup s1] eqn:E.
  destruct (Hs _ _ eq_refl) as (H1 & H2 & H3). cbn [fst snd].
  revert H2 H3. generalize (Will s1). intros w1 -> H3.
  clear Hs E. destruct applyOpts; [|specialize (H3 eq_refl)]; destruct s; destruct deliverStop0 as [n []];
    (split_and!; [|reflexivity|exact H1]); unfold core_of; cbn in H3 |- *; by rewrite <-?H3.
Qed.

(** ** The quota *)

Definition quota (w : SendWindow.sendWindow) : Prop :=
  1 <= SendWindow.capacity w ∧ Z.of_nat (size (SendWindow.held w)) <= SendWindow.capacity w.

(** A call on the window of one generation. *)
Definition window_call (w w' : SendWindow.sendWindow) : Prop :=
  SendWindow.gen w' = SendWindow.gen w ∧ SendWindow.capacity w' = SendWindow.capacity w ∧
  (quota w → quota w').

Lemma window_call_refl w : window_call w w.
Proof. done. Qed.
Lemma window_call_trans w1 w2 w3 : window_call w1 w2 → window_call w2 w3 → window_call w1 w3.
Proof. intros (? & ? & ?) (? & ? & ?). split_and!; [congruence..|auto]. Qed.

Lemma window_tryAcquire p g w : let r := SendWindow.tryAcquire p g w in
  window_call w r.2 ∧ SendWindow.held w ⊆ SendWindow.held r.2 ∧
  (r.1 = true → g = SendWindow.gen w ∧ p ∈ SendWindow.held r.2) ∧
  (g ≠ SendWindow.gen w → r = (false, w)).
Proof.
  unfold SendWindow.tryAcquire, SendWindow.tryAcquireLocked.
  destruct (g =? SendWindow.gen w) eqn:E; bool_prop; cbn [negb]; [|done].
  case_decide; [done|]. destruct (_ <=? _) eqn:Ec; bool_prop; [done|]. cbn [fst snd].
  split_and!; [|set_solver| |done].
  - split_and!; [done..|]. intros [H1 H2]. split; [done|]. cbn.
    rewrite size_union_alt, size_singleton. rewrite difference_disjoint by set_solver. lia.
  - intros _. split; [done|]. cbn. set_solver.
Qed.

Lemma window_release p g w :
  window_call w (SendWindow.release p g w) ∧ (g ≠ SendWindow.gen w → SendWindow.release p g w = w).
Proof.
  unfold SendWindow.release. destruct (g =? SendWindow.gen w) eqn:E; bool_prop; [|done].
  case_decide; [|done]. split; [|done].
  destruct (SendWindowFacts.wake_fields (SendWindow.set_held (SendWindow.held w ∖ {[p]}) w))
    as (H1 & H2 & H3 & _).
  split_and!; [by rewrite H2|by rewrite H1|]. intros [? Hq]. unfold quota. rewrite H1, H3. cbn.
  split; [done|]. assert (size (SendWindow.held w ∖ {[p]}) ≤ size (SendWindow.held w))%nat; [|lia].
  apply subseteq_size. set_solver.
Qed.

Lemma quota_reset c g w : quota (SendWindow.reset c g w) ∧ SendWindow.gen (SendWindow.reset c g w) = g.
Proof.
  unfold SendWindow.reset. destruct (SendWindowFacts.wake_fields (SendWindow.mkSendWindow (SendWindow.clamp c) g ∅
    (SendWindow.waiters w) (SendWindow.ready w) (SendWindow.blocking w))) as (H1 & H2 & H3 & _).
  unfold quota. rewrite H1, H2, H3. cbn. pose proof (SendWindowFacts.clamp_pos c). split; [|done].
  rewrite size_empty. lia.
Qed.

Lemma resendMessage_ids now write m version t p :
  p ∈ (resendMessage envs now write m version t).2 →
  match p with RetryPubRel id _ | RetryPublish _ id _ => id = Inflight.MsgPacketID m end.
Proof.
  unfold resendMessage. destruct (Inflight.Message m); [|set_solver].
  case_match; cbn [snd]; rewrite list_elem_of_singleton; by intros ->.
Qed.

Lemma retry_loop_window now write version g expired : ∀ w t,
  let r := retry_loop envs now write version g expired w t in
  window_call w r.1.1 ∧ SendWindow.held w ⊆ SendWindow.held r.1.1 ∧
  ∀ p, p ∈ r.2 → g = SendWindow.gen w ∧
    match p with RetryPubRel id _ | RetryPublish _ id _ => id ∈ SendWindow.held r.1.1 end.
Proof.
  induction expired as [|m expired IH]; intros w t; [split_and!; [done|done|set_solver]|].
  cbn [retry_loop]. destruct (negb _); [apply IH|].
  destruct (window_tryAcquire (Inflight.MsgPacketID m) g w) as (Hw & Hs & Ht & _).
  destruct (SendWindow.tryAcquire _ g w) as [[] w1]; cbn [fst snd] in *.
  - destruct (Ht eq_refl) as [Hg Hin]. pose proof (resendMessage_ids now write m version t) as Hids.
    destruct (resendMessage envs now write m version t) as [t1 out].
    specialize (IH w1 t1). destruct (retry_loop envs now write version g expired w1 t1) as [[w2 t2] outs].
    destruct IH as (I1 & I2 & I3). cbn [fst snd] in *. split_and!; [by eapply window_call_trans|set_solver|].
    intros p [Hp|Hp]%elem_of_app.
    + split; [done|]. specialize (Hids p Hp). destruct p; subst; set_solver.
    + destruct (I3 p Hp) as [E ?]. split; [|done]. rewrite E. apply Hw.
  - destruct (IH w1 t) as (I1 & I2 & I3).
    split_and!; [by eapply window_call_trans|set_solver|]. intros p Hp. destruct (I3 p Hp) as [E ?].
    split; [|done]. rewrite E. apply Hw.
Qed.

(** ** One call and the lifecycle fields *)

Definition set_window (w : SendWindow.sendWindow) (k : core) : core :=
  mkCore (k_state k) (k_conn k) (k_stop k) (k_epoch k) w (k_will k) (k_disc k) (k_max k).

(** The calls that change none of them. *)
Definition quiet (o : op) : bool :=
  match o with
  | OpAttach _ _ _ _ | OpDetach _ | OpDisconnect _ _ _ | OpDisconnectIf _ _ _ _ | OpTakeWill
  | OpUpdateOptions _ _ _ | OpTryAcquire _ _ | OpReleaseQuota _ _ | OpRetries _ _ _ | OpMarkOffline _ => false
  | _ => true
  end.

Lemma core_quiet o s : quiet o = true → core_of (step envs o s).1 = core_of s ∧
  installed (step envs o s).2 = [] ∧ handed (step envs o s).2 = [] ∧ dropped (step envs o s).2 = [].
Proof.
  destruct o; try done; intros _; cbn [step]; try done.
  - unfold TryEnqueuePending. repeat case_match; by split_and!.
  - unfold DrainOnePending. repeat case_match; simplify_eq/=; by split_and!.
  - unfold ClearMessages. destruct (pendingCh s); cbn; by split_and!.
  - unfold MarkSentIfEpoch. case_match; by split_and!.
  - unfold markRetryIfEpoch. repeat case_match; by split_and!.
  - unfold NextPacketID. cbn. destruct (NextPacketID_loop _ _ _) as [[]|]; by split_and!.
  - unfold BindExternalIdentity. case_match; by split_and!.
Qed.

Lemma core_window o s : match o with OpTryAcquire _ _ | OpReleaseQuota _ _ | OpRetries _ _ _ => True | _ => False end →
  (∃ w, core_of (step envs o s).1 = set_window w (core_of s) ∧ window_call (sendWindow s) w) ∧
  (step envs o s).2 = out_nil.
Proof.
  destruct o; try done; intros _; (split; [|done]); cbn [step].
  - unfold TryAcquireSendQuota. destruct (window_tryAcquire packetID g (sendWindow s)) as [Hw _].
    destruct (SendWindow.tryAcquire _ _ _) as [ok w]. by exists w.
  - eexists. split; [reflexivity|]. apply window_release.
  - unfold ProcessRetriesTo, retries_admit. destruct (epoch s =? g); [|by exists (sendWindow s); destruct s].
    cbn [negb]. unfold ProcessRetries. (match goal with |- context [retry_loop envs ?a ?b ?c ?d ?e ?f ?h] =>
      destruct (retry_loop_window a b c d e f h) as [Hw _];
      destruct (retry_loop envs a b c d e f h) as [[w t] out] end).
    by exists w.
Qed.

(** ** The invariant *)

Record inv (k : core) : Prop := {
  inv_state : k_state k ≠ StateConnecting ∧ k_state k ≠ StateDisconnecting;
  inv_conn : k_state k = StateConnected ↔ is_Some (k_conn k);
  inv_stop : (k_stop k).2 = bool_decide (k_state k = StateDisconnected);
  inv_disc : k_state k = StateDisconnected → is_Some (k_disc k);
  inv_gen : k_state k = StateConnected → SendWindow.gen (k_window k) = k_epoch k;
  inv_quota : quota (k_window k);
  inv_epoch : 0 <= k_epoch k < 2 ^ 64
}.

Lemma inv_disconnect now cause rc s : inv (core_of s) →
  inv (core_of (disconnectLocked envs now cause rc s).1).
Proof.
  intros Hinv. rewrite core_disconnect. case_decide as E; [|done]. destruct Hinv.
  split; cbn; try done. intros _.
  destruct (proj1 inv_conn0 E) as [c Hc]. cbn in Hc. rewrite Hc. by eexists.
Qed.

Lemma inv_detach now s : inv (core_of s) → inv (core_of (DetachForTakeover envs now s).1.2).
Proof.
  intros Hinv. destruct (core_detach now s) as [-> _]. destruct Hinv. cbn in *.
  destruct (state s); (split; cbn; [done..| | |apply u64_range]); try done.
Qed.

Lemma inv_attach now c opts applyOpts s : inv (core_of s) →
  inv (core_of (attach now c opts applyOpts s).1.2).
Proof.
  intros Hinv. destruct (core_attach now c opts applyOpts s) as [-> _]. destruct Hinv. cbn in *.
  destruct (quota_reset (new_capacity opts applyOpts s) (u64 (epoch s + 1)) (sendWindow s)).
  split; cbn; try done. by destruct ((deliverStop s).2) eqn:E. apply u64_range.
Qed.

Lemma step_attach now c opts applyOpts s :
  (step envs (OpAttach now c opts applyOpts) s).1 = (attach now c opts applyOpts s).1.2 ∨
  applyOpts = false ∧
  (step envs (OpAttach now c opts applyOpts) s).1 = (attach now c ConnectOptions_zero false s).1.2.
Proof.
  destruct applyOpts; cbn [step]; [left|right].
  - unfold ConnectWithOptions. by destruct (attach now c opts true s) as [[[]] ?].
  - unfold Connect. by destruct (attach now c ConnectOptions_zero false s) as [[[]] ?].
Qed.

Lemma session_inv_step o s : inv (core_of s) → inv (core_of (step envs o s).1).
Proof.
  intros Hinv. destruct (quiet o) eqn:Eq; [by rewrite (proj1 (core_quiet o s Eq))|].
  destruct o; try done.
  - destruct (step_attach now c opts applyOpts s) as [->|[_ ->]]; by apply inv_attach.
  - cbn [step]. pose proof (inv_detach now s Hinv). by destruct (DetachForTakeover envs now s) as [[]].
  - cbn [step]. pose proof (inv_disconnect now cause reasonCode s Hinv).
    by destruct (disconnectLocked envs now cause reasonCode s).
  - cbn [step]. unfold DisconnectWithCauseIf. destruct (epoch s =? e); [|done]. cbn [negb].
    pose proof (inv_disconnect now cause reasonCode s Hinv).
    by destruct (disconnectLocked envs now cause reasonCode s).
  - destruct Hinv. by split.
  - destruct Hinv. by split.
  - destruct (core_window (OpTryAcquire packetID g) s I) as [(w & -> & Hw) _].
    destruct Hinv, Hw as (Hg & _ & Hq). split; cbn in *; try done; [by rewrite Hg|auto].
  - destruct (core_window (OpReleaseQuota packetID g) s I) as [(w & -> & Hw) _].
    destruct Hinv, Hw as (Hg & _ & Hq). split; cbn in *; try done; [by rewrite Hg|auto].
  - destruct (core_window (OpRetries now write g) s I) as [(w & -> & Hw) _].
    destruct Hinv, Hw as (Hg & _ & Hq). split; cbn in *; try done; [by rewrite Hg|auto].
  - cbn [step fst]. unfold MarkOffline. destruct (disconnectedAt s) eqn:E; [done|].
    destruct Hinv. by split.
Qed.

Lemma run_app ops1 ops2 s : run envs (ops1 ++ ops2) s =
  let '(s1, o1) := run envs ops1 s in
  let '(s2, o2) := run envs ops2 s1 in (s2, out_app o1 o2).
Proof.
  revert s. induction ops1 as [|o ops1 IH]; intros s; cbn [run app].
  - destruct (run envs ops2 s) as [? []]. done.
  - destruct (step envs o s) as [s1 o1]. rewrite IH. destruct (run envs ops1 s1) as [s2 o2].
    destruct (run envs ops2 s2) as [s3 o3]. unfold out_app. cbn. by rewrite !app_assoc.
Qed.

Lemma inv_run ops : ∀ s, inv (core_of s) → inv (core_of (run envs ops s).1).
Proof.
  induction ops as [|o ops IH]; intros s Hinv; [done|]. cbn [run].
  pose proof (session_inv_step o s Hinv) as H1. destruct (step envs o s) as [s1 o1].
  specialize (IH s1 H1). by destruct (run envs ops s1).
Qed.

Lemma inv_New clientID version opts t q cfg :
  inv (core_of (Session.New clientID version opts t q cfg)).
Proof.
  split; cbn; try done. unfold quota. cbn. rewrite size_empty.
  pose proof (SendWindowFacts.clamp_pos (if OReceiveMaximum opts =? 0 then 65535 else OReceiveMaximum opts)).
  lia.
Qed.

(** ** Generations *)

Definition attaches (ops : list op) : nat :=
  length (filter (λ o, match o with OpAttach _ _ _ _ => true | _ => false end = true) ops).
Definition transitions (ops : list op) : nat :=
  length (filter (λ o, match o with OpAttach _ _ _ _ | OpDetach _ => true | _ => false end = true) ops).

Lemma attaches_cons o ops : attaches (o :: ops) =
  ((match o with OpAttach _ _ _ _ => 1 | _ => 0 end) + attaches ops)%nat.
Proof. unfold attaches. by destruct o. Qed.
Lemma transitions_cons o ops : transitions (o :: ops) =
  ((match o with OpAttach _ _ _ _ | OpDetach _ => 1 | _ => 0 end) + transitions ops)%nat.
Proof. unfold transitions. by destruct o. Qed.

(** The generation counts attachments and detachments; the window is that of the
    last attachment. *)
Lemma step_generation o s : let s' := (step envs o s).1 in
  match o with
  | OpAttach _ _ _ _ => epoch s' = u64 (epoch s + 1) ∧ SendWindow.gen (sendWindow s') = u64 (epoch s + 1)
  | OpDetach _ => epoch s' = u64 (epoch s + 1) ∧ SendWindow.gen (sendWindow s') = SendWindow.gen (sendWindow s)
  | _ => epoch s' = epoch s ∧ SendWindow.gen (sendWindow s') = SendWindow.gen (sendWindow s)
  end.
Proof.
  assert (Hk : ∀ s' k, core_of s' = k → epoch s' = k_epoch k ∧
    SendWindow.gen (sendWindow s') = SendWindow.gen (k_window k)) by (by intros s' k <-).
  destruct (quiet o) eqn:Eq.
  { destruct (Hk _ _ (proj1 (core_quiet o s Eq))) as [E1 E2]. by destruct o. }
  destruct o; try done.
  - assert (∀ os b, epoch (attach now c os b s).1.2 = u64 (epoch s + 1) ∧
      SendWindow.gen (sendWindow (attach now c os b s).1.2) = u64 (epoch s + 1)) as H.
    { intros os b. destruct (Hk _ _ (proj1 (core_attach now c os b s))) as [-> ->]. split; [done|].
      cbn. apply quota_reset. }
    destruct (step_attach now c opts applyOpts s) as [->|[_ ->]]; apply H.
  - cbn [step]. destruct (core_detach now s) as [H _]. destruct (DetachForTakeover envs now s) as [[]].
    by apply Hk in H.
  - cbn [step]. pose proof (core_disconnect now cause reasonCode s) as H.
    destruct (disconnectLocked envs now cause reasonCode s). cbn in H |- *. apply Hk in H.
    by destruct (decide _).
  - cbn [step]. unfold DisconnectWithCauseIf. destruct (epoch s =? e); [|done]. cbn [negb].
    pose proof (core_disconnect now cause reasonCode s) as H.
    destruct (disconnectLocked envs now cause reasonCode s). cbn in H |- *. apply Hk in H.
    by destruct (decide _).
  - destruct (core_window (OpTryAcquire packetID g) s I) as [(w & H & Hw & _) _].
    apply Hk in H as [E1 E2]. split; [exact E1|exact (eq_trans E2 Hw)].
  - destruct (core_window (OpReleaseQuota packetID g) s I) as [(w & H & Hw & _) _].
    apply Hk in H as [E1 E2]. split; [exact E1|exact (eq_trans E2 Hw)].
  - destruct (core_window (OpRetries now write g) s I) as [(w & H & Hw & _) _].
    apply Hk in H as [E1 E2]. split; [exact E1|exact (eq_trans E2 Hw)].
  - cbn [step fst]. unfold MarkOffline. by destruct (disconnectedAt s).
Qed.

Lemma u64_add z n : u64 (u64 z + n) = u64 (z + n).
Proof. unfold u64. apply Zplus_mod_idemp_l. Qed.

Lemma run_generation ops : ∀ s, 0 <= epoch s < 2 ^ 64 → let s' := (run envs ops s).1 in
  epoch s' = u64 (epoch s + Z.of_nat (transitions ops)) ∧
  (if decide (attaches ops = O) then SendWindow.gen (sendWindow s') = SendWindow.gen (sendWindow s)
   else ∃ k, 1 <= k <= Z.of_nat (transitions ops) ∧ SendWindow.gen (sendWindow s') = u64 (epoch s + k)).
Proof.
  induction ops as [|o ops IH]; intros s He.
  { cbn. split; [|done]. by rewrite Z.add_0_r, u64_small. }
  cbn [run]. pose proof (step_generation o s) as H1. cbv zeta in H1.
  destruct (step envs o s) as [s1 o1]. cbn [fst] in H1.
  assert (He1 : 0 <= epoch s1 < 2 ^ 64).
  { destruct o; destruct H1 as [-> _]; try done; apply u64_range. }
  specialize (IH s1 He1). destruct (run envs ops s1) as [s2 o2]. cbn [fst] in *.
  destruct IH as [I1 I2]. rewrite attaches_cons, transitions_cons.
  destruct o; cbn [Nat.add]; destruct H1 as [E1 E2]; rewrite E1 in *; try (split; [exact I1|]);
    try (destruct (decide (attaches ops = O)); [by rewrite I2, E2|exact I2]).
  - rewrite u64_add in I1. split; [rewrite I1; f_equal; lia|]. rewrite decide_False by lia.
    destruct (decide (attaches ops = O)) as [E|E].
    + exists 1. split; [lia|]. by rewrite I2, E2.
    + destruct I2 as (k & Hk & ->). exists (1 + k). split; [lia|]. rewrite u64_add. f_equal. lia.
  - rewrite u64_add in I1. split; [rewrite I1; f_equal; lia|].
    destruct (decide (attaches ops = O)) as [E|E]; [by rewrite I2, E2|].
    destruct I2 as (k & Hk & ->). exists (1 + k). split; [lia|]. rewrite u64_add. f_equal. lia.
Qed.

(** A session in the middle of any history. *)
Definition reachable (s : Session) : Prop := ∃ clientID version opts t q cfg ops,
  s = (run envs ops (Session.New clientID version opts t q cfg)).1.

Lemma session_inv_reachable s : reachable s → inv (core_of s).
Proof. intros (? & ? & ? & ? & ? & ? & ops & ->). apply inv_run, inv_New. Qed.

Lemma window_eta s : s <| sendWindow := sendWindow s |> = s.
Proof. by destruct s. Qed.

Lemma inflight_eta s : set_inflight (inflight (handler s)) s = s.
Proof.
  unfold set_inflight. replace (handler s <| inflight := inflight (handler s) |>) with (handler s); [by destruct s|].
  by destruct (handler s).
Qed.

(** C30 Lifecycle of a session: whatever calls are made, in any order, a session is
    connected exactly when it has a connection, its stop channel is closed exactly
    while it is disconnected, a disconnected session has a disconnect time, and
    the outbound quota of a connected session is the one of its current
    connection and is never exceeded; connecting with options keeps the quota
    within the server's limit. *)
Theorem session_lifecycle s : reachable s →
  (state s = StateNew ∨ state s = StateConnected ∨ state s = StateDisconnected) ∧
  (state s = StateConnected ↔ is_Some (conn s)) ∧
  ((deliverStop s).2 = true ↔ state s = StateDisconnected) ∧
  (state s = StateDisconnected → is_Some (disconnectedAt s)) ∧
  (state s = StateConnected → SendWindow.gen (sendWindow s) = epoch s) ∧
  Z.of_nat (size (SendWindow.held (sendWindow s))) <= SendWindow.capacity (sendWindow s) ∧
  ∀ now c opts, 1 <= serverMaxInflight s →
    let s' := (ConnectWithOptions now c opts s).1.2 in
    IsConnected s' = true ∧ 1 <= SendWindow.capacity (sendWindow s') <= serverMaxInflight s ∧
    SendWindow.held (sendWindow s') = ∅ ∧ epoch s' = (ConnectWithOptions now c opts s).1.1.1.
Proof.
  intros Hr. pose proof (session_inv_reachable s Hr) as [Hs Hc Hst Hd Hg Hq _]. cbn in *.
  split_and!; [destruct (state s); tauto|done| |done|done|apply Hq|].
  - rewrite Hst. by rewrite bool_decide_eq_true.
  - intros now c opts Hm. destruct (core_attach now c opts true s) as (Hk & He & _).
    fold (ConnectWithOptions now c opts s) in Hk, He.
    set (s' := (ConnectWithOptions now c opts s).1.2) in *. cbv zeta.
    destruct (new_capacity_bounds opts true s) as [H1 H2]. specialize (H2 eq_refl Hm).
    unfold IsConnected. rewrite (f_equal k_state Hk : state s' = _), (f_equal k_conn Hk : conn s' = _),
      (f_equal k_window Hk : sendWindow s' = _), (f_equal k_epoch Hk : epoch s' = _).
    unfold SendWindow.reset. cbn [k_window k_epoch k_conn k_state].
    destruct (SendWindowFacts.wake_fields (SendWindow.mkSendWindow (SendWindow.clamp (new_capacity opts true s))
      (u64 (epoch s + 1)) ∅ (SendWindow.waiters (sendWindow s)) (SendWindow.ready (sendWindow s))
      (SendWindow.blocking (sendWindow s)))) as (-> & _ & -> & _).
    cbn. unfold SendWindow.clamp. rewrite (proj2 (Z.ltb_ge _ _)) by lia. by rewrite He.
Qed.

(** A retransmission cycle of another generation than the window's sends nothing. *)
Lemma retry_loop_stale now write version g expired w t : g ≠ SendWindow.gen w →
  retry_loop envs now write version g expired w t = (w, t, []).
Proof.
  intros Hg. induction expired as [|m expired IH]; [done|]. cbn [retry_loop].
  destruct (negb _); [done|]. by destruct (window_tryAcquire (Inflight.MsgPacketID m) g w) as (_ & _ & _ & ->).
Qed.

(** C31 A superseded connection cannot touch its replacement: once a later
    attachment or detachment has moved the session on (within 2^64 of them), a
    disconnect, a sent mark or a retry mark that carries the old generation
    changes nothing and does nothing, and a retransmission cycle is not started.
    Once a later attachment is among them the old generation can neither take nor
    return send quota, so that even a cycle that had passed its check before, and
    goes on without the lock, sends nothing more.  (After a detachment alone the
    window still is the old generation's.)  What no check covers is the one
    message for which such a cycle already holds a token: sending it may stamp
    that message, and no other, as attempted. *)
Theorem stale_generation s ops : reachable s →
  (0 < transitions ops)%nat → Z.of_nat (transitions ops) < 2 ^ 64 →
  let e := epoch s in let s' := (run envs ops s).1 in
  (∀ now cause rc, DisconnectWithCauseIf envs now cause e rc s' = (s', [])) ∧
  (∀ now p, MarkSentIfEpoch now p e s' = s') ∧ (∀ now p, markRetryIfEpoch now e p s' = s') ∧
  retries_admit e s' = None ∧
  (∀ now write entries, ProcessRetriesTo envs now write e entries s' = (s', [])) ∧
  ((0 < attaches ops)%nat →
   (∀ p, TryAcquireSendQuota p e s' = (false, s') ∧ ReleaseSendQuota p e s' = s') ∧
   ∀ now write version entries, ProcessRetries envs now write version e entries s' = (s', [])) ∧
  (∀ now write m version, let t := inflight (handler s') in
    (resendMessage envs now write m version t).1 = t ∨
    (resendMessage envs now write m version t).1 = Inflight.MarkDeliveryAttempted (Inflight.MsgPacketID m) now t).
Proof.
  intros Hr Ht Hb e s'. pose proof (inv_epoch _ (session_inv_reachable s Hr)) as He. cbn in He.
  destruct (run_generation ops s He) as [H1 H2]. fold s' in H1, H2.
  assert (Hne : ∀ k, 1 <= k <= Z.of_nat (transitions ops) → u64 (epoch s + k) ≠ e).
  { intros k Hk Heq. unfold u64, e in Heq.
    pose proof (Z.div_mod (epoch s + k) (2 ^ 64)) as Hd.
    assert ((epoch s + k) / 2 ^ 64 <= 1) by (apply Z.lt_succ_r, Z.div_lt_upper_bound; lia).
    assert (0 <= (epoch s + k) / 2 ^ 64) by (apply Z.div_pos; lia). nia. }
  assert (Hep : (epoch s' =? e) = false) by (apply Z.eqb_neq; rewrite H1; apply Hne; lia).
  unfold DisconnectWithCauseIf, MarkSentIfEpoch, markRetryIfEpoch, ProcessRetriesTo, retries_admit. rewrite Hep.
  split_and!; [done..| |].
  - intros Ha. rewrite decide_False in H2 by lia. destruct H2 as (k & Hk & Hgen).
    assert (Hg : e ≠ SendWindow.gen (sendWindow s')) by (rewrite Hgen; apply not_eq_sym, Hne, Hk).
    split.
    + intros p. unfold TryAcquireSendQuota, ReleaseSendQuota.
      destruct (window_tryAcquire p e (sendWindow s')) as (_ & _ & _ & ->); [|done].
      rewrite (proj2 (window_release p e (sendWindow s'))) by done. by rewrite window_eta.
    + intros now write version entries. unfold ProcessRetries. rewrite retry_loop_stale by done.
      by rewrite window_eta, inflight_eta.
  - intros now write m version. unfold resendMessage. destruct (Inflight.Message m); [|by left].
    destruct (_ && _); [by left|]. cbn [fst]. by destruct (write _); [left|right|left].
Qed.

(** ** Wills *)

(** The Wills in the session after a call, handed out and dropped by it. *)
Definition will_balance (s s' : Session) (o : out) : Prop :=
  option_list (Will s) ++ installed o ≡ₚ option_list (Will s') ++ handed o ++ dropped o.

(** The two ways in which [step] accounts for a Will that left. *)
Lemma balance_kept {A} `{EqDecision A} (w w' : option A) : w' = w ∨ w' = None →
  option_list w ++ [] ≡ₚ option_list w' ++ [] ++ (if decide (w' = w) then [] else option_list w).
Proof.
  intros H. rewrite app_nil_r. case_decide as E; [by rewrite E, !app_nil_r|].
  by destruct H as [| ->].
Qed.
Lemma balance_handed {A} (w w' x : option A) : x = w ∨ x = None →
  option_list w ++ option_list w' ≡ₚ
  option_list w' ++ option_list x ++ match x with Some _ => [] | None => option_list w end.
Proof. intros [->| ->]; destruct w, w'; cbn; try done; apply Permutation_swap. Qed.

Lemma will_of_core s' k : core_of s' = k → Will s' = k_will k.
Proof. by intros <-. Qed.

Lemma will_disconnect now cause rc s : let s' := (disconnectLocked envs now cause rc s).1 in
  (Will s' = Will s ∨ Will s' = None) ∧ (cause ≠ DisconnectClean → Will s' = Will s).
Proof.
  cbv zeta. rewrite (will_of_core _ _ (core_disconnect now cause rc s)).
  case_decide; [|by split; [left|]]. cbn. by destruct cause; cbn; split; auto.
Qed.

Lemma step_will o s : will_balance s (step envs o s).1 (step envs o s).2.
Proof.
  unfold will_balance. destruct (quiet o) eqn:Eq.
  { destruct (core_quiet o s Eq) as (Hk & -> & -> & ->).
    rewrite (f_equal k_will Hk : Will (step envs o s).1 = Will s). by rewrite !app_nil_r. }
  destruct o; try done; cbn [step].
  - destruct applyOpts.
    + destruct (core_attach now c opts true s) as (Hk & _ & Hsup). apply will_of_core in Hk.
      unfold ConnectWithOptions. destruct (attach now c opts true s) as [[[e sup] s'] es]. cbn in *.
      rewrite Hk. apply balance_handed. rewrite Hsup. destruct (conn s), (state s); auto.
    + destruct (core_attach now c ConnectOptions_zero false s) as (Hk & _ & _). apply will_of_core in Hk.
      unfold Connect. destruct (attach now c ConnectOptions_zero false s) as [[[e sup] s'] es]. cbn in *.
      apply balance_kept. rewrite Hk. destruct (conn s), (state s); auto.
  - destruct (core_detach now s) as [Hk Hsup]. apply will_of_core in Hk.
    destruct (DetachForTakeover envs now s) as [[sup s'] es]. cbn in *. rewrite Hk.
    apply (balance_handed _ None). rewrite Hsup. destruct (state s); auto.
  - destruct (will_disconnect now cause reasonCode s) as [H _].
    destruct (disconnectLocked envs now cause reasonCode s). by apply balance_kept.
  - unfold DisconnectWithCauseIf. destruct (epoch s =? e); cbn [negb]; [|by apply balance_kept; left].
    destruct (will_disconnect now cause reasonCode s) as [H _].
    destruct (disconnectLocked envs now cause reasonCode s). by apply balance_kept.
  - cbn. apply Permutation_app_comm.
  - destruct (core_window (OpTryAcquire packetID g) s I) as [(w & Hk & _) _].
    apply will_of_core in Hk. cbn [step fst snd] in *. rewrite Hk. by rewrite !app_nil_r.
  - destruct (core_window (OpRetries now write g) s I) as [(w & Hk & _) _].
    apply will_of_core in Hk. cbn [step fst snd] in *. rewrite Hk. by rewrite !app_nil_r.
  - cbn. unfold MarkOffline. by destruct (disconnectedAt s); rewrite !app_nil_r.
Qed.

Lemma run_will ops : ∀ s, will_balance s (run envs ops s).1 (run envs ops s).2.
Proof.
  induction ops as [|o ops IH]; intros s; [unfold will_balance; cbn; by rewrite !app_nil_r|].
  cbn [run]. pose proof (step_will o s) as H1. destruct (step envs o s) as [s1 o1].
  specialize (IH s1). destruct (run envs ops s1) as [s2 o2]. unfold will_balance in *. cbn in *.
  rewrite app_assoc, H1, <-!app_assoc, (app_assoc (handed o1) (dropped o1)).
  rewrite (Permutation_app_comm _ (installed o2)), app_assoc, IH, <-!app_assoc. f_equiv.
  rewrite (app_assoc (handed o2)), (Permutation_app_swap_app (handed o2 ++ dropped o2)), <-!app_assoc.
  do 2 f_equiv. apply Permutation_app_comm.
Qed.

(** The calls after which a Will is still owed: no clean DISCONNECT, no
    replacement of the options, no [Connect] without options. *)
Definition keeps_will (o : op) : Prop :=
  match o with
  | OpDisconnect _ cause _ | OpDisconnectIf _ cause _ _ => cause ≠ DisconnectClean
  | OpUpdateOptions _ _ _ => False
  | OpAttach _ _ _ applyOpts => applyOpts = true
  | _ => True
  end.

Lemma step_not_new o s : state s ≠ StateNew → state (step envs o s).1 ≠ StateNew.
Proof.
  assert (Hk : ∀ s' k, core_of s' = k → state s' = k_state k) by (by intros s' k <-).
  intros Hn. destruct (quiet o) eqn:Eq; [by rewrite (Hk _ _ (proj1 (core_quiet o s Eq)))|].
  destruct o; try done.
  - destruct (step_attach now c opts applyOpts s) as [->|[_ ->]];
      by rewrite (Hk _ _ (proj1 (core_attach now c _ _ s))).
  - cbn [step]. destruct (core_detach now s) as [H _]. destruct (DetachForTakeover envs now s) as [[]].
    apply Hk in H. cbn in H |- *. rewrite H. by destruct (state s).
  - cbn [step]. pose proof (core_disconnect now cause reasonCode s) as H.
    destruct (disconnectLocked envs now cause reasonCode s). apply Hk in H. cbn in H |- *. rewrite H.
    by case_decide.
  - cbn [step]. unfold DisconnectWithCauseIf. destruct (epoch s =? e); [|done]. cbn [negb].
    pose proof (core_disconnect now cause reasonCode s) as H.
    destruct (disconnectLocked envs now cause reasonCode s). apply Hk in H. cbn in H |- *. rewrite H.
    by case_decide.
  - destruct (core_window (OpTryAcquire packetID g) s I) as [(w & H & _) _]. by rewrite (Hk _ _ H).
  - destruct (core_window (OpRetries now write g) s I) as [(w & H & _) _]. by rewrite (Hk _ _ H).
  - cbn. unfold MarkOffline. by destruct (disconnectedAt s).
Qed.

Lemma step_keeps_will o s : inv (core_of s) → state s ≠ StateNew → keeps_will o →
  dropped (step envs o s).2 = [].
Proof.
  intros Hinv Hn Hkeep. destruct (quiet o) eqn:Eq; [by apply (core_quiet o s Eq)|].
  destruct o; try done; cbn [step keeps_will] in *.
  - subst applyOpts. destruct (core_attach now c opts true s) as (_ & _ & Hsup).
    unfold ConnectWithOptions. destruct (attach now c opts true s) as [[[e sup] s'] es]. cbn in *.
    rewrite Hsup. pose proof (inv_conn _ Hinv) as Hc. cbn in Hc.
    pose proof (inv_state _ Hinv) as [? ?]. cbn in *.
    destruct (conn s), (state s), (Will s); try done; by destruct (proj1 Hc eq_refl).
  - destruct (core_detach now s) as [_ Hsup]. destruct (DetachForTakeover envs now s) as [[sup s'] es].
    cbn in *. rewrite Hsup. pose proof (inv_state _ Hinv) as [? ?]. cbn in *.
    by destruct (state s), (Will s).
  - destruct (will_disconnect now cause reasonCode s) as [_ H]. specialize (H Hkeep).
    destruct (disconnectLocked envs now cause reasonCode s). cbn in *. by rewrite decide_True.
  - unfold DisconnectWithCauseIf. destruct (epoch s =? e); [|cbn; by rewrite decide_True]. cbn [negb].
    destruct (will_disconnect now cause reasonCode s) as [_ H]. specialize (H Hkeep).
    destruct (disconnectLocked envs now cause reasonCode s). cbn in *. by rewrite decide_True.
Qed.

Lemma run_keeps_will ops : ∀ s, inv (core_of s) → state s ≠ StateNew → Forall keeps_will ops →
  dropped (run envs ops s).2 = [].
Proof.
  induction ops as [|o ops IH]; intros s Hinv Hn Hk; [done|]. apply Forall_cons in Hk as [Ho Hk].
  cbn [run]. pose proof (step_keeps_will o s Hinv Hn Ho) as H1. pose proof (session_inv_step o s Hinv) as H2.
  pose proof (step_not_new o s Hn) as H3. destruct (step envs o s) as [s1 o1].
  specialize (IH s1 H2 H3 Hk). destruct (run envs ops s1) as [s2 o2]. cbn in *. by rewrite H1, IH.
Qed.

(** C32 A Will is published at most once and never lost on the way: over any
    history, the Wills a session had or was given are, one for one, the one it
    still has, those it handed to a caller that owns them, and those it dropped;
    and unless the client disconnects cleanly or the options are replaced
    outright, none is dropped, so an abnormal end followed by any takeovers
    leaves every Will either held or handed out exactly once. *)
Theorem will_exactly_once s ops : reachable s →
  let '(s', o) := run envs ops s in
  option_list (Will s) ++ installed o ≡ₚ option_list (Will s') ++ handed o ++ dropped o ∧
  (state s ≠ StateNew → Forall keeps_will ops → dropped o = []).
Proof.
  intros Hr. pose proof (run_will ops s) as H1.
  pose proof (run_keeps_will ops s (session_inv_reachable s Hr)) as H2. by destruct (run envs ops s).
Qed.

(** ** Retransmission *)

(** Retransmissions respect the Receive Maximum: a retry cycle of the current
    connection sends only packets that hold a token of its quota, and the tokens
    stay within the capacity the client advertised; a cycle of any other
    generation sends nothing. *)
Theorem retries_within_quota s now write g entries : reachable s →
  let '(s', sent) := ProcessRetriesTo envs now write g entries s in
  (∀ p, p ∈ sent → g = epoch s ∧ match p with RetryPubRel id _ | RetryPublish _ id _ =>
     id ∈ SendWindow.held (sendWindow s') end) ∧
  SendWindow.held (sendWindow s) ⊆ SendWindow.held (sendWindow s') ∧
  SendWindow.capacity (sendWindow s') = SendWindow.capacity (sendWindow s) ∧
  Z.of_nat (size (SendWindow.held (sendWindow s'))) <= SendWindow.capacity (sendWindow s').
Proof.
  intros Hr. pose proof (session_inv_reachable s Hr) as Hinv. pose proof (inv_quota _ Hinv) as Hq. cbn in Hq.
  unfold ProcessRetriesTo, retries_admit. destruct (epoch s =? g) eqn:E; bool_prop; cbn [negb].
  - unfold ProcessRetries. (match goal with |- context [retry_loop envs ?a ?b ?c ?d ?e ?f ?h] =>
      destruct (retry_loop_window a b c d e f h) as (Hw & Hs & Hp);
      destruct (retry_loop envs a b c d e f h) as [[w t] out] end).
    cbn [fst snd] in *. destruct Hw as (_ & Hc & Hq'). split_and!; [|done|done|apply Hq', Hq].
    intros p Hin. split; [done|]. by apply Hp in Hin as [_ ?].
  - split_and!; [by intros p ?%elem_of_nil|done|done|apply Hq].
Qed.

(** ** Pending messages *)

(** The offline queue after messages were appended to a queue of bounded size:
    the newest ones when it evicts, the oldest ones when it refuses. *)
Definition bounded (evict : bool) (n : nat) (l : list Envelope) : list Envelope :=
  if evict then drop (length l - n) l else take n l.

Lemma bounded_small evict n l : (length l ≤ n)%nat → bounded evict n l = l.
Proof.
  intros H. unfold bounded. destruct evict; [|by rewrite take_ge].
  by replace (length l - n)%nat with 0%nat by lia.
Qed.

Lemma bounded_app evict n l x m : (length l ≤ n)%nat → (0 < n)%nat →
  bounded evict n (bounded evict n (l ++ [x]) ++ m) = bounded evict n (l ++ x :: m).
Proof.
  intros Hl Hn. destruct (decide (length l < n)%nat) as [Hlt|Hge].
  { rewrite (bounded_small _ _ (l ++ [x])) by (rewrite length_app; simpl; lia). by rewrite <-app_assoc. }
  assert (length l = n) as El by lia. unfold bounded. destruct evict.
  - destruct l as [|y l]; [simpl in *; lia|]. cbn [length] in *. rewrite <-!app_comm_cons.
    replace (length (y :: l ++ [x]) - n)%nat with 1%nat by (simpl; rewrite length_app; simpl; lia).
    change (drop 1 (y :: l ++ [x])) with (l ++ [x]). rewrite <-app_assoc. cbn [app].
    replace (length (y :: l ++ x :: m) - n)%nat with (S (length (l ++ x :: m) - n)); [done|].
    simpl. rewrite !length_app. simpl. lia.
  - rewrite (take_app_le l) by lia. rewrite (take_ge l) by lia. rewrite !take_app.
    rewrite El, Nat.sub_diag. by rewrite !take_0.
Qed.

(** The contents of the pending messages that outlive the connection. *)
Definition kept_pending (l : list pendingItem) : list Envelope :=
  filter (λ e, 0 < DM_QoS (BM_Delivery (EBroker e))) ((λ i, envs (pmsg i)) <$> l).

Lemma Enqueue_bounded e (q : OfflineQueue.queue Envelope) n :
  OfflineQueue.maxSize q = Z.of_nat n → (0 < n)%nat → (length (OfflineQueue.messages q) ≤ n)%nat →
  match OfflineQueue.Enqueue e q with Ret (q', _) => q' | _ => q end =
  OfflineQueue.mkQueue (bounded (OfflineQueue.evictOnFull q) n (OfflineQueue.messages q ++ [e]))
    (OfflineQueue.maxSize q) (OfflineQueue.evictOnFull q).
Proof.
  intros Hm Hn Hl. unfold OfflineQueue.Enqueue. rewrite Hm. destruct (_ <=? _) eqn:E; bool_prop.
  - unfold bounded. destruct q as [l m ev]. cbn in *. destruct ev; cbn.
    + destruct l as [|x l]; [simpl in *; lia|]. rewrite length_app. cbn [length] in *.
      replace (S (length l) + 1 - n)%nat with 1%nat by lia. by subst.
    + rewrite take_app_le, take_ge by lia. by subst.
  - rewrite bounded_small by (rewrite length_app; simpl; lia). done.
Qed.

Lemma length_bounded evict n l : (length (bounded evict n l) ≤ n)%nat.
Proof. unfold bounded. destruct evict; [rewrite length_drop|rewrite length_take]; lia. Qed.

Lemma drain_items_spec l : ∀ (q : OfflineQueue.queue Envelope) n, OfflineQueue.maxSize q = Z.of_nat n → (0 < n)%nat →
  (length (OfflineQueue.messages q) ≤ n)%nat →
  drain_items envs l q =
  (OfflineQueue.mkQueue (bounded (OfflineQueue.evictOnFull q) n (OfflineQueue.messages q ++ kept_pending l))
    (OfflineQueue.maxSize q) (OfflineQueue.evictOnFull q), (λ i, ReleaseMsg (pmsg i)) <$> l).
Proof.
  induction l as [|i l IH]; intros q n Hm Hn Hl; cbn [drain_items].
  { unfold kept_pending. cbn. rewrite app_nil_r, bounded_small by done. by destruct q. }
  unfold kept_pending. rewrite fmap_cons, filter_cons. fold (kept_pending l).
  destruct (0 <? _) eqn:E; bool_prop.
  - rewrite (Enqueue_bounded _ q n) by done. rewrite (IH _ n); [|done|done|apply length_bounded].
    cbn. rewrite decide_True by done. by rewrite bounded_app.
  - rewrite (IH q n) by done. by rewrite decide_False by lia.
Qed.

Definition releases (es : list effect) : list nat :=
  omap (λ e, match e with ReleaseMsg m => Some m | _ => None end) es.

Lemma releases_items l : releases ((λ i, ReleaseMsg (pmsg i)) <$> l) = pmsg <$> l.
Proof. induction l as [|i l IH]; [done|]. cbn. by f_equal. Qed.

(** What a call leaves behind that ends a connection: as after a drain. *)
Definition drained (s s' : Session) (es : list effect) : Prop := ∃ s1,
  pendingCh s1 = pendingCh s ∧ handler s1 = handler s ∧
  pendingCh s' = pendingCh (drainPendingToOffline envs s1).1 ∧
  offlineQueue (handler s') = offlineQueue (handler (drainPendingToOffline envs s1).1) ∧
  releases es = releases (drainPendingToOffline envs s1).2.

Lemma drained_disconnect now cause rc s : state s = StateConnected →
  drained s (disconnectLocked envs now cause rc s).1 (disconnectLocked envs now cause rc s).2.
Proof.
  intros Hst. unfold disconnectLocked. rewrite bool_decide_true by done. cbn [negb].
  change (conn (close_stop (s <| state := StateDisconnecting |>))) with (conn s).
  destruct (conn s) as [c|]; cbv zeta.
  all: match goal with |- context [drainPendingToOffline envs ?x] => remember x as s1 eqn:E1 end.
  all: assert (pendingCh s1 = pendingCh s ∧ handler s1 = handler s) as [Hp Hh]
    by (rewrite E1; by destruct (DiscardsWill cause)); clear E1.
  all: exists s1; destruct (drainPendingToOffline envs s1) as [s2 es]; (split_and!; [done..|]); cbn [fst snd].
  all: unfold releases; rewrite !omap_app.
  all: match goal with |- context [onDisconnect ?x] => destruct (onDisconnect x) end; cbn; rewrite ?app_nil_r;
    try done.
  all: unfold sendDisconnect; match goal with |- context [conn ?x] => destruct (conn x) end; [|done];
    by destruct (negb _).
Qed.

Lemma drained_detach now s : state s = StateConnected →
  drained s (DetachForTakeover envs now s).1.2 (DetachForTakeover envs now s).2.
Proof.
  intros Hst. unfold DetachForTakeover.
  change (state (s <| epoch := u64 (epoch s + 1) |>)) with (state s). rewrite Hst. cbv zeta.
  change (state (s <| epoch := u64 (epoch s + 1) |> <| Will := None |>)) with (state s).
  rewrite Hst. change (negb (bool_decide (StateConnected = StateConnected))) with false. cbv iota.
  match goal with |- context [drainPendingToOffline envs ?x] => remember x as s1 eqn:E1 end.
  assert (pendingCh s1 = pendingCh s ∧ handler s1 = handler s) as [Hp Hh] by (by rewrite E1). clear E1.
  exists s1. by destruct (drainPendingToOffline envs s1) as [s2 es].
Qed.

(** Overflowed messages survive the connection: when a connected session is
    disconnected for any reason or taken over, its pending queue is empty
    afterwards, every pending envelope is released exactly once, in order, and
    the ones above QoS 0 are appended to the offline queue behind what it held;
    a full queue keeps the newest or the oldest messages, as configured. *)
Theorem disconnect_keeps_pending s ch s' es : state s = StateConnected →
  pendingCh s = Some ch → let q := offlineQueue (handler s) in
  0 < OfflineQueue.maxSize q → OfflineQueue.Len q <= OfflineQueue.maxSize q →
  (∃ now cause rc, disconnectLocked envs now cause rc s = (s', es)) ∨
  (∃ now sup, DetachForTakeover envs now s = (sup, s', es)) →
  items <$> pendingCh s' = Some [] ∧ releases es = pmsg <$> items ch ∧
  OfflineQueue.messages (offlineQueue (handler s')) =
    bounded (OfflineQueue.evictOnFull q) (Z.to_nat (OfflineQueue.maxSize q))
      (OfflineQueue.messages q ++ kept_pending (items ch)).
Proof.
  intros Hst Hch q Hm Hl Hcall. assert (drained s s' es) as (s1 & Hp & Hh & -> & -> & ->).
  { destruct Hcall as [(now & cause & rc & H)|(now & sup & H)].
    - pose proof (drained_disconnect now cause rc s Hst) as Hd. by rewrite H in Hd.
    - pose proof (drained_detach now s Hst) as Hd. by rewrite H in Hd. }
  unfold drainPendingToOffline. rewrite Hp, Hch, Hh. fold q.
  rewrite (drain_items_spec _ q (Z.to_nat (OfflineQueue.maxSize q))); [|lia|lia|unfold OfflineQueue.Len in Hl; lia].
  split_and!; [done|apply releases_items|done].
Qed.
End lifecycle.

(** ** Packet identifiers *)

(** An identifier [NextPacketID] may return. *)
Definition free_id (t : Inflight.inflight) (id : Z) : Prop := id ≠ 0 ∧ Inflight.Has id t = false.

Lemma u16_u32 z : u16 (Z.land (u32 z) 0xFFFF) = z mod 2 ^ 16.
Proof.
  change 0xFFFF with (Z.ones 16). rewrite Z.land_ones by lia. unfold u16, u32.
  rewrite Z.mod_mod by lia. change (2 ^ 32) with (2 ^ 16 * 2 ^ 16). rewrite Z.rem_mul_r by lia.
  rewrite Z.mul_comm, Z_mod_plus_full. by rewrite Z.mod_mod by lia.
Qed.

Lemma NextPacketID_loop_spec fuel t : ∀ next,
  match NextPacketID_loop fuel next t with
  | Some (id16, id) => ∃ k, 1 <= k <= Z.of_nat fuel ∧ id = u32 (next + k) ∧
      id16 = (next + k) mod 2 ^ 16 ∧ free_id t id16 ∧
      ∀ j, 1 <= j < k → ¬ free_id t ((next + j) mod 2 ^ 16)
  | None => ∀ j, 1 <= j <= Z.of_nat fuel → ¬ free_id t ((next + j) mod 2 ^ 16)
  end.
Proof.
  induction fuel as [|fuel IH]; intros next; [cbn; intros; lia|]. cbn [NextPacketID_loop].
  rewrite u16_u32. set (id16 := (next + 1) mod 2 ^ 16).
  assert (Hmod : ∀ j, (u32 (next + 1) + j) mod 2 ^ 16 = (next + (j + 1)) mod 2 ^ 16).
  { intros j. unfold u32. replace (next + (j + 1)) with ((next + 1) + j) by lia.
    rewrite (Z.div_mod (next + 1) (2 ^ 32)) at 2 by lia.
    replace (2 ^ 32 * ((next + 1) / 2 ^ 32) + (next + 1) mod 2 ^ 32 + j) with
      ((next + 1) mod 2 ^ 32 + j + (2 ^ 16 * ((next + 1) / 2 ^ 32)) * 2 ^ 16) by lia.
    by rewrite Z_mod_plus_full. }
  assert (Hrec : ¬ free_id t id16 →
    match NextPacketID_loop fuel (u32 (next + 1)) t with
    | Some (i16, id) => ∃ k, 1 <= k <= Z.of_nat (S fuel) ∧ id = u32 (next + k) ∧
        i16 = (next + k) mod 2 ^ 16 ∧ free_id t i16 ∧
        ∀ j, 1 <= j < k → ¬ free_id t ((next + j) mod 2 ^ 16)
    | None => ∀ j, 1 <= j <= Z.of_nat (S fuel) → ¬ free_id t ((next + j) mod 2 ^ 16)
    end).
  { intros Hn. specialize (IH (u32 (next + 1))).
    assert (Hj : ∀ j, (1 <= j → ¬ free_id t ((u32 (next + 1) + (j - 1)) mod 2 ^ 16) ∨ j = 1) →
      1 <= j → ¬ free_id t ((next + j) mod 2 ^ 16)).
    { intros j H H1. destruct (H H1) as [H2| ->]; [|done]. rewrite Hmod in H2.
      by replace (j - 1 + 1) with j in H2 by lia. }
    destruct (NextPacketID_loop fuel (u32 (next + 1)) t) as [[i16 id]|].
    - destruct IH as (k & Hk & -> & -> & Hf & Hlt). exists (k + 1). split_and!; [lia|lia| |apply Hmod|done|].
      + unfold u32. rewrite Zplus_mod_idemp_l. f_equal. lia.
      + intros j Hjk. apply Hj; [|lia]. intros _. destruct (decide (j = 1)); [by right|left]. apply Hlt. lia.
    - intros j Hjk. apply Hj; [|lia]. intros _. destruct (decide (j = 1)); [by right|left]. apply IH. lia. }
  destruct (id16 =? 0) eqn:E0; bool_prop; [apply Hrec; by intros []|].
  destruct (Inflight.Has id16 t) eqn:Eh; cbn [negb]; [apply Hrec; intros [_ ?]; congruence|].
  exists 1. split_and!; [lia|lia|done|done|done|lia].
Qed.

(** C33 Packet identifiers: as long as one of the 65,535 identifiers is not in
    flight to the client the search of [NextPacketID] ends, within 65,536 rounds, with the first
    identifier after the previous one that is not zero and not in flight; only
    when every identifier is taken does it never return. *)
Theorem next_packet_id s : let h := handler s in let t := inflight h in
  ((∃ f, 1 <= f <= 65535 ∧ Inflight.Has f t = false) →
   ∀ fuel, 65536 <= Z.of_nat fuel → ∃ id s', NextPacketID fuel s = Some (id, s') ∧
     1 <= id <= 65535 ∧ Inflight.Has id t = false ∧
     (∃ k, 1 <= k <= 65536 ∧ id = (nextPacketID h + k) mod 2 ^ 16 ∧
        nextPacketID (handler s') = u32 (nextPacketID h + k) ∧
        ∀ j, 1 <= j < k → (nextPacketID h + j) mod 2 ^ 16 = 0 ∨
                          Inflight.Has ((nextPacketID h + j) mod 2 ^ 16) t = true)) ∧
  ((∀ id, 1 <= id <= 65535 → Inflight.Has id t = true) → ∀ fuel, NextPacketID fuel s = None).
Proof.
  intros h t. split.
  - intros (f & Hr & Hf0) fuel Hf. assert (Hfree : free_id t f) by (split; [lia|done]).
    pose proof (NextPacketID_loop_spec fuel t (nextPacketID h)) as H. unfold NextPacketID. fold h t.
    set (d := (f - nextPacketID h - 1) mod 2 ^ 16 + 1).
    assert (Hd : 1 <= d <= 65536).
    { unfold d. pose proof (Z.mod_pos_bound (f - nextPacketID h - 1) (2 ^ 16)). lia. }
    assert (Hdf : (nextPacketID h + d) mod 2 ^ 16 = f).
    { unfold d. replace (nextPacketID h + ((f - nextPacketID h - 1) mod 2 ^ 16 + 1)) with
        ((f - nextPacketID h - 1) mod 2 ^ 16 + (nextPacketID h + 1)) by lia.
      rewrite Zplus_mod_idemp_l. replace (f - nextPacketID h - 1 + (nextPacketID h + 1)) with f by lia.
      apply Z.mod_small. lia. }
    destruct (NextPacketID_loop fuel (nextPacketID h) t) as [[id16 id]|].
    + destruct H as (k & Hk & -> & -> & [H1 H2] & Hlt). cbn [mbind option_bind]. eexists _, _.
      split; [done|]. pose proof (Z.mod_pos_bound (nextPacketID h + k) (2 ^ 16)).
      split_and!; [lia|lia|done|]. exists k. split_and!; [lia| |done|done|].
      * destruct (decide (d < k)); [|lia]. exfalso. apply (Hlt d); [lia|]. by rewrite Hdf.
      * intros j Hj. specialize (Hlt j Hj). unfold free_id in Hlt.
        destruct (decide ((nextPacketID h + j) mod 2 ^ 16 = 0)); [by left|right].
        destruct (Inflight.Has ((nextPacketID h + j) mod 2 ^ 16) t) eqn:E; [done|]. exfalso. by apply Hlt.
    + exfalso. apply (H d); [lia|]. by rewrite Hdf.
  - intros Hall fuel. pose proof (NextPacketID_loop_spec fuel t (nextPacketID h)) as H.
    unfold NextPacketID. fold h t.
    destruct (NextPacketID_loop fuel (nextPacketID h) t) as [[id16 id]|]; [|done].
    destruct H as (k & _ & _ & -> & [H1 H2] & _). rewrite Hall in H2; [done|].
    pose proof (Z.mod_pos_bound (nextPacketID h + k) (2 ^ 16)). lia.
Qed.

(** ** Expiry *)

(** The live session and the stored record of it agree on expiry, for every
    session that has been disconnected; a record without a disconnect time is
    overdue for the store alone. *)
Theorem expiry_agrees (order : gmap string Sessions.Session → list (string * Sessions.Session))
    (d : gmap string Sessions.Session) s now :
  (∀ d, order d ≡ₚ map_to_list d) → 0 <= ExpiryInterval s →
  (state s = StateConnected ↔ is_Some (conn s)) → is_Some (disconnectedAt s) →
  (ID s ∈ Sessions.Session_GetExpired order now (Sessions.Session_Save (Info s) d) ↔
   HasExpired now s = true).
Proof.
  intros Hord He Hc [t Ht]. unfold Sessions.Session_GetExpired, Sessions.Session_Save, HasExpired, IsConnected.
  change (Sessions.SClientID (Info s)) with (ID s). rewrite list_elem_of_omap, Ht.
  assert (Hb : bool_decide (state s = StateConnected) && bool_decide (is_Some (conn s)) =
               bool_decide (state s = StateConnected)).
  { destruct (decide (state s = StateConnected)) as [E|E].
    - rewrite !bool_decide_true by (done || by apply Hc). done.
    - by rewrite bool_decide_false. }
  rewrite Hb. split.
  - intros ([k v] & Hin & Hf). rewrite Hord in Hin. apply elem_of_map_to_list in Hin.
    cbn [fst snd] in Hf. case_match eqn:E; [|done]. injection Hf as ->. rewrite lookup_insert_eq in Hin.
    injection Hin as <-. cbn in E. rewrite Ht in E. cbn in E.
    apply andb_prop in E as [[E1 E2]%andb_prop E3]. apply negb_true_iff in E1. apply Z.ltb_lt in E2.
    rewrite E1, (proj2 (Z.eqb_neq _ _)) by lia. exact E3.
  - destruct (bool_decide (state s = StateConnected)) eqn:Ec; [done|]. cbn [orb].
    destruct (ExpiryInterval s =? 0) eqn:E0; [done|]. bool_prop. intros Hlt. bool_prop.
    exists (ID s, Info s). split.
    + rewrite Hord. apply elem_of_map_to_list. by rewrite lookup_insert_eq.
    + cbn [fst snd]. change (Sessions.Connected (Info s)) with (bool_decide (state s = StateConnected)).
      change (Sessions.DisconnectedAt (Info s)) with (default zeroTime (disconnectedAt s)).
      change (Sessions.ExpiryInterval (Info s)) with (ExpiryInterval s).
      rewrite bool_decide_false, Ht by done. cbn [negb andb default from_option id]. rewrite (proj2 (Z.ltb_lt 0 _)) by lia. by rewrite (proj2 (Z.ltb_lt _ now)).
Qed.

(** ** Witnesses *)

Definition example_envs (p : nat) : Envelope :=
  Envelope_blank <| EBroker := Broker_zero <| BM_Delivery := Delivery_zero <| DM_QoS := Z.of_nat p |> |> |>.

Definition example_session : Session :=
  Session.New "c" 5 DefaultOptions (Inflight.NewInflightTracker 10) (OfflineQueue.NewMessageQueue 2 true)
    (mkSessionConfig 10 InflightOverflowQueue 4).

(** Connected with Will 7, and two messages pending. *)
Definition example_ops : list op :=
  [OpAttach 1 1 (mkConnectOptions 5 60 (Some 7%nat) 3 0 2) true; OpEnqueuePending 1 None; OpEnqueuePending 0 None].
Definition example_connected : Session := (run example_envs example_ops example_session).1.

Lemma session_example_reachable : reachable example_envs example_connected.
Proof. unfold reachable, example_connected, example_session. by eexists _, _, _, _, _, _, _. Qed.

Lemma session_lifecycle_witness :
  SendWindow.gen (sendWindow example_connected) = 1 ∧
  1 <= SendWindow.capacity (sendWindow (ConnectWithOptions 2 2 ConnectOptions_zero example_connected).1.2) <= 10.
Proof.
  destruct (session_lifecycle example_envs example_connected session_example_reachable)
    as (_ & _ & _ & _ & Hg & _ & Hc).
  split; [exact (Hg eq_refl)|]. apply (Hc 2 2%nat ConnectOptions_zero). discriminate.
Defined.

Lemma stale_generation_witness :
  let s' := (run example_envs [OpDetach 2; OpAttach 3 2 ConnectOptions_zero true] example_connected).1 in
  DisconnectWithCauseIf example_envs 9 DisconnectAbnormal 1 0 s' = (s', []) ∧
  TryAcquireSendQuota 4 1 s' = (false, s') ∧ (TryAcquireSendQuota 4 3 s').1 = true.
Proof.
  destruct (stale_generation example_envs example_connected [OpDetach 2; OpAttach 3 2 ConnectOptions_zero true]
    session_example_reachable) as (H & _ & _ & _ & _ & Hq & _).
  - vm_compute. lia.
  - reflexivity.
  - split; [exact (H 9 DisconnectAbnormal 0)|]. split; [|reflexivity].
    destruct Hq as [Hq _]; [vm_compute; lia|]. exact (proj1 (Hq 4)).
Defined.

(** An abnormal end and a reconnect: Will 7 is handed out, once. *)
Lemma will_exactly_once_witness :
  handed (run example_envs [OpDisconnect 2 DisconnectAbnormal 0; OpAttach 3 2 ConnectOptions_zero true]
    example_connected).2 = [7%nat] ∧
  dropped (run example_envs [OpDisconnect 2 DisconnectAbnormal 0; OpAttach 3 2 ConnectOptions_zero true]
    example_connected).2 = [].
Proof.
  pose proof (will_exactly_once example_envs example_connected
    [OpDisconnect 2 DisconnectAbnormal 0; OpAttach 3 2 ConnectOptions_zero true] session_example_reachable) as H.
  split; [reflexivity|]. destruct (run _ _ _) as [s' o]. apply H; [discriminate|].
  repeat constructor. discriminate.
Defined.

Lemma retries_within_quota_witness :
  Z.of_nat (size (SendWindow.held (sendWindow (ProcessRetriesTo example_envs 5 (λ _, WriteOk) 1 []
    example_connected).1))) <= 3.
Proof.
  pose proof (retries_within_quota example_envs example_connected 5 (λ _, WriteOk) 1 [] session_example_reachable) as H.
  destruct (ProcessRetriesTo _ _ _ _ _ _) as [s' sent]. destruct H as (_ & _ & Hc & Hq).
  rewrite Hc in Hq. exact Hq.
Defined.

Lemma disconnect_keeps_pending_witness : ∃ s' es,
  disconnectLocked example_envs 2 DisconnectAbnormal 0 example_connected = (s', es) ∧
  releases es = [1%nat; 0%nat] ∧
  OfflineQueue.messages (offlineQueue (handler s')) = [example_envs 1].
Proof.
  eexists _, _. split; [apply surjective_pairing|].
  destruct (disconnect_keeps_pending example_envs example_connected
    (mkPendingChan [mkPending 1 None; mkPending 0 None] 4)
    (disconnectLocked example_envs 2 DisconnectAbnormal 0 example_connected).1
    (disconnectLocked example_envs 2 DisconnectAbnormal 0 example_connected).2) as (_ & Hr & Hm);
    [reflexivity..|discriminate|left; eexists _, _, _; apply surjective_pairing|].
  split; [exact Hr|]. rewrite Hm. reflexivity.
Defined.

Lemma next_packet_id_witness : ∃ id s', NextPacketID (Z.to_nat 65536) example_connected = Some (id, s') ∧
  1 <= id <= 65535.
Proof.
  destruct (next_packet_id example_connected) as [H _].
  destruct (H ltac:(exists 7; split; [lia|reflexivity]) (Z.to_nat 65536) ltac:(rewrite Z2Nat.id; [discriminate|discriminate]))
    as (id & s' & Hn & Hr & _).
  exists id, s'. split; [exact Hn|exact Hr].
Defined.
End SessionFacts.
