(* ===== verification/SessionCache.v ===== *)
(** * The cache of sessions (src/mqtt/session/cache.go)

    Sessions are kept in 64 maps, selected by an FNV-1a hash of the client
    identifier, with one counter for all of them.  Each method is atomic under
    the lock of the shard it works on; sessions are pointers.

    Theorem: the cache implements one map from client identifiers to sessions,
    and its counters are the sizes of that map. *)

From Stdlib Require Import ZArith Lia Bool Ascii String Strings.Byte.
From stdpp Require Import prelude gmap strings.
From S2P Require Import Prelude GoStrings.

Module Cache.

Definition numShards : Z := 64.

(** Sessions are pointers. *)
Record ShardedCache := mkCache { shards : list (gmap string nat); count : Z }.

Definition NewShardedCache : ShardedCache := mkCache (replicate (Z.to_nat numShards) ∅) 0.

Fixpoint fnv1a (h : Z) (key : list byte) : Z :=
  match key with
  | [] => h
  | b :: key => fnv1a (u32 (Z.lxor h (b2z b) * 16777619)) key
  end.
Definition shard (key : string) : nat := Z.to_nat (fnv1a 2166136261 (bytes_of key) mod numShards).

(** The shard of a key exists: there are [numShards] of them. *)
Definition Get (clientID : string) (c : ShardedCache) : option nat :=
  shards c !! shard clientID ≫= λ m, m !! clientID.
Definition Set_ (clientID : string) (session : nat) (c : ShardedCache) : ShardedCache :=
  match shards c !! shard clientID with
  | None => c
  | Some m =>
      mkCache (<[shard clientID := <[clientID := session]> m]> (shards c))
        (match m !! clientID with None => i64 (count c + 1) | Some _ => count c end)
  end.
Definition Delete (clientID : string) (c : ShardedCache) : bool * ShardedCache :=
  match shards c !! shard clientID with
  | None => (false, c)
  | Some m =>
      match m !! clientID with
      | Some _ => (true, mkCache (<[shard clientID := delete clientID m]> (shards c)) (i64 (count c - 1)))
      | None => (false, c)
      end
  end.
(** [ForEach] visits these sessions, in some order within a shard. *)
Definition ForEach (c : ShardedCache) : list nat := concat ((λ m, (map_to_list m).*2) <$> shards c).
Definition Count (c : ShardedCache) : Z := count c.
Definition ConnectedCount (connected : nat → bool) (c : ShardedCache) : Z :=
  Z.of_nat (length (filter (λ p, connected p = true) (ForEach c))).
(** [Clear] empties the shards one after the other. *)
Definition Clear (c : ShardedCache) : ShardedCache :=
  foldl (λ c i, match shards c !! i with
                | None => c
                | Some m => mkCache (<[i := ∅]> (shards c)) (i64 (count c - Z.of_nat (size m)))
                end) c (seq 0 (Z.to_nat numShards)).

End Cache.

(** * Properties *)

Module CacheFacts.
Import Cache.

Inductive op := OpSet (clientID : string) (session : nat) | OpDelete (clientID : string) | OpClear.

Definition step (o : op) (c : ShardedCache) : ShardedCache :=
  match o with
  | OpSet k v => Set_ k v c
  | OpDelete k => (Delete k c).2
  | OpClear => Clear c
  end.

(** The map the cache stands for. *)
Definition spec (o : op) (m : gmap string nat) : gmap string nat :=
  match o with OpSet k v => <[k := v]> m | OpDelete k => delete k m | OpClear => ∅ end.

Lemma shard_lt k : (shard k < 64)%nat.
Proof. unfold shard. pose proof (Z.mod_pos_bound (fnv1a 2166136261 (bytes_of k)) numShards). unfold numShards in *. lia. Qed.

(** ** Representation *)

Record rep (c : ShardedCache) (m : gmap string nat) : Prop := {
  rep_len : length (shards c) = 64%nat;
  rep_shard : ∀ i mi k, shards c !! i = Some mi → mi !! k = if decide (shard k = i) then m !! k else None
}.

Definition entries (c : ShardedCache) : list (string * nat) := concat (map_to_list <$> shards c).

Lemma NoDup_concat_disjoint {A} (ls : list (list A)) :
  (∀ i l, ls !! i = Some l → NoDup l) →
  (∀ i j l l' x, ls !! i = Some l → ls !! j = Some l' → x ∈ l → x ∈ l' → i = j) → NoDup (concat ls).
Proof.
  induction ls as [|l ls IH]; intros Hn Hd; [constructor|]. cbn. apply NoDup_app. split_and!.
  - by apply (Hn 0%nat).
  - intros x Hx Hx'. apply list_elem_of_In, in_concat in Hx' as (l' & Hl' & Hx').
    apply list_elem_of_In in Hl'. apply list_elem_of_In in Hx'.
    apply list_elem_of_lookup in Hl' as [j Hj]. by specialize (Hd 0%nat (S j) l l' x eq_refl Hj Hx Hx').
  - apply IH; [intros i; apply (Hn (S i))|]. intros i j l1 l2 x H1 H2 ? ?.
    by injection (Hd (S i) (S j) l1 l2 x H1 H2).
Qed.

Lemma rep_entries c m : rep c m → entries c ≡ₚ map_to_list m.
Proof.
  intros [Hl Hs]. apply NoDup_Permutation; [|apply NoDup_map_to_list|].
  - apply NoDup_concat_disjoint.
    + intros i l Hi. apply list_lookup_fmap_Some in Hi as (mi & -> & _). apply NoDup_map_to_list.
    + intros i j l l' [k v] Hi Hj Hx Hx'. apply list_lookup_fmap_Some in Hi as (mi & -> & Hi).
      apply list_lookup_fmap_Some in Hj as (mj & -> & Hj).
      apply elem_of_map_to_list in Hx. apply elem_of_map_to_list in Hx'.
      rewrite (Hs i mi k Hi) in Hx. rewrite (Hs j mj k Hj) in Hx'. repeat case_decide; congruence.
  - intros [k v]. rewrite elem_of_map_to_list. unfold entries. split.
    + intros Hin. apply list_elem_of_In, in_concat in Hin as (l & Hl' & Hin).
      apply list_elem_of_In in Hl'. apply list_elem_of_In in Hin.
      apply list_elem_of_fmap in Hl' as (mi & -> & Hmi). apply list_elem_of_lookup in Hmi as [i Hi].
      apply elem_of_map_to_list in Hin. rewrite (Hs i mi k Hi) in Hin. by case_decide.
    + intros Hk. destruct (lookup_lt_is_Some_2 (shards c) (shard k)) as [mi Hi].
      { rewrite Hl. apply shard_lt. }
      apply list_elem_of_In, in_concat. exists (map_to_list mi). split; apply list_elem_of_In.
      * apply list_elem_of_fmap. exists mi. split; [done|]. by eapply list_elem_of_lookup_2.
      * apply elem_of_map_to_list. rewrite (Hs _ _ k Hi). by rewrite decide_True.
Qed.

Lemma rep_new : rep NewShardedCache ∅.
Proof.
  split; [by cbn; rewrite length_replicate|]. intros i mi k Hi.
  apply lookup_replicate in Hi as [-> _]. rewrite lookup_empty. by case_decide.
Qed.

Lemma rep_lookup c m k : rep c m → ∃ mi, shards c !! shard k = Some mi ∧ mi !! k = m !! k.
Proof.
  intros [Hl Hs]. destruct (lookup_lt_is_Some_2 (shards c) (shard k)) as [mi Hi].
  { rewrite Hl. apply shard_lt. }
  exists mi. split; [done|]. rewrite (Hs _ _ k Hi). by rewrite decide_True.
Qed.

Lemma rep_Get c m k : rep c m → Get k c = m !! k.
Proof. intros Hr. unfold Get. destruct (rep_lookup c m k Hr) as (mi & -> & Hk). exact Hk. Qed.

(** A change of one key in its shard. *)
Lemma rep_update c m m' k mi mi' n : rep c m → shards c !! shard k = Some mi →
  mi' !! k = m' !! k → (∀ k', k' ≠ k → mi' !! k' = mi !! k' ∧ m' !! k' = m !! k') →
  rep (mkCache (<[shard k := mi']> (shards c)) n) m'.
Proof.
  intros [Hl Hs] Hi Hk Hne. split; [by cbn; rewrite length_insert|]. cbn. intros i mx k' Hx.
  apply list_lookup_insert_Some in Hx as [(<- & <- & _)|[Hni Hx]].
  - destruct (decide (k' = k)) as [->|Hn]; [by rewrite decide_True|].
    destruct (Hne k' Hn) as [-> ->]. by apply Hs.
  - rewrite (Hs i mx k' Hx). case_decide; [|done]. symmetry. apply Hne. congruence.
Qed.

Lemma clear_loop n : ∀ i c, (i + n = length (shards c))%nat →
  let total := Z.of_nat (length (concat (map_to_list <$> drop i (shards c)))) in
  0 <= count c - total → count c < 2 ^ 63 →
  foldl (λ c i, match shards c !! i with
                | None => c
                | Some m => mkCache (<[i := ∅]> (shards c)) (i64 (count c - Z.of_nat (size m)))
                end) c (seq i n) =
  mkCache (take i (shards c) ++ replicate n ∅) (count c - total).
Proof.
  induction n as [|n IH]; intros i c Hn total Ht Hc; cbn [seq foldl].
  { unfold total. rewrite drop_ge, take_ge, app_nil_r by lia. cbn. rewrite Z.sub_0_r. by destruct c. }
  destruct (lookup_lt_is_Some_2 (shards c) i) as [m Hi]; [lia|]. rewrite Hi.
  assert (Htot : total = Z.of_nat (size m) + Z.of_nat (length (concat (map_to_list <$> drop (S i) (shards c))))).
  { unfold total. rewrite (drop_S _ _ _ Hi). cbn. rewrite length_app, length_map_to_list. lia. }
  rewrite i64_small by lia. rewrite IH; cbn; [|rewrite length_insert; lia| |].
  - rewrite drop_insert_lt by lia. f_equal; [|lia].
    rewrite (take_S_r _ i ∅) by (apply list_lookup_insert_eq; lia).
    rewrite take_insert_ge by lia. by rewrite <-app_assoc.
  - rewrite drop_insert_lt by lia. lia.
  - lia.
Qed.

(** The cache implements [m]. *)
Definition implements (c : ShardedCache) (m : gmap string nat) : Prop :=
  rep c m ∧ count c = Z.of_nat (size m).

Lemma implements_step o c m : implements c m → Z.of_nat (size m) < 2 ^ 63 - 1 →
  implements (step o c) (spec o m).
Proof.
  intros [Hr Hc] Hb. destruct o as [k v|k|]; cbn [step spec].
  - unfold Set_. destruct (rep_lookup c m k Hr) as (mi & Hi & Hk). rewrite Hi, Hk. split.
    + eapply rep_update; [done..| |]; [by rewrite !lookup_insert_eq|].
      intros k' Hn. by rewrite !lookup_insert_ne.
    + cbn. destruct (m !! k) as [v'|] eqn:E.
      * rewrite map_size_insert_Some by eauto. done.
      * rewrite map_size_insert_None by done. rewrite Hc, i64_small by lia. lia.
  - unfold Delete. destruct (rep_lookup c m k Hr) as (mi & Hi & Hk). rewrite Hi, Hk.
    destruct (m !! k) as [v|] eqn:E; [|by rewrite delete_id]. split.
    + eapply rep_update; [done..| |]; [by rewrite !lookup_delete_eq|].
      intros k' Hn. by rewrite !lookup_delete_ne.
    + cbn. rewrite map_size_delete_Some by eauto. pose proof (map_size_ne_0_lookup_2 m k (mk_is_Some _ _ E)).
      rewrite Hc, i64_small by lia. lia.
  - pose proof (rep_entries c m Hr) as He. pose proof (rep_len _ _ Hr) as Hl.
    assert (Hlen : length (concat (map_to_list <$> shards c)) = size m).
    { fold (entries c). by rewrite He, length_map_to_list. }
    unfold Clear. change (Z.to_nat numShards) with 64%nat.
    rewrite clear_loop; rewrite ?drop_0, ?Hlen, ?Hl; [|done|lia|lia].
    rewrite take_0. cbn [app]. replace (count c - Z.of_nat (size m)) with 0 by lia.
    split; [apply rep_new|done].
Qed.

(** The session cache is a map: after any sequence of stores, removals and
    clears, looking a client up, removing it, listing, and counting the sessions
    all answer as one map from client identifiers to sessions would, whatever
    shards the identifiers fall into. *)
Theorem cache_refines_map ops : Z.of_nat (length ops) < 2 ^ 63 - 1 →
  let c := foldl (λ c o, step o c) NewShardedCache ops in
  let m := foldl (λ m o, spec o m) ∅ ops in
  (∀ k, Get k c = m !! k) ∧ (∀ k, (Delete k c).1 = bool_decide (is_Some (m !! k))) ∧
  Count c = Z.of_nat (size m) ∧ ForEach c ≡ₚ (map_to_list m).*2 ∧
  ∀ connected, ConnectedCount connected c =
    Z.of_nat (length (filter (λ kv, connected kv.2 = true) (map_to_list m))).
Proof.
  intros Hb. set (c := foldl _ _ ops). set (m := foldl _ ∅ ops). cbv zeta.
  assert (Himp : implements c m ∧ Z.of_nat (size m) <= Z.of_nat (length ops)).
  { unfold c, m. clear c m. induction ops as [|o ops IH] using rev_ind; [by split; [split; [apply rep_new|]|]|].
    rewrite !foldl_snoc, length_app in *. cbn [length] in *. destruct IH as [I1 I2]; [lia|].
    split; [apply implements_step; [done|lia]|]. clear I1. revert I2.
    generalize (foldl (λ m o, spec o m) ∅ ops). intros m0 I2. destruct o as [k v|k|]; cbn [spec].
    - rewrite map_size_insert. destruct (m0 !! k); unfold id; lia.
    - rewrite map_size_delete. destruct (m0 !! k); unfold id; lia.
    - rewrite map_size_empty. lia. }
  destruct Himp as [[Hr Hc] _].
  assert (Hf : ForEach c ≡ₚ (map_to_list m).*2).
  { rewrite <-(rep_entries c m Hr). unfold ForEach, entries.
    induction (shards c) as [|mi l IH]; [done|]. cbn. by rewrite fmap_app, IH. }
  split_and!; [intros k; by apply rep_Get| |exact Hc|exact Hf|].
  - intros k. unfold Delete. destruct (rep_lookup c m k Hr) as (mi & -> & ->). by destruct (m !! k).
  - intros connected. unfold ConnectedCount. f_equal. rewrite Hf. clear Hf.
    induction (map_to_list m) as [|kv l IH]; [done|]. rewrite fmap_cons, !filter_cons.
    by repeat case_decide; cbn; rewrite ?IH.
Qed.

Lemma cache_refines_map_witness :
  let c := foldl (λ c o, step o c) NewShardedCache
    [OpSet "a" 1; OpSet "b" 2; OpSet "a" 3; OpDelete "b"] in
  Get "a" c = Some 3%nat ∧ Count c = 1.
Proof.
  destruct (cache_refines_map [OpSet "a" 1; OpSet "b" 2; OpSet "a" 3; OpDelete "b"]) as (Hg & _ & Hc & _).
  - reflexivity.
  - split; [exact (Hg "a"%string)|exact Hc].
Defined.
End CacheFacts.
