(* ===== verification/AmqpTypes.v ===== *)
(** * The AMQP 0.9.1 field encodings (src/amqp/codec/types.go, errors.go)

    Octets, integers, strings, field tables and field arrays, read from an
    [io.Reader] (the [reader] of [Codec]) and written to a buffer.  A write is
    the bytes it adds to the buffer and the error it returns: an error after
    some bytes keeps them.  The file proves that reading inverts writing
    on every value that has an encoding, whatever nesting and whatever order
    [range] visits a table in, and that everything read is well typed and can
    be written again. *)

From Stdlib Require Import ZArith Lia Bool Ascii String Strings.Byte.
From stdpp Require Import prelude gmap strings.
From S2P Require Import Prelude GoStrings Codec.

(** ** errors.go *)

Definition ContentTooLarge : Z := 311.
Definition NoRoute : Z := 312.
Definition NoConsumers : Z := 313.
Definition ConnectionForced : Z := 320.
Definition InvalidPath : Z := 402.
Definition AccessRefused : Z := 403.
Definition NotFound : Z := 404.
Definition ResourceLocked : Z := 405.
Definition PreconditionFailed : Z := 406.
Definition FrameError : Z := 501.
Definition SyntaxError : Z := 502.
Definition CommandInvalid : Z := 503.
Definition ChannelError : Z := 504.
Definition UnexpectedFrame : Z := 505.
Definition ResourceError : Z := 506.
Definition NotAllowed : Z := 530.
Definition NotImplemented : Z := 540.
Definition InternalError : Z := 541.

(** The errors of the package: what [io.ReadFull] returned, or an [*Error].
    No caller in the package gives [NewErr] an inner error. *)
Inductive Error :=
| IOError (e : GoErr)
| NewErr (Code : Z) (Message : string).

#[export] Instance Error_eq_dec : EqDecision Error.
Proof. solve_decision. Defined.

(** ** Reading *)

Definition rd (A : Type) : Type := reader → outcome Error (A * reader).

#[export] Instance rd_ret : MRet rd := λ A a r, Ret (a, r).
#[export] Instance rd_bind : MBind rd := λ A B f m r,
  match m r with Ret (a, r') => f a r' | Fail e => Fail e | Panic => Panic end.

Definition rd_fail {A} (e : Error) : rd A := λ _, Fail e.
Definition rd_panic {A} : rd A := λ _, Panic.

(** [io.ReadFull(r, buf)] with [len(buf) = n]. *)
Definition rd_full (n : nat) : rd (list byte) := λ r,
  match ReadFull n r with
  | Ret x => Ret x
  | Fail e => Fail (IOError e)
  | Panic => Panic
  end.

(** ** Writing *)

Definition writer : Type := list byte * option Error.

(** [w.Write(bs)] on a buffer. *)
Definition w_bytes (bs : list byte) : writer := (bs, None).
Definition w_err (e : Error) : writer := ([], Some e).
(** [if err := m; err != nil { return err }; k]. *)
Definition w_then (m k : writer) : writer :=
  match m with
  | (o, Some e) => (o, Some e)
  | (o, None) => (o ++ k.1, k.2)
  end.
Notation "m ;;; k" := (w_then m k) (at level 100, k at level 200, right associativity) : flux_scope.

(** ** types.go *)

Definition FrameMethod : Z := 1.
Definition FrameHeader : Z := 2.
Definition FrameBody : Z := 3.
Definition FrameHeartbeat : Z := 8.
Definition FrameEnd : Z := 0xCE.

Definition i8 (z : Z) : Z := (z + 2 ^ 7) mod 2 ^ 8 - 2 ^ 7.
Definition i16 (z : Z) : Z := (z + 2 ^ 15) mod 2 ^ 16 - 2 ^ 15.

Record Decimal := mkDecimal { Scale : Z; Value : Z }.

(** [binary.BigEndian]: the number [n] bytes spell, and the [n] bytes of a number. *)
Definition be_read (bs : list byte) : Z := foldl (λ acc b, acc * 256 + b2z b) 0 bs.
Fixpoint be_write (n : nat) (z : Z) : list byte :=
  match n with
  | O => []
  | S n => z2b (Z.shiftr z (8 * Z.of_nat n)) :: be_write n z
  end.

Definition ReadOctet : rd Z := b ← rd_full 1; mret (be_read b).
Definition WriteOctet (b : Z) : writer := w_bytes (be_write 1 b).
Definition ReadShort : rd Z := b ← rd_full 2; mret (be_read b).
Definition WriteShort (i : Z) : writer := w_bytes (be_write 2 i).
Definition ReadLong : rd Z := b ← rd_full 4; mret (be_read b).
Definition WriteLong (i : Z) : writer := w_bytes (be_write 4 i).
Definition ReadLongLong : rd Z := b ← rd_full 8; mret (be_read b).
Definition WriteLongLong (i : Z) : writer := w_bytes (be_write 8 i).

Definition ReadShortStr : rd string :=
  length ← ReadOctet;
  buf ← rd_full (Z.to_nat length);
  mret (string_of buf).

Definition WriteShortStr (s : string) : writer :=
  if (255 <? String.length s)%nat then w_err (NewErr InternalError "short string too long")
  else WriteOctet (u8 (Z.of_nat (String.length s))) ;;; w_bytes (bytes_of s).

Definition ReadLongStr : rd string :=
  length ← ReadLong;
  buf ← rd_full (Z.to_nat length);
  mret (string_of buf).

Definition WriteLongStr (s : string) : writer :=
  WriteLong (u32 (Z.of_nat (String.length s))) ;;; w_bytes (bytes_of s).

(** The dynamic types a field value can have.  A [map[string]any] is the list
    of its bindings in the order in which [range] visits them, so that a theorem on
    all lists covers every order.  A float is its IEEE bits.  [VOther] is a value of
    any type [WriteFieldValue] has no case for. *)
Inductive value :=
| VBool (b : bool)
| VInt8 (v : Z) | VByte (v : Z) | VInt16 (v : Z) | VUint16 (v : Z)
| VInt32 (v : Z) | VInt (v : Z) | VInt64 (v : Z) | VUint64 (v : Z)
| VFloat32 (bits : Z) | VFloat64 (bits : Z)
| VDecimal (d : Decimal)
| VString (s : string)
| VTable (t : list (string * value))
| VArray (l : list value)
| VBytes (b : list byte)
| VNil
| VOther (type : string).

Definition table : Type := list (string * value).

(** [table[key] = value]. *)
Fixpoint table_set (key : string) (v : value) (t : table) : table :=
  match t with
  | [] => [(key, v)]
  | (k, w) :: t => if decide (k = key) then (k, v) :: t else (k, w) :: table_set key v t
  end.

(** The octet of a character literal. *)
Definition chr (a : ascii) : Z := Z.of_N (N_of_ascii a).

(** The loops [for b.Len() > 0] of [ReadTable] and [ReadArray] over the bytes
    [b]; every round takes at least one byte. *)
Fixpoint ReadTable_loop (rfv : rd value) (fuel : nat) (t : table) (b : reader) : outcome Error table :=
  match fuel with
  | O => Panic
  | S fuel =>
      match rbuf b with
      | [] => Ret t
      | _ => match (key ← ReadShortStr; v ← rfv; mret (key, v)) b with
             | Ret ((key, v), b) => ReadTable_loop rfv fuel (table_set key v t) b
             | Fail e => Fail e
             | Panic => Panic
             end
      end
  end.

Fixpoint ReadArray_loop (rfv : rd value) (fuel : nat) (arr : list value) (b : reader) :
    outcome Error (list value) :=
  match fuel with
  | O => Panic
  | S fuel =>
      match rbuf b with
      | [] => Ret arr
      | _ => match rfv b with
             | Ret (v, b) => ReadArray_loop rfv fuel (arr ++ [v]) b
             | Fail e => Fail e
             | Panic => Panic
             end
      end
  end.

Definition rd_lift {A} (o : outcome Error A) : rd A := λ r,
  match o with Ret a => Ret (a, r) | Fail e => Fail e | Panic => Panic end.

Definition ReadTable_of (rfv : rd value) : rd table :=
  length ← ReadLong;
  buf ← rd_full (Z.to_nat length);
  rd_lift (ReadTable_loop rfv (S (List.length buf)) [] (NewReader buf)).

Definition ReadArray_of (rfv : rd value) : rd (list value) :=
  length ← ReadLong;
  buf ← rd_full (Z.to_nat length);
  rd_lift (ReadArray_loop rfv (S (List.length buf)) [] (NewReader buf)).

(** [fuel] bounds the nesting of tables and arrays. *)
Fixpoint ReadFieldValue_fuel (fuel : nat) : rd value :=
  match fuel with
  | O => rd_panic
  | S fuel =>
      fieldType ← ReadOctet;
      if fieldType =? chr "t" then b ← ReadOctet; mret (VBool (b =? 1))
      else if fieldType =? chr "b" then val ← ReadOctet; mret (VInt8 (i8 val))
      else if fieldType =? chr "B" then val ← ReadOctet; mret (VByte val)
      else if fieldType =? chr "u" then val ← ReadShort; mret (VInt16 (i16 val))
      else if fieldType =? chr "U" then val ← ReadShort; mret (VUint16 val)
      else if fieldType =? chr "I" then val ← ReadLong; mret (VInt32 (i32 val))
      else if fieldType =? chr "i" then val ← ReadLong; mret (VInt32 (i32 val))
      else if fieldType =? chr "l" then val ← ReadLongLong; mret (VInt64 (i64 val))
      else if fieldType =? chr "f" then val ← ReadLong; mret (VFloat32 val)
      else if fieldType =? chr "d" then val ← ReadLongLong; mret (VFloat64 val)
      else if fieldType =? chr "D" then
        scale ← ReadOctet; val ← ReadLong; mret (VDecimal (mkDecimal scale (i32 val)))
      else if fieldType =? chr "s" then s ← ReadShortStr; mret (VString s)
      else if fieldType =? chr "S" then s ← ReadLongStr; mret (VString s)
      else if fieldType =? chr "T" then val ← ReadLongLong; mret (VUint64 val)
      else if fieldType =? chr "F" then t ← ReadTable_of (ReadFieldValue_fuel fuel); mret (VTable t)
      else if fieldType =? chr "A" then l ← ReadArray_of (ReadFieldValue_fuel fuel); mret (VArray l)
      else if fieldType =? chr "V" then mret VNil
      else if fieldType =? chr "x" then
        length ← ReadLong; buf ← rd_full (Z.to_nat length); mret (VBytes buf)
      else rd_fail (NewErr FrameError "unsupported field type")
  end.

(** A nested table or array is shorter than what holds it. *)
Definition ReadFieldValue : rd value := λ r, ReadFieldValue_fuel (S (length (rbuf r))) r.
Definition ReadTable : rd table := λ r, ReadTable_of (ReadFieldValue_fuel (length (rbuf r))) r.
Definition ReadArray : rd (list value) := λ r, ReadArray_of (ReadFieldValue_fuel (length (rbuf r))) r.

(** The bytes of [b] behind their length, unless building [b] failed. *)
Definition w_sized (b : writer) : writer :=
  match b.2 with
  | Some e => w_err e
  | None => WriteLong (u32 (Z.of_nat (length b.1))) ;;; w_bytes b.1
  end.

Definition WriteTable_of (wfv : value → writer) (t : table) : writer :=
  w_sized ((fix body t := match t with
            | [] => w_bytes []
            | (key, v) :: t => WriteShortStr key ;;; wfv v ;;; body t
            end) t).

Definition WriteArray_of (wfv : value → writer) (arr : list value) : writer :=
  w_sized ((fix body arr := match arr with
            | [] => w_bytes []
            | v :: arr => wfv v ;;; body arr
            end) arr).

Fixpoint WriteFieldValue (v : value) : writer :=
  match v with
  | VBool b => WriteOctet (chr "t") ;;; if b then WriteOctet 1 else WriteOctet 0
  | VInt8 v => WriteOctet (chr "b") ;;; WriteOctet (u8 v)
  | VByte v => WriteOctet (chr "B") ;;; WriteOctet v
  | VInt16 v => WriteOctet (chr "u") ;;; WriteShort (u16 v)
  | VUint16 v => WriteOctet (chr "U") ;;; WriteShort v
  | VInt32 v => WriteOctet (chr "I") ;;; WriteLong (u32 v)
  | VInt v => WriteOctet (chr "I") ;;; WriteLong (u32 v)
  | VInt64 v => WriteOctet (chr "l") ;;; WriteLongLong (u64 v)
  | VFloat32 bits => WriteOctet (chr "f") ;;; WriteLong bits
  | VUint64 v => WriteOctet (chr "T") ;;; WriteLongLong v
  | VFloat64 bits => WriteOctet (chr "d") ;;; WriteLongLong bits
  | VDecimal d =>
      WriteOctet (chr "D") ;;; WriteOctet (Scale d) ;;; WriteLong (u32 (Value d))
  | VString s => WriteOctet (chr "S") ;;; WriteLongStr s
  | VTable t => WriteOctet (chr "F") ;;; WriteTable_of WriteFieldValue t
  | VArray l => WriteOctet (chr "A") ;;; WriteArray_of WriteFieldValue l
  | VBytes b =>
      WriteOctet (chr "x") ;;; WriteLong (u32 (Z.of_nat (length b))) ;;; w_bytes b
  | VNil => WriteOctet (chr "V")
  | VOther _ => w_err (NewErr FrameError "unsupported value type")
  end.

Definition WriteTable (t : table) : writer := WriteTable_of WriteFieldValue t.
Definition WriteArray (l : list value) : writer := WriteArray_of WriteFieldValue l.

(** ** Numbers as bytes *)

Lemma be_read_acc acc bs :
  foldl (λ acc b, acc * 256 + b2z b) acc bs = acc * 256 ^ Z.of_nat (length bs) + be_read bs.
Proof.
  unfold be_read. revert acc. induction bs as [|b bs IH]; intros acc; simpl foldl; [simpl; lia|].
  rewrite IH, (IH (0 * 256 + b2z b)). simpl length.
  rewrite Nat2Z.inj_succ, Z.pow_succ_r by lia. ring.
Qed.

Lemma be_read_cons b bs : be_read (b :: bs) = b2z b * 256 ^ Z.of_nat (length bs) + be_read bs.
Proof. unfold be_read at 1. simpl. by rewrite be_read_acc. Qed.

Lemma be_write_length n z : length (be_write n z) = n.
Proof. induction n; simpl; by rewrite ?IHn. Qed.

Lemma be_read_write n z : be_read (be_write n z) = z mod 256 ^ Z.of_nat n.
Proof.
  induction n as [|n IH]; [by rewrite Z.mod_1_r|].
  cbn [be_write]. rewrite be_read_cons, be_write_length, IH, b2z_z2b. unfold u8.
  rewrite Z.shiftr_div_pow2, Z.pow_mul_r by lia. change (2 ^ 8) with 256.
  rewrite Nat2Z.inj_succ, Z.pow_succ_r, (Z.mul_comm 256) by lia.
  pose proof (Z.pow_pos_nonneg 256 (Z.of_nat n)). rewrite Z.rem_mul_r by lia. lia.
Qed.

Lemma be_read_range bs : 0 <= be_read bs < 256 ^ Z.of_nat (length bs).
Proof.
  induction bs as [|b bs IH]; [done|].
  rewrite be_read_cons. pose proof (b2z_range b). simpl length.
  rewrite Nat2Z.inj_succ, Z.pow_succ_r by lia. nia.
Qed.

(** ** Reading back what was written

    [rt w r a]: after a write [w] that reported no error, the reader [r] finds
    [a] and stops where [w] stopped.  The bound keeps 32-bit lengths exact. *)

Definition rt {A} (w : writer) (r : rd A) (a : A) : Prop := ∀ rest e,
  w.2 = None → Z.of_nat (length w.1) < 2 ^ 32 →
  r (mkReader (w.1 ++ rest) e) = Ret (a, mkReader rest e).

Lemma w_then_ok (m k : writer) : (m ;;; k).2 = None ↔ m.2 = None ∧ k.2 = None.
Proof. destruct m as [o [x|]], k; simpl; naive_solver. Qed.
Lemma w_then_out (m k : writer) : m.2 = None → (m ;;; k).1 = m.1 ++ k.1.
Proof. by destruct m as [o [x|]]. Qed.
Lemma w_then_length (m k : writer) : (m ;;; k).2 = None →
  length (m ;;; k).1 = (length m.1 + length k.1)%nat.
Proof. intros [Hm Hk]%w_then_ok. by rewrite w_then_out, length_app. Qed.

Lemma rt_then {A B} w1 w2 (r : rd A) (k : A → rd B) a b :
  rt w1 r a → rt w2 (k a) b → rt (w1 ;;; w2) (r ≫= k) b.
Proof.
  intros H1 H2 rest e Hok Hlen. rewrite w_then_length in Hlen by done.
  apply w_then_ok in Hok as [Ho1 Ho2]. rewrite w_then_out, <-app_assoc by done.
  unfold mbind, rd_bind. rewrite H1 by (done || lia). by apply H2; [|lia].
Qed.

Lemma rt_last {A B} w (r : rd A) (k : A → rd B) a b :
  rt w r a → k a = mret b → rt w (r ≫= k) b.
Proof. intros H1 H2 rest e Hok Hlen. unfold mbind, rd_bind. by rewrite H1, H2. Qed.

Lemma rt_nil {A} (a : A) : rt (w_bytes []) (mret a) a.
Proof. by intros rest e _ _. Qed.

Lemma rt_full bs n : length bs = n → rt (w_bytes bs) (rd_full n) bs.
Proof. intros <- rest e _ _. unfold rd_full. simpl. by rewrite ReadFull_app. Qed.

Lemma rt_be n z : 0 <= z < 256 ^ Z.of_nat n →
  rt (w_bytes (be_write n z)) (b ← rd_full n; mret (be_read b)) z.
Proof.
  intros Hz. eapply rt_last; [by apply rt_full, be_write_length|].
  by rewrite be_read_write, Z.mod_small.
Qed.

Lemma u32_range z : 0 <= u32 z < 2 ^ 32.
Proof. apply Z.mod_pos_bound. lia. Qed.

Definition u64_ok (n : Z) : Prop := 0 <= n < 2 ^ 64.
Definition shortstr_ok (s : string) : Prop := (String.length s < 256)%nat.

Lemma rt_octet z : u8_ok z → rt (WriteOctet z) ReadOctet z.
Proof. apply (rt_be 1). Qed.
Lemma rt_short z : u16_ok z → rt (WriteShort z) ReadShort z.
Proof. apply (rt_be 2). Qed.
Lemma rt_long z : u32_ok z → rt (WriteLong z) ReadLong z.
Proof. apply (rt_be 4). Qed.
Lemma rt_longlong z : u64_ok z → rt (WriteLongLong z) ReadLongLong z.
Proof. apply (rt_be 8). Qed.

Lemma WriteShortStr_ok s : (WriteShortStr s).2 = None ↔ shortstr_ok s.
Proof.
  unfold WriteShortStr, shortstr_ok.
  destruct (Nat.ltb_spec 255 (String.length s)); simpl; split; (done || lia).
Qed.

Lemma rt_shortstr s : rt (WriteShortStr s) ReadShortStr s.
Proof.
  intros rest e Hok. pose proof Hok as Hs%WriteShortStr_ok. unfold shortstr_ok in Hs.
  revert Hok. unfold WriteShortStr. destruct (Nat.ltb_spec 255 (String.length s)); [lia|].
  revert rest e. eapply rt_then; [apply rt_octet; apply u8_range|].
  eapply rt_last; [apply rt_full|by rewrite string_of_bytes_of].
  rewrite length_bytes_of, u8_small by lia. lia.
Qed.

(** A body behind its 32-bit length. *)
Lemma rt_long_prefixed {A} bs (k : list byte → rd A) a : k bs = mret a →
  rt (WriteLong (u32 (Z.of_nat (length bs))) ;;; w_bytes bs)
     (n ← ReadLong; buf ← rd_full (Z.to_nat n); k buf) a.
Proof.
  intros Hk rest e Hok Hlen.
  assert (Hbs : Z.of_nat (length bs) < 2 ^ 32).
  { rewrite w_then_length in Hlen by done. simpl in Hlen. lia. }
  revert rest e Hok Hlen. eapply rt_then; [apply rt_long; apply Z.mod_pos_bound; lia|].
  eapply rt_last; [apply rt_full|done]. rewrite u32_small by lia. lia.
Qed.

Lemma rt_longstr s : rt (WriteLongStr s) ReadLongStr s.
Proof.
  unfold WriteLongStr. rewrite <-length_bytes_of. apply rt_long_prefixed.
  by rewrite string_of_bytes_of.
Qed.

(** ** Values *)

Section value_ind.
Variable P : value → Prop.
  Hypothesis Hleaf : ∀ v, match v with VTable _ | VArray _ => True | _ => P v end.
  Hypothesis Htable : ∀ t, Forall (λ kv, P kv.2) t → P (VTable t).
  Hypothesis Harray : ∀ l, Forall P l → P (VArray l).

Fixpoint value_rec' (v : value) : P v :=
    match v as v return
      match v with VTable _ | VArray _ => True | _ => P v end → P v
    with
    | VTable t => λ _, Htable t ((fix go t : Forall (λ kv, P kv.2) t :=
        match t with
        | [] => Forall_nil_2 _
        | (k, v) :: t => Forall_cons_2 _ (k, v) t (value_rec' v) (go t)
        end) t)
    | VArray l => λ _, Harray l ((fix go l : Forall P l :=
        match l with
        | [] => Forall_nil_2 _
        | v :: l => Forall_cons_2 _ v l (value_rec' v) (go l)
        end) l)
    | _ => id
    end (Hleaf v).
End value_ind.

(** The Go value a field value stands for: every number in the range of its
    type, a table with one binding per key, and keys that fit a short
    string.  Values of a type without an encoding are not among them. *)
Inductive value_ok : value → Prop :=
| ok_bool b : value_ok (VBool b)
| ok_int8 v : - 2 ^ 7 <= v < 2 ^ 7 → value_ok (VInt8 v)
| ok_byte v : u8_ok v → value_ok (VByte v)
| ok_int16 v : - 2 ^ 15 <= v < 2 ^ 15 → value_ok (VInt16 v)
| ok_uint16 v : u16_ok v → value_ok (VUint16 v)
| ok_int32 v : - 2 ^ 31 <= v < 2 ^ 31 → value_ok (VInt32 v)
| ok_int v : - 2 ^ 63 <= v < 2 ^ 63 → value_ok (VInt v)
| ok_int64 v : - 2 ^ 63 <= v < 2 ^ 63 → value_ok (VInt64 v)
| ok_uint64 v : u64_ok v → value_ok (VUint64 v)
| ok_float32 bits : u32_ok bits → value_ok (VFloat32 bits)
| ok_float64 bits : u64_ok bits → value_ok (VFloat64 bits)
| ok_decimal d : u8_ok (Scale d) → - 2 ^ 31 <= Value d < 2 ^ 31 → value_ok (VDecimal d)
| ok_string s : value_ok (VString s)
| ok_table t : NoDup t.*1 → Forall (λ kv, shortstr_ok kv.1 ∧ value_ok kv.2) t → value_ok (VTable t)
| ok_array l : Forall value_ok l → value_ok (VArray l)
| ok_bytes b : value_ok (VBytes b)
| ok_nil : value_ok VNil.

Definition table_ok (t : table) : Prop :=
  NoDup t.*1 ∧ Forall (λ kv, shortstr_ok kv.1 ∧ value_ok kv.2) t.

(** The wire has no type for [int]: its low 32 bits travel as an [int32]. *)
Fixpoint canon (v : value) : value :=
  match v with
  | VInt v => VInt32 (i32 v)
  | VTable t => VTable ((λ kv, (kv.1, canon kv.2)) <$> t)
  | VArray l => VArray (canon <$> l)
  | v => v
  end.
Definition canon_table (t : table) : table := (λ kv, (kv.1, canon kv.2)) <$> t.

(** A value without an [int], at any depth, travels as it is. *)
Fixpoint no_int (v : value) : bool :=
  match v with
  | VInt _ => false
  | VTable t => forallb (λ kv, no_int kv.2) t
  | VArray l => forallb no_int l
  | _ => true
  end.
Definition no_int_table (t : table) : bool := forallb (λ kv, no_int kv.2) t.

Lemma canon_table_cons t : Forall (λ kv, no_int kv.2 = true → canon kv.2 = kv.2) t →
  no_int_table t = true → canon_table t = t.
Proof.
  unfold no_int_table, canon_table. induction 1 as [|[k v] t Hv _ IH]; [done|]. cbn.
  rewrite andb_true_iff. intros [Hn Ht]. cbn in Hv. by rewrite Hv, IH.
Qed.

Lemma canon_no_int v : no_int v = true → canon v = v.
Proof.
  revert v. apply (value_rec' (λ v, no_int v = true → canon v = v)); [by intros []|intros t Ht|intros l Hl].
  - intros Hn. cbn [canon]. f_equal. exact (canon_table_cons t Ht Hn).
  - intros Hn. cbn [canon]. f_equal. revert Hn. cbn [no_int].
    induction Hl as [|v l Hv _ IH]; [done|]. cbn. rewrite andb_true_iff. intros [Hn Hns]. by rewrite Hv, IH.
Qed.

Lemma canon_table_no_int t : no_int_table t = true → canon_table t = t.
Proof. apply canon_table_cons, Forall_true. intros kv. apply canon_no_int. Qed.

(** The unsigned pattern of a signed number, and back. *)
Lemma i8_u8 v : - 2 ^ 7 <= v < 2 ^ 7 → i8 (u8 v) = v.
Proof. intros H. unfold i8, u8. rewrite Zplus_mod_idemp_l, Z.mod_small; lia. Qed.
Lemma i16_u16 v : - 2 ^ 15 <= v < 2 ^ 15 → i16 (u16 v) = v.
Proof. intros H. unfold i16, u16. rewrite Zplus_mod_idemp_l, Z.mod_small; lia. Qed.
Lemma i32_u32 v : i32 (u32 v) = i32 v.
Proof. unfold i32, u32. by rewrite Zplus_mod_idemp_l. Qed.
Lemma i64_of_u64 v : - 2 ^ 63 <= v < 2 ^ 63 → i64 (u64 v) = v.
Proof. intros H. unfold i64, u64. rewrite Zplus_mod_idemp_l, Z.mod_small; lia. Qed.

(** *** Writing succeeds on well-formed values *)

Definition table_body (t : table) : writer :=
  (fix body t := match t with
   | [] => w_bytes []
   | (key, v) :: t => WriteShortStr key ;;; WriteFieldValue v ;;; body t
   end) t.
Definition array_body (l : list value) : writer :=
  (fix body arr := match arr with
   | [] => w_bytes []
   | v :: arr => WriteFieldValue v ;;; body arr
   end) l.

Lemma w_sized_ok b : (w_sized b).2 = None ↔ b.2 = None.
Proof. unfold w_sized. by destruct b as [? [?|]]. Qed.
Lemma w_sized_out b : b.2 = None →
  w_sized b = (WriteLong (u32 (Z.of_nat (length b.1))) ;;; w_bytes b.1).
Proof. unfold w_sized. by intros ->. Qed.

Lemma WriteFieldValue_ok v : value_ok v → (WriteFieldValue v).2 = None.
Proof.
  revert v. apply (value_rec' (λ v, value_ok v → (WriteFieldValue v).2 = None)).
  { intros [[]| | | | | | | | | | | | | | | | |]; try done. by inversion 1. }
  - intros t IH Hok. inversion Hok as [| | | | | | | | | | | | |? Hnd Ht| | |]; subst.
    cbn [WriteFieldValue]. apply w_then_ok; split; [done|].
    apply w_sized_ok. change (_ t) with (table_body t).
    clear Hok Hnd. induction t as [|[k v] t IHt]; [done|].
    apply Forall_cons in IH as [Hv IH], Ht as [[Hk Ht'] Ht]. simpl.
    apply w_then_ok; split; [by apply WriteShortStr_ok|].
    apply w_then_ok; split; [by apply Hv|by apply IHt].
  - intros l IH Hok. inversion Hok as [| | | | | | | | | | | | | |? Ht| |]; subst.
    cbn [WriteFieldValue]. apply w_then_ok; split; [done|].
    apply w_sized_ok. change (_ l) with (array_body l).
    clear Hok. induction l as [|v l IHt]; [done|].
    apply Forall_cons in IH as [Hv IH], Ht as [Ht' Ht]. simpl.
    apply w_then_ok; split; [by apply Hv|by apply IHt].
Qed.

(** *** Reading back a value *)

Lemma table_set_fresh k v (t : table) : k ∉ t.*1 → table_set k v t = t ++ [(k, v)].
Proof.
  induction t as [|[k' v'] t IH]; [done|]. rewrite fmap_cons, not_elem_of_cons. intros [Hn Ht].
  simpl. rewrite decide_False by naive_solver. by rewrite IH.
Qed.

(** The loop of [ReadTable] over the body [WriteTable] built. *)
Lemma ReadTable_loop_body rfv (t : table) : ∀ fuel acc,
  Forall (λ kv, rt (WriteFieldValue kv.2) rfv (canon kv.2)) t →
  NoDup ((acc ++ t).*1) → (table_body t).2 = None → Z.of_nat (length (table_body t).1) < 2 ^ 32 →
  (length (table_body t).1 < fuel)%nat →
  ReadTable_loop rfv fuel acc (NewReader (table_body t).1) = Ret (acc ++ canon_table t).
Proof.
  induction t as [|[k v] t IH]; intros fuel acc Hrt Hnd Hok Hlen Hf.
  { destruct fuel; [simpl in Hf; lia|]. simpl. by rewrite app_nil_r. }
  apply Forall_cons in Hrt as [Hv Hrt]. simpl in Hv.
  destruct fuel as [|fuel]; [lia|]. set (w := table_body ((k, v) :: t)) in *.
  assert (w = (WriteShortStr k ;;; WriteFieldValue v ;;; table_body t)) as Hw by done.
  assert (Hr : ∀ e, (key ← ReadShortStr; v ← rfv; mret (key, v)) (mkReader w.1 e) =
                    Ret ((k, canon v), mkReader (table_body t).1 e)).
  { rewrite Hw in Hok, Hlen |- *. pose proof Hok as [Hk Hvt]%w_then_ok.
    pose proof Hvt as [Hv' Ht]%w_then_ok.
    intros e. rewrite w_then_out, w_then_out by done. unfold mbind, rd_bind.
    rewrite !w_then_length in Hlen by done.
    rewrite rt_shortstr by (done || lia). by rewrite Hv by (done || lia). }
  assert (Hlw : (length (table_body t).1 < length w.1)%nat).
  { rewrite Hw in Hok |- *. pose proof Hok as [Hk Hvt]%w_then_ok.
    rewrite !w_then_length by done. pose proof Hk as Hs%WriteShortStr_ok.
    unfold WriteShortStr, shortstr_ok in *. destruct (Nat.ltb_spec 255 (String.length k)); [lia|].
    rewrite w_then_length by done. simpl. lia. }
  cbn [ReadTable_loop]. change (rbuf (NewReader w.1)) with w.1.
  destruct (w.1) as [|b0 bs] eqn:Hb; [simpl in Hlw; lia|]. unfold NewReader. rewrite Hr.
  assert (k ∉ acc.*1) as Hfr.
  { rewrite fmap_app, fmap_cons in Hnd. apply NoDup_app in Hnd as (_ & Hd & _).
    intros Hin. apply (Hd k Hin). by left. }
  rewrite table_set_fresh by done.
  rewrite Hw in Hok. apply w_then_ok in Hok as [_ [_ Hok]%w_then_ok].
  etrans; [apply IH|]; simpl in *; [done| |done|lia|lia|].
  - rewrite <-app_assoc. simpl. rewrite !fmap_app, !fmap_cons in *. done.
  - by rewrite <-app_assoc.
Qed.

Lemma WriteFieldValue_nonempty v : (WriteFieldValue v).2 = None →
  (1 ≤ length (WriteFieldValue v).1)%nat.
Proof.
  destruct v; try (intros H; cbn [WriteFieldValue] in H |- *;
    rewrite w_then_length by done; simpl; lia); [|done]. intros _. simpl. lia.
Qed.

Lemma ReadArray_loop_body rfv (l : list value) : ∀ fuel acc,
  Forall (λ v, rt (WriteFieldValue v) rfv (canon v)) l →
  (array_body l).2 = None → Z.of_nat (length (array_body l).1) < 2 ^ 32 →
  (length (array_body l).1 < fuel)%nat →
  ReadArray_loop rfv fuel acc (NewReader (array_body l).1) = Ret (acc ++ (canon <$> l)).
Proof.
  induction l as [|v l IH]; intros fuel acc Hrt Hok Hlen Hf.
  { destruct fuel; [simpl in Hf; lia|]. simpl. by rewrite app_nil_r. }
  apply Forall_cons in Hrt as [Hv Hrt].
  destruct fuel as [|fuel]; [lia|]. set (w := array_body (v :: l)) in *.
  assert (w = (WriteFieldValue v ;;; array_body l)) as Hw by done.
  pose proof Hok as Hok'. rewrite Hw in Hok'. pose proof Hok' as [Hv' Hl]%w_then_ok.
  pose proof (WriteFieldValue_nonempty v Hv') as Hn.
  assert (Hlw : length w.1 = (length (WriteFieldValue v).1 + length (array_body l).1)%nat).
  { by rewrite Hw, w_then_length. }
  assert (Hr : ∀ e, rfv (mkReader w.1 e) = Ret (canon v, mkReader (array_body l).1 e)).
  { intros e. rewrite Hw, w_then_out by done. apply Hv; [done|lia]. }
  cbn [ReadArray_loop]. change (rbuf (NewReader w.1)) with w.1.
  destruct (w.1) as [|b0 bs] eqn:Hb; [simpl in Hlw; lia|]. unfold NewReader. rewrite Hr.
  etrans; [apply IH|]; simpl in *; [done|done|lia|lia|]. by rewrite <-app_assoc.
Qed.

(** A body behind its length is read by a loop over exactly that body. *)
Lemma rt_sized {A} (b : writer) (loop : list byte → outcome Error A) a :
  (b.2 = None → Z.of_nat (length b.1) < 2 ^ 32 → loop b.1 = Ret a) →
  rt (w_sized b) (n ← ReadLong; buf ← rd_full (Z.to_nat n); rd_lift (loop buf)) a.
Proof.
  intros Hl rest e Hok Hlen. pose proof (proj1 (w_sized_ok b) Hok) as Hb.
  rewrite w_sized_out in Hok, Hlen |- * by done.
  assert (Z.of_nat (length b.1) < 2 ^ 32).
  { rewrite w_then_length in Hlen by done. simpl in Hlen. lia. }
  apply (rt_long_prefixed b.1 (λ buf, rd_lift (loop buf))); [|done..].
  by rewrite Hl.
Qed.

Lemma rt_table_of rfv (t : table) : NoDup t.*1 →
  Forall (λ kv, rt (WriteFieldValue kv.2) rfv (canon kv.2)) t →
  rt (WriteTable t) (ReadTable_of rfv) (canon_table t).
Proof.
  intros Hnd Hrt. apply (rt_sized (table_body t)). intros Hok Hlen.
  apply (ReadTable_loop_body _ _ _ []); (done || lia).
Qed.

Lemma rt_array_of rfv (l : list value) :
  Forall (λ v, rt (WriteFieldValue v) rfv (canon v)) l →
  rt (WriteArray l) (ReadArray_of rfv) (canon <$> l).
Proof.
  intros Hrt. apply (rt_sized (array_body l)). intros Hok Hlen.
  apply (ReadArray_loop_body _ _ _ []); (done || lia).
Qed.

(** The bytes of a nested value are fewer than those of what holds it. *)
Lemma table_body_member (t : table) k v : (table_body t).2 = None → (k, v) ∈ t →
  (length (WriteFieldValue v).1 ≤ length (table_body t).1)%nat.
Proof.
  induction t as [|[k' v'] t IH]; intros Hok Hin; [by apply not_elem_of_nil in Hin|].
  change (table_body ((k', v') :: t)) with
    (WriteShortStr k' ;;; WriteFieldValue v' ;;; table_body t) in *.
  pose proof Hok as [Hk [Hv Ht]%w_then_ok]%w_then_ok.
  rewrite w_then_length, w_then_length by (done || by apply w_then_ok).
  apply elem_of_cons in Hin as [[= -> ->]|Hin]; [lia|]. specialize (IH Ht Hin). lia.
Qed.

Lemma array_body_member (l : list value) v : (array_body l).2 = None → v ∈ l →
  (length (WriteFieldValue v).1 ≤ length (array_body l).1)%nat.
Proof.
  induction l as [|v' l IH]; intros Hok Hin; [by apply not_elem_of_nil in Hin|].
  change (array_body (v' :: l)) with (WriteFieldValue v' ;;; array_body l) in *.
  pose proof Hok as [Hv Ht]%w_then_ok. rewrite w_then_length by done.
  apply elem_of_cons in Hin as [->|Hin]; [lia|]. specialize (IH Ht Hin). lia.
Qed.

Lemma w_sized_length b : (w_sized b).2 = None →
  length (w_sized b).1 = (4 + length b.1)%nat.
Proof.
  intros Hok. pose proof (proj1 (w_sized_ok b) Hok) as Hb. by rewrite w_sized_out.
Qed.

(** The tag is read back, and selects the reader of the value. *)
Ltac rt_tag :=
  eapply rt_then; [apply rt_octet; vm_compute; split; congruence|]; cbv beta;
  repeat match goal with
  | |- context [chr ?a =? chr ?b] =>
      let v := eval vm_compute in (chr a =? chr b) in change (chr a =? chr b) with v; cbv iota
  end.

Lemma rt_leaf v :
  match v with
  | VTable _ | VArray _ => True
  | _ => ∀ fuel, value_ok v → (length (WriteFieldValue v).1 ≤ fuel)%nat →
         rt (WriteFieldValue v) (ReadFieldValue_fuel fuel) (canon v)
  end.
Proof.
  destruct v; try exact I; intros fuel Hok Hf rest e Hw;
    (destruct fuel as [|fuel]; [apply WriteFieldValue_nonempty in Hw; lia|]);
    revert rest e Hw; cbn [ReadFieldValue_fuel WriteFieldValue canon]; inversion Hok; subst.
  all: try rt_tag.
  - destruct b; by eapply rt_last; [apply rt_octet|].
  - eapply rt_last; [apply rt_octet, u8_range|by rewrite i8_u8].
  - by eapply rt_last; [apply rt_octet|].
  - eapply rt_last; [apply rt_short, u16_range|by rewrite i16_u16].
  - by eapply rt_last; [apply rt_short|].
  - eapply rt_last; [apply rt_long, u32_range|by rewrite i32_u32, i32_small].
  - eapply rt_last; [apply rt_long, u32_range|by rewrite i32_u32].
  - eapply rt_last; [apply rt_longlong, u64_range|by rewrite i64_of_u64].
  - by eapply rt_last; [apply rt_longlong|].
  - by eapply rt_last; [apply rt_long|].
  - by eapply rt_last; [apply rt_longlong|].
  - destruct d. eapply rt_then; [by apply rt_octet|].
    eapply rt_last; [apply rt_long, u32_range|]. simpl in *. by rewrite i32_u32, i32_small.
  - by eapply rt_last; [apply rt_longstr|].
  - by apply rt_long_prefixed.
  - by eapply rt_last; [apply rt_octet|].
Qed.

Lemma rt_value v : ∀ fuel, value_ok v → (length (WriteFieldValue v).1 ≤ fuel)%nat →
  rt (WriteFieldValue v) (ReadFieldValue_fuel fuel) (canon v).
Proof.
  revert v. apply (value_rec' (λ v, ∀ fuel, value_ok v →
    (length (WriteFieldValue v).1 ≤ fuel)%nat →
    rt (WriteFieldValue v) (ReadFieldValue_fuel fuel) (canon v))).
  { intros v. exact (rt_leaf v). }
  - intros t IH fuel Hok Hf rest e Hw Hlen.
    inversion Hok as [| | | | | | | | | | | | |? Hnd Ht| | |]; subst.
    cbn [WriteFieldValue] in *. rewrite w_then_length in Hf by done.
    pose proof (proj1 (w_then_ok _ _) Hw) as [_ Hb].
    fold (WriteTable t) in *. unfold WriteTable, WriteTable_of in Hb, Hf.
    fold (table_body t) in Hb, Hf. rewrite w_sized_length in Hf by done. simpl in Hf.
    destruct fuel as [|fuel]; [lia|]. revert rest e Hw Hlen.
    cbn [ReadFieldValue_fuel canon]. rt_tag. eapply rt_last; [|done].
    apply rt_table_of; [done|]. apply Forall_forall. intros [k v] Hin. simpl.
    rewrite Forall_forall in IH, Ht. apply (IH _ Hin); [by apply (Ht _ Hin)|]. simpl.
    pose proof (table_body_member t k v (proj1 (w_sized_ok _) Hb) Hin). lia.
  - intros l IH fuel Hok Hf rest e Hw Hlen.
    inversion Hok as [| | | | | | | | | | | | | |? Ht| |]; subst.
    cbn [WriteFieldValue] in *. rewrite w_then_length in Hf by done.
    pose proof (proj1 (w_then_ok _ _) Hw) as [_ Hb].
    fold (WriteArray l) in *. unfold WriteArray, WriteArray_of in Hb, Hf.
    fold (array_body l) in Hb, Hf. rewrite w_sized_length in Hf by done. simpl in Hf.
    destruct fuel as [|fuel]; [lia|]. revert rest e Hw Hlen.
    cbn [ReadFieldValue_fuel canon]. rt_tag. eapply rt_last; [|done].
    apply rt_array_of. apply Forall_forall. intros v Hin.
    rewrite Forall_forall in IH, Ht. apply (IH _ Hin); [by apply (Ht _ Hin)|].
    pose proof (array_body_member l v (proj1 (w_sized_ok _) Hb) Hin). lia.
Qed.

Lemma rt_table t : table_ok t → rt (WriteTable t) ReadTable (canon_table t).
Proof.
  intros [Hnd Ht] rest e Hok Hlen. apply rt_table_of; [done| |done..].
  apply Forall_forall. intros [k v] Hin. rewrite Forall_forall in Ht.
  apply rt_value; [by apply (Ht _ Hin)|]. simpl.
  pose proof (table_body_member t k v (proj1 (w_sized_ok _) Hok) Hin).
  pose proof (w_sized_length _ Hok). rewrite length_app.
  change (WriteTable t) with (w_sized (table_body t)). unfold table_body in *. lia.
Qed.

Lemma rt_field v : value_ok v → rt (WriteFieldValue v) ReadFieldValue (canon v).
Proof.
  intros Hv rest e Hok Hlen. apply rt_value; [done| |done..]. simpl. rewrite length_app. lia.
Qed.

Lemma WriteTable_ok t : table_ok t → (WriteTable t).2 = None.
Proof.
  intros [Hnd Ht]. pose proof (WriteFieldValue_ok (VTable t) (ok_table _ Hnd Ht)) as H.
  by apply w_then_ok in H as [_ H].
Qed.

(** ** What a read can return

    [reads n k m P]: on a reader with at most [n] bytes, [m] does not panic,
    and what it returns satisfies [P] and has consumed at least [k] bytes. *)

Definition reads {A} (n k : nat) (m : rd A) (P : A → Prop) : Prop := ∀ r,
  (length (rbuf r) ≤ n)%nat →
  match m r with
  | Ret (a, r') => P a ∧ (length (rbuf r') + k ≤ length (rbuf r))%nat ∧ rend r' = rend r
  | Fail _ => True
  | Panic => False
  end.

Lemma reads_bind {A B} n k1 k2 (m : rd A) (f : A → rd B) P Q :
  reads n k1 m P → (∀ a, P a → reads (n - k1) k2 (f a) Q) → reads n (k1 + k2) (m ≫= f) Q.
Proof.
  intros Hm Hf r Hr. unfold mbind, rd_bind. specialize (Hm r Hr).
  destruct (m r) as [[a r1]| |]; [|done..]. destruct Hm as (Ha & Hl & He).
  specialize (Hf a Ha r1 ltac:(lia)). destruct (f a r1) as [[b r2]| |]; [|done..].
  destruct Hf as (Hb & Hl2 & He2). split_and!; [done|lia|congruence].
Qed.

Lemma reads_then {A B} n k (m : rd A) (f : A → rd B) P Q :
  reads n k m P → (∀ a, P a → reads n 0 (f a) Q) → reads n k (m ≫= f) Q.
Proof.
  intros Hm Hf. rewrite <-(Nat.add_0_r k). eapply reads_bind; [done|].
  intros a Ha r Hr. apply Hf; [done|lia].
Qed.

Lemma reads_ret {A} n (a : A) (P : A → Prop) : P a → reads n 0 (mret a) P.
Proof. intros Ha r Hr. simpl. split_and!; [done|lia|done]. Qed.

Lemma reads_fail {A} n k e (P : A → Prop) : reads n k (rd_fail e) P.
Proof. by intros r Hr. Qed.

Lemma reads_weaken {A} n n' k k' (m : rd A) (P Q : A → Prop) :
  reads n k m P → (n' ≤ n)%nat → (k' ≤ k)%nat → (∀ a, P a → Q a) → reads n' k' m Q.
Proof.
  intros Hm Hn Hk HP r Hr. specialize (Hm r ltac:(lia)).
  destruct (m r) as [[a r']| |]; [|done..]. destruct Hm as (? & ? & ?).
  split_and!; [by apply HP|lia|done].
Qed.

Lemma reads_le {A} n n' k k' (m : rd A) (P : A → Prop) :
  reads n k m P → (n' ≤ n)%nat → (k' ≤ k)%nat → reads n' k' m P.
Proof. intros. by eapply reads_weaken. Qed.

Lemma reads_any {A} n k (m : rd A) (P : A → Prop) : reads n k m P → reads n 0 m P.
Proof. intros. eapply reads_le; [done|lia|lia]. Qed.

Lemma reads_full n k : reads n k (rd_full k) (λ bs, length bs = k).
Proof.
  intros r Hr. unfold rd_full. pose proof (nopanic_ReadFull k r).
  destruct (ReadFull k r) as [[bs r']| |] eqn:E; [|done..].
  apply ReadFull_inv in E as (Hl & -> & ?). rewrite length_app. split_and!; [done|lia|done].
Qed.

Lemma reads_be n k : reads n k (b ← rd_full k; mret (be_read b)) (λ z, 0 <= z < 256 ^ Z.of_nat k).
Proof.
  eapply reads_then; [apply reads_full|]. intros bs <-. apply reads_ret, be_read_range.
Qed.

Lemma reads_octet n : reads n 1 ReadOctet u8_ok.
Proof. apply reads_be. Qed.
Lemma reads_short n : reads n 2 ReadShort u16_ok.
Proof. apply reads_be. Qed.
Lemma reads_long n : reads n 4 ReadLong u32_ok.
Proof. apply reads_be. Qed.
Lemma reads_longlong n : reads n 8 ReadLongLong u64_ok.
Proof. apply reads_be. Qed.

Definition longstr_ok (s : string) : Prop := Z.of_nat (String.length s) < 2 ^ 32.

Lemma length_string_of bs : String.length (string_of bs) = length bs.
Proof. by rewrite <-length_bytes_of, bytes_of_string_of. Qed.

Lemma reads_shortstr n : reads n 1 ReadShortStr shortstr_ok.
Proof.
  eapply (reads_bind n 1 0); [apply reads_octet|]. intros len Hlen.
  eapply (reads_then _ 0); [eapply reads_any, reads_full|].
  intros bs Hbs. apply reads_ret. unfold shortstr_ok, u8_ok in *.
  rewrite length_string_of. lia.
Qed.

Lemma reads_longstr n : reads n 4 ReadLongStr longstr_ok.
Proof.
  eapply (reads_bind n 4 0); [apply reads_long|]. intros len Hlen.
  eapply (reads_then _ 0); [eapply reads_any, reads_full|].
  intros bs Hbs. apply reads_ret. unfold longstr_ok, u32_ok in *.
  rewrite length_string_of. lia.
Qed.

(** A value off the wire is well formed, and of the types the wire has. *)
Definition wire_ok (v : value) : Prop := value_ok v ∧ canon v = v.
Definition wire_table_ok (t : table) : Prop := table_ok t ∧ canon_table t = t.

Lemma table_set_keys k v (t : table) : NoDup t.*1 → NoDup (table_set k v t).*1.
Proof.
  intros Hnd. destruct (decide (k ∈ t.*1)) as [Hin|Hin].
  - replace (table_set k v t).*1 with t.*1; [done|]. clear Hnd.
    induction t as [|[k' v'] t IH]; [by apply not_elem_of_nil in Hin|]. simpl. case_decide; [done|]. simpl.
    f_equal. apply IH. rewrite fmap_cons in Hin. apply elem_of_cons in Hin as [->|]; done.
  - rewrite table_set_fresh by done. rewrite fmap_app. apply NoDup_app.
    split_and!; [done| |apply NoDup_singleton].
    intros x Hx Hk. simpl in Hk. apply list_elem_of_singleton in Hk as ->. done.
Qed.

Lemma table_set_forall (P : string * value → Prop) k v t :
  P (k, v) → Forall P t → Forall P (table_set k v t).
Proof.
  intros Hv. induction 1 as [|[k' v'] t Hk Ht IH]; simpl; [by constructor|].
  case_decide as Heq; [subst|]; by constructor.
Qed.

Lemma wire_table_ok_set k v t : shortstr_ok k → wire_ok v →
  wire_table_ok t → wire_table_ok (table_set k v t).
Proof.
  intros Hk [Hv Hc] [[Hnd Ht] Hct]. split; [split|].
  - by apply table_set_keys.
  - by apply table_set_forall.
  - clear Hnd Ht. induction t as [|[k' v'] t IH]; simpl; [by rewrite Hc|].
    simpl in Hct. injection Hct as Hc1 Hc2. case_decide; simpl; [by rewrite Hc, Hc2|].
    by rewrite Hc1, IH.
Qed.

(** The outcome of a loop over a buffer. *)
Definition yields {A} (o : outcome Error A) (P : A → Prop) : Prop :=
  match o with Ret a => P a | Fail _ => True | Panic => False end.

Lemma ReadTable_loop_yields rfv n : reads n 1 rfv wire_ok → ∀ fuel t b,
  wire_table_ok t → (length (rbuf b) ≤ n)%nat → (length (rbuf b) < fuel)%nat →
  yields (ReadTable_loop rfv fuel t b) wire_table_ok.
Proof.
  intros Hrfv. induction fuel as [|fuel IH]; intros t b Ht Hn Hf; [lia|].
  cbn [ReadTable_loop]. destruct (rbuf b) as [|b0 bs] eqn:Hb; [done|].
  assert (Hkv : reads n 1 (key ← ReadShortStr; v ← rfv; mret (key, v))
    (λ kv, shortstr_ok kv.1 ∧ wire_ok kv.2)).
  { eapply reads_then; [apply reads_shortstr|]. intros k Hk.
    apply (reads_any n 1).
    eapply reads_then; [done|]. intros v Hv. by apply reads_ret. }
  specialize (Hkv b). rewrite Hb in Hkv. specialize (Hkv Hn).
  destruct ((ReadShortStr ≫= _) b) as [[[k v] b']| |]; [|done..]. destruct Hkv as ((Hk & Hv) & Hl & _).
  apply IH; [by apply wire_table_ok_set|lia|lia].
Qed.

Lemma ReadArray_loop_yields rfv n : reads n 1 rfv wire_ok → ∀ fuel l b,
  Forall wire_ok l → (length (rbuf b) ≤ n)%nat → (length (rbuf b) < fuel)%nat →
  yields (ReadArray_loop rfv fuel l b) (Forall wire_ok).
Proof.
  intros Hrfv. induction fuel as [|fuel IH]; intros l b Ht Hn Hf; [lia|].
  cbn [ReadArray_loop]. destruct (rbuf b) as [|b0 bs] eqn:Hb; [done|].
  specialize (Hrfv b). rewrite Hb in Hrfv. specialize (Hrfv Hn).
  destruct (rfv b) as [[v b']| |]; [|done..]. destruct Hrfv as (Hv & Hl & _).
  apply IH; [by apply Forall_app; split; [|constructor]|lia|lia].
Qed.

(** A read of a length and that many bytes, then a loop over them. *)
Lemma reads_sized {A} n (loop : list byte → outcome Error A) P :
  (∀ buf, (length buf + 4 ≤ n)%nat → yields (loop buf) P) →
  reads n 4 (len ← ReadLong; buf ← rd_full (Z.to_nat len); rd_lift (loop buf)) P.
Proof.
  intros Hl r Hr. pose proof (reads_long n r Hr) as H1. unfold mbind, rd_bind.
  destruct (ReadLong r) as [[len r1]| |]; [|done..]. destruct H1 as (_ & Hl1 & He1).
  pose proof (reads_full n (Z.to_nat len) r1 ltac:(lia)) as H2.
  destruct (rd_full _ r1) as [[buf r2]| |]; [|done..]. destruct H2 as (Hb & Hl2 & He2).
  specialize (Hl buf ltac:(lia)). unfold rd_lift. destruct (loop buf); [|done..].
  split_and!; [done|lia|congruence].
Qed.

Lemma reads_table_of n rfv : (∀ m, (m + 4 ≤ n)%nat → reads m 1 rfv wire_ok) →
  reads n 4 (ReadTable_of rfv) wire_table_ok.
Proof.
  intros Hrfv. apply reads_sized. intros buf Hb.
  eapply ReadTable_loop_yields; [apply (Hrfv (length buf)); lia| |done|simpl; lia].
  by split; [split; constructor|].
Qed.

Lemma reads_array_of n rfv : (∀ m, (m + 4 ≤ n)%nat → reads m 1 rfv wire_ok) →
  reads n 4 (ReadArray_of rfv) (Forall wire_ok).
Proof.
  intros Hrfv. apply reads_sized. intros buf Hb.
  eapply ReadArray_loop_yields; [apply (Hrfv (length buf)); lia|constructor|done|simpl; lia].
Qed.

Lemma i8_range z : - 2 ^ 7 <= i8 z < 2 ^ 7.
Proof. unfold i8. pose proof (Z.mod_pos_bound (z + 2 ^ 7) (2 ^ 8)). lia. Qed.
Lemma i16_range z : - 2 ^ 15 <= i16 z < 2 ^ 15.
Proof. unfold i16. pose proof (Z.mod_pos_bound (z + 2 ^ 15) (2 ^ 16)). lia. Qed.
Lemma i32_range z : - 2 ^ 31 <= i32 z < 2 ^ 31.
Proof. unfold i32. pose proof (Z.mod_pos_bound (z + 2 ^ 31) (2 ^ 32)). lia. Qed.
Lemma i64_range z : - 2 ^ 63 <= i64 z < 2 ^ 63.
Proof. unfold i64. pose proof (Z.mod_pos_bound (z + 2 ^ 63) (2 ^ 64)). lia. Qed.

Create HintDb amqp.
#[export] Hint Resolve i8_range i16_range i32_range i64_range : amqp.
#[export] Hint Constructors value_ok : amqp.

(** One field read and turned into a value. *)
Lemma reads_scalar {A} n k (m : rd A) P (f : A → value) :
  reads n k m P → (∀ a, P a → wire_ok (f a)) → reads n 0 (a ← m; mret (f a)) wire_ok.
Proof.
  intros Hm Hf. eapply reads_any, reads_then; [done|]. intros a Ha. by apply reads_ret, Hf.
Qed.

Lemma wire_ok_array l : Forall wire_ok l → wire_ok (VArray l).
Proof.
  intros Hl. split.
  - constructor. eapply Forall_impl; [done|]. by intros v [].
  - simpl. f_equal. induction Hl as [|v l [_ Hv] Hl IH]; simpl; [done|]. f_equal; [done|apply IH].
Qed.
Lemma wire_ok_table t : wire_table_ok t → wire_ok (VTable t).
Proof. intros [[Hnd Ht] Hc]. split; [by constructor|]. simpl. by f_equal. Qed.

Lemma reads_value n : reads n 1 (ReadFieldValue_fuel (S n)) wire_ok.
Proof.
  induction n as [n IH] using lt_wf_ind.
  destruct n as [|n]; [intros [[|] e] Hr; [done|simpl in Hr; lia]|].
  remember (S n) as fuel. cbn [ReadFieldValue_fuel]. subst fuel.
  eapply (reads_bind _ 1 0); [apply reads_octet|]. intros ty _.
  assert (Hin : ∀ m, (m ≤ n)%nat → reads m 1 (ReadFieldValue_fuel (S n)) wire_ok).
  { intros m Hm. eapply reads_le; [apply (IH n); lia|lia|lia]. }
  repeat case_match.
  all: try (eapply reads_scalar; [apply reads_octet || apply reads_short || apply reads_long ||
    apply reads_longlong || apply reads_shortstr || apply reads_longstr|
    intros; split; [eauto with amqp|done]]).
  - apply (reads_any _ 5). eapply (reads_bind _ 1 4); [apply reads_octet|].
    intros sc Hsc. eapply reads_then; [apply reads_long|]. intros val Hval. apply reads_ret.
    split; [constructor; [done|apply i32_range]|done].
  - apply (reads_any _ 4). eapply reads_then; [apply reads_table_of|].
    + intros m Hm. apply Hin. clear -Hm. lia.
    + intros t Ht. by apply reads_ret, wire_ok_table.
  - apply (reads_any _ 4). eapply reads_then; [apply reads_array_of|].
    + intros m Hm. apply Hin. clear -Hm. lia.
    + intros l Hl. by apply reads_ret, wire_ok_array.
  - apply reads_ret. split; [constructor|done].
  - apply (reads_any _ 4). eapply reads_then; [apply reads_long|].
    intros len Hlen. eapply (reads_then _ 0).
    { eapply reads_any, reads_full. }
    intros bs Hbs. apply reads_ret. split; [constructor|done].
  - apply reads_fail.
Qed.

Lemma reads_field n : reads n 1 ReadFieldValue wire_ok.
Proof. intros r Hr. exact (reads_value (length (rbuf r)) r (le_n _)). Qed.

Lemma reads_table n : reads n 4 ReadTable wire_table_ok.
Proof.
  intros r Hr. unfold ReadTable. apply (reads_table_of (length (rbuf r))); [|done].
  intros m Hm. destruct (length (rbuf r)) as [|k]; [lia|].
  eapply reads_le; [apply reads_value|lia|lia].
Qed.
