(* ===== verification/AmqpMethods.v ===== *)
(** * The AMQP 0.9.1 methods (src/amqp/codec/methods.go)

    One record per method struct, in the order of the source, and for each the
    pair of its [Read] and [Write] methods as an instance of [Method].  [Read]
    fills every field of the struct it is called on, so it is a reader that
    returns the struct; a struct left half filled by a failed read is dropped by
    the only caller.  [MethodSpec] says per method which structs are Go values of
    its field types and what of a struct travels ([Write] replaces reserved fields
    by their default), and [MethodLaws] is what the frame decoder relies on:
    writing succeeds, reading inverts it, and reading arbitrary bytes gives a
    well-typed struct or an error. *)

From Stdlib Require Import ZArith Lia Bool Ascii String Strings.Byte.
From stdpp Require Import prelude gmap strings.
From S2P Require Import Prelude GoStrings Codec AmqpTypes.

(** The method set of the structs: [Read(r *bytes.Reader)] and [Write(w io.Writer)]. *)
Class Method (T : Type) := {
  method_Read : rd T;
  method_Write : T → writer
}.


(** ** Class Connection *)

Definition ClassConnection : Z := 10.
Definition MethodConnectionStart : Z := 10.
Definition MethodConnectionStartOk : Z := 11.
Definition MethodConnectionSecure : Z := 20.
Definition MethodConnectionSecureOk : Z := 21.
Definition MethodConnectionTune : Z := 30.
Definition MethodConnectionTuneOk : Z := 31.
Definition MethodConnectionOpen : Z := 40.
Definition MethodConnectionOpenOk : Z := 41.
Definition MethodConnectionClose : Z := 50.
Definition MethodConnectionCloseOk : Z := 51.

Record ConnectionStart := mkConnectionStart {
  ConnectionStart_VersionMajor : Z;
  ConnectionStart_VersionMinor : Z;
  ConnectionStart_ServerProperties : table;
  ConnectionStart_Mechanisms : string;
  ConnectionStart_Locales : string
}.

#[export] Instance ConnectionStart_method : Method ConnectionStart := {|
  method_Read :=
    VersionMajor ← ReadOctet;
    VersionMinor ← ReadOctet;
    ServerProperties ← ReadTable;
    Mechanisms ← ReadLongStr;
    Locales ← ReadLongStr;
    mret (mkConnectionStart VersionMajor VersionMinor ServerProperties Mechanisms Locales);
  method_Write m :=
    WriteShort ClassConnection ;;;
    WriteShort MethodConnectionStart ;;;
    WriteOctet (ConnectionStart_VersionMajor m) ;;;
    WriteOctet (ConnectionStart_VersionMinor m) ;;;
    WriteTable (ConnectionStart_ServerProperties m) ;;;
    WriteLongStr (ConnectionStart_Mechanisms m) ;;;
    WriteLongStr (ConnectionStart_Locales m)
|}.

Record ConnectionStartOk := mkConnectionStartOk {
  ConnectionStartOk_ClientProperties : table;
  ConnectionStartOk_Mechanism : string;
  ConnectionStartOk_Response : string;
  ConnectionStartOk_Locale : string
}.

#[export] Instance ConnectionStartOk_method : Method ConnectionStartOk := {|
  method_Read :=
    ClientProperties ← ReadTable;
    Mechanism ← ReadShortStr;
    Response ← ReadLongStr;
    Locale ← ReadShortStr;
    mret (mkConnectionStartOk ClientProperties Mechanism Response Locale);
  method_Write m :=
    WriteShort ClassConnection ;;;
    WriteShort MethodConnectionStartOk ;;;
    WriteTable (ConnectionStartOk_ClientProperties m) ;;;
    WriteShortStr (ConnectionStartOk_Mechanism m) ;;;
    WriteLongStr (ConnectionStartOk_Response m) ;;;
    WriteShortStr (ConnectionStartOk_Locale m)
|}.

Record ConnectionSecure := mkConnectionSecure {
  ConnectionSecure_Challenge : string
}.

#[export] Instance ConnectionSecure_method : Method ConnectionSecure := {|
  method_Read :=
    Challenge ← ReadLongStr;
    mret (mkConnectionSecure Challenge);
  method_Write m :=
    WriteShort ClassConnection ;;;
    WriteShort MethodConnectionSecure ;;;
    WriteLongStr (ConnectionSecure_Challenge m)
|}.

Record ConnectionSecureOk := mkConnectionSecureOk {
  ConnectionSecureOk_Response : string
}.

#[export] Instance ConnectionSecureOk_method : Method ConnectionSecureOk := {|
  method_Read :=
    Response ← ReadLongStr;
    mret (mkConnectionSecureOk Response);
  method_Write m :=
    WriteShort ClassConnection ;;;
    WriteShort MethodConnectionSecureOk ;;;
    WriteLongStr (ConnectionSecureOk_Response m)
|}.

Record ConnectionTune := mkConnectionTune {
  ConnectionTune_ChannelMax : Z;
  ConnectionTune_FrameMax : Z;
  ConnectionTune_Heartbeat : Z
}.

#[export] Instance ConnectionTune_method : Method ConnectionTune := {|
  method_Read :=
    ChannelMax ← ReadShort;
    FrameMax ← ReadLong;
    Heartbeat ← ReadShort;
    mret (mkConnectionTune ChannelMax FrameMax Heartbeat);
  method_Write m :=
    WriteShort ClassConnection ;;;
    WriteShort MethodConnectionTune ;;;
    WriteShort (ConnectionTune_ChannelMax m) ;;;
    WriteLong (ConnectionTune_FrameMax m) ;;;
    WriteShort (ConnectionTune_Heartbeat m)
|}.

Record ConnectionTuneOk := mkConnectionTuneOk {
  ConnectionTuneOk_ChannelMax : Z;
  ConnectionTuneOk_FrameMax : Z;
  ConnectionTuneOk_Heartbeat : Z
}.

#[export] Instance ConnectionTuneOk_method : Method ConnectionTuneOk := {|
  method_Read :=
    ChannelMax ← ReadShort;
    FrameMax ← ReadLong;
    Heartbeat ← ReadShort;
    mret (mkConnectionTuneOk ChannelMax FrameMax Heartbeat);
  method_Write m :=
    WriteShort ClassConnection ;;;
    WriteShort MethodConnectionTuneOk ;;;
    WriteShort (ConnectionTuneOk_ChannelMax m) ;;;
    WriteLong (ConnectionTuneOk_FrameMax m) ;;;
    WriteShort (ConnectionTuneOk_Heartbeat m)
|}.

Record ConnectionOpen := mkConnectionOpen {
  ConnectionOpen_VirtualHost : string;
  ConnectionOpen_Capabilities : string;
  ConnectionOpen_Insist : bool
}.

#[export] Instance ConnectionOpen_method : Method ConnectionOpen := {|
  method_Read :=
    VirtualHost ← ReadShortStr;
    Capabilities ← ReadShortStr;
    bits ← ReadOctet;
    let Insist := negb (Z.land bits 0x01 =? 0) in
    mret (mkConnectionOpen VirtualHost Capabilities Insist);
  method_Write m :=
    WriteShort ClassConnection ;;;
    WriteShort MethodConnectionOpen ;;;
    WriteShortStr (ConnectionOpen_VirtualHost m) ;;;
    WriteShortStr EmptyString ;;;
    let bits := 0 in
    let bits := if ConnectionOpen_Insist m then Z.lor bits 0x01 else bits in
    WriteOctet bits
|}.

Record ConnectionOpenOk := mkConnectionOpenOk {
  ConnectionOpenOk_KnownHosts : string
}.

#[export] Instance ConnectionOpenOk_method : Method ConnectionOpenOk := {|
  method_Read :=
    KnownHosts ← ReadShortStr;
    mret (mkConnectionOpenOk KnownHosts);
  method_Write m :=
    WriteShort ClassConnection ;;;
    WriteShort MethodConnectionOpenOk ;;;
    WriteShortStr EmptyString
|}.

Record ConnectionClose := mkConnectionClose {
  ConnectionClose_ReplyCode : Z;
  ConnectionClose_ReplyText : string;
  ConnectionClose_ClassID : Z;
  ConnectionClose_MethodID : Z
}.

#[export] Instance ConnectionClose_method : Method ConnectionClose := {|
  method_Read :=
    ReplyCode ← ReadShort;
    ReplyText ← ReadShortStr;
    ClassID ← ReadShort;
    MethodID ← ReadShort;
    mret (mkConnectionClose ReplyCode ReplyText ClassID MethodID);
  method_Write m :=
    WriteShort ClassConnection ;;;
    WriteShort MethodConnectionClose ;;;
    WriteShort (ConnectionClose_ReplyCode m) ;;;
    WriteShortStr (ConnectionClose_ReplyText m) ;;;
    WriteShort (ConnectionClose_ClassID m) ;;;
    WriteShort (ConnectionClose_MethodID m)
|}.

Inductive ConnectionCloseOk := mkConnectionCloseOk.

#[export] Instance ConnectionCloseOk_method : Method ConnectionCloseOk := {|
  method_Read :=
    mret mkConnectionCloseOk;
  method_Write m :=
    WriteShort ClassConnection ;;;
    WriteShort MethodConnectionCloseOk ;;;
    w_bytes []
|}.

(** ** Class Channel *)

Definition ClassChannel : Z := 20.
Definition MethodChannelOpen : Z := 10.
Definition MethodChannelOpenOk : Z := 11.
Definition MethodChannelFlow : Z := 20.
Definition MethodChannelFlowOk : Z := 21.
Definition MethodChannelClose : Z := 40.
Definition MethodChannelCloseOk : Z := 41.

Record ChannelOpen := mkChannelOpen {
  ChannelOpen_Reserved1 : string
}.

#[export] Instance ChannelOpen_method : Method ChannelOpen := {|
  method_Read :=
    Reserved1 ← ReadShortStr;
    mret (mkChannelOpen Reserved1);
  method_Write m :=
    WriteShort ClassChannel ;;;
    WriteShort MethodChannelOpen ;;;
    WriteShortStr EmptyString
|}.

Record ChannelOpenOk := mkChannelOpenOk {
  ChannelOpenOk_Reserved1 : string
}.

#[export] Instance ChannelOpenOk_method : Method ChannelOpenOk := {|
  method_Read :=
    Reserved1 ← ReadLongStr;
    mret (mkChannelOpenOk Reserved1);
  method_Write m :=
    WriteShort ClassChannel ;;;
    WriteShort MethodChannelOpenOk ;;;
    WriteLongStr EmptyString
|}.

Record ChannelFlow := mkChannelFlow {
  ChannelFlow_Active : bool
}.

#[export] Instance ChannelFlow_method : Method ChannelFlow := {|
  method_Read :=
    bits ← ReadOctet;
    let Active := negb (Z.land bits 0x01 =? 0) in
    mret (mkChannelFlow Active);
  method_Write m :=
    WriteShort ClassChannel ;;;
    WriteShort MethodChannelFlow ;;;
    let bits := 0 in
    let bits := if ChannelFlow_Active m then Z.lor bits 0x01 else bits in
    WriteOctet bits
|}.

Record ChannelFlowOk := mkChannelFlowOk {
  ChannelFlowOk_Active : bool
}.

#[export] Instance ChannelFlowOk_method : Method ChannelFlowOk := {|
  method_Read :=
    bits ← ReadOctet;
    let Active := negb (Z.land bits 0x01 =? 0) in
    mret (mkChannelFlowOk Active);
  method_Write m :=
    WriteShort ClassChannel ;;;
    WriteShort MethodChannelFlowOk ;;;
    let bits := 0 in
    let bits := if ChannelFlowOk_Active m then Z.lor bits 0x01 else bits in
    WriteOctet bits
|}.

Record ChannelClose := mkChannelClose {
  ChannelClose_ReplyCode : Z;
  ChannelClose_ReplyText : string;
  ChannelClose_ClassID : Z;
  ChannelClose_MethodID : Z
}.

#[export] Instance ChannelClose_method : Method ChannelClose := {|
  method_Read :=
    ReplyCode ← ReadShort;
    ReplyText ← ReadShortStr;
    ClassID ← ReadShort;
    MethodID ← ReadShort;
    mret (mkChannelClose ReplyCode ReplyText ClassID MethodID);
  method_Write m :=
    WriteShort ClassChannel ;;;
    WriteShort MethodChannelClose ;;;
    WriteShort (ChannelClose_ReplyCode m) ;;;
    WriteShortStr (ChannelClose_ReplyText m) ;;;
    WriteShort (ChannelClose_ClassID m) ;;;
    WriteShort (ChannelClose_MethodID m)
|}.

Inductive ChannelCloseOk := mkChannelCloseOk.

#[export] Instance ChannelCloseOk_method : Method ChannelCloseOk := {|
  method_Read :=
    mret mkChannelCloseOk;
  method_Write m :=
    WriteShort ClassChannel ;;;
    WriteShort MethodChannelCloseOk ;;;
    w_bytes []
|}.

(** ** Class Exchange *)

Definition ClassExchange : Z := 40.
Definition MethodExchangeDeclare : Z := 10.
Definition MethodExchangeDeclareOk : Z := 11.
Definition MethodExchangeDelete : Z := 20.
Definition MethodExchangeDeleteOk : Z := 21.
Definition MethodExchangeBind : Z := 30.
Definition MethodExchangeBindOk : Z := 31.
Definition MethodExchangeUnbind : Z := 40.
Definition MethodExchangeUnbindOk : Z := 51.

Record ExchangeDeclare := mkExchangeDeclare {
  ExchangeDeclare_Reserved1 : Z;
  ExchangeDeclare_Exchange : string;
  ExchangeDeclare_Type : string;
  ExchangeDeclare_Passive : bool;
  ExchangeDeclare_Durable : bool;
  ExchangeDeclare_AutoDelete : bool;
  ExchangeDeclare_Internal : bool;
  ExchangeDeclare_NoWait : bool;
  ExchangeDeclare_Arguments : table
}.

#[export] Instance ExchangeDeclare_method : Method ExchangeDeclare := {|
  method_Read :=
    Reserved1 ← ReadShort;
    Exchange ← ReadShortStr;
    Type_ ← ReadShortStr;
    bits ← ReadOctet;
    let Passive := negb (Z.land bits 0x01 =? 0) in
    let Durable := negb (Z.land bits 0x02 =? 0) in
    let AutoDelete := negb (Z.land bits 0x04 =? 0) in
    let Internal := negb (Z.land bits 0x08 =? 0) in
    let NoWait := negb (Z.land bits 0x10 =? 0) in
    Arguments ← ReadTable;
    mret (mkExchangeDeclare Reserved1 Exchange Type_ Passive Durable AutoDelete Internal NoWait Arguments);
  method_Write m :=
    WriteShort ClassExchange ;;;
    WriteShort MethodExchangeDeclare ;;;
    WriteShort 0 ;;;
    WriteShortStr (ExchangeDeclare_Exchange m) ;;;
    WriteShortStr (ExchangeDeclare_Type m) ;;;
    let bits := 0 in
    let bits := if ExchangeDeclare_Passive m then Z.lor bits 0x01 else bits in
    let bits := if ExchangeDeclare_Durable m then Z.lor bits 0x02 else bits in
    let bits := if ExchangeDeclare_AutoDelete m then Z.lor bits 0x04 else bits in
    let bits := if ExchangeDeclare_Internal m then Z.lor bits 0x08 else bits in
    let bits := if ExchangeDeclare_NoWait m then Z.lor bits 0x10 else bits in
    WriteOctet bits ;;;
    WriteTable (ExchangeDeclare_Arguments m)
|}.

Inductive ExchangeDeclareOk := mkExchangeDeclareOk.

#[export] Instance ExchangeDeclareOk_method : Method ExchangeDeclareOk := {|
  method_Read :=
    mret mkExchangeDeclareOk;
  method_Write m :=
    WriteShort ClassExchange ;;;
    WriteShort MethodExchangeDeclareOk ;;;
    w_bytes []
|}.

Record ExchangeDelete := mkExchangeDelete {
  ExchangeDelete_Reserved1 : Z;
  ExchangeDelete_Exchange : string;
  ExchangeDelete_IfUnused : bool;
  ExchangeDelete_NoWait : bool
}.

#[export] Instance ExchangeDelete_method : Method ExchangeDelete := {|
  method_Read :=
    Reserved1 ← ReadShort;
    Exchange ← ReadShortStr;
    bits ← ReadOctet;
    let IfUnused := negb (Z.land bits 0x01 =? 0) in
    let NoWait := negb (Z.land bits 0x02 =? 0) in
    mret (mkExchangeDelete Reserved1 Exchange IfUnused NoWait);
  method_Write m :=
    WriteShort ClassExchange ;;;
    WriteShort MethodExchangeDelete ;;;
    WriteShort 0 ;;;
    WriteShortStr (ExchangeDelete_Exchange m) ;;;
    let bits := 0 in
    let bits := if ExchangeDelete_IfUnused m then Z.lor bits 0x01 else bits in
    let bits := if ExchangeDelete_NoWait m then Z.lor bits 0x02 else bits in
    WriteOctet bits
|}.

Inductive ExchangeDeleteOk := mkExchangeDeleteOk.

#[export] Instance ExchangeDeleteOk_method : Method ExchangeDeleteOk := {|
  method_Read :=
    mret mkExchangeDeleteOk;
  method_Write m :=
    WriteShort ClassExchange ;;;
    WriteShort MethodExchangeDeleteOk ;;;
    w_bytes []
|}.

Record ExchangeBind := mkExchangeBind {
  ExchangeBind_Reserved1 : Z;
  ExchangeBind_Destination : string;
  ExchangeBind_Source : string;
  ExchangeBind_RoutingKey : string;
  ExchangeBind_NoWait : bool;
  ExchangeBind_Arguments : table
}.

#[export] Instance ExchangeBind_method : Method ExchangeBind := {|
  method_Read :=
    Reserved1 ← ReadShort;
    Destination ← ReadShortStr;
    Source ← ReadShortStr;
    RoutingKey ← ReadShortStr;
    bits ← ReadOctet;
    let NoWait := negb (Z.land bits 0x01 =? 0) in
    Arguments ← ReadTable;
    mret (mkExchangeBind Reserved1 Destination Source RoutingKey NoWait Arguments);
  method_Write m :=
    WriteShort ClassExchange ;;;
    WriteShort MethodExchangeBind ;;;
    WriteShort 0 ;;;
    WriteShortStr (ExchangeBind_Destination m) ;;;
    WriteShortStr (ExchangeBind_Source m) ;;;
    WriteShortStr (ExchangeBind_RoutingKey m) ;;;
    let bits := 0 in
    let bits := if ExchangeBind_NoWait m then Z.lor bits 0x01 else bits in
    WriteOctet bits ;;;
    WriteTable (ExchangeBind_Arguments m)
|}.

Inductive ExchangeBindOk := mkExchangeBindOk.

#[export] Instance ExchangeBindOk_method : Method ExchangeBindOk := {|
  method_Read :=
    mret mkExchangeBindOk;
  method_Write m :=
    WriteShort ClassExchange ;;;
    WriteShort MethodExchangeBindOk ;;;
    w_bytes []
|}.

Record ExchangeUnbind := mkExchangeUnbind {
  ExchangeUnbind_Reserved1 : Z;
  ExchangeUnbind_Destination : string;
  ExchangeUnbind_Source : string;
  ExchangeUnbind_RoutingKey : string;
  ExchangeUnbind_NoWait : bool;
  ExchangeUnbind_Arguments : table
}.

#[export] Instance ExchangeUnbind_method : Method ExchangeUnbind := {|
  method_Read :=
    Reserved1 ← ReadShort;
    Destination ← ReadShortStr;
    Source ← ReadShortStr;
    RoutingKey ← ReadShortStr;
    bits ← ReadOctet;
    let NoWait := negb (Z.land bits 0x01 =? 0) in
    Arguments ← ReadTable;
    mret (mkExchangeUnbind Reserved1 Destination Source RoutingKey NoWait Arguments);
  method_Write m :=
    WriteShort ClassExchange ;;;
    WriteShort MethodExchangeUnbind ;;;
    WriteShort 0 ;;;
    WriteShortStr (ExchangeUnbind_Destination m) ;;;
    WriteShortStr (ExchangeUnbind_Source m) ;;;
    WriteShortStr (ExchangeUnbind_RoutingKey m) ;;;
    let bits := 0 in
    let bits := if ExchangeUnbind_NoWait m then Z.lor bits 0x01 else bits in
    WriteOctet bits ;;;
    WriteTable (ExchangeUnbind_Arguments m)
|}.

Inductive ExchangeUnbindOk := mkExchangeUnbindOk.

#[export] Instance ExchangeUnbindOk_method : Method ExchangeUnbindOk := {|
  method_Read :=
    mret mkExchangeUnbindOk;
  method_Write m :=
    WriteShort ClassExchange ;;;
    WriteShort MethodExchangeUnbindOk ;;;
    w_bytes []
|}.

(** ** Class Queue *)

Definition ClassQueue : Z := 50.
Definition MethodQueueDeclare : Z := 10.
Definition MethodQueueDeclareOk : Z := 11.
Definition MethodQueueBind : Z := 20.
Definition MethodQueueBindOk : Z := 21.
Definition MethodQueuePurge : Z := 30.
Definition MethodQueuePurgeOk : Z := 31.
Definition MethodQueueDelete : Z := 40.
Definition MethodQueueDeleteOk : Z := 41.
Definition MethodQueueUnbind : Z := 50.
Definition MethodQueueUnbindOk : Z := 51.

Record QueueDeclare := mkQueueDeclare {
  QueueDeclare_Reserved1 : Z;
  QueueDeclare_Queue : string;
  QueueDeclare_Passive : bool;
  QueueDeclare_Durable : bool;
  QueueDeclare_Exclusive : bool;
  QueueDeclare_AutoDelete : bool;
  QueueDeclare_NoWait : bool;
  QueueDeclare_Arguments : table
}.

#[export] Instance QueueDeclare_method : Method QueueDeclare := {|
  method_Read :=
    Reserved1 ← ReadShort;
    Queue ← ReadShortStr;
    bits ← ReadOctet;
    let Passive := negb (Z.land bits 0x01 =? 0) in
    let Durable := negb (Z.land bits 0x02 =? 0) in
    let Exclusive := negb (Z.land bits 0x04 =? 0) in
    let AutoDelete := negb (Z.land bits 0x08 =? 0) in
    let NoWait := negb (Z.land bits 0x10 =? 0) in
    Arguments ← ReadTable;
    mret (mkQueueDeclare Reserved1 Queue Passive Durable Exclusive AutoDelete NoWait Arguments);
  method_Write m :=
    WriteShort ClassQueue ;;;
    WriteShort MethodQueueDeclare ;;;
    WriteShort 0 ;;;
    WriteShortStr (QueueDeclare_Queue m) ;;;
    let bits := 0 in
    let bits := if QueueDeclare_Passive m then Z.lor bits 0x01 else bits in
    let bits := if QueueDeclare_Durable m then Z.lor bits 0x02 else bits in
    let bits := if QueueDeclare_Exclusive m then Z.lor bits 0x04 else bits in
    let bits := if QueueDeclare_AutoDelete m then Z.lor bits 0x08 else bits in
    let bits := if QueueDeclare_NoWait m then Z.lor bits 0x10 else bits in
    WriteOctet bits ;;;
    WriteTable (QueueDeclare_Arguments m)
|}.

Record QueueDeclareOk := mkQueueDeclareOk {
  QueueDeclareOk_Queue : string;
  QueueDeclareOk_MessageCount : Z;
  QueueDeclareOk_ConsumerCount : Z
}.

#[export] Instance QueueDeclareOk_method : Method QueueDeclareOk := {|
  method_Read :=
    Queue ← ReadShortStr;
    MessageCount ← ReadLong;
    ConsumerCount ← ReadLong;
    mret (mkQueueDeclareOk Queue MessageCount ConsumerCount);
  method_Write m :=
    WriteShort ClassQueue ;;;
    WriteShort MethodQueueDeclareOk ;;;
    WriteShortStr (QueueDeclareOk_Queue m) ;;;
    WriteLong (QueueDeclareOk_MessageCount m) ;;;
    WriteLong (QueueDeclareOk_ConsumerCount m)
|}.

Record QueueBind := mkQueueBind {
  QueueBind_Reserved1 : Z;
  QueueBind_Queue : string;
  QueueBind_Exchange : string;
  QueueBind_RoutingKey : string;
  QueueBind_NoWait : bool;
  QueueBind_Arguments : table
}.

#[export] Instance QueueBind_method : Method QueueBind := {|
  method_Read :=
    Reserved1 ← ReadShort;
    Queue ← ReadShortStr;
    Exchange ← ReadShortStr;
    RoutingKey ← ReadShortStr;
    bits ← ReadOctet;
    let NoWait := negb (Z.land bits 0x01 =? 0) in
    Arguments ← ReadTable;
    mret (mkQueueBind Reserved1 Queue Exchange RoutingKey NoWait Arguments);
  method_Write m :=
    WriteShort ClassQueue ;;;
    WriteShort MethodQueueBind ;;;
    WriteShort 0 ;;;
    WriteShortStr (QueueBind_Queue m) ;;;
    WriteShortStr (QueueBind_Exchange m) ;;;
    WriteShortStr (QueueBind_RoutingKey m) ;;;
    let bits := 0 in
    let bits := if QueueBind_NoWait m then Z.lor bits 0x01 else bits in
    WriteOctet bits ;;;
    WriteTable (QueueBind_Arguments m)
|}.

Inductive QueueBindOk := mkQueueBindOk.

#[export] Instance QueueBindOk_method : Method QueueBindOk := {|
  method_Read :=
    mret mkQueueBindOk;
  method_Write m :=
    WriteShort ClassQueue ;;;
    WriteShort MethodQueueBindOk ;;;
    w_bytes []
|}.

Record QueueUnbind := mkQueueUnbind {
  QueueUnbind_Reserved1 : Z;
  QueueUnbind_Queue : string;
  QueueUnbind_Exchange : string;
  QueueUnbind_RoutingKey : string;
  QueueUnbind_Arguments : table
}.

#[export] Instance QueueUnbind_method : Method QueueUnbind := {|
  method_Read :=
    Reserved1 ← ReadShort;
    Queue ← ReadShortStr;
    Exchange ← ReadShortStr;
    RoutingKey ← ReadShortStr;
    Arguments ← ReadTable;
    mret (mkQueueUnbind Reserved1 Queue Exchange RoutingKey Arguments);
  method_Write m :=
    WriteShort ClassQueue ;;;
    WriteShort MethodQueueUnbind ;;;
    WriteShort 0 ;;;
    WriteShortStr (QueueUnbind_Queue m) ;;;
    WriteShortStr (QueueUnbind_Exchange m) ;;;
    WriteShortStr (QueueUnbind_RoutingKey m) ;;;
    WriteTable (QueueUnbind_Arguments m)
|}.

Inductive QueueUnbindOk := mkQueueUnbindOk.

#[export] Instance QueueUnbindOk_method : Method QueueUnbindOk := {|
  method_Read :=
    mret mkQueueUnbindOk;
  method_Write m :=
    WriteShort ClassQueue ;;;
    WriteShort MethodQueueUnbindOk ;;;
    w_bytes []
|}.

Record QueuePurge := mkQueuePurge {
  QueuePurge_Reserved1 : Z;
  QueuePurge_Queue : string;
  QueuePurge_NoWait : bool
}.

#[export] Instance QueuePurge_method : Method QueuePurge := {|
  method_Read :=
    Reserved1 ← ReadShort;
    Queue ← ReadShortStr;
    bits ← ReadOctet;
    let NoWait := negb (Z.land bits 0x01 =? 0) in
    mret (mkQueuePurge Reserved1 Queue NoWait);
  method_Write m :=
    WriteShort ClassQueue ;;;
    WriteShort MethodQueuePurge ;;;
    WriteShort 0 ;;;
    WriteShortStr (QueuePurge_Queue m) ;;;
    let bits := 0 in
    let bits := if QueuePurge_NoWait m then Z.lor bits 0x01 else bits in
    WriteOctet bits
|}.

Record QueuePurgeOk := mkQueuePurgeOk {
  QueuePurgeOk_MessageCount : Z
}.

#[export] Instance QueuePurgeOk_method : Method QueuePurgeOk := {|
  method_Read :=
    MessageCount ← ReadLong;
    mret (mkQueuePurgeOk MessageCount);
  method_Write m :=
    WriteShort ClassQueue ;;;
    WriteShort MethodQueuePurgeOk ;;;
    WriteLong (QueuePurgeOk_MessageCount m)
|}.

Record QueueDelete := mkQueueDelete {
  QueueDelete_Reserved1 : Z;
  QueueDelete_Queue : string;
  QueueDelete_IfUnused : bool;
  QueueDelete_IfEmpty : bool;
  QueueDelete_NoWait : bool
}.

#[export] Instance QueueDelete_method : Method QueueDelete := {|
  method_Read :=
    Reserved1 ← ReadShort;
    Queue ← ReadShortStr;
    bits ← ReadOctet;
    let IfUnused := negb (Z.land bits 0x01 =? 0) in
    let IfEmpty := negb (Z.land bits 0x02 =? 0) in
    let NoWait := negb (Z.land bits 0x04 =? 0) in
    mret (mkQueueDelete Reserved1 Queue IfUnused IfEmpty NoWait);
  method_Write m :=
    WriteShort ClassQueue ;;;
    WriteShort MethodQueueDelete ;;;
    WriteShort 0 ;;;
    WriteShortStr (QueueDelete_Queue m) ;;;
    let bits := 0 in
    let bits := if QueueDelete_IfUnused m then Z.lor bits 0x01 else bits in
    let bits := if QueueDelete_IfEmpty m then Z.lor bits 0x02 else bits in
    let bits := if QueueDelete_NoWait m then Z.lor bits 0x04 else bits in
    WriteOctet bits
|}.

Record QueueDeleteOk := mkQueueDeleteOk {
  QueueDeleteOk_MessageCount : Z
}.

#[export] Instance QueueDeleteOk_method : Method QueueDeleteOk := {|
  method_Read :=
    MessageCount ← ReadLong;
    mret (mkQueueDeleteOk MessageCount);
  method_Write m :=
    WriteShort ClassQueue ;;;
    WriteShort MethodQueueDeleteOk ;;;
    WriteLong (QueueDeleteOk_MessageCount m)
|}.

(** ** Class Basic *)

Definition ClassBasic : Z := 60.
Definition MethodBasicQos : Z := 10.
Definition MethodBasicQosOk : Z := 11.
Definition MethodBasicConsume : Z := 20.
Definition MethodBasicConsumeOk : Z := 21.
Definition MethodBasicCancel : Z := 30.
Definition MethodBasicCancelOk : Z := 31.
Definition MethodBasicPublish : Z := 40.
Definition MethodBasicReturn : Z := 50.
Definition MethodBasicDeliver : Z := 60.
Definition MethodBasicGet : Z := 70.
Definition MethodBasicGetOk : Z := 71.
Definition MethodBasicGetEmpty : Z := 72.
Definition MethodBasicAck : Z := 80.
Definition MethodBasicReject : Z := 90.
Definition MethodBasicRecoverAsync : Z := 100.
Definition MethodBasicRecover : Z := 110.
Definition MethodBasicRecoverOk : Z := 111.
Definition MethodBasicNack : Z := 120.

Record BasicQos := mkBasicQos {
  BasicQos_PrefetchSize : Z;
  BasicQos_PrefetchCount : Z;
  BasicQos_Global : bool
}.

#[export] Instance BasicQos_method : Method BasicQos := {|
  method_Read :=
    PrefetchSize ← ReadLong;
    PrefetchCount ← ReadShort;
    bits ← ReadOctet;
    let Global := negb (Z.land bits 0x01 =? 0) in
    mret (mkBasicQos PrefetchSize PrefetchCount Global);
  method_Write m :=
    WriteShort ClassBasic ;;;
    WriteShort MethodBasicQos ;;;
    WriteLong (BasicQos_PrefetchSize m) ;;;
    WriteShort (BasicQos_PrefetchCount m) ;;;
    let bits := 0 in
    let bits := if BasicQos_Global m then Z.lor bits 0x01 else bits in
    WriteOctet bits
|}.

Inductive BasicQosOk := mkBasicQosOk.

#[export] Instance BasicQosOk_method : Method BasicQosOk := {|
  method_Read :=
    mret mkBasicQosOk;
  method_Write m :=
    WriteShort ClassBasic ;;;
    WriteShort MethodBasicQosOk ;;;
    w_bytes []
|}.

Record BasicConsume := mkBasicConsume {
  BasicConsume_Reserved1 : Z;
  BasicConsume_Queue : string;
  BasicConsume_ConsumerTag : string;
  BasicConsume_NoLocal : bool;
  BasicConsume_NoAck : bool;
  BasicConsume_Exclusive : bool;
  BasicConsume_NoWait : bool;
  BasicConsume_Arguments : table
}.

#[export] Instance BasicConsume_method : Method BasicConsume := {|
  method_Read :=
    Reserved1 ← ReadShort;
    Queue ← ReadShortStr;
    ConsumerTag ← ReadShortStr;
    bits ← ReadOctet;
    let NoLocal := negb (Z.land bits 0x01 =? 0) in
    let NoAck := negb (Z.land bits 0x02 =? 0) in
    let Exclusive := negb (Z.land bits 0x04 =? 0) in
    let NoWait := negb (Z.land bits 0x08 =? 0) in
    Arguments ← ReadTable;
    mret (mkBasicConsume Reserved1 Queue ConsumerTag NoLocal NoAck Exclusive NoWait Arguments);
  method_Write m :=
    WriteShort ClassBasic ;;;
    WriteShort MethodBasicConsume ;;;
    WriteShort 0 ;;;
    WriteShortStr (BasicConsume_Queue m) ;;;
    WriteShortStr (BasicConsume_ConsumerTag m) ;;;
    let bits := 0 in
    let bits := if BasicConsume_NoLocal m then Z.lor bits 0x01 else bits in
    let bits := if BasicConsume_NoAck m then Z.lor bits 0x02 else bits in
    let bits := if BasicConsume_Exclusive m then Z.lor bits 0x04 else bits in
    let bits := if BasicConsume_NoWait m then Z.lor bits 0x08 else bits in
    WriteOctet bits ;;;
    WriteTable (BasicConsume_Arguments m)
|}.

Record BasicConsumeOk := mkBasicConsumeOk {
  BasicConsumeOk_ConsumerTag : string
}.

#[export] Instance BasicConsumeOk_method : Method BasicConsumeOk := {|
  method_Read :=
    ConsumerTag ← ReadShortStr;
    mret (mkBasicConsumeOk ConsumerTag);
  method_Write m :=
    WriteShort ClassBasic ;;;
    WriteShort MethodBasicConsumeOk ;;;
    WriteShortStr (BasicConsumeOk_ConsumerTag m)
|}.

Record BasicCancel := mkBasicCancel {
  BasicCancel_ConsumerTag : string;
  BasicCancel_NoWait : bool
}.

#[export] Instance BasicCancel_method : Method BasicCancel := {|
  method_Read :=
    ConsumerTag ← ReadShortStr;
    bits ← ReadOctet;
    let NoWait := negb (Z.land bits 0x01 =? 0) in
    mret (mkBasicCancel ConsumerTag NoWait);
  method_Write m :=
    WriteShort ClassBasic ;;;
    WriteShort MethodBasicCancel ;;;
    WriteShortStr (BasicCancel_ConsumerTag m) ;;;
    let bits := 0 in
    let bits := if BasicCancel_NoWait m then Z.lor bits 0x01 else bits in
    WriteOctet bits
|}.

Record BasicCancelOk := mkBasicCancelOk {
  BasicCancelOk_ConsumerTag : string
}.

#[export] Instance BasicCancelOk_method : Method BasicCancelOk := {|
  method_Read :=
    ConsumerTag ← ReadShortStr;
    mret (mkBasicCancelOk ConsumerTag);
  method_Write m :=
    WriteShort ClassBasic ;;;
    WriteShort MethodBasicCancelOk ;;;
    WriteShortStr (BasicCancelOk_ConsumerTag m)
|}.

Record BasicPublish := mkBasicPublish {
  BasicPublish_Reserved1 : Z;
  BasicPublish_Exchange : string;
  BasicPublish_RoutingKey : string;
  BasicPublish_Mandatory : bool;
  BasicPublish_Immediate : bool
}.

#[export] Instance BasicPublish_method : Method BasicPublish := {|
  method_Read :=
    Reserved1 ← ReadShort;
    Exchange ← ReadShortStr;
    RoutingKey ← ReadShortStr;
    bits ← ReadOctet;
    let Mandatory := negb (Z.land bits 0x01 =? 0) in
    let Immediate := negb (Z.land bits 0x02 =? 0) in
    mret (mkBasicPublish Reserved1 Exchange RoutingKey Mandatory Immediate);
  method_Write m :=
    WriteShort ClassBasic ;;;
    WriteShort MethodBasicPublish ;;;
    WriteShort 0 ;;;
    WriteShortStr (BasicPublish_Exchange m) ;;;
    WriteShortStr (BasicPublish_RoutingKey m) ;;;
    let bits := 0 in
    let bits := if BasicPublish_Mandatory m then Z.lor bits 0x01 else bits in
    let bits := if BasicPublish_Immediate m then Z.lor bits 0x02 else bits in
    WriteOctet bits
|}.

Record BasicReturn := mkBasicReturn {
  BasicReturn_ReplyCode : Z;
  BasicReturn_ReplyText : string;
  BasicReturn_Exchange : string;
  BasicReturn_RoutingKey : string
}.

#[export] Instance BasicReturn_method : Method BasicReturn := {|
  method_Read :=
    ReplyCode ← ReadShort;
    ReplyText ← ReadShortStr;
    Exchange ← ReadShortStr;
    RoutingKey ← ReadShortStr;
    mret (mkBasicReturn ReplyCode ReplyText Exchange RoutingKey);
  method_Write m :=
    WriteShort ClassBasic ;;;
    WriteShort MethodBasicReturn ;;;
    WriteShort (BasicReturn_ReplyCode m) ;;;
    WriteShortStr (BasicReturn_ReplyText m) ;;;
    WriteShortStr (BasicReturn_Exchange m) ;;;
    WriteShortStr (BasicReturn_RoutingKey m)
|}.

Record BasicDeliver := mkBasicDeliver {
  BasicDeliver_ConsumerTag : string;
  BasicDeliver_DeliveryTag : Z;
  BasicDeliver_Redelivered : bool;
  BasicDeliver_Exchange : string;
  BasicDeliver_RoutingKey : string
}.

#[export] Instance BasicDeliver_method : Method BasicDeliver := {|
  method_Read :=
    ConsumerTag ← ReadShortStr;
    DeliveryTag ← ReadLongLong;
    bits ← ReadOctet;
    let Redelivered := negb (Z.land bits 0x01 =? 0) in
    Exchange ← ReadShortStr;
    RoutingKey ← ReadShortStr;
    mret (mkBasicDeliver ConsumerTag DeliveryTag Redelivered Exchange RoutingKey);
  method_Write m :=
    WriteShort ClassBasic ;;;
    WriteShort MethodBasicDeliver ;;;
    WriteShortStr (BasicDeliver_ConsumerTag m) ;;;
    WriteLongLong (BasicDeliver_DeliveryTag m) ;;;
    let bits := 0 in
    let bits := if BasicDeliver_Redelivered m then Z.lor bits 0x01 else bits in
    WriteOctet bits ;;;
    WriteShortStr (BasicDeliver_Exchange m) ;;;
    WriteShortStr (BasicDeliver_RoutingKey m)
|}.

Record BasicGet := mkBasicGet {
  BasicGet_Reserved1 : Z;
  BasicGet_Queue : string;
  BasicGet_NoAck : bool
}.

#[export] Instance BasicGet_method : Method BasicGet := {|
  method_Read :=
    Reserved1 ← ReadShort;
    Queue ← ReadShortStr;
    bits ← ReadOctet;
    let NoAck := negb (Z.land bits 0x01 =? 0) in
    mret (mkBasicGet Reserved1 Queue NoAck);
  method_Write m :=
    WriteShort ClassBasic ;;;
    WriteShort MethodBasicGet ;;;
    WriteShort 0 ;;;
    WriteShortStr (BasicGet_Queue m) ;;;
    let bits := 0 in
    let bits := if BasicGet_NoAck m then Z.lor bits 0x01 else bits in
    WriteOctet bits
|}.

Record BasicGetOk := mkBasicGetOk {
  BasicGetOk_DeliveryTag : Z;
  BasicGetOk_Redelivered : bool;
  BasicGetOk_Exchange : string;
  BasicGetOk_RoutingKey : string;
  BasicGetOk_MessageCount : Z
}.

#[export] Instance BasicGetOk_method : Method BasicGetOk := {|
  method_Read :=
    DeliveryTag ← ReadLongLong;
    bits ← ReadOctet;
    let Redelivered := negb (Z.land bits 0x01 =? 0) in
    Exchange ← ReadShortStr;
    RoutingKey ← ReadShortStr;
    MessageCount ← ReadLong;
    mret (mkBasicGetOk DeliveryTag Redelivered Exchange RoutingKey MessageCount);
  method_Write m :=
    WriteShort ClassBasic ;;;
    WriteShort MethodBasicGetOk ;;;
    WriteLongLong (BasicGetOk_DeliveryTag m) ;;;
    let bits := 0 in
    let bits := if BasicGetOk_Redelivered m then Z.lor bits 0x01 else bits in
    WriteOctet bits ;;;
    WriteShortStr (BasicGetOk_Exchange m) ;;;
    WriteShortStr (BasicGetOk_RoutingKey m) ;;;
    WriteLong (BasicGetOk_MessageCount m)
|}.

Record BasicGetEmpty := mkBasicGetEmpty {
  BasicGetEmpty_Reserved1 : string
}.

#[export] Instance BasicGetEmpty_method : Method BasicGetEmpty := {|
  method_Read :=
    Reserved1 ← ReadShortStr;
    mret (mkBasicGetEmpty Reserved1);
  method_Write m :=
    WriteShort ClassBasic ;;;
    WriteShort MethodBasicGetEmpty ;;;
    WriteShortStr EmptyString
|}.

Record BasicAck := mkBasicAck {
  BasicAck_DeliveryTag : Z;
  BasicAck_Multiple : bool
}.

#[export] Instance BasicAck_method : Method BasicAck := {|
  method_Read :=
    DeliveryTag ← ReadLongLong;
    bits ← ReadOctet;
    let Multiple := negb (Z.land bits 0x01 =? 0) in
    mret (mkBasicAck DeliveryTag Multiple);
  method_Write m :=
    WriteShort ClassBasic ;;;
    WriteShort MethodBasicAck ;;;
    WriteLongLong (BasicAck_DeliveryTag m) ;;;
    let bits := 0 in
    let bits := if BasicAck_Multiple m then Z.lor bits 0x01 else bits in
    WriteOctet bits
|}.

Record BasicReject := mkBasicReject {
  BasicReject_DeliveryTag : Z;
  BasicReject_Requeue : bool
}.

#[export] Instance BasicReject_method : Method BasicReject := {|
  method_Read :=
    DeliveryTag ← ReadLongLong;
    bits ← ReadOctet;
    let Requeue := negb (Z.land bits 0x01 =? 0) in
    mret (mkBasicReject DeliveryTag Requeue);
  method_Write m :=
    WriteShort ClassBasic ;;;
    WriteShort MethodBasicReject ;;;
    WriteLongLong (BasicReject_DeliveryTag m) ;;;
    let bits := 0 in
    let bits := if BasicReject_Requeue m then Z.lor bits 0x01 else bits in
    WriteOctet bits
|}.

Record BasicRecoverAsync := mkBasicRecoverAsync {
  BasicRecoverAsync_Requeue : bool
}.

#[export] Instance BasicRecoverAsync_method : Method BasicRecoverAsync := {|
  method_Read :=
    bits ← ReadOctet;
    let Requeue := negb (Z.land bits 0x01 =? 0) in
    mret (mkBasicRecoverAsync Requeue);
  method_Write m :=
    WriteShort ClassBasic ;;;
    WriteShort MethodBasicRecoverAsync ;;;
    let bits := 0 in
    let bits := if BasicRecoverAsync_Requeue m then Z.lor bits 0x01 else bits in
    WriteOctet bits
|}.

Record BasicRecover := mkBasicRecover {
  BasicRecover_Requeue : bool
}.

#[export] Instance BasicRecover_method : Method BasicRecover := {|
  method_Read :=
    bits ← ReadOctet;
    let Requeue := negb (Z.land bits 0x01 =? 0) in
    mret (mkBasicRecover Requeue);
  method_Write m :=
    WriteShort ClassBasic ;;;
    WriteShort MethodBasicRecover ;;;
    let bits := 0 in
    let bits := if BasicRecover_Requeue m then Z.lor bits 0x01 else bits in
    WriteOctet bits
|}.

Inductive BasicRecoverOk := mkBasicRecoverOk.

#[export] Instance BasicRecoverOk_method : Method BasicRecoverOk := {|
  method_Read :=
    mret mkBasicRecoverOk;
  method_Write m :=
    WriteShort ClassBasic ;;;
    WriteShort MethodBasicRecoverOk ;;;
    w_bytes []
|}.

Record BasicNack := mkBasicNack {
  BasicNack_DeliveryTag : Z;
  BasicNack_Multiple : bool;
  BasicNack_Requeue : bool
}.

#[export] Instance BasicNack_method : Method BasicNack := {|
  method_Read :=
    DeliveryTag ← ReadLongLong;
    bits ← ReadOctet;
    let Multiple := negb (Z.land bits 0x01 =? 0) in
    let Requeue := negb (Z.land bits 0x02 =? 0) in
    mret (mkBasicNack DeliveryTag Multiple Requeue);
  method_Write m :=
    WriteShort ClassBasic ;;;
    WriteShort MethodBasicNack ;;;
    WriteLongLong (BasicNack_DeliveryTag m) ;;;
    let bits := 0 in
    let bits := if BasicNack_Multiple m then Z.lor bits 0x01 else bits in
    let bits := if BasicNack_Requeue m then Z.lor bits 0x02 else bits in
    WriteOctet bits
|}.

(** ** Class Confirm *)

Definition ClassConfirm : Z := 85.
Definition MethodConfirmSelect : Z := 10.
Definition MethodConfirmSelectOk : Z := 11.

Record ConfirmSelect := mkConfirmSelect {
  ConfirmSelect_NoWait : bool
}.

#[export] Instance ConfirmSelect_method : Method ConfirmSelect := {|
  method_Read :=
    bits ← ReadOctet;
    let NoWait := negb (Z.land bits 0x01 =? 0) in
    mret (mkConfirmSelect NoWait);
  method_Write m :=
    WriteShort ClassConfirm ;;;
    WriteShort MethodConfirmSelect ;;;
    let bits := 0 in
    let bits := if ConfirmSelect_NoWait m then Z.lor bits 0x01 else bits in
    WriteOctet bits
|}.

Inductive ConfirmSelectOk := mkConfirmSelectOk.

#[export] Instance ConfirmSelectOk_method : Method ConfirmSelectOk := {|
  method_Read :=
    mret mkConfirmSelectOk;
  method_Write m :=
    WriteShort ClassConfirm ;;;
    WriteShort MethodConfirmSelectOk ;;;
    w_bytes []
|}.

(** ** Class Tx *)

Definition ClassTx : Z := 90.
Definition MethodTxSelect : Z := 10.
Definition MethodTxSelectOk : Z := 11.
Definition MethodTxCommit : Z := 20.
Definition MethodTxCommitOk : Z := 21.
Definition MethodTxRollback : Z := 30.
Definition MethodTxRollbackOk : Z := 31.

Inductive TxSelect := mkTxSelect.

#[export] Instance TxSelect_method : Method TxSelect := {|
  method_Read :=
    mret mkTxSelect;
  method_Write m :=
    WriteShort ClassTx ;;;
    WriteShort MethodTxSelect ;;;
    w_bytes []
|}.

Inductive TxSelectOk := mkTxSelectOk.

#[export] Instance TxSelectOk_method : Method TxSelectOk := {|
  method_Read :=
    mret mkTxSelectOk;
  method_Write m :=
    WriteShort ClassTx ;;;
    WriteShort MethodTxSelectOk ;;;
    w_bytes []
|}.

Inductive TxCommit := mkTxCommit.

#[export] Instance TxCommit_method : Method TxCommit := {|
  method_Read :=
    mret mkTxCommit;
  method_Write m :=
    WriteShort ClassTx ;;;
    WriteShort MethodTxCommit ;;;
    w_bytes []
|}.

Inductive TxCommitOk := mkTxCommitOk.

#[export] Instance TxCommitOk_method : Method TxCommitOk := {|
  method_Read :=
    mret mkTxCommitOk;
  method_Write m :=
    WriteShort ClassTx ;;;
    WriteShort MethodTxCommitOk ;;;
    w_bytes []
|}.

Inductive TxRollback := mkTxRollback.

#[export] Instance TxRollback_method : Method TxRollback := {|
  method_Read :=
    mret mkTxRollback;
  method_Write m :=
    WriteShort ClassTx ;;;
    WriteShort MethodTxRollback ;;;
    w_bytes []
|}.

Inductive TxRollbackOk := mkTxRollbackOk.

#[export] Instance TxRollbackOk_method : Method TxRollbackOk := {|
  method_Read :=
    mret mkTxRollbackOk;
  method_Write m :=
    WriteShort ClassTx ;;;
    WriteShort MethodTxRollbackOk ;;;
    w_bytes []
|}.

(** ** What a method promises *)

Class MethodSpec (T : Type) := {
  method_class : Z;
  method_id : Z;
  method_ok : T → Prop;
  method_canon : T → T
}.

Class MethodLaws (T : Type) `{Method T, MethodSpec T} : Prop := {
  method_writes m : method_ok m → (method_Write m).2 = None;
  method_rt m : method_ok m → ∃ w,
    method_Write m = (WriteShort method_class ;;; WriteShort method_id ;;; w) ∧
    rt w method_Read (method_canon m);
  method_reads n : reads n 0 method_Read method_ok
}.

#[export] Instance ConnectionStart_spec : MethodSpec ConnectionStart := {|
  method_class := ClassConnection; method_id := MethodConnectionStart;
  method_ok m :=
    u8_ok (ConnectionStart_VersionMajor m) ∧ u8_ok (ConnectionStart_VersionMinor m) ∧
    table_ok (ConnectionStart_ServerProperties m) ∧
    longstr_ok (ConnectionStart_Mechanisms m) ∧ longstr_ok (ConnectionStart_Locales m);
  method_canon m := mkConnectionStart (ConnectionStart_VersionMajor m) (ConnectionStart_VersionMinor m)
      (canon_table (ConnectionStart_ServerProperties m)) (ConnectionStart_Mechanisms m)
      (ConnectionStart_Locales m)
|}.
#[export] Instance ConnectionStartOk_spec : MethodSpec ConnectionStartOk := {|
  method_class := ClassConnection; method_id := MethodConnectionStartOk;
  method_ok m :=
    table_ok (ConnectionStartOk_ClientProperties m) ∧
    shortstr_ok (ConnectionStartOk_Mechanism m) ∧ longstr_ok (ConnectionStartOk_Response m) ∧
    shortstr_ok (ConnectionStartOk_Locale m);
  method_canon m := mkConnectionStartOk (canon_table (ConnectionStartOk_ClientProperties m))
      (ConnectionStartOk_Mechanism m) (ConnectionStartOk_Response m)
      (ConnectionStartOk_Locale m)
|}.
#[export] Instance ConnectionSecure_spec : MethodSpec ConnectionSecure := {|
  method_class := ClassConnection; method_id := MethodConnectionSecure;
  method_ok m :=
    longstr_ok (ConnectionSecure_Challenge m);
  method_canon m := mkConnectionSecure (ConnectionSecure_Challenge m)
|}.
#[export] Instance ConnectionSecureOk_spec : MethodSpec ConnectionSecureOk := {|
  method_class := ClassConnection; method_id := MethodConnectionSecureOk;
  method_ok m :=
    longstr_ok (ConnectionSecureOk_Response m);
  method_canon m := mkConnectionSecureOk (ConnectionSecureOk_Response m)
|}.
#[export] Instance ConnectionTune_spec : MethodSpec ConnectionTune := {|
  method_class := ClassConnection; method_id := MethodConnectionTune;
  method_ok m :=
    u16_ok (ConnectionTune_ChannelMax m) ∧ u32_ok (ConnectionTune_FrameMax m) ∧
    u16_ok (ConnectionTune_Heartbeat m);
  method_canon m := mkConnectionTune (ConnectionTune_ChannelMax m) (ConnectionTune_FrameMax m)
      (ConnectionTune_Heartbeat m)
|}.
#[export] Instance ConnectionTuneOk_spec : MethodSpec ConnectionTuneOk := {|
  method_class := ClassConnection; method_id := MethodConnectionTuneOk;
  method_ok m :=
    u16_ok (ConnectionTuneOk_ChannelMax m) ∧ u32_ok (ConnectionTuneOk_FrameMax m) ∧
    u16_ok (ConnectionTuneOk_Heartbeat m);
  method_canon m := mkConnectionTuneOk (ConnectionTuneOk_ChannelMax m) (ConnectionTuneOk_FrameMax m)
      (ConnectionTuneOk_Heartbeat m)
|}.
#[export] Instance ConnectionOpen_spec : MethodSpec ConnectionOpen := {|
  method_class := ClassConnection; method_id := MethodConnectionOpen;
  method_ok m :=
    shortstr_ok (ConnectionOpen_VirtualHost m) ∧ shortstr_ok (ConnectionOpen_Capabilities m);
  method_canon m := mkConnectionOpen (ConnectionOpen_VirtualHost m) EmptyString (ConnectionOpen_Insist m)
|}.
#[export] Instance ConnectionOpenOk_spec : MethodSpec ConnectionOpenOk := {|
  method_class := ClassConnection; method_id := MethodConnectionOpenOk;
  method_ok m :=
    shortstr_ok (ConnectionOpenOk_KnownHosts m);
  method_canon _ := mkConnectionOpenOk EmptyString
|}.
#[export] Instance ConnectionClose_spec : MethodSpec ConnectionClose := {|
  method_class := ClassConnection; method_id := MethodConnectionClose;
  method_ok m :=
    u16_ok (ConnectionClose_ReplyCode m) ∧ shortstr_ok (ConnectionClose_ReplyText m) ∧
    u16_ok (ConnectionClose_ClassID m) ∧ u16_ok (ConnectionClose_MethodID m);
  method_canon m := mkConnectionClose (ConnectionClose_ReplyCode m) (ConnectionClose_ReplyText m)
      (ConnectionClose_ClassID m) (ConnectionClose_MethodID m)
|}.
#[export] Instance ConnectionCloseOk_spec : MethodSpec ConnectionCloseOk := {|
  method_class := ClassConnection; method_id := MethodConnectionCloseOk;
  method_ok _ :=
    True;
  method_canon _ := mkConnectionCloseOk
|}.
#[export] Instance ChannelOpen_spec : MethodSpec ChannelOpen := {|
  method_class := ClassChannel; method_id := MethodChannelOpen;
  method_ok m :=
    shortstr_ok (ChannelOpen_Reserved1 m);
  method_canon _ := mkChannelOpen EmptyString
|}.
#[export] Instance ChannelOpenOk_spec : MethodSpec ChannelOpenOk := {|
  method_class := ClassChannel; method_id := MethodChannelOpenOk;
  method_ok m :=
    longstr_ok (ChannelOpenOk_Reserved1 m);
  method_canon _ := mkChannelOpenOk EmptyString
|}.
#[export] Instance ChannelFlow_spec : MethodSpec ChannelFlow := {|
  method_class := ClassChannel; method_id := MethodChannelFlow;
  method_ok _ :=
    True;
  method_canon m := mkChannelFlow (ChannelFlow_Active m)
|}.
#[export] Instance ChannelFlowOk_spec : MethodSpec ChannelFlowOk := {|
  method_class := ClassChannel; method_id := MethodChannelFlowOk;
  method_ok _ :=
    True;
  method_canon m := mkChannelFlowOk (ChannelFlowOk_Active m)
|}.
#[export] Instance ChannelClose_spec : MethodSpec ChannelClose := {|
  method_class := ClassChannel; method_id := MethodChannelClose;
  method_ok m :=
    u16_ok (ChannelClose_ReplyCode m) ∧ shortstr_ok (ChannelClose_ReplyText m) ∧
    u16_ok (ChannelClose_ClassID m) ∧ u16_ok (ChannelClose_MethodID m);
  method_canon m := mkChannelClose (ChannelClose_ReplyCode m) (ChannelClose_ReplyText m)
      (ChannelClose_ClassID m) (ChannelClose_MethodID m)
|}.
#[export] Instance ChannelCloseOk_spec : MethodSpec ChannelCloseOk := {|
  method_class := ClassChannel; method_id := MethodChannelCloseOk;
  method_ok _ :=
    True;
  method_canon _ := mkChannelCloseOk
|}.
#[export] Instance ExchangeDeclare_spec : MethodSpec ExchangeDeclare := {|
  method_class := ClassExchange; method_id := MethodExchangeDeclare;
  method_ok m :=
    u16_ok (ExchangeDeclare_Reserved1 m) ∧ shortstr_ok (ExchangeDeclare_Exchange m) ∧
    shortstr_ok (ExchangeDeclare_Type m) ∧ table_ok (ExchangeDeclare_Arguments m);
  method_canon m := mkExchangeDeclare 0 (ExchangeDeclare_Exchange m) (ExchangeDeclare_Type m)
      (ExchangeDeclare_Passive m) (ExchangeDeclare_Durable m) (ExchangeDeclare_AutoDelete m)
      (ExchangeDeclare_Internal m) (ExchangeDeclare_NoWait m)
      (canon_table (ExchangeDeclare_Arguments m))
|}.
#[export] Instance ExchangeDeclareOk_spec : MethodSpec ExchangeDeclareOk := {|
  method_class := ClassExchange; method_id := MethodExchangeDeclareOk;
  method_ok _ :=
    True;
  method_canon _ := mkExchangeDeclareOk
|}.
#[export] Instance ExchangeDelete_spec : MethodSpec ExchangeDelete := {|
  method_class := ClassExchange; method_id := MethodExchangeDelete;
  method_ok m :=
    u16_ok (ExchangeDelete_Reserved1 m) ∧ shortstr_ok (ExchangeDelete_Exchange m);
  method_canon m := mkExchangeDelete 0 (ExchangeDelete_Exchange m) (ExchangeDelete_IfUnused m)
      (ExchangeDelete_NoWait m)
|}.
#[export] Instance ExchangeDeleteOk_spec : MethodSpec ExchangeDeleteOk := {|
  method_class := ClassExchange; method_id := MethodExchangeDeleteOk;
  method_ok _ :=
    True;
  method_canon _ := mkExchangeDeleteOk
|}.
#[export] Instance ExchangeBind_spec : MethodSpec ExchangeBind := {|
  method_class := ClassExchange; method_id := MethodExchangeBind;
  method_ok m :=
    u16_ok (ExchangeBind_Reserved1 m) ∧ shortstr_ok (ExchangeBind_Destination m) ∧
    shortstr_ok (ExchangeBind_Source m) ∧ shortstr_ok (ExchangeBind_RoutingKey m) ∧
    table_ok (ExchangeBind_Arguments m);
  method_canon m := mkExchangeBind 0 (ExchangeBind_Destination m) (ExchangeBind_Source m)
      (ExchangeBind_RoutingKey m) (ExchangeBind_NoWait m)
      (canon_table (ExchangeBind_Arguments m))
|}.
#[export] Instance ExchangeBindOk_spec : MethodSpec ExchangeBindOk := {|
  method_class := ClassExchange; method_id := MethodExchangeBindOk;
  method_ok _ :=
    True;
  method_canon _ := mkExchangeBindOk
|}.
#[export] Instance ExchangeUnbind_spec : MethodSpec ExchangeUnbind := {|
  method_class := ClassExchange; method_id := MethodExchangeUnbind;
  method_ok m :=
    u16_ok (ExchangeUnbind_Reserved1 m) ∧ shortstr_ok (ExchangeUnbind_Destination m) ∧
    shortstr_ok (ExchangeUnbind_Source m) ∧ shortstr_ok (ExchangeUnbind_RoutingKey m) ∧
    table_ok (ExchangeUnbind_Arguments m);
  method_canon m := mkExchangeUnbind 0 (ExchangeUnbind_Destination m) (ExchangeUnbind_Source m)
      (ExchangeUnbind_RoutingKey m) (ExchangeUnbind_NoWait m)
      (canon_table (ExchangeUnbind_Arguments m))
|}.
#[export] Instance ExchangeUnbindOk_spec : MethodSpec ExchangeUnbindOk := {|
  method_class := ClassExchange; method_id := MethodExchangeUnbindOk;
  method_ok _ :=
    True;
  method_canon _ := mkExchangeUnbindOk
|}.
#[export] Instance QueueDeclare_spec : MethodSpec QueueDeclare := {|
  method_class := ClassQueue; method_id := MethodQueueDeclare;
  method_ok m :=
    u16_ok (QueueDeclare_Reserved1 m) ∧ shortstr_ok (QueueDeclare_Queue m) ∧
    table_ok (QueueDeclare_Arguments m);
  method_canon m := mkQueueDeclare 0 (QueueDeclare_Queue m) (QueueDeclare_Passive m)
      (QueueDeclare_Durable m) (QueueDeclare_Exclusive m) (QueueDeclare_AutoDelete m)
      (QueueDeclare_NoWait m) (canon_table (QueueDeclare_Arguments m))
|}.
#[export] Instance QueueDeclareOk_spec : MethodSpec QueueDeclareOk := {|
  method_class := ClassQueue; method_id := MethodQueueDeclareOk;
  method_ok m :=
    shortstr_ok (QueueDeclareOk_Queue m) ∧ u32_ok (QueueDeclareOk_MessageCount m) ∧
    u32_ok (QueueDeclareOk_ConsumerCount m);
  method_canon m := mkQueueDeclareOk (QueueDeclareOk_Queue m) (QueueDeclareOk_MessageCount m)
      (QueueDeclareOk_ConsumerCount m)
|}.
#[export] Instance QueueBind_spec : MethodSpec QueueBind := {|
  method_class := ClassQueue; method_id := MethodQueueBind;
  method_ok m :=
    u16_ok (QueueBind_Reserved1 m) ∧ shortstr_ok (QueueBind_Queue m) ∧
    shortstr_ok (QueueBind_Exchange m) ∧ shortstr_ok (QueueBind_RoutingKey m) ∧
    table_ok (QueueBind_Arguments m);
  method_canon m := mkQueueBind 0 (QueueBind_Queue m) (QueueBind_Exchange m) (QueueBind_RoutingKey m)
      (QueueBind_NoWait m) (canon_table (QueueBind_Arguments m))
|}.
#[export] Instance QueueBindOk_spec : MethodSpec QueueBindOk := {|
  method_class := ClassQueue; method_id := MethodQueueBindOk;
  method_ok _ :=
    True;
  method_canon _ := mkQueueBindOk
|}.
#[export] Instance QueueUnbind_spec : MethodSpec QueueUnbind := {|
  method_class := ClassQueue; method_id := MethodQueueUnbind;
  method_ok m :=
    u16_ok (QueueUnbind_Reserved1 m) ∧ shortstr_ok (QueueUnbind_Queue m) ∧
    shortstr_ok (QueueUnbind_Exchange m) ∧ shortstr_ok (QueueUnbind_RoutingKey m) ∧
    table_ok (QueueUnbind_Arguments m);
  method_canon m := mkQueueUnbind 0 (QueueUnbind_Queue m) (QueueUnbind_Exchange m)
      (QueueUnbind_RoutingKey m) (canon_table (QueueUnbind_Arguments m))
|}.
#[export] Instance QueueUnbindOk_spec : MethodSpec QueueUnbindOk := {|
  method_class := ClassQueue; method_id := MethodQueueUnbindOk;
  method_ok _ :=
    True;
  method_canon _ := mkQueueUnbindOk
|}.
#[export] Instance QueuePurge_spec : MethodSpec QueuePurge := {|
  method_class := ClassQueue; method_id := MethodQueuePurge;
  method_ok m :=
    u16_ok (QueuePurge_Reserved1 m) ∧ shortstr_ok (QueuePurge_Queue m);
  method_canon m := mkQueuePurge 0 (QueuePurge_Queue m) (QueuePurge_NoWait m)
|}.
#[export] Instance QueuePurgeOk_spec : MethodSpec QueuePurgeOk := {|
  method_class := ClassQueue; method_id := MethodQueuePurgeOk;
  method_ok m :=
    u32_ok (QueuePurgeOk_MessageCount m);
  method_canon m := mkQueuePurgeOk (QueuePurgeOk_MessageCount m)
|}.
#[export] Instance QueueDelete_spec : MethodSpec QueueDelete := {|
  method_class := ClassQueue; method_id := MethodQueueDelete;
  method_ok m :=
    u16_ok (QueueDelete_Reserved1 m) ∧ shortstr_ok (QueueDelete_Queue m);
  method_canon m := mkQueueDelete 0 (QueueDelete_Queue m) (QueueDelete_IfUnused m) (QueueDelete_IfEmpty m)
      (QueueDelete_NoWait m)
|}.
#[export] Instance QueueDeleteOk_spec : MethodSpec QueueDeleteOk := {|
  method_class := ClassQueue; method_id := MethodQueueDeleteOk;
  method_ok m :=
    u32_ok (QueueDeleteOk_MessageCount m);
  method_canon m := mkQueueDeleteOk (QueueDeleteOk_MessageCount m)
|}.
#[export] Instance BasicQos_spec : MethodSpec BasicQos := {|
  method_class := ClassBasic; method_id := MethodBasicQos;
  method_ok m :=
    u32_ok (BasicQos_PrefetchSize m) ∧ u16_ok (BasicQos_PrefetchCount m);
  method_canon m := mkBasicQos (BasicQos_PrefetchSize m) (BasicQos_PrefetchCount m) (BasicQos_Global m)
|}.
#[export] Instance BasicQosOk_spec : MethodSpec BasicQosOk := {|
  method_class := ClassBasic; method_id := MethodBasicQosOk;
  method_ok _ :=
    True;
  method_canon _ := mkBasicQosOk
|}.
#[export] Instance BasicConsume_spec : MethodSpec BasicConsume := {|
  method_class := ClassBasic; method_id := MethodBasicConsume;
  method_ok m :=
    u16_ok (BasicConsume_Reserved1 m) ∧ shortstr_ok (BasicConsume_Queue m) ∧
    shortstr_ok (BasicConsume_ConsumerTag m) ∧ table_ok (BasicConsume_Arguments m);
  method_canon m := mkBasicConsume 0 (BasicConsume_Queue m) (BasicConsume_ConsumerTag m)
      (BasicConsume_NoLocal m) (BasicConsume_NoAck m) (BasicConsume_Exclusive m)
      (BasicConsume_NoWait m) (canon_table (BasicConsume_Arguments m))
|}.
#[export] Instance BasicConsumeOk_spec : MethodSpec BasicConsumeOk := {|
  method_class := ClassBasic; method_id := MethodBasicConsumeOk;
  method_ok m :=
    shortstr_ok (BasicConsumeOk_ConsumerTag m);
  method_canon m := mkBasicConsumeOk (BasicConsumeOk_ConsumerTag m)
|}.
#[export] Instance BasicCancel_spec : MethodSpec BasicCancel := {|
  method_class := ClassBasic; method_id := MethodBasicCancel;
  method_ok m :=
    shortstr_ok (BasicCancel_ConsumerTag m);
  method_canon m := mkBasicCancel (BasicCancel_ConsumerTag m) (BasicCancel_NoWait m)
|}.
#[export] Instance BasicCancelOk_spec : MethodSpec BasicCancelOk := {|
  method_class := ClassBasic; method_id := MethodBasicCancelOk;
  method_ok m :=
    shortstr_ok (BasicCancelOk_ConsumerTag m);
  method_canon m := mkBasicCancelOk (BasicCancelOk_ConsumerTag m)
|}.
#[export] Instance BasicPublish_spec : MethodSpec BasicPublish := {|
  method_class := ClassBasic; method_id := MethodBasicPublish;
  method_ok m :=
    u16_ok (BasicPublish_Reserved1 m) ∧ shortstr_ok (BasicPublish_Exchange m) ∧
    shortstr_ok (BasicPublish_RoutingKey m);
  method_canon m := mkBasicPublish 0 (BasicPublish_Exchange m) (BasicPublish_RoutingKey m)
      (BasicPublish_Mandatory m) (BasicPublish_Immediate m)
|}.
#[export] Instance BasicReturn_spec : MethodSpec BasicReturn := {|
  method_class := ClassBasic; method_id := MethodBasicReturn;
  method_ok m :=
    u16_ok (BasicReturn_ReplyCode m) ∧ shortstr_ok (BasicReturn_ReplyText m) ∧
    shortstr_ok (BasicReturn_Exchange m) ∧ shortstr_ok (BasicReturn_RoutingKey m);
  method_canon m := mkBasicReturn (BasicReturn_ReplyCode m) (BasicReturn_ReplyText m)
      (BasicReturn_Exchange m) (BasicReturn_RoutingKey m)
|}.
#[export] Instance BasicDeliver_spec : MethodSpec BasicDeliver := {|
  method_class := ClassBasic; method_id := MethodBasicDeliver;
  method_ok m :=
    shortstr_ok (BasicDeliver_ConsumerTag m) ∧ u64_ok (BasicDeliver_DeliveryTag m) ∧
    shortstr_ok (BasicDeliver_Exchange m) ∧ shortstr_ok (BasicDeliver_RoutingKey m);
  method_canon m := mkBasicDeliver (BasicDeliver_ConsumerTag m) (BasicDeliver_DeliveryTag m)
      (BasicDeliver_Redelivered m) (BasicDeliver_Exchange m) (BasicDeliver_RoutingKey m)
|}.
#[export] Instance BasicGet_spec : MethodSpec BasicGet := {|
  method_class := ClassBasic; method_id := MethodBasicGet;
  method_ok m :=
    u16_ok (BasicGet_Reserved1 m) ∧ shortstr_ok (BasicGet_Queue m);
  method_canon m := mkBasicGet 0 (BasicGet_Queue m) (BasicGet_NoAck m)
|}.
#[export] Instance BasicGetOk_spec : MethodSpec BasicGetOk := {|
  method_class := ClassBasic; method_id := MethodBasicGetOk;
  method_ok m :=
    u64_ok (BasicGetOk_DeliveryTag m) ∧ shortstr_ok (BasicGetOk_Exchange m) ∧
    shortstr_ok (BasicGetOk_RoutingKey m) ∧ u32_ok (BasicGetOk_MessageCount m);
  method_canon m := mkBasicGetOk (BasicGetOk_DeliveryTag m) (BasicGetOk_Redelivered m)
      (BasicGetOk_Exchange m) (BasicGetOk_RoutingKey m) (BasicGetOk_MessageCount m)
|}.
#[export] Instance BasicGetEmpty_spec : MethodSpec BasicGetEmpty := {|
  method_class := ClassBasic; method_id := MethodBasicGetEmpty;
  method_ok m :=
    shortstr_ok (BasicGetEmpty_Reserved1 m);
  method_canon _ := mkBasicGetEmpty EmptyString
|}.
#[export] Instance BasicAck_spec : MethodSpec BasicAck := {|
  method_class := ClassBasic; method_id := MethodBasicAck;
  method_ok m :=
    u64_ok (BasicAck_DeliveryTag m);
  method_canon m := mkBasicAck (BasicAck_DeliveryTag m) (BasicAck_Multiple m)
|}.
#[export] Instance BasicReject_spec : MethodSpec BasicReject := {|
  method_class := ClassBasic; method_id := MethodBasicReject;
  method_ok m :=
    u64_ok (BasicReject_DeliveryTag m);
  method_canon m := mkBasicReject (BasicReject_DeliveryTag m) (BasicReject_Requeue m)
|}.
#[export] Instance BasicRecoverAsync_spec : MethodSpec BasicRecoverAsync := {|
  method_class := ClassBasic; method_id := MethodBasicRecoverAsync;
  method_ok _ :=
    True;
  method_canon m := mkBasicRecoverAsync (BasicRecoverAsync_Requeue m)
|}.
#[export] Instance BasicRecover_spec : MethodSpec BasicRecover := {|
  method_class := ClassBasic; method_id := MethodBasicRecover;
  method_ok _ :=
    True;
  method_canon m := mkBasicRecover (BasicRecover_Requeue m)
|}.
#[export] Instance BasicRecoverOk_spec : MethodSpec BasicRecoverOk := {|
  method_class := ClassBasic; method_id := MethodBasicRecoverOk;
  method_ok _ :=
    True;
  method_canon _ := mkBasicRecoverOk
|}.
#[export] Instance BasicNack_spec : MethodSpec BasicNack := {|
  method_class := ClassBasic; method_id := MethodBasicNack;
  method_ok m :=
    u64_ok (BasicNack_DeliveryTag m);
  method_canon m := mkBasicNack (BasicNack_DeliveryTag m) (BasicNack_Multiple m) (BasicNack_Requeue m)
|}.
#[export] Instance ConfirmSelect_spec : MethodSpec ConfirmSelect := {|
  method_class := ClassConfirm; method_id := MethodConfirmSelect;
  method_ok _ :=
    True;
  method_canon m := mkConfirmSelect (ConfirmSelect_NoWait m)
|}.
#[export] Instance ConfirmSelectOk_spec : MethodSpec ConfirmSelectOk := {|
  method_class := ClassConfirm; method_id := MethodConfirmSelectOk;
  method_ok _ :=
    True;
  method_canon _ := mkConfirmSelectOk
|}.
#[export] Instance TxSelect_spec : MethodSpec TxSelect := {|
  method_class := ClassTx; method_id := MethodTxSelect;
  method_ok _ :=
    True;
  method_canon _ := mkTxSelect
|}.
#[export] Instance TxSelectOk_spec : MethodSpec TxSelectOk := {|
  method_class := ClassTx; method_id := MethodTxSelectOk;
  method_ok _ :=
    True;
  method_canon _ := mkTxSelectOk
|}.
#[export] Instance TxCommit_spec : MethodSpec TxCommit := {|
  method_class := ClassTx; method_id := MethodTxCommit;
  method_ok _ :=
    True;
  method_canon _ := mkTxCommit
|}.
#[export] Instance TxCommitOk_spec : MethodSpec TxCommitOk := {|
  method_class := ClassTx; method_id := MethodTxCommitOk;
  method_ok _ :=
    True;
  method_canon _ := mkTxCommitOk
|}.
#[export] Instance TxRollback_spec : MethodSpec TxRollback := {|
  method_class := ClassTx; method_id := MethodTxRollback;
  method_ok _ :=
    True;
  method_canon _ := mkTxRollback
|}.
#[export] Instance TxRollbackOk_spec : MethodSpec TxRollbackOk := {|
  method_class := ClassTx; method_id := MethodTxRollbackOk;
  method_ok _ :=
    True;
  method_canon _ := mkTxRollbackOk
|}.

(** ** Proving the laws

    One tactic per law follows the sequence of fields; the flags of a method
    are few, so the packed octet is computed for each choice of them. *)

Ltac prim_cond := first [assumption | solve [vm_compute; split; congruence]].
Ltac rt_prim := lazymatch goal with
  | |- rt (WriteOctet _) _ _ => apply rt_octet; prim_cond
  | |- rt (WriteShort _) _ _ => apply rt_short; prim_cond
  | |- rt (WriteLong _) _ _ => apply rt_long; prim_cond
  | |- rt (WriteLongLong _) _ _ => apply rt_longlong; prim_cond
  | |- rt (WriteShortStr _) _ _ => apply rt_shortstr
  | |- rt (WriteLongStr _) _ _ => apply rt_longstr
  | |- rt (WriteTable _) _ _ => apply rt_table; prim_cond
  end.
Ltac rt_fields := cbv zeta; repeat lazymatch goal with
  | |- rt (_ ;;; _) _ _ => eapply rt_then; [rt_prim|cbv beta zeta]
  | |- rt (w_bytes []) _ _ => apply rt_nil
  | |- rt _ _ _ => eapply rt_last; [rt_prim|reflexivity]
  end.

Ltac split_flags := cbv zeta; repeat match goal with
  | |- context [if ?b then Z.lor _ _ else _] => destruct b
  end.

Ltac writes_fields := cbv zeta; repeat lazymatch goal with
  | |- (_ ;;; _).2 = None => apply w_then_ok; split
  | |- (WriteShortStr EmptyString).2 = None => reflexivity
  | |- (WriteShortStr _).2 = None => apply WriteShortStr_ok; assumption
  | |- (WriteTable _).2 = None => apply WriteTable_ok; assumption
  | |- _.2 = None => reflexivity
  end.

Lemma reads_seq {A B} n k (m : rd A) (f : A → rd B) P Q :
  reads n k m P → (∀ a, P a → reads n 0 (f a) Q) → reads n 0 (m ≫= f) Q.
Proof. intros Hm Hf. eapply reads_any, reads_then; [exact Hm|exact Hf]. Qed.

Lemma reads_table_ok n : reads n 4 ReadTable table_ok.
Proof. eapply (reads_weaken n n 4 4); [apply reads_table|lia|lia|]. by intros t []. Qed.

Ltac reads_prim := lazymatch goal with
  | |- reads _ _ ReadOctet _ => apply reads_octet
  | |- reads _ _ ReadShort _ => apply reads_short
  | |- reads _ _ ReadLong _ => apply reads_long
  | |- reads _ _ ReadLongLong _ => apply reads_longlong
  | |- reads _ _ ReadShortStr _ => apply reads_shortstr
  | |- reads _ _ ReadLongStr _ => apply reads_longstr
  | |- reads _ _ ReadTable _ => apply reads_table_ok
  end.
Ltac reads_fields := repeat lazymatch goal with
  | |- reads _ _ (_ ≫= _) _ => eapply reads_seq; [reads_prim|cbv beta zeta; intros ? ?]
  | |- reads _ _ (mret _) _ => apply reads_ret
  end.

Ltac method_simpl I S :=
  unfold method_Write, method_Read, method_ok, method_canon, method_class, method_id, I, S in *;
  cbv beta iota in *.

Ltac method_laws I S := split;
  [ intros m Hm; method_simpl I S; decompose [and] Hm; writes_fields
  | intros m Hm; method_simpl I S; decompose [and] Hm; split_flags; eexists;
    (split; [reflexivity|rt_fields])
  | intros n; method_simpl I S; reads_fields; repeat first [assumption | split] ].

#[export] Instance ConnectionStart_laws : MethodLaws ConnectionStart.
Proof. method_laws ConnectionStart_method ConnectionStart_spec. Qed.
#[export] Instance ConnectionStartOk_laws : MethodLaws ConnectionStartOk.
Proof. method_laws ConnectionStartOk_method ConnectionStartOk_spec. Qed.
#[export] Instance ConnectionSecure_laws : MethodLaws ConnectionSecure.
Proof. method_laws ConnectionSecure_method ConnectionSecure_spec. Qed.
#[export] Instance ConnectionSecureOk_laws : MethodLaws ConnectionSecureOk.
Proof. method_laws ConnectionSecureOk_method ConnectionSecureOk_spec. Qed.
#[export] Instance ConnectionTune_laws : MethodLaws ConnectionTune.
Proof. method_laws ConnectionTune_method ConnectionTune_spec. Qed.
#[export] Instance ConnectionTuneOk_laws : MethodLaws ConnectionTuneOk.
Proof. method_laws ConnectionTuneOk_method ConnectionTuneOk_spec. Qed.
#[export] Instance ConnectionOpen_laws : MethodLaws ConnectionOpen.
Proof. method_laws ConnectionOpen_method ConnectionOpen_spec. Qed.
#[export] Instance ConnectionOpenOk_laws : MethodLaws ConnectionOpenOk.
Proof. method_laws ConnectionOpenOk_method ConnectionOpenOk_spec. Qed.
#[export] Instance ConnectionClose_laws : MethodLaws ConnectionClose.
Proof. method_laws ConnectionClose_method ConnectionClose_spec. Qed.
#[export] Instance ConnectionCloseOk_laws : MethodLaws ConnectionCloseOk.
Proof. method_laws ConnectionCloseOk_method ConnectionCloseOk_spec. Qed.
#[export] Instance ChannelOpen_laws : MethodLaws ChannelOpen.
Proof. method_laws ChannelOpen_method ChannelOpen_spec. Qed.
#[export] Instance ChannelOpenOk_laws : MethodLaws ChannelOpenOk.
Proof. method_laws ChannelOpenOk_method ChannelOpenOk_spec. Qed.
#[export] Instance ChannelFlow_laws : MethodLaws ChannelFlow.
Proof. method_laws ChannelFlow_method ChannelFlow_spec. Qed.
#[export] Instance ChannelFlowOk_laws : MethodLaws ChannelFlowOk.
Proof. method_laws ChannelFlowOk_method ChannelFlowOk_spec. Qed.
#[export] Instance ChannelClose_laws : MethodLaws ChannelClose.
Proof. method_laws ChannelClose_method ChannelClose_spec. Qed.
#[export] Instance ChannelCloseOk_laws : MethodLaws ChannelCloseOk.
Proof. method_laws ChannelCloseOk_method ChannelCloseOk_spec. Qed.
#[export] Instance ExchangeDeclare_laws : MethodLaws ExchangeDeclare.
Proof. method_laws ExchangeDeclare_method ExchangeDeclare_spec. Qed.
#[export] Instance ExchangeDeclareOk_laws : MethodLaws ExchangeDeclareOk.
Proof. method_laws ExchangeDeclareOk_method ExchangeDeclareOk_spec. Qed.
#[export] Instance ExchangeDelete_laws : MethodLaws ExchangeDelete.
Proof. method_laws ExchangeDelete_method ExchangeDelete_spec. Qed.
#[export] Instance ExchangeDeleteOk_laws : MethodLaws ExchangeDeleteOk.
Proof. method_laws ExchangeDeleteOk_method ExchangeDeleteOk_spec. Qed.
#[export] Instance ExchangeBind_laws : MethodLaws ExchangeBind.
Proof. method_laws ExchangeBind_method ExchangeBind_spec. Qed.
#[export] Instance ExchangeBindOk_laws : MethodLaws ExchangeBindOk.
Proof. method_laws ExchangeBindOk_method ExchangeBindOk_spec. Qed.
#[export] Instance ExchangeUnbind_laws : MethodLaws ExchangeUnbind.
Proof. method_laws ExchangeUnbind_method ExchangeUnbind_spec. Qed.
#[export] Instance ExchangeUnbindOk_laws : MethodLaws ExchangeUnbindOk.
Proof. method_laws ExchangeUnbindOk_method ExchangeUnbindOk_spec. Qed.
#[export] Instance QueueDeclare_laws : MethodLaws QueueDeclare.
Proof. method_laws QueueDeclare_method QueueDeclare_spec. Qed.
#[export] Instance QueueDeclareOk_laws : MethodLaws QueueDeclareOk.
Proof. method_laws QueueDeclareOk_method QueueDeclareOk_spec. Qed.
#[export] Instance QueueBind_laws : MethodLaws QueueBind.
Proof. method_laws QueueBind_method QueueBind_spec. Qed.
#[export] Instance QueueBindOk_laws : MethodLaws QueueBindOk.
Proof. method_laws QueueBindOk_method QueueBindOk_spec. Qed.
#[export] Instance QueueUnbind_laws : MethodLaws QueueUnbind.
Proof. method_laws QueueUnbind_method QueueUnbind_spec. Qed.
#[export] Instance QueueUnbindOk_laws : MethodLaws QueueUnbindOk.
Proof. method_laws QueueUnbindOk_method QueueUnbindOk_spec. Qed.
#[export] Instance QueuePurge_laws : MethodLaws QueuePurge.
Proof. method_laws QueuePurge_method QueuePurge_spec. Qed.
#[export] Instance QueuePurgeOk_laws : MethodLaws QueuePurgeOk.
Proof. method_laws QueuePurgeOk_method QueuePurgeOk_spec. Qed.
#[export] Instance QueueDelete_laws : MethodLaws QueueDelete.
Proof. method_laws QueueDelete_method QueueDelete_spec. Qed.
#[export] Instance QueueDeleteOk_laws : MethodLaws QueueDeleteOk.
Proof. method_laws QueueDeleteOk_method QueueDeleteOk_spec. Qed.
#[export] Instance BasicQos_laws : MethodLaws BasicQos.
Proof. method_laws BasicQos_method BasicQos_spec. Qed.
#[export] Instance BasicQosOk_laws : MethodLaws BasicQosOk.
Proof. method_laws BasicQosOk_method BasicQosOk_spec. Qed.
#[export] Instance BasicConsume_laws : MethodLaws BasicConsume.
Proof. method_laws BasicConsume_method BasicConsume_spec. Qed.
#[export] Instance BasicConsumeOk_laws : MethodLaws BasicConsumeOk.
Proof. method_laws BasicConsumeOk_method BasicConsumeOk_spec. Qed.
#[export] Instance BasicCancel_laws : MethodLaws BasicCancel.
Proof. method_laws BasicCancel_method BasicCancel_spec. Qed.
#[export] Instance BasicCancelOk_laws : MethodLaws BasicCancelOk.
Proof. method_laws BasicCancelOk_method BasicCancelOk_spec. Qed.
#[export] Instance BasicPublish_laws : MethodLaws BasicPublish.
Proof. method_laws BasicPublish_method BasicPublish_spec. Qed.
#[export] Instance BasicReturn_laws : MethodLaws BasicReturn.
Proof. method_laws BasicReturn_method BasicReturn_spec. Qed.
#[export] Instance BasicDeliver_laws : MethodLaws BasicDeliver.
Proof. method_laws BasicDeliver_method BasicDeliver_spec. Qed.
#[export] Instance BasicGet_laws : MethodLaws BasicGet.
Proof. method_laws BasicGet_method BasicGet_spec. Qed.
#[export] Instance BasicGetOk_laws : MethodLaws BasicGetOk.
Proof. method_laws BasicGetOk_method BasicGetOk_spec. Qed.
#[export] Instance BasicGetEmpty_laws : MethodLaws BasicGetEmpty.
Proof. method_laws BasicGetEmpty_method BasicGetEmpty_spec. Qed.
#[export] Instance BasicAck_laws : MethodLaws BasicAck.
Proof. method_laws BasicAck_method BasicAck_spec. Qed.
#[export] Instance BasicReject_laws : MethodLaws BasicReject.
Proof. method_laws BasicReject_method BasicReject_spec. Qed.
#[export] Instance BasicRecoverAsync_laws : MethodLaws BasicRecoverAsync.
Proof. method_laws BasicRecoverAsync_method BasicRecoverAsync_spec. Qed.
#[export] Instance BasicRecover_laws : MethodLaws BasicRecover.
Proof. method_laws BasicRecover_method BasicRecover_spec. Qed.
#[export] Instance BasicRecoverOk_laws : MethodLaws BasicRecoverOk.
Proof. method_laws BasicRecoverOk_method BasicRecoverOk_spec. Qed.
#[export] Instance BasicNack_laws : MethodLaws BasicNack.
Proof. method_laws BasicNack_method BasicNack_spec. Qed.
#[export] Instance ConfirmSelect_laws : MethodLaws ConfirmSelect.
Proof. method_laws ConfirmSelect_method ConfirmSelect_spec. Qed.
#[export] Instance ConfirmSelectOk_laws : MethodLaws ConfirmSelectOk.
Proof. method_laws ConfirmSelectOk_method ConfirmSelectOk_spec. Qed.
#[export] Instance TxSelect_laws : MethodLaws TxSelect.
Proof. method_laws TxSelect_method TxSelect_spec. Qed.
#[export] Instance TxSelectOk_laws : MethodLaws TxSelectOk.
Proof. method_laws TxSelectOk_method TxSelectOk_spec. Qed.
#[export] Instance TxCommit_laws : MethodLaws TxCommit.
Proof. method_laws TxCommit_method TxCommit_spec. Qed.
#[export] Instance TxCommitOk_laws : MethodLaws TxCommitOk.
Proof. method_laws TxCommitOk_method TxCommitOk_spec. Qed.
#[export] Instance TxRollback_laws : MethodLaws TxRollback.
Proof. method_laws TxRollback_method TxRollback_spec. Qed.
#[export] Instance TxRollbackOk_laws : MethodLaws TxRollbackOk.
Proof. method_laws TxRollbackOk_method TxRollbackOk_spec. Qed.
