(* ===== verification/AmqpFrame.v ===== *)
(** * AMQP 0.9.1 frames and content headers (src/amqp/codec/frame.go, properties.go)

    Frames, the decoder of method frames and the content header with its
    property flags, and the frame functions of [src/amqp/broker]: reading under
    the negotiated maximum and cutting a body into frames.  The file proves that every
    method, header and frame is read back as it was written, that decoding
    arbitrary bytes gives well-typed values or an error, and that a body
    arrives complete in frames no larger than the maximum. *)

From Stdlib Require Import ZArith Lia Bool Ascii String Strings.Byte.
From stdpp Require Import prelude gmap strings.
From S2P Require Import Prelude GoStrings Codec AmqpTypes AmqpMethods.

(** ** frame.go *)

Record Frame := mkFrame { Frame_Type : Z; Frame_Channel : Z; Frame_Payload : list byte }.

Definition ReadFrame : rd Frame :=
  frameType ← ReadOctet;
  channel ← ReadShort;
  size ← ReadLong;
  payload ← rd_full (Z.to_nat size);
  frameEnd ← ReadOctet;
  if negb (frameEnd =? FrameEnd)
  then rd_fail (NewErr FrameError "malformed frame: incorrect frame-end marker")
  else mret (mkFrame frameType channel payload).

Definition WriteFrame (f : Frame) : writer :=
  WriteOctet (Frame_Type f) ;;;
  WriteShort (Frame_Channel f) ;;;
  WriteLong (u32 (Z.of_nat (length (Frame_Payload f)))) ;;;
  w_bytes (Frame_Payload f) ;;;
  WriteOctet FrameEnd.

(** A value of the interface [methodReader]: a pointer to one of the structs. *)
Inductive AnyMethod :=
| MConnectionStart (m : ConnectionStart)
| MConnectionStartOk (m : ConnectionStartOk)
| MConnectionSecure (m : ConnectionSecure)
| MConnectionSecureOk (m : ConnectionSecureOk)
| MConnectionTune (m : ConnectionTune)
| MConnectionTuneOk (m : ConnectionTuneOk)
| MConnectionOpen (m : ConnectionOpen)
| MConnectionOpenOk (m : ConnectionOpenOk)
| MConnectionClose (m : ConnectionClose)
| MConnectionCloseOk (m : ConnectionCloseOk)
| MChannelOpen (m : ChannelOpen)
| MChannelOpenOk (m : ChannelOpenOk)
| MChannelFlow (m : ChannelFlow)
| MChannelFlowOk (m : ChannelFlowOk)
| MChannelClose (m : ChannelClose)
| MChannelCloseOk (m : ChannelCloseOk)
| MExchangeDeclare (m : ExchangeDeclare)
| MExchangeDeclareOk (m : ExchangeDeclareOk)
| MExchangeDelete (m : ExchangeDelete)
| MExchangeDeleteOk (m : ExchangeDeleteOk)
| MExchangeBind (m : ExchangeBind)
| MExchangeBindOk (m : ExchangeBindOk)
| MExchangeUnbind (m : ExchangeUnbind)
| MExchangeUnbindOk (m : ExchangeUnbindOk)
| MQueueDeclare (m : QueueDeclare)
| MQueueDeclareOk (m : QueueDeclareOk)
| MQueueBind (m : QueueBind)
| MQueueBindOk (m : QueueBindOk)
| MQueueUnbind (m : QueueUnbind)
| MQueueUnbindOk (m : QueueUnbindOk)
| MQueuePurge (m : QueuePurge)
| MQueuePurgeOk (m : QueuePurgeOk)
| MQueueDelete (m : QueueDelete)
| MQueueDeleteOk (m : QueueDeleteOk)
| MBasicQos (m : BasicQos)
| MBasicQosOk (m : BasicQosOk)
| MBasicConsume (m : BasicConsume)
| MBasicConsumeOk (m : BasicConsumeOk)
| MBasicCancel (m : BasicCancel)
| MBasicCancelOk (m : BasicCancelOk)
| MBasicPublish (m : BasicPublish)
| MBasicReturn (m : BasicReturn)
| MBasicDeliver (m : BasicDeliver)
| MBasicGet (m : BasicGet)
| MBasicGetOk (m : BasicGetOk)
| MBasicGetEmpty (m : BasicGetEmpty)
| MBasicAck (m : BasicAck)
| MBasicReject (m : BasicReject)
| MBasicRecoverAsync (m : BasicRecoverAsync)
| MBasicRecover (m : BasicRecover)
| MBasicRecoverOk (m : BasicRecoverOk)
| MBasicNack (m : BasicNack)
| MConfirmSelect (m : ConfirmSelect)
| MConfirmSelectOk (m : ConfirmSelectOk)
| MTxSelect (m : TxSelect)
| MTxSelectOk (m : TxSelectOk)
| MTxCommit (m : TxCommit)
| MTxCommitOk (m : TxCommitOk)
| MTxRollback (m : TxRollback)
| MTxRollbackOk (m : TxRollbackOk).

(** [m.Write(w)] through the interface. *)
Definition any_Write (a : AnyMethod) : writer :=
  match a with
  | MConnectionStart m => method_Write m
  | MConnectionStartOk m => method_Write m
  | MConnectionSecure m => method_Write m
  | MConnectionSecureOk m => method_Write m
  | MConnectionTune m => method_Write m
  | MConnectionTuneOk m => method_Write m
  | MConnectionOpen m => method_Write m
  | MConnectionOpenOk m => method_Write m
  | MConnectionClose m => method_Write m
  | MConnectionCloseOk m => method_Write m
  | MChannelOpen m => method_Write m
  | MChannelOpenOk m => method_Write m
  | MChannelFlow m => method_Write m
  | MChannelFlowOk m => method_Write m
  | MChannelClose m => method_Write m
  | MChannelCloseOk m => method_Write m
  | MExchangeDeclare m => method_Write m
  | MExchangeDeclareOk m => method_Write m
  | MExchangeDelete m => method_Write m
  | MExchangeDeleteOk m => method_Write m
  | MExchangeBind m => method_Write m
  | MExchangeBindOk m => method_Write m
  | MExchangeUnbind m => method_Write m
  | MExchangeUnbindOk m => method_Write m
  | MQueueDeclare m => method_Write m
  | MQueueDeclareOk m => method_Write m
  | MQueueBind m => method_Write m
  | MQueueBindOk m => method_Write m
  | MQueueUnbind m => method_Write m
  | MQueueUnbindOk m => method_Write m
  | MQueuePurge m => method_Write m
  | MQueuePurgeOk m => method_Write m
  | MQueueDelete m => method_Write m
  | MQueueDeleteOk m => method_Write m
  | MBasicQos m => method_Write m
  | MBasicQosOk m => method_Write m
  | MBasicConsume m => method_Write m
  | MBasicConsumeOk m => method_Write m
  | MBasicCancel m => method_Write m
  | MBasicCancelOk m => method_Write m
  | MBasicPublish m => method_Write m
  | MBasicReturn m => method_Write m
  | MBasicDeliver m => method_Write m
  | MBasicGet m => method_Write m
  | MBasicGetOk m => method_Write m
  | MBasicGetEmpty m => method_Write m
  | MBasicAck m => method_Write m
  | MBasicReject m => method_Write m
  | MBasicRecoverAsync m => method_Write m
  | MBasicRecover m => method_Write m
  | MBasicRecoverOk m => method_Write m
  | MBasicNack m => method_Write m
  | MConfirmSelect m => method_Write m
  | MConfirmSelectOk m => method_Write m
  | MTxSelect m => method_Write m
  | MTxSelectOk m => method_Write m
  | MTxCommit m => method_Write m
  | MTxCommitOk m => method_Write m
  | MTxRollback m => method_Write m
  | MTxRollbackOk m => method_Write m
  end.

(** [m = &T{}], then [m.Read(b)]. *)
Definition read_as {T} `{Method T} (wrap : T → AnyMethod) : rd AnyMethod :=
  m ← method_Read; mret (wrap m).

Definition decodeMethodSwitch (classID methodID : Z) : rd AnyMethod :=
  if classID =? ClassConnection then
    if methodID =? MethodConnectionStart then read_as MConnectionStart
    else if methodID =? MethodConnectionStartOk then read_as MConnectionStartOk
    else if methodID =? MethodConnectionSecure then read_as MConnectionSecure
    else if methodID =? MethodConnectionSecureOk then read_as MConnectionSecureOk
    else if methodID =? MethodConnectionTune then read_as MConnectionTune
    else if methodID =? MethodConnectionTuneOk then read_as MConnectionTuneOk
    else if methodID =? MethodConnectionOpen then read_as MConnectionOpen
    else if methodID =? MethodConnectionOpenOk then read_as MConnectionOpenOk
    else if methodID =? MethodConnectionClose then read_as MConnectionClose
    else if methodID =? MethodConnectionCloseOk then read_as MConnectionCloseOk
    else rd_fail (NewErr FrameError "unknown method ID for Connection class")
  else if classID =? ClassChannel then
    if methodID =? MethodChannelOpen then read_as MChannelOpen
    else if methodID =? MethodChannelOpenOk then read_as MChannelOpenOk
    else if methodID =? MethodChannelFlow then read_as MChannelFlow
    else if methodID =? MethodChannelFlowOk then read_as MChannelFlowOk
    else if methodID =? MethodChannelClose then read_as MChannelClose
    else if methodID =? MethodChannelCloseOk then read_as MChannelCloseOk
    else rd_fail (NewErr FrameError "unknown method ID for Channel class")
  else if classID =? ClassExchange then
    if methodID =? MethodExchangeDeclare then read_as MExchangeDeclare
    else if methodID =? MethodExchangeDeclareOk then read_as MExchangeDeclareOk
    else if methodID =? MethodExchangeDelete then read_as MExchangeDelete
    else if methodID =? MethodExchangeDeleteOk then read_as MExchangeDeleteOk
    else if methodID =? MethodExchangeBind then read_as MExchangeBind
    else if methodID =? MethodExchangeBindOk then read_as MExchangeBindOk
    else if methodID =? MethodExchangeUnbind then read_as MExchangeUnbind
    else if methodID =? MethodExchangeUnbindOk then read_as MExchangeUnbindOk
    else rd_fail (NewErr FrameError "unknown method ID for Exchange class")
  else if classID =? ClassQueue then
    if methodID =? MethodQueueDeclare then read_as MQueueDeclare
    else if methodID =? MethodQueueDeclareOk then read_as MQueueDeclareOk
    else if methodID =? MethodQueueBind then read_as MQueueBind
    else if methodID =? MethodQueueBindOk then read_as MQueueBindOk
    else if methodID =? MethodQueuePurge then read_as MQueuePurge
    else if methodID =? MethodQueuePurgeOk then read_as MQueuePurgeOk
    else if methodID =? MethodQueueDelete then read_as MQueueDelete
    else if methodID =? MethodQueueDeleteOk then read_as MQueueDeleteOk
    else if methodID =? MethodQueueUnbind then read_as MQueueUnbind
    else if methodID =? MethodQueueUnbindOk then read_as MQueueUnbindOk
    else rd_fail (NewErr FrameError "unknown method ID for Queue class")
  else if classID =? ClassBasic then
    if methodID =? MethodBasicQos then read_as MBasicQos
    else if methodID =? MethodBasicQosOk then read_as MBasicQosOk
    else if methodID =? MethodBasicConsume then read_as MBasicConsume
    else if methodID =? MethodBasicConsumeOk then read_as MBasicConsumeOk
    else if methodID =? MethodBasicCancel then read_as MBasicCancel
    else if methodID =? MethodBasicCancelOk then read_as MBasicCancelOk
    else if methodID =? MethodBasicPublish then read_as MBasicPublish
    else if methodID =? MethodBasicReturn then read_as MBasicReturn
    else if methodID =? MethodBasicDeliver then read_as MBasicDeliver
    else if methodID =? MethodBasicGet then read_as MBasicGet
    else if methodID =? MethodBasicGetOk then read_as MBasicGetOk
    else if methodID =? MethodBasicGetEmpty then read_as MBasicGetEmpty
    else if methodID =? MethodBasicAck then read_as MBasicAck
    else if methodID =? MethodBasicReject then read_as MBasicReject
    else if methodID =? MethodBasicRecoverAsync then read_as MBasicRecoverAsync
    else if methodID =? MethodBasicRecover then read_as MBasicRecover
    else if methodID =? MethodBasicRecoverOk then read_as MBasicRecoverOk
    else if methodID =? MethodBasicNack then read_as MBasicNack
    else rd_fail (NewErr FrameError "unknown method ID for Basic class")
  else if classID =? ClassConfirm then
    if methodID =? MethodConfirmSelect then read_as MConfirmSelect
    else if methodID =? MethodConfirmSelectOk then read_as MConfirmSelectOk
    else rd_fail (NewErr FrameError "unknown method ID for Confirm class")
  else if classID =? ClassTx then
    if methodID =? MethodTxSelect then read_as MTxSelect
    else if methodID =? MethodTxSelectOk then read_as MTxSelectOk
    else if methodID =? MethodTxCommit then read_as MTxCommit
    else if methodID =? MethodTxCommitOk then read_as MTxCommitOk
    else if methodID =? MethodTxRollback then read_as MTxRollback
    else if methodID =? MethodTxRollbackOk then read_as MTxRollbackOk
    else rd_fail (NewErr FrameError "unknown method ID for Tx class")
  else rd_fail (NewErr FrameError "unknown class ID").

Definition decodeMethod (f : Frame) : outcome Error AnyMethod :=
  match (classID ← ReadShort; methodID ← ReadShort; decodeMethodSwitch classID methodID)
          (NewReader (Frame_Payload f)) with
  | Ret (m, _) => Ret m
  | Fail e => Fail e
  | Panic => Panic
  end.

(** ** properties.go *)

Definition FlagContentType : Z := 2 ^ 15.
Definition FlagContentEncoding : Z := 2 ^ 14.
Definition FlagHeaders : Z := 2 ^ 13.
Definition FlagDeliveryMode : Z := 2 ^ 12.
Definition FlagPriority : Z := 2 ^ 11.
Definition FlagCorrelationID : Z := 2 ^ 10.
Definition FlagReplyTo : Z := 2 ^ 9.
Definition FlagExpiration : Z := 2 ^ 8.
Definition FlagMessageID : Z := 2 ^ 7.
Definition FlagTimestamp : Z := 2 ^ 6.
Definition FlagType : Z := 2 ^ 5.
Definition FlagUserID : Z := 2 ^ 4.
Definition FlagAppID : Z := 2 ^ 3.
Definition FlagClusterID : Z := 2 ^ 2.

(** A nil header map is [None]. *)
Record BasicProperties := mkBasicProperties {
  bp_ContentType : string;
  bp_ContentEncoding : string;
  bp_Headers : option table;
  bp_DeliveryMode : Z;
  bp_Priority : Z;
  bp_CorrelationID : string;
  bp_ReplyTo : string;
  bp_Expiration : string;
  bp_MessageID : string;
  bp_Timestamp : Z;
  bp_Type : string;
  bp_UserID : string;
  bp_AppID : string;
  bp_ClusterID : string
}.

Definition BasicProperties_zero : BasicProperties :=
  mkBasicProperties EmptyString EmptyString None 0 0 EmptyString EmptyString EmptyString
    EmptyString 0 EmptyString EmptyString EmptyString EmptyString.

(** [if set { flags |= mask }]. *)
Definition flag_if (set : bool) (mask flags : Z) : Z := if set then Z.lor flags mask else flags.
Definition str_set (s : string) : bool := negb (bool_decide (s = EmptyString)).

Definition Flags (p : BasicProperties) : Z :=
  let flags := 0 in
  let flags := flag_if (str_set (bp_ContentType p)) FlagContentType flags in
  let flags := flag_if (str_set (bp_ContentEncoding p)) FlagContentEncoding flags in
  let flags := flag_if (bool_decide (is_Some (bp_Headers p))) FlagHeaders flags in
  let flags := flag_if (negb (bp_DeliveryMode p =? 0)) FlagDeliveryMode flags in
  let flags := flag_if (negb (bp_Priority p =? 0)) FlagPriority flags in
  let flags := flag_if (str_set (bp_CorrelationID p)) FlagCorrelationID flags in
  let flags := flag_if (str_set (bp_ReplyTo p)) FlagReplyTo flags in
  let flags := flag_if (str_set (bp_Expiration p)) FlagExpiration flags in
  let flags := flag_if (str_set (bp_MessageID p)) FlagMessageID flags in
  let flags := flag_if (negb (bp_Timestamp p =? 0)) FlagTimestamp flags in
  let flags := flag_if (str_set (bp_Type p)) FlagType flags in
  let flags := flag_if (str_set (bp_UserID p)) FlagUserID flags in
  let flags := flag_if (str_set (bp_AppID p)) FlagAppID flags in
  let flags := flag_if (str_set (bp_ClusterID p)) FlagClusterID flags in
  flags.

(** [flags&mask != 0]. *)
Definition has_flag (flags mask : Z) : bool := negb (Z.land flags mask =? 0).

(** [if flags&mask != 0 { if field, err = read(r); err != nil { return err } }]. *)
Definition read_if {A} (flags mask : Z) (read : rd A) (old : A) : rd A :=
  if has_flag flags mask then read else mret old.

Definition BasicProperties_Read (p : BasicProperties) (flags : Z) : rd BasicProperties :=
  ContentType ← read_if flags FlagContentType ReadShortStr (bp_ContentType p);
  ContentEncoding ← read_if flags FlagContentEncoding ReadShortStr (bp_ContentEncoding p);
  Headers ← read_if flags FlagHeaders (t ← ReadTable; mret (Some t)) (bp_Headers p);
  DeliveryMode ← read_if flags FlagDeliveryMode ReadOctet (bp_DeliveryMode p);
  Priority ← read_if flags FlagPriority ReadOctet (bp_Priority p);
  CorrelationID ← read_if flags FlagCorrelationID ReadShortStr (bp_CorrelationID p);
  ReplyTo ← read_if flags FlagReplyTo ReadShortStr (bp_ReplyTo p);
  Expiration ← read_if flags FlagExpiration ReadShortStr (bp_Expiration p);
  MessageID ← read_if flags FlagMessageID ReadShortStr (bp_MessageID p);
  Timestamp ← read_if flags FlagTimestamp ReadLongLong (bp_Timestamp p);
  Type_ ← read_if flags FlagType ReadShortStr (bp_Type p);
  UserID ← read_if flags FlagUserID ReadShortStr (bp_UserID p);
  AppID ← read_if flags FlagAppID ReadShortStr (bp_AppID p);
  ClusterID ← read_if flags FlagClusterID ReadShortStr (bp_ClusterID p);
  mret (mkBasicProperties ContentType ContentEncoding Headers DeliveryMode Priority CorrelationID
    ReplyTo Expiration MessageID Timestamp Type_ UserID AppID ClusterID).

Definition write_if (flags mask : Z) (w : writer) : writer :=
  if has_flag flags mask then w else w_bytes [].

Definition BasicProperties_Write (p : BasicProperties) : writer :=
  let flags := Flags p in
  write_if flags FlagContentType (WriteShortStr (bp_ContentType p)) ;;;
  write_if flags FlagContentEncoding (WriteShortStr (bp_ContentEncoding p)) ;;;
  write_if flags FlagHeaders (WriteTable (default [] (bp_Headers p))) ;;;
  write_if flags FlagDeliveryMode (WriteOctet (bp_DeliveryMode p)) ;;;
  write_if flags FlagPriority (WriteOctet (bp_Priority p)) ;;;
  write_if flags FlagCorrelationID (WriteShortStr (bp_CorrelationID p)) ;;;
  write_if flags FlagReplyTo (WriteShortStr (bp_ReplyTo p)) ;;;
  write_if flags FlagExpiration (WriteShortStr (bp_Expiration p)) ;;;
  write_if flags FlagMessageID (WriteShortStr (bp_MessageID p)) ;;;
  write_if flags FlagTimestamp (WriteLongLong (bp_Timestamp p)) ;;;
  write_if flags FlagType (WriteShortStr (bp_Type p)) ;;;
  write_if flags FlagUserID (WriteShortStr (bp_UserID p)) ;;;
  write_if flags FlagAppID (WriteShortStr (bp_AppID p)) ;;;
  write_if flags FlagClusterID (WriteShortStr (bp_ClusterID p)) ;;;
  w_bytes [].

Record ContentHeader := mkContentHeader {
  ch_ClassID : Z;
  ch_Weight : Z;
  ch_BodySize : Z;
  ch_Flags : Z;
  ch_Properties : BasicProperties
}.

Definition ReadContentHeader : rd ContentHeader :=
  classID ← ReadShort;
  weight ← ReadShort;
  bodySize ← ReadLongLong;
  flags ← ReadShort;
  props ← BasicProperties_Read BasicProperties_zero flags;
  mret (mkContentHeader classID weight bodySize flags props).

(** The header the call leaves behind, and what it writes. *)
Definition WriteContentHeader (h : ContentHeader) : ContentHeader * writer :=
  let flags := Flags (ch_Properties h) in
  let h := mkContentHeader (ch_ClassID h) (ch_Weight h) (ch_BodySize h) flags (ch_Properties h) in
  (h,
   WriteShort (ch_ClassID h) ;;;
   WriteShort (ch_Weight h) ;;;
   WriteLongLong (ch_BodySize h) ;;;
   WriteShort flags ;;;
   BasicProperties_Write (ch_Properties h)).

(** The result of [Frame.Decode], a value of type [any]. *)
Inductive Decoded :=
| DMethod (m : AnyMethod)
| DHeader (h : ContentHeader)
| DBody (payload : list byte)
| DHeartbeat.

Definition Frame_Decode (f : Frame) : outcome Error Decoded :=
  if Frame_Type f =? FrameMethod then DMethod <$> decodeMethod f
  else if Frame_Type f =? FrameHeader then
    match ReadContentHeader (NewReader (Frame_Payload f)) with
    | Ret (h, _) => Ret (DHeader h)
    | Fail e => Fail e
    | Panic => Panic
    end
  else if Frame_Type f =? FrameBody then Ret (DBody (Frame_Payload f))
  else if Frame_Type f =? FrameHeartbeat then Ret DHeartbeat
  else Fail (NewErr FrameError "unknown frame type").

(** ** Frames of a connection (amqp/broker/connection.go, channel.go) *)

Definition frameOverhead : Z := 8.

(** [Connection.readFrame] with the frame size of the tune negotiation. *)
Definition readFrame (frameMax : Z) : rd Frame :=
  frameType ← ReadOctet;
  channel ← ReadShort;
  size ← ReadLong;
  if (0 <? frameMax) && (frameMax <? u64 (size + frameOverhead))
  then rd_fail (NewErr FrameError "frame exceeds negotiated maximum")
  else
    payload ← rd_full (Z.to_nat size);
    frameEnd ← ReadOctet;
    if negb (frameEnd =? FrameEnd)
    then rd_fail (NewErr FrameError "malformed frame: incorrect frame-end marker")
    else mret (mkFrame frameType channel payload).

Definition buildMethodFrame (channel : Z) (method : AnyMethod) : outcome Error Frame :=
  match any_Write method with
  | (payload, None) => Ret (mkFrame FrameMethod channel payload)
  | (_, Some e) => Fail e
  end.

Definition buildContentHeaderFrame (channel bodySize : Z) (props : BasicProperties) :
    outcome Error Frame :=
  let header := mkContentHeader ClassBasic 0 bodySize 0 props in
  match (WriteContentHeader header).2 with
  | (payload, None) => Ret (mkFrame FrameHeader channel payload)
  | (_, Some e) => Fail e
  end.

(** The loop of [buildBodyFrames]; [rest] is [payload[offset:]] and [first]
    holds in the first round, where [offset] is zero. *)
Fixpoint buildBodyFrames_loop (fuel : nat) (channel : Z) (maxBody : nat) (first : bool)
    (rest : list byte) : list Frame :=
  match fuel with
  | O => []
  | S fuel =>
      match rest with
      | [] => if first then [mkFrame FrameBody channel []] else []
      | _ => mkFrame FrameBody channel (take maxBody rest) ::
             buildBodyFrames_loop fuel channel maxBody false (drop maxBody rest)
      end
  end.

Definition buildBodyFrames (channel : Z) (payload : list byte) (frameMax : Z) : list Frame :=
  let maxBody := frameMax - 8 in
  let maxBody := if maxBody <=? 0 then Z.of_nat (length payload) else maxBody in
  buildBodyFrames_loop (S (length payload)) channel (Z.to_nat maxBody) true payload.

(** [writeFrames] on a connection that is up. *)
Fixpoint writeFrames (frames : list Frame) : writer :=
  match frames with
  | [] => w_bytes []
  | f :: frames => WriteFrame f ;;; writeFrames frames
  end.

(** ** Decoding a method *)

Definition any_ok (a : AnyMethod) : Prop :=
  match a with
  | MConnectionStart m => method_ok m
  | MConnectionStartOk m => method_ok m
  | MConnectionSecure m => method_ok m
  | MConnectionSecureOk m => method_ok m
  | MConnectionTune m => method_ok m
  | MConnectionTuneOk m => method_ok m
  | MConnectionOpen m => method_ok m
  | MConnectionOpenOk m => method_ok m
  | MConnectionClose m => method_ok m
  | MConnectionCloseOk m => method_ok m
  | MChannelOpen m => method_ok m
  | MChannelOpenOk m => method_ok m
  | MChannelFlow m => method_ok m
  | MChannelFlowOk m => method_ok m
  | MChannelClose m => method_ok m
  | MChannelCloseOk m => method_ok m
  | MExchangeDeclare m => method_ok m
  | MExchangeDeclareOk m => method_ok m
  | MExchangeDelete m => method_ok m
  | MExchangeDeleteOk m => method_ok m
  | MExchangeBind m => method_ok m
  | MExchangeBindOk m => method_ok m
  | MExchangeUnbind m => method_ok m
  | MExchangeUnbindOk m => method_ok m
  | MQueueDeclare m => method_ok m
  | MQueueDeclareOk m => method_ok m
  | MQueueBind m => method_ok m
  | MQueueBindOk m => method_ok m
  | MQueueUnbind m => method_ok m
  | MQueueUnbindOk m => method_ok m
  | MQueuePurge m => method_ok m
  | MQueuePurgeOk m => method_ok m
  | MQueueDelete m => method_ok m
  | MQueueDeleteOk m => method_ok m
  | MBasicQos m => method_ok m
  | MBasicQosOk m => method_ok m
  | MBasicConsume m => method_ok m
  | MBasicConsumeOk m => method_ok m
  | MBasicCancel m => method_ok m
  | MBasicCancelOk m => method_ok m
  | MBasicPublish m => method_ok m
  | MBasicReturn m => method_ok m
  | MBasicDeliver m => method_ok m
  | MBasicGet m => method_ok m
  | MBasicGetOk m => method_ok m
  | MBasicGetEmpty m => method_ok m
  | MBasicAck m => method_ok m
  | MBasicReject m => method_ok m
  | MBasicRecoverAsync m => method_ok m
  | MBasicRecover m => method_ok m
  | MBasicRecoverOk m => method_ok m
  | MBasicNack m => method_ok m
  | MConfirmSelect m => method_ok m
  | MConfirmSelectOk m => method_ok m
  | MTxSelect m => method_ok m
  | MTxSelectOk m => method_ok m
  | MTxCommit m => method_ok m
  | MTxCommitOk m => method_ok m
  | MTxRollback m => method_ok m
  | MTxRollbackOk m => method_ok m
  end.

Definition any_canon (a : AnyMethod) : AnyMethod :=
  match a with
  | MConnectionStart m => MConnectionStart (method_canon m)
  | MConnectionStartOk m => MConnectionStartOk (method_canon m)
  | MConnectionSecure m => MConnectionSecure (method_canon m)
  | MConnectionSecureOk m => MConnectionSecureOk (method_canon m)
  | MConnectionTune m => MConnectionTune (method_canon m)
  | MConnectionTuneOk m => MConnectionTuneOk (method_canon m)
  | MConnectionOpen m => MConnectionOpen (method_canon m)
  | MConnectionOpenOk m => MConnectionOpenOk (method_canon m)
  | MConnectionClose m => MConnectionClose (method_canon m)
  | MConnectionCloseOk m => MConnectionCloseOk (method_canon m)
  | MChannelOpen m => MChannelOpen (method_canon m)
  | MChannelOpenOk m => MChannelOpenOk (method_canon m)
  | MChannelFlow m => MChannelFlow (method_canon m)
  | MChannelFlowOk m => MChannelFlowOk (method_canon m)
  | MChannelClose m => MChannelClose (method_canon m)
  | MChannelCloseOk m => MChannelCloseOk (method_canon m)
  | MExchangeDeclare m => MExchangeDeclare (method_canon m)
  | MExchangeDeclareOk m => MExchangeDeclareOk (method_canon m)
  | MExchangeDelete m => MExchangeDelete (method_canon m)
  | MExchangeDeleteOk m => MExchangeDeleteOk (method_canon m)
  | MExchangeBind m => MExchangeBind (method_canon m)
  | MExchangeBindOk m => MExchangeBindOk (method_canon m)
  | MExchangeUnbind m => MExchangeUnbind (method_canon m)
  | MExchangeUnbindOk m => MExchangeUnbindOk (method_canon m)
  | MQueueDeclare m => MQueueDeclare (method_canon m)
  | MQueueDeclareOk m => MQueueDeclareOk (method_canon m)
  | MQueueBind m => MQueueBind (method_canon m)
  | MQueueBindOk m => MQueueBindOk (method_canon m)
  | MQueueUnbind m => MQueueUnbind (method_canon m)
  | MQueueUnbindOk m => MQueueUnbindOk (method_canon m)
  | MQueuePurge m => MQueuePurge (method_canon m)
  | MQueuePurgeOk m => MQueuePurgeOk (method_canon m)
  | MQueueDelete m => MQueueDelete (method_canon m)
  | MQueueDeleteOk m => MQueueDeleteOk (method_canon m)
  | MBasicQos m => MBasicQos (method_canon m)
  | MBasicQosOk m => MBasicQosOk (method_canon m)
  | MBasicConsume m => MBasicConsume (method_canon m)
  | MBasicConsumeOk m => MBasicConsumeOk (method_canon m)
  | MBasicCancel m => MBasicCancel (method_canon m)
  | MBasicCancelOk m => MBasicCancelOk (method_canon m)
  | MBasicPublish m => MBasicPublish (method_canon m)
  | MBasicReturn m => MBasicReturn (method_canon m)
  | MBasicDeliver m => MBasicDeliver (method_canon m)
  | MBasicGet m => MBasicGet (method_canon m)
  | MBasicGetOk m => MBasicGetOk (method_canon m)
  | MBasicGetEmpty m => MBasicGetEmpty (method_canon m)
  | MBasicAck m => MBasicAck (method_canon m)
  | MBasicReject m => MBasicReject (method_canon m)
  | MBasicRecoverAsync m => MBasicRecoverAsync (method_canon m)
  | MBasicRecover m => MBasicRecover (method_canon m)
  | MBasicRecoverOk m => MBasicRecoverOk (method_canon m)
  | MBasicNack m => MBasicNack (method_canon m)
  | MConfirmSelect m => MConfirmSelect (method_canon m)
  | MConfirmSelectOk m => MConfirmSelectOk (method_canon m)
  | MTxSelect m => MTxSelect (method_canon m)
  | MTxSelectOk m => MTxSelectOk (method_canon m)
  | MTxCommit m => MTxCommit (method_canon m)
  | MTxCommitOk m => MTxCommitOk (method_canon m)
  | MTxRollback m => MTxRollback (method_canon m)
  | MTxRollbackOk m => MTxRollbackOk (method_canon m)
  end.

(** The constants of the dispatch are distinct, so comparing them decides the branch. *)
Ltac decide_ids := repeat match goal with
  | |- context [?a =? ?b] =>
      let v := eval vm_compute in (a =? b) in
      lazymatch v with true => idtac | false => idtac end;
      change (a =? b) with v; cbv iota
  end.

Lemma rt_method {T} `{MethodLaws T} (wrap : T → AnyMethod) (m : T) :
  u16_ok method_class → u16_ok method_id →
  decodeMethodSwitch method_class method_id = read_as wrap → method_ok m →
  rt (method_Write m)
     (classID ← ReadShort; methodID ← ReadShort; decodeMethodSwitch classID methodID)
     (wrap (method_canon m)).
Proof.
  intros Hc Hi Hd Hm. destruct (method_rt m Hm) as (w & -> & Hw).
  eapply rt_then; [by apply rt_short|]. eapply rt_then; [by apply rt_short|].
  rewrite Hd. by eapply rt_last; [apply Hw|].
Qed.

Lemma rt_any a : any_ok a →
  rt (any_Write a)
     (classID ← ReadShort; methodID ← ReadShort; decodeMethodSwitch classID methodID)
     (any_canon a).
Proof.
  destruct a; intros Hm; (apply rt_method; [by vm_compute|by vm_compute| |exact Hm]);
    unfold decodeMethodSwitch; decide_ids; reflexivity.
Qed.

Lemma any_writes a : any_ok a → (any_Write a).2 = None.
Proof. destruct a; apply method_writes. Qed.

Lemma reads_as {T} `{MethodLaws T} (wrap : T → AnyMethod) n :
  (∀ m, method_ok m → any_ok (wrap m)) → reads n 0 (read_as wrap) any_ok.
Proof.
  intros Hw. eapply reads_seq; [apply method_reads|]. intros m Hm. by apply reads_ret, Hw.
Qed.

Lemma reads_switch n classID methodID : reads n 0 (decodeMethodSwitch classID methodID) any_ok.
Proof.
  unfold decodeMethodSwitch.
  repeat lazymatch goal with
  | |- reads _ _ (if ?b then _ else _) _ => destruct b
  | |- reads _ _ (rd_fail _) _ => apply reads_fail
  | |- reads _ _ (read_as _) _ => apply reads_as; intros m Hm; exact Hm
  end.
Qed.

(** ** Property flags *)

Lemma has_flag_testbit flags k : 0 <= k → has_flag flags (2 ^ k) = Z.testbit flags k.
Proof.
  intros Hk. unfold has_flag. rewrite <-Z.shiftl_1_l.
  destruct (Z.testbit flags k) eqn:E.
  - apply negb_true_iff, Z.eqb_neq. intros H.
    assert (Z.testbit (Z.land flags (Z.shiftl 1 k)) k = true) as Ht.
    { rewrite Z.land_spec, E, Z.shiftl_spec, Z.sub_diag by lia. done. }
    by rewrite H, Z.bits_0 in Ht.
  - apply negb_false_iff, Z.eqb_eq, Z.bits_inj'. intros j Hj.
    rewrite Z.land_spec, Z.bits_0, Z.shiftl_1_l, Z.pow2_bits_eqb by lia.
    destruct (Z.eqb_spec k j) as [->|]; [by rewrite E|apply andb_false_r].
Qed.

Lemma flag_if_testbit b k flags j : 0 <= k →
  Z.testbit (flag_if b (2 ^ k) flags) j = Z.testbit flags j || (b && (k =? j)).
Proof.
  intros Hk. unfold flag_if. destruct b; simpl; [|by rewrite orb_false_r].
  by rewrite Z.lor_spec, Z.pow2_bits_eqb.
Qed.

(** Each flag of [Flags] says whether its field is set. *)
Ltac flag_of := unfold Flags; unfold_flags; rewrite has_flag_testbit by lia;
  rewrite !flag_if_testbit by lia; simpl Z.eqb; rewrite ?Z.bits_0, ?andb_true_r, ?andb_false_r,
    ?orb_false_r; simpl; done
with unfold_flags := unfold FlagContentType, FlagContentEncoding, FlagHeaders, FlagDeliveryMode,
    FlagPriority, FlagCorrelationID, FlagReplyTo, FlagExpiration, FlagMessageID, FlagTimestamp,
    FlagType, FlagUserID, FlagAppID, FlagClusterID.

Lemma Flags_fields p :
  has_flag (Flags p) FlagContentType = (str_set (bp_ContentType p)) ∧
  has_flag (Flags p) FlagContentEncoding = (str_set (bp_ContentEncoding p)) ∧
  has_flag (Flags p) FlagHeaders = (bool_decide (is_Some (bp_Headers p))) ∧
  has_flag (Flags p) FlagDeliveryMode = (negb (bp_DeliveryMode p =? 0)) ∧
  has_flag (Flags p) FlagPriority = (negb (bp_Priority p =? 0)) ∧
  has_flag (Flags p) FlagCorrelationID = (str_set (bp_CorrelationID p)) ∧
  has_flag (Flags p) FlagReplyTo = (str_set (bp_ReplyTo p)) ∧
  has_flag (Flags p) FlagExpiration = (str_set (bp_Expiration p)) ∧
  has_flag (Flags p) FlagMessageID = (str_set (bp_MessageID p)) ∧
  has_flag (Flags p) FlagTimestamp = (negb (bp_Timestamp p =? 0)) ∧
  has_flag (Flags p) FlagType = (str_set (bp_Type p)) ∧
  has_flag (Flags p) FlagUserID = (str_set (bp_UserID p)) ∧
  has_flag (Flags p) FlagAppID = (str_set (bp_AppID p)) ∧
  has_flag (Flags p) FlagClusterID = (str_set (bp_ClusterID p)).
Proof. split_and!; flag_of. Qed.

Lemma lor_range n a b : 0 <= n → 0 <= a < 2 ^ n → 0 <= b < 2 ^ n → 0 <= Z.lor a b < 2 ^ n.
Proof.
  intros Hn Ha Hb. assert (Z.lor a b = Z.lor a b mod 2 ^ n) as ->.
  { apply Z.bits_inj'. intros j Hj. destruct (decide (j < n)).
    - by rewrite Z.mod_pow2_bits_low.
    - rewrite Z.mod_pow2_bits_high, Z.lor_spec by lia.
      rewrite <-(Z.mod_small a (2 ^ n)), <-(Z.mod_small b (2 ^ n)) by done.
      by rewrite !Z.mod_pow2_bits_high by lia. }
  apply Z.mod_pos_bound. lia.
Qed.

Lemma flag_if_range b k flags : 0 <= k < 16 → u16_ok flags → u16_ok (flag_if b (2 ^ k) flags).
Proof.
  intros Hk Hf. unfold flag_if. destruct b; [|done]. apply lor_range; [lia|done|].
  split; [lia|]. apply Z.pow_lt_mono_r; lia.
Qed.

Lemma Flags_range p : u16_ok (Flags p).
Proof.
  unfold Flags. unfold_flags. cbv zeta.
  repeat (apply flag_if_range; [lia|]). by vm_compute.
Qed.

(** ** The content header *)

Definition headers_ok (h : option table) : Prop :=
  match h with Some t => table_ok t | None => True end.

Definition props_ok (p : BasicProperties) : Prop :=
  shortstr_ok (bp_ContentType p) ∧
  shortstr_ok (bp_ContentEncoding p) ∧
  headers_ok (bp_Headers p) ∧
  u8_ok (bp_DeliveryMode p) ∧
  u8_ok (bp_Priority p) ∧
  shortstr_ok (bp_CorrelationID p) ∧
  shortstr_ok (bp_ReplyTo p) ∧
  shortstr_ok (bp_Expiration p) ∧
  shortstr_ok (bp_MessageID p) ∧
  u64_ok (bp_Timestamp p) ∧
  shortstr_ok (bp_Type p) ∧
  shortstr_ok (bp_UserID p) ∧
  shortstr_ok (bp_AppID p) ∧
  shortstr_ok (bp_ClusterID p).

Definition canon_props (p : BasicProperties) : BasicProperties :=
  mkBasicProperties (bp_ContentType p) (bp_ContentEncoding p) (canon_table <$> bp_Headers p)
     (bp_DeliveryMode p) (bp_Priority p) (bp_CorrelationID p) (bp_ReplyTo p)
     (bp_Expiration p) (bp_MessageID p) (bp_Timestamp p) (bp_Type p)
     (bp_UserID p) (bp_AppID p) (bp_ClusterID p).

Lemma rt_if {A} flags mask set w (r : rd A) old v :
  has_flag flags mask = set → (set = true → rt w r v) → (set = false → old = v) →
  rt (write_if flags mask w) (read_if flags mask r old) v.
Proof.
  intros Hf Hr Ho. unfold write_if, read_if. rewrite Hf.
  destruct set; [by apply Hr|]. rewrite Ho by done. apply rt_nil.
Qed.

Lemma str_set_false s : str_set s = false → EmptyString = s.
Proof. unfold str_set. case_bool_decide; by intros. Qed.

Lemma num_set_false z : negb (z =? 0) = false → 0 = z.
Proof. intros ?%negb_false_iff. bool_prop. done. Qed.

Lemma rt_headers h : headers_ok h → bool_decide (is_Some h) = true →
  rt (WriteTable (default [] h)) (t ← ReadTable; mret (Some t)) (canon_table <$> h).
Proof.
  intros Hh Hs%bool_decide_eq_true. destruct h as [t|]; [|by destruct Hs].
  by eapply rt_last; [apply rt_table|].
Qed.

Lemma headers_unset h : bool_decide (is_Some h) = false → None = canon_table <$> h.
Proof. intros Hs%bool_decide_eq_false. destruct h; [|done]. by destruct Hs. Qed.

Ltac rt_prop F := eapply rt_if; [exact F|intros|intros];
  [ first [ apply rt_shortstr | apply rt_octet; assumption | apply rt_longlong; assumption
          | apply rt_headers; assumption ]
  | first [ apply str_set_false; assumption | apply num_set_false; assumption
          | apply headers_unset; assumption ] ].

Lemma rt_props p : props_ok p →
  rt (BasicProperties_Write p) (BasicProperties_Read BasicProperties_zero (Flags p)) (canon_props
    p).
Proof.
  intros Hp. unfold props_ok in Hp. destruct Hp as (H0 & H1 & H2 & H3 & H4 & H5 & H6 & H7 & H8 &
    H9 & H10 & H11 & H12 & H13).
  pose proof (Flags_fields p) as (F0 & F1 & F2 & F3 & F4 & F5 & F6 & F7 & F8 & F9 & F10 & F11 &
    F12 & F13).
  unfold BasicProperties_Write, BasicProperties_Read. cbv zeta.
  eapply rt_then; [rt_prop F0|cbv beta].
  eapply rt_then; [rt_prop F1|cbv beta].
  eapply rt_then; [rt_prop F2|cbv beta].
  eapply rt_then; [rt_prop F3|cbv beta].
  eapply rt_then; [rt_prop F4|cbv beta].
  eapply rt_then; [rt_prop F5|cbv beta].
  eapply rt_then; [rt_prop F6|cbv beta].
  eapply rt_then; [rt_prop F7|cbv beta].
  eapply rt_then; [rt_prop F8|cbv beta].
  eapply rt_then; [rt_prop F9|cbv beta].
  eapply rt_then; [rt_prop F10|cbv beta].
  eapply rt_then; [rt_prop F11|cbv beta].
  eapply rt_then; [rt_prop F12|cbv beta].
  eapply rt_then; [rt_prop F13|cbv beta].
  apply rt_nil.
Qed.

Lemma props_write p : props_ok p → (BasicProperties_Write p).2 = None.
Proof.
  intros Hp. unfold props_ok in Hp. destruct Hp as (H0 & H1 & H2 & H3 & H4 & H5 & H6 & H7 & H8 &
    H9 & H10 & H11 & H12 & H13).
  unfold BasicProperties_Write. cbv zeta.
  assert (Hif : ∀ flags mask w, w.2 = None → (write_if flags mask w).2 = None).
  { intros flags mask w Hw. unfold write_if. by destruct (has_flag flags mask). }
  repeat (apply w_then_ok; split); try done; apply Hif; try done; try (by apply WriteShortStr_ok).
  unfold headers_ok in *. destruct (bp_Headers p); [by apply WriteTable_ok|done].
Qed.

Definition header_ok (h : ContentHeader) : Prop :=
  u16_ok (ch_ClassID h) ∧ u16_ok (ch_Weight h) ∧ u64_ok (ch_BodySize h) ∧ u16_ok (ch_Flags h) ∧
  props_ok (ch_Properties h).

Definition canon_header (h : ContentHeader) : ContentHeader :=
  mkContentHeader (ch_ClassID h) (ch_Weight h) (ch_BodySize h) (Flags (ch_Properties h))
    (canon_props (ch_Properties h)).

Lemma rt_header h : header_ok h → rt (WriteContentHeader h).2 ReadContentHeader (canon_header h).
Proof.
  intros (Hc & Hw & Hb & Hf & Hp). unfold WriteContentHeader, ReadContentHeader.
  cbn [snd ch_ClassID ch_Weight ch_BodySize ch_Flags ch_Properties].
  eapply rt_then; [by apply rt_short|]. eapply rt_then; [by apply rt_short|].
  eapply rt_then; [by apply rt_longlong|]. eapply rt_then; [apply rt_short, Flags_range|].
  by eapply rt_last; [apply rt_props|].
Qed.

Lemma header_writes h : header_ok h → (WriteContentHeader h).2.2 = None.
Proof.
  intros (Hc & Hw & Hb & Hf & Hp). unfold WriteContentHeader. cbn [snd ch_Properties].
  do 4 (apply w_then_ok; split; [done|]). by apply props_write.
Qed.

(** *** Headers off the wire *)

Lemma reads_if {A} n k flags mask (r : rd A) old P :
  reads n k r P → P old → reads n 0 (read_if flags mask r old) P.
Proof.
  intros Hr Ho. unfold read_if. destruct (has_flag flags mask); [by eapply reads_any|].
  by apply reads_ret.
Qed.

Ltac zero_ok := first [by vm_compute | unfold shortstr_ok; simpl; lia].

Ltac reads_prop P L :=
  eapply reads_seq; [eapply (reads_if _ _ _ _ _ _ P); [apply L|zero_ok]|intros ? ?].

Lemma reads_headers n : reads n 4 (t ← ReadTable; mret (Some t)) headers_ok.
Proof. eapply reads_then; [apply reads_table_ok|]. intros t Ht. by apply reads_ret. Qed.

Lemma reads_props n flags :
  reads n 0 (BasicProperties_Read BasicProperties_zero flags) props_ok.
Proof.
  unfold BasicProperties_Read.
  reads_prop shortstr_ok reads_shortstr.
  reads_prop shortstr_ok reads_shortstr.
  reads_prop headers_ok reads_headers.
  reads_prop u8_ok reads_octet.
  reads_prop u8_ok reads_octet.
  reads_prop shortstr_ok reads_shortstr.
  reads_prop shortstr_ok reads_shortstr.
  reads_prop shortstr_ok reads_shortstr.
  reads_prop shortstr_ok reads_shortstr.
  reads_prop u64_ok reads_longlong.
  reads_prop shortstr_ok reads_shortstr.
  reads_prop shortstr_ok reads_shortstr.
  reads_prop shortstr_ok reads_shortstr.
  reads_prop shortstr_ok reads_shortstr.
  apply reads_ret. unfold props_ok. simpl. tauto.
Qed.

Lemma reads_header n : reads n 0 ReadContentHeader header_ok.
Proof.
  unfold ReadContentHeader. do 2 (eapply reads_seq; [apply reads_short|intros ? ?]).
  eapply reads_seq; [apply reads_longlong|intros ? ?].
  eapply reads_seq; [apply reads_short|intros ? ?].
  eapply reads_seq; [apply reads_props|intros ? ?].
  apply reads_ret. by split_and!.
Qed.

(** ** Frames *)

Definition frame_ok (f : Frame) : Prop := u8_ok (Frame_Type f) ∧ u16_ok (Frame_Channel f).

Lemma WriteFrame_length f :
  length (WriteFrame f).1 = (8 + length (Frame_Payload f))%nat.
Proof. unfold WriteFrame. rewrite !w_then_length by done. simpl. lia. Qed.

Lemma rt_frame_max frameMax f : frame_ok f →
  (0 < frameMax → Z.of_nat (length (Frame_Payload f)) + frameOverhead <= frameMax) →
  rt (WriteFrame f) (readFrame frameMax) f.
Proof.
  intros [Ht Hc] Hmax rest e Hok Hlen. rewrite WriteFrame_length in Hlen.
  assert (Hu : u32 (Z.of_nat (length (Frame_Payload f))) = Z.of_nat (length (Frame_Payload f))).
  { apply u32_small. lia. }
  assert (rt (WriteFrame f) (readFrame frameMax) f) as Hrt; [|apply Hrt; [done|]].
  2: { rewrite WriteFrame_length. lia. }
  unfold WriteFrame, readFrame. destruct f as [ty chan payload]. simpl Frame_Payload in *.
  eapply rt_then; [by apply rt_octet|]. eapply rt_then; [by apply rt_short|].
  eapply rt_then; [apply rt_long, u32_range|]. cbv beta. rewrite Hu.
  unfold frameOverhead in *. rewrite u64_small by lia.
  replace ((0 <? frameMax) && (frameMax <? Z.of_nat (length payload) + 8)) with false; [|].
  - eapply rt_then; [apply rt_full; lia|]. by eapply rt_last; [apply rt_octet|].
  - symmetry. apply andb_false_iff. destruct (Z.ltb_spec 0 frameMax); [right|by left].
    apply Z.ltb_ge. auto.
Qed.

(** Without a negotiated maximum the two frame readers are the same. *)
Lemma readFrame_unlimited r : readFrame 0 r = ReadFrame r.
Proof.
  unfold readFrame, ReadFrame, mbind, rd_bind.
  destruct (ReadOctet r) as [[ty r1]| |]; [|done..].
  destruct (ReadShort r1) as [[chan r2]| |]; [|done..].
  by destruct (ReadLong r2) as [[size r3]| |].
Qed.

(** A frame over the maximum is refused after its seven header bytes. *)
Lemma readFrame_refuses frameMax f rest e : frame_ok f → 0 < frameMax →
  Z.of_nat (length (Frame_Payload f)) < 2 ^ 32 - 8 →
  frameMax < Z.of_nat (length (Frame_Payload f)) + 8 →
  readFrame frameMax (mkReader ((WriteFrame f).1 ++ rest) e) =
    Fail (NewErr FrameError "frame exceeds negotiated maximum").
Proof.
  intros [Ht Hc] Hm Hl Hbig. set (n := Z.of_nat (length (Frame_Payload f))) in *.
  set (head := WriteOctet (Frame_Type f) ;;; WriteShort (Frame_Channel f) ;;; WriteLong (u32 n)).
  assert ((WriteFrame f).1 = head.1 ++ Frame_Payload f ++ be_write 1 FrameEnd) as ->.
  { unfold head, WriteFrame. simpl. done. }
  rewrite <-!app_assoc. unfold readFrame.
  assert (Hrt : rt head (t ← ReadOctet; c ← ReadShort; s ← ReadLong; mret (t, c, s))
                  (Frame_Type f, Frame_Channel f, u32 n)).
  { eapply rt_then; [by apply rt_octet|]. eapply rt_then; [by apply rt_short|].
    by eapply rt_last; [apply rt_long, u32_range|]. }
  specialize (Hrt (Frame_Payload f ++ be_write 1 FrameEnd ++ rest) e eq_refl).
  specialize (Hrt ltac:(unfold head; rewrite !w_then_length by done; simpl; lia)).
  set (r := mkReader (head.1 ++ _) e) in *. revert Hrt. unfold mbind, rd_bind.
  destruct (ReadOctet r) as [[ty r1]| |]; [|done..].
  destruct (ReadShort r1) as [[chan r2]| |]; [|done..].
  destruct (ReadLong r2) as [[size r3]| |]; [|done..]. intros [= _ _ -> _].
  unfold frameOverhead. rewrite (u32_small n), u64_small by lia.
  replace ((0 <? frameMax) && (frameMax <? n + 8)) with true; [done|].
  symmetry. apply andb_true_iff. split; apply Z.ltb_lt; lia.
Qed.

(** Reading [k] frames in a row. *)
Fixpoint read_frames (frameMax : Z) (k : nat) : rd (list Frame) :=
  match k with
  | O => mret []
  | S k => f ← readFrame frameMax; fs ← read_frames frameMax k; mret (f :: fs)
  end.

Definition frame_fits (frameMax : Z) (f : Frame) : Prop :=
  frame_ok f ∧ (0 < frameMax → Z.of_nat (length (Frame_Payload f)) + frameOverhead <= frameMax) ∧
  Z.of_nat (length (Frame_Payload f)) < 2 ^ 32 - 8.

Lemma read_write_frames frameMax fs rest e : Forall (frame_fits frameMax) fs →
  (writeFrames fs).2 = None ∧
  read_frames frameMax (length fs) (mkReader ((writeFrames fs).1 ++ rest) e) =
    Ret (fs, mkReader rest e).
Proof.
  induction 1 as [|f fs (Hok & Hmax & Hsz) Hfs [IHw IH]]; [done|].
  cbn [writeFrames read_frames length]. split; [by apply w_then_ok|].
  rewrite w_then_out, <-app_assoc by done. unfold mbind, rd_bind.
  rewrite rt_frame_max; [|done|done|done|rewrite WriteFrame_length; lia].
  by rewrite IH.
Qed.

(** ** Bodies *)

Lemma buildBodyFrames_loop_spec chan maxBody : ∀ fuel first rest,
  (0 < maxBody)%nat → (length rest < fuel)%nat →
  let fs := buildBodyFrames_loop fuel chan maxBody first rest in
  concat (Frame_Payload <$> fs) = rest ∧
  Forall (λ f, Frame_Type f = FrameBody ∧ Frame_Channel f = chan ∧
               (length (Frame_Payload f) ≤ maxBody)%nat ∧
               (rest ≠ [] → Frame_Payload f ≠ [])) fs.
Proof.
  induction fuel as [|fuel IH]; intros first rest Hm Hf; [lia|].
  destruct rest as [|b rest]; cbn [buildBodyFrames_loop].
  { destruct first; simpl; split; try done; by repeat constructor; simpl; [lia|]. }
  remember (b :: rest) as l eqn:Hl.
  destruct (IH false (drop maxBody l) Hm) as [Hc Hfs].
  { rewrite length_drop. rewrite Hl in *. simpl in *. lia. }
  split.
  { rewrite fmap_cons. cbn [concat]. rewrite Hc. apply take_drop. }
  constructor.
  - simpl. split_and!; [done|done|rewrite length_take; lia|].
    intros _ Ht. apply (f_equal length) in Ht. rewrite length_take, Hl in Ht. simpl in Ht. lia.
  - destruct (drop maxBody l) as [|b' l'] eqn:Hd.
    { destruct fuel; [by constructor|]. by constructor. }
    eapply Forall_impl; [exact Hfs|]. intros f (?&?&?&Hn). split_and!; [done..|].
    intros _. by apply Hn.
Qed.

Lemma buildBodyFrames_spec chan payload frameMax :
  let fs := buildBodyFrames chan payload frameMax in
  concat (Frame_Payload <$> fs) = payload ∧
  Forall (λ f, Frame_Type f = FrameBody ∧ Frame_Channel f = chan ∧
               (8 < frameMax → Z.of_nat (length (Frame_Payload f)) + frameOverhead <= frameMax) ∧
               (payload ≠ [] → Frame_Payload f ≠ [])) fs.
Proof.
  unfold buildBodyFrames, frameOverhead.
  destruct (Z.leb_spec (frameMax - 8) 0) as [Hle|Hgt].
  - destruct payload as [|b payload].
    { simpl. split; [done|]. constructor; [|done]. simpl. split_and!; (done || lia). }
    rewrite Nat2Z.id. pose proof (buildBodyFrames_loop_spec chan (length (b :: payload))
      (S (length (b :: payload))) true (b :: payload)) as [Hc Hf]; [simpl; lia|lia|].
    split; [done|]. eapply Forall_impl; [exact Hf|]. intros f (?&?&?&?). split_and!; (done || lia).
  - pose proof (buildBodyFrames_loop_spec chan (Z.to_nat (frameMax - 8))
      (S (length payload)) true payload) as [Hc Hf]; [lia|lia|].
    split; [done|]. eapply Forall_impl; [exact Hf|]. intros f (?&?&?&?). split_and!; (done || lia).
Qed.

(** ** Theorems *)

(** The structs that the wire carries in full: their tables have no [int] and
    their reserved fields, which are written as constants, are at their default. *)
Definition carried (a : AnyMethod) : Prop :=
  match a with
  | MConnectionStart m => no_int_table (ConnectionStart_ServerProperties m) = true
  | MConnectionStartOk m => no_int_table (ConnectionStartOk_ClientProperties m) = true
  | MConnectionOpen m => ConnectionOpen_Capabilities m = EmptyString
  | MConnectionOpenOk m => ConnectionOpenOk_KnownHosts m = EmptyString
  | MChannelOpen m => ChannelOpen_Reserved1 m = EmptyString
  | MChannelOpenOk m => ChannelOpenOk_Reserved1 m = EmptyString
  | MExchangeDeclare m => ExchangeDeclare_Reserved1 m = 0 ∧ no_int_table (ExchangeDeclare_Arguments m) = true
  | MExchangeDelete m => ExchangeDelete_Reserved1 m = 0
  | MExchangeBind m => ExchangeBind_Reserved1 m = 0 ∧ no_int_table (ExchangeBind_Arguments m) = true
  | MExchangeUnbind m => ExchangeUnbind_Reserved1 m = 0 ∧ no_int_table (ExchangeUnbind_Arguments m) = true
  | MQueueDeclare m => QueueDeclare_Reserved1 m = 0 ∧ no_int_table (QueueDeclare_Arguments m) = true
  | MQueueBind m => QueueBind_Reserved1 m = 0 ∧ no_int_table (QueueBind_Arguments m) = true
  | MQueueUnbind m => QueueUnbind_Reserved1 m = 0 ∧ no_int_table (QueueUnbind_Arguments m) = true
  | MQueuePurge m => QueuePurge_Reserved1 m = 0
  | MQueueDelete m => QueueDelete_Reserved1 m = 0
  | MBasicConsume m => BasicConsume_Reserved1 m = 0 ∧ no_int_table (BasicConsume_Arguments m) = true
  | MBasicPublish m => BasicPublish_Reserved1 m = 0
  | MBasicGet m => BasicGet_Reserved1 m = 0
  | MBasicGetEmpty m => BasicGetEmpty_Reserved1 m = EmptyString
  | _ => True
  end.

Lemma canon_carried a : carried a → any_canon a = a.
Proof.
  destruct a as [m|m|m|m|m|m|m|m|m|m|m|m|m|m|m|m|m|m|m|m|m|m|m|m|m|m|m|m|m|m|m|m|m|m|m|m|m|m|m|m|m|m|m|m
    |m|m|m|m|m|m|m|m|m|m|m|m|m|m|m|m]; destruct m; cbn; intros H; f_equal;
    repeat match goal with H : _ ∧ _ |- _ => destruct H end; subst; by rewrite ?canon_table_no_int.
Qed.

(** C17 Every method a Go program can put in its struct survives the wire: the method
    frame of any well-typed struct, of any of the sixty methods, is built
    without an error, and decoding it gives the struct back, except that an [int]
    in a table is read as the [int32] of its low 32 bits and that reserved fields
    come back at their default; a struct without such values is the one that is
    read. *)
Theorem amqp_method_roundtrip chan m : any_ok m →
  ∃ payload, buildMethodFrame chan m = Ret (mkFrame FrameMethod chan payload) ∧
  (Z.of_nat (length payload) < 2 ^ 32 →
   Frame_Decode (mkFrame FrameMethod chan payload) = Ret (DMethod (any_canon m)) ∧
   (carried m → Frame_Decode (mkFrame FrameMethod chan payload) = Ret (DMethod m))).
Proof.
  intros Hm. pose proof (any_writes m Hm) as Hw. pose proof (rt_any m Hm) as Hrt.
  unfold buildMethodFrame. destruct (any_Write m) as [payload err]. simpl in Hw. subst err.
  exists payload. split; [done|]. intros Hlen. specialize (Hrt [] EOF eq_refl Hlen).
  unfold Frame_Decode, decodeMethod. cbn [Frame_Type Frame_Payload].
  rewrite app_nil_r in Hrt. cbn [fst] in Hrt. unfold NewReader. rewrite Hrt. split; [done|].
  intros Hc. by rewrite canon_carried.
Qed.

Definition example_declare : AnyMethod := MQueueDeclare
  (mkQueueDeclare 0 "orders" false true false true false
    [("x-queue-type"%string, VString "stream"); ("x-max-age"%string, VInt 3600);
     ("x-args"%string, VTable [("a"%string, VArray [VBool true; VNil])])]).

Ltac bindings_ok :=
  repeat first [apply Forall_nil_2 | apply Forall_cons_2]; simpl;
  (split; [unfold shortstr_ok; simpl; lia|]).

Lemma example_declare_ok : any_ok example_declare.
Proof.
  simpl. unfold shortstr_ok. simpl. split_and!; [by vm_compute|lia|].
  split; [by apply (bool_decide_unpack _); vm_compute|].
  assert (value_ok (VTable [("a"%string, VArray [VBool true; VNil])])).
  { constructor; [by apply (bool_decide_unpack _); vm_compute|].
    bindings_ok. repeat constructor. }
  bindings_ok; first [assumption | constructor; lia | constructor].
Qed.

Lemma amqp_method_roundtrip_witness : any_ok example_declare ∧
  ∃ payload, buildMethodFrame 1 example_declare = Ret (mkFrame FrameMethod 1 payload) ∧
    Frame_Decode (mkFrame FrameMethod 1 payload) =
      Ret (DMethod (MQueueDeclare (mkQueueDeclare 0 "orders" false true false true false
        [("x-queue-type"%string, VString "stream"); ("x-max-age"%string, VInt32 3600);
         ("x-args"%string, VTable [("a"%string, VArray [VBool true; VNil])])]))).
Proof.
  split; [exact example_declare_ok|].
  destruct (amqp_method_roundtrip 1 example_declare example_declare_ok) as (payload & Hb & Hd).
  exists payload. split; [exact Hb|]. refine (proj1 (Hd _)).
  assert (length payload = 79%nat) as ->; [|lia].
  revert Hb. vm_compute. intros [= <-]. reflexivity.
Defined.

(** C18 What comes off the wire is well typed: decoding any frame, whatever its
    bytes, does not panic; a method it returns has every field in the range
    of its Go type, short strings under 256 bytes and tables with one binding
    per key, as has a content header; and both can be written again without an error. *)
Theorem amqp_decode_typed f :
  match Frame_Decode f with
  | Ret (DMethod m) => any_ok m ∧ (any_Write m).2 = None
  | Ret (DHeader h) => header_ok h ∧ (WriteContentHeader h).2.2 = None
  | Ret (DBody payload) => payload = Frame_Payload f
  | Ret DHeartbeat => Frame_Type f = FrameHeartbeat
  | Fail _ => True
  | Panic => False
  end.
Proof.
  unfold Frame_Decode. destruct (Frame_Type f =? FrameMethod).
  - set (r := NewReader (Frame_Payload f)).
    assert (H : reads (length (rbuf r)) 0
      (classID ← ReadShort; methodID ← ReadShort; decodeMethodSwitch classID methodID) any_ok).
    { do 2 (eapply reads_seq; [apply reads_short|intros ? _]). apply reads_switch. }
    specialize (H r (le_n _)). unfold decodeMethod. fold r.
    destruct ((ReadShort ≫= _) r) as [[m r']| |]; simpl; [|done|done].
    destruct H as (Hm & _). split; [done|by apply any_writes].
  - destruct (Frame_Type f =? FrameHeader).
    + set (r := NewReader (Frame_Payload f)).
      pose proof (reads_header (length (rbuf r)) r (le_n _)) as H.
      destruct (ReadContentHeader r) as [[h r']| |]; [|done|done].
      destruct H as (Hh & _). split; [done|by apply header_writes].
    + destruct (Frame_Type f =? FrameBody); [done|].
      destruct (Z.eqb_spec (Frame_Type f) FrameHeartbeat); done.
Qed.

(** The content header of a message survives the wire: the header frame of any
    body size and any well-typed properties is built without an error, and
    decoding it gives the same class, size and properties, with the flags of
    exactly the properties that are set. *)
Theorem amqp_header_roundtrip chan bodySize p : u64_ok bodySize → props_ok p →
  ∃ payload, buildContentHeaderFrame chan bodySize p = Ret (mkFrame FrameHeader chan payload) ∧
  (Z.of_nat (length payload) < 2 ^ 32 →
   Frame_Decode (mkFrame FrameHeader chan payload) =
     Ret (DHeader (mkContentHeader ClassBasic 0 bodySize (Flags p) (canon_props p)))).
Proof.
  intros Hb Hp. set (h := mkContentHeader ClassBasic 0 bodySize 0 p).
  assert (Hh : header_ok h) by (split_and!; done).
  pose proof (header_writes h Hh) as Hw. pose proof (rt_header h Hh) as Hrt.
  unfold buildContentHeaderFrame. fold h.
  destruct ((WriteContentHeader h).2) as [payload err]. simpl in Hw. subst err.
  exists payload. split; [done|]. intros Hlen. specialize (Hrt [] EOF eq_refl Hlen).
  unfold Frame_Decode. cbn [Frame_Type Frame_Payload]. rewrite app_nil_r in Hrt. cbn [fst] in Hrt.
  unfold NewReader. simpl. by rewrite Hrt.
Qed.

Lemma amqp_header_roundtrip_witness :
  let p := mkBasicProperties "text/plain" EmptyString (Some [("k"%string, VInt 7)]) 2 0 "c-1"
             EmptyString EmptyString "m-1" 1700000000 EmptyString EmptyString "app" EmptyString in
  ∃ payload, buildContentHeaderFrame 3 11 p = Ret (mkFrame FrameHeader 3 payload) ∧
    Frame_Decode (mkFrame FrameHeader 3 payload) =
      Ret (DHeader (mkContentHeader ClassBasic 0 11 (Flags p) (canon_props p))).
Proof.
  intros p. assert (Hp : props_ok p).
  { unfold props_ok, p, shortstr_ok. simpl. split_and!; try lia; try done; try by vm_compute.
    split; [by apply (bool_decide_unpack _); vm_compute|]. bindings_ok. constructor. lia. }
  destruct (amqp_header_roundtrip 3 11 p) as (payload & Hb & Hd); [by vm_compute|exact Hp|].
  exists payload. split; [exact Hb|]. apply Hd.
  assert (length payload = 57%nat) as ->; [|lia].
  revert Hb. vm_compute. intros [= <-]. reflexivity.
Defined.

(** A message arrives as it was sent: the method and header frames of a message
    followed by the frames its body is cut into, written to the connection
    and read by a peer with the same frame maximum, are the frames that were sent, whatever
    follows them; the body frames carry the payload in order, each within
    the maximum; and a frame over the maximum is refused from its header alone. *)
Theorem amqp_content_frames frameMax chan payload fm fh rest e :
  8 < frameMax → u32_ok frameMax → u16_ok chan →
  frame_fits frameMax fm → frame_fits frameMax fh →
  let body := buildBodyFrames chan payload frameMax in
  let fs := fm :: fh :: body in
  (writeFrames fs).2 = None ∧
  read_frames frameMax (length fs) (mkReader ((writeFrames fs).1 ++ rest) e) =
    Ret (fs, mkReader rest e) ∧
  concat (Frame_Payload <$> body) = payload ∧
  Forall (λ f, Z.of_nat (length (WriteFrame f).1) <= frameMax) body ∧
  (frameMax < Z.of_nat (length payload) + 8 → Z.of_nat (length payload) < 2 ^ 32 - 8 →
   readFrame frameMax (mkReader ((WriteFrame (mkFrame FrameBody chan payload)).1 ++ rest) e) =
     Fail (NewErr FrameError "frame exceeds negotiated maximum")).
Proof.
  intros Hm Hmu Hc Hfm Hfh body fs.
  destruct (buildBodyFrames_spec chan payload frameMax) as [Hcat Hbody].
  assert (Hfit : Forall (frame_fits frameMax) fs).
  { constructor; [done|]. constructor; [done|]. eapply Forall_impl; [exact Hbody|].
    intros f (Ht & Hch & Hl & _). specialize (Hl Hm). unfold u32_ok, frameOverhead in *.
    split_and!; [split; [by rewrite Ht|by rewrite Hch]|done|lia]. }
  destruct (read_write_frames frameMax fs rest e Hfit) as [Hw Hr]. split_and!; [done..| |].
  - eapply Forall_impl; [exact Hbody|]. intros f (_ & _ & Hl & _). specialize (Hl Hm).
    rewrite WriteFrame_length. unfold frameOverhead in Hl. lia.
  - intros Hbig Hsz. apply readFrame_refuses; [|lia|done|done]. by split.
Qed.

Lemma amqp_content_frames_witness :
  let payload := bytes_of "hello, world" in
  let fm := mkFrame FrameMethod 1 (be_write 4 3932220) in
  let fs := fm :: fm :: buildBodyFrames 1 payload 13 in
  length fs = 5%nat ∧
  read_frames 13 5 (mkReader ((writeFrames fs).1 ++ [x00]) EOF) = Ret (fs, mkReader [x00] EOF) ∧
  concat (Frame_Payload <$> drop 2 fs) = payload.
Proof.
  intros payload fm fs.
  assert (Hf : frame_fits 13 fm) by (split_and!; [by vm_compute|by vm_compute|done]).
  destruct (amqp_content_frames 13 1 payload fm fm [x00] EOF) as (_ & Hr & Hc & _);
    [lia|by vm_compute|by vm_compute|exact Hf|exact Hf|].
  split; [vm_compute; reflexivity|]. split; [exact Hr|exact Hc].
Defined.
