(* ===== verification/Routing.v ===== *)
(** * Addresses of queues and clients (src/broker/routing.go, pubsub.go, src/queue/consumer/groupid.go)

    [RoutingResolver.Resolve] decides from a topic whether a message is
    published, queued, or settles or commits a queue record, by prefixes and suffixes of
    the string.  The file gives the decision level by level and proves the two
    the same, and that no address with a control verb in it is ever
    taken for a message to the queue. *)

From Stdlib Require Import ZArith Lia Bool Ascii String Strings.Byte.
From stdpp Require Import prelude gmap strings.
From S2P Require Import Prelude GoStrings Topics.

(** ** What the file uses of package [strings] *)

(** [strings.CutSuffix]: the text before the suffix, if it is there. *)
Fixpoint CutSuffix (s suffix : string) : option string :=
  if str_eqb s suffix then Some EmptyString
  else match s with
       | EmptyString => None
       | String c s => String c <$> CutSuffix s suffix
       end.
Definition HasSuffix (s suffix : string) : bool := bool_decide (is_Some (CutSuffix s suffix)).
Definition TrimSuffix (s suffix : string) : string := default s (CutSuffix s suffix).

(** ** routing.go *)

Inductive RouteKind :=
| RoutePubSub | RouteQueue | RouteQueueAck | RouteQueueCommit | RouteQueueMalformed.
Inductive AckKind := AckAccept | AckNack | AckReject.

#[export] Instance RouteKind_eq_dec : EqDecision RouteKind.
Proof. solve_decision. Defined.
#[export] Instance AckKind_eq_dec : EqDecision AckKind.
Proof. solve_decision. Defined.

Record RouteResult := mkRoute {
  RR_Kind : RouteKind;
  RR_QueueName : string;
  RR_Pattern : string;
  RR_ControlVerb : string;
  RR_PublishTopic : string;
  RR_AckKind : AckKind
}.

Definition queuePrefix : string := "$queue/".

Definition ParseQueueFilter (filter : string) : string * string :=
  if negb (HasPrefix filter queuePrefix) then (EmptyString, EmptyString)
  else
    let rest := drop_str (String.length queuePrefix) filter in
    if str_eqb rest EmptyString then (EmptyString, EmptyString)
    else match Cut slash rest with
         | (name, pat, true) => (name, pat)
         | _ => (rest, EmptyString)
         end.

Definition parseAckSuffix (topic : string) : option (AckKind * string) :=
  match CutSuffix topic "/$ack" with
  | Some base => Some (AckAccept, base)
  | None =>
      match CutSuffix topic "/$nack" with
      | Some base => Some (AckNack, base)
      | None =>
          match CutSuffix topic "/$reject" with
          | Some base => Some (AckReject, base)
          | None => None
          end
      end
  end.

Definition queueControlSegments : list string := ["$ack"; "$nack"; "$reject"; "$commit"]%string.

Definition is_control (level : string) : bool := bool_decide (level ∈ queueControlSegments).

(** The loop over [levels[:max(len(levels)-1, 0)]]. *)
Fixpoint first_control (ls : list string) : option string :=
  match ls with
  | [] => None
  | level :: ls => if is_control level then Some level else first_control ls
  end.

Definition misplacedControlSegment (topic : string) : option string :=
  let ls := Split slash topic in first_control (take (length ls - 1) ls).

Definition Resolve (topic : string) : RouteResult :=
  if negb (HasPrefix topic queuePrefix)
  then mkRoute RoutePubSub EmptyString EmptyString EmptyString EmptyString AckAccept
  else match parseAckSuffix topic with
       | Some (ackKind, baseTopic) =>
           let '(queueName, pattern) := ParseQueueFilter baseTopic in
           mkRoute RouteQueueAck queueName pattern EmptyString baseTopic ackKind
       | None =>
           match misplacedControlSegment topic with
           | Some segment =>
               mkRoute RouteQueueMalformed EmptyString EmptyString segment topic AckAccept
           | None =>
               if HasSuffix topic "/$commit" then
                 let inner := TrimSuffix (TrimPrefix topic queuePrefix) "/$commit" in
                 mkRoute RouteQueueCommit inner EmptyString EmptyString topic AckAccept
               else
                 let '(queueName, pattern) := ParseQueueFilter topic in
                 mkRoute RouteQueue queueName pattern EmptyString topic AckAccept
           end
       end.

Definition IsQueueTopic (topic : string) : bool := HasPrefix topic queuePrefix.

Definition QueueTopic (queueName : string) (parts : list string) : string :=
  foldl (λ topic p, if str_eqb p EmptyString then topic else topic +:+ String slash p)
        (queuePrefix +:+ queueName) parts.

Definition EffectiveConsumerGroupID (groupID pattern : string) : string :=
  if str_eqb pattern EmptyString then groupID else groupID +:+ "@" +:+ pattern.

(** ** pubsub.go and groupid.go *)

Definition AMQP091ClientPrefix : string := "amqp091:".
Definition AMQP1ClientPrefix : string := "amqp:".
Definition IsAMQP091Client (clientID : string) : bool := HasPrefix clientID AMQP091ClientPrefix.
Definition PrefixedAMQP091ClientID (connID : string) : string := AMQP091ClientPrefix +:+ connID.
Definition IsAMQP1Client (clientID : string) : bool := HasPrefix clientID AMQP1ClientPrefix.
Definition PrefixedAMQP1ClientID (containerID : string) : string := AMQP1ClientPrefix +:+ containerID.

(** The text before the first hyphen. *)
Definition DefaultConsumerGroupID (clientID : string) : string :=
  match Cut "-"%char clientID with
  | (before, _, true) => before
  | _ => clientID
  end.

(** ** Laws of the string functions *)

Lemma app_str_cancel_l (a b c : string) : a +:+ b = a +:+ c → b = c.
Proof. induction a as [|x a IH]; simpl; [done|]. intros [= H]. auto. Qed.

Lemma length_app_str (a b : string) :
  String.length (a +:+ b) = (String.length a + String.length b)%nat.
Proof. induction a as [|x a IH]; simpl; [done|]. by rewrite IH. Qed.

Lemma app_str_cons c (a b : string) : String c a +:+ b = String c (a +:+ b).
Proof. done. Qed.

Lemma CutSuffix_spec s p b : CutSuffix s p = Some b ↔ s = b +:+ p.
Proof.
  revert b. induction s as [|c s IH]; intros b; simpl.
  - destruct (str_eqb EmptyString p) eqn:E.
    + apply str_eqb_true in E as <-. rewrite app_str_nil_r. split; [by intros [= <-]|by intros <-].
    + apply str_eqb_false in E. split; [done|]. by destruct b as [|c b]; simpl; [intros H; destruct (E H)|].
  - destruct (str_eqb (String c s) p) eqn:E.
    + apply str_eqb_true in E as <-. split; [by intros [= <-]|].
      intros H. apply (f_equal String.length) in H. rewrite length_app_str in H. simpl in H.
      destruct b; [done|simpl in H; lia].
    + apply str_eqb_false in E. destruct (CutSuffix s p) as [b'|] eqn:Hs; simpl.
      * split; [intros [= <-]; rewrite app_str_cons; f_equal; by apply IH|].
        destruct b as [|c' b]; [intros H; destruct (E H)|]. rewrite app_str_cons. intros [= <- H].
        apply IH in H as [= <-]. done.
      * split; [done|]. destruct b as [|c' b]; [intros H; destruct (E H)|]. rewrite app_str_cons. intros [= <- H].
        by apply IH in H.
Qed.

(** A suffix that starts with the separator is a last level of its own. *)
Lemma CutSuffix_level sep s v : Contains v sep = false →
  CutSuffix s (String sep v) =
    match last (Split sep s) with
    | Some l => if decide (l = v ∧ (1 < length (Split sep s))%nat)
                then Some (Join sep (take (length (Split sep s) - 1) (Split sep s))) else None
    | None => None
    end.
Proof.
  intros Hv. destruct (CutSuffix s (String sep v)) as [b|] eqn:E.
  - apply CutSuffix_spec in E as ->. rewrite Split_app, (Split_none _ v), last_snoc by done.
    destruct (Split_nonempty sep b) as (h & t & Hb).
    rewrite decide_True by (split; [done|rewrite length_app, Hb; simpl; lia]).
    rewrite length_app. simpl. rewrite Nat.add_sub, take_app_length. by rewrite Join_Split.
  - destruct (last (Split sep s)) as [l|] eqn:Hl; [|done].
    destruct (decide _) as [[-> Hlen]|]; [|done]. exfalso.
    apply last_Some in Hl as [ls Hls]. rewrite Hls, length_app in Hlen. simpl in Hlen.
    assert (CutSuffix s (String sep v) = Some (Join sep ls)) as Hc; [|congruence].
    apply CutSuffix_spec, (Split_inj sep). rewrite Split_app, (Split_none _ v), Hls by done.
    f_equal. symmetry. destruct ls as [|x ls]; [simpl in Hlen; lia|].
    assert (Hns : Forall (λ l, Contains l sep = false) (x :: ls)).
    { apply Forall_forall. intros y Hy. eapply (Contains_sep_level sep s). rewrite Hls.
      apply elem_of_app. by left. }
    clear -Hns. revert x Hns. induction ls as [|y ls IH]; intros x Hns; inversion Hns; subst.
    + by apply Split_none.
    + change (Join sep (x :: y :: ls)) with (x +:+ String sep (Join sep (y :: ls))).
      rewrite Split_app, (Split_none _ x), IH by done. done.
Qed.

Lemma HasPrefix_spec s p : HasPrefix s p = true ↔ ∃ r, s = p +:+ r.
Proof.
  unfold HasPrefix. revert s. induction p as [|c p IH]; intros s; simpl.
  - split; [by exists s|by destruct s].
  - destruct s as [|d s]; [split; [done|by intros [r ?]]|]. simpl.
    destruct (ascii_dec c d) as [->|Hn].
    + rewrite IH. split; intros [r Hr]; exists r; [by rewrite Hr|by injection Hr].
    + split; [done|]. intros [r [= -> _]]. done.
Qed.

Lemma drop_str_app p r : drop_str (String.length p) (p +:+ r) = r.
Proof. by induction p. Qed.

(** A queue address is one whose first level is [$queue] and that has a second. *)
Lemma queue_prefix_levels s :
  match Split slash s with
  | root :: l :: ls => HasPrefix s queuePrefix = str_eqb root "$queue" ∧
      (root = "$queue"%string → s = queuePrefix +:+ Join slash (l :: ls))
  | _ => HasPrefix s queuePrefix = false
  end.
Proof.
  pose proof (Join_Split slash s) as Hj.
  assert (Hp : HasPrefix s queuePrefix = true → ∃ r, Split slash s = "$queue"%string :: Split slash r).
  { intros [r ->]%HasPrefix_spec. exists r. change (queuePrefix +:+ r) with
      ("$queue"%string +:+ String slash r). by rewrite Split_app. }
  destruct (Split slash s) as [|root [|l ls]].
  - destruct (HasPrefix s queuePrefix); [|done]. by destruct (Hp eq_refl).
  - destruct (HasPrefix s queuePrefix); [|done]. destruct (Hp eq_refl) as [r Hr].
    destruct (Split_nonempty slash r) as (?&?&Hn). by rewrite Hn in Hr.
  - split.
    + destruct (str_eqb root "$queue") eqn:E.
      * apply str_eqb_true in E as ->. apply HasPrefix_spec. exists (Join slash (l :: ls)).
        by rewrite <-Hj.
      * destruct (HasPrefix s queuePrefix); [|done]. destruct (Hp eq_refl) as [r [= -> _]].
        by apply str_eqb_false in E.
    + intros ->. by rewrite <-Hj.
Qed.

(** ** The routing decision by levels *)

Definition ack_of (level : string) : option AckKind :=
  if decide (level = "$ack"%string) then Some AckAccept
  else if decide (level = "$nack"%string) then Some AckNack
  else if decide (level = "$reject"%string) then Some AckReject
  else None.

(** The queue an address names, and the pattern after it. *)
Definition queue_of (ls : list string) : string * string :=
  match ls with
  | _ :: q :: rest => (q, Join slash rest)
  | _ => (EmptyString, EmptyString)
  end.

Definition resolve_levels (ls : list string) : RouteResult :=
  let init := take (length ls - 1) ls in
  if negb (bool_decide (hd EmptyString ls = "$queue"%string ∧ (1 < length ls)%nat))
  then mkRoute RoutePubSub EmptyString EmptyString EmptyString EmptyString AckAccept
  else match last ls ≫= ack_of with
       | Some kind =>
           mkRoute RouteQueueAck (queue_of init).1 (queue_of init).2 EmptyString (Join slash init) kind
       | None =>
           match first_control init with
           | Some verb =>
               mkRoute RouteQueueMalformed EmptyString EmptyString verb (Join slash ls) AckAccept
           | None =>
               if decide (last ls = Some "$commit"%string) then
                 mkRoute RouteQueueCommit
                   (if decide (length ls = 2%nat) then "$commit"%string else Join slash (drop 1 init))
                   EmptyString EmptyString (Join slash ls) AckAccept
               else
                 mkRoute RouteQueue (queue_of ls).1 (queue_of ls).2 EmptyString (Join slash ls) AckAccept
           end
       end.

Lemma ParseQueueFilter_levels s : HasPrefix s queuePrefix = true →
  ParseQueueFilter s = queue_of (Split slash s).
Proof.
  intros Hp. unfold ParseQueueFilter. rewrite Hp. simpl negb. cbv iota.
  apply HasPrefix_spec in Hp as [r ->]. rewrite drop_str_app.
  change (queuePrefix +:+ r) with ("$queue"%string +:+ String slash r). rewrite Split_app.
  change (Split slash "$queue") with ["$queue"%string]. cbn [app queue_of].
  destruct (str_eqb r EmptyString) eqn:E; [by apply str_eqb_true in E as ->|].
  rewrite (Split_Cut slash r). destruct (Cut slash r) as [[a b] [|]] eqn:Hc.
  - cbn. by rewrite Join_Split.
  - by destruct (Cut_more_false _ _ _ _ Hc) as [-> _].
Qed.

Lemma Join_init_Split s : (1 < length (Split slash s))%nat →
  let init := take (length (Split slash s) - 1) (Split slash s) in
  Split slash (Join slash init) = init.
Proof.
  intros Hl init. assert (Hns : Forall (λ l, Contains l slash = false) init).
  { apply Forall_forall. intros y Hy. eapply (Contains_sep_level slash s).
    by eapply elem_of_take in Hy as (i & Hi & _); eapply list_elem_of_lookup_2. }
  assert (init ≠ []) as Hne.
  { intros H. apply (f_equal length) in H. subst init. rewrite length_take in H. simpl in H. lia. }
  clearbody init. destruct init as [|x ls]; [done|]. clear -Hns.
  revert x Hns. induction ls as [|y ls IH]; intros x Hns; inversion Hns; subst.
  - by apply Split_none.
  - change (Join slash (x :: y :: ls)) with (x +:+ String slash (Join slash (y :: ls))).
    by rewrite Split_app, (Split_none _ x), IH.
Qed.

Lemma parseAckSuffix_levels s : (1 < length (Split slash s))%nat →
  parseAckSuffix s = (λ k, (k, Join slash (take (length (Split slash s) - 1) (Split slash s)))) <$>
                       (last (Split slash s) ≫= ack_of).
Proof.
  intros Hl. unfold parseAckSuffix, ack_of.
  change "/$ack"%string with (String slash "$ack"). change "/$nack"%string with (String slash "$nack").
  change "/$reject"%string with (String slash "$reject"). rewrite !CutSuffix_level by done.
  destruct (last (Split slash s)) as [l|]; [|done]. simpl.
  destruct (decide (l = "$ack"%string)) as [->|H1]; [by rewrite decide_True|].
  rewrite decide_False by naive_solver.
  destruct (decide (l = "$nack"%string)) as [->|H2]; [by rewrite decide_True|].
  rewrite decide_False by naive_solver.
  destruct (decide (l = "$reject"%string)) as [->|H3]; [by rewrite decide_True|].
  by rewrite decide_False by naive_solver.
Qed.

(** The queue of a commit address. *)
Lemma commit_inner r :
  last (Split slash r) = Some "$commit"%string →
  TrimSuffix r "/$commit" =
    if decide (length (Split slash r) = 1%nat) then "$commit"%string
    else Join slash (take (length (Split slash r) - 1) (Split slash r)).
Proof.
  intros Hl. unfold TrimSuffix. change "/$commit"%string with (String slash "$commit").
  rewrite CutSuffix_level, Hl by done. destruct (Split_nonempty slash r) as (h & t & Hr).
  case_decide as H1; [by rewrite decide_False by lia|].
  rewrite Hr in Hl, H1. destruct t; [|exfalso; apply H1; split; [done|simpl; lia]].
  rewrite Hr, decide_True by done. simpl in *. injection Hl as ->.
  by rewrite <-(Join_Split slash r), Hr.
Qed.

Lemma Resolve_levels topic : Resolve topic = resolve_levels (Split slash topic).
Proof.
  pose proof (queue_prefix_levels topic) as Hq. unfold Resolve, resolve_levels.
  pose proof (Join_Split slash topic) as Hj.
  destruct (Split slash topic) as [|root [|l ls]] eqn:Hs; [by rewrite Hq| |].
  { rewrite Hq. rewrite bool_decide_false by (intros [_ ?]; simpl in *; lia). done. }
  destruct Hq as [Hp Htopic]. rewrite Hp. cbn [hd].
  destruct (str_eqb root "$queue") eqn:Hroot.
  2: { apply str_eqb_false in Hroot. rewrite bool_decide_false by naive_solver. done. }
  apply str_eqb_true in Hroot as ->. rewrite bool_decide_true by (split; [done|simpl; lia]).
  cbn [negb]. cbv iota. specialize (Htopic eq_refl).
  pose proof (Join_init_Split topic) as Hinit. rewrite Hs in Hinit.
  specialize (Hinit ltac:(simpl; lia)). cbv zeta in Hinit.
  rewrite parseAckSuffix_levels by (rewrite Hs; simpl; lia). rewrite Hs.
  set (init := take (length ("$queue"%string :: l :: ls) - 1) ("$queue"%string :: l :: ls)) in *.
  destruct (last ("$queue"%string :: l :: ls) ≫= ack_of) as [k|] eqn:Hk; cbn [fmap option_fmap option_map].
  - assert (ParseQueueFilter (Join slash init) = queue_of init) as ->.
    { destruct (HasPrefix (Join slash init) queuePrefix) eqn:Hpi.
      - by rewrite ParseQueueFilter_levels, Hinit.
      - unfold ParseQueueFilter. rewrite Hpi. simpl.
        destruct ls as [|l2 ls]; [done|].
        assert (∃ rest, init = "$queue"%string :: l :: rest) as [rest Hi] by (by eexists).
        pose proof (queue_prefix_levels (Join slash init)) as Hq. rewrite Hinit, Hi in Hq.
        destruct Hq as [Hq _]. rewrite <-Hi, Hpi, str_eqb_refl in Hq. done. }
    by destruct (queue_of init).
  - unfold misplacedControlSegment. rewrite Hs. fold init.
    destruct (first_control init) as [verb|]; [by rewrite <-Hj|].
    assert (Hc : HasSuffix topic "/$commit" =
      bool_decide (last ("$queue"%string :: l :: ls) = Some "$commit"%string)).
    { unfold HasSuffix. change "/$commit"%string with (String slash "$commit").
      rewrite CutSuffix_level, Hs by done. apply bool_decide_ext.
      destruct (last ("$queue"%string :: l :: ls)) as [x|]; [|split; [by intros []|done]].
      destruct (decide _) as [[-> _]|Hn]; split; try done; try (by intros []).
      intros [= ->]. exfalso. apply Hn. split; [done|simpl; lia]. }
    rewrite Hc. case_bool_decide as Hlast.
    + rewrite decide_True by done. rewrite Hj.
      assert (TrimPrefix topic queuePrefix = Join slash (l :: ls)) as ->.
      { unfold TrimPrefix. rewrite Hp, Htopic. apply drop_str_app. }
      assert (Hsr : Split slash (Join slash (l :: ls)) = l :: ls).
      { change (queuePrefix +:+ Join slash (l :: ls)) with
          ("$queue"%string +:+ String slash (Join slash (l :: ls))) in Htopic.
        rewrite Htopic, Split_app in Hs. change (Split slash "$queue") with ["$queue"%string] in Hs.
        by injection Hs. }
      rewrite commit_inner, Hsr by (rewrite Hsr; exact Hlast). f_equal.
      destruct ls as [|l2 ls]; [done|].
      rewrite !decide_False by (simpl; lia). subst init. done.
    + rewrite decide_False by done. rewrite ParseQueueFilter_levels, Hs, Hj by done.
      by destruct (queue_of _).
Qed.

(** ** Theorems *)

Lemma first_control_none ls : first_control ls = None → ∀ l, l ∈ ls → is_control l = false.
Proof.
  induction ls as [|x ls IH]; simpl; intros H l Hl; [by apply not_elem_of_nil in Hl|].
  destruct (is_control x) eqn:E; [done|]. apply elem_of_cons in Hl as [->|Hl]; auto.
Qed.

Lemma first_control_app a b : first_control (a ++ b) =
  match first_control a with Some v => Some v | None => first_control b end.
Proof. induction a as [|x a IH]; simpl; [done|]. by destruct (is_control x). Qed.

Lemma ack_of_control l : is_control l = false → ack_of l = None.
Proof.
  intros Hc%bool_decide_eq_false. unfold ack_of, queueControlSegments in *.
  rewrite !decide_False by (intros ->; apply Hc; set_solver). done.
Qed.

Lemma control_last l : is_control l = true → ack_of l = None → l = "$commit"%string.
Proof.
  intros Hc%bool_decide_eq_true. unfold ack_of, queueControlSegments in *.
  rewrite !elem_of_cons, elem_of_nil in Hc. repeat case_decide; naive_solver.
Qed.

Lemma resolve_levels_queue ls : RR_Kind (resolve_levels ls) = RouteQueue →
  ∀ level, level ∈ ls → is_control level = false.
Proof.
  unfold resolve_levels. destruct (negb _); [done|].
  destruct (last ls) as [x|] eqn:Hl; [|by apply last_None in Hl as ->; intros _ ? ?%not_elem_of_nil].
  apply last_Some in Hl as [init ->]. rewrite length_app. simpl.
  rewrite Nat.add_sub, take_app_length.
  destruct (ack_of x) eqn:Ha; [done|]. destruct (first_control init) eqn:Hf; [done|].
  destruct (decide (Some x = Some "$commit"%string)) as [|Hx]; [done|].
  intros _ level [Hin| ->%list_elem_of_singleton]%elem_of_app; [by eapply first_control_none|].
  destruct (is_control x) eqn:Hc; [|done]. by rewrite (control_last x Hc Ha) in Hx.
Qed.

Lemma QueueTopic_levels q p : Contains q slash = false →
  Split slash (QueueTopic q [p]) =
    "$queue"%string :: q :: (if str_eqb p EmptyString then [] else Split slash p).
Proof.
  intros Hq. unfold QueueTopic. simpl.
  assert (Hb : Split slash (queuePrefix +:+ q) = ["$queue"%string; q]).
  { change (queuePrefix +:+ q) with ("$queue"%string +:+ String slash q).
    by rewrite Split_app, (Split_none _ q). }
  destruct (str_eqb p EmptyString); [done|]. by rewrite Split_app, Hb.
Qed.

Lemma Resolve_QueueTopic q p : Contains q slash = false →
  first_control (q :: Split slash p) = None →
  Resolve (QueueTopic q [p]) = mkRoute RouteQueue q p EmptyString (QueueTopic q [p]) AckAccept.
Proof.
  intros Hq Hf. rewrite Resolve_levels. pose proof (Join_Split slash (QueueTopic q [p])) as Hj.
  rewrite QueueTopic_levels in Hj |- * by done.
  set (ps := if str_eqb p EmptyString then [] else Split slash p) in *.
  assert (Hps : Join slash ps = p).
  { subst ps. destruct (str_eqb p EmptyString) eqn:E; [by apply str_eqb_true in E as ->|].
    apply Join_Split. }
  assert (Hc : first_control ("$queue"%string :: q :: ps) = None).
  { change (first_control (q :: ps) = None). subst ps. simpl in Hf |- *.
    destruct (is_control q); [done|]. by destruct (str_eqb p EmptyString). }
  clearbody ps. unfold resolve_levels. rewrite bool_decide_true by (split; [done|simpl; lia]).
  cbn [negb]. cbv iota.
  assert (∃ init x, "$queue"%string :: q :: ps = init ++ [x] ∧ first_control init = None ∧
    is_control x = false) as (init & x & Hi & Hfi & Hx).
  { destruct (last ("$queue"%string :: q :: ps)) as [x|] eqn:Hl; [|by apply last_None in Hl].
    apply last_Some in Hl as [init Hi]. exists init, x. rewrite Hi in Hc.
    rewrite first_control_app in Hc. destruct (first_control init); [done|]. simpl in Hc.
    by destruct (is_control x). }
  rewrite Hj. cbn [queue_of fst snd]. rewrite Hps. rewrite Hi, last_snoc, length_app. simpl.
  rewrite ack_of_control, Nat.add_sub, take_app_length, Hfi by done.
  rewrite decide_False; [done|]. intros [= ->]. done.
Qed.

(** A queue name with a slash: what follows its first level is read as a pattern. *)
Lemma QueueTopic_slash q rest p : rest ≠ EmptyString →
  QueueTopic (q +:+ String slash rest) [p] =
  QueueTopic q [if str_eqb p EmptyString then rest else rest +:+ String slash p].
Proof.
  intros Hr. unfold QueueTopic. cbn [foldl].
  assert (E : ∀ l, str_eqb (rest +:+ l) EmptyString = false).
  { intros l. apply str_eqb_false. by destruct rest. }
  destruct (str_eqb p EmptyString).
  - rewrite (proj2 (str_eqb_false _ _) Hr). by rewrite app_str_assoc.
  - by rewrite E, !app_str_assoc.
Qed.

(** C25 Routing is decided level by level: for every topic [Resolve], which works on
    prefixes and suffixes of the string, gives what the rules on the list of
    levels give; and an address that is taken for a message to a queue has no
    control verb among its levels, so nothing a client sent to control a queue is
    enqueued in it.  The address built for a queue and a pattern without control
    verbs resolves to that queue and pattern when the name of the queue has no
    slash; of a name with a slash only the first level is taken for the name and
    the rest joins the pattern. *)
Theorem routing_by_levels topic :
  Resolve topic = resolve_levels (Split slash topic) ∧
  (RR_Kind (Resolve topic) = RouteQueue →
   ∀ level, level ∈ Split slash topic → level ∉ queueControlSegments) ∧
  (∀ q pattern, Contains q slash = false → first_control (q :: Split slash pattern) = None →
   Resolve (QueueTopic q [pattern]) =
     mkRoute RouteQueue q pattern EmptyString (QueueTopic q [pattern]) AckAccept) ∧
  (∀ q rest pattern, Contains q slash = false → rest ≠ EmptyString →
   let p := if str_eqb pattern EmptyString then rest else rest +:+ String slash pattern in
   first_control (q :: Split slash p) = None →
   Resolve (QueueTopic (q +:+ String slash rest) [pattern]) =
     mkRoute RouteQueue q p EmptyString (QueueTopic (q +:+ String slash rest) [pattern]) AckAccept).
Proof.
  split; [apply Resolve_levels|]. split_and!.
  - rewrite Resolve_levels. intros Hk level Hl.
    by eapply bool_decide_eq_false, resolve_levels_queue.
  - apply Resolve_QueueTopic.
  - intros q rest pattern Hq Hr p Hc. rewrite QueueTopic_slash by done. by apply Resolve_QueueTopic.
Qed.

(** The queue of the repository's example client. *)
Lemma example_queue_misrouted : Resolve (QueueTopic "tasks/orders" []) =
  mkRoute RouteQueue "tasks" "orders" EmptyString "$queue/tasks/orders" AckAccept.
Proof. by vm_compute. Qed.

(** A control verb in the middle of an acknowledgement is not reported, and a
    misspelt verb is a message. *)
Lemma control_verb_gaps :
  RR_Kind (Resolve "$queue/m/$commit/$ack") = RouteQueueAck ∧
  RR_Kind (Resolve "$queue/m/$acks") = RouteQueue.
Proof. by vm_compute. Qed.
