(* ===== verification/Base64.v ===== *)
(** * Standard base64 (package encoding/base64)

    What the sources use of [base64.StdEncoding]: [EncodeToString] and
    [DecodeString], with padding, ignoring line breaks, and without the strict
    check of trailing bits.  Decoding inverts encoding. *)

From Stdlib Require Import ZArith Lia Bool Ascii String Strings.Byte.
From stdpp Require Import prelude gmap strings.
From S2P Require Import Prelude GoStrings.

Definition base64_alphabet : string :=
  "ABCDEFGHIJKLMNOPQRSTUVWXYZabcdefghijklmnopqrstuvwxyz0123456789+/".
Definition pad_char : ascii := "="%char.

Definition sextet_char (n : Z) : ascii :=
  default pad_char (String.get (Z.to_nat n) base64_alphabet).

Fixpoint index_char (c : ascii) (s : string) (i : Z) : option Z :=
  match s with
  | EmptyString => None
  | String d s => if Ascii.eqb c d then Some i else index_char c s (i + 1)
  end.
Definition char_sextet (c : ascii) : option Z := index_char c base64_alphabet 0.

Fixpoint base64_encode (l : list byte) : string :=
  match l with
  | b0 :: b1 :: b2 :: l =>
      String (sextet_char (b2z b0 / 4))
        (String (sextet_char (b2z b0 mod 4 * 16 + b2z b1 / 16))
          (String (sextet_char (b2z b1 mod 16 * 4 + b2z b2 / 64))
            (String (sextet_char (b2z b2 mod 64)) (base64_encode l))))
  | [b0; b1] =>
      String (sextet_char (b2z b0 / 4))
        (String (sextet_char (b2z b0 mod 4 * 16 + b2z b1 / 16))
          (String (sextet_char (b2z b1 mod 16 * 4)) (String pad_char EmptyString)))
  | [b0] =>
      String (sextet_char (b2z b0 / 4))
        (String (sextet_char (b2z b0 mod 4 * 16)) (String pad_char (String pad_char EmptyString)))
  | [] => EmptyString
  end.

(** [base64.StdEncoding.EncodeToString]. *)
Definition EncodeToString (l : list byte) : string := base64_encode l.

Fixpoint drop_newlines (s : string) : string :=
  match s with
  | EmptyString => EmptyString
  | String c s =>
      if Ascii.eqb c "010"%char || Ascii.eqb c "013"%char then drop_newlines s
      else String c (drop_newlines s)
  end.

Fixpoint base64_decode (s : string) : option (list byte) :=
  match s with
  | EmptyString => Some []
  | String a (String b (String c (String d s))) =>
      x ← char_sextet a; y ← char_sextet b;
      if Ascii.eqb c pad_char then
        if Ascii.eqb d pad_char && str_eqb s EmptyString then Some [z2b (x * 4 + y / 16)] else None
      else
        z ← char_sextet c;
        if Ascii.eqb d pad_char then
          if str_eqb s EmptyString then Some [z2b (x * 4 + y / 16); z2b (y mod 16 * 16 + z / 4)] else None
        else
          w ← char_sextet d;
          rest ← base64_decode s;
          Some (z2b (x * 4 + y / 16) :: z2b (y mod 16 * 16 + z / 4) :: z2b (z mod 4 * 64 + w) :: rest)
  | _ => None
  end.

(** [base64.StdEncoding.DecodeString]; [None] is a [CorruptInputError]. *)
Definition DecodeString64 (s : string) : option (list byte) := base64_decode (drop_newlines s).

(** ** The round trip *)

Definition sextet_ok (n : Z) : bool :=
  bool_decide (char_sextet (sextet_char n) = Some n) && negb (Ascii.eqb (sextet_char n) pad_char) &&
  negb (Ascii.eqb (sextet_char n) "010"%char || Ascii.eqb (sextet_char n) "013"%char).

Lemma sextets_ok n : 0 <= n < 64 → sextet_ok n = true.
Proof.
  intros Hn. assert (H : forallb (λ k, sextet_ok (Z.of_nat k)) (seq 0 64) = true) by by vm_compute.
  rewrite forallb_forall in H. specialize (H (Z.to_nat n)).
  rewrite Z2Nat.id in H by lia. apply H, in_seq. lia.
Qed.

Lemma sextet_char_facts n : 0 <= n < 64 → char_sextet (sextet_char n) = Some n ∧
  Ascii.eqb (sextet_char n) pad_char = false ∧
  (Ascii.eqb (sextet_char n) "010"%char || Ascii.eqb (sextet_char n) "013"%char) = false.
Proof.
  intros Hn. pose proof (sextets_ok n Hn) as H. unfold sextet_ok in H.
  apply andb_prop in H as [[H1 H2]%andb_prop H3].
  apply bool_decide_eq_true in H1. apply negb_true_iff in H2, H3. done.
Qed.

(** The sextets of three bytes, and the bytes back. *)
Lemma sextets_of_bytes x y z : 0 <= x < 256 → 0 <= y < 256 → 0 <= z < 256 →
  let s0 := x / 4 in let s1 := x mod 4 * 16 + y / 16 in
  let s2 := y mod 16 * 4 + z / 64 in let s3 := z mod 64 in
  (0 <= s0 < 64 ∧ 0 <= s1 < 64 ∧ 0 <= s2 < 64 ∧ 0 <= s3 < 64) ∧
  s0 * 4 + s1 / 16 = x ∧ s1 mod 16 * 16 + s2 / 4 = y ∧ s2 mod 4 * 64 + s3 = z.
Proof.
  intros Hx Hy Hz s0 s1 s2 s3. subst s0 s1 s2 s3.
  pose proof (Z.div_mod x 4). pose proof (Z.mod_pos_bound x 4).
  pose proof (Z.div_mod y 16). pose proof (Z.mod_pos_bound y 16).
  pose proof (Z.div_mod z 64). pose proof (Z.mod_pos_bound z 64).
  rewrite !Z.div_add_l by lia. rewrite !(Z.add_comm (_ * _)), !Z.mod_add by lia.
  rewrite (Z.div_small (y / 16)), (Z.div_small (z / 64)), (Z.mod_small (y / 16)), (Z.mod_small (z / 64))
    by lia. lia.
Qed.

Lemma base64_roundtrip_body l : base64_decode (drop_newlines (base64_encode l)) = Some l.
Proof.
  induction l as [l IH] using (induction_ltof1 _ length). unfold ltof in IH.
  destruct l as [|b0 [|b1 [|b2 l]]]; [done|..].
  - pose proof (sextets_of_bytes (b2z b0) 0 0 (b2z_range b0) ltac:(lia) ltac:(lia))
      as ((H0 & H1 & _ & _) & E0 & _). cbv zeta in *.
    change (0 / 16) with 0 in *. rewrite Z.add_0_r in *.
    destruct (sextet_char_facts _ H0) as (A0 & B0 & C0).
    destruct (sextet_char_facts _ H1) as (A1 & B1 & C1).
    cbn [base64_encode drop_newlines]. rewrite C0, C1. simpl.
    rewrite A0, A1. simpl. by rewrite E0, z2b_b2z.
  - pose proof (sextets_of_bytes (b2z b0) (b2z b1) 0 (b2z_range b0) (b2z_range b1) ltac:(lia))
      as ((H0 & H1 & H2 & _) & E0 & E1 & _). cbv zeta in *.
    change (0 / 64) with 0 in *. rewrite Z.add_0_r in H2, E1.
    destruct (sextet_char_facts _ H0) as (A0 & B0 & C0).
    destruct (sextet_char_facts _ H1) as (A1 & B1 & C1).
    destruct (sextet_char_facts _ H2) as (A2 & B2 & C2).
    cbn [base64_encode drop_newlines]. rewrite C0, C1, C2. simpl.
    rewrite A0, A1. simpl. rewrite B2, A2. simpl. by rewrite E0, E1, !z2b_b2z.
  - pose proof (sextets_of_bytes (b2z b0) (b2z b1) (b2z b2) (b2z_range b0) (b2z_range b1) (b2z_range b2))
      as ((H0 & H1 & H2 & H3) & E0 & E1 & E2). cbv zeta in *.
    destruct (sextet_char_facts _ H0) as (A0 & B0 & C0).
    destruct (sextet_char_facts _ H1) as (A1 & B1 & C1).
    destruct (sextet_char_facts _ H2) as (A2 & B2 & C2).
    destruct (sextet_char_facts _ H3) as (A3 & B3 & C3).
    cbn [base64_encode drop_newlines]. rewrite C0, C1, C2, C3. cbn [base64_decode].
    rewrite A0, A1. simpl. rewrite B2, A2. simpl. rewrite B3, A3. simpl.
    rewrite IH by (simpl; lia). simpl. by rewrite E0, E1, E2, !z2b_b2z.
Qed.

Lemma base64_roundtrip l : DecodeString64 (EncodeToString l) = Some l.
Proof. apply base64_roundtrip_body. Qed.
