(* ===== verification/QueueErrors.v ===== *)
(** * Failures of queue operations (src/queue/errors.go, src/amqp/broker/queue_errors.go)

    The stable classes of queue failures, the classification of
    implementation errors into them and the AMQP 0.9.1 reply they become.  A Go
    error is what [errors.Is] and [errors.As] can see of it: the sentinel errors of
    its chain and the explicit failure it carries. *)

From Stdlib Require Import ZArith Lia Bool Ascii String Strings.Byte.
From stdpp Require Import prelude gmap strings.
From S2P Require Import Prelude GoStrings AmqpTypes.

Inductive ErrorCode :=
| CodeUnset
| ErrorCodeCanceled | ErrorCodeInvalidArgument | ErrorCodeNotFound | ErrorCodeAlreadyExists
| ErrorCodeConflict | ErrorCodeFailedPrecondition | ErrorCodeResourceExhausted
| ErrorCodeOutOfRange | ErrorCodeUnavailable | ErrorCodeDeadlineExceeded | ErrorCodeInternal.
Inductive OwnershipState :=
| OwnershipUnset | OwnershipUnspecified | OwnershipCaller | OwnershipOther | OwnershipLost.
Inductive LeaderState :=
| LeaderUnset | LeaderUnspecified | LeaderRequired | LeaderUnavailable | LeaderNotLocal.
Inductive DurabilityState :=
| DurabilityUnset | DurabilityUnspecified | DurabilityNotAttempted | DurabilityUnconfirmed
| DurabilityUnsupported.

Record Failure := mkFailure {
  FCode : ErrorCode;
  FRetryable : bool;
  FOwnership : OwnershipState;
  FLeader : LeaderState;
  FDurability : DurabilityState
}.

(** The sentinel errors [ClassifyError] and the protocol handlers ask for, and on the
    last line those that only the stores and the consumer manager use. *)
Inductive sentinel :=
| ContextCanceled | ContextDeadlineExceeded
| ErrSessionOwned | ErrSessionOwnershipLost | ErrTakeoverInProgress
| TypesErrInvalidConfig | ErrInvalidCommand | StorageErrInvalidOffset | ConsumerErrInvalidOffset
| ErrQueueNotFound | ErrMessageNotFound | StorageErrConsumerNotFound | ErrPendingEntryNotFound
| ErrGroupNotFound | ConsumerErrConsumerNotFound | ErrMessageNotPending | ErrNoMessages
| ErrQueueAlreadyExists | ErrConsumerGroupExists | ErrOffsetOutOfRange | ErrQueueMessageTooLarge
| ErrLogFull | ErrPELFull | ErrDurabilityUnconfirmed | ErrDeduplicationStateUnconfirmed
| ErrDurableSyncUnsupported | ErrDurableReplicatedStreamUnsupported
| ErrFsyncReplicatedQueueUnsupported | ErrAtomicBatchDurabilityUnsupported
| ErrReplicationUnavailable | ErrRaftDisabled | ErrCaptureStillRunning
| ErrQueueNotStream | ErrQueueNotDurable | ErrQueueNotReserved | ErrQueueNotProtected
| ErrProtectedQueueMutation | ErrProtectedQueueContractDrift | ErrConfiguredQueueDeletion
| ErrDLQDisabled | ErrReplicationWritePolicy | ErrAtomicBatchReplicationUnsupported
| ErrGroupModeMismatch | ErrCommitOffsetOnlyForStreamMode | ErrCommitOffsetNotMonotonic
| ErrNackNotSupportedForStream | ErrDLQHandlerUnavailable | ErrDelayedNackUnsupported
| ErrConsumerGroupNotFound | ErrUndecodableRecord | ErrScanIncomplete | ErrTransferInProgress
| LogErrQueueNotFound | ErrSegmentClosed.

#[export] Instance sentinel_eq_dec : EqDecision sentinel.
Proof. solve_decision. Defined.

Record QErr := mkQErr { qe_chain : list sentinel; qe_carrier : option Failure }.

(** A sentinel returned as it is. *)
Definition sentinel_err (s : sentinel) : QErr := mkQErr [s] None.

(** [errors.Is(err, s)] for one of [ss]. *)
Definition errors_Is (err : QErr) (ss : list sentinel) : bool :=
  existsb (λ s, bool_decide (s ∈ qe_chain err)) ss.

Definition normalizeFailure (f : Failure) : Failure :=
  mkFailure
    (match FCode f with CodeUnset => ErrorCodeInternal | c => c end)
    (FRetryable f)
    (match FOwnership f with OwnershipUnset => OwnershipUnspecified | o => o end)
    (match FLeader f with LeaderUnset => LeaderUnspecified | l => l end)
    (match FDurability f with DurabilityUnset => DurabilityUnspecified | d => d end).

Definition fail_code (c : ErrorCode) (retry : bool) (o : OwnershipState) (l : LeaderState)
    (d : DurabilityState) : Failure := normalizeFailure (mkFailure c retry o l d).

Definition ClassifyError (err : option QErr) : Failure :=
  match err with
  | None => fail_code ErrorCodeInternal false OwnershipUnset LeaderUnset DurabilityUnset
  | Some err =>
  match qe_carrier err with
  | Some f => normalizeFailure f
  | None =>
  if errors_Is err [ContextCanceled]
  then fail_code ErrorCodeCanceled false OwnershipUnset LeaderUnset DurabilityUnset
  else if errors_Is err [ContextDeadlineExceeded]
  then fail_code ErrorCodeDeadlineExceeded true OwnershipUnset LeaderUnset DurabilityUnconfirmed
  else if errors_Is err [ErrSessionOwned]
  then fail_code ErrorCodeConflict true OwnershipOther LeaderUnset DurabilityUnset
  else if errors_Is err [ErrSessionOwnershipLost]
  then fail_code ErrorCodeUnavailable true OwnershipLost LeaderUnset DurabilityUnset
  else if errors_Is err [ErrTakeoverInProgress]
  then fail_code ErrorCodeConflict true OwnershipOther LeaderUnset DurabilityUnset
  else if errors_Is err [TypesErrInvalidConfig; ErrInvalidCommand; StorageErrInvalidOffset;
                         ConsumerErrInvalidOffset]
  then fail_code ErrorCodeInvalidArgument false OwnershipUnset LeaderUnset DurabilityUnset
  else if errors_Is err [ErrQueueNotFound; ErrMessageNotFound; StorageErrConsumerNotFound;
                         ErrPendingEntryNotFound; ErrGroupNotFound; ConsumerErrConsumerNotFound;
                         ErrMessageNotPending; ErrNoMessages]
  then fail_code ErrorCodeNotFound false OwnershipUnset LeaderUnset DurabilityUnset
  else if errors_Is err [ErrQueueAlreadyExists; ErrConsumerGroupExists]
  then fail_code ErrorCodeAlreadyExists false OwnershipUnset LeaderUnset DurabilityUnset
  else if errors_Is err [ErrOffsetOutOfRange]
  then fail_code ErrorCodeOutOfRange false OwnershipUnset LeaderUnset DurabilityUnset
  else if errors_Is err [ErrQueueMessageTooLarge]
  then fail_code ErrorCodeResourceExhausted false OwnershipUnset LeaderUnset DurabilityNotAttempted
  else if errors_Is err [ErrLogFull; ErrPELFull]
  then fail_code ErrorCodeResourceExhausted true OwnershipUnset LeaderUnset DurabilityNotAttempted
  else if errors_Is err [ErrDurabilityUnconfirmed]
  then fail_code ErrorCodeUnavailable true OwnershipUnset LeaderUnset DurabilityUnconfirmed
  else if errors_Is err [ErrDeduplicationStateUnconfirmed]
  then fail_code ErrorCodeUnavailable true OwnershipUnset LeaderUnset DurabilityUnset
  else if errors_Is err [ErrDurableSyncUnsupported; ErrDurableReplicatedStreamUnsupported;
                         ErrFsyncReplicatedQueueUnsupported; ErrAtomicBatchDurabilityUnsupported]
  then fail_code ErrorCodeFailedPrecondition false OwnershipUnset LeaderUnset DurabilityUnsupported
  else if errors_Is err [ErrReplicationUnavailable; ErrRaftDisabled]
  then fail_code ErrorCodeUnavailable true OwnershipUnset LeaderUnavailable DurabilityUnconfirmed
  else if errors_Is err [ErrCaptureStillRunning]
  then fail_code ErrorCodeUnavailable true OwnershipUnset LeaderUnset DurabilityUnset
  else if errors_Is err [ErrQueueNotStream; ErrQueueNotDurable; ErrQueueNotReserved;
                         ErrQueueNotProtected; ErrProtectedQueueMutation;
                         ErrProtectedQueueContractDrift; ErrConfiguredQueueDeletion;
                         ErrDLQDisabled; ErrReplicationWritePolicy;
                         ErrAtomicBatchReplicationUnsupported; ErrGroupModeMismatch;
                         ErrCommitOffsetOnlyForStreamMode; ErrCommitOffsetNotMonotonic;
                         ErrNackNotSupportedForStream; ErrDLQHandlerUnavailable;
                         ErrDelayedNackUnsupported]
  then fail_code ErrorCodeFailedPrecondition false OwnershipUnset LeaderUnset DurabilityUnset
  else fail_code ErrorCodeInternal false OwnershipUnset LeaderUnset DurabilityUnset
  end
  end.

(** ** amqp/broker/queue_errors.go *)

Definition amqp091QueueError (err : QErr) : Z * string :=
  match FCode (ClassifyError (Some err)) with
  | ErrorCodeNotFound => (NotFound, "queue resource not found"%string)
  | ErrorCodeConflict => (ResourceLocked, "queue resource is owned elsewhere"%string)
  | ErrorCodeInvalidArgument | ErrorCodeAlreadyExists | ErrorCodeFailedPrecondition
  | ErrorCodeOutOfRange => (PreconditionFailed, "queue operation rejected"%string)
  | ErrorCodeResourceExhausted => (ResourceError, "queue resource exhausted"%string)
  | ErrorCodeUnavailable | ErrorCodeDeadlineExceeded | ErrorCodeCanceled =>
      (InternalError, "queue operation unavailable"%string)
  | _ => (InternalError, "queue operation failed"%string)
  end.

Definition failure_set (f : Failure) : Prop :=
  FCode f ≠ CodeUnset ∧ FOwnership f ≠ OwnershipUnset ∧ FLeader f ≠ LeaderUnset ∧
  FDurability f ≠ DurabilityUnset.

Lemma normalizeFailure_set f : failure_set (normalizeFailure f).
Proof. destruct f as [[] ? [] [] []]; by vm_compute. Qed.

(** Every error has a class: no field of a classified failure is left open. *)
Lemma ClassifyError_set err : failure_set (ClassifyError err).
Proof.
  unfold ClassifyError, fail_code. destruct err as [err|]; [|apply normalizeFailure_set].
  destruct (qe_carrier err); [apply normalizeFailure_set|].
  repeat (match goal with |- failure_set (if ?b then _ else _) => destruct b end;
          [apply normalizeFailure_set|]). apply normalizeFailure_set.
Qed.
