(* ===== verification/GroupStore.v ===== *)
(** * What the queue code needs of its stores (src/queue/storage/log.go)

    [storage.ConsumerGroupStore], [storage.PendingEntryRequeuer] and the reads of
    [storage.QueueStore], as a class of operations on the state of the stores,
    and the laws their clients rely on.  The consumer manager and the queue
    state machine are written over the operations and proved over the laws; the
    disk adapter discharges the laws.

    [GetConsumerGroup] hands out a pointer to the stored group: [live] is the
    group a holder of the pointer sees, and [through] a method run on it.  A
    write that returns an error may or may not have happened.  [valid] is what the
    stores keep of themselves. *)

From Stdlib Require Import ZArith Lia Bool String.
From stdpp Require Import prelude gmap strings.
From S2P Require Import Prelude State ConsumerGroup QueueErrors.

Import Group.

Class GroupStore (St Env : Type) := {
  (** [message.Envelope] *)
  Topic : Env → string;
  IsExpired : Z → Env → bool;
  QueueOffset : Env → Z;
  QueueCreatedAt : Env → Z;
  (** [storage.QueueStore] *)
  Head : string → St → outcome QErr Z;
  Tail : string → St → outcome QErr Z;
  Read : string → Z → St → outcome QErr Env;
  (** The states the stores reach. *)
  valid : St → Prop;
  (** [storage.ConsumerGroupStore] *)
  live : string → string → St → option ConsumerGroup;
  through : string → string → (ConsumerGroup → ConsumerGroup) → St → St;
  CreateConsumerGroup : ConsumerGroup → state St (outcome QErr unit);
  GetConsumerGroup : string → string → state St (outcome QErr ConsumerGroup);
  UpdateConsumerGroup : ConsumerGroup → state St (outcome QErr unit);
  ListConsumerGroups : string → St → outcome QErr (list ConsumerGroup);
  AddPendingEntry : string → string → PendingEntry → state St (outcome QErr unit);
  RemovePendingEntry : string → string → string → Z → state St (outcome QErr unit);
  TransferPendingEntry : string → string → Z → string → string → state St (outcome QErr unit);
  UpdateCursor : string → string → Z → state St (outcome QErr unit);
  UpdateCommitted : string → string → Z → state St (outcome QErr unit);
  RegisterConsumer : string → string → ConsumerInfo → state St (outcome QErr unit);
  UnregisterConsumer : string → string → string → state St (outcome QErr unit);
  (** [storage.PendingEntryRequeuer], an optional interface *)
  requeues : bool;
  RequeuePendingEntry : string → string → string → Z → Z → state St (outcome QErr unit)
}.

(** ** Effects of the operations on a group

    A store may hold the pending entries in another form and convert them on
    the way, so the entries are compared as multisets, and a claim time is the
    store's own. *)

Import GroupFacts.

(** Every entry is filed under its consumer. *)
Definition filed (p : pel) : Prop := ∀ c e, e ∈ pel_get c p → ∃ x, e = Some x ∧ ConsumerID x = c.

Definition cursor_of (g : ConsumerGroup) : Z := Cursor (CursorView g).
Definition committed_of (g : ConsumerGroup) : Z := Committed (CursorView g).

(** Fields no operation on entries or positions changes. *)
Definition frame (g g' : ConsumerGroup) : Prop :=
  ID g' = ID g ∧ QueueName g' = QueueName g ∧ Mode g' = Mode g ∧ AutoCommit g' = AutoCommit g.

Definition same_positions (g g' : ConsumerGroup) : Prop :=
  cursor_of g' = cursor_of g ∧ committed_of g' = committed_of g.
Definition same_pending (g g' : ConsumerGroup) : Prop :=
  all (PEL g') ≡ₚ all (PEL g) ∧ (filed (PEL g) → filed (PEL g')).

Definition eff_same (g g' : ConsumerGroup) : Prop :=
  frame g g' ∧ same_positions g g' ∧ same_pending g g'.

Definition has_offset (o : Z) (e : option PendingEntry) : bool :=
  match e with Some x => Offset x =? o | None => false end.

(** The entries have owners. *)
Definition owned (l : list (option PendingEntry)) : Prop :=
  ∀ e, Some e ∈ l → ConsumerID e ≠ EmptyString.

(** A new entry, in place of any other of its offset or beside it.  Outside
    streams the store moves the cursor past a delivered record itself (the cursor
    of the largest offset would wrap). *)
Definition eff_add (e : PendingEntry) (g g' : ConsumerGroup) : Prop :=
  frame g g' ∧ committed_of g' = committed_of g ∧
  (0 <= Offset e < 2 ^ 64 - 1 →
   (cursor_of g' = cursor_of g ∨ cursor_of g' = Z.max (cursor_of g) (Offset e + 1)) ∧
   (Mode g ≠ GroupModeStream → cursor_of g' = Z.max (cursor_of g) (Offset e + 1))) ∧
  (filed (PEL g) → filed (PEL g')) ∧
  ∃ e' rest, Offset e' = Offset e ∧ ConsumerID e' = ConsumerID e ∧
    (DeliveryCount e = 1 → DeliveryCount e' = 1) ∧ all (PEL g') ≡ₚ Some e' :: rest ∧
    (rest = all (PEL g) ∨ rest = List.filter (λ x, negb (has_offset (Offset e) x)) (all (PEL g))).

(** Some entries of the offset are gone; at least one if there was any and all
    have owners. *)
Definition eff_remove (o : Z) (g g' : ConsumerGroup) : Prop :=
  frame g g' ∧ same_positions g g' ∧ (filed (PEL g) → filed (PEL g')) ∧
  ∃ gone, all (PEL g) ≡ₚ gone ++ all (PEL g') ∧ Forall (λ e, has_offset o e = true) gone ∧
    (filed (PEL g) → owned (all (PEL g)) → o ∈ offsets (all (PEL g)) → gone ≠ []).

(** The entry of the offset moves from one consumer to another; a transfer from
    the empty consumer may find nothing. *)
Definition eff_transfer (o : Z) (a b : string) (g g' : ConsumerGroup) : Prop :=
  (frame g g' ∧ same_positions g g' ∧ (filed (PEL g) → filed (PEL g')) ∧
   ∃ x x' rest, Offset x = o ∧ ConsumerID x = a ∧ Offset x' = o ∧ ConsumerID x' = b ∧
     all (PEL g) ≡ₚ Some x :: rest ∧ all (PEL g') ≡ₚ Some x' :: rest) ∨
  (a = EmptyString ∧ eff_same g g').

(** The claim time of the entry changes, if the store holds the entry. *)
Definition eff_requeue (o : Z) (g g' : ConsumerGroup) : Prop :=
  (frame g g' ∧ same_positions g g' ∧ (filed (PEL g) → filed (PEL g')) ∧
   ∃ x t rest, Offset x = o ∧ all (PEL g) ≡ₚ Some x :: rest ∧
     all (PEL g') ≡ₚ Some (set_ClaimedAt t x) :: rest) ∨
  eff_same g g'.

Definition eff_cursor (k : Z) (g g' : ConsumerGroup) : Prop :=
  frame g g' ∧ committed_of g' = committed_of g ∧ cursor_of g' = k ∧ same_pending g g'.

(** The committed position; a stream's cursor is raised to it when behind. *)
Definition eff_commit (k : Z) (g g' : ConsumerGroup) : Prop :=
  frame g g' ∧ committed_of g' = k ∧ same_pending g g' ∧
  (cursor_of g' = cursor_of g ∨ cursor_of g' = Z.max (cursor_of g) k) ∧
  (Mode g = GroupModeStream → cursor_of g' = Z.max (cursor_of g) k).

Section laws.
Context {St Env : Type} `{GS : GroupStore St Env}.

(** The logs are as they were. *)
Definition same_logs (s s' : St) : Prop :=
  (∀ q, Head q s' = Head q s) ∧ (∀ q, Tail q s' = Tail q s) ∧ ∀ q o, Read q o s' = Read q o s.

(** A call on one group has the effect, or, when it reports an error, perhaps
    none; other groups and the logs are left alone. *)
Definition acts (q g : string) (eff : ConsumerGroup → ConsumerGroup → Prop)
    (op : state St (outcome QErr unit)) : Prop :=
  ∀ s, valid s → valid (op s).2 ∧ same_logs s (op s).2 ∧
    (∀ q' g', (q', g') ≠ (q, g) → live q' g' (op s).2 = live q' g' s) ∧
    match live q g s with
    | None => live q g (op s).2 = None
    | Some gr => ∃ gr', live q g (op s).2 = Some gr' ∧ (eff gr gr' ∨ eff_same gr gr') ∧
                 ((op s).1 = Ret tt → eff gr gr')
    end ∧ (op s).1 ≠ Panic.
End laws.

(** A group as a read that refreshes it leaves it. *)
Definition touch (t : Z) (g : ConsumerGroup) : ConsumerGroup :=
  mkConsumerGroup (ID g) (QueueName g) (Pattern g) (Mode g) (AutoCommit g) (GCursor g) (PEL g)
    (Consumers g) (CreatedAt g) t.

(** A method of the group that keeps its names and mode, decides the commit flag
    by the flag alone, and files what it files. *)
Record method (f : ConsumerGroup → ConsumerGroup) : Prop := {
  method_names : ∀ x, ID (f x) = ID x ∧ QueueName (f x) = QueueName x ∧ Mode (f x) = Mode x;
  method_auto : ∀ x y, AutoCommit x = AutoCommit y → AutoCommit (f x) = AutoCommit (f y);
  method_filed : ∀ x, filed (PEL x) → filed (PEL (f x));
  method_empty : ∀ x, all (PEL x) = [] → all (PEL (f x)) = []
}.

Class GroupStoreLaws (St Env : Type) `{GS : GroupStore St Env} : Prop := {
  reads_return : ∀ q o s, Read q o s ≠ Panic ∧ Tail q s ≠ Panic ∧ ListConsumerGroups q s ≠ Panic;
  tail_bound : ∀ q s t, Tail q s = Ret t → t < 2 ^ 64;
  live_names : ∀ q g s gr, valid s → live q g s = Some gr →
    QueueName gr = q ∧ ID gr = g ∧ (Mode gr = GroupModeQueue ∨ Mode gr = GroupModeStream);
  get_acts : ∀ q g s, valid s → valid (GetConsumerGroup q g s).2 ∧
    same_logs s (GetConsumerGroup q g s).2 ∧
    (∀ q' g', (q', g') ≠ (q, g) → live q' g' (GetConsumerGroup q g s).2 = live q' g' s) ∧
    (GetConsumerGroup q g s).1 ≠ Panic ∧
    match live q g s with
    | None => live q g (GetConsumerGroup q g s).2 = None ∧
              ∀ gr, (GetConsumerGroup q g s).1 ≠ Ret gr
    | Some gr0 => ∃ t, live q g (GetConsumerGroup q g s).2 = Some (touch t gr0) ∧
                  ∀ gr, (GetConsumerGroup q g s).1 = Ret gr → gr = touch t gr0
    end;
  list_live : ∀ q s gs, valid s → ListConsumerGroups q s = Ret gs →
    (∀ g gr, live q g s = Some gr →
       ∃ gr', gr' ∈ gs ∧ frame gr gr' ∧ committed_of gr' = committed_of gr) ∧
    (∀ gr', gr' ∈ gs → ∃ gr, live q (ID gr') s = Some gr ∧ frame gr gr' ∧
       committed_of gr' = committed_of gr);
  add_acts : ∀ q g e, acts q g (eff_add e) (AddPendingEntry q g e);
  remove_acts : ∀ q g c o, acts q g (eff_remove o) (RemovePendingEntry q g c o);
  transfer_acts : ∀ q g o a b, acts q g (eff_transfer o a b) (TransferPendingEntry q g o a b);
  requeue_acts : ∀ q g c o t, acts q g (eff_requeue o) (RequeuePendingEntry q g c o t);
  cursor_acts : ∀ q g k, acts q g (eff_cursor k) (UpdateCursor q g k);
  commit_acts : ∀ q g k, acts q g (eff_commit k) (UpdateCommitted q g k);
  register_acts : ∀ q g i, acts q g eff_same (RegisterConsumer q g i);
  unregister_acts : ∀ q g c, acts q g eff_same (UnregisterConsumer q g c);
  update_acts : ∀ gr s, valid s → live (QueueName gr) (ID gr) s = Some gr →
    valid (UpdateConsumerGroup gr s).2 ∧
    same_logs s (UpdateConsumerGroup gr s).2 ∧ (UpdateConsumerGroup gr s).1 ≠ Panic ∧
    (∀ q' g', (q', g') ≠ (QueueName gr, ID gr) →
       live q' g' (UpdateConsumerGroup gr s).2 = live q' g' s) ∧
    ∃ gr', live (QueueName gr) (ID gr) (UpdateConsumerGroup gr s).2 = Some gr' ∧ eff_same gr gr';
  (** A method run through the pointer of a stream group shows all it did; outside
      streams the store may overwrite positions and entries. *)
  through_acts : ∀ q g f s gr, valid s → live q g s = Some gr → method f →
    valid (through q g f s) ∧ same_logs s (through q g f s) ∧
    (∀ q' g', (q', g') ≠ (q, g) → live q' g' (through q g f s) = live q' g' s) ∧
    ∃ gr', live q g (through q g f s) = Some gr' ∧
      ID gr' = ID gr ∧ QueueName gr' = QueueName gr ∧ Mode gr' = Mode gr ∧
      AutoCommit gr' = AutoCommit (f gr) ∧
      (Mode gr = GroupModeStream → same_positions (f gr) gr' ∧ same_pending (f gr) gr') ∧
      (Mode gr ≠ GroupModeStream → (∀ x, GCursor (f x) = GCursor x ∧ PEL (f x) = PEL x) →
         same_positions gr gr' ∧ same_pending gr gr');
  create_acts : ∀ gr s, valid s → PEL gr = ∅ → cursor_of gr = 0 → committed_of gr = 0 →
    Mode gr = GroupModeQueue ∨ Mode gr = GroupModeStream →
    valid (CreateConsumerGroup gr s).2 ∧
    same_logs s (CreateConsumerGroup gr s).2 ∧ (CreateConsumerGroup gr s).1 ≠ Panic ∧
    (∀ q' g', (q', g') ≠ (QueueName gr, ID gr) →
       live q' g' (CreateConsumerGroup gr s).2 = live q' g' s) ∧
    (live (QueueName gr) (ID gr) (CreateConsumerGroup gr s).2 = live (QueueName gr) (ID gr) s ∨
     live (QueueName gr) (ID gr) s = None ∧
     ∃ gr', live (QueueName gr) (ID gr) (CreateConsumerGroup gr s).2 = Some gr' ∧ frame gr gr' ∧
       filed (PEL gr'))
}.
