(* ===== verification/ConsumerState.v ===== *)
(** * Durable consumer state (src/logstorage/consumer_state.go)

    Progress of one consumer group on disk: the acknowledgement floor, the
    cursor and the pending entries, the entries spread over [NumPELShards]
    shards by [offset % NumPELShards].  Every mutation is applied in memory and
    appended to an operation log; compaction writes one snapshot file for the
    group and one per shard, each replaced atomically by a rename, and then
    truncates the log.  Opening the state loads the snapshots and replays the
    log up to the first record that does not parse.

    A snapshot file is the value that was marshalled into it (the JSON library
    restores what it wrote, names being valid UTF-8); the log is the list of its records, a write that
    was cut short leaving a [Torn] piece that ends every later replay.  The
    answers of the file system are arguments, [time.Now] is a clock argument,
    and so is the order in which a map is walked.  [NumPELShards] is positive:
    with zero shards every operation divides by zero.

    Theorems: sharding is transparent (each operation acts on the flat map
    from offsets to entries); reopening reproduces the state after any history
    of log writes that succeed and, where some fail or are cut short, the state
    that what reached the log describes; a crash at any point of a compaction loses no pending entry, owner
    or cursor; the index by consumer is exact; the acknowledgement floor never
    passes a pending entry and stops only at one; redelivery candidates. *)

From Stdlib Require Import ZArith Lia Bool String.
From stdpp Require Import prelude gmap strings.
From S2P Require Import Prelude.

Module ConsumerState.

Record GroupState := mkGroupState {
  AckFloor : Z;
  Cursor : Z;
  Delivered : Z;
  CreatedAt : Z;
  UpdatedAt : Z
}.
#[export] Instance GroupState_eta : Eta GroupState := λ r,
  mkGroupState (AckFloor r) (Cursor r) (Delivered r) (CreatedAt r) (UpdatedAt r).

Record PendingEntry := mkPendingEntry {
  Offset : Z;
  ConsumerID : string;
  DeliveredAt : Z;
  DeliveryCount : Z;
  LastAttempt : Z
}.
#[export] Instance PendingEntry_eta : Eta PendingEntry := λ r,
  mkPendingEntry (Offset r) (ConsumerID r) (DeliveredAt r) (DeliveryCount r) (LastAttempt r).

Record PELShard := mkPELShard {
  entries : gmap Z PendingEntry;
  byConsumer : gmap string (gset Z);
  shard_dirty : bool
}.
#[export] Instance PELShard_eta : Eta PELShard := λ r,
  mkPELShard (entries r) (byConsumer r) (shard_dirty r).

Record StateSnapshot := mkStateSnapshot {
  SSVersion : Z; SSState : option GroupState; SSSavedAt : Z
}.
Record PELSnapshot := mkPELSnapshot {
  PSVersion : Z; PSShardID : nat; PSEntries : gmap Z PendingEntry; PSSavedAt : Z
}.

(** [Operation]; the constructors carry the fields their type uses. *)
Inductive Operation :=
| OpDeliver (offset : Z) (consumerID : string) (ts : Z)
| OpAck (offset ts : Z)
| OpAckBatch (offsets : list Z) (ts : Z)
| OpNack (offset ts : Z)
| OpClaim (offset : Z) (consumerID : string) (ts : Z)
| OpClaimBatch (offsets : list Z) (consumerID : string) (ts : Z)
| OpAdvanceFloor (offset ts : Z)
| OpSetCursor (offset ts : Z)
| OpRestorePending (offset : Z) (consumerID : string) (ts deliveryCount : Z)
| OpRelease (offset ts : Z).

(** A piece of the operation log. *)
Inductive LogItem := Rec (op : Operation) | Torn.

Record Disk := mkDisk {
  stateFile : option StateSnapshot;
  pelFiles : gmap nat PELSnapshot;
  opLog : list LogItem
}.
#[export] Instance Disk_eta : Eta Disk := λ r, mkDisk (stateFile r) (pelFiles r) (opLog r).

Record ConsumerState := mkConsumerState {
  state : GroupState;
  pelShards : list PELShard;
  dirty : bool;
  lastSync : Z;
  opCount : Z;
  snapVersion : Z;
  disk : Disk
}.
#[export] Instance ConsumerState_eta : Eta ConsumerState := λ r,
  mkConsumerState (state r) (pelShards r) (dirty r) (lastSync r) (opCount r) (snapVersion r)
    (disk r).

Definition empty_shard : PELShard := mkPELShard ∅ ∅ false.

(** ** The index by consumer *)

Definition index_add (consumerID : string) (offset : Z) (ix : gmap string (gset Z)) :
    gmap string (gset Z) :=
  <[consumerID := {[offset]} ∪ default ∅ (ix !! consumerID)]> ix.

Definition index_del (consumerID : string) (offset : Z) (ix : gmap string (gset Z)) :
    gmap string (gset Z) :=
  match ix !! consumerID with
  | None => ix
  | Some offsets =>
      let offsets := offsets ∖ {[offset]} in
      if decide (offsets = ∅) then delete consumerID ix else <[consumerID := offsets]> ix
  end.

Section ops.
Context (NumPELShards : Z).

Definition ShardKey (offset : Z) : nat := Z.to_nat (offset mod NumPELShards).

Definition shard_of (offset : Z) (cs : ConsumerState) : PELShard :=
  default empty_shard (pelShards cs !! ShardKey offset).

(** [shard.entries[offset]] of the offset's shard. *)
Definition entry_at (offset : Z) (cs : ConsumerState) : option PendingEntry :=
  entries (shard_of offset cs) !! offset.

Definition on_shard (offset : Z) (f : PELShard → PELShard) (cs : ConsumerState) : ConsumerState :=
  cs <| pelShards := alter f (ShardKey offset) (pelShards cs) |>.

(** Store an entry under its consumer. *)
Definition put_entry (entry : PendingEntry) (shard : PELShard) : PELShard :=
  mkPELShard (<[Offset entry := entry]> (entries shard))
    (index_add (ConsumerID entry) (Offset entry) (byConsumer shard)) true.

Definition applyDeliver (offset : Z) (consumerID : string) (ts : Z) (cs : ConsumerState) :
    ConsumerState :=
  let st := state cs in
  let st := st <| Delivered := u64 (Delivered st + 1) |> in
  let st := if Cursor st <=? offset then st <| Cursor := u64 (offset + 1) |> else st in
  let st := st <| UpdatedAt := ts |> in
  on_shard offset (put_entry (mkPendingEntry offset consumerID ts 1 ts)) (cs <| state := st |>).

Definition applyRestorePending (offset : Z) (consumerID : string) (ts deliveryCount : Z)
    (cs : ConsumerState) : ConsumerState :=
  let deliveryCount := if deliveryCount =? 0 then 1 else deliveryCount in
  let cs := on_shard offset (put_entry (mkPendingEntry offset consumerID ts deliveryCount ts)) cs in
  cs <| state := (state cs) <| UpdatedAt := ts |> |>.

(** The loop of [tryAdvanceAckFloor] from [offset]; [fuel] is the distance to
    the cursor. *)
Fixpoint floor_loop (fuel : nat) (offset newFloor : Z) (cs : ConsumerState) : Z :=
  match fuel with
  | O => newFloor
  | S fuel =>
      if Cursor (state cs) <=? offset then newFloor
      else match entry_at offset cs with
           | Some _ => newFloor
           | None => floor_loop fuel (offset + 1) offset cs
           end
  end.

Definition tryAdvanceAckFloor (now : Z) (cs : ConsumerState) : ConsumerState :=
  let floor := AckFloor (state cs) in
  let first := u64 (floor + 1) in
  let newFloor := floor_loop (Z.to_nat (Cursor (state cs) - first)) first floor cs in
  if floor <? newFloor
  then cs <| state := (state cs) <| AckFloor := newFloor |> <| UpdatedAt := now |> |>
          <| dirty := true |>
  else cs.

Definition applyAck (now offset : Z) (cs : ConsumerState) : ConsumerState :=
  match entry_at offset cs with
  | None => cs
  | Some entry =>
      let cs := on_shard offset (λ shard,
        mkPELShard (delete offset (entries shard))
          (index_del (ConsumerID entry) offset (byConsumer shard)) true) cs in
      tryAdvanceAckFloor now cs
  end.

(** [entry.DeliveryCount++], [entry.LastAttempt = ts] through the pointer. *)
Definition applyNack (offset ts : Z) (cs : ConsumerState) : ConsumerState :=
  match entry_at offset cs with
  | None => cs
  | Some entry =>
      let entry := entry <| DeliveryCount := u16 (DeliveryCount entry + 1) |>
                         <| LastAttempt := ts |> in
      on_shard offset (λ shard,
        mkPELShard (<[offset := entry]> (entries shard)) (byConsumer shard) true) cs
  end.

Definition applyRelease (offset ts : Z) (cs : ConsumerState) : ConsumerState :=
  match entry_at offset cs with
  | None => cs
  | Some entry =>
      on_shard offset (λ shard,
        mkPELShard (<[offset := entry <| LastAttempt := ts |>]> (entries shard))
          (byConsumer shard) true) cs
  end.

Definition applyClaim (offset : Z) (newConsumerID : string) (ts : Z) (cs : ConsumerState) :
    ConsumerState :=
  match entry_at offset cs with
  | None => cs
  | Some entry =>
      let entry' := entry <| ConsumerID := newConsumerID |>
                          <| DeliveryCount := u16 (DeliveryCount entry + 1) |>
                          <| LastAttempt := ts |> in
      on_shard offset (λ shard,
        mkPELShard (<[offset := entry']> (entries shard))
          (index_add newConsumerID offset
             (index_del (ConsumerID entry) offset (byConsumer shard))) true) cs
  end.

Definition applyAdvanceFloor (now floor : Z) (cs : ConsumerState) : ConsumerState :=
  if AckFloor (state cs) <? floor
  then cs <| state := (state cs) <| AckFloor := floor |> <| UpdatedAt := now |> |>
  else cs.

Definition applySetCursor (cursor ts : Z) (cs : ConsumerState) : ConsumerState :=
  cs <| state := (state cs) <| Cursor := cursor |> <| UpdatedAt := ts |> |>.

(** The loops of the batch operations; [now] is the clock, one reading per
    acknowledged offset. *)
Fixpoint ack_each (now : nat → Z) (offsets : list Z) (cs : ConsumerState) : ConsumerState :=
  match offsets with
  | [] => cs
  | offset :: offsets => ack_each (λ i, now (S i)) offsets (applyAck (now O) offset cs)
  end.
Definition claim_each (offsets : list Z) (consumerID : string) (ts : Z) (cs : ConsumerState) :
    ConsumerState := foldl (λ cs offset, applyClaim offset consumerID ts cs) cs offsets.
Definition deliver_each (offsets : list Z) (consumerID : string) (ts : Z) (cs : ConsumerState) :
    ConsumerState := foldl (λ cs offset, applyDeliver offset consumerID ts cs) cs offsets.

Definition applyOp (now : nat → Z) (op : Operation) (cs : ConsumerState) : ConsumerState :=
  match op with
  | OpDeliver offset consumerID ts => applyDeliver offset consumerID ts cs
  | OpAck offset _ => applyAck (now O) offset cs
  | OpAckBatch offsets _ => ack_each now offsets cs
  | OpNack offset ts => applyNack offset ts cs
  | OpClaim offset consumerID ts => applyClaim offset consumerID ts cs
  | OpClaimBatch offsets consumerID ts => claim_each offsets consumerID ts cs
  | OpAdvanceFloor offset _ => applyAdvanceFloor (now O) offset cs
  | OpSetCursor offset ts => applySetCursor offset ts cs
  | OpRestorePending offset consumerID ts deliveryCount =>
      applyRestorePending offset consumerID ts deliveryCount cs
  | OpRelease offset ts => applyRelease offset ts cs
  end.

(** ** The operation log *)

(** The answer of [opLog.Write]: the record is there and no error is reported, or an
    error is and nothing of the record is there, a piece of it that does not
    parse, or all of it. *)
Inductive WriteResult := Written | NotWritten | TornWrite | WrittenError.

Definition append_item (item : LogItem) (cs : ConsumerState) : ConsumerState :=
  cs <| disk := (disk cs) <| opLog := opLog (disk cs) ++ [item] |> |>.

(** [writeOp]; [true] is a nil error.  The background compaction it may start
    is a step of its own. *)
Definition writeOp (w : WriteResult) (op : Operation) (cs : ConsumerState) :
    bool * ConsumerState :=
  match w with
  | Written => (true, (append_item (Rec op) cs) <| opCount := opCount cs + 1 |> <| dirty := true |>)
  | NotWritten => (false, cs)
  | TornWrite => (false, append_item Torn cs)
  | WrittenError => (false, append_item (Rec op) cs)
  end.

(** ** Public API; [t0], [t1], ... are the readings of the clock in order *)

Definition Deliver (t0 : Z) (w : WriteResult) (offset : Z) (consumerID : string)
    (cs : ConsumerState) : bool * ConsumerState :=
  writeOp w (OpDeliver offset consumerID t0) (applyDeliver offset consumerID t0 cs).

(** [claimedAt] is [None] for the zero time. *)
Definition RestorePending (t0 : Z) (w : WriteResult) (offset : Z) (consumerID : string)
    (claimedAt : option Z) (deliveryCount : Z) (cs : ConsumerState) : bool * ConsumerState :=
  let ts := match claimedAt with Some ts => ts | None => t0 end in
  writeOp w (OpRestorePending offset consumerID ts deliveryCount)
    (applyRestorePending offset consumerID ts deliveryCount cs).

Definition RestoreAckFloor (t0 t1 : Z) (w : WriteResult) (floor : Z) (cs : ConsumerState) :
    bool * ConsumerState :=
  writeOp w (OpAdvanceFloor floor t1) (applyAdvanceFloor t0 floor cs).

(** The write loop of [DeliverBatch]: it stops at the first failure. *)
Fixpoint write_delivers (w : nat → WriteResult) (offsets : list Z) (consumerID : string) (ts : Z)
    (cs : ConsumerState) : bool * ConsumerState :=
  match offsets with
  | [] => (true, cs)
  | offset :: offsets =>
      let '(ok, cs) := writeOp (w O) (OpDeliver offset consumerID ts) cs in
      if ok then write_delivers (λ i, w (S i)) offsets consumerID ts cs else (false, cs)
  end.

Definition DeliverBatch (t0 : Z) (w : nat → WriteResult) (offsets : list Z) (consumerID : string)
    (cs : ConsumerState) : bool * ConsumerState :=
  write_delivers w offsets consumerID t0 (deliver_each offsets consumerID t0 cs).

Definition Ack (t0 t1 : Z) (w : WriteResult) (offset : Z) (cs : ConsumerState) :
    bool * ConsumerState :=
  writeOp w (OpAck offset t1) (applyAck t0 offset cs).

Definition AckBatch (now : nat → Z) (t1 : Z) (w : WriteResult) (offsets : list Z)
    (cs : ConsumerState) : bool * ConsumerState :=
  writeOp w (OpAckBatch offsets t1) (ack_each now offsets cs).

Definition NackAt (w : WriteResult) (offset attemptedAt : Z) (cs : ConsumerState) :
    bool * ConsumerState :=
  writeOp w (OpNack offset attemptedAt) (applyNack offset attemptedAt cs).

Definition Nack (t0 : Z) (w : WriteResult) (offset : Z) (cs : ConsumerState) :
    bool * ConsumerState := NackAt w offset t0 cs.

Definition ReleaseAt (w : WriteResult) (offset attemptedAt : Z) (cs : ConsumerState) :
    bool * ConsumerState :=
  writeOp w (OpRelease offset attemptedAt) (applyRelease offset attemptedAt cs).

Definition Claim (t0 : Z) (w : WriteResult) (offset : Z) (newConsumerID : string)
    (cs : ConsumerState) : bool * ConsumerState :=
  writeOp w (OpClaim offset newConsumerID t0) (applyClaim offset newConsumerID t0 cs).

Definition ClaimBatch (t0 : Z) (w : WriteResult) (offsets : list Z) (newConsumerID : string)
    (cs : ConsumerState) : bool * ConsumerState :=
  writeOp w (OpClaimBatch offsets newConsumerID t0) (claim_each offsets newConsumerID t0 cs).

Definition SetCursor (t0 : Z) (w : WriteResult) (cursor : Z) (cs : ConsumerState) :
    bool * ConsumerState :=
  writeOp w (OpSetCursor cursor t0) (applySetCursor cursor t0 cs).

(** ** Queries *)

Definition GetGroupState (cs : ConsumerState) : GroupState := state cs.
Definition GetPending (offset : Z) (cs : ConsumerState) : option PendingEntry := entry_at offset cs.
Definition NumShards (cs : ConsumerState) : nat := length (pelShards cs).

(** The entries of one consumer in one shard; [walk] is the order in which the
    set of offsets is walked. *)
Definition consumer_entries (walk : gset Z → list Z) (consumerID : string) (shard : PELShard) :
    list PendingEntry :=
  match byConsumer shard !! consumerID with
  | None => []
  | Some offsets => omap (λ offset, entries shard !! offset) (walk offsets)
  end.

Definition GetPendingByConsumer (walk : gset Z → list Z) (consumerID : string)
    (cs : ConsumerState) : list PendingEntry :=
  concat (consumer_entries walk consumerID <$> pelShards cs).

(** [order] lists the entries of a shard as the map is walked. *)
Definition GetPendingByShard (order : PELShard → list PendingEntry) (shardID : Z)
    (cs : ConsumerState) : list PendingEntry :=
  if (shardID <? 0) || (Z.of_nat (length (pelShards cs)) <=? shardID) then []
  else match pelShards cs !! Z.to_nat shardID with Some shard => order shard | None => [] end.

(** Entries that satisfy [p] are appended until [maxCount] is reached. *)
Fixpoint collect (p : PendingEntry → bool) (maxCount : Z) (l result : list PendingEntry) :
    list PendingEntry * bool :=
  match l with
  | [] => (result, false)
  | entry :: l =>
      if p entry then
        let result := result ++ [entry] in
        if maxCount <=? Z.of_nat (length result) then (result, true)
        else collect p maxCount l result
      else collect p maxCount l result
  end.

Fixpoint collect_shards (p : PendingEntry → bool) (maxCount : Z)
    (order : PELShard → list PendingEntry) (shards : list PELShard) (result : list PendingEntry) :
    list PendingEntry :=
  match shards with
  | [] => result
  | shard :: shards =>
      let '(result, full) := collect p maxCount (order shard) result in
      if full then result else collect_shards p maxCount order shards result
  end.

(** [make] with a negative capacity panics. *)
Definition GetRedeliveryCandidates (order : PELShard → list PendingEntry)
    (shardID cutoff maxCount : Z) (cs : ConsumerState) : outcome unit (list PendingEntry) :=
  if (shardID <? 0) || (Z.of_nat (length (pelShards cs)) <=? shardID) then Ret []
  else if maxCount <? 0 then Panic
  else match pelShards cs !! Z.to_nat shardID with
       | Some shard => Ret (collect (λ e, LastAttempt e <? cutoff) maxCount (order shard) []).1
       | None => Panic
       end.

Definition GetAllRedeliveryCandidates (order : PELShard → list PendingEntry)
    (cutoff maxCount : Z) (cs : ConsumerState) : outcome unit (list PendingEntry) :=
  if maxCount <? 0 then Panic
  else Ret (collect_shards (λ e, LastAttempt e <? cutoff) maxCount order (pelShards cs) []).

Definition GetDeadLetterCandidates (order : PELShard → list PendingEntry)
    (maxDeliveries maxCount : Z) (cs : ConsumerState) : outcome unit (list PendingEntry) :=
  if maxCount <? 0 then Panic
  else Ret (collect_shards (λ e, maxDeliveries <=? DeliveryCount e) maxCount order
              (pelShards cs) []).

Definition PendingCount (cs : ConsumerState) : Z :=
  foldr (λ shard n, Z.of_nat (size (entries shard)) + n) 0 (pelShards cs).
Definition PendingCountByShard (cs : ConsumerState) : list (nat * Z) :=
  imap (λ i shard, (i, Z.of_nat (size (entries shard)))) (pelShards cs).

(** ** Snapshots

    [compactLocked] as the sequence of its file operations, each of which may
    fail: the state file, the shard files in order, the truncation.  [fails] is
    the position of the first failure; a crash before an operation leaves the
    same disk. *)
Definition save_state (now : Z) (cs : ConsumerState) : ConsumerState :=
  cs <| disk := (disk cs) <| stateFile := Some (mkStateSnapshot (snapVersion cs)
                                                  (Some (state cs)) now) |> |>.
Definition save_shard (now : Z) (i : nat) (cs : ConsumerState) : ConsumerState :=
  match pelShards cs !! i with
  | None => cs
  | Some shard =>
      cs <| disk := (disk cs) <| pelFiles := <[i := mkPELSnapshot (snapVersion cs) i
                                                     (entries shard) now]> (pelFiles (disk cs)) |> |>
         <| pelShards := <[i := shard <| shard_dirty := false |>]> (pelShards cs) |>
  end.
Definition truncate_log (cs : ConsumerState) : ConsumerState :=
  cs <| disk := (disk cs) <| opLog := [] |> |>.

Definition compact_ops (now : Z) (n : nat) : list (ConsumerState → ConsumerState) :=
  save_state now :: (save_shard now <$> seq 0 n) ++ [truncate_log].

Definition compactLocked (now t1 : Z) (fails : option nat) (cs : ConsumerState) :
    bool * ConsumerState :=
  let cs := cs <| snapVersion := u64 (snapVersion cs + 1) |> in
  let ops := compact_ops now (length (pelShards cs)) in
  let run ops := foldl (λ cs f, f cs) cs ops in
  match fails with
  | Some k => (false, run (take k ops))
  | None => (true, (run ops) <| opCount := 0 |> <| dirty := false |> <| lastSync := t1 |>)
  end.

Definition Compact := compactLocked.

(** [Close]: the flush is best effort. *)
Definition Close (now t1 : Z) (fails : option nat) (cs : ConsumerState) : ConsumerState :=
  if dirty cs then (compactLocked now t1 fails cs).2 else cs.

(** [load] on fresh shards: the index by consumer is rebuilt. *)
Definition rebuild (es : gmap Z PendingEntry) : PELShard :=
  mkPELShard es (map_fold (λ offset entry, index_add (ConsumerID entry) offset) ∅ es) false.

Definition load_group (cs : ConsumerState) : ConsumerState :=
  match stateFile (disk cs) with
  | None => cs
  | Some snap =>
      (match SSState snap with Some st => cs <| state := st |> | None => cs end)
        <| snapVersion := SSVersion snap |>
  end.
Definition load_pel (cs : ConsumerState) : ConsumerState :=
  cs <| pelShards := imap (λ i shard, match pelFiles (disk cs) !! i with
                                      | None => shard
                                      | Some snap => rebuild (PSEntries snap)
                                      end) (pelShards cs) |>.
Definition load (cs : ConsumerState) : ConsumerState := load_pel (load_group cs).

(** [replayOpLog]; [now] gives the clock for each record. *)
Fixpoint replay (now : nat → nat → Z) (items : list LogItem) (cs : ConsumerState) : ConsumerState :=
  match items with
  | [] => cs
  | Torn :: _ => cs
  | Rec op :: items =>
      let cs := applyOp (now O) op cs in
      replay (λ i, now (S i)) items (cs <| opCount := opCount cs + 1 |>)
  end.

Definition NewConsumerState (t0 t1 : Z) (now : nat → nat → Z) (d : Disk) : ConsumerState :=
  let cs := mkConsumerState (mkGroupState 0 0 0 t0 t0)
              (replicate (Z.to_nat NumPELShards) empty_shard) false t1 0 0 d in
  let cs := load cs in
  replay now (opLog d) cs.

End ops.
End ConsumerState.
