(* ===== verification/ConsumerStateFacts.v ===== *)
(** * Facts about the durable consumer state

    The operations of [ConsumerState] on the flat view of its shards, recovery
    from the operation log and the snapshots, the index by consumer, the
    acknowledgement floor and the redelivery candidates. *)

From Stdlib Require Import ZArith Lia Bool String.
From stdpp Require Import prelude gmap strings.
From S2P Require Import Prelude ConsumerState.

Module ConsumerStateFacts.
Import ConsumerState.

Section facts.
Context (N : Z) (HN : 0 < N).

(** ** Shards *)

(** One shard per residue. *)
Definition shape (cs : ConsumerState) : Prop := length (pelShards cs) = Z.to_nat N.

Lemma ShardKey_lt o : (ShardKey N o < Z.to_nat N)%nat.
Proof. unfold ShardKey. pose proof (Z.mod_pos_bound o N HN). lia. Qed.

Lemma shape_on_shard o f cs : shape cs → shape (on_shard N o f cs).
Proof. unfold shape. simpl. by rewrite length_alter. Qed.

Lemma shard_lookup o cs : shape cs → pelShards cs !! ShardKey N o = Some (shard_of N o cs).
Proof.
  intros Hs. unfold shard_of. destruct (pelShards cs !! ShardKey N o) eqn:E; [done|].
  apply lookup_ge_None in E. pose proof (ShardKey_lt o). unfold shape in Hs. lia.
Qed.

Lemma shard_of_on_shard o o' f cs : shape cs →
  shard_of N o (on_shard N o' f cs) =
  if decide (ShardKey N o = ShardKey N o') then f (shard_of N o' cs) else shard_of N o cs.
Proof.
  intros Hs. unfold shard_of at 1. simpl. case_decide as E.
  - rewrite E, list_lookup_alter_eq, (shard_lookup o' cs Hs). done.
  - rewrite list_lookup_alter_ne by done. done.
Qed.

(** An update of the entry of one offset is invisible at the others. *)
Lemma entry_at_on_shard o o' f cs : shape cs →
  (∀ sh k, k ≠ o' → entries (f sh) !! k = entries sh !! k) →
  entry_at N o (on_shard N o' f cs) =
  if decide (o = o') then entries (f (shard_of N o' cs)) !! o else entry_at N o cs.
Proof.
  intros Hs Hf. unfold entry_at. rewrite shard_of_on_shard by done.
  destruct (decide (o = o')) as [->|Ho]; [by rewrite decide_True|].
  case_decide as Hk; [|done]. rewrite Hf by done. unfold shard_of. by rewrite Hk.
Qed.

Lemma entry_at_state o cs st : entry_at N o (cs <| state := st |>) = entry_at N o cs.
Proof. done. Qed.

Lemma entry_at_tryAdvance o now cs : entry_at N o (tryAdvanceAckFloor N now cs) = entry_at N o cs.
Proof. unfold tryAdvanceAckFloor. by destruct (_ <? _). Qed.
Lemma shards_tryAdvance now cs : pelShards (tryAdvanceAckFloor N now cs) = pelShards cs.
Proof. unfold tryAdvanceAckFloor. by destruct (_ <? _). Qed.
Lemma cursor_tryAdvance now cs :
  Cursor (state (tryAdvanceAckFloor N now cs)) = Cursor (state cs).
Proof. unfold tryAdvanceAckFloor. by destruct (_ <? _). Qed.

(** ** The flat view

    What an operation does to the entry of one offset and to the cursor, with
    no mention of shards. *)

Definition nacked (ts : Z) (e : PendingEntry) : PendingEntry :=
  e <| DeliveryCount := u16 (DeliveryCount e + 1) |> <| LastAttempt := ts |>.
Definition claimed (c : string) (ts : Z) (e : PendingEntry) : PendingEntry :=
  e <| ConsumerID := c |> <| DeliveryCount := u16 (DeliveryCount e + 1) |> <| LastAttempt := ts |>.
Definition released (ts : Z) (e : PendingEntry) : PendingEntry := e <| LastAttempt := ts |>.

Definition at_offset (o o' : Z) (f : option PendingEntry → option PendingEntry) :
    option PendingEntry → option PendingEntry := if decide (o = o') then f else id.

Definition spec_entry (op : Operation) (o : Z) : option PendingEntry → option PendingEntry :=
  match op with
  | OpDeliver o' c ts => at_offset o o' (λ _, Some (mkPendingEntry o c ts 1 ts))
  | OpAck o' _ => at_offset o o' (λ _, None)
  | OpAckBatch os _ => if decide (o ∈ os) then λ _, None else id
  | OpNack o' ts => at_offset o o' (fmap (nacked ts))
  | OpClaim o' c ts => at_offset o o' (fmap (claimed c ts))
  | OpClaimBatch os c ts => λ x, foldl (λ x o', at_offset o o' (fmap (claimed c ts)) x) x os
  | OpAdvanceFloor _ _ | OpSetCursor _ _ => id
  | OpRestorePending o' c ts n =>
      at_offset o o' (λ _, Some (mkPendingEntry o c ts (if n =? 0 then 1 else n) ts))
  | OpRelease o' ts => at_offset o o' (fmap (released ts))
  end.

Definition spec_cursor (op : Operation) (c : Z) : Z :=
  match op with
  | OpDeliver o _ _ => if c <=? o then u64 (o + 1) else c
  | OpSetCursor c' _ => c'
  | _ => c
  end.

Ltac shard_op Hs :=
  rewrite entry_at_on_shard;
  [|exact Hs|intros; simpl; first [by rewrite lookup_insert_ne|by rewrite lookup_delete_ne]];
  cbn [spec_entry];
  unfold at_offset; case_decide; subst; simpl;
  rewrite ?lookup_insert_eq, ?lookup_delete_eq; try done.

Lemma deliver_view o c ts cs o' : shape cs →
  entry_at N o' (applyDeliver N o c ts cs) = spec_entry (OpDeliver o c ts) o' (entry_at N o' cs).
Proof. intros Hs. unfold applyDeliver. cbv zeta. by shard_op Hs. Qed.

Lemma restore_view o c ts n cs o' : shape cs →
  entry_at N o' (applyRestorePending N o c ts n cs) =
  spec_entry (OpRestorePending o c ts n) o' (entry_at N o' cs).
Proof. intros Hs. unfold applyRestorePending. cbv zeta. rewrite entry_at_state. by shard_op Hs. Qed.

Lemma ack_view now o ts cs o' : shape cs →
  entry_at N o' (applyAck N now o cs) = spec_entry (OpAck o ts) o' (entry_at N o' cs).
Proof.
  intros Hs. unfold applyAck. destruct (entry_at N o cs) as [e|] eqn:E.
  - rewrite entry_at_tryAdvance. by shard_op Hs.
  - simpl. unfold at_offset. case_decide; by subst.
Qed.

Lemma nack_view o ts cs o' : shape cs →
  entry_at N o' (applyNack N o ts cs) = spec_entry (OpNack o ts) o' (entry_at N o' cs).
Proof.
  intros Hs. unfold applyNack. destruct (entry_at N o cs) as [e|] eqn:E.
  - shard_op Hs. by rewrite E.
  - simpl. unfold at_offset. case_decide; subst; by rewrite ?E.
Qed.

Lemma release_view o ts cs o' : shape cs →
  entry_at N o' (applyRelease N o ts cs) = spec_entry (OpRelease o ts) o' (entry_at N o' cs).
Proof.
  intros Hs. unfold applyRelease. destruct (entry_at N o cs) as [e|] eqn:E.
  - shard_op Hs. by rewrite E.
  - simpl. unfold at_offset. case_decide; subst; by rewrite ?E.
Qed.

Lemma claim_view o c ts cs o' : shape cs →
  entry_at N o' (applyClaim N o c ts cs) = spec_entry (OpClaim o c ts) o' (entry_at N o' cs).
Proof.
  intros Hs. unfold applyClaim. destruct (entry_at N o cs) as [e|] eqn:E.
  - shard_op Hs. by rewrite E.
  - simpl. unfold at_offset. case_decide; subst; by rewrite ?E.
Qed.

Lemma shape_ack now o cs : shape cs → shape (applyAck N now o cs).
Proof.
  intros Hs. unfold applyAck. destruct (entry_at N o cs); [|done].
  unfold shape. rewrite shards_tryAdvance. by apply shape_on_shard.
Qed.
Lemma shape_claim o c ts cs : shape cs → shape (applyClaim N o c ts cs).
Proof. intros Hs. unfold applyClaim. destruct (entry_at N o cs); [|done]. by apply shape_on_shard. Qed.
Lemma shape_nack o ts cs : shape cs → shape (applyNack N o ts cs).
Proof. intros Hs. unfold applyNack. destruct (entry_at N o cs); [|done]. by apply shape_on_shard. Qed.
Lemma shape_release o ts cs : shape cs → shape (applyRelease N o ts cs).
Proof. intros Hs. unfold applyRelease. destruct (entry_at N o cs); [|done]. by apply shape_on_shard. Qed.
Lemma shape_deliver o c ts cs : shape cs → shape (applyDeliver N o c ts cs).
Proof. intros Hs. unfold applyDeliver. by apply shape_on_shard. Qed.

Lemma ack_each_view ts os : ∀ now cs, shape cs →
  shape (ack_each N now os cs) ∧
  ∀ o, entry_at N o (ack_each N now os cs) = spec_entry (OpAckBatch os ts) o (entry_at N o cs).
Proof.
  induction os as [|o' os IH]; intros now cs Hs; simpl; [done|].
  destruct (IH (λ i, now (S i)) (applyAck N (now O) o' cs)) as [H1 H2]; [by apply shape_ack|].
  split; [done|]. intros o. rewrite H2, (ack_view _ _ ts) by done. simpl. unfold at_offset.
  repeat case_decide; set_solver.
Qed.

Lemma claim_each_view os c ts : ∀ cs, shape cs →
  shape (claim_each N os c ts cs) ∧
  ∀ o, entry_at N o (claim_each N os c ts cs) = spec_entry (OpClaimBatch os c ts) o (entry_at N o cs).
Proof.
  unfold claim_each. simpl. induction os as [|o' os IH]; intros cs Hs; simpl; [done|].
  destruct (IH (applyClaim N o' c ts cs)) as [H1 H2]; [by apply shape_claim|].
  split; [done|]. intros o. by rewrite H2, claim_view.
Qed.

(** Sharding is transparent. *)
Lemma applyOp_view now op cs : shape cs →
  shape (applyOp N now op cs) ∧
  ∀ o, entry_at N o (applyOp N now op cs) = spec_entry op o (entry_at N o cs).
Proof.
  intros Hs. destruct op; simpl.
  - split; [by apply shape_deliver|intros; by apply deliver_view].
  - split; [by apply shape_ack|intros; by eapply (ack_view _ _ ts)].
  - by apply (ack_each_view ts).
  - split; [by apply shape_nack|intros; by apply nack_view].
  - split; [by apply shape_claim|intros; by apply claim_view].
  - by apply claim_each_view.
  - unfold applyAdvanceFloor. by destruct (_ <? _).
  - done.
  - split; [by apply shape_on_shard|intros; by apply restore_view].
  - split; [by apply shape_release|intros; by apply release_view].
Qed.

(** ** What the disk can restore *)

(** Two states with the same floor, cursor, count and entries. *)
Definition agree (cs1 cs2 : ConsumerState) : Prop :=
  AckFloor (state cs1) = AckFloor (state cs2) ∧ Cursor (state cs1) = Cursor (state cs2) ∧
  Delivered (state cs1) = Delivered (state cs2) ∧
  entries <$> pelShards cs1 = entries <$> pelShards cs2.

#[local] Instance agree_equiv : Equivalence agree.
Proof. unfold agree. split; red; intros; destruct_and?; split_and!; congruence. Qed.

Lemma entry_at_entries o cs :
  entry_at N o cs = (entries <$> pelShards cs) !! ShardKey N o ≫= lookup o.
Proof.
  unfold entry_at, shard_of. rewrite list_lookup_fmap.
  destruct (pelShards cs !! ShardKey N o); simpl; [done|]. apply lookup_empty.
Qed.

Lemma agree_entry o cs1 cs2 : agree cs1 cs2 → entry_at N o cs1 = entry_at N o cs2.
Proof. intros (_ & _ & _ & H). by rewrite !entry_at_entries, H. Qed.

(** An update of one shard that reads only its entries. *)
Lemma agree_on_shard o f1 f2 g cs1 cs2 : agree cs1 cs2 →
  (∀ sh, entries (f1 sh) = g (entries sh)) → (∀ sh, entries (f2 sh) = g (entries sh)) →
  agree (on_shard N o f1 cs1) (on_shard N o f2 cs2).
Proof.
  intros (Hf & Hc & Hd & H) H1 H2. split_and!; [done..|]. simpl.
  rewrite (list_fmap_alter entries f1 g) by (by apply Forall_forall).
  rewrite (list_fmap_alter entries f2 g) by (by apply Forall_forall). by rewrite H.
Qed.

Lemma agree_put o e cs1 cs2 : agree cs1 cs2 →
  agree (on_shard N o (put_entry e) cs1) (on_shard N o (put_entry e) cs2).
Proof. intros Ha. by apply (agree_on_shard o _ _ (<[Offset e := e]>)). Qed.

Lemma agree_floor_loop cs1 cs2 : agree cs1 cs2 → ∀ fuel o f,
  floor_loop N fuel o f cs1 = floor_loop N fuel o f cs2.
Proof.
  intros Ha fuel. induction fuel as [|fuel IH]; intros o f; simpl; [done|].
  rewrite (agree_entry o cs1 cs2 Ha). destruct Ha as (_ & -> & _). by rewrite IH.
Qed.

Lemma agree_tryAdvance n1 n2 cs1 cs2 : agree cs1 cs2 →
  agree (tryAdvanceAckFloor N n1 cs1) (tryAdvanceAckFloor N n2 cs2).
Proof.
  intros Ha. unfold tryAdvanceAckFloor. cbv zeta. rewrite (agree_floor_loop cs1 cs2 Ha).
  pose proof Ha as (Hf & Hc & Hd & He). rewrite Hf, Hc. by destruct (_ <? _).
Qed.

Lemma agree_ack n1 n2 o cs1 cs2 : agree cs1 cs2 →
  agree (applyAck N n1 o cs1) (applyAck N n2 o cs2).
Proof.
  intros Ha. unfold applyAck. rewrite (agree_entry o cs1 cs2 Ha).
  destruct (entry_at N o cs2); [|done]. apply agree_tryAdvance.
  by apply (agree_on_shard o _ _ (delete o)).
Qed.

Lemma agree_claim o c ts cs1 cs2 : agree cs1 cs2 →
  agree (applyClaim N o c ts cs1) (applyClaim N o c ts cs2).
Proof.
  intros Ha. unfold applyClaim. rewrite (agree_entry o cs1 cs2 Ha).
  destruct (entry_at N o cs2) as [e|]; [|done].
  by apply (agree_on_shard o _ _ (<[o := claimed c ts e]>)).
Qed.

Lemma agree_ack_each os : ∀ n1 n2 cs1 cs2, agree cs1 cs2 →
  agree (ack_each N n1 os cs1) (ack_each N n2 os cs2).
Proof. induction os; intros; simpl; [done|]. by apply IHos, agree_ack. Qed.

Lemma agree_claim_each os c ts : ∀ cs1 cs2, agree cs1 cs2 →
  agree (claim_each N os c ts cs1) (claim_each N os c ts cs2).
Proof. unfold claim_each. induction os; intros; simpl; [done|]. by apply IHos, agree_claim. Qed.

(** Operations are functions of what [agree] compares; the clock only reaches
    the time of the last update. *)
Lemma agree_op n1 n2 op cs1 cs2 : agree cs1 cs2 → agree (applyOp N n1 op cs1) (applyOp N n2 op cs2).
Proof.
  intros Ha. pose proof Ha as (Hf & Hc & Hd & He). destruct op; simpl.
  - unfold applyDeliver. cbv zeta. apply agree_put. simpl. rewrite Hc. destruct (_ <=? _); split_and!; simpl; congruence.
  - by apply agree_ack.
  - by apply agree_ack_each.
  - unfold applyNack. rewrite (agree_entry offset cs1 cs2 Ha).
    destruct (entry_at N offset cs2) as [e|]; [|done].
    by apply (agree_on_shard offset _ _ (<[offset := nacked ts e]>)).
  - by apply agree_claim.
  - by apply agree_claim_each.
  - unfold applyAdvanceFloor. rewrite Hf. destruct (_ <? _); [|done]. by split_and!.
  - by split_and!.
  - unfold applyRestorePending. cbv zeta.
    destruct (agree_put offset (mkPendingEntry offset consumerID ts
      (if deliveryCount =? 0 then 1 else deliveryCount) ts) cs1 cs2 Ha) as (? & ? & ? & ?).
    by split_and!.
  - unfold applyRelease. rewrite (agree_entry offset cs1 cs2 Ha).
    destruct (entry_at N offset cs2) as [e|]; [|done].
    by apply (agree_on_shard offset _ _ (<[offset := released ts e]>)).
Qed.

(** A run of operations, and the replay of a log that holds them. *)
Fixpoint apply_ops (now : nat → nat → Z) (ops : list Operation) (cs : ConsumerState) :
    ConsumerState :=
  match ops with
  | [] => cs
  | op :: ops => apply_ops (λ i, now (S i)) ops (applyOp N (now O) op cs)
  end.

Lemma agree_ops ops : ∀ n1 n2 cs1 cs2, agree cs1 cs2 →
  agree (apply_ops n1 ops cs1) (apply_ops n2 ops cs2).
Proof. induction ops; intros; simpl; [done|]. by apply IHops, agree_op. Qed.

Lemma agree_replay ops : ∀ n1 n2 cs1 cs2, agree cs1 cs2 →
  agree (replay N n1 (Rec <$> ops) cs1) (apply_ops n2 ops cs2).
Proof.
  induction ops as [|op ops IH]; intros; simpl; [done|]. apply IH.
  destruct (agree_op (n1 O) (n2 O) op cs1 cs2) as (? & ? & ? & ?); [done|]. by split_and!.
Qed.

Lemma agree_apply_app ops ops' : ∀ now now' cs,
  agree (apply_ops now (ops ++ ops') cs) (apply_ops now' ops' (apply_ops now ops cs)).
Proof.
  induction ops as [|op ops IH]; intros now now' cs; simpl; [by apply agree_ops|].
  by rewrite IH.
Qed.

(** ** Replaying operations that are already in the snapshot

    Up to the delivery count, an operation either replaces the entry of an
    offset or overwrites its owner and last attempt; a run of operations
    therefore does the same, and a second run changes nothing. *)

Definition Look : Type := Z * string * Z * Z.
Definition look (e : PendingEntry) : Look :=
  (Offset e, ConsumerID e, DeliveredAt e, LastAttempt e).
Definition overwrite (c : option string) (t : option Z) (l : Look) : Look :=
  let '(o, c0, d, t0) := l in (o, default c0 c, d, default t0 t).

Definition absorbing (f : option Look → option Look) : Prop :=
  (∃ v, ∀ x, f x = v) ∨ (∃ c t, ∀ x, f x = overwrite c t <$> x).

Lemma overwrite_comp c1 t1 c2 t2 x :
  overwrite c2 t2 (overwrite c1 t1 x) =
  overwrite (from_option Some c1 c2) (from_option Some t1 t2) x.
Proof. destruct x as [[[o c] d] t]. by destruct c1, c2, t1, t2. Qed.

Lemma absorbing_id : absorbing id.
Proof. right. exists None, None. by intros [[[[o c] d] t]|]. Qed.

Lemma absorbing_comp f g : absorbing f → absorbing g → absorbing (g ∘ f).
Proof.
  intros Hf [[v Hv]|(c2 & t2 & Hg)]; [left; exists v; intros; apply Hv|].
  destruct Hf as [[v Hv]|(c1 & t1 & Hf)].
  - left. exists (overwrite c2 t2 <$> v). intros x. simpl. by rewrite Hg, Hv.
  - right. exists (from_option Some c1 c2), (from_option Some t1 t2). intros x. simpl.
    rewrite Hg, Hf. destruct x; simpl; [by rewrite overwrite_comp|done].
Qed.

Lemma absorbing_twice f x : absorbing f → f (f x) = f x.
Proof.
  intros [[v Hv]|(c & t & Hf)]; [by rewrite !Hv|]. rewrite !Hf.
  destruct x as [[[[o c0] d] t0]|]; simpl; [|done]. by destruct c, t.
Qed.

(** The operation on what [look] keeps. *)
Definition look_at (o o' : Z) (f : option Look → option Look) : option Look → option Look :=
  if decide (o = o') then f else id.
Definition spec_look (op : Operation) (o : Z) : option Look → option Look :=
  match op with
  | OpDeliver o' c ts => look_at o o' (λ _, Some (o, c, ts, ts))
  | OpAck o' _ => look_at o o' (λ _, None)
  | OpAckBatch os _ => if decide (o ∈ os) then λ _, None else id
  | OpNack o' ts => look_at o o' (fmap (overwrite None (Some ts)))
  | OpClaim o' c ts => look_at o o' (fmap (overwrite (Some c) (Some ts)))
  | OpClaimBatch os c ts =>
      if decide (o ∈ os) then fmap (overwrite (Some c) (Some ts)) else id
  | OpAdvanceFloor _ _ | OpSetCursor _ _ => id
  | OpRestorePending o' c ts n => look_at o o' (λ _, Some (o, c, ts, ts))
  | OpRelease o' ts => look_at o o' (fmap (overwrite None (Some ts)))
  end.

Lemma spec_look_absorbing op o : absorbing (spec_look op o).
Proof.
  assert (Hc : ∀ v, absorbing (λ _, v)) by (intros v; left; by exists v).
  assert (Hw : ∀ c t, absorbing (fmap (overwrite c t))) by (intros c t; right; by exists c, t).
  destruct op; simpl; unfold look_at; try case_decide; try apply absorbing_id; auto.
Qed.

Lemma look_claims o os c ts : ∀ x,
  look <$> foldl (λ x o', at_offset o o' (fmap (claimed c ts)) x) x os =
  (if decide (o ∈ os) then fmap (overwrite (Some c) (Some ts)) else id) (look <$> x).
Proof.
  induction os as [|o' os IH]; intros x; [done|]. cbn [foldl].
  rewrite IH. unfold at_offset. repeat case_decide; subst; simpl; try set_solver.
  - destruct x as [[]|]; done.
  - destruct x as [[]|]; done.
Qed.

Lemma spec_entry_look op o x : look <$> spec_entry op o x = spec_look op o (look <$> x).
Proof.
  destruct op; simpl; unfold at_offset, look_at; try (case_decide; [|done]);
    try (by destruct x as [[]|]); try done. apply look_claims.
Qed.

Definition spec_looks (ops : list Operation) (o : Z) (x : option Look) : option Look :=
  foldl (λ x op, spec_look op o x) x ops.

Lemma spec_looks_absorbing ops o : absorbing (spec_looks ops o).
Proof.
  unfold spec_looks. induction ops as [|op ops IH] using rev_ind; [apply absorbing_id|].
  pose proof (absorbing_comp _ _ IH (spec_look_absorbing op o)) as [[v Hv]|(c & t & Hf)].
  - left. exists v. intros x. rewrite foldl_app. apply Hv.
  - right. exists c, t. intros x. rewrite foldl_app. apply Hf.
Qed.

(** The cursor: set, or raised to a bound. *)
Definition op_ok (op : Operation) : Prop :=
  match op with OpDeliver o _ _ => 0 <= o < 2 ^ 64 - 1 | _ => True end.

Definition raising (f : Z → Z) : Prop :=
  (∃ v, ∀ x, f x = v) ∨ (∃ k : option Z, ∀ x, f x = from_option (Z.max x) x k).

Lemma raising_comp f g : raising f → raising g → raising (g ∘ f).
Proof.
  intros Hf [[v Hv]|(k2 & Hg)]; [left; exists v; intros; apply Hv|].
  destruct Hf as [[v Hv]|(k1 & Hf)].
  - left. exists (from_option (Z.max v) v k2). intros x. simpl. by rewrite Hg, Hv.
  - right. exists (match k1, k2 with Some a, Some b => Some (Z.max a b)
                   | None, k | k, None => k end).
    intros x. simpl. rewrite Hg, Hf. destruct k1, k2; simpl; lia.
Qed.

Lemma raising_twice f x : raising f → f (f x) = f x.
Proof.
  intros [[v Hv]|(k & Hf)]; [by rewrite !Hv|]. rewrite !Hf. destruct k; simpl; lia.
Qed.

Lemma spec_cursor_raising op : op_ok op → raising (spec_cursor op).
Proof.
  intros Hok. destruct op; simpl in *; try (by right; exists None); [|by left; exists offset].
  right. exists (Some (offset + 1)). intros x. simpl. rewrite u64_small by lia.
  destruct (x <=? offset) eqn:E; bool_prop; lia.
Qed.

Definition spec_cursors (ops : list Operation) (c : Z) : Z := foldl (λ c op, spec_cursor op c) c ops.

Lemma spec_cursors_raising ops : Forall op_ok ops → raising (spec_cursors ops).
Proof.
  unfold spec_cursors. induction ops as [|op ops IH] using rev_ind; intros Hok.
  { right. by exists None. }
  apply Forall_app in Hok as [H1 H2]. apply Forall_inv in H2.
  pose proof (raising_comp _ _ (IH H1) (spec_cursor_raising op H2)) as [[v Hv]|(k & Hf)].
  - left. exists v. intros x. rewrite foldl_app. apply Hv.
  - right. exists k. intros x. rewrite foldl_app. apply Hf.
Qed.

(** ** The contents of the disk *)

Definition file_state (d : Disk) : option GroupState := stateFile d ≫= SSState.
Definition file_entries (d : Disk) (i : nat) : option (gmap Z PendingEntry) :=
  PSEntries <$> pelFiles d !! i.

(** What the snapshots alone say of an offset and of the cursor. *)
Definition base_look (d : Disk) (o : Z) : option Look :=
  look <$> (file_entries d (ShardKey N o) ≫= lookup o).
Definition base_cursor (d : Disk) : Z := default 0 (Cursor <$> file_state d).

Definition fresh (t0 t1 : Z) (d : Disk) : ConsumerState :=
  mkConsumerState (mkGroupState 0 0 0 t0 t0) (replicate (Z.to_nat N) empty_shard) false t1 0 0 d.

Lemma NewConsumerState_eq t0 t1 now d :
  NewConsumerState N t0 t1 now d = replay N now (opLog d) (load (fresh t0 t1 d)).
Proof. done. Qed.

Lemma load_group_rest cs :
  pelShards (load_group cs) = pelShards cs ∧ disk (load_group cs) = disk cs.
Proof. unfold load_group. by destruct (stateFile (disk cs)) as [[? [] ?]|]. Qed.

Lemma load_shards cs :
  entries <$> pelShards (load cs) =
  imap (λ i es, default es (file_entries (disk cs) i)) (entries <$> pelShards cs).
Proof.
  apply list_eq. intros i. unfold load, load_pel, file_entries. simpl.
  rewrite list_lookup_imap, !list_lookup_fmap, list_lookup_imap.
  destruct (load_group_rest cs) as [-> ->].
  destruct (pelShards cs !! i); simpl; [|done]. by destruct (pelFiles (disk cs) !! i).
Qed.

Lemma load_state cs : state (load cs) = default (state cs) (file_state (disk cs)).
Proof.
  unfold load, load_pel, load_group, file_state. simpl.
  by destruct (stateFile (disk cs)) as [[? [] ?]|].
Qed.

Lemma load_disk cs : disk (load cs) = disk cs.
Proof. apply load_group_rest. Qed.

Lemma agree_shape cs1 cs2 : agree cs1 cs2 → shape cs1 → shape cs2.
Proof.
  intros (_ & _ & _ & H) Hs. unfold shape. apply (f_equal length) in H.
  rewrite !length_fmap in H. congruence.
Qed.

Lemma load_shape t0 t1 d : shape (load (fresh t0 t1 d)).
Proof.
  pose proof (load_shards (fresh t0 t1 d)) as H. apply (f_equal length) in H.
  rewrite length_imap, !length_fmap in H. unfold shape. rewrite H. simpl.
  by rewrite length_replicate.
Qed.

Lemma load_look t0 t1 d o : look <$> entry_at N o (load (fresh t0 t1 d)) = base_look d o.
Proof.
  rewrite entry_at_entries, load_shards, list_lookup_imap, list_lookup_fmap. simpl.
  rewrite lookup_replicate_2 by apply ShardKey_lt. simpl. unfold base_look.
  destruct (file_entries d (ShardKey N o)); simpl; [done|]. by rewrite lookup_empty.
Qed.

Lemma load_cursor t0 t1 d : Cursor (state (load (fresh t0 t1 d))) = base_cursor d.
Proof. rewrite load_state. unfold base_cursor. simpl. by destruct (file_state d). Qed.

(** ** Operations leave the disk to the log *)

Lemma claim_disk o c ts cs : disk (applyClaim N o c ts cs) = disk cs.
Proof. unfold applyClaim. by destruct (entry_at N o cs). Qed.
Lemma ack_disk now o cs : disk (applyAck N now o cs) = disk cs.
Proof.
  unfold applyAck, tryAdvanceAckFloor. destruct (entry_at N o cs); [|done]. by destruct (_ <? _).
Qed.
Lemma ack_cursor now o cs : Cursor (state (applyAck N now o cs)) = Cursor (state cs).
Proof. unfold applyAck. destruct (entry_at N o cs); [|done]. by rewrite cursor_tryAdvance. Qed.
Lemma claim_cursor o c ts cs : Cursor (state (applyClaim N o c ts cs)) = Cursor (state cs).
Proof. unfold applyClaim. by destruct (entry_at N o cs). Qed.

Lemma ack_each_rest os : ∀ now cs, disk (ack_each N now os cs) = disk cs ∧
  Cursor (state (ack_each N now os cs)) = Cursor (state cs).
Proof.
  induction os as [|o os IH]; intros now cs; simpl; [done|].
  destruct (IH (λ i, now (S i)) (applyAck N (now O) o cs)) as [-> ->].
  by rewrite ack_disk, ack_cursor.
Qed.
Lemma claim_each_rest os c ts : ∀ cs, disk (claim_each N os c ts cs) = disk cs ∧
  Cursor (state (claim_each N os c ts cs)) = Cursor (state cs).
Proof.
  unfold claim_each. induction os as [|o os IH]; intros cs; simpl; [done|].
  destruct (IH (applyClaim N o c ts cs)) as [-> ->]. by rewrite claim_disk, claim_cursor.
Qed.

Lemma applyOp_rest now op cs : disk (applyOp N now op cs) = disk cs ∧
  Cursor (state (applyOp N now op cs)) = spec_cursor op (Cursor (state cs)).
Proof.
  destruct op; simpl.
  - unfold applyDeliver. split; [done|]. simpl. by destruct (_ <=? _).
  - by rewrite ack_disk, ack_cursor.
  - apply ack_each_rest.
  - unfold applyNack. by destruct (entry_at N offset cs).
  - by rewrite claim_disk, claim_cursor.
  - apply claim_each_rest.
  - unfold applyAdvanceFloor. by destruct (_ <? _).
  - done.
  - done.
  - unfold applyRelease. by destruct (entry_at N offset cs).
Qed.

Lemma replay_view ops : ∀ now cs, shape cs →
  shape (replay N now (Rec <$> ops) cs) ∧ disk (replay N now (Rec <$> ops) cs) = disk cs ∧
  Cursor (state (replay N now (Rec <$> ops) cs)) = spec_cursors ops (Cursor (state cs)) ∧
  ∀ o, look <$> entry_at N o (replay N now (Rec <$> ops) cs) =
       spec_looks ops o (look <$> entry_at N o cs).
Proof.
  induction ops as [|op ops IH]; intros now cs Hs; [done|]. cbn [fmap list_fmap replay]. cbv zeta.
  destruct (applyOp_view (now O) op cs Hs) as [Hs' Hv].
  destruct (applyOp_rest (now O) op cs) as [Hd Hc].
  set (cs1 := applyOp N (now O) op cs <| opCount := _ |>).
  destruct (IH (λ i, now (S i)) cs1 Hs') as (H1 & H2 & H3 & H4).
  split_and!; [done|by rewrite H2|by rewrite H3; simpl; rewrite Hc|].
  intros o. rewrite H4. simpl. by rewrite <-spec_entry_look, <-Hv.
Qed.

(** ** Compaction *)

Lemma save_shards_spec now k : ∀ cs, (k ≤ length (pelShards cs))%nat →
  let cs' := foldl (λ cs f, f cs) cs (save_shard now <$> seq 0 k) in
  entries <$> pelShards cs' = entries <$> pelShards cs ∧ state cs' = state cs ∧
  stateFile (disk cs') = stateFile (disk cs) ∧ opLog (disk cs') = opLog (disk cs) ∧
  ∀ i, file_entries (disk cs') i =
       if decide (i < k)%nat then (entries <$> pelShards cs) !! i else file_entries (disk cs) i.
Proof.
  induction k as [|k IH]; intros cs Hk; [done|]. cbv zeta. rewrite seq_S, fmap_app, foldl_app.
  destruct (IH cs) as (H1 & H2 & H3 & H4 & H5); [lia|]. simpl.
  set (cs1 := foldl _ cs _) in *. unfold save_shard.
  assert (∃ sh, pelShards cs1 !! k = Some sh) as [sh Hsh].
  { apply lookup_lt_is_Some. apply (f_equal length) in H1. rewrite !length_fmap in H1. lia. }
  rewrite Hsh. simpl. split_and!; [|done..|].
  - rewrite <-H1, list_fmap_insert. apply list_insert_id. by rewrite list_lookup_fmap, Hsh.
  - intros i. unfold file_entries. simpl. destruct (decide (i = k)) as [->|Hi].
    + rewrite lookup_insert_eq, decide_True by lia. simpl.
      by rewrite <-H1, list_lookup_fmap, Hsh.
    + rewrite lookup_insert_ne by done. fold (file_entries (disk cs1) i). rewrite H5.
      repeat case_decide; (done || lia).
Qed.

(** The disk a compaction leaves, whether it completes or stops at [k]. *)
Lemma compact_disk now t1 fails cs : let cs' := (compactLocked now t1 fails cs).2 in
  agree cs' cs ∧
  ((opLog (disk cs') = [] ∧ file_state (disk cs') = Some (state cs) ∧
    ∀ i, (i < length (pelShards cs))%nat →
      file_entries (disk cs') i = (entries <$> pelShards cs) !! i) ∨
   (is_Some fails ∧ opLog (disk cs') = opLog (disk cs) ∧
    (file_state (disk cs') = file_state (disk cs) ∨ file_state (disk cs') = Some (state cs)) ∧
    ∀ i, file_entries (disk cs') i = file_entries (disk cs) i ∨
         file_entries (disk cs') i = (entries <$> pelShards cs) !! i)).
Proof.
  cbv zeta. unfold compactLocked. set (cs0 := cs <| snapVersion := _ |>).
  set (n := length (pelShards cs0)).
  set (cs1 := save_state now cs0).
  assert (Hpre : ∀ k, (k ≤ n)%nat → let cs' := foldl (λ cs f, f cs) cs1 (save_shard now <$> seq 0 k) in
    agree cs' cs ∧ opLog (disk cs') = opLog (disk cs) ∧ file_state (disk cs') = Some (state cs) ∧
    ∀ i, file_entries (disk cs') i = if decide (i < k)%nat then (entries <$> pelShards cs) !! i
                                     else file_entries (disk cs) i).
  { intros k Hk. cbv zeta. destruct (save_shards_spec now k cs1) as (H1 & H2 & H3 & H4 & H5); [done|].
    cbv zeta in *. set (cs' := foldl _ cs1 _) in *.
    split_and!; [unfold agree; by rewrite H1, H2|done|unfold file_state; by rewrite H3|done]. }
  destruct (Hpre n) as (Ha & Hl & Hf & He); [lia|].
  assert (Hfull : ∀ i, (i < length (pelShards cs))%nat →
    file_entries (disk (foldl (λ cs f, f cs) cs1 (save_shard now <$> seq 0 n))) i =
    (entries <$> pelShards cs) !! i).
  { intros i Hi. rewrite He, decide_True by done. done. }
  destruct fails as [[|k]|]; simpl.
  - split; [done|]. right. split_and!; [by eexists|done|by left|by left].
  - destruct (decide (k ≤ n)%nat) as [Hk|Hk].
    + rewrite take_app_le, <-fmap_take by (rewrite length_fmap, length_seq; done).
      rewrite take_seq, Nat.min_l by done. destruct (Hpre k Hk) as (Ha' & Hl' & Hf' & He').
      split; [done|]. right. split_and!; [by eexists|done|by right|].
      intros i. rewrite He'. case_decide; [by right|by left].
    + rewrite take_ge by (rewrite length_app, length_fmap, length_seq; simpl; lia).
      rewrite foldl_app. simpl. split; [done|]. by left.
  - fold cs1. fold n. rewrite foldl_app. simpl. split; [done|]. by left.
Qed.

(** ** Histories

    Operations whose log write succeeds, compactions, restarts.  With [strict],
    every compaction completes; without it one may stop at any of its file
    operations, and a restart right after is a crash there. *)

Inductive cstep (strict : bool) : ConsumerState → ConsumerState → Prop :=
| st_deliver cs t0 o c : 0 <= o < 2 ^ 64 - 1 → cstep strict cs (Deliver N t0 Written o c cs).2
| st_deliver_batch cs t0 os c : Forall (λ o, 0 <= o < 2 ^ 64 - 1) os →
    cstep strict cs (DeliverBatch N t0 (λ _, Written) os c cs).2
| st_restore cs t0 o c at_ n : cstep strict cs (RestorePending N t0 Written o c at_ n cs).2
| st_floor cs t0 t1 f : cstep strict cs (RestoreAckFloor t0 t1 Written f cs).2
| st_ack cs t0 t1 o : cstep strict cs (Ack N t0 t1 Written o cs).2
| st_ack_batch cs now t1 os : cstep strict cs (AckBatch N now t1 Written os cs).2
| st_nack cs o t : cstep strict cs (NackAt N Written o t cs).2
| st_release cs o t : cstep strict cs (ReleaseAt N Written o t cs).2
| st_claim cs t0 o c : cstep strict cs (Claim N t0 Written o c cs).2
| st_claim_batch cs t0 os c : cstep strict cs (ClaimBatch N t0 Written os c cs).2
| st_set_cursor cs t0 k : cstep strict cs (SetCursor t0 Written k cs).2
| st_compact cs now t1 fails : (strict = true → fails = None) →
    cstep strict cs (Compact now t1 fails cs).2
| st_close cs now t1 fails : (strict = true → fails = None) →
    cstep strict cs (Close now t1 fails cs)
| st_restart cs t0 t1 now : cstep strict cs (NewConsumerState N t0 t1 now (disk cs)).

(** [cs'] is [cs] after [ops], which are at the end of its log. *)
Definition logged (ops : list Operation) (cs cs' : ConsumerState) : Prop :=
  (∃ now, agree cs' (apply_ops now ops cs)) ∧
  disk cs' = (disk cs) <| opLog := opLog (disk cs) ++ (Rec <$> ops) |>.

Lemma logged_op now op cs : logged [op] cs (writeOp Written op (applyOp N now op cs)).2.
Proof.
  destruct (applyOp_rest now op cs) as [Hd _]. split; [by exists (λ _, now)|]. simpl. by rewrite Hd.
Qed.

Lemma logged_trans ops1 ops2 cs1 cs2 cs3 :
  logged ops1 cs1 cs2 → logged ops2 cs2 cs3 → logged (ops1 ++ ops2) cs1 cs3.
Proof.
  intros [[n1 H1] D1] [[n2 H2] D2]. split.
  - exists n1. rewrite H2, (agree_apply_app ops1 ops2 n1 n2). by apply agree_ops.
  - rewrite D2, D1. simpl. by rewrite fmap_app, app_assoc.
Qed.

Lemma write_delivers_spec os c ts : ∀ cs,
  let cs' := (write_delivers (λ _, Written) os c ts cs).2 in
  agree cs' cs ∧
  disk cs' = (disk cs) <| opLog := opLog (disk cs) ++ (Rec <$> ((λ o, OpDeliver o c ts) <$> os)) |>.
Proof.
  induction os as [|o os IH]; intros cs; simpl.
  { split; [done|]. rewrite app_nil_r. by destruct cs as [??????[]]. }
  match goal with |- context [write_delivers _ os c ts ?x] => destruct (IH x) as [Ha Hd] end.
  split; [exact Ha|]. rewrite Hd. simpl. by rewrite <-app_assoc.
Qed.

Lemma deliver_each_ops os c ts : ∀ cs, disk (deliver_each N os c ts cs) = disk cs ∧
  ∀ now, apply_ops now ((λ o, OpDeliver o c ts) <$> os) cs = deliver_each N os c ts cs.
Proof.
  unfold deliver_each. induction os as [|o os IH]; intros cs; simpl; [done|].
  destruct (IH (applyDeliver N o c ts cs)) as [H1 H2]. split; [by rewrite H1|]. intros. apply H2.
Qed.

(** Every operation of the API is logged as it is applied. *)
Lemma cstep_logged strict cs cs' : cstep strict cs cs' →
  (∃ ops, Forall op_ok ops ∧ logged ops cs cs') ∨
  (∃ now t1 fails, (strict = true → fails = None) ∧ cs' = (compactLocked now t1 fails cs).2) ∨
  cs' = cs ∨ (∃ t0 t1 now, cs' = NewConsumerState N t0 t1 now (disk cs)).
Proof.
  assert (Hop : ∀ op, op_ok op → ∀ now cs,
    ∃ ops, Forall op_ok ops ∧ logged ops cs (writeOp Written op (applyOp N now op cs)).2).
  { intros op Hok now cs0. exists [op]. split; [by constructor|apply logged_op]. }
  intros Hstep. destruct Hstep as [cs t0 o c H|cs t0 os c H|cs t0 o c at_ n|cs t0 t1 f|cs t0 t1 o|
    cs now t1 os|cs o t|cs o t|cs t0 o c|cs t0 os c|cs t0 k|cs now t1 fails H|cs now t1 fails H|
    cs t0 t1 now].
  - left. by apply (Hop (OpDeliver o c t0) H (λ _, 0)).
  - left. exists ((λ o, OpDeliver o c t0) <$> os). split; [by apply Forall_fmap|]. unfold DeliverBatch.
    destruct (deliver_each_ops os c t0 cs) as [Hd Ho].
    destruct (write_delivers_spec os c t0 (deliver_each N os c t0 cs)) as [Ha Hw].
    split; [|by rewrite Hw, Hd]. exists (λ _ _, 0). by rewrite Ho.
  - left. by apply (Hop (OpRestorePending o c _ n) I (λ _, 0)).
  - left. by apply (Hop (OpAdvanceFloor f t1) I (λ _, t0)).
  - left. by apply (Hop (OpAck o t1) I (λ _, t0)).
  - left. by apply (Hop (OpAckBatch os t1) I now).
  - left. by apply (Hop (OpNack o t) I (λ _, 0)).
  - left. by apply (Hop (OpRelease o t) I (λ _, 0)).
  - left. by apply (Hop (OpClaim o c t0) I (λ _, 0)).
  - left. by apply (Hop (OpClaimBatch os c t0) I (λ _, 0)).
  - left. by apply (Hop (OpSetCursor k t0) I (λ _, 0)).
  - right; left. by exists now, t1, fails.
  - unfold Close. destruct (dirty cs); [|by right; right; left]. right; left. by exists now, t1, fails.
  - right; right; right. eauto.
Qed.

(** ** Recovery *)

Lemma agree_files t0 t1 d t0' t1' d' : stateFile d = stateFile d' → pelFiles d = pelFiles d' →
  agree (load (fresh t0 t1 d)) (load (fresh t0' t1' d')).
Proof.
  intros H1 H2. unfold agree. rewrite !load_shards, !load_state. unfold file_state, file_entries.
  simpl. rewrite H1, H2. split_and!; try done; by destruct (stateFile d' ≫= SSState).
Qed.

Lemma agree_reopen ops t0 t1 now n2 d cs :
  agree cs (load (fresh t0 t1 d)) → opLog d = Rec <$> ops →
  agree (NewConsumerState N t0 t1 now d) (apply_ops n2 ops cs).
Proof. intros Ha Hl. rewrite NewConsumerState_eq, Hl. by apply agree_replay. Qed.

(** The snapshots and the log rebuild the state. *)
Definition restorable (cs : ConsumerState) : Prop :=
  shape cs ∧ ∃ ops, opLog (disk cs) = Rec <$> ops ∧
  ∀ t0 t1 now, agree (apply_ops now ops (load (fresh t0 t1 (disk cs)))) cs.

Lemma reopen_disk t0 t1 now d ops : opLog d = Rec <$> ops →
  disk (NewConsumerState N t0 t1 now d) = d.
Proof.
  intros Hl. rewrite NewConsumerState_eq, Hl.
  destruct (replay_view ops now _ (load_shape t0 t1 d)) as (_ & -> & _). apply load_disk.
Qed.

Lemma restorable_reopen cs t0 t1 now : restorable cs →
  agree (NewConsumerState N t0 t1 now (disk cs)) cs.
Proof.
  intros (_ & ops & Hl & Ha). rewrite (agree_reopen ops t0 t1 now now _ _ (reflexivity _) Hl).
  apply Ha.
Qed.

Lemma apply_ops_view ops : ∀ now cs, shape cs →
  shape (apply_ops now ops cs) ∧
  Cursor (state (apply_ops now ops cs)) = spec_cursors ops (Cursor (state cs)) ∧
  ∀ o, look <$> entry_at N o (apply_ops now ops cs) = spec_looks ops o (look <$> entry_at N o cs).
Proof.
  intros now cs Hs. destruct (replay_view ops now cs Hs) as (H1 & _ & H2 & H3).
  pose proof (agree_replay ops now now cs cs (reflexivity _)) as Ha.
  split_and!; [by eapply agree_shape|destruct Ha as (_ & Ha & _); congruence|].
  intros o. by rewrite <-H3, (agree_entry o _ _ Ha).
Qed.

(** The snapshots of a completed compaction are the state. *)
Lemma compact_load now t1 cs : shape cs → let cs' := (compactLocked now t1 None cs).2 in
  agree cs' cs ∧ opLog (disk cs') = [] ∧ ∀ t0 t2, agree (load (fresh t0 t2 (disk cs'))) cs.
Proof.
  intros Hs. pose proof (compact_disk now t1 None cs) as H. cbv zeta in H |- *.
  destruct (compactLocked now t1 None cs) as [b cs']. cbn [snd] in *.
  destruct H as [Hc [(H1 & H2 & H3)|[[? ?] _]]]; [|done]. split_and!; [done|done|]. intros t0 t2.
  unfold agree. rewrite load_shards, load_state. simpl. rewrite H2.
  split_and!; [done..|]. apply list_eq. intros i.
  rewrite list_lookup_imap, list_lookup_fmap. destruct (decide (i < Z.to_nat N)%nat) as [Hi|Hi].
  + rewrite lookup_replicate_2 by done. simpl. rewrite H3 by (unfold shape in Hs; lia).
    unfold shape in Hs. destruct ((entries <$> pelShards cs) !! i) eqn:E; [done|].
    apply lookup_ge_None in E. rewrite length_fmap in E. lia.
  + rewrite lookup_ge_None_2 by (rewrite length_replicate; lia). simpl. symmetry. apply lookup_ge_None.
    rewrite length_fmap. unfold shape in Hs. lia.
Qed.

Lemma restorable_step cs cs' : cstep true cs cs' → restorable cs → restorable cs'.
Proof.
  intros Hstep Hr. pose proof Hr as (Hs & ops & Hl & Ha).
  apply cstep_logged in Hstep as [(ops' & _ & [now Hl1] & Hd)|[(now & t1 & fails & Hf & ->)|
    [->|(t0 & t1 & now & ->)]]]; [| |done|].
  - split; [eapply agree_shape; [symmetry; exact Hl1|by apply apply_ops_view]|].
    exists (ops ++ ops'). split; [by rewrite Hd, fmap_app, Hl|]. intros t0 t1 n.
    etrans; [apply (agree_apply_app ops ops' n now)|]. etrans; [|symmetry; exact Hl1].
    apply agree_ops. etrans; [|apply (Ha t0 t1 n)].
    apply agree_ops, agree_files; by rewrite Hd.
  - rewrite Hf by done. destruct (compact_load now t1 cs Hs) as (Hc & H1 & H2).
    split; [by eapply agree_shape|]. exists []. split; [done|]. intros t0 t2 n.
    etrans; [apply H2|by symmetry].
  - pose proof (restorable_reopen cs t0 t1 now Hr) as Hn.
    split; [by eapply agree_shape|]. exists ops. rewrite (reopen_disk _ _ _ _ ops) by done.
    split; [done|]. intros. by rewrite Ha, Hn.
Qed.

(** The same up to delivery counts. *)
Definition recoverable (cs : ConsumerState) : Prop :=
  shape cs ∧ ∃ ops, opLog (disk cs) = Rec <$> ops ∧ Forall op_ok ops ∧
  spec_cursors ops (base_cursor (disk cs)) = Cursor (state cs) ∧
  ∀ o, spec_looks ops o (base_look (disk cs) o) = look <$> entry_at N o cs.

Lemma recoverable_reopen cs t0 t1 now : recoverable cs →
  let cs' := NewConsumerState N t0 t1 now (disk cs) in
  shape cs' ∧ disk cs' = disk cs ∧ Cursor (state cs') = Cursor (state cs) ∧
  ∀ o, look <$> entry_at N o cs' = look <$> entry_at N o cs.
Proof.
  intros (Hs & ops & Hl & _ & Hc & Ho). cbv zeta. rewrite NewConsumerState_eq, Hl.
  destruct (replay_view ops now _ (load_shape t0 t1 (disk cs))) as (H1 & H2 & H3 & H4).
  split_and!; [done|by rewrite H2, load_disk|by rewrite H3, load_cursor|].
  intros o. by rewrite H4, load_look.
Qed.

Lemma entry_files o cs : shape cs →
  (entries <$> pelShards cs) !! ShardKey N o ≫= lookup o = entry_at N o cs.
Proof. intros _. by rewrite entry_at_entries. Qed.

Lemma recoverable_compact now t1 fails cs :
  recoverable cs → recoverable (compactLocked now t1 fails cs).2.
Proof.
  intros (Hs & ops & Hl & Hok & Hc & Ho).
  destruct (compact_disk now t1 fails cs) as [Ha Hd]. cbv zeta in Hd.
  set (cs' := (compactLocked now t1 fails cs).2) in *.
  assert (Hsame : Cursor (state cs') = Cursor (state cs)) by apply Ha.
  assert (Hent : ∀ o, entry_at N o cs' = entry_at N o cs) by (intros; by apply agree_entry).
  split; [by eapply agree_shape|]. destruct Hd as [(H1 & H2 & H3)|(_ & H1 & H2 & H3)].
  - exists []. split_and!; [done|done| |].
    + unfold base_cursor. by rewrite H2, Hsame.
    + intros o. simpl. unfold base_look. rewrite H3 by (rewrite Hs; apply ShardKey_lt).
      by rewrite entry_files, Hent.
  - exists ops. split_and!; [by rewrite H1|done| |].
    + rewrite Hsame, <-Hc. unfold base_cursor. destruct H2 as [->| ->]; [done|]. simpl.
      rewrite <-Hc. by apply raising_twice, spec_cursors_raising.
    + intros o. rewrite Hent, <-Ho. unfold base_look.
      destruct (H3 (ShardKey N o)) as [->| ->]; [done|].
      rewrite entry_files, <-Ho by done. apply absorbing_twice, spec_looks_absorbing.
Qed.

Lemma recoverable_step strict cs cs' : cstep strict cs cs' → recoverable cs → recoverable cs'.
Proof.
  intros Hstep Hr. pose proof Hr as (Hs & ops & Hl & Hok & Hc & Ho).
  apply cstep_logged in Hstep as [(ops' & Hok' & [now Ha] & Hd)|[(now & t1 & fails & _ & ->)|
    [->|(t0 & t1 & now & ->)]]]; [|by apply recoverable_compact|done|].
  - destruct (apply_ops_view ops' now cs Hs) as (H1 & H2 & H3).
    split; [by eapply agree_shape; [symmetry|]|]. exists (ops ++ ops'). rewrite Hd.
    split_and!; [by rewrite fmap_app, <-Hl|by apply Forall_app| |].
    + destruct Ha as (_ & -> & _). rewrite H2, <-Hc. unfold spec_cursors. by rewrite foldl_app.
    + intros o. rewrite (agree_entry o _ _ Ha), H3, <-Ho. unfold spec_looks. by rewrite foldl_app.
  - destruct (recoverable_reopen cs t0 t1 now Hr) as (H1 & H2 & H3 & H4).
    split; [done|]. exists ops. rewrite H2. split_and!; [done|done|by rewrite H3|].
    intros o. by rewrite H4.
Qed.

Definition empty_disk : Disk := mkDisk None ∅ [].

Lemma restorable_init t0 t1 now : restorable (NewConsumerState N t0 t1 now empty_disk).
Proof.
  split; [apply (load_shape t0 t1 empty_disk)|]. exists []. split; [done|]. intros.
  by apply agree_files.
Qed.

Lemma recoverable_init t0 t1 now : recoverable (NewConsumerState N t0 t1 now empty_disk).
Proof.
  split; [apply (load_shape t0 t1 empty_disk)|]. exists []. split_and!; [done..|]. intros o. simpl.
  rewrite <-(load_look t0 t1). done.
Qed.

Lemma restorable_history t0 t1 now cs :
  rtc (cstep true) (NewConsumerState N t0 t1 now empty_disk) cs → restorable cs.
Proof.
  intros H. assert (Hi := restorable_init t0 t1 now). revert Hi.
  induction H; eauto using restorable_step.
Qed.

Lemma recoverable_history strict t0 t1 now cs :
  rtc (cstep strict) (NewConsumerState N t0 t1 now empty_disk) cs → recoverable cs.
Proof.
  intros H. assert (Hi := recoverable_init t0 t1 now). revert Hi.
  induction H; eauto using recoverable_step.
Qed.

(** ** Log writes that fail *)

(** The calls that change the state. *)
Inductive call :=
| CDeliver (t0 o : Z) (c : string)
| CDeliverBatch (t0 : Z) (os : list Z) (c : string)
| CRestorePending (t0 o : Z) (c : string) (claimedAt : option Z) (n : Z)
| CRestoreAckFloor (t0 t1 f : Z)
| CAck (t0 t1 o : Z)
| CAckBatch (now : nat → Z) (t1 : Z) (os : list Z)
| CNackAt (o t : Z)
| CReleaseAt (o t : Z)
| CClaim (t0 o : Z) (c : string)
| CClaimBatch (t0 : Z) (os : list Z) (c : string)
| CSetCursor (t0 k : Z).

(** A call with the answers of its log writes. *)
Definition run_call (w : nat → WriteResult) (k : call) (cs : ConsumerState) : ConsumerState :=
  match k with
  | CDeliver t0 o c => (Deliver N t0 (w O) o c cs).2
  | CDeliverBatch t0 os c => (DeliverBatch N t0 w os c cs).2
  | CRestorePending t0 o c at_ n => (RestorePending N t0 (w O) o c at_ n cs).2
  | CRestoreAckFloor t0 t1 f => (RestoreAckFloor t0 t1 (w O) f cs).2
  | CAck t0 t1 o => (Ack N t0 t1 (w O) o cs).2
  | CAckBatch now t1 os => (AckBatch N now t1 (w O) os cs).2
  | CNackAt o t => (NackAt N (w O) o t cs).2
  | CReleaseAt o t => (ReleaseAt N (w O) o t cs).2
  | CClaim t0 o c => (Claim N t0 (w O) o c cs).2
  | CClaimBatch t0 os c => (ClaimBatch N t0 (w O) os c cs).2
  | CSetCursor t0 k => (SetCursor t0 (w O) k cs).2
  end.

(** The records it writes, and those of them that are whole in the file when a
    write fails: the call stops there. *)
Definition call_ops (k : call) : list Operation :=
  match k with
  | CDeliver t0 o c => [OpDeliver o c t0]
  | CDeliverBatch t0 os c => (λ o, OpDeliver o c t0) <$> os
  | CRestorePending t0 o c at_ n => [OpRestorePending o c (default t0 at_) n]
  | CRestoreAckFloor t0 t1 f => [OpAdvanceFloor f t1]
  | CAck t0 t1 o => [OpAck o t1]
  | CAckBatch now t1 os => [OpAckBatch os t1]
  | CNackAt o t => [OpNack o t]
  | CReleaseAt o t => [OpRelease o t]
  | CClaim t0 o c => [OpClaim o c t0]
  | CClaimBatch t0 os c => [OpClaimBatch os c t0]
  | CSetCursor t0 k => [OpSetCursor k t0]
  end.

Fixpoint reached (w : nat → WriteResult) (ops : list Operation) : list Operation :=
  match ops with
  | [] => []
  | op :: ops => match w O with
                 | Written => op :: reached (λ i, w (S i)) ops
                 | WrittenError => [op]
                 | NotWritten | TornWrite => []
                 end
  end.
Fixpoint tears (w : nat → WriteResult) (ops : list Operation) : bool :=
  match ops with
  | [] => false
  | _ :: ops => match w O with
                | Written => tears (λ i, w (S i)) ops
                | TornWrite => true
                | NotWritten | WrittenError => false
                end
  end.

(** A call applies all its operations and appends those records. *)
Definition records (w : nat → WriteResult) (ops : list Operation) (cs cs' : ConsumerState) : Prop :=
  (∃ now, agree cs' (apply_ops now ops cs)) ∧
  disk cs' = (disk cs) <| opLog := opLog (disk cs) ++ (Rec <$> reached w ops) ++
                                   (if tears w ops then [Torn] else []) |>.

Lemma records_op w now op cs : records w [op] cs (writeOp (w O) op (applyOp N now op cs)).2.
Proof.
  destruct (applyOp_rest now op cs) as [Hd _]. unfold records. cbn [reached tears].
  destruct (w O); (split; [by exists (λ _, now)|]); simpl; rewrite ?Hd; try done.
  rewrite app_nil_r. by destruct (disk cs).
Qed.

Lemma write_delivers_records os c ts : ∀ w cs,
  let cs' := (write_delivers w os c ts cs).2 in let ops := (λ o, OpDeliver o c ts) <$> os in
  agree cs' cs ∧
  disk cs' = (disk cs) <| opLog := opLog (disk cs) ++ (Rec <$> reached w ops) ++
                                   (if tears w ops then [Torn] else []) |>.
Proof.
  induction os as [|o os IH]; intros w cs; cbn [write_delivers].
  { split; [done|]. simpl. rewrite app_nil_r. by destruct cs as [??????[]]. }
  rewrite fmap_cons. cbn [reached tears]. destruct (w O); cbn [writeOp].
  - match goal with |- context [write_delivers _ os c ts ?x] => destruct (IH (λ i, w (S i)) x) as [Ha Hd] end.
    split; [exact Ha|]. rewrite Hd. simpl. by rewrite <-app_assoc.
  - split; [done|]. simpl. rewrite app_nil_r. by destruct cs as [??????[]].
  - by split.
  - split; [done|]. simpl. by rewrite ?app_nil_r.
Qed.

Lemma run_call_records w k cs : records w (call_ops k) cs (run_call w k cs).
Proof.
  destruct k as [t0 o c|t0 os c|t0 o c at_ n|t0 t1 f|t0 t1 o|now t1 os|o t|o t|t0 o c|t0 os c|t0 k]; cbn [run_call call_ops].
  - apply (records_op w (λ _, 0) (OpDeliver o c t0)).
  - destruct (deliver_each_ops os c t0 cs) as [Hd Ho].
    destruct (write_delivers_records os c t0 w (deliver_each N os c t0 cs)) as [Ha Hw].
    split; [exists (λ _ _, 0); rewrite Ho; exact Ha|]. unfold DeliverBatch. by rewrite Hw, Hd.
  - destruct at_ as [at_|]; [apply (records_op w (λ _, 0) (OpRestorePending o c at_ n))|
      apply (records_op w (λ _, 0) (OpRestorePending o c t0 n))].
  - apply (records_op w (λ _, t0) (OpAdvanceFloor f t1)).
  - apply (records_op w (λ _, t0) (OpAck o t1)).
  - apply (records_op w now (OpAckBatch os t1)).
  - apply (records_op w (λ _, 0) (OpNack o t)).
  - apply (records_op w (λ _, 0) (OpRelease o t)).
  - apply (records_op w (λ _, 0) (OpClaim o c t0)).
  - apply (records_op w (λ _, 0) (OpClaimBatch os c t0)).
  - apply (records_op w (λ _, 0) (OpSetCursor k t0)).
Qed.

(** The state in memory and what of it is durable: an operation is, when its
    record is whole in a log without a torn one before it, whether or not the
    write reported an error; a completed compaction makes everything durable. *)
Definition is_torn (i : LogItem) : bool := match i with Torn => true | Rec _ => false end.
Definition torn (d : Disk) : bool := existsb is_torn (opLog d).

Inductive hstep : ConsumerState * ConsumerState → ConsumerState * ConsumerState → Prop :=
| hs_call cs d w k now :
    hstep (cs, d) (run_call w k cs, if torn (disk cs) then d else apply_ops now (reached w (call_ops k)) d)
| hs_compact cs d now t1 : hstep (cs, d) ((Compact now t1 None cs).2, cs)
| hs_close cs d now t1 : hstep (cs, d) (Close now t1 None cs, if dirty cs then cs else d)
| hs_restart cs d t0 t1 now : hstep (cs, d) (NewConsumerState N t0 t1 now (disk cs), d).

(** The snapshots and the log up to a torn record rebuild [d]. *)
Definition durable (cs d : ConsumerState) : Prop :=
  shape cs ∧ ∃ ops rest, opLog (disk cs) = (Rec <$> ops) ++ rest ∧
    (rest = [] ∨ ∃ r, rest = Torn :: r) ∧
    ∀ t0 t1 now, agree (apply_ops now ops (load (fresh t0 t1 (disk cs)))) d.

Lemma replay_stops ops rest : (rest = [] ∨ ∃ r, rest = Torn :: r) → ∀ now cs,
  replay N now ((Rec <$> ops) ++ rest) cs = replay N now (Rec <$> ops) cs.
Proof.
  intros Hr. induction ops as [|op ops IH]; intros now cs; simpl; [|apply IH].
  by destruct Hr as [->|[r ->]].
Qed.

Lemma durable_reopen cs d t0 t1 now : durable cs d →
  let cs' := NewConsumerState N t0 t1 now (disk cs) in agree cs' d ∧ disk cs' = disk cs ∧ shape cs'.
Proof.
  intros (Hs & ops & rest & Hl & Hr & Ha). cbv zeta. rewrite NewConsumerState_eq, Hl, replay_stops by done.
  destruct (replay_view ops now _ (load_shape t0 t1 (disk cs))) as (H1 & H2 & _).
  split_and!; [|by rewrite H2, load_disk|done].
  etrans; [by apply (agree_replay ops now now)|apply Ha].
Qed.

Lemma not_torn ops rest cs : opLog (disk cs) = (Rec <$> ops) ++ rest → (rest = [] ∨ ∃ r, rest = Torn :: r) →
  if torn (disk cs) then ∃ r, rest = Torn :: r else rest = [].
Proof.
  intros Hl Hr. unfold torn. rewrite Hl, existsb_app.
  replace (existsb is_torn (Rec <$> ops)) with false by (clear; by induction ops).
  by destruct Hr as [->|[r ->]]; [|exists r].
Qed.

Lemma durable_step s s' : hstep s s' → durable s.1 s.2 → durable s'.1 s'.2.
Proof.
  intros Hstep Hd. pose proof Hd as (Hs & ops & rest & Hl & Hr & Ha).
  assert (Hcompact : ∀ now t1 cs, shape cs → durable (compactLocked now t1 None cs).2 cs).
  { intros now t1 cs0 Hs0. destruct (compact_load now t1 cs0 Hs0) as (Hc & H1 & H2).
    split; [by eapply agree_shape|]. exists [], []. split_and!; [by rewrite H1|by left|intros; apply H2]. }
  destruct Hstep as [cs d w k now|cs d now t1|cs d now t1|cs d t0 t1 now]; cbn [fst snd] in *.
  - destruct (run_call_records w k cs) as [[n1 Hag] Hdisk].
    split; [eapply agree_shape; [symmetry; exact Hag|by apply apply_ops_view]|].
    pose proof (not_torn ops rest cs Hl Hr) as Ht.
    assert (Hfiles : ∀ t0 t1, agree (load (fresh t0 t1 (disk (run_call w k cs)))) (load (fresh t0 t1 (disk cs))))
      by (intros; apply agree_files; by rewrite Hdisk).
    pose proof (f_equal opLog Hdisk) as Hlog. cbn [opLog] in Hlog.
    destruct (torn (disk cs)).
    + destruct Ht as [r0 ->]. exists ops. eexists. rewrite Hlog, Hl, <-app_assoc.
      split_and!; [done|right; by eexists|]. intros t0 t1 n.
      etrans; [apply agree_ops, Hfiles|apply (Ha t0 t1 n)].
    + subst rest. rewrite app_nil_r in Hl. exists (ops ++ reached w (call_ops k)). eexists.
      rewrite Hlog, Hl, fmap_app, <-app_assoc. split_and!; [done|destruct (tears _ _); [right; by eexists|by left]|].
      intros t0 t1 n. etrans; [apply (agree_apply_app ops _ n now)|]. apply agree_ops.
      etrans; [apply agree_ops, Hfiles|apply (Ha t0 t1 n)].
  - by apply Hcompact.
  - unfold Close. destruct (dirty cs); [by apply Hcompact|done].
  - destruct (durable_reopen cs d t0 t1 now Hd) as (H1 & H2 & H3).
    split; [done|]. exists ops, rest. by rewrite H2.
Qed.

Lemma durable_history t0 t1 now s : let init := NewConsumerState N t0 t1 now empty_disk in
  rtc hstep (init, init) s → durable s.1 s.2.
Proof.
  intros init H. remember (init, init) as s0 eqn:E0.
  assert (Hi : durable s0.1 s0.2).
  { subst s0. split; [apply (load_shape t0 t1 empty_disk)|]. exists [], []. split_and!; [done|by left|].
    intros. by apply agree_files. }
  clear E0. induction H; eauto using durable_step.
Qed.

(** ** The acknowledgement floor *)

Lemma floor_loop_spec fuel : ∀ f cs,
  Z.of_nat fuel = Z.max 0 (Cursor (state cs) - (f + 1)) →
  let r := floor_loop N fuel (f + 1) f cs in
  f <= r ∧ (∀ x, f < x <= r → entry_at N x cs = None ∧ x < Cursor (state cs)) ∧
  (r + 1 < Cursor (state cs) → is_Some (entry_at N (r + 1) cs)).
Proof.
  induction fuel as [|fuel IH]; intros f cs Hf; cbv zeta; simpl.
  { split_and!; [lia|intros; lia|intros; lia]. }
  destruct (Cursor (state cs) <=? f + 1) eqn:E; bool_prop; [lia|].
  destruct (entry_at N (f + 1) cs) as [e|] eqn:He.
  { split_and!; [lia|intros; lia|]. intros _. by exists e. }
  destruct (IH (f + 1) cs) as (H1 & H2 & H3); [lia|]. split_and!; [lia| |done].
  intros x Hx. destruct (decide (x = f + 1)) as [->|]; [split; [done|lia]|]. apply H2. lia.
Qed.

Lemma tryAdvance_spec now cs : 0 <= AckFloor (state cs) < 2 ^ 64 - 1 →
  let cs' := tryAdvanceAckFloor N now cs in
  let f := AckFloor (state cs) in let r := AckFloor (state cs') in
  f <= r ∧ (∀ x, f < x <= r → entry_at N x cs' = None ∧ x < Cursor (state cs')) ∧
  (r + 1 < Cursor (state cs') → is_Some (entry_at N (r + 1) cs')).
Proof.
  intros Hf. cbv zeta. rewrite cursor_tryAdvance. unfold tryAdvanceAckFloor. cbv zeta.
  rewrite u64_small by lia.
  destruct (floor_loop_spec (Z.to_nat (Cursor (state cs) - (AckFloor (state cs) + 1)))
    (AckFloor (state cs)) cs) as (H1 & H2 & H3); [lia|].
  destruct (_ <? _) eqn:E; bool_prop; [done|].
  assert (Hr : floor_loop N (Z.to_nat (Cursor (state cs) - (AckFloor (state cs) + 1)))
    (AckFloor (state cs) + 1) (AckFloor (state cs)) cs = AckFloor (state cs)) by lia.
  rewrite Hr in H2, H3. split_and!; [lia|done|done].
Qed.

(** ** Redelivery candidates *)

Lemma collect_spec p m : ∀ l acc, (length acc < Z.to_nat (Z.max 1 m))%nat →
  let full := Z.to_nat (Z.max 1 m) in
  (collect p m l acc).1 = acc ++ take (full - length acc) (List.filter p l) ∧
  ((collect p m l acc).2 = true ↔ length (collect p m l acc).1 = full).
Proof.
  induction l as [|e l IH]; intros acc Ha; cbv zeta; simpl.
  { rewrite take_nil, app_nil_r. split; [done|]. split; [done|]. simpl. lia. }
  destruct (p e); [|by apply IH].
  rewrite length_app. simpl. destruct (m <=? _) eqn:E; bool_prop; simpl.
  - assert (Z.to_nat (Z.max 1 m) - length acc = 1)%nat as -> by lia. simpl.
    rewrite take_0, length_app. simpl. split; [done|]. split; [lia|done].
  - destruct (IH (acc ++ [e])) as [H1 H2]; [rewrite length_app; simpl; lia|]. rewrite H1. split.
    + rewrite length_app, <-app_assoc. simpl. f_equal.
      replace (Z.to_nat (Z.max 1 m) - length acc)%nat
        with (S (Z.to_nat (Z.max 1 m) - (length acc + 1))) by lia. done.
    + by rewrite H2, H1.
Qed.

Lemma collect_shards_spec p m order : ∀ shards acc, (length acc < Z.to_nat (Z.max 1 m))%nat →
  collect_shards p m order shards acc =
  acc ++ take (Z.to_nat (Z.max 1 m) - length acc) (List.filter p (concat (order <$> shards))).
Proof.
  induction shards as [|sh shards IH]; intros acc Ha; simpl.
  { by rewrite take_nil, app_nil_r. }
  destruct (collect_spec p m (order sh) acc Ha) as [H1 H2]. cbv zeta in *.
  destruct (collect p m (order sh) acc) as [r full]. simpl in *. subst r.
  rewrite List.filter_app, take_app, length_app in *. destruct full.
  - destruct H2 as [H2 _]. specialize (H2 eq_refl). rewrite length_take in *.
    replace (Z.to_nat (Z.max 1 m) - length acc - length (List.filter p (order sh)))%nat
      with 0%nat by lia.
    by rewrite take_0, app_nil_r.
  - rewrite length_take in *. assert (length (List.filter p (order sh)) <
      Z.to_nat (Z.max 1 m) - length acc)%nat.
    { destruct H2 as [_ H2]. assert (¬ (length acc + (Z.to_nat (Z.max 1 m) - length acc) `min`
        length (List.filter p (order sh)) = Z.to_nat (Z.max 1 m))%nat) by (intros H; by apply H2 in H).
      lia. }
    rewrite (take_ge (List.filter p (order sh))) by lia.
    rewrite IH by (rewrite length_app; lia). by rewrite <-app_assoc, length_app, Nat.sub_add_distr.
Qed.

(** ** The index by consumer *)

Lemma elem_of_index_add c o ix c' o' :
  o' ∈ default ∅ (index_add c o ix !! c') ↔ (c' = c ∧ o' = o) ∨ o' ∈ default ∅ (ix !! c').
Proof.
  unfold index_add. destruct (decide (c' = c)) as [->|Hc].
  - rewrite lookup_insert_eq. simpl. set_solver.
  - rewrite lookup_insert_ne by done. naive_solver.
Qed.

Lemma elem_of_index_del c o ix c' o' :
  o' ∈ default ∅ (index_del c o ix !! c') ↔ o' ∈ default ∅ (ix !! c') ∧ ¬ (c' = c ∧ o' = o).
Proof.
  unfold index_del. destruct (ix !! c) as [os|] eqn:E.
  - destruct (decide (c' = c)) as [->|Hc].
    + rewrite E. case_decide as Hd; [rewrite lookup_delete_eq|rewrite lookup_insert_eq]; set_solver.
    + case_decide; [rewrite lookup_delete_ne by done|rewrite lookup_insert_ne by done]; naive_solver.
  - destruct (decide (c' = c)) as [->|Hc]; [rewrite E; set_solver|naive_solver].
Qed.

(** The index of a shard lists exactly the entries of each consumer. *)
Definition index_ok (sh : PELShard) : Prop :=
  ∀ c o, o ∈ default ∅ (byConsumer sh !! c) ↔ ∃ e, entries sh !! o = Some e ∧ ConsumerID e = c.

Lemma index_put e sh : index_ok sh →
  (∀ e0, entries sh !! Offset e = Some e0 → ConsumerID e0 = ConsumerID e) →
  index_ok (put_entry e sh).
Proof.
  intros Hi He c o. simpl. rewrite elem_of_index_add, (Hi c o). destruct (decide (o = Offset e)) as [->|Ho].
  - rewrite lookup_insert_eq. naive_solver.
  - rewrite lookup_insert_ne by done. naive_solver.
Qed.

Lemma index_remove o e sh : index_ok sh → entries sh !! o = Some e →
  index_ok (mkPELShard (delete o (entries sh)) (index_del (ConsumerID e) o (byConsumer sh)) true).
Proof.
  intros Hi He c o'. simpl. rewrite elem_of_index_del, (Hi c o'). destruct (decide (o' = o)) as [->|Ho].
  - rewrite lookup_delete_eq. naive_solver.
  - rewrite lookup_delete_ne by done. naive_solver.
Qed.

Lemma index_move o e c ts sh : index_ok sh → entries sh !! o = Some e →
  index_ok (mkPELShard (<[o := claimed c ts e]> (entries sh))
    (index_add c o (index_del (ConsumerID e) o (byConsumer sh))) true).
Proof.
  intros Hi He c' o'. simpl. rewrite elem_of_index_add, elem_of_index_del, (Hi c' o').
  destruct (decide (o' = o)) as [->|Ho].
  - rewrite lookup_insert_eq. split; [|naive_solver]. intros [[-> _]|[(e0 & He0 & <-) Hn]].
    + by eexists.
    + rewrite He in He0. simplify_eq. by destruct Hn.
  - rewrite lookup_insert_ne by done. naive_solver.
Qed.

Lemma index_touch o e e' sh : index_ok sh → entries sh !! o = Some e → ConsumerID e' = ConsumerID e →
  index_ok (mkPELShard (<[o := e']> (entries sh)) (byConsumer sh) true).
Proof.
  intros Hi He Hc c o'. simpl. rewrite (Hi c o'). destruct (decide (o' = o)) as [->|Ho].
  - rewrite lookup_insert_eq, He. naive_solver.
  - by rewrite lookup_insert_ne.
Qed.

Lemma index_rebuild es : index_ok (rebuild es).
Proof.
  intros c o. unfold rebuild. simpl.
  apply (map_fold_weak_ind (λ ix es, o ∈ default ∅ (ix !! c) ↔ ∃ e, es !! o = Some e ∧ ConsumerID e = c)).
  - rewrite lookup_empty. simpl. split; [set_solver|]. intros (e & He & _). by rewrite lookup_empty in He.
  - intros o' e' m ix Hm IH. rewrite elem_of_index_add, IH. destruct (decide (o = o')) as [->|Ho].
    + rewrite lookup_insert_eq, Hm. naive_solver.
    + rewrite lookup_insert_ne by done. naive_solver.
Qed.

Definition placed (i : nat) (sh : PELShard) : Prop :=
  ∀ o, is_Some (entries sh !! o) → ShardKey N o = i.
Definition indexed (cs : ConsumerState) : Prop :=
  ∀ i sh, pelShards cs !! i = Some sh → index_ok sh ∧ placed i sh.

Lemma indexed_shard o cs : shape cs → indexed cs → index_ok (shard_of N o cs).
Proof. intros Hs Hi. eapply Hi. by apply shard_lookup. Qed.

Lemma indexed_on_shard o f cs : shape cs → indexed cs →
  index_ok (f (shard_of N o cs)) →
  (∀ k, is_Some (entries (f (shard_of N o cs)) !! k) → k = o ∨ is_Some (entries (shard_of N o cs) !! k)) →
  indexed (on_shard N o f cs).
Proof.
  intros Hs Hi Hf Hk i sh. simpl. rewrite list_lookup_alter.
  case_decide as E; [subst|by apply Hi]. rewrite shard_lookup by done. simpl. intros [= <-].
  split; [done|]. intros k Hsome. destruct (Hk k Hsome) as [->|H]; [done|].
  destruct (Hi _ _ (shard_lookup o cs Hs)) as [_ Hp]. by apply Hp.
Qed.

Ltac keys := let k := fresh in intros k; simpl;
  rewrite ?lookup_insert_is_Some', ?lookup_delete_is_Some; naive_solver.

(** An operation that delivers or restores only offsets that are not pending
    with another consumer. *)
Definition own_op (op : Operation) (cs : ConsumerState) : Prop :=
  match op with
  | OpDeliver o c _ | OpRestorePending o c _ _ =>
      ∀ e, entry_at N o cs = Some e → ConsumerID e = c
  | _ => True
  end.

Lemma indexed_ack now o cs : shape cs → indexed cs → indexed (applyAck N now o cs).
Proof.
  intros Hs Hi. unfold applyAck. destruct (entry_at N o cs) as [e|] eqn:E; [|done].
  unfold indexed. rewrite shards_tryAdvance. apply indexed_on_shard; [done..| |keys].
  apply index_remove; [by apply indexed_shard|done].
Qed.

Lemma indexed_claim o c ts cs : shape cs → indexed cs → indexed (applyClaim N o c ts cs).
Proof.
  intros Hs Hi. unfold applyClaim. destruct (entry_at N o cs) as [e|] eqn:E; [|done].
  apply indexed_on_shard; [done..| |keys]. apply index_move; [by apply indexed_shard|done].
Qed.

Lemma indexed_ack_each os : ∀ now cs, shape cs → indexed cs → indexed (ack_each N now os cs).
Proof. induction os; intros; simpl; [done|]. apply IHos; [by apply shape_ack|by apply indexed_ack]. Qed.

Lemma indexed_claim_each os c ts : ∀ cs, shape cs → indexed cs → indexed (claim_each N os c ts cs).
Proof.
  unfold claim_each. induction os; intros; simpl; [done|].
  apply IHos; [by apply shape_claim|by apply indexed_claim].
Qed.

Lemma indexed_op now op cs : shape cs → indexed cs → own_op op cs → indexed (applyOp N now op cs).
Proof.
  intros Hs Hi Ho. destruct op; simpl in *.
  - unfold applyDeliver. cbv zeta. apply (indexed_on_shard offset); [done..| |keys].
    apply index_put; [by apply indexed_shard|]. intros e He. by apply Ho.
  - by apply indexed_ack.
  - by apply indexed_ack_each.
  - unfold applyNack. destruct (entry_at N offset cs) as [e|] eqn:E; [|done].
    apply indexed_on_shard; [done..| |keys]. eapply index_touch; [by apply indexed_shard|done|done].
  - by apply indexed_claim.
  - by apply indexed_claim_each.
  - unfold applyAdvanceFloor. by destruct (_ <? _).
  - done.
  - unfold applyRestorePending. cbv zeta. apply (indexed_on_shard offset); [done..| |keys].
    apply index_put; [by apply indexed_shard|]. intros e He. by apply Ho.
  - unfold applyRelease. destruct (entry_at N offset cs) as [e|] eqn:E; [|done].
    apply indexed_on_shard; [done..| |keys]. eapply index_touch; [by apply indexed_shard|done|done].
Qed.

(** The query by consumer returns its entries, each once. *)
Lemma GetPendingByConsumer_exact walk c cs : shape cs → indexed cs →
  (∀ os, walk os ≡ₚ elements os) →
  ∀ e, e ∈ GetPendingByConsumer walk c cs ↔ ∃ o, entry_at N o cs = Some e ∧ ConsumerID e = c.
Proof.
  intros Hs Hi Hw e. unfold GetPendingByConsumer. rewrite elem_of_concat.
  assert (Hin : ∀ sh, index_ok sh → e ∈ consumer_entries walk c sh ↔
    ∃ o, entries sh !! o = Some e ∧ ConsumerID e = c).
  { intros sh Hok. unfold consumer_entries. specialize (Hok c).
    destruct (byConsumer sh !! c) as [os|]; simpl in Hok.
    - rewrite list_elem_of_omap. setoid_rewrite Hw. setoid_rewrite elem_of_elements.
      setoid_rewrite Hok. naive_solver.
    - split; [by intros ?%elem_of_nil|]. intros (o' & Ho & Hc).
      exfalso. eapply (not_elem_of_empty (C := gset Z) o'). apply Hok. eauto. }
  split.
  - intros (l & (sh & -> & Hsh)%list_elem_of_fmap & Hl).
    apply list_elem_of_lookup in Hsh as [i Hsh]. destruct (Hi i sh Hsh) as [Hok Hp].
    apply (Hin sh Hok) in Hl as (o & Ho & Hc). exists o. split; [|done].
    rewrite entry_at_entries, list_lookup_fmap, (Hp o) by (by eexists). by rewrite Hsh.
  - intros (o & Ho & Hc). exists (consumer_entries walk c (shard_of N o cs)).
    split; [apply list_elem_of_fmap_2, (list_elem_of_lookup_2 _ (ShardKey N o)); by apply shard_lookup|].
    apply (Hin _ (indexed_shard o cs Hs Hi)). by exists o.
Qed.

End facts.

(** ** Any number of shards *)

Section shards.
Context (N1 N2 : Z) (HN1 : 0 < N1) (HN2 : 0 < N2).

(** The same progress and the same entries, over two numbers of shards. *)
Definition same_view (cs1 cs2 : ConsumerState) : Prop :=
  shape N1 cs1 ∧ shape N2 cs2 ∧
  AckFloor (state cs1) = AckFloor (state cs2) ∧ Cursor (state cs1) = Cursor (state cs2) ∧
  Delivered (state cs1) = Delivered (state cs2) ∧ ∀ o, entry_at N1 o cs1 = entry_at N2 o cs2.

Lemma same_floor_loop cs1 cs2 : same_view cs1 cs2 → ∀ fuel o f,
  floor_loop N1 fuel o f cs1 = floor_loop N2 fuel o f cs2.
Proof.
  intros (_ & _ & _ & Hc & _ & He) fuel. induction fuel as [|fuel IH]; intros o f; simpl; [done|].
  by rewrite He, Hc, IH.
Qed.

Lemma same_tryAdvance n1 n2 cs1 cs2 : same_view cs1 cs2 →
  same_view (tryAdvanceAckFloor N1 n1 cs1) (tryAdvanceAckFloor N2 n2 cs2).
Proof.
  intros Hv. unfold tryAdvanceAckFloor. cbv zeta. rewrite (same_floor_loop cs1 cs2 Hv).
  pose proof Hv as (H1 & H2 & Hf & Hc & Hd & He). rewrite Hf, Hc. by destruct (_ <? _).
Qed.

Lemma same_ack n1 n2 o cs1 cs2 : same_view cs1 cs2 →
  same_view (applyAck N1 n1 o cs1) (applyAck N2 n2 o cs2).
Proof.
  intros Hv. pose proof Hv as (H1 & H2 & Hf & Hc & Hd & He).
  assert (Hx : ∀ o', entry_at N1 o' (applyAck N1 n1 o cs1) = entry_at N2 o' (applyAck N2 n2 o cs2)).
  { intros o'. rewrite (ack_view N1 HN1 n1 o 0), (ack_view N2 HN2 n2 o 0) by done. by rewrite He. }
  revert Hx. unfold applyAck. rewrite <-He. destruct (entry_at N1 o cs1) as [e|]; [|done].
  intros Hx. apply same_tryAdvance. setoid_rewrite entry_at_tryAdvance in Hx.
  split_and!; [by apply shape_on_shard|by apply shape_on_shard|done..].
Qed.

Lemma same_ack_each os : ∀ n1 n2 cs1 cs2, same_view cs1 cs2 →
  same_view (ack_each N1 n1 os cs1) (ack_each N2 n2 os cs2).
Proof. induction os; intros; simpl; [done|]. by apply IHos, same_ack. Qed.

Lemma claim_each_state N os c ts : ∀ cs, state (claim_each N os c ts cs) = state cs.
Proof.
  unfold claim_each. induction os as [|o os IH]; intros cs; simpl; [done|]. rewrite IH.
  unfold applyClaim. by destruct (entry_at N o cs).
Qed.

Lemma deliver_state N o c ts cs : let st := state (applyDeliver N o c ts cs) in
  AckFloor st = AckFloor (state cs) ∧
  Cursor st = (if Cursor (state cs) <=? o then u64 (o + 1) else Cursor (state cs)) ∧
  Delivered st = u64 (Delivered (state cs) + 1).
Proof. unfold applyDeliver. simpl. by destruct (_ <=? _). Qed.

Lemma same_op n1 n2 op cs1 cs2 : same_view cs1 cs2 →
  same_view (applyOp N1 n1 op cs1) (applyOp N2 n2 op cs2).
Proof.
  intros Hv. pose proof Hv as (H1 & H2 & Hf & Hc & Hd & He).
  destruct (applyOp_view N1 HN1 n1 op cs1 H1) as [Hs1 Hv1].
  destruct (applyOp_view N2 HN2 n2 op cs2 H2) as [Hs2 Hv2].
  assert (Hx : ∀ o, entry_at N1 o (applyOp N1 n1 op cs1) = entry_at N2 o (applyOp N2 n2 op cs2)).
  { intros o. by rewrite Hv1, Hv2, He. }
  destruct op; simpl in *;
    try (by apply same_ack); try (by apply same_ack_each);
    try (unfold same_view; rewrite ?claim_each_state; unfold applyNack, applyClaim, applyRelease in *;
         rewrite <-?He in *; by destruct (entry_at N1 offset cs1)).
  all: unfold same_view.
  - destruct (deliver_state N1 offset consumerID ts cs1) as (-> & -> & ->).
    destruct (deliver_state N2 offset consumerID ts cs2) as (-> & -> & ->).
    rewrite Hf, Hc, Hd. by split_and!.
  - split_and!; rewrite ?claim_each_state; done.
  - unfold applyAdvanceFloor. rewrite Hf. by destruct (_ <? _).
Qed.

End shards.
(** ** Theorems *)

(** C2 Nothing is lost on restart.  After any history of operations whose log writes
    succeed, completed compactions and restarts, opening the state from disk gives back the
    acknowledgement floor, the cursor, the delivery count and, for every offset, the pending entry
    with its owner, times and count.  When log writes fail in any way, it gives back exactly what
    the operations make of the state whose records are whole in the log before the first torn
    one, those of writes that reported an error included, since the last completed compaction,
    which starts from all that was in memory. *)
Theorem recovery_exact N (HN : 0 < N) t0 t1 now cs t0' t1' now' :
  let init := NewConsumerState N t0 t1 now empty_disk in
  let cs' := NewConsumerState N t0' t1' now' (disk cs) in
  let gives_back d :=
    AckFloor (GetGroupState cs') = AckFloor (GetGroupState d) ∧
    Cursor (GetGroupState cs') = Cursor (GetGroupState d) ∧
    Delivered (GetGroupState cs') = Delivered (GetGroupState d) ∧
    ∀ o, GetPending N o cs' = GetPending N o d in
  (rtc (cstep N true) init cs → gives_back cs) ∧
  (∀ d, rtc (hstep N) (init, init) (cs, d) → gives_back d).
Proof.
  intros init cs' gives_back.
  assert (Hg : ∀ d, agree cs' d → gives_back d).
  { intros d Ha. pose proof Ha as (Hf & Hc & Hd & _). split_and!; [done..|]. intros o. by apply agree_entry. }
  split; [intros H|intros d H]; apply Hg.
  - apply (restorable_reopen N cs), (restorable_history N HN t0 t1 now cs H).
  - apply (durable_reopen N HN cs d), (durable_history N HN t0 t1 now (cs, d) H).
Qed.

(** C4 A crash in the middle of a compaction loses nothing: also when compactions stop at any of
    their file operations and the process restarts from the mixture of old and new snapshots with
    the log still there, the cursor and every pending entry with its owner, delivery time and
    last attempt are what they were; only delivery counts can differ. *)
Theorem recovery_after_crash N (HN : 0 < N) t0 t1 now cs :
  rtc (cstep N false) (NewConsumerState N t0 t1 now empty_disk) cs →
  ∀ t0' t1' now', let cs' := NewConsumerState N t0' t1' now' (disk cs) in
  Cursor (GetGroupState cs') = Cursor (GetGroupState cs) ∧
  ∀ o, look <$> GetPending N o cs' = look <$> GetPending N o cs.
Proof.
  intros H t0' t1' now'. cbv zeta.
  apply (recoverable_reopen N HN cs t0' t1' now' (recoverable_history N HN false _ _ _ _ H)).
Qed.

(** The number of shards cannot be observed: over any two positive numbers of shards, states
    that agree on the group and on every pending entry still agree after the same operation. *)
Theorem sharding_transparent N1 N2 (HN1 : 0 < N1) (HN2 : 0 < N2) n1 n2 op cs1 cs2 :
  same_view N1 N2 cs1 cs2 → same_view N1 N2 (applyOp N1 n1 op cs1) (applyOp N2 n2 op cs2).
Proof. apply same_op; done. Qed.

(** Acknowledging a pending offset moves the floor up over offsets that are no longer pending,
    and as far as possible: the next offset below the cursor, if any, is pending. *)
Theorem ack_floor_exact N (HN : 0 < N) t0 t1 w o cs :
  shape N cs → is_Some (GetPending N o cs) → 0 <= AckFloor (state cs) < 2 ^ 64 - 1 →
  let cs' := (Ack N t0 t1 w o cs).2 in
  let f := AckFloor (state cs) in let r := AckFloor (state cs') in
  GetPending N o cs' = None ∧ f <= r ∧
  (∀ x, f < x <= r → GetPending N x cs' = None ∧ x < Cursor (state cs')) ∧
  (r + 1 < Cursor (state cs') → is_Some (GetPending N (r + 1) cs')).
Proof.
  intros Hs [e He] Hf. cbv zeta.
  pose proof (ack_view N HN t0 o 0 cs o Hs) as Hv. unfold Ack, GetPending in *.
  assert (Hw : ∀ op c, state (writeOp w op c).2 = state c ∧
    pelShards (writeOp w op c).2 = pelShards c) by (intros; by destruct w).
  set (cs1 := applyAck N t0 o cs) in *. destruct (Hw (OpAck o t1) cs1) as [H1 H2].
  assert (Hx : ∀ x, entry_at N x (writeOp w (OpAck o t1) cs1).2 = entry_at N x cs1).
  { intros x. by rewrite !entry_at_entries, H2. }
  rewrite H1. setoid_rewrite Hx. split.
  { rewrite Hv. simpl. unfold at_offset. by rewrite decide_True. }
  unfold cs1, applyAck. rewrite He. set (cs0 := on_shard N o _ cs).
  apply (tryAdvance_spec N t0 cs0). done.
Qed.

(** Redelivery candidates are the first lapsed entries in the order of the walk, at most
    [maxCount] of them but at least one when any has lapsed. *)
Lemma redelivery_candidates order cutoff maxCount cs : 0 <= maxCount →
  GetAllRedeliveryCandidates order cutoff maxCount cs =
  Ret (take (Z.to_nat (Z.max 1 maxCount))
         (List.filter (λ e, LastAttempt e <? cutoff) (concat (order <$> pelShards cs)))).
Proof.
  intros Hm. unfold GetAllRedeliveryCandidates. destruct (maxCount <? 0) eqn:E; bool_prop; [lia|].
  rewrite collect_shards_spec by (simpl; lia). simpl. by rewrite Nat.sub_0_r.
Qed.

(** ** Witnesses *)

Definition clock0 : nat → nat → Z := λ _ _, 9.
Definition cs_start : ConsumerState := NewConsumerState 2 0 0 clock0 empty_disk.
Definition cs_busy : ConsumerState :=
  (Ack 2 3 3 Written 0 (Deliver 2 2 Written 1 "b" (Deliver 2 1 Written 0 "a" cs_start).2).2).2.
Definition cs_mixed : ConsumerState :=
  (Claim 2 5 Written 1 "a" (Compact 4 4 (Some 1%nat) cs_busy).2).2.
Definition cs_whole : ConsumerState :=
  (Claim 2 5 Written 1 "a" (Compact 4 4 None cs_busy).2).2.

Lemma busy_history strict : rtc (cstep 2 strict) cs_start cs_busy.
Proof.
  eapply rtc_l; [apply (st_deliver 2 strict _ 1 0 "a"); lia|].
  eapply rtc_l; [apply (st_deliver 2 strict _ 2 1 "b"); lia|].
  eapply rtc_l; [apply (st_ack 2 strict _ 3 3 0)|apply rtc_refl].
Qed.

(** A write that reports an error although the record is there, and one that tears
    the next record. *)
Definition cs_failing : ConsumerState :=
  (Deliver 2 2 TornWrite 1 "b" (Deliver 2 1 WrittenError 0 "a" cs_start).2).2.

Lemma recovery_exact_witness :
  GetPending 2 1 (NewConsumerState 2 7 7 clock0 (disk cs_whole)) = Some (mkPendingEntry 1 "a" 2 2 5) ∧
  GetPending 2 0 (NewConsumerState 2 7 7 clock0 (disk cs_failing)) = Some (mkPendingEntry 0 "a" 1 1 1) ∧
  GetPending 2 1 (NewConsumerState 2 7 7 clock0 (disk cs_failing)) = None.
Proof.
  assert (H : rtc (cstep 2 true) cs_start cs_whole).
  { etrans; [apply busy_history|].
    eapply rtc_l; [by apply (st_compact 2 true _ 4 4 None)|].
    eapply rtc_l; [apply (st_claim 2 true _ 5 1 "a")|apply rtc_refl]. }
  destruct (recovery_exact 2 ltac:(lia) 0 0 clock0 cs_whole 7 7 clock0) as [Hw _].
  destruct (Hw H) as (_ & _ & _ & Ho). rewrite Ho. split; [vm_compute; reflexivity|].
  destruct (recovery_exact 2 ltac:(lia) 0 0 clock0 cs_failing 7 7 clock0) as [_ Hf].
  destruct (Hf (applyDeliver 2 0 "a" 1 cs_start)) as (_ & _ & _ & Ho').
  { eapply rtc_l; [apply (hs_call 2 _ _ (λ _, WrittenError) (CDeliver 1 0 "a") (λ _ _, 0))|].
    eapply rtc_l; [apply (hs_call 2 _ _ (λ _, TornWrite) (CDeliver 2 1 "b") (λ _ _, 0))|]. apply rtc_refl. }
  rewrite !Ho'. split; vm_compute; reflexivity.
Defined.

Lemma recovery_after_crash_witness :
  look <$> GetPending 2 1 (NewConsumerState 2 7 7 clock0 (disk cs_mixed)) = Some (1, "a"%string, 2, 5).
Proof.
  assert (H : rtc (cstep 2 false) cs_start cs_mixed).
  { etrans; [apply busy_history|].
    eapply rtc_l; [by apply (st_compact 2 false _ 4 4 (Some 1%nat))|].
    eapply rtc_l; [apply (st_claim 2 false _ 5 1 "a")|apply rtc_refl]. }
  destruct (recovery_after_crash 2 ltac:(lia) 0 0 clock0 cs_mixed H 7 7 clock0) as [_ Ho].
  rewrite Ho. vm_compute. reflexivity.
Defined.

Lemma sharding_transparent_witness :
  GetPending 2 3 (applyOp 2 (λ _, 0) (OpDeliver 3 "a" 1) cs_start) =
  GetPending 5 3 (applyOp 5 (λ _, 0) (OpDeliver 3 "a" 1) (NewConsumerState 5 0 0 clock0 empty_disk)).
Proof.
  assert (H : same_view 2 5 cs_start (NewConsumerState 5 0 0 clock0 empty_disk)).
  { split_and!; try done. intros o. unfold entry_at, shard_of.
    assert (Hn : ∀ n k, entries (default empty_shard (pelShards (NewConsumerState n 0 0 clock0 empty_disk)
      !! k)) !! o = None).
    { intros n k. rewrite NewConsumerState_eq. simpl. unfold load, load_pel. simpl.
      rewrite list_lookup_imap. simpl.
      destruct (replicate (Z.to_nat n) empty_shard !! k) as [sh|] eqn:E; simpl; [|apply lookup_empty].
      rewrite lookup_empty. apply lookup_replicate in E as [-> _]. apply lookup_empty. }
    unfold cs_start. by rewrite !Hn. }
  destruct (sharding_transparent 2 5 ltac:(lia) ltac:(lia) (λ _, 0) (λ _, 0) (OpDeliver 3 "a" 1)
    _ _ H) as (_ & _ & _ & _ & _ & He).
  apply He.
Defined.

Lemma ack_floor_exact_witness :
  AckFloor (state (Ack 2 4 4 Written 1 cs_busy).2) <= 1 ∧ GetPending 2 1 (Ack 2 4 4 Written 1 cs_busy).2 = None.
Proof.
  destruct (ack_floor_exact 2 ltac:(lia) 4 4 Written 1 cs_busy) as (H1 & _ & H2 & _);
    [vm_compute; reflexivity|eexists; vm_compute; reflexivity|vm_compute; split; congruence|].
  split; [|exact H1]. vm_compute. congruence.
Defined.

(** ** Behaviours at the edges *)

(** The floor starts at 0 and offset 0 is never checked: with offset 0 still pending,
    acknowledging offset 1 moves the floor to 1. *)
Example floor_passes_zero :
  let cs := (Ack 2 3 3 Written 1 (Deliver 2 2 Written 1 "b" (Deliver 2 1 Written 0 "a" cs_start).2).2).2 in
  AckFloor (state cs) = 1 ∧ is_Some (GetPending 2 0 cs).
Proof. vm_compute. split; [reflexivity|by eexists]. Qed.

(** A compaction that stops between the snapshots and the truncation makes the next replay count
    the logged claim a second time. *)
Example count_replayed_twice :
  let cs := (Compact 6 6 (Some 3%nat) cs_whole).2 in
  DeliveryCount <$> GetPending 2 1 cs = Some 2 ∧
  DeliveryCount <$> GetPending 2 1 (NewConsumerState 2 7 7 clock0 (disk cs)) = Some 3.
Proof. vm_compute. split; reflexivity. Qed.

(** A piece of a record left by a crash is not removed: operations logged after it succeed and are
    gone at the next restart. *)
Example torn_tail_hides_later_records :
  let crashed := NewConsumerState 2 7 7 clock0 (disk (Deliver 2 1 TornWrite 0 "a" cs_start).2) in
  let '(ok, cs) := Deliver 2 8 Written 4 "c" crashed in
  ok = true ∧ is_Some (GetPending 2 4 cs) ∧
  GetPending 2 4 (NewConsumerState 2 9 9 clock0 (disk cs)) = None.
Proof. vm_compute. split_and!; [reflexivity|by eexists|reflexivity]. Qed.

(** Delivering a pending offset to another consumer leaves it in the index of the first. *)
Example stale_index :
  let cs := (Deliver 2 2 Written 0 "b" (Deliver 2 1 Written 0 "a" cs_start).2).2 in
  GetPendingByConsumer elements "a" cs = [mkPendingEntry 0 "b" 2 1 2].
Proof. vm_compute. reflexivity. Qed.

End ConsumerStateFacts.
