(* ===== verification/LogGroups.v ===== *)
(** * Consumer group files (src/logstorage/consumer_group.go)

    The groups of every queue in memory, and one file per group that is
    replaced by a rename.  [Get] and [List] hand out pointers to the groups in
    memory: [through] is a method run on such a pointer, and only [Save] and
    [Sync] write the file.  The mutex makes each call atomic; the answer of the
    file system to a write is an argument.

    A file is what was marshalled into it, the JSON library restoring what it
    wrote; files of other shapes are [Unreadable] or carry a later version.  The
    paths are relative to the directory of the store; of [filepath.Join] only
    the rule for an empty element matters for an encoded name, which is never
    [.] or [..] and holds no separator.  [Delete] also builds the path names had
    before they were encoded.  Loading takes the identity of a group from the
    contents of a file, wherever it is, in the order of [filepath.Walk].

    Theorems: the encoding of names is injective and a group's path belongs to
    it alone; a saved group is what a restart loads, also beside a file of an
    older version; a failed write keeps the group marked and the next [Sync]
    writes it or keeps the mark. *)

From Stdlib Require Import ZArith Lia Bool Ascii String.
From stdpp Require Import prelude gmap strings sorting lexico.
From S2P Require Import Prelude GoStrings ConsumerGroup.

Import Group.

Module GroupFiles.

(** ** Names in paths *)

Definition slash : ascii := "/"%char.
Definition percent : ascii := "%"%char.
Definition backslash : ascii := "\"%char.

(** One byte: [%], [/] and [\] become their upper-case hexadecimal code. *)
Definition encode_byte (c : ascii) : string :=
  if ascii_dec c percent then "%25"
  else if ascii_dec c slash then "%2F"
  else if ascii_dec c backslash then "%5C"
  else String c EmptyString.

Fixpoint encode_bytes (s : string) : string :=
  match s with
  | EmptyString => EmptyString
  | String c s => encode_byte c +:+ encode_bytes s
  end.

Definition encodePathComponent (name : string) : string :=
  if str_eqb name "." then "%2E"
  else if str_eqb name ".." then "%2E%2E"
  else if negb (ContainsAny name [percent; slash; backslash]) then name
  else encode_bytes name.

(** [filepath.Join] of two clean elements: an empty one is left out. *)
Definition join (a b : string) : string :=
  if str_eqb a EmptyString then b else a +:+ String slash b.

Definition groupPath (queueName groupID : string) : string :=
  join (encodePathComponent queueName) (encodePathComponent groupID +:+ ".json").

(** A path as its elements.  [filepath.Join] with the directory of the store drops
    empty elements and dots, and takes two dots up; the directory is absolute and
    clean. *)
Definition path_step (up : list string) (c : string) : list string :=
  if str_eqb c EmptyString || str_eqb c "." then up
  else if str_eqb c ".." then tail up else c :: up.
Definition join_clean (dir elements : list string) : list string :=
  rev (foldl path_step (rev dir) elements).

Definition legacyGroupPath (dir : list string) (queueName groupID : string) : list string :=
  join_clean dir (Split slash queueName ++ Split slash (groupID +:+ ".json")).

(** [contained]: the path relative to the directory, when it stays inside. *)
Definition contained (dir path : list string) : option string :=
  if bool_decide (take (length dir) path = dir) then Some (Join slash (drop (length dir) path)) else None.

(** ** The store *)

Inductive Content :=
| Unreadable
| Wrapped (version : Z) (state : option ConsumerGroup) (hasAutoCommit : bool).

Record ConsumerGroupStateStore := mkStateStore {
  groups : gmap string (gmap string ConsumerGroup);
  dirty : gset (string * string);
  files : gmap string Content
}.
#[export] Instance StateStore_eta : Eta ConsumerGroupStateStore := λ r,
  mkStateStore (groups r) (dirty r) (files r).

Definition consumerGroupVersion : Z := 2.

(** [decodeConsumerGroupState]: [None] is an error or an absent state. *)
Definition decodeConsumerGroupState (c : Content) : option (ConsumerGroup * bool) :=
  match c with
  | Unreadable => None
  | Wrapped version state hasAutoCommit =>
      if consumerGroupVersion <? version then None
      else match state with None => None | Some g => Some (g, hasAutoCommit) end
  end.

(** The defaults of fields an older version left out. *)
Definition normalize (g : ConsumerGroup) (hasAutoCommit : bool) : ConsumerGroup :=
  mkConsumerGroup (ID g) (QueueName g) (Pattern g)
    (if bool_decide (Mode g = GroupModeOther EmptyString) then GroupModeQueue else Mode g)
    (if hasAutoCommit then AutoCommit g else true)
    (Some (CursorView g)) (PEL g) (Consumers g) (CreatedAt g) (UpdatedAt g).

Definition put (g : ConsumerGroup) (gs : gmap string (gmap string ConsumerGroup)) :
    gmap string (gmap string ConsumerGroup) :=
  <[QueueName g := <[ID g := g]> (default ∅ (gs !! QueueName g))]> gs.

(** The order of [filepath.Walk]: the entries of a directory by the bytes of their
    names, a directory with all that is below it. *)
Definition path_key (path : string) : list (list N) :=
  (λ name, N_of_ascii <$> list_ascii_of_string name) <$> Split slash path.
Definition walk_lt (a b : string) : Prop := lexico (path_key a) (path_key b).
Definition walk_le (a b : string * Content) : Prop := path_key a.1 = path_key b.1 ∨ walk_lt a.1 b.1.
#[export] Instance walk_le_dec : RelDecision walk_le.
Proof. intros a b. unfold walk_le, walk_lt. apply _. Defined.
Definition walk (fs : gmap string Content) : list (string * Content) :=
  merge_sort walk_le (map_to_list fs).

(** [loadAll]: a later file of the walk replaces what an earlier one gave. *)
Definition loadAll (s : ConsumerGroupStateStore) : ConsumerGroupStateStore :=
  s <| groups := foldl (λ gs pc, match decodeConsumerGroupState pc.2 with
                                 | None => gs
                                 | Some (g, has) => put (normalize g has) gs
                                 end) (groups s) (walk (files s)) |>.

Definition NewConsumerGroupStateStore (fs : gmap string Content) : ConsumerGroupStateStore :=
  loadAll (mkStateStore ∅ ∅ fs).

(** [writeGroup]: [ok] is the answer of the file system.  A failed write leaves
    the old file. *)
Definition writeGroup (ok : bool) (ref : string * string) (state : ConsumerGroup)
    (s : ConsumerGroupStateStore) : bool * ConsumerGroupStateStore :=
  if ok then (true, s <| files := <[groupPath ref.1 ref.2 :=
                                    Wrapped consumerGroupVersion (Some state) true]> (files s) |>)
  else (false, s).

Definition flush (ok : bool) (ref : string * string) (state : ConsumerGroup)
    (s : ConsumerGroupStateStore) : bool * ConsumerGroupStateStore :=
  let s := s <| dirty := dirty s ∖ {[ref]} |> in
  let '(ok, s) := writeGroup ok ref state s in
  if ok then (true, s) else (false, s <| dirty := {[ref]} ∪ dirty s |>).

Definition Save (ok : bool) (state : ConsumerGroup) (s : ConsumerGroupStateStore) :
    bool * ConsumerGroupStateStore :=
  let ref := (QueueName state, ID state) in
  flush ok ref state (s <| groups := put state (groups s) |> <| dirty := {[ref]} ∪ dirty s |>).

(** [None] is [ErrGroupNotFound]. *)
Definition Get (queueName groupID : string) (s : ConsumerGroupStateStore) : option ConsumerGroup :=
  groups s !! queueName ≫= λ gs, gs !! groupID.

(** A method through a pointer that [Get] handed out. *)
Definition through (queueName groupID : string) (f : ConsumerGroup → ConsumerGroup)
    (s : ConsumerGroupStateStore) : ConsumerGroupStateStore :=
  s <| groups := alter (alter f groupID) queueName (groups s) |>.

(** [Delete]: the entry in memory, then the file under its path and under the path
    it had before names were encoded; [ok] and [legacy_ok] answer the removals.
    Empty directories, which it also removes, are not part of the state. *)
Definition Delete (dir : list string) (ok legacy_ok : bool) (queueName groupID : string)
    (s : ConsumerGroupStateStore) : bool * ConsumerGroupStateStore :=
  let gs := match groups s !! queueName with
            | None => groups s
            | Some q => let q := delete groupID q in
                        if decide (q = ∅) then delete queueName (groups s)
                        else <[queueName := q]> (groups s)
            end in
  let s := s <| groups := gs |> <| dirty := dirty s ∖ {[(queueName, groupID)]} |> in
  if ok then
    let s := s <| files := delete (groupPath queueName groupID) (files s) |> in
    match contained dir (legacyGroupPath dir queueName groupID) with
    | None => (true, s)
    | Some path => if legacy_ok then (true, s <| files := delete path (files s) |>) else (false, s)
    end
  else (false, s).

(** [walk] is the order of the map. *)
Definition List (walk : gmap string ConsumerGroup → list ConsumerGroup) (queueName : string)
    (s : ConsumerGroupStateStore) : list ConsumerGroup :=
  match groups s !! queueName with None => [] | Some gs => walk gs end.

Definition Exists (queueName groupID : string) (s : ConsumerGroupStateStore) : bool :=
  bool_decide (is_Some (Get queueName groupID s)).

Definition CreateIfNotExists (ok : bool) (state : ConsumerGroup) (s : ConsumerGroupStateStore) :
    bool * ConsumerGroupStateStore :=
  if Exists (QueueName state) (ID state) s then (true, s) else Save ok state s.

(** [UpdateCursor]: memory only, marked for [Sync]; [false] is [ErrGroupNotFound]. *)
Definition UpdateCursor (queueName groupID : string) (cursor committed now : Z)
    (s : ConsumerGroupStateStore) : bool * ConsumerGroupStateStore :=
  match Get queueName groupID s with
  | None => (false, s)
  | Some _ => (true, through queueName groupID (SetCursor cursor committed now) s
                       <| dirty := {[(queueName, groupID)]} ∪ dirty s |>)
  end.

Definition GetCursor (queueName groupID : string) (s : ConsumerGroupStateStore) :
    option QueueCursor := CursorView <$> Get queueName groupID s.

(** [Sync]: the marked groups still in memory are written; [oks] answers each write. *)
Fixpoint flush_each (oks : nat → bool) (l : list (string * string)) (s : ConsumerGroupStateStore) :
    bool * ConsumerGroupStateStore :=
  match l with
  | [] => (true, s)
  | ref :: l =>
      match Get ref.1 ref.2 s with
      | None => flush_each oks l s
      | Some state =>
          let '(ok, s) := flush (oks O) ref state s in
          let '(rest, s) := flush_each (λ i, oks (S i)) l s in
          (ok && rest, s)
      end
  end.
Definition Sync (oks : nat → bool) (order : gset (string * string) → list (string * string))
    (s : ConsumerGroupStateStore) : bool * ConsumerGroupStateStore :=
  flush_each oks (order (dirty s)) s.

End GroupFiles.

Module GroupFilesFacts.
Import GroupFiles.

(** ** Paths *)

Definition decode_bytes : string → string :=
  fix go s := match s with
  | EmptyString => EmptyString
  | String "%" (String "2" (String "5" r)) => String percent (go r)
  | String "%" (String "2" (String "F" r)) => String slash (go r)
  | String "%" (String "5" (String "C" r)) => String backslash (go r)
  | String c r => String c (go r)
  end.

Lemma encode_byte_cases c :
  (c = percent ∧ encode_byte c = "%25"%string) ∨ (c = slash ∧ encode_byte c = "%2F"%string) ∨
  (c = backslash ∧ encode_byte c = "%5C"%string) ∨
  (c ≠ percent ∧ c ≠ slash ∧ c ≠ backslash ∧ encode_byte c = String c EmptyString).
Proof.
  unfold encode_byte. destruct (ascii_dec c percent) as [->|]; [by left|].
  destruct (ascii_dec c slash) as [->|]; [by right; left|].
  destruct (ascii_dec c backslash) as [->|]; [by right; right; left|]. by right; right; right.
Qed.

Lemma decode_plain c r : c ≠ percent → decode_bytes (String c r) = String c (decode_bytes r).
Proof.
  intros Hc. destruct c as [[] [] [] [] [] [] [] []]; try reflexivity. by destruct Hc.
Qed.

Lemma decode_encode s : decode_bytes (encode_bytes s) = s.
Proof.
  induction s as [|c s IH]; [done|]. cbn [encode_bytes].
  destruct (encode_byte_cases c) as [[-> ->]|[[-> ->]|[[-> ->]|(H & _ & _ & ->)]]].
  - change (String percent (decode_bytes (encode_bytes s)) = String percent s). by rewrite IH.
  - change (String slash (decode_bytes (encode_bytes s)) = String slash s). by rewrite IH.
  - change (String backslash (decode_bytes (encode_bytes s)) = String backslash s). by rewrite IH.
  - change (String c EmptyString +:+ encode_bytes s) with (String c (encode_bytes s)).
    by rewrite decode_plain, IH.
Qed.

Lemma encode_bytes_plain s : ContainsAny s [percent; slash; backslash] = false → encode_bytes s = s.
Proof.
  unfold ContainsAny. induction s as [|c s IH]; [done|]. cbn [encode_bytes].
  intros H. destruct (encode_byte_cases c) as [[-> _]|[[-> _]|[[-> _]|(H1 & H2 & H3 & ->)]]]; [done| | |].
  - exfalso. revert H. cbn. by rewrite ?orb_true_r.
  - exfalso. revert H. cbn. by rewrite ?orb_true_r.
  - change (String c EmptyString +:+ encode_bytes s) with (String c (encode_bytes s)).
    rewrite IH; [done|]. revert H. cbn.
    destruct (Contains s percent), (Contains s slash), (Contains s backslash);
      rewrite ?orb_true_r; done.
Qed.

Lemma encodePathComponent_bytes s : s ≠ "."%string → s ≠ ".."%string →
  encodePathComponent s = encode_bytes s.
Proof.
  intros H1 H2. unfold encodePathComponent, str_eqb. rewrite !bool_decide_eq_false_2 by done.
  destruct (ContainsAny _ _) eqn:E; cbn [negb]; [done|]. by rewrite encode_bytes_plain.
Qed.

(** A code of the dots is not the encoding of a name. *)
Lemma encode_bytes_not_dot s r : encode_bytes s ≠ String "%" (String "2" (String "E" r)).
Proof.
  destruct s as [|c s]; [done|]. cbn [encode_bytes].
  destruct (encode_byte_cases c) as [[-> ->]|[[-> ->]|[[-> ->]|(H & _ & _ & ->)]]]; [done..|].
  intros [= -> _]. by destruct H.
Qed.

Lemma encodePathComponent_inj a b : encodePathComponent a = encodePathComponent b → a = b.
Proof.
  assert (Hdots : ∀ d x, d = "."%string ∨ d = ".."%string → x ≠ "."%string → x ≠ ".."%string →
    encodePathComponent d ≠ encodePathComponent x).
  { intros d x Hd H1 H2. rewrite (encodePathComponent_bytes x) by done.
    by destruct Hd as [-> | ->]; intros Heq; symmetry in Heq; apply encode_bytes_not_dot in Heq. }
  destruct (decide (a = "."%string ∨ a = ".."%string)) as [Ha|Ha];
    destruct (decide (b = "."%string ∨ b = ".."%string)) as [Hb|Hb]; intros Heq.
  - by destruct Ha as [-> | ->], Hb as [-> | ->].
  - by destruct (Hdots a b); auto.
  - by destruct (Hdots b a); auto.
  - rewrite !encodePathComponent_bytes in Heq by auto.
    by rewrite <-(decode_encode a), <-(decode_encode b), Heq.
Qed.

Lemma encode_no_slash s : Contains (encodePathComponent s) slash = false.
Proof.
  destruct (decide (s = "."%string)) as [->|H1]; [done|].
  destruct (decide (s = ".."%string)) as [->|H2]; [done|].
  rewrite encodePathComponent_bytes by done. clear. induction s as [|c s IH]; [done|].
  cbn [encode_bytes]. rewrite Contains_app, IH, orb_false_r.
  destruct (encode_byte_cases c) as [[-> ->]|[[-> ->]|[[-> ->]|(_ & H & _ & ->)]]]; [done..|].
  cbn. apply orb_false_iff. split; [|done]. by apply Ascii.eqb_neq.
Qed.

Lemma app_cancel_r (a b s : string) : a +:+ s = b +:+ s → a = b.
Proof.
  intros H. apply (f_equal list_ascii_of_string) in H.
  assert (Happ : ∀ x y, list_ascii_of_string (x +:+ y) = list_ascii_of_string x ++ list_ascii_of_string y).
  { induction x as [|c x IH]; intros y; [done|].
    change (c :: list_ascii_of_string (x +:+ y)
      = c :: (list_ascii_of_string x ++ list_ascii_of_string y)). f_equal. apply IH. }
  rewrite !Happ in H. apply app_inv_tail in H.
  by rewrite <-(string_of_list_ascii_of_string a), <-(string_of_list_ascii_of_string b), H.
Qed.

Lemma encode_empty s : encodePathComponent s = EmptyString → s = EmptyString.
Proof. intros H. by apply encodePathComponent_inj. Qed.

Lemma groupPath_inj q g q' g' : groupPath q g = groupPath q' g' → q = q' ∧ g = g'.
Proof.
  unfold groupPath, join, str_eqb.
  assert (Hno : ∀ x, Contains (encodePathComponent x +:+ ".json") slash = false).
  { intros x. by rewrite Contains_app, encode_no_slash. }
  assert (Hyes : ∀ x y, Contains (x +:+ String slash y) slash = true).
  { intros x y. rewrite Contains_app. cbn. by rewrite orb_true_r. }
  destruct (decide (encodePathComponent q = EmptyString)) as [Eq|Eq];
    destruct (decide (encodePathComponent q' = EmptyString)) as [Eq'|Eq'];
    rewrite ?(bool_decide_eq_true_2 _ Eq), ?(bool_decide_eq_true_2 _ Eq'),
      ?(bool_decide_eq_false_2 _ Eq), ?(bool_decide_eq_false_2 _ Eq'); intros H.
  - apply encode_empty in Eq as ->, Eq' as ->. apply app_cancel_r, encodePathComponent_inj in H. done.
  - apply (f_equal (λ s, Contains s slash)) in H. by rewrite Hno, Hyes in H.
  - apply (f_equal (λ s, Contains s slash)) in H. by rewrite Hno, Hyes in H.
  - apply (f_equal (Cut slash)) in H. rewrite !Cut_app in H by apply encode_no_slash.
    injection H as H1 H2. apply encodePathComponent_inj in H1.
    apply app_cancel_r, encodePathComponent_inj in H2. done.
Qed.

(** ** What a restart loads *)

Definition lookup2 (q g : string) (gs : gmap string (gmap string ConsumerGroup)) :
    option ConsumerGroup := gs !! q ≫= λ m, m !! g.

Lemma lookup2_put q g x gs : lookup2 q g (put x gs) =
  if decide (QueueName x = q ∧ ID x = g) then Some x else lookup2 q g gs.
Proof.
  unfold lookup2, put. destruct (decide (QueueName x = q)) as [<-|Hq].
  - rewrite lookup_insert_eq. cbn. destruct (decide (ID x = g)) as [<-|Hg].
    + rewrite lookup_insert_eq. by rewrite decide_True.
    + rewrite lookup_insert_ne by done. rewrite decide_False by (by intros []).
      by destruct (gs !! QueueName x); rewrite ?lookup_empty.
  - rewrite lookup_insert_ne by done. by rewrite decide_False by (by intros []).
Qed.

(** What a file says about a group. *)
Definition claim (q g : string) (c : Content) : option ConsumerGroup :=
  match decodeConsumerGroupState c with
  | Some (x, has) => if decide (QueueName x = q ∧ ID x = g) then Some (normalize x has) else None
  | None => None
  end.

(** The group a restart finds under two names. *)
Definition loaded (fs : gmap string Content) (q g : string) : option ConsumerGroup :=
  Get q g (NewConsumerGroupStateStore fs).

Definition claims (q g : string) : list (string * Content) → list ConsumerGroup :=
  omap (λ pc, claim q g pc.2).

Lemma claims_cons q g path c l : claims q g ((path, c) :: l) = option_list (claim q g c) ++ claims q g l.
Proof. unfold claims. cbn. by destruct (claim q g c). Qed.

Lemma foldl_claims q g l : ∀ gs,
  lookup2 q g (foldl (λ gs pc, match decodeConsumerGroupState pc.2 with
                               | None => gs
                               | Some (x, has) => put (normalize x has) gs
                               end) gs l) =
  match last (claims q g l) with Some x => Some x | None => lookup2 q g gs end.
Proof.
  induction l as [|[path c] l IH]; intros gs; [done|]. cbn [foldl]. rewrite IH.
  rewrite claims_cons, last_app. destruct (last (claims q g l)); [done|]. cbn [snd].
  unfold claim. destruct (decodeConsumerGroupState c) as [[x has]|]; [|done].
  rewrite lookup2_put. change (QueueName (normalize x has)) with (QueueName x).
  change (ID (normalize x has)) with (ID x). by case_decide.
Qed.

(** The last file of the walk that claims a group has it. *)
Lemma loaded_last fs q g : loaded fs q g = last (claims q g (walk fs)).
Proof.
  unfold loaded, Get, NewConsumerGroupStateStore, loadAll. cbn [groups files].
  etrans; [apply (foldl_claims q g (walk fs) ∅)|]. by destruct (last _).
Qed.

(** ** The walk *)

#[export] Instance walk_le_trans : Transitive walk_le.
Proof.
  intros a b c. unfold walk_le, walk_lt. intros [->|H1] [E|H2]; try (rewrite <-E); auto.
  right. by etrans.
Qed.
#[export] Instance walk_le_total : Total walk_le.
Proof.
  intros a b. unfold walk_le, walk_lt.
  destruct (trichotomy (lexico (A := list (list N))) (path_key a.1) (path_key b.1)) as [H|[H|H]]; auto.
Qed.

Lemma path_key_inj a b : path_key a = path_key b → a = b.
Proof.
  assert (H1 : Inj (=) (=) N_of_ascii).
  { intros c d Hcd. by rewrite <-(ascii_N_embedding c), Hcd, ascii_N_embedding. }
  assert (H2 : Inj (=) (=) (λ name, N_of_ascii <$> list_ascii_of_string name)).
  { intros x y Hxy. apply (inj (fmap N_of_ascii)) in Hxy.
    by rewrite <-(string_of_list_ascii_of_string x), Hxy, string_of_list_ascii_of_string. }
  intros H. apply (Split_inj slash). by apply (inj (fmap (λ name, N_of_ascii <$> list_ascii_of_string name))) in H.
Qed.

Lemma walk_perm fs : walk fs ≡ₚ map_to_list fs.
Proof. apply merge_sort_Permutation. Qed.
Lemma walk_sorted fs : StronglySorted walk_le (walk fs).
Proof. apply StronglySorted_merge_sort; apply _. Qed.

Lemma walk_elem fs path c : (path, c) ∈ walk fs ↔ fs !! path = Some c.
Proof. by rewrite walk_perm, elem_of_map_to_list. Qed.

Lemma walk_same fs a b : a ∈ walk fs → b ∈ walk fs → walk_le a b → walk_le b a → a = b.
Proof.
  destruct a as [p c], b as [p' c']. rewrite !walk_elem. intros H1 H2 [E|L1] [E'|L2]; cbn in *.
  - apply path_key_inj in E as ->. by simplify_eq.
  - apply path_key_inj in E as ->. by simplify_eq.
  - apply path_key_inj in E' as ->. by simplify_eq.
  - exfalso. unfold walk_lt in *. apply (irreflexivity lexico (path_key p)). by etrans.
Qed.

Lemma sorted_filter {A} (R : relation A) (P : A → Prop) `{∀ x, Decision (P x)} l :
  StronglySorted R l → StronglySorted R (filter P l).
Proof.
  induction 1 as [|a l Hl IH Ha]; [constructor|]. rewrite filter_cons. case_decide; [|done].
  constructor; [done|]. rewrite Forall_forall in *. intros x [_ Hx]%list_elem_of_filter. by apply Ha.
Qed.

Lemma walk_delete fs p : walk (delete p fs) = filter (λ pc, pc.1 ≠ p) (walk fs).
Proof.
  apply (StronglySorted_unique_strong walk_le).
  - intros a b Ha Hb. apply (walk_same fs).
    + destruct a as [q c]. apply walk_elem in Ha. apply walk_elem. by apply lookup_delete_Some in Ha as [_ ?].
    + by apply list_elem_of_filter in Hb as [_ ?].
  - apply walk_sorted.
  - apply sorted_filter, walk_sorted.
  - rewrite !walk_perm. apply NoDup_Permutation.
    + apply NoDup_map_to_list.
    + apply NoDup_filter, NoDup_map_to_list.
    + intros [q c]. rewrite list_elem_of_filter, !elem_of_map_to_list, lookup_delete_Some. cbn. naive_solver.
Qed.

(** A file that says nothing about a group does not matter to it. *)
Lemma loaded_silent fs p q g : (∀ c, fs !! p = Some c → claim q g c = None) →
  loaded fs q g = loaded (delete p fs) q g.
Proof.
  intros Hc. rewrite !loaded_last, walk_delete. f_equal.
  assert (Hw : ∀ c, (p, c) ∈ walk fs → claim q g c = None) by (intros c Hin; by apply Hc, walk_elem).
  revert Hw. induction (walk fs) as [|[p' c] l IH]; intros Hw; [done|]. rewrite filter_cons.
  specialize (IH (λ c Hin, Hw c (list_elem_of_further _ _ _ Hin))).
  case_decide as E; cbn in E.
  - by rewrite !claims_cons, IH.
  - subst p'. rewrite <-IH, claims_cons. by rewrite Hw by (by left).
Qed.

(** No file behind [p] in the walk claims the group. *)
Definition no_later (fs : gmap string Content) (p q g : string) : Prop :=
  ∀ path c, fs !! path = Some c → is_Some (claim q g c) → path = p ∨ walk_lt path p.

Lemma loaded_here fs p q g c x : fs !! p = Some c → claim q g c = Some x → no_later fs p q g →
  loaded fs q g = Some x.
Proof.
  intros Hp Hx Hn. rewrite loaded_last. apply walk_elem in Hp as Hin.
  apply list_elem_of_split in Hin as (l1 & l2 & Hl). pose proof (walk_sorted fs) as Hs. rewrite Hl in *.
  assert (H2 : claims q g l2 = []).
  { apply elem_of_nil_inv. intros y (pc & Hpc & Hy)%list_elem_of_omap. destruct pc as [path c'].
    assert (Hin : (path, c') ∈ walk fs) by (rewrite Hl; set_solver).
    assert (Hle : walk_le (p, c) (path, c')).
    { apply (StronglySorted_app_1_r _ l1), StronglySorted_cons in Hs as [Hs _].
      by apply (proj1 (Forall_forall _ _) Hs). }
    pose proof (NoDup_map_to_list fs) as Hnd. rewrite <-walk_perm, Hl in Hnd.
    assert (Heq : (p, c) = (path, c')).
    { apply (walk_same fs); [rewrite Hl; set_solver|done|done|].
      destruct (Hn path c') as [->|Hlt]; [by apply walk_elem|by exists y| |by right]. by left. }
    rewrite <-Heq in Hpc. apply NoDup_app in Hnd as (_ & _ & Hnd). apply NoDup_cons in Hnd as [Hnd _]. done. }
  unfold claims. rewrite omap_app. fold (claims q g). rewrite claims_cons, Hx, H2. cbn. by rewrite last_snoc.
Qed.

(** ** Writing *)

(** The groups in memory are filed under their own names. *)
Definition keyed (s : ConsumerGroupStateStore) : Prop :=
  ∀ q g x, Get q g s = Some x → QueueName x = q ∧ ID x = g.

Lemma keyed_put x gs d fs d' fs' : keyed (mkStateStore gs d fs) → keyed (mkStateStore (put x gs) d' fs').
Proof.
  intros Hk q g y. change (lookup2 q g (put x gs) = Some y → QueueName y = q ∧ ID y = g).
  rewrite lookup2_put. case_decide as E; [by intros [= <-]|]. apply Hk.
Qed.

Lemma keyed_load fs : keyed (NewConsumerGroupStateStore fs).
Proof.
  intros q g x. change (Get q g (NewConsumerGroupStateStore fs)) with (loaded fs q g). rewrite loaded_last.
  intros H. apply last_Some_elem_of, list_elem_of_omap in H as ([path c] & _ & H). cbn in H.
  unfold claim in H. destruct (decodeConsumerGroupState c) as [[y has]|]; [|done].
  case_decide as E; [|done]. by injection H as <-.
Qed.

Lemma flush_groups ok ref x s : groups (flush ok ref x s).2 = groups s.
Proof. by destruct ok. Qed.

Lemma keyed_save ok x s : keyed s → keyed (Save ok x s).2.
Proof.
  intros Hk. unfold Save. destruct s as [gs d fs]. intros q g y. unfold Get. rewrite flush_groups.
  cbn [groups]. by apply (keyed_put x gs d fs d fs).
Qed.

Lemma flush_files ok ref x s : files (flush ok ref x s).2 =
  if ok then <[groupPath ref.1 ref.2 := Wrapped consumerGroupVersion (Some x) true]> (files s) else files s.
Proof. by destruct ok. Qed.

Lemma flush_dirty ok ref x s : dirty (flush ok ref x s).2 =
  if ok then dirty s ∖ {[ref]} else {[ref]} ∪ dirty s ∖ {[ref]}.
Proof. by destruct ok. Qed.

(** The outcome of a sync for one group: written and no longer marked, or left
    as it was and marked. *)
Definition settled (s s' : ConsumerGroupStateStore) (ref : string * string) (x : ConsumerGroup) (ok : bool) : Prop :=
  if ok then files s' !! groupPath ref.1 ref.2 = Some (Wrapped consumerGroupVersion (Some x) true) ∧ ref ∉ dirty s'
  else files s' !! groupPath ref.1 ref.2 = files s !! groupPath ref.1 ref.2 ∧ ref ∈ dirty s'.

Lemma flush_each_spec l : ∀ oks s, NoDup l → let '(r, s') := flush_each oks l s in
  groups s' = groups s ∧
  (∀ ref x, ref ∈ l → Get ref.1 ref.2 s = Some x → ∃ ok, settled s s' ref x ok ∧ (r = true → ok = true)) ∧
  (∀ path, (∀ ref, ref ∈ l → is_Some (Get ref.1 ref.2 s) → path ≠ groupPath ref.1 ref.2) →
     files s' !! path = files s !! path) ∧
  (∀ ref, ref ∉ l → ref ∈ dirty s' ↔ ref ∈ dirty s).
Proof.
  induction l as [|ref l IH]; intros oks s Hnd; cbn [flush_each].
  { split_and!; [done|by intros ref x ?%elem_of_nil|done|done]. }
  apply NoDup_cons in Hnd as [Hni Hnd]. destruct (Get ref.1 ref.2 s) as [x|] eqn:Ex.
  - pose proof (flush_files (oks O) ref x s) as Hf. pose proof (flush_dirty (oks O) ref x s) as Hd.
    pose proof (flush_groups (oks O) ref x s) as Hg.
    assert (Hok : (flush (oks O) ref x s).1 = oks O) by (by destruct (oks O)).
    destruct (flush (oks O) ref x s) as [ok s1]. cbn [fst snd] in *. subst ok.
    specialize (IH (λ i, oks (S i)) s1 Hnd). destruct (flush_each _ l s1) as [rest s'].
    destruct IH as (I1 & I2 & I3 & I4).
    assert (Hget : ∀ ref', Get ref'.1 ref'.2 s1 = Get ref'.1 ref'.2 s) by (intros ref'; unfold Get; by rewrite Hg).
    assert (Hpath : ∀ ref', ref' ≠ ref → groupPath ref'.1 ref'.2 ≠ groupPath ref.1 ref.2).
    { intros [] Hne Hp%groupPath_inj. destruct ref. naive_solver. }
    assert (Hfix : ∀ path, path ≠ groupPath ref.1 ref.2 → files s1 !! path = files s !! path).
    { intros path Hp. rewrite Hf. destruct (oks O); [|done]. by rewrite lookup_insert_ne. }
    split_and!.
    + by rewrite I1.
    + intros ref' x' [->|Hin]%elem_of_cons Hx'.
      * rewrite Ex in Hx'. injection Hx' as <-. exists (oks O). split; [|by intros [? _]%andb_true_iff].
        assert (Hfiles : files s' !! groupPath ref.1 ref.2 = files s1 !! groupPath ref.1 ref.2).
        { apply I3. intros ref' Hin _. apply not_eq_sym, Hpath. intros ->. done. }
        pose proof (I4 ref Hni) as Hdr. rewrite Hd in Hdr. unfold settled. rewrite Hfiles, Hf.
        destruct (oks O); [split; [apply lookup_insert_eq|set_solver]|split; [done|set_solver]].
      * assert (Hne : ref' ≠ ref) by (by intros ->).
        destruct (I2 ref' x' Hin) as (ok & Hs & Hr); [by rewrite Hget|].
        exists ok. split; [|by intros [_ ?]%andb_true_iff; auto].
        unfold settled in *. by rewrite <-(Hfix (groupPath ref'.1 ref'.2)) by auto.
    + intros path Hp. rewrite I3; [apply Hfix, Hp; [by left|by exists x]|].
      intros ref' Hin. rewrite Hget. apply Hp. by right.
    + intros ref' Hn. rewrite I4 by set_solver. rewrite Hd. destruct (oks O); set_solver.
  - specialize (IH oks s Hnd). destruct (flush_each oks l s) as [r s'].
    destruct IH as (I1 & I2 & I3 & I4). split_and!; [done| |intros path Hp; apply I3; intros ref' Hin; apply Hp; by right|set_solver].
    intros ref' x' [->|Hin]%elem_of_cons Hx'; [congruence|by apply I2].
Qed.

(** ** Files of older versions *)

Lemma lexico_prefix (l : list N) x r : lexico l (l ++ x :: r).
Proof. induction l as [|y l IH]; [done|]. by right. Qed.

(** Names whose encoding only replaces slashes, in elements that a path keeps. *)
Definition plain (name : string) : Prop :=
  Contains name percent = false ∧ Contains name backslash = false ∧ name ≠ "."%string ∧ name ≠ ".."%string.
Definition element (c : string) : Prop := c ≠ EmptyString ∧ c ≠ "."%string ∧ c ≠ ".."%string.

Lemma encode_plain name : plain name → Contains name slash = false → encodePathComponent name = name.
Proof.
  intros (Hp & Hb & H1 & H2) Hs. rewrite encodePathComponent_bytes by done. apply encode_bytes_plain.
  unfold ContainsAny. cbn. by rewrite Hp, Hs, Hb.
Qed.

Lemma encode_bytes_app a b : encode_bytes (a +:+ b) = encode_bytes a +:+ encode_bytes b.
Proof.
  induction a as [|c a IH]; [done|].
  change (encode_byte c +:+ encode_bytes (a +:+ b) = (encode_byte c +:+ encode_bytes a) +:+ encode_bytes b).
  by rewrite IH, app_str_assoc.
Qed.

(** The first element of a name with a slash is a proper prefix of its encoding. *)
Lemma encode_slash name : plain name → Contains name slash = true →
  ∃ a b, Split slash name = a :: Split slash b ∧ encodePathComponent name = a +:+ "%2F" +:+ encode_bytes b ∧
    name = a +:+ String slash b.
Proof.
  intros (Hp & Hb & H1 & H2) Hs. destruct (Cut slash name) as [[a b] more] eqn:Ec.
  pose proof (Cut_no_sep _ _ _ _ _ Ec) as Ha. destruct more.
  2: { apply Cut_more_false in Ec as [-> _]. congruence. }
  apply Cut_more_true in Ec. subst name. exists a, b. split_and!; [|  |done].
  - rewrite Split_app. by rewrite (Split_none slash a).
  - rewrite encodePathComponent_bytes by done. rewrite Contains_app in Hp, Hb.
    apply orb_false_iff in Hp as [Hp _], Hb as [Hb _].
    rewrite encode_bytes_app, (encode_bytes_plain a); [done|].
    unfold ContainsAny. cbn. by rewrite Hp, Ha, Hb.
Qed.

Lemma codes_app a b : N_of_ascii <$> list_ascii_of_string (a +:+ b) =
  (N_of_ascii <$> list_ascii_of_string a) ++ (N_of_ascii <$> list_ascii_of_string b).
Proof.
  induction a as [|c a IH]; [done|]. change (String c a +:+ b) with (String c (a +:+ b)).
  cbn [list_ascii_of_string]. by rewrite !fmap_cons, IH.
Qed.

Lemma join_clean_elements dir l : Forall element l → join_clean dir l = dir ++ l.
Proof.
  intros Hl. unfold join_clean. rewrite <-(rev_involutive dir) at 2. generalize (rev dir) as up.
  induction Hl as [|c l (H1 & H2 & H3) _ IH]; intros up; cbn [foldl]; [by rewrite app_nil_r|].
  unfold path_step at 2. unfold str_eqb. rewrite !bool_decide_eq_false_2 by done. cbn.
  rewrite IH. cbn. by rewrite <-app_assoc.
Qed.

Lemma legacy_path dir q g path :
  Forall element (Split slash q ++ Split slash (g +:+ ".json")) →
  contained dir (legacyGroupPath dir q g) = Some path → path = q +:+ String slash (g +:+ ".json").
Proof.
  intros He. unfold contained, legacyGroupPath. rewrite join_clean_elements by done.
  rewrite take_app_length, bool_decide_eq_true_2 by done. rewrite drop_app_length. intros [= <-].
  by rewrite <-Split_app, Join_Split.
Qed.

(** The path an older version gave a group comes before its path, for plain names. *)
Lemma legacy_before q g : plain q → plain g →
  Forall element (Split slash q ++ Split slash (g +:+ ".json")) →
  q +:+ String slash (g +:+ ".json") = groupPath q g ∨
  walk_lt (q +:+ String slash (g +:+ ".json")) (groupPath q g).
Proof.
  intros Hq Hg He.
  assert (Hne : q ≠ EmptyString) by (intros ->; apply Forall_app in He as [He _]; by inversion He as [|? ? []]).
  assert (Hgp : groupPath q g = encodePathComponent q +:+ String slash (encodePathComponent g +:+ ".json")).
  { unfold groupPath, join, str_eqb. rewrite bool_decide_eq_false_2; [done|]. by intros ?%encode_empty. }
  assert (Hsplit : Split slash (groupPath q g) =
    [encodePathComponent q; encodePathComponent g +:+ ".json"]).
  { rewrite Hgp, Split_app, !Split_none; [done| |]; rewrite ?Contains_app, ?encode_no_slash; done. }
  unfold walk_lt, path_key. rewrite Hsplit, Split_app.
  destruct (Contains q slash) eqn:Eq.
  { destruct (encode_slash q Hq Eq) as (a & b & -> & -> & _). right. cbn [fmap list_fmap app]. left.
    rewrite codes_app. apply lexico_prefix. }
  rewrite Hgp. rewrite (Split_none slash q Eq), !(encode_plain q Hq Eq).
  destruct (Contains g slash) eqn:Eg; [|by rewrite (encode_plain g Hg Eg); left].
  destruct (encode_slash g Hg Eg) as (a & b & _ & -> & ->). right. cbn [fmap list_fmap app]. right.
  split; [done|]. cbn [snd]. rewrite (app_str_assoc a). change (String slash b +:+ ".json")%string with
    (String slash (b +:+ ".json")). rewrite Split_app.
  destruct (Contains a slash) eqn:Ea.
  - destruct (Split_nonempty slash a) as (h & t & Eh). rewrite Eh. cbn [fmap list_fmap app]. left.
    assert (Ha : a = h +:+ String slash (Join slash t)).
    { rewrite <-(Join_Split slash a), Eh. destruct t; [|done]. exfalso.
      rewrite <-(Join_Split slash a), Eh in Ea. cbn in Ea.
      by rewrite (Contains_sep_level slash a h) in Ea by (rewrite Eh; by left). }
    rewrite Ha, !app_str_assoc, codes_app. apply lexico_prefix.
  - rewrite (Split_none slash a Ea). cbn [fmap list_fmap app]. left.
    rewrite !app_str_assoc, codes_app. apply lexico_prefix.
Qed.

(** The files of a group are at its path or, if its names are plain, where an
    older version put it. *)
Definition filed (dir : list string) (fs : gmap string Content) (q g : string) : Prop :=
  ∀ path c, fs !! path = Some c → is_Some (claim q g c) →
    path = groupPath q g ∨
    contained dir (legacyGroupPath dir q g) = Some path ∧ plain q ∧ plain g ∧
    Forall element (Split slash q ++ Split slash (g +:+ ".json")).

Lemma filed_no_later dir fs q g : filed dir fs q g → no_later fs (groupPath q g) q g.
Proof.
  intros Hf path c Hp Hc. destruct (Hf path c Hp Hc) as [->|(Hl & Hq & Hg & He)]; [by left|].
  apply legacy_path in Hl as ->; [|done]. by apply legacy_before.
Qed.

Lemma claim_written q g x : claim q g (Wrapped consumerGroupVersion (Some x) true) =
  if decide (QueueName x = q ∧ ID x = g) then Some (normalize x true) else None.
Proof. done. Qed.

Lemma Save_files ok x s : files (Save ok x s).2 =
  if ok then <[groupPath (QueueName x) (ID x) := Wrapped consumerGroupVersion (Some x) true]> (files s)
  else files s.
Proof. unfold Save. cbv zeta. by rewrite flush_files. Qed.

(** A written group is loaded if every other file of it comes before. *)
Lemma written_loaded dir fs fs' x : filed dir fs (QueueName x) (ID x) →
  fs' !! groupPath (QueueName x) (ID x) = Some (Wrapped consumerGroupVersion (Some x) true) →
  (∀ path c, fs' !! path = Some c → is_Some (claim (QueueName x) (ID x) c) →
     path = groupPath (QueueName x) (ID x) ∨ fs !! path = Some c) →
  loaded fs' (QueueName x) (ID x) = Some (normalize x true).
Proof.
  intros Hf Hp Ho. eapply loaded_here; [exact Hp|rewrite claim_written; by apply decide_True|].
  intros path c Hc Hcl. destruct (Ho path c Hc Hcl) as [->|Hold]; [by left|].
  by apply (filed_no_later dir fs _ _ Hf path c).
Qed.

(** A sync after a failed save. *)
Lemma sync_after_failure dir x s oks order : keyed s → filed dir (files s) (QueueName x) (ID x) →
  (∀ d, order d ≡ₚ elements d) →
  let '(r, s') := Sync oks order (Save false x s).2 in
  (r = true → (QueueName x, ID x) ∉ dirty s') ∧
  ((QueueName x, ID x) ∉ dirty s' → loaded (files s') (QueueName x) (ID x) = Some (normalize x true)) ∧
  ((QueueName x, ID x) ∈ dirty s' →
   files s' !! groupPath (QueueName x) (ID x) = files s !! groupPath (QueueName x) (ID x)).
Proof.
  intros Hk Hf Hord. unfold Sync. set (s1 := (Save false x s).2) in *.
  assert (Hk1 : keyed s1) by (by apply keyed_save).
  assert (Hnd : NoDup (order (dirty s1))) by (rewrite Hord; apply NoDup_elements).
  pose proof (flush_each_spec (order (dirty s1)) oks s1 Hnd) as H.
  destruct (flush_each oks (order (dirty s1)) s1) as [r s']. destruct H as (_ & H2 & H3 & _).
  assert (Hin : (QueueName x, ID x) ∈ order (dirty s1)).
  { rewrite Hord. apply elem_of_elements. unfold s1. cbn. set_solver. }
  assert (Hget : Get (QueueName x) (ID x) s1 = Some x).
  { change (lookup2 (QueueName x) (ID x) (put x (groups s)) = Some x). rewrite lookup2_put. by apply decide_True. }
  destruct (H2 _ x Hin Hget) as (ok & Hs & Hr). unfold settled in Hs. cbn [fst snd] in Hs.
  assert (Hfs : files s1 = files s) by (by unfold s1; rewrite Save_files). rewrite Hfs in *.
  destruct ok; destruct Hs as [Hs1 Hs2]; split_and!; try done.
  - intros _. apply (written_loaded dir (files s)); [done|done|]. intros path c Hc Hcl.
    destruct (decide (path ∈ (λ ref, groupPath ref.1 ref.2) <$>
      filter (λ ref, is_Some (Get ref.1 ref.2 s1)) (order (dirty s1)))) as [He|He].
    + apply list_elem_of_fmap in He as (ref & -> & [[y Ey] Hre]%list_elem_of_filter).
      destruct (H2 ref y Hre Ey) as (oky & Hsy & _). unfold settled in Hsy. rewrite Hfs in Hsy.
      destruct oky; destruct Hsy as [Hy _]; [|right; congruence].
      rewrite Hy in Hc. injection Hc as <-. rewrite claim_written in Hcl.
      destruct (Hk1 _ _ _ Ey) as [E1 E2]. case_decide as E; [|by destruct Hcl]. left.
      destruct E as [<- <-]. by rewrite E1, E2.
    + right. rewrite <-H3; [done|]. intros ref Hre Hy Hp. apply He, list_elem_of_fmap. exists ref.
      split; [done|]. by apply list_elem_of_filter.
  - intros Hrt. by specialize (Hr Hrt).
Qed.


Definition example_group : ConsumerGroup := NewConsumerGroupState "orders" "workers@images/#" "images/#" 0.


(** A group whose name has a percent sign, with a file of an older version: its
    path is encoded now, the old file comes later in the walk, and every start
    loads the old state whatever was saved. *)
Lemma stale_file_wins :
  let old := NewConsumerGroupState "orders" "50%off" "" 9 in
  let new := NewConsumerGroupState "orders" "50%off" "" 0 in
  let s := mkStateStore ∅ ∅ {[ "orders/50%off.json"%string := Wrapped 1 (Some old) true ]} in
  contained ["data"%string] (legacyGroupPath ["data"%string] "orders" "50%off") = Some "orders/50%off.json"%string ∧
  loaded (files (Save true new s).2) "orders" "50%off" = Some (normalize old true).
Proof. by vm_compute. Qed.

End GroupFilesFacts.
