(* ===== verification/LogAdapter.v ===== *)
(** * The disk adapter of the queue stores (src/logstorage/adapter.go, store.go,
      consumer_manager.go)

    A consumer group lives twice: as a group object with a file
    ([GroupFiles]) and, outside streams, as a durable consumer state
    ([ConsumerState]) that holds its cursor and its pending entries.  Every call
    that moves a group changes the consumer state first and the object second,
    and a read of a group outside streams copies cursor and entries from the
    consumer state into the object.

    The consumer states of a queue are loaded lazily: [groups] are those in
    memory, [dirs] the directories on disk that are not.  Clock readings and
    answers of the file system are functions of a counter of the questions
    asked.  Times are nanoseconds; the consumer state keeps milliseconds.  The
    records of the logs are a parameter here, as are the orders of maps.

    The adapter is an instance of the store interface [GroupStore]; its laws are
    proved in [LogAdapterFacts]. *)

From Stdlib Require Import ZArith Lia Bool Ascii String.
From stdpp Require Import prelude gmap strings.
From S2P Require Import Prelude State GoStrings ConsumerGroup QueueErrors GroupStore.
From S2P Require Import ConsumerState LogGroups.

Module CS := ConsumerState.

Module LogAdapter.
Import Group.

(** ** consumer_manager.go *)

Record ConsumerManager := mkConsumerManager {
  groups : gmap string CS.ConsumerState;
  closed : bool;
  dirs : gmap string CS.Disk
}.
#[export] Instance ConsumerManager_eta : Eta ConsumerManager := λ r,
  mkConsumerManager (groups r) (closed r) (dirs r).

(** [PELEntry] *)
Record PELEntry := mkPELEntry {
  PELOffset : Z;
  PELConsumerID : string;
  PELClaimedAt : Z;
  PELDeliveryCount : Z
}.

Record Adapter (L : Type) := mkAdapter {
  consumers : gmap string ConsumerManager;
  groupStore : GroupFiles.ConsumerGroupStateStore;
  ticks : nat;
  logs : L
}.
Arguments mkAdapter {L}.
Arguments consumers {L}.
Arguments groupStore {L}.
Arguments ticks {L}.
Arguments logs {L}.
#[export] Instance Adapter_eta {L} : Eta (Adapter L) := λ r,
  mkAdapter (consumers r) (groupStore r) (ticks r) (logs r).

Definition UnixMilli (t : Z) : Z := t / 1000000.
Definition of_UnixMilli (ms : Z) : Z := ms * 1000000.

(** An error of the file system. *)
Definition io_error : QErr := mkQErr [] None.

Section adapter.
Context (NumPELShards : Z) (now : nat → Z) (writes : nat → CS.WriteResult) (saves mkdirs : nat → bool).
Context (replay_clock : nat → nat → Z).
Context (shard_order : CS.PELShard → list CS.PendingEntry) (set_order : gset Z → list Z).
Context (pel_order : pel → list (string * list (option PendingEntry))).
Context (group_order : gmap string ConsumerGroup → list ConsumerGroup).
Context {L : Type}.

Notation M := (state (Adapter L)).

Definition fail {A} (e : QErr) : M (outcome QErr A) := mret (Fail e).
Definition ret {A} (a : A) : M (outcome QErr A) := mret (Ret a).
Definition try_bind {A B} (m : M (outcome QErr A)) (k : A → M (outcome QErr B)) :
    M (outcome QErr B) :=
  r ← m; match r with Ret a => k a | Fail e => mret (Fail e) | Panic => mret Panic end.
#[local] Notation "m ;? k" := (try_bind m (λ _, k))
  (at level 100, k at level 200, right associativity).

(** The next answer of the world. *)
Definition ask {A} (f : nat → A) : M A := λ a, (f (ticks a), a <| ticks := S (ticks a) |>).
Definition time_Now : M Z := ask now.

(** [NewConsumerState] in the group's directory. *)
Definition open_state (t0 t1 : Z) (d : CS.Disk) : CS.ConsumerState :=
  CS.NewConsumerState NumPELShards (UnixMilli t0) (UnixMilli t1) replay_clock d.
Definition no_files : CS.Disk := CS.mkDisk None ∅ [].

(** [NewConsumerManager]: a group is loaded for every directory directly under
    the queue's; the directories of groups with a slash in their name are
    deeper. *)
Definition top_dirs (ds : gmap string CS.Disk) : list string :=
  remove_dups ((λ id, (Cut "/"%char id).1.1) <$> (map_to_list ds).*1).
Definition NewConsumerManager (t0 t1 : Z) (ds : gmap string CS.Disk) : ConsumerManager :=
  foldr (λ id cm, cm <| groups := <[id := open_state t0 t1 (default no_files (ds !! id))]> (groups cm) |>
                     <| dirs := delete id (dirs cm) |>)
    (mkConsumerManager ∅ false ds) (top_dirs ds).

(** [ConsumerManager.GetOrCreate] *)
Definition GetOrCreate (groupID : string) (mkdir : bool) (t0 t1 : Z) (cm : ConsumerManager) :
    outcome QErr (CS.ConsumerState * ConsumerManager) :=
  if closed cm then Fail (sentinel_err ErrSegmentClosed)
  else match groups cm !! groupID with
  | Some cs => Ret (cs, cm)
  | None =>
      if mkdir then
        let cs := open_state t0 t1 (default no_files (dirs cm !! groupID)) in
        Ret (cs, cm <| groups := <[groupID := cs]> (groups cm) |> <| dirs := delete groupID (dirs cm) |>)
      else Fail io_error
  end.

Definition cm_Get (groupID : string) (cm : ConsumerManager) : option CS.ConsumerState :=
  groups cm !! groupID.

(** ** store.go, the consumer half *)

(** An operation of a consumer state: clock readings and the answer to its write. *)
Definition state_op : Type := Z → Z → CS.WriteResult → CS.ConsumerState → bool * CS.ConsumerState.

(** Operations through [cm.GetOrCreate] and through [cm.Get]. *)
Definition on_new_state (queueName groupID : string) (f : state_op) : M (outcome QErr unit) :=
  cms ← gets consumers;
  match cms !! queueName with
  | None => fail (sentinel_err LogErrQueueNotFound)
  | Some cm =>
      mkdir ← ask mkdirs; c0 ← time_Now; c1 ← time_Now;
      match GetOrCreate groupID mkdir c0 c1 cm with
      | Panic => mret Panic
      | Fail e => fail e
      | Ret (cs, cm) =>
          t0 ← time_Now; t1 ← time_Now; w ← ask writes;
          let '(ok, cs) := f (UnixMilli t0) (UnixMilli t1) w cs in
          modify (λ a, a <| consumers := <[queueName := cm <| groups := <[groupID := cs]> (groups cm) |>]>
                              (consumers a) |>);;
          if ok then ret tt else fail io_error
      end
  end.

Definition on_state (queueName groupID : string) (f : state_op) : M (outcome QErr unit) :=
  cms ← gets consumers;
  match cms !! queueName with
  | None => fail (sentinel_err LogErrQueueNotFound)
  | Some cm =>
      match cm_Get groupID cm with
      | None => fail (sentinel_err ErrConsumerGroupNotFound)
      | Some cs =>
          t0 ← time_Now; t1 ← time_Now; w ← ask writes;
          let '(ok, cs) := f (UnixMilli t0) (UnixMilli t1) w cs in
          modify (λ a, a <| consumers := <[queueName := cm <| groups := <[groupID := cs]> (groups cm) |>]>
                              (consumers a) |>);;
          if ok then ret tt else fail io_error
      end
  end.

Definition Deliver (queueName groupID : string) (offset : Z) (consumerID : string) :=
  on_new_state queueName groupID (λ t0 _ w, CS.Deliver NumPELShards t0 w offset consumerID).
Definition Ack (queueName groupID : string) (offset : Z) :=
  on_state queueName groupID (λ t0 t1 w, CS.Ack NumPELShards t0 t1 w offset).
Definition NackAt (queueName groupID : string) (offset attemptedAt : Z) :=
  on_state queueName groupID (λ _ _ w, CS.NackAt NumPELShards w offset (UnixMilli attemptedAt)).
Definition ReleaseAt (queueName groupID : string) (offset attemptedAt : Z) :=
  on_state queueName groupID (λ _ _ w, CS.ReleaseAt NumPELShards w offset (UnixMilli attemptedAt)).
Definition Claim (queueName groupID : string) (offset : Z) (newConsumerID : string) :=
  on_state queueName groupID (λ t0 _ w, CS.Claim NumPELShards t0 w offset newConsumerID).
Definition SetCursor (queueName groupID : string) (cursor : Z) :=
  on_new_state queueName groupID (λ t0 _ w, CS.SetCursor t0 w cursor).
Definition RestorePending (queueName groupID : string) (entry : PELEntry) :=
  on_new_state queueName groupID (λ t0 _ w, CS.RestorePending NumPELShards t0 w (PELOffset entry)
    (PELConsumerID entry) (Some (PELClaimedAt entry)) (PELDeliveryCount entry)).
Definition RestoreAckFloor (queueName groupID : string) (floor : Z) :=
  on_new_state queueName groupID (λ t0 t1 w, CS.RestoreAckFloor t0 t1 w floor).
Definition AddPending (queueName groupID : string) (entry : PELEntry) :=
  Deliver queueName groupID (PELOffset entry) (PELConsumerID entry).
Definition AckPending := Ack.
Definition ClaimPending := Claim.
(** [CommitOffset], an alias of [Ack]. *)
Definition CommitOffset := Ack.

(** [Store.CreateConsumerGroup] *)
Definition store_CreateConsumerGroup (queueName groupID : string) : M (outcome QErr unit) :=
  cms ← gets consumers;
  match cms !! queueName with
  | None => fail (sentinel_err LogErrQueueNotFound)
  | Some cm =>
      mkdir ← ask mkdirs; t0 ← time_Now; t1 ← time_Now;
      match GetOrCreate groupID mkdir t0 t1 cm with
      | Panic => mret Panic
      | Fail e => fail e
      | Ret (_, cm) => modify (λ a, a <| consumers := <[queueName := cm]> (consumers a) |>);; ret tt
      end
  end.

(** [GetGroupState]: the zero state for a group that is not loaded. *)
Definition GetGroupState (queueName groupID : string) (a : Adapter L) : outcome QErr CS.GroupState :=
  match consumers a !! queueName with
  | None => Fail (sentinel_err LogErrQueueNotFound)
  | Some cm => Ret match cm_Get groupID cm with
                   | None => CS.mkGroupState 0 0 0 0 0
                   | Some cs => CS.GetGroupState cs
                   end
  end.
Definition GetConsumerState (queueName groupID : string) (a : Adapter L) : outcome QErr CS.ConsumerState :=
  match consumers a !! queueName with
  | None => Fail (sentinel_err LogErrQueueNotFound)
  | Some cm => match cm_Get groupID cm with
               | None => Fail (sentinel_err ErrConsumerGroupNotFound)
               | Some cs => Ret cs
               end
  end.
Definition GetPendingByConsumer (queueName groupID consumerID : string) (a : Adapter L) :
    outcome QErr (list CS.PendingEntry) :=
  match consumers a !! queueName with
  | None => Fail (sentinel_err LogErrQueueNotFound)
  | Some cm => Ret match cm_Get groupID cm with
                   | None => []
                   | Some cs => CS.GetPendingByConsumer set_order consumerID cs
                   end
  end.

(** [GetCursorState]: the cursor and the acknowledgement floor. *)
Definition GetCursorState (queueName groupID : string) (a : Adapter L) : outcome QErr (Z * Z) :=
  gs ← GetGroupState queueName groupID a; Ret (CS.Cursor gs, CS.AckFloor gs).

(** [GetAllPending]: the entries of all shards, by consumer. *)
Definition to_PELEntry (e : CS.PendingEntry) : PELEntry :=
  mkPELEntry (CS.Offset e) (CS.ConsumerID e) (CS.LastAttempt e) (CS.DeliveryCount e).
Definition by_consumer (es : list CS.PendingEntry) : gmap string (list PELEntry) :=
  foldl (λ m e, <[CS.ConsumerID e := default [] (m !! CS.ConsumerID e) ++ [to_PELEntry e]]> m) ∅ es.
Definition GetAllPending (queueName groupID : string) (a : Adapter L) :
    outcome QErr (gmap string (list PELEntry)) :=
  cs ← GetConsumerState queueName groupID a;
  Ret (by_consumer (concat ((λ i, CS.GetPendingByShard shard_order (Z.of_nat i) cs) <$>
                              seq 0 (CS.NumShards cs)))).

(** ** adapter.go, the groups *)

(** [groupStore.Save] *)
Definition save (group : ConsumerGroup) : M (outcome QErr unit) :=
  ok ← ask saves;
  r ← (λ a, let '(ok, gs) := GroupFiles.Save ok group (groupStore a) in
            (ok, a <| groupStore := gs |>));
  if (r : bool) then ret tt else fail io_error.

Definition get (queueName groupID : string) : M (option ConsumerGroup) :=
  gets (λ a, GroupFiles.Get queueName groupID (groupStore a)).

(** A method of the group behind the pointer, and the group after it. *)
Definition mutate (queueName groupID : string) (f : ConsumerGroup → ConsumerGroup) : M unit :=
  modify (λ a, a <| groupStore := GroupFiles.through queueName groupID f (groupStore a) |>).

(** [if err == nil { method; Save }]: the second half of the calls that move a group. *)
Definition also_in_group (queueName groupID : string) (f : Z → ConsumerGroup → ConsumerGroup) :
    M (outcome QErr unit) :=
  group ← get queueName groupID;
  match group with
  | None => ret tt
  | Some group => t ← time_Now; mutate queueName groupID (f t);; save (f t group)
  end.

Definition to_types (e : PELEntry) : PendingEntry :=
  mkPendingEntry (PELOffset e) (PELConsumerID e) (of_UnixMilli (PELClaimedAt e)) (PELDeliveryCount e).
(** [pendingEntryToTypes] *)
Definition pending_to_types (e : CS.PendingEntry) : PendingEntry :=
  mkPendingEntry (CS.Offset e) (CS.ConsumerID e) (of_UnixMilli (CS.LastAttempt e)) (CS.DeliveryCount e).
Definition of_types (e : PendingEntry) : PELEntry :=
  mkPELEntry (Offset e) (ConsumerID e) (UnixMilli (ClaimedAt e)) (u16 (DeliveryCount e)).

Definition syncCursorsFromStore (queueName groupID : string) : M unit :=
  r ← gets (GetCursorState queueName groupID);
  match r with
  | Ret (cursor, _) => t ← time_Now; mutate queueName groupID (SetCursorPosition cursor t)
  | _ => mret tt
  end.

Definition pel_of (es : gmap string (list PELEntry)) : pel :=
  (λ l : list PELEntry, (λ e, Some (to_types e)) <$> l) <$> es.
Definition syncPELFromStore (queueName groupID : string) : M unit :=
  r ← gets (GetAllPending queueName groupID);
  match r with
  | Ret es => t ← time_Now; mutate queueName groupID (ReplacePEL (pel_of es) t)
  | _ => mret tt
  end.

Definition is_stream (g : ConsumerGroup) : bool := bool_decide (Mode g = GroupModeStream).

Definition GetConsumerGroup (queueName groupID : string) : M (outcome QErr ConsumerGroup) :=
  group ← get queueName groupID;
  match group with
  | None => fail (sentinel_err ErrConsumerGroupNotFound)
  | Some group =>
      if is_stream group then ret group
      else
        syncCursorsFromStore queueName groupID;;
        syncPELFromStore queueName groupID;;
        group' ← get queueName groupID;
        ret (default group group')
  end.

(** The entries of a snapshot, in map order; nil entries were dropped. *)
Definition restore_all (queueName groupID : string) : list PELEntry → M (outcome QErr unit) :=
  fix go es := match es with
               | [] => ret tt
               | e :: es => RestorePending queueName groupID e;? go es
               end.

Definition seedConsumerState (group : ConsumerGroup) : M (outcome QErr unit) :=
  if is_stream group then ret tt
  else
    let snapshot := Snapshot group in
    store_CreateConsumerGroup (QueueName group) (ID group);?
    restore_all (QueueName group) (ID group)
      (of_types <$> omap id (concat (pel_order (SnapPEL snapshot)).*2));?
    (if 0 <? Committed (SnapCursor snapshot)
     then RestoreAckFloor (QueueName group) (ID group) (Committed (SnapCursor snapshot))
     else ret tt);?
    (if 0 <? Cursor (SnapCursor snapshot)
     then SetCursor (QueueName group) (ID group) (Cursor (SnapCursor snapshot))
     else ret tt).

Definition CreateConsumerGroup (group : ConsumerGroup) : M (outcome QErr unit) :=
  existing ← get (QueueName group) (ID group);
  match existing with
  | Some _ => fail (sentinel_err ErrConsumerGroupExists)
  | None => save group;? seedConsumerState group
  end.

Definition UpdateConsumerGroup (group : ConsumerGroup) : M (outcome QErr unit) :=
  t ← time_Now; save (touch t group).

(** [dir] is the directory of the group files. *)
Definition DeleteConsumerGroup (dir : list string) (queueName groupID : string) : M (outcome QErr unit) :=
  ok ← ask saves; legacy_ok ← ask saves;
  r ← (λ a, let '(ok, gs) := GroupFiles.Delete dir ok legacy_ok queueName groupID (groupStore a) in
            (ok, a <| groupStore := gs |>));
  if (r : bool) then ret tt else fail io_error.

Definition ListConsumerGroups (queueName : string) (a : Adapter L) : outcome QErr (list ConsumerGroup) :=
  Ret (GroupFiles.List group_order queueName (groupStore a)).

Definition AddPendingEntry (queueName groupID : string) (entry : PendingEntry) : M (outcome QErr unit) :=
  AddPending queueName groupID (of_types entry);?
  also_in_group queueName groupID (Group.AddPending (ConsumerID entry) (Some entry)).

(** [FindPending] of a group: the empty owner is "not found". *)
Definition owner_of (offset : Z) (g : ConsumerGroup) : string :=
  match FindPending offset (pel_order (PEL g)) with Some (_, owner) => owner | None => EmptyString end.

Definition RemovePendingEntry (queueName groupID consumerID : string) (offset : Z) :
    M (outcome QErr unit) :=
  AckPending queueName groupID offset;?
  (group ← get queueName groupID;
   match group with
   | None => ret tt
   | Some group =>
       let owner := owner_of offset group in
       let consumerID := if str_eqb owner EmptyString then consumerID else owner in
       t ← time_Now;
       match RemovePending consumerID offset t group with
       | Ret (_, group') => mutate queueName groupID (λ _, group');; save group'
       | _ => mret Panic
       end
   end).

Definition GetPendingEntries (queueName groupID consumerID : string) (a : Adapter L) :
    outcome QErr (list PendingEntry) :=
  match GetPendingByConsumer queueName groupID consumerID a with
  | Ret es => Ret (pending_to_types <$> es)
  | Fail e => Fail e
  | Panic => Panic
  end.

Definition GetAllPendingEntries (queueName groupID : string) :
    M (outcome QErr (list (option PendingEntry))) :=
  group ← get queueName groupID;
  match group with
  | None => fail (sentinel_err ErrConsumerGroupNotFound)
  | Some group =>
      syncPELFromStore queueName groupID;;
      group' ← get queueName groupID;
      ret (concat (pel_order (PEL (default group group'))).*2)
  end.

Definition TransferPendingEntry (queueName groupID : string) (offset : Z)
    (fromConsumer toConsumer : string) : M (outcome QErr unit) :=
  r ← GetConsumerGroup queueName groupID;
  match r with
  | Panic => mret Panic
  | Fail e => fail e
  | Ret current =>
      if negb (str_eqb (owner_of offset current) fromConsumer)
      then fail (sentinel_err ErrPendingEntryNotFound)
      else
        ClaimPending queueName groupID offset toConsumer;?
        (group ← get queueName groupID;
         match group with
         | None => ret tt
         | Some group =>
             t ← time_Now;
             match TransferPending offset fromConsumer toConsumer t group with
             | Ret (_, group') => mutate queueName groupID (λ _, group');; save group'
             | _ => mret Panic
             end
         end)
  end.

Definition RequeuePendingEntry (queueName groupID consumerID : string) (offset attemptedAt : Z) :
    M (outcome QErr unit) :=
  group ← get queueName groupID;
  match group with
  | None => fail (sentinel_err ErrConsumerGroupNotFound)
  | Some group =>
      let owner := owner_of offset group in
      if str_eqb owner EmptyString then fail (sentinel_err ErrPendingEntryNotFound)
      else if negb (str_eqb owner consumerID) then fail (sentinel_err StorageErrConsumerNotFound)
      else
        ReleaseAt queueName groupID offset attemptedAt;?
        (t ← time_Now;
         let '(found, group') := RequeuePending offset consumerID attemptedAt t group in
         if negb found then fail (sentinel_err ErrPendingEntryNotFound)
         else mutate queueName groupID (λ _, group');; save group')
  end.

Definition UpdateCursor (queueName groupID : string) (cursor : Z) : M (outcome QErr unit) :=
  SetCursor queueName groupID cursor;?
  also_in_group queueName groupID (SetCursorPosition cursor).

Definition UpdateCommitted (queueName groupID : string) (committed : Z) : M (outcome QErr unit) :=
  also_in_group queueName groupID (AdvanceCommitted committed).

Definition RegisterConsumer (queueName groupID : string) (consumer : ConsumerInfo) :
    M (outcome QErr unit) :=
  group ← get queueName groupID;
  match group with
  | None => fail (sentinel_err ErrConsumerGroupNotFound)
  | Some _ => also_in_group queueName groupID (SetConsumer (InfoID consumer) (Some consumer))
  end.

Definition UnregisterConsumer (queueName groupID consumerID : string) : M (outcome QErr unit) :=
  group ← get queueName groupID;
  match group with
  | None => fail (sentinel_err ErrConsumerGroupNotFound)
  | Some _ => also_in_group queueName groupID (DeleteConsumer consumerID)
  end.

(** [ListConsumers], in map order. *)
Definition ListConsumers (queueName groupID : string) (a : Adapter L) :
    outcome QErr (list (option ConsumerInfo)) :=
  match GroupFiles.Get queueName groupID (groupStore a) with
  | None => Fail (sentinel_err ErrConsumerGroupNotFound)
  | Some group => Ret (map_to_list (Consumers group)).*2
  end.

End adapter.
End LogAdapter.
