(* ===== verification/LogAdapterFacts.v ===== *)
(** * The disk adapter keeps its contract

    The laws of [GroupStoreLaws] for [LogAdapter], whatever the clock, the
    failures of the file system and the orders of maps.  A group is seen as a
    reader gets it: the object, and outside streams the cursor and the entries
    of its consumer state. *)

From Stdlib Require Import ZArith Lia Bool Ascii String.
From stdpp Require Import prelude gmap strings.
From S2P Require Import Prelude State GoStrings ConsumerGroup QueueErrors GroupStore.
From S2P Require Import ConsumerState ConsumerStateFacts LogGroups LogAdapter.

(** ** The entries of a consumer state as one map *)

Module FlatState.
Import ConsumerState ConsumerStateFacts.

Section flat.
Context (N : Z) (HN : 0 < N).

(** Every entry is in the shard of its offset, under its offset. *)
Definition keyed (cs : ConsumerState) : Prop :=
  shape N cs ∧ ∀ i sh o e, pelShards cs !! i = Some sh → entries sh !! o = Some e →
    ShardKey N o = i ∧ Offset e = o.

Definition flat (cs : ConsumerState) : gmap Z PendingEntry := ⋃ (entries <$> pelShards cs).

Lemma union_nil o : (⋃ [] : gmap Z PendingEntry) !! o = None.
Proof. apply (lookup_empty (M := gmap Z)). Qed.

Lemma union_inv (ms : list (gmap Z PendingEntry)) o : is_Some ((⋃ ms) !! o) →
  ∃ i m, ms !! i = Some m ∧ is_Some (m !! o).
Proof.
  induction ms as [|m ms IH]; intros Hs; [rewrite union_nil in Hs; by destruct Hs|].
  change (is_Some ((m ∪ ⋃ ms) !! o)) in Hs.
  apply lookup_union_is_Some in Hs as [Hs|Hs]; [by exists 0%nat, m|].
  destruct (IH Hs) as (i & m' & ? & ?). by exists (S i), m'.
Qed.

(** The offsets of the [i]-th map have key [k + i]. *)
Definition by_key (key : Z → nat) (k : nat) (ms : list (gmap Z PendingEntry)) : Prop :=
  ∀ i m o, ms !! i = Some m → is_Some (m !! o) → key o = (k + i)%nat.

Lemma by_key_tail key k m ms : by_key key k (m :: ms) →
  by_key key (S k) ms ∧ m ##ₘ ⋃ ms.
Proof.
  intros Hk. assert (Ht : by_key key (S k) ms).
  { intros i m' o Hi Ho. rewrite (Hk (S i) m' o Hi Ho). lia. }
  split; [done|]. apply map_disjoint_spec. intros o x y Hx Hy.
  destruct (union_inv ms o (mk_is_Some _ _ Hy)) as (i & m' & Hi & Ho).
  specialize (Ht i m' o Hi Ho). specialize (Hk 0%nat m o eq_refl (mk_is_Some _ _ Hx)). lia.
Qed.

Lemma union_lookup key ms o : ∀ k, by_key key k ms → (k ≤ key o)%nat →
  (⋃ ms) !! o = ms !! (key o - k)%nat ≫= λ m, m !! o.
Proof.
  induction ms as [|m ms IH]; intros k Hk Hle; [by rewrite union_nil|].
  destruct (by_key_tail key k m ms Hk) as [Ht Hd]. change ((m ∪ ⋃ ms) !! o = (m :: ms) !! (key o - k)%nat ≫= λ m, m !! o).
  destruct (decide (key o = k)) as [He|Hne].
  - rewrite He, Nat.sub_diag. simpl.
    destruct (m !! o) as [e|] eqn:Em; [by rewrite (lookup_union_Some_l _ _ _ _ Em)|].
    rewrite lookup_union_r by done. apply eq_None_not_Some. intros Hs.
    destruct (union_inv ms o Hs) as (i & m' & Hi & Ho). specialize (Ht i m' o Hi Ho). lia.
  - rewrite lookup_union_r.
    + rewrite (IH (S k)) by (done || lia). by replace (key o - k)%nat with (S (key o - S k)) by lia.
    + apply eq_None_not_Some. intros Hs. specialize (Hk 0%nat m o eq_refl Hs). lia.
Qed.

Lemma map_to_list_union (m1 m2 : gmap Z PendingEntry) : m1 ##ₘ m2 →
  map_to_list (m1 ∪ m2) ≡ₚ map_to_list m1 ++ map_to_list m2.
Proof.
  intros Hd. apply NoDup_Permutation; [apply NoDup_map_to_list| |].
  - apply NoDup_app. split_and!; [apply NoDup_map_to_list| |apply NoDup_map_to_list].
    intros [o e] H1%elem_of_map_to_list H2%elem_of_map_to_list.
    by apply (map_disjoint_spec m1 m2) with (i := o) (x := e) (y := e).
  - intros [o e]. rewrite elem_of_app, !elem_of_map_to_list. by apply lookup_union_Some.
Qed.

Lemma union_perm key ms : ∀ k, by_key key k ms →
  map_to_list (⋃ ms) ≡ₚ concat (map_to_list <$> ms).
Proof.
  induction ms as [|m ms IH]; intros k Hk; [by change (map_to_list (∅ : gmap Z PendingEntry) ≡ₚ []); rewrite map_to_list_empty|].
  destruct (by_key_tail key k m ms Hk) as [Ht Hd]. change (⋃ (m :: ms)) with (m ∪ ⋃ ms).
  rewrite map_to_list_union by done. cbn. by rewrite (IH (S k) Ht).
Qed.

Lemma keyed_by_key cs : keyed cs → by_key (ShardKey N) 0 (entries <$> pelShards cs).
Proof.
  intros [_ Hk] i m o Hi [e He]. rewrite list_lookup_fmap in Hi.
  destruct (pelShards cs !! i) as [sh|] eqn:Ei; [|done]. injection Hi as <-.
  by destruct (Hk i sh o e Ei He).
Qed.

Lemma flat_lookup cs o : keyed cs → flat cs !! o = entry_at N o cs.
Proof.
  intros Hk. unfold flat. rewrite (union_lookup (ShardKey N) _ o 0) by (done || lia || by apply keyed_by_key).
  destruct Hk as [Hs _]. rewrite Nat.sub_0_r, list_lookup_fmap. unfold entry_at.
  by rewrite (shard_lookup N HN o cs Hs).
Qed.

Lemma flat_list (order : PELShard → list PendingEntry) cs :
  (∀ sh, order sh ≡ₚ (map_to_list (entries sh)).*2) → keyed cs →
  concat (order <$> pelShards cs) ≡ₚ (map_to_list (flat cs)).*2.
Proof.
  intros Ho Hk. unfold flat. rewrite (union_perm (ShardKey N) _ 0) by (by apply keyed_by_key).
  clear Hk. induction (pelShards cs) as [|sh shs IH]; [done|]. cbn. by rewrite fmap_app, Ho, IH.
Qed.

Lemma flat_offset cs o e : keyed cs → flat cs !! o = Some e → Offset e = o.
Proof.
  intros Hk. rewrite flat_lookup by done. intros He. destruct Hk as [Hs Hk].
  by eapply (Hk _ _ o e (shard_lookup N HN o cs Hs)).
Qed.

Lemma keyed_on_shard o f cs : keyed cs →
  (∀ k e, entries (f (shard_of N o cs)) !! k = Some e →
     (k = o ∧ Offset e = o) ∨ entries (shard_of N o cs) !! k = Some e) →
  keyed (on_shard N o f cs).
Proof.
  intros [Hs Hk] Hf. split; [by apply shape_on_shard|]. intros i sh k e. simpl.
  rewrite list_lookup_alter. case_decide as E; [subst|by apply Hk].
  rewrite shard_lookup by done. simpl. intros [= <-] He.
  destruct (Hf k e He) as [[-> ?]|H]; [done|]. by eapply Hk; [apply shard_lookup|].
Qed.

Lemma keyed_same_shards cs cs' : pelShards cs' = pelShards cs → keyed cs → keyed cs'.
Proof. unfold keyed, shape. by intros ->. Qed.

(** ** Operations on the cursor and the map *)

Definition sum (cs : ConsumerState) : Z * gmap Z PendingEntry := (Cursor (state cs), flat cs).

Lemma writeOp_sum w op cs : keyed cs → keyed (writeOp w op cs).2 ∧ sum (writeOp w op cs).2 = sum cs.
Proof. intros Hk. by destruct w. Qed.

(** What an operation with a pointwise view does to the map. *)
Lemma flat_view cs cs' (f : gmap Z PendingEntry → gmap Z PendingEntry) : keyed cs → keyed cs' →
  (∀ o, entry_at N o cs' = f (flat cs) !! o) → flat cs' = f (flat cs).
Proof. intros Hk Hk' Hv. apply map_eq. intros o. by rewrite flat_lookup, Hv. Qed.

Ltac at_off := simpl; unfold at_offset; case_decide; simplify_map_eq; try done.

Lemma Deliver_sum t0 w o c cs : keyed cs → let cs' := (Deliver N t0 w o c cs).2 in
  keyed cs' ∧ sum cs' = (if Cursor (state cs) <=? o then u64 (o + 1) else Cursor (state cs),
                         <[o := mkPendingEntry o c t0 1 t0]> (flat cs)).
Proof.
  intros Hk. unfold Deliver.
  assert (Hk' : keyed (applyDeliver N o c t0 cs)).
  { apply keyed_on_shard; [done|]. simpl. intros k e [[<- <-]|[_ H]]%lookup_insert_Some; [by left|by right]. }
  destruct (writeOp_sum w (OpDeliver o c t0) _ Hk') as [H1 H2]. split; [done|]. rewrite H2.
  unfold sum. f_equal; [simpl; by destruct (_ <=? _)|].
  apply (flat_view cs _ (<[o := _]>)); [done..|]. intros k. rewrite deliver_view by (done || apply Hk).
  at_off. by rewrite flat_lookup.
Qed.

Lemma Ack_sum t0 t1 w o cs : keyed cs → let cs' := (Ack N t0 t1 w o cs).2 in
  keyed cs' ∧ sum cs' = (Cursor (state cs), delete o (flat cs)).
Proof.
  intros Hk. unfold Ack. assert (Hk' : keyed (applyAck N t0 o cs)).
  { unfold applyAck. destruct (entry_at N o cs); [|done].
    eapply keyed_same_shards; [apply shards_tryAdvance|]. apply keyed_on_shard; [done|]. simpl.
    intros k e [_ H]%lookup_delete_Some. by right. }
  destruct (writeOp_sum w (OpAck o t1) _ Hk') as [H1 H2]. split; [done|]. rewrite H2.
  unfold sum. f_equal; [apply ack_cursor|].
  apply (flat_view cs _ (delete o)); [done..|]. intros k. rewrite (ack_view N HN _ _ t1) by (done || apply Hk).
  at_off. by rewrite flat_lookup.
Qed.

(** Both change the entry in place. *)
Lemma keyed_update o g f cs : keyed cs → (∀ e, Offset (g e) = Offset e) →
  (∀ e sh, entry_at N o cs = Some e → entries (f e sh) = <[o := g e]> (entries sh)) →
  keyed match entry_at N o cs with None => cs | Some e => on_shard N o (f e) cs end.
Proof.
  intros Hk Hg Hf. destruct (entry_at N o cs) as [e|] eqn:E; [|done]. apply keyed_on_shard; [done|].
  intros k x. rewrite Hf by done. intros [[<- <-]|[_ H]]%lookup_insert_Some; [left|by right].
  split; [done|]. rewrite Hg. rewrite <-flat_lookup in E by done. by eapply flat_offset.
Qed.

Lemma ReleaseAt_sum w o t cs : keyed cs → let cs' := (ReleaseAt N w o t cs).2 in
  keyed cs' ∧ sum cs' = (Cursor (state cs), alter (released t) o (flat cs)).
Proof.
  intros Hk. unfold ReleaseAt. assert (Hk' : keyed (applyRelease N o t cs)).
  { by apply (keyed_update o (released t) (λ e shard, mkPELShard
      (<[o := e <| LastAttempt := t |>]> (entries shard)) (byConsumer shard) true)). }
  destruct (writeOp_sum w (OpRelease o t) _ Hk') as [H1 H2]. split; [done|]. rewrite H2.
  unfold sum. f_equal; [unfold applyRelease; by destruct (entry_at N o cs)|].
  apply (flat_view cs _ (alter (released t) o)); [done..|]. intros k. rewrite release_view by (done || apply Hk).
  at_off; by rewrite flat_lookup.
Qed.

Lemma Claim_sum t0 w o c cs : keyed cs → let cs' := (Claim N t0 w o c cs).2 in
  keyed cs' ∧ sum cs' = (Cursor (state cs), alter (claimed c t0) o (flat cs)).
Proof.
  intros Hk. unfold Claim. assert (Hk' : keyed (applyClaim N o c t0 cs)).
  { by apply (keyed_update o (claimed c t0) (λ e shard, mkPELShard
      (<[o := claimed c t0 e]> (entries shard))
      (index_add c o (index_del (ConsumerID e) o (byConsumer shard))) true)). }
  destruct (writeOp_sum w (OpClaim o c t0) _ Hk') as [H1 H2]. split; [done|]. rewrite H2.
  unfold sum. f_equal; [apply claim_cursor|].
  apply (flat_view cs _ (alter (claimed c t0) o)); [done..|]. intros k. rewrite claim_view by (done || apply Hk).
  at_off; by rewrite flat_lookup.
Qed.

Lemma SetCursor_sum t0 w k cs : keyed cs → let cs' := (SetCursor t0 w k cs).2 in
  keyed cs' ∧ sum cs' = (k, flat cs).
Proof.
  intros Hk. unfold SetCursor. by destruct (writeOp_sum w (OpSetCursor k t0) (applySetCursor k t0 cs) Hk).
Qed.

Lemma new_sum t0 t1 clock :
  let cs := NewConsumerState N t0 t1 clock (mkDisk None ∅ []) in keyed cs ∧ sum cs = (0, ∅).
Proof.
  assert (Hk : keyed (NewConsumerState N t0 t1 clock (mkDisk None ∅ []))).
  { rewrite NewConsumerState_eq. split; [apply load_shape|]. intros i sh o e Hi He.
    pose proof (load_shards (fresh N t0 t1 (mkDisk None ∅ []))) as Hl.
    apply (f_equal (lookup i)) in Hl. rewrite list_lookup_fmap in Hl. simpl in Hl, Hi. rewrite Hi in Hl.
    rewrite list_lookup_imap, list_lookup_fmap in Hl. simpl in Hl.
    destruct (replicate _ _ !! i) eqn:Er; [|done]. apply lookup_replicate in Er as [-> _].
    unfold file_entries in Hl. simpl in Hl. rewrite lookup_empty in Hl. simpl in Hl.
    injection Hl as Hl. by rewrite Hl, lookup_empty in He. }
  split; [done|]. unfold sum. f_equal.
  apply map_eq. intros o. rewrite flat_lookup, lookup_empty by done.
  pose proof (load_look N HN t0 t1 (mkDisk None ∅ []) o) as Hl. rewrite NewConsumerState_eq. simpl in *.
  unfold base_look, file_entries in Hl. simpl in Hl. rewrite lookup_empty in Hl.
  by apply fmap_None in Hl.
Qed.

End flat.
End FlatState.

(** ** Methods of a group whose entries are filed *)

Module Filed.
Import Group GroupFacts.

Lemma filed_some p c e : filed p → e ∈ pel_get c p → is_Some e.
Proof. intros H He. destruct (H c e He) as (x & -> & _). done. Qed.

Lemma filed_insert p c l : filed p →
  (∀ e, e ∈ l → e ∈ pel_get c p ∨ ∃ x, e = Some x ∧ ConsumerID x = c) → filed (<[c := l]> p).
Proof.
  intros Hf Hl c' e. rewrite pel_get_insert. case_decide as Hc; [subst|by apply Hf].
  intros [He|?]%Hl; [by apply Hf|done].
Qed.

Lemma filed_add p c x : filed p → ConsumerID x = c → filed (<[c := pel_get c p ++ [Some x]]> p).
Proof.
  intros Hf Hx. apply filed_insert; [done|]. intros e.
  rewrite elem_of_app, list_elem_of_singleton. intros [?| ->]; [by left|eauto].
Qed.

Lemma all_add p c x : all (<[c := pel_get c p ++ [x]]> p) ≡ₚ x :: all p.
Proof. rewrite all_insert, (all_delete c p). solve_Permutation. Qed.

Lemma filed_cut p c i x : filed p → pel_get c p !! i = Some (Some x) →
  filed (<[c := cut i (pel_get c p)]> p) ∧ ConsumerID x = c ∧
  all p ≡ₚ Some x :: all (<[c := cut i (pel_get c p)]> p).
Proof.
  intros Hf Hi. split_and!.
  - apply filed_insert; [done|]. intros e He%elem_of_cut. by left.
  - destruct (Hf c (Some x)) as (? & [= <-] & ?); [by eapply list_elem_of_lookup_2|done].
  - rewrite all_insert, (all_delete c p) at 1. by rewrite (cut_perm _ _ _ Hi) at 1.
Qed.

(** The search in one consumer's list. *)
Lemma find_filed p c o l : filed p → p !! c = Some l →
  match find_offset o l 0 with
  | Ret (Some (i, e)) => pel_get c p !! i = Some (Some e) ∧ Offset e = o
  | Ret None => o ∉ offsets (pel_get c p)
  | _ => False
  end.
Proof.
  intros Hf Hc. assert (Hl : pel_get c p = l) by (unfold pel_get; by rewrite Hc).
  pose proof (find_offset_spec o l 0) as Hs. rewrite Hl.
  assert (Ha : ∀ e, e ∈ l → is_Some e) by (intros e He; eapply (filed_some p c); [done|by rewrite Hl]).
  specialize (Hs Ha). destruct (find_offset o l 0) as [[[i e]|]| |]; try done.
  by destruct Hs as (j & -> & ? & ?).
Qed.

Lemma RemovePending_filed c o now g : filed (PEL g) →
  ∃ b g', RemovePending c o now g = Ret (b, g') ∧ filed (PEL g') ∧ frame g g' ∧ same_positions g g' ∧
    ((g' = g ∧ o ∉ offsets (pel_get c (PEL g))) ∨
     ∃ x, Offset x = o ∧ all (PEL g) ≡ₚ Some x :: all (PEL g')).
Proof.
  intros Hf. unfold RemovePending. destruct (PEL g !! c) as [l|] eqn:Hc.
  2: { exists false, g. split_and!; try done. left. unfold pel_get. rewrite Hc. split; [done|]. apply not_elem_of_nil. }
  pose proof (find_filed (PEL g) c o l Hf Hc) as Hs.
  destruct (find_offset o l 0) as [[[i x]|]| |]; try done.
  - destruct Hs as [Hi Ho]. destruct (filed_cut _ _ _ _ Hf Hi) as (H1 & _ & H2).
    assert (Hl : pel_get c (PEL g) = l) by (unfold pel_get; by rewrite Hc). rewrite Hl in H1, H2.
    eexists true, _. split; [done|]. split_and!; [done..|]. right. by exists x.
  - exists false, g. split_and!; try done. by left.
Qed.

Lemma TransferPending_filed o a b now g : filed (PEL g) →
  ∃ ok g', TransferPending o a b now g = Ret (ok, g') ∧ filed (PEL g') ∧ frame g g' ∧
    same_positions g g' ∧
    ((g' = g ∧ o ∉ offsets (pel_get a (PEL g))) ∨
     ∃ x x' R, Offset x = o ∧ ConsumerID x = a ∧ Offset x' = o ∧ ConsumerID x' = b ∧
       all (PEL g) ≡ₚ Some x :: R ∧ all (PEL g') ≡ₚ Some x' :: R).
Proof.
  intros Hf. unfold TransferPending. destruct (PEL g !! a) as [l|] eqn:Hc.
  2: { exists false, g. split_and!; try done. left. unfold pel_get. rewrite Hc. split; [done|]. apply not_elem_of_nil. }
  pose proof (find_filed (PEL g) a o l Hf Hc) as Hs.
  destruct (find_offset o l 0) as [[[i x]|]| |]; try done.
  - destruct Hs as [Hi Ho]. destruct (filed_cut _ _ _ _ Hf Hi) as (H1 & H3 & H2).
    assert (Hl : pel_get a (PEL g) = l) by (unfold pel_get; by rewrite Hc). rewrite Hl in H1, H2.
    eexists true, _. split; [done|]. split_and!; [by apply filed_add|done|done|]. right.
    eexists x, _, _. split_and!; [done..| | |done|apply all_add]; done.
  - exists false, g. split_and!; try done. by left.
Qed.

Lemma update_first_perm o f l l' : update_first o f l = Some l' →
  ∃ x R, Offset x = o ∧ l ≡ₚ Some x :: R ∧ l' ≡ₚ Some (f x) :: R.
Proof.
  revert l'. induction l as [|e l IH]; intros l'; simpl; [done|]. destruct e as [x|].
  - destruct (Offset x =? o) eqn:E; bool_prop; [intros [= <-]; by exists x, l|].
    intros (l1 & H & ->)%fmap_Some. destruct (IH l1 H) as (y & R & ? & H1 & H2).
    exists y, (Some x :: R). split_and!; [done| |]; [rewrite H1|rewrite H2]; constructor.
  - intros (l1 & H & ->)%fmap_Some. destruct (IH l1 H) as (y & R & ? & H1 & H2).
    exists y, (None :: R). split_and!; [done| |]; [rewrite H1|rewrite H2]; constructor.
Qed.

Lemma RequeuePending_filed o c at_ now g : filed (PEL g) →
  match RequeuePending o c at_ now g with
  | (false, g') => g' = g
  | (true, g') => filed (PEL g') ∧ frame g g' ∧ same_positions g g' ∧
      ∃ x R, Offset x = o ∧ all (PEL g) ≡ₚ Some x :: R ∧ all (PEL g') ≡ₚ Some (set_ClaimedAt at_ x) :: R
  end.
Proof.
  intros Hf. unfold RequeuePending. destruct (update_first _ _ _) as [l'|] eqn:Hu; [|done].
  pose proof (update_first_spec o (set_ClaimedAt at_) _ _ (λ _, conj eq_refl eq_refl) Hu) as (_ & _ & H3).
  split_and!; [|done|done|].
  - apply filed_insert; [done|]. intros e [?|(x & -> & Hx)]%H3; [by left|right].
    destruct (Hf c (Some x) Hx) as (? & [= <-] & ?). by eexists.
  - apply update_first_perm in Hu as (x & R & Ho & H1 & H2). exists x, (R ++ all (delete c (PEL g))).
    split_and!; [done| |]; simpl.
    + by rewrite (all_delete c (PEL g)), H1.
    + by rewrite all_insert, H2.
Qed.

End Filed.

Module AdapterFacts.
Import Group GroupFacts LogAdapter FlatState Filed.

(** ** A group as a reader gets it *)

(** The entry the adapter shows for one of the consumer state. *)
Definition shown (e : CS.PendingEntry) : option PendingEntry := Some (to_types (to_PELEntry e)).

Section view.
Context (NumPELShards : Z) (HN : 0 < NumPELShards).
Context (shard_order : CS.PELShard → list CS.PendingEntry).
Context (Hshard : ∀ sh, shard_order sh ≡ₚ (map_to_list (CS.entries sh)).*2).
Context {L : Type}.

Notation keyed := (keyed NumPELShards).

(** The consumer state of a group, if its queue is open and the state loaded. *)
Definition states (q g : string) (a : Adapter L) : option (option CS.ConsumerState) :=
  (λ cm, groups cm !! g) <$> consumers a !! q.
Definition objects (q g : string) (a : Adapter L) : option ConsumerGroup :=
  GroupFiles.Get q g (groupStore a).

(** What the two refreshes write into the object. *)
Definition shown_pel (cs : CS.ConsumerState) : pel :=
  pel_of (by_consumer (concat ((λ i, CS.GetPendingByShard shard_order (Z.of_nat i) cs) <$>
                                 seq 0 (CS.NumShards cs)))).
Definition overlay (st : option (option CS.ConsumerState)) (g : ConsumerGroup) : ConsumerGroup :=
  if is_stream g then g
  else match st with
  | None => g
  | Some None => SetCursorPosition 0 (UpdatedAt g) g
  | Some (Some cs) =>
      ReplacePEL (shown_pel cs) (UpdatedAt g)
        (SetCursorPosition (CS.Cursor (CS.state cs)) (UpdatedAt g) g)
  end.
Definition view (q g : string) (a : Adapter L) : option ConsumerGroup :=
  overlay (states q g a) <$> objects q g a.

(** ** The entries shown *)

Lemma by_consumer_spec es : ∀ m,
  let m' := foldl (λ m e, <[CS.ConsumerID e := default [] (m !! CS.ConsumerID e) ++ [to_PELEntry e]]> m) m es in
  (all (pel_of m') ≡ₚ all (pel_of m) ++ (shown <$> es)) ∧ (filed (pel_of m) → filed (pel_of m')).
Proof.
  induction es as [|e es IH]; intros m; [by rewrite app_nil_r|]. cbn [foldl].
  set (m1 := <[CS.ConsumerID e := _]> m).
  assert (Hm1 : pel_of m1 = <[CS.ConsumerID e := pel_get (CS.ConsumerID e) (pel_of m) ++ [shown e]]> (pel_of m)).
  { unfold m1, pel_of. rewrite fmap_insert, fmap_app. unfold pel_get. rewrite lookup_fmap.
    by destruct (m !! CS.ConsumerID e). }
  destruct (IH m1) as [H1 H2]. split.
  - rewrite H1, Hm1, all_add. rewrite fmap_cons. by rewrite <-Permutation_middle.
  - intros Hf. apply H2. rewrite Hm1. by apply filed_add.
Qed.

Lemma shards_by_index cs :
  concat ((λ i, CS.GetPendingByShard shard_order (Z.of_nat i) cs) <$> seq 0 (CS.NumShards cs)) =
  concat (shard_order <$> CS.pelShards cs).
Proof.
  f_equal. unfold CS.NumShards. apply list_eq. intros i. rewrite !list_lookup_fmap.
  destruct (decide (i < length (CS.pelShards cs))%nat) as [Hi|Hi].
  - rewrite lookup_seq_lt by done. simpl. unfold CS.GetPendingByShard.
    destruct (lookup_lt_is_Some_2 _ _ Hi) as [sh Hsh]. rewrite Nat2Z.id, Hsh.
    destruct (_ || _) eqn:E; [|done]. apply orb_true_iff in E as [?|?]; bool_prop; lia.
  - rewrite lookup_seq_ge, lookup_ge_None_2 by lia. done.
Qed.

Definition shown_list (m : gmap Z CS.PendingEntry) : list (option PendingEntry) :=
  shown <$> (map_to_list m).*2.

Lemma shown_pel_spec cs : keyed cs →
  all (shown_pel cs) ≡ₚ shown_list (flat cs) ∧ filed (shown_pel cs).
Proof.
  intros Hk. unfold shown_pel, by_consumer. rewrite shards_by_index.
  destruct (by_consumer_spec (concat (shard_order <$> CS.pelShards cs)) ∅) as [H1 H2]. split.
  - rewrite H1. unfold shown_list. rewrite <-(flat_list _ shard_order cs) by done. done.
  - apply H2. intros c e. by intros ?%elem_of_nil.
Qed.

(** ** The states the adapter reaches *)

(** A group object, given the state of its group. *)
Record object_ok (q g : string) (st : option (option CS.ConsumerState)) (x : ConsumerGroup) : Prop := {
  ok_queue : QueueName x = q;
  ok_id : ID x = g;
  ok_mode : Mode x = GroupModeQueue ∨ Mode x = GroupModeStream;
  ok_filed : filed (PEL x);
  ok_unloaded : Mode x ≠ GroupModeStream → st = Some None → all (PEL x) = []
}.

(** Every directory of an open queue is loaded, and entries are in place. *)
Record valid_adapter (a : Adapter L) : Prop := {
  va_dirs : ∀ q cm, consumers a !! q = Some cm → dirs cm = ∅;
  va_keyed : ∀ q g cs, states q g a = Some (Some cs) → keyed cs;
  va_objects : ∀ q g x, objects q g a = Some x → object_ok q g (states q g a) x
}.

(** The cursor and the entries of a state. *)
Definition held (st : option CS.ConsumerState) : Z * gmap Z CS.PendingEntry :=
  match st with None => (0, ∅) | Some cs => sum cs end.

Lemma overlay_frame st x : frame x (overlay st x) ∧ committed_of (overlay st x) = committed_of x.
Proof. unfold overlay. destruct (is_stream x); [done|]. by destruct st as [[cs|]|]. Qed.

Lemma overlay_stream st x : Mode x = GroupModeStream → overlay st x = x.
Proof. intros H. unfold overlay, is_stream. by rewrite H. Qed.

Lemma overlay_None x : overlay None x = x.
Proof. unfold overlay. by destruct (is_stream x). Qed.

Lemma overlay_held q g st x : object_ok q g (Some st) x → (∀ cs, st = Some cs → keyed cs) →
  Mode x ≠ GroupModeStream →
  cursor_of (overlay (Some st) x) = (held st).1 ∧
  all (PEL (overlay (Some st) x)) ≡ₚ shown_list (held st).2 ∧ filed (PEL (overlay (Some st) x)).
Proof.
  intros Hok Hk Hm. unfold overlay, is_stream. rewrite bool_decide_eq_false_2 by done.
  destruct st as [cs|].
  - split; [done|]. apply shown_pel_spec. by apply Hk.
  - split; [done|]. simpl. split; [|by apply Hok]. rewrite (ok_unloaded _ _ _ _ Hok) by done.
    unfold shown_list. by rewrite map_to_list_empty.
Qed.

(** ** The two halves of a call *)

(** A change of one group alone. *)
Record apart (q g : string) (a a' : Adapter L) : Prop := {
  apart_logs : logs a' = logs a;
  apart_states : ∀ q' g', (q', g') ≠ (q, g) → states q' g' a' = states q' g' a;
  apart_objects : ∀ q' g', (q', g') ≠ (q, g) → objects q' g' a' = objects q' g' a
}.

Lemma apart_trans q g a1 a2 a3 : apart q g a1 a2 → apart q g a2 a3 → apart q g a1 a3.
Proof.
  intros [H1 H2 H3] [H1' H2' H3']. split; [congruence| |]; intros q' g' Hne.
  - by rewrite H2', H2.
  - by rewrite H3', H3.
Qed.

(** Neither the states nor the objects change. *)
Lemma unchanged a a' : consumers a' = consumers a → groupStore a' = groupStore a → logs a' = logs a →
  valid_adapter a → valid_adapter a' ∧ ∀ q g, apart q g a a'.
Proof.
  intros Hc Hg Hl [V1 V2 V3]. assert (Hs : ∀ q g, states q g a' = states q g a).
  { intros q g. unfold states. by rewrite Hc. }
  assert (Ho : ∀ q g, objects q g a' = objects q g a) by (intros q g; unfold objects; by rewrite Hg).
  split; [|by split]. split.
  - by rewrite Hc.
  - intros q g cs. rewrite Hs. apply V2.
  - intros q g x. rewrite Hs, Ho. apply V3.
Qed.

Lemma apart_view q g a a' q' g' : apart q g a a' → (q', g') ≠ (q, g) → view q' g' a' = view q' g' a.
Proof. intros [_ H2 H3] Hne. unfold view. by rewrite H2, H3. Qed.

(** A call that changes the consumer state of the group, or fails before. *)
Definition half_done (q g : string) (R : Z * gmap Z CS.PendingEntry → Z * gmap Z CS.PendingEntry → Prop)
    (a : Adapter L) (res : outcome QErr unit * Adapter L) : Prop :=
  valid_adapter res.2 ∧ apart q g a res.2 ∧ objects q g res.2 = objects q g a ∧ res.1 ≠ Panic ∧
  ((states q g res.2 = states q g a ∧ res.1 ≠ Ret tt) ∨
   ∃ st cs', states q g a = Some st ∧ states q g res.2 = Some (Some cs') ∧ R (held st) (sum cs')).
Definition state_half q g R (op : state (Adapter L) (outcome QErr unit)) : Prop :=
  ∀ a, valid_adapter a → half_done q g R a (op a).

Lemma half_failed q g R a a' e : valid_adapter a → consumers a' = consumers a →
  groupStore a' = groupStore a → logs a' = logs a → half_done q g R a (Fail e, a').
Proof.
  intros Hv Hc Hg Hl. destruct (unchanged a a' Hc Hg Hl Hv) as [V A].
  split_and!; [done..|by unfold objects; simpl; rewrite Hg|done|]. left. split; [|done].
  unfold states. simpl. by rewrite Hc.
Qed.

Definition put_state (q g : string) (cm : ConsumerManager) (cs : CS.ConsumerState) (a : Adapter L) :
    Adapter L :=
  a <| consumers := <[q := cm <| groups := <[g := cs]> (groups cm) |>]> (consumers a) |>.

Lemma put_state_spec q g cm0 cm cs a : valid_adapter a → consumers a !! q = Some cm0 →
  dirs cm = ∅ → (∀ g', g' ≠ g → groups cm !! g' = groups cm0 !! g') → keyed cs →
  valid_adapter (put_state q g cm cs a) ∧ apart q g a (put_state q g cm cs a) ∧
  states q g (put_state q g cm cs a) = Some (Some cs).
Proof.
  intros Hv Hq Hd Hg Hk.
  assert (Hst : ∀ q' g', states q' g' (put_state q g cm cs a) =
    if decide ((q', g') = (q, g)) then Some (Some cs) else states q' g' a).
  { intros q' g'. unfold states, put_state. simpl. destruct (decide (q' = q)) as [->|Hne].
    - rewrite lookup_insert_eq. simpl. destruct (decide (g' = g)) as [->|Hg'].
      + rewrite decide_True by done. by rewrite lookup_insert_eq.
      + rewrite decide_False by congruence. rewrite lookup_insert_ne by done. by rewrite Hq, Hg.
    - rewrite lookup_insert_ne by done. by rewrite decide_False by congruence. }
  split_and!.
  - split.
    + intros q' cm'. simpl. intros [[_ <-]|[_ H]]%lookup_insert_Some; [done|by eapply va_dirs].
    + intros q' g' cs'. rewrite Hst. case_decide; [by intros [= <-]|by apply va_keyed].
    + intros q' g' x Hx. rewrite Hst. pose proof (va_objects _ Hv q' g' x Hx) as Hok.
      case_decide; [|done]. by destruct Hok.
  - split; [done| |done]. intros q' g' Hne. by rewrite Hst, decide_False.
  - by rewrite Hst, decide_True.
Qed.

Lemma half_put q g R a a' cm0 cm cs (r : outcome QErr unit) : valid_adapter a →
  consumers a !! q = Some cm0 → dirs cm = ∅ →
  (∀ g', g' ≠ g → groups cm !! g' = groups cm0 !! g') → keyed cs →
  R (held (groups cm0 !! g)) (sum cs) → r ≠ Panic →
  consumers a' = consumers (put_state q g cm cs a) → groupStore a' = groupStore a → logs a' = logs a →
  half_done q g R a (r, a').
Proof.
  intros Hv Hq Hd Ho Hk HR Hr Hc Hg Hl.
  destruct (put_state_spec q g cm0 cm cs a Hv Hq Hd Ho Hk) as (V & A & S).
  destruct (unchanged (put_state q g cm cs a) a' Hc Hg Hl V) as [V' A'].
  split_and!; [done|by eapply apart_trans|by unfold objects; simpl; rewrite Hg|done|].
  right. exists (groups cm0 !! g), cs. split_and!; [by unfold states; rewrite Hq| |done].
  rewrite <-S. unfold states. simpl. by rewrite Hc.
Qed.

Context (now : nat → Z) (writes : nat → CS.WriteResult) (saves mkdirs : nat → bool).
Context (replay_clock : nat → nat → Z).

(** An operation on consumer states that keeps their entries in place. *)
Definition moves (R : Z * gmap Z CS.PendingEntry → Z * gmap Z CS.PendingEntry → Prop) (f : state_op) : Prop :=
  ∀ t0 t1 w cs, keyed cs → keyed (f t0 t1 w cs).2 ∧ R (sum cs) (sum (f t0 t1 w cs).2).

Lemma GetOrCreate_spec g mkdir t0 t1 cm : dirs cm = ∅ →
  (∀ cs, groups cm !! g = Some cs → keyed cs) →
  match GetOrCreate NumPELShards replay_clock g mkdir t0 t1 cm with
  | Ret (cs, cm') => keyed cs ∧ sum cs = held (groups cm !! g) ∧ dirs cm' = ∅ ∧
      groups cm' !! g = Some cs ∧ ∀ g', g' ≠ g → groups cm' !! g' = groups cm !! g'
  | Fail _ => True
  | Panic => False
  end.
Proof.
  intros Hd Hk. unfold GetOrCreate. destruct (closed cm); [done|].
  destruct (groups cm !! g) as [cs|] eqn:E; [by split_and!; try apply Hk|].
  destruct mkdir; [|done]. rewrite Hd, lookup_empty. simpl.
  destruct (new_sum NumPELShards HN (UnixMilli t0) (UnixMilli t1) replay_clock) as [H1 H2].
  split_and!; [done|done|apply delete_empty|apply lookup_insert_eq|].
  intros g' Hne. by rewrite lookup_insert_ne.
Qed.

Lemma on_new_state_half q g R f : moves R f →
  state_half q g R (on_new_state NumPELShards now writes mkdirs replay_clock q g f).
Proof.
  intros Hf a Hv. unfold on_new_state. rewrite M_bind_eq. cbn [gets fst snd].
  destruct (consumers a !! q) as [cm|] eqn:Eq; [|by apply half_failed].
  rewrite !M_bind_eq. unfold ask. cbn [fst snd].
  assert (Hcm : ∀ cs, groups cm !! g = Some cs → keyed cs).
  { intros cs Hcs. apply (va_keyed _ Hv q g). unfold states. by rewrite Eq, <-Hcs. }
  match goal with |- context [GetOrCreate _ _ g ?m ?t0 ?t1 cm] =>
    pose proof (GetOrCreate_spec g m t0 t1 cm (va_dirs _ Hv q cm Eq) Hcm) as Hg end.
  destruct (GetOrCreate _ _ _ _ _ _ _) as [[cs cm']|e|]; [|by apply half_failed|done].
  destruct Hg as (Hk & Hs & Hd & Hg & Ho). rewrite !M_bind_eq. cbn [fst snd].
  match goal with |- context [f ?t0 ?t1 ?w cs] => destruct (Hf t0 t1 w cs Hk) as [Hk' HR];
    destruct (f t0 t1 w cs) as [ok cs'] end.
  rewrite Hs in HR. by destruct ok; apply (half_put q g R a _ cm cm' cs').
Qed.

Lemma on_state_half q g R f : moves R f → state_half q g R (on_state now writes q g f).
Proof.
  intros Hf a Hv. unfold on_state. rewrite M_bind_eq. cbn [gets fst snd].
  destruct (consumers a !! q) as [cm|] eqn:Eq; [|by apply half_failed].
  unfold cm_Get. destruct (groups cm !! g) as [cs|] eqn:Eg; [|by apply half_failed].
  assert (Hk : keyed cs). { apply (va_keyed _ Hv q g). unfold states. by rewrite Eq, <-Eg. }
  rewrite !M_bind_eq. unfold ask. cbn [fst snd].
  match goal with |- context [f ?t0 ?t1 ?w cs] => destruct (Hf t0 t1 w cs Hk) as [Hk' HR];
    destruct (f t0 t1 w cs) as [ok cs'] end.
  pose proof (va_dirs _ Hv q cm Eq).
  by destruct ok; apply (half_put q g R a _ cm cm cs'); try done; rewrite Eg.
Qed.

(** ** The object's half *)

Lemma objects_save x (a : Adapter L) q g : objects q g (save saves x a).2 =
  if decide (QueueName x = q ∧ ID x = g) then Some x else objects q g a.
Proof.
  etrans; [|apply (GroupFilesFacts.lookup2_put q g x)]. unfold save. rewrite !M_bind_eq. cbn [ask fst snd].
  by destruct (saves (ticks a)).
Qed.

Lemma save_rest x (a : Adapter L) : (save saves x a).1 ≠ Panic ∧ consumers (save saves x a).2 = consumers a ∧
  logs (save saves x a).2 = logs a.
Proof. unfold save. rewrite !M_bind_eq. cbn [ask fst snd]. by destruct (saves (ticks a)). Qed.

Lemma objects_mutate q g f (a : Adapter L) q' g' : objects q' g' (mutate q g f a).2 =
  if decide ((q', g') = (q, g)) then f <$> objects q g a else objects q' g' a.
Proof.
  unfold objects, mutate, GroupFiles.Get. cbn. destruct (decide (q' = q)) as [->|Hq].
  - rewrite lookup_alter_eq. destruct (decide (g' = g)) as [->|Hg].
    + rewrite decide_True by done. destruct (GroupFiles.groups (groupStore a) !! q); [|done].
      simpl. by rewrite lookup_alter_eq.
    + rewrite decide_False by congruence. destruct (GroupFiles.groups (groupStore a) !! q); [|done].
      simpl. by rewrite lookup_alter_ne.
  - rewrite lookup_alter_ne by done. by rewrite decide_False by congruence.
Qed.

(** A call that changes the object of the group alone. *)
Definition object_done (q g : string) (F : ConsumerGroup → ConsumerGroup → Prop) (a : Adapter L)
    (res : outcome QErr unit * Adapter L) : Prop :=
  res.1 ≠ Panic ∧ consumers res.2 = consumers a ∧ logs res.2 = logs a ∧
  (∀ q' g', (q', g') ≠ (q, g) → objects q' g' res.2 = objects q' g' a) ∧
  match objects q g a with
  | None => objects q g res.2 = None
  | Some x => ∃ y, objects q g res.2 = Some y ∧ F x y
  end.

Lemma object_done_valid q g F a res : valid_adapter a → object_done q g F a res →
  (∀ x y, object_ok q g (states q g a) x → F x y → object_ok q g (states q g a) y) →
  valid_adapter res.2 ∧ apart q g a res.2 ∧ states q g res.2 = states q g a.
Proof.
  intros [V1 V2 V3] (_ & Hc & Hl & Ho & Hx) HF.
  assert (Hs : ∀ q g, states q g res.2 = states q g a) by (intros; unfold states; by rewrite Hc).
  split_and!; [|by split|done]. split.
  - by rewrite Hc.
  - intros q' g' cs. rewrite Hs. apply V2.
  - intros q' g' y. rewrite Hs. destruct (decide ((q', g') = (q, g))) as [[= -> ->]|Hne].
    + destruct (objects q g a) as [x|] eqn:E; [|by rewrite Hx].
      destruct Hx as (y' & -> & Hy). intros [= ->]. by apply (HF x); [apply V3|].
    + rewrite Ho by done. apply V3.
Qed.

(** The method through the pointer, and the save that follows it. *)
Lemma replaced_done q g (F : ConsumerGroup → ConsumerGroup → Prop) f x y a a1 : valid_adapter a →
  objects q g a = Some x →
  consumers a1 = consumers a → groupStore a1 = groupStore a → logs a1 = logs a →
  f x = y → QueueName y = QueueName x → ID y = ID x → F x y →
  object_done q g F a ((mutate q g f;; save saves y) a1).
Proof.
  intros Hv Hx Hc Hg Hl <- H1 H2 HF. destruct (va_objects _ Hv q g x Hx).
  assert (Ho : ∀ q g, objects q g a1 = objects q g a) by (intros; unfold objects; by rewrite Hg).
  rewrite M_bind_eq. destruct (save_rest (f x) (mutate q g f a1).2) as (R1 & R2 & R3).
  split_and!; [done|by rewrite R2|by rewrite R3| |].
  - intros q' g' Hne. rewrite objects_save, decide_False by (intros []; congruence).
    by rewrite objects_mutate, decide_False.
  - rewrite Hx, objects_save, decide_True by (split; congruence). by eexists.
Qed.

(** A method that keeps the names of the group. *)
Definition names_kept (f : ConsumerGroup → ConsumerGroup) : Prop :=
  ∀ x, QueueName (f x) = QueueName x ∧ ID (f x) = ID x.

Lemma also_in_group_done q g f a : valid_adapter a → (∀ t, names_kept (f t)) →
  object_done q g (λ x y, ∃ t, y = f t x) a (also_in_group now saves q g f a).
Proof.
  intros Hv Hf. unfold also_in_group, get. rewrite M_bind_eq. cbn [gets fst snd].
  change (GroupFiles.Get q g (groupStore a)) with (objects q g a).
  destruct (objects q g a) as [x|] eqn:E; [|by split_and!; try done; rewrite E].
  rewrite M_bind_eq. cbn [time_Now ask fst snd]. destruct (Hf (now (ticks a)) x).
  apply (replaced_done q g _ _ x); try done. by eexists.
Qed.

(** ** The adapter as a store *)

Context (pel_order : pel → list (string * list (option PendingEntry))).
Context (group_order : gmap string ConsumerGroup → list ConsumerGroup).
Context {Env : Type} (topic : Env → string) (isExpired : Z → Env → bool).
Context (queueOffset queueCreatedAt : Env → Z).
Context (head tail : string → L → outcome QErr Z) (read : string → Z → L → outcome QErr Env).

#[local] Instance adapter_store : GroupStore (Adapter L) Env := {|
  Topic := topic;
  IsExpired := isExpired;
  QueueOffset := queueOffset;
  QueueCreatedAt := queueCreatedAt;
  Head q a := head q (logs a);
  Tail q a := tail q (logs a);
  Read q o a := read q o (logs a);
  valid := valid_adapter;
  live := view;
  through q g f a := (mutate q g f a).2;
  GroupStore.CreateConsumerGroup :=
    CreateConsumerGroup NumPELShards now writes saves mkdirs replay_clock pel_order;
  GroupStore.GetConsumerGroup := GetConsumerGroup now shard_order;
  GroupStore.UpdateConsumerGroup := UpdateConsumerGroup now saves;
  GroupStore.ListConsumerGroups := ListConsumerGroups group_order;
  GroupStore.AddPendingEntry :=
    AddPendingEntry NumPELShards now writes saves mkdirs replay_clock;
  GroupStore.RemovePendingEntry := RemovePendingEntry NumPELShards now writes saves pel_order;
  GroupStore.TransferPendingEntry :=
    TransferPendingEntry NumPELShards now writes saves shard_order pel_order;
  GroupStore.UpdateCursor := UpdateCursor NumPELShards now writes saves mkdirs replay_clock;
  GroupStore.UpdateCommitted := UpdateCommitted now saves;
  GroupStore.RegisterConsumer := RegisterConsumer now saves;
  GroupStore.UnregisterConsumer := UnregisterConsumer now saves;
  requeues := true;
  GroupStore.RequeuePendingEntry := RequeuePendingEntry NumPELShards now writes saves pel_order
|}.

Context (Hpel : ∀ p, pel_order p ≡ₚ map_to_list p).
Context (Hgroups : ∀ m, group_order m ≡ₚ (map_to_list m).*2).
Context (Htail : ∀ q l t, tail q l = Ret t → t < 2 ^ 64).
Context (Hreads : ∀ q o l, read q o l ≠ Panic ∧ tail q l ≠ Panic).

Lemma apart_same_logs q g a a' : apart q g a a' → same_logs a a'.
Proof. intros [Hl _ _]. by split_and!; intros; simpl; rewrite Hl. Qed.

Lemma eff_same_refl x : eff_same x x.
Proof. by repeat split. Qed.

(** What a call did, seen by a reader. *)
Definition shown_done (q g : string) (eff : ConsumerGroup → ConsumerGroup → Prop) (a : Adapter L)
    (res : outcome QErr unit * Adapter L) : Prop :=
  valid_adapter res.2 ∧ apart q g a res.2 ∧ res.1 ≠ Panic ∧
  match objects q g a with
  | None => objects q g res.2 = None
  | Some x => ∃ y, objects q g res.2 = Some y ∧
      let v := overlay (states q g a) x in let v' := overlay (states q g res.2) y in
      (eff v v' ∨ eff_same v v') ∧ (res.1 = Ret tt → eff v v')
  end.

Lemma acts_intro q g eff op : (∀ a, valid_adapter a → shown_done q g eff a (op a)) → acts q g eff op.
Proof.
  intros H a Hv. destruct (H a Hv) as (V & A & P & O). split_and!; [done|by eapply apart_same_logs| | |done].
  - intros q' g' Hne. by eapply apart_view.
  - cbn [live adapter_store]. unfold view. destruct (objects q g a) as [x|]; cbn [fmap option_fmap option_map].
    + destruct O as (y & -> & O1 & O2). by eexists.
    + by rewrite O.
Qed.

(** A reader's group outside streams, of a cursor and a map of entries. *)
Definition shows (h : Z * gmap Z CS.PendingEntry) (v : ConsumerGroup) : Prop :=
  cursor_of v = h.1 ∧ all (PEL v) ≡ₚ shown_list h.2 ∧ filed (PEL v) ∧
  ∀ o e, h.2 !! o = Some e → CS.Offset e = o.

Lemma overlay_shows q g st x : object_ok q g (Some st) x → (∀ cs, st = Some cs → keyed cs) →
  Mode x ≠ GroupModeStream → shows (held st) (overlay (Some st) x).
Proof.
  intros Hok Hk Hm. destruct (overlay_held q g st x Hok Hk Hm) as (H1 & H2 & H3). split_and!; [done..|].
  destruct st as [cs|]; [|by cbn; intros ? ? ?%lookup_empty_Some]. intros o e. by apply (flat_offset NumPELShards HN), Hk.
Qed.

(** The object keeps its names, its mode and its commit. *)
Definition steady (x y : ConsumerGroup) : Prop := frame x y ∧ committed_of y = committed_of x.

(** A state that moved under an object. *)
Definition eff_of (R : Z * gmap Z CS.PendingEntry → Z * gmap Z CS.PendingEntry → Prop)
    (eff : ConsumerGroup → ConsumerGroup → Prop) : Prop :=
  ∀ h h' v v', R h h' → shows h v → shows h' v' → steady v v' → Mode v ≠ GroupModeStream → eff v v'.

Lemma overlay_moved q g R eff st cs' x y : eff_of R eff → R (held st) (sum cs') →
  object_ok q g (Some st) x → (∀ cs, st = Some cs → keyed cs) → keyed cs' →
  object_ok q g (Some (Some cs')) y → steady x y → Mode x ≠ GroupModeStream →
  eff (overlay (Some st) x) (overlay (Some (Some cs')) y).
Proof.
  intros He HR Hx Hk Hk' Hy [Hf Hc] Hm. destruct (overlay_frame (Some st) x) as [Fx Cx].
  destruct (overlay_frame (Some (Some cs')) y) as [Fy Cy]. unfold frame in *.
  apply (He (held st) (sum cs')); [done|by eapply overlay_shows| | |].
  - apply (overlay_shows q g (Some cs')); [done|by intros cs [= <-]|intuition congruence].
  - unfold steady, frame. intuition congruence.
  - intuition congruence.
Qed.

Lemma try_eq {A B} (m : state (Adapter L) (outcome QErr A)) (k : A → state (Adapter L) (outcome QErr B)) a :
  try_bind m k a = match (m a).1 with
                   | Ret x => k x (m a).2 | Fail e => (Fail e, (m a).2) | Panic => (Panic, (m a).2)
                   end.
Proof. unfold try_bind. rewrite M_bind_eq. by destruct (m a).1. Qed.

(** The state's half, then the object's. *)
Lemma two_halves q g eff R F op1 op2 a : valid_adapter a →
  half_done q g R a (op1 a) →
  (∀ a', valid_adapter a' → objects q g a' = objects q g a → object_done q g F a' (op2 a')) →
  (∀ cs x y, object_ok q g (Some (Some cs)) x → F x y → object_ok q g (Some (Some cs)) y ∧ steady x y) →
  eff_of R eff →
  (∀ x y, objects q g a = Some x → Mode x = GroupModeStream → F x y → eff x y) →
  shown_done q g eff a (try_bind op1 (λ _, op2) a).
Proof.
  intros Hv (V1 & A1 & O1 & P1 & S1) H2 HF He Hs. rewrite try_eq.
  assert (Hfail : (op1 a).1 ≠ Ret tt → shown_done q g eff a (op1 a)).
  { intros Hr. split_and!; [done..|]. rewrite O1. destruct (objects q g a) as [x|] eqn:E; [|done].
    exists x. split; [done|]. split; [|done]. pose proof (va_objects _ Hv q g x E) as Hx.
    destruct S1 as [[-> _]|(st & cs' & Est & Es' & HR)]; [right; apply eff_same_refl|].
    destruct (decide (Mode x = GroupModeStream)) as [Hm|Hm].
    { rewrite !overlay_stream by done. right. apply eff_same_refl. }
    left. rewrite Est, Es' in *. apply (overlay_moved q g R); try done.
    - intros cs ->. by apply (va_keyed _ Hv q g).
    - by apply (va_keyed _ V1 q g).
    - rewrite <-O1 in E. rewrite <-Es'. by apply (va_objects _ V1). }
  destruct (op1 a) as [[[]|e|] a1] eqn:E1; cbn [fst snd] in *; [|by apply Hfail|done].
  destruct S1 as [[_ ?]|(st & cs' & Est & Es' & HR)]; [done|]. specialize (H2 a1 V1 O1).
  pose proof H2 as (P2 & C2 & L2 & O2 & X2).
  destruct (object_done_valid q g F a1 (op2 a1) V1 H2) as (V2 & A2 & S2).
  { intros x y. rewrite Es'. apply HF. }
  split_and!; [done|by eapply apart_trans|done|]. rewrite O1 in X2.
  destruct (objects q g a) as [x|] eqn:E; [|done]. destruct X2 as (y & -> & Hy). exists y. split; [done|].
  assert (Hx : object_ok q g (Some (Some cs')) x) by (rewrite <-Es'; by apply (va_objects _ V1)).
  destruct (HF cs' x y Hx Hy) as [Hoy Hst].
  assert (Heff : eff (overlay (states q g a) x) (overlay (states q g (op2 a1).2) y)); [|by split; [left|]].
  rewrite Est, S2, Es'. destruct (decide (Mode x = GroupModeStream)) as [Hm|Hm].
  - destruct Hst as [(_ & _ & Hmy & _) _]. rewrite !overlay_stream by congruence. by apply Hs.
  - apply (overlay_moved q g R); try done.
    + rewrite <-Est. by apply (va_objects _ Hv).
    + intros cs ->. by apply (va_keyed _ Hv q g).
    + by apply (va_keyed _ V1 q g).
Qed.

(** ** Pending entries *)

Lemma shown_lookup m o e : m !! o = Some e → shown_list m ≡ₚ shown e :: shown_list (delete o m).
Proof.
  intros He. unfold shown_list. by rewrite <-(map_to_list_delete m o e He).
Qed.

Lemma shown_insert m o e : shown_list (<[o := e]> m) ≡ₚ shown e :: shown_list (delete o m).
Proof.
  rewrite (shown_lookup _ o e) by apply lookup_insert_eq. by rewrite delete_insert_eq.
Qed.

Definition other (o : Z) (e : option PendingEntry) : bool := negb (has_offset o e).

#[local] Instance filter_proper o : Proper ((≡ₚ) ==> (≡ₚ)) (List.filter (other o)).
Proof.
  induction 1; simpl; repeat case_match; try done; try by constructor. by etrans.
Qed.

(** Entries at their offsets. *)
Definition in_place (m : gmap Z CS.PendingEntry) : Prop := ∀ o e, m !! o = Some e → CS.Offset e = o.

Lemma filter_all {A} (p : A → bool) l : (∀ x, x ∈ l → p x = true) → List.filter p l = l.
Proof.
  induction l as [|x l IH]; intros Hp; [done|]. simpl. rewrite Hp by left. f_equal. apply IH.
  intros y Hy. apply Hp. by right.
Qed.

Lemma shown_delete_other m o : in_place m →
  List.filter (other o) (shown_list (delete o m)) = shown_list (delete o m).
Proof.
  intros Hp. apply filter_all. intros x Hx. unfold shown_list in Hx.
  apply list_elem_of_fmap in Hx as (e & -> & Hx). apply list_elem_of_fmap in Hx as ([o' e'] & -> & Hx).
  apply elem_of_map_to_list, lookup_delete_Some in Hx as [Hne Hx]. apply Hp in Hx. simpl.
  apply negb_true_iff, Z.eqb_neq. simpl. congruence.
Qed.

Lemma shown_delete m o : in_place m → shown_list (delete o m) ≡ₚ List.filter (other o) (shown_list m).
Proof.
  intros Hp. destruct (m !! o) as [e|] eqn:E.
  - rewrite (shown_lookup m o e E). cbn [List.filter].
    change (other o (shown e)) with (negb (CS.Offset e =? o)). rewrite (Hp o e E), Z.eqb_refl. cbn [negb].
    by rewrite shown_delete_other.
  - rewrite delete_id by done. rewrite <-(delete_id m o E) at 2. by rewrite shown_delete_other, delete_id.
Qed.

Lemma shown_offsets m o : in_place m → o ∈ offsets (shown_list m) ↔ is_Some (m !! o).
Proof.
  intros Hp. rewrite elem_of_offsets. unfold shown_list. split.
  - intros (x & Hx & <-). apply list_elem_of_fmap in Hx as (e & [= ->] & Hx).
    apply list_elem_of_fmap in Hx as ([o' e'] & -> & Hx). apply elem_of_map_to_list in Hx.
    simpl. exists e'. by rewrite (Hp o' e' Hx).
  - intros [e He]. eexists (to_types (to_PELEntry e)). split; [|by apply Hp].
    apply list_elem_of_fmap. exists e. split; [done|]. apply list_elem_of_fmap. exists (o, e).
    split; [done|]. by apply elem_of_map_to_list.
Qed.

(** ** The laws *)

Definition r_deliver (o : Z) (c : string) (h h' : Z * gmap Z CS.PendingEntry) : Prop :=
  ∃ t, h' = (if h.1 <=? o then u64 (o + 1) else h.1, <[o := CS.mkPendingEntry o c t 1 t]> h.2).

Lemma eff_deliver e : eff_of (r_deliver (Offset e) (ConsumerID e)) (eff_add e).
Proof.
  intros h h' v v' [t ->] (C & P & F & Hp) (C' & P' & F' & _) [Hf Hc] Hm. split; [done|].
  split; [done|]. simpl in *.
  split; [|split; [done|]].
  - intros Ho. assert (cursor_of v' = Z.max (cursor_of v) (Offset e + 1)); [|by split; [right|]].
    rewrite C', C. destruct (h.1 <=? Offset e) eqn:El; bool_prop; [rewrite u64_small by lia|]; lia.
  - eexists _, _. split_and!; [..|by right].
    4: { rewrite P', shown_insert. rewrite shown_delete by done. unfold shown. by rewrite P. }
    all: done.
Qed.

Lemma add_law q g e : acts q g (eff_add e)
  (AddPendingEntry NumPELShards now writes saves mkdirs replay_clock q g e).
Proof.
  apply acts_intro. intros a Hv. unfold AddPendingEntry.
  eapply (two_halves q g _ (r_deliver (Offset e) (ConsumerID e))
    (λ x y, ∃ t, y = Group.AddPending (ConsumerID e) (Some e) t x)); [done| | | | |].
  - apply on_new_state_half; [|done]. intros t0 t1 w cs Hk.
    destruct (Deliver_sum NumPELShards HN t0 w (Offset e) (ConsumerID e) cs Hk) as [H1 H2].
    split; [done|]. by exists t0.
  - intros a' Hv' _. by apply also_in_group_done.
  - intros cs x y [] [t ->]. split; [split; try done|by repeat split]. by apply filed_add.
  - apply eff_deliver.
  - intros x y _ Hm [t ->]. split; [done|]. split; [done|]. split; [by split; [left|]|].
    split; [intros; by apply filed_add|]. exists e, (all (PEL x)). split_and!; [done..|apply all_add|by left].
Qed.

Definition r_ack (o : Z) (h h' : Z * gmap Z CS.PendingEntry) : Prop := h' = (h.1, delete o h.2).

Lemma eff_ack o : eff_of (r_ack o) (eff_remove o).
Proof.
  intros h h' v v' -> (C & P & F & Hp) (C' & P' & F' & _) [Hf Hc] Hm. simpl in *.
  split; [done|]. split; [by split; [congruence|]|]. split; [done|].
  destruct (h.2 !! o) as [e|] eqn:E.
  - exists [shown e]. split_and!; [by rewrite P, P', (shown_lookup _ o e E)| |done].
    constructor; [|constructor]. simpl. apply Z.eqb_eq. by apply Hp.
  - exists []. rewrite delete_id in P' by done. split_and!; [by rewrite P, P'|constructor|].
    intros _ _. rewrite P, shown_offsets, E by done. by intros [].
Qed.

Lemma owner_of_spec o x : filed (PEL x) →
  (owner_of pel_order o x = EmptyString ∧ o ∉ offsets (all (PEL x))) ∨
  ∃ e, Some e ∈ pel_get (owner_of pel_order o x) (PEL x) ∧ Offset e = o ∧
    ConsumerID e = owner_of pel_order o x.
Proof.
  intros Hf. unfold owner_of. destruct (FindPending o (pel_order (PEL x))) as [[e c]|] eqn:E.
  - right. apply FindPending_Some in E as (l & Hl & He & Ho).
    apply (elem_of_order _ _ c l (Hpel (PEL x))) in Hl.
    assert (Hin : Some e ∈ pel_get c (PEL x)) by (unfold pel_get; by rewrite Hl).
    destruct (Hf c _ Hin) as (? & [= <-] & ?). by exists e.
  - left. split; [done|]. apply FindPending_None in E. by rewrite (all_order _ _ (Hpel (PEL x))) in E.
Qed.

(** An object after a removal by the adapter. *)
Definition removed (c : string) (o : Z) (x y : ConsumerGroup) : Prop :=
  let owner := owner_of pel_order o x in
  ∃ t b, RemovePending (if str_eqb owner EmptyString then c else owner) o t x = Ret (b, y).

Lemma removed_spec c o x y : filed (PEL x) → removed c o x y →
  filed (PEL y) ∧ frame x y ∧ eff_remove o x y.
Proof.
  intros Hf (t & b & H). revert H. set (owner := owner_of pel_order o x).
  set (c' := if str_eqb owner EmptyString then c else owner). intros H.
  destruct (RemovePending_filed c' o t x Hf) as (b' & g' & E & H1 & H2 & H3 & H4).
  rewrite E in H. injection H as <- ->. split_and!; [done..|]. split_and!; [done..|].
  destruct H4 as [[-> Hn]|(e & Ho & Hp)].
  - exists []. split_and!; [done|constructor|]. intros _ Hown Hin. exfalso.
    destruct (owner_of_spec o x Hf) as [[_ ?]|(e & He & Ho & Hc)]; [done|]. fold owner in He, Hc.
    assert (owner ≠ EmptyString).
    { rewrite <-Hc. apply Hown. apply elem_of_all. by exists owner. }
    unfold c', str_eqb in Hn. rewrite bool_decide_eq_false_2 in Hn by done.
    apply Hn, elem_of_offsets. by exists e.
  - exists [Some e]. split_and!; [done| |done]. constructor; [|constructor]. simpl. by apply Z.eqb_eq.
Qed.

Lemma remove_law q g c o : acts q g (eff_remove o)
  (RemovePendingEntry NumPELShards now writes saves pel_order q g c o).
Proof.
  apply acts_intro. intros a Hv. unfold RemovePendingEntry.
  eapply (two_halves q g _ (r_ack o) (removed c o)); [done| | | | |].
  - apply on_state_half; [|done]. intros t0 t1 w cs Hk.
    by destruct (Ack_sum NumPELShards HN t0 t1 w o cs Hk).
  - intros a' Hv' _. clear a Hv. rename a' into a, Hv' into Hv. rewrite M_bind_eq. cbn [get gets fst snd].
    change (GroupFiles.Get q g (groupStore a)) with (objects q g a).
    destruct (objects q g a) as [x|] eqn:E; [|by split_and!; try done; rewrite E].
    rewrite M_bind_eq. cbn [time_Now ask fst snd].
    set (owner := owner_of pel_order o x). set (c' := if str_eqb owner EmptyString then c else owner).
    destruct (RemovePending_filed c' o (now (ticks a)) x) as (b & y & Ey & _ & (F1 & F2 & _) & _);
      [by eapply va_objects|].
    rewrite Ey. apply (replaced_done q g _ _ x); try done. by eexists _, b.
  - intros cs x y Hok Hr. destruct (removed_spec c o x y) as (H1 & H2 & H3); [by apply Hok|done|].
    destruct H3 as (_ & [_ Hc] & _). split; [|done]. destruct Hok, H2 as (? & ? & ? & ?). split; try congruence.
    intuition congruence.
  - apply eff_ack.
  - intros x y Hx _ Hr. eapply removed_spec; [|done]. by eapply va_objects.
Qed.

Definition r_cursor (k : Z) (h h' : Z * gmap Z CS.PendingEntry) : Prop := h' = (k, h.2).

Lemma cursor_law q g k : acts q g (eff_cursor k)
  (UpdateCursor NumPELShards now writes saves mkdirs replay_clock q g k).
Proof.
  apply acts_intro. intros a Hv. unfold UpdateCursor.
  eapply (two_halves q g _ (r_cursor k) (λ x y, ∃ t, y = SetCursorPosition k t x)); [done| | | | |].
  - apply on_new_state_half; [|done]. intros t0 t1 w cs Hk.
    by destruct (SetCursor_sum NumPELShards t0 w k cs Hk).
  - intros a' Hv' _. by apply also_in_group_done.
  - intros cs x y [] [t ->]. by split.
  - intros h h' v v' -> (C & P & F & _) (C' & P' & F' & _) [Hf Hc] _.
    split_and!; [done..|]. split; [|done]. by rewrite P, P'.
  - intros x y _ _ [t ->]. by split_and!.
Qed.

(** A call that changes the object alone. *)
Lemma object_alone q g eff F op :
  (∀ a, valid_adapter a → object_done q g F a (op a)) →
  (∀ st x y, object_ok q g st x → F x y →
     object_ok q g st y ∧ eff (overlay st x) (overlay st y)) →
  acts q g eff op.
Proof.
  intros Hop HF. apply acts_intro. intros a Hv. pose proof (Hop a Hv) as Hd.
  destruct (object_done_valid q g F a (op a) Hv Hd) as (V & A & S).
  { intros x y Hx Hy. by eapply HF. }
  destruct Hd as (P & _ & _ & _ & X). split_and!; [done..|].
  destruct (objects q g a) as [x|] eqn:E; [|done]. destruct X as (y & -> & Hy). exists y. split; [done|].
  destruct (HF (states q g a) x y) as [_ He]; [by apply va_objects|done|]. rewrite S. by split; [left|].
Qed.

Lemma commit_law q g k : acts q g (eff_commit k) (UpdateCommitted now saves q g k).
Proof.
  apply (object_alone q g _ (λ x y, ∃ t, y = AdvanceCommitted k t x)).
  - intros a Hv. by apply also_in_group_done.
  - intros st x y Hok [t ->]. split; [by destruct Hok|].
    assert (Hc : cursor_of (AdvanceCommitted k t x) = Z.max (cursor_of x) k).
    { unfold cursor_of, AdvanceCommitted. simpl. destruct (_ <? _) eqn:E; bool_prop; lia. }
    destruct (decide (Mode x = GroupModeStream)) as [Hm|Hm].
    + rewrite !overlay_stream by done. split_and!; [done..|by right|done].
    + destruct (overlay_frame st x) as [(_ & _ & Fm & _) _].
      unfold overlay at 1 2, is_stream. rewrite !bool_decide_eq_false_2 by done.
      destruct st as [[cs|]|]; split_and!; try done; [by left|by left|by right].
Qed.

Lemma overlay_eff_same st x y : frame x y → GCursor y = GCursor x → PEL y = PEL x →
  eff_same (overlay st x) (overlay st y).
Proof.
  intros (I & Q & M & A) C P.
  unfold eff_same, frame, same_positions, same_pending, cursor_of, committed_of, overlay, is_stream.
  rewrite M. destruct (bool_decide _), st as [[cs|]|]; simpl; unfold CursorView; rewrite ?C, ?P; by split_and!.
Qed.

Lemma members_law q g f : (∀ t, names_kept (f t)) →
  (∀ t x, Mode (f t x) = Mode x ∧ AutoCommit (f t x) = AutoCommit x ∧ GCursor (f t x) = GCursor x ∧
     PEL (f t x) = PEL x) →
  acts q g eff_same (λ a, match objects q g a with
                          | None => (Fail (sentinel_err ErrConsumerGroupNotFound), a)
                          | Some _ => also_in_group now saves q g f a
                          end).
Proof.
  intros Hn Hf. apply (object_alone q g _ (λ x y, ∃ t, y = f t x)).
  - intros a Hv. pose proof (also_in_group_done q g f a Hv Hn) as H.
    destruct (objects q g a) as [x|] eqn:E; [done|]. split_and!; try done. by rewrite E.
  - intros st x y Hok [t ->]. destruct (Hf t x) as (F1 & F2 & F3 & F4), (Hn t x) as [N1 N2].
    split; [destruct Hok; split; rewrite ?F1, ?F4; auto; congruence|].
    apply overlay_eff_same; [by split_and!|done|done].
Qed.

Lemma register_law q g i : acts q g eff_same (RegisterConsumer now saves q g i).
Proof.
  intros a. unfold RegisterConsumer, get. rewrite M_bind_eq. cbn [gets fst snd].
  pose proof (members_law q g (SetConsumer (InfoID i) (Some i)) (λ _ _, conj eq_refl eq_refl)
    (λ _ _, conj eq_refl (conj eq_refl (conj eq_refl eq_refl))) a) as H.
  change (GroupFiles.Get q g (groupStore a)) with (objects q g a).
  revert H. cbv beta. by destruct (objects q g a).
Qed.

Lemma unregister_law q g c : acts q g eff_same (UnregisterConsumer now saves q g c).
Proof.
  intros a. unfold UnregisterConsumer, get. rewrite M_bind_eq. cbn [gets fst snd].
  pose proof (members_law q g (DeleteConsumer c) (λ _ _, conj eq_refl eq_refl)
    (λ _ _, conj eq_refl (conj eq_refl (conj eq_refl eq_refl))) a) as H.
  change (GroupFiles.Get q g (groupStore a)) with (objects q g a).
  revert H. cbv beta. by destruct (objects q g a).
Qed.

(** ** Reading a group *)

Lemma overlay_touch st t x : overlay st (touch t (overlay st x)) = touch t (overlay st x).
Proof.
  unfold overlay at 1. change (is_stream (touch t (overlay st x))) with (is_stream (overlay st x)).
  assert (He : is_stream (overlay st x) = is_stream x).
  { unfold is_stream. by destruct (overlay_frame st x) as [(_ & _ & -> & _) _]. }
  rewrite He. unfold overlay. destruct (is_stream x), st as [[cs|]|]; try done; by destruct x.
Qed.

Lemma overlay_ok q g st x : object_ok q g st x → (∀ cs, st = Some (Some cs) → keyed cs) →
  object_ok q g st (overlay st x).
Proof.
  intros Hok Hk. destruct (overlay_frame st x) as [(F1 & F2 & F3 & _) _].
  split; [by rewrite F2; destruct Hok|by rewrite F1; destruct Hok|by rewrite F3; destruct Hok| |].
  - destruct (decide (Mode x = GroupModeStream)) as [Hm|Hm]; [rewrite overlay_stream by done; by destruct Hok|].
    destruct st as [st|]; [|rewrite overlay_None; by destruct Hok].
    eapply overlay_held; [done| |done]. by intros cs ->; apply Hk.
  - rewrite F3. intros Hm ->. unfold overlay, is_stream. rewrite bool_decide_eq_false_2 by done.
    by apply (ok_unloaded _ _ _ _ Hok).
Qed.

Lemma touch_ok q g st t x : object_ok q g st x → object_ok q g st (touch t x).
Proof. by intros []. Qed.

(** The object of the group is another one, and nothing else changes. *)
Record refreshed (q g : string) (y : ConsumerGroup) (a a' : Adapter L) : Prop := {
  rf_consumers : consumers a' = consumers a;
  rf_logs : logs a' = logs a;
  rf_others : ∀ q' g', (q', g') ≠ (q, g) → objects q' g' a' = objects q' g' a;
  rf_object : objects q g a' = Some y
}.

Lemma refreshed_refl q g x a : objects q g a = Some x → refreshed q g x a a.
Proof. by split. Qed.

Lemma refreshed_trans q g y z a1 a2 a3 :
  refreshed q g y a1 a2 → refreshed q g z a2 a3 → refreshed q g z a1 a3.
Proof.
  intros [A1 A2 A3 _] [B1 B2 B3 B4]. split; [congruence..| |done]. intros q' g' Hne. by rewrite B3, A3.
Qed.

Lemma refreshed_mutate q g f x a a1 : objects q g a = Some x → consumers a1 = consumers a →
  groupStore a1 = groupStore a → logs a1 = logs a → refreshed q g (f x) a (mutate q g f a1).2.
Proof.
  intros Hx Hc Hg Hl. assert (Ho : ∀ q g, objects q g a1 = objects q g a) by (intros; unfold objects; by rewrite Hg).
  split; [done|done| |].
  - intros q' g' Hne. by rewrite objects_mutate, decide_False.
  - by rewrite objects_mutate, decide_True, Ho, Hx.
Qed.

Lemma sync_cursor_done q g a x : objects q g a = Some x →
  ∃ t, refreshed q g (match states q g a with
                      | None => x
                      | Some st => SetCursorPosition (held st).1 t x
                      end) a (syncCursorsFromStore now q g a).2.
Proof.
  intros Hx. unfold syncCursorsFromStore, GetCursorState, GetGroupState, states. rewrite M_bind_eq. cbn [gets fst snd].
  destruct (consumers a !! q) as [cm|] eqn:Eq; [|exists 0; by apply refreshed_refl]. cbn [fmap option_fmap option_map].
  exists (now (ticks a)). unfold cm_Get.
  by destruct (groups cm !! g); cbn -[mutate]; rewrite M_bind_eq; apply refreshed_mutate.
Qed.

Lemma sync_pel_done q g a x : objects q g a = Some x →
  ∃ t, refreshed q g (match states q g a with
                      | Some (Some cs) => ReplacePEL (shown_pel cs) t x
                      | _ => x
                      end) a (syncPELFromStore now shard_order q g a).2.
Proof.
  intros Hx. unfold syncPELFromStore, GetAllPending, GetConsumerState, states. rewrite M_bind_eq. cbn [gets fst snd].
  destruct (consumers a !! q) as [cm|] eqn:Eq; [|exists 0; by apply refreshed_refl]. cbn [fmap option_fmap option_map].
  unfold cm_Get. destruct (groups cm !! g) as [cs|]; [|exists 0; by apply refreshed_refl].
  exists (now (ticks a)). cbn -[mutate]. rewrite M_bind_eq. by apply refreshed_mutate.
Qed.

(** The refreshed object is what the reader gets. *)
Lemma get_done q g a x : objects q g a = Some x →
  ∃ t a', GetConsumerGroup now shard_order q g a = (Ret (touch t (overlay (states q g a) x)), a') ∧
    refreshed q g (touch t (overlay (states q g a) x)) a a'.
Proof.
  intros Hx. unfold GetConsumerGroup, get. rewrite M_bind_eq. cbn [gets fst snd].
  change (GroupFiles.Get q g (groupStore a)) with (objects q g a). rewrite Hx. unfold overlay.
  destruct (is_stream x) eqn:Es; [exists (UpdatedAt x), a; by destruct x|].
  destruct (sync_cursor_done q g a x Hx) as [t1 H1]. rewrite !M_bind_eq.
  set (a1 := (syncCursorsFromStore now q g a).2) in *.
  destruct (sync_pel_done q g a1 _ (rf_object _ _ _ _ _ H1)) as [t2 H2].
  set (a2 := (syncPELFromStore now shard_order q g a1).2) in *.
  pose proof (refreshed_trans _ _ _ _ _ _ _ H1 H2) as H. cbn [gets fst snd].
  change (GroupFiles.Get q g (groupStore a2)) with (objects q g a2). rewrite (rf_object _ _ _ _ _ H).
  assert (Hs : states q g a1 = states q g a) by (unfold states; by rewrite (rf_consumers _ _ _ _ _ H1)).
  rewrite Hs in H |- *.
  destruct (states q g a) as [[cs|]|]; [exists t2, a2|exists t1, a2|exists (UpdatedAt x), a2]; by destruct x.
Qed.

Lemma refreshed_valid q g y a a' : valid_adapter a → refreshed q g y a a' →
  object_ok q g (states q g a) y → valid_adapter a' ∧ apart q g a a' ∧ states q g a' = states q g a.
Proof.
  intros [V1 V2 V3] [R1 R2 R3 R4] Hy.
  assert (Hs : ∀ q g, states q g a' = states q g a) by (intros; unfold states; by rewrite R1).
  split_and!; [|by split|done]. split.
  - by rewrite R1.
  - intros q' g' cs. rewrite Hs. apply V2.
  - intros q' g' z. rewrite Hs. destruct (decide ((q', g') = (q, g))) as [[= -> ->]|Hne].
    + rewrite R4. by intros [= <-].
    + rewrite R3 by done. apply V3.
Qed.

Lemma get_law q g a : valid_adapter a → let res := GetConsumerGroup now shard_order q g a in
  valid_adapter res.2 ∧ apart q g a res.2 ∧ states q g res.2 = states q g a ∧ res.1 ≠ Panic ∧
  match objects q g a with
  | None => objects q g res.2 = None ∧ ∀ gr, res.1 ≠ Ret gr
  | Some x => ∃ t, let v := touch t (overlay (states q g a) x) in
      objects q g res.2 = Some v ∧ res.1 = Ret v
  end.
Proof.
  intros Hv. destruct (objects q g a) as [x|] eqn:Hx.
  - destruct (get_done q g a x Hx) as (t & a' & -> & H). cbn [fst snd].
    destruct (refreshed_valid q g _ a a' Hv H) as (V & A & S).
    { apply touch_ok, overlay_ok; [by apply va_objects|]. intros cs. apply (va_keyed _ Hv q g). }
    split_and!; try done. exists t. split; [|done]. by destruct H.
  - unfold GetConsumerGroup, get. rewrite M_bind_eq. cbn [gets fst snd].
    change (GroupFiles.Get q g (groupStore a)) with (objects q g a). rewrite Hx.
    destruct (unchanged a a) as [V A]; [done..|]. by split_and!.
Qed.

(** ** Transfers and requeues *)

Lemma shown_elem m o e : in_place m → Some e ∈ shown_list m → Offset e = o →
  ∃ x, m !! o = Some x ∧ shown x = Some e.
Proof.
  intros Hp He <-. unfold shown_list in He. apply list_elem_of_fmap in He as (x & Ex & Hx).
  apply list_elem_of_fmap in Hx as ([o' x'] & -> & Hx). apply elem_of_map_to_list in Hx.
  exists x'. split; [|done]. injection Ex as ->. by simpl; rewrite (Hp o' x' Hx).
Qed.

Lemma shown_alter m o f x : m !! o = Some x →
  shown_list (alter f o m) ≡ₚ shown (f x) :: shown_list (delete o m).
Proof.
  intros Hx. rewrite (shown_lookup _ o (f x)) by (by rewrite lookup_alter_eq, Hx).
  by rewrite delete_alter_eq.
Qed.

Definition r_claim (o : Z) (c : string) (h h' : Z * gmap Z CS.PendingEntry) : Prop :=
  ∃ t, h' = (h.1, alter (ConsumerStateFacts.claimed c t) o h.2).

(** The owner the adapter read. *)
Definition owned_by (o : Z) (c : string) (x : ConsumerGroup) : Prop :=
  (c = EmptyString ∧ o ∉ offsets (all (PEL x))) ∨
  ∃ e, Some e ∈ pel_get c (PEL x) ∧ Offset e = o ∧ ConsumerID e = c.

Lemma eff_claim o c d : eff_of (r_claim o d) (λ v v', owned_by o c v → eff_transfer o c d v v').
Proof.
  intros h h' v v' [t ->] (C & P & F & Hp) (C' & P' & F' & _) [Hf Hc] Hm Hown. simpl in *.
  assert (Hpos : same_positions v v') by (split; congruence).
  destruct Hown as [[-> Hn]|(e & He & Ho & Hce)].
  - rewrite P, shown_offsets in Hn by done. apply eq_None_not_Some in Hn.
    right. split; [done|]. split_and!; [done..|]. split; [|done].
    rewrite P, P'. f_equiv. apply map_eq. intros k. rewrite lookup_alter. case_decide; subst; by rewrite ?Hn.
  - left. split_and!; [done..|]. assert (Hin : Some e ∈ all (PEL v)) by (apply elem_of_all; by exists c).
    rewrite P in Hin. destruct (shown_elem h.2 o e Hp Hin Ho) as (x & Hx & Hs).
    eexists e, (to_types (to_PELEntry (ConsumerStateFacts.claimed d t x))), (shown_list (delete o h.2)).
    split_and!; [done|done|exact (Hp o x Hx)|done|by rewrite P, <-Hs, <-shown_lookup|].
    by rewrite P', (shown_alter _ o _ x Hx).
Qed.

Definition transferred (o : Z) (c d : string) (x y : ConsumerGroup) : Prop :=
  ∃ t b, TransferPending o c d t x = Ret (b, y).

Lemma transferred_spec o c d x y : filed (PEL x) → transferred o c d x y →
  filed (PEL y) ∧ steady x y ∧ (owned_by o c x → eff_transfer o c d x y).
Proof.
  intros Hf (t & b & H).
  destruct (TransferPending_filed o c d t x Hf) as (b' & g' & E & H1 & H2 & H3 & H4).
  rewrite E in H. injection H as <- ->. pose proof H3 as [_ Hc]. split_and!; [done|by split|].
  intros Hown. destruct H4 as [[-> Hn]|H4]; [|by left; split_and!].
  destruct Hown as [[-> _]|(e & He & Ho & _)]; [right; split; [done|apply eff_same_refl]|].
  destruct Hn. apply elem_of_offsets. by exists e.
Qed.

Lemma owner_owned o x c : filed (PEL x) → owner_of pel_order o x = c → owned_by o c x.
Proof. intros Hf <-. destruct (owner_of_spec o x Hf); [by left|by right]. Qed.

Lemma same_done q g eff a e : valid_adapter a → shown_done q g eff a (Fail e, a).
Proof.
  intros Hv. destruct (unchanged a a) as [V A]; [done..|]. split_and!; try done. cbn.
  destruct (objects q g a) as [x|] eqn:E; [|done]. exists x. split; [done|].
  split; [right; apply eff_same_refl|done].
Qed.

(** A call after a read is a call on the group read. *)
Lemma after_get q g eff a k : valid_adapter a →
  (∀ t v v', eff (touch t v) v' → eff v v') →
  (∀ x a1, valid_adapter a1 → objects q g a1 = Some x → overlay (states q g a1) x = x →
     shown_done q g eff a1 (k x a1)) →
  shown_done q g eff a ((r ← GetConsumerGroup now shard_order q g;
    match r with Panic => mret Panic | Fail e => fail e | Ret current => k current end) a).
Proof.
  intros Hv Heff Hk. rewrite M_bind_eq. destruct (get_law q g a Hv) as (V & A & S & P & X).
  destruct (objects q g a) as [x|] eqn:Ex.
  - destruct X as (t & Hx & Hr). rewrite Hr. clear Hr P.
    set (v := touch t (overlay (states q g a) x)) in *. set (a1 := (GetConsumerGroup _ _ _ _ a).2) in *.
    destruct (Hk v a1 V Hx) as (V2 & A2 & P2 & X2); [rewrite S; apply overlay_touch|].
    split_and!; [done|by eapply apart_trans|done|]. rewrite Hx in X2. rewrite Ex.
    destruct X2 as (y & Hy & E1 & E2). exists y. split; [done|]. rewrite S in E1, E2.
    unfold v in E1, E2. rewrite overlay_touch in E1, E2. split.
    + destruct E1 as [E1|E1]; [left; by eapply Heff|right]. exact E1.
    + intros H. eapply Heff. by apply E2.
  - destruct X as [Hx Hr]. destruct (GetConsumerGroup now shard_order q g a) as [[gr|e|] a1]; [by destruct (Hr gr)| |done].
    split_and!; try done. by rewrite Ex.
Qed.

Lemma steady_ok q g cs x y : object_ok q g (Some (Some cs)) x → filed (PEL y) → steady x y →
  object_ok q g (Some (Some cs)) y.
Proof.
  intros [] Hf [(F1 & F2 & F3 & _) _]. split; try congruence. intuition congruence.
Qed.

Lemma transfer_law q g o c d : acts q g (eff_transfer o c d)
  (TransferPendingEntry NumPELShards now writes saves shard_order pel_order q g o c d).
Proof.
  apply acts_intro. intros a Hv. apply after_get; [done| |]; clear a Hv.
  { intros t v v' [H|[-> H]]; [left|right; split; [done|]]; exact H. }
  intros x a Hv Hx Hover. destruct (str_eqb (owner_of pel_order o x) c) eqn:Eo; simpl.
  2: { by apply same_done. }
  assert (Hown : owned_by o c x).
  { unfold str_eqb in Eo. bool_prop. apply owner_owned; [by eapply va_objects|done]. }
  assert (Hd : shown_done q g (λ v v', owned_by o c v → eff_transfer o c d v v') a
    (try_bind (ClaimPending NumPELShards now writes q g o d) (λ _,
       group ← get q g;
       match group with
       | None => ret tt
       | Some group =>
           t ← time_Now now;
           match TransferPending o c d t group with
           | Ret (_, group') => mutate q g (λ _, group');; save saves group'
           | _ => mret Panic
           end
       end) a)).
  { eapply (two_halves q g _ (r_claim o d) (transferred o c d)); [done| | | | |].
    - apply on_state_half; [|done]. intros t0 t1 w cs Hk.
      destruct (Claim_sum NumPELShards HN t0 w o d cs Hk) as [H1 H2]. split; [done|]. by exists t0.
    - intros a1 V1 O1. rewrite M_bind_eq. cbn [get gets fst snd].
      change (GroupFiles.Get q g (groupStore a1)) with (objects q g a1). rewrite O1, Hx.
      rewrite M_bind_eq. cbn [time_Now ask fst snd].
      destruct (TransferPending_filed o c d (now (ticks a1)) x) as (b & y & Ey & _ & (F1 & F2 & _) & _);
        [exact (ok_filed _ _ _ _ (va_objects _ Hv _ _ _ Hx))|].
      rewrite Ey. apply (replaced_done q g _ _ x); try done; [congruence|]. by eexists _, b.
    - intros cs y z Hok Hz. destruct (transferred_spec o c d y z) as (H1 & H2 & _); [by apply Hok|done|].
      split; [by eapply steady_ok|done].
    - apply eff_claim.
    - intros y z Hy _ Hz. apply transferred_spec; [|done]. by eapply va_objects. }
  destruct Hd as (D1 & D2 & D3 & D4). split_and!; [done..|]. rewrite Hx in *.
  destruct D4 as (y & Hy & E1 & E2). exists y. rewrite Hover in *. split; [done|].
  split; [destruct E1; [left|right]; auto|auto].
Qed.

Definition r_release (o t : Z) (h h' : Z * gmap Z CS.PendingEntry) : Prop :=
  h' = (h.1, alter (ConsumerStateFacts.released t) o h.2).

Lemma eff_release o t : eff_of (r_release o t) (eff_requeue o).
Proof.
  intros h h' v v' -> (C & P & F & Hp) (C' & P' & F' & _) [Hf Hc] Hm. simpl in *.
  assert (Hpos : same_positions v v') by (split; congruence).
  destruct (h.2 !! o) as [x|] eqn:E.
  - left. split_and!; [done..|].
    exists (to_types (to_PELEntry x)), (of_UnixMilli t), (shown_list (delete o h.2)).
    split_and!; [exact (Hp o x E)|by rewrite P, (shown_lookup _ o x E)|].
    by rewrite P', (shown_alter _ o _ x E).
  - right. split_and!; [done..|]. split; [|done]. rewrite P, P'. f_equiv. apply map_eq. intros k.
    rewrite lookup_alter. case_decide; subst; by rewrite ?E.
Qed.

Definition requeued (o : Z) (c : string) (at_ : Z) (x y : ConsumerGroup) : Prop :=
  y = x ∨ ∃ t, RequeuePending o c at_ t x = (true, y).

Lemma requeued_spec o c at_ x y : filed (PEL x) → requeued o c at_ x y →
  filed (PEL y) ∧ steady x y ∧ eff_requeue o x y.
Proof.
  intros Hf [->|[t H]]; [split_and!; [done|done|right; apply eff_same_refl]|].
  pose proof (RequeuePending_filed o c at_ t x Hf) as Hs. rewrite H in Hs.
  destruct Hs as (H1 & H2 & H3 & z & R & Hz & Ha & Hb). pose proof H3 as [_ Hc].
  split_and!; [done|done|]. left. split_and!; [done..|]. by exists z, at_, R.
Qed.

Lemma requeue_law q g c o at_ : acts q g (eff_requeue o)
  (RequeuePendingEntry NumPELShards now writes saves pel_order q g c o at_).
Proof.
  apply acts_intro. intros a Hv. unfold RequeuePendingEntry, get. rewrite M_bind_eq. cbn [gets fst snd].
  change (GroupFiles.Get q g (groupStore a)) with (objects q g a).
  destruct (objects q g a) as [x|] eqn:Hx; [|by apply same_done].
  destruct (str_eqb _ EmptyString); [by apply same_done|].
  destruct (negb _); [by apply same_done|].
  eapply (two_halves q g _ (r_release o (UnixMilli at_)) (requeued o c at_)); [done| | | | |].
  - apply on_state_half; [|done]. intros t0 t1 w cs Hk.
    by destruct (ReleaseAt_sum NumPELShards HN w o (UnixMilli at_) cs Hk).
  - intros a1 V1 O1. rewrite Hx in O1. rewrite M_bind_eq. cbn [time_Now ask fst snd].
    pose proof (RequeuePending_filed o c at_ (now (ticks a1)) x (ok_filed _ _ _ _ (va_objects _ V1 _ _ _ O1))) as Hs.
    destruct (RequeuePending o c at_ (now (ticks a1)) x) as [[] y] eqn:E; cbn [negb].
    + destruct Hs as (_ & (F1 & F2 & _) & _). apply (replaced_done q g _ _ x); try done. right. by eexists.
    + split_and!; try done. rewrite O1. exists x. split; [done|by left].
  - intros cs y z Hok Hz. destruct (requeued_spec o c at_ y z) as (H1 & H2 & _); [by apply Hok|done|].
    split; [by eapply steady_ok|done].
  - apply eff_release.
  - intros y z Hy _ Hz. eapply requeued_spec; [|done]. by eapply va_objects.
Qed.

(** ** Updates, pointers, creation *)

Lemma view_Some q g a v : view q g a = Some v →
  ∃ x, objects q g a = Some x ∧ v = overlay (states q g a) x.
Proof. unfold view. intros (x & Hx & ->)%fmap_Some. by exists x. Qed.

Lemma update_law q g gr a : valid_adapter a → QueueName gr = q → ID gr = g → view q g a = Some gr →
  let res := UpdateConsumerGroup now saves gr a in
  valid_adapter res.2 ∧ apart q g a res.2 ∧ res.1 ≠ Panic ∧
  ∃ gr', view q g res.2 = Some gr' ∧ eff_same gr gr'.
Proof.
  intros Hv Hq Hg Hl. destruct (view_Some _ _ _ _ Hl) as (x & Hx & Hgr).
  unfold UpdateConsumerGroup. rewrite M_bind_eq. cbn [time_Now ask fst snd].
  set (a1 := _ <| ticks := _ |>). set (y := touch (now (ticks a)) gr). cbv zeta.
  destruct (save_rest y a1) as (P & C & Lg).
  destruct (refreshed_valid q g y a (save saves y a1).2 Hv) as (V & A & S).
  { split; [done|done| |by rewrite objects_save, decide_True].
    intros q' g' Hne. rewrite objects_save, decide_False; [done|]. simpl. intros [H1 H2]. congruence. }
  { apply touch_ok. rewrite Hgr. apply overlay_ok; [by apply va_objects|]. intros cs. apply (va_keyed _ Hv). }
  split_and!; [done..|]. exists y. split; [|by repeat split]. unfold view.
  rewrite objects_save, decide_True, S by done. simpl. f_equal. unfold y. rewrite Hgr. apply overlay_touch.
Qed.

Lemma through_law q g f a gr : valid_adapter a → view q g a = Some gr → method f →
  let a' := (mutate q g f a).2 in
  valid_adapter a' ∧ apart q g a a' ∧
  ∃ gr', view q g a' = Some gr' ∧ ID gr' = ID gr ∧ QueueName gr' = QueueName gr ∧ Mode gr' = Mode gr ∧
    AutoCommit gr' = AutoCommit (f gr) ∧
    (Mode gr = GroupModeStream → same_positions (f gr) gr' ∧ same_pending (f gr) gr') ∧
    (Mode gr ≠ GroupModeStream → (∀ x, GCursor (f x) = GCursor x ∧ PEL (f x) = PEL x) →
       same_positions gr gr' ∧ same_pending gr gr').
Proof.
  intros Hv Hl Hf. destruct (view_Some _ _ _ _ Hl) as (x & Hx & ->). cbv zeta.
  pose proof (va_objects _ Hv q g x Hx) as Hok. destruct (method_names f Hf x) as (N1 & N2 & N3).
  pose proof (refreshed_mutate q g f x a a Hx eq_refl eq_refl eq_refl) as Hr.
  destruct (refreshed_valid q g (f x) a _ Hv Hr) as (V & A & S).
  { destruct Hok. split; try congruence; [by apply method_filed|].
    intros. apply method_empty; [done|]. rewrite N3 in *. auto. }
  split_and!; [done..|]. exists (overlay (states q g a) (f x)).
  destruct (overlay_frame (states q g a) x) as [(X1 & X2 & X3 & X4) X5].
  destruct (overlay_frame (states q g a) (f x)) as [(Y1 & Y2 & Y3 & Y4) Y5].
  split_and!; [|congruence..| | |].
  - unfold view. by rewrite S, (rf_object _ _ _ _ _ Hr).
  - rewrite Y4. by apply method_auto.
  - rewrite X3. intros Hm. rewrite (overlay_stream _ x), (overlay_stream _ (f x)) by congruence. by repeat split.
  - intros _ Hsame. destruct (Hsame x) as [Hc Hp]. unfold overlay, is_stream. rewrite N3.
    unfold same_positions, same_pending, cursor_of, committed_of.
    destruct (bool_decide _), (states q g a) as [[cs|]|]; simpl; unfold CursorView; rewrite ?Hc, ?Hp; by split_and!.
Qed.

Lemma create_state_done q g : state_half q g (λ h h', h' = h)
  (store_CreateConsumerGroup NumPELShards now mkdirs replay_clock q g).
Proof.
  intros a Hv. unfold store_CreateConsumerGroup. rewrite M_bind_eq. cbn [gets fst snd].
  destruct (consumers a !! q) as [cm|] eqn:Eq; [|by apply half_failed].
  rewrite !M_bind_eq. unfold ask. cbn [fst snd].
  assert (Hcm : ∀ cs, groups cm !! g = Some cs → keyed cs).
  { intros cs Hcs. apply (va_keyed _ Hv q g). unfold states. by rewrite Eq, <-Hcs. }
  match goal with |- context [GetOrCreate _ _ g ?m ?t0 ?t1 cm] =>
    pose proof (GetOrCreate_spec g m t0 t1 cm (va_dirs _ Hv q cm Eq) Hcm) as Hg end.
  destruct (GetOrCreate _ _ _ _ _ _ _) as [[cs cm']|e|]; [|by apply half_failed|done].
  destruct Hg as (Hk & Hs & Hd & Hg & Ho). rewrite !M_bind_eq. cbn [modify fst snd].
  apply (half_put q g _ a _ cm cm' cs); try done. simpl. do 2 f_equal.
  destruct cm' as [gs cl ds]. cbn in *. f_equal. by rewrite insert_id.
Qed.

Lemma create_law q g gr a : valid_adapter a → QueueName gr = q → ID gr = g → PEL gr = ∅ →
  cursor_of gr = 0 → committed_of gr = 0 → Mode gr = GroupModeQueue ∨ Mode gr = GroupModeStream →
  let res := CreateConsumerGroup NumPELShards now writes saves mkdirs replay_clock pel_order gr a in
  valid_adapter res.2 ∧ apart q g a res.2 ∧ res.1 ≠ Panic ∧
  (view q g res.2 = view q g a ∨
   view q g a = None ∧ ∃ gr', view q g res.2 = Some gr' ∧ frame gr gr' ∧ filed (PEL gr')).
Proof.
  intros Hv Hq Hg Hp Hc Hk Hm. unfold CreateConsumerGroup, get. rewrite M_bind_eq. cbn [gets fst snd].
  rewrite Hq, Hg. change (GroupFiles.Get q g (groupStore a)) with (objects q g a). cbv zeta.
  destruct (objects q g a) as [x|] eqn:Hx.
  { destruct (unchanged a a) as [V A]; [done..|]. split_and!; try done. by left. }
  assert (Hnone : view q g a = None) by (unfold view; by rewrite Hx).
  destruct (save_rest gr a) as (P & C & Lg).
  assert (Hobj : object_ok q g (states q g a) gr).
  { split; [done|done|done| |].
    - rewrite Hp. intros c e. unfold pel_get. rewrite lookup_empty. by intros ?%elem_of_nil.
    - intros _ _. by rewrite Hp. }
  destruct (refreshed_valid q g gr a (save saves gr a).2 Hv) as (V & A & S); [|done|].
  { split; [done|done| |by rewrite objects_save, decide_True].
    intros q' g' Hne. rewrite objects_save, decide_False; [done|]. intros [H1 H2]. congruence. }
  assert (Hend : ∀ a', valid_adapter a' → objects q g a' = Some gr → view q g a = None ∧
    ∃ gr', view q g a' = Some gr' ∧ frame gr gr' ∧ filed (PEL gr')).
  { intros a' V' O'. split; [done|]. exists (overlay (states q g a') gr). unfold view. rewrite O'.
    split_and!; [done|apply overlay_frame|]. eapply ok_filed, overlay_ok; [by apply va_objects|].
    intros cs. apply (va_keyed _ V'). }
  assert (Hs : objects q g (save saves gr a).2 = Some gr) by (by rewrite objects_save, decide_True).
  rewrite try_eq. destruct (save saves gr a) as [[[]|e|] a1]; cbn [fst snd] in *; [|by split_and!; auto|done].
  unfold seedConsumerState. destruct (is_stream gr); [by split_and!; auto|].
  simpl. rewrite Hp, fmap_empty. unfold committed_of, cursor_of in Hc, Hk. rewrite Hc, Hk. simpl.
  assert (Hpo : pel_order ∅ = []) by (apply Permutation_nil; symmetry; by rewrite Hpel, map_to_list_empty).
  rewrite Hpo. simpl. rewrite try_eq.
  destruct (create_state_done q g a1 V) as (V1 & A1 & O1 & P1 & _). rewrite Hq, Hg.
  rewrite Hs in O1. pose proof (apart_trans _ _ _ _ _ A A1).
  destruct (store_CreateConsumerGroup _ _ _ _ q g a1) as [[[]|e|] a2]; cbn [fst snd] in *; [|by split_and!; auto|done].
  rewrite !try_eq. by split_and!; auto.
Qed.

Lemma list_law q a gs : valid_adapter a → ListConsumerGroups group_order q a = Ret gs →
  (∀ g gr, view q g a = Some gr →
     ∃ gr', gr' ∈ gs ∧ frame gr gr' ∧ committed_of gr' = committed_of gr) ∧
  (∀ gr', gr' ∈ gs → ∃ gr, view q (ID gr') a = Some gr ∧ frame gr gr' ∧
     committed_of gr' = committed_of gr).
Proof.
  intros Hv [= <-]. unfold GroupFiles.List.
  assert (Hfr : ∀ st x, frame (overlay st x) x ∧ committed_of x = committed_of (overlay st x)).
  { intros st x. destruct (overlay_frame st x) as [(F1 & F2 & F3 & F4) F5]. split; [by split_and!|done]. }
  split.
  - intros g gr Hl. destruct (view_Some _ _ _ _ Hl) as (x & Hx & ->). exists x. split; [|apply Hfr].
    unfold objects, GroupFiles.Get in Hx. destruct (GroupFiles.groups (groupStore a) !! q) as [m|]; [|done].
    rewrite Hgroups. apply list_elem_of_fmap. exists (g, x). split; [done|]. by apply elem_of_map_to_list.
  - intros x Hin. destruct (GroupFiles.groups (groupStore a) !! q) as [m|] eqn:E; [|by apply elem_of_nil in Hin].
    rewrite Hgroups in Hin. apply list_elem_of_fmap in Hin as ([g x'] & -> & Hin).
    apply elem_of_map_to_list in Hin. simpl.
    assert (Hx : objects q g a = Some x') by (unfold objects, GroupFiles.Get; by rewrite E).
    rewrite (ok_id _ _ _ _ (va_objects _ Hv q g x' Hx)). exists (overlay (states q g a) x').
    split; [unfold view; by rewrite Hx|apply Hfr].
Qed.

#[local] Instance adapter_laws : GroupStoreLaws (Adapter L) Env.
Proof.
  split.
  - intros q o a. by destruct (Hreads q o (logs a)).
  - intros q a t. apply Htail.
  - intros q g a gr Hv Hl. destruct (view_Some _ _ _ _ Hl) as (x & Hx & ->).
    destruct (overlay_frame (states q g a) x) as [(F1 & F2 & F3 & _) _].
    destruct (va_objects _ Hv q g x Hx). rewrite F1, F2, F3. by split_and!.
  - intros q g a Hv. destruct (get_law q g a Hv) as (V & A & S & P & X).
    split_and!; [done|by eapply apart_same_logs|intros; by eapply apart_view|done|].
    cbn [live adapter_store GroupStore.GetConsumerGroup]. unfold view. rewrite S.
    destruct (objects q g a) as [x|] eqn:E; cbn [fmap option_fmap option_map].
    + destruct X as (t & Hx & Hr). exists t. rewrite Hx, Hr. simpl. rewrite overlay_touch. split; [done|]. by intros gr [= <-].
    + destruct X as [-> Hr]. done.
  - apply list_law.
  - apply add_law.
  - apply remove_law.
  - apply transfer_law.
  - intros. apply requeue_law.
  - apply cursor_law.
  - apply commit_law.
  - apply register_law.
  - apply unregister_law.
  - intros gr a Hv Hl. destruct (update_law _ _ gr a Hv eq_refl eq_refl Hl) as (V & A & P & X).
    split_and!; [done|by eapply apart_same_logs|done|intros; by eapply apart_view|done].
  - intros q g f a gr Hv Hl Hf. destruct (through_law q g f a gr Hv Hl Hf) as (V & A & X).
    split_and!; [done|by eapply apart_same_logs|intros; by eapply apart_view|done].
  - intros gr a Hv Hp Hc Hk Hm. destruct (create_law _ _ gr a Hv eq_refl eq_refl Hp Hc Hk Hm) as (V & A & P & X).
    split_and!; [done|by eapply apart_same_logs|done|intros; by eapply apart_view|done].
Qed.


End view.
End AdapterFacts.
