(* ===== verification/ConsumerFilter.v ===== *)
(** * Routing-key filters of consumer groups (src/queue/consumer/filter.go)

    A filter is compiled to a regular expression: the pattern is quoted, each
    [+] becomes [[^/]+] and each [#] becomes [.*], anchored at both ends.  Such
    an expression is a list of tokens over runes; an anchored match is
    membership in its language, which [re_match] decides.  A rune is the list
    of its bytes, an invalid byte of the key being read as U+FFFD, and a pattern
    that is not valid UTF-8 does not compile.

    [re_match] decides the language of the tokens; two keys show where the
    language differs from MQTT wildcards. *)

From Stdlib Require Import ZArith Lia Bool Ascii String Strings.Byte.
From stdpp Require Import prelude gmap strings.
From S2P Require Import Prelude GoStrings Topics ConsumerGroup.

Module Filter.

(** ** Runes *)

(** The number of bytes of the rune at the head: a well-formed sequence of two
    to four bytes, or a single byte. *)
Definition rune_len (l : list Z) : nat :=
  match l with
  | a :: b :: c :: d :: _ =>
      if valid_utf8 [a] then 1
      else if valid_utf8 [a; b] then 2
      else if valid_utf8 [a; b; c] then 3
      else if valid_utf8 [a; b; c; d] then 4 else 1
  | [a; b; c] =>
      if valid_utf8 [a] then 1
      else if valid_utf8 [a; b] then 2 else if valid_utf8 [a; b; c] then 3 else 1
  | [a; b] => if valid_utf8 [a] then 1 else if valid_utf8 [a; b] then 2 else 1
  | _ => 1
  end%nat.

(** [utf8.RuneError] for a byte that starts no sequence. *)
Definition rune_of (l : list Z) : list Z :=
  if valid_utf8 l then l else [0xEF; 0xBF; 0xBD].

Fixpoint runes_fuel (fuel : nat) (l : list Z) : list (list Z) :=
  match fuel, l with
  | S fuel, _ :: _ => rune_of (take (rune_len l) l) :: runes_fuel fuel (drop (rune_len l) l)
  | _, _ => []
  end.
Definition runes (s : string) : list (list Z) :=
  let l := b2z <$> bytes_of s in runes_fuel (length l) l.

(** ** The compiled pattern *)

Inductive token := Lit (r : list Z) | Level | Rest.

Definition r_plus : list Z := [0x2B].
Definition r_hash : list Z := [0x23].
Definition r_slash : list Z := [0x2F].
Definition r_newline : list Z := [0x0A].

Definition token_of (r : list Z) : token :=
  if bool_decide (r = r_plus) then Level else if bool_decide (r = r_hash) then Rest else Lit r.

(** [compilePattern]; [None] is the nil expression of a pattern that does not
    compile. *)
Definition compilePattern (pattern : string) : option (list token) :=
  if ValidString pattern then Some (token_of <$> runes pattern) else None.

(** Anchored matching: [[^/]+] takes one or more runes other than the slash,
    [.*] any number of runes other than the newline. *)
Fixpoint re_match (ts : list token) : list (list Z) → bool :=
  match ts with
  | [] => λ text, match text with [] => true | _ => false end
  | Lit r :: ts => λ text,
      match text with x :: text => bool_decide (x = r) && re_match ts text | [] => false end
  | Level :: ts => fix level text :=
      match text with
      | x :: text => negb (bool_decide (x = r_slash)) && (re_match ts text || level text)
      | [] => false
      end
  | Rest :: ts => fix rest text :=
      re_match ts text ||
      match text with
      | x :: text => negb (bool_decide (x = r_newline)) && rest text
      | [] => false
      end
  end.

(** ** Filters *)

Record Filter := mkFilter {
  pattern : string;
  regex : option (list token);
  isExact : bool;
  matchAll : bool
}.

Definition NewFilter (p : string) : Filter :=
  if str_eqb p EmptyString || str_eqb p hash_lvl then mkFilter p None false true
  else if negb (Contains p plus_c) && negb (Contains p hash_c) then mkFilter p None true false
  else mkFilter p (compilePattern p) false false.

Definition Matches (f : Filter) (routingKey : string) : bool :=
  if matchAll f then true
  else if isExact f then str_eqb routingKey (pattern f)
  else match regex f with Some re => re_match re (runes routingKey) | None => false end.

Definition IsWildcard (f : Filter) : bool := negb (isExact f).

Definition ParseQueueSubscription (topic : string) : string * string :=
  if negb (HasPrefix topic Group.queue_prefix) then (EmptyString, EmptyString)
  else
    let rest := TrimPrefix topic Group.queue_prefix in
    if str_eqb rest EmptyString then (EmptyString, EmptyString)
    else match SplitN2 slash rest with
         | p :: f :: _ => (Group.queue_prefix +:+ p, f)
         | p :: [] => (Group.queue_prefix +:+ p, EmptyString)
         | [] => (Group.queue_prefix, EmptyString)
         end.

Definition MatchesSubscription (publishTopic subscriptionPattern : string) : bool :=
  let '(subRoot, subFilter) := ParseQueueSubscription subscriptionPattern in
  if str_eqb subRoot EmptyString then false
  else
    let '(pubRoot, pubRoutingKey) := ParseQueueSubscription publishTopic in
    if str_eqb pubRoot EmptyString then false
    else if negb (str_eqb subRoot pubRoot) then false
    else Matches (NewFilter subFilter) pubRoutingKey.

(** ** Sets of filters *)

Definition FilterSet := list Filter.
Definition FilterSet_Add (p : string) (fs : FilterSet) : FilterSet := fs ++ [NewFilter p].
Definition FilterSet_Matches (fs : FilterSet) (routingKey : string) : bool :=
  existsb (λ f, Matches f routingKey) fs.
Definition FilterSet_Clear (fs : FilterSet) : FilterSet := take 0 fs.

End Filter.

Module FilterFacts.
Import Filter.

(** The keys of an anchored pattern. *)
Inductive lang : list token → list (list Z) → Prop :=
| lang_nil : lang [] []
| lang_lit r ts text : lang ts text → lang (Lit r :: ts) (r :: text)
| lang_level ts pre text : pre ≠ [] → r_slash ∉ pre → lang ts text → lang (Level :: ts) (pre ++ text)
| lang_rest ts pre text : r_newline ∉ pre → lang ts text → lang (Rest :: ts) (pre ++ text).

Lemma level_match ts text : re_match (Level :: ts) text = true ↔
  ∃ pre rest, text = pre ++ rest ∧ pre ≠ [] ∧ r_slash ∉ pre ∧ re_match ts rest = true.
Proof.
  induction text as [|x text IH]; [split; [done|by intros ([] & rest & ? & ? & _)]|].
  change (re_match (Level :: ts) (x :: text)) with
    (negb (bool_decide (x = r_slash)) && (re_match ts text || re_match (Level :: ts) text)).
  rewrite andb_true_iff, negb_true_iff, bool_decide_eq_false, orb_true_iff, IH. split.
  - intros [Hx [Hm|(pre & rest & -> & _ & Hp & Hm)]].
    + exists [x], text. split_and!; [done|done|set_solver|done].
    + exists (x :: pre), rest. split_and!; [done|done|set_solver|done].
  - intros ([|y pre] & rest & He & ? & Hp & Hm); [done|]. injection He as -> ->.
    split; [set_solver|]. destruct pre as [|z pre]; [by left|right].
    exists (z :: pre), rest. split_and!; [done|done|set_solver|done].
Qed.

Lemma rest_match ts text : re_match (Rest :: ts) text = true ↔
  ∃ pre rest, text = pre ++ rest ∧ r_newline ∉ pre ∧ re_match ts rest = true.
Proof.
  induction text as [|x text IH].
  { change (re_match (Rest :: ts) []) with (re_match ts [] || false). rewrite orb_false_r. split.
    - intros Hm. exists [], []. split_and!; [done|set_solver|done].
    - by intros ([] & [] & ? & _ & ?). }
  change (re_match (Rest :: ts) (x :: text)) with
    (re_match ts (x :: text) || negb (bool_decide (x = r_newline)) && re_match (Rest :: ts) text).
  rewrite orb_true_iff, andb_true_iff, negb_true_iff, bool_decide_eq_false, IH. split.
  - intros [Hm|[Hx (pre & rest & -> & Hp & Hm)]].
    + exists [], (x :: text). split_and!; [done|set_solver|done].
    + exists (x :: pre), rest. split_and!; [done|set_solver|done].
  - intros ([|y pre] & rest & He & Hp & Hm); [left; by rewrite He|]. injection He as -> ->. right.
    split; [set_solver|]. exists pre, rest. split_and!; [done|set_solver|done].
Qed.

(** Matching decides the language. *)
Lemma re_match_lang ts : ∀ text, re_match ts text = true ↔ lang ts text.
Proof.
  induction ts as [|[r| |] ts IH]; intros text.
  - destruct text; split; [constructor|done|done|by inversion 1].
  - destruct text as [|x text]; [split; [done|by inversion 1]|]. simpl.
    rewrite andb_true_iff, bool_decide_eq_true, IH. split; [intros [-> ?]; by constructor|by inversion 1].
  - rewrite level_match. split.
    + intros (pre & rest & -> & ? & ? & ?). constructor; [done|done|by apply IH].
    + inversion 1; subst. eexists _, _. split_and!; [done..|by apply IH].
  - rewrite rest_match. split.
    + intros (pre & rest & -> & ? & ?). constructor; [done|by apply IH].
    + inversion 1; subst. eexists _, _. split_and!; [done..|by apply IH].
Qed.

(** The documentation of [NewFilter] lists [images] among the matches of
    [images/#]; the expression wants the slash. *)
Example hash_needs_slash : Matches (NewFilter "images/#") "images" = false ∧
  Matches (NewFilter "images/#") "images/png" = true.
Proof. by vm_compute. Qed.

End FilterFacts.
