(* ===== verification/ConsumerManager.v ===== *)
(** * The consumer group manager (src/queue/consumer/manager.go)

    Claiming, settling, stealing and dead-lettering of records by consumer
    groups, over the stores of [GroupStore].  An exported operation holds the
    lock of its group for its whole body and is one atomic function on the
    state of the manager; [Reject] and the poison sweep release the lock around
    the dead-letter write and are also given as their two locked halves.

    The state is that of the stores, the reservations of running transfers,
    the commit times and the poison table with its two counters.  [taken] and
    [released] record the envelopes read from the log and given back with
    [message.Release].  [time.Now] reads the next value of [clock].  A loop over
    a Go map takes its entries in the order given by [pel_order],
    [consumer_order] and [poison_order].  Logging and metrics are left out; the
    counters the gauges publish are kept.  [OnDLQ] and [DLQUnavailable] are the
    callbacks of the configuration. *)

From Stdlib Require Import ZArith Lia Bool Ascii String.
From stdpp Require Import prelude gmap strings sorting.
From S2P Require Import Prelude State GoStrings ConsumerGroup ConsumerFilter QueueErrors GroupStore.

Import Group.

Module Manager.

(** ** Data *)

Record Config := mkConfig {
  VisibilityTimeout : Z;
  MaxDeliveryCount : Z;
  ClaimBatchSize : Z;
  StealBatchSize : Z;
  AutoCommitInterval : Z;
  HeartbeatRefresh : Z;
  MaxPELSize : Z;
  DLQRetryBackoff : Z
}.

Definition second : Z := 1000000000.
Definition defaultDLQRetryBackoff : Z := 30 * second.

Definition DefaultConfig : Config :=
  mkConfig (30 * second) 5 10 5 (5 * second) 0 100000 0.

(** [retryAfter] is [None] for the zero time. *)
Record poisonState := mkPoisonState { retryAfter : option Z; noDestination : bool }.

Record transferKey := mkTransferKey { tkQueue : string; tkGroup : string; tkOffset : Z }.
#[export] Instance transferKey_eq_dec : EqDecision transferKey.
Proof. solve_decision. Defined.
#[export] Instance transferKey_countable : Countable transferKey.
Proof.
  refine (inj_countable' (λ k, (tkQueue k, tkGroup k, tkOffset k))
            (λ '(q, g, o), mkTransferKey q g o) _). by intros [].
Defined.

Record Manager (St Env : Type) := mkManager {
  store : St;
  transfers : gset transferKey;
  lastCommit : gmap string Z;
  poison : gmap string (gmap Z poisonState);
  poisonTotal : Z;
  poisonNoDestination : Z;
  ticks : nat;
  taken : list Env;
  released : list Env
}.
Arguments mkManager {St Env}.
Arguments store {St Env}.
Arguments transfers {St Env}.
Arguments lastCommit {St Env}.
Arguments poison {St Env}.
Arguments poisonTotal {St Env}.
Arguments poisonNoDestination {St Env}.
Arguments ticks {St Env}.
Arguments taken {St Env}.
Arguments released {St Env}.
#[export] Instance Manager_eta {St Env} : Eta (Manager St Env) := λ r,
  mkManager (store r) (transfers r) (lastCommit r) (poison r) (poisonTotal r)
    (poisonNoDestination r) (ticks r) (taken r) (released r).

(** Errors of the package. *)
Definition no_messages : QErr := sentinel_err ErrNoMessages.
Definition scan_incomplete : QErr := mkQErr [ErrScanIncomplete; ErrNoMessages] None.

(** [groupKey] joins the names with a NUL byte; [splitGroupKey] cuts at the first. *)
Definition nul : ascii := ascii_of_nat 0.
Definition groupKey (queueName groupID : string) : string :=
  queueName +:+ String nul EmptyString +:+ groupID.
Definition splitGroupKey (key : string) : option (string * string) :=
  let '(queueName, groupID, ok) := Cut nul key in if ok then Some (queueName, groupID) else None.

(** [maxCursorScan] *)
Definition maxCursorScan : nat := Z.to_nat 1024.

Definition mode_unset (mode : ConsumerGroupMode) : bool :=
  bool_decide (mode = GroupModeOther EmptyString).
Definition is_stream (g : ConsumerGroup) : bool := bool_decide (Mode g = GroupModeStream).

Section manager.
Context {St Env : Type} `{GS : GroupStore St Env}.
Context (clock : nat → Z) (cfg : Config).
Context (pel_order : pel → list (string * list (option PendingEntry))).
Context (consumer_order : gmap string (option ConsumerInfo) → list (string * option ConsumerInfo)).
Context (poison_order : gmap Z poisonState → list (Z * poisonState)).
Context (poison_groups : gmap string (gmap Z poisonState) → list (string * gmap Z poisonState)).

Notation Mgr := (Manager St Env).
Notation M := (state (Manager St Env)).

(** The dead-letter handler: queue, group, envelope, offset, delivery count, reason. *)
Definition DLQHandler : Type := string → string → Env → Z → Z → string → M (option QErr).
Context (OnDLQ : option DLQHandler) (DLQUnavailable : option (QErr → bool)).

(** ** Effects *)

(** [if err != nil { return err }]. *)
Definition try_bind {A B} (m : M (outcome QErr A)) (k : A → M (outcome QErr B)) :
    M (outcome QErr B) :=
  r ← m; match r with Ret a => k a | Fail e => mret (Fail e) | Panic => mret Panic end.
#[local] Notation "x ←? m ; k" := (try_bind m (λ x, k))
  (at level 20, m at level 100, k at level 200, right associativity).
#[local] Notation "m ;? k" := (try_bind m (λ _, k))
  (at level 100, k at level 200, right associativity).
Definition fail {A} (e : QErr) : M (outcome QErr A) := mret (Fail e).
Definition ret {A} (a : A) : M (outcome QErr A) := mret (Ret a).

Definition time_Now : M Z := λ m, (clock (ticks m), m <| ticks := S (ticks m) |>).

(** A call to the stores, and a read of them. *)
Definition on_store {A} (f : state St A) : M A := λ m,
  let '(a, s) := f (store m) in (a, m <| store := s |>).
Definition peek {A} (f : St → A) : M A := gets (λ m, f (store m)).

(** A method of the group behind a pointer: a read, and a write. *)
Definition deref (group : ConsumerGroup) : M ConsumerGroup :=
  peek (λ s, default group (live (QueueName group) (ID group) s)).
Definition assign (group : ConsumerGroup) (f : ConsumerGroup → ConsumerGroup) : M unit :=
  on_store (λ s, (tt, through (QueueName group) (ID group) f s)).

(** [queueStore.Read]: the caller owns the envelope. *)
Definition read (queueName : string) (offset : Z) : M (outcome QErr Env) :=
  r ← peek (Read queueName offset);
  match r with
  | Ret msg => modify (λ m, m <| taken := msg :: taken m |>);; mret (Ret msg)
  | _ => mret r
  end.

Definition Release (msg : Env) : M unit := modify (λ m, m <| released := msg :: released m |>).
Definition releaseMessages (msgs : list Env) : M unit := for_each msgs Release.

(** [msg.IsExpired()] *)
Definition expired (msg : Env) : M bool := t ← time_Now; mret (IsExpired t msg).

Definition getGroup (queueName groupID : string) : M (outcome QErr ConsumerGroup) :=
  on_store (GetConsumerGroup queueName groupID).

(** [filter == nil || filter.Matches(routingKey)] *)
Definition accepts (filter : option Filter.Filter) (group : ConsumerGroup) (msg : Env) : bool :=
  match filter with
  | None => true
  | Some f => Filter.Matches f (ExtractRoutingKey (Topic msg) (queue_prefix +:+ QueueName group))
  end.

(** ** Groups and members *)

Definition applyAutoCommitLocked (group : ConsumerGroup) (autoCommit : bool) : M unit :=
  g ← deref group;
  if negb (is_stream g) then t ← time_Now; assign group (SetAutoCommit autoCommit t)
  else
    let cursor := CursorView g in
    when (Committed cursor <? Cursor cursor)
      (t ← time_Now; assign group (SetCommitted (Cursor cursor) t));;
    when autoCommit (t ← time_Now; assign group (λ g, (ClearPending t g).2));;
    t ← time_Now; assign group (SetAutoCommit autoCommit t).

Definition set_Mode (mode : ConsumerGroupMode) (g : ConsumerGroup) : ConsumerGroup :=
  mkConsumerGroup (ID g) (QueueName g) (Pattern g) mode (AutoCommit g) (GCursor g) (PEL g)
    (Consumers g) (CreatedAt g) (UpdatedAt g).

(** The group as its pointer shows it, and whether this call created it. *)
Definition getOrCreateGroup (queueName groupID pattern : string) (mode : ConsumerGroupMode)
    (autoCommit configureAutoCommit : bool) : M (outcome QErr (ConsumerGroup * bool)) :=
  r ← getGroup queueName groupID;
  match r with
  | Panic => mret Panic
  | Ret group =>
      if negb (mode_unset mode) && mode_unset (Mode group) then
        assign group (set_Mode mode);;
        t ← time_Now;
        assign group (SetAutoCommit autoCommit t);;
        g ← deref group;
        on_store (UpdateConsumerGroup g);? (g ← deref group; ret (g, false))
      else if negb (mode_unset mode) && negb (bool_decide (Mode group = mode)) then
        fail (sentinel_err ErrGroupModeMismatch)
      else if configureAutoCommit && negb (Bool.eqb (AutoCommitEnabled group) autoCommit) then
        applyAutoCommitLocked group autoCommit;;
        g ← deref group;
        on_store (UpdateConsumerGroup g);? (g ← deref group; ret (g, false))
      else ret (group, false)
  | Fail err =>
      if negb (errors_Is err [StorageErrConsumerNotFound])
         && negb (errors_Is err [ErrConsumerGroupNotFound]) then fail err
      else
        t ← time_Now;
        let group := NewConsumerGroupState queueName groupID pattern t in
        let group := if mode_unset mode then group else set_Mode mode group in
        t ← time_Now;
        let group := SetAutoCommit autoCommit t group in
        r ← on_store (CreateConsumerGroup group);
        match r with
        | Panic => mret Panic
        | Ret _ => ret (group, true)
        | Fail err =>
            if errors_Is err [ErrConsumerGroupExists]
            then group ←? getGroup queueName groupID; ret (group, false)
            else fail err
        end
  end.

Definition GetOrCreateGroup (queueName groupID pattern : string) (mode : ConsumerGroupMode)
    (autoCommit : bool) : M (outcome QErr ConsumerGroup) :=
  r ←? getOrCreateGroup queueName groupID pattern mode autoCommit false; ret r.1.

Definition GetOrCreateConfiguredGroup (queueName groupID pattern : string)
    (mode : ConsumerGroupMode) (autoCommit configureAutoCommit : bool) :
    M (outcome QErr (ConsumerGroup * bool)) :=
  getOrCreateGroup queueName groupID pattern mode autoCommit configureAutoCommit.

(** [RegisterConsumer] and [UnregisterConsumer] of the manager. *)
Definition registerConsumer (queueName groupID consumerID clientID proxyNodeID : string) :
    M (outcome QErr unit) :=
  t0 ← time_Now;
  t1 ← time_Now;
  on_store (RegisterConsumer queueName groupID
              (mkConsumerInfo consumerID clientID proxyNodeID t0 t1)).

Definition unregisterConsumer (queueName groupID consumerID : string) : M (outcome QErr unit) :=
  on_store (UnregisterConsumer queueName groupID consumerID).

(** ** Reservations of dead-letter transfers *)

Definition beginTransfer (key : transferKey) : M bool := λ m,
  if bool_decide (key ∈ transfers m) then (false, m)
  else (true, m <| transfers := {[key]} ∪ transfers m |>).
Definition endTransfer (key : transferKey) : M unit :=
  modify (λ m, m <| transfers := transfers m ∖ {[key]} |>).
Definition transferring (queueName groupID : string) (offset : Z) : M bool :=
  gets (λ m, bool_decide (mkTransferKey queueName groupID offset ∈ transfers m)).

(** ** The poison table *)

Definition poison_of (queueName groupID : string) (m : Mgr) : gmap Z poisonState :=
  default ∅ (poison m !! groupKey queueName groupID).
Definition set_poison (queueName groupID : string) (offset : Z) (st : poisonState) (m : Mgr) : Mgr :=
  m <| poison := <[groupKey queueName groupID :=
                     <[offset := st]> (poison_of queueName groupID m)]> (poison m) |>.

(** The group's map is made on first use, also when nothing is stored in it. *)
Definition make_poison (queueName groupID : string) (m : Mgr) : Mgr :=
  m <| poison := <[groupKey queueName groupID := poison_of queueName groupID m]> (poison m) |>.

Definition dlqTransferDue (group : ConsumerGroup) (entry : PendingEntry) : M bool :=
  modify (make_poison (QueueName group) (ID group));;
  entries ← gets (poison_of (QueueName group) (ID group));
  let st := entries !! Offset entry in
  early ← (match st with
           | Some st => t ← time_Now; mret (match retryAfter st with Some r => t <? r | None => false end)
           | None => mret false
           end);
  if (early : bool) then mret false
  else
    when (negb (bool_decide (is_Some st)))
      (modify (λ m, m <| poisonTotal := poisonTotal m + 1 |>));;
    t ← time_Now;
    modify (set_poison (QueueName group) (ID group) (Offset entry)
      (mkPoisonState (Some (t + DLQRetryBackoff cfg))
         (match st with Some st => noDestination st | None => false end)));;
    mret true.

Definition trackPoisonForSweep (group : ConsumerGroup) (entry : PendingEntry) : M bool :=
  modify (make_poison (QueueName group) (ID group));;
  entries ← gets (poison_of (QueueName group) (ID group));
  match entries !! Offset entry with
  | Some st => mret (negb (noDestination st))
  | None =>
      modify (set_poison (QueueName group) (ID group) (Offset entry) (mkPoisonState None false));;
      modify (λ m, m <| poisonTotal := poisonTotal m + 1 |>);;
      mret true
  end.

Definition scheduleNextPoisonAttempt (queueName groupID : string) (offset : Z) : M unit :=
  entries ← gets (poison_of queueName groupID);
  match entries !! offset with
  | None => mret tt
  | Some st =>
      t ← time_Now;
      modify (set_poison queueName groupID offset
                (mkPoisonState (Some (t + DLQRetryBackoff cfg)) (noDestination st)))
  end.

Definition markPoisonWithoutDestination (group : ConsumerGroup) (entry : PendingEntry) : M bool :=
  modify (make_poison (QueueName group) (ID group));;
  entries ← gets (poison_of (QueueName group) (ID group));
  let st := entries !! Offset entry in
  when (negb (bool_decide (is_Some st)))
    (modify (λ m, m <| poisonTotal := poisonTotal m + 1 |>));;
  if match st with Some st => noDestination st | None => false end then mret false
  else
    modify (set_poison (QueueName group) (ID group) (Offset entry)
      (mkPoisonState (match st with Some st => retryAfter st | None => None end) true));;
    modify (λ m, m <| poisonNoDestination := poisonNoDestination m + 1 |>);;
    mret true.

Definition forgetPoison (queueName groupID : string) (offset : Z) : M unit := modify (λ m,
  let key := groupKey queueName groupID in
  match poison m !! key with
  | None => m
  | Some entries =>
      match entries !! offset with
      | None => m
      | Some st =>
          let entries := delete offset entries in
          m <| poison := if bool_decide (entries = ∅) then delete key (poison m)
                         else <[key := entries]> (poison m) |>
            <| poisonTotal := poisonTotal m - 1 |>
            <| poisonNoDestination :=
                 if noDestination st then poisonNoDestination m - 1 else poisonNoDestination m |>
      end
  end).

Definition clearDLQRetry (group : ConsumerGroup) (entry : PendingEntry) : M unit :=
  forgetPoison (QueueName group) (ID group) (Offset entry).

Definition prunePoison (group : ConsumerGroup) : M unit :=
  tracked ← gets (poison_of (QueueName group) (ID group));
  when (negb (bool_decide (tracked = ∅)))
    (g ← deref group;
     let pending := PendingOffsets g in
     for_each (poison_order tracked) (λ '(offset, _),
       when (negb (bool_decide (offset ∈ pending)))
         (forgetPoison (QueueName group) (ID group) offset))).

Definition reportPoisonWithoutDLQ (group : ConsumerGroup) (entry : PendingEntry) : M unit :=
  ignore (markPoisonWithoutDestination group entry);;
  ignore (dlqTransferDue group entry).

Definition deferPoisonTransfer (group : ConsumerGroup) (entry : PendingEntry) : M bool :=
  match OnDLQ with
  | None => reportPoisonWithoutDLQ group entry;; mret false
  | Some _ => trackPoisonForSweep group entry
  end.

(** ** Claiming from the cursor *)

Definition scanStart (queueName : string) (cursor : Z) : M Z :=
  head ← peek (Head queueName);
  mret (match head with Ret head => if head <=? cursor then cursor else head | _ => cursor end).

(** A deliverable record is added to the pending list and the cursor moved past it. *)
Definition claim_record (group : ConsumerGroup) (consumerID : string) (offset cursor : Z)
    (msg : Env) : M (outcome QErr Env) :=
  t ← time_Now;
  r ← on_store (AddPendingEntry (QueueName group) (ID group)
                  (mkPendingEntry offset consumerID t 1));
  match r with
  | Panic => mret Panic
  | Fail err => Release msg;; fail err
  | Ret _ =>
      r ← on_store (UpdateCursor (QueueName group) (ID group) cursor);
      match r with
      | Panic => mret Panic
      | Fail err => Release msg;; fail err
      | Ret _ => ret msg
      end
  end.

(** The scan of [claimFromCursor]: a claimed record, or the cursor where it
    stopped.  The cursor is below the tail when it is advanced, so it does not
    wrap. *)
Fixpoint claim_scan (fuel : nat) (group : ConsumerGroup) (consumerID : string)
    (filter : option Filter.Filter) (tail cursor : Z) : M (outcome QErr (Env + Z)) :=
  match fuel with
  | O => ret (inr cursor)
  | S fuel =>
      if tail <=? cursor then ret (inr cursor)
      else
        let next := claim_scan fuel group consumerID filter tail (cursor + 1) in
        r ← read (QueueName group) cursor;
        match r with
        | Panic => mret Panic
        | Fail err => if errors_Is err [ErrOffsetOutOfRange] then next
                      else if errors_Is err [ErrUndecodableRecord] then next else fail err
        | Ret msg =>
            old ← expired msg;
            if (old : bool) then Release msg;; next
            else if negb (accepts filter group msg) then Release msg;; next
            else msg ←? claim_record group consumerID cursor (cursor + 1) msg; ret (inl msg)
        end
  end.

Definition claimFromCursor (group : ConsumerGroup) (consumerID : string)
    (filter : option Filter.Filter) : M (outcome QErr Env) :=
  g ← deref group;
  if (0 <? MaxPELSize cfg) && (MaxPELSize cfg <=? PendingCount g)
  then fail (sentinel_err ErrPELFull)
  else
    let cursor := Cursor (CursorView g) in
    tail ←? peek (Tail (QueueName group));
    start ← scanStart (QueueName group) cursor;
    r ←? claim_scan maxCursorScan group consumerID filter tail start;
    match r with
    | inl msg => ret msg
    | inr cursor =>
        (if start <? cursor then
           fresh ←? getGroup (QueueName group) (ID group);
           if Cursor (CursorView fresh) <? cursor
           then on_store (UpdateCursor (QueueName group) (ID group) cursor)
           else ret tt
         else ret tt);?
        if cursor <? tail then fail scan_incomplete else fail no_messages
    end.

(** ** Work stealing *)

(** One pass over the stealable entries. *)
Fixpoint steal_loop (group : ConsumerGroup) (consumerID : string) (filter : option Filter.Filter)
    (ownerOnly : string) (lapsedBefore : Z) (entries : list PendingEntry) : M (outcome QErr Env) :=
  match entries with
  | [] => fail no_messages
  | entry :: entries =>
      let next := steal_loop group consumerID filter ownerOnly lapsedBefore entries in
      let remove := RemovePendingEntry (QueueName group) (ID group) (ConsumerID entry)
                      (Offset entry) in
      if negb (str_eqb ownerOnly EmptyString) && negb (str_eqb (ConsumerID entry) ownerOnly)
      then next
      else if negb (str_eqb ownerOnly EmptyString) && negb (ClaimedAt entry <? lapsedBefore)
      then next
      else
        busy ← transferring (QueueName group) (ID group) (Offset entry);
        if (busy : bool) then next
        else
          deferred ← (if MaxDeliveryCount cfg <=? DeliveryCount entry
                      then deferPoisonTransfer group entry else mret false);
          if (deferred : bool) then next
          else
            r ← read (QueueName group) (Offset entry);
            match r with
            | Panic => mret Panic
            | Fail err =>
                when (errors_Is err [ErrUndecodableRecord]) (ignore (on_store remove));; next
            | Ret msg =>
                old ← expired msg;
                if (old : bool) then ignore (on_store remove);; Release msg;; next
                else if negb (accepts filter group msg) then Release msg;; next
                else
                  r ← on_store (TransferPendingEntry (QueueName group) (ID group) (Offset entry)
                                  (ConsumerID entry) consumerID);
                  match r with
                  | Panic => mret Panic
                  | Fail _ => Release msg;; next
                  | Ret _ => ret msg
                  end
            end
  end.

Definition stealWorkFrom (group : ConsumerGroup) (consumerID : string)
    (filter : option Filter.Filter) (excludeConsumer ownerOnly : string) : M (outcome QErr Env) :=
  t ← time_Now;
  g ← deref group;
  let stealable := StealableEntries (t - VisibilityTimeout cfg) excludeConsumer g
                     (pel_order (PEL g)) in
  prunePoison group;;
  match stealable with
  | [] => fail no_messages
  | _ =>
      t ← time_Now;
      steal_loop group consumerID filter ownerOnly (t - VisibilityTimeout cfg) stealable
  end.

Definition stealWork (group : ConsumerGroup) (consumerID : string)
    (filter : option Filter.Filter) : M (outcome QErr Env) :=
  stealWorkFrom group consumerID filter consumerID EmptyString.

Definition Claim (queueName groupID consumerID : string) (filter : option Filter.Filter) :
    M (outcome QErr Env) :=
  group ←? getGroup queueName groupID;
  r ← claimFromCursor group consumerID filter;
  match r with
  | Ret msg => ret msg
  | Panic => mret Panic
  | Fail err => if negb (errors_Is err [ErrNoMessages]) then fail err
                else stealWork group consumerID filter
  end.

(** The loops of [ClaimBatch]; [n] is the room left in the batch.  The result
    keeps what was claimed before an error. *)
Fixpoint cursor_batch (n : nat) (group : ConsumerGroup) (consumerID : string)
    (filter : option Filter.Filter) (noMessages : QErr) (messages : list Env) :
    M (list Env * outcome QErr QErr) :=
  match n with
  | O => mret (messages, Ret noMessages)
  | S n =>
      r ← claimFromCursor group consumerID filter;
      match r with
      | Ret msg => cursor_batch n group consumerID filter noMessages (messages ++ [msg])
      | Panic => mret (messages, Panic)
      | Fail err =>
          if negb (errors_Is err [ErrNoMessages]) && negb (errors_Is err [ErrPELFull])
          then mret (messages, Fail err)
          else mret (messages, Ret (if errors_Is err [ErrScanIncomplete]
                                    then scan_incomplete else noMessages))
      end
  end.

Fixpoint steal_batch (n : nat) (group : ConsumerGroup) (consumerID : string)
    (filter : option Filter.Filter) (messages : list Env) : M (list Env * outcome QErr unit) :=
  match n with
  | O => mret (messages, Ret tt)
  | S n =>
      r ← stealWork group consumerID filter;
      match r with
      | Ret msg => steal_batch n group consumerID filter (messages ++ [msg])
      | Panic => mret (messages, Panic)
      | Fail err => if negb (errors_Is err [ErrNoMessages]) then mret (messages, Fail err)
                    else mret (messages, Ret tt)
      end
  end.

Definition batch_limit (limit : Z) : Z := if limit <=? 0 then ClaimBatchSize cfg else limit.

Definition ClaimBatch (queueName groupID consumerID : string) (filter : option Filter.Filter)
    (limit : Z) : M (list Env * outcome QErr unit) :=
  let limit := Z.to_nat (batch_limit limit) in
  r ← getGroup queueName groupID;
  match r with
  | Panic => mret ([], Panic)
  | Fail err => mret ([], Fail err)
  | Ret group =>
      '(messages, r) ← cursor_batch limit group consumerID filter no_messages [];
      match r with
      | Panic => mret (messages, Panic)
      | Fail err => mret (messages, Fail err)
      | Ret noMessages =>
          '(messages, r) ← steal_batch (limit - length messages) group consumerID filter messages;
          match r with
          | Ret _ => if (length messages =? 0)%nat then mret ([], Fail noMessages)
                     else mret (messages, Ret tt)
          | _ => mret (messages, r)
          end
      end
  end.

Definition ClaimManualStream (queueName groupID consumerID : string)
    (filter : option Filter.Filter) : M (outcome QErr Env) :=
  group ←? getGroup queueName groupID;
  if negb (is_stream group) || AutoCommitEnabled group
  then fail (sentinel_err ErrGroupModeMismatch)
  else if 0 <? PendingCountFor consumerID group
  then stealWorkFrom group consumerID filter EmptyString consumerID
  else
    r ← stealWork group consumerID filter;
    match r with
    | Ret msg => ret msg
    | Panic => mret Panic
    | Fail err => if negb (errors_Is err [ErrNoMessages]) then fail err
                  else claimFromCursor group consumerID filter
    end.

(** ** Claiming idle entries *)

(** The order of [sort.Slice]: oldest claim first, then lowest offset. *)
Definition older (e1 e2 : PendingEntry) : Prop :=
  ClaimedAt e1 < ClaimedAt e2 ∨ (ClaimedAt e1 = ClaimedAt e2 ∧ Offset e1 <= Offset e2).
#[global] Instance older_dec : RelDecision older.
Proof. intros e1 e2. unfold older. solve_decision. Defined.

Fixpoint claim_pending (queueName groupID consumerID : string) (entries : list PendingEntry)
    (messages : list Env) : M (outcome QErr (list Env)) :=
  match entries with
  | [] => ret messages
  | entry :: entries =>
      let drop_entry :=
        r ← on_store (RemovePendingEntry queueName groupID (ConsumerID entry) (Offset entry));
        match r with
        | Panic => mret Panic
        | Fail err => releaseMessages messages;; fail err
        | Ret _ => claim_pending queueName groupID consumerID entries messages
        end in
      r ← read queueName (Offset entry);
      match r with
      | Panic => mret Panic
      | Fail err => if errors_Is err [ErrUndecodableRecord] then drop_entry
                    else releaseMessages messages;; fail err
      | Ret msg =>
          old ← expired msg;
          if (old : bool) then Release msg;; drop_entry
          else
            r ← on_store (TransferPendingEntry queueName groupID (Offset entry) (ConsumerID entry)
                            consumerID);
            match r with
            | Panic => mret Panic
            | Fail err => Release msg;; releaseMessages messages;; fail err
            | Ret _ => claim_pending queueName groupID consumerID entries (messages ++ [msg])
            end
      end
  end.

Definition ClaimPendingBatch (queueName groupID consumerID : string) (minIdle limit : Z) :
    M (outcome QErr (list Env)) :=
  let limit := batch_limit limit in
  group ←? getGroup queueName groupID;
  if is_stream group then fail (sentinel_err ErrGroupModeMismatch)
  else
    t ← time_Now;
    let entries := merge_sort older
                     (StealableEntries (t - minIdle) consumerID group (pel_order (PEL group))) in
    (* slicing with a negative bound panics *)
    if limit <? 0 then mret Panic
    else
    messages ←? claim_pending queueName groupID consumerID (take (Z.to_nat limit) entries) [];
    if (length messages =? 0)%nat then fail no_messages else ret messages.

(** ** Streams *)

Definition autoCommitDue (key : string) : M bool :=
  t ← time_Now;
  last ← gets (λ m, lastCommit m !! key);
  if match last with Some l => t - l <? AutoCommitInterval cfg | None => false end then mret false
  else modify (λ m, m <| lastCommit := <[key := t]> (lastCommit m) |>);; mret true.

Definition clearAutoCommit (key : string) : M unit :=
  modify (λ m, m <| lastCommit := delete key (lastCommit m) |>).

Definition updateStreamCursorLocked (group : ConsumerGroup) (newCursor : Z) :
    M (outcome QErr unit) :=
  g ← deref group;
  if newCursor <=? Cursor (CursorView g) then ret tt
  else
    on_store (UpdateCursor (QueueName group) (ID group) newCursor);?
    (g ← deref group;
     if negb (AutoCommitEnabled g) then ret tt
     else if AutoCommitInterval cfg <=? 0
     then on_store (UpdateCommitted (QueueName group) (ID group) newCursor)
     else
       let key := groupKey (QueueName group) (ID group) in
       due ← autoCommitDue key;
       if negb due then ret tt
       else
         r ← on_store (UpdateCommitted (QueueName group) (ID group) newCursor);
         match r with
         | Fail err => clearAutoCommit key;; fail err
         | _ => mret r
         end).

(** The loop of [peekBatchStreamLocked]. *)
Fixpoint peek_scan (fuel : nat) (group : ConsumerGroup) (filter : option Filter.Filter)
    (limit tail newCursor : Z) (messages : list Env) : M (list Env * Z * outcome QErr unit) :=
  match fuel with
  | O => mret (messages, newCursor, Ret tt)
  | S fuel =>
      if (tail <=? newCursor) || (limit <=? Z.of_nat (length messages))
      then mret (messages, newCursor, Ret tt)
      else
        let next := peek_scan fuel group filter limit tail (newCursor + 1) in
        r ← read (QueueName group) newCursor;
        match r with
        | Panic => mret (messages, newCursor, Panic)
        | Fail err => if errors_Is err [ErrOffsetOutOfRange] then next messages
                      else if errors_Is err [ErrUndecodableRecord] then next messages
                      else releaseMessages messages;; mret ([], newCursor, Fail err)
        | Ret msg =>
            old ← expired msg;
            if (old : bool) then Release msg;; next messages
            else if negb (accepts filter group msg) then Release msg;; next messages
            else next (messages ++ [msg])
        end
  end.

(** Messages, the cursor after them and the error. *)
Definition peekBatchStreamLocked (group : ConsumerGroup) (filter : option Filter.Filter)
    (limit : Z) : M (list Env * Z * outcome QErr unit) :=
  g ← deref group;
  let cursor := Cursor (CursorView g) in
  tail ← peek (Tail (QueueName group));
  match tail with
  | Panic => mret ([], cursor, Panic)
  | Fail err => mret ([], cursor, Fail err)
  | Ret tail =>
      start ← scanStart (QueueName group) cursor;
      '(messages, newCursor, r) ← peek_scan maxCursorScan group filter limit tail start [];
      match r with
      | Panic => mret ([], cursor, Panic)
      | Fail err => mret ([], cursor, Fail err)
      | Ret _ =>
          if (length messages =? 0)%nat then
            r ← updateStreamCursorLocked group newCursor;
            match r with
            | Panic => mret ([], cursor, Panic)
            | Fail err => mret ([], cursor, Fail err)
            | Ret _ => mret ([], newCursor,
                             Fail (if newCursor <? tail then scan_incomplete else no_messages))
            end
          else mret (messages, newCursor, Ret tt)
      end
  end.

Definition ClaimBatchStream (queueName groupID consumerID : string)
    (filter : option Filter.Filter) (limit : Z) : M (outcome QErr (list Env)) :=
  group ←? getGroup queueName groupID;
  '(messages, newCursor, r) ← peekBatchStreamLocked group filter (batch_limit limit);
  match r with
  | Panic => mret Panic
  | Fail err => fail err
  | Ret _ =>
      r ← updateStreamCursorLocked group newCursor;
      match r with
      | Panic => mret Panic
      | Fail err => releaseMessages messages;; fail err
      | Ret _ => ret messages
      end
  end.

Definition PeekBatchStream (queueName groupID : string) (filter : option Filter.Filter)
    (limit : Z) : M (list Env * Z * outcome QErr unit) :=
  r ← getGroup queueName groupID;
  match r with
  | Panic => mret ([], 0, Panic)
  | Fail err => mret ([], 0, Fail err)
  | Ret group => peekBatchStreamLocked group filter (batch_limit limit)
  end.

Definition CommitStreamCursor (queueName groupID : string) (cursor : Z) : M (outcome QErr unit) :=
  group ←? getGroup queueName groupID;
  if negb (is_stream group) then fail (sentinel_err ErrCommitOffsetOnlyForStreamMode)
  else updateStreamCursorLocked group cursor.

(** ** Settlement *)

(** [FindPending]: the empty owner is "not found". *)
Definition find_pending (offset : Z) (g : ConsumerGroup) : option (PendingEntry * string) :=
  match FindPending offset (pel_order (PEL g)) with
  | Some (entry, owner) => if str_eqb owner EmptyString then None else Some (entry, owner)
  | None => None
  end.

Definition advanceCommitted (group : ConsumerGroup) : M (outcome QErr unit) :=
  g ← deref group;
  let cursor := CursorView g in
  match MinPendingOffset (pel_order (PEL g)) with
  | Ret found =>
      let committed := match found with
                       | None => Cursor cursor
                       | Some minOffset =>
                           if Committed cursor <? minOffset then minOffset else Committed cursor
                       end in
      on_store (UpdateCommitted (QueueName group) (ID group) committed)
  | _ => mret Panic
  end.

Definition Ack (queueName groupID consumerID : string) (offset : Z) : M (outcome QErr unit) :=
  busy ← transferring queueName groupID offset;
  if (busy : bool) then fail (sentinel_err ErrTransferInProgress)
  else
    on_store (RemovePendingEntry queueName groupID consumerID offset);?
    (group ←? getGroup queueName groupID; advanceCommitted group).

Definition NackWithDelay (queueName groupID consumerID : string) (offset delay : Z) :
    M (outcome QErr unit) :=
  group ←? getGroup queueName groupID;
  match find_pending offset group with
  | None => fail (sentinel_err ErrMessageNotPending)
  | Some (_, ownerID) =>
      if negb (str_eqb ownerID consumerID) then fail (sentinel_err ConsumerErrConsumerNotFound)
      else
        busy ← transferring queueName groupID offset;
        if (busy : bool) then fail (sentinel_err ErrTransferInProgress)
        else if negb requeues then fail (sentinel_err ErrDelayedNackUnsupported)
        else
          t ← time_Now;
          let attemptedAt := t + delay in
          let attemptedAt := if delay =? 0 then attemptedAt - VisibilityTimeout cfg - second
                             else attemptedAt in
          on_store (RequeuePendingEntry queueName groupID consumerID offset attemptedAt)
  end.

Definition Nack (queueName groupID consumerID : string) (offset : Z) : M (outcome QErr unit) :=
  NackWithDelay queueName groupID consumerID offset 0.

Definition prepareTransfer (key : transferKey) (consumerID : string) : M (outcome QErr (Env * Z)) :=
  group ←? getGroup (tkQueue key) (tkGroup key);
  match find_pending (tkOffset key) group with
  | None => fail (sentinel_err ErrMessageNotPending)
  | Some (entry, ownerID) =>
      if negb (str_eqb ownerID consumerID) then fail (sentinel_err ConsumerErrConsumerNotFound)
      else match OnDLQ with
      | None => fail (sentinel_err ErrDLQHandlerUnavailable)
      | Some _ =>
          started ← beginTransfer key;
          if negb started then fail (sentinel_err ErrTransferInProgress)
          else
            r ← read (tkQueue key) (tkOffset key);
            match r with
            | Panic => mret Panic
            | Fail err => endTransfer key;; fail err
            | Ret msg => ret (msg, DeliveryCount entry)
            end
      end
  end.

Definition finishTransfer (key : transferKey) (consumerID : string) (transferErr : option QErr) :
    M (outcome QErr unit) :=
  endTransfer key;;
  match transferErr with
  | Some err => fail err
  | None =>
      on_store (RemovePendingEntry (tkQueue key) (tkGroup key) consumerID (tkOffset key));?
      (group ←? getGroup (tkQueue key) (tkGroup key); advanceCommitted group)
  end.

Definition Reject (queueName groupID consumerID : string) (offset : Z) (reason : string) :
    M (outcome QErr unit) :=
  let key := mkTransferKey queueName groupID offset in
  prepared ←? prepareTransfer key consumerID;
  let '(msg, deliveryCount) := prepared in
  transferErr ← (match OnDLQ with
                 | Some handler => handler queueName groupID msg offset deliveryCount reason
                 | None => mret (Some (sentinel_err ErrDLQHandlerUnavailable))
                 end);
  Release msg;;
  finishTransfer key consumerID transferErr.

(** ** The poison sweep *)

(** Records due for a transfer; the clock is read for each. *)
Fixpoint due_offsets (entries : list (Z * poisonState)) : M (list Z) :=
  match entries with
  | [] => mret []
  | (offset, st) :: entries =>
      t ← time_Now;
      rest ← due_offsets entries;
      mret (if match retryAfter st with Some r => t <? r | None => false end then rest
            else offset :: rest)
  end.

Fixpoint work_list (groups : list (string * gmap Z poisonState)) : M (list transferKey) :=
  match groups with
  | [] => mret []
  | (key, entries) :: groups =>
      match splitGroupKey key with
      | None => work_list groups
      | Some (queueName, groupID) =>
          offsets ← due_offsets (poison_order entries);
          rest ← work_list groups;
          mret ((mkTransferKey queueName groupID <$> offsets) ++ rest)
      end
  end.
Definition poisonWorkList : M (list transferKey) :=
  groups ← gets poison; work_list (poison_groups groups).

Definition preparePoisonTransfer (ref : transferKey) :
    M (outcome unit (option (ConsumerGroup * PendingEntry * Env))) :=
  r ← getGroup (tkQueue ref) (tkGroup ref);
  match r with
  | Panic => mret Panic
  | Fail _ => forgetPoison (tkQueue ref) (tkGroup ref) (tkOffset ref);; mret (Ret None)
  | Ret group =>
      match find_pending (tkOffset ref) group with
      | None => forgetPoison (tkQueue ref) (tkGroup ref) (tkOffset ref);; mret (Ret None)
      | Some (entry, _) =>
          started ← beginTransfer ref;
          if negb started then mret (Ret None)
          else
            r ← read (tkQueue ref) (tkOffset ref);
            match r with
            | Panic => mret Panic
            | Fail _ => endTransfer ref;;
                        scheduleNextPoisonAttempt (tkQueue ref) (tkGroup ref) (tkOffset ref);;
                        mret (Ret None)
            | Ret msg => mret (Ret (Some (group, entry, msg)))
            end
      end
  end.

Definition dlqUnavailable (err : QErr) : bool :=
  if errors_Is err [ErrDLQHandlerUnavailable] then true
  else match DLQUnavailable with None => false | Some f => f err end.

Definition finishPoisonTransfer (ref : transferKey) (group : ConsumerGroup) (entry : PendingEntry)
    (transferErr : option QErr) : M (outcome unit unit) :=
  endTransfer ref;;
  match transferErr with
  | Some err =>
      if dlqUnavailable err then reportPoisonWithoutDLQ group entry;; mret (Ret tt)
      else scheduleNextPoisonAttempt (tkQueue ref) (tkGroup ref) (tkOffset ref);; mret (Ret tt)
  | None =>
      r ← on_store (RemovePendingEntry (tkQueue ref) (tkGroup ref) (ConsumerID entry) (tkOffset ref));
      match r with
      | Panic => mret Panic
      | Fail _ => scheduleNextPoisonAttempt (tkQueue ref) (tkGroup ref) (tkOffset ref);; mret (Ret tt)
      | Ret _ => clearDLQRetry group entry;; mret (Ret tt)
      end
  end.

Definition sweepPoisonEntry (ref : transferKey) : M (outcome unit unit) :=
  match OnDLQ with
  | None => mret Panic
  | Some handler =>
      r ← preparePoisonTransfer ref;
      match r with
      | Ret None => mret (Ret tt)
      | Ret (Some (group, entry, msg)) =>
          err ← handler (tkQueue ref) (tkGroup ref) msg (tkOffset ref) (DeliveryCount entry)
                  "max delivery count exceeded";
          Release msg;;
          finishPoisonTransfer ref group entry err
      | _ => mret Panic
      end
  end.

(** One schedule of the workers: each entry is swept to its end. *)
Definition SweepPoison : M unit :=
  match OnDLQ with
  | None => mret tt
  | Some _ => refs ← poisonWorkList; for_each refs (λ ref, ignore (sweepPoisonEntry ref))
  end.

(** ** Committed positions *)

Definition GetPendingCount (queueName groupID : string) : M (outcome QErr Z) :=
  group ←? getGroup queueName groupID; ret (PendingCount group).

Definition GetLag (queueName groupID : string) : M (outcome QErr Z) :=
  group ←? getGroup queueName groupID;
  let committed := Committed (CursorView group) in
  tail ←? peek (Tail queueName);
  ret (if committed <? tail then tail - committed else 0).

Definition GetCommittedOffset (queueName groupID : string) : M (outcome QErr Z) :=
  group ←? getGroup queueName groupID; ret (Committed (CursorView group)).

(** [AdvanceCommitted] of the manager. *)
Definition advanceCommittedTo (queueName groupID : string) (committed : Z) : M (outcome QErr unit) :=
  group ←? getGroup queueName groupID;
  let cursor := CursorView group in
  if Cursor cursor <? committed then fail (sentinel_err ConsumerErrInvalidOffset)
  else if committed <=? Committed cursor then ret tt
  else on_store (UpdateCommitted queueName groupID committed).

(** The entries below the committed offset are removed one by one. *)
Fixpoint settle_below (queueName groupID : string) (offset : Z)
    (entries : list (string * option PendingEntry)) : M (outcome QErr unit) :=
  match entries with
  | [] => ret tt
  | (owner, entry) :: entries =>
      match entry with
      | Some e => if offset <=? Offset e then settle_below queueName groupID offset entries
                  else on_store (RemovePendingEntry queueName groupID owner (Offset e));?
                       settle_below queueName groupID offset entries
      | None => settle_below queueName groupID offset entries
      end
  end.

Definition flat_entries (p : pel) : list (string * option PendingEntry) :=
  concat ((λ oe : string * list (option PendingEntry), pair oe.1 <$> oe.2) <$> pel_order p).

Definition CommitOffset (queueName groupID : string) (offset : Z) : M (outcome QErr unit) :=
  group ←? getGroup queueName groupID;
  if negb (is_stream group) then fail (sentinel_err ErrCommitOffsetOnlyForStreamMode)
  else
    let cursor := CursorView group in
    if Cursor cursor <? offset then fail (sentinel_err ConsumerErrInvalidOffset)
    else if offset <? Committed cursor then fail (sentinel_err ErrCommitOffsetNotMonotonic)
    else
      (if negb (AutoCommitEnabled group)
       then settle_below queueName groupID offset (flat_entries (SnapPEL (Snapshot group)))
       else ret tt);?
      on_store (UpdateCommitted queueName groupID offset).

Definition min_committed (groups : list ConsumerGroup) : option Z :=
  foldl (λ acc group, let c := Committed (CursorView group) in
                      match acc with
                      | None => Some c
                      | Some m => if c <? m then Some c else Some m
                      end) None groups.

Definition GetMinCommittedOffset (queueName : string) : M (outcome QErr Z) :=
  groups ←? peek (ListConsumerGroups queueName);
  match min_committed groups with
  | None => peek (Tail queueName)
  | Some m => ret m
  end.

Definition GetMinCommittedOffsetByMode (queueName : string) (mode : ConsumerGroupMode) :
    M (outcome QErr Z) :=
  groups ←? peek (ListConsumerGroups queueName);
  match min_committed (if mode_unset mode then groups
                       else List.filter (λ g, bool_decide (Mode g = mode)) groups) with
  | None => peek (Tail queueName)
  | Some m => ret m
  end.

(** ** Heartbeats *)

Definition UpdateHeartbeat (queueName groupID consumerID : string) : M (outcome QErr unit) :=
  group ←? getGroup queueName groupID;
  t ← time_Now;
  match GetConsumer consumerID group with
  | None => fail (sentinel_err ConsumerErrConsumerNotFound)
  | Some current =>
      if (0 <? HeartbeatRefresh cfg) && (t - LastHeartbeat current <? HeartbeatRefresh cfg) then ret tt
      else
        t' ← time_Now;
        assign group (λ g, (TouchConsumer consumerID t t' g).2);;
        match (TouchConsumer consumerID t t' group).1 with
        | None => fail (sentinel_err ConsumerErrConsumerNotFound)
        | Some consumer => on_store (RegisterConsumer queueName groupID consumer)
        end
  end.

(** A nil registration is dereferenced. *)
Fixpoint stale_consumers (cutoff : Z) (l : list (string * option ConsumerInfo)) :
    outcome QErr (list string) :=
  match l with
  | [] => Ret []
  | (_, None) :: _ => Panic
  | (id, Some info) :: l =>
      rest ← stale_consumers cutoff l;
      Ret (if LastHeartbeat info <? cutoff then id :: rest else rest)
  end.

Definition CleanupStaleConsumers (queueName groupID : string) (timeout : Z) :
    M (outcome QErr (list string)) :=
  group ←? getGroup queueName groupID;
  t ← time_Now;
  match stale_consumers (t - timeout) (consumer_order (Consumers group)) with
  | Panic => mret Panic
  | Fail e => fail e
  | Ret removed =>
      for_each removed (λ id, t ← time_Now; assign group (DeleteConsumer id t));;
      (if (length removed =? 0)%nat then ret tt
       else g ← deref group; on_store (UpdateConsumerGroup g));?
      ret removed
  end.

End manager.
End Manager.
