(* ===== verification/ConsumerManagerFacts.v ===== *)
(** * Safety of the consumer group manager

    Proved over the laws of [GroupStoreLaws], whatever the store, the clock, the
    order of maps and the failures of writes: the committed position of a queue
    group never passes a delivery that is still pending and never moves back. A
    stream's is advanced by [AdvanceCommitted] too, which does not look at its
    pending list: there the same holds where that only happens while the stream
    commits on delivery ([Regime]). *)

From Stdlib Require Import ZArith Lia Bool Ascii String.
From stdpp Require Import prelude gmap strings sorting.
From S2P Require Import Prelude State GoStrings ConsumerGroup ConsumerFilter QueueErrors.
From S2P Require Import GroupStore ConsumerManager.

Import Group GroupFacts.

Module ManagerFacts.
Import Manager.

(** ** The invariant of a group *)

(** Deliveries are tracked: a queue, or a stream settled by hand. *)
Definition tracked (g : ConsumerGroup) : Prop := Mode g = GroupModeQueue ∨ AutoCommit g = false.

(** Whether [AdvanceCommitted] reaches a stream only while it commits on delivery. Its
    caller [ackStream] has seen the stream do so, but without the lock of the group. *)
Class Regime := in_order : bool.

Section invariant.
Context {regime : Regime}.

(** The groups whose committed position is kept at or below what is pending. *)
Definition ordered (g : ConsumerGroup) : Prop := in_order = true ∨ Mode g = GroupModeQueue.

(** Entries are filed under their owner; every pending offset is at or above
    the committed position of an ordered group and, outside streams, below the
    cursor; every entry has an owner; a stream that commits on delivery holds no
    entries. *)
Record Inv (g : ConsumerGroup) : Prop := {
  inv_filed : filed (PEL g);
  inv_mode : Mode g = GroupModeQueue ∨ Mode g = GroupModeStream;
  inv_cursor : 0 <= committed_of g <= cursor_of g;
  inv_pending : ∀ o, o ∈ offsets (all (PEL g)) →
    (ordered g → committed_of g <= o) ∧ (Mode g ≠ GroupModeStream → o < cursor_of g);
  inv_owner : owned (all (PEL g));
  inv_auto : Mode g = GroupModeStream → AutoCommit g = true → offsets (all (PEL g)) = []
}.

(** A later state of the same group: the positions have not moved back. *)
Definition good (g0 g : ConsumerGroup) : Prop :=
  Inv g ∧ Mode g = Mode g0 ∧ committed_of g0 <= committed_of g ∧ cursor_of g0 <= cursor_of g.

Lemma good_refl g : Inv g → good g g.
Proof. intros H. split_and!; [done|done|lia|lia]. Qed.
Lemma good_trans g1 g2 g3 : good g1 g2 → good g2 g3 → good g1 g3.
Proof. intros (? & ? & ? & ?) (? & ? & ? & ?). split_and!; [done|congruence|lia|lia]. Qed.

(** Predicates that see only the frame, the positions and the entries. *)
Definition stable (P : ConsumerGroup → Prop) : Prop := ∀ g g', P g → eff_same g g' → P g'.

Lemma offsets_perm l l' : l ≡ₚ l' → ∀ o, o ∈ offsets l ↔ o ∈ offsets l'.
Proof. intros H o. by rewrite H. Qed.

Lemma owned_perm l l' : l ≡ₚ l' → owned l → owned l'.
Proof. intros Hp Ho e He. apply Ho. by rewrite Hp. Qed.

Lemma Inv_same g g' : Inv g → eff_same g g' → Inv g'.
Proof.
  intros [H1 H2 H3 H4 H6 H5] ((_ & _ & Hm & Ha) & (Hc & Hk) & Hp & Hf).
  split; rewrite ?Hm, ?Hc, ?Hk, ?Ha; [by apply Hf|done|done| |by eapply owned_perm|].
  - intros o. rewrite (offsets_perm _ _ Hp). unfold ordered. rewrite Hm. apply H4.
  - intros Hs Hau. specialize (H5 Hs Hau). apply Permutation_nil. by rewrite <-H5, Hp.
Qed.

Lemma stable_good g0 : stable (good g0).
Proof.
  intros g g' (Hi & Hm & Hk & Hc) He. pose proof He as ((_ & _ & Hm' & _) & (Hc' & Hk') & _).
  split_and!; [by eapply Inv_same|congruence|lia|lia].
Qed.

Lemma stable_tracked : stable tracked.
Proof. intros g g' Ht ((_ & _ & Hm & Ha) & _). unfold tracked. by rewrite Hm, Ha. Qed.

Lemma stable_cursor (Q : Z → Prop) : stable (λ g, Q (cursor_of g)).
Proof. intros g g' H (_ & (Hc & _) & _). by rewrite Hc. Qed.

Lemma stable_and P Q : stable P → stable Q → stable (λ g, P g ∧ Q g).
Proof. intros HP HQ g g' [H1 H2] He. split; eauto. Qed.

(** ** Effects keep the invariant *)

Lemma good_add g0 e g g' : good g0 g → tracked g → cursor_of g <= Offset e < 2 ^ 64 - 1 →
  ConsumerID e ≠ EmptyString → eff_add e g g' →
  good g0 g' ∧ tracked g' ∧ cursor_of g' <= Offset e + 1.
Proof.
  intros ([H1 H2 H3 H4 H6 H5] & Hm & Hk & Hc) Ht Ho Hown (Hfr & Hk' & Hmove & Hf & e' & rest & He & Hid & _ & Hp & Hr).
  pose proof Hfr as (_ & _ & Hm' & Ha'). destruct Hmove as [Hcur Hcq]; [lia|].
  assert (Hrest : ∀ o, o ∈ offsets rest → o ∈ offsets (all (PEL g))).
  { intros o. destruct Hr as [->| ->]; [done|]. rewrite !elem_of_offsets.
    intros (x & Hx%list_elem_of_In%List.filter_In & <-). exists x. split; [|done].
    apply list_elem_of_In, Hx. }
  assert (Hrest' : ∀ x, x ∈ rest → x ∈ all (PEL g)).
  { intros x. destruct Hr as [->| ->]; [done|]. intros Hx%list_elem_of_In%List.filter_In.
    apply list_elem_of_In, Hx. }
  assert (Hcg : cursor_of g <= cursor_of g' <= Offset e + 1) by (destruct Hcur as [->| ->]; lia).
  split; [|split; [unfold tracked; by rewrite Hm', Ha'|lia]].
  split_and!; [|congruence|lia|lia]. split; rewrite ?Hm', ?Ha', ?Hk'; [by apply Hf|done|lia| | |].
  - intros o. rewrite (offsets_perm _ _ Hp).
    change (offsets (Some e' :: rest)) with (Offset e' :: offsets rest).
    rewrite elem_of_cons. intros [->|Hin].
    + rewrite He. split; [lia|]. intros Hq. rewrite (Hcq Hq). lia.
    + destruct (H4 o (Hrest o Hin)) as [Hord Hlt]. unfold ordered. rewrite Hm'. split; [done|]. intros Hq. specialize (Hlt Hq). lia.
  - intros x. rewrite Hp, elem_of_cons. intros [[= ->]|Hx]; [congruence|by apply H6, Hrest'].
  - intros Hs Hau. destruct Ht; congruence.
Qed.

Lemma Inv_fewer g g' : Inv g → frame g g' → same_positions g g' → filed (PEL g') →
  (∀ o, o ∈ offsets (all (PEL g')) → o ∈ offsets (all (PEL g))) → owned (all (PEL g')) → Inv g'.
Proof.
  intros [H1 H2 H3 H4 H6 H5] (_ & _ & Hm & Ha) (Hc & Hk) Hf Hin Hown.
  split; unfold ordered; rewrite ?Hm, ?Hc, ?Hk, ?Ha; [done|done|done|intros o Ho; by apply H4, Hin|done|].
  intros Hs Hau. specialize (H5 Hs Hau). destruct (offsets (all (PEL g'))) as [|o l]; [done|].
  specialize (Hin o ltac:(left)). rewrite H5 in Hin. by apply elem_of_nil in Hin.
Qed.

Lemma good_fewer g0 g g' : good g0 g → frame g g' → same_positions g g' →
  (filed (PEL g) → filed (PEL g')) →
  (∀ o, o ∈ offsets (all (PEL g')) → o ∈ offsets (all (PEL g))) →
  (owned (all (PEL g)) → owned (all (PEL g'))) → good g0 g'.
Proof.
  intros (Hi & Hm & Hk & Hc) Hfr Hpos Hf Hin Hown.
  pose proof Hfr as (_ & _ & Hm' & _). pose proof Hpos as (Hc' & Hk').
  split_and!; [|congruence|lia|lia]. eapply Inv_fewer; eauto; [apply Hf, Hi|apply Hown, Hi].
Qed.

Lemma good_remove g0 o g g' : good g0 g → eff_remove o g g' → good g0 g'.
Proof.
  intros Hg (Hfr & Hpos & Hf & gone & Hp & _). eapply good_fewer; eauto.
  - intros x. rewrite (offsets_perm _ _ Hp), offsets_app, elem_of_app. by right.
  - intros Hown e He. apply Hown. rewrite Hp, elem_of_app. by right.
Qed.

Lemma good_transfer g0 o a b g g' : good g0 g → b ≠ EmptyString → eff_transfer o a b g g' →
  good g0 g'.
Proof.
  intros Hg Hb [(Hfr & Hpos & Hf & x & x' & rest & Hx & _ & Hx' & Hid & Hp & Hp')|[_ He]];
    [|by eapply stable_good].
  eapply good_fewer; eauto.
  - intros y. rewrite (offsets_perm _ _ Hp), (offsets_perm _ _ Hp').
    change (offsets (Some x :: rest)) with (Offset x :: offsets rest).
    change (offsets (Some x' :: rest)) with (Offset x' :: offsets rest). by rewrite Hx, Hx'.
  - intros Hown e. rewrite Hp', elem_of_cons. intros [[= ->]|He]; [congruence|].
    apply Hown. rewrite Hp, elem_of_cons. by right.
Qed.

Lemma good_requeue g0 o g g' : good g0 g → eff_requeue o g g' → good g0 g'.
Proof.
  intros Hg [(Hfr & Hpos & Hf & x & t & rest & Hx & Hp & Hp')|He]; [|by eapply stable_good].
  eapply good_fewer; eauto.
  - intros y. by rewrite (offsets_perm _ _ Hp), (offsets_perm _ _ Hp').
  - intros Hown e. rewrite Hp', elem_of_cons. intros [[= ->]|He].
    + apply (Hown x). rewrite Hp. left.
    + apply Hown. rewrite Hp, elem_of_cons. by right.
Qed.

Lemma good_cursor g0 k g g' : good g0 g → cursor_of g <= k → eff_cursor k g g' → good g0 g'.
Proof.
  intros ([H1 H2 H3 H4 H6 H5] & Hm & Hk & Hc) Hle (Hfr & Hk' & Hc' & Hp & Hf).
  pose proof Hfr as (_ & _ & Hm' & Ha'). split_and!; [|congruence|lia|lia].
  split; rewrite ?Hm', ?Ha', ?Hk', ?Hc'; [by apply Hf|done|lia| |by eapply owned_perm|].
  - intros o. rewrite (offsets_perm _ _ Hp). intros Ho. destruct (H4 o Ho) as [? Hlt].
    unfold ordered. rewrite Hm'. split; [done|]. intros Hq. specialize (Hlt Hq). lia.
  - intros Hs Hau. specialize (H5 Hs Hau). apply Permutation_nil. by rewrite <-H5, Hp.
Qed.

(** The position may rise to any point at or below every pending entry of an ordered
    group, within the cursor unless the store raises it along. *)
Lemma good_commit g0 k g g' : good g0 g → committed_of g <= k →
  (ordered g → ∀ o, o ∈ offsets (all (PEL g)) → k <= o) → (Mode g = GroupModeQueue → k <= cursor_of g) →
  eff_commit k g g' → good g0 g'.
Proof.
  intros ([H1 H2 H3 H4 H6 H5] & Hm & Hk & Hc) Hle Hmin Hq (Hfr & Hk' & (Hp & Hf) & Hc' & Hcs).
  pose proof Hfr as (_ & _ & Hm' & Ha').
  assert (Hcur : k <= cursor_of g' ∧ cursor_of g <= cursor_of g').
  { destruct H2 as [Hmode|Hmode]; [specialize (Hq Hmode); destruct Hc' as [->| ->]; lia|].
    rewrite (Hcs Hmode). lia. }
  split_and!; [|congruence|lia|lia].
  split; rewrite ?Hm', ?Ha', ?Hk'; [by apply Hf|done|lia| |by eapply owned_perm|].
  - intros o. rewrite (offsets_perm _ _ Hp). intros Ho. destruct (H4 o Ho) as [? Hlt].
    unfold ordered. rewrite Hm'. split; [intros Hord; by apply Hmin|]. intros Hn. specialize (Hlt Hn). lia.
  - intros Hs Hau. specialize (H5 Hs Hau). apply Permutation_nil. by rewrite <-H5, Hp.
Qed.

End invariant.

(** ** The manager over lawful stores *)

Section manager.
Context {St Env : Type} `{GS : GroupStore St Env} `{!GroupStoreLaws St Env} {regime : Regime}.
Context (clock : nat → Z) (cfg : Config).
Context (pel_order : pel → list (string * list (option PendingEntry))).
Context (Hpel : ∀ p, pel_order p ≡ₚ map_to_list p).
Context (consumer_order : gmap string (option ConsumerInfo) → list (string * option ConsumerInfo)).
Context (poison_order : gmap Z poisonState → list (Z * poisonState)).
Context (poison_groups : gmap string (gmap Z poisonState) → list (string * gmap Z poisonState)).
Context (OnDLQ : option (DLQHandler (St := St) (Env := Env))) (DLQUnavailable : option (QErr → bool)).

Notation Mgr := (Manager St Env).
Notation M := (state (Manager St Env)).

(** The stores are valid, the other groups are those of the start. *)
Context (base : Mgr).
Definition around (q g : string) (s : St) : Prop :=
  valid s ∧ ∀ q' g', (q', g') ≠ (q, g) → live q' g' s = live q' g' (store base).

(** And the group stored under two names satisfies [P]. *)
Definition G (q g : string) (P : ConsumerGroup → Prop) (m : Mgr) : Prop :=
  around q g (store m) ∧ ∃ gr, live q g (store m) = Some gr ∧ P gr.

Lemma G_weaken q g (P Q : ConsumerGroup → Prop) m : (∀ gr, P gr → Q gr) → G q g P m → G q g Q m.
Proof. intros H (Ha & gr & Hl & HP). split; [done|]. exists gr. eauto. Qed.

Lemma around_step q g s s' : around q g s → valid s' →
  (∀ q' g', (q', g') ≠ (q, g) → live q' g' s' = live q' g' s) → around q g s'.
Proof. intros [_ Ho] Hv Ho'. split; [done|]. intros q' g' Hne. rewrite Ho' by done. by apply Ho. Qed.

(** *** Code that leaves the stores alone *)

Lemma triple_keep q g P {A} (m : M A) : keeps (same store) m → triple (G q g P) m (λ _, G q g P).
Proof.
  intros H s (Ha & gr & Hl & HP). specialize (H s). unfold same in H. unfold G. rewrite H.
  split; [done|]. by exists gr.
Qed.

Lemma store_modify (f : Mgr → Mgr) : (∀ m, store (f m) = store m) → keeps (same store) (modify f).
Proof. intros H m. apply H. Qed.
Lemma store_now : keeps (same store) (time_Now (St := St) (Env := Env) clock).
Proof. done. Qed.
Lemma store_peek {A} (f : St → A) : keeps (same store) (peek (Env := Env) f).
Proof. done. Qed.
Lemma store_deref p : keeps (same store) (deref (Env := Env) p).
Proof. done. Qed.
Lemma store_release msg : keeps (same store) (Release (St := St) (Env := Env) msg).
Proof. done. Qed.
Lemma store_releases msgs : keeps (same store) (releaseMessages (St := St) (Env := Env) msgs).
Proof. apply (keeps_for_each _). intros. apply store_release. Qed.
Lemma store_read q o : keeps (same store) (read (St := St) (Env := Env) q o).
Proof. unfold read. apply (keeps_bind _); [done|]. intros [msg| |]; [|done..]. done. Qed.
Lemma read_no_panic q o m : (read (St := St) (Env := Env) q o m).1 ≠ Panic.
Proof.
  unfold read. rewrite M_bind_eq. simpl. destruct (Read q o (store m)) eqn:E; [done..|].
  by destruct (reads_return q o (store m)) as [? _].
Qed.
Lemma store_expired msg : keeps (same store) (expired (St := St) (Env := Env) clock msg).
Proof. done. Qed.
Lemma store_transferring q g o : keeps (same store) (transferring (St := St) (Env := Env) q g o).
Proof. done. Qed.
Lemma store_begin k : keeps (same store) (beginTransfer (St := St) (Env := Env) k).
Proof. intros m. unfold beginTransfer, same. by destruct (bool_decide _). Qed.
Lemma store_end k : keeps (same store) (endTransfer (St := St) (Env := Env) k).
Proof. done. Qed.
Lemma store_track p e : keeps (same store) (trackPoisonForSweep (St := St) (Env := Env) p e).
Proof. unfold trackPoisonForSweep. repeat state_step; try done. Qed.
Lemma store_due p e : keeps (same store) (dlqTransferDue (St := St) (Env := Env) clock cfg p e).
Proof. unfold dlqTransferDue. repeat state_step; done. Qed.
Lemma store_mark p e : keeps (same store) (markPoisonWithoutDestination (St := St) (Env := Env) p e).
Proof. unfold markPoisonWithoutDestination. repeat state_step; done. Qed.
Lemma store_schedule q g o :
  keeps (same store) (scheduleNextPoisonAttempt (St := St) (Env := Env) clock cfg q g o).
Proof. unfold scheduleNextPoisonAttempt. repeat state_step; done. Qed.
Lemma store_forget q g o : keeps (same store) (forgetPoison (St := St) (Env := Env) q g o).
Proof.
  apply store_modify. intros m. cbv zeta.
  destruct (poison m !! groupKey q g) as [es|]; [|done]. by destruct (es !! o).
Qed.
Lemma store_prune p : keeps (same store) (prunePoison (Env := Env) poison_order p).
Proof.
  unfold prunePoison. repeat state_step; first [done|apply store_deref|apply store_forget].
Qed.
Lemma store_report p e :
  keeps (same store) (reportPoisonWithoutDLQ (St := St) (Env := Env) clock cfg p e).
Proof. unfold reportPoisonWithoutDLQ. repeat state_step; [apply store_mark|apply store_due]. Qed.
Lemma store_defer p e :
  keeps (same store) (deferPoisonTransfer (Env := Env) clock cfg OnDLQ p e).
Proof.
  unfold deferPoisonTransfer. destruct OnDLQ; [apply store_track|].
  apply (keeps_bind _); [apply store_report|done].
Qed.
Lemma store_autoCommitDue k : keeps (same store) (autoCommitDue (St := St) (Env := Env) clock cfg k).
Proof. unfold autoCommitDue. repeat state_step; done. Qed.
Lemma store_scanStart q c : keeps (same store) (scanStart (Env := Env) q c).
Proof. unfold scanStart. repeat state_step; done. Qed.

(** *** Calls to the stores *)

Lemma triple_pre {A} (P P' : Mgr → Prop) (m : M A) Q :
  (∀ s, P' s → P s) → triple P m Q → triple P' m Q.
Proof. intros H Hm s Hs. by apply Hm, H. Qed.

(** Sequencing when the assertion is kept. *)
Lemma bind_keep {A B} q g P (m : M A) (f : A → M B) Q : keeps (same store) m →
  (∀ a, triple (G q g P) (f a) Q) → triple (G q g P) (m ≫= f) Q.
Proof. intros Hm Hf. eapply triple_bind; [by apply triple_keep|]. intros a. apply Hf. Qed.
Lemma bind_keep_result {A B} (R : A → Prop) q g P (m : M A) (f : A → M B) Q :
  keeps (same store) m → (∀ s, R (m s).1) →
  (∀ a, R a → triple (G q g P) (f a) Q) → triple (G q g P) (m ≫= f) Q.
Proof.
  intros Hm Hp Hf s Hs. rewrite M_bind_eq. apply Hf; [apply Hp|].
  by apply (triple_keep q g P m Hm s).
Qed.
Lemma bind_keep_panic {A B} q g P (m : M (outcome QErr A)) (f : outcome QErr A → M B) Q :
  keeps (same store) m → (∀ s, (m s).1 ≠ Panic) →
  (∀ a, a ≠ Panic → triple (G q g P) (f a) Q) → triple (G q g P) (m ≫= f) Q.
Proof. intros. by apply (bind_keep_result (λ r, r ≠ Panic)). Qed.
Lemma store_bind_inv {A B} (I : Mgr → Prop) (R : A → Prop) {I' : Mgr → Prop} (m : M A) (f : A → M B) Q :
  triple I m (λ r s, R r ∧ I' s) → (∀ r, R r → triple I' (f r) Q) → triple I (m ≫= f) Q.
Proof. intros Hm Hf s Hs. rewrite M_bind_eq. destruct (Hm s Hs). by apply Hf. Qed.

Lemma try_bind_eq {A B} (m : M (outcome QErr A)) (k : A → M (outcome QErr B)) s :
  try_bind m k s = match (m s).1 with
                   | Ret a => k a (m s).2
                   | Fail e => (Fail e, (m s).2)
                   | Panic => (Panic, (m s).2)
                   end.
Proof. unfold try_bind. rewrite M_bind_eq. by destruct (m s).1. Qed.

Lemma triple_try {A B} P (m : M (outcome QErr A)) (k : A → M (outcome QErr B)) R Q :
  triple P m R → (∀ a, triple (R (Ret a)) (k a) Q) →
  (∀ e s, R (Fail e) s → Q (Fail e) s) → (∀ s, R Panic s → Q Panic s) →
  triple P (try_bind m k) Q.
Proof.
  intros Hm Hk Hf Hp. eapply triple_bind; [exact Hm|]. intros [a|e|]; [apply Hk| |];
    apply triple_ret; auto.
Qed.

Lemma triple_act q g eff op P Q : acts q g eff op → stable P →
  (∀ gr gr', P gr → eff gr gr' → Q gr') →
  triple (G q g P) (on_store op) (λ r m,
    r ≠ Panic ∧ G q g (λ gr, match r with Ret _ => Q gr | _ => Q gr ∨ P gr end) m).
Proof.
  intros Hop HP HQ m (Ha & gr & Hl & HPg). unfold on_store.
  destruct (Hop (store m) (proj1 Ha)) as (Hv & _ & Ho & Hm & Hn). rewrite Hl in Hm.
  destruct Hm as (gr' & Hl' & He & Hr). destruct (op (store m)) as [r s']. simpl in *.
  split; [done|]. split; [by eapply around_step|]. exists gr'. split; [done|].
  destruct r as [[]|e|]; [by eapply HQ, Hr| |done].
  destruct He as [He|He]; [left; by eapply HQ|right; by eapply HP].
Qed.

Lemma touch_same t gr : eff_same gr (touch t gr).
Proof. split_and!; done. Qed.

Lemma triple_get q g P : stable P → triple (G q g P) (getGroup (Env := Env) q g) (λ r m,
  r ≠ Panic ∧ G q g (λ gr, P gr ∧ ∀ x, r = Ret x → x = gr) m).
Proof.
  intros HP' m (Ha & gr & Hl & HP). unfold getGroup, on_store.
  destruct (get_acts q g (store m) (proj1 Ha)) as (Hv & _ & Ho & Hn & Hr). rewrite Hl in Hr.
  destruct (GetConsumerGroup q g (store m)) as [r s']. simpl in *. destruct Hr as (t & Hl' & Hr).
  split; [done|]. split; [by eapply around_step|]. exists (touch t gr). split; [done|].
  split; [by eapply HP', touch_same|done].
Qed.

(** The group a call works on: its names are those it was found under. *)
Lemma bind_group q g P {B} (k : outcome QErr ConsumerGroup → M B) Q : stable P →
  (∀ x, QueueName x = q → ID x = g → triple (G q g (λ gr, P gr ∧ x = gr)) (k (Ret x)) Q) →
  (∀ e, triple (G q g P) (k (Fail e)) Q) → triple (G q g P) (getGroup q g ≫= k) Q.
Proof.
  intros HP' Hk Hf m Hm. rewrite M_bind_eq.
  destruct (triple_get q g P HP' m Hm) as [Hn (Ha & gr & Hl & HP & Hx)].
  destruct (getGroup q g m) as [[x|e|] m']; cbn [fst snd] in *;
    [|by apply Hf; split; [|exists gr]|done].
  specialize (Hx x eq_refl) as ->. destruct (live_names _ _ _ _ (proj1 Ha) Hl) as (? & ? & _).
  apply Hk; [done..|]. split; [done|]. by exists gr.
Qed.
Lemma with_group q g P {B} (k : ConsumerGroup → M (outcome QErr B)) Q : stable P →
  (∀ x, QueueName x = q → ID x = g → triple (G q g (λ gr, P gr ∧ x = gr)) (k x) Q) →
  (∀ e m, G q g P m → Q (Fail e) m) → triple (G q g P) (try_bind (getGroup q g) k) Q.
Proof. intros HP Hk Hf. apply bind_group; [done|done|]. intros e. apply triple_ret, Hf. Qed.

Lemma triple_deref q g P p : QueueName p = q → ID p = g →
  triple (G q g P) (deref (Env := Env) p) (λ x, G q g (λ gr, P gr ∧ x = gr)).
Proof.
  intros <- <- m (Ha & gr & Hl & HP). split; [done|]. exists gr. split; [done|]. split; [done|].
  simpl. by rewrite Hl.
Qed.

(** ** Operations of one group *)

Section group.
Context (q g : string) (g0 : ConsumerGroup) (T : ConsumerGroup → Prop).
Context (HT : ∀ gr gr', T gr → frame gr gr' → T gr').

(** The group is in a later good state than [g0]; [T] is what else is known of its mode. *)
Definition J (gr : ConsumerGroup) : Prop := good g0 gr ∧ T gr.
Notation GJ := (G q g J).

Lemma stable_J : stable J.
Proof. apply stable_and; [apply stable_good|]. intros gr gr' Ht (Hf & _). by eapply HT. Qed.

(** Finish code that only reads and releases. *)
Ltac safe := repeat first
  [ apply bind_keep; [first [apply store_release|apply store_releases|apply store_now]|intros ?]
  | apply triple_ret; by intros ? ? ].

Lemma stable_J_cursor (Q : Z → Prop) : stable (λ gr, J gr ∧ Q (cursor_of gr)).
Proof. apply stable_and; [apply stable_J|apply stable_cursor]. Qed.

(** A call whose effect keeps the invariant, on every outcome. *)
Lemma triple_call eff op : acts q g eff op →
  (∀ gr gr', good g0 gr → T gr → eff gr gr' → good g0 gr' ∧ frame gr gr') →
  triple GJ (on_store (Env := Env) op) (λ r m, r ≠ Panic ∧ GJ m).
Proof.
  intros Hop He. eapply triple_conseq; [apply (triple_act q g eff op J J Hop stable_J)| |].
  - intros gr gr' [Hg Ht] Heff. destruct (He gr gr' Hg Ht Heff) as [? ?]. split; [done|by eapply HT].
  - done.
  - intros r m [Hr Hm]. split; [done|]. eapply G_weaken; [|exact Hm]. intros gr. by destruct r; intuition.
Qed.

Lemma safe_remove c o : triple GJ (on_store (Env := Env) (RemovePendingEntry q g c o)) (λ r m, r ≠ Panic ∧ GJ m).
Proof.
  eapply triple_call; [apply remove_acts|]. intros gr gr' Hg _ He.
  split; [by eapply good_remove|apply He].
Qed.
Lemma safe_transfer o a b : b ≠ EmptyString →
  triple GJ (on_store (Env := Env) (TransferPendingEntry q g o a b)) (λ r m, r ≠ Panic ∧ GJ m).
Proof.
  intros Hb. eapply triple_call; [apply transfer_acts|]. intros gr gr' Hg _ He.
  split; [by eapply good_transfer|]. destruct He as [He|[_ He]]; apply He.
Qed.
Lemma safe_requeue c o t :
  triple GJ (on_store (Env := Env) (RequeuePendingEntry q g c o t)) (λ r m, r ≠ Panic ∧ GJ m).
Proof.
  eapply triple_call; [apply requeue_acts|]. intros gr gr' Hg _ He.
  split; [by eapply good_requeue|]. destruct He as [He|He]; apply He.
Qed.

Lemma safe_cursor k :
  triple (G q g (λ gr, J gr ∧ cursor_of gr <= k)) (on_store (Env := Env) (UpdateCursor q g k))
    (λ r m, r ≠ Panic ∧ GJ m).
Proof.
  eapply triple_conseq; [apply (triple_act q g _ _ _ J (cursor_acts q g k)
    (stable_J_cursor (λ c, c <= k)))| |].
  - intros gr gr' [[Hg Ht] Hle] He. split; [by eapply good_cursor|eapply HT; [done|apply He]].
  - done.
  - intros r m [Hr Hm]. split; [done|]. eapply G_weaken; [|exact Hm]. intros gr. by destruct r; intuition.
Qed.

(** A commit at a point every pending entry of an ordered group is at or above. *)
Definition commits (k : Z) (gr : ConsumerGroup) : Prop :=
  committed_of gr <= k ∧ (ordered gr → ∀ o, o ∈ offsets (all (PEL gr)) → k <= o) ∧
  (Mode gr = GroupModeQueue → k <= cursor_of gr).

Lemma stable_commits k : stable (commits k).
Proof.
  intros gr gr' (H1 & H2 & H3) ((_ & _ & Hm & _) & (Hc & Hk) & Hp & _).
  split_and!; [by rewrite Hk| |by rewrite Hm, Hc].
  unfold ordered. rewrite Hm. intros Ho o. rewrite (offsets_perm _ _ Hp). by apply H2.
Qed.

Lemma safe_commit k :
  triple (G q g (λ gr, J gr ∧ commits k gr)) (on_store (Env := Env) (UpdateCommitted q g k))
    (λ r m, r ≠ Panic ∧ GJ m).
Proof.
  eapply triple_conseq; [apply (triple_act q g _ _ _ J (commit_acts q g k)
    (stable_and _ _ stable_J (stable_commits k)))| |].
  - intros gr gr' [[Hg Ht] (H1 & H2 & H3)] He.
    split; [by eapply good_commit|eapply HT; [done|apply He]].
  - done.
  - intros r m [Hr Hm]. split; [done|]. eapply G_weaken; [|exact Hm]. intros gr. by destruct r; intuition.
Qed.

(** *** Claims *)

Section claims.
Context (Htr : ∀ gr, T gr → tracked gr).
Context (p : ConsumerGroup) (Hq : QueueName p = q) (Hg : ID p = g).
Context (consumerID : string) (Hown : consumerID ≠ EmptyString).

Lemma safe_claim_record offset msg : offset < 2 ^ 64 - 1 →
  triple (G q g (λ gr, J gr ∧ cursor_of gr <= offset))
    (claim_record (Env := Env) clock p consumerID offset (offset + 1) msg) (λ r m, r ≠ Panic ∧ GJ m).
Proof.
  intros Hmax.
  unfold claim_record. rewrite Hq, Hg. apply bind_keep; [apply store_now|]. intros t.
  eapply triple_bind.
  { apply (triple_act q g _ _ _ (λ gr, J gr ∧ cursor_of gr <= offset + 1)
      (add_acts q g (mkPendingEntry offset consumerID t 1))
      (stable_J_cursor (λ c, c <= offset))).
    intros gr gr' [[Hgd Ht] Hle] He.
    destruct (good_add g0 (mkPendingEntry offset consumerID t 1) gr gr' Hgd (Htr gr Ht) (conj Hle Hmax) Hown He)
      as (? & ? & ?). split; [split; [done|eapply HT; [done|apply He]]|done]. }
  intros [u|err|]; [| |by intros m [? _]].
  - eapply triple_pre; [|apply (store_bind_inv (G q g (λ gr, J gr ∧ cursor_of gr <= offset + 1))
      (λ r, r ≠ Panic) _ _ _ (safe_cursor (offset + 1)))]; [by intros m [_ ?]|].
    intros [u'|err|] Hr; [safe|safe|done].
  - eapply (triple_pre GJ); [intros m [_ Hm]; eapply G_weaken; [|exact Hm]; simpl; tauto|safe].
Qed.

Lemma safe_claim_scan filter tail fuel : tail < 2 ^ 64 → ∀ cursor,
  triple (G q g (λ gr, J gr ∧ cursor_of gr <= cursor))
    (claim_scan (Env := Env) clock fuel p consumerID filter tail cursor)
    (λ r m, r ≠ Panic ∧ GJ m ∧
       ∀ c, r = Ret (inr c) → cursor <= c ∧ G q g (λ gr, J gr ∧ cursor_of gr <= c) m).
Proof.
  intros Htail. assert (Hstop : ∀ cursor, triple (G q g (λ gr, J gr ∧ cursor_of gr <= cursor))
    (ret (St := St) (Env := Env) (inr cursor : Env + Z)) (λ r m, r ≠ Panic ∧ GJ m ∧
       ∀ c, r = Ret (inr c) → cursor <= c ∧ G q g (λ gr, J gr ∧ cursor_of gr <= c) m)).
  { intros cursor m Hm. split_and!; [done|by eapply G_weaken; [|exact Hm]; intros ? []|].
    intros c [= <-]. split; [lia|done]. }
  induction fuel as [|fuel IH]; intros cursor; cbn [claim_scan]; cbv zeta; [apply Hstop|].
  destruct (Z.leb_spec tail cursor) as [|Hlt]; [apply Hstop|].
  assert (Hnext : triple (G q g (λ gr, J gr ∧ cursor_of gr <= cursor))
    (claim_scan (Env := Env) clock fuel p consumerID filter tail (cursor + 1))
    (λ r m, r ≠ Panic ∧ GJ m ∧
       ∀ c, r = Ret (inr c) → cursor <= c ∧ G q g (λ gr, J gr ∧ cursor_of gr <= c) m)).
  { eapply triple_conseq; [apply (IH (cursor + 1))| |].
    - intros m. apply G_weaken. intros gr [? ?]. split; [done|lia].
    - intros r m (? & ? & Hc). split_and!; [done..|]. intros c Hr. destruct (Hc c Hr). split; [lia|done]. }
  apply bind_keep_panic; [apply store_read|apply read_no_panic|].
  intros [msg|err|] Hr; [| |done].
  2: { destruct (errors_Is err [ErrOffsetOutOfRange]); [done|].
       destruct (errors_Is err [ErrUndecodableRecord]); [done|]. apply triple_ret. intros m Hm.
       split_and!; [done|by eapply G_weaken; [|exact Hm]; intros ? []|done]. }
  apply bind_keep; [apply store_expired|]. intros [].
  { apply bind_keep; [apply store_release|done]. }
  destruct (negb _); [apply bind_keep; [apply store_release|done]|].
  eapply triple_try; [apply safe_claim_record; lia|..].
  - intros m'. apply triple_ret. by intros s [_ ?].
  - by intros e s [_ ?].
  - by intros s [? _].
Qed.

Lemma scanStart_ge q' c m : c <= (scanStart (St := St) (Env := Env) q' c m).1.
Proof.
  unfold scanStart. rewrite M_bind_eq. simpl. destruct (Head q' (store m)) as [h| |]; simpl; [|lia..].
  destruct (h <=? c) eqn:E; bool_prop; lia.
Qed.

Lemma triple_scanStart q' c :
  triple (G q g (λ gr, J gr ∧ cursor_of gr <= c)) (scanStart (St := St) (Env := Env) q' c)
    (λ start, G q g (λ gr, J gr ∧ cursor_of gr <= start)).
Proof.
  intros m Hm. pose proof (scanStart_ge q' c m).
  apply (triple_keep q g _ _ (store_scanStart q' c)) in Hm.
  eapply G_weaken; [|exact Hm]. intros gr [? ?]. split; [done|lia].
Qed.

Lemma safe_claimFromCursor filter :
  triple GJ (claimFromCursor (Env := Env) clock cfg p consumerID filter) (λ r m, r ≠ Panic ∧ GJ m).
Proof.
  unfold claimFromCursor. eapply triple_bind; [by apply triple_deref|]. intros x.
  destruct (_ && _).
  { apply triple_ret. intros m Hm. split; [done|]. eapply G_weaken; [|exact Hm]. by intros ? []. }
  cbv zeta. set (cur := Cursor (CursorView x)).
  apply (triple_pre (G q g (λ gr, J gr ∧ cursor_of gr <= cur))).
  { intros m Hm. eapply G_weaken; [|exact Hm]. intros gr [? ->]. split; [done|]. unfold cursor_of, cur. lia. }
  unfold try_bind at 1.
  apply (bind_keep_result (λ r, r ≠ Panic ∧ ∀ t, r = Ret t → t < 2 ^ 64)); [done| |].
  { intros m. simpl. split; [apply (reads_return (QueueName p) 0)|apply tail_bound]. }
  intros [tail|e|] [Hr Htail]; [| |done].
  2: { apply triple_ret. intros m Hm. split; [done|]. eapply G_weaken; [|exact Hm]. by intros ? []. }
  eapply triple_bind; [apply triple_scanStart|]. intros start.
  apply (triple_try (G q g (λ gr, J gr ∧ cursor_of gr <= start)) _ _ _ _
           (safe_claim_scan filter tail maxCursorScan (Htail tail eq_refl) start)).
  - intros [msg|c]; [apply triple_ret; by intros m (_ & ? & _)|].
    apply (triple_pre (G q g (λ gr, J gr ∧ cursor_of gr <= c))).
    { intros m (_ & _ & Hc). by apply Hc. }
    apply (triple_try _ _ _ (λ r m, r ≠ Panic ∧ GJ m)).
    + destruct (start <? c); [|apply triple_ret; intros m Hm; split; [done|];
        eapply G_weaken; [|exact Hm]; by intros ? []].
      rewrite Hq, Hg. apply (triple_try _ _ _ (λ r m, r ≠ Panic ∧
        G q g (λ gr, J gr ∧ cursor_of gr <= c) m)).
      * eapply triple_conseq; [apply triple_get, (stable_J_cursor (λ k, k <= c))|intros m Hm; exact Hm|].
        intros r m [? Hm]. split; [done|]. eapply G_weaken; [|exact Hm]. by intros ? [? _].
      * intros fresh. destruct (_ <? c).
        -- eapply triple_pre; [|apply safe_cursor]. by intros m [_ ?].
        -- apply triple_ret. intros m [_ Hm]. split; [done|].
           eapply G_weaken; [|exact Hm]. by intros ? [].
      * intros e m [_ Hm]. split; [done|]. eapply G_weaken; [|exact Hm]. by intros ? [].
      * by intros m [? _].
    + intros []. destruct (c <? tail); apply triple_ret; by intros m [_ ?].
    + by intros e m [_ ?].
    + by intros m [? _].
  - by intros e m (_ & ? & _).
  - by intros m (? & _ & _).
Qed.

End claims.

(** *** Stealing *)

Section steals.
Context (p : ConsumerGroup) (Hq : QueueName p = q) (Hg : ID p = g).
Context (consumerID : string) (Hown : consumerID ≠ EmptyString).

Lemma safe_ignore {A} (m : M (outcome QErr A)) :
  triple GJ m (λ r s, r ≠ Panic ∧ GJ s) → triple GJ (ignore m) (λ _, GJ).
Proof. intros H. apply (store_bind_inv _ (λ r, r ≠ Panic) _ _ _ H). intros r _. by apply triple_ret. Qed.

Lemma safe_steal_loop filter ownerOnly lapsed entries :
  triple GJ (steal_loop (Env := Env) clock cfg OnDLQ p consumerID filter ownerOnly lapsed entries)
    (λ r m, r ≠ Panic ∧ GJ m).
Proof.
  induction entries as [|e entries IH]; cbn [steal_loop]; cbv zeta; [apply triple_ret; by intros m ?|].
  destruct (_ && _); [done|]. destruct (_ && _); [done|].
  apply bind_keep; [apply store_transferring|]. intros []; [done|].
  apply bind_keep; [destruct (_ <=? _); [apply store_defer|done]|]. intros []; [done|].
  rewrite Hq, Hg in *.
  assert (Hrm : triple GJ (ignore (on_store (Env := Env) (RemovePendingEntry q g (ConsumerID e) (Offset e))))
    (λ _, GJ)) by apply safe_ignore, safe_remove.
  apply bind_keep_panic; [apply store_read|apply read_no_panic|]. intros [msg|err|] Hr; [| |done].
  - apply bind_keep; [apply store_expired|]. intros [].
    { eapply triple_bind; [exact Hrm|]. intros ?. apply bind_keep; [apply store_release|done]. }
    destruct (negb _); [apply bind_keep; [apply store_release|done]|].
    apply (store_bind_inv _ (λ r, r ≠ Panic) _ _ _ (safe_transfer _ _ _ Hown)).
    intros [[]|err|] Hr'; [apply triple_ret; by intros m ?| |done].
    apply bind_keep; [apply store_release|done].
  - eapply triple_bind; [|intros ?; exact IH]. unfold when.
    destruct (errors_Is err _); [exact Hrm|by apply triple_ret].
Qed.

Lemma safe_stealWorkFrom filter exclude ownerOnly :
  triple GJ (stealWorkFrom (Env := Env) clock cfg pel_order poison_order OnDLQ p consumerID filter
    exclude ownerOnly) (λ r m, r ≠ Panic ∧ GJ m).
Proof.
  unfold stealWorkFrom. apply bind_keep; [apply store_now|]. intros t.
  apply bind_keep; [apply store_deref|]. intros x. cbv zeta.
  apply bind_keep; [apply store_prune|]. intros _.
  destruct (StealableEntries _ _ _ _) as [|e l]; [apply triple_ret; by intros m ?|].
  apply bind_keep; [apply store_now|]. intros t'. apply safe_steal_loop.
Qed.

End steals.
(** *** Claim operations *)

Lemma weaken_x x m : G q g (λ gr, J gr ∧ x = gr) m → GJ m.
Proof. apply G_weaken. by intros ? []. Qed.
#[local] Hint Resolve weaken_x : mgr.

(** *** Idle entries *)

Lemma safe_claim_pending consumerID (Hown : consumerID ≠ EmptyString) entries : ∀ msgs,
  triple GJ (claim_pending (Env := Env) clock q g consumerID entries msgs) (λ r m, r ≠ Panic ∧ GJ m).
Proof.
  induction entries as [|e entries IH]; intros msgs; cbn [claim_pending]; cbv zeta;
    [apply triple_ret; by intros|].
  assert (Hdrop : triple GJ
    (r ← on_store (Env := Env) (RemovePendingEntry q g (ConsumerID e) (Offset e));
     match r with
     | Panic => mret Panic
     | Fail err => releaseMessages msgs;; fail err
     | Ret _ => claim_pending clock q g consumerID entries msgs
     end) (λ r m, r ≠ Panic ∧ GJ m)).
  { apply (store_bind_inv _ (λ r, r ≠ Panic) _ _ _ (safe_remove _ _)).
    intros [u|err|] Hr; [apply IH|safe|done]. }
  apply bind_keep_panic; [apply store_read|apply read_no_panic|]. intros [msg|err|] Hr; [| |done].
  - apply bind_keep; [apply store_expired|]. intros [].
    + apply bind_keep; [apply store_release|]. intros _. apply Hdrop.
    + apply (store_bind_inv _ (λ r, r ≠ Panic) _ _ _ (safe_transfer _ _ _ Hown)).
      intros [u|err|] Hr'; [apply IH|safe|done].
  - destruct (errors_Is err [ErrUndecodableRecord]); [apply Hdrop|safe].
Qed.

Lemma safe_ClaimPendingBatch consumerID minIdle limit (Hown : consumerID ≠ EmptyString) :
  triple GJ (ClaimPendingBatch (Env := Env) clock cfg pel_order q g consumerID minIdle limit)
    (λ r m, (0 <= ClaimBatchSize cfg → r ≠ Panic) ∧ GJ m).
Proof.
  unfold ClaimPendingBatch. cbv zeta. apply with_group; [apply stable_J| |by intros]. intros x _ _.
  eapply triple_pre; [apply weaken_x|]. destruct (is_stream x); [apply triple_ret; by intros|].
  apply bind_keep; [apply store_now|]. intros t.
  destruct (Z.ltb_spec (batch_limit cfg limit) 0) as [Hlt|].
  { apply triple_ret. intros m Hm. split; [|done]. intros Hcfg. unfold batch_limit in Hlt.
    destruct (Z.leb_spec limit 0); lia. }
  apply (store_bind_inv _ (λ r, r ≠ Panic) _ _ _ (safe_claim_pending _ Hown _ _)).
  intros [msgs|err|] Hr; [|apply triple_ret; by intros|done].
  destruct (_ =? _)%nat; apply triple_ret; by intros.
Qed.

(** *** Settlement *)

Lemma filed_Some p e : filed p → e ∈ all p → is_Some e.
Proof. intros Hf [c Hc]%elem_of_all. destruct (Hf c e Hc) as (x & -> & _). eauto. Qed.

(** The position [advanceCommitted] computes is one that may be committed. *)
Lemma advance_target gr : Inv gr → ∃ found, MinPendingOffset (pel_order (PEL gr)) = Ret found ∧
  commits (match found with
           | None => cursor_of gr
           | Some minOffset => if committed_of gr <? minOffset then minOffset else committed_of gr
           end) gr.
Proof.
  intros [H1 H2 H3 H4 _ H5]. unfold MinPendingOffset.
  destruct (min_scan_spec (concat (pel_order (PEL gr)).*2) None) as (found & Hmin & Hspec).
  { intros e. rewrite (all_order _ _ (Hpel (PEL gr))). by apply filed_Some. }
  exists found. split; [done|]. pose proof (offsets_perm _ _ (all_order _ _ (Hpel (PEL gr)))) as Hoff.
  destruct found as [z|].
  - destruct Hspec as ([?|Hz] & Hle & _); [done|]. apply Hoff in Hz. destruct (H4 z Hz) as [Hzc Hzq].
    destruct (Z.ltb_spec (committed_of gr) z); split_and!; try lia.
    + intros _ o Ho. by apply Hle, Hoff.
    + intros Hq. assert (z < cursor_of gr) by (apply Hzq; by rewrite Hq). lia.
    + intros Hord o Ho. by apply H4.
  - destruct Hspec as [_ Hnil]. split_and!; [lia| |lia]. intros _ o Ho. apply Hoff in Ho.
    rewrite Hnil in Ho. by apply elem_of_nil in Ho.
Qed.

Lemma safe_advanceCommitted x : QueueName x = q → ID x = g →
  triple GJ (advanceCommitted (Env := Env) pel_order x) (λ r m, r ≠ Panic ∧ GJ m).
Proof.
  intros Hq Hg. unfold advanceCommitted.
  eapply triple_bind; [by apply triple_deref|]. intros y m Hm. cbv beta in *.
  destruct Hm as (Ha & gr & Hl & [[Hgd Ht] ->]).
  destruct (advance_target gr (proj1 Hgd)) as (found & -> & Hc). rewrite Hq, Hg.
  apply safe_commit. split; [done|]. by exists gr.
Qed.

Lemma safe_settled x : QueueName x = q → ID x = g →
  triple (G q g (λ gr, J gr ∧ x = gr)) (advanceCommitted (Env := Env) pel_order x)
    (λ r m, r ≠ Panic ∧ GJ m).
Proof. intros Hq Hg. eapply triple_pre; [apply weaken_x|by apply safe_advanceCommitted]. Qed.

(** Remove, then advance: the tail of [Ack] and of [finishTransfer]. *)
Lemma safe_settle consumerID offset :
  triple GJ (try_bind (on_store (Env := Env) (RemovePendingEntry q g consumerID offset)) (λ _,
    try_bind (getGroup q g) (advanceCommitted pel_order))) (λ r m, r ≠ Panic ∧ GJ m).
Proof.
  apply (store_bind_inv _ (λ r, r ≠ Panic) _ _ _ (safe_remove _ _)).
  intros [u|e|] Hr; [|apply triple_ret; by intros|done].
  apply with_group; [apply stable_J| |by intros]. intros x Hq Hg. by apply safe_settled.
Qed.

Lemma safe_Ack consumerID offset :
  triple GJ (Ack (Env := Env) pel_order q g consumerID offset) (λ r m, r ≠ Panic ∧ GJ m).
Proof.
  unfold Ack. apply bind_keep; [apply store_transferring|].
  intros []; [apply triple_ret; by intros|apply safe_settle].
Qed.

Lemma safe_NackWithDelay consumerID offset delay :
  triple GJ (NackWithDelay (Env := Env) clock cfg pel_order q g consumerID offset delay)
    (λ r m, r ≠ Panic ∧ GJ m).
Proof.
  unfold NackWithDelay. apply with_group; [apply stable_J| |by intros]. intros x _ _.
  eapply triple_pre; [apply weaken_x|].
  destruct (find_pending _ _ _) as [[e owner]|]; [|apply triple_ret; by intros].
  destruct (negb _); [apply triple_ret; by intros|].
  apply bind_keep; [apply store_transferring|]. intros []; [apply triple_ret; by intros|].
  destruct (negb requeues); [apply triple_ret; by intros|].
  apply bind_keep; [apply store_now|]. intros t. cbv zeta. apply safe_requeue.
Qed.

Lemma safe_prepareTransfer key consumerID : tkQueue key = q → tkGroup key = g →
  triple GJ (prepareTransfer (Env := Env) pel_order OnDLQ key consumerID) (λ r m, r ≠ Panic ∧ GJ m).
Proof.
  intros Hq Hg. unfold prepareTransfer. rewrite Hq, Hg. apply with_group; [apply stable_J| |by intros]. intros x _ _.
  eapply triple_pre; [apply weaken_x|].
  destruct (find_pending _ _ _) as [[e owner]|]; [|apply triple_ret; by intros].
  destruct (negb _); [apply triple_ret; by intros|].
  destruct OnDLQ; [|apply triple_ret; by intros].
  apply bind_keep; [apply store_begin|]. intros []; [|apply triple_ret; by intros]. simpl.
  apply bind_keep_panic; [apply store_read|apply read_no_panic|].
  intros [msg|err|] Hr; [apply triple_ret; by intros| |done].
  apply bind_keep; [apply store_end|]. intros _. apply triple_ret; by intros.
Qed.

Lemma safe_finishTransfer key consumerID err : tkQueue key = q → tkGroup key = g →
  triple GJ (finishTransfer (Env := Env) pel_order key consumerID err) (λ r m, r ≠ Panic ∧ GJ m).
Proof.
  intros Hq Hg. unfold finishTransfer. rewrite Hq, Hg.
  apply bind_keep; [apply store_end|]. intros _.
  destruct err; [apply triple_ret; by intros|apply safe_settle].
Qed.

Lemma safe_preparePoisonTransfer ref : tkQueue ref = q → tkGroup ref = g →
  triple GJ (preparePoisonTransfer (Env := Env) clock cfg pel_order ref) (λ r m, r ≠ Panic ∧ GJ m).
Proof.
  intros Hq Hg. unfold preparePoisonTransfer. rewrite Hq, Hg.
  assert (Hforget : triple GJ (forgetPoison (Env := Env) q g (tkOffset ref);;
    (mret (Ret None) : M (outcome unit (option (ConsumerGroup * PendingEntry * Env)))))
    (λ r m, r ≠ Panic ∧ GJ m)).
  { apply bind_keep; [apply store_forget|]. intros _. apply triple_ret; by intros. }
  apply bind_group; [apply stable_J| |intros e; apply Hforget]. intros x _ _.
  eapply triple_pre; [apply weaken_x|].
  destruct (find_pending _ _ _) as [[e owner]|]; [|apply Hforget].
  apply bind_keep; [apply store_begin|]. intros []; [|apply triple_ret; by intros]. simpl.
  apply bind_keep_panic; [apply store_read|apply read_no_panic|].
  intros [msg|err|] Hr; [apply triple_ret; by intros| |done].
  apply bind_keep; [apply store_end|]. intros _. apply bind_keep; [apply store_schedule|]. intros _.
  apply triple_ret; by intros.
Qed.

Lemma safe_finishPoisonTransfer ref x e err : tkQueue ref = q → tkGroup ref = g →
  triple GJ (finishPoisonTransfer (Env := Env) clock cfg DLQUnavailable ref x e err)
    (λ r m, r ≠ Panic ∧ GJ m).
Proof.
  intros Hq Hg. unfold finishPoisonTransfer. rewrite Hq, Hg.
  apply bind_keep; [apply store_end|]. intros _.
  destruct err as [err|].
  - destruct (dlqUnavailable _ _); (apply bind_keep; [first [apply store_report|apply store_schedule]|]);
      intros _; apply triple_ret; by intros.
  - apply (store_bind_inv _ (λ r, r ≠ Panic) _ _ _ (safe_remove _ _)). intros [u|err|] Hr; [| |done];
      (apply bind_keep; [first [apply store_forget|apply store_schedule]|]);
      intros _; apply triple_ret; by intros.
Qed.

(** *** Streams *)

Section streams.
Context (Hst : ∀ gr, T gr → Mode gr = GroupModeStream).

Lemma commits_auto gr : J gr → AutoCommitEnabled gr = true → commits (cursor_of gr) gr.
Proof.
  intros [[[H1 H2 H3 H4 _ H5] _] Ht] Ha. specialize (Hst gr Ht). split_and!; [lia| |lia].
  intros _ o. rewrite (H5 Hst Ha). by intros ?%elem_of_nil.
Qed.

Lemma safe_updateStreamCursorLocked x k : QueueName x = q → ID x = g →
  triple GJ (updateStreamCursorLocked (Env := Env) clock cfg x k) (λ r m, r ≠ Panic ∧ GJ m).
Proof.
  intros Hq Hg. unfold updateStreamCursorLocked. rewrite Hq, Hg.
  eapply triple_bind; [by apply triple_deref|]. intros y.
  destruct (Z.leb_spec k (Cursor (CursorView y))) as [|Hlt].
  { apply triple_ret. intros m Hm. split; [done|by eapply weaken_x]. }
  eapply (triple_pre (G q g (λ gr, J gr ∧ cursor_of gr <= k))).
  { intros m. apply G_weaken. intros gr [? ->]. split; [done|]. unfold cursor_of. lia. }
  eapply triple_bind.
  { apply (triple_act q g _ _ _ (λ gr, J gr ∧ cursor_of gr = k) (cursor_acts q g k)
      (stable_J_cursor (λ c, c <= k))).
    intros gr gr' [[Hgd Ht] Hle] He.
    split; [split; [by eapply good_cursor|eapply HT; [done|apply He]]|apply He]. }
  intros [[]|e|]; [|apply triple_ret; intros m [_ Hm]; split; [done|];
    eapply G_weaken; [|exact Hm]; by intros gr [[??]|[??]]|by intros m []].
  eapply (triple_pre (G q g (λ gr, J gr ∧ cursor_of gr = k))); [by intros m []|].
  eapply triple_bind; [by apply triple_deref|]. intros z.
  destruct (AutoCommitEnabled z) eqn:Ha; simpl.
  2:{ apply triple_ret. intros m Hm. split; [done|]. eapply G_weaken; [|exact Hm]. by intros gr [[??] _]. }
  eapply (triple_pre (G q g (λ gr, J gr ∧ commits k gr))).
  { intros m. apply G_weaken. intros gr [[HJ <-] ->]. split; [done|by apply commits_auto]. }
  destruct (AutoCommitInterval cfg <=? 0); [apply safe_commit|].
  apply bind_keep; [apply store_autoCommitDue|]. intros []; simpl.
  2:{ apply triple_ret. intros m Hm. split; [done|]. eapply G_weaken; [|exact Hm]. by intros gr [??]. }
  apply (store_bind_inv _ (λ r, r ≠ Panic) _ _ _ (safe_commit k)).
  intros [u|e|] Hr; [apply triple_ret; by intros| |done].
  apply bind_keep; [by apply store_modify|]. intros _. apply triple_ret; by intros.
Qed.

Lemma safe_peek_scan x filter limit tail fuel : ∀ newCursor msgs,
  triple GJ (peek_scan (Env := Env) clock fuel x filter limit tail newCursor msgs)
    (λ r m, r.2 ≠ Panic ∧ GJ m).
Proof.
  induction fuel as [|fuel IH]; intros c msgs; cbn [peek_scan]; cbv zeta;
    [apply triple_ret; by intros|].
  destruct (_ || _); [apply triple_ret; by intros|].
  apply bind_keep_panic; [apply store_read|apply read_no_panic|]. intros [msg|err|] Hr; [| |done].
  - apply bind_keep; [apply store_expired|]. intros [].
    + apply bind_keep; [apply store_release|]. intros _. apply IH.
    + destruct (negb _); [|apply IH]. apply bind_keep; [apply store_release|]. intros _. apply IH.
  - destruct (errors_Is err [ErrOffsetOutOfRange]); [apply IH|].
    destruct (errors_Is err [ErrUndecodableRecord]); [apply IH|].
    apply bind_keep; [apply store_releases|]. intros _. apply triple_ret; by intros.
Qed.

Lemma safe_peekBatchStreamLocked x filter limit : QueueName x = q → ID x = g →
  triple GJ (peekBatchStreamLocked (Env := Env) clock cfg x filter limit) (λ r m, r.2 ≠ Panic ∧ GJ m).
Proof.
  intros Hq Hg. unfold peekBatchStreamLocked. cbv zeta.
  apply bind_keep; [apply store_deref|]. intros y.
  apply bind_keep_panic; [apply store_peek|intros m; simpl; apply reads_return; exact 0|].
  intros [tail|e|] Hr; [|apply triple_ret; by intros|done].
  apply bind_keep; [apply store_scanStart|]. intros start.
  apply (store_bind_inv _ (λ r, r.2 ≠ Panic) _ _ _ (safe_peek_scan _ _ _ _ _ _ _)).
  intros [[msgs c] [u|e|]] Hr'; cbn in Hr'; [|apply triple_ret; by intros|done].
  destruct (_ =? _)%nat; [|apply triple_ret; by intros].
  apply (store_bind_inv _ (λ r, r ≠ Panic) _ _ _ (safe_updateStreamCursorLocked x c Hq Hg)).
  intros [u'|e|] Hr''; [apply triple_ret; by intros..|done].
Qed.

Lemma safe_ClaimBatchStream consumerID filter limit :
  triple GJ (ClaimBatchStream (Env := Env) clock cfg q g consumerID filter limit)
    (λ r m, r ≠ Panic ∧ GJ m).
Proof.
  unfold ClaimBatchStream. apply with_group; [apply stable_J| |by intros]. intros x Hq Hg.
  eapply triple_pre; [apply weaken_x|].
  apply (store_bind_inv _ (λ r, r.2 ≠ Panic) _ _ _ (safe_peekBatchStreamLocked x _ _ Hq Hg)).
  intros [[msgs c] [u|e|]] Hr; cbn in Hr; [|apply triple_ret; by intros|done].
  apply (store_bind_inv _ (λ r, r ≠ Panic) _ _ _ (safe_updateStreamCursorLocked x c Hq Hg)).
  intros [u'|e|] Hr'; [apply triple_ret; by intros|safe|done].
Qed.

Lemma safe_PeekBatchStream filter limit :
  triple GJ (PeekBatchStream (Env := Env) clock cfg q g filter limit) (λ r m, r.2 ≠ Panic ∧ GJ m).
Proof.
  unfold PeekBatchStream. apply bind_group; [apply stable_J| |intros e; apply triple_ret; by intros].
  intros x Hq Hg. eapply triple_pre; [apply weaken_x|by apply safe_peekBatchStreamLocked].
Qed.

Lemma safe_CommitStreamCursor k :
  triple GJ (CommitStreamCursor (Env := Env) clock cfg q g k) (λ r m, r ≠ Panic ∧ GJ m).
Proof.
  unfold CommitStreamCursor. apply with_group; [apply stable_J| |by intros]. intros x Hq Hg.
  eapply triple_pre; [apply weaken_x|].
  destruct (negb _); [apply triple_ret; by intros|by apply safe_updateStreamCursorLocked].
Qed.

End streams.

(** *** Committing a stream by offset *)

Definition below (k : Z) (l : list (option PendingEntry)) : list Z := filter (λ o, o < k) (offsets l).

Lemma offsets_gone o gone : Forall (λ e, has_offset o e = true) gone →
  offsets gone = replicate (length gone) o.
Proof.
  induction 1 as [|[e|] gone He _ IH]; [done| |done]. cbn in He. apply Z.eqb_eq in He as <-.
  change (offsets (Some e :: gone)) with (Offset e :: offsets gone). by rewrite IH.
Qed.

(** Removing an entry uses up one of the listed ones. *)
Lemma below_remove k o g1 g2 l : eff_remove o g1 g2 → filed (PEL g1) → owned (all (PEL g1)) → o < k →
  below k (all (PEL g1)) ⊆+ o :: l → below k (all (PEL g2)) ⊆+ l.
Proof.
  intros (_ & _ & _ & gone & Hp & Hg & Hne) Hfile Hown Hk Hsub. unfold below in *.
  assert (Hb : filter (λ o, o < k) (offsets (all (PEL g1)))
    ≡ₚ replicate (length gone) o ++ filter (λ o, o < k) (offsets (all (PEL g2)))).
  { rewrite Hp, offsets_app, filter_app, (offsets_gone o gone Hg). f_equiv.
    apply reflexive_eq. clear -Hk. induction (length gone) as [|n IH]; [done|].
    cbn [replicate]. rewrite filter_cons_True by done. by f_equal. }
  apply submseteq_cons_r in Hsub as [Hsub|(l' & Hl & Hsub)].
  - etrans; [|exact Hsub]. rewrite Hb. by apply submseteq_inserts_l.
  - assert (Hin : o ∈ offsets (all (PEL g1))).
    { eapply list_elem_of_filter with (P := λ o, o < k). rewrite Hl. left. }
    destruct gone as [|e gone]; [by destruct (Hne Hfile Hown Hin)|].
    rewrite Hb in Hl. cbn [length replicate app] in Hl. apply Permutation_cons_inv in Hl.
    etrans; [|exact Hsub]. rewrite <-Hl. by apply submseteq_inserts_l.
Qed.

(** What is left of a scan covers the entries below the offset. *)
Definition covers (k : Z) (l : list (option PendingEntry)) (gr : ConsumerGroup) : Prop :=
  below k (all (PEL gr)) ⊆+ below k l ∧ committed_of gr <= k <= cursor_of gr.

Lemma stable_covers k l : stable (covers k l).
Proof.
  intros gr gr' [Hs Hc] (_ & (Hc1 & Hc2) & Hp & _). split; [|lia].
  unfold below. by rewrite Hp.
Qed.

Lemma safe_settle_below k entries :
  triple (G q g (λ gr, J gr ∧ covers k entries.*2 gr))
    (settle_below (Env := Env) q g k entries)
    (λ r m, r ≠ Panic ∧ G q g (λ gr, J gr ∧ (r = Ret tt → covers k [] gr)) m).
Proof.
  induction entries as [|[owner [e|]] entries IH]; cbn [settle_below].
  - apply triple_ret. intros m Hm. split; [done|]. eapply G_weaken; [|exact Hm]. by intros gr [??].
  - assert (Hof : offsets ((owner, Some e) :: entries).*2 = Offset e :: offsets entries.*2) by done.
    destruct (Z.leb_spec k (Offset e)) as [Hle|Hlt].
    { eapply triple_pre; [|exact IH]. intros m. apply G_weaken. intros gr [HJ [Hs Hc]]. split; [done|].
      split; [|done]. unfold below in *. rewrite Hof, filter_cons_False in Hs by lia. done. }
    eapply triple_bind.
    { apply (triple_act q g _ _ _ (λ gr, J gr ∧ covers k entries.*2 gr)
        (remove_acts q g owner (Offset e)) (stable_and _ _ stable_J (stable_covers _ _))).
      intros gr gr' [[Hgd Ht] [Hs Hc]] He.
      split; [split; [by eapply good_remove|eapply HT; [done|apply He]]|].
      pose proof He as (_ & (Hc1 & Hc2) & _). split; [|lia].
      eapply below_remove; [exact He|apply Hgd|apply Hgd|done|]. unfold below in Hs at 2.
      by rewrite Hof, filter_cons_True in Hs by lia. }
    intros [u|err|]; [|apply triple_ret; intros m [_ Hm]; split; [done|];
      eapply G_weaken; [|exact Hm]; by intros gr [[??]|[??]]|by intros m []].
    eapply triple_pre; [|exact IH]. by intros m [_ Hm].
  - exact IH.
Qed.

Lemma snapshot_offsets gr : filed (PEL gr) →
  offsets (flat_entries pel_order (SnapPEL (Snapshot gr))).*2 ≡ₚ offsets (all (PEL gr)).
Proof.
  intros Hf. unfold flat_entries.
  assert (Heq : SnapPEL (Snapshot gr) = PEL gr).
  { simpl. apply map_eq. intros c. rewrite lookup_fmap. destruct (PEL gr !! c) as [l|] eqn:El; [|done].
    simpl. f_equal. assert (Hall : Forall is_Some l).
    { apply Forall_forall. intros e He. destruct (Hf c e) as (x & -> & _); [|eauto].
      unfold pel_get. by rewrite El. }
    clear -Hall. induction Hall as [|e l He _ IH]; [done|]. rewrite filter_cons_True by done. by f_equal. }
  rewrite Heq, <-(all_order _ _ (Hpel (PEL gr))). apply reflexive_eq. f_equal.
  induction (pel_order (PEL gr)) as [|[c l] o IH]; [done|]. cbn. rewrite fmap_app, IH. f_equal.
  rewrite <-list_fmap_compose. by apply list_fmap_id.
Qed.

Lemma safe_CommitOffset k :
  triple GJ (CommitOffset (Env := Env) pel_order q g k) (λ r m, r ≠ Panic ∧ GJ m).
Proof.
  unfold CommitOffset. cbv zeta. apply with_group; [apply stable_J| |by intros]. intros x Hq Hg.
  assert (Hfail : ∀ err, triple (G q g (λ gr, J gr ∧ x = gr)) (fail (A := unit) (Env := Env) err)
    (λ r m, r ≠ Panic ∧ GJ m)).
  { intros err. apply triple_ret. intros m Hm. split; [done|by eapply weaken_x]. }
  destruct (is_stream x) eqn:Hst; [|apply Hfail]. apply bool_decide_eq_true in Hst.
  cbn [negb]. destruct (Z.ltb_spec (Cursor (CursorView x)) k) as [|Hcur]; [apply Hfail|].
  destruct (Z.ltb_spec k (Committed (CursorView x))) as [|Hcom]; [apply Hfail|].
  eapply (triple_bind _ _ _
    (λ r m, r ≠ Panic ∧ G q g (λ gr, J gr ∧ (r = Ret tt → covers k [] gr)) m)).
  - destruct (AutoCommitEnabled x) eqn:Ha; cbn [negb].
    + apply triple_ret. intros m (Hm & gr & Hl & HJ & ->). split; [done|]. split; [done|]. exists gr.
      split; [done|]. split; [done|]. intros _. split; [|done].
      destruct HJ as [[[H1 H2 H3 H4 _ H5] _] _]. unfold below. by rewrite (H5 Hst Ha).
    + eapply triple_pre; [|apply safe_settle_below]. intros m. apply G_weaken. intros gr [HJ ->].
      split; [done|]. split; [|done]. unfold below.
      rewrite snapshot_offsets; [done|apply HJ].
  - intros [[]|e|]; [|apply triple_ret; intros m [_ Hm]; split; [done|];
      eapply G_weaken; [|exact Hm]; by intros gr [??]|by intros m []].
    eapply triple_pre; [|apply safe_commit]. intros m [_ Hm]. eapply G_weaken; [|exact Hm].
    intros gr [HJ Hcov]. destruct (Hcov eq_refl) as [Hs Hc]. split; [done|]. split_and!; [lia| |lia].
    intros _ o Ho. destruct (decide (o < k)) as [Hlt|]; [|lia]. exfalso.
    apply submseteq_nil_r in Hs. assert (Hin : o ∈ below k (all (PEL gr))) by (by apply list_elem_of_filter).
    rewrite Hs in Hin. by apply elem_of_nil in Hin.
Qed.

(** Only a stream is advanced this way. *)
Lemma safe_advanceCommittedTo k :
  (∀ gr, T gr → Mode gr = GroupModeStream ∧ (in_order = true → AutoCommit gr = true)) →
  triple GJ (advanceCommittedTo (Env := Env) q g k) (λ r m, r ≠ Panic ∧ GJ m).
Proof.
  intros Hauto. unfold advanceCommittedTo. cbv zeta. apply with_group; [apply stable_J| |by intros]. intros x Hq Hg.
  destruct (Z.ltb_spec (Cursor (CursorView x)) k) as [|Hcur].
  { apply triple_ret. intros m Hm. split; [done|by eapply weaken_x]. }
  destruct (Z.leb_spec k (Committed (CursorView x))) as [|Hcom].
  { apply triple_ret. intros m Hm. split; [done|by eapply weaken_x]. }
  eapply triple_pre; [|apply safe_commit]. intros m. apply G_weaken. intros gr [HJ ->].
  split; [done|]. destruct HJ as [[[H1 H2 H3 H4 _ H5] _] Ht]. destruct (Hauto gr Ht) as [Hm Ha].
  unfold commits, committed_of, cursor_of. split_and!; [lia| |lia].
  intros [Hord|Hq'] o; [|congruence]. rewrite (H5 Hm (Ha Hord)). by intros ?%elem_of_nil.
Qed.

Section tracked_claims.
Context (Htr : ∀ gr, T gr → tracked gr).
Context (consumerID : string) (Hown : consumerID ≠ EmptyString).

Lemma safe_Claim filter :
  triple GJ (Claim (Env := Env) clock cfg pel_order poison_order OnDLQ q g consumerID filter)
    (λ r m, r ≠ Panic ∧ GJ m).
Proof.
  unfold Claim. apply with_group; [apply stable_J| |by intros]. intros x Hq Hg.
  eapply triple_pre; [apply weaken_x|].
  apply (store_bind_inv _ (λ r, r ≠ Panic) _ _ _ (safe_claimFromCursor Htr x Hq Hg _ Hown _)).
  intros [msg|e|] Hr; [apply triple_ret; by intros| |done].
  destruct (negb _); [apply triple_ret; by intros|]. by apply safe_stealWorkFrom.
Qed.

Lemma safe_cursor_batch x filter n : QueueName x = q → ID x = g → ∀ e msgs,
  triple GJ (cursor_batch (Env := Env) clock cfg n x consumerID filter e msgs)
    (λ r m, r.2 ≠ Panic ∧ GJ m).
Proof.
  intros Hq Hg. induction n as [|n IH]; intros e msgs; cbn [cursor_batch];
    [apply triple_ret; by intros|].
  apply (store_bind_inv _ (λ r, r ≠ Panic) _ _ _ (safe_claimFromCursor Htr x Hq Hg _ Hown _)).
  intros [msg|e'|] Hr; [apply IH| |done]. destruct (_ && _); apply triple_ret; by intros.
Qed.

Lemma safe_steal_batch x filter n : QueueName x = q → ID x = g → ∀ msgs,
  triple GJ (steal_batch (Env := Env) clock cfg pel_order poison_order OnDLQ n x consumerID filter msgs)
    (λ r m, r.2 ≠ Panic ∧ GJ m).
Proof.
  intros Hq Hg. induction n as [|n IH]; intros msgs; cbn [steal_batch]; [apply triple_ret; by intros|].
  apply (store_bind_inv _ (λ r, r ≠ Panic) _ _ _ (safe_stealWorkFrom x Hq Hg _ Hown _ _ _)).
  intros [msg|e'|] Hr; [apply IH| |done]. destruct (negb _); apply triple_ret; by intros.
Qed.

Lemma safe_ClaimBatch filter limit :
  triple GJ (ClaimBatch (Env := Env) clock cfg pel_order poison_order OnDLQ q g consumerID filter limit)
    (λ r m, r.2 ≠ Panic ∧ GJ m).
Proof.
  unfold ClaimBatch. cbv zeta. apply bind_group; [apply stable_J| |intros e; apply triple_ret; by intros].
  intros x Hq Hg. eapply triple_pre; [apply weaken_x|].
  apply (store_bind_inv _ (λ r, r.2 ≠ Panic) _ _ _ (safe_cursor_batch x filter _ Hq Hg _ _)).
  intros [msgs [e|e|]] Hr; cbn in Hr; [|apply triple_ret; by intros|done].
  apply (store_bind_inv _ (λ r, r.2 ≠ Panic) _ _ _ (safe_steal_batch x filter _ Hq Hg _)).
  intros [msgs' [u|e'|]] Hr'; cbn in Hr'; [|apply triple_ret; by intros|done].
  destruct (_ =? _)%nat; apply triple_ret; by intros.
Qed.

End tracked_claims.
End group.

(** ** Operations on the group object *)

Section pointer.
Context (q g : string).

(** A method through the pointer of a stream's group. *)
Lemma assign_stream (P Q : ConsumerGroup → Prop) x f : QueueName x = q → ID x = g → method f →
  (∀ gr gr', P gr → Mode gr' = Mode gr → AutoCommit gr' = AutoCommit (f gr) →
     same_positions (f gr) gr' → same_pending (f gr) gr' → Q gr') →
  triple (G q g (λ gr, Mode gr = GroupModeStream ∧ P gr)) (assign (Env := Env) x f)
    (λ _, G q g (λ gr, Mode gr = GroupModeStream ∧ Q gr)).
Proof.
  intros Hq Hg Hf HQ m (Ha & gr & Hl & Hm & HP). simpl. rewrite Hq, Hg.
  destruct (through_acts q g f (store m) gr (proj1 Ha) Hl Hf)
    as (Hv & _ & Ho & gr' & Hl' & _ & _ & Hm' & Hau & Hs & _).
  split; [by eapply around_step|]. exists gr'. split; [done|]. split; [congruence|].
  destruct (Hs Hm). by eapply HQ.
Qed.

(** A method that leaves positions and entries alone, in any mode. *)
Lemma assign_rest P x f : QueueName x = q → ID x = g → method f →
  (∀ gr, GCursor (f gr) = GCursor gr ∧ PEL (f gr) = PEL gr) →
  (∀ gr gr', P gr → ID gr' = ID gr → QueueName gr' = QueueName gr → Mode gr' = Mode gr →
     AutoCommit gr' = AutoCommit (f gr) → same_positions gr gr' → same_pending gr gr' → P gr') →
  triple (G q g P) (assign (Env := Env) x f) (λ _, G q g P).
Proof.
  intros Hq Hg Hf Hsame HP m (Ha & gr & Hl & Hgr). simpl. rewrite Hq, Hg.
  destruct (through_acts q g f (store m) gr (proj1 Ha) Hl Hf)
    as (Hv & _ & Ho & gr' & Hl' & Hid & Hqn & Hm' & Hau & Hs & Hn).
  split; [by eapply around_step|]. exists gr'. split; [done|].
  destruct (Hsame gr) as [Hc Hp].
  assert (Hpos : same_positions (f gr) gr' → same_positions gr gr').
  { unfold same_positions, cursor_of, committed_of, CursorView. by rewrite Hc. }
  assert (Hpen : same_pending (f gr) gr' → same_pending gr gr') by (unfold same_pending; by rewrite Hp).
  destruct (decide (Mode gr = GroupModeStream)) as [Hd|Hd];
    [destruct (Hs Hd)|destruct (Hn Hd Hsame)]; eapply HP; eauto.
Qed.

(** Methods that change the commit flag, the committed position or the members. *)
Lemma method_SetAutoCommit auto t : method (SetAutoCommit auto t).
Proof. by split. Qed.
Lemma method_SetCommitted k t : method (SetCommitted k t).
Proof. by split. Qed.

Lemma good_rest g0 gr gr' : good g0 gr → Mode gr' = Mode gr → AutoCommit gr' = AutoCommit gr →
  same_positions gr gr' → same_pending gr gr' → good g0 gr'.
Proof.
  intros (Hi & Hm & Hk & Hc) Hm' Ha (Hc' & Hk') [Hp Hf]. pose proof Hi as [H1 H2 H3 H4 H6 H5].
  split_and!; [|congruence|lia|lia].
  split; unfold ordered; rewrite ?Hm', ?Ha, ?Hc', ?Hk'; [by apply Hf|done|done| |by eapply owned_perm|].
  - intros o. rewrite (offsets_perm _ _ Hp). apply H4.
  - intros Hs Hau. apply Permutation_nil. by rewrite <-(H5 Hs Hau), Hp.
Qed.

Lemma update_group g0 y :
  triple (G q g (λ gr, good g0 gr ∧ y = gr)) (on_store (Env := Env) (UpdateConsumerGroup y))
    (λ r m, r ≠ Panic ∧ G q g (good g0) m).
Proof.
  intros m (Ha & gr & Hl & Hgd & ->). destruct (live_names _ _ _ _ (proj1 Ha) Hl) as (Hq' & Hg' & _).
  assert (Hl0 : live (QueueName gr) (ID gr) (store m) = Some gr) by (by rewrite Hq', Hg').
  destruct (update_acts gr (store m) (proj1 Ha) Hl0) as (Hv & _ & Hn & Ho & gr' & Hl' & He).
  unfold on_store. rewrite Hq', Hg' in Hl', Ho.
  destruct (UpdateConsumerGroup gr (store m)) as [r s']. simpl in *.
  split; [done|]. split; [by eapply around_step|]. exists gr'. split; [done|]. by eapply stable_good.
Qed.

Lemma update_and_return g0 x (b : bool) : QueueName x = q → ID x = g →
  triple (G q g (good g0))
    (g ← deref (Env := Env) x;
     try_bind (on_store (UpdateConsumerGroup g)) (λ _, g ← deref x; ret (g, b)))
    (λ r m, r ≠ Panic ∧ G q g (good g0) m).
Proof.
  intros Hq Hg. eapply triple_bind; [by apply triple_deref|]. intros y.
  apply (store_bind_inv _ (λ r, r ≠ Panic) _ _ _ (update_group g0 y)).
  intros [u|e|] Hr; [|apply triple_ret; by intros|done].
  apply bind_keep; [apply store_deref|]. intros z. apply triple_ret; by intros.
Qed.

(** Between the writes of [applyAutoCommitLocked] on a stream: all is committed. *)
Definition caught_up (g0 : ConsumerGroup) (auto : bool) (gr : ConsumerGroup) : Prop :=
  filed (PEL gr) ∧ committed_of gr = cursor_of gr ∧ Mode g0 = GroupModeStream ∧
  0 <= cursor_of gr ∧ committed_of g0 <= cursor_of gr ∧ cursor_of g0 <= cursor_of gr ∧
  owned (all (PEL gr)) ∧
  (auto = false → offsets (all (PEL gr)) = []).

Lemma caught_up_same g0 auto gr gr' : caught_up g0 auto gr → same_positions gr gr' →
  same_pending gr gr' → caught_up g0 auto gr'.
Proof.
  intros (H1 & H2 & H3 & H4 & H5 & H6 & Ho & H7) (Hc & Hk) [Hp Hf].
  split_and!; [by apply Hf|congruence|done|lia|lia|lia|by eapply owned_perm|].
  intros Ha. apply Permutation_nil. by rewrite <-(H7 Ha), Hp.
Qed.

Lemma caught_up_good g0 gr : Mode gr = GroupModeStream → caught_up g0 false gr → good g0 gr.
Proof.
  intros Hm (H1 & H2 & H3 & H4 & H5 & H6 & Ho & H7). specialize (H7 eq_refl).
  split_and!; [|congruence|lia|lia]. split; [done|by right|lia| |done|done].
  intros o. rewrite H7. by intros ?%elem_of_nil.
Qed.

Lemma clear_pending t gr : all (PEL (ClearPending t gr).2) = [] ∧
  GCursor (ClearPending t gr).2 = GCursor gr ∧ (filed (PEL gr) → filed (PEL (ClearPending t gr).2)).
Proof.
  unfold ClearPending. cbv zeta. destruct (Z.eqb_spec (PendingCount gr) 0) as [H0|H0]; cbn [snd].
  - rewrite PendingCount_all in H0. by destruct (all (PEL gr)).
  - split_and!; [done|done|]. intros _ c e He. by apply elem_of_nil in He.
Qed.

Lemma method_ClearPending t : method (λ g, (ClearPending t g).2).
Proof.
  split; [intros x|intros x y|intros x; apply clear_pending|intros x _; apply clear_pending];
    unfold ClearPending; cbv zeta; repeat destruct (_ =? 0); done.
Qed.

(** The three writes. *)
Lemma apply_committed g0 x y auto : QueueName x = q → ID x = g → Mode y = GroupModeStream →
  triple (G q g (λ gr, (good g0 gr ∧ (Mode gr = GroupModeStream → AutoCommit gr ≠ auto)) ∧ y = gr))
    (when (Committed (CursorView y) <? Cursor (CursorView y))
       (t ← time_Now (Env := Env) clock; assign x (SetCommitted (Cursor (CursorView y)) t)))
    (λ _, G q g (λ gr, Mode gr = GroupModeStream ∧ caught_up g0 auto gr)).
Proof.
  intros Hq Hg Hst.
  assert (Hnil : ∀ gr, Inv gr → Mode gr = GroupModeStream → AutoCommit gr ≠ auto → auto = false →
    offsets (all (PEL gr)) = []).
  { intros gr [_ _ _ _ _ H5] Hm Ha ->. apply H5; [done|]. by destruct (AutoCommit gr). }
  destruct (Z.ltb_spec (Committed (CursorView y)) (Cursor (CursorView y))) as [Hlt|Hge]; cbn [when].
  - apply bind_keep; [apply store_now|]. intros t.
    eapply triple_pre; [|apply (assign_stream
      (λ gr, (good g0 gr ∧ AutoCommit gr ≠ auto) ∧ Mode gr = GroupModeStream ∧ y = gr));
      [done|done|apply method_SetCommitted|]].
    { intros m. apply G_weaken. intros gr [[Hgd Ha] ->]. auto. }
    intros gr gr' [[(Hi & Hm & Hk & Hc) Ha] [Hs ->]] _ _ (Hc' & Hk') [Hp Hf].
    pose proof Hi as [H1 _ H3 _ H6 _].
    change (cursor_of (SetCommitted (Cursor (CursorView gr)) t gr)) with (cursor_of gr) in Hc'.
    change (committed_of (SetCommitted (Cursor (CursorView gr)) t gr)) with (cursor_of gr) in Hk'.
    change (PEL (SetCommitted (Cursor (CursorView gr)) t gr)) with (PEL gr) in *.
    split_and!; [by apply Hf|congruence|congruence|lia|lia|lia|by eapply owned_perm|].
    intros Hau. apply Permutation_nil. by rewrite <-(Hnil gr Hi Hs Ha Hau), Hp.
  - apply triple_ret. intros m. apply G_weaken. intros gr [[(Hi & Hm & Hk & Hc) Ha] ->].
    pose proof Hi as [H1 _ H3 _ H6 _]. unfold committed_of, cursor_of in *.
    split; [done|]. split_and!; [done|unfold committed_of, cursor_of; lia|congruence| | | |done|].
    4: by intros Hau; apply Hnil; auto.
    all: unfold committed_of, cursor_of; lia.
Qed.

Lemma apply_clear g0 x auto : QueueName x = q → ID x = g →
  triple (G q g (λ gr, Mode gr = GroupModeStream ∧ caught_up g0 auto gr))
    (when auto (t ← time_Now (Env := Env) clock; assign x (λ g, (ClearPending t g).2)))
    (λ _, G q g (λ gr, Mode gr = GroupModeStream ∧ caught_up g0 false gr)).
Proof.
  intros Hq Hg. destruct auto; [|by apply triple_ret]. cbn [when].
  apply bind_keep; [apply store_now|]. intros t.
  apply assign_stream; [done..|apply method_ClearPending|].
  intros gr gr' (H1 & H2 & H3 & H4 & H5 & H6 & Ho & H7) _ _ (Hc & Hk) [Hp Hf].
  destruct (clear_pending t gr) as (Hnil & Hcur & Hfiled).
  unfold cursor_of, committed_of, CursorView in Hc, Hk. rewrite Hcur in Hc, Hk.
  change (cursor_of gr' = cursor_of gr) in Hc. change (committed_of gr' = committed_of gr) in Hk.
  rewrite Hnil in Hp. assert (Hn' : all (PEL gr') = []) by (by apply Permutation_nil).
  split_and!; [by apply Hf, Hfiled|congruence|done|lia|lia|lia| |by rewrite Hn'].
  intros e. rewrite Hn'. by intros ?%elem_of_nil.
Qed.

(** Changing who commits: a stream gives up its pending entries, or had none. *)
Lemma safe_applyAutoCommit g0 x auto : QueueName x = q → ID x = g →
  triple (G q g (λ gr, good g0 gr ∧ (Mode gr = GroupModeStream → AutoCommit gr ≠ auto)))
    (applyAutoCommitLocked (Env := Env) clock x auto) (λ _, G q g (good g0)).
Proof.
  intros Hq Hg. unfold applyAutoCommitLocked.
  eapply triple_bind; [by apply triple_deref|]. intros y. destruct (is_stream y) eqn:Hst; cbn [negb].
  - apply bool_decide_eq_true in Hst. cbv zeta.
    eapply triple_bind; [by apply apply_committed|]. intros ?.
    eapply triple_bind; [by apply apply_clear|]. intros ?.
    apply bind_keep; [apply store_now|]. intros t.
    eapply triple_conseq; [apply (assign_stream (caught_up g0 false) (caught_up g0 false) x
      (SetAutoCommit auto t) Hq Hg (method_SetAutoCommit _ _))|done|].
    + intros gr gr' Hcu _ _ Hpos Hpen. eapply caught_up_same; [exact Hcu|exact Hpos|exact Hpen].
    + intros ? m. apply G_weaken. intros gr [??]. by apply caught_up_good.
  - apply bool_decide_eq_false in Hst. apply bind_keep; [apply store_now|]. intros t.
    eapply triple_conseq; [apply (assign_rest (λ gr, good g0 gr ∧ Mode gr ≠ GroupModeStream) x
      (SetAutoCommit auto t) Hq Hg (method_SetAutoCommit _ _)); [done|]| |].
    + intros gr gr' [(Hi & Hm & Hk & Hc) Hn] _ _ Hm' _ (Hc' & Hk') [Hp Hf].
      pose proof Hi as [H1 H2 H3 H4 H6 H5]. split; [|congruence]. split_and!; [|congruence|lia|lia].
      split; unfold ordered; rewrite ?Hm', ?Hc', ?Hk'; [by apply Hf|done|done| |by eapply owned_perm|done].
      intros o. rewrite (offsets_perm _ _ Hp). apply H4.
    + intros m. apply G_weaken. by intros gr [[? _] ->].
    + intros ? m. apply G_weaken. by intros gr [??].
Qed.

Lemma create_present g0 gr : QueueName gr = q → ID gr = g → PEL gr = ∅ → cursor_of gr = 0 →
  committed_of gr = 0 → Mode gr = GroupModeQueue ∨ Mode gr = GroupModeStream →
  triple (G q g (good g0)) (on_store (Env := Env) (CreateConsumerGroup gr))
    (λ r m, r ≠ Panic ∧ G q g (good g0) m).
Proof.
  intros Hq Hg Hp Hc Hk Hmode m (Ha & x & Hl & Hgd).
  destruct (create_acts gr (store m) (proj1 Ha) Hp Hc Hk Hmode) as (Hv & _ & Hn & Ho & Hnew).
  rewrite Hq, Hg in Hnew, Ho.
  unfold on_store. destruct (CreateConsumerGroup gr (store m)) as [r s']. simpl in *.
  split; [done|]. split; [by eapply around_step|]. exists x. split; [|done].
  destruct Hnew as [Heq|[Hnone _]]; [exact (eq_trans Heq Hl)|congruence].
Qed.

(** The modes a caller asks for: none, or one of the two. *)
Definition known_mode (mode : ConsumerGroupMode) : Prop :=
  mode_unset mode = true ∨ mode = GroupModeQueue ∨ mode = GroupModeStream.

Lemma known_new_mode pattern mode t t' auto : known_mode mode →
  let gr := SetAutoCommit auto t' (if mode_unset mode then NewConsumerGroupState q g pattern t
                                   else set_Mode mode (NewConsumerGroupState q g pattern t)) in
  Mode gr = GroupModeQueue ∨ Mode gr = GroupModeStream.
Proof. intros [-> |Hm]; [by left|]. simpl. by destruct (mode_unset mode); [left|]. Qed.

Lemma safe_getOrCreateGroup g0 pattern mode auto configure : known_mode mode →
  triple (G q g (good g0)) (getOrCreateGroup (Env := Env) clock q g pattern mode auto configure)
    (λ r m, r ≠ Panic ∧ G q g (good g0) m).
Proof.
  intros Hmode. unfold getOrCreateGroup. apply bind_group; [apply stable_good|..].
  - intros x Hq Hg.
    assert (Hback : ∀ m, G q g (λ gr, good g0 gr ∧ x = gr) m → G q g (good g0) m).
    { intros m. apply G_weaken. by intros gr []. }
    destruct (mode_unset (Mode x)) eqn:Hu.
    { intros m (_ & gr & Hl & ([_ [Hm|Hm] _ _ _ _] & _) & ->); unfold mode_unset in Hu; by rewrite Hm in Hu. }
    rewrite andb_false_r. destruct (_ && _); [apply triple_ret; auto|].
    destruct (configure && _) eqn:Ec; [|apply triple_ret; auto].
    apply andb_true_iff in Ec as [_ Hne%negb_true_iff].
    eapply triple_bind; [|intros ?; by apply update_and_return].
    eapply triple_pre; [|by apply safe_applyAutoCommit]. intros m. apply G_weaken.
    intros gr [Hgd ->]. split; [done|]. intros _ Ha. unfold AutoCommitEnabled in Hne.
    rewrite Ha in Hne. by destruct auto.
  - intros e. destruct (_ && _); [apply triple_ret; by intros|].
    apply bind_keep; [apply store_now|]. intros t. cbv zeta.
    apply bind_keep; [apply store_now|]. intros t'.
    apply (store_bind_inv _ (λ r, r ≠ Panic) (I' := G q g (good g0))).
    { apply create_present; [by destruct (mode_unset mode)..|by apply known_new_mode]. }
    intros [u|e'|] Hr; [apply triple_ret; by intros| |done].
    destruct (errors_Is e' [ErrConsumerGroupExists]); [|apply triple_ret; by intros].
    apply with_group; [apply stable_good| |by intros]. intros x _ _. apply triple_ret. intros m Hm.
    split; [done|]. eapply G_weaken; [|exact Hm]. by intros gr [].
Qed.

Lemma safe_same g0 op : acts q g eff_same op →
  triple (G q g (good g0)) (on_store (Env := Env) op) (λ r m, r ≠ Panic ∧ G q g (good g0) m).
Proof.
  intros Hop. eapply triple_conseq;
    [apply (triple_act q g _ op (good g0) (good g0) Hop (stable_good g0)); apply stable_good|done|].
  intros r m [Hr Hm]. split; [done|]. eapply G_weaken; [|exact Hm]. intros gr. by destruct r; intuition.
Qed.

Lemma safe_registerConsumer g0 c client proxy :
  triple (G q g (good g0)) (registerConsumer (Env := Env) clock q g c client proxy)
    (λ r m, r ≠ Panic ∧ G q g (good g0) m).
Proof.
  unfold registerConsumer. apply bind_keep; [apply store_now|]. intros t.
  apply bind_keep; [apply store_now|]. intros t'. apply safe_same, register_acts.
Qed.

Lemma safe_unregisterConsumer g0 c :
  triple (G q g (good g0)) (unregisterConsumer (Env := Env) q g c)
    (λ r m, r ≠ Panic ∧ G q g (good g0) m).
Proof. apply safe_same, unregister_acts. Qed.

Definition on_members (f : ConsumerGroup → ConsumerGroup) : Prop :=
  ∀ gr, f gr = gr ∨ ∃ c t, f gr = with_Consumers c t gr.

Lemma method_members f : on_members f → method f.
Proof.
  intros Hf. assert (Hrest : ∀ gr, ID (f gr) = ID gr ∧ QueueName (f gr) = QueueName gr ∧
    Mode (f gr) = Mode gr ∧ AutoCommit (f gr) = AutoCommit gr ∧ PEL (f gr) = PEL gr).
  { intros gr. by destruct (Hf gr) as [-> |(c & t & ->)]. }
  split; [intros y|intros y z|intros y|intros y];
    destruct (Hrest y) as (?&?&?&Hy&Hp); [done| |by rewrite Hp..].
  destruct (Hrest z) as (?&?&?&Hz&?). congruence.
Qed.
Lemma members_Touch c t t' : on_members (λ g, (TouchConsumer c t t' g).2).
Proof. intros gr. unfold TouchConsumer. destruct (GetConsumer c gr); eauto. Qed.
Lemma members_Delete c t : on_members (DeleteConsumer c t).
Proof. intros gr. right. unfold DeleteConsumer. eauto. Qed.

Lemma safe_assign_members g0 x f : QueueName x = q → ID x = g → on_members f →
  triple (G q g (good g0)) (assign (Env := Env) x f) (λ _, G q g (good g0)).
Proof.
  intros Hq Hg Hf. apply assign_rest; [done|done|by apply method_members| |].
  - intros gr. by destruct (Hf gr) as [-> |(c & t & ->)].
  - intros gr gr' Hgd _ _ Hm Ha Hpos Hpen. eapply good_rest; [exact Hgd|done| |done..].
    rewrite Ha. by destruct (Hf gr) as [-> |(c & t & ->)].
Qed.

Lemma safe_UpdateHeartbeat g0 c :
  triple (G q g (good g0)) (UpdateHeartbeat (Env := Env) clock cfg q g c)
    (λ r m, r ≠ Panic ∧ G q g (good g0) m).
Proof.
  unfold UpdateHeartbeat. apply with_group; [apply stable_good| |by intros]. intros x Hq Hg.
  eapply (triple_pre (G q g (good g0))); [intros m; apply G_weaken; by intros gr []|].
  apply bind_keep; [apply store_now|]. intros t.
  destruct (GetConsumer c x) as [i|]; [|apply triple_ret; by intros].
  destruct (_ && _); [apply triple_ret; by intros|].
  apply bind_keep; [apply store_now|]. intros t'.
  eapply triple_bind; [by apply safe_assign_members, members_Touch|]. intros ?. destruct (TouchConsumer c t t' x).1; [|apply triple_ret; by intros].
  apply safe_same, register_acts.
Qed.

Lemma safe_CleanupStaleConsumers g0 timeout :
  triple (G q g (good g0)) (CleanupStaleConsumers (Env := Env) clock consumer_order q g timeout)
    (λ _, G q g (good g0)).
Proof.
  unfold CleanupStaleConsumers. apply with_group; [apply stable_good| |by intros]. intros x Hq Hg.
  eapply (triple_pre (G q g (good g0))); [intros m; apply G_weaken; by intros gr []|].
  apply bind_keep; [apply store_now|]. intros t.
  destruct (stale_consumers _ _) as [removed|e|]; [|by apply triple_ret..].
  eapply triple_bind.
  { apply triple_for_each. intros id _. apply bind_keep; [apply store_now|]. intros t'.
    by apply safe_assign_members, members_Delete. }
  intros ?. apply (store_bind_inv _ (λ r, r ≠ Panic) (I' := G q g (good g0))).
  - destruct (_ =? _)%nat; [apply triple_ret; by intros|].
    eapply triple_bind; [by apply triple_deref|]. intros y. apply update_group.
  - intros [u|e|] Hr; [by apply triple_ret..|done].
Qed.

End pointer.

Lemma safe_ClaimManualStream q g g0 T consumerID filter : consumerID ≠ EmptyString →
  (∀ gr gr', T gr → frame gr gr' → T gr') →
  triple (G q g (J g0 T)) (ClaimManualStream (Env := Env) clock cfg pel_order poison_order OnDLQ q g
    consumerID filter) (λ r m, r ≠ Panic ∧ G q g (J g0 T) m).
Proof.
  intros Hown HT. set (T' := λ gr, T gr ∧ tracked gr).
  assert (HT' : ∀ gr gr', T' gr → frame gr gr' → T' gr').
  { intros gr gr' [Ht Htr] Hf. split; [by eapply HT|]. destruct Hf as (_ & _ & Hm & Ha).
    unfold tracked in *. by rewrite Hm, Ha. }
  unfold ClaimManualStream. apply with_group; [by apply stable_J| |by intros]. intros x Hq Hg.
  destruct (_ || _) eqn:E.
  { apply triple_ret. intros m Hm. split; [done|]. by eapply weaken_x. }
  apply orb_false_iff in E as [_ Hauto].
  eapply (triple_conseq (G q g (J g0 T')) _ _ (λ r m, r ≠ Panic ∧ G q g (J g0 T') m)).
  - destruct (0 <? _); [by apply safe_stealWorkFrom|].
    apply (store_bind_inv _ (λ r, r ≠ Panic) _ _ _ (safe_stealWorkFrom q g g0 T' HT' x Hq Hg _ Hown _ _ _)).
    intros [msg|e|] Hr; [apply triple_ret; by intros| |done].
    destruct (negb _); [apply triple_ret; by intros|]. apply safe_claimFromCursor; [done| |done..].
    by intros gr [_ ?].
  - intros m Hm. eapply G_weaken; [|exact Hm]. intros gr [[Hgd Ht] ->]. split; [done|].
    split; [done|]. by right.
  - intros r m [Hr Hm]. split; [done|]. eapply G_weaken; [|exact Hm]. intros gr [? [? _]]. by split.
Qed.

End manager.
End ManagerFacts.
