(* ===== verification/ConsumerSafety.v ===== *)
(** * Interleavings of the consumer manager

    Every operation of the manager touches the group it names and no other.
    The operations, in any order, on any groups, with writes that fail or half
    succeed and a log that grows and is truncated meanwhile, form the step
    relation [mstep]; the halves of a dead-letter transfer are separate steps,
    as the lock is free while the handler runs.  Each operation runs under the
    lock of its group.  The writes that go past the manager to the stores
    without that lock ([rejectStream] of record_core.go) are not steps.

    Theorems: the committed position of a group never moves back, in every run,
    and that of a queue never passes a delivery that is still pending; that of a
    stream can only where [AdvanceCommitted] comes after the stream has stopped
    to commit on delivery. *)

From Stdlib Require Import ZArith Lia Bool Ascii String.
From stdpp Require Import prelude gmap strings sorting.
From S2P Require Import Prelude State GoStrings ConsumerGroup ConsumerFilter QueueErrors.
From S2P Require Import GroupStore ConsumerManager ConsumerManagerFacts.

Import Group GroupFacts.

Module ManagerSafety.
Import Manager ManagerFacts.

Section manager.
Context {St Env : Type} `{GS : GroupStore St Env} `{!GroupStoreLaws St Env} {regime : Regime}.
Context (clock : nat → Z) (cfg : Config).
Context (pel_order : pel → list (string * list (option PendingEntry))).
Context (Hpel : ∀ p, pel_order p ≡ₚ map_to_list p).
Context (consumer_order : gmap string (option ConsumerInfo) → list (string * option ConsumerInfo)).
Context (poison_order : gmap Z poisonState → list (Z * poisonState)).
Context (OnDLQ : option (DLQHandler (St := St) (Env := Env))) (DLQUnavailable : option (QErr → bool)).

Notation Mgr := (Manager St Env).
Notation M := (state (Manager St Env)).

(** ** Other groups *)

Section frames.
Context (base : Mgr) (q g : string).

(** The stores stay valid and the other groups those of the start. *)
Definition others (m m' : Mgr) : Prop :=
  around base q g (store m) → around base q g (store m').

#[local] Instance others_preorder : PreOrder others.
Proof. split; [by intros m H|]. intros m1 m2 m3 H1 H2 H. by apply H2, H1. Qed.

Lemma others_same {A} (m : M A) : keeps (same store) m → keeps others m.
Proof. apply keeps_weaken. intros s s' H Ha. by rewrite H. Qed.

Lemma others_acts eff op : acts q g eff op → keeps others (on_store (Env := Env) op).
Proof.
  intros H m Ha. unfold on_store. destruct (H (store m) (proj1 Ha)) as (Hv & _ & Ho & _).
  destruct (op (store m)). by eapply around_step.
Qed.

Lemma others_group {B} (k : outcome QErr ConsumerGroup → M B) :
  (∀ x, QueueName x = q → ID x = g → keeps others (k (Ret x))) →
  (∀ e, keeps others (k (Fail e))) → keeps others (getGroup q g ≫= k).
Proof.
  intros Hr Hf m Ha. rewrite M_bind_eq. unfold getGroup, on_store.
  destruct (get_acts q g (store m) (proj1 Ha)) as (Hv & _ & Ho & Hn & Hx).
  destruct (GetConsumerGroup q g (store m)) as [r s']. simpl in *.
  assert (Ha' : around base q g s') by (by eapply around_step).
  destruct r as [x|e|]; [|by apply Hf|done].
  destruct (live q g (store m)) as [gr0|] eqn:El; [|destruct Hx as [_ Hx]; by destruct (Hx x)].
  destruct Hx as (t & Hl' & Hx). specialize (Hx x eq_refl) as ->.
  destruct (live_names _ _ _ _ Hv Hl') as (? & ? & _). by apply Hr.
Qed.

(** Take the code apart; leave the calls that are not the tactic's. *)
Ltac frames := repeat first
  [ match goal with
    | |- keeps _ (getGroup _ _ ≫= _) => apply others_group; [intros ? ? ?|intros ?]
    | |- keeps _ (try_bind _ _) => unfold try_bind
    | |- keeps _ (fail _) => unfold fail
    | |- keeps _ (ret _) => unfold ret
    | |- keeps _ (on_store _) => eapply others_acts; first
        [ apply add_acts | apply remove_acts | apply transfer_acts | apply requeue_acts
        | apply cursor_acts | apply commit_acts | apply register_acts | apply unregister_acts ]
    end
  | state_step
  | apply others_same; first
      [ apply store_release | apply store_releases | apply store_now | apply store_read
      | apply store_peek | apply store_deref | apply store_expired | apply store_transferring
      | apply store_begin | apply store_end | apply store_forget | apply store_schedule
      | apply store_report | apply store_defer | apply store_prune | apply store_autoCommitDue
      | apply store_scanStart | by apply store_modify ]
  | by eauto ].


Lemma others_claim_record x c o n msg : QueueName x = q → ID x = g →
  keeps others (claim_record (Env := Env) clock x c o n msg).
Proof. intros Hq Hg. unfold claim_record. rewrite Hq, Hg. frames. Qed.

Lemma others_claim_scan x c f tail fuel : QueueName x = q → ID x = g → ∀ cursor,
  keeps others (claim_scan (Env := Env) clock fuel x c f tail cursor).
Proof.
  intros Hq Hg. induction fuel as [|fuel IH]; intros cursor; cbn [claim_scan]; cbv zeta; frames.
  by apply others_claim_record.
Qed.

Lemma others_claimFromCursor x c f : QueueName x = q → ID x = g →
  keeps others (claimFromCursor (Env := Env) clock cfg x c f).
Proof.
  intros Hq Hg. unfold claimFromCursor. rewrite Hq, Hg. frames. by apply others_claim_scan.
Qed.

Lemma others_steal_loop x c f own lapsed entries : QueueName x = q → ID x = g →
  keeps others (steal_loop (Env := Env) clock cfg OnDLQ x c f own lapsed entries).
Proof.
  intros Hq Hg. induction entries as [|e entries IH]; cbn [steal_loop]; cbv zeta; rewrite ?Hq, ?Hg; frames.
Qed.

Lemma others_stealWorkFrom x c f ex own : QueueName x = q → ID x = g →
  keeps others (stealWorkFrom (Env := Env) clock cfg pel_order poison_order OnDLQ x c f ex own).
Proof. intros Hq Hg. unfold stealWorkFrom. frames. all: by apply others_steal_loop. Qed.

#[local] Hint Resolve others_claimFromCursor others_stealWorkFrom : core.

Lemma others_Claim c f :
  keeps others (Claim (Env := Env) clock cfg pel_order poison_order OnDLQ q g c f).
Proof. unfold Claim, stealWork. frames. Qed.

Lemma others_cursor_batch x c f n : QueueName x = q → ID x = g → ∀ e msgs,
  keeps others (cursor_batch (Env := Env) clock cfg n x c f e msgs).
Proof. intros Hq Hg. induction n as [|n IH]; intros e msgs; cbn [cursor_batch]; frames. Qed.

Lemma others_steal_batch x c f n : QueueName x = q → ID x = g → ∀ msgs,
  keeps others (steal_batch (Env := Env) clock cfg pel_order poison_order OnDLQ n x c f msgs).
Proof.
  intros Hq Hg. induction n as [|n IH]; intros msgs; cbn [steal_batch]; unfold stealWork; frames.
Qed.
#[local] Hint Resolve others_cursor_batch others_steal_batch : core.

Lemma others_ClaimBatch c f limit :
  keeps others (ClaimBatch (Env := Env) clock cfg pel_order poison_order OnDLQ q g c f limit).
Proof. unfold ClaimBatch. cbv zeta. frames. Qed.

Lemma others_ClaimManualStream c f :
  keeps others (ClaimManualStream (Env := Env) clock cfg pel_order poison_order OnDLQ q g c f).
Proof. unfold ClaimManualStream, stealWork. frames. Qed.

Lemma others_claim_pending c entries : ∀ msgs,
  keeps others (claim_pending (Env := Env) clock q g c entries msgs).
Proof. induction entries as [|e entries IH]; intros msgs; cbn [claim_pending]; cbv zeta; frames. Qed.
#[local] Hint Resolve others_claim_pending : core.

Lemma others_ClaimPendingBatch c minIdle limit :
  keeps others (ClaimPendingBatch (Env := Env) clock cfg pel_order q g c minIdle limit).
Proof. unfold ClaimPendingBatch. cbv zeta. frames. Qed.

Lemma others_updateStreamCursorLocked x k : QueueName x = q → ID x = g →
  keeps others (updateStreamCursorLocked (Env := Env) clock cfg x k).
Proof. intros Hq Hg. unfold updateStreamCursorLocked. rewrite Hq, Hg. frames. Qed.
#[local] Hint Resolve others_updateStreamCursorLocked : core.

Lemma others_peek_scan x f limit tail fuel : ∀ c msgs,
  keeps others (peek_scan (Env := Env) clock fuel x f limit tail c msgs).
Proof. induction fuel as [|fuel IH]; intros c msgs; cbn [peek_scan]; cbv zeta; frames. Qed.
#[local] Hint Resolve others_peek_scan : core.

Lemma others_peekBatchStreamLocked x f limit : QueueName x = q → ID x = g →
  keeps others (peekBatchStreamLocked (Env := Env) clock cfg x f limit).
Proof. intros Hq Hg. unfold peekBatchStreamLocked. cbv zeta. frames. Qed.
#[local] Hint Resolve others_peekBatchStreamLocked : core.

Lemma others_ClaimBatchStream c f limit :
  keeps others (ClaimBatchStream (Env := Env) clock cfg q g c f limit).
Proof. unfold ClaimBatchStream. frames. Qed.
Lemma others_PeekBatchStream f limit :
  keeps others (PeekBatchStream (Env := Env) clock cfg q g f limit).
Proof. unfold PeekBatchStream. frames. Qed.
Lemma others_CommitStreamCursor k :
  keeps others (CommitStreamCursor (Env := Env) clock cfg q g k).
Proof. unfold CommitStreamCursor. frames. Qed.

Lemma others_advanceCommitted x : QueueName x = q → ID x = g →
  keeps others (advanceCommitted (Env := Env) pel_order x).
Proof. intros Hq Hg. unfold advanceCommitted. rewrite Hq, Hg. frames. Qed.
#[local] Hint Resolve others_advanceCommitted : core.

Lemma others_Ack c o : keeps others (Ack (Env := Env) pel_order q g c o).
Proof. unfold Ack. frames. Qed.
Lemma others_NackWithDelay c o d :
  keeps others (NackWithDelay (Env := Env) clock cfg pel_order q g c o d).
Proof. unfold NackWithDelay. cbv zeta. frames. Qed.
Lemma others_prepareTransfer o c :
  keeps others (prepareTransfer (Env := Env) pel_order OnDLQ (mkTransferKey q g o) c).
Proof. unfold prepareTransfer. simpl. frames. Qed.
Lemma others_finishTransfer o c e :
  keeps others (finishTransfer (Env := Env) pel_order (mkTransferKey q g o) c e).
Proof. unfold finishTransfer. simpl. frames. Qed.
Lemma others_preparePoisonTransfer o :
  keeps others (preparePoisonTransfer (Env := Env) clock cfg pel_order (mkTransferKey q g o)).
Proof. unfold preparePoisonTransfer. simpl. frames. Qed.
Lemma others_finishPoisonTransfer o x e err :
  keeps others (finishPoisonTransfer (Env := Env) clock cfg DLQUnavailable
    (mkTransferKey q g o) x e err).
Proof. unfold finishPoisonTransfer, clearDLQRetry. simpl. frames. Qed.

Lemma others_settle_below k entries : keeps others (settle_below (Env := Env) q g k entries).
Proof. induction entries as [|[o [e|]] entries IH]; cbn [settle_below]; frames. Qed.
#[local] Hint Resolve others_settle_below : core.
Lemma others_CommitOffset k : keeps others (CommitOffset (Env := Env) pel_order q g k).
Proof. unfold CommitOffset. cbv zeta. frames. Qed.
Lemma others_advanceCommittedTo k : keeps others (advanceCommittedTo (Env := Env) q g k).
Proof. unfold advanceCommittedTo. cbv zeta. frames. Qed.

Lemma others_registerConsumer c client proxy :
  keeps others (registerConsumer (Env := Env) clock q g c client proxy).
Proof. unfold registerConsumer. frames. Qed.
Lemma others_unregisterConsumer c :
  keeps others (unregisterConsumer (Env := Env) q g c).
Proof. unfold unregisterConsumer. frames. Qed.

(** *** Operations on the group object: the group is there, or nothing happens *)

Notation there := (G base q g (λ _, True)).

Lemma there_around m : there m → around base q g (store m).
Proof. by intros [? _]. Qed.
Lemma there_present m : around base q g (store m) → is_Some (live q g (store m)) → there m.
Proof. intros Ha [gr Hl]. split; [done|]. by exists gr. Qed.

(** The lookup, when the group is there and when it is not. *)
Lemma around_group {B} (k : outcome QErr ConsumerGroup → M B) :
  (∀ x, QueueName x = q → ID x = g → Mode x = GroupModeQueue ∨ Mode x = GroupModeStream →
     triple (G base q g (λ gr, x = gr)) (k (Ret x)) (λ _ m, around base q g (store m))) →
  (∀ e, triple (λ m, around base q g (store m)) (k (Fail e)) (λ _ m, around base q g (store m))) →
  keeps others (getGroup q g ≫= k).
Proof.
  intros Hr Hf m Ha. rewrite M_bind_eq. unfold getGroup, on_store.
  destruct (get_acts q g (store m) (proj1 Ha)) as (Hv & _ & Ho & Hn & Hx).
  destruct (GetConsumerGroup q g (store m)) as [r s']. simpl in *.
  assert (Ha' : around base q g s') by (by eapply around_step).
  destruct r as [x|e|]; [|by apply Hf|done].
  destruct (live q g (store m)) as [gr0|] eqn:El; [|destruct Hx as [_ Hx]; by destruct (Hx x)].
  destruct Hx as (t & Hl' & Hx). specialize (Hx x eq_refl) as ->.
  destruct (live_names _ _ _ _ Hv Hl') as (? & ? & ?). apply Hr; [done..|]. split; [done|].
  by exists (touch t gr0).
Qed.

Lemma there_assign P x f : QueueName x = q → ID x = g → method f →
  triple (G base q g P) (assign (Env := Env) x f) (λ _, there).
Proof.
  intros Hq Hg Hf m (Ha & gr & Hl & _). simpl. rewrite Hq, Hg.
  destruct (through_acts q g f (store m) gr (proj1 Ha) Hl Hf) as (Hv & _ & Ho & gr' & Hl' & _).
  split; [by eapply around_step|]. by exists gr'.
Qed.

Lemma there_update P x : QueueName x = q → ID x = g →
  triple (G base q g P) (g ← deref (Env := Env) x; on_store (UpdateConsumerGroup g)) (λ _, there).
Proof.
  intros Hq Hg. eapply triple_bind; [by apply triple_deref|]. intros y m (Ha & gr & Hl & _ & ->).
  destruct (live_names _ _ _ _ (proj1 Ha) Hl) as (Hq' & Hg' & _).
  assert (Hl0 : live (QueueName gr) (ID gr) (store m) = Some gr) by (by rewrite Hq', Hg').
  destruct (update_acts gr (store m) (proj1 Ha) Hl0) as (Hv & _ & _ & Ho & gr' & Hl' & _).
  unfold on_store. rewrite Hq', Hg' in Hl', Ho.
  destruct (UpdateConsumerGroup gr (store m)) as [r s']. split; [by eapply around_step|]. by exists gr'.
Qed.

(** The same two calls with a continuation that leaves the stores alone. *)
Lemma there_update_then P x {B} (k : outcome QErr unit → M B) : QueueName x = q → ID x = g →
  (∀ r, keeps (same store) (k r)) →
  triple (G base q g P) (g ← deref (Env := Env) x; (on_store (UpdateConsumerGroup g) ≫= k)) (λ _, there).
Proof.
  intros Hq Hg Hk m Hm. rewrite !M_bind_eq.
  pose proof (triple_keep base q g (λ _, True) _
    (Hk (on_store (UpdateConsumerGroup (deref x m).1) (deref x m).2).1)) as Hkeep.
  apply Hkeep. apply (there_update P x Hq Hg m Hm).
Qed.

Lemma there_members P x f {B} (k : M B) Q : QueueName x = q → ID x = g → on_members f →
  triple there k Q → triple (G base q g P) (assign (Env := Env) x f;; k) Q.
Proof.
  intros Hq Hg Hf Hk. eapply triple_bind; [by apply there_assign, method_members|].
  intros ?. exact Hk.
Qed.

Lemma there_end {A} P (m : M A) : keeps (same store) m →
  triple (G base q g P) m (λ _ m, around base q g (store m)).
Proof. intros H s Hs. apply (triple_keep base q g P m H s Hs). Qed.

Lemma around_UpdateHeartbeat c : keeps others (UpdateHeartbeat (Env := Env) clock cfg q g c).
Proof.
  unfold UpdateHeartbeat, try_bind. apply around_group; [|intros e; by apply triple_ret].
  intros x Hq Hg _. apply bind_keep; [apply store_now|]. intros t.
  destruct (GetConsumer c x) as [i|]; [|by apply there_end].
  destruct (_ && _); [by apply there_end|]. apply bind_keep; [apply store_now|]. intros t'.
  apply there_members; [done|done|apply members_Touch|].
  destruct (TouchConsumer c t t' x).1; [|by apply there_end].
  intros s Hs. eapply (others_acts _ _ (register_acts q g _)), there_around, Hs.
Qed.

Lemma around_CleanupStaleConsumers timeout :
  keeps others (CleanupStaleConsumers (Env := Env) clock consumer_order q g timeout).
Proof.
  unfold CleanupStaleConsumers, try_bind at 1. apply around_group; [|intros e; by apply triple_ret].
  intros x Hq Hg _. apply bind_keep; [apply store_now|]. intros t.
  destruct (stale_consumers _ _) as [removed|e|]; [|by apply there_end..].
  eapply triple_bind.
  { eapply triple_pre; [|apply triple_for_each with (P := there)]; [intros ?; by apply G_weaken|].
    intros id _. apply bind_keep; [apply store_now|]. intros t'.
    by apply there_assign, method_members, members_Delete. }
  intros ?. unfold try_bind at 1. apply (triple_bind _ _ _ (λ _, there)).
  - destruct (_ =? _)%nat; [by apply triple_ret|by apply there_update].
  - intros [u|e|]; by apply there_end.
Qed.

Lemma there_applyAutoCommit P x auto : QueueName x = q → ID x = g →
  triple (G base q g P) (applyAutoCommitLocked (Env := Env) clock x auto) (λ _, there).
Proof.
  intros Hq Hg. unfold applyAutoCommitLocked. apply bind_keep; [apply store_deref|]. intros y.
  assert (Hset : triple there (t ← time_Now clock; assign (Env := Env) x (SetAutoCommit auto t)) (λ _, there)).
  { apply bind_keep; [apply store_now|]. intros t. by apply there_assign, method_SetAutoCommit. }
  assert (Hw : ∀ b f, (∀ t, method (f t)) →
    triple there (when b (t ← time_Now clock; assign (Env := Env) x (f t))) (λ _, there)).
  { intros [] f Hf; [|by apply triple_ret]. apply bind_keep; [apply store_now|]. intros t.
    by apply there_assign. }
  apply (triple_pre there); [intros ?; by apply G_weaken|].
  destruct (negb _); [exact Hset|]. cbv zeta.
  eapply triple_bind; [apply Hw; intros; apply method_SetCommitted|]. intros ?.
  eapply triple_bind; [apply Hw; intros; apply method_ClearPending|]. intros ?. exact Hset.
Qed.

Lemma around_getOrCreateGroup pattern mode auto configure : known_mode mode →
  keeps others (getOrCreateGroup (Env := Env) clock q g pattern mode auto configure).
Proof.
  intros Hmode. unfold getOrCreateGroup. apply around_group.
  - intros x Hq Hg Hm.
    assert (Hu : mode_unset (Mode x) = false) by (unfold mode_unset; by destruct Hm as [-> | ->]).
    rewrite Hu, andb_false_r. destruct (_ && _); [by apply there_end|].
    destruct (configure && _); [|by apply there_end].
    eapply triple_bind; [by apply there_applyAutoCommit|]. intros ?.
    eapply triple_conseq; [apply (there_update_then (λ _, True) x); [done|done|]|done|].
    + intros [u|e|]; [|done..]. apply (keeps_bind _); done.
    + intros ? ?. apply there_around.
  - intros e. destruct (_ && _); [by apply triple_ret|].
    intros m1 Ha. rewrite !M_bind_eq. cbn [time_Now fst snd]. cbv zeta.
    set (gr := SetAutoCommit auto _ _). set (m2 := _ <| ticks := _ |>).
    assert (Ha2 : around base q g (store m2)) by done. clearbody m2. clear Ha.
    assert (Hgr : QueueName gr = q ∧ ID gr = g ∧ PEL gr = ∅ ∧ cursor_of gr = 0 ∧ committed_of gr = 0)
      by (unfold gr; by destruct (mode_unset mode)).
    destruct Hgr as (Hq & Hg & Hp & Hc & Hk).
    destruct (create_acts gr (store m2) (proj1 Ha2) Hp Hc Hk) as (Hv & _ & Hn & Ho & _);
      [by apply known_new_mode|]. rewrite Hq, Hg in Ho.
    unfold on_store. destruct (CreateConsumerGroup gr (store m2)) as [r s']. cbn [fst snd] in *.
    assert (Ha' : around base q g s') by (by eapply around_step).
    destruct r as [u|e'|]; [done| |done]. destruct (errors_Is e' [ErrConsumerGroupExists]); [|done].
    unfold try_bind. apply around_group; [|intros; by apply triple_ret|done].
    intros. by apply there_end.
Qed.

End frames.

(** ** Steps *)

(** An operation of the manager on one group: what its callers have checked of
    the group (nothing, where the manager checks for itself), and the run.  The
    mode they check never changes; the commit flag may, so that it still holds
    when [AdvanceCommitted] has the lock is the condition of a regime.  A
    consumer has a name, and a group is created in one of the two modes. *)
Inductive operation (q g : string) : (ConsumerGroup → Prop) → (Mgr → Mgr) → Prop :=
| op_Claim c f : c ≠ EmptyString → operation q g (λ gr, Mode gr ≠ GroupModeStream)
    (λ m, (Claim clock cfg pel_order poison_order OnDLQ q g c f m).2)
| op_ClaimBatch c f n : c ≠ EmptyString → operation q g (λ gr, Mode gr ≠ GroupModeStream)
    (λ m, (ClaimBatch clock cfg pel_order poison_order OnDLQ q g c f n m).2)
| op_ClaimManualStream c f : c ≠ EmptyString → operation q g (λ _, True)
    (λ m, (ClaimManualStream clock cfg pel_order poison_order OnDLQ q g c f m).2)
| op_ClaimPendingBatch c idle n : c ≠ EmptyString → operation q g (λ _, True)
    (λ m, (ClaimPendingBatch clock cfg pel_order q g c idle n m).2)
| op_ClaimBatchStream c f n : operation q g (λ gr, Mode gr = GroupModeStream)
    (λ m, (ClaimBatchStream clock cfg q g c f n m).2)
| op_PeekBatchStream f n : operation q g (λ gr, Mode gr = GroupModeStream)
    (λ m, (PeekBatchStream clock cfg q g f n m).2)
| op_CommitStreamCursor k : operation q g (λ _, True)
    (λ m, (CommitStreamCursor clock cfg q g k m).2)
| op_Ack c o : operation q g (λ _, True) (λ m, (Ack pel_order q g c o m).2)
| op_Nack c o d : operation q g (λ _, True)
    (λ m, (NackWithDelay clock cfg pel_order q g c o d m).2)
| op_prepareTransfer o c : operation q g (λ _, True)
    (λ m, (prepareTransfer pel_order OnDLQ (mkTransferKey q g o) c m).2)
| op_finishTransfer o c e : operation q g (λ _, True)
    (λ m, (finishTransfer pel_order (mkTransferKey q g o) c e m).2)
| op_preparePoison o : operation q g (λ _, True)
    (λ m, (preparePoisonTransfer clock cfg pel_order (mkTransferKey q g o) m).2)
| op_finishPoison o x e r : operation q g (λ _, True)
    (λ m, (finishPoisonTransfer clock cfg DLQUnavailable (mkTransferKey q g o) x e r m).2)
| op_CommitOffset k : operation q g (λ _, True) (λ m, (CommitOffset pel_order q g k m).2)
| op_advanceCommittedTo k :
    operation q g (λ gr, Mode gr = GroupModeStream ∧ (in_order = true → AutoCommit gr = true))
      (λ m, (advanceCommittedTo q g k m).2)
| op_getOrCreateGroup pattern mode auto configure : known_mode mode → operation q g (λ _, True)
    (λ m, (getOrCreateGroup clock q g pattern mode auto configure m).2)
| op_registerConsumer c client proxy : operation q g (λ _, True)
    (λ m, (registerConsumer clock q g c client proxy m).2)
| op_unregisterConsumer c : operation q g (λ _, True) (λ m, (unregisterConsumer q g c m).2)
| op_UpdateHeartbeat c : operation q g (λ _, True) (λ m, (UpdateHeartbeat clock cfg q g c m).2)
| op_CleanupStaleConsumers timeout : operation q g (λ _, True)
    (λ m, (CleanupStaleConsumers clock consumer_order q g timeout m).2).

(** A step: an operation its callers may start, or anything that leaves the
    groups alone (appends, truncation, the dead-letter handler, queries). *)
Inductive mstep : Mgr → Mgr → Prop :=
| step_operation q g guard run m : operation q g guard run →
    (∀ gr, live q g (store m) = Some gr → guard gr) → mstep m (run m)
| step_elsewhere m m' : (∀ q g, live q g (store m') = live q g (store m)) →
    (valid (store m) → valid (store m')) → mstep m m'.

Lemma operation_around q g guard run m : operation q g guard run → valid (store m) →
  around m q g (store (run m)).
Proof.
  intros Hop Hv. assert (Ha : around m q g (store m)) by done.
  destruct Hop;
    [ apply others_Claim | apply others_ClaimBatch | apply others_ClaimManualStream
    | apply others_ClaimPendingBatch | apply others_ClaimBatchStream | apply others_PeekBatchStream
    | apply others_CommitStreamCursor | apply others_Ack | apply others_NackWithDelay
    | apply others_prepareTransfer | apply others_finishTransfer | apply others_preparePoisonTransfer
    | apply others_finishPoisonTransfer | apply others_CommitOffset | apply others_advanceCommittedTo
    | apply around_getOrCreateGroup | apply others_registerConsumer | apply others_unregisterConsumer
    | apply around_UpdateHeartbeat | apply around_CleanupStaleConsumers ]; done.
Qed.

Lemma mode_framed mode g1 g2 : Mode g1 = mode → frame g1 g2 → Mode g2 = mode.
Proof. by intros ? (_ & _ & -> & _). Qed.
Lemma auto_framed g1 g2 : Mode g1 = GroupModeStream ∧ (in_order = true → AutoCommit g1 = true) →
  frame g1 g2 → Mode g2 = GroupModeStream ∧ (in_order = true → AutoCommit g2 = true).
Proof. by intros ? (_ & _ & -> & ->). Qed.

(** A stream check inside an operation brings the mode in. *)
Lemma safe_CommitStreamCursor_any base q g g0 k :
  triple (G base q g (J g0 (λ _, True))) (CommitStreamCursor (Env := Env) clock cfg q g k)
    (λ r m, r ≠ Panic ∧ G base q g (J g0 (λ _, True)) m).
Proof.
  destruct (decide (Mode g0 = GroupModeStream)) as [Hm|Hm].
  - eapply triple_conseq; [apply (safe_CommitStreamCursor clock cfg base q g g0
      (λ gr, Mode gr = GroupModeStream) (mode_framed _)); done| |].
    + intros m. apply G_weaken. intros gr [Hgd _]. split; [done|]. by destruct Hgd as (_ & -> & _).
    + intros r m [Hr HG]. split; [done|]. eapply G_weaken; [|exact HG]. by intros gr [].
  - unfold CommitStreamCursor. apply with_group; [by apply stable_J| |by intros].
    intros x _ _ m (Ha & gr & Hl & [Hgd Ht] & ->).
    unfold is_stream. rewrite bool_decide_eq_false_2; [|by destruct Hgd as (_ & -> & _)].
    simpl. split; [done|]. split; [done|]. by exists gr.
Qed.

Lemma operation_safe q g guard run m gr : operation q g guard run →
  valid (store m) → live q g (store m) = Some gr → Inv gr → guard gr → G m q g (good gr) (run m).
Proof.
  intros Hop Hv Hl Hi Hguard. assert (Ha : around m q g (store m)) by done.
  assert (HJ : ∀ T : ConsumerGroup → Prop, T gr → G m q g (J gr T) m).
  { intros T HT. split; [done|]. exists gr. split; [done|]. split; [by apply good_refl|done]. }
  assert (Hgd : ∀ T m', G m q g (J gr T) m' → G m q g (good gr) m').
  { intros T m'. apply G_weaken. by intros ? []. }
  assert (HG : G m q g (good gr) m) by (split; [done|]; exists gr; split; [done|by apply good_refl]).
  assert (Htrue : ∀ g1 g2 : ConsumerGroup, True → frame g1 g2 → True) by done.
  assert (Hqueue : Mode gr ≠ GroupModeStream → Mode gr = GroupModeQueue).
  { intros Hn. by destruct (inv_mode _ Hi). }
  assert (Htr : ∀ x, Mode x = GroupModeQueue → tracked x) by (by left).
  destruct Hop; simpl in Hguard.
  - eapply Hgd, safe_Claim; [apply (mode_framed GroupModeQueue)|done|done|by apply HJ, Hqueue].
  - eapply Hgd, safe_ClaimBatch; [apply (mode_framed GroupModeQueue)|done|done|by apply HJ, Hqueue].
  - eapply Hgd, safe_ClaimManualStream; [done|exact Htrue|by apply HJ].
  - eapply Hgd, safe_ClaimPendingBatch; [exact Htrue|done|by apply HJ].
  - eapply Hgd, safe_ClaimBatchStream; [apply (mode_framed GroupModeStream)|done|by apply HJ].
  - eapply Hgd, safe_PeekBatchStream; [apply (mode_framed GroupModeStream)|done|by apply HJ].
  - eapply Hgd, safe_CommitStreamCursor_any. by apply HJ.
  - eapply Hgd, safe_Ack; [exact Hpel|exact Htrue|by apply HJ].
  - eapply Hgd, safe_NackWithDelay; [exact Htrue|by apply HJ].
  - eapply Hgd, safe_prepareTransfer; [exact Htrue|done|done|by apply HJ].
  - eapply Hgd, safe_finishTransfer; [exact Hpel|exact Htrue|done|done|by apply HJ].
  - eapply Hgd, safe_preparePoisonTransfer; [exact Htrue|done|done|by apply HJ].
  - eapply Hgd, safe_finishPoisonTransfer; [exact Htrue|done|done|by apply HJ].
  - eapply Hgd, safe_CommitOffset; [exact Hpel|exact Htrue|by apply HJ].
  - eapply Hgd, safe_advanceCommittedTo; [exact auto_framed|done|by apply HJ].
  - by apply safe_getOrCreateGroup.
  - by apply safe_registerConsumer.
  - by apply safe_unregisterConsumer.
  - by apply safe_UpdateHeartbeat.
  - by apply safe_CleanupStaleConsumers.
Qed.

Lemma run_safe m m' q g gr : rtc mstep m m' → valid (store m) → live q g (store m) = Some gr →
  Inv gr → valid (store m') ∧ ∃ gr', live q g (store m') = Some gr' ∧ good gr gr'.
Proof.
  intros Hs Hv Hl Hi.
  assert (HG : valid (store m) ∧ ∃ gr', live q g (store m) = Some gr' ∧ good gr gr').
  { split; [done|]. exists gr. split; [done|by apply good_refl]. }
  clear Hv Hl Hi. induction Hs as [|m1 m2 m3 Hst _ IH]; [done|]. apply IH. clear IH m3.
  destruct HG as (Hv & gr1 & Hl1 & Hg1). destruct Hst as [q' g' guard run m1 Hop Hguard|m1 m2 Heq Hv'].
  - destruct (operation_around _ _ _ _ _ Hop Hv) as [Hv2 Ho]. split; [done|].
    destruct (decide ((q, g) = (q', g'))) as [[= <- <-]|Hne].
    + destruct (operation_safe q g guard run m1 gr1 Hop Hv Hl1 (proj1 Hg1) (Hguard gr1 Hl1))
        as (_ & gr2 & Hl2 & Hg2). exists gr2. split; [done|]. by eapply good_trans.
    + exists gr1. by rewrite Ho.
  - split; [by apply Hv'|]. exists gr1. by rewrite Heq.
Qed.

End manager.

(** C1 In every interleaving of the operations of the consumer manager (claims,
    settlements, steals, transfers to the dead-letter queue, commits,
    registrations), a consumer group keeps its mode, its committed position and
    its cursor never move back, the committed position stays at or below the
    cursor, and every pending entry is filed under its owner.  The committed
    position of a queue group stays at or below every pending record.  That of a
    stream does too, if [AdvanceCommitted] only gets the lock of the group while
    the stream commits on delivery ([in_step] = true).  The direct writes of
    [rejectStream], which do not take that lock, are outside. *)
Theorem groups_progress {St Env : Type} `{GS : GroupStore St Env} `{!GroupStoreLaws St Env}
    (clock : nat → Z) (cfg : Config) (pel_order : pel → list (string * list (option PendingEntry)))
    (consumer_order : gmap string (option ConsumerInfo) → list (string * option ConsumerInfo))
    (poison_order : gmap Z poisonState → list (Z * poisonState))
    (OnDLQ : option (DLQHandler (St := St) (Env := Env))) (DLQUnavailable : option (QErr → bool))
    (in_step : bool) (m m' : Manager St Env) q g gr :
  (∀ p, pel_order p ≡ₚ map_to_list p) →
  rtc (mstep (regime := in_step) clock cfg pel_order consumer_order poison_order OnDLQ DLQUnavailable) m m' →
  valid (store m) → live q g (store m) = Some gr → Inv (regime := in_step) gr →
  ∃ gr', live q g (store m') = Some gr' ∧ Mode gr' = Mode gr ∧
    committed_of gr <= committed_of gr' <= cursor_of gr' ∧ cursor_of gr <= cursor_of gr' ∧
    (∀ o, o ∈ offsets (all (PEL gr')) →
       (in_step = true ∨ Mode gr' = GroupModeQueue → committed_of gr' <= o) ∧
       (Mode gr' ≠ GroupModeStream → o < cursor_of gr')) ∧
    ∀ c e, Some e ∈ pel_get c (PEL gr') → ConsumerID e = c ∧ c ≠ EmptyString.
Proof.
  intros Hpel Hs Hv Hl Hi.
  destruct (run_safe clock cfg pel_order Hpel consumer_order poison_order OnDLQ DLQUnavailable m m' q g gr
    Hs Hv Hl Hi) as (_ & gr' & Hl' & Hi' & Hm & Hk & Hc).
  exists gr'. split_and!; [done|done|done|by apply Hi'|done|by apply Hi'|].
  intros c e He. destruct (inv_filed _ Hi' c _ He) as (x & [= <-] & Hx). split; [done|].
  rewrite <-Hx. apply (inv_owner _ Hi'). apply elem_of_all. by exists c.
Qed.
End ManagerSafety.
