(* ===== verification/ConsumerClaims.v ===== *)
(** * Claims in order, and the retention point

    A claim from the cursor hands out the first deliverable record at or after
    it, and leaves the group with that record pending and the cursor just past
    it.  The retention point of a queue is at or below every pending delivery. *)

From Stdlib Require Import ZArith Lia Bool Ascii String.
From stdpp Require Import prelude gmap strings sorting.
From S2P Require Import Prelude State GoStrings ConsumerGroup ConsumerFilter QueueErrors.
From S2P Require Import GroupStore ConsumerManager ConsumerManagerFacts ConsumerSafety.

Import Group GroupFacts.

Module ManagerClaims.
Import Manager ManagerFacts.

Section manager.
Context {St Env : Type} `{GS : GroupStore St Env} `{!GroupStoreLaws St Env}.
Context (clock : nat → Z) (cfg : Config).

Notation Mgr := (Manager St Env).

(** A record a claim passes over: gone from the log, undecodable, refused by the
    filter, or expired at the times [ts]. *)
Definition passed (ts : Z → Prop) (s : St) (x : ConsumerGroup) (f : option Filter.Filter) (o : Z) :
    Prop :=
  match Read (QueueName x) o s with
  | Ret msg => accepts f x msg = false ∨ ∀ t, ts t → IsExpired t msg = true
  | Fail e => errors_Is e [ErrOffsetOutOfRange] = true ∨ errors_Is e [ErrUndecodableRecord] = true
  | Panic => False
  end.

(** A record a claim hands out. *)
Definition deliverable (ts : Z → Prop) (s : St) (x : ConsumerGroup) (f : option Filter.Filter)
    (o : Z) (msg : Env) : Prop :=
  Read (QueueName x) o s = Ret msg ∧ accepts f x msg = true ∧ ∀ t, ts t → IsExpired t msg = false.

Lemma read_eq q o (m : Mgr) : ∃ m', read (Env := Env) q o m = (Read q o (store m), m') ∧ store m' = store m.
Proof.
  unfold read. rewrite M_bind_eq. simpl. destruct (Read q o (store m)) eqn:E; simpl; eauto.
Qed.

Lemma expired_eq msg (m : Mgr) : ∃ t m', expired (Env := Env) clock msg m = (IsExpired t msg, m') ∧
  store m' = store m.
Proof. unfold expired. rewrite M_bind_eq. simpl. eauto. Qed.

(** The result of a scan of the records from [cursor], in the stores [s]. *)
Definition scanned (s : St) (x : ConsumerGroup) (c : string) (f : option Filter.Filter)
    (tail cursor room : Z) (r : outcome QErr (Env + Z) * Mgr) : Prop :=
  match r with
  | (Ret (inl msg), m') => ∃ o t m1, cursor <= o < tail ∧ store m1 = s ∧
      (∀ o', cursor <= o' < o → ∃ t, passed (eq t) s x f o') ∧
      deliverable (eq t) s x f o msg ∧ claim_record clock x c o (o + 1) msg m1 = (Ret msg, m')
  | (Ret (inr k), m') => cursor <= k ∧ store m' = s ∧ (tail <= k ∨ k = cursor + room) ∧
      (∀ o', cursor <= o' < k → ∃ t, passed (eq t) s x f o')
  | _ => True
  end.

Lemma scanned_next s x c f tail cursor room r : (∃ t, passed (eq t) s x f cursor) →
  scanned s x c f tail (cursor + 1) room r → scanned s x c f tail cursor (room + 1) r.
Proof.
  intros Hp. assert (Hext : ∀ k, (∀ o', cursor + 1 <= o' < k → ∃ t, passed (eq t) s x f o') →
    ∀ o', cursor <= o' < k → ∃ t, passed (eq t) s x f o').
  { intros k Hk o' Ho. destruct (decide (o' = cursor)) as [->|]; [done|]. apply Hk. lia. }
  destruct r as [[[msg|k]|e|] m']; cbn [scanned]; [| |done|done].
  - intros (o & t & m3 & Ho & Hs3 & Hall & Hd & Hr). exists o, t, m3. split_and!; [lia|lia|done| |done|done].
    by apply Hext.
  - intros (Hk & Hs' & Hend & Hall). split_and!; [lia|done|lia|]. by apply Hext.
Qed.

Lemma claim_record_msg x c o n msg m msg' m' :
  claim_record (Env := Env) clock x c o n msg m = (Ret msg', m') → msg' = msg.
Proof.
  unfold claim_record. rewrite !M_bind_eq. destruct (on_store _ _) as [[u|e|] m1]; simpl; [|done..].
  rewrite M_bind_eq. destruct (on_store _ _) as [[u'|e|] m2]; simpl; [|done..]. by intros [= <- _].
Qed.

(** What a scan has passed over. *)
Lemma claim_scan_sound x c f tail fuel : ∀ cursor (m : Mgr),
  scanned (store m) x c f tail cursor (Z.of_nat fuel) (claim_scan clock fuel x c f tail cursor m).
Proof.
  induction fuel as [|fuel IH]; intros cursor m; cbn [claim_scan].
  { split_and!; [lia|done|lia|]. intros; lia. }
  destruct (Z.leb_spec tail cursor) as [|Hlt].
  { split_and!; [lia|done|lia|]. intros; lia. }
  cbv zeta. rewrite M_bind_eq. destruct (read_eq (QueueName x) cursor m) as (m1 & -> & Hs1). cbn [fst snd].
  assert (Hnext : ∀ m2, store m2 = store m → (∃ t, passed (eq t) (store m) x f cursor) →
    scanned (store m) x c f tail cursor (Z.of_nat (S fuel)) (claim_scan clock fuel x c f tail (cursor + 1) m2)).
  { intros m2 Hs2 Hp. rewrite Nat2Z.inj_succ. apply scanned_next; [done|]. rewrite <-Hs2. apply IH. }
  destruct (Read (QueueName x) cursor (store m)) as [msg|e|] eqn:Er; [| |done].
  - rewrite M_bind_eq. destruct (expired_eq msg m1) as (t & m2 & -> & Hs2). cbn [fst snd].
    destruct (IsExpired t msg) eqn:Et.
    { rewrite M_bind_eq. apply Hnext; [simpl; congruence|]. exists t. unfold passed. rewrite Er.
      right. by intros ? <-. }
    destruct (accepts f x msg) eqn:Ea; cbn [negb].
    2:{ rewrite M_bind_eq. apply Hnext; [simpl; congruence|]. exists t. unfold passed. rewrite Er. by left. }
    unfold try_bind. rewrite M_bind_eq.
    destruct (claim_record clock x c cursor (cursor + 1) msg m2) as [[msg'|e|] m3] eqn:Ec; [|done..].
    cbn [fst snd]. apply claim_record_msg in Ec as Hmsg. subst msg'.
    exists cursor, t, m2. split_and!; [lia|lia|congruence|intros; lia| |done].
    split_and!; [done|done|by intros ? <-].
  - destruct (errors_Is e [ErrOffsetOutOfRange]) eqn:E1.
    { apply Hnext; [done|]. exists 0. unfold passed. rewrite Er. by left. }
    destruct (errors_Is e [ErrUndecodableRecord]) eqn:E2; [|done].
    apply Hnext; [done|]. exists 0. unfold passed. rewrite Er. by right.
Qed.

(** The first deliverable record is found. *)
Lemma claim_scan_complete x c f tail o msg : ∀ fuel cursor (m : Mgr),
  cursor <= o < tail → o < cursor + Z.of_nat fuel →
  (∀ o', cursor <= o' < o → passed (λ _, True) (store m) x f o') →
  deliverable (λ _, True) (store m) x f o msg →
  ∃ m1, store m1 = store m ∧ claim_scan clock fuel x c f tail cursor m =
    let '(r, m') := claim_record clock x c o (o + 1) msg m1 in
    (match r with Ret msg => Ret (inl msg) | Fail e => Fail e | Panic => Panic end, m').
Proof.
  induction fuel as [|fuel IH]; intros cursor m Ho Hroom Hall Hd; [lia|]. cbn [claim_scan].
  destruct (Z.leb_spec tail cursor) as [|_]; [lia|].
  cbv zeta. rewrite M_bind_eq. destruct (read_eq (QueueName x) cursor m) as (m1 & -> & Hs1). cbn [fst snd].
  destruct (decide (cursor = o)) as [->|Hne].
  - destruct Hd as (Hr & Ha & Ht). rewrite Hr, M_bind_eq.
    destruct (expired_eq msg m1) as (t & m2 & -> & Hs2). cbn [fst snd]. rewrite (Ht t I), Ha. cbn [negb].
    exists m2. split; [congruence|]. unfold try_bind. rewrite M_bind_eq.
    by destruct (claim_record clock x c o (o + 1) msg m2) as [[]].
  - assert (Hnext : ∀ m2, store m2 = store m → ∃ m1, store m1 = store m ∧
      claim_scan clock fuel x c f tail (cursor + 1) m2 =
      let '(r, m') := claim_record clock x c o (o + 1) msg m1 in
      (match r with Ret msg => Ret (inl msg) | Fail e => Fail e | Panic => Panic end, m')).
    { intros m2 Hs2. rewrite <-Hs2. apply IH; [lia|lia|rewrite Hs2|by rewrite Hs2].
      intros o' Ho'. apply Hall. lia. }
    assert (Hp : passed (λ _, True) (store m) x f cursor) by (apply Hall; lia). unfold passed in Hp.
    destruct (Read (QueueName x) cursor (store m)) as [msg'|e|]; [| |done].
    + rewrite M_bind_eq. destruct (expired_eq msg' m1) as (t & m2 & -> & Hs2). cbn [fst snd].
      destruct (IsExpired t msg') eqn:Et; [rewrite M_bind_eq; apply Hnext; simpl; congruence|].
      destruct Hp as [-> |Hp]; [|by rewrite (Hp t I) in Et]. cbn [negb].
      rewrite M_bind_eq. apply Hnext. simpl. congruence.
    + destruct (errors_Is e [ErrOffsetOutOfRange]); [by apply Hnext|].
      destruct Hp as [?| ->]; [done|]. by apply Hnext.
Qed.

(** Where a claim starts to look: the cursor, or the head when it has moved past it. *)
Definition claim_from (s : St) (gr : ConsumerGroup) : Z :=
  match Head (QueueName gr) s with
  | Ret head => Z.max head (cursor_of gr)
  | _ => cursor_of gr
  end.

(** The two writes of a claim go through. *)
Definition writes_succeed (s : St) (gr : ConsumerGroup) (c : string) (o : Z) : Prop :=
  ∀ t, ∃ s1 s2, AddPendingEntry (QueueName gr) (ID gr) (mkPendingEntry o c t 1) s = (Ret tt, s1) ∧
    UpdateCursor (QueueName gr) (ID gr) (o + 1) s1 = (Ret tt, s2).

Lemma claim_record_effect q g gr c o msg (m m' : Mgr) : valid (store m) → live q g (store m) = Some gr →
  claim_record (Env := Env) clock gr c o (o + 1) msg m = (Ret msg, m') →
  ∃ gr' e, live q g (store m') = Some gr' ∧ cursor_of gr' = o + 1 ∧ committed_of gr' = committed_of gr ∧
    Some e ∈ all (PEL gr') ∧ Offset e = o ∧ ConsumerID e = c ∧ DeliveryCount e = 1.
Proof.
  intros Hv Hl. destruct (live_names _ _ _ _ Hv Hl) as (Hq & Hg & _). unfold claim_record. rewrite Hq, Hg.
  rewrite !M_bind_eq. unfold on_store. cbn [time_Now fst snd].
  set (m0 := m <| ticks := _ |>). assert (Hs0 : store m0 = store m) by done. rewrite Hs0.
  set (e0 := mkPendingEntry o c _ 1).
  destruct (add_acts q g e0 (store m) Hv) as (Hv1 & _ & _ & Hadd & _). rewrite Hl in Hadd.
  destruct Hadd as (g1 & Hl1 & _ & Hadd).
  destruct (AddPendingEntry q g e0 (store m)) as [[u|err|] s1]; [|done..]. destruct u. cbn [fst snd] in *.
  destruct (Hadd eq_refl) as (_ & Hk1 & _ & _ & e & rest & Ho & Hc & Hn & Hp & _).
  rewrite M_bind_eq. cbn [store].
  destruct (cursor_acts q g (o + 1) s1 Hv1) as (_ & _ & _ & Hcur & _). rewrite Hl1 in Hcur.
  destruct Hcur as (g2 & Hl2 & _ & Hcur).
  unfold on_store. change (store (m0 <| store := s1 |>)) with s1.
  destruct (UpdateCursor q g (o + 1) s1) as [[u|err|] s2]; [|done..]. destruct u. cbn [fst snd] in *.
  destruct (Hcur eq_refl) as (_ & Hk2 & Hc2 & Hp2 & _).
  intros [= <-]. exists g2, e. split_and!; [done|done|congruence| |done|done|by apply Hn].
  rewrite Hp2, Hp. left.
Qed.

Lemma claim_record_succeeds gr c o msg (m : Mgr) : writes_succeed (store m) gr c o →
  (claim_record (Env := Env) clock gr c o (o + 1) msg m).1 = Ret msg.
Proof.
  intros Hw. unfold claim_record. rewrite !M_bind_eq. unfold on_store. cbn [time_Now fst snd].
  set (m0 := m <| ticks := _ |>). change (store m0) with (store m).
  destruct (Hw (clock (ticks m))) as (s1 & s2 & -> & H2). cbn [fst snd]. rewrite M_bind_eq.
  unfold on_store. change (store (m0 <| store := s1 |>)) with s1. by rewrite H2.
Qed.

(** The code up to the scan. *)
Lemma claimFromCursor_scan q g gr c f tail (m : Mgr) : valid (store m) → live q g (store m) = Some gr →
  (0 < MaxPELSize cfg → PendingCount gr < MaxPELSize cfg) → Tail q (store m) = Ret tail →
  ∃ m1, store m1 = store m ∧ claimFromCursor (Env := Env) clock cfg gr c f m =
    try_bind (claim_scan clock maxCursorScan gr c f tail (claim_from (store m) gr)) (λ r,
      match r with
      | inl msg => ret msg
      | inr cursor =>
          try_bind (if claim_from (store m) gr <? cursor then
             try_bind (getGroup (QueueName gr) (ID gr)) (λ fresh,
             if Cursor (CursorView fresh) <? cursor
             then on_store (UpdateCursor (QueueName gr) (ID gr) cursor)
             else ret tt)
           else ret tt) (λ _,
          if cursor <? tail then fail scan_incomplete else fail no_messages)
      end) m1.
Proof.
  intros Hv Hl Hfull Ht. destruct (live_names _ _ _ _ Hv Hl) as (Hq & Hg & _).
  unfold claimFromCursor. rewrite M_bind_eq. cbn [deref peek gets fst snd]. rewrite Hq, Hg, Hl.
  change (default gr (Some gr)) with gr. replace ((0 <? MaxPELSize cfg) && (MaxPELSize cfg <=? PendingCount gr)) with false.
  2:{ symmetry. apply andb_false_iff. destruct (Z.ltb_spec 0 (MaxPELSize cfg)) as [H|]; [right|by left].
      apply Z.leb_gt. by apply Hfull. }
  exists m. split; [done|]. rewrite (try_bind_eq (peek _)). cbn [peek gets fst snd]. rewrite Ht.
  unfold scanStart. rewrite !M_bind_eq. cbn [peek gets fst snd mret]. unfold claim_from. rewrite Hq.
  assert (Hstart : match Head q (store m) with
      | Ret head => if head <=? Cursor (CursorView gr) then Cursor (CursorView gr) else head
      | _ => Cursor (CursorView gr) end
    = match Head q (store m) with Ret head => Z.max head (cursor_of gr) | _ => cursor_of gr end).
  { unfold cursor_of. destruct (Head q (store m)) as [h| |]; [|done..].
    destruct (Z.leb_spec h (Cursor (CursorView gr))); lia. }
  rewrite !M_ret_eq. cbn [fst snd]. by rewrite Hstart.
Qed.

(** C8 A claim from the cursor that returns hands out the first record at or after
    the cursor (or the head of a truncated log) that is readable, unexpired and
    accepted by the filter, everything before it having been passed over, and
    leaves the group with that record pending with its consumer at one delivery
    and the cursor just past it. *)
Theorem claim_takes_next q g gr c f tail (m m' : Mgr) msg : valid (store m) → live q g (store m) = Some gr →
  Tail q (store m) = Ret tail → claimFromCursor (Env := Env) clock cfg gr c f m = (Ret msg, m') →
  ∃ o t gr' e, claim_from (store m) gr <= o < tail ∧ deliverable (eq t) (store m) gr f o msg ∧
    (∀ o', claim_from (store m) gr <= o' < o → ∃ t, passed (eq t) (store m) gr f o') ∧
    live q g (store m') = Some gr' ∧ cursor_of gr' = o + 1 ∧ committed_of gr' = committed_of gr ∧
    Some e ∈ all (PEL gr') ∧ Offset e = o ∧ ConsumerID e = c ∧ DeliveryCount e = 1.
Proof.
  intros Hv Hl Ht Hc.
  assert (Hfull : 0 < MaxPELSize cfg → PendingCount gr < MaxPELSize cfg).
  { intros Hp. destruct (Z.leb_spec (MaxPELSize cfg) (PendingCount gr)) as [Hle|]; [|done]. exfalso.
    destruct (live_names _ _ _ _ Hv Hl) as (Hq & Hg & _). revert Hc. unfold claimFromCursor. rewrite M_bind_eq.
    cbn [deref peek gets fst snd]. rewrite Hq, Hg, Hl. change (default gr (Some gr)) with gr.
    replace ((0 <? MaxPELSize cfg) && (MaxPELSize cfg <=? PendingCount gr)) with true; [done|].
    symmetry. apply andb_true_iff. lia. }
  destruct (claimFromCursor_scan q g gr c f tail m Hv Hl Hfull Ht) as (m1 & Hs1 & Heq). rewrite Heq in Hc.
  clear Heq. rewrite try_bind_eq in Hc.
  pose proof (claim_scan_sound gr c f tail maxCursorScan (claim_from (store m) gr) m1) as Hscan.
  destruct (claim_scan _ _ _ _ _ _ _ m1) as [[[msg'|k]|e|] m2]; cbn [fst snd] in Hc; [| |done|done].
  - injection Hc as -> ->. destruct Hscan as (o & t & m3 & Ho & Hs3 & Hall & Hd & Hr).
    rewrite Hs1 in *. assert (Hl3 : live q g (store m3) = Some gr) by (by rewrite Hs3).
    assert (Hv3 : valid (store m3)) by (by rewrite Hs3).
    destruct (claim_record_effect q g gr c o msg m3 m' Hv3 Hl3 Hr) as (gr' & e & H). exists o, t, gr', e.
    split; [lia|]. split; [done|]. by split.
  - exfalso. revert Hc. rewrite try_bind_eq. destruct (_ m2) as [[u|e|] m3]; cbn [fst snd]; [|done..]. by destruct (_ <? _).
Qed.

(** C9 A claim finds the next deliverable record: when one lies among the next
    1024 records after the cursor, below the tail, the pending list has room and
    the two writes succeed, the claim returns that record and not "no messages". *)
Theorem claim_finds_next q g gr c f tail (m : Mgr) o msg : valid (store m) → live q g (store m) = Some gr →
  (0 < MaxPELSize cfg → PendingCount gr < MaxPELSize cfg) → Tail q (store m) = Ret tail →
  claim_from (store m) gr <= o < tail → o < claim_from (store m) gr + 1024 →
  (∀ o', claim_from (store m) gr <= o' < o → passed (λ _, True) (store m) gr f o') →
  deliverable (λ _, True) (store m) gr f o msg → writes_succeed (store m) gr c o →
  (claimFromCursor (Env := Env) clock cfg gr c f m).1 = Ret msg.
Proof.
  intros Hv Hl Hfull Ht Ho Hroom Hall Hd Hw.
  destruct (claimFromCursor_scan q g gr c f tail m Hv Hl Hfull Ht) as (m1 & Hs1 & ->).
  rewrite try_bind_eq.
  destruct (claim_scan_complete gr c f tail o msg maxCursorScan (claim_from (store m) gr) m1)
    as (m2 & Hs2 & ->); [done|done|by rewrite Hs1|by rewrite Hs1|].
  pose proof (claim_record_succeeds gr c o msg m2) as Hok. rewrite Hs2, Hs1 in Hok.
  specialize (Hok Hw). destruct (claim_record _ _ _ _ _ _ m2) as [r m3]. simpl in Hok. by subst r.
Qed.

(** ** The retention point *)

Lemma min_committed_spec groups : match min_committed groups with
  | None => groups = []
  | Some k => ∀ x, x ∈ groups → k <= committed_of x
  end.
Proof.
  unfold min_committed.
  set (f := λ acc group, _).
  assert (Hgen : ∀ acc, match foldl f acc groups with
    | None => acc = None ∧ groups = []
    | Some k => (∀ a, acc = Some a → k <= a) ∧ ∀ x, x ∈ groups → k <= committed_of x
    end).
  { induction groups as [|x groups IH]; intros acc; simpl.
    - destruct acc; [|done]. split; [by intros ? [= <-]|]. by intros ? ?%elem_of_nil.
    - specialize (IH (f acc x)). destruct (foldl f (f acc x) groups) as [k|].
      + destruct IH as [Hle Hall]. assert (Hx : k <= committed_of x ∧ ∀ a, acc = Some a → k <= a).
        { unfold f in Hle. cbv zeta in Hle. change (Committed (CursorView x)) with (committed_of x) in Hle.
          destruct acc as [a|]; [|split; [by apply Hle|done]].
          destruct (Z.ltb_spec (committed_of x) a).
          - specialize (Hle _ eq_refl). split; [done|]. intros ? [= <-]. lia.
          - specialize (Hle _ eq_refl). split; [lia|]. by intros ? [= <-]. }
        destruct Hx as [Hx1 Hx2]. split; [exact Hx2|].
        intros y [->|Hy]%elem_of_cons; [exact Hx1|by apply Hall].
      + destruct IH as [Hn _]. unfold f in Hn. cbv zeta in Hn. destruct acc; [|done].
        by destruct (_ <? _). }
  specialize (Hgen None). destruct (foldl f None groups); [|by destruct Hgen]. apply Hgen.
Qed.

(** The retention point of a mode is at or below the committed position of each of its groups. *)
Lemma retention_below q mode k (m m' : Mgr) g gr :
  GetMinCommittedOffsetByMode (Env := Env) q mode m = (Ret k, m') →
  valid (store m) → live q g (store m) = Some gr → (mode_unset mode = true ∨ Mode gr = mode) →
  k <= committed_of gr.
Proof.
  intros Hget Hv Hl Hmode. revert Hget.
  unfold GetMinCommittedOffsetByMode, try_bind. rewrite M_bind_eq. cbn [peek gets fst snd].
  destruct (ListConsumerGroups q (store m)) as [gs|e|] eqn:El; [|done..].
  destruct (list_live q (store m) gs Hv El) as [Hin _]. destruct (Hin g gr Hl) as (gr' & Hgr' & Hf & Hc).
  set (l := if mode_unset mode then gs else List.filter (λ g, bool_decide (Mode g = mode)) gs).
  assert (Hl' : gr' ∈ l).
  { unfold l. destruct (mode_unset mode) eqn:Eu; [done|]. destruct Hmode as [?|Hm]; [done|].
    apply list_elem_of_In, List.filter_In. split; [by apply list_elem_of_In|].
    apply bool_decide_eq_true. destruct Hf as (_ & _ & -> & _). done. }
  pose proof (min_committed_spec l) as Hmin. destruct (min_committed l) as [k'|].
  - intros [= -> _]. rewrite <-Hc. by apply Hmin.
  - rewrite Hmin in Hl'. by apply elem_of_nil in Hl'.
Qed.
End manager.

(** A group with nothing pending satisfies the invariant. *)
Lemma Inv_empty {regime : Regime} gr : Mode gr = GroupModeQueue ∨ Mode gr = GroupModeStream →
  PEL gr = ∅ → 0 <= committed_of gr <= cursor_of gr → Inv gr.
Proof.
  intros Hm Hp Hc. split; rewrite ?Hp; try done.
  - intros c e. by intros ?%elem_of_nil.
  - intros o. by intros ?%elem_of_nil.
  - intros e. by intros ?%elem_of_nil.
Qed.

End ManagerClaims.
