(* ===== verification/ConsumerExamples.v ===== *)
(** * A broker with one queue

    The consumer manager over the disk adapter, with four shards, a file system
    that works, and a log that is a list of topics: a concrete store that
    satisfies every hypothesis of the manager's and the adapter's theorems, runs
    of it, and two histories in which the adapter answers from the wrong half of a
    group. *)

From Stdlib Require Import ZArith Lia Bool Ascii String.
From stdpp Require Import prelude gmap strings.
From S2P Require Import Prelude State GoStrings ConsumerGroup ConsumerFilter QueueErrors.
From S2P Require Import GroupStore ConsumerState ConsumerStateFacts LogGroups LogAdapter.
From S2P Require Import LogAdapterFacts ConsumerManager ConsumerManagerFacts ConsumerSafety.
From S2P Require Import ConsumerClaims.

Module DiskBroker.
Import Group GroupFacts LogAdapter AdapterFacts Manager ManagerFacts.

(** ** The store *)

Definition Log : Type := list string.
Definition Record_ : Type := Z * string.

Definition shard_order (sh : CS.PELShard) : list CS.PendingEntry := (map_to_list (CS.entries sh)).*2.
Definition pel_order (p : pel) : list (string * list (option PendingEntry)) := map_to_list p.
Definition group_order (m : gmap string ConsumerGroup) : list ConsumerGroup := (map_to_list m).*2.
Definition now (n : nat) : Z := Z.of_nat n * 1000000.
Definition log_head (q : string) (l : Log) : outcome QErr Z := Ret 0.
Definition log_tail (q : string) (l : Log) : outcome QErr Z :=
  let n := Z.of_nat (length l) in
  if n <? 2 ^ 64 then Ret n else Fail (sentinel_err ErrOffsetOutOfRange).
Definition log_read (q : string) (o : Z) (l : Log) : outcome QErr Record_ :=
  match l !! Z.to_nat o with
  | Some topic => if 0 <=? o then Ret (o, topic) else Fail (sentinel_err ErrOffsetOutOfRange)
  | None => Fail (sentinel_err ErrOffsetOutOfRange)
  end.

#[local] Instance store_ops : GroupStore (Adapter Log) Record_ :=
  adapter_store 4 shard_order now (λ _, CS.Written) (λ _, true) (λ _, true) (λ _ _, 0)
    pel_order group_order snd (λ _ _, false) fst fst log_head log_tail log_read.

Lemma tail_small q l t : log_tail q l = Ret t → t < 2 ^ 64.
Proof. unfold log_tail. cbv zeta. destruct (_ <? _) eqn:E; [|done]. intros [= <-]. by bool_prop. Qed.
Lemma reads_answer q o l : log_read q o l ≠ Panic ∧ log_tail q l ≠ Panic.
Proof. unfold log_read, log_tail. cbv zeta. split; repeat case_match; done. Qed.

#[local] Instance store_laws : GroupStoreLaws (Adapter Log) Record_.
Proof. apply adapter_laws; try done; [apply tail_small|apply reads_answer]. Qed.


(** ** The broker *)

(** The queue is open and has three records; no group yet. *)
Definition opened : Adapter Log :=
  mkAdapter {[ "q"%string := mkConsumerManager ∅ false ∅ ]} (GroupFiles.mkStateStore ∅ ∅ ∅) 0
    ["$queue/q/a"; "$queue/q/b"; "$queue/q/c"]%string.

Lemma opened_valid : valid opened.
Proof.
  split.
  - intros q cm. simpl. by intros [_ <-]%lookup_singleton_Some.
  - intros q g cs. unfold states. simpl. intros (cm & [_ <-]%lookup_singleton_Some & H)%fmap_Some.
    simpl in H. by rewrite lookup_empty in H.
  - intros q g x. by unfold objects, GroupFiles.Get; simpl; rewrite lookup_empty.
Qed.

(** A group of the queue, created by the adapter. *)
Definition new_group : ConsumerGroup := NewConsumerGroupState "q" "g" "#" 0.
Definition grouped : Adapter Log := (GroupStore.CreateConsumerGroup (Env := Record_) new_group opened).2.

Lemma grouped_valid : valid grouped.
Proof. by apply (create_acts new_group opened opened_valid eq_refl eq_refl eq_refl (or_introl eq_refl)). Qed.

Lemma grouped_live : live "q" "g" grouped = Some new_group.
Proof. vm_compute. reflexivity. Qed.

Definition broker : Manager (Adapter Log) Record_ := mkManager grouped ∅ ∅ ∅ 0 0 0 [] [].

Lemma new_group_inv : Inv (regime := false) new_group.
Proof.
  split.
  - intros c e. by intros ?%elem_of_nil.
  - by left.
  - vm_compute. split; discriminate.
  - intros o. by intros ?%elem_of_nil.
  - intros e. by intros ?%elem_of_nil.
  - done.
Qed.

(** ** A claim and its acknowledgement *)

Definition consumer_order (m : gmap string (option ConsumerInfo)) := map_to_list m.
Definition poison_order (m : gmap Z poisonState) := map_to_list m.

Definition claim_run (m : Manager (Adapter Log) Record_) :=
  Claim now DefaultConfig pel_order poison_order None "q" "g" "c1" None m.
Definition ack_run (m : Manager (Adapter Log) Record_) := Ack pel_order "q" "g" "c1" 0 m.

(** The first record goes to the consumer. *)
Example claims_first : (claim_run broker).1 = Ret (0, "$queue/q/a"%string).
Proof. vm_compute. reflexivity. Qed.

Notation broker_step := (ManagerSafety.mstep (regime := false) now DefaultConfig pel_order consumer_order poison_order None None).

Lemma claim_step : broker_step broker (claim_run broker).2.
Proof.
  apply (ManagerSafety.step_operation _ _ _ _ _ _ _ "q" "g" (λ gr, Mode gr ≠ GroupModeStream)
    (λ m, (claim_run m).2)); [by constructor|].
  intros gr. change (store broker) with grouped. rewrite grouped_live. by intros [= <-].
Qed.

Lemma settled_run : rtc broker_step broker (ack_run (claim_run broker).2).2.
Proof.
  eapply rtc_l; [exact claim_step|]. apply rtc_once.
  by apply (ManagerSafety.step_operation _ _ _ _ _ _ _ "q" "g" (λ _, True) (λ m, (ack_run m).2)); [constructor|].
Qed.

Lemma groups_progress_witness :
  rtc broker_step broker (ack_run (claim_run broker).2).2 ∧
  ∃ gr', live "q" "g" (store (ack_run (claim_run broker).2).2) = Some gr' ∧ Mode gr' = GroupModeQueue ∧
    0 <= committed_of gr' <= cursor_of gr'.
Proof.
  split; [exact settled_run|].
  destruct (ManagerSafety.groups_progress now DefaultConfig pel_order consumer_order poison_order None None false
    broker _ "q" "g" new_group (λ _, reflexivity _) settled_run grouped_valid grouped_live new_group_inv)
    as (gr' & Hl & Hm & Hk & _).
  exists gr'. split; [exact Hl|]. split; [exact Hm|exact Hk].
Defined.

(** ** The next record *)

Definition cursor_claim := claimFromCursor (Env := Record_) now DefaultConfig new_group "c1" None broker.

Lemma cursor_claim_eq : cursor_claim = (Ret (0, "$queue/q/a"%string), cursor_claim.2).
Proof. vm_compute. reflexivity. Qed.

Lemma claim_takes_next_witness :
  cursor_claim = (Ret (0, "$queue/q/a"%string), cursor_claim.2) ∧
  ∃ gr' e, live "q" "g" (store cursor_claim.2) = Some gr' ∧ Some e ∈ all (PEL gr') ∧
    ConsumerID e = "c1"%string ∧ DeliveryCount e = 1.
Proof.
  split; [exact cursor_claim_eq|].
  destruct (ManagerClaims.claim_takes_next now DefaultConfig "q" "g" new_group "c1" None 3 broker
    cursor_claim.2 (0, "$queue/q/a"%string) grouped_valid grouped_live eq_refl cursor_claim_eq)
    as (o & t & gr' & e & _ & _ & _ & Hl & _ & _ & He & _ & Hc & Hd).
  exists gr', e. split; [exact Hl|]. split; [exact He|]. split; [exact Hc|exact Hd].
Defined.

(** A group with a filter passes the first two records over. *)
Definition only_c : option Filter.Filter := Some (Filter.NewFilter "c").

(** The adapter's writes go through here. *)
Lemma returned {A B} (r : A * B) a : r.1 = a → r = (a, r.2).
Proof. intros <-. apply surjective_pairing. Qed.

Lemma writes_go_through : ManagerClaims.writes_succeed (store broker) new_group "c1" 2.
Proof.
  intros t. eexists _, _. split; apply returned; vm_compute; reflexivity.
Qed.

Lemma claim_finds_next_witness :
  (claimFromCursor (Env := Record_) now DefaultConfig new_group "c1" only_c broker).1 =
    Ret (2, "$queue/q/c"%string).
Proof.
  apply (ManagerClaims.claim_finds_next now DefaultConfig "q" "g" new_group "c1" only_c 3 broker 2
    (2, "$queue/q/c"%string) grouped_valid grouped_live).
  - done.
  - reflexivity.
  - vm_compute. by split.
  - by vm_compute.
  - intros o' Ho. change (ManagerClaims.claim_from (store broker) new_group) with 0 in Ho.
    assert (o' = 0 ∨ o' = 1) as [-> | ->] by lia; left; vm_compute; reflexivity.
  - split_and!; [vm_compute; reflexivity|vm_compute; reflexivity|done].
  - exact writes_go_through.
Defined.

(** ** The retention point *)

Definition claimed : Manager (Adapter Log) Record_ := (claim_run broker).2.


(** An acknowledgement of a stream that was found to commit on delivery, and gets the
    lock after the stream has been switched to commits by hand: the committed
    position passes a record that is pending. *)
Definition stream_group (auto : bool) : state (Manager (Adapter Log) Record_) (outcome QErr (ConsumerGroup * bool)) :=
  getOrCreateGroup (Env := Record_) now "q" "s" "#" GroupModeStream auto true.
Example late_ack_passes_pending :
  let m := (stream_group true (mkManager opened ∅ ∅ ∅ 0 0 0 [] [])).2 in
  let m := (stream_group false m).2 in
  let m := (ClaimManualStream (Env := Record_) now DefaultConfig pel_order poison_order None "q" "s" "c1" None m).2 in
  let m := (advanceCommittedTo (Env := Record_) "q" "s" 1 m).2 in
  (λ gr, (committed_of gr, offsets (all (PEL gr)))) <$> live "q" "s" (store m) = Some (1, [0]).
Proof. vm_compute. reflexivity. Qed.

(** ** The two halves of a group disagree *)

(** A consumer state on disk whose cursor is five. *)
Definition at_five : CS.Disk := CS.mkDisk None ∅ [CS.Rec (CS.OpSetCursor 5 0)].
Definition restarted (group : string) : Adapter Log :=
  mkAdapter {[ "q"%string := NewConsumerManager 4 (λ _ _, 0) 0 0 {[ group := at_five ]} ]}
    (GroupFiles.mkStateStore ∅ ∅ ∅) 0 [].

(** The consumer state of a group is in a directory named by the group, and a
    start loads only the directories at the top: a group with a slash in its
    name, as the groups of patterns have, is read back with a cursor of zero. *)
Example slash_group_forgets :
  (CS.Cursor <$> GetGroupState "q" "workers" (restarted "workers")) = Ret 5 ∧
  (CS.Cursor <$> GetGroupState "q" "workers@images/#" (restarted "workers@images/#")) = Ret 0.
Proof. by vm_compute. Qed.

(** Deleting a group removes its object and leaves its consumer state: a new
    group of the name starts with the old cursor and the old pending entries. *)
Example recreated_group_resumes :
  let a := (DeleteConsumerGroup (λ _, true) ["data"; "groups"]%string "q" "g" (store claimed)).2 in
  let a := (GroupStore.CreateConsumerGroup (Env := Record_) new_group a).2 in
  (λ gr, (cursor_of gr, offsets (all (PEL gr)))) <$> live "q" "g" a = Some (1, [0]).
Proof. by vm_compute. Qed.

End DiskBroker.
