(* ===== verification/AmqpArgs.v ===== *)
(** * Arguments of AMQP 0.9.1 methods (src/amqp/broker/channel.go, from [extractConsumerGroup])

    How [Queue.Declare] and [Basic.Consume] read their argument tables: queue
    type, retention, message TTL, stream offsets, consumer groups.  The handlers of
    [AmqpChannel] call these functions; [AmqpExamples] runs them. *)

From Stdlib Require Import ZArith Lia Bool Ascii String Strings.Byte.
From stdpp Require Import gmultiset prelude gmap strings.
From S2P Require Import Prelude GoStrings Strconv Payload Envelope Topics Routing QueueConfig.
From S2P Require Import AmqpTypes.

(** ** What the functions use of the Go library *)

(** Unicode case tables, floating point and the printing of composite values are
    left to the implementation of the library. *)
Class GoText := {
  unicode_ToLower : string → string;
  unicode_ToUpper : string → string;
  unicode_Quote : string → string;
  time_ParseDuration : string → option Z;
  (** [time.Duration(f * float64(unit))] for the number in the text *)
  ParseFloat_times : string → Z → option Z;
  Sprint_composite : value → string
}.

Definition char_code (c : ascii) : Z := Z.of_N (N_of_ascii c).
Definition is_ascii (s : string) : bool := forallb (λ b, b2z b <? 128) (bytes_of s).

Definition lower_char (c : ascii) : ascii :=
  if in_range 65 90 (char_code c) then ascii_of_N (Z.to_N (char_code c + 32)) else c.
Definition upper_char (c : ascii) : ascii :=
  if in_range 97 122 (char_code c) then ascii_of_N (Z.to_N (char_code c - 32)) else c.

Definition ToLower `{GoText} (s : string) : string :=
  if is_ascii s then map_str lower_char s else unicode_ToLower s.
Definition ToUpper `{GoText} (s : string) : string :=
  if is_ascii s then map_str upper_char s else unicode_ToUpper s.

(** [strconv.Quote]. *)
Definition quote_mark : ascii := ascii_of_nat 34.
Definition hex_digit (n : Z) : ascii :=
  ascii_of_N (Z.to_N (if n <? 10 then 48 + n else 87 + n)).
Definition quote_char (c : ascii) : string :=
  let n := char_code c in
  let escaped (d : ascii) := String "\"%char (String d EmptyString) in
  if (n =? 34) || (n =? 92) then escaped c
  else if n =? 7 then escaped "a"%char
  else if n =? 8 then escaped "b"%char
  else if n =? 12 then escaped "f"%char
  else if n =? 10 then escaped "n"%char
  else if n =? 13 then escaped "r"%char
  else if n =? 9 then escaped "t"%char
  else if n =? 11 then escaped "v"%char
  else if (n <? 32) || (n =? 127)
  then String "\"%char (String "x"%char (String (hex_digit (n / 16)) (String (hex_digit (n mod 16)) EmptyString)))
  else String c EmptyString.
Fixpoint quote_chars (s : string) : string :=
  match s with
  | EmptyString => String quote_mark EmptyString
  | String c s => quote_char c +:+ quote_chars s
  end.
Definition Quote `{GoText} (s : string) : string :=
  if is_ascii s then String quote_mark (quote_chars s) else unicode_Quote s.

(** White space runes by the bytes of their UTF-8 encoding. *)
Definition space1 (b0 : Z) : bool := in_range 0x09 0x0D b0 || (b0 =? 0x20).
Definition space2 (b0 b1 : Z) : bool := (b0 =? 0xC2) && ((b1 =? 0x85) || (b1 =? 0xA0)).
Definition space3 (b0 b1 b2 : Z) : bool :=
  ((b0 =? 0xE1) && (b1 =? 0x9A) && (b2 =? 0x80))
  || ((b0 =? 0xE2) && (b1 =? 0x80)
      && (in_range 0x80 0x8A b2 || (b2 =? 0xA8) || (b2 =? 0xA9) || (b2 =? 0xAF)))
  || ((b0 =? 0xE2) && (b1 =? 0x81) && (b2 =? 0x9F))
  || ((b0 =? 0xE3) && (b1 =? 0x80) && (b2 =? 0x80)).

Fixpoint trim_left (l : list byte) : list byte :=
  match l with
  | [] => []
  | b0 :: l1 =>
      if space1 (b2z b0) then trim_left l1
      else match l1 with
      | b1 :: l2 =>
          if space2 (b2z b0) (b2z b1) then trim_left l2
          else match l2 with
          | b2 :: l3 => if space3 (b2z b0) (b2z b1) (b2z b2) then trim_left l3 else l
          | [] => l
          end
      | [] => l
      end
  end.
(** The same from the end, on the reversed bytes. *)
Fixpoint trim_left_rev (l : list byte) : list byte :=
  match l with
  | [] => []
  | b0 :: l1 =>
      if space1 (b2z b0) then trim_left_rev l1
      else match l1 with
      | b1 :: l2 =>
          if space2 (b2z b1) (b2z b0) then trim_left_rev l2
          else match l2 with
          | b2 :: l3 => if space3 (b2z b2) (b2z b1) (b2z b0) then trim_left_rev l3 else l
          | [] => l
          end
      | [] => l
      end
  end.
Definition TrimSpace (s : string) : string :=
  string_of (reverse (trim_left_rev (reverse (trim_left (bytes_of s))))).

(** [args[key]]. *)
Fixpoint table_get (key : string) (t : table) : option value :=
  match t with
  | [] => None
  | (k, v) :: t => if str_eqb k key then Some v else table_get key t
  end.

(** [fmt.Sprintf("%v", v)]. *)
Definition Sprint_v `{GoText} (v : value) : string :=
  match v with
  | VBool b => FormatBool b
  | VInt8 n | VByte n | VInt16 n | VUint16 n | VInt32 n | VInt n | VInt64 n => FormatInt n
  | VUint64 n => FormatUint n
  | VString s => s
  | VNil => "<nil>"%string
  | _ => Sprint_composite v
  end.

(** ** Cursors (queue/types/config.go) *)

Inductive CursorPosition :=
| CursorDefault | CursorEarliest | CursorLatest | CursorOffset | CursorTimestamp.
Inductive GroupMode := GroupModeUnset | GroupModeQueue | GroupModeStream.
Record CursorOption := mkCursor {
  CU_Position : CursorPosition;
  CU_Offset : Z;
  CU_Timestamp : Z;
  CU_Mode : GroupMode;
  CU_AutoCommit : option bool
}.
#[export] Instance eta_Cursor : Eta CursorOption := λ c,
  mkCursor (CU_Position c) (CU_Offset c) (CU_Timestamp c) (CU_Mode c) (CU_AutoCommit c).
(** [CursorOption{Position: p, Offset: off, Timestamp: ts}]. *)
Definition cursor_at (p : CursorPosition) (off ts : Z) : CursorOption :=
  mkCursor p off ts GroupModeUnset None.

Section args.
Context `{GoText}.

(** ** The argument parsers *)

Definition extractConsumerGroup (args : table) : string :=
  match table_get "x-consumer-group" args with
  | None => EmptyString
  | Some (VString v) => v
  | Some (VBytes v) => string_of v
  | Some v => Sprint_v v
  end.

Definition extractQueueType (args : table) : string :=
  match table_get "x-queue-type" args with
  | None => Config.QueueTypeClassic
  | Some (VString v) => if str_eqb v EmptyString then Config.QueueTypeClassic else ToLower v
  | Some (VBytes v) =>
      if (length v =? 0)%nat then Config.QueueTypeClassic else ToLower (string_of v)
  | Some _ => Config.QueueTypeClassic
  end.

(** A [time.Duration] is 64 bits of nanoseconds. *)
Definition Day : Z := 24 * Config.Hour.
Definition parseDurationArg (val : value) : option Z :=
  match val with
  | VString v =>
      let trimmed := TrimSpace v in
      if str_eqb trimmed EmptyString then None
      else match time_ParseDuration trimmed with
      | Some d => Some d
      | None =>
          let upper := ToUpper trimmed in
          let days := if HasSuffix upper "D" then ParseFloat_times (TrimSuffix upper "D") Day else None in
          match days with
          | Some d => Some d
          | None =>
              if HasSuffix upper "W" then ParseFloat_times (TrimSuffix upper "W") (7 * Day) else None
          end
      end
  | VInt v | VInt64 v => Some (i64 (v * Config.Second))
  | VUint64 v => Some (i64 (i64 v * Config.Second))
  | _ => None
  end.

Definition parse_int_text (s : string) : option Z :=
  match ParseInt (TrimSpace s) with Ret n => Some n | _ => None end.

Definition parseInt64Arg (val : value) : option Z :=
  match val with
  | VInt64 v | VInt32 v | VInt v => Some v
  | VUint64 v => if 2 ^ 63 - 1 <? v then None else Some v
  | VString v => parse_int_text v
  | VBytes v => parse_int_text (string_of v)
  | _ => None
  end.

Definition parseStringArg (val : option value) : option string :=
  match val with
  | Some (VString v) => Some (TrimSpace v)
  | Some (VBytes v) => Some (TrimSpace (string_of v))
  | _ => None
  end.

(** [if val, ok := args[key]; ok { if n, ok := parse(val); ok { field = n } }]. *)
Definition arg_or (args : table) (key : string) (parse : value → option Z) (dflt : Z) : Z :=
  match table_get key args with
  | Some val => default dflt (parse val)
  | None => dflt
  end.

Definition extractStreamRetention (args : table) : Config.RetentionPolicy :=
  Config.mkRetentionPolicy
    (arg_or args "x-max-age" parseDurationArg 0)
    0
    (arg_or args "x-max-length-bytes" parseInt64Arg 0)
    (arg_or args "x-max-length" parseInt64Arg 0)
    0 false EmptyString 0 0.

Definition Millisecond : Z := 1000000.
Definition extractMessageTTL (args : table) : option Z :=
  match table_get "x-message-ttl" args with
  | None => None
  | Some val =>
      match parseInt64Arg val with
      | None => None
      | Some ms => if ms <? 0 then None else Some (i64 (ms * Millisecond))
      end
  end.

(** Unix seconds or, above [1e12], milliseconds, as nanoseconds. *)
Definition parseUnixTimestamp (raw : string) : option Z :=
  if str_eqb raw EmptyString then None
  else match ParseInt raw with
  | Ret val => if 10 ^ 12 <? val then Some (val * Millisecond) else Some (val * Config.Second)
  | _ => None
  end.

Definition parse_offset_text (v : string) : option CursorOption :=
  match ParseUint v with
  | Ret off => Some (cursor_at CursorOffset off 0)
  | _ => None
  end.

Definition parseStreamOffsetString (val : string) : option CursorOption :=
  if str_eqb val EmptyString then None
  else
    let v := ToLower (TrimSpace val) in
    if str_eqb v "first" then Some (cursor_at CursorEarliest 0 0)
    else if str_eqb v "last" || str_eqb v "next" then Some (cursor_at CursorLatest 0 0)
    else
      let v := if HasPrefix v "offset=" then TrimPrefix v "offset=" else v in
      if HasPrefix v "timestamp=" then
        match parseUnixTimestamp (TrimPrefix v "timestamp=") with
        | Some ts => Some (cursor_at CursorTimestamp 0 ts)
        | None => parse_offset_text v
        end
      else parse_offset_text v.

Definition extractStreamOffset (args : table) : option CursorOption :=
  match table_get Message.PropertyStreamOffset args with
  | None => None
  | Some (VString v) => parseStreamOffsetString v
  | Some (VBytes v) => parseStreamOffsetString (string_of v)
  | Some (VInt v) | Some (VInt64 v) => Some (cursor_at CursorOffset (u64 v) 0)
  | Some (VUint64 v) => Some (cursor_at CursorOffset v 0)
  | Some _ => None
  end.

Definition extractAutoCommit (args : table) : option bool :=
  match table_get "x-auto-commit" args with
  | Some (VBool v) => Some v
  | Some (VString v) => Some (str_eqb v "true")
  | _ => None
  end.

End args.
