(* ===== verification/AmqpChannel.v ===== *)
(** * AMQP 0.9.1 channels (src/amqp/broker: channel.go, connection.go, policy.go, broker.go)

    One connection with its channels as a state machine.  A handler is a function in
    a state monad over [Conn]; what it does to the outside (frames written, calls
    of the queue manager, the topic router, the cluster) is appended to the trace
    [out], and what the outside answers is a function of that trace, so that every
    call can be answered differently.  A handler runs without interruption; where
    other goroutines run between its critical sections matters for the prefetch
    window, [AmqpDelivery] cuts the deliveries into these sections.

    Theorems: the frames of a publication are put together into exactly one
    completed message or close the channel; publisher confirms are numbered
    without gaps; acknowledgements settle each delivery once; the prefetch window
    is overrun by no more than the deliveries that run at once, and is refilled by
    an acknowledgement; the queue registrations
    of a connection count its consumers; identities cannot be forged and a prefix
    grant cannot address a queue. *)

From Stdlib Require Import ZArith Lia Bool Ascii String Strings.Byte.
From stdpp Require Import gmultiset prelude gmap strings.
From S2P Require Import Prelude State GoStrings Strconv Payload Envelope Topics Routing QueueConfig.
From S2P Require Import Codec AmqpTypes AmqpMethods AmqpFrame AmqpArgs QueueErrors Base64.

Notation propmap := (gmap string string).

(** ** Data *)

Record consumer := mkConsumer {
  c_tag : string;
  c_queue : string;
  c_mqttFilter : string;
  c_queueName : string;
  c_pattern : string;
  c_groupID : string;
  c_noAck : bool;
  c_exclusive : bool
}.
#[export] Instance consumer_eq_dec : EqDecision consumer.
Proof. solve_decision. Defined.

Record queueInfo := mkQueueInfo { qi_name : string; qi_queueType : string; qi_args : table }.

Record exchange := mkExchange {
  ex_name : string; ex_typ : string; ex_durable : bool; ex_autoDelete : bool; ex_internal : bool
}.

Record binding := mkBinding {
  b_queue : string; b_exchange : string; b_routingKey : string; b_arguments : table
}.

Record unackedDelivery := mkUnacked {
  u_deliveryTag : Z;
  u_routingKey : string;
  u_queueName : string;
  u_groupID : string;
  u_offset : Z;
  u_queued : bool
}.

Record pendingDelivery := mkPending {
  p_consumerTag : string;
  p_queue : string;
  p_topic : string;
  p_payload : list byte;
  p_props : propmap
}.

Record Channel := mkChannel {
  exchanges : gmap string exchange;
  queues : gmap string queueInfo;
  bindings : list binding;
  consumers : gmap string consumer;
  nextTag : Z;
  pendingHeader : option ContentHeader;
  pendingBody : list byte;
  pendingMethod : option BasicPublish;
  pendingBodySize : Z;
  pendingBodyReceived : Z;
  unacked : gmap Z unackedDelivery;
  flow : bool;
  confirmMode : bool;
  publishSeq : Z;
  prefetchCount : Z;
  prefetchSize : Z;
  pendingDeliveries : list pendingDelivery;
  queueSeq : Z;
  serverClosing : bool;
  closed : bool
}.
#[export] Instance eta_Channel : Eta Channel := λ c,
  mkChannel (exchanges c) (queues c) (bindings c) (consumers c) (nextTag c) (pendingHeader c)
    (pendingBody c) (pendingMethod c) (pendingBodySize c) (pendingBodyReceived c) (unacked c)
    (flow c) (confirmMode c) (publishSeq c) (prefetchCount c) (prefetchSize c)
    (pendingDeliveries c) (queueSeq c) (serverClosing c) (closed c).

Definition newChannel : Channel :=
  mkChannel ∅ ∅ [] ∅ 0 None [] None 0 0 ∅ true false 0 0 0 [] 0 false false.

Record queueRegistration := mkRegistration { r_queueName : string; r_pattern : string; r_groupID : string }.
#[export] Instance queueRegistration_eq_dec : EqDecision queueRegistration.
Proof. solve_decision. Defined.
#[export] Instance queueRegistration_countable : Countable queueRegistration.
Proof.
  refine (inj_countable' (λ r, (r_queueName r, r_pattern r, r_groupID r))
            (λ '(q, p, g), mkRegistration q p g) _); by intros [].
Defined.

(** A message handed to the queue manager: the fields [queuePublishEnvelope] sets
    on a blank envelope. *)
Record Queued := mkQueued {
  q_Topic : string;
  q_Body : list byte;
  q_Source : Message.SourceMetadata;
  q_Trace : Message.TraceMetadata;
  q_Properties : propmap
}.

Inductive Settlement := SAck | SNack | SReject.

(** What a handler does to the outside.  [EMethod] and [EContent] are writes to the
    socket with their result; the other constructors are calls of other components. *)
Inductive Effect :=
| EMethod (channel : Z) (m : AnyMethod) (err : option Error)
| EContent (frames : list Frame) (err : option Error)
| EQueuePublish (msg : Queued) (err : option QErr)
| EDurablePublish (queueName : string) (msg : Queued)
| ESettle (how : Settlement) (queueName groupID : string) (offset : Z)
| ECommitOffset (queueName groupID : string) (offset : Z)
| ECreateQueue (cfg : Config.QueueConfig)
| EUpdateQueue (cfg : Config.QueueConfig)
| ESubscribe (existing : bool) (queueName pattern clientID groupID : string)
    (cursor : option CursorOption)
| EUnsubscribe (queueName pattern clientID groupID : string)
| ERouterSubscribe (clientID filter : string)
| ERouterUnsubscribe (clientID filter : string)
| EClusterAdd (clientID filter : string)
| EClusterRemove (clientID filter : string)
| ECapture (msg : Queued)
| EDeliverTo (connID topic : string) (payload : list byte) (props : propmap)
| ECrossDeliver (clientID topic : string) (payload : list byte) (qos : Z) (props : propmap)
| EClusterRoute (topic : string) (payload : list byte) (props : propmap)
| EClusterRelease (clientID : string)
| EForget (clientID : string).

Definition trace := list Effect.

(** ** The connection's state *)

Record Conn := mkConn {
  channels : gmap Z Channel;
  queueRegistrations : gmap queueRegistration Z;
  deliveryTag : Z;
  conn_closed : bool;
  outstanding : gmap string Z;
  out : trace
}.
#[export] Instance eta_Conn : Eta Conn := λ c,
  mkConn (channels c) (queueRegistrations c) (deliveryTag c) (conn_closed c) (outstanding c) (out c).

(** ** What a connection is given (policy.go, broker.go)

    The queue manager, the hooks, the authorizers, the topic router and the cluster
    are other components: a field holds their answer to a call, after the calls
    made so far. *)

Inductive DurableOutcome := DurableDone (err : option QErr) | DurableTimeout.

Record QueueManager := mkQM {
  qm_Publish : trace → Queued → option QErr;
  (** the configuration [GetQueue] returns; [None] for an error or nil *)
  qm_GetQueue : trace → string → option Config.QueueConfig;
  qm_CreateQueue : trace → Config.QueueConfig → option QErr;
  qm_UpdateQueue : trace → Config.QueueConfig → option QErr;
  qm_Subscribe : trace → Effect → option QErr;
  (** the optional interfaces the manager implements *)
  qm_ExistingQueueSubscriber : bool;
  qm_durableStream : option (trace → string → Queued → DurableOutcome);
  qm_TopicQueuePublisher : bool
}.

Inductive LocalPrincipalRole := LocalRolePublisher | LocalRoleService.
#[export] Instance LocalPrincipalRole_eq_dec : EqDecision LocalPrincipalRole.
Proof. solve_decision. Defined.

Definition PermitsConsumers (r : LocalPrincipalRole) : bool := bool_decide (r = LocalRoleService).
Definition PropagatesOriginIdentity (r : LocalPrincipalRole) : bool :=
  bool_decide (r = LocalRoleService).

Record LocalSessionIdentity := mkIdentity {
  li_PrincipalID : string;
  li_Role : LocalPrincipalRole;
  li_CredentialFingerprint : string;
  li_PermissionsFingerprint : string;
  li_CertificateURI : string;
  li_CertificateFingerprint : string
}.

Inductive LocalPublishGrant :=
| LocalPublishGrantNone | LocalPublishGrantExactTarget | LocalPublishGrantPrefix.
#[export] Instance LocalPublishGrant_eq_dec : EqDecision LocalPublishGrant.
Proof. solve_decision. Defined.
Definition Allowed (g : LocalPublishGrant) : bool := bool_decide (g ≠ LocalPublishGrantNone).

Record LocalPrincipalAuthorizer := mkAuthz {
  CanPublishLocal : trace → LocalSessionIdentity → string → string → LocalPublishGrant;
  CanSubscribeLocal : trace → LocalSessionIdentity → string → bool
}.

Record AuthEngine := mkAuth {
  CanPublish : trace → string → string → bool;
  CanSubscribe : trace → string → string → bool;
  ExternalID : string → string
}.

Inductive HookKind := HookAuthOnPublish | HookAuthOnSubscribe.
Record BlockingHookRequest := mkHookRequest {
  HR_Hook : HookKind;
  HR_ClientID : string;
  HR_ExternalID : string;
  HR_Topic : string;
  HR_Payload : list byte;
  HR_Properties : propmap
}.

Inductive ConnectionPolicyMode := ConnectionPolicyExternal | ConnectionPolicyLocal.
Record ConnectionPolicy := mkPolicy {
  mode : ConnectionPolicyMode;
  trusted : bool;
  externalAuth : option AuthEngine;
  (** [Handle]: the rewritten request, [None] when denied *)
  hooks : option (trace → BlockingHookRequest → option BlockingHookRequest);
  localAuthz : option LocalPrincipalAuthorizer;
  maxMessageSize : Z
}.

Definition carriesReservedProperties (p : ConnectionPolicy) : bool := trusted p.
Definition usesLocalPrincipalAuth (p : ConnectionPolicy) : bool :=
  match mode p with ConnectionPolicyLocal => true | ConnectionPolicyExternal => false end.

Definition NewExternalConnectionPolicy (auth : option AuthEngine) hooks (maxSize : Z) : ConnectionPolicy :=
  mkPolicy ConnectionPolicyExternal false auth hooks None maxSize.
Definition NewLocalConnectionPolicy (authz : option LocalPrincipalAuthorizer) (maxSize : Z) : ConnectionPolicy :=
  mkPolicy ConnectionPolicyLocal true None None authz maxSize.

Record Env := mkEnv {
  connID : string;
  frameMax : Z;
  channelMax : Z;
  policy : option ConnectionPolicy;
  broker_auth : option AuthEngine;
  broker_hooks : option (trace → BlockingHookRequest → option BlockingHookRequest);
  localIdentity : option LocalSessionIdentity;
  queueManager : option QueueManager;
  (** the matching subscriptions as client and QoS; [None] for an error *)
  router_Match : trace → string → option (list (string * Z));
  connected : trace → string → bool;
  crossDeliver : bool;
  cluster_RoutePublish : option (trace → string → list byte → propmap → option Error);
  (** the result of flushing to the socket *)
  socket : trace → option Error;
  (** the order in which [range] walks a map *)
  range_consumers : trace → gmap string consumer → list (string * consumer);
  range_unacked : trace → gmap Z unackedDelivery → list (Z * unackedDelivery);
  range_props : trace → propmap → list (string * string);
  range_channels : trace → gmap Z Channel → list (Z * Channel)
}.

(** [range] visits every entry of a map once, in any order. *)
Class RangeOk (env : Env) : Prop := {
  range_consumers_perm h m : range_consumers env h m ≡ₚ map_to_list m;
  range_unacked_perm h m : range_unacked env h m ≡ₚ map_to_list m;
  range_props_perm h m : range_props env h m ≡ₚ map_to_list m;
  range_channels_perm h m : range_channels env h m ≡ₚ map_to_list m
}.

(** ** The monad of handlers *)

Notation M := (state Conn).

Definition emit (e : Effect) : M unit := modify (λ s, s <| out := out s ++ [e] |>).

(** Through the pointer of an open channel. *)
Definition get_ch (cid : Z) : M Channel := gets (λ s, default newChannel (channels s !! cid)).
Definition mod_ch (cid : Z) (f : Channel → Channel) : M unit :=
  modify (λ s, s <| channels := alter f cid (channels s) |>).

(** A non-nil error of a handler ends the connection. *)
Inductive HErr := HWrite (e : Error) | HUnhandled | HDecode | HUnknownChannel | HUnexpected.

Section connection.
Context `{GoText} (env : Env).

(** ** connection.go: policy, registrations, writing *)

Definition connectionPolicy : ConnectionPolicy :=
  match policy env with
  | Some p => p
  | None => mkPolicy ConnectionPolicyExternal false (broker_auth env) (broker_hooks env) None 0
  end.

Definition externalID (clientID : string) : string :=
  match localIdentity env with
  | Some id => li_PrincipalID id
  | None => match externalAuth connectionPolicy with
            | Some auth => ExternalID auth clientID
            | None => EmptyString
            end
  end.

Definition applyHook (req : BlockingHookRequest) : M (option BlockingHookRequest) :=
  match hooks connectionPolicy with
  | None => mret (Some req)
  | Some handle => h ← gets out; mret (handle h req)
  end.

Definition normalizeExchange (name : string) : string :=
  if str_eqb name "amq.default" then EmptyString else name.

Definition canPublishLocal (exchange routingKey : string) : M LocalPublishGrant :=
  if negb (usesLocalPrincipalAuth connectionPolicy) then mret LocalPublishGrantNone
  else match localAuthz connectionPolicy, localIdentity env with
  | Some authz, Some identity =>
      h ← gets out;
      mret (CanPublishLocal authz h identity (normalizeExchange exchange) routingKey)
  | _, _ => mret LocalPublishGrantNone
  end.

Definition localRole : LocalPrincipalRole :=
  match localIdentity env with None => LocalRolePublisher | Some id => li_Role id end.
Definition permitsConsumers : bool :=
  usesLocalPrincipalAuth connectionPolicy && PermitsConsumers localRole.
Definition propagatesOriginIdentity : bool :=
  carriesReservedProperties connectionPolicy &&
  (negb (usesLocalPrincipalAuth connectionPolicy) || PropagatesOriginIdentity localRole).

Definition canSubscribeLocal (queue : string) : M bool :=
  if negb permitsConsumers then mret false
  else match localAuthz connectionPolicy, localIdentity env with
  | Some authz, Some identity => h ← gets out; mret (CanSubscribeLocal authz h identity queue)
  | _, _ => mret false
  end.

Definition PrefixedClientID : string := PrefixedAMQP091ClientID (connID env).

Definition registration_of (co : consumer) : queueRegistration :=
  mkRegistration (c_queueName co) (c_pattern co) (c_groupID co).

Definition retainQueueRegistration (co : consumer) : M unit :=
  if str_eqb (c_queueName co) EmptyString then mret tt
  else modify (λ s,
    let key := registration_of co in
    s <| queueRegistrations :=
           <[key := default 0 (queueRegistrations s !! key) + 1]> (queueRegistrations s) |>).

Definition releaseQueueRegistration (co : consumer) : M bool := λ s,
  if str_eqb (c_queueName co) EmptyString then (false, s)
  else
    let key := registration_of co in
    match queueRegistrations s !! key with
    | None => (false, s)
    | Some owners =>
        if 1 <? owners
        then (false, s <| queueRegistrations := <[key := owners - 1]> (queueRegistrations s) |>)
        else (true, s <| queueRegistrations := delete key (queueRegistrations s) |>)
    end.

Definition nextDeliveryTag : M Z := λ s,
  let tag := u64 (deliveryTag s + 1) in (tag, s <| deliveryTag := tag |>).

Definition writeMethod (channel : Z) (method : AnyMethod) : M (option Error) :=
  match any_Write method with
  | (_, Some e) => mret (Some e)
  | (_, None) =>
      h ← gets out;
      let err := socket env h in
      emit (EMethod channel method err);; mret err
  end.

(** [Connection.writeFrames]. *)
Definition write_frames (frames : list Frame) : M (option Error) :=
  h ← gets out;
  let err := socket env h in
  emit (EContent frames err);; mret err.

Definition conn_sendChannelClose (cid code : Z) (text : string) (classID methodID : Z) : M (option Error) :=
  writeMethod cid (MChannelClose (mkChannelClose code text classID methodID)).
Definition sendConnectionClose (code : Z) (text : string) (classID methodID : Z) : M (option Error) :=
  writeMethod 0 (MConnectionClose (mkConnectionClose code text classID methodID)).

(** ** channel.go: closing a publication, closing the channel *)

Definition reset_pending (ch : Channel) : Channel :=
  ch <| pendingMethod := None |> <| pendingHeader := None |> <| pendingBody := [] |>
     <| pendingBodySize := 0 |> <| pendingBodyReceived := 0 |>.
Definition resetPendingPublish (cid : Z) : M unit := mod_ch cid reset_pending.

Definition sendChannelClose (cid code : Z) (text : string) (classID methodID : Z) : M (option Error) :=
  mod_ch cid (λ ch : Channel, ch <| serverClosing := true |>);;
  resetPendingPublish cid;;
  conn_sendChannelClose cid code text classID methodID.

(** [_ = ch.sendChannelClose(...)], for a failed publication. *)
Definition closePublish (cid code : Z) (text : string) : M unit :=
  ignore (sendChannelClose cid code text ClassBasic MethodBasicPublish).

Definition sendPublisherAck (cid : Z) : M unit :=
  ch ← get_ch cid;
  let seq := u64 (publishSeq ch + 1) in
  mod_ch cid (λ ch : Channel, ch <| publishSeq := seq |>);;
  ignore (writeMethod cid (MBasicAck (mkBasicAck seq false))).

Definition sendPublisherNack (cid : Z) : M unit :=
  ch ← get_ch cid;
  let seq := u64 (publishSeq ch + 1) in
  mod_ch cid (λ ch : Channel, ch <| publishSeq := seq |>);;
  ignore (writeMethod cid (MBasicNack (mkBasicNack seq false false))).

Definition confirm (cid : Z) (failed : bool) : M unit :=
  if failed then sendPublisherNack cid else sendPublisherAck cid.

(** [if ch.confirmMode { if failed { nack } else { ack } }]. *)
Definition settleConfirm (cid : Z) (failed : bool) : M unit :=
  ch ← get_ch cid; when (confirmMode ch) (confirm cid failed).

(** ** channel.go: deliveries *)

Definition shouldQueueDelivery (ch : Channel) (co : consumer) : bool :=
  if negb (flow ch) then true
  else if c_noAck co then false
  else if prefetchCount ch =? 0 then false
  else prefetchCount ch <=? Z.of_nat (size (unacked ch)).

Definition enqueueDelivery (cid : Z) (co : consumer) (topic : string) (payload : list byte)
    (props : propmap) : M unit :=
  mod_ch cid (λ ch : Channel, ch <| pendingDeliveries :=
    pendingDeliveries ch ++ [mkPending (c_tag co) (c_queue co) topic payload props] |>).

(** The loop body over the properties: the header entry of [k], if any. *)
Definition delivery_header (carryReserved : bool) (kv : string * string) : option (string * value) :=
  let '(k, v) := kv in
  if negb carryReserved && Message.IsReservedProperty k then None
  else if bool_decide (k ∈ ["content-type"; "content-encoding"; "correlation-id"; "reply-to";
                            Message.PropertyMessageID; "type"]%string) then None
  else if str_eqb k Message.PropertyStreamOffset || str_eqb k Message.PropertyWorkCommitted then
    Some (k, match ParseUint v with Ret n => VInt64 (i64 n) | _ => VString v end)
  else if str_eqb k Message.PropertyStreamTimestamp then
    Some (k, match ParseInt v with Ret n => VInt64 n | _ => VString v end)
  else if str_eqb k Message.PropertyWorkAcked then Some (k, VBool (str_eqb v "true"))
  else Some (k, VString v).

Definition delivery_properties (entries : list (string * string)) (props : propmap) : BasicProperties :=
  let headers := omap (delivery_header (carriesReservedProperties connectionPolicy)) entries in
  let correlationID := Message.prop props "correlation-id" in
  let correlationID := match DecodeString64 correlationID with
                       | Some decoded => string_of decoded
                       | None => correlationID
                       end in
  mkBasicProperties (Message.prop props "content-type") EmptyString
    (if (length headers =? 0)%nat then None else Some headers) 0 0 correlationID
    (Message.prop props "reply-to") EmptyString (Message.prop props Message.PropertyMessageID) 0
    (Message.prop props "type") EmptyString EmptyString EmptyString.

Definition delivery_address (co : consumer) (topic : string) : string * string :=
  if str_eqb (c_queueName co) EmptyString then (EmptyString, MQTTTopicToAMQP topic)
  else match Cut slash topic with
       | (exchange, routingKey, true) => (exchange, routingKey)
       | _ => (EmptyString, topic)
       end.

Definition unacked_entry (co : consumer) (tag : Z) (topic : string) (props : propmap) : unackedDelivery :=
  let offset := Message.QueueOffsetFromProperties props in
  mkUnacked tag topic (c_queueName co) (Message.prop props Message.PropertyGroupID)
    (default 0 offset) (bool_decide (is_Some offset)).

Definition sendDelivery (cid : Z) (co : consumer) (topic : string) (payload : list byte)
    (props : propmap) : M (option Error) :=
  tag ← nextDeliveryTag;
  when (negb (c_noAck co))
    (mod_ch cid (λ ch : Channel, ch <| unacked := <[tag := unacked_entry co tag topic props]> (unacked ch) |>));;
  let '(exchange, routingKey) := delivery_address co topic in
  match buildMethodFrame cid (MBasicDeliver (mkBasicDeliver (c_tag co) tag false exchange routingKey)) with
  | Ret methodFrame =>
      h ← gets out;
      match buildContentHeaderFrame cid (Z.of_nat (length payload))
              (delivery_properties (range_props env h props) props) with
      | Ret headerFrame =>
          write_frames (methodFrame :: headerFrame :: buildBodyFrames cid payload (frameMax env))
      | Fail err => mret (Some err)
      | Panic => mret None
      end
  | Fail err => mret (Some err)
  | Panic => mret None
  end.

(** One round of the loop of [drainPending]; [false] leaves the loop. *)
Definition drain_round (cid : Z) : M bool :=
  ch ← get_ch cid;
  if closed ch then mret false
  else if negb (flow ch) then mret false
  else if (0 <? prefetchCount ch) && (prefetchCount ch <=? Z.of_nat (size (unacked ch)))
  then mret false
  else match pendingDeliveries ch with
  | [] => mret false
  | pd :: rest =>
      mod_ch cid (λ ch : Channel, ch <| pendingDeliveries := rest |>);;
      match consumers ch !! p_consumerTag pd with
      | None => mret true
      | Some co =>
          if negb (str_eqb (c_queue co) (p_queue pd)) then mret true
          else if shouldQueueDelivery ch co then
            mod_ch cid (λ ch : Channel, ch <| pendingDeliveries := pd :: pendingDeliveries ch |>);; mret false
          else
            err ← sendDelivery cid co (p_topic pd) (p_payload pd) (p_props pd);
            mret (bool_decide (err = None))
      end
  end.

(** Each round takes one pending delivery or ends the loop. *)
Fixpoint drain_loop (fuel : nat) (cid : Z) : M unit :=
  match fuel with
  | O => mret tt
  | S fuel => more ← drain_round cid; when more (drain_loop fuel cid)
  end.
Definition drainPending (cid : Z) : M unit :=
  ch ← get_ch cid; drain_loop (S (length (pendingDeliveries ch))) cid.

Definition consumerQueueMatches (co : consumer) (topic : string) : bool :=
  let by_filter :=
    if str_eqb (c_mqttFilter co) EmptyString then false
    else if str_eqb (c_mqttFilter co) topic then true
    else TopicMatch (c_mqttFilter co) topic in
  if str_eqb (c_queueName co) EmptyString then by_filter
  else
    let queueTopic := QueueTopic (c_queueName co) [] in
    if str_eqb topic (c_queueName co) || str_eqb topic queueTopic
    then str_eqb (c_pattern co) EmptyString || str_eqb (c_pattern co) "#"
    else if HasPrefix topic (queueTopic +:+ "/") then
      if str_eqb (c_pattern co) EmptyString then true
      else TopicMatch (c_pattern co) (TrimPrefix topic (queueTopic +:+ "/"))
    else by_filter.

(** [Channel.deliverMessage] over the consumers that were there at the start. *)
Fixpoint deliver_loop (cid : Z) (conss : list (string * consumer)) (topic : string)
    (payload : list byte) (props : propmap) (delivered : bool) : M (bool * option Error) :=
  match conss with
  | [] => mret (delivered, None)
  | (_, co) :: conss =>
      if negb (consumerQueueMatches co topic)
      then deliver_loop cid conss topic payload props delivered
      else
        ch ← get_ch cid;
        if shouldQueueDelivery ch co then
          enqueueDelivery cid co topic payload props;;
          deliver_loop cid conss topic payload props true
        else
          err ← sendDelivery cid co topic payload props;
          match err with
          | Some e => mret (delivered, Some e)
          | None => deliver_loop cid conss topic payload props true
          end
  end.

Definition deliverMessage (cid : Z) (topic : string) (payload : list byte) (props : propmap) :
    M (bool * option Error) :=
  ch ← get_ch cid;
  if closed ch then mret (false, None)
  else
    h ← gets out;
    deliver_loop cid (range_consumers env h (consumers ch)) topic payload props false.

(** [Connection.deliverMessage]; the result is whether it returns nil. *)
Fixpoint conn_deliver_loop (cids : list Z) (topic : string) (payload : list byte) (props : propmap)
    (delivered : bool) : M bool :=
  match cids with
  | [] => mret delivered
  | cid :: cids =>
      res ← deliverMessage cid topic payload props;
      conn_deliver_loop cids topic payload props (delivered || res.1)
  end.
Definition conn_deliverMessage (topic : string) (payload : list byte) (props : propmap) : M bool :=
  s ← gets id;
  if conn_closed s then mret false
  else conn_deliver_loop (range_channels env (out s) (channels s)).*1 topic payload props false.

(** ** broker.go: publishing to subscribers *)

Definition queuePublishEnvelope (topic : string) (body : list byte) (props : propmap)
    (source : Message.SourceMetadata) : Queued :=
  mkQueued topic body source (Message.TraceFromProperties props) (Message.FilterUserProperties props).

Definition capture_source (props : propmap) : Message.SourceMetadata :=
  Message.mkSource (Message.prop props Message.PropertyClientID)
    (Message.prop props Message.PropertyExternalID) (Message.prop props Message.PropertyProtocol)
    EmptyString.

(** The body of the loop over the matching subscriptions.  A subscriber on this
    connection is served here, one on another connection by that connection. *)
Definition publish_to_subscriber (topic : string) (payload : list byte) (props : propmap)
    (sub : string * Z) : M unit :=
  let '(clientID, qos) := sub in
  if IsAMQP091Client clientID then
    let id := TrimPrefix clientID AMQP091ClientPrefix in
    h ← gets out;
    if negb (connected env h id) then mret tt
    else if str_eqb id (connID env) then ignore (conn_deliverMessage topic payload props)
    else emit (EDeliverTo id topic payload props)
  else when (crossDeliver env) (emit (ECrossDeliver clientID topic payload qos props)).

(** [Broker.Publish]; the result is whether it returns an error. *)
Definition Broker_Publish (topic : string) (payload : list byte) (props : propmap) : M bool :=
  match queueManager env with
  | Some qm =>
      when (qm_TopicQueuePublisher qm)
        (emit (ECapture (queuePublishEnvelope topic payload props (capture_source props))))
  | None => mret tt
  end;;
  h ← gets out;
  match router_Match env h topic with
  | None => mret true
  | Some subs =>
      for_each subs (publish_to_subscriber topic payload props);;
      match cluster_RoutePublish env with
      | None => mret false
      | Some route =>
          h ← gets out;
          emit (EClusterRoute topic payload props);;
          mret (bool_decide (is_Some (route h topic payload props)))
      end
  end.

(** ** channel.go: completing a publication *)

Definition sendBasicReturn (cid : Z) (method : BasicPublish) (header : ContentHeader)
    (body : list byte) : M unit :=
  match buildMethodFrame cid (MBasicReturn (mkBasicReturn NoRoute "NO_ROUTE"
          (normalizeExchange (BasicPublish_Exchange method)) (BasicPublish_RoutingKey method))) with
  | Ret methodFrame =>
      match buildContentHeaderFrame cid (Z.of_nat (length body)) (ch_Properties header) with
      | Ret headerFrame =>
          ignore (write_frames (methodFrame :: headerFrame :: buildBodyFrames cid body (frameMax env)))
      | _ => mret tt
      end
  | _ => mret tt
  end.

Definition publishToPubSub (cid : Z) (pubsubTopic : string) (body : list byte) (props : propmap)
    (method : BasicPublish) (header : ContentHeader) : M unit :=
  h ← gets out;
  let unroutable :=
    BasicPublish_Mandatory method &&
    match router_Match env h pubsubTopic with
    | None => true
    | Some subs => (length subs =? 0)%nat
    end in
  if unroutable then
    sendBasicReturn cid method header body;;
    settleConfirm cid false
  else
    failed ← Broker_Publish pubsubTopic body props;
    settleConfirm cid failed.

Definition routingKeyMatches (ch : Channel) (bindingKey routingKey exchangeName : string) : bool :=
  match exchanges ch !! exchangeName with
  | None => str_eqb bindingKey routingKey
  | Some ex =>
      if str_eqb (ex_typ ex) "fanout" then true
      else if str_eqb (ex_typ ex) "direct" || str_eqb (ex_typ ex) EmptyString
      then str_eqb bindingKey routingKey
      else if str_eqb (ex_typ ex) "topic" then TopicMatch bindingKey routingKey
      else str_eqb bindingKey routingKey
  end.

Definition exchangeExists (ch : Channel) (name : string) : bool :=
  str_eqb name EmptyString || bool_decide (is_Some (exchanges ch !! name)).

Definition isDeclaredStreamQueue (ch : Channel) (name : string) : bool :=
  match queues ch !! name with
  | Some info => str_eqb (qi_queueType info) Config.QueueTypeStream
  | None => false
  end.
Definition isConfiguredStreamQueue (qm : QueueManager) (h : trace) (name : string) : bool :=
  match qm_GetQueue qm h name with
  | Some cfg => str_eqb (Config.QType cfg) Config.QueueTypeStream
  | None => false
  end.
Definition isStreamQueue (cid : Z) (name : string) : M bool :=
  ch ← get_ch cid;
  h ← gets out;
  let queueName := (ParseQueueFilter name).1 in
  let sameName := str_eqb queueName EmptyString || str_eqb queueName name in
  mret (if isDeclaredStreamQueue ch name then true
        else if negb sameName && isDeclaredStreamQueue ch queueName then true
        else match queueManager env with
        | None => false
        | Some qm =>
            if isConfiguredStreamQueue qm h name then true
            else negb sameName && isConfiguredStreamQueue qm h queueName
        end).

(** [qm.Publish(ctx, msg)]. *)
Definition queue_publish (qm : QueueManager) (msg : Queued) : M (option QErr) :=
  h ← gets out;
  let err := qm_Publish qm h msg in
  emit (EQueuePublish msg err);; mret err.

Definition handleQueuePublish (cid : Z) (queueTopic : string) (body : list byte) (props : propmap)
    (clientID : string) : M unit :=
  match queueManager env with
  | None => mret tt
  | Some qm =>
      let source := Message.SourceFromProperties props in
      let protocol := if str_eqb (Message.SRC_Protocol source) EmptyString
                      then Message.ProtocolAMQP091 else Message.SRC_Protocol source in
      let source := Message.mkSource clientID (Message.SRC_ExternalID source) protocol
                      (Message.SRC_Topic source) in
      err ← queue_publish qm (queuePublishEnvelope queueTopic body props source);
      ch ← get_ch cid;
      if confirmMode ch then confirm cid (bool_decide (is_Some err))
      else match err with
      | Some err => let '(code, text) := amqp091QueueError err in closePublish cid code text
      | None => mret tt
      end
  end.

Definition rejectLocalStreamPublish (cid : Z) (err : QErr) : M unit :=
  ch ← get_ch cid;
  if confirmMode ch then sendPublisherNack cid
  else let '(code, text) := amqp091QueueError err in closePublish cid code text.

Definition abandonLocalStreamPublish (cid : Z) : M unit :=
  ch ← get_ch cid;
  when (confirmMode ch) (sendPublisherNack cid);;
  closePublish cid InternalError "durable stream publish abandoned".

(** durable_append.go *)
Definition maxOutstandingDurableAppends : Z := 16.
Definition outstandingFor (l : gmap string Z) (queueName : string) : Z := default 0 (l !! queueName).
Definition acquire (l : gmap string Z) (queueName : string) : bool * gmap string Z :=
  if maxOutstandingDurableAppends <=? outstandingFor l queueName then (false, l)
  else (true, <[queueName := outstandingFor l queueName + 1]> l).
Definition release (l : gmap string Z) (queueName : string) : gmap string Z :=
  match l !! queueName with
  | None => l
  | Some count => if count <=? 1 then delete queueName l else <[queueName := count - 1]> l
  end.

(** An error built with [fmt.Errorf] alone. *)
Definition plain_error : QErr := mkQErr [] None.

(** The barrier runs in a goroutine of its own, which gives the slot back when the
    append ends: before the answer is used, or after the handler stopped waiting
    ([durable_append_ends]). *)
Definition handleLocalDurableStreamPublish (cid : Z) (queueName : string) (body : list byte)
    (props : propmap) (clientID : string) : M unit :=
  match queueManager env ≫= qm_durableStream with
  | None => rejectLocalStreamPublish cid plain_error
  | Some publish =>
      s ← gets id;
      let '(ok, l) := acquire (outstanding s) queueName in
      if negb ok then abandonLocalStreamPublish cid
      else
        modify (λ s, s <| outstanding := l |>);;
        let props := <[Message.PropertyClientID := clientID]> props in
        let queued := queuePublishEnvelope (QueueTopic queueName []) body props
                        (Message.SourceFromProperties props) in
        h ← gets out;
        emit (EDurablePublish queueName queued);;
        match publish h queueName queued with
        | DurableDone err =>
            modify (λ s, s <| outstanding := release (outstanding s) queueName |>);;
            match err with
            | Some err => rejectLocalStreamPublish cid err
            | None => ch ← get_ch cid; when (confirmMode ch) (sendPublisherAck cid)
            end
        | DurableTimeout => abandonLocalStreamPublish cid
        end
  end.
Definition durable_append_ends (queueName : string) : M unit :=
  modify (λ s, s <| outstanding := release (outstanding s) queueName |>).

Definition PropCommitGroupID : string := "x-group-id".
Definition PropCommitOffset : string := "x-offset".

Definition handleQueueCommit (route : RouteResult) (header : ContentHeader) : M unit :=
  match queueManager env with
  | None => mret tt
  | Some _ =>
      if str_eqb (RR_QueueName route) EmptyString then mret tt
      else
        let headers := default [] (bp_Headers (ch_Properties header)) in
        match parseStringArg (table_get PropCommitGroupID headers) with
        | None => mret tt
        | Some groupID =>
            if str_eqb groupID EmptyString then mret tt
            else match table_get PropCommitOffset headers with
            | None => mret tt
            | Some offsetVal =>
                match parseInt64Arg offsetVal with
                | None => mret tt
                | Some n =>
                    if n <? 0 then mret tt
                    else emit (ECommitOffset (RR_QueueName route) groupID n)
                end
            end
        end
  end.

(** The properties a publication gets from its content header. *)
Definition header_string (headers : table) (key : string) : string :=
  match table_get key headers with Some (VString v) => v | _ => EmptyString end.

Definition content_props (p : BasicProperties) : propmap :=
  let props : propmap := ∅ in
  let props := Message.set_nonempty "content-type" (bp_ContentType p) props in
  let props := Message.set_nonempty "content-encoding" (bp_ContentEncoding p) props in
  let props := if str_eqb (bp_CorrelationID p) EmptyString then props
               else <["correlation-id"%string := EncodeToString (bytes_of (bp_CorrelationID p))]> props in
  let props := Message.set_nonempty "reply-to" (bp_ReplyTo p) props in
  let props := Message.set_nonempty Message.PropertyMessageID (bp_MessageID p) props in
  Message.set_nonempty "type" (bp_Type p) props.

(** The loop body over the headers of a trusted listener. *)
Definition carry_reserved (props : propmap) (kv : string * value) : propmap :=
  let '(key, val) := kv in
  if negb (Message.IsReservedProperty key) then props
  else if negb propagatesOriginIdentity &&
          bool_decide (key ∈ [Message.PropertyClientID; Message.PropertyExternalID;
                              Message.PropertyProtocol]) then props
  else match val with VString v => <[key := v]> props | _ => props end.

Definition publish_props (header : ContentHeader) : propmap :=
  let clientID := PrefixedClientID in
  let headers := default [] (bp_Headers (ch_Properties header)) in
  let props := content_props (ch_Properties header) in
  let relayedID := if propagatesOriginIdentity
                   then header_string headers Message.PropertyExternalID else EmptyString in
  let props := if negb (str_eqb relayedID EmptyString)
               then <[Message.PropertyExternalID := relayedID]> props
               else Message.set_nonempty Message.PropertyExternalID (externalID clientID) props in
  let props := <[Message.PropertyProtocol := Message.ProtocolAMQP091]> props in
  let props := if propagatesOriginIdentity
               then Message.set_nonempty Message.PropertyProtocol
                      (header_string headers Message.PropertyProtocol) props
               else props in
  let props := if carriesReservedProperties connectionPolicy
               then foldl carry_reserved props headers else props in
  <[Message.PropertyClientID := clientID]> props.

(** The authorization of a complete publication; [None] when it was refused and the
    channel closed, else the grant and what the hook made of the message. *)
Definition authorizePublish (cid : Z) (method : BasicPublish) (topic : string) (body : list byte)
    (props : propmap) : M (option (LocalPublishGrant * string * list byte * propmap)) :=
  if usesLocalPrincipalAuth connectionPolicy then
    grant ← canPublishLocal (BasicPublish_Exchange method) (BasicPublish_RoutingKey method);
    if negb (Allowed grant) then
      closePublish cid AccessRefused "publish not authorized";; mret None
    else mret (Some (grant, topic, body, props))
  else
    hookReq ← applyHook (mkHookRequest HookAuthOnPublish PrefixedClientID
                           (externalID PrefixedClientID) topic body props);
    match hookReq with
    | None => closePublish cid AccessRefused "publish hook denied";; mret None
    | Some req =>
        h ← gets out;
        let refused := match externalAuth connectionPolicy with
                       | Some auth => negb (CanPublish auth h PrefixedClientID (HR_Topic req))
                       | None => false
                       end in
        if refused then closePublish cid AccessRefused "publish not authorized";; mret None
        else mret (Some (LocalPublishGrantNone, HR_Topic req, HR_Payload req, HR_Properties req))
    end.

(** The loop over the bindings of the exchange: whether one matched, and whether a
    queue publish failed. *)
Fixpoint publish_bindings (cid : Z) (bs : list binding) (check : bool) (routingKey exchangeName : string)
    (body : list byte) (props : propmap) (matched failed : bool) : M (bool * bool) :=
  match bs with
  | [] => mret (matched, failed)
  | b :: bs =>
      ch ← get_ch cid;
      if check && routingKeyMatches ch (b_routingKey b) routingKey exchangeName then
        match queueManager env with
        | Some qm =>
            err ← queue_publish qm (queuePublishEnvelope (QueueTopic (b_queue b) [routingKey]) body
                                      props (Message.SourceFromProperties props));
            publish_bindings cid bs check routingKey exchangeName body props true
              (failed || bool_decide (is_Some err))
        | None => publish_bindings cid bs check routingKey exchangeName body props true failed
        end
      else publish_bindings cid bs check routingKey exchangeName body props matched failed
  end.

(** The part of [completePublish] after the resolver: bindings, then pub/sub. *)
Definition publishToExchange (cid : Z) (method : BasicPublish) (header : ContentHeader)
    (exchangeName originalTopic topic : string) (body : list byte) (props : propmap) : M unit :=
  ch ← get_ch cid;
  let bs := filter (λ b, b_exchange b = exchangeName) (bindings ch) in
  let prefix := exchangeName +:+ "/" in
  let '(bindingRoutingKey, check) :=
    if negb (str_eqb exchangeName EmptyString) && negb (str_eqb topic originalTopic) then
      if HasPrefix topic prefix then (TrimPrefix topic prefix, true)
      else (BasicPublish_RoutingKey method, false)
    else (BasicPublish_RoutingKey method, true) in
  res ← publish_bindings cid bs check bindingRoutingKey exchangeName body props false false;
  let '(isQueuePublish, publishFailed) := res in
  if negb isQueuePublish then
    let pubsubTopic := if str_eqb exchangeName EmptyString then AMQPTopicToMQTT topic else topic in
    publishToPubSub cid pubsubTopic body props method header
  else settleConfirm cid publishFailed.

(** [exchangeName == "" && ch.isStreamQueue(topic)]. *)
Definition targetsStream (cid : Z) (exchangeName topic : string) : M bool :=
  if str_eqb exchangeName EmptyString then isStreamQueue cid topic else mret false.

(** The stream check and, failing that, the exchange. *)
Definition publishUnresolved (cid : Z) (method : BasicPublish) (header : ContentHeader)
    (exchangeName originalTopic topic : string) (body : list byte) (props : propmap) : M unit :=
  stream ← targetsStream cid exchangeName topic;
  if (stream : bool) then handleQueuePublish cid (QueueTopic topic []) body props PrefixedClientID
  else publishToExchange cid method header exchangeName originalTopic topic body props.

Definition routePublish (cid : Z) (method : BasicPublish) (header : ContentHeader)
    (grant : LocalPublishGrant) (exchangeName originalTopic topic : string) (body : list byte)
    (props : propmap) : M unit :=
  match grant with
  | LocalPublishGrantExactTarget =>
      if negb (str_eqb exchangeName EmptyString) then rejectLocalStreamPublish cid plain_error
      else handleLocalDurableStreamPublish cid (BasicPublish_RoutingKey method) body props PrefixedClientID
  | LocalPublishGrantPrefix => publishToPubSub cid (AMQPTopicToMQTT topic) body props method header
  | LocalPublishGrantNone =>
      let unresolved := publishUnresolved cid method header exchangeName originalTopic topic body props in
      if str_eqb exchangeName EmptyString then
        let route := Resolve topic in
        match RR_Kind route with
        | RouteQueueCommit => handleQueueCommit route header;; settleConfirm cid false
        | RouteQueue => handleQueuePublish cid (RR_PublishTopic route) body props PrefixedClientID
        | RouteQueueMalformed => mret tt
        | RouteQueueAck | RoutePubSub => unresolved
        end
      else unresolved
  end.

Definition finishPublish (cid : Z) (method : BasicPublish) (header : ContentHeader)
    (body : list byte) : M unit :=
  let exchangeName := normalizeExchange (BasicPublish_Exchange method) in
  let routingKey := BasicPublish_RoutingKey method in
  let topic := if negb (str_eqb exchangeName EmptyString)
               then exchangeName +:+ "/" +:+ routingKey else routingKey in
  auth ← authorizePublish cid method topic body (publish_props header);
  match auth with
  | None => mret tt
  | Some (grant, topic', body, props) =>
      routePublish cid method header grant exchangeName topic topic' body props
  end.

Definition completePublish (cid : Z) : M unit :=
  ch ← get_ch cid;
  resetPendingPublish cid;;
  match pendingMethod ch, pendingHeader ch with
  | Some method, Some header => finishPublish cid method header (pendingBody ch)
  | _, _ => mret tt
  end.

(** ** channel.go: the content frames of a publication *)

Definition handleHeaderFrame (cid : Z) (frame : Frame) : M unit :=
  ch ← get_ch cid;
  if serverClosing ch then mret tt
  else match pendingMethod ch, pendingHeader ch with
  | Some _, None =>
      match ReadContentHeader (NewReader (Frame_Payload frame)) with
      | Ret (header, _) =>
          let limit := maxMessageSize connectionPolicy in
          if (0 <? limit) && (limit <? ch_BodySize header) then
            closePublish cid ContentTooLarge "message exceeds maximum size";;
            resetPendingPublish cid
          else
            mod_ch cid (λ ch : Channel, ch <| pendingHeader := Some header |>
                                 <| pendingBodySize := ch_BodySize header |>
                                 <| pendingBodyReceived := 0 |> <| pendingBody := [] |>);;
            when (ch_BodySize header =? 0) (completePublish cid)
      | _ =>
          closePublish cid FrameError "malformed content header";;
          resetPendingPublish cid
      end
  | _, _ =>
      closePublish cid UnexpectedFrame "unexpected content header";;
      resetPendingPublish cid
  end.

Definition handleBodyFrame (cid : Z) (frame : Frame) : M unit :=
  ch ← get_ch cid;
  if serverClosing ch then mret tt
  else match pendingMethod ch, pendingHeader ch with
  | Some _, Some _ =>
      let nextSize := u64 (pendingBodyReceived ch + Z.of_nat (length (Frame_Payload frame))) in
      if pendingBodySize ch <? nextSize then
        closePublish cid ContentTooLarge "content body larger than header";;
        resetPendingPublish cid
      else
        mod_ch cid (λ ch : Channel, ch <| pendingBody := pendingBody ch ++ Frame_Payload frame |>
                             <| pendingBodyReceived := nextSize |>);;
        when (nextSize =? pendingBodySize ch) (completePublish cid)
  | _, _ =>
      closePublish cid UnexpectedFrame "unexpected content body";;
      resetPendingPublish cid
  end.

(** ** channel.go: exchanges, queues, bindings *)

Definition lift_err (e : option Error) : option HErr := HWrite <$> e.
(** [return ch.conn.writeMethod(ch.id, m)]. *)
Definition reply (cid : Z) (m : AnyMethod) : M (option HErr) :=
  err ← writeMethod cid m; mret (lift_err err).
(** [if !noWait { return ... }; return nil]. *)
Definition reply_unless (noWait : bool) (cid : Z) (m : AnyMethod) : M (option HErr) :=
  if noWait then mret None else reply cid m.
(** [return ch.sendChannelClose(...)]. *)
Definition close_with (cid code : Z) (text : string) (classID methodID : Z) : M (option HErr) :=
  err ← sendChannelClose cid code text classID methodID; mret (lift_err err).

Definition handleExchangeDeclare (cid : Z) (m : ExchangeDeclare) : M (option HErr) :=
  let name := normalizeExchange (ExchangeDeclare_Exchange m) in
  let ok := reply_unless (ExchangeDeclare_NoWait m) cid (MExchangeDeclareOk mkExchangeDeclareOk) in
  if ExchangeDeclare_Passive m then
    ch ← get_ch cid;
    if negb (exchangeExists ch name)
    then close_with cid NotFound "exchange not found" ClassExchange MethodExchangeDeclare
    else ok
  else
    mod_ch cid (λ ch : Channel, ch <| exchanges :=
      <[name := mkExchange name (ExchangeDeclare_Type m) (ExchangeDeclare_Durable m)
                  (ExchangeDeclare_AutoDelete m) (ExchangeDeclare_Internal m)]> (exchanges ch) |>);;
    ok.

Definition handleExchangeDelete (cid : Z) (m : ExchangeDelete) : M (option HErr) :=
  mod_ch cid (λ ch : Channel, ch <| exchanges :=
    delete (normalizeExchange (ExchangeDelete_Exchange m)) (exchanges ch) |>);;
  reply_unless (ExchangeDelete_NoWait m) cid (MExchangeDeleteOk mkExchangeDeleteOk).

Definition add_binding (cid : Z) (b : binding) : M unit :=
  mod_ch cid (λ ch : Channel, ch <| bindings := bindings ch ++ [b] |>).
(** [filtered := ch.bindings[:0]], keeping what [drop] does not hold of. *)
Definition filter_bindings (cid : Z) (drop : binding → bool) : M unit :=
  mod_ch cid (λ ch : Channel, ch <| bindings := filter (λ b, drop b = false) (bindings ch) |>).

Definition handleExchangeBind (cid : Z) (m : ExchangeBind) : M (option HErr) :=
  add_binding cid (mkBinding (normalizeExchange (ExchangeBind_Destination m))
    (normalizeExchange (ExchangeBind_Source m)) (ExchangeBind_RoutingKey m) (ExchangeBind_Arguments m));;
  reply_unless (ExchangeBind_NoWait m) cid (MExchangeBindOk mkExchangeBindOk).

Definition handleExchangeUnbind (cid : Z) (m : ExchangeUnbind) : M (option HErr) :=
  filter_bindings cid (λ b,
    str_eqb (b_exchange b) (normalizeExchange (ExchangeUnbind_Source m)) &&
    str_eqb (b_queue b) (normalizeExchange (ExchangeUnbind_Destination m)) &&
    str_eqb (b_routingKey b) (ExchangeUnbind_RoutingKey m));;
  reply_unless (ExchangeUnbind_NoWait m) cid (MExchangeUnbindOk mkExchangeUnbindOk).

Definition queueExists (cid : Z) (name : string) : M bool :=
  if str_eqb name EmptyString then mret false
  else
    ch ← get_ch cid;
    h ← gets out;
    mret (bool_decide (is_Some (queues ch !! name)) ||
          match queueManager env with
          | None => false
          | Some qm => bool_decide (is_Some (qm_GetQueue qm h name))
          end).

(** The configuration of a queue that is declared for the first time. *)
Definition declared_config (m : QueueDeclare) (name queueType : string) : Config.QueueConfig :=
  let pattern := QueueTopic name ["#"%string] in
  let cfg := if QueueDeclare_Durable m then Config.DefaultQueueConfig name [pattern]
             else Config.DefaultEphemeralQueueConfig name [pattern] in
  let retention := if str_eqb queueType Config.QueueTypeStream
                   then extractStreamRetention (QueueDeclare_Arguments m) else Config.Retention cfg in
  Config.mkQueueConfig (Config.Name cfg) (Config.Topics cfg) (Config.Reserved cfg) queueType
    (Config.PrimaryGroup cfg) (Config.Durable cfg) (Config.AckDurability cfg)
    (Config.ExpiresAfter cfg) (Config.LastConsumerDisconnect cfg) (Config.Retry cfg)
    (Config.DLQ cfg) (Config.Replication cfg) retention (Config.MaxMessageSize cfg)
    (Config.MaxDepth cfg)
    (default (Config.MessageTTL cfg) (extractMessageTTL (QueueDeclare_Arguments m)))
    (Config.DeliveryTimeout cfg) (Config.BatchSize cfg) (Config.HeartbeatTimeout cfg).

(** What a declaration rewrites in the configuration of a queue that exists. *)
Definition redeclared_config (m : QueueDeclare) (queueType : string) (cfg existing : Config.QueueConfig) :
    Config.QueueConfig :=
  let retention := if str_eqb queueType Config.QueueTypeStream
                   then Config.Retention cfg else Config.Retention existing in
  let durable := if QueueDeclare_Durable m then Config.Durable existing else false in
  let expires := if QueueDeclare_Durable m then Config.ExpiresAfter existing
                 else if Config.ExpiresAfter existing =? 0 then 5 * Config.Minute
                 else Config.ExpiresAfter existing in
  Config.mkQueueConfig (Config.Name existing) (Config.Topics existing) (Config.Reserved existing)
    queueType (Config.PrimaryGroup existing) durable (Config.AckDurability existing) expires
    (Config.LastConsumerDisconnect existing) (Config.Retry existing) (Config.DLQ existing)
    (Config.Replication existing) retention (Config.MaxMessageSize existing)
    (Config.MaxDepth existing)
    (default (Config.MessageTTL existing) (extractMessageTTL (QueueDeclare_Arguments m)))
    (Config.DeliveryTimeout existing) (Config.BatchSize existing) (Config.HeartbeatTimeout existing).

(** Creating or updating the queue; [true] when a protected queue refuses. *)
Definition declare_in_manager (qm : QueueManager) (m : QueueDeclare) (name queueType : string) : M bool :=
  let cfg := declared_config m name queueType in
  h ← gets out;
  emit (ECreateQueue cfg);;
  match qm_CreateQueue qm h cfg with
  | None => mret false
  | Some err =>
      if errors_Is err [ErrProtectedQueueMutation] then mret true
      else
        h ← gets out;
        match qm_GetQueue qm h name with
        | None => mret false
        | Some existing =>
            let cfg := redeclared_config m queueType cfg existing in
            emit (EUpdateQueue cfg);;
            mret match qm_UpdateQueue qm h cfg with
                 | None => false
                 | Some err => errors_Is err [ErrProtectedQueueMutation]
                 end
        end
  end.

Definition handleQueueDeclare (cid : Z) (m : QueueDeclare) : M (option HErr) :=
  let ok name := reply_unless (QueueDeclare_NoWait m) cid (MQueueDeclareOk (mkQueueDeclareOk name 0 0)) in
  if QueueDeclare_Passive m then
    exists_ ← queueExists cid (QueueDeclare_Queue m);
    if negb exists_ then close_with cid NotFound "queue not found" ClassQueue MethodQueueDeclare
    else ok (QueueDeclare_Queue m)
  else
    ch ← get_ch cid;
    let generated := str_eqb (QueueDeclare_Queue m) EmptyString in
    let seq := if generated then u64 (queueSeq ch + 1) else queueSeq ch in
    let name := if generated then "amq.gen-" +:+ connID env +:+ "-" +:+ FormatUint seq
                else QueueDeclare_Queue m in
    let queueType := extractQueueType (QueueDeclare_Arguments m) in
    mod_ch cid (λ ch : Channel, ch <| queueSeq := seq |> <| queues :=
      <[name := mkQueueInfo name queueType (QueueDeclare_Arguments m)]> (queues ch) |>);;
    protected ← match queueManager env with
                | None => mret false
                | Some qm => declare_in_manager qm m name queueType
                end;
    if (protected : bool) then
      close_with cid PreconditionFailed "protected queue contract cannot be changed"
        ClassQueue MethodQueueDeclare
    else
      add_binding cid (mkBinding name EmptyString name []);;
      ok name.

Definition handleQueueBind (cid : Z) (m : QueueBind) : M (option HErr) :=
  add_binding cid (mkBinding (QueueBind_Queue m) (normalizeExchange (QueueBind_Exchange m))
    (QueueBind_RoutingKey m) (QueueBind_Arguments m));;
  reply_unless (QueueBind_NoWait m) cid (MQueueBindOk mkQueueBindOk).

Definition handleQueueUnbind (cid : Z) (m : QueueUnbind) : M (option HErr) :=
  filter_bindings cid (λ b,
    str_eqb (b_queue b) (QueueUnbind_Queue m) &&
    str_eqb (b_exchange b) (normalizeExchange (QueueUnbind_Exchange m)) &&
    str_eqb (b_routingKey b) (QueueUnbind_RoutingKey m));;
  reply cid (MQueueUnbindOk mkQueueUnbindOk).

Definition handleQueuePurge (cid : Z) (m : QueuePurge) : M (option HErr) :=
  reply_unless (QueuePurge_NoWait m) cid (MQueuePurgeOk (mkQueuePurgeOk 0)).

Definition handleQueueDelete (cid : Z) (m : QueueDelete) : M (option HErr) :=
  mod_ch cid (λ ch : Channel, ch <| queues := delete (QueueDelete_Queue m) (queues ch) |>);;
  filter_bindings cid (λ b, str_eqb (b_queue b) (QueueDelete_Queue m));;
  when (bool_decide (is_Some (queueManager env)))
    (emit (EUnsubscribe (QueueDelete_Queue m) EmptyString PrefixedClientID EmptyString));;
  reply_unless (QueueDelete_NoWait m) cid (MQueueDeleteOk (mkQueueDeleteOk 0)).

(** ** channel.go: consumers *)

Definition handleBasicQos (cid : Z) (m : BasicQos) : M (option HErr) :=
  mod_ch cid (λ ch : Channel, ch <| prefetchCount := BasicQos_PrefetchCount m |>
                                 <| prefetchSize := BasicQos_PrefetchSize m |>);;
  reply cid (MBasicQosOk mkBasicQosOk).

(** The consumer tag: the client's, or a generated one. *)
Definition consumer_tag (cid : Z) (m : BasicConsume) : M string :=
  if negb (str_eqb (BasicConsume_ConsumerTag m) EmptyString) then mret (BasicConsume_ConsumerTag m)
  else
    ch ← get_ch cid;
    let n := u64 (nextTag ch + 1) in
    mod_ch cid (λ ch : Channel, ch <| nextTag := n |>);;
    mret ("ctag-" +:+ connID env +:+ "-" +:+ FormatUint n).

(** What a consumer consumes from: whether the filter addresses a queue, whether it
    reads a stream, and the consumer itself. *)
Definition consume_target (ch : Channel) (h : trace) (m : BasicConsume) (tag queueFilter : string) :
    bool * bool * consumer :=
  let route := Resolve queueFilter in
  let isQueue := bool_decide (RR_Kind route = RouteQueue) in
  let mqttFilter := if isQueue then EmptyString else AMQPFilterToMQTT queueFilter in
  let hasStreamOffset := bool_decide (is_Some (extractStreamOffset (BasicConsume_Arguments m))) in
  let isStream := isDeclaredStreamQueue ch queueFilter || hasStreamOffset in
  let isStream :=
    if negb isStream && negb (str_eqb (RR_QueueName route) EmptyString) then
      match queueManager env with
      | Some qm => isConfiguredStreamQueue qm h (RR_QueueName route)
      | None => false
      end
    else isStream in
  let '(queueName, pattern) :=
    if isStream && negb isQueue then (queueFilter, EmptyString)
    else (RR_QueueName route, RR_Pattern route) in
  let groupID := extractConsumerGroup (BasicConsume_Arguments m) in
  let groupID := if isStream && str_eqb groupID EmptyString then tag else groupID in
  let groupID := if negb (str_eqb queueName EmptyString) && str_eqb groupID EmptyString
                 then DefaultConsumerGroupID PrefixedClientID else groupID in
  (isQueue, isStream,
   mkConsumer tag queueFilter mqttFilter queueName pattern groupID
     (BasicConsume_NoAck m) (BasicConsume_Exclusive m)).

(** The closure [rollbackConsumer]: whether the registration has no owner left. *)
Definition rollbackConsumer (cid : Z) (co : consumer) : M bool :=
  ch ← get_ch cid;
  if bool_decide (consumers ch !! c_tag co = Some co) then
    mod_ch cid (λ ch : Channel, ch <| consumers := delete (c_tag co) (consumers ch) |>);;
    releaseQueueRegistration co
  else mret false.

(** The subscription call, and whether it was started. *)
Definition subscribe_call (qm : QueueManager) (m : BasicConsume) (isStream : bool) (co : consumer) :
    M (option QErr * bool) :=
  let local := usesLocalPrincipalAuth connectionPolicy in
  let cursor :=
    let c := default (cursor_at CursorDefault 0 0) (extractStreamOffset (BasicConsume_Arguments m)) in
    let c := c <| CU_Mode := GroupModeStream |> in
    match extractAutoCommit (BasicConsume_Arguments m) with
    | Some b => c <| CU_AutoCommit := Some b |>
    | None => c
    end in
  if local && negb (qm_ExistingQueueSubscriber qm) then mret (Some plain_error, false)
  else
    let call := ESubscribe local (c_queueName co) (c_pattern co) PrefixedClientID (c_groupID co)
                  (if isStream then Some cursor else None) in
    h ← gets out;
    emit call;;
    mret (qm_Subscribe qm h call, true).

(** Subscribing to the queue; a failure has rolled the consumer back and gives the
    reply code and text. *)
Definition subscribe_queue (cid : Z) (m : BasicConsume) (isStream : bool) (co : consumer) :
    M (option (Z * string)) :=
  match queueManager env with
  | None => rollbackConsumer cid co;; mret (Some (InternalError, "queue manager unavailable"%string))
  | Some qm =>
      res ← subscribe_call qm m isStream co;
      match res with
      | (None, _) => mret None
      | (Some err, started) =>
          unused ← rollbackConsumer cid co;
          when (started && unused && negb (errors_Is err [ErrQueueNotFound])
                && negb (errors_Is err [ErrQueueNotStream]))
            (emit (EUnsubscribe (c_queueName co) (c_pattern co) PrefixedClientID (c_groupID co)));;
          mret (Some (amqp091QueueError err))
      end
  end.

Definition subscribe_pubsub (co : consumer) : M unit :=
  emit (ERouterSubscribe PrefixedClientID (c_mqttFilter co));;
  when (bool_decide (is_Some (cluster_RoutePublish env)))
    (emit (EClusterAdd PrefixedClientID (c_mqttFilter co))).

(** From the reservation of the tag to the reply. *)
Definition start_consumer (cid : Z) (m : BasicConsume) (isQueue isStream : bool) (co : consumer) :
    M (option HErr) :=
  ch ← get_ch cid;
  if bool_decide (is_Some (consumers ch !! c_tag co)) then
    close_with cid NotAllowed ("consumer tag " +:+ Quote (c_tag co) +:+ " already exists")
      ClassBasic MethodBasicConsume
  else
    mod_ch cid (λ ch : Channel, ch <| consumers := <[c_tag co := co]> (consumers ch) |>);;
    retainQueueRegistration co;;
    failure ← (if (isQueue || isStream) && negb (str_eqb (c_queueName co) EmptyString)
               then subscribe_queue cid m isStream co else mret None);
    match failure with
    | Some (code, text) => close_with cid code text ClassBasic MethodBasicConsume
    | None =>
        when (negb isQueue && negb isStream) (subscribe_pubsub co);;
        reply_unless (BasicConsume_NoWait m) cid (MBasicConsumeOk (mkBasicConsumeOk (c_tag co)))
    end.

Definition handleBasicConsume (cid : Z) (m : BasicConsume) : M (option HErr) :=
  tag ← consumer_tag cid m;
  req ← applyHook (mkHookRequest HookAuthOnSubscribe PrefixedClientID (externalID PrefixedClientID)
                     (BasicConsume_Queue m) [] ∅);
  match req with
  | None => close_with cid AccessRefused "subscribe hook denied" ClassBasic MethodBasicConsume
  | Some req =>
      h ← gets out;
      let refused := match externalAuth connectionPolicy with
                     | Some auth => negb (CanSubscribe auth h PrefixedClientID (HR_Topic req))
                     | None => false
                     end in
      if refused
      then close_with cid AccessRefused "subscribe not authorized" ClassBasic MethodBasicConsume
      else
        ch ← get_ch cid;
        let '(isQueue, isStream, co) := consume_target ch h m tag (HR_Topic req) in
        start_consumer cid m isQueue isStream co
  end.

(** What cancelling a consumer or closing its channel undoes outside. *)
Definition release_consumer (co : consumer) : M unit :=
  if negb (str_eqb (c_queueName co) EmptyString) then
    unused ← releaseQueueRegistration co;
    when (unused && bool_decide (is_Some (queueManager env)))
      (emit (EUnsubscribe (c_queueName co) (c_pattern co) PrefixedClientID (c_groupID co)))
  else if str_eqb (c_mqttFilter co) EmptyString then mret tt
  else
    emit (ERouterUnsubscribe PrefixedClientID (c_mqttFilter co));;
    when (bool_decide (is_Some (cluster_RoutePublish env)))
      (emit (EClusterRemove PrefixedClientID (c_mqttFilter co))).

Definition handleBasicCancel (cid : Z) (m : BasicCancel) : M (option HErr) :=
  ch ← get_ch cid;
  mod_ch cid (λ ch : Channel, ch <| consumers := delete (BasicCancel_ConsumerTag m) (consumers ch) |>);;
  match consumers ch !! BasicCancel_ConsumerTag m with
  | Some co => release_consumer co
  | None => mret tt
  end;;
  reply_unless (BasicCancel_NoWait m) cid (MBasicCancelOk (mkBasicCancelOk (BasicCancel_ConsumerTag m))).

Definition handleBasicGet (cid : Z) (m : BasicGet) : M (option HErr) :=
  reply cid (MBasicGetEmpty (mkBasicGetEmpty EmptyString)).

(** ** channel.go: acknowledgements *)

Definition settle_delivery (how : Settlement) (ud : unackedDelivery) : M unit :=
  when (u_queued ud && bool_decide (is_Some (queueManager env)))
    (emit (ESettle how (u_queueName ud) (u_groupID ud) (u_offset ud))).
Definition ackDelivery : unackedDelivery → M unit := settle_delivery SAck.
Definition nackDelivery : unackedDelivery → M unit := settle_delivery SNack.
Definition rejectDelivery : unackedDelivery → M unit := settle_delivery SReject.

(** The deliveries a disposition names, in the order in which they are settled. *)
Definition selected (entries : list (Z * unackedDelivery)) (un : gmap Z unackedDelivery)
    (tag : Z) (multiple : bool) : list unackedDelivery :=
  if multiple then (filter (λ e, e.1 <= tag) entries).*2
  else match un !! tag with Some ud => [ud] | None => [] end.
Definition remaining (un : gmap Z unackedDelivery) (tag : Z) (multiple : bool) : gmap Z unackedDelivery :=
  if multiple then filter (λ e, ¬ e.1 <= tag) un else delete tag un.

Definition take_unacked (cid tag : Z) (multiple : bool) : M (list unackedDelivery) :=
  ch ← get_ch cid;
  h ← gets out;
  mod_ch cid (λ ch : Channel, ch <| unacked := remaining (unacked ch) tag multiple |>);;
  mret (selected (range_unacked env h (unacked ch)) (unacked ch) tag multiple).

Definition handleBasicAck (cid : Z) (m : BasicAck) : M (option HErr) :=
  deliveries ← take_unacked cid (BasicAck_DeliveryTag m) (BasicAck_Multiple m);
  for_each deliveries ackDelivery;;
  drainPending cid;;
  mret None.

Definition handleBasicReject (cid : Z) (m : BasicReject) : M (option HErr) :=
  deliveries ← take_unacked cid (BasicReject_DeliveryTag m) false;
  for_each deliveries (if BasicReject_Requeue m then nackDelivery else rejectDelivery);;
  drainPending cid;;
  mret None.

Definition handleBasicNack (cid : Z) (m : BasicNack) : M (option HErr) :=
  deliveries ← take_unacked cid (BasicNack_DeliveryTag m) (BasicNack_Multiple m);
  for_each deliveries (if BasicNack_Requeue m then nackDelivery else rejectDelivery);;
  drainPending cid;;
  mret None.

Definition handleBasicRecover (cid : Z) (m : BasicRecover) : M (option HErr) :=
  reply cid (MBasicRecoverOk mkBasicRecoverOk).
Definition handleBasicRecoverAsync (cid : Z) (m : BasicRecoverAsync) : M (option HErr) := mret None.

(** ** Closing *)

(** [Channel.cleanup] of a channel that has left the map. *)
Definition cleanup (ch : Channel) : M unit :=
  h ← gets out;
  for_each (range_consumers env h (consumers ch)).*2 release_consumer.

Definition closeChannel (cid : Z) : M unit :=
  s ← gets id;
  modify (λ s, s <| channels := delete cid (channels s) |>);;
  match channels s !! cid with
  | Some ch => cleanup ch
  | None => mret tt
  end.

(** The consumers a server-side cancellation removes. *)
Definition cancelled (queueName groupID : string) (co : consumer) : bool :=
  str_eqb (c_queueName co) queueName &&
  str_eqb (EffectiveConsumerGroupID (c_groupID co) (c_pattern co)) groupID.

Definition cancel_consumer (cid : Z) (co : consumer) : M unit :=
  ignore (releaseQueueRegistration co);;
  ignore (writeMethod cid (MBasicCancel (mkBasicCancel (c_tag co) true))).

Definition cancelConsumerByQueue (cid : Z) (queueName groupID : string) : M unit :=
  ch ← get_ch cid;
  if closed ch then mret tt
  else
    h ← gets out;
    mod_ch cid (λ ch : Channel, ch <| consumers :=
      filter (λ e, cancelled queueName groupID e.2 = false) (consumers ch) |>);;
    for_each (filter (λ co, cancelled queueName groupID co = true)
                (range_consumers env h (consumers ch)).*2) (cancel_consumer cid).

Definition conn_cancelConsumerByQueue (queueName groupID : string) : M unit :=
  s ← gets id;
  if conn_closed s then mret tt
  else for_each (range_channels env (out s) (channels s)).*1
         (λ cid, cancelConsumerByQueue cid queueName groupID).

(** [Connection.close] and [Connection.cleanup]. *)
Definition close_connection : M unit := modify (λ s, s <| conn_closed := true |>).

Definition conn_cleanup : M unit :=
  close_connection;;
  s ← gets id;
  modify (λ s, s <| channels := ∅ |>);;
  for_each (range_channels env (out s) (channels s)).*2 cleanup;;
  when (negb (str_eqb (connID env) EmptyString))
    (when (bool_decide (is_Some (externalAuth connectionPolicy))) (emit (EForget PrefixedClientID));;
     when (bool_decide (is_Some (cluster_RoutePublish env))) (emit (EClusterRelease PrefixedClientID))).

(** ** channel.go: authorization of local principals *)

Definition methodIdentifier (m : AnyMethod) : Z * Z :=
  match m with
  | MExchangeDeclare _ => (ClassExchange, MethodExchangeDeclare)
  | MExchangeDelete _ => (ClassExchange, MethodExchangeDelete)
  | MExchangeBind _ => (ClassExchange, MethodExchangeBind)
  | MExchangeUnbind _ => (ClassExchange, MethodExchangeUnbind)
  | MQueueDeclare _ => (ClassQueue, MethodQueueDeclare)
  | MQueueBind _ => (ClassQueue, MethodQueueBind)
  | MQueueUnbind _ => (ClassQueue, MethodQueueUnbind)
  | MQueuePurge _ => (ClassQueue, MethodQueuePurge)
  | MQueueDelete _ => (ClassQueue, MethodQueueDelete)
  | MBasicQos _ => (ClassBasic, MethodBasicQos)
  | MBasicConsume _ => (ClassBasic, MethodBasicConsume)
  | MBasicCancel _ => (ClassBasic, MethodBasicCancel)
  | MBasicGet _ => (ClassBasic, MethodBasicGet)
  | MBasicAck _ => (ClassBasic, MethodBasicAck)
  | MBasicReject _ => (ClassBasic, MethodBasicReject)
  | MBasicNack _ => (ClassBasic, MethodBasicNack)
  | MBasicRecover _ => (ClassBasic, MethodBasicRecover)
  | MBasicRecoverAsync _ => (ClassBasic, MethodBasicRecoverAsync)
  | MTxSelect _ => (ClassTx, MethodTxSelect)
  | MTxCommit _ => (ClassTx, MethodTxCommit)
  | MTxRollback _ => (ClassTx, MethodTxRollback)
  | _ => (0, 0)
  end.

(** A refusal: not allowed, and the result of closing the channel. *)
Definition refuse (cid : Z) (text : string) (m : AnyMethod) : M (bool * option HErr) :=
  let '(classID, methodID) := methodIdentifier m in
  err ← close_with cid AccessRefused text classID methodID; mret (false, err).
Definition denyLocalMethod (cid : Z) (m : AnyMethod) : M (bool * option HErr) :=
  refuse cid "operation not permitted for local principal" m.
Definition allow : M (bool * option HErr) := mret (true, None).

Definition authorizeLocalQueueName (cid : Z) (queue : string) (m : AnyMethod) : M (bool * option HErr) :=
  if negb permitsConsumers then denyLocalMethod cid m
  else
    ok ← (if negb (str_eqb queue EmptyString) then canSubscribeLocal queue else mret false);
    if (ok : bool) then allow else refuse cid "subscribe not authorized" m.

Definition authorizeLocalSubscribe (cid : Z) (queue : string) (m : AnyMethod) : M (bool * option HErr) :=
  if negb permitsConsumers then denyLocalMethod cid m
  else
    let route := Resolve queue in
    ok ← (if bool_decide (RR_Kind route = RouteQueue)
          then canSubscribeLocal (RR_QueueName route) else mret false);
    if (ok : bool) then allow else refuse cid "subscribe not authorized" m.

Definition authorizeLocalMethod (cid : Z) (m : AnyMethod) : M (bool * option HErr) :=
  match m with
  | MChannelFlow _ | MChannelClose _ | MChannelCloseOk _ | MConfirmSelect _ => allow
  | MQueueDeclare d =>
      if negb (QueueDeclare_Passive d) then denyLocalMethod cid m
      else authorizeLocalQueueName cid (QueueDeclare_Queue d) m
  | MBasicConsume c => authorizeLocalSubscribe cid (BasicConsume_Queue c) m
  | MBasicQos _ | MBasicCancel _ | MBasicAck _ | MBasicNack _ | MBasicReject _ =>
      if permitsConsumers then allow else denyLocalMethod cid m
  | MBasicPublish p =>
      grant ← canPublishLocal (BasicPublish_Exchange p) (BasicPublish_RoutingKey p);
      if Allowed grant then allow
      else
        err ← close_with cid AccessRefused "publish not authorized" ClassBasic MethodBasicPublish;
        mret (false, err)
  | _ => denyLocalMethod cid m
  end.

(** ** channel.go: [handleMethod] *)

Definition handleChannelFlow (cid : Z) (m : ChannelFlow) : M (option HErr) :=
  mod_ch cid (λ ch : Channel, ch <| flow := ChannelFlow_Active m |>);;
  err ← writeMethod cid (MChannelFlowOk (mkChannelFlowOk (ChannelFlow_Active m)));
  match err with
  | Some e => mret (Some (HWrite e))
  | None => when (ChannelFlow_Active m) (drainPending cid);; mret None
  end.

Definition startPublish (cid : Z) (m : BasicPublish) : M (option HErr) :=
  ch ← get_ch cid;
  let exchangeName := normalizeExchange (BasicPublish_Exchange m) in
  if bool_decide (is_Some (pendingMethod ch)) || bool_decide (is_Some (pendingHeader ch)) then
    closePublish cid CommandInvalid "publish in progress";; resetPendingPublish cid;; mret None
  else if negb (str_eqb exchangeName EmptyString) && negb (exchangeExists ch exchangeName) then
    closePublish cid NotFound "exchange not found";; resetPendingPublish cid;; mret None
  else mod_ch cid (λ ch : Channel, ch <| pendingMethod := Some m |>);; mret None.

Definition dispatchMethod (cid : Z) (m : AnyMethod) : M (option HErr) :=
  match m with
  | MChannelFlow m => handleChannelFlow cid m
  | MChannelClose _ =>
      ignore (writeMethod cid (MChannelCloseOk mkChannelCloseOk));; closeChannel cid;; mret None
  | MChannelCloseOk _ => closeChannel cid;; mret None
  | MExchangeDeclare m => handleExchangeDeclare cid m
  | MExchangeDelete m => handleExchangeDelete cid m
  | MExchangeBind m => handleExchangeBind cid m
  | MExchangeUnbind m => handleExchangeUnbind cid m
  | MQueueDeclare m => handleQueueDeclare cid m
  | MQueueBind m => handleQueueBind cid m
  | MQueueUnbind m => handleQueueUnbind cid m
  | MQueuePurge m => handleQueuePurge cid m
  | MQueueDelete m => handleQueueDelete cid m
  | MBasicQos m => handleBasicQos cid m
  | MBasicConsume m => handleBasicConsume cid m
  | MBasicCancel m => handleBasicCancel cid m
  | MBasicPublish m => startPublish cid m
  | MBasicGet m => handleBasicGet cid m
  | MBasicAck m => handleBasicAck cid m
  | MBasicReject m => handleBasicReject cid m
  | MBasicNack m => handleBasicNack cid m
  | MBasicRecover m => handleBasicRecover cid m
  | MBasicRecoverAsync m => handleBasicRecoverAsync cid m
  | MTxSelect _ => reply cid (MTxSelectOk mkTxSelectOk)
  | MTxCommit _ => reply cid (MTxCommitOk mkTxCommitOk)
  | MTxRollback _ => reply cid (MTxRollbackOk mkTxRollbackOk)
  | MConfirmSelect m =>
      mod_ch cid (λ ch : Channel, ch <| confirmMode := true |>);;
      reply_unless (ConfirmSelect_NoWait m) cid (MConfirmSelectOk mkConfirmSelectOk)
  | _ => mret (Some HUnhandled)
  end.

Definition is_channel_close (m : AnyMethod) : bool :=
  match m with MChannelClose _ | MChannelCloseOk _ => true | _ => false end.

Definition handleMethod (cid : Z) (m : AnyMethod) : M (option HErr) :=
  ch ← get_ch cid;
  if serverClosing ch && negb (is_channel_close m) then mret None
  else if usesLocalPrincipalAuth connectionPolicy then
    auth ← authorizeLocalMethod cid m;
    match auth with
    | (_, Some err) => mret (Some err)
    | (false, None) => mret None
    | (true, None) => dispatchMethod cid m
    end
  else dispatchMethod cid m.

(** ** connection.go: frames *)

Definition handleChannelOpen (cid : Z) : M (option HErr) :=
  s ← gets id;
  let refuse text := err ← sendConnectionClose ChannelError text 0 0; mret (lift_err err) in
  if (cid =? 0) || (channelMax env <? cid) then
    refuse ("channel " +:+ FormatUint cid +:+ " exceeds negotiated channel maximum "
            +:+ FormatUint (channelMax env))
  else if channelMax env <=? u16 (Z.of_nat (size (channels s))) then refuse "channel limit exceeded"%string
  else if bool_decide (is_Some (channels s !! cid))
  then refuse ("channel " +:+ FormatUint cid +:+ " already open")
  else
    modify (λ s, s <| channels := <[cid := newChannel]> (channels s) |>);;
    reply cid (MChannelOpenOk (mkChannelOpenOk EmptyString)).

Definition handleMethodFrame (frame : Frame) : M (option HErr) :=
  match Frame_Decode frame with
  | Ret (DMethod m) =>
      if Frame_Channel frame =? 0 then
        match m with
        | MConnectionClose _ =>
            ignore (writeMethod 0 (MConnectionCloseOk mkConnectionCloseOk));; close_connection;; mret None
        | MConnectionCloseOk _ => close_connection;; mret None
        | _ => mret (Some HUnexpected)
        end
      else match m with
      | MChannelOpen _ => handleChannelOpen (Frame_Channel frame)
      | _ =>
          s ← gets id;
          match channels s !! Frame_Channel frame with
          | None => mret (Some HUnknownChannel)
          | Some _ => handleMethod (Frame_Channel frame) m
          end
      end
  | _ => mret (Some HDecode)
  end.

(** One round of [processFrames]. *)
Definition processFrame (frame : Frame) : M (option HErr) :=
  let on_channel (handle : Z → Frame → M unit) :=
    s ← gets id;
    match channels s !! Frame_Channel frame with
    | None => mret None
    | Some _ => handle (Frame_Channel frame) frame;; mret None
    end in
  if Frame_Type frame =? FrameMethod then handleMethodFrame frame
  else if Frame_Type frame =? FrameHeader then on_channel handleHeaderFrame
  else if Frame_Type frame =? FrameBody then on_channel handleBodyFrame
  else mret None.

(** The loop over the frames that arrive: until an error or the connection closes. *)
Fixpoint processFrames (frames : list Frame) : M (option HErr) :=
  match frames with
  | [] => mret None
  | frame :: frames =>
      s ← gets id;
      if conn_closed s then mret None
      else
        err ← processFrame frame;
        match err with
        | Some e => mret (Some e)
        | None => processFrames frames
        end
  end.

End connection.
