(* ===== verification/AmqpLogic.v ===== *)
(** * Reasoning about AMQP 0.9.1 handlers

    The program logic of [State] for the handlers of [AmqpChannel].  [emits P m] is the
    instance of [keeps R m] where everything [m] does to the outside satisfies [P].  A
    relation that holds of the
    primitive steps of deliveries and replies (classes [Delivers] and [Replies]) holds
    of the handlers built from them; those rules are proved once, here. *)

From Stdlib Require Import ZArith Lia Bool Ascii String Strings.Byte.
From stdpp Require Import gmultiset prelude gmap strings.
From S2P Require Import Prelude State GoStrings Strconv Payload Envelope Topics Routing QueueConfig.
From S2P Require Import Codec AmqpTypes AmqpMethods AmqpFrame AmqpArgs QueueErrors Base64.
From S2P Require Import AmqpChannel.

(** ** The logic *)

(** The trace only grows, and by effects that satisfy [P]. *)
Definition grows (P : Effect → Prop) (s s' : Conn) : Prop :=
  ∃ t, out s' = out s ++ t ∧ Forall P t.
Notation emits P m := (keeps (grows P) m).

#[export] Instance grows_preorder P : PreOrder (grows P).
Proof.
  split.
  - intros s. exists []. by rewrite app_nil_r.
  - intros s1 s2 s3 (t1 & H1 & F1) (t2 & H2 & F2). exists (t1 ++ t2).
    rewrite H2, H1, app_assoc. split; [done|]. by apply Forall_app.
Qed.

(** The channel a handler works on is open and stays open. *)
Lemma get_ch_eq cid s ch : channels s !! cid = Some ch → get_ch cid s = (ch, s).
Proof. intros Hc. unfold get_ch, gets. by rewrite Hc. Qed.

Lemma mod_ch_eq cid f s ch : channels s !! cid = Some ch →
  mod_ch cid f s = (tt, s <| channels := <[cid := f ch]> (channels s) |>).
Proof.
  intros Hc. unfold mod_ch, modify. by rewrite (alter_as_insert _ _ _ _ Hc).
Qed.

(** The connection with a channel replaced. *)
Definition put (cid : Z) (ch : Channel) (s : Conn) : Conn :=
  s <| channels := <[cid := ch]> (channels s) |>.

Lemma put_id cid ch s : channels s !! cid = Some ch → put cid ch s = s.
Proof. intros Hc. unfold put. destruct s. unfold update. simpl in *. by rewrite insert_id. Qed.
Lemma get_put cid ch s : get_ch cid (put cid ch s) = (ch, put cid ch s).
Proof. apply get_ch_eq. simpl. by rewrite lookup_insert_eq. Qed.
Lemma mod_put cid f ch s : mod_ch cid f (put cid ch s) = (tt, put cid (f ch) s).
Proof.
  rewrite (mod_ch_eq _ _ _ ch) by (simpl; by rewrite lookup_insert_eq).
  unfold put. simpl. by rewrite insert_insert_eq.
Qed.
Lemma lookup_put cid ch s : channels (put cid ch s) !! cid = Some ch.
Proof. simpl. by rewrite lookup_insert_eq. Qed.

Lemma writeMethod_channels env c m s : channels (writeMethod env c m s).2 = channels s.
Proof. unfold writeMethod. by destruct (any_Write m) as [? [e|]]. Qed.

(** [state_step] with the steps of handlers. *)
Ltac keeps_step :=
  lazymatch goal with
  | |- keeps ?R (get_ch _) => apply (keeps_gets R)
  | _ => state_step
  end.

(** ** Relations and the handlers they hold of *)

(** [R] holds of deliveries to the consumers of the connection. *)
Class Delivers (env : Env) (R : Conn → Conn → Prop) : Prop := {
  delivers_preorder :: PreOrder R;
  delivers_message topic payload props : keeps R (conn_deliverMessage env topic payload props);
  delivers_drain c : keeps R (drainPending env c);
  delivers_content fs err : keeps R (emit (EContent fs err))
}.

Definition not_confirm (m : AnyMethod) : bool :=
  match m with MBasicAck _ | MBasicNack _ => false | _ => true end.

(** [R] holds of replies and of closing a channel from the server's side. *)
Class Replies (R : Conn → Conn → Prop) : Prop := {
  replies_preorder :: PreOrder R;
  replies_method c m err : not_confirm m = true → keeps R (emit (EMethod c m err));
  replies_closing c : keeps R (mod_ch c (λ ch : Channel, ch <| serverClosing := true |>));
  replies_reset c : keeps R (resetPendingPublish c)
}.

(** A relation that holds of the steps of a delivery holds of deliveries. *)
Section deliveries.
Context (env : Env) (R : Conn → Conn → Prop) `{!PreOrder R}.
Context (R_tag : keeps R nextDeliveryTag)
  (R_unacked : ∀ c tag ud,
     keeps R (mod_ch c (λ ch : Channel, ch <| unacked := <[tag := ud]> (unacked ch) |>)))
  (R_pending : ∀ c f,
     keeps R (mod_ch c (λ ch : Channel, ch <| pendingDeliveries := f (pendingDeliveries ch) |>)))
  (R_content : ∀ fs err, keeps R (emit (EContent fs err))).

Lemma keeps_sendDelivery c co topic payload props :
  keeps R (sendDelivery env c co topic payload props).
Proof. unfold sendDelivery, write_frames. repeat keeps_step; auto. Qed.

Lemma keeps_drain c : keeps R (drainPending env c).
Proof.
  unfold drainPending. repeat keeps_step. generalize (S (length (pendingDeliveries a))) as fuel.
  induction fuel as [|fuel IH]; simpl; repeat keeps_step; auto.
  unfold drain_round. repeat keeps_step; auto using keeps_sendDelivery.
  apply (R_pending c (λ _, l)).
Qed.

Lemma keeps_deliver_loop c conss topic payload props delivered :
  keeps R (deliver_loop env c conss topic payload props delivered).
Proof.
  revert delivered. induction conss as [|[? co] conss IH]; intros delivered; simpl;
    repeat keeps_step; auto using keeps_sendDelivery.
  apply (R_pending c (λ l, l ++ _)).
Qed.

Lemma keeps_conn_deliver topic payload props :
  keeps R (conn_deliverMessage env topic payload props).
Proof.
  unfold conn_deliverMessage. repeat keeps_step.
  generalize false. generalize (range_channels env (out a) (channels a)).*1 as cids.
  induction cids as [|c cids IH]; intros b; simpl; repeat keeps_step; auto.
  unfold deliverMessage. repeat keeps_step. apply keeps_deliver_loop.
Qed.

Lemma steps_deliver : Delivers env R.
Proof. split; auto using keeps_conn_deliver, keeps_drain. Qed.
End deliveries.

Section rules.
Context `{GoText} (env : Env) (R : Conn → Conn → Prop).

Lemma keeps_write_frames `{!Delivers env R} fs : keeps R (write_frames env fs).
Proof. unfold write_frames. repeat keeps_step. by apply (delivers_content (env := env)). Qed.

Lemma keeps_writeMethod `{!Replies R} c m : not_confirm m = true → keeps R (writeMethod env c m).
Proof.
  intros Hm. unfold writeMethod. destruct (any_Write m) as [? [e|]]; repeat keeps_step.
  by apply replies_method.
Qed.

Lemma keeps_sendChannelClose `{!Replies R} c code text k m :
  keeps R (sendChannelClose env c code text k m).
Proof.
  unfold sendChannelClose, conn_sendChannelClose. repeat keeps_step.
  - apply replies_closing.
  - apply replies_reset.
  - by apply keeps_writeMethod.
Qed.

Lemma keeps_closePublish `{!Replies R} c code text : keeps R (closePublish env c code text).
Proof. unfold closePublish. repeat keeps_step. apply keeps_sendChannelClose. Qed.

(** The effects of handing a message with properties [props] to the subscribers. *)
Definition fanout_ok (topic : string) (props : propmap) : Prop := ∀ body,
  keeps R (emit (ECapture (queuePublishEnvelope topic body props (capture_source props)))) ∧
  (∀ id, keeps R (emit (EDeliverTo id topic body props))) ∧
  (∀ id qos, keeps R (emit (ECrossDeliver id topic body qos props))) ∧
  keeps R (emit (EClusterRoute topic body props)).

Lemma keeps_Broker_Publish `{!Delivers env R} topic body props : fanout_ok topic props →
  keeps R (Broker_Publish env topic body props).
Proof.
  intros Hp. destruct (Hp body) as (Hcap & Hto & Hcross & Hroute).
  unfold Broker_Publish, publish_to_subscriber. repeat keeps_step; auto using delivers_message.
Qed.

Lemma keeps_sendBasicReturn `{!Delivers env R} c m h body : keeps R (sendBasicReturn env c m h body).
Proof. unfold sendBasicReturn. repeat keeps_step. apply keeps_write_frames. Qed.

(** The effects of handing a message from [source] to the queue manager. *)
Definition queue_ok (props : propmap) (source : Message.SourceMetadata) : Prop :=
  ∀ topic body err, keeps R (emit (EQueuePublish (queuePublishEnvelope topic body props source) err)).

Lemma keeps_publish_bindings `{!PreOrder R} c bs check rk ex body props :
  queue_ok props (Message.SourceFromProperties props) → ∀ matched failed,
  keeps R (publish_bindings env c bs check rk ex body props matched failed).
Proof.
  intros Hp. induction bs as [|b bs IH]; intros matched failed; simpl; repeat keeps_step; auto.
  unfold queue_publish. repeat keeps_step. apply Hp.
Qed.

Lemma keeps_authorizePublish `{!Replies R} c m topic body props :
  keeps R (authorizePublish env c m topic body props).
Proof.
  unfold authorizePublish, canPublishLocal, applyHook. repeat keeps_step; apply keeps_closePublish.
Qed.
End rules.

(** *** Rules for handlers that confirm *)

Section confirming.
Context `{GoText} (env : Env) (R : Conn → Conn → Prop) `{!Delivers env R, !Replies R}.
Context (R_confirm : ∀ c failed, keeps R (confirm env c failed)).

Lemma keeps_settleConfirm c failed : keeps R (settleConfirm env c failed).
Proof. unfold settleConfirm. repeat keeps_step. apply R_confirm. Qed.

Lemma keeps_pubsub c topic body props m h : fanout_ok R topic props →
  keeps R (publishToPubSub env c topic body props m h).
Proof.
  intros Hp. unfold publishToPubSub.
  repeat keeps_step; auto using keeps_settleConfirm, keeps_Broker_Publish, keeps_sendBasicReturn.
Qed.

Lemma keeps_exchange c m h ex orig topic body props :
  (∀ topic, fanout_ok R topic props) → queue_ok R props (Message.SourceFromProperties props) →
  keeps R (publishToExchange env c m h ex orig topic body props).
Proof.
  intros Hf Hq. unfold publishToExchange. cbv zeta.
  repeat keeps_step; auto using keeps_settleConfirm, keeps_pubsub.
  by apply (keeps_publish_bindings env R).
Qed.

Lemma keeps_handleQueuePublish c topic body props clientID :
  queue_ok R props (Message.mkSource clientID (Message.prop props Message.PropertyExternalID)
    (if str_eqb (Message.prop props Message.PropertyProtocol) EmptyString then Message.ProtocolAMQP091
     else Message.prop props Message.PropertyProtocol) EmptyString) →
  keeps R (handleQueuePublish env c topic body props clientID).
Proof.
  intros Hp. unfold handleQueuePublish, queue_publish. cbv zeta.
  repeat keeps_step; auto using keeps_closePublish.
Qed.

Lemma keeps_reject c err : keeps R (rejectLocalStreamPublish env c err).
Proof.
  unfold rejectLocalStreamPublish.
  repeat keeps_step; [apply (R_confirm c true)|apply keeps_closePublish, _].
Qed.
Lemma keeps_abandon c : keeps R (abandonLocalStreamPublish env c).
Proof.
  unfold abandonLocalStreamPublish.
  repeat keeps_step; [apply (R_confirm c true)|apply keeps_closePublish, _].
Qed.

Lemma keeps_durable c q body props clientID :
  (∀ f, keeps R (modify (λ s, s <| outstanding := f (outstanding s) |>))) →
  (∀ topic, keeps R (emit (EDurablePublish q
     (queuePublishEnvelope topic body (<[Message.PropertyClientID := clientID]> props)
        (Message.SourceFromProperties (<[Message.PropertyClientID := clientID]> props)))))) →
  keeps R (handleLocalDurableStreamPublish env c q body props clientID).
Proof.
  intros Ho Hp. unfold handleLocalDurableStreamPublish. cbv zeta.
  repeat keeps_step; auto using keeps_reject, keeps_abandon.
  - apply (Ho (λ _, _)).
  - apply (Ho (λ o, release o q)).
  - apply (R_confirm c false).
Qed.
End confirming.

(** ** Neutral steps *)

(** A change of a channel that leaves its consumers, deliveries and limits alone. *)
Definition neutral (f : Channel → Channel) : Prop := ∀ ch,
  consumers (f ch) = consumers ch ∧ unacked (f ch) = unacked ch ∧
  prefetchCount (f ch) = prefetchCount ch ∧ pendingDeliveries (f ch) = pendingDeliveries ch.

(** Queue.Delete names no consumer group; the other neutral steps unsubscribe nobody. *)
Definition neutral_effect (e : Effect) : Prop :=
  match e with EUnsubscribe _ _ _ groupID => groupID = EmptyString | _ => True end.

(** [R] holds of everything but deliveries, consumers and their limits. *)
Class Neutral (R : Conn → Conn → Prop) : Prop := {
  neutral_preorder :: PreOrder R;
  neutral_emit e : neutral_effect e → keeps R (emit e);
  neutral_mod_ch c f : neutral f → keeps R (mod_ch c f);
  neutral_outstanding f : keeps R (modify (λ s, s <| outstanding := f (outstanding s) |>))
}.

#[export] Instance neutral_replies R : Neutral R → Replies R.
Proof.
  intros HR. split; [apply _|intros; (by apply neutral_emit)|intros; by apply neutral_mod_ch|].
  intros; by apply neutral_mod_ch.
Qed.

Section neutral.
Context `{GoText} (env : Env) (R : Conn → Conn → Prop) `{!Neutral R, !Delivers env R}.

Lemma keeps_confirm c failed : keeps R (confirm env c failed).
Proof.
  unfold confirm, sendPublisherNack, sendPublisherAck, writeMethod.
  repeat keeps_step; try (by apply neutral_emit); by apply neutral_mod_ch.
Qed.

Lemma keeps_finishPublish c m h body : keeps R (finishPublish env c m h body).
Proof.
  assert (Hf : ∀ topic props, fanout_ok R topic props).
  { intros topic props b. repeat split; intros; by apply neutral_emit. }
  assert (Hq : ∀ props source, queue_ok R props source) by (intros ?????; by apply neutral_emit).
  assert (Hp : ∀ topic body props, keeps R (publishToPubSub env c topic body props m h)).
  { intros. apply (keeps_pubsub env R); [apply keeps_confirm|apply Hf]. }
  assert (He : ∀ ex orig topic body props, keeps R (publishToExchange env c m h ex orig topic body props)).
  { intros. apply (keeps_exchange env R); [apply keeps_confirm|intros; apply Hf|apply Hq]. }
  assert (Hh : ∀ topic body props id, keeps R (handleQueuePublish env c topic body props id)).
  { intros. apply (keeps_handleQueuePublish env R); [apply keeps_confirm|apply Hq]. }
  unfold finishPublish, routePublish, publishUnresolved, targetsStream, isStreamQueue, handleQueueCommit.
  cbv zeta. repeat keeps_step; auto; try (by apply neutral_emit).
  - apply (keeps_authorizePublish env R).
  - apply (keeps_settleConfirm env R), keeps_confirm.
  - apply (keeps_reject env R), keeps_confirm.
  - apply (keeps_durable env R); [apply keeps_confirm|apply neutral_outstanding|intros; by apply neutral_emit].
Qed.

Lemma keeps_completePublish c : keeps R (completePublish env c).
Proof.
  unfold completePublish. repeat keeps_step; auto using keeps_finishPublish. apply replies_reset.
Qed.

Lemma keeps_content c f :
  keeps R (handleHeaderFrame env c f) ∧ keeps R (handleBodyFrame env c f).
Proof.
  unfold handleHeaderFrame, handleBodyFrame. cbv zeta.
  split; repeat keeps_step; auto using keeps_completePublish;
    solve [apply replies_reset|apply (keeps_closePublish env R)|by apply neutral_mod_ch].
Qed.

(** The methods that do not touch deliveries, consumers and limits otherwise. *)
Definition neutral_method (m : AnyMethod) : bool :=
  match m with
  | MChannelClose _ | MChannelCloseOk _ | MBasicQos _ | MBasicConsume _ | MBasicCancel _
  | MBasicAck _ | MBasicReject _ | MBasicNack _ => false
  | _ => true
  end.

Lemma keeps_close_with c code text k m : keeps R (close_with env c code text k m).
Proof. unfold close_with. repeat keeps_step. apply (keeps_sendChannelClose env R). Qed.

Lemma keeps_reply c m : keeps R (reply env c m).
Proof.
  unfold reply, writeMethod. destruct (any_Write m) as [? [e|]]; repeat keeps_step. by apply neutral_emit.
Qed.

Lemma keeps_dispatch c m : neutral_method m = true → keeps R (dispatchMethod env c m).
Proof.
  destruct m; try done; intros _; cbn [dispatchMethod];
    unfold handleChannelFlow, handleExchangeDeclare, handleExchangeDelete, handleExchangeBind,
      handleExchangeUnbind, handleQueueDeclare, handleQueueBind, handleQueueUnbind, handleQueuePurge,
      handleQueueDelete, startPublish, handleBasicGet, handleBasicRecover, handleBasicRecoverAsync,
      reply_unless, add_binding, filter_bindings, queueExists, declare_in_manager; cbv zeta;
    repeat keeps_step; auto using keeps_reply, keeps_close_with; try (by apply neutral_emit);
    solve [by apply neutral_mod_ch|apply (delivers_drain (env := env))|apply (keeps_closePublish env R)
          |apply replies_reset|by apply (keeps_writeMethod env R)].
Qed.

Lemma keeps_authorizeLocal c m : keeps R (authorizeLocalMethod env c m).
Proof.
  destruct m; cbn [authorizeLocalMethod];
    unfold authorizeLocalQueueName, authorizeLocalSubscribe, denyLocalMethod, refuse, canSubscribeLocal,
      canPublishLocal, allow; cbv zeta; repeat keeps_step; apply keeps_close_with.
Qed.
End neutral.

(** ** Consumers and registrations *)

(** The consumers of every channel, and the registrations of the connection. *)
Definition subscriptions (s : Conn) : gmap Z (gmap string consumer) * gmap queueRegistration Z :=
  (consumers <$> channels s, queueRegistrations s).

Section subscriptions.
Context `{GoText} (env : Env).
Notation quiet := (same subscriptions).

Lemma subs_modify f : (∀ s, channels (f s) = channels s ∧ queueRegistrations (f s) = queueRegistrations s) →
  keeps quiet (modify f).
Proof. intros Hf s. unfold same, subscriptions. simpl. by destruct (Hf s) as [-> ->]. Qed.

Lemma subs_emit e : keeps quiet (emit e).
Proof. by apply subs_modify. Qed.

Lemma subs_mod_ch c f : (∀ ch, consumers (f ch) = consumers ch) → keeps quiet (mod_ch c f).
Proof.
  intros Hf s. unfold same, subscriptions. simpl. f_equal. apply map_eq. intros i.
  rewrite !lookup_fmap. destruct (decide (i = c)) as [->|]; [|by rewrite lookup_alter_ne].
  rewrite lookup_alter_eq. destruct (channels s !! c); simpl; [|done]. by rewrite Hf.
Qed.

#[local] Instance subs_delivers : Delivers env quiet.
Proof.
  apply (steps_deliver env quiet); [by intros s|intros; by apply subs_mod_ch|intros; by apply subs_mod_ch|].
  intros. apply subs_emit.
Qed.
#[local] Instance subs_neutral : Neutral quiet.
Proof.
  split; [apply _|intros; apply subs_emit| |intros; by apply subs_modify].
  intros c f Hf. apply subs_mod_ch. intros ch. apply Hf.
Qed.
End subscriptions.
#[export] Existing Instances subs_delivers subs_neutral.

(** ** Authorisation and frames *)

Lemma canPublishLocal_keeps env ex rk s : (canPublishLocal env ex rk s).2 = s.
Proof. unfold canPublishLocal. by repeat case_match. Qed.
Lemma applyHook_keeps env req s : (applyHook env req s).2 = s.
Proof. unfold applyHook. by repeat case_match. Qed.

Section frames.
Context `{GoText} (env : Env).

(** Methods that are let through leave the state as it is. *)
Lemma refuse_false c text m s : (refuse env c text m s).1.1 = false.
Proof. unfold refuse. destruct (methodIdentifier m). by rewrite M_bind_eq. Qed.

Lemma authorizeLocal_allowed c m s : (authorizeLocalMethod env c m s).1.1 = true →
  (authorizeLocalMethod env c m s).2 = s.
Proof.
  assert (Hr : ∀ text, (refuse env c text m s).1.1 = true → (refuse env c text m s).2 = s).
  { intros text. by rewrite refuse_false. }
  assert (Hsub : ∀ q, (canSubscribeLocal env q s).2 = s).
  { intros q. unfold canSubscribeLocal. by repeat case_match. }
  destruct m; cbn [authorizeLocalMethod]; try done; try apply Hr.
  - destruct (negb (QueueDeclare_Passive m)); [apply Hr|]. unfold authorizeLocalQueueName.
    destruct (negb (permitsConsumers env)); [apply Hr|]. rewrite M_bind_eq.
    destruct (negb _); cbn [mret M_ret fst snd]; rewrite ?Hsub; [|apply Hr]. destruct (canSubscribeLocal env _ s).1; [done|apply Hr].
  - destruct (permitsConsumers env); [done|apply Hr].
  - unfold authorizeLocalSubscribe. destruct (negb (permitsConsumers env)); [apply Hr|]. cbv zeta.
    rewrite M_bind_eq.
    case_bool_decide; cbn [mret M_ret fst snd]; rewrite ?Hsub; [|apply Hr]. destruct (canSubscribeLocal env _ s).1; [done|apply Hr].
  - destruct (permitsConsumers env); [done|apply Hr].
  - rewrite M_bind_eq, canPublishLocal_keeps. destruct (Allowed _); [done|]. by rewrite M_bind_eq.
  - destruct (permitsConsumers env); [done|apply Hr].
  - destruct (permitsConsumers env); [done|apply Hr].
  - destruct (permitsConsumers env); [done|apply Hr].
Qed.

(** To show [Q] after a whole frame it is enough to show it after the method the frame
    carries, when it follows from a relation [R] that holds of everything around: refusals,
    a channel that opens, content and the connection's end. *)
Context (R : Conn → Conn → Prop) `{!Neutral R, !Delivers env R} (s : Conn) (Q : Conn → Prop).
Hypothesis HQ : ∀ s', R s s' → Q s'.

Lemma handleMethod_rule c m : Q (dispatchMethod env c m s).2 → Q (handleMethod env c m s).2.
Proof.
  intros Hd. unfold handleMethod. rewrite M_bind_eq. cbn [get_ch gets fst snd].
  case_match; [by apply HQ|]. case_match; [|done].
  rewrite M_bind_eq. pose proof (keeps_authorizeLocal env R c m s) as Hk%HQ.
  pose proof (authorizeLocal_allowed c m s) as Ha.
  destruct (authorizeLocalMethod env c m s) as [[[] [err|]] s1]; simpl in *; try done. by rewrite Ha.
Qed.

Lemma handleMethodFrame_rule f : Frame_Type f = FrameMethod →
  (∀ m, decodeMethod f = Ret m → is_Some (channels s !! Frame_Channel f) →
    Q (dispatchMethod env (Frame_Channel f) m s).2) →
  (channels s !! Frame_Channel f = None → R s (put (Frame_Channel f) newChannel s)) →
  keeps R close_connection → Q (handleMethodFrame env f s).2.
Proof.
  intros Ht Hd Ho Hc. unfold handleMethodFrame, Frame_Decode. rewrite Ht.
  change (FrameMethod =? FrameMethod) with true. cbv iota.
  destruct (decodeMethod f) as [m| |] eqn:Hm; [|by apply HQ..]. cbn [fmap outcome_fmap].
  destruct (Frame_Channel f =? 0).
  - apply HQ. destruct m; try done; apply (keeps_bind R); try done; repeat keeps_step;
      try (by apply (keeps_writeMethod env R)); done.
  - assert (Hopen : R s (handleChannelOpen env (Frame_Channel f) s).2).
    { unfold handleChannelOpen, sendConnectionClose. rewrite M_bind_eq. cbn [gets fst snd id]. cbv zeta.
      repeat case_match; try (rewrite M_bind_eq; by apply (keeps_writeMethod env R)).
      rewrite M_bind_eq. etransitivity; [apply Ho|by apply (keeps_reply env R)].
      apply eq_None_not_Some. by eapply bool_decide_eq_false. }
    destruct m; try (by apply HQ); rewrite M_bind_eq; cbn [gets fst snd id];
      (destruct (channels s !! _) eqn:Hch; [apply handleMethod_rule, Hd; eauto|by apply HQ]).
Qed.

Lemma processFrame_rule f :
  (∀ m, decodeMethod f = Ret m → is_Some (channels s !! Frame_Channel f) →
    Q (dispatchMethod env (Frame_Channel f) m s).2) →
  (channels s !! Frame_Channel f = None → R s (put (Frame_Channel f) newChannel s)) →
  keeps R close_connection → Q (processFrame env f s).2.
Proof.
  intros Hd Ho Hc. unfold processFrame. cbv zeta. destruct (Z.eqb_spec (Frame_Type f) FrameMethod).
  { by apply handleMethodFrame_rule. }
  apply HQ. destruct (_ =? _); [|destruct (_ =? _); [|done]]; rewrite M_bind_eq; cbn [gets fst snd id];
    (destruct (channels s !! _); [|done]); rewrite M_bind_eq; by apply (keeps_content env R).
Qed.
End frames.

(** What can happen to a connection: a frame arrives, a message is delivered to it, its
    consumers of a queue are cancelled, an abandoned append ends, or it goes away.  [ok]
    restricts the frames. *)
Inductive conn_step `{GoText} (env : Env) (ok : Frame → Conn → Prop) : Conn → Conn → Prop :=
| step_frame f s : ok f s → conn_step env ok s (processFrame env f s).2
| step_deliver topic payload props s : conn_step env ok s (conn_deliverMessage env topic payload props s).2
| step_cancel q g s : conn_step env ok s (conn_cancelConsumerByQueue env q g s).2
| step_append_ends q s : conn_step env ok s (durable_append_ends q s).2
| step_cleanup s : conn_step env ok s (conn_cleanup env s).2.
