(* ===== verification/AmqpContent.v ===== *)
(** * Publications on an AMQP 0.9.1 channel

    Over the handlers of [AmqpChannel]: publisher confirms, the assembly of content
    frames into one publication, and the frames that close the channel. *)

From Stdlib Require Import ZArith Lia Bool Ascii String Strings.Byte.
From stdpp Require Import gmultiset prelude gmap strings.
From S2P Require Import Prelude State GoStrings Strconv Payload Envelope Topics Routing QueueConfig.
From S2P Require Import Codec AmqpTypes AmqpMethods AmqpFrame AmqpArgs QueueErrors Base64.
From S2P Require Import AmqpChannel AmqpLogic.

(** ** Publisher confirms *)

(** The confirm an effect is, on channel [cid]: its number and whether it is an ack. *)
Definition confirm_of (cid : Z) (e : Effect) : option (Z * bool) :=
  match e with
  | EMethod c (MBasicAck m) _ => if c =? cid then Some (BasicAck_DeliveryTag m, true) else None
  | EMethod c (MBasicNack m) _ => if c =? cid then Some (BasicNack_DeliveryTag m, false) else None
  | _ => None
  end.
Definition confirms (cid : Z) (t : trace) : list (Z * bool) := omap (confirm_of cid) t.

(** What matters for confirms: the counter, the mode, and the confirms sent. *)
Definition conf (cid : Z) (s : Conn) : option (Z * bool) * list (Z * bool) :=
  ((λ ch, (publishSeq ch, confirmMode ch)) <$> channels s !! cid, confirms cid (out s)).

Section conf.
Context `{GoText} (env : Env) (cid : Z).
Notation silent := (same (conf cid)).

Lemma conf_emit e : confirm_of cid e = None → keeps silent (emit e).
Proof.
  intros He s. unfold same, conf, emit, modify, confirms. simpl.
  rewrite omap_app. simpl. rewrite He, app_nil_r. done.
Qed.

Lemma conf_mod_ch c f : (∀ ch, publishSeq (f ch) = publishSeq ch ∧ confirmMode (f ch) = confirmMode ch) →
  keeps silent (mod_ch c f).
Proof.
  intros Hf s. unfold same, conf, mod_ch, modify. simpl. f_equal.
  destruct (decide (c = cid)) as [->|]; [|by rewrite lookup_alter_ne].
  rewrite lookup_alter_eq, <-option_fmap_compose. destruct (channels s !! cid) as [ch|]; [|done].
  simpl. by destruct (Hf ch) as [-> ->].
Qed.

Lemma conf_modify f : (∀ s, channels (f s) = channels s ∧ out (f s) = out s) → keeps silent (modify f).
Proof. intros Hf s. unfold same, conf, modify. simpl. by destruct (Hf s) as [-> ->]. Qed.

#[local] Instance conf_delivers : Delivers env silent.
Proof.
  apply (steps_deliver env silent); [by intros s|intros; by apply conf_mod_ch|intros; by apply conf_mod_ch|].
  intros. by apply conf_emit.
Qed.

#[local] Instance conf_replies : Replies silent.
Proof.
  split; [apply _| |intros; by apply conf_mod_ch|intros; by apply conf_mod_ch].
  intros c m err Hm. apply conf_emit. by destruct m.
Qed.

Lemma conf_queue_publish qm msg : keeps silent (queue_publish qm msg).
Proof. unfold queue_publish. repeat keeps_step. by apply conf_emit. Qed.

Lemma conf_handleQueueCommit route header : keeps silent (handleQueueCommit env route header).
Proof. unfold handleQueueCommit. repeat keeps_step. by apply conf_emit. Qed.

Lemma conf_fanout topic props : fanout_ok silent topic props.
Proof. intros body. repeat split; intros; by apply conf_emit. Qed.
End conf.
#[export] Existing Instances conf_delivers conf_replies.

Section confirms.
Context `{GoText} (env : Env) (cid : Z).

(** The state of confirms after one more confirm. *)
Definition one_more (n : Z) (cs : list (Z * bool)) (b : bool) : option (Z * bool) * list (Z * bool) :=
  (Some (u64 (n + 1), true), cs ++ [(u64 (n + 1), b)]).
Definition closing (s : Conn) : Prop := ∃ ch, channels s !! cid = Some ch ∧ serverClosing ch = true.

(** What can have become of a publication in confirm mode. *)
Inductive settled (n : Z) (cs : list (Z * bool)) (dropped : Prop) (s' : Conn) : Prop :=
| settled_confirm b : conf cid s' = one_more n cs b → settled n cs dropped s'
| settled_close : conf cid s' = (Some (n, true), cs) → closing s' → settled n cs dropped s'
| settled_dropped : conf cid s' = (Some (n, true), cs) → dropped → settled n cs dropped s'.

Definition settles (dropped : Prop) (m : M unit) : Prop := ∀ s n cs,
  conf cid s = (Some (n, true), cs) → settled n cs dropped (m s).2.

Lemma conf_open s n b cs : conf cid s = (Some (n, b), cs) →
  ∃ ch, channels s !! cid = Some ch ∧ publishSeq ch = n ∧ confirmMode ch = b ∧ confirms cid (out s) = cs.
Proof.
  unfold conf. destruct (channels s !! cid) as [ch|]; [|done]. intros [= <- <- <-]. eauto.
Qed.

Lemma settles_after {A} (m : M A) (f : A → M unit) (dropped : Prop) :
  keeps (same (conf cid)) m → (∀ a, settles dropped (f a)) → settles dropped (m ≫= f).
Proof. intros Hm Hf s n cs Hs. rewrite M_bind_eq. apply Hf. by rewrite Hm. Qed.

Lemma settles_keep (dropped : Prop) m : keeps (same (conf cid)) m →
  dropped → settles dropped m.
Proof. intros Hm Hd s n cs Hs. apply settled_dropped; [|done]. by rewrite Hm. Qed.

Lemma confirm_write s ch m seq b : channels s !! cid = Some ch → confirmMode ch = true →
  (any_Write m).2 = None → (∀ err, confirm_of cid (EMethod cid m err) = Some (seq, b)) →
  conf cid ((mod_ch cid (λ ch : Channel, ch <| publishSeq := seq |>) ≫=
               λ _, ignore (writeMethod env cid m)) s).2
  = (Some (seq, true), confirms cid (out s) ++ [(seq, b)]).
Proof.
  intros Hch Hm Hw Hc. rewrite M_bind_eq, (mod_ch_eq _ _ _ _ Hch). simpl fst. simpl snd.
  unfold ignore, writeMethod. rewrite M_bind_eq.
  destruct (any_Write m) as [bs ?]. simpl in Hw. subst. unfold conf, confirms. simpl.
  rewrite lookup_insert_eq. simpl. rewrite Hm, omap_app. f_equal. f_equal.
  unfold omap, list_omap. by rewrite Hc.
Qed.

Lemma confirm_numbers failed s n cs : conf cid s = (Some (n, true), cs) →
  conf cid (confirm env cid failed s).2 = one_more n cs (negb failed).
Proof.
  intros Hs. apply conf_open in Hs as (ch & Hch & <- & Hm & <-).
  destruct failed; unfold confirm, sendPublisherNack, sendPublisherAck;
    rewrite M_bind_eq, (get_ch_eq _ _ _ Hch); cbv zeta beta;
    apply (confirm_write s ch); try done; intros err; simpl; by rewrite Z.eqb_refl.
Qed.

Lemma settles_confirm dropped failed : settles dropped (confirm env cid failed).
Proof. intros s n cs Hs. eapply settled_confirm. by apply confirm_numbers. Qed.

Lemma settles_settleConfirm dropped failed : settles dropped (settleConfirm env cid failed).
Proof.
  intros s n cs Hs. destruct (conf_open _ _ _ _ Hs) as (ch & Hch & Hn & Hm & Hcs).
  unfold settleConfirm. rewrite M_bind_eq, (get_ch_eq _ _ _ Hch). simpl. rewrite Hm.
  by apply settles_confirm.
Qed.

(** In confirm mode, take the branch for it. *)
Lemma settles_mode (dropped : Prop) (yes no : M unit) : settles dropped yes →
  settles dropped (ch ← get_ch cid; if confirmMode ch then yes else no).
Proof.
  intros Hy s n cs Hs. destruct (conf_open _ _ _ _ Hs) as (ch & Hch & Hn & Hm & Hcs).
  rewrite M_bind_eq, (get_ch_eq _ _ _ Hch). simpl. rewrite Hm. by apply Hy.
Qed.

Lemma closePublish_closing code text s ch : channels s !! cid = Some ch →
  closing (closePublish env cid code text s).2.
Proof.
  intros Hch. unfold closePublish, ignore, sendChannelClose, resetPendingPublish, conn_sendChannelClose.
  rewrite !M_bind_eq, (mod_ch_eq _ _ _ _ Hch). cbn [fst snd].
  rewrite (mod_ch_eq _ _ _ (ch <| serverClosing := true |>)) by (by simpl; rewrite lookup_insert_eq).
  unfold closing. cbn [fst snd mret M_ret]. rewrite writeMethod_channels.
  eexists. split; [by simpl; rewrite lookup_insert_eq|done].
Qed.

Lemma settles_closePublish (dropped : Prop) code text : settles dropped (closePublish env cid code text).
Proof.
  intros s n cs Hs. destruct (conf_open _ _ _ _ Hs) as (ch & Hch & _).
  apply settled_close; [by rewrite (keeps_closePublish env (same (conf cid)))|]. by eapply closePublish_closing.
Qed.

Lemma settles_abandon dropped : settles dropped (abandonLocalStreamPublish env cid).
Proof.
  intros s n cs Hs. destruct (conf_open _ _ _ _ Hs) as (ch & Hch & Hn & Hm & Hcs).
  unfold abandonLocalStreamPublish. rewrite M_bind_eq, (get_ch_eq _ _ _ Hch). simpl. rewrite Hm.
  rewrite M_bind_eq. eapply settled_confirm. rewrite (keeps_closePublish env (same (conf cid))).
  change (sendPublisherNack env cid) with (confirm env cid true). by apply confirm_numbers.
Qed.

Lemma settles_reject dropped err : settles dropped (rejectLocalStreamPublish env cid err).
Proof.
  apply settles_mode. apply (settles_confirm dropped true).
Qed.

Lemma settles_durable dropped q body props clientID :
  settles dropped (handleLocalDurableStreamPublish env cid q body props clientID).
Proof.
  unfold handleLocalDurableStreamPublish.
  destruct (queueManager env ≫= qm_durableStream) as [publish|]; [|apply settles_reject].
  apply settles_after; [apply keeps_gets, _|]. intros s0.
  destruct (acquire (outstanding s0) q) as [[] l]; simpl; [|apply settles_abandon].
  apply settles_after; [by apply conf_modify|]. intros _. cbv zeta.
  apply settles_after; [apply keeps_gets, _|]. intros h.
  apply settles_after; [by apply conf_emit|]. intros _.
  destruct (publish h q _) as [err|]; [|apply settles_abandon].
  apply settles_after; [by apply conf_modify|]. intros _.
  destruct err as [err|]; [apply settles_reject|]. apply settles_mode, (settles_confirm dropped false).
Qed.

Lemma settles_queue_publish (dropped : Prop) topic body props clientID : (queueManager env = None → dropped) →
  settles dropped (handleQueuePublish env cid topic body props clientID).
Proof.
  intros Hqm. unfold handleQueuePublish. destruct (queueManager env) as [qm|].
  2: { apply settles_keep; [apply keeps_ret, _|auto]. }
  cbv zeta. apply settles_after; [apply conf_queue_publish|]. intros err. apply settles_mode, settles_confirm.
Qed.

Lemma settles_pubsub dropped topic body props m h :
  settles dropped (publishToPubSub env cid topic body props m h).
Proof.
  unfold publishToPubSub. apply settles_after; [apply keeps_gets, _|]. intros tr. cbv zeta.
  destruct (_ && _).
  - apply settles_after; [apply keeps_sendBasicReturn; apply _|]. intros _. apply settles_settleConfirm.
  - apply settles_after; [apply (keeps_Broker_Publish env (same (conf cid))), conf_fanout|]. intros failed. apply settles_settleConfirm.
Qed.

Lemma settles_exchange dropped m h ex orig topic body props :
  settles dropped (publishToExchange env cid m h ex orig topic body props).
Proof.
  unfold publishToExchange. apply settles_after; [apply keeps_gets, _|]. intros ch. cbv zeta.
  destruct (if _ && _ then _ else _) as [rk check].
  apply settles_after; [|intros [matched failed]].
  { apply (keeps_publish_bindings env (same (conf cid))). intros ???. by apply conf_emit. }
  destruct (negb matched); [apply settles_pubsub|apply settles_settleConfirm].
Qed.

Lemma targetsStream_keeps ex topic s : targetsStream env cid ex topic s = ((targetsStream env cid ex topic s).1, s).
Proof. unfold targetsStream. by destruct (str_eqb ex EmptyString). Qed.

Lemma settled_unresolved (dropped : Prop) m h ex orig topic body props s n cs :
  (queueManager env = None → (targetsStream env cid ex topic s).1 = true → dropped) →
  conf cid s = (Some (n, true), cs) →
  settled n cs dropped (publishUnresolved env cid m h ex orig topic body props s).2.
Proof.
  intros Hqm Hs. unfold publishUnresolved. rewrite M_bind_eq, targetsStream_keeps. cbn [fst snd].
  destruct (targetsStream env cid ex topic s).1; [apply settles_queue_publish; auto|by apply settles_exchange].
Qed.

(** A publication to the default exchange that is dropped: its address has a control
    verb before the last level, or it is for a queue and there is no queue manager. *)
Definition dropped_at (topic : string) (s : Conn) : Prop :=
  RR_Kind (Resolve topic) = RouteQueueMalformed ∨
  queueManager env = None ∧
    (RR_Kind (Resolve topic) = RouteQueue ∨
     RR_Kind (Resolve topic) ∈ [RouteQueueAck; RoutePubSub] ∧ (isStreamQueue env cid topic s).1 = true).

Lemma settled_route (dropped : Prop) m h grant ex orig topic body props s n cs :
  (grant = LocalPublishGrantNone → ex = EmptyString → dropped_at topic s → dropped) →
  conf cid s = (Some (n, true), cs) →
  settled n cs dropped (routePublish env cid m h grant ex orig topic body props s).2.
Proof.
  intros Hd Hs. destruct grant; simpl.
  - assert (Hdr : ex = EmptyString → dropped_at topic s → dropped) by auto. clear Hd.
    destruct (str_eqb ex EmptyString) eqn:Hex.
    2: { apply settled_unresolved; [|done]. intros _. unfold targetsStream. by rewrite Hex. }
    assert (Hun : RR_Kind (Resolve topic) ∈ [RouteQueueAck; RoutePubSub] →
      settled n cs dropped (publishUnresolved env cid m h ex orig topic body props s).2).
    { intros Hk. apply settled_unresolved; [|done]. unfold targetsStream. rewrite Hex. intros Hq Hst.
      apply bool_decide_eq_true in Hex. apply Hdr; [done|]. right. by auto. }
    apply bool_decide_eq_true in Hex. specialize (Hdr Hex). unfold dropped_at in Hdr.
    destruct (RR_Kind (Resolve topic)) eqn:Ek; try (apply Hun; set_solver).
    + apply settles_queue_publish; [|done]. intros Hq. apply Hdr. right. by auto.
    + apply settles_after; [apply conf_handleQueueCommit| |done]. intros _. apply settles_settleConfirm.
    + apply settled_dropped; [done|]. apply Hdr. by left.
  - destruct (negb _); [by apply settles_reject|by apply settles_durable].
  - by apply settles_pubsub.
Qed.
End confirms.

(** The topic a publication is addressed to. *)
Definition publish_topic (method : BasicPublish) : string :=
  let exchangeName := normalizeExchange (BasicPublish_Exchange method) in
  if negb (str_eqb exchangeName EmptyString)
  then exchangeName +:+ "/" +:+ BasicPublish_RoutingKey method else BasicPublish_RoutingKey method.
Definition publish_request `{GoText} (env : Env) (method : BasicPublish) (header : ContentHeader)
    (body : list byte) : BlockingHookRequest :=
  mkHookRequest HookAuthOnPublish (PrefixedClientID env) (externalID env (PrefixedClientID env))
    (publish_topic method) body (publish_props env header).

(** A publication of an external connection that is dropped, with the topic the hook
    left it. *)
Definition dropped_target `{GoText} (env : Env) (cid : Z) (method : BasicPublish) (header : ContentHeader)
    (body : list byte) (s : Conn) : Prop :=
  usesLocalPrincipalAuth (connectionPolicy env) = false ∧
  normalizeExchange (BasicPublish_Exchange method) = EmptyString ∧
  ∃ req, (applyHook env (publish_request env method header body) s).1 = Some req ∧
    dropped_at env cid (HR_Topic req) s.

(** A publication is refused, which closes the channel, or goes on with a local grant
    as it is, or on an external connection as the hook left it. *)
Lemma authorize_cases `{GoText} env cid m topic body props s :
  (∃ text, authorizePublish env cid m topic body props s
           = (None, (closePublish env cid AccessRefused text s).2)) ∨
  (∃ grant, usesLocalPrincipalAuth (connectionPolicy env) = true ∧ grant ≠ LocalPublishGrantNone ∧
     (canPublishLocal env (BasicPublish_Exchange m) (BasicPublish_RoutingKey m) s).1 = grant ∧
     authorizePublish env cid m topic body props s = (Some (grant, topic, body, props), s)) ∨
  (∃ req, usesLocalPrincipalAuth (connectionPolicy env) = false ∧
     (applyHook env (mkHookRequest HookAuthOnPublish (PrefixedClientID env)
        (externalID env (PrefixedClientID env)) topic body props) s).1 = Some req ∧
     authorizePublish env cid m topic body props s
     = (Some (LocalPublishGrantNone, HR_Topic req, HR_Payload req, HR_Properties req), s)).
Proof.
  unfold authorizePublish. destruct (usesLocalPrincipalAuth (connectionPolicy env)).
  - rewrite M_bind_eq, canPublishLocal_keeps.
    destruct (canPublishLocal env _ _ s).1 as [| |] eqn:Hg.
    + left. eexists. unfold Allowed. simpl. by rewrite M_bind_eq.
    + right; left. by exists LocalPublishGrantExactTarget.
    + right; left. by exists LocalPublishGrantPrefix.
  - rewrite M_bind_eq, applyHook_keeps.
    destruct (applyHook env _ s).1 as [req|] eqn:Hreq.
    + rewrite M_bind_eq. cbn [gets fst snd]. cbv zeta.
      destruct (match externalAuth (connectionPolicy env) with
                | Some auth => negb (CanPublish auth (out s) (PrefixedClientID env) (HR_Topic req))
                | None => false end); [left; eexists; by rewrite M_bind_eq|].
      right; right. by exists req.
    + left. eexists. by rewrite M_bind_eq.
Qed.

(** C5 Publisher confirms.  In confirm mode a complete publication is answered by exactly
    one confirm, numbered one above the last; or the broker closes the channel; or it
    is dropped with no answer, and only if it is for the default exchange on an
    external connection and its topic is a queue address with a control verb before
    the last level, or the broker has no queue manager and its topic is a queue
    address or the name of a stream queue. *)
Theorem publish_confirmed `{GoText} env cid method header body s ch :
  channels s !! cid = Some ch → confirmMode ch = true →
  settled cid (publishSeq ch) (confirms cid (out s)) (dropped_target env cid method header body s)
    (finishPublish env cid method header body s).2.
Proof.
  intros Hch Hm.
  assert (Hs : conf cid s = (Some (publishSeq ch, true), confirms cid (out s))).
  { unfold conf. by rewrite Hch, <-Hm. }
  unfold finishPublish. fold (publish_topic method). rewrite M_bind_eq.
  destruct (authorize_cases env cid method (publish_topic method) body (publish_props env header) s)
    as [(text & ->)|[(grant & Hl & Hg & _ & ->)|(req & Hl & Hreq & ->)]]; cbn [fst snd].
  - by apply (settles_closePublish env).
  - by apply settled_route.
  - apply settled_route; [|done]. intros _ Hex Hdr. split; [done|]. split; [done|]. by exists req.
Qed.

(** ** Assembling a publication from its frames *)

(** A channel between publications. *)
Definition ready (ch : Channel) : Prop := serverClosing ch = false ∧ reset_pending ch = ch.

(** A channel in the middle of one, with [got] of its body. *)
Definition assembling (m : BasicPublish) (header : ContentHeader) (got : list byte) (ch : Channel) : Channel :=
  ch <| pendingMethod := Some m |> <| pendingHeader := Some header |>
     <| pendingBodySize := ch_BodySize header |> <| pendingBodyReceived := Z.of_nat (length got) |>
     <| pendingBody := got |>.

Lemma reset_assembling m header got ch : reset_pending (assembling m header got ch) = reset_pending ch.
Proof. done. Qed.

Definition body_frame (cid : Z) (payload : list byte) : Frame := mkFrame FrameBody cid payload.

Section assembly.
Context `{GoText} (env : Env) (cid : Z) (m : BasicPublish) (header : ContentHeader).

Lemma complete_assembling body ch s : channels s !! cid = Some ch → ready ch →
  completePublish env cid (put cid (assembling m header body ch) s)
  = finishPublish env cid m header body s.
Proof.
  intros Hch [_ Hr]. unfold completePublish, resetPendingPublish.
  rewrite M_bind_eq, get_put. cbn [fst snd]. rewrite M_bind_eq, mod_put. cbn [fst snd].
  rewrite reset_assembling, Hr, (put_id _ _ _ Hch). done.
Qed.

Lemma unit_pair (p : unit * Conn) : p = (tt, p.2).
Proof. by destruct p as [[] ?]. Qed.

Lemma handleBody_more got payload ch s : ready ch → channels s !! cid = Some ch →
  Z.of_nat (length (got ++ payload)) <= ch_BodySize header < 2 ^ 64 →
  handleBodyFrame env cid (body_frame cid payload) (put cid (assembling m header got ch) s)
  = if Z.of_nat (length (got ++ payload)) =? ch_BodySize header
    then finishPublish env cid m header (got ++ payload) s
    else (tt, put cid (assembling m header (got ++ payload) ch) s).
Proof.
  intros [Hs Hr] Hch Hlen. unfold handleBodyFrame. rewrite M_bind_eq, get_put. cbn [fst snd].
  assert (serverClosing (assembling m header got ch) = false) as -> by done.
  change (pendingMethod (assembling m header got ch)) with (Some m).
  change (pendingHeader (assembling m header got ch)) with (Some header).
  change (pendingBodyReceived (assembling m header got ch)) with (Z.of_nat (length got)).
  change (pendingBodySize (assembling m header got ch)) with (ch_BodySize header). cbv zeta.
  change (Frame_Payload (body_frame cid payload)) with payload.
  rewrite <-Nat2Z.inj_add, <-length_app, u64_small by lia.
  destruct (Z.ltb_spec (ch_BodySize header) (Z.of_nat (length (got ++ payload)))); [lia|].
  rewrite M_bind_eq, mod_put. cbn [fst snd]. unfold when. 
  change ((assembling m header got ch) <| pendingBody := _ |> <| pendingBodyReceived := _ |>)
    with (assembling m header (got ++ payload) ch).
  destruct (_ =? _); [|done]. by apply complete_assembling.
Qed.

Lemma processFrames_cons f fs s : conn_closed s = false →
  processFrames env (f :: fs) s =
  match (processFrame env f s).1 with
  | Some e => (Some e, (processFrame env f s).2)
  | None => processFrames env fs (processFrame env f s).2
  end.
Proof.
  intros Hc. simpl. rewrite M_bind_eq. cbn [gets fst snd id]. rewrite Hc, M_bind_eq.
  by destruct (processFrame env f s).1.
Qed.

Lemma processFrame_body payload ch s :
  processFrame env (body_frame cid payload) (put cid ch s) =
  (None, (handleBodyFrame env cid (body_frame cid payload) (put cid ch s)).2).
Proof.
  unfold processFrame. cbv zeta. cbn [Frame_Type Frame_Channel body_frame].
  change (FrameBody =? FrameMethod) with false. change (FrameBody =? FrameHeader) with false.
  change (FrameBody =? FrameBody) with true. cbv iota.
  rewrite M_bind_eq. cbn [gets fst snd id]. by rewrite lookup_put, M_bind_eq.
Qed.

Lemma bodies_assembled bodies : ∀ got ch s, ready ch → channels s !! cid = Some ch →
  conn_closed s = false → Forall (λ b, b ≠ []) bodies → bodies ≠ [] →
  Z.of_nat (length (got ++ concat bodies)) = ch_BodySize header → ch_BodySize header < 2 ^ 64 →
  processFrames env (body_frame cid <$> bodies) (put cid (assembling m header got ch) s)
  = (None, (finishPublish env cid m header (got ++ concat bodies) s).2).
Proof.
  induction bodies as [|b bodies IH]; intros got ch s Hr Hch Hc Hne Hnn Hlen Hlim; [done|].
  rewrite fmap_cons. apply Forall_cons in Hne as [Hb Hne].
  rewrite processFrames_cons by done. rewrite processFrame_body. cbn [fst snd].
  simpl concat in *. rewrite app_assoc in Hlen.
  rewrite handleBody_more by (done || (rewrite length_app in Hlen; lia)).
  destruct bodies as [|b' bodies].
  { simpl in *. rewrite app_nil_r in *. by rewrite Hlen, Z.eqb_refl. }
  destruct (Z.eqb_spec (Z.of_nat (length (got ++ b))) (ch_BodySize header)) as [He|_].
  { exfalso. inversion_clear Hne as [|? ? Hb' _]. simpl concat in Hlen.
    rewrite !length_app in *. destruct b'; [done|]. simpl in Hlen. lia. }
  cbn [snd]. rewrite IH by done. by rewrite <-app_assoc.
Qed.
End assembly.

(** The frames of a publication that a channel can take: the method, a header with
    the size of the body, and the body in pieces that are not empty. *)
Record well_framed `{GoText} (env : Env) (s : Conn) (ch : Channel) (m : BasicPublish)
    (header : ContentHeader) (mf hf : Frame) (bodies : list (list byte)) : Prop := {
  wf_type : Frame_Type mf = FrameMethod ∧ Frame_Type hf = FrameHeader;
  wf_channel : Frame_Channel mf = Frame_Channel hf ∧ Frame_Channel mf ≠ 0;
  wf_method : decodeMethod mf = Ret (MBasicPublish m);
  wf_header : ∃ r, ReadContentHeader (NewReader (Frame_Payload hf)) = Ret (header, r);
  wf_exchange : exchangeExists ch (normalizeExchange (BasicPublish_Exchange m)) = true;
  wf_granted : usesLocalPrincipalAuth (connectionPolicy env) = true →
    Allowed (canPublishLocal env (BasicPublish_Exchange m) (BasicPublish_RoutingKey m) s).1 = true;
  wf_limit : maxMessageSize (connectionPolicy env) = 0 ∨
    ch_BodySize header <= maxMessageSize (connectionPolicy env);
  wf_pieces : Forall (λ b, b ≠ []) bodies;
  wf_size : ch_BodySize header = Z.of_nat (length (concat bodies)) ∧ ch_BodySize header < 2 ^ 64
}.

Section assembled.
Context `{GoText} (env : Env).

Lemma startPublish_ready cid m ch s : channels s !! cid = Some ch → ready ch →
  exchangeExists ch (normalizeExchange (BasicPublish_Exchange m)) = true →
  startPublish env cid m s = (None, put cid (ch <| pendingMethod := Some m |>) s).
Proof.
  intros Hch [Hs Hr] Hex. unfold startPublish. rewrite M_bind_eq, (get_ch_eq _ _ _ Hch).
  cbn [fst snd]. cbv zeta. rewrite Hex.
  assert (pendingMethod ch = None ∧ pendingHeader ch = None) as [-> ->] by (by rewrite <-Hr).
  rewrite andb_false_r. simpl. rewrite M_bind_eq. by rewrite (mod_ch_eq _ _ _ _ Hch).
Qed.

Lemma processFrame_publish mf m ch s : Frame_Type mf = FrameMethod → Frame_Channel mf ≠ 0 →
  decodeMethod mf = Ret (MBasicPublish m) → channels s !! Frame_Channel mf = Some ch → ready ch →
  exchangeExists ch (normalizeExchange (BasicPublish_Exchange m)) = true →
  (usesLocalPrincipalAuth (connectionPolicy env) = true →
   Allowed (canPublishLocal env (BasicPublish_Exchange m) (BasicPublish_RoutingKey m) s).1 = true) →
  processFrame env mf s = (None, put (Frame_Channel mf) (ch <| pendingMethod := Some m |>) s).
Proof.
  intros Ht Hnz Hdec Hch Hready Hex Hg. unfold processFrame, handleMethodFrame, Frame_Decode. cbv zeta.
  rewrite Ht, Hdec. change (FrameMethod =? FrameMethod) with true. cbn [fmap outcome_fmap].
  destruct (Z.eqb_spec (Frame_Channel mf) 0); [done|].
  rewrite M_bind_eq. cbn [gets fst snd id]. rewrite Hch. unfold handleMethod.
  rewrite M_bind_eq, (get_ch_eq _ _ _ Hch). cbn [fst snd]. destruct Hready as [Hs Hr]. rewrite Hs.
  cbn [andb]. destruct (usesLocalPrincipalAuth (connectionPolicy env)).
  - rewrite M_bind_eq. cbn [authorizeLocalMethod]. rewrite M_bind_eq, canPublishLocal_keeps, Hg by done.
    cbn [allow mret M_ret fst snd dispatchMethod]. by apply startPublish_ready.
  - by apply startPublish_ready.
Qed.

Lemma processFrame_header hf m header r ch s : Frame_Type hf = FrameHeader →
  ReadContentHeader (NewReader (Frame_Payload hf)) = Ret (header, r) →
  (maxMessageSize (connectionPolicy env) = 0 ∨
   ch_BodySize header <= maxMessageSize (connectionPolicy env)) →
  channels s !! Frame_Channel hf = Some ch → ready ch →
  processFrame env hf (put (Frame_Channel hf) (ch <| pendingMethod := Some m |>) s) =
  (None, if ch_BodySize header =? 0 then (finishPublish env (Frame_Channel hf) m header [] s).2
         else put (Frame_Channel hf) (assembling m header [] ch) s).
Proof.
  intros Ht Hread Hlim Hch Hready. unfold processFrame. cbv zeta. rewrite Ht.
  change (FrameHeader =? FrameMethod) with false. change (FrameHeader =? FrameHeader) with true. cbv iota.
  rewrite M_bind_eq. cbn [gets fst snd id]. rewrite lookup_put, M_bind_eq. cbn [mret M_ret]. f_equal.
  unfold handleHeaderFrame. rewrite M_bind_eq, get_put. cbn [fst snd].
  assert (serverClosing (ch <| pendingMethod := Some m |>) = false) as -> by apply Hready.
  change (pendingMethod (ch <| pendingMethod := Some m |>)) with (Some m).
  assert (pendingHeader (ch <| pendingMethod := Some m |>) = None) as ->.
  { change (pendingHeader ch = None). by rewrite <-(proj2 Hready). }
  rewrite Hread. cbv zeta.
  assert ((0 <? maxMessageSize (connectionPolicy env)) &&
          (maxMessageSize (connectionPolicy env) <? ch_BodySize header) = false) as ->.
  { destruct (Z.ltb_spec 0 (maxMessageSize (connectionPolicy env))); [|done]. simpl. apply Z.ltb_ge. lia. }
  rewrite M_bind_eq, mod_put. cbn [fst snd].
  change (_ <| pendingHeader := _ |> <| pendingBodySize := _ |> <| pendingBodyReceived := _ |>
            <| pendingBody := _ |>) with (assembling m header [] ch).
  unfold when. destruct (ch_BodySize header =? 0); [|done]. by rewrite complete_assembling.
Qed.

(** C15 Content assembly.  On a channel between publications, the method, header and body
    frames of a publication, with the body cut in any way, are exactly one publication of
    the whole body, started from the state before the first frame. *)
Theorem content_assembled s ch m header mf hf bodies :
  conn_closed s = false → channels s !! Frame_Channel mf = Some ch → ready ch →
  well_framed env s ch m header mf hf bodies →
  processFrames env (mf :: hf :: (body_frame (Frame_Channel mf) <$> bodies)) s
  = (None, (finishPublish env (Frame_Channel mf) m header (concat bodies) s).2).
Proof.
  intros Hc Hch Hready [[Htm Hth] [Heq Hnz] Hdec [r Hread] Hex Hg Hlim Hne [Hsz Hmax]].
  rewrite processFrames_cons, (processFrame_publish _ m ch) by done. cbn [fst snd].
  rewrite processFrames_cons by done. rewrite Heq in *.
  rewrite (processFrame_header _ _ _ _ _ _ Hth Hread Hlim Hch Hready). cbn [fst snd].
  destruct bodies as [|b bodies].
  { simpl in Hsz. rewrite Hsz. done. }
  destruct (Z.eqb_spec (ch_BodySize header) 0) as [H0|_].
  { exfalso. apply Forall_cons in Hne as [Hb _]. destruct b; [done|]. simpl in Hsz. lia. }
  by rewrite (bodies_assembled env _ m header).
Qed.
End assembled.

(** ** Frames out of place *)

(** The channel after the server has closed it, and the reply it has sent. *)
Definition refused (env : Env) (cid code : Z) (text : string) (ch : Channel) (s : Conn) : Conn :=
  put cid (reset_pending (ch <| serverClosing := true |>)) s
    <| out := out s ++ [EMethod cid (MChannelClose (mkChannelClose code text ClassBasic MethodBasicPublish))
                          (socket env (out s))] |>.

(** A content frame that does not continue the publication in progress, with the
    reply code and text it earns. *)
Inductive misplaced `{GoText} (env : Env) (ch : Channel) (f : Frame) : Z → string → Prop :=
| misplaced_header : Frame_Type f = FrameHeader → pendingMethod ch = None ∨ is_Some (pendingHeader ch) →
    misplaced env ch f UnexpectedFrame "unexpected content header"
| malformed_header e : Frame_Type f = FrameHeader → is_Some (pendingMethod ch) → pendingHeader ch = None →
    ReadContentHeader (NewReader (Frame_Payload f)) = Fail e →
    misplaced env ch f FrameError "malformed content header"
| oversized_header h r : Frame_Type f = FrameHeader → is_Some (pendingMethod ch) → pendingHeader ch = None →
    ReadContentHeader (NewReader (Frame_Payload f)) = Ret (h, r) →
    0 < maxMessageSize (connectionPolicy env) < ch_BodySize h →
    misplaced env ch f ContentTooLarge "message exceeds maximum size"
| misplaced_body : Frame_Type f = FrameBody → pendingMethod ch = None ∨ pendingHeader ch = None →
    misplaced env ch f UnexpectedFrame "unexpected content body"
| oversized_body : Frame_Type f = FrameBody → is_Some (pendingMethod ch) → is_Some (pendingHeader ch) →
    0 <= pendingBodyReceived ch →
    pendingBodySize ch < pendingBodyReceived ch + Z.of_nat (length (Frame_Payload f)) < 2 ^ 64 →
    misplaced env ch f ContentTooLarge "content body larger than header".

Section misplaced.
Context `{GoText} (env : Env).

Lemma closePublish_refused cid code text ch s : channels s !! cid = Some ch →
  u16_ok code → shortstr_ok text →
  (closePublish env cid code text;; resetPendingPublish cid) s = (tt, refused env cid code text ch s).
Proof.
  intros Hch Hcode Ht. unfold closePublish, ignore, sendChannelClose, resetPendingPublish, conn_sendChannelClose.
  rewrite !M_bind_eq, (mod_ch_eq _ _ _ _ Hch). fold (put cid (ch <| serverClosing := true |>) s).
  cbn [fst snd]. rewrite mod_put. cbn [fst snd mret M_ret].
  assert (Hw : (any_Write (MChannelClose (mkChannelClose code text ClassBasic MethodBasicPublish))).2 = None).
  { apply any_writes. by split. }
  unfold writeMethod. destruct (any_Write _) as [bs ?]. simpl in Hw. subst. cbn -[put].
  unfold refused, put, mod_ch, modify. simpl. f_equal. f_equal.
  by rewrite alter_insert_eq.
Qed.

Lemma processFrame_content f ch s : channels s !! Frame_Channel f = Some ch →
  (Frame_Type f = FrameHeader →
   processFrame env f s = (None, (handleHeaderFrame env (Frame_Channel f) f s).2)) ∧
  (Frame_Type f = FrameBody →
   processFrame env f s = (None, (handleBodyFrame env (Frame_Channel f) f s).2)).
Proof.
  intros Hch. split; intros Ht; unfold processFrame; cbv zeta; rewrite Ht.
  - change (FrameHeader =? FrameMethod) with false. change (FrameHeader =? FrameHeader) with true.
    cbv iota. rewrite M_bind_eq. cbn [gets fst snd id]. by rewrite Hch, M_bind_eq.
  - change (FrameBody =? FrameMethod) with false. change (FrameBody =? FrameHeader) with false.
    change (FrameBody =? FrameBody) with true.
    cbv iota. rewrite M_bind_eq. cbn [gets fst snd id]. by rewrite Hch, M_bind_eq.
Qed.

(** Close the goal with the equation [Hr] for a closed reply. *)
Ltac reply_ok Hr := rewrite Hr; [done|done|vm_compute; lia].

Lemma misplaced_refused f ch s code text : channels s !! Frame_Channel f = Some ch →
  serverClosing ch = false → misplaced env ch f code text →
  processFrame env f s = (None, refused env (Frame_Channel f) code text ch s).
Proof.
  intros Hch Hs Hm. pose proof (processFrame_content f ch s Hch) as [Hh Hb].
  assert (Hr : ∀ code text, u16_ok code → shortstr_ok text →
    ((closePublish env (Frame_Channel f) code text;; resetPendingPublish (Frame_Channel f)) s).2
    = refused env (Frame_Channel f) code text ch s).
  { intros. by rewrite (closePublish_refused _ _ _ ch). }
  destruct Hm as [Ht Hp|e Ht [m Hp] Hp' He|h r Ht [m Hp] Hp' He Hlim|Ht Hp|Ht [m Hp] [h Hp'] Hpos Hlim];
    [rewrite (Hh Ht)|rewrite (Hh Ht)|rewrite (Hh Ht)|rewrite (Hb Ht)|rewrite (Hb Ht)]; f_equal;
    unfold handleHeaderFrame, handleBodyFrame; rewrite M_bind_eq, (get_ch_eq _ _ _ Hch);
    cbn [fst snd]; rewrite Hs.
  - destruct (pendingMethod ch), (pendingHeader ch); try reply_ok Hr. destruct Hp as [|[]]; done.
  - rewrite Hp, Hp', He. reply_ok Hr.
  - rewrite Hp, Hp', He. cbv zeta. destruct (Z.ltb_spec 0 (maxMessageSize (connectionPolicy env))); [|lia].
    destruct (Z.ltb_spec (maxMessageSize (connectionPolicy env)) (ch_BodySize h)); [|lia].
    cbn [andb]. reply_ok Hr.
  - destruct (pendingMethod ch), (pendingHeader ch); try reply_ok Hr. destruct Hp; done.
  - rewrite Hp, Hp'. cbv zeta.
    rewrite u64_small by lia.
    destruct (Z.ltb_spec (pendingBodySize ch)
      (pendingBodyReceived ch + Z.of_nat (length (Frame_Payload f)))); [reply_ok Hr|lia].
Qed.

(** C23 A content frame out of place, unreadable or too large closes the channel with the
    matching reply code; what had arrived of the message is discarded, nothing is
    published, and until the client confirms the close, content frames and methods on
    the channel are ignored. *)
Theorem misplaced_closes f ch s code text :
  channels s !! Frame_Channel f = Some ch → serverClosing ch = false →
  misplaced env ch f code text →
  processFrame env f s = (None, refused env (Frame_Channel f) code text ch s) ∧
  ∀ f', Frame_Channel f' = Frame_Channel f →
    (Frame_Type f' = FrameHeader ∨ Frame_Type f' = FrameBody ∨
     Frame_Channel f' ≠ 0 ∧ Frame_Type f' = FrameMethod ∧
     ∃ m, decodeMethod f' = Ret m ∧ is_channel_close m = false ∧ ∀ o, m ≠ MChannelOpen o) →
    processFrame env f' (refused env (Frame_Channel f) code text ch s)
    = (None, refused env (Frame_Channel f) code text ch s).
Proof.
  intros Hch Hs Hm. split; [by apply misplaced_refused|]. intros f' Hc Hf.
  set (s' := refused env (Frame_Channel f) code text ch s).
  set (ch' := reset_pending (ch <| serverClosing := true |>)).
  assert (Hch' : channels s' !! Frame_Channel f' = Some ch').
  { rewrite Hc. unfold s', refused. simpl. by rewrite lookup_insert_eq. }
  pose proof (processFrame_content f' ch' s' Hch') as [Hh Hb].
  destruct Hf as [Ht|[Ht|(Hnz & Ht & m & Hd & Hcl & Hno)]].
  - rewrite (Hh Ht). unfold handleHeaderFrame. by rewrite M_bind_eq, (get_ch_eq _ _ _ Hch').
  - rewrite (Hb Ht). unfold handleBodyFrame. by rewrite M_bind_eq, (get_ch_eq _ _ _ Hch').
  - unfold processFrame, handleMethodFrame, Frame_Decode. cbv zeta. rewrite Ht, Hd.
    change (FrameMethod =? FrameMethod) with true. cbn [fmap outcome_fmap].
    destruct (Z.eqb_spec (Frame_Channel f') 0); [done|].
    assert (Hm' : handleMethod env (Frame_Channel f') m s' = (None, s')).
    { unfold handleMethod. rewrite M_bind_eq, (get_ch_eq _ _ _ Hch'). cbn [fst snd].
      change (serverClosing ch') with true. by rewrite Hcl. }
    destruct m; try (rewrite M_bind_eq; cbn [gets fst snd id]; by rewrite Hch', Hm').
    by destruct (Hno m).
Qed.
End misplaced.
