(* ===== verification/AmqpSecurity.v ===== *)
(** * What AMQP 0.9.1 publishers and local principals cannot do

    Over the handlers of [AmqpChannel]: a publisher cannot have a message attributed
    to anyone else, a grant on a routing-key prefix cannot address a queue, and a
    local principal without the service role is refused everything but publishing. *)

From Stdlib Require Import ZArith Lia Bool Ascii String Strings.Byte.
From stdpp Require Import gmultiset prelude gmap strings.
From S2P Require Import Prelude State GoStrings Strconv Payload Envelope Topics Routing QueueConfig.
From S2P Require Import Codec AmqpTypes AmqpMethods AmqpFrame AmqpArgs QueueErrors Base64.
From S2P Require Import AmqpChannel AmqpLogic AmqpContent.

(** ** Effects of publishing *)

(** A set of effects that contains everything written to the socket. *)
Class Wire (P : Effect → Prop) : Prop := {
  wire_method c m err : P (EMethod c m err);
  wire_content fs err : P (EContent fs err)
}.

Section emits.
Context `{GoText} (env : Env) (P : Effect → Prop).

Lemma emits_emit e : P e → emits P (emit e).
Proof. intros He s. exists [e]. split; [done|]. by constructor. Qed.

Lemma emits_modify f : (∀ s, out (f s) = out s) → emits P (modify f).
Proof. intros Hf s. exists []. simpl. by rewrite Hf, app_nil_r. Qed.

Lemma emits_mod_ch c f : emits P (mod_ch c f).
Proof. by apply emits_modify. Qed.

Lemma emits_replies : (∀ c m err, P (EMethod c m err)) → Replies (grows P).
Proof.
  intros HP. split; [apply _| |intros; apply emits_mod_ch|intros; apply emits_mod_ch].
  intros. by apply emits_emit.
Qed.

#[local] Instance emits_delivers `{!Wire P} : Delivers env (grows P).
Proof.
  apply (steps_deliver env (grows P)); [|intros; apply emits_mod_ch|intros; apply emits_mod_ch|].
  - by apply (emits_modify (λ s, s <| deliveryTag := u64 (deliveryTag s + 1) |>)).
  - intros. apply emits_emit, wire_content.
Qed.

Lemma emits_confirm c failed : (∀ c m err, P (EMethod c m err)) → emits P (confirm env c failed).
Proof.
  intros HP. unfold confirm, sendPublisherNack, sendPublisherAck, writeMethod.
  repeat keeps_step; try apply emits_mod_ch; by apply emits_emit.
Qed.
End emits.
#[export] Instance wire_replies P `{!Wire P} : Replies (grows P).
Proof. apply emits_replies, wire_method. Qed.
#[export] Existing Instance emits_delivers.

(** ** Identities *)

Section identity.
Context `{GoText} (env : Env).

(** The identity of this connection as the source of a message. *)
Definition own_source : Message.SourceMetadata :=
  Message.mkSource (PrefixedClientID env) (externalID env (PrefixedClientID env))
    Message.ProtocolAMQP091 EmptyString.

(** Properties that attribute a message to this connection. *)
Definition attributed (props : propmap) : Prop := Message.SourceFromProperties props = own_source.

(** Whatever leaves the connection as a message is attributed to it. *)
Definition honest (e : Effect) : Prop :=
  match e with
  | EQueuePublish msg _ | EDurablePublish _ msg | ECapture msg => q_Source msg = own_source
  | EDeliverTo _ _ _ props | ECrossDeliver _ _ _ _ props | EClusterRoute _ _ props => attributed props
  | _ => True
  end.

(** No hook decides on a publication of a local principal, or without one in place. *)
Definition unhooked : Prop :=
  usesLocalPrincipalAuth (connectionPolicy env) = true ∨ hooks (connectionPolicy env) = None.

(** The hook's answer to a publication, if it lets it pass, still names this
    connection: a hook may replace any property. *)
Definition hook_keeps_identity (method : BasicPublish) (header : ContentHeader) (body : list byte)
    (s : Conn) : Prop :=
  ∀ req, (applyHook env (publish_request env method header body) s).1 = Some req →
    attributed (HR_Properties req).

Lemma set_nonempty_ne k v (m : propmap) j : j ≠ k → Message.set_nonempty k v m !! j = m !! j.
Proof. intros. unfold Message.set_nonempty. destruct (str_eqb v _); [done|]. by rewrite lookup_insert_ne. Qed.

Lemma content_props_external p : content_props p !! Message.PropertyExternalID = None.
Proof.
  unfold content_props. cbv zeta. rewrite !set_nonempty_ne by done.
  destruct (str_eqb _ _); [|rewrite lookup_insert_ne by done]; by rewrite !set_nonempty_ne by done.
Qed.

Lemma carry_reserved_own props kv k : propagatesOriginIdentity env = false →
  k ∈ [Message.PropertyClientID; Message.PropertyExternalID; Message.PropertyProtocol] →
  carry_reserved env props kv !! k = props !! k.
Proof.
  intros Hprop Hk. destruct kv as [key val]. unfold carry_reserved. rewrite Hprop.
  destruct (negb (Message.IsReservedProperty key)); [done|]. cbn [negb andb].
  case_bool_decide as Hin; [done|]. destruct val; try done.
  rewrite lookup_insert_ne; [done|]. by intros ->.
Qed.

Lemma carry_all_own headers : ∀ props k, propagatesOriginIdentity env = false →
  k ∈ [Message.PropertyClientID; Message.PropertyExternalID; Message.PropertyProtocol] →
  foldl (carry_reserved env) props headers !! k = props !! k.
Proof.
  induction headers as [|kv headers IH]; intros props k Hp Hk; simpl; [done|].
  by rewrite IH, carry_reserved_own.
Qed.

Lemma prop_eq (m : propmap) k v : m !! k = Some v → Message.prop m k = v.
Proof. unfold Message.prop. by intros ->. Qed.

Lemma publish_props_attributed header : propagatesOriginIdentity env = false →
  attributed (publish_props env header).
Proof.
  intros Hp. unfold attributed, own_source, Message.SourceFromProperties, publish_props. cbv zeta.
  rewrite Hp.
  set (props := <[Message.PropertyProtocol := _]> _).
  set (carried := if carriesReservedProperties _ then _ else _).
  assert (Hc : ∀ k, k ∈ [Message.PropertyClientID; Message.PropertyExternalID; Message.PropertyProtocol] →
    carried !! k = props !! k).
  { intros k Hk. unfold carried. destruct (carriesReservedProperties _); [|done]. by apply carry_all_own. }
  f_equal.
  - apply prop_eq. by rewrite lookup_insert_eq.
  - unfold Message.prop. rewrite lookup_insert_ne, Hc by (done || set_solver). unfold props.
    rewrite lookup_insert_ne by done. simpl. unfold Message.set_nonempty.
    destruct (str_eqb (externalID env _) _) eqn:He.
    + apply bool_decide_eq_true in He. by rewrite content_props_external, He.
    + by rewrite lookup_insert_eq.
  - apply prop_eq. rewrite lookup_insert_ne, Hc by (done || set_solver). unfold props. by rewrite lookup_insert_eq.
Qed.

#[local] Instance honest_wire : Wire honest.
Proof. by split. Qed.

Lemma attributed_fanout props : attributed props → ∀ topic, fanout_ok (grows honest) topic props.
Proof. intros Ha topic body. repeat split; intros; by apply emits_emit. Qed.

Lemma attributed_handle c topic body props : attributed props →
  emits honest (handleQueuePublish env c topic body props (PrefixedClientID env)).
Proof.
  intros Ha. apply (keeps_handleQueuePublish env (grows honest)).
  - intros. by apply emits_confirm.
  - intros t b err. apply emits_emit. simpl. injection Ha as Hc He Hp. by rewrite He, Hp.
Qed.

Lemma attributed_client props : attributed props →
  attributed (<[Message.PropertyClientID := PrefixedClientID env]> props).
Proof.
  unfold attributed, Message.SourceFromProperties, own_source. intros [= Hc He Hp].
  unfold Message.prop in *. rewrite lookup_insert_eq, !lookup_insert_ne by done. simpl. by rewrite He, Hp.
Qed.

Lemma attributed_route c m h grant ex orig topic body props : attributed props →
  emits honest (routePublish env c m h grant ex orig topic body props).
Proof.
  intros Ha. pose proof (attributed_fanout _ Ha) as Hf.
  assert (Hc : ∀ c failed, emits honest (confirm env c failed)) by (intros; by apply emits_confirm).
  unfold routePublish, publishUnresolved, targetsStream, isStreamQueue, handleQueueCommit. cbv zeta.
  repeat keeps_step; auto using attributed_handle;
    try solve [by apply (keeps_settleConfirm env (grows honest))|by apply emits_emit
              |by apply (keeps_pubsub env (grows honest))|by apply (keeps_reject env (grows honest))
              |apply (keeps_exchange env (grows honest)); try done; intros ???; by apply emits_emit].
  apply (keeps_durable env (grows honest)); [done|intros; by apply emits_modify|].
  intros t. apply emits_emit. by apply attributed_client.
Qed.

Lemma identity_kept cid method header body s : propagatesOriginIdentity env = false →
  (usesLocalPrincipalAuth (connectionPolicy env) = false → hook_keeps_identity method header body s) →
  ∃ t, out (finishPublish env cid method header body s).2 = out s ++ t ∧ Forall honest t.
Proof.
  intros Hp Hh. pose proof (publish_props_attributed header Hp) as Ha.
  unfold finishPublish. cbv zeta. fold (publish_topic method). rewrite M_bind_eq.
  destruct (authorize_cases env cid method (publish_topic method) body (publish_props env header) s)
    as [(text & ->)|[(grant & _ & _ & _ & ->)|(req & Hl & Hreq & ->)]]; cbn [fst snd].
  - by apply (keeps_closePublish env (grows honest)).
  - by apply attributed_route.
  - apply attributed_route. by apply (Hh Hl).
Qed.

(** C10 A publisher cannot have its message attributed to another principal or protocol.
    On a connection that may not relay an origin identity, whatever headers the
    message carries: what a publish hook is asked to decide on names this
    connection's client and its authenticated identity; so does, when no hook
    decides, everything the publication becomes -- queue records, captures,
    deliveries to subscribers, cluster routes; and so does all of that when one
    does, unless the hook's own answer replaced these properties. *)
Theorem publish_identity cid method header body s : propagatesOriginIdentity env = false →
  attributed (HR_Properties (publish_request env method header body)) ∧
  (unhooked ∨ hook_keeps_identity method header body s →
   ∃ t, out (finishPublish env cid method header body s).2 = out s ++ t ∧ Forall honest t).
Proof.
  intros Hp. pose proof (publish_props_attributed header Hp) as Ha. split; [exact Ha|].
  intros Hh. apply identity_kept; [done|]. intros Hl. destruct Hh as [[Hl'|Hk]|Hh]; [congruence| |done].
  intros req. unfold applyHook. rewrite Hk. simpl. by intros [= <-].
Qed.
End identity.

(** ** Grants *)

Section grants.
Context `{GoText} (env : Env).

(** What a publication under a local grant can do: under a prefix it is published on its
    topic, under an exact target it is appended to the stream of that name, and
    refused it only closes the channel. *)
Definition by_grant (grant : LocalPublishGrant) (method : BasicPublish) (e : Effect) : Prop :=
  let topic := AMQPTopicToMQTT (publish_topic method) in
  match e with
  | EMethod _ _ _ => True
  | EContent _ _ => grant = LocalPublishGrantPrefix
  | ECapture msg => grant = LocalPublishGrantPrefix ∧ q_Topic msg = topic
  | EDeliverTo _ t _ _ | ECrossDeliver _ t _ _ _ | EClusterRoute t _ _ =>
      grant = LocalPublishGrantPrefix ∧ t = topic
  | EDurablePublish q _ => grant = LocalPublishGrantExactTarget ∧ q = BasicPublish_RoutingKey method ∧
      normalizeExchange (BasicPublish_Exchange method) = EmptyString
  | _ => False
  end.

Lemma finish_by_grant cid method header body s :
  usesLocalPrincipalAuth (connectionPolicy env) = true →
  let grant := (canPublishLocal env (BasicPublish_Exchange method) (BasicPublish_RoutingKey method) s).1 in
  ∃ t, out (finishPublish env cid method header body s).2 = out s ++ t ∧ Forall (by_grant grant method) t.
Proof.
  intros Hl grant. unfold finishPublish. cbv zeta. fold (publish_topic method). rewrite M_bind_eq.
  destruct (authorize_cases env cid method (publish_topic method) body (publish_props env header) s)
    as [(text & ->)|[(g & _ & Hn & Hg & ->)|(req & Hl' & _)]]; cbn [fst snd]; [| |congruence].
  - pose proof (emits_replies (by_grant grant method) (λ _ _ _, I)) as Hr.
    exact (keeps_closePublish env (grows (by_grant grant method)) cid AccessRefused text s).
  - fold grant in Hg. subst g. destruct grant; [done| |]; unfold routePublish.
    + pose proof (emits_replies (by_grant LocalPublishGrantExactTarget method)
                    (λ _ _ _, I)) as Hr.
      destruct (str_eqb _ _) eqn:Hex; cbn [negb].
      * apply bool_decide_eq_true in Hex.
        apply (keeps_durable env (grows (by_grant LocalPublishGrantExactTarget method))).
        { intros. by apply emits_confirm. } { intros. by apply emits_modify. }
        intros t. by apply emits_emit.
      * apply (keeps_reject env (grows (by_grant LocalPublishGrantExactTarget method))).
        intros. by apply emits_confirm.
    + assert (Wire (by_grant LocalPublishGrantPrefix method)) by done.
      apply (keeps_pubsub env (grows (by_grant LocalPublishGrantPrefix method))).
      { intros. by apply emits_confirm. }
      intros b. repeat split; intros; by apply emits_emit.
Qed.

(** C21 The permission that authorized a publication of a local principal decides its path.
    A routing-key prefix never addresses a queue, an exact target reaches the durable stream
    it names and nothing else, and without a grant nothing is published. *)
Theorem grant_decides_path cid method header body s :
  usesLocalPrincipalAuth (connectionPolicy env) = true →
  let grant := (canPublishLocal env (BasicPublish_Exchange method) (BasicPublish_RoutingKey method) s).1 in
  ∃ t, out (finishPublish env cid method header body s).2 = out s ++ t ∧ Forall (by_grant grant method) t.
Proof. apply finish_by_grant. Qed.
End grants.

(** ** Local principals without the service role *)

Section publishers.
Context `{GoText} (env : Env) `{!RangeOk env}.

(** What a principal that may only publish can bring about. *)
Definition publisher_effect (e : Effect) : Prop :=
  match e with
  | EMethod _ _ _ | EContent _ _ | ECapture _ | EDeliverTo _ _ _ _ | ECrossDeliver _ _ _ _ _
  | EClusterRoute _ _ _ | EDurablePublish _ _ => True
  | _ => False
  end.

Definition no_consumers (s : Conn) : Prop := ∀ c ch, channels s !! c = Some ch → consumers ch = ∅.
Definition confined (s s' : Conn) : Prop :=
  no_consumers s → no_consumers s' ∧ grows publisher_effect s s'.
#[local] Instance confined_preorder : PreOrder confined.
Proof.
  split.
  - intros s Hs. split; [done|]. reflexivity.
  - intros s1 s2 s3 H1 H2 Hs. destruct (H1 Hs) as [Hs2 G1]. destruct (H2 Hs2) as [Hs3 G2].
    split; [done|]. by etrans.
Qed.

Lemma confined_emits {A} (m : M A) : emits publisher_effect m → keeps (same subscriptions) m →
  keeps confined m.
Proof.
  intros He Hs s Hn. split; [|apply He]. intros c ch Hc. pose proof (f_equal fst (Hs s)) as Hf. simpl in Hf.
  assert (Hl : (consumers <$> channels (m s).2) !! c = Some (consumers ch)) by (by rewrite lookup_fmap, Hc).
  rewrite Hf, lookup_fmap, fmap_Some in Hl. destruct Hl as (ch0 & Hc0 & ->). by eapply Hn.
Qed.

#[local] Instance publisher_wire : Wire publisher_effect.
Proof. by split. Qed.

Lemma confined_mod_ch c f : (∀ ch, consumers (f ch) = consumers ch) → keeps confined (mod_ch c f).
Proof. intros Hf. apply confined_emits; [apply emits_mod_ch|by apply subs_mod_ch]. Qed.

Lemma confined_emit e : publisher_effect e → keeps confined (emit e).
Proof. intros He. apply confined_emits; [by apply emits_emit|apply subs_emit]. Qed.

#[local] Instance confined_replies : Replies confined.
Proof.
  split; [apply _|intros; by apply confined_emit|intros; by apply confined_mod_ch|].
  intros; by apply confined_mod_ch.
Qed.

Context (Hlocal : usesLocalPrincipalAuth (connectionPolicy env) = true).

Lemma publisher_by_grant grant m e : by_grant grant m e → publisher_effect e.
Proof. by destruct e. Qed.

Lemma confined_finishPublish c m h body : keeps confined (finishPublish env c m h body).
Proof.
  apply confined_emits; [|apply (keeps_finishPublish env (same subscriptions))]. intros s.
  destruct (finish_by_grant env c m h body s Hlocal) as (t & Ht & Hf). exists t. split; [done|].
  eapply Forall_impl; [done|]. intros e. apply publisher_by_grant.
Qed.

Lemma confined_completePublish c : keeps confined (completePublish env c).
Proof.
  unfold completePublish. repeat keeps_step; auto using confined_finishPublish. apply replies_reset.
Qed.

Lemma confined_content c f :
  keeps confined (handleHeaderFrame env c f) ∧ keeps confined (handleBodyFrame env c f).
Proof.
  unfold handleHeaderFrame, handleBodyFrame. cbv zeta.
  split; repeat keeps_step; auto using confined_completePublish;
    solve [apply replies_reset|apply (keeps_closePublish env confined)|by apply confined_mod_ch].
Qed.

Lemma confined_closeChannel c : keeps confined (closeChannel env c).
Proof.
  intros s Hn. unfold closeChannel. rewrite !M_bind_eq. cbn [gets fst snd id].
  destruct (channels s !! c) as [ch|] eqn:Hc; cbn.
  - assert (Hnil : ∀ h, range_consumers env h ∅ = []).
    { intros h. apply Permutation_nil_r. rewrite range_consumers_perm. by rewrite map_to_list_empty. }
    unfold cleanup. rewrite M_bind_eq. cbn. rewrite (Hn c ch Hc), Hnil. cbn. split.
    + intros c' ch' Hc'. simpl in Hc'. apply lookup_delete_Some in Hc' as [_ Hc']. by eapply Hn.
    + exists []. by rewrite app_nil_r.
  - split; [|exists []; by rewrite app_nil_r].
    intros c' ch' Hc'. simpl in Hc'. apply lookup_delete_Some in Hc' as [_ Hc']. by eapply Hn.
Qed.

#[local] Instance confined_delivers : Delivers env confined.
Proof.
  split; [apply _| | |intros; by apply confined_emit].
  - intros. apply confined_emits; [apply (delivers_message (env := env) (R := grows publisher_effect))|].
    apply (delivers_message (env := env)).
  - intros. apply confined_emits; [apply (delivers_drain (env := env) (R := grows publisher_effect))|].
    apply (delivers_drain (env := env)).
Qed.

(** The methods open to every authenticated principal. *)
Definition publisher_method (m : AnyMethod) : bool :=
  match m with
  | MChannelFlow _ | MChannelClose _ | MChannelCloseOk _ | MConfirmSelect _ | MBasicPublish _ => true
  | _ => false
  end.

Lemma confined_refuse c text m : keeps confined (refuse env c text m).
Proof.
  unfold refuse, close_with. repeat keeps_step. apply (keeps_sendChannelClose env confined).
Qed.

Lemma denied_methods c m : permitsConsumers env = false → publisher_method m = false →
  authorizeLocalMethod env c m = denyLocalMethod env c m.
Proof.
  intros Hp Hm. destruct m; try done; simpl; unfold authorizeLocalQueueName, authorizeLocalSubscribe;
    rewrite ?Hp; try done. by destruct (QueueDeclare_Passive m).
Qed.

Lemma confined_reply c m : not_confirm m = true → keeps confined (reply env c m).
Proof. intros Hm. unfold reply. repeat keeps_step. by apply (keeps_writeMethod env confined). Qed.

Lemma confined_dispatch c m : publisher_method m = true → keeps confined (dispatchMethod env c m).
Proof.
  destruct m; try done; intros _; simpl; unfold handleChannelFlow, startPublish, reply_unless; cbv zeta;
    repeat keeps_step;
    solve [apply confined_closeChannel|by apply (keeps_writeMethod env confined)|by apply confined_mod_ch
          |apply (delivers_drain (env := env))|apply (keeps_closePublish env confined)
          |apply replies_reset|by apply confined_reply].
Qed.

Lemma confined_handleMethod c m : permitsConsumers env = false → keeps confined (handleMethod env c m).
Proof.
  intros Hp. unfold handleMethod. rewrite Hlocal. apply (keeps_bind confined); [apply keeps_gets, _|].
  intros ch. destruct (_ && _); [apply keeps_ret, _|]. destruct (publisher_method m) eqn:Hm.
  - apply (keeps_bind confined).
    + destruct m; try done; simpl; unfold canPublishLocal, close_with, allow; repeat keeps_step;
        apply (keeps_sendChannelClose env confined).
    + intros [[] [err|]]; try (apply keeps_ret, _). by apply confined_dispatch.
  - rewrite denied_methods by done. intros s. rewrite M_bind_eq.
    pose proof (refuse_false env c "operation not permitted for local principal" m s) as Hr.
    pose proof (confined_refuse c "operation not permitted for local principal" m s) as Hk.
    unfold denyLocalMethod. destruct (refuse env c _ m s) as [[b [err|]] s']; simpl in *; subst; done.
Qed.

Lemma confined_processFrame f : permitsConsumers env = false → keeps confined (processFrame env f).
Proof.
  intros Hp. unfold processFrame, handleMethodFrame, handleChannelOpen, close_connection, sendConnectionClose.
  cbv zeta. repeat keeps_step;
    try solve [by apply confined_handleMethod|apply confined_content|by apply confined_reply
              |by apply (keeps_writeMethod env confined)
              |by apply confined_emits; [apply emits_modify|apply subs_modify]].
  intros s Hn. split; [|by apply emits_modify]. intros c' ch' Hc'. simpl in Hc'.
  apply lookup_insert_Some in Hc' as [[_ <-]|[_ Hc']]; [done|by eapply Hn].
Qed.

(** C11 A local principal without the service role can only publish.  Whatever frames it
    sends, the connection never subscribes, settles, commits, creates or updates a queue
    for it, nor publishes to a queue by address; the only queue writes left to it are
    appends to durable streams. *)
Theorem publisher_confined frames s : permitsConsumers env = false → no_consumers s →
  ∃ t, out (processFrames env frames s).2 = out s ++ t ∧ Forall publisher_effect t.
Proof.
  intros Hp Hn. cut (keeps confined (processFrames env frames)); [intros Hk; by apply Hk|].
  clear Hn s. induction frames as [|f frames IH]; simpl; repeat keeps_step; auto using confined_processFrame.
Qed.
End publishers.
