(* ===== verification/AmqpDelivery.v ===== *)
(** * Deliveries on AMQP 0.9.1 channels

    Over the handlers of [AmqpChannel]: an acknowledgement settles the deliveries it
    names, each once; the prefetch window is overrun by no more than the deliveries that
    run at once, for which the handlers are cut into their critical sections; and an
    acknowledgement refills it from the deliveries that wait. *)

From Stdlib Require Import ZArith Lia Bool Ascii String Strings.Byte.
From stdpp Require Import gmultiset prelude gmap strings.
From S2P Require Import Prelude State GoStrings Strconv Payload Envelope Topics Routing QueueConfig.
From S2P Require Import Codec AmqpTypes AmqpMethods AmqpFrame AmqpArgs QueueErrors Base64.
From S2P Require Import AmqpChannel AmqpLogic AmqpContent.

(** ** One delivery *)

(** The channel once a delivery has been sent to [co]. *)
Definition sent (co : consumer) (tag : Z) (topic : string) (props : propmap) (ch : Channel) : Channel :=
  if c_noAck co then ch
  else ch <| unacked := <[tag := unacked_entry co tag topic props]> (unacked ch) |>.

Lemma sendDelivery_state env cid co topic payload props s ch : channels s !! cid = Some ch →
  ∃ err t, (t = [] ∨ ∃ fs, t = [EContent fs err]) ∧
    sendDelivery env cid co topic payload props s =
    (err, put cid (sent co (u64 (deliveryTag s + 1)) topic props ch) s
            <| deliveryTag := u64 (deliveryTag s + 1) |> <| out := out s ++ t |>).
Proof.
  intros Hch. unfold sendDelivery. rewrite M_bind_eq. unfold nextDeliveryTag. cbn [fst snd]. cbv zeta.
  set (tag := u64 (deliveryTag s + 1)). set (s1 := s <| deliveryTag := tag |>). rewrite M_bind_eq.
  assert (Hw : (when (negb (c_noAck co)) (mod_ch cid (λ ch : Channel,
      ch <| unacked := <[tag := unacked_entry co tag topic props]> (unacked ch) |>)) s1).2
    = put cid (sent co tag topic props ch) s1).
  { unfold sent. destruct (c_noAck co); simpl.
    - symmetry. by apply put_id.
    - unfold put. by rewrite (alter_as_insert _ _ _ _ Hch). }
  rewrite Hw. set (s2 := put cid (sent co tag topic props ch) s1).
  assert (Hnil : s2 = s2 <| out := out s2 ++ [] |>) by (rewrite app_nil_r; by destruct s).
  destruct (delivery_address co topic) as [ex rk].
  destruct (buildMethodFrame _ _) as [mf|e|]; [|exists (Some e), []; split; [by left|]; by f_equal
                                              |exists None, []; split; [by left|]; by f_equal].
  rewrite M_bind_eq. cbn [gets fst snd].
  destruct (buildContentHeaderFrame _ _ _) as [hf|e|]; [|exists (Some e), []; split; [by left|]; by f_equal
                                              |exists None, []; split; [by left|]; by f_equal].
  unfold write_frames. rewrite !M_bind_eq. cbn [gets fst snd]. cbv zeta.
  do 2 eexists. split; [right; by eexists|]. done.
Qed.

(** ** Settling deliveries *)

Definition settlement_of (e : Effect) : option (Settlement * string * string * Z) :=
  match e with ESettle how q g o => Some (how, q, g, o) | _ => None end.
Definition settlements (t : trace) : list (Settlement * string * string * Z) := omap settlement_of t.

(** The disposition a method is: how it settles, the tag it names, and whether it names
    all tags up to it. *)
Definition disposition (m : AnyMethod) : option (Settlement * Z * bool) :=
  match m with
  | MBasicAck m => Some (SAck, BasicAck_DeliveryTag m, BasicAck_Multiple m)
  | MBasicReject m => Some (if BasicReject_Requeue m then SNack else SReject, BasicReject_DeliveryTag m, false)
  | MBasicNack m =>
      Some (if BasicNack_Requeue m then SNack else SReject, BasicNack_DeliveryTag m, BasicNack_Multiple m)
  | _ => None
  end.

(** The settlements of some deliveries: those that came from a queue. *)
Definition settle_all (how : Settlement) (l : list unackedDelivery) : list (Settlement * string * string * Z) :=
  (λ ud, (how, u_queueName ud, u_groupID ud, u_offset ud)) <$> filter (λ ud, u_queued ud = true) l.

#[export] Instance named_dec (tag : Z) (multiple : bool) (e : Z * unackedDelivery) :
  Decision (if multiple then e.1 <= tag else e.1 = tag).
Proof. destruct multiple; apply _. Defined.

(** The unacknowledged deliveries a disposition names. *)
Definition named (un : gmap Z unackedDelivery) (tag : Z) (multiple : bool) : gmap Z unackedDelivery :=
  filter (λ e, if multiple then e.1 <= tag else e.1 = tag) un.


Section settling.
Context (env : Env) `{!RangeOk env} (cid : Z).

Lemma for_each_settle how l s : is_Some (queueManager env) →
  ∃ t, for_each l (settle_delivery env how) s = (tt, s <| out := out s ++ t |>) ∧
       settlements t = settle_all how l.
Proof.
  intros [qm Hqm]. revert s. induction l as [|ud l IH]; intros s; simpl.
  { exists []. rewrite app_nil_r. by destruct s. }
  rewrite M_bind_eq. unfold settle_delivery. rewrite Hqm. unfold settle_all. rewrite filter_cons.
  destruct (u_queued ud) eqn:Hq; simpl.
  - destruct (IH (s <| out := out s ++ [ESettle how (u_queueName ud) (u_groupID ud) (u_offset ud)] |>))
      as (t & Ht & Hs).
    exists (ESettle how (u_queueName ud) (u_groupID ud) (u_offset ud) :: t).
    split; [|simpl; by rewrite Hs]. unfold settle_delivery in Ht. rewrite Hqm in Ht. simpl in Ht.
    rewrite Ht. unfold update. simpl. by rewrite <-app_assoc.
  - destruct (IH s) as (t & Ht & Hs). exists t. split; [|done].
    unfold settle_delivery in Ht. rewrite Hqm in Ht. done.
Qed.

Lemma map_filter_perm (P : Z * unackedDelivery → Prop) `{!∀ e, Decision (P e)} un :
  map_to_list (filter P un) ≡ₚ filter P (map_to_list un).
Proof.
  rewrite map_filter_alt. apply map_to_list_to_map.
  eapply sublist_NoDup; [apply (NoDup_fst_map_to_list un)|]. apply fmap_sublist, sublist_filter.
Qed.

Lemma selected_named h un tag multiple :
  selected (range_unacked env h un) un tag multiple ≡ₚ (map_to_list (named un tag multiple)).*2.
Proof.
  unfold selected. destruct multiple.
  - rewrite range_unacked_perm. unfold named. rewrite map_filter_perm. done.
  - destruct (un !! tag) as [ud|] eqn:Ht.
    + assert (named un tag false = {[ tag := ud ]}) as ->; [|by rewrite map_to_list_singleton].
      apply map_eq. intros i. destruct (decide (i = tag)) as [->|Hne].
      * rewrite lookup_singleton_eq. by apply map_lookup_filter_Some_2.
      * rewrite lookup_singleton_ne by done. apply map_lookup_filter_None_2. by right.
    + assert (named un tag false = ∅) as ->; [|by rewrite map_to_list_empty].
      apply map_eq. intros i. rewrite lookup_empty. apply map_lookup_filter_None_2.
      destruct (decide (i = tag)) as [->|]; [by left|by right].
Qed.

Lemma remaining_lookup un tag multiple t :
  remaining un tag multiple !! t = (if decide (is_Some (named un tag multiple !! t)) then None else un !! t).
Proof.
  unfold remaining. case_decide as Hn.
  - destruct Hn as [ud Hn]. apply map_lookup_filter_Some in Hn as [Hu Ht]. simpl in Ht. destruct multiple.
    + apply map_lookup_filter_None_2. right. intros x _ Hx. by apply Hx.
    + subst. by rewrite lookup_delete_eq.
  - destruct (un !! t) as [ud|] eqn:Hu.
    + assert (Ht : ¬ (if multiple then t <= tag else t = tag)).
      { intros Ht. apply Hn. exists ud. by apply map_lookup_filter_Some_2. }
      destruct multiple.
      * by apply map_lookup_filter_Some_2.
      * by rewrite lookup_delete_ne.
    + destruct multiple; [apply map_lookup_filter_None_2; by left|]. by apply lookup_delete_None; right.
Qed.

(** What draining keeps: the entries up to tag [T], the settlements made, and room for
    the tags still to be given out. *)
Definition drain_inv (T : Z) (U : gmap Z unackedDelivery) L (s : Conn) : Prop :=
  ∃ ch, channels s !! cid = Some ch ∧ 0 <= T <= deliveryTag s ∧
    deliveryTag s + Z.of_nat (length (pendingDeliveries ch)) < 2 ^ 64 ∧
    (∀ t, t <= T → unacked ch !! t = U !! t) ∧ settlements (out s) = L ∧
    (∀ t, is_Some (unacked ch !! t) → t <= deliveryTag s).

Lemma drain_round_inv T U L s : drain_inv T U L s → drain_inv T U L (drain_round env cid s).2.
Proof.
  intros Hi. destruct (Hi) as (ch & Hch & HT & Hroom & HU & HS & Htags). unfold drain_round.
  rewrite M_bind_eq, (get_ch_eq _ _ _ Hch). cbn [fst snd].
  destruct (closed ch); [done|]. destruct (negb (flow ch)); [done|]. destruct (_ && _); [done|].
  destruct (pendingDeliveries ch) as [|pd rest] eqn:Hp; [done|]. simpl in Hroom.
  rewrite M_bind_eq, (mod_ch_eq _ _ _ _ Hch). cbn [fst snd].
  fold (put cid (ch <| pendingDeliveries := rest |>) s).
  set (ch1 := ch <| pendingDeliveries := rest |>). set (s1 := put cid ch1 s).
  assert (Hi1 : drain_inv T U L s1).
  { exists ch1. split; [apply lookup_put|]. unfold s1, ch1. simpl. split_and!; try done; lia. }
  destruct (consumers ch !! p_consumerTag pd) as [co|]; [|done].
  destruct (negb _); [done|]. destruct (shouldQueueDelivery ch co).
  - rewrite M_bind_eq. unfold s1. rewrite mod_put. cbn [fst snd mret M_ret].
    exists (ch1 <| pendingDeliveries := pd :: rest |>). split; [apply lookup_put|].
    simpl. split_and!; try done; lia.
  - rewrite M_bind_eq. cbn [mret M_ret snd].
    destruct (sendDelivery_state env cid co (p_topic pd) (p_payload pd) (p_props pd) s1 ch1)
      as (err & t & Ht & Heq); [apply lookup_put|]. rewrite Heq. cbn [snd].
    assert (Htag : u64 (deliveryTag s1 + 1) = deliveryTag s + 1).
    { unfold s1. simpl. apply u64_small. lia. }
    rewrite Htag. eexists. split; [apply lookup_put|]. simpl.
    split; [lia|]. split; [unfold sent; destruct (c_noAck co); simpl; lia|]. split.
    + intros t' Ht'. unfold sent. destruct (c_noAck co); simpl; [by apply HU|].
      rewrite lookup_insert_ne by lia. by apply HU.
    + unfold settlements. rewrite omap_app. fold (settlements (out s)). rewrite HS.
      split; [destruct Ht as [->|[fs ->]]; by rewrite app_nil_r|].
      intros t' Hs. unfold sent in Hs. destruct (c_noAck co); simpl in Hs; [apply Htags in Hs; lia|].
      destruct (decide (t' = deliveryTag s + 1)) as [->|]; [lia|].
      rewrite lookup_insert_ne in Hs by done. apply Htags in Hs. lia.
Qed.

Lemma drain_inv_drain T U L s : drain_inv T U L s → drain_inv T U L (drainPending env cid s).2.
Proof.
  unfold drainPending. rewrite M_bind_eq. cbn [get_ch gets fst snd].
  generalize (S (length (pendingDeliveries (default newChannel (channels s !! cid))))) as fuel.
  intros fuel. revert s. induction fuel as [|fuel IH]; intros s Hi; [done|]. simpl. rewrite M_bind_eq.
  apply drain_round_inv in Hi. destruct (drain_round env cid s).1; simpl; [by apply IH|done].
Qed.

(** A disposition takes its deliveries out of the open ones, settles them and drains. *)
Lemma disposition_run `{GoText} m how tag multiple s ch : disposition m = Some (how, tag, multiple) →
  channels s !! cid = Some ch →
  (dispatchMethod env cid m s).2 =
  (drainPending env cid (for_each (selected (range_unacked env (out s) (unacked ch)) (unacked ch) tag multiple)
     (settle_delivery env how) (put cid (ch <| unacked := remaining (unacked ch) tag multiple |>) s)).2).2.
Proof.
  intros Hd Hch.
  destruct m; try done; simpl in Hd; simplify_eq; cbn [dispatchMethod];
    unfold handleBasicAck, handleBasicReject, handleBasicNack, take_unacked;
    rewrite !M_bind_eq, (get_ch_eq _ _ _ Hch), (mod_ch_eq _ _ _ _ Hch); cbn [gets fst snd mret M_ret];
    try done; by repeat case_match.
Qed.

(** C14 Acknowledgements.  Basic.Ack, Basic.Nack and Basic.Reject settle exactly the
    unacknowledged deliveries they name that came from a queue, each once and in the way
    the method says; afterwards none of those is open, and the only new open deliveries
    have tags never given out before.  So no delivery is ever settled twice. *)
Theorem disposition_settles `{GoText} m how tag multiple s ch :
  is_Some (queueManager env) → disposition m = Some (how, tag, multiple) →
  channels s !! cid = Some ch → 0 <= deliveryTag s →
  deliveryTag s + Z.of_nat (length (pendingDeliveries ch)) < 2 ^ 64 →
  (∀ t, is_Some (unacked ch !! t) → t <= deliveryTag s) →
  ∃ ch', channels (dispatchMethod env cid m s).2 !! cid = Some ch' ∧
    settlements (out (dispatchMethod env cid m s).2) ≡ₚ
      settlements (out s) ++ settle_all how (map_to_list (named (unacked ch) tag multiple)).*2 ∧
    (∀ t, t <= deliveryTag s → unacked ch' !! t =
       if decide (is_Some (named (unacked ch) tag multiple !! t)) then None else unacked ch !! t) ∧
    (∀ t, is_Some (unacked ch' !! t) → t <= deliveryTag (dispatchMethod env cid m s).2).
Proof.
  intros Hqm Hd Hch HT Hroom Htags.
  set (l := selected (range_unacked env (out s) (unacked ch)) (unacked ch) tag multiple).
  set (s1 := put cid (ch <| unacked := remaining (unacked ch) tag multiple |>) s).
  rewrite (disposition_run m how tag multiple s ch Hd Hch). fold l s1. destruct (for_each_settle how l s1 Hqm) as (t & -> & Hset). cbn [snd].
  destruct (drain_inv_drain (deliveryTag s) (remaining (unacked ch) tag multiple)
     (settlements (out s) ++ settle_all how l) (s1 <| out := out s1 ++ t |>))
    as (ch' & Hch' & _ & _ & HU & HS & Htags').
  { eexists. split; [apply lookup_put|]. simpl. split_and!; try done; try lia.
    - unfold settlements. by rewrite omap_app, <-Hset.
    - intros t' Hs. apply Htags. rewrite remaining_lookup in Hs. case_decide; [by destruct Hs|done]. }
  exists ch'. split; [done|]. split; [|split; [|done]].
  - rewrite HS. apply Permutation_app_head. unfold settle_all, l. by rewrite selected_named.
  - intros t' Ht'. rewrite HU by done. apply remaining_lookup.
Qed.
End settling.

(** ** The prefetch window *)

(** No channel with a prefetch limit has more open deliveries than the limit. *)
Definition window (s : Conn) : Prop := ∀ c ch, channels s !! c = Some ch → 0 < prefetchCount ch →
  Z.of_nat (size (unacked ch)) <= prefetchCount ch.

(** A delivery whose goroutine has found room in the window and has not yet recorded it
    in [unacked]: [shouldQueueDelivery] and [sendDelivery] take [unackedMu] separately. *)
Record Sending := mkSending {
  sd_cid : Z; sd_co : consumer; sd_topic : string; sd_props : propmap }.
Definition sending_on (c : Z) (sending : list Sending) : nat := length (filter (λ d, sd_cid d = c) sending).

(** A change that sets no prefetch count and records no delivery: channels open, lose
    deliveries and go. *)
Definition quiet (s s' : Conn) : Prop := ∀ c ch', channels s' !! c = Some ch' →
  (channels s !! c = None ∧ ch' = newChannel) ∨
  (∃ ch, channels s !! c = Some ch ∧ prefetchCount ch' = prefetchCount ch ∧ unacked ch' ⊆ unacked ch).

(** The critical sections of the goroutines that work on a connection, interleaved: at
    most [N] of them are between the two sections of a delivery on one channel.  The tag
    a delivery is recorded under is one its goroutine has taken before. *)
Inductive section_step (N : nat) : Conn * list Sending → Conn * list Sending → Prop :=
| sec_check c ch co topic props s l :
    channels s !! c = Some ch → c_noAck co = false → shouldQueueDelivery ch co = false →
    (sending_on c l < N)%nat → section_step N (s, l) (s, mkSending c co topic props :: l)
| sec_record tag d l1 l2 s :
    section_step N (s, l1 ++ d :: l2)
      ((mod_ch (sd_cid d) (λ ch : Channel, ch <| unacked :=
          <[tag := unacked_entry (sd_co d) tag (sd_topic d) (sd_props d)]> (unacked ch) |>) s).2, l1 ++ l2)
| sec_qos c ch n sz s l :
    channels s !! c = Some ch →
    (0 < n → Z.of_nat (size (unacked ch)) + Z.of_nat (sending_on c l) <= n + Z.of_nat N - 1) →
    section_step N (s, l) (put c (ch <| prefetchCount := n |> <| prefetchSize := sz |>) s, l)
| sec_other s s' l : quiet s s' → section_step N (s, l) (s', l).

(** The open deliveries and those being sent exceed the limit by less than [N]. *)
Definition overrun (N : nat) (x : Conn * list Sending) : Prop := ∀ c ch,
  channels x.1 !! c = Some ch → 0 < prefetchCount ch →
  Z.of_nat (size (unacked ch)) + Z.of_nat (sending_on c x.2) <= prefetchCount ch + Z.of_nat N - 1.

Lemma sending_on_cons c d l :
  sending_on c (d :: l) = ((if decide (sd_cid d = c) then 1 else 0) + sending_on c l)%nat.
Proof. unfold sending_on. rewrite filter_cons. by case_decide. Qed.

Lemma sending_on_app c l1 l2 : sending_on c (l1 ++ l2) = (sending_on c l1 + sending_on c l2)%nat.
Proof. unfold sending_on. by rewrite filter_app, length_app. Qed.

Lemma section_overrun N x y : section_step N x y → overrun N x → overrun N y.
Proof.
  intros Hs Ho. destruct Hs as [c ch co topic props s l Hc Hno Hq Hn|tag d l1 l2 s|c ch n sz s l Hc Hn|s s' l Hq];
    intros c' ch' Hch' Hp; cbn [fst snd] in *.
  - rewrite sending_on_cons. simpl. case_decide as Hd; [|by apply Ho]. subst c'.
    rewrite Hc in Hch'. injection Hch' as <-. unfold shouldQueueDelivery in Hq. rewrite Hno in Hq.
    destruct (negb (flow ch)); [done|]. destruct (Z.eqb_spec (prefetchCount ch) 0); [lia|].
    apply Z.leb_gt in Hq. lia.
  - simpl in Hch'. rewrite lookup_alter_Some in Hch'. rewrite sending_on_app.
    assert (Hon : sending_on c' (l1 ++ d :: l2)
      = (sending_on c' l1 + ((if decide (sd_cid d = c') then 1 else 0) + sending_on c' l2))%nat)
      by (by rewrite sending_on_app, sending_on_cons).
    destruct Hch' as [(<- & ch0 & Hch0 & ->)|[Hne Hch0]]; specialize (Ho _ _ Hch0 Hp); simpl in Ho |- *;
      rewrite Hon in Ho.
    + rewrite decide_True in Ho by done. rewrite map_size_insert. destruct (unacked ch0 !! tag); simpl; lia.
    + rewrite decide_False in Ho by done. lia.
  - simpl in Hch'. apply lookup_insert_Some in Hch' as [[-> <-]|[_ Hch']]; [by apply Hn|by apply Ho].
  - destruct (Hq c' ch' Hch') as [[_ ->]|(ch & Hch & Hpe & Hun)]; [done|].
    rewrite Hpe in Hp |- *. specialize (Ho c' ch Hch Hp). apply map_subseteq_size in Hun. cbn [fst snd] in Ho. lia.
Qed.

Section window.
Context `{GoText} (env : Env) (N : nat) (HN : (0 < N)%nat).

(** What a handler does is a sequence of critical sections, whatever is being sent
    meanwhile by others. *)
Definition within (s s' : Conn) : Prop := ∀ l, (∀ c, (sending_on c l < N)%nat) →
  rtc (section_step N) (s, l) (s', l).
Lemma within_trans s1 s2 s3 : within s1 s2 → within s2 s3 → within s1 s3.
Proof. intros H1 H2 l Hl. etrans; [by apply H1|by apply H2]. Qed.
#[local] Instance within_preorder : PreOrder within.
Proof. split; [intros s l _; apply rtc_refl|exact within_trans]. Qed.

Lemma within_quiet s s' : quiet s s' → within s s'.
Proof. intros Hq l _. by apply rtc_once, sec_other. Qed.

Lemma quiet_same s s' : channels s' = channels s → quiet s s'.
Proof. intros He c ch Hch. right. exists ch. by rewrite <-He. Qed.

Lemma window_modify f : (∀ s, channels (f s) = channels s) → keeps within (modify f).
Proof. intros Hf s. by apply within_quiet, quiet_same, Hf. Qed.

Lemma window_mod_ch c f :
  (∀ ch, prefetchCount (f ch) = prefetchCount ch ∧ unacked (f ch) ⊆ unacked ch) →
  keeps within (mod_ch c f).
Proof.
  intros Hf s. apply within_quiet. intros c' ch' Hch'. simpl in Hch'. right.
  rewrite lookup_alter_Some in Hch'. destruct Hch' as [(-> & ch & Hch & ->)|[_ Hch]]; [|by exists ch'].
  exists ch. by destruct (Hf ch).
Qed.

#[local] Instance window_neutral : Neutral within.
Proof.
  split; [apply _|intros; by apply window_modify| |intros; by apply window_modify].
  intros c f Hf. apply window_mod_ch. intros ch. destruct (Hf ch) as (_ & -> & -> & _). done.
Qed.

(** A delivery is the check that found room, the section that records it, and the
    writing of its frames. *)
Lemma window_send cid co topic payload props s ch : channels s !! cid = Some ch →
  shouldQueueDelivery ch co = false → within s (sendDelivery env cid co topic payload props s).2.
Proof.
  intros Hch Hq. destruct (sendDelivery_state env cid co topic payload props s ch Hch) as (err & t & _ & ->).
  set (tag := u64 (deliveryTag s + 1)). cbn [snd]. unfold sent.
  destruct (c_noAck co) eqn:Hno.
  { apply within_quiet, quiet_same. simpl. by rewrite insert_id. }
  intros l Hl. eapply rtc_l; [by apply (sec_check N cid ch co topic props s l)|].
  eapply rtc_l; [apply (sec_record N tag (mkSending cid co topic props) [] l)|].
  apply rtc_once, sec_other, quiet_same. simpl. by rewrite (alter_as_insert _ _ _ _ Hch).
Qed.

(** On a channel that is gone nothing is stored. *)
Lemma window_send_gone cid co topic payload props s : channels s !! cid = None →
  within s (sendDelivery env cid co topic payload props s).2.
Proof.
  intros Hc. apply within_quiet, quiet_same.
  assert (Hm : ∀ f, alter f cid (channels s) = channels s).
  { intros f. apply map_eq. intros i. destruct (decide (i = cid)) as [->|]; [|by rewrite lookup_alter_ne].
    by rewrite lookup_alter_eq, Hc. }
  unfold sendDelivery, write_frames. rewrite !M_bind_eq. destruct (c_noAck co);
    repeat first [case_match|progress (rewrite ?M_bind_eq; simpl)]; try done; apply Hm.
Qed.

Lemma within_qos c ch n sz s : channels s !! c = Some ch →
  (0 < n → Z.of_nat (size (unacked ch)) <= n) → within s (put c (ch <| prefetchCount := n |> <| prefetchSize := sz |>) s).
Proof.
  intros Hc Hn l Hl. apply rtc_once, sec_qos; [done|]. intros Hp. specialize (Hn Hp). specialize (Hl c). lia.
Qed.

#[local] Opaque within.

Lemma window_deliver_loop cid topic payload props conss : ∀ delivered,
  keeps within (deliver_loop env cid conss topic payload props delivered).
Proof.
  induction conss as [|[tg co] conss IH]; intros delivered; simpl; [apply keeps_ret, _|].
  destruct (negb _); [apply IH|]. intros s. rewrite M_bind_eq. cbn [get_ch gets fst snd].
  destruct (shouldQueueDelivery _ co) eqn:Hq.
  - rewrite M_bind_eq. refine (within_trans _ _ _ _ (IH _ _)). by apply window_mod_ch.
  - rewrite M_bind_eq.
    assert (Hs : within s (sendDelivery env cid co topic payload props s).2).
    { destruct (channels s !! cid) as [ch|] eqn:Hc; [by eapply window_send|by apply window_send_gone]. }
    destruct (sendDelivery env cid co topic payload props s).1; [done|]. exact (within_trans _ _ _ Hs (IH _ _)).
Qed.

Lemma window_drain_round cid : keeps within (drain_round env cid).
Proof.
  intros s. unfold drain_round. rewrite M_bind_eq. cbn [get_ch gets fst snd].
  destruct (channels s !! cid) as [ch|] eqn:Hc; cbn [default from_option id]; [|done].
  destruct (closed ch); [done|]. destruct (negb (flow ch)); [done|]. destruct (_ && _); [done|].
  destruct (pendingDeliveries ch) as [|pd rest]; [done|].
  rewrite M_bind_eq, (mod_ch_eq _ _ _ _ Hc). cbn [fst snd].
  fold (put cid (ch <| pendingDeliveries := rest |>) s).
  assert (Hw1 : within s (put cid (ch <| pendingDeliveries := rest |>) s)).
  { apply within_quiet. intros c ch' Hch'. simpl in Hch'. right.
    apply lookup_insert_Some in Hch' as [[<- <-]|[_ Hch']]; [by exists ch|by exists ch']. }
  destruct (consumers ch !! p_consumerTag pd) as [co|]; [|done].
  destruct (negb _); [done|]. destruct (shouldQueueDelivery ch co) eqn:Hq.
  - rewrite M_bind_eq. eapply within_trans; [done|]. by apply window_mod_ch.
  - rewrite M_bind_eq. cbn [mret M_ret snd]. eapply within_trans; [done|]. eapply window_send; [apply lookup_put|done].
Qed.

#[local] Instance window_delivers : Delivers env within.
Proof.
  split; [apply _| | |intros; by apply neutral_emit].
  - intros topic payload props. unfold conn_deliverMessage. repeat keeps_step.
    generalize false. generalize (range_channels env (out a) (channels a)).*1 as cids.
    induction cids as [|c cids IH]; intros b; simpl; repeat keeps_step; auto.
    unfold deliverMessage. repeat keeps_step. apply window_deliver_loop.
  - intros c. unfold drainPending. repeat keeps_step. generalize (S (length (pendingDeliveries a))) as fuel.
    induction fuel as [|fuel IH]; simpl; repeat keeps_step; auto using window_drain_round.
Qed.

Lemma window_channels {A} (m : M A) : keeps (same channels) m → keeps within m.
Proof. intros Hm s. apply within_quiet, quiet_same, Hm. Qed.

Lemma window_registration co : keeps within (releaseQueueRegistration co).
Proof.
  apply window_channels. intros s. unfold releaseQueueRegistration, same. by repeat case_match.
Qed.

Lemma window_release_consumer co : keeps within (release_consumer env co).
Proof.
  unfold release_consumer. repeat keeps_step; auto using window_registration; by apply window_modify.
Qed.

Lemma window_shrink (f : gmap Z Channel → gmap Z Channel) : (∀ m, f m ⊆ m) →
  keeps within (modify (λ s, s <| channels := f (channels s) |>)).
Proof.
  intros Hf s. apply within_quiet. intros c ch Hch. simpl in Hch. right. exists ch.
  split; [|done]. eapply lookup_weaken; [done|]. apply Hf.
Qed.

Lemma window_closeChannel c : keeps within (closeChannel env c).
Proof.
  unfold closeChannel, cleanup. repeat keeps_step; auto using window_release_consumer.
  apply (window_shrink (delete c)). intros m. apply delete_subseteq.
Qed.

Lemma window_cleanup : keeps within (conn_cleanup env).
Proof.
  unfold conn_cleanup, close_connection, cleanup.
  repeat keeps_step; auto using window_release_consumer; try (by apply window_modify).
  apply (window_shrink (λ _, ∅)). intros m. apply map_empty_subseteq.
Qed.

Lemma window_consumers c (f : gmap string consumer → gmap string consumer) :
  keeps within (mod_ch c (λ ch : Channel, ch <| consumers := f (consumers ch) |>)).
Proof. by apply window_mod_ch. Qed.

Lemma window_rollback c co : keeps within (rollbackConsumer c co).
Proof.
  unfold rollbackConsumer. repeat keeps_step; [|apply window_registration].
  apply (window_consumers c (delete _)).
Qed.

Lemma window_subscribe_queue c m isStream co : keeps within (subscribe_queue env c m isStream co).
Proof.
  unfold subscribe_queue, subscribe_call. cbv zeta.
  repeat keeps_step; try (by apply window_modify); apply window_rollback.
Qed.

Lemma window_start_consumer c m isQueue isStream co :
  keeps within (start_consumer env c m isQueue isStream co).
Proof.
  unfold start_consumer, retainQueueRegistration, subscribe_pubsub, reply_unless. repeat keeps_step.
  - apply (keeps_close_with env within).
  - apply (window_consumers c (insert _ _)).
  - by apply window_modify.
  - apply window_subscribe_queue.
  - apply (keeps_close_with env within).
  - by apply window_modify.
  - by apply window_modify.
  - apply (keeps_reply env within).
Qed.

Lemma window_consume c m : keeps within (handleBasicConsume env c m).
Proof.
  unfold handleBasicConsume, consumer_tag, applyHook.
  repeat keeps_step; try apply (keeps_close_with env within); try apply window_start_consumer.
  by apply window_mod_ch.
Qed.

Lemma window_cancel c m : keeps within (handleBasicCancel env c m).
Proof.
  unfold handleBasicCancel, reply_unless.
  repeat keeps_step;
    first [apply window_release_consumer|apply (keeps_reply env within)|apply (window_consumers c (delete _))].
Qed.

Lemma remaining_subseteq un tag multiple : remaining un tag multiple ⊆ un.
Proof. unfold remaining. destruct multiple; [apply map_filter_subseteq|apply delete_subseteq]. Qed.

Lemma window_settle c tag multiple how :
  keeps within (deliveries ← take_unacked env c tag multiple; for_each deliveries (settle_delivery env how);;
                  drainPending env c;; mret (None : option HErr)).
Proof.
  unfold take_unacked, settle_delivery. repeat keeps_step; try (by apply window_modify).
  - apply window_mod_ch. intros ch. split; [done|]. apply remaining_subseteq.
  - apply (delivers_drain (env := env)).
Qed.

Lemma window_cancelByQueue q g : keeps within (conn_cancelConsumerByQueue env q g).
Proof.
  unfold conn_cancelConsumerByQueue, cancelConsumerByQueue, cancel_consumer.
  repeat keeps_step; auto using window_registration; try (by apply (keeps_writeMethod env within)).
  apply (window_consumers _ (filter _)).
Qed.

(** Basic.Qos sets a limit that the deliveries already open respect. *)
Definition qos_fits (f : Frame) (s : Conn) : Prop := ∀ q ch,
  decodeMethod f = Ret (MBasicQos q) → channels s !! Frame_Channel f = Some ch →
  0 < BasicQos_PrefetchCount q → Z.of_nat (size (unacked ch)) <= BasicQos_PrefetchCount q.

Lemma window_dispatch c m s : (∀ q ch, m = MBasicQos q → channels s !! c = Some ch →
    0 < BasicQos_PrefetchCount q → Z.of_nat (size (unacked ch)) <= BasicQos_PrefetchCount q) →
  within s (dispatchMethod env c m s).2.
Proof.
  intros Hq. destruct (neutral_method m) eqn:Hn.
  { clear Hq; revert s. apply (keeps_dispatch env within); done. }
  destruct m; try done; cbn [dispatchMethod].
  - clear Hq; revert s. change (keeps within (ignore (writeMethod env c (MChannelCloseOk mkChannelCloseOk));;
      closeChannel env c;; mret (None : option HErr))).
    repeat keeps_step; [by apply (keeps_writeMethod env within)|apply window_closeChannel].
  - clear Hq; revert s. change (keeps within (closeChannel env c;; mret (None : option HErr))).
    repeat keeps_step. apply window_closeChannel.
  - unfold handleBasicQos. rewrite M_bind_eq. refine (within_trans _ _ _ _ (keeps_reply env within _ _ _)).
    destruct (channels s !! c) as [ch|] eqn:Hc.
    + rewrite (mod_ch_eq _ _ _ _ Hc). apply within_qos; [done|]. by apply Hq.
    + apply within_quiet. intros c' ch' Hch'. simpl in Hch'. rewrite lookup_alter_Some in Hch'. right.
      destruct Hch' as [(-> & ch0 & Hch' & _)|[_ Hch']]; [congruence|]. by exists ch'.
  - apply window_consume.
  - apply window_cancel.
  - apply (window_settle c _ _ SAck).
  - unfold handleBasicReject. destruct (BasicReject_Requeue m);
      [apply (window_settle c _ _ SNack)|apply (window_settle c _ _ SReject)].
  - unfold handleBasicNack. destruct (BasicNack_Requeue m);
      [apply (window_settle c _ _ SNack)|apply (window_settle c _ _ SReject)].
Qed.

Lemma window_processFrame f s : qos_fits f s → within s (processFrame env f s).2.
Proof.
  intros Hq. apply (processFrame_rule env within s (within s)); [by intros s' Hs|..].
  - intros m Hd _. apply window_dispatch. intros q ch -> Hch. by apply Hq.
  - intros Hnone. apply within_quiet. intros c ch Hch. simpl in Hch.
    apply lookup_insert_Some in Hch as [[<- <-]|[_ Hch]]; [by left|right; by exists ch].
  - by apply window_modify.
Qed.

Lemma conn_step_within s s' : conn_step env qos_fits s s' → within s s'.
Proof.
  intros Hs. destruct Hs.
  - by apply window_processFrame.
  - by apply (delivers_message (env := env) (R := within)).
  - by apply window_cancelByQueue.
  - by apply within_quiet, quiet_same.
  - by apply window_cleanup.
Qed.

#[local] Transparent within.

(** C12 The prefetch window.  Whatever frames arrive, whatever is delivered in between
    and however the critical sections of the goroutines that do it interleave, a channel's
    unacknowledged deliveries exceed its prefetch count by less than the number [N] of
    goroutines that may at once be between the check of the window and the recording of
    their delivery.  In particular they never exceed it where deliveries on a channel do
    not overlap ([N] = 1).  Every handler of the connection runs as a sequence of such
    sections.  Assumed is that Basic.Qos does not itself set the count below what is open
    or being sent. *)
Theorem prefetch_window :
  (∀ s s', rtc (conn_step env qos_fits) s s' → rtc (section_step N) (s, []) (s', [])) ∧
  (∀ s s' l, window s → rtc (section_step N) (s, []) (s', l) → overrun N (s', l)).
Proof.
  split.
  - intros s s' Hs. induction Hs as [|s1 s2 s3 Hstep _ IH]; [done|]. etrans; [|exact IH].
    by apply conn_step_within; [|intros c].
  - intros s s' l Hw Hs. assert (Ho : overrun N (s, [])).
    { intros c ch Hch Hp. specialize (Hw c ch Hch Hp). cbn. lia. }
    revert Ho. generalize dependent (s', l). intros y Hs. induction Hs; eauto using section_overrun.
Qed.
End window.

(** ** Refilling the window *)

Section refill.
Context (env : Env) `{!RangeOk env} (cid : Z).

(** The frames of a delivery to [co] under [tag], its properties ranged over after [h]. *)
Definition delivery_frames (co : consumer) (topic : string) (payload : list byte) (props : propmap)
    (tag : Z) (h : list Effect) : outcome Error (list Frame) :=
  let '(exchange, routingKey) := delivery_address co topic in
  methodFrame ← buildMethodFrame cid (MBasicDeliver (mkBasicDeliver (c_tag co) tag false exchange routingKey));
  headerFrame ← buildContentHeaderFrame cid (Z.of_nat (length payload))
                  (delivery_properties env (range_props env h props) props);
  Ret (methodFrame :: headerFrame :: buildBodyFrames cid payload (frameMax env)).

(** The contents the socket took. *)
Definition content_of (e : Effect) : option (list Frame) :=
  match e with EContent fs None => Some fs | _ => None end.
Definition contents (t : list Effect) : list (list Frame) := omap content_of t.
Lemma contents_app t1 t2 : contents (t1 ++ t2) = contents t1 ++ contents t2.
Proof. apply omap_app. Qed.

(** A delivery is written whole, or an error says why it was not. *)
Lemma sendDelivery_frames co topic payload props s :
  let r := sendDelivery env cid co topic payload props s in
  (∃ tag h fs, delivery_frames co topic payload props tag h = Ret fs ∧ r.1 = None ∧
     contents (out r.2) = contents (out s) ++ [fs]) ∨
  (∃ e, r.1 = Some e ∧ contents (out r.2) = contents (out s)).
Proof.
  cbv zeta. unfold sendDelivery, nextDeliveryTag. rewrite M_bind_eq. cbn [fst snd]. cbv zeta.
  set (tag := u64 _). rewrite M_bind_eq.
  set (s1 := (when (negb (c_noAck co)) _ _).2).
  assert (Ho : out s1 = out s) by (unfold s1, when; by destruct (negb _)).
  assert (Hf : ∀ h, delivery_frames co topic payload props tag h = delivery_frames co topic payload props tag h)
    by done. unfold delivery_frames at 2 in Hf.
  destruct (delivery_address co topic) as [exchange routingKey].
  destruct (buildMethodFrame _ _) as [mf|e|] eqn:Hm; [|right; exists e; by rewrite <-Ho|].
  2:{ unfold buildMethodFrame in Hm. by destruct (any_Write _) as [? [?|]]. }
  rewrite M_bind_eq. cbn [gets fst snd]. specialize (Hf (out s1)).
  destruct (buildContentHeaderFrame _ _ _) as [hf|e|] eqn:Hh; [|right; exists e; by rewrite <-Ho|].
  2:{ unfold buildContentHeaderFrame in Hh. by destruct (WriteContentHeader _).2 as [? [?|]]. }
  unfold write_frames. rewrite !M_bind_eq. cbn [gets fst snd mret M_ret emit modify].
  destruct (socket env (out s1)) as [e|].
  - right. exists e. split; [done|]. simpl. rewrite contents_app, Ho. apply app_nil_r.
  - left. do 3 eexists. split; [exact Hf|]. split; [done|]. simpl. by rewrite contents_app, Ho.
Qed.

(** A waiting delivery whose consumer is still there. *)
Definition wanted (ch : Channel) (pd : pendingDelivery) : bool :=
  match consumers ch !! p_consumerTag pd with
  | Some co => str_eqb (c_queue co) (p_queue pd)
  | None => false
  end.

(** [fs] carries the waiting delivery [pd] to its consumer. *)
Definition carries (ch : Channel) (pd : pendingDelivery) (fs : list Frame) : Prop := ∃ co tag h,
  consumers ch !! p_consumerTag pd = Some co ∧
  delivery_frames co (p_topic pd) (p_payload pd) (p_props pd) tag h = Ret fs.

(** Sending [pd] failed: a frame of it could not be built, or the socket did not take it. *)
Definition undeliverable (ch : Channel) (pd : pendingDelivery) : Prop := ∃ co s e,
  consumers ch !! p_consumerTag pd = Some co ∧
  (sendDelivery env cid co (p_topic pd) (p_payload pd) (p_props pd) s).1 = Some e.

(** The deliveries of [l] have been sent as [fss]: all of them or, after a failure, all
    but the last. *)
Definition sent_as (ch : Channel) (failed : bool) (l : list pendingDelivery) (fss : list (list Frame)) : Prop :=
  if failed then ∃ good pd, l = good ++ [pd] ∧ Forall2 (carries ch) good fss ∧ undeliverable ch pd
  else Forall2 (carries ch) l fss.

Definition full (ch : Channel) : Prop :=
  0 < prefetchCount ch ∧ prefetchCount ch <= Z.of_nat (size (unacked ch)).

(** What a channel keeps while deliveries leave it, and which ones left. *)
Definition later (failed : bool) (ch ch' : Channel) (s s' : Conn) : Prop :=
  consumers ch' = consumers ch ∧ closed ch' = closed ch ∧ flow ch' = flow ch ∧
  prefetchCount ch' = prefetchCount ch ∧ ∃ k fss, pendingDeliveries ch' = drop k (pendingDeliveries ch) ∧
    contents (out s') = contents (out s) ++ fss ∧
    sent_as ch failed (filter (wanted ch) (take k (pendingDeliveries ch))) fss.

Lemma sent_as_app ch failed l1 l2 fss1 fss2 : Forall2 (carries ch) l1 fss1 → sent_as ch failed l2 fss2 →
  sent_as ch failed (l1 ++ l2) (fss1 ++ fss2).
Proof.
  intros H1 H2. destruct failed; [|by apply Forall2_app].
  destruct H2 as (good & pd & -> & Hg & Hr). exists (l1 ++ good), pd. rewrite app_assoc.
  split; [done|]. split; [by apply Forall2_app|done].
Qed.

Lemma later_trans failed ch1 ch2 ch3 s1 s2 s3 :
  later false ch1 ch2 s1 s2 → later failed ch2 ch3 s2 s3 → later failed ch1 ch3 s1 s3.
Proof.
  intros (A1 & B1 & C1 & D1 & k1 & f1 & E1 & F1 & G1) (A2 & B2 & C2 & D2 & k2 & f2 & E2 & F2 & G2).
  split_and!; [congruence..|].
  exists (k1 + k2)%nat, (f1 ++ f2). rewrite E2, E1, drop_drop. split; [done|].
  split; [by rewrite F2, F1, app_assoc|].
  assert (Hw : ∀ pd, wanted ch2 pd ↔ wanted ch1 pd) by (intros pd; unfold wanted; by rewrite A1).
  rewrite E1, (list_filter_iff (wanted ch2) (wanted ch1)) in G2 by done.
  rewrite <-(take_drop k1 (take (k1 + k2) (pendingDeliveries ch1))), take_take, skipn_firstn_comm.
  replace (k1 `min` (k1 + k2))%nat with k1 by lia. replace (k1 + k2 - k1)%nat with k2 by lia.
  rewrite filter_app. apply sent_as_app; [exact G1|].
  unfold sent_as, carries, undeliverable in *. by rewrite A1 in G2.
Qed.

Lemma later_one failed ch s s' pd rest un fss : pendingDeliveries ch = pd :: rest →
  contents (out s') = contents (out s) ++ fss →
  sent_as ch failed (if wanted ch pd then [pd] else []) fss →
  later failed ch (ch <| pendingDeliveries := rest |> <| unacked := un |>) s s'.
Proof.
  intros Hp Hc Hs. split_and!; try done. exists 1%nat, fss. rewrite Hp. split; [done|]. split; [done|].
  simpl. rewrite filter_cons. by destruct (wanted ch pd).
Qed.

Lemma drain_round_sends s ch : channels s !! cid = Some ch →
  closed ch = false → flow ch = true → 0 <= prefetchCount ch →
  (drain_round env cid s = (false, s) ∧ (pendingDeliveries ch = [] ∨ full ch)) ∨
  (∃ ch' failed, (drain_round env cid s).1 = negb failed ∧ channels (drain_round env cid s).2 !! cid = Some ch' ∧
     later failed ch ch' s (drain_round env cid s).2 ∧
     (length (pendingDeliveries ch') < length (pendingDeliveries ch))%nat).
Proof.
  intros Hch Hcl Hfl Hpos. unfold drain_round. rewrite M_bind_eq, (get_ch_eq _ _ _ Hch). cbn [fst snd].
  rewrite Hcl, Hfl. cbn [negb].
  destruct ((0 <? prefetchCount ch) && (prefetchCount ch <=? Z.of_nat (size (unacked ch)))) eqn:Hf.
  { left. split; [done|]. right. bool_prop. by split. }
  destruct (pendingDeliveries ch) as [|pd rest] eqn:Hp; [left; split; [done|by left]|]. right.
  rewrite M_bind_eq, (mod_ch_eq _ _ _ _ Hch). cbn [fst snd].
  fold (put cid (ch <| pendingDeliveries := rest |>) s). set (s1 := put cid _ s).
  assert (Hskip : wanted ch pd = false → ∃ ch' failed, true = negb failed ∧ channels s1 !! cid = Some ch' ∧
    later failed ch ch' s s1 ∧ (length (pendingDeliveries ch') < S (length rest))%nat).
  { intros Hw. exists (ch <| pendingDeliveries := rest |> <| unacked := unacked ch |>), false.
    split_and!; [done|destruct ch; apply lookup_put| |simpl; lia].
    apply (later_one _ _ _ _ _ _ _ [] Hp); [by rewrite app_nil_r|]. rewrite Hw. constructor. }
  unfold wanted in Hskip. destruct (consumers ch !! p_consumerTag pd) as [co|] eqn:Hco; [|by apply Hskip].
  destruct (str_eqb (c_queue co) (p_queue pd)) eqn:Hq; cbn [negb]; [|by apply Hskip].
  assert (shouldQueueDelivery ch co = false) as ->.
  { unfold shouldQueueDelivery. rewrite Hfl. cbn [negb]. destruct (c_noAck co); [done|].
    destruct (Z.eqb_spec (prefetchCount ch) 0); [done|]. destruct (Z.ltb_spec 0 (prefetchCount ch)); [done|]. lia. }
  rewrite M_bind_eq. cbn [mret M_ret fst snd].
  destruct (sendDelivery_state env cid co (p_topic pd) (p_payload pd) (p_props pd) s1
    (ch <| pendingDeliveries := rest |>)) as (err & t & _ & Heq); [apply lookup_put|].
  pose proof (sendDelivery_frames co (p_topic pd) (p_payload pd) (p_props pd) s1) as Hsf. cbv zeta in Hsf.
  assert (Hr : ∀ e, (sendDelivery env cid co (p_topic pd) (p_payload pd) (p_props pd) s1).1 = Some e →
    undeliverable ch pd) by (intros e He; by exists co, s1, e).
  assert (Hw : wanted ch pd = true) by (unfold wanted; by rewrite Hco).
  rewrite Heq in *. cbn [fst snd] in *.
  assert (Hun : ∃ un, sent co (u64 (deliveryTag s1 + 1)) (p_topic pd) (p_props pd)
    (ch <| pendingDeliveries := rest |>) = ch <| pendingDeliveries := rest |> <| unacked := un |>).
  { unfold sent. destruct (c_noAck co); [exists (unacked ch); by destruct ch|by eexists]. }
  destruct Hun as [un Hun]. rewrite Hun in *.
  exists (ch <| pendingDeliveries := rest |> <| unacked := un |>), (bool_decide (err ≠ None)).
  split; [by destruct err|]. split; [apply lookup_put|]. split; [|simpl; lia].
  destruct Hsf as [(tag & h & fs & Hfs & -> & Hc)|(e & -> & Hc)].
  - apply (later_one _ _ _ _ _ _ _ [fs] Hp Hc). rewrite Hw. apply Forall2_cons. split; [|constructor].
    by exists co, tag, h.
  - apply (later_one _ _ _ _ _ _ _ [] Hp); [by rewrite app_nil_r|]. rewrite Hw.
    exists [], pd. split; [done|]. split; [constructor|]. by apply (Hr e).
Qed.

Lemma drain_loop_fills fuel : ∀ s ch, channels s !! cid = Some ch →
  closed ch = false → flow ch = true → 0 <= prefetchCount ch → (length (pendingDeliveries ch) < fuel)%nat →
  ∃ ch' failed, channels (drain_loop env fuel cid s).2 !! cid = Some ch' ∧
    later failed ch ch' s (drain_loop env fuel cid s).2 ∧
    (failed = false → pendingDeliveries ch' = [] ∨ full ch').
Proof.
  induction fuel as [|fuel IH]; intros s ch Hch Hcl Hfl Hpos Hlt; [lia|]. simpl. rewrite M_bind_eq.
  destruct (drain_round_sends s ch Hch Hcl Hfl Hpos) as [[-> Hend]|(ch1 & failed & -> & Hch1 & Hl & Hlen)].
  - exists ch, false. split; [done|]. split; [|done]. split_and!; try done. exists 0%nat, [].
    rewrite app_nil_r. split; [done|]. split; [done|constructor].
  - destruct failed; cbn [negb when]; [by exists ch1, true|].
    destruct (Hl) as (_ & Hcl1 & Hfl1 & Hp1 & _).
    destruct (IH _ ch1 Hch1) as (ch' & failed & Hch' & Hl' & Hend); [congruence|congruence|lia|lia|].
    exists ch', failed. split; [done|]. split; [by eapply later_trans|done].
Qed.

(** C22 An acknowledgement lets waiting deliveries go.  After a disposition, deliveries
    leave the channel in the order in which they queued up.  Each one whose consumer is
    still there is written to the socket as the frames of that delivery, in that order;
    the others are dropped.  This ends when none is waiting, or the prefetch window is
    full, or the first time that a delivery cannot be built or written: that one is gone
    from the queue.  On a channel that is closed or whose flow is off nothing leaves. *)
Theorem disposition_refills `{GoText} m d s ch : disposition m = Some d →
  channels s !! cid = Some ch → 0 <= prefetchCount ch →
  let s' := (dispatchMethod env cid m s).2 in
  ∃ ch' k fss failed, channels s' !! cid = Some ch' ∧
    pendingDeliveries ch' = drop k (pendingDeliveries ch) ∧
    contents (out s') = contents (out s) ++ fss ∧
    sent_as ch failed (filter (wanted ch) (take k (pendingDeliveries ch))) fss ∧
    (if closed ch || negb (flow ch) then k = 0%nat ∧ fss = []
     else failed = false → pendingDeliveries ch' = [] ∨ full ch').
Proof.
  intros Hd Hch Hpos. cbv zeta. destruct d as [[how tag] multiple].
  set (ch1 := ch <| unacked := remaining (unacked ch) tag multiple |>).
  assert (Hrun : ∃ s1, channels s1 !! cid = Some ch1 ∧ contents (out s1) = contents (out s) ∧
    (dispatchMethod env cid m s).2 = (drainPending env cid s1).2).
  { rewrite (disposition_run env cid m how tag multiple s ch) by done. eexists. split; [|split; [|done]].
    - assert (Hk : ∀ l s0, channels (for_each l (settle_delivery env how) s0).2 = channels s0).
      { intros l s0. apply (keeps_for_each (same channels)). intros ud _. unfold settle_delivery.
        by destruct (_ && _). }
      rewrite Hk. apply lookup_put.
    - apply (keeps_for_each (same (contents ∘ out))). intros ud _ s0. unfold settle_delivery, same. simpl.
      destruct (_ && _); simpl; [|done]. rewrite contents_app. apply app_nil_r. }
  destruct Hrun as (s1 & Hch1 & Hw1 & ->). rewrite <-Hw1. unfold drainPending.
  rewrite M_bind_eq, (get_ch_eq _ _ _ Hch1). cbn [fst snd].
  destruct (closed ch || negb (flow ch)) eqn:Hoff.
  - exists ch1, 0%nat, [], false. simpl. rewrite M_bind_eq. unfold drain_round.
    rewrite M_bind_eq, (get_ch_eq _ _ _ Hch1). cbn [fst snd]. change (closed ch1) with (closed ch).
    change (flow ch1) with (flow ch). rewrite app_nil_r. apply orb_true_iff in Hoff as [->|Hoff].
    { split; [done|]. split; [done|]. split; [done|]. by split; [constructor|]. }
    destruct (closed ch); [|rewrite Hoff]; (split; [done|]; split; [done|]; split; [done|]; by split; [constructor|]).
  - apply orb_false_iff in Hoff as [Hcl Hfl]. apply negb_false_iff in Hfl.
    destruct (drain_loop_fills (S (length (pendingDeliveries ch1))) s1 ch1)
      as (ch' & failed & Hch' & (_ & _ & _ & _ & k & fss & Hk & Hc & Hs) & Hend); [done|done|done|done|lia|].
    by exists ch', k, fss, failed.
Qed.
End refill.
