(* ===== verification/AmqpConsumers.v ===== *)
(** * Consumers and queue registrations of an AMQP 0.9.1 connection

    The queue manager knows a connection, not its consumers, so the connection counts
    the consumers behind each registration ([retainQueueRegistration],
    [releaseQueueRegistration]).  The file proves that the counts are exact in every
    reachable state, that no consumer ever loses the registration it depends on, and
    that the last one to leave gives the registration up. *)

From Stdlib Require Import ZArith Lia Bool Ascii String Strings.Byte.
From stdpp Require Import gmultiset prelude gmap strings.
From S2P Require Import Prelude State GoStrings Strconv Payload Envelope Topics Routing QueueConfig.
From S2P Require Import Codec AmqpTypes AmqpMethods AmqpFrame AmqpArgs QueueErrors Base64.
From S2P Require Import AmqpChannel AmqpLogic AmqpContent.

(** ** Counting consumers *)

(** The consumers of all channels. *)
Definition consumers_of (m : gmap Z (gmap string consumer)) : list consumer :=
  map_to_list m ≫= λ e, (map_to_list e.2).*2.

(** [co] depends on the registration [key]. *)
Definition depends (key : queueRegistration) (co : consumer) : Prop :=
  c_queueName co ≠ EmptyString ∧ registration_of co = key.

Definition owners (key : queueRegistration) (l : list consumer) : nat := length (filter (depends key) l).

(** The registrations count the consumers of [l]. *)
Definition counted (l : list consumer) (regs : gmap queueRegistration Z) : Prop := ∀ key,
  regs !! key = match owners key l with O => None | n => Some (Z.of_nat n) end.

#[export] Instance owners_perm key : Proper ((≡ₚ) ==> eq) (owners key).
Proof. intros l1 l2 Hl. unfold owners. by rewrite Hl. Qed.
#[export] Instance counted_perm : Proper ((≡ₚ) ==> eq ==> iff) counted.
Proof. intros l1 l2 Hl ? regs ->. unfold counted. by setoid_rewrite Hl. Qed.

Lemma owners_cons key co l : owners key (co :: l) = ((if decide (depends key co) then 1 else 0) + owners key l)%nat.
Proof. unfold owners. rewrite filter_cons. by case_decide. Qed.

Lemma owners_app key l1 l2 : owners key (l1 ++ l2) = (owners key l1 + owners key l2)%nat.
Proof. unfold owners. by rewrite filter_app, length_app. Qed.

Lemma owners_pos key l : (0 < owners key l)%nat ↔ ∃ co, co ∈ l ∧ depends key co.
Proof.
  unfold owners. split.
  - destruct (filter (depends key) l) as [|co l'] eqn:Hf; simpl; [lia|]. intros _. exists co.
    assert (Hin : co ∈ filter (depends key) l) by (rewrite Hf; by left).
    by apply list_elem_of_filter in Hin as [? ?].
  - intros (co & Hin & Hd). destruct (filter (depends key) l) as [|co' l'] eqn:Hf; simpl; [|lia].
    assert (Hin' : co ∈ filter (depends key) l) by (by apply list_elem_of_filter).
    rewrite Hf in Hin'. by apply not_elem_of_nil in Hin'.
Qed.

(** The consumers of one channel and of the others. *)
Lemma consumers_of_insert m cid cs :
  consumers_of (<[cid := cs]> m) ≡ₚ (map_to_list cs).*2 ++ consumers_of (delete cid m).
Proof.
  unfold consumers_of. rewrite <-insert_delete_eq.
  rewrite map_to_list_insert by apply lookup_delete_eq. done.
Qed.
Lemma consumers_of_at m cid cs : m !! cid = Some cs →
  consumers_of m ≡ₚ (map_to_list cs).*2 ++ consumers_of (delete cid m).
Proof. intros Hc. rewrite <-(insert_id m cid cs Hc) at 1. apply consumers_of_insert. Qed.

Lemma values_insert (cs : gmap string consumer) tag co : cs !! tag = None →
  (map_to_list (<[tag := co]> cs)).*2 ≡ₚ co :: (map_to_list cs).*2.
Proof. intros Hn. by rewrite map_to_list_insert. Qed.
Lemma values_delete (cs : gmap string consumer) tag co : cs !! tag = Some co →
  (map_to_list cs).*2 ≡ₚ co :: (map_to_list (delete tag cs)).*2.
Proof. intros Hc. by rewrite <-(map_to_list_delete _ _ _ Hc). Qed.

Lemma values_split (f : consumer → bool) (cs : gmap string consumer) :
  (map_to_list cs).*2 ≡ₚ filter (λ co, f co = true) (map_to_list cs).*2 ++
    (map_to_list (filter (λ e : string * consumer, f e.2 = false) cs)).*2.
Proof.
  induction cs as [|tag co cs Hn IH] using map_ind; [done|].
  rewrite values_insert by done. rewrite filter_cons, map_filter_insert. simpl.
  destruct (f co); simpl.
  - rewrite delete_id by done. by rewrite IH at 1.
  - rewrite values_insert by (apply map_lookup_filter_None; auto). rewrite IH at 1. apply Permutation_middle.
Qed.

(** ** Retaining and releasing *)

Lemma retain_counts co l s : counted l (queueRegistrations s) →
  counted (co :: l) (queueRegistrations (retainQueueRegistration co s).2).
Proof.
  intros Hc key. rewrite owners_cons. unfold retainQueueRegistration.
  destruct (str_eqb (c_queueName co) EmptyString) eqn:Hq; simpl.
  - apply bool_decide_eq_true in Hq. rewrite decide_False by (by intros [? _]). apply Hc.
  - apply bool_decide_eq_false in Hq. destruct (decide (registration_of co = key)) as [<-|Hne].
    + rewrite lookup_insert_eq, decide_True by done. rewrite (Hc (registration_of co)).
      destruct (owners _ l); simpl; f_equal; lia.
    + rewrite lookup_insert_ne by done. rewrite decide_False by (by intros [_ ?]). apply Hc.
Qed.

Lemma release_counts co l s : counted (co :: l) (queueRegistrations s) →
  counted l (queueRegistrations (releaseQueueRegistration co s).2) ∧
  ((releaseQueueRegistration co s).1 = true ↔
   c_queueName co ≠ EmptyString ∧ owners (registration_of co) l = O).
Proof.
  intros Hc. unfold releaseQueueRegistration.
  destruct (str_eqb (c_queueName co) EmptyString) eqn:Hq; simpl.
  - apply bool_decide_eq_true in Hq. split; [|split; [done|by intros [? _]]]. intros key.
    specialize (Hc key). rewrite owners_cons, decide_False in Hc by (by intros [? _]). done.
  - apply bool_decide_eq_false in Hq. pose proof (Hc (registration_of co)) as Hk.
    rewrite owners_cons, decide_True in Hk by done. simpl in Hk. rewrite Hk.
    assert (Hother : ∀ key, key ≠ registration_of co → queueRegistrations s !! key =
      match owners key l with O => None | n => Some (Z.of_nat n) end).
    { intros key Hne. specialize (Hc key). rewrite owners_cons, decide_False in Hc; [done|].
      intros [_ ?]. congruence. }
    destruct (owners (registration_of co) l) as [|n] eqn:Hn.
    + simpl. split; [|done]. intros key. destruct (decide (key = registration_of co)) as [->|Hne].
      * by rewrite lookup_delete_eq, Hn.
      * rewrite lookup_delete_ne by done. by apply Hother.
    + destruct (Z.ltb_spec 1 (Z.of_nat (S (S n)))); [|lia]. simpl. split; [|split; [done|by intros [_ ?]]].
      intros key. destruct (decide (key = registration_of co)) as [->|Hne].
      * rewrite lookup_insert_eq, Hn. f_equal. lia.
      * rewrite lookup_insert_ne by done. by apply Hother.
Qed.

(** ** The invariant *)

Notation conss s := (consumers_of (consumers <$> channels s)).

(** A consumer of a queue belongs to a group. *)
Definition grouped (co : consumer) : Prop := c_queueName co ≠ EmptyString → c_groupID co ≠ EmptyString.

(** The registrations count the consumers, and [owed] more that are on their way out. *)
Definition registered (owed : list consumer) (s : Conn) : Prop :=
  counted (owed ++ conss s) (queueRegistrations s) ∧ Forall grouped (owed ++ conss s).

(** Some consumer depends on [key]. *)
Definition live (key : queueRegistration) (s : Conn) : Prop := (0 < owners key (conss s))%nat.

Definition unsubscribes (key : queueRegistration) (e : Effect) : Prop :=
  match e with EUnsubscribe q p _ g => mkRegistration q p g = key | _ => False end.

(** What a step does with registrations: none is given up that is still needed and, if
    there is a queue manager, each that is no longer needed is given up. *)
Definition faithful (env : Env) (s s' : Conn) : Prop := ∃ t, out s' = out s ++ t ∧
  (∀ key, Exists (unsubscribes key) t → ¬ live key s') ∧
  (is_Some (queueManager env) → ∀ key, live key s → ¬ live key s' → Exists (unsubscribes key) t).

(** A step that adds no consumer. *)
Definition shrinking (env : Env) (s s' : Conn) : Prop := registered [] s →
  registered [] s' ∧ (∀ key, live key s' → live key s) ∧ faithful env s s'.

#[export] Instance shrinking_preorder env : PreOrder (shrinking env).
Proof.
  split.
  - intros s Hr. split_and!; [done|done|]. exists []. rewrite app_nil_r.
    split_and!; [done|by intros key ?%Exists_nil|done].
  - intros s1 s2 s3 H1 H2 Hr. destruct (H1 Hr) as (Hr2 & Hl2 & t1 & E1 & A1 & B1).
    destruct (H2 Hr2) as (Hr3 & Hl3 & t2 & E2 & A2 & B2). split_and!; [done|auto|].
    exists (t1 ++ t2). split; [by rewrite E2, E1, app_assoc|]. split.
    + intros key [He|He]%Exists_app; [|by apply A2]. intros Hlive. apply (A1 key He). auto.
    + intros Hqm key Hlive Hn. apply Exists_app.
      destruct (decide (0 < owners key (conss s2))%nat) as [Hl|Hl]; [right|left]; auto.
Qed.

Section registrations.
Context `{GoText} (env : Env) `{!RangeOk env}.

(** ** Steps that leave consumers alone *)

Lemma subscriptions_registered owed s s' : same subscriptions s s' →
  (registered owed s' ↔ registered owed s) ∧ ∀ key, live key s' ↔ live key s.
Proof.
  intros [= Hc Hr]. unfold registered, live. by rewrite Hc, Hr.
Qed.

Lemma quiet_shrinking {A} (m : M A) : keeps (same subscriptions) m → emits neutral_effect m →
  keeps (shrinking env) m.
Proof.
  intros Hs He s Hr. destruct (subscriptions_registered [] s (m s).2 (Hs s)) as [Hreg Hlive].
  split; [by apply Hreg|]. split; [intros key; by apply Hlive|].
  destruct (He s) as (t & Ht & Hn). exists t. split; [done|]. split.
  - intros key Hex. rewrite Exists_exists in Hex. destruct Hex as (e & Hin & Hu).
    rewrite Forall_forall in Hn. specialize (Hn e Hin). destruct e; try done. simpl in *. subst.
    rewrite Hlive. unfold live. rewrite owners_pos. intros (co & Hco & Hd & Hk). destruct Hr as [_ Hg].
    rewrite Forall_forall in Hg. apply (Hg co Hco Hd). by injection Hk.
  - intros _ key Hl Hn'. by destruct Hn'; apply Hlive.
Qed.

Lemma shrinking_emit e : neutral_effect e → keeps (shrinking env) (emit e).
Proof.
  intros He. apply quiet_shrinking; [apply subs_emit|]. intros s. exists [e]. split; [done|]. by constructor.
Qed.

Lemma shrinking_modify f : (∀ s, channels (f s) = channels s ∧ queueRegistrations (f s) = queueRegistrations s) →
  (∀ s, out (f s) = out s) → keeps (shrinking env) (modify f).
Proof.
  intros Hf Ho. apply quiet_shrinking; [by apply subs_modify|]. intros s. exists [].
  simpl. by rewrite Ho, app_nil_r.
Qed.

Lemma shrinking_mod_ch c f : (∀ ch, consumers (f ch) = consumers ch) → keeps (shrinking env) (mod_ch c f).
Proof.
  intros Hf. apply quiet_shrinking; [by apply subs_mod_ch|]. intros s. exists []. simpl. by rewrite app_nil_r.
Qed.

#[local] Instance shrinking_neutral : Neutral (shrinking env).
Proof.
  split; [apply _|apply shrinking_emit| |intros; by apply shrinking_modify].
  intros c f Hf. apply shrinking_mod_ch. intros ch. apply Hf.
Qed.

#[local] Instance shrinking_delivers : Delivers env (shrinking env).
Proof.
  apply (steps_deliver env (shrinking env)).
  - by apply (shrinking_modify (λ s, s <| deliveryTag := u64 (deliveryTag s + 1) |>)).
  - intros. by apply shrinking_mod_ch.
  - intros. by apply shrinking_mod_ch.
  - intros. by apply shrinking_emit.
Qed.

(** ** Consumers that leave *)

Lemma registered_perm owed1 owed2 s : owed1 ≡ₚ owed2 → registered owed1 s → registered owed2 s.
Proof. intros Hp. unfold registered. by rewrite Hp. Qed.

Lemma release_registered co owed s : registered (co :: owed) s →
  registered owed (releaseQueueRegistration co s).2 ∧
  channels (releaseQueueRegistration co s).2 = channels s ∧ out (releaseQueueRegistration co s).2 = out s ∧
  ((releaseQueueRegistration co s).1 = true ↔
   c_queueName co ≠ EmptyString ∧ owners (registration_of co) (owed ++ conss s) = O).
Proof.
  intros [Hc Hg]. assert (Hs : channels (releaseQueueRegistration co s).2 = channels s ∧
    out (releaseQueueRegistration co s).2 = out s).
  { unfold releaseQueueRegistration. by repeat case_match. }
  destruct Hs as [Hch Hout]. simpl in Hc. destruct (release_counts co _ _ Hc) as [Hc' Hb].
  split_and!; try done. split; rewrite Hch; [done|]. by inversion Hg.
Qed.

(** One consumer that has left. *)
Lemma release_one co cs s : registered (co :: cs) s → ∃ t1,
  registered cs (release_consumer env co s).2 ∧
  channels (release_consumer env co s).2 = channels s ∧ out (release_consumer env co s).2 = out s ++ t1 ∧
  (∀ key, Exists (unsubscribes key) t1 → owners key (cs ++ conss s) = O) ∧
  (is_Some (queueManager env) → ∀ key, depends key co → owners key (cs ++ conss s) = O →
   Exists (unsubscribes key) t1).
Proof.
  intros Hr. destruct (release_registered co cs s Hr) as (Hr1 & Hch1 & Hout1 & Hb).
  unfold release_consumer. destruct (str_eqb (c_queueName co) EmptyString) eqn:Hq; cbn [negb].
  - apply bool_decide_eq_true in Hq.
    assert (Hsame : (releaseQueueRegistration co s).2 = s).
    { unfold releaseQueueRegistration. by rewrite Hq. }
    rewrite Hsame in Hr1.
    assert (Hnd : ∀ key, depends key co → False) by (intros key [Hd _]; done).
    destruct (str_eqb (c_mqttFilter co) EmptyString).
    { exists []. rewrite app_nil_r. split_and!; try done; [by intros key ?%Exists_nil|].
      intros _ key Hd. by apply Hnd in Hd. }
    rewrite M_bind_eq. case_bool_decide; simpl.
    + eexists [_; _]. rewrite <-app_assoc. split_and!; try done.
      * intros key Hex. rewrite !Exists_cons, Exists_nil in Hex. simpl in Hex. tauto.
      * intros _ key Hd. by apply Hnd in Hd.
    + eexists [_]. split_and!; try done.
      * intros key Hex. rewrite Exists_cons, Exists_nil in Hex. simpl in Hex. tauto.
      * intros _ key Hd. by apply Hnd in Hd.
  - apply bool_decide_eq_false in Hq. rewrite M_bind_eq.
    destruct (releaseQueueRegistration co s) as [b s1]. simpl in *. destruct b; simpl.
    + destruct (proj1 Hb eq_refl) as [_ H0]. case_bool_decide as Hqm; simpl.
      * eexists [_]. rewrite Hout1. split_and!; try done.
        -- intros key Hex. rewrite Exists_cons, Exists_nil in Hex. simpl in Hex.
           destruct Hex as [Hk|[]]. by subst key.
        -- intros _ key [_ <-] _. by apply Exists_cons; left.
      * exists []. rewrite app_nil_r. split_and!; try done. by intros key ?%Exists_nil.
    + exists []. rewrite app_nil_r. split_and!; try done; [by intros key ?%Exists_nil|].
      intros _ key [_ <-] H0. by discriminate (proj2 Hb (conj Hq H0)).
Qed.

(** What releasing [cs] does, when [rest] are still to be released. *)
Definition released (cs rest : list consumer) (s s' : Conn) : Prop :=
  registered rest s' ∧ channels s' = channels s ∧ ∃ t, out s' = out s ++ t ∧
    (∀ key, Exists (unsubscribes key) t → owners key (rest ++ conss s) = O) ∧
    (is_Some (queueManager env) → ∀ key, (0 < owners key cs)%nat → owners key (rest ++ conss s) = O →
     Exists (unsubscribes key) t).

Lemma released_nil rest s : registered rest s → released [] rest s s.
Proof.
  intros Hr. split_and!; try done. exists []. rewrite app_nil_r. split_and!; [done|by intros key ?%Exists_nil|].
  intros _ key. unfold owners. simpl. lia.
Qed.

Lemma released_app cs1 cs2 rest s s1 s2 : released cs1 (cs2 ++ rest) s s1 → released cs2 rest s1 s2 →
  released (cs1 ++ cs2) rest s s2.
Proof.
  intros (Hr1 & Hch1 & t1 & Hout1 & A1 & B1) (Hr2 & Hch2 & t2 & Hout2 & A2 & B2). rewrite Hch1 in *.
  split_and!; [done|by rewrite Hch2|]. exists (t1 ++ t2). split; [by rewrite Hout2, Hout1, app_assoc|]. split.
  - intros key [He|He]%Exists_app; [|by apply A2]. specialize (A1 key He). rewrite !owners_app in *. lia.
  - intros Hqm key Hpos H0. apply Exists_app. rewrite owners_app in Hpos.
    destruct (decide (0 < owners key cs2)%nat) as [Hp|Hp]; [right; by apply B2|]. left.
    apply B1; [done|lia|]. rewrite !owners_app in *. lia.
Qed.

Lemma release_all cs : ∀ rest s, registered (cs ++ rest) s →
  released cs rest s (for_each cs (release_consumer env) s).2.
Proof.
  induction cs as [|co cs IH]; intros rest s Hr; simpl; [by apply released_nil|]. rewrite M_bind_eq.
  destruct (release_one co (cs ++ rest) s Hr) as (t & Hr1 & Hch & Hout & A & B).
  apply (released_app [co] cs rest _ (release_consumer env co s).2); [|by apply IH].
  split_and!; try done. exists t. split_and!; [done|done|]. intros Hqm key Hpos H0. apply B; [done| |done].
  rewrite owners_cons in Hpos. case_decide; [done|]. unfold owners in Hpos. simpl in Hpos. lia.
Qed.

(** The consumers of a list of channels. *)
Definition held (chs : list Channel) : list consumer := chs ≫= λ ch, (map_to_list (consumers ch)).*2.

Lemma cleanup_all chs : ∀ s, registered (held chs) s → released (held chs) [] s (for_each chs (cleanup env) s).2.
Proof.
  induction chs as [|ch chs IH]; intros s Hr; simpl; [by apply released_nil|]. rewrite M_bind_eq.
  change (held (ch :: chs)) with ((map_to_list (consumers ch)).*2 ++ held chs) in *.
  set (vs := (range_consumers env (out s) (consumers ch)).*2).
  assert (cleanup env ch s = for_each vs (release_consumer env) s) as -> by (unfold cleanup; by rewrite M_bind_eq).
  assert (Hvs : vs ≡ₚ (map_to_list (consumers ch)).*2) by (unfold vs; by rewrite range_consumers_perm).
  assert (H1 : released vs (held chs) s (for_each vs (release_consumer env) s).2).
  { apply release_all. eapply registered_perm; [|done]. by rewrite Hvs. }
  apply (released_app _ _ _ _ (for_each vs (release_consumer env) s).2).
  - destruct H1 as (Hr1 & Hch & t & Hout & A & B). split_and!; [by rewrite app_nil_r|done|].
    exists t. rewrite app_nil_r. split_and!; try done. intros Hqm key. rewrite <-Hvs. by apply B.
  - apply IH. apply H1.
Qed.

(** Consumers [cs] leave the channels and are released. *)
Lemma leave_shrinking s s1 s2 cs : conss s ≡ₚ cs ++ conss s1 → queueRegistrations s1 = queueRegistrations s →
  out s1 = out s → (registered cs s1 → released cs [] s1 s2) → shrinking env s s2.
Proof.
  intros Hp Hregs Hout Hrel [Hc Hg]. simpl in Hc, Hg. rewrite Hp in Hc, Hg.
  destruct Hrel as (Hr & Hch & t & Ht & A & B); [split; [by rewrite Hregs|done]|].
  assert (Hl : ∀ key, live key s2 ↔ live key s1) by (intros key; unfold live; by rewrite Hch).
  assert (Ho : ∀ key, owners key (conss s) = (owners key cs + owners key (conss s1))%nat).
  { intros key. by rewrite Hp, owners_app. }
  split; [done|]. split; [intros key; rewrite Hl; unfold live; rewrite Ho; lia|].
  exists t. split; [by rewrite Ht, Hout|]. split.
  - intros key He. rewrite Hl. unfold live. specialize (A key He). simpl in A. lia.
  - intros Hqm key. rewrite Hl. unfold live. rewrite Ho. intros Hpos Hn. apply B; [done|lia|simpl; lia].
Qed.

Lemma conss_delete s cid : consumers <$> delete cid (channels s) = delete cid (consumers <$> channels s).
Proof. apply fmap_delete. Qed.

Lemma closeChannel_shrinking cid : keeps (shrinking env) (closeChannel env cid).
Proof.
  intros s. unfold closeChannel. rewrite !M_bind_eq. cbn [gets modify fst snd id].
  destruct (channels s !! cid) as [ch|] eqn:Hch.
  - apply (leave_shrinking s (s <| channels := delete cid (channels s) |>) _ (held [ch])); [|done|done|].
    + simpl. unfold held. simpl. rewrite app_nil_r, conss_delete. apply consumers_of_at.
      by rewrite lookup_fmap, Hch.
    + intros Hr. apply (cleanup_all [ch]) in Hr. simpl in Hr. by rewrite M_bind_eq in Hr.
  - assert (Hd : delete cid (channels s) = channels s) by (by apply delete_id).
    rewrite Hd. destruct s. reflexivity.
Qed.

Lemma held_pairs (l : list (Z * Channel)) :
  held l.*2 = (prod_map id consumers <$> l) ≫= λ e, (map_to_list e.2).*2.
Proof. induction l as [|[c ch] l IH]; [done|]. unfold held in *. csimpl. f_equal. apply IH. Qed.

Lemma conn_cleanup_shrinking : keeps (shrinking env) (conn_cleanup env).
Proof.
  unfold conn_cleanup, close_connection. apply (keeps_bind (shrinking env)); [by apply shrinking_modify|].
  intros _ s. rewrite !M_bind_eq. cbn [gets modify fst snd id].
  set (s1 := s <| channels := ∅ |>). set (chs := (range_channels env (out s) (channels s)).*2).
  transitivity (for_each chs (cleanup env) s1).2.
  - apply (leave_shrinking _ s1 _ (held chs)); [|done|done|apply cleanup_all].
    unfold s1. simpl. rewrite fmap_empty. unfold consumers_of at 2. rewrite map_to_list_empty. simpl.
    rewrite app_nil_r. unfold chs. rewrite held_pairs, range_channels_perm.
    unfold consumers_of. by rewrite map_to_list_fmap.
  - match goal with |- shrinking env ?s0 (?m ?s0).2 => cut (keeps (shrinking env) m); [intros Hk; apply Hk|] end.
    repeat keeps_step; by apply shrinking_emit.
Qed.

(** ** Cancelling a consumer *)

Lemma conss_put cid ch s : conss (put cid ch s) ≡ₚ
  (map_to_list (consumers ch)).*2 ++ consumers_of (delete cid (consumers <$> channels s)).
Proof. simpl. rewrite fmap_insert. apply consumers_of_insert. Qed.

Lemma conss_at cid ch s : channels s !! cid = Some ch →
  conss s ≡ₚ (map_to_list (consumers ch)).*2 ++ consumers_of (delete cid (consumers <$> channels s)).
Proof. intros Hch. apply consumers_of_at. by rewrite lookup_fmap, Hch. Qed.

(** Taking one consumer out of its channel. *)
Lemma conss_remove cid ch tag co s : channels s !! cid = Some ch → consumers ch !! tag = Some co →
  conss s ≡ₚ co :: conss (put cid (ch <| consumers := delete tag (consumers ch) |>) s).
Proof.
  intros Hch Hco. rewrite (conss_at _ _ _ Hch), conss_put, (values_delete _ _ _ Hco). done.
Qed.

Lemma alter_gone (f : Channel → Channel) cid (m : gmap Z Channel) : m !! cid = None → alter f cid m = m.
Proof.
  intros Hn. apply map_eq. intros i. destruct (decide (i = cid)) as [->|]; [|by rewrite lookup_alter_ne].
  by rewrite lookup_alter_eq, Hn.
Qed.

Lemma cancel_shrinking cid m : keeps (shrinking env) (handleBasicCancel env cid m).
Proof.
  intros s. unfold handleBasicCancel, reply_unless. rewrite M_bind_eq. cbn [get_ch gets fst snd].
  set (tag := BasicCancel_ConsumerTag m).
  assert (Hreply : keeps (shrinking env) (if BasicCancel_NoWait m then mret None
    else reply env cid (MBasicCancelOk (mkBasicCancelOk tag)))).
  { repeat keeps_step. apply (keeps_reply env (shrinking env)). }
  destruct (channels s !! cid) as [ch|] eqn:Hch; cbn [default from_option id].
  - rewrite M_bind_eq, (mod_ch_eq _ _ _ _ Hch). cbn [fst snd].
    fold (put cid (ch <| consumers := delete tag (consumers ch) |>) s).
    set (s1 := put cid (ch <| consumers := delete tag (consumers ch) |>) s). rewrite M_bind_eq.
    destruct (consumers ch !! tag) as [co|] eqn:Hco.
    + transitivity (release_consumer env co s1).2; [|apply Hreply].
      apply (leave_shrinking s s1 _ [co]); [by apply conss_remove|done|done|].
      intros Hr. apply (release_all [co] []) in Hr. simpl in Hr. by rewrite M_bind_eq in Hr.
    + transitivity s1; [|apply Hreply].
      apply (leave_shrinking s s1 _ []); [|done|done|by apply released_nil].
      unfold s1. rewrite delete_id by done. cbn [app]. rewrite (conss_at _ _ _ Hch), conss_put. done.
  - rewrite M_bind_eq. unfold mod_ch, modify. cbn [fst snd]. rewrite alter_gone by done.
    rewrite M_bind_eq. simpl. destruct s. apply Hreply.
Qed.

(** Cancelled by the server: the queue manager has dropped the registration already. *)
Definition keeps_registered (s s' : Conn) : Prop := registered [] s → registered [] s'.
#[local] Instance keeps_registered_preorder : PreOrder keeps_registered.
Proof. split; [by intros s Hs|]. intros s1 s2 s3 H1 H2 Hs. auto. Qed.

Lemma cancel_consumers_registered cid cs : ∀ s, registered cs s →
  registered [] (for_each cs (cancel_consumer env cid) s).2.
Proof.
  induction cs as [|co cs IH]; intros s Hr; simpl; [done|]. rewrite M_bind_eq. apply IH.
  unfold cancel_consumer, ignore. rewrite !M_bind_eq. cbn [mret M_ret snd].
  destruct (release_registered co cs s Hr) as (Hr1 & _).
  eapply subscriptions_registered; [|exact Hr1].
  by apply (keeps_writeMethod env (same subscriptions)).
Qed.

Lemma cancelByQueue_registered cid q g : keeps keeps_registered (cancelConsumerByQueue env cid q g).
Proof.
  intros s Hr. unfold cancelConsumerByQueue. rewrite M_bind_eq. cbn [get_ch gets fst snd].
  destruct (channels s !! cid) as [ch|] eqn:Hch; cbn [default from_option id].
  - destruct (closed ch); [done|]. rewrite M_bind_eq. cbn [gets fst snd].
    rewrite M_bind_eq, (mod_ch_eq _ _ _ _ Hch). cbn [fst snd].
    apply cancel_consumers_registered.
    set (cs := filter (λ co : consumer, cancelled q g co = true) (range_consumers env (out s) (consumers ch)).*2).
    fold (put cid (ch <| consumers := filter (λ e : string * consumer, cancelled q g e.2 = false) (consumers ch) |>) s).
    assert (Hp : conss s ≡ₚ cs ++ conss (put cid (ch <| consumers :=
      filter (λ e : string * consumer, cancelled q g e.2 = false) (consumers ch) |>) s)).
    { rewrite conss_put, (conss_at _ _ _ Hch), app_assoc. f_equiv.
      unfold cs. rewrite range_consumers_perm. apply values_split. }
    destruct Hr as [Hc Hg]. cbn [app] in Hc, Hg. rewrite Hp in Hc, Hg. done.
  - unfold mod_ch, modify. cbn [closed newChannel consumers]. rewrite !M_bind_eq. cbn [gets fst snd].
    rewrite alter_gone by done.
    assert (Hnil : range_consumers env (out s) ∅ = []).
    { apply Permutation_nil. rewrite range_consumers_perm. by rewrite map_to_list_empty. }
    rewrite Hnil. simpl. by destruct s.
Qed.

Lemma conn_cancel_registered q g : keeps keeps_registered (conn_cancelConsumerByQueue env q g).
Proof.
  unfold conn_cancelConsumerByQueue. repeat keeps_step. intros. apply cancelByQueue_registered.
Qed.

(** ** Starting a consumer *)

Definition quietly {A} (m : M A) : Prop := keeps (same subscriptions) m ∧ emits neutral_effect m.

#[local] Instance grows_neutral : Neutral (grows neutral_effect).
Proof.
  split; [apply _| | |].
  - intros e He s. exists [e]. split; [done|]. by constructor.
  - intros c f _ s. exists []. simpl. by rewrite app_nil_r.
  - intros f s. exists []. simpl. by rewrite app_nil_r.
Qed.

(** A step after which the consumers there were are still there, and which gives up no
    registration that is needed. *)
Definition growing (s s' : Conn) : Prop := registered [] s → registered [] s' ∧
  (∀ key, live key s → live key s') ∧
  ∃ t, out s' = out s ++ t ∧ ∀ key, Exists (unsubscribes key) t → ¬ live key s'.

Lemma growing_faithful s s' : growing s s' → registered [] s → registered [] s' ∧ faithful env s s'.
Proof.
  intros Hg Hr. destruct (Hg Hr) as (Hr' & Hl & t & Ht & Hn). split; [done|]. exists t.
  split_and!; [done|done|]. intros _ key Hk Hk'. by destruct Hk'; apply Hl.
Qed.

(** What a quiet step says about unsubscriptions: none names a consumer group. *)
Lemma quietly_none {A} (m : M A) s : quietly m → registered [] s → registered [] (m s).2 ∧
  (∀ key, live key (m s).2 ↔ live key s) ∧
  ∃ t, out (m s).2 = out s ++ t ∧ ∀ key, Exists (unsubscribes key) t → ¬ live key s.
Proof.
  intros [Hs He] Hr. destruct (quiet_shrinking m Hs He s Hr) as (Hr' & _ & t & Ht & Hn & _).
  destruct (subscriptions_registered [] s (m s).2 (Hs s)) as [_ Hl]. split_and!; [done|done|].
  exists t. split; [done|]. intros key. rewrite <-Hl. apply Hn.
Qed.

Lemma quietly_growing {A} (m : M A) s : quietly m → growing s (m s).2.
Proof.
  intros Hm Hr. destruct (quietly_none m s Hm Hr) as (Hr' & Hl & t & Ht & Hn).
  split_and!; [done|by intros key ?%Hl|]. exists t. split; [done|]. intros key. rewrite Hl. apply Hn.
Qed.

Lemma quietly_after {A} (m : M A) s s1 : quietly m → growing s s1 → growing s (m s1).2.
Proof.
  intros Hm Hg Hr. destruct (Hg Hr) as (Hr1 & Hl1 & t1 & Ht1 & Hn1).
  destruct (quietly_none m s1 Hm Hr1) as (Hr2 & Hl2 & t2 & Ht2 & Hn2).
  split_and!; [done|by intros key ?%Hl1%Hl2|]. exists (t1 ++ t2).
  split; [by rewrite Ht2, Ht1, app_assoc|]. intros key [He|He]%Exists_app; rewrite Hl2; auto.
Qed.

(** Before, nothing that shows. *)
Lemma silently_before s s1 s2 : same subscriptions s s1 → out s1 = out s → growing s1 s2 → growing s s2.
Proof.
  intros Hs Ho Hg Hr. destruct (subscriptions_registered [] s s1 Hs) as [Hreg Hl].
  destruct (Hg (proj2 Hreg Hr)) as (Hr2 & Hl2 & t & Ht & Hn). rewrite Ho in Ht.
  split_and!; [done|by intros key ?%Hl%Hl2|]. by exists t.
Qed.

(** The consumer [co] is in its channel, on top of those of [s]. *)
Definition reserved (cid : Z) (co : consumer) (s s1 : Conn) : Prop :=
  registered [] s1 ∧ conss s1 ≡ₚ co :: conss s ∧
  ∃ ch, channels s1 !! cid = Some ch ∧ consumers ch !! c_tag co = Some co.

Lemma reserved_growing cid co s s1 t : reserved cid co s s1 → out s1 = out s ++ t →
  Forall neutral_effect t → growing s s1.
Proof.
  intros (Hr & Hp & _) Ht Hn _. split_and!; [done| |].
  - intros key. unfold live. rewrite Hp, owners_cons. lia.
  - exists t. split; [done|]. intros key He. rewrite Exists_exists in He. destruct He as (e & Hin & Hu).
    rewrite Forall_forall in Hn. specialize (Hn e Hin). destruct e; try done. simpl in *. subst.
    unfold live. rewrite owners_pos. intros (co' & Hco & Hd & Hk). destruct Hr as [_ Hg].
    rewrite Forall_forall in Hg. apply (Hg co' Hco Hd). by injection Hk.
Qed.

(** [rollbackConsumer] leaves the consumers of [s]. *)
Lemma rollback_registered cid co s s1 : reserved cid co s s1 →
  registered [] (rollbackConsumer cid co s1).2 ∧ conss (rollbackConsumer cid co s1).2 ≡ₚ conss s ∧
  out (rollbackConsumer cid co s1).2 = out s1 ∧
  ((rollbackConsumer cid co s1).1 = true → ¬ live (registration_of co) (rollbackConsumer cid co s1).2).
Proof.
  intros (Hr & Hp & ch & Hch & Hco). unfold rollbackConsumer. rewrite M_bind_eq, (get_ch_eq _ _ ch) by done.
  cbn [fst snd]. rewrite bool_decide_eq_true_2 by done. rewrite M_bind_eq, (mod_ch_eq _ _ _ _ Hch). cbn [fst snd].
  fold (put cid (ch <| consumers := delete (c_tag co) (consumers ch) |>) s1).
  set (s2 := put cid _ s1). pose proof (conss_remove _ _ _ _ _ Hch Hco) as Hp2. fold s2 in Hp2.
  assert (Hr2 : registered [co] s2).
  { destruct Hr as [Hc Hg]. cbn [app] in *. rewrite Hp2 in Hc, Hg. by split. }
  destruct (release_registered co [] s2 Hr2) as (Hr3 & Hch3 & Hout3 & Hb).
  rewrite Hout3. split_and!; [done| |done|].
  - rewrite Hch3. apply (Permutation_cons_inv (a := co)). by rewrite <-Hp2, Hp.
  - intros Ht. apply Hb in Ht as [_ H0]. unfold live. rewrite Hch3. cbn [app] in H0. rewrite H0. lia.
Qed.

(** A failed subscription leaves the consumers there were. *)
Lemma rollback_growing cid co s s1 t : reserved cid co s s1 → out s1 = out s ++ t →
  Forall neutral_effect t → growing s (rollbackConsumer cid co s1).2.
Proof.
  intros Hres Ht Hn Hr. destruct (rollback_registered cid co s s1 Hres) as (Hr2 & Hp2 & Ho2 & _).
  assert (Hl : ∀ key, live key (rollbackConsumer cid co s1).2 ↔ live key s).
  { intros key. unfold live. by rewrite Hp2. }
  split_and!; [done|by intros key ?%Hl|]. exists t. split; [by rewrite Ho2|].
  destruct (reserved_growing cid co s s1 t Hres Ht Hn Hr) as (_ & Hl1 & t' & Ht' & Hn').
  assert (t' = t) as -> by (rewrite Ht in Ht'; by apply app_inv_head in Ht').
  intros key He. rewrite Hl. intros Hk. by apply (Hn' key He), Hl1.
Qed.

Lemma growing_unsubscribe s s1 q p c g : growing s s1 → ¬ live (mkRegistration q p g) s1 →
  growing s (emit (EUnsubscribe q p c g) s1).2.
Proof.
  intros Hg Hdead Hr. destruct (Hg Hr) as (Hr1 & Hl1 & t & Ht & Hn).
  split_and!; [done|done|]. exists (t ++ [EUnsubscribe q p c g]).
  split; [simpl; by rewrite Ht, app_assoc|]. intros key [He|He]%Exists_app; [by apply Hn|].
  rewrite Exists_cons, Exists_nil in He. destruct He as [He|[]]. simpl in He. by subst key.
Qed.

Lemma subscribe_queue_growing cid m isStream co s s1 : reserved cid co s s1 → out s1 = out s →
  growing s (subscribe_queue env cid m isStream co s1).2.
Proof.
  intros Hres Ho. unfold subscribe_queue. destruct (queueManager env) as [qm|] eqn:Hqm.
  2: { rewrite M_bind_eq. cbn [mret M_ret snd].
       apply (rollback_growing _ _ _ _ []); [done|by rewrite app_nil_r|done]. }
  rewrite M_bind_eq. set (r := subscribe_call env qm m isStream co s1).
  assert (Hr : ∃ t, out r.2 = out s ++ t ∧ Forall neutral_effect t ∧ reserved cid co s r.2).
  { unfold r, subscribe_call. case_match.
    - exists []. rewrite app_nil_r. by split_and!.
    - rewrite !M_bind_eq. cbn [mret M_ret gets fst snd]. eexists [_]. simpl. rewrite Ho. split_and!; [done| |done].
      by constructor. }
  destruct Hr as (t & Ht & Hn & Hres'). destruct r as [[[err|] started] s2]; cbn [fst snd] in *.
  2: by eapply reserved_growing.
  rewrite M_bind_eq. pose proof (rollback_growing _ _ _ _ _ Hres' Ht Hn) as Hg.
  destruct (rollback_registered cid co s s2 Hres') as (_ & _ & _ & Hdead).
  destruct (rollbackConsumer cid co s2) as [unused s3]. cbn [fst snd] in *. rewrite M_bind_eq. cbn [mret M_ret snd].
  unfold when. case_match eqn:Hw; [|done]. apply growing_unsubscribe; [done|]. apply Hdead.
  by destruct started, unused.
Qed.

Lemma reserve cid ch co s : registered [] s → channels s !! cid = Some ch → consumers ch !! c_tag co = None →
  grouped co → let s1 := put cid (ch <| consumers := <[c_tag co := co]> (consumers ch) |>) s in
  reserved cid co s (retainQueueRegistration co s1).2 ∧ out (retainQueueRegistration co s1).2 = out s.
Proof.
  intros [Hc Hg] Hch Hn Hgr s1. cbn [app] in *.
  assert (Hsame : channels (retainQueueRegistration co s1).2 = channels s1 ∧
    out (retainQueueRegistration co s1).2 = out s1).
  { unfold retainQueueRegistration. by case_match. }
  destruct Hsame as [Hch1 Ho1].
  assert (Hp : conss s1 ≡ₚ co :: conss s).
  { unfold s1. rewrite conss_put, (conss_at _ _ _ Hch). simpl. rewrite values_insert by done. done. }
  split; [|by rewrite Ho1]. split_and!.
  - split; cbn [app]; rewrite Hch1, Hp; [|by constructor]. by apply retain_counts.
  - by rewrite Hch1, Hp.
  - eexists. rewrite Hch1. split; [apply lookup_put|]. simpl. apply lookup_insert_eq.
Qed.

Lemma quietly_close_with cid code text k m : quietly (close_with env cid code text k m).
Proof. split; apply (keeps_close_with env _). Qed.
Lemma quietly_reply_unless b cid m : quietly (reply_unless env b cid m).
Proof. unfold reply_unless. split; repeat keeps_step; apply (keeps_reply env _). Qed.
Lemma quietly_pubsub b co : quietly (when b (subscribe_pubsub env co)).
Proof. unfold subscribe_pubsub, when. split; repeat keeps_step; by apply neutral_emit. Qed.

Lemma start_growing cid m isQueue isStream co s : registered [] s → grouped co → is_Some (channels s !! cid) →
  growing s (start_consumer env cid m isQueue isStream co s).2.
Proof.
  intros Hr Hgr [ch Hch]. unfold start_consumer. rewrite M_bind_eq, (get_ch_eq _ _ ch) by done. cbn [fst snd].
  case_bool_decide as Htag; [apply quietly_growing, quietly_close_with|].
  rewrite M_bind_eq, (mod_ch_eq _ _ _ _ Hch). cbn [fst snd]. rewrite M_bind_eq.
  fold (put cid (ch <| consumers := <[c_tag co := co]> (consumers ch) |>) s).
  destruct (reserve cid ch co s Hr Hch) as [Hres Ho]; [by apply eq_None_not_Some|done|].
  set (s2 := (retainQueueRegistration co _).2) in *. rewrite M_bind_eq.
  match goal with |- context [snd (?F s2)] => assert (Hg : growing s (F s2).2); [|set (r := F s2) in *] end.
  { case_match; [by apply subscribe_queue_growing|]. cbn [mret M_ret snd].
    apply (reserved_growing cid co _ _ []); [done|by rewrite app_nil_r|done]. }
  destruct r as [[[code text]|] s3]; cbn [fst snd] in *.
  - apply quietly_after; [apply quietly_close_with|done].
  - rewrite M_bind_eq. apply quietly_after; [apply quietly_reply_unless|].
    apply quietly_after; [apply quietly_pubsub|done].
Qed.

Lemma default_group clientID : DefaultConsumerGroupID (PrefixedAMQP091ClientID clientID) ≠ EmptyString.
Proof.
  unfold DefaultConsumerGroupID. destruct (Cut _ _) as [[a b] [|]] eqn:Hc; [|done].
  apply Cut_more_true in Hc. by intros ->.
Qed.

Lemma group_filled (q g d : string) : d ≠ EmptyString → q ≠ EmptyString →
  (if negb (str_eqb q EmptyString) && str_eqb g EmptyString then d else g) ≠ EmptyString.
Proof.
  intros Hd Hq. unfold str_eqb. rewrite (bool_decide_eq_false_2 (q = EmptyString)) by done.
  case_bool_decide; done.
Qed.

Lemma target_grouped ch h m tag q : grouped (consume_target env ch h m tag q).2.
Proof.
  unfold consume_target. destruct (if _ && negb _ then _ else _) as [queueName pattern]. unfold grouped. simpl.
  apply group_filled, default_group.
Qed.

Lemma consume_growing cid m s : registered [] s → is_Some (channels s !! cid) →
  growing s (handleBasicConsume env cid m s).2.
Proof.
  intros Hr Hch. unfold handleBasicConsume. rewrite M_bind_eq.
  assert (Hs1 : same subscriptions s (consumer_tag env cid m s).2 ∧ out (consumer_tag env cid m s).2 = out s).
  { unfold consumer_tag. case_match; [done|]. rewrite !M_bind_eq. cbn [mret M_ret snd fst gets get_ch].
    split; [|done]. by apply (subs_mod_ch cid (λ ch : Channel, ch <| nextTag := _ |>)). }
  set (tag := (consumer_tag env cid m s).1). set (s1 := (consumer_tag env cid m s).2) in *.
  destruct Hs1 as [Hs1 Ho1]. apply (silently_before _ s1); [done|done|].
  destruct (subscriptions_registered [] s s1 Hs1) as [Hr1 _]. apply Hr1 in Hr.
  assert (Hch1 : is_Some (channels s1 !! cid)).
  { injection Hs1 as Hc _. rewrite <-(fmap_is_Some consumers), <-lookup_fmap, Hc, lookup_fmap. by rewrite fmap_is_Some. }
  rewrite M_bind_eq, applyHook_keeps. destruct (applyHook env _ s1).1 as [req|].
  2: apply quietly_growing, quietly_close_with.
  rewrite M_bind_eq. cbn [gets fst snd]. cbv zeta. case_match eqn:Href; [apply quietly_growing, quietly_close_with|].
  rewrite M_bind_eq. cbn [get_ch gets fst snd].
  pose proof (target_grouped (default newChannel (channels s1 !! cid)) (out s1) m tag (HR_Topic req)) as Hg.
  destruct (consume_target env _ _ _ _ _) as [[isQueue isStream] co]. by apply start_growing.
Qed.

(** ** Frames *)

Definition exact (s s' : Conn) : Prop := registered [] s' ∧ faithful env s s'.

Lemma shrinking_exact s s' : registered [] s → shrinking env s s' → exact s s'.
Proof. intros Hr Hs. by destruct (Hs Hr) as (? & _ & ?). Qed.

Lemma settle_shrinking c tag multiple how :
  keeps (shrinking env) (deliveries ← take_unacked env c tag multiple; for_each deliveries (settle_delivery env how);;
                         drainPending env c;; mret (None : option HErr)).
Proof.
  unfold take_unacked, settle_delivery. repeat keeps_step; try (by apply shrinking_emit).
  - by apply shrinking_mod_ch.
  - apply (delivers_drain (env := env)).
Qed.

Lemma dispatch_exact c m s : registered [] s → is_Some (channels s !! c) →
  exact s (dispatchMethod env c m s).2.
Proof.
  intros Hr Hch.
  assert (Hk : keeps (shrinking env) (dispatchMethod env c m) → exact s (dispatchMethod env c m s).2).
  { intros Hk. by apply shrinking_exact. }
  destruct (neutral_method m) eqn:Hn; [by apply Hk, (keeps_dispatch env (shrinking env))|].
  destruct m; try done; cbn [dispatchMethod] in *.
  - apply Hk. repeat keeps_step; [by apply (keeps_writeMethod env (shrinking env))|apply closeChannel_shrinking].
  - apply Hk. repeat keeps_step. apply closeChannel_shrinking.
  - apply Hk. unfold handleBasicQos. repeat keeps_step; [by apply shrinking_mod_ch|].
    apply (keeps_reply env (shrinking env)).
  - by apply growing_faithful; [apply consume_growing|].
  - apply Hk, cancel_shrinking.
  - apply Hk, settle_shrinking.
  - apply Hk. unfold handleBasicReject. destruct (BasicReject_Requeue m); apply settle_shrinking.
  - apply Hk. unfold handleBasicNack. destruct (BasicNack_Requeue m); apply settle_shrinking.
Qed.

Lemma frame_exact f s : registered [] s → exact s (processFrame env f s).2.
Proof.
  intros Hr. apply (processFrame_rule env (shrinking env) s (exact s)).
  - intros s'. by apply shrinking_exact.
  - intros m _ Hch. by apply dispatch_exact.
  - intros Hn. apply (leave_shrinking _ (put (Frame_Channel f) newChannel s) _ []); [|done|done|by apply released_nil].
    cbn [app]. rewrite conss_put. cbn [newChannel consumers]. rewrite map_to_list_empty. simpl.
    by rewrite delete_id by (by rewrite lookup_fmap, Hn).
  - by apply shrinking_modify.
Qed.

Lemma step_registered s s' : conn_step env (λ _ _, True) s s' → registered [] s → registered [] s'.
Proof.
  intros [f s0 _|topic payload props s0|q g s0|q s0|s0] Hr.
  - by apply frame_exact.
  - by apply (delivers_message (env := env) (R := shrinking env)).
  - by apply conn_cancel_registered.
  - done.
  - by apply conn_cleanup_shrinking.
Qed.

Lemma conn_cleanup_channels s : channels (conn_cleanup env s).2 = ∅.
Proof.
  unfold conn_cleanup, close_connection. do 3 rewrite M_bind_eq. cbn [gets modify fst snd id].
  match goal with |- channels (?k ?s0).2 = _ => cut (keeps (same channels) k); [intros Hk; exact (Hk s0)|] end.
  unfold cleanup, release_consumer, releaseQueueRegistration. repeat keeps_step; try done.
  intros s0. unfold same. by repeat case_match.
Qed.

(** C6 Queue registrations are exact.  After any frames, deliveries, server-side
    cancellations and appends in any order, every queue registration counts the consumers
    that depend on it, over all channels.  A frame never gives up a registration that some
    consumer still depends on and, where there is a queue manager, gives up each one it
    leaves without consumers; so does the end of the connection, which leaves none. *)
Theorem registrations_exact s s' : rtc (conn_step env (λ _ _, True)) s s' → registered [] s →
  registered [] s' ∧ (∀ f, faithful env s' (processFrame env f s').2) ∧
  faithful env s' (conn_cleanup env s').2 ∧ ∀ key, ¬ live key (conn_cleanup env s').2.
Proof.
  intros Hsteps Hr. assert (Hr' : registered [] s').
  { clear -RangeOk0 Hsteps Hr. induction Hsteps as [|s1 s2 s3 Hs _ IH]; [done|]. by apply IH, (step_registered s1). }
  split_and!; [done| | |].
  - intros f. by apply frame_exact.
  - by apply conn_cleanup_shrinking.
  - intros key. unfold live. rewrite conn_cleanup_channels. unfold consumers_of.
    rewrite fmap_empty, map_to_list_empty. unfold owners. simpl. lia.
Qed.
End registrations.
