(* ===== verification/AmqpExamples.v ===== *)
(** * A connection to run

    A concrete connection with a queue manager that accepts everything, a local
    publisher, and the frames of a publication: the theorems about channels apply
    to them, and the handlers run on them by computation. *)

From Stdlib Require Import ZArith Lia Bool Ascii String Strings.Byte.
From stdpp Require Import gmultiset prelude gmap strings.
From S2P Require Import Prelude State GoStrings Strconv Payload Envelope Topics Routing QueueConfig.
From S2P Require Import Codec AmqpTypes AmqpMethods AmqpFrame AmqpArgs QueueErrors Base64.
From S2P Require Import AmqpChannel AmqpLogic AmqpContent AmqpSecurity AmqpDelivery AmqpConsumers.

(** ** The surroundings *)

#[local] Instance ascii_text : GoText := {|
  unicode_ToLower := id; unicode_ToUpper := id; unicode_Quote := id;
  time_ParseDuration := λ _, None; ParseFloat_times := λ _ _, None; Sprint_composite := λ _, "value"%string |}.

(** A queue manager that accepts every call. *)
Definition willing : QueueManager :=
  mkQM (λ _ _, None) (λ _ _, None) (λ _ _, None) (λ _ _, None) (λ _ _, None) true
       (Some (λ _ _ _, DurableDone None)) false.

Definition surroundings (p : option ConnectionPolicy) (id : option LocalSessionIdentity) : Env :=
  mkEnv "c1" 131072 2047 p None None id (Some willing) (λ _ _, Some []) (λ _ _, false) false None
        (λ _, None) (λ _, map_to_list) (λ _, map_to_list) (λ _, map_to_list) (λ _, map_to_list).
#[local] Instance surroundings_range p id : RangeOk (surroundings p id).
Proof. by split. Qed.

Definition external : Env := surroundings None None.

(** A local principal that may only publish, to one exact target. *)
Definition publisher : Env :=
  surroundings
    (Some (NewLocalConnectionPolicy
      (Some (mkAuthz (λ _ _ _ key, if str_eqb key "jobs" then LocalPublishGrantExactTarget
                                   else LocalPublishGrantNone) (λ _ _ _, false))) 0))
    (Some (mkIdentity "p1" LocalRolePublisher EmptyString EmptyString EmptyString EmptyString)).

(** ** The connection *)

Definition ch1 : Channel := newChannel <| confirmMode := true |>.
Definition conn1 : Conn := mkConn {[ 1 := ch1 ]} ∅ 0 false ∅ [].

Definition publish1 : BasicPublish := mkBasicPublish 0 EmptyString "jobs" false false.
Definition body1 : list byte := bytes_of "hello".
Definition header1 : ContentHeader := mkContentHeader ClassBasic 0 5 0 BasicProperties_zero.

Definition method_frame (m : AnyMethod) : Frame :=
  match buildMethodFrame 1 m with Ret f => f | _ => mkFrame 0 0 [] end.
Definition header_frame : Frame :=
  match buildContentHeaderFrame 1 5 BasicProperties_zero with Ret f => f | _ => mkFrame 0 0 [] end.

(** ** Publishing *)

Lemma publish_confirmed_witness :
  settled 1 0 [] (dropped_target external 1 publish1 header1 body1 conn1)
    (finishPublish external 1 publish1 header1 body1 conn1).2.
Proof. apply (publish_confirmed external 1 publish1 header1 body1 conn1 ch1); reflexivity. Defined.

Lemma content_assembled_witness :
  processFrames external (method_frame (MBasicPublish publish1) :: header_frame ::
    (body_frame 1 <$> [bytes_of "he"; bytes_of "llo"])) conn1
  = (None, (finishPublish external 1 publish1 header1 body1 conn1).2).
Proof.
  apply (content_assembled external conn1 ch1 publish1 header1 (method_frame (MBasicPublish publish1))
           header_frame [bytes_of "he"; bytes_of "llo"]); [reflexivity|reflexivity|by split|].
  split.
  - by split.
  - by split.
  - vm_compute. reflexivity.
  - eexists. vm_compute. reflexivity.
  - reflexivity.
  - discriminate.
  - left. reflexivity.
  - by repeat constructor.
  - split; [reflexivity|by vm_compute].
Defined.

Lemma misplaced_closes_witness :
  processFrame external (body_frame 1 body1) conn1
  = (None, refused external 1 UnexpectedFrame "unexpected content body" ch1 conn1).
Proof.
  apply (misplaced_closes external (body_frame 1 body1) ch1 conn1 UnexpectedFrame
           "unexpected content body"); [reflexivity|reflexivity|].
  apply misplaced_body; [reflexivity|by left].
Defined.

(** A hook that moves every publication to another topic and adds a property. *)
Definition hooked : Env :=
  surroundings (Some (mkPolicy ConnectionPolicyExternal false None
    (Some (λ _ req, Some (mkHookRequest (HR_Hook req) (HR_ClientID req) (HR_ExternalID req) "$queue/audited"
             (HR_Payload req) (<["audited"%string := "yes"%string]> (HR_Properties req))))) None 0)) None.

Lemma publish_identity_witness :
  (∃ t, out (finishPublish external 1 publish1 header1 body1 conn1).2 = out conn1 ++ t ∧
     Forall (honest external) t) ∧
  (∃ t, out (finishPublish hooked 1 publish1 header1 body1 conn1).2 = out conn1 ++ t ∧
     Forall (honest hooked) t).
Proof.
  split.
  - apply (proj2 (publish_identity external 1 publish1 header1 body1 conn1 eq_refl)). left. by right.
  - apply (proj2 (publish_identity hooked 1 publish1 header1 body1 conn1 eq_refl)). right.
    intros req Hreq. vm_compute in Hreq. apply (inj Some) in Hreq. rewrite <-Hreq. vm_compute. reflexivity.
Defined.

Lemma grant_decides_path_witness :
  (canPublishLocal publisher EmptyString "jobs" conn1).1 = LocalPublishGrantExactTarget ∧
  ∃ t, out (finishPublish publisher 1 publish1 header1 body1 conn1).2 = out conn1 ++ t ∧
    Forall (by_grant LocalPublishGrantExactTarget publish1) t.
Proof.
  split; [reflexivity|]. apply (grant_decides_path publisher 1 publish1 header1 body1 conn1). reflexivity.
Defined.

Lemma publisher_confined_witness : ∃ t,
  out (processFrames publisher [method_frame (MBasicPublish publish1); header_frame; body_frame 1 body1] conn1).2
  = out conn1 ++ t ∧ Forall publisher_effect t.
Proof.
  apply (publisher_confined publisher); [reflexivity|reflexivity|].
  intros c ch Hch. unfold conn1 in Hch. simpl in Hch. apply lookup_singleton_Some in Hch as [_ <-]. reflexivity.
Defined.

(** ** Deliveries *)

Definition consumer1 : consumer :=
  mkConsumer "t1" "$queue/jobs" EmptyString "jobs" EmptyString "workers" false false.
Definition unacked1 (tag : Z) : unackedDelivery := mkUnacked tag "jobs" "jobs" "workers" (tag + 10) true.
Definition pending1 : pendingDelivery := mkPending "t1" "$queue/jobs" "jobs" body1 ∅.

(** A channel with a full window of two and one delivery waiting. *)
Definition ch2 : Channel :=
  newChannel <| consumers := {[ "t1"%string := consumer1 ]} |> <| prefetchCount := 2 |>
    <| unacked := {[ 1 := unacked1 1; 2 := unacked1 2 ]} |> <| pendingDeliveries := [pending1] |>.
Definition conn2 : Conn :=
  mkConn {[ 1 := ch2 ]} {[ mkRegistration "jobs" EmptyString "workers" := 1 ]} 2 false ∅ [].
Definition ack2 : AnyMethod := MBasicAck (mkBasicAck 2 true).

Lemma disposition_settles_witness : ∃ ch',
  channels (dispatchMethod external 1 ack2 conn2).2 !! 1 = Some ch' ∧
  settlements (out (dispatchMethod external 1 ack2 conn2).2) ≡ₚ
    [(SAck, "jobs"%string, "workers"%string, 11); (SAck, "jobs"%string, "workers"%string, 12)] ∧
  unacked ch' !! 1 = None.
Proof.
  destruct (disposition_settles external 1 ack2 SAck 2 true conn2 ch2) as (ch' & Hch & Hset & Hun & _).
  - by eexists.
  - reflexivity.
  - reflexivity.
  - vm_compute. discriminate.
  - reflexivity.
  - intros t. unfold ch2. simpl. rewrite lookup_insert_is_Some, lookup_singleton_is_Some. lia.
  - exists ch'. split; [exact Hch|]. split; [rewrite Hset; vm_compute; apply perm_swap|]. rewrite Hun by (vm_compute; discriminate).
    by rewrite decide_True by (by eexists).
Defined.

Lemma window_conn2 : window conn2.
Proof. intros c ch Hch _. unfold conn2 in Hch. simpl in Hch. apply lookup_singleton_Some in Hch as [_ <-]. vm_compute. discriminate. Qed.

Lemma prefetch_window_witness :
  overrun 1 ((processFrame external (method_frame ack2) (conn_deliverMessage external "jobs" body1 ∅ conn2).2).2, []).
Proof.
  destruct (prefetch_window external 1 (Nat.lt_succ_diag_r 0)) as [Hrun Hbound].
  apply (Hbound conn2); [apply window_conn2|]. apply Hrun.
  eapply rtc_l; [apply step_deliver|]. apply rtc_once, step_frame. intros q ch Hd. vm_compute in Hd. discriminate.
Defined.

(** Two goroutines that deliver at once both find room for one delivery: the window of
    one holds two. *)
Definition ch3 : Channel :=
  newChannel <| consumers := {[ "t1"%string := consumer1 ]} |> <| prefetchCount := 1 |>.
Definition conn3 : Conn := mkConn {[ 1 := ch3 ]} ∅ 0 false ∅ [].
Example prefetch_overrun : ∃ s' ch', rtc (section_step 2) (conn3, []) (s', []) ∧
  channels s' !! 1 = Some ch' ∧ prefetchCount ch' = 1 ∧ size (unacked ch') = 2%nat.
Proof.
  do 2 eexists. split.
  - eapply rtc_l; [apply (sec_check 2 1 ch3 consumer1 "jobs" ∅); [reflexivity..|vm_compute; lia]|].
    eapply rtc_l; [apply (sec_check 2 1 ch3 consumer1 "jobs" ∅); [reflexivity..|vm_compute; lia]|].
    eapply rtc_l; [apply (sec_record 2 1 (mkSending 1 consumer1 "jobs" ∅) [])|].
    apply rtc_once, (sec_record 2 2 (mkSending 1 consumer1 "jobs" ∅) [] []).
  - split; [vm_compute; reflexivity|]. split; vm_compute; reflexivity.
Qed.

Lemma disposition_refills_witness : ∃ ch' k fss failed,
  channels (dispatchMethod external 1 ack2 conn2).2 !! 1 = Some ch' ∧
  pendingDeliveries ch' = drop k [pending1] ∧
  contents (out (dispatchMethod external 1 ack2 conn2).2) = [] ++ fss ∧
  sent_as external 1 ch2 failed (filter (wanted ch2) (take k [pending1])) fss ∧
  (failed = false → pendingDeliveries ch' = [] ∨ full ch').
Proof.
  apply (disposition_refills external 1 ack2 (SAck, 2, true) conn2 ch2).
  - reflexivity.
  - reflexivity.
  - vm_compute. discriminate.
Defined.

(** ** Registrations *)

Lemma registered_conn2 : registered [] conn2.
Proof.
  assert (Hc : conss conn2 = [consumer1]) by (vm_compute; reflexivity).
  split; cbn [app]; rewrite Hc; [|by repeat constructor]. intros key. rewrite owners_cons.
  unfold conn2. simpl. case_decide as Hd.
  - destruct Hd as [_ <-]. vm_compute. reflexivity.
  - rewrite lookup_singleton_ne; [done|]. intros <-. by apply Hd.
Qed.

Lemma registrations_exact_witness :
  registered [] conn2 ∧
  let s' := (processFrame external (method_frame (MBasicCancel (mkBasicCancel "t1" false))) conn2).2 in
  registered [] s' ∧ queueRegistrations s' = ∅ ∧ (∀ f, faithful external s' (processFrame external f s').2).
Proof.
  split; [apply registered_conn2|].
  destruct (registrations_exact external conn2
    (processFrame external (method_frame (MBasicCancel (mkBasicCancel "t1" false))) conn2).2)
    as (Hr & Hf & _); [|apply registered_conn2|].
  - by apply rtc_once, step_frame.
  - split; [exact Hr|]. split; [vm_compute; reflexivity|exact Hf].
Defined.

(** ** Arguments *)

(** The documented forms of a stream offset. *)
Example stream_offset_forms :
  extractStreamOffset [("x-stream-offset"%string, VString "first")] = Some (cursor_at CursorEarliest 0 0) ∧
  extractStreamOffset [("x-stream-offset"%string, VString " Next ")] = Some (cursor_at CursorLatest 0 0) ∧
  extractStreamOffset [("x-stream-offset"%string, VString "offset=42")] = Some (cursor_at CursorOffset 42 0) ∧
  extractStreamOffset [("x-stream-offset"%string, VString "timestamp=1700000000")]
  = Some (cursor_at CursorTimestamp 0 1700000000000000000) ∧
  extractStreamOffset [("x-stream-offset"%string, VInt64 42)] = Some (cursor_at CursorOffset 42 0).
Proof. vm_compute. by split_and!. Qed.

(** A 32-bit integer is ignored, and an AMQP timestamp, which the codec reads as an
    unsigned integer, is taken for an offset. *)
Example stream_offset_gaps :
  extractStreamOffset [("x-stream-offset"%string, VInt32 42)] = None ∧
  extractStreamOffset [("x-stream-offset"%string, VUint64 1700000000)]
  = Some (cursor_at CursorOffset 1700000000 0).
Proof. vm_compute. by split. Qed.

(** ** Behaviours to know about *)

(** An empty message is delivered with an empty body frame, which the broker's own
    handler refuses from a client. *)
Example empty_body_frame : buildBodyFrames 1 [] 131072 = [body_frame 1 []].
Proof. vm_compute. reflexivity. Qed.

(** A multiple acknowledgement of tag 0 settles nothing; in the protocol it means all. *)
Example ack_zero : settlements (out (dispatchMethod external 1 (MBasicAck (mkBasicAck 0 true)) conn2).2) = [].
Proof. vm_compute. reflexivity. Qed.

(** A publication to a malformed queue address is dropped without a confirm, and the
    next one takes its number. *)
Example confirm_shift :
  let malformed := mkBasicPublish 0 EmptyString "$queue/jobs/$ack/x" false false in
  let s := (finishPublish external 1 malformed header1 body1 conn1).2 in
  out s = [] ∧ confirms 1 (out (finishPublish external 1 publish1 header1 body1 s).2) = [(1, true)].
Proof. vm_compute. by split. Qed.

(** The message identifier of a publication to a queue is not stored with it. *)
Example queue_publish_message_id :
  let header := mkContentHeader ClassBasic 0 5 0
    (mkBasicProperties EmptyString EmptyString None 0 0 "c" "r" EmptyString "m-1" 0 "t" EmptyString EmptyString EmptyString) in
  ∃ msg, EQueuePublish msg None ∈ out (finishPublish external 1
      (mkBasicPublish 0 EmptyString "$queue/jobs" false false) header body1 conn1).2 ∧
    q_Properties msg !! "reply-to"%string = Some "r"%string ∧ q_Properties msg !! "message-id"%string = None.
Proof. vm_compute. eexists. split; [by left|by split]. Qed.

(** Two consumers of one topic filter on one connection: cancelling the first removes the
    subscription of both. *)
Example shared_filter :
  let consume tag := MBasicConsume (mkBasicConsume 0 "news.#" tag false true false true []) in
  let s := (processFrames external [method_frame (consume "a"%string); method_frame (consume "b"%string);
              method_frame (MBasicCancel (mkBasicCancel "a" true))] conn1).2 in
  out s = [ERouterSubscribe "amqp091:c1" "news/#"; ERouterSubscribe "amqp091:c1" "news/#";
           ERouterUnsubscribe "amqp091:c1" "news/#"] ∧
  dom (consumers (default newChannel (channels s !! 1))) = {[ "b"%string ]}.
Proof. vm_compute. by split. Qed.
